(* ===== verification/_CoqProject ===== *)
-Q . S2P
Prelude.v
Bytes.v
Lines.v
Io.v
Slab.v
Limit.v
Output.v
Ring.v
RingConc.v
Wake.v
Publish.v
BufRing.v
Standing.v
Cache.v
DiskCache.v
DiskConc.v
Pool.v
Http.v
Gzip.v
Ws.v
WsEngine.v
Socks.v
Static.v
Chunked.v
ProxyHead.v
ProxyPump.v
Fleet.v
ProxyHop.v
Interim.v
IpText.v
Connect.v
Blocking.v
Lanes.v
Accept.v
Counts.v
Interp.v
UringState.v
Uring.v
UringInv.v
UringServe.v
UringEffect.v
UringSend.v
UringShard.v
UringRun.v
UringMain.v
Serve.v
ServeRun.v
Text.v
Config.v
Reload.v
Renewal.v
L4Uring.v
Kqueue.v
KqInv.v
KqServe.v
KqEvent.v
KqMain.v
Control.v
AccessLog.v
Sni.v
OnDemand.v
TlsPool.v
Metrics.v
Admin.v
