(* ===== verification/Prelude.v ===== *)
(** * dragons-net: the host runtime, verified

    dragons-net serves verified protocol cores from a Rust host. The cores are
    linked archives; the host ([src/migration/dataplane/host/src]) owns the
    bytes, the connections and the shared state between its threads, on top of
    small runtime crates ([src/crates/dn-runtime]) and of protocol crates kept
    for their interleavings ([src/models]). This library models the host's own
    logic and proves what makes it correct. A linked verdict (a pure function
    from bytes to bytes or scalars), the operating system, the clock and a
    codec of a third-party crate are parameters, and what the host relies on
    of them is a named record of hypotheses ([verdict_contract],
    [engine_contract], [utf8_contract], [seam_gate], [boundary_ok],
    [host_contract], [core_replays], [HostOk], [KHostOk]) with a concrete instance that meets it.

    ** Files

    - [Prelude]: machine integers at their width ([wrap], [wrapping_add],
      [saturating_sub]), [result], [Vec] push and pop, labelled transition
      systems ([run], [reach]) counting and sums over thread states, the tactics
      [branch] and [zify_bool] and the hint database [dn].
    - [Bytes]: the slice, [str] and integer operations the parsers use.
    - [Lines]: the walk over the CRLF-terminated lines of a head that the
      host's scanners share, and heads as lists of lines.
    - [Io]: reads, writes, files and kernel copies that come short, are
      interrupted or fail, over which the pumps are quantified.
    - [IpText]: [str::parse::<IpAddr>].

    The runtime crates:
    - [Slab] ([crates/dn-runtime/src/slab.rs]): [Slab], [Slot], [Token] and
      [insert], [get], [get_mut], [remove]. The class [SlotStore] states what
      the slab promises its users; every history behaves as a map whose keys
      are never reissued (C1), a removed token never resolves again
      ([removed_token_never_resolves]), and an insert
      is refused only when nothing is free ([insert_refused_full]).
    - [Limit] ([limit.rs]): [ConnectionLimit] under every interleaving of loads
      and compare-exchanges: permits never exceed the maximum
      ([permits_bounded]), a refusal saw the counter full
      ([refusal_means_full]).
    - [Output] ([output.rs]): [OutputCursor] over any partial sends
      ([partial_sends_exact]).

    The shared-memory protocols:
    - [Ring], [RingConc] ([models/ring/src/lib.rs]): the single-producer
      single-consumer ring, [channel] to [Ring::drop], on its free-running
      words with the close bit; it refines a bounded queue (C7). Interleaved one
      atomic or slot access at a time, no slot is misused and order is kept
      (C8), closed and empty means drained
      ([closed_and_empty_is_drained]); [Handoff] is the waker cell:
      no wakeup is lost (C10).
    - [Wake] ([models/wake/src/lib.rs]): publish and park against a doorbell:
      nothing published is stranded (C11), and rings coalesce
      ([rings_coalesce]).
    - [Publish] ([models/config-publish/src/lib.rs],
      [models/borrow-recycle/src/lib.rs]): a pair published in one word is
      never torn, in two it can be; a lease is taken once.
    - [BufRing] ([bufring.rs]): the provided-buffer ring against the kernel:
      each buffer id is available, lent, or between the two steps of a
      recycling, across the wrap of the tail, and a recycled one is available
      again (C12).

    The host's shared state:
    - [Standing] ([standing.rs]): the striped per-source counters and the rate
      windows. They refine a single map (C16); the rate limit is exact
      ([rate_limit_exact]) and pruning is invisible ([rate_prune_invisible]), though a saturated counter wraps; the caps
      hold under every interleaving of accepts and closes ([shard_caps_hold]).
    - [Cache] ([cache.rs]): keys, lifetimes, the store and miss coalescing as a
      transition system over threads in [serve], [lookup_coalescing] with its
      deadline, [lookup_effect_nb] and [store], with the in-flight records as a
      heap (C21, [serve_replays_while_fresh]); and the runs in which a deadline
      lets a second fetch begin ([deadline_breaks_collapsing]) and a panicking
      fetch leaves its waiters ([panic_strands_serve]).
    - [DiskCache] ([cache_disk.rs]): the entry codec, paths and file operations
      over a file system, one operation at a time, with failing system calls
      ([disk_codec_bijective], [disk_history_serves_puts], [put_atomic]).
    - [DiskConc] ([cache_disk.rs]): the same operations cut at their system
      calls, over names and open files, for any number of threads: what is
      served was put (C27), unless two puts of one path cross, which share a
      temporary file ([crossed_puts_serve_a_torn_entry]).
    - [Pool] ([pool.rs]): [Conns], the upstream sockets
      ([reuse_exclusive]), and [Buffers], the recycled buffers
      ([loans_exclusive]): nothing lent is shared.

    The host's protocols:
    - [Ws] ([ws.rs]): the WebSocket handshake, SHA-1 and base64 included: the
      answer carries the token of the request's key (C31); the header decoder
      and the encoders.
    - [WsEngine] ([ws_assembly.rs]): the message engine [feed] with everything
      it calls, panics included: total and bounded on any bytes (C32),
      independent of how reads cut the stream (C33), and a masked message is
      echoed as it was before masking ([single_frame_echo]).
    - [Http] ([http.rs]): connection annotation (C35), the verdicts on a growing
      buffer ([buffered_verdicts_final]), the request boundary.
    - [Interim] ([interim.rs]): when [100 Continue] is sent.
    - [Gzip] ([gzip.rs]): exactly the responses that can be recompressed are,
      and they keep their decoded body, their framing and their other fields
      (C24).
    - [Socks] ([socks.rs]): the SOCKS5 egress driver (C38).
    - [Connect] ([proxy_connect.rs]): the handler in a monad that records the
      questions, the lookups and the dials in their order: nothing is looked up
      or dialled but after the gate admitted it, and a tunnel delivers both
      directions in order (C37).

    File serving and the reverse proxy:
    - [Static] ([static_serve.rs]): resolution under a root, over a file system
      with links ([canonical]): only real paths below it are opened (C14), the plan
      parser ([parse_plan_exact]), and the two executions of a plan, through a buffer and by
      [sendfile], over files that shrink and clients that leave (C5).
    - [Chunked], [ProxyHead], [ProxyPump], [Fleet], [ProxyHop]
      ([proxy_dial.rs]): the chunked parser sees the end of a body exactly
      (C22); the scanners and the host's own responses; the portable and the
      in-kernel body relay, which send prefixes of the same body and agree when
      the client and the kernel let them (C19), though not on an interrupted
      read ([interrupted_read_differs]); the backend registry and its breaker,
      exactly as the history says (C29); sockets are pooled at message boundaries
      ([forward_pools_at_boundary]); and the whole hop: a host's answer, or the
      head and the body of one upstream response (C15).

    The blocking backend, which composes them:
    - [Blocking] ([blocking.rs], [handle_conn_prefilled]): a connection's state
      ([Conn]), the opening, the header phase and the lanes. The class
      [StreamLane] is what the loop relies on of a streaming lane.
    - [Lanes] ([proxy_hook.rs], [stream_serve.rs], [static_serve.rs]): the three
      streaming lanes meet it, and so the deployed loop returns and answers
      every request once, in order, framed as announced (C3).
    - [Accept] ([blocking.rs], [run]): the accept loop and its workers: exact
      counters and ceilings through refusals, panics and failed spawns (C13).

    The serve gateway, through which every backend reaches the linked core:
    - [Serve] ([serve.rs], [gateway.rs], [cake_serve.rs]): the seams and the
      exported functions behind them, the switches, the frames of every call and
      one job on an owner thread. What a caller framed is what crosses, each
      reading in its own argument (C34).
    - [ServeRun] ([serve.rs]): the owner threads, the callers blocked on their
      channels and the mailboxes of shards and reactors, under every
      interleaving: every request is answered once, with its own answer, and a
      panic costs one request (C6).

    The effect interpreter:
    - [Interp] ([interp.rs]): the frames that cross to the linked core, the loop
      [run_effect_serve] and its three effects, over the caches, the disk, the
      backends and the network. [Prog] is an effect program as the core runs it
      and [denote] executes it directly; a core that replays the results it is
      given ([core_replays]) makes the loop compute [denote] (C36).

    The io_uring backend ([uring.rs]):
    - [UringState]: the entries of the two queues with their [user_data], a
      connection's state ([Conn]), the slab of connections and the shard
      ([Shard]) with what it shares with the kernel, the serve owner and the
      other threads.
    - [Uring]: every completion handler as it stands in the source, the loop as
      a transition system ([ustep], [Label]) and the kernel's contract
      ([complete]). The class [Host] is what a shard is given.
    - [UringInv]: the discipline as an invariant: what may be outstanding for a
      connection in each of its states ([slot_ok], the entries, completions,
      jobs and answers that name its slot), the places of a provided buffer, the
      descriptors, the counters. The class [HostOk] is what the shard relies on
      of its environment: the other threads keep the standing table's counts,
      new descriptors are fresh, the framer makes progress.
    - [UringServe], [UringEffect], [UringSend], [UringShard], [UringRun]: every
      handler and every label keeps it, one lane per file.
    - [UringMain]: so along every run in which no upstream deadline passes no
      handler panics, a slot that is free has nothing outstanding, every buffer
      is in one place, and, without a static root and without zero-copy
      streaming, a client is sent what was staged for it (C2); and
      the runs that show where the source does not do as it says.

    The kqueue backend ([kqueue.rs]):
    - [Counts]: the standing table as both event loops rely on it.
    - [Kqueue]: a connection's state ([Conn]), the shard ([Reactor]) with its
      queued changes, every handler in a small monad ([Done], [Unwind],
      [Stuck]), the panic isolation, the kernel's side ([Sock], [Knote],
      [kevent]: registrations with their edges) and the loop as a transition
      system ([kstep], [Label]). The class [KHost] is what a shard is given.
    - [KqInv]: who waits for what ([phase], [conn_ok]): a connection is with the
      serve owner, reading or writing, and what it waits for is on its way; the
      system calls and the ways out of the shard. [KHostOk] is what the shard
      relies on of the other threads.
    - [KqServe], [KqEvent]: the fast paths, then the events and the serve owner.
    - [KqMain]: so along every run no connection is stranded, no socket leaks
      and what goes out is what was staged (C4); and the runs that show where
      the source does not do as it says.

    Configuration, and what runs beside the backends:
    - [Text]: strings as the source makes them from bytes
      ([String::from_utf8_lossy]), their lines and their tokens.
    - [Config] ([config.rs]): the directives, the gates, the projection that the
      linked parser prints, virtual hosts, [load] and [reload]. At boot and after
      any reloads the deployment and the gates are what the last texts state
      (C40), of their types ([config_typed]), and what a configuration states is
      what is read ([settings_roundtrip], [projection_roundtrip]).
    - [Reload] ([reconfig.rs]): [reload] cut at its shared accesses, run by the
      signal watcher and by admin requests at once. Whole accepted texts only,
      and exact counts (C18); a signal is not lost (C9); alone, the cut reload is
      [Config.reload] ([steps_are_reload]); and the runs in which two overlapping
      reloads leave an old text in force.
    - [Renewal] ([renewal.rs]): the DER reader down to the validity of a
      certificate (C25), the civil calendar ([days_from_civil_counts]), the
      decision in binary64, the sweep over the cached leaves and the schedule: a
      host is attempted again only after its cooldown ([renewals_paced]).
    - [L4Uring] ([l4_uring.rs]): the layer-4 relay, two splices per flow through
      pipes, against a kernel that completes in any order and in any pieces
      (C39).

    The front doors of the control plane and of TLS, and what is observed:
    - [Control] ([control.rs]): the head, the routes, the upgrade with the
      message its header carries, the record echo and the splice to a responder;
      every connection is finished with at most one of five answers, dials are
      recorded and come after the 101, and an upgrade carries both streams but
      for what shares a read with the end of the head (C20).
    - [AccessLog] ([access_log.rs], and the names of [tls.rs]): every line, byte
      for byte: one HTTP/1 request is one line with its fields (C26), and an
      HTTP/2 request with a path of its own making is not ([h2_path_adds_a_line]).
    - [Sni], [OnDemand] ([tls/ondemand.rs]): the name in the first bytes of a
      ClientHello and exactly what is sent to the authorizer about it (C23); then the cache of decisions, the lock
      per name, the leaf on disk and the issuer, as the threads of handshakes and
      of the renewal sweep: orders are spaced and authorized, leaves are usable
      and locks are released (C30).
    - [TlsPool] ([tls.rs]): the certificate material, its validation, the
      published pool and its reloads: always complete, and in step with the
      files once the watcher has seen a change of their stamps (C28).
    - [Metrics] ([metrics.rs]): the counters over every interleaving of their
      additions ([counters_exact]), the histogram ([histogram_exact]) and the
      exposition, which reads back ([exposition_scrapes]).
    - [Admin] ([admin.rs]): the operator's listener over the configuration, the
      drain, the cache, the fleet, the counters and the pool; its answers, which
      read back as JSON, and what it may change (C17).

    ** Conventions

    A panic of the source (an index out of range, an [expect], undefined
    behaviour of an uninitialised slot) is [None] of an outer [option], so that
    a theorem that gives [Some] rules it out. A mutex-protected section is one
    step; atomics step one operation at a time, in sequentially consistent
    order (the weaker orderings of the source are not modelled). [usize] is 64
    bits where its width matters. Names are the source's, except where they
    are reserved ([AdmittedIn], [admit_source], [take_buf]).

    Fuel: [WsEngine.feed] runs on two turns per input byte plus two, proved
    enough for every engine and input ([feed_total]); [Lines.scan_lines],
    [Gzip.rebuild_head], [Http.h2c_burst_complete] and [Pool.Conns.checkout]
    use the length of what they consume, which each round shortens;
    [Socks.handshake] uses the step budget of the source itself; [Ws.sha1] pads
    with 64 pushes of fuel, of which at most 63 are needed. The pumps and loops
    over a socket run on [Io.weight] of what is still to be read, plus what is
    buffered, which every round lowers; the file pumps on the bytes still to be
    sent plus the coming calls. [Interp.effect_loop] runs
    on one more than the effects of the program, [Uring.dispatch] on one more
    than the bytes received and not yet framed (each round frames a request),
    [Uring.static_next] on two more than the segments left, [Text.from_utf8_lossy]
    and the tokens of a line on the length of the text. [Kqueue.send_drain] and
    [Kqueue.recv_drain] run on the coming system calls plus the bytes to be sent
    or received, and [on_send_complete] on two levels, since what the host
    refuses is not kept alive. [Control.read_head] and the record echo run on
    [Io.weight], the loops over a ClientHello and the JSON reader of [Admin] on
    the length of what they read. Each is proved
    enough where the loop is proved to return.

    Bounds: the clock of [OnDemand] and its cooldown stay below 2^62 seconds
    (the source adds them in 64 bits).

    Build checks: an operation that panics on overflow in a checked build and
    wraps in a release one takes the build as a flag ([checks]).

    ** Not modelled

    Process start-up, which is environment and threads; TLS sessions, their
    accept loop and the seam they report through, which are the linked core's;
    the span exporter ([otel.rs]); the entry points of the post-quantum library;
    the start of the linked runtime; the catch
    around an io_uring handler and the supervisor that respawns a shard (the
    handlers do not panic, and a kqueue shard ends only when [kevent] fails); the
    marshalling into the linked archives; capacities of vectors; the memory
    orderings; socket options, half-close and time-outs except where a read
    reports one; the accept loops of the operator's and the control listeners;
    the blocking layer-4, datagram and tunnel relays ([l4.rs], [udp.rs],
    [wg.rs], [derp_front.rs]). *)

From Stdlib Require Export ZArith Lia.
From stdpp Require Export base tactics numbers relations
  gmap sets fin_maps fin_sets strings option list_numbers list.

Local Open Scope Z_scope.

(** ** Machine integers

    A [w]-bit unsigned integer of the source is a [Z]; [wrap w] is the
    wrap-around the source's [wrapping_*] operations and [as] casts perform. *)
Definition wrap (w x : Z) : Z := x mod 2 ^ w.

Definition fits (w x : Z) : Prop := 0 <= x < 2 ^ w.

#[export] Instance fits_dec w x : Decision (fits w x).
Proof. unfold fits. apply _. Defined.

(** The [usize] of the supported target, x86-64. *)
Definition USIZE : Z := 64.

Definition max_uint (w : Z) : Z := 2 ^ w - 1.

Definition wrapping_add (w x y : Z) : Z := wrap w (x + y).
Definition wrapping_sub (w x y : Z) : Z := wrap w (x - y).
Definition wrapping_mul (w x y : Z) : Z := wrap w (x * y).
Definition saturating_add (w x y : Z) : Z := Z.min (x + y) (max_uint w).
Definition saturating_sub (x y : Z) : Z := Z.max 0 (x - y).
Definition checked_add (w x y : Z) : option Z :=
  if x + y <=? max_uint w then Some (x + y) else None.
Definition rotate_left (w x n : Z) : Z :=
  wrap w (Z.lor (Z.shiftl x n) (Z.shiftr x (w - n))).

(** [Result<T, E>]. *)
Inductive result (A E : Type) : Type :=
  | Ok (a : A)
  | Err (e : E).
Arguments Ok {A E} _.
Arguments Err {A E} _.

Definition is_ok {A E} (r : result A E) : bool :=
  match r with Ok _ => true | Err _ => false end.

#[export] Instance result_eq_dec {A E} `{EqDecision A, EqDecision E} :
  EqDecision (result A E).
Proof. solve_decision. Defined.

(** [Vec::push] and [Vec::pop]: both act on the last element. *)
Definition vec_push {A} (l : list A) (x : A) : list A := l ++ [x].

Fixpoint vec_pop {A} (l : list A) : option (list A * A) :=
  match l with
  | [] => None
  | x :: l' =>
      match vec_pop l' with
      | None => Some ([], x)
      | Some (init, y) => Some (x :: init, y)
      end
  end.

(** ** Facts shared by the components *)

Section widths.
Context (w : Z) (Hw : 0 <= w).

Lemma pow2_pos : 0 < 2 ^ w.
Proof using Hw. apply Z.pow_pos_nonneg; lia. Qed.

Lemma wrap_fits x : fits w (wrap w x).
Proof using Hw. unfold fits, wrap. apply Z.mod_pos_bound, pow2_pos. Qed.

Lemma wrap_small x : fits w x -> wrap w x = x.
Proof. unfold fits, wrap. apply Z.mod_small. Qed.

Lemma wrap_wrap x : wrap w (wrap w x) = wrap w x.
Proof using Hw. apply wrap_small, wrap_fits. Qed.

Lemma wrap_add_l x y : wrap w (wrap w x + y) = wrap w (x + y).
Proof using Hw. unfold wrap. apply Zplus_mod_idemp_l. Qed.

Lemma wrap_sub_idemp x y : wrap w (wrap w x - wrap w y) = wrap w (x - y).
Proof using Hw. unfold wrap. symmetry. apply Zminus_mod. Qed.

Lemma wrap_inj_near x y :
  x <= y < x + 2 ^ w -> wrap w x = wrap w y -> x = y.
Proof using Hw.
  unfold wrap. intros Hxy Heq. pose proof pow2_pos as Hp.
  rewrite (Z.div_mod x (2 ^ w)), (Z.div_mod y (2 ^ w)) in Hxy by lia.
  rewrite (Z.div_mod x (2 ^ w)), (Z.div_mod y (2 ^ w)) by lia.
  rewrite Heq in *.
  pose proof (Z.mod_pos_bound y (2 ^ w) Hp).
  assert (x / 2 ^ w = y / 2 ^ w) as -> by nia. done.
Qed.
End widths.

Lemma fits_pow2 (w1 w2 x : Z) : 0 <= w1 <= w2 -> fits w1 x -> fits w2 x.
Proof.
  unfold fits. intros Hw Hx.
  pose proof (Z.pow_le_mono_r 2 w1 w2). lia.
Qed.

(** Positions less than a capacity apart fall on distinct slots. *)
Lemma mod_near c n i j :
  0 < c -> 0 <= i < c -> 0 <= j < c -> (n + i) mod c = (n + j) mod c -> i = j.
Proof.
  intros Hc Hi Hj H. pose proof (Z.div_mod (n + i) c). pose proof (Z.div_mod (n + j) c).
  assert (c * ((n + i) / c - (n + j) / c) = i - j) by lia.
  assert ((n + i) / c - (n + j) / c = 0) by nia. lia.
Qed.

(** Disjoint fields: an [or] that places [b] below [a << n]. *)
Lemma lor_shiftl a b n : 0 <= n -> 0 <= b < 2 ^ n -> Z.lor (Z.shiftl a n) b = a * 2 ^ n + b.
Proof.
  intros Hn Hb. rewrite Z.shiftl_mul_pow2 by lia.
  assert (Z.land (a * 2 ^ n) b = 0) as Hz.
  { rewrite <- Z.shiftl_mul_pow2 by lia. apply Z.bits_inj'. intros j Hj.
    rewrite Z.land_spec, Z.bits_0, Z.shiftl_spec by lia.
    destruct (decide (j < n)); [by rewrite Z.testbit_neg_r by lia|].
    destruct (decide (b = 0)) as [->|]; [by rewrite Z.bits_0, andb_false_r|].
    rewrite (Z.bits_above_log2 b j), andb_false_r; [done|lia|].
    apply Z.log2_lt_pow2; [lia|]. pose proof (Z.pow_le_mono_r 2 n j). lia. }
  by rewrite <- Z.lxor_lor, <- Z.add_nocarry_lxor.
Qed.

Section vectors.
Context {A : Type}.
Implicit Types l : list A.

Lemma vec_pop_push l x : vec_pop (vec_push l x) = Some (l, x).
Proof. unfold vec_push. induction l as [|y l IH]; simpl; [done|]. by rewrite IH. Qed.

Lemma vec_pop_None l : vec_pop l = None <-> l = [].
Proof.
  destruct l as [|x l]; [done|]. split; [|done]. simpl.
  destruct (vec_pop l) as [[? ?]|]; done.
Qed.

Lemma vec_pop_Some l init x : vec_pop l = Some (init, x) <-> l = init ++ [x].
Proof.
  split; [|intros ->; apply vec_pop_push].
  revert init. induction l as [|y l IH]; simpl; intros init H; [done|].
  destruct (vec_pop l) as [[i' z]|] eqn:E.
  - simplify_eq. by rewrite (IH _ eq_refl).
  - simplify_eq. by apply vec_pop_None in E as ->.
Qed.
End vectors.

(** ** Labelled transition systems

    Interleavings are explicit: a component's threads take the labelled steps
    of [step], a schedule is a list of labels and [run] executes it. [reach]
    is reachability, over which invariants are proved by rule induction. *)
Section lts.
Context {S L : Type} (step : L -> S -> option S).

Fixpoint run (ls : list L) (s : S) : option S :=
  match ls with
  | [] => Some s
  | l :: ls' => match step l s with Some s' => run ls' s' | None => None end
  end.

Inductive reach (s0 : S) : S -> Prop :=
  | reach_refl : reach s0 s0
  | reach_step l s s' : reach s0 s -> step l s = Some s' -> reach s0 s'.

Lemma reach_invariant (I : S -> Prop) s0 s :
  I s0 -> (forall l x y, I x -> step l x = Some y -> I y) -> reach s0 s -> I s.
Proof. intros H0 Hpres. induction 1; eauto. Qed.

Lemma reach_trans s0 s1 s2 : reach s0 s1 -> reach s1 s2 -> reach s0 s2.
Proof. intros H01. induction 1; eauto using reach. Qed.

Lemma run_reach ls s s' : run ls s = Some s' -> reach s s'.
Proof.
  revert s. induction ls as [|l ls IH]; simpl; intros s H.
  - simplify_eq. constructor.
  - destruct (step l s) as [s1|] eqn:E; [|done].
    apply (reach_trans _ s1); [|by apply IH].
    apply (reach_step _ l s); [constructor | done].
Qed.

Lemma run_app ls1 ls2 s :
  run (ls1 ++ ls2) s = match run ls1 s with Some s' => run ls2 s' | None => None end.
Proof. revert s. induction ls1 as [|l ls1 IH]; simpl; intros s; [done|]. by destruct (step l s). Qed.

Lemma run_snoc ls l s0 s' :
  run (ls ++ [l]) s0 = Some s' ->
  exists s1, run ls s0 = Some s1 /\ step l s1 = Some s'.
Proof.
  rewrite run_app. destruct (run ls s0) as [s1|]; [|done]. simpl.
  destruct (step l s1) as [s2|] eqn:E; [|done]. intros [= <-]. eauto.
Qed.

Lemma reach_run s s' : reach s s' -> exists ls, run ls s = Some s'.
Proof.
  induction 1 as [|l s1 s2 _ [ls IH] Hs]; [by exists []|].
  exists (ls ++ [l]). rewrite run_app, IH. simpl. by rewrite Hs.
Qed.
End lts.

Arguments reach_refl {S L step s0}.

(** ** Counting over per-thread program counters *)
Section counting.
Context {A : Type} (p : A -> bool).

Fixpoint count (l : list A) : Z :=
  match l with
  | [] => 0
  | x :: l' => (if p x then 1 else 0) + count l'
  end.

Lemma count_nonneg l : 0 <= count l.
Proof. induction l as [|x l IH]; simpl; [lia|]. destruct (p x); lia. Qed.

Lemma count_app l1 l2 : count (l1 ++ l2) = count l1 + count l2.
Proof. induction l1; simpl; lia. Qed.

Lemma count_insert l i x y :
  l !! i = Some x ->
  count (<[i:=y]> l) = count l - (if p x then 1 else 0) + (if p y then 1 else 0).
Proof.
  revert i. induction l as [|z l IH]; intros [|i] H; simplify_eq/=; [lia|].
  rewrite (IH i H). lia.
Qed.

Lemma count_replicate n x : p x = false -> count (replicate n x) = 0.
Proof. intros H. induction n; simpl; [done|]. rewrite H. lia. Qed.

Lemma count_pos l i x : l !! i = Some x -> p x = true -> 0 < count l.
Proof.
  revert i. induction l as [|z l IH]; intros [|i] H Hp; simplify_eq/=.
  - rewrite Hp. pose proof (count_nonneg l). lia.
  - specialize (IH i H Hp). destruct (p z); lia.
Qed.

Lemma count_own l i x : l !! i = Some x -> (if p x then 1 else 0) <= count l.
Proof.
  intros H. destruct (p x) eqn:E; [|apply count_nonneg]. pose proof (count_pos l i x H E). lia.
Qed.

Lemma count_length l : count l <= Z.of_nat (length l).
Proof. induction l as [|x l IH]; cbn [count length]; [lia|]. destruct (p x); lia. Qed.

Lemma count_none l : (forall i x, l !! i = Some x -> p x = false) -> count l = 0.
Proof.
  induction l as [|z l IH]; simpl; intros H; [done|].
  rewrite (H 0%nat z eq_refl), IH; [done|]. intros i x Hi. exact (H (S i) x Hi).
Qed.

Lemma count_zero l i x : count l = 0 -> l !! i = Some x -> p x = false.
Proof.
  intros H0 Hi. destruct (p x) eqn:E; [|done].
  pose proof (count_pos l i x Hi E). lia.
Qed.
End counting.

(** ** Sums over lists *)
Section sums.
Context {A : Type} (g : A -> Z).

Fixpoint tot (l : list A) : Z := match l with [] => 0 | x :: l' => g x + tot l' end.

Lemma tot_app l1 l2 : tot (l1 ++ l2) = tot l1 + tot l2.
Proof. induction l1; cbn; lia. Qed.

Lemma tot_insert l i x y : l !! i = Some x -> tot (<[i := y]> l) = tot l - g x + g y.
Proof. revert i. induction l as [|z l IH]; intros [|i] H; simplify_eq/=; [lia|]. rewrite (IH i H). lia. Qed.

Lemma tot_delete l i x : l !! i = Some x -> tot (delete i l) = tot l - g x.
Proof. revert i. induction l as [|z l IH]; intros [|i] H; simplify_eq/=; [lia|]. rewrite (IH i H). lia. Qed.

Lemma tot_nonneg l : (forall x, 0 <= g x) -> 0 <= tot l.
Proof. intros H. induction l as [|x l IH]; cbn; [lia|]. specialize (H x). lia. Qed.

Lemma tot_own l i x : (forall x, 0 <= g x) -> l !! i = Some x -> g x <= tot l.
Proof. intros H Hi. pose proof (tot_delete l i x Hi). pose proof (tot_nonneg (delete i l) H). lia. Qed.

Lemma tot_zero l : (forall x, x ∈ l -> g x = 0) -> tot l = 0.
Proof. induction l as [|x l IH]; cbn; intros H; [done|]. rewrite (H x), IH; [done| |left]. intros y Hy. apply H. by right. Qed.
End sums.

(** Two different positions of a sum. *)
Lemma tot_two {A} (g : A -> Z) l i j x y : (forall x, 0 <= g x) -> i <> j -> l !! i = Some x -> l !! j = Some y -> g x + g y <= tot g l.
Proof.
  intros H. revert i j. induction l as [|z l IH]; intros [|i] [|j] Hij Hi Hj; simplify_eq/=.
  - pose proof (tot_own g l j y H Hj). lia.
  - pose proof (tot_own g l i x H Hi). lia.
  - specialize (IH i j ltac:(lia) Hi Hj). specialize (H z). lia.
Qed.

Lemma bool_eq_iff (b1 b2 : bool) : (b1 = true <-> b2 = true) -> b1 = b2.
Proof. destruct b1, b2; naive_solver. Qed.

(** ** Automation *)
Create HintDb dn.
Create Rewrite HintDb dn.
#[export] Hint Resolve wrap_fits count_nonneg pow2_pos : dn.
#[export] Hint Rewrite @vec_pop_push : dn.

(** Case analysis on the tests and matches of an unfolded operation. *)
Ltac branch :=
  repeat (case_match || case_decide || case_bool_decide); simplify_eq/=.

Ltac zify_bool :=
  repeat match goal with
  | H : (_ <? _) = true |- _ => apply Z.ltb_lt in H
  | H : (_ <? _) = false |- _ => apply Z.ltb_ge in H
  | H : (_ <=? _) = true |- _ => apply Z.leb_le in H
  | H : (_ <=? _) = false |- _ => apply Z.leb_gt in H
  | H : (_ =? _) = true |- _ => apply Z.eqb_eq in H
  | H : (_ =? _) = false |- _ => apply Z.eqb_neq in H
  end.
