(* ===== verification/Bytes.v ===== *)
(** * Byte slices

    The operations of Rust's [slice], [str] and integer types that the host's
    parsers and encoders use, over bytes as [Z] and slices as [list Z], with
    the lemmas the components share: little- and big-endian codecs, substring
    search, splitting, trimming and decimal numbers. *)
From S2P Require Import Prelude.
From Stdlib Require Import Ascii.

Local Open Scope Z_scope.

Abbreviation bytes := (list Z).

Definition byte_ok (b : Z) : Prop := 0 <= b < 256.
Definition bytes_ok (l : list Z) : Prop := Forall byte_ok l.

#[export] Instance byte_ok_dec b : Decision (byte_ok b).
Proof. unfold byte_ok. apply _. Defined.

(** Byte string literals. *)
Fixpoint bs (s : string) : list Z :=
  match s with
  | String.EmptyString => []
  | String.String c s' => Z.of_N (N_of_ascii c) :: bs s'
  end.

Definition CR : Z := 13.
Definition LF : Z := 10.
Definition CRLF : list Z := [CR; LF].

Fixpoint bytes_eqb (a b : list Z) : bool :=
  match a, b with
  | [], [] => true
  | x :: a', y :: b' => (x =? y) && bytes_eqb a' b'
  | _, _ => false
  end.

(** [Iterator::position] and [Iterator::rposition]. *)
Fixpoint position {A} (p : A -> bool) (l : list A) : option nat :=
  match l with
  | [] => None
  | x :: l' => if p x then Some 0%nat else S <$> position p l'
  end.

Fixpoint rposition {A} (p : A -> bool) (l : list A) : option nat :=
  match l with
  | [] => None
  | x :: l' =>
      match rposition p l' with
      | Some i => Some (S i)
      | None => if p x then Some 0%nat else None
      end
  end.

(** [slice::starts_with] and [slice::ends_with]. *)
Fixpoint starts_with (needle hay : list Z) : bool :=
  match needle, hay with
  | [], _ => true
  | _ :: _, [] => false
  | x :: n', y :: h' => (x =? y) && starts_with n' h'
  end.

Definition ends_with (needle hay : list Z) : bool :=
  (length needle <=? length hay)%nat &&
  bytes_eqb (drop (length hay - length needle) hay) needle.

(** [hay.windows(needle.len()).position(|w| w == needle)]. *)
Fixpoint windows_position (needle hay : list Z) : option nat :=
  if (length needle <=? length hay)%nat && starts_with needle hay then Some 0%nat
  else match hay with
       | [] => None
       | _ :: h' => S <$> windows_position needle h'
       end.

(** [slice::split]: the separators are dropped, and there is always at least
    one piece. *)
Fixpoint split_on (p : Z -> bool) (l : list Z) : list (list Z) :=
  match l with
  | [] => [[]]
  | x :: l' =>
      if p x then [] :: split_on p l'
      else match split_on p l' with
           | [] => [[x]]
           | seg :: rest => (x :: seg) :: rest
           end
  end.

(** [u8::to_ascii_lowercase], [eq_ignore_ascii_case], [is_ascii_whitespace]. *)
Definition to_ascii_lowercase (b : Z) : Z :=
  if (65 <=? b) && (b <=? 90) then b + 32 else b.

Fixpoint eq_ignore_ascii_case (a b : list Z) : bool :=
  match a, b with
  | [], [] => true
  | x :: a', y :: b' =>
      (to_ascii_lowercase x =? to_ascii_lowercase y) && eq_ignore_ascii_case a' b'
  | _, _ => false
  end.

Definition is_ascii_whitespace (b : Z) : bool :=
  (b =? 32) || (b =? 9) || (b =? 10) || (b =? 12) || (b =? 13).

Definition strip_suffix (suf l : list Z) : option (list Z) :=
  if ends_with suf l then Some (take (length l - length suf) l) else None.

(** [&l[i..j]]. *)
Definition slice (i j : nat) (l : list Z) : list Z := take (j - i) (drop i l).

Lemma slice_at (a b c : list Z) i j : i = length a -> j = (length a + length b)%nat -> slice i j (a ++ b ++ c) = b.
Proof. intros -> ->. unfold slice. rewrite drop_app_length. replace (length a + length b - length a)%nat with (length b) by lia. by rewrite take_app_length. Qed.

Lemma slice_mid (a b c : list Z) : slice (length a) (length a + length b) (a ++ b ++ c) = b.
Proof. by apply slice_at. Qed.

(** [to_le_bytes], [to_be_bytes] and their inverses, at [n] bytes. *)
Fixpoint to_le_bytes (n : nat) (x : Z) : list Z :=
  match n with
  | O => []
  | S n' => x mod 256 :: to_le_bytes n' (x / 256)
  end.

Fixpoint from_le_bytes (l : list Z) : Z :=
  match l with
  | [] => 0
  | b :: l' => b + 256 * from_le_bytes l'
  end.

Definition to_be_bytes (n : nat) (x : Z) : list Z := reverse (to_le_bytes n x).
Definition from_be_bytes (l : list Z) : Z := from_le_bytes (reverse l).

(** [format!("{n}")] for an unsigned [n]: one digit per step, so the bit
    length of [n] is fuel enough. *)
Fixpoint dec_digits (fuel : nat) (n : Z) : list Z :=
  match fuel with
  | O => []
  | S f => (if n <? 10 then [] else dec_digits f (n / 10)) ++ [48 + n mod 10]
  end.

Definition to_dec (n : Z) : list Z := dec_digits (S (Z.to_nat (Z.log2 n))) n.

(** [str::parse] at an unsigned width [w]: an optional [+], then at least one
    digit, and nothing else; an overflow is an error. *)
Definition is_digit (b : Z) : bool := (48 <=? b) && (b <=? 57).

Definition parse_digits (w : Z) (l : list Z) : option Z :=
  fold_left
    (fun acc b =>
       match acc with
       | Some n =>
           if is_digit b && (n * 10 + (b - 48) <=? max_uint w)
           then Some (n * 10 + (b - 48)) else None
       | None => None
       end) l (Some 0).

Definition parse_uint (w : Z) (l : list Z) : option Z :=
  match l with
  | [] => None
  | b :: l' =>
      if b =? 43 then match l' with [] => None | _ => parse_digits w l' end
      else parse_digits w l
  end.

(** [str::from_utf8]. *)
Definition cont (b : Z) : bool := (128 <=? b) && (b <=? 191).
Definition between (lo hi b : Z) : bool := (lo <=? b) && (b <=? hi).

Fixpoint utf8_valid (l : bytes) : bool :=
  match l with
  | [] => true
  | b :: l1 =>
      if b <? 128 then utf8_valid l1
      else match l1 with
      | [] => false
      | c1 :: l2 =>
          if between 194 223 b then cont c1 && utf8_valid l2
          else match l2 with
          | [] => false
          | c2 :: l3 =>
              if b =? 224 then between 160 191 c1 && cont c2 && utf8_valid l3
              else if b =? 237 then between 128 159 c1 && cont c2 && utf8_valid l3
              else if between 225 239 b then cont c1 && cont c2 && utf8_valid l3
              else match l3 with
              | [] => false
              | c3 :: l4 =>
                  (if b =? 240 then between 144 191 c1
                   else if b =? 244 then between 128 143 c1
                   else between 241 243 b && cont c1) && cont c2 && cont c3 && utf8_valid l4
              end
          end
      end
  end.

(** [str::trim]: the encodings of the White_Space characters. *)
Definition white_space : list bytes :=
  [[9]; [10]; [11]; [12]; [13]; [32]; [0xC2; 0x85]; [0xC2; 0xA0]; [0xE1; 0x9A; 0x80];
   [0xE2; 0x80; 0x80]; [0xE2; 0x80; 0x81]; [0xE2; 0x80; 0x82]; [0xE2; 0x80; 0x83];
   [0xE2; 0x80; 0x84]; [0xE2; 0x80; 0x85]; [0xE2; 0x80; 0x86]; [0xE2; 0x80; 0x87];
   [0xE2; 0x80; 0x88]; [0xE2; 0x80; 0x89]; [0xE2; 0x80; 0x8A]; [0xE2; 0x80; 0xA8];
   [0xE2; 0x80; 0xA9]; [0xE2; 0x80; 0xAF]; [0xE2; 0x81; 0x9F]; [0xE3; 0x80; 0x80]].

Fixpoint trim_left (fuel : nat) (l : bytes) : bytes :=
  match fuel with
  | O => l
  | S f =>
      match list_find (fun w => starts_with w l = true) white_space with
      | Some (_, w) => trim_left f (drop (length w) l)
      | None => l
      end
  end.

Fixpoint trim_right (fuel : nat) (l : bytes) : bytes :=
  match fuel with
  | O => l
  | S f =>
      match list_find (fun w => ends_with w l = true) white_space with
      | Some (_, w) => trim_right f (take (length l - length w) l)
      | None => l
      end
  end.

Definition str_trim (l : bytes) : bytes :=
  let l1 := trim_left (length l) l in trim_right (length l1) l1.

(** [len |= (b as u64) << (8 * i)] over little-endian bytes. *)
Fixpoint or_le (i : Z) (l : bytes) : Z :=
  match l with [] => 0 | b :: l' => Z.lor (Z.shiftl b (8 * i)) (or_le (i + 1) l') end.

(** ** Equality, prefixes and search *)

Lemma bytes_eqb_eq a b : bytes_eqb a b = true <-> a = b.
Proof.
  revert b. induction a as [|x a IH]; intros [|y b]; simpl; try naive_solver.
  rewrite andb_true_iff, Z.eqb_eq, IH. naive_solver.
Qed.

Lemma bytes_eqb_refl a : bytes_eqb a a = true.
Proof. by apply bytes_eqb_eq. Qed.

Lemma bytes_eqb_neq a b : bytes_eqb a b = false <-> a <> b.
Proof. rewrite <- bytes_eqb_eq. destruct (bytes_eqb a b); naive_solver. Qed.

Lemma starts_with_app n h : starts_with n h = true <-> exists t, h = n ++ t.
Proof.
  revert h. induction n as [|x n IH]; intros h; simpl; [naive_solver|].
  destruct h as [|y h]; [naive_solver|].
  rewrite andb_true_iff, Z.eqb_eq, IH. naive_solver.
Qed.

Lemma position_Some {A} (p : A -> bool) l i :
  position p l = Some i <->
  (exists x, l !! i = Some x /\ p x = true) /\
  forall j y, (j < i)%nat -> l !! j = Some y -> p y = false.
Proof.
  revert i. induction l as [|x l IH]; intros i; simpl.
  { split; [done|]. intros [(? & Hl & _) _]. by rewrite lookup_nil in Hl. }
  destruct (p x) eqn:E.
  - split.
    + intros [= <-]. split; [by exists x|]. intros j y Hj _. lia.
    + intros [(z & Hz & Hp) Hb]. destruct i as [|i]; [done|].
      specialize (Hb 0%nat x ltac:(lia) eq_refl). congruence.
  - destruct i as [|i].
    + split; [by destruct (position p l)|]. intros [(z & Hz & Hp) _]. simpl in Hz. congruence.
    + transitivity (position p l = Some i); [destruct (position p l); naive_solver|].
      rewrite IH. split; intros [(z & Hz & Hp) Hb]; (split; [by exists z|]).
      * intros [|j] y Hj Hy; simplify_eq/=; [done|]. eapply Hb; [|done]. lia.
      * intros j y Hj Hy. apply (Hb (S j)); [lia|done].
Qed.

Lemma position_None {A} (p : A -> bool) l :
  position p l = None <-> Forall (fun x => p x = false) l.
Proof.
  induction l as [|x l IH]; simpl; [by split|].
  destruct (p x) eqn:E.
  - split; [done|]. inversion 1; congruence.
  - rewrite Forall_cons_iff. destruct (position p l); naive_solver.
Qed.

Lemma position_lt {A} (p : A -> bool) l i : position p l = Some i -> (i < length l)%nat.
Proof. intros [(x & H & _) _]%position_Some. by apply lookup_lt_Some in H. Qed.

(** The first match: what precedes it, the needle, and what follows. *)
Lemma windows_position_Some needle hay i :
  windows_position needle hay = Some i ->
  exists t, hay = take i hay ++ needle ++ t /\ (i <= length hay)%nat.
Proof.
  revert i. induction hay as [|x hay IH]; intros i H; cbn [windows_position] in H.
  - case_match eqn:E; [|done]. simplify_eq.
    apply andb_true_iff in E as [_ (t & Ht)%starts_with_app]. by exists t.
  - case_match eqn:E.
    + simplify_eq. apply andb_true_iff in E as [_ (t & Ht)%starts_with_app].
      exists t. simpl. split; [done|lia].
    + destruct (windows_position needle hay) as [j|] eqn:E'; simplify_eq/=.
      destruct (IH j eq_refl) as (t & Ht & Hj). exists t. simpl.
      split; [by f_equal|lia].
Qed.

(** An occurrence, found once, is found whatever follows it. *)
Lemma starts_with_take n h k y :
  (length n <= k)%nat -> (k <= length h)%nat -> starts_with n (take k h ++ y) = starts_with n h.
Proof.
  revert h k. induction n as [|x n IH]; intros h k Hk Hh; [done|].
  destruct k as [|k]; [simpl in Hk; lia|]. destruct h as [|z h]; [simpl in Hh; lia|].
  simpl. f_equal. apply IH; simpl in *; lia.
Qed.

Lemma windows_position_bound needle hay i :
  windows_position needle hay = Some i -> (i + length needle <= length hay)%nat.
Proof.
  intros (t & Ht & Hi)%windows_position_Some. apply (f_equal length) in Ht.
  rewrite !length_app, length_take in Ht. lia.
Qed.

Lemma windows_position_prefix needle hay i y :
  windows_position needle hay = Some i ->
  windows_position needle (take (i + length needle) hay ++ y) = Some i.
Proof.
  revert i. induction hay as [|x hay IH]; intros i H; pose proof (windows_position_bound _ _ _ H) as Hb.
  - cbn [length] in Hb. destruct needle; cbn [length] in Hb; [|lia]. assert (i = 0%nat) as -> by lia.
    destruct y; done.
  - cbn [windows_position] in H. case_match eqn:E.
    + simplify_eq. apply andb_true_iff in E as [El Es]. cbn [Nat.add].
      assert (forall l, windows_position needle l =
                if (length needle <=? length l)%nat && starts_with needle l then Some 0%nat
                else match l with [] => None | _ :: h' => S <$> windows_position needle h' end) as ->
        by (by intros []).
      rewrite starts_with_take, Es by (try apply Nat.leb_le in El; lia).
      rewrite (proj2 (Nat.leb_le _ _)); [done|]. rewrite length_app, length_take. lia.
    + destruct (windows_position needle hay) as [j|] eqn:E'; simplify_eq/=.
      rewrite (IH j eq_refl). rewrite length_app, length_take.
      apply andb_false_iff in E as [E|E]; [apply Nat.leb_gt in E; simpl in *; lia|].
      change (x :: take (j + length needle) hay ++ y) with (take (S (j + length needle)) (x :: hay) ++ y).
      rewrite starts_with_take, E by (simpl; lia). by rewrite andb_false_r.
Qed.

Lemma windows_position_app needle hay i y :
  windows_position needle hay = Some i -> windows_position needle (hay ++ y) = Some i.
Proof.
  intros H. rewrite <- (take_drop (i + length needle) hay), <- app_assoc. by apply windows_position_prefix.
Qed.

(** ** Fixed-width integers as bytes *)

Lemma length_to_le_bytes n x : length (to_le_bytes n x) = n.
Proof. revert x. induction n as [|n IH]; intros x; simpl; [done|]. by rewrite IH. Qed.

Lemma length_to_be_bytes n x : length (to_be_bytes n x) = n.
Proof. unfold to_be_bytes. by rewrite length_reverse, length_to_le_bytes. Qed.

Lemma to_le_bytes_ok n x : bytes_ok (to_le_bytes n x).
Proof.
  revert x. induction n as [|n IH]; intros x; simpl; constructor; [|apply IH].
  apply Z.mod_pos_bound. lia.
Qed.

Lemma to_be_bytes_ok n x : bytes_ok (to_be_bytes n x).
Proof. unfold to_be_bytes, bytes_ok. rewrite Forall_reverse. apply to_le_bytes_ok. Qed.

Lemma from_to_le_bytes n x :
  0 <= x < 256 ^ Z.of_nat n -> from_le_bytes (to_le_bytes n x) = x.
Proof.
  revert x. induction n as [|n IH]; intros x Hx; cbn [to_le_bytes from_le_bytes].
  - simpl in Hx. lia.
  - rewrite IH.
    + pose proof (Z.div_mod x 256). lia.
    + rewrite Nat2Z.inj_succ, Z.pow_succ_r in Hx by lia.
      split; [apply Z.div_pos; lia|]. apply Z.div_lt_upper_bound; lia.
Qed.

Lemma from_to_le_mod n x : from_le_bytes (to_le_bytes n x) = x mod 256 ^ Z.of_nat n.
Proof.
  revert x. induction n as [|n IH]; intros x; cbn [to_le_bytes from_le_bytes]; [by rewrite Z.mod_1_r|].
  rewrite IH, Nat2Z.inj_succ, Z.pow_succ_r, Z.rem_mul_r by lia. done.
Qed.

Lemma from_to_be_bytes n x :
  0 <= x < 256 ^ Z.of_nat n -> from_be_bytes (to_be_bytes n x) = x.
Proof. unfold from_be_bytes, to_be_bytes. rewrite reverse_involutive. apply from_to_le_bytes. Qed.

Lemma from_le_bytes_bound l :
  bytes_ok l -> 0 <= from_le_bytes l < 256 ^ Z.of_nat (length l).
Proof.
  induction 1 as [|b l Hb _ IH]; cbn [from_le_bytes length]; [lia|].
  rewrite Nat2Z.inj_succ, Z.pow_succ_r by lia. unfold byte_ok in Hb. lia.
Qed.

Lemma to_from_le_bytes l : bytes_ok l -> to_le_bytes (length l) (from_le_bytes l) = l.
Proof.
  induction 1 as [|b l Hb _ IH]; cbn [to_le_bytes from_le_bytes length]; [done|].
  unfold byte_ok in Hb. rewrite Z.mul_comm, Z.mod_add, Z.div_add by lia.
  rewrite (Z.mod_small b), (Z.div_small b), Z.add_0_l by lia. by rewrite IH.
Qed.

Lemma or_le_to_le n : forall x i,
  0 <= i -> 0 <= x < 256 ^ Z.of_nat n -> or_le i (to_le_bytes n x) = Z.shiftl x (8 * i).
Proof.
  induction n as [|n IH]; intros x i Hi Hx; cbn [to_le_bytes or_le].
  { replace x with 0 by (simpl in Hx; lia). by rewrite Z.shiftl_0_l. }
  rewrite Nat2Z.inj_succ, Z.pow_succ_r in Hx by lia.
  assert (0 <= x / 256 < 256 ^ Z.of_nat n) as Hq
    by (split; [apply Z.div_pos|apply Z.div_lt_upper_bound]; lia).
  rewrite IH by lia.
  replace (8 * (i + 1)) with (8 + 8 * i) by lia.
  rewrite <- Z.shiftl_shiftl, <- Z.shiftl_lor by lia. f_equal.
  rewrite Z.lor_comm, lor_shiftl by (try apply Z.mod_pos_bound; lia).
  change (2 ^ 8) with 256. pose proof (Z.div_mod x 256). lia.
Qed.

(** ** Decimal numbers *)

Lemma parse_digits_snoc w l b n :
  parse_digits w l = Some n -> is_digit b = true ->
  n * 10 + (b - 48) <= max_uint w ->
  parse_digits w (l ++ [b]) = Some (n * 10 + (b - 48)).
Proof.
  unfold parse_digits. intros H Hb Hn. rewrite fold_left_app, H. cbn [fold_left].
  rewrite Hb, andb_true_l. by rewrite (proj2 (Z.leb_le _ _) Hn).
Qed.

Lemma parse_dec_digits w fuel n :
  0 <= n <= max_uint w -> n < 2 ^ Z.of_nat fuel ->
  parse_digits w (dec_digits fuel n) = Some n.
Proof.
  revert n. induction fuel as [|f IH]; intros n Hn Hf; cbn [dec_digits].
  { simpl in Hf. assert (n = 0) as -> by lia. done. }
  pose proof (Z.mod_pos_bound n 10). pose proof (Z.div_mod n 10).
  assert (is_digit (48 + n mod 10) = true) as Hd.
  { unfold is_digit. rewrite andb_true_iff, !Z.leb_le. lia. }
  destruct (n <? 10) eqn:E; zify_bool.
  - rewrite Z.mod_small by lia. replace n with (0 * 10 + (48 + n - 48)) at 2 by lia.
    apply parse_digits_snoc; [done| |lia].
    unfold is_digit. rewrite andb_true_iff, !Z.leb_le. lia.
  - replace n with (n / 10 * 10 + (48 + n mod 10 - 48)) at 3 by lia.
    apply parse_digits_snoc; [|done|lia]. apply IH; [lia|].
    rewrite Nat2Z.inj_succ, Z.pow_succ_r in Hf by lia. lia.
Qed.

Lemma parse_to_dec w n : 0 <= n <= max_uint w -> parse_uint w (to_dec n) = Some n.
Proof.
  intros Hn. unfold to_dec.
  assert (n < 2 ^ Z.of_nat (S (Z.to_nat (Z.log2 n)))) as Hf.
  { rewrite Nat2Z.inj_succ, Z2Nat.id by apply Z.log2_nonneg.
    destruct (decide (n = 0)) as [->|]; [done|]. apply Z.log2_spec. lia. }
  pose proof (parse_dec_digits w _ n Hn Hf) as Hp.
  set (l := dec_digits _ n) in *.
  assert (exists d l', l = d :: l' /\ 48 <= d) as (d & l' & Hl & Hd).
  { subst l. clear. generalize (Z.to_nat (Z.log2 n)) as f. intros f. revert n.
    induction f as [|f IH]; intros n; pose proof (Z.mod_pos_bound n 10).
    - simpl. destruct (n <? 10); simpl; eexists _, _; (split; [done|lia]).
    - cbn [dec_digits]. destruct (n <? 10).
      + simpl. eexists _, _; (split; [done|lia]).
      + destruct (IH (n / 10)) as (d & l' & Hl & Hd).
        cbn [dec_digits] in Hl. rewrite Hl. simpl. eexists _, _; by split. }
  rewrite Hl in *. unfold parse_uint.
  by rewrite (proj2 (Z.eqb_neq d 43)) by lia.
Qed.

Lemma dec_digits_range f : forall n, Forall (fun b => 48 <= b <= 57) (dec_digits f n).
Proof.
  induction f as [|f IH]; intros n; cbn [dec_digits]; [constructor|]. apply Forall_app. split.
  - destruct (n <? 10); [constructor|apply IH].
  - constructor; [|constructor]. pose proof (Z.mod_pos_bound n 10). lia.
Qed.

Lemma to_dec_digits n : Forall (fun b => 48 <= b <= 57) (to_dec n) /\ to_dec n <> [].
Proof.
  unfold to_dec. split; [apply dec_digits_range|]. cbn [dec_digits]. intros H%(f_equal length).
  rewrite length_app in H. simpl in H. lia.
Qed.

Lemma parse_digits_range w l n : parse_digits w l = Some n -> 0 <= n /\ (n = 0 \/ n <= max_uint w).
Proof.
  unfold parse_digits. revert n. induction l as [|b l IH] using rev_ind; intros n; [intros [= <-]; lia|].
  rewrite fold_left_app. cbn [fold_left]. destruct (fold_left _ l _) as [m|]; [|done]. destruct (IH m eq_refl) as [Hm _].
  unfold is_digit. case_match; [|done]. intros [= <-]. lia.
Qed.

Lemma parse_uint_fits w l n : 0 <= w -> parse_uint w l = Some n -> fits w n.
Proof.
  intros Hw H. assert (exists l', parse_digits w l' = Some n) as (l' & Hl).
  { unfold parse_uint in H. repeat case_match; eauto; done. }
  apply parse_digits_range in Hl. pose proof (pow2_pos w Hw). unfold fits, max_uint in *. lia.
Qed.
