(* ===== verification/Lines.v ===== *)
(** * Lines of a message head

    The host's scanners walk a head one CRLF-terminated line at a time, with a
    buffer index that the recursion replaces by what is left of the buffer.
    [scan_lines] is that walk for any per-line result; [first_line] and
    [block] describe heads as the lines they are made of. *)
From S2P Require Import Prelude Bytes.

Local Open Scope Z_scope.

Definition CRLFCRLF : bytes := [CR; LF; CR; LF].

Definition COLON : Z := 58.

(** A field value without the blanks around it. *)
Definition not_blank (c : Z) : bool := negb (c =? 32) && negb (c =? 9).

Definition trimmed (val : bytes) : bytes :=
  let start := default (length val) (position not_blank val) in
  let fin := default start (S <$> rposition not_blank val) in
  slice start fin val.

Definition head_end (l : bytes) : option nat :=
  (fun p => (p + 4)%nat) <$> windows_position CRLFCRLF l.

(** The first line, in wire order, for which [f] has a result. The length of
    what is left is fuel enough. *)
Fixpoint scan_lines {A} (f : bytes -> option A) (fuel : nat) (rest : bytes) : option A :=
  match fuel with
  | O => None
  | S n =>
      match rest with
      | [] => None
      | _ =>
          let line_end := default (length rest) (windows_position CRLF rest) in
          match f (take line_end rest) with
          | Some v => Some v
          | None => scan_lines f n (drop (line_end + 2) rest)
          end
      end
  end.

(** [s] is the first line of [s ++ CRLF ++ y], whatever [y] is. *)
Definition first_line (s : bytes) : Prop := windows_position CRLF (s ++ CRLF) = Some (length s).

Lemma first_line_app s y : first_line s -> windows_position CRLF (s ++ CRLF ++ y) = Some (length s).
Proof. intros H. rewrite app_assoc. by apply windows_position_app. Qed.

Lemma first_line_take l p : windows_position CRLF l = Some p -> first_line (take p l) /\ exists y, l = take p l ++ CRLF ++ y.
Proof.
  intros H. pose proof (windows_position_bound _ _ _ H) as Hb. simpl in Hb.
  destruct (windows_position_Some _ _ _ H) as (y & Hy & _). split; [|by exists y].
  unfold first_line. rewrite length_take, Nat.min_l by lia.
  pose proof (windows_position_prefix _ _ _ [] H) as Hp. rewrite app_nil_r in Hp.
  replace (take (p + length CRLF) l) with (take p l ++ CRLF) in Hp; [done|].
  rewrite Hy at 2. rewrite take_app, length_take, Nat.min_l by lia.
  rewrite take_take, Nat.min_r by lia. f_equal. replace (p + length CRLF - p)%nat with (length CRLF) by lia.
  by rewrite take_app_length.
Qed.

Lemma scan_lines_fuel {A} (f : bytes -> option A) f1 : forall f2 rest,
  (length rest <= f1)%nat -> (length rest <= f2)%nat -> scan_lines f f1 rest = scan_lines f f2 rest.
Proof.
  induction f1 as [|f1 IH]; intros f2 rest H1 H2.
  { destruct rest; [|simpl in H1; lia]. by destruct f2. }
  destruct f2 as [|f2]; [destruct rest; [done|simpl in H2; lia]|]. cbn [scan_lines].
  destruct rest as [|b rest]; [done|]. destruct (f _); [done|].
  apply IH; rewrite length_drop; simpl in *; lia.
Qed.

Lemma scan_line {A} (f : bytes -> option A) s y :
  first_line s ->
  scan_lines f (length (s ++ CRLF ++ y)) (s ++ CRLF ++ y) =
    match f s with Some v => Some v | None => scan_lines f (length y) y end.
Proof.
  intros Hs. pose proof (first_line_app s y Hs) as Hw.
  assert (length (s ++ CRLF ++ y) = length s + 2 + length y)%nat as Hn by (rewrite !length_app; simpl; lia).
  assert (take (length s) (s ++ CRLF ++ y) = s) as Ht by apply take_app_length.
  assert (drop (length s + 2) (s ++ CRLF ++ y) = y) as Hd by (by rewrite <- drop_drop, drop_app_length).
  destruct (s ++ CRLF ++ y) as [|b l]; [simpl in Hn; lia|]. cbn [length scan_lines].
  rewrite Hw. cbn [default id]. rewrite Ht, Hd. destruct (f s); [done|].
  apply scan_lines_fuel; simpl in Hn; lia.
Qed.

Lemma windows_position_cons n x h :
  windows_position n (x :: h) =
    if (length n <=? length (x :: h))%nat && starts_with n (x :: h) then Some 0%nat
    else S <$> windows_position n h.
Proof. done. Qed.

(** The blank line after a first line. *)
Lemma blank_line s y :
  first_line s ->
  windows_position CRLFCRLF (s ++ CRLF ++ y) =
    if starts_with CRLF y then Some (length s)
    else (fun p => (length s + 2 + p)%nat) <$> windows_position CRLFCRLF y.
Proof.
  unfold first_line. induction s as [|x s IH]; intros H.
  - change ([] ++ CRLF ++ y) with (CR :: LF :: y). cbn [length]. rewrite !windows_position_cons.
    change (starts_with CRLFCRLF (CR :: LF :: y)) with (starts_with CRLF y).
    change (starts_with CRLFCRLF (LF :: y)) with false. rewrite andb_false_r.
    destruct (starts_with CRLF y) eqn:E.
    + apply starts_with_app in E as (t & ->). done.
    + rewrite andb_false_r. by destruct (windows_position CRLFCRLF y).
  - cbn [app windows_position] in *. destruct (_ && starts_with CRLF _) eqn:E; [done|].
    assert (windows_position CRLF (s ++ CRLF) = Some (length s)) as Hs
      by (destruct (windows_position CRLF (s ++ CRLF)); simplify_eq/=; done).
    assert (starts_with CRLFCRLF (x :: s ++ CRLF ++ y) = false) as ->.
    { apply not_true_iff_false. intros (t & Ht)%starts_with_app. injection Ht as -> Ht.
      destruct s as [|z s]; [done|]. injection Ht as -> _. done. }
    rewrite andb_false_r, (IH Hs). destruct (starts_with CRLF y); [done|].
    by destruct (windows_position CRLFCRLF y).
Qed.


(** ** Heads as lists of lines *)

Definition line_ok (l : bytes) : Prop := first_line l /\ l <> [].

Definition block (ls : list bytes) : bytes := concat ((fun l => l ++ CRLF) <$> ls).

Lemma block_cons l ls y : block (l :: ls) ++ y = l ++ CRLF ++ block ls ++ y.
Proof. unfold block. cbn [fmap list_fmap concat]. by rewrite <- !app_assoc. Qed.

Lemma no_crlf_no_blank l : windows_position CRLF l = None -> windows_position CRLFCRLF l = None.
Proof.
  induction l as [|x l IH]; [done|]. rewrite !windows_position_cons. intros H.
  destruct (_ && starts_with CRLF _) eqn:E; [done|].
  destruct (windows_position CRLF l); [done|]. rewrite IH by done.
  destruct (_ && starts_with CRLFCRLF _) eqn:E2; [|done]. exfalso.
  apply andb_true_iff in E2 as [_ (t & Ht)%starts_with_app]. injection Ht as -> ->. done.
Qed.

Lemma line_ok_start l y : line_ok l -> starts_with CRLF (l ++ CRLF ++ y) = false.
Proof.
  intros [Hf Hn]. apply not_true_iff_false. intros (t & Ht)%starts_with_app.
  pose proof (first_line_app l y Hf) as Hw. rewrite Ht in Hw.
  change (CRLF ++ t) with (CR :: LF :: t) in Hw. rewrite windows_position_cons in Hw.
  cbn in Hw. injection Hw as Hw. destruct l; done.
Qed.

(** A head that starts with a line is lines, a blank line, and the rest. *)
Lemma head_block l : forall p,
  starts_with CRLF l = false -> head_end l = Some p ->
  exists ls body, l = block ls ++ CRLF ++ body /\ Forall line_ok ls /\ ls <> [] /\ p = (length (block ls) + 2)%nat.
Proof.
  remember (length l) as n eqn:Hn. revert l Hn. induction (lt_wf n) as [n _ IH]. intros l -> p Hs Hp.
  unfold head_end in Hp. destruct (windows_position CRLF l) as [i|] eqn:Hw.
  2:{ by rewrite (no_crlf_no_blank l Hw) in Hp. }
  destruct (first_line_take _ _ Hw) as [Hf (y & Hy)]. set (s := take i l) in *. clearbody s. subst l.
  assert (s <> []) as Hne by (intros ->; done). rewrite (blank_line s y Hf) in Hp.
  destruct (starts_with CRLF y) eqn:Ey.
  - apply starts_with_app in Ey as (body & ->). exists [s], body. split; [by rewrite block_cons|].
    split; [by constructor|]. split; [done|]. simplify_eq/=. unfold block. simpl. rewrite !length_app. simpl. lia.
  - destruct (windows_position CRLFCRLF y) as [q|] eqn:Eq; [|done].
    destruct (IH (length y)) with (l := y) (p := (q + 4)%nat) as (ls & body & -> & Hls & Hn & Hq).
    + rewrite !length_app. simpl. lia.
    + done.
    + done.
    + unfold head_end. by rewrite Eq.
    + exists (s :: ls), body. split; [by rewrite block_cons|]. split; [by constructor|]. split; [done|].
      simplify_eq/=. unfold block in *. cbn [fmap list_fmap concat]. rewrite !length_app. simpl. lia.
Qed.

Lemma block_head ls body :
  Forall line_ok ls -> ls <> [] -> head_end (block ls ++ CRLF ++ body) = Some (length (block ls) + 2)%nat.
Proof.
  intros H Hne. unfold head_end.
  assert (windows_position CRLFCRLF (block ls ++ CRLF ++ body) = Some (length (block ls) - 2)%nat /\
          (2 <= length (block ls))%nat) as [-> Hl]; [|simpl; f_equal; lia].
  induction H as [|s ls [Hs Hsn] Hls IH]; [done|]. rewrite block_cons, blank_line by done.
  assert (length (block (s :: ls)) = length s + 2 + length (block ls))%nat as ->
    by (unfold block; cbn [fmap list_fmap concat]; rewrite !length_app; simpl; lia).
  destruct ls as [|t ls].
  - simpl. split; [f_equal; lia|lia].
  - assert (starts_with CRLF (block (t :: ls) ++ CRLF ++ body) = false) as ->
      by (rewrite block_cons; apply line_ok_start; by inversion Hls).
    destruct IH as [-> Hl]; [done|]. cbn [fmap option_fmap option_map]. split; [f_equal; lia|lia].
Qed.

Fixpoint first_some {A} (f : bytes -> option A) (ls : list bytes) : option A :=
  match ls with
  | [] => None
  | l :: ls' => match f l with Some v => Some v | None => first_some f ls' end
  end.

Lemma scan_block {A} (f : bytes -> option A) ls :
  Forall line_ok ls ->
  scan_lines f (length (block ls ++ CRLF)) (block ls ++ CRLF) = first_some f (ls ++ [[]]).
Proof.
  induction 1 as [|s ls [Hs _] _ IH].
  - by apply (scan_line f [] []).
  - rewrite block_cons, scan_line by done. cbn [app first_some]. by rewrite IH.
Qed.
