(* ===== verification/Io.v ===== *)
(** * Reads and writes under an uncooperative system

    What the host's pumps see of a descriptor. A stream socket is the list of
    what its coming reads find; a file is its contents with a list of how the
    coming calls behave (short counts, interruptions, failures); a client is
    the bytes it was sent and how many more it takes before its writes fail.
    The theorems of the pumps quantify over all three. *)
From S2P Require Import Prelude Bytes.

Local Open Scope Z_scope.

(** The [std::io::ErrorKind]s the code tells apart. *)
Inductive io_error :=
  | Interrupted
  | UnexpectedEof
  | InvalidData
  | InvalidInput
  | TimedOut
  | WouldBlock
  | BrokenPipe
  | Unsupported
  | OtherErr.

#[export] Instance io_error_eq_dec : EqDecision io_error.
Proof. solve_decision. Defined.

(** ** Clients *)
Record sink := Sink {
  wire : bytes;            (* what was accepted, in order *)
  room : nat;              (* how many more bytes before writes fail *)
  flushes : list bool      (* how the coming flushes end; all well after those *)
}.

(** [Write::write_all]: the whole slice, or an error after some prefix of it. *)
Definition write_all (b : bytes) (c : sink) : result unit io_error * sink :=
  if (length b <=? room c)%nat
  then (Ok (), Sink (wire c ++ b) (room c - length b) (flushes c))
  else (Err BrokenPipe, Sink (wire c ++ take (room c) b) 0 (flushes c)).

(** [Write::flush]. *)
Definition flush (c : sink) : result unit io_error * sink :=
  match flushes c with
  | [] => (Ok (), c)
  | ok :: fl => ((if ok then Ok () else Err BrokenPipe), Sink (wire c) (room c) fl)
  end.

(** ** Stream sockets *)
Inductive read_ev :=
  | Data (b : bytes)
  | Fault (e : io_error).

(** [Read::read] into [n] bytes: a prefix of what has arrived, [Ok] of nothing
    at the end of the stream. *)
Definition read (n : nat) (s : list read_ev) : result bytes io_error * list read_ev :=
  match s with
  | [] => (Ok [], [])
  | Data b :: s' =>
      if (length b <=? n)%nat then (Ok b, s') else (Ok (take n b), Data (drop n b) :: s')
  | Fault e :: s' => (Err e, s')
  end.

(** What the stream delivers before its end or its first fault, and whether it
    ends cleanly. A read of nothing is the end of the stream. *)
Fixpoint arrived (s : list read_ev) : bytes :=
  match s with
  | Data (b :: l) :: s' => (b :: l) ++ arrived s'
  | _ => []
  end.

Fixpoint clean_end (s : list read_ev) : bool :=
  match s with
  | [] | Data [] :: _ => true
  | Data _ :: s' => clean_end s'
  | Fault _ :: _ => false
  end.

(** Reads left at the most: fuel for the loops that read to the end. *)
Fixpoint weight (s : list read_ev) : nat :=
  match s with
  | [] => 0
  | Data b :: s' => S (length b) + weight s'
  | Fault _ :: s' => S (weight s')
  end.

(** ** Files *)
Inductive call :=
  | Short (k : nat)        (* moves at most [k + 1] bytes *)
  | Intr
  | Failed (e : io_error).

Record file := File {
  data : bytes;
  pos : Z;
  calls : list call        (* how the coming calls behave; in full after those *)
}.

(** The bytes [[off, off + n)] of the contents, as far as they go. *)
Definition window (d : bytes) (off n : Z) : bytes :=
  take (Z.to_nat n) (drop (Z.to_nat off) d).

(** A kernel offset is signed: [off as i64]. *)
Definition as_off_t (off : Z) : Z := if off <? 2 ^ 63 then off else off - 2 ^ 64.

(** [File::seek(SeekFrom::Start(off))]. *)
Definition seek_start (off : Z) (f : file) : result unit io_error * file :=
  if as_off_t off <? 0 then (Err InvalidInput, f) else (Ok (), File (data f) off (calls f)).

(** [File::read] into [want] bytes. *)
Definition read_file (want : Z) (f : file) : result bytes io_error * file :=
  let moved (n : Z) cs :=
    let got := window (data f) (pos f) n in
    (Ok got, File (data f) (pos f + Z.of_nat (length got)) cs) in
  match calls f with
  | [] => moved want []
  | Short k :: cs => moved (Z.min want (Z.of_nat (S k))) cs
  | Intr :: cs => (Err Interrupted, File (data f) (pos f) cs)
  | Failed e :: cs => (Err e, File (data f) (pos f) cs)
  end.

(** [sendfile(2)]: file to socket inside the kernel at its own offset; the
    seek position stays. Nothing is left of the file: zero; the peer takes no
    more: an error. *)
Definition splice_out (offset n : Z) (f : file) (c : sink) : result Z io_error * file * sink :=
  if offset <? 0 then (Err InvalidInput, f, c)
  else match window (data f) offset n with
       | [] => (Ok 0, f, c)
       | avail =>
           if (room c =? 0)%nat then (Err BrokenPipe, f, c)
           else let got := take (room c) avail in
                (Ok (Z.of_nat (length got)), f,
                 Sink (wire c ++ got) (room c - length got) (flushes c))
       end.

Definition sendfile (offset want : Z) (f : file) (c : sink) : result Z io_error * file * sink :=
  match calls f with
  | [] => splice_out offset want f c
  | Short k :: cs => splice_out offset (Z.min want (Z.of_nat (S k))) (File (data f) (pos f) cs) c
  | Intr :: cs => (Err Interrupted, File (data f) (pos f) cs, c)
  | Failed e :: cs => (Err e, File (data f) (pos f) cs, c)
  end.

(** ** What a call leaves *)

Lemma write_all_ok b c :
  (length b <= room c)%nat ->
  write_all b c = (Ok (), Sink (wire c ++ b) (room c - length b) (flushes c)).
Proof. intros H. unfold write_all. by rewrite (proj2 (Nat.leb_le _ _) H). Qed.

Lemma write_all_Ok b c u c' :
  write_all b c = (Ok u, c') ->
  (length b <= room c)%nat /\ c' = Sink (wire c ++ b) (room c - length b) (flushes c).
Proof. unfold write_all. case_match eqn:E; [|done]. apply Nat.leb_le in E. naive_solver. Qed.

Lemma write_all_wire b c r c' :
  write_all b c = (r, c') -> exists p, p `prefix_of` b /\ wire c' = wire c ++ p.
Proof.
  unfold write_all. case_match; intros [= <- <-]; simpl; eauto.
  exists (take (room c) b). split; [apply prefix_take|done].
Qed.

Lemma flush_wire c r c' : flush c = (r, c') -> wire c' = wire c /\ room c' = room c.
Proof. unfold flush. destruct (flushes c); naive_solver. Qed.

Lemma flush_calm c : Forall (eq true) (flushes c) ->
  exists fl, flush c = (Ok (), Sink (wire c) (room c) fl) /\ Forall (eq true) fl.
Proof.
  unfold flush. destruct c as [w r fl]; simpl. destruct fl as [|b fl]; [eauto|].
  inversion_clear 1. subst b. eauto.
Qed.

(** The first [n] of [l ++ a]: what [l] has of them, and the rest from [a]. *)
Lemma take_lead {A} n (l a : list A) : take n (l ++ a) = take n l ++ take (n - length (take n l)) a.
Proof.
  rewrite take_app, length_take. f_equal.
  destruct (decide (n <= length l)%nat); [|f_equal; lia].
  replace (n - length l)%nat with 0%nat by lia. by replace (n - n `min` length l)%nat with 0%nat by lia.
Qed.

Lemma take_lead_le {A} n (l a : list A) : (n <= length (l ++ a) <-> n - length (take n l) <= length a)%nat.
Proof. rewrite length_app, length_take. lia. Qed.

(** ** Delivery: all of [body], or an error after a prefix of it. *)
Definition delivered (body : bytes) (ok : bool) (c c' : sink) : Prop :=
  if ok then
    wire c' = wire c ++ body /\ (length body <= room c)%nat /\ room c' = (room c - length body)%nat
  else exists p, p `prefix_of` body /\ wire c' = wire c ++ p.

Definition calm (c : sink) : Prop := Forall (eq true) (flushes c).

Lemma delivered_nil c : delivered [] true c c.
Proof. unfold delivered. rewrite app_nil_r. simpl. split_and!; [done|lia|lia]. Qed.

Lemma delivered_none body c c' : wire c' = wire c -> delivered body false c c'.
Proof. intros H. exists []. rewrite app_nil_r. split; [apply prefix_nil|done]. Qed.

Lemma delivered_wire body ok c c' : delivered body ok c c' -> exists x, wire c' = wire c ++ x.
Proof. unfold delivered. destruct ok; [intros [Hw _]; eauto|intros (p & _ & Hw); eauto]. Qed.

Lemma delivered_app b1 b2 ok c c1 c' :
  delivered b1 true c c1 -> delivered b2 ok c1 c' -> delivered (b1 ++ b2) ok c c'.
Proof.
  intros (Hw & Hl & Hr) H2. unfold delivered in *. destruct ok.
  - destruct H2 as (Hw2 & Hl2 & Hr2). rewrite Hw2, Hw, length_app, <- app_assoc. split_and!; [done|lia|lia].
  - destruct H2 as (p & Hp & Hw2). exists (b1 ++ p). rewrite Hw2, Hw, <- app_assoc. split; [by apply prefix_app|done].
Qed.

Lemma delivered_more b1 b2 c c' : delivered b1 false c c' -> delivered (b1 ++ b2) false c c'.
Proof. intros (p & Hp & Hw). exists p. split; [by apply prefix_app_r|done]. Qed.

Lemma write_all_delivered b c r c' :
  write_all b c = (r, c') ->
  delivered b (is_ok r) c c' /\ flushes c' = flushes c /\ ((length b <= room c)%nat -> is_ok r = true).
Proof.
  intros H. pose proof (write_all_wire _ _ _ _ H) as Hp. unfold write_all in H.
  destruct (length b <=? room c)%nat eqn:E; simplify_eq; split_and!; try done.
  - apply Nat.leb_le in E. done.
  - apply Nat.leb_gt in E. intros. lia.
Qed.

Lemma read_spec n s r s' :
  (0 < n)%nat -> read n s = (r, s') ->
  match r with
  | Ok [] => arrived s = [] /\ clean_end s = true
  | Ok got => arrived s = got ++ arrived s' /\ clean_end s' = clean_end s /\ (weight s' < weight s)%nat /\ (length got <= n)%nat
  | Err _ => arrived s = [] /\ clean_end s = false
  end.
Proof.
  intros Hn. unfold read. destruct s as [|[b|e] s0]; [by intros [= <- <-]| |by intros [= <- <-]].
  destruct (length b <=? n)%nat eqn:E; intros [= <- <-].
  - destruct b as [|x b]; [done|]. apply Nat.leb_le in E. cbn [arrived clean_end weight]. split_and!; [done|done|lia|done].
  - apply Nat.leb_gt in E. destruct n as [|n]; [lia|]. destruct b as [|x b]; [simpl in E; lia|].
    cbn [take drop arrived clean_end weight]. cbn [length] in E.
    assert (exists y l, drop n b = y :: l) as (y & l & Hd).
    { destruct (drop n b) as [|y l] eqn:Ed; [|eauto]. apply (f_equal length) in Ed. rewrite length_drop in Ed. simpl in Ed. lia. }
    assert (take n b ++ drop n b = b) as Htd by apply take_drop. assert (length (drop n b) <= length b)%nat by (rewrite length_drop; lia).
    rewrite Hd in *. cbn [arrived clean_end weight length]. split_and!; [by rewrite app_assoc; cbn; rewrite Htd|done|cbn [length] in *; lia|].
    cbn [length]. rewrite length_take. lia.
Qed.

(** What is read leaves the stream. *)
Lemma read_weight n s got s' : read n s = (Ok got, s') -> (length got + weight s' <= weight s)%nat.
Proof.
  unfold read. destruct s as [|[b|e] s0]; [by intros [= <- <-]| |done].
  destruct (length b <=? n)%nat; intros [= <- <-]; cbn [weight]; [lia|].
  rewrite length_take, length_drop. lia.
Qed.

Section windows.
Implicit Types (d : bytes) (off n m : Z).

Lemma length_window d off n :
  0 <= off -> 0 <= n ->
  Z.of_nat (length (window d off n)) = Z.max 0 (Z.min n (Z.of_nat (length d) - off)).
Proof. intros Ho Hn. unfold window. rewrite length_take, length_drop. lia. Qed.

Lemma window_app d off n m :
  0 <= off -> 0 <= n -> 0 <= m ->
  window d off (n + m) = window d off n ++ window d (off + n) m.
Proof.
  intros Ho Hn Hm. unfold window. rewrite !Z2Nat.inj_add by lia.
  rewrite <- drop_drop. generalize (drop (Z.to_nat off) d) as l.
  generalize (Z.to_nat n) as a, (Z.to_nat m) as b. clear. intros a b l. revert l.
  induction a as [|a IH]; intros l; simpl; [by rewrite drop_0|].
  destruct l; simpl; [by rewrite take_nil|]. by rewrite IH.
Qed.

Lemma window_full d off n :
  0 <= off -> 0 <= n -> Z.of_nat (length (window d off n)) = n -> n = 0 \/ off + n <= Z.of_nat (length d).
Proof. intros Ho Hn. rewrite length_window by lia. lia. Qed.

Lemma window_prefix d off n m : n <= m -> window d off n `prefix_of` window d off m.
Proof.
  intros H. unfold window. generalize (drop (Z.to_nat off) d) as l. intros l.
  replace (Z.to_nat n) with (Z.to_nat n `min` Z.to_nat m)%nat by lia.
  rewrite <- take_take. apply prefix_take.
Qed.

Lemma window_nil d off n : 0 <= off -> 0 < n -> window d off n = [] <-> Z.of_nat (length d) <= off.
Proof.
  intros Ho Hn. pose proof (length_window d off n Ho ltac:(lia)) as Hl. split; intros H.
  - rewrite H in Hl. simpl in Hl. lia.
  - apply nil_length_inv. lia.
Qed.

(** A shorter read of a window is a window. *)
Lemma window_got d off n : 0 <= off -> 0 <= n ->
  window d off n = window d off (Z.of_nat (length (window d off n))).
Proof.
  intros Ho Hn. rewrite length_window by lia. unfold window.
  destruct (decide (n <= Z.of_nat (length d) - off)) as [H|H].
  - do 2 f_equal. lia.
  - rewrite !take_ge; [done|rewrite length_drop; lia..].
Qed.

Lemma take_window d off n k : 0 <= off -> 0 <= n ->
  take k (window d off n) = window d off (Z.of_nat (length (take k (window d off n)))).
Proof.
  intros Ho Hn. unfold window. rewrite Nat2Z.id, length_take, take_take.
  set (l := drop (Z.to_nat off) d). rewrite length_take.
  destruct (decide (k `min` Z.to_nat n <= length l)%nat); [f_equal; lia|].
  rewrite !take_ge; [done|lia..].
Qed.
End windows.
