(* ===== verification/Slab.v ===== *)
(** * The generation-checked slab ([crates/dn-runtime/src/slab.rs])

    [Slab<T>] is a fixed-capacity table whose tokens carry the generation of
    the slot they name. The operations are the source's, on the source's two
    vectors; an out-of-range index is a panic, [None] of the outer [option].
    [slab_wf] is the representation invariant. [SlotStore] states what a user
    of tokens relies on; the slab implements it, and the rejection of stale
    tokens over any later history is proved against that interface. *)
From S2P Require Import Prelude.

Local Open Scope Z_scope.

(** ** Data *)

Record Token := mkToken { index : nat; generation : Z }.

#[export] Instance Token_eq_dec : EqDecision Token.
Proof. solve_decision. Defined.

#[export] Instance Token_countable : Countable Token.
Proof.
  apply (inj_countable' (fun t => (index t, generation t))
                        (fun p => mkToken p.1 p.2)).
  by intros [].
Defined.

Section slab.
Context {T : Type}.

Record Slot := mkSlot { slot_generation : Z; slot_value : option T }.
Record Slab := mkSlab { slots : list Slot; free : list nat }.

(** ** Operations *)

Definition new (capacity : nat) : Slab :=
  {| slots := replicate (S capacity) (mkSlot 0 None);
     free := reverse (seq 1 capacity) |}.

Definition capacity (s : Slab) : nat := length (slots s) - 1.

Definition insert (s : Slab) (value : T) : option (Slab * result Token T) :=
  match vec_pop (free s) with
  | None => Some (s, Err value)
  | Some (free', ix) =>
      match slots s !! ix with
      | None => None
      | Some slot =>
          Some (mkSlab (<[ix := mkSlot (slot_generation slot) (Some value)]> (slots s)) free',
                Ok (mkToken ix (slot_generation slot)))
      end
  end.

Definition get (s : Slab) (token : Token) : option T :=
  match slots s !! index token with
  | None => None
  | Some slot =>
      if slot_generation slot =? generation token then slot_value slot else None
  end.

(** [get_mut] gives access to the value in place: the value and the table the
    caller leaves behind when it has written [v]. *)
Definition get_mut (s : Slab) (token : Token) : option (T * (T -> Slab)) :=
  match slots s !! index token with
  | None => None
  | Some slot =>
      if negb (slot_generation slot =? generation token) then None
      else match slot_value slot with
           | None => None
           | Some v =>
               Some (v, fun v' =>
                 mkSlab (<[index token := mkSlot (slot_generation slot) (Some v')]> (slots s))
                        (free s))
           end
  end.

Definition remove (s : Slab) (token : Token) : Slab * option T :=
  match slots s !! index token with
  | None => (s, None)
  | Some slot =>
      if negb (slot_generation slot =? generation token) then (s, None)
      else match slot_value slot with
           | None => (s, None)
           | Some value =>
               match checked_add 64 (slot_generation slot) 1 with
               | Some next =>
                   (mkSlab (<[index token := mkSlot next None]> (slots s))
                           (vec_push (free s) (index token)), Some value)
               | None =>
                   (mkSlab (<[index token := mkSlot (slot_generation slot) None]> (slots s))
                           (free s), Some value)
               end
           end
  end.

(** ** Representation invariant *)

Record slab_wf (s : Slab) : Prop := {
  wf_slot0 : exists g, slots s !! 0%nat = Some (mkSlot g None);
  wf_free_nodup : NoDup (free s);
  wf_free_slot : forall i, i ∈ free s ->
    i <> 0%nat /\ exists g, slots s !! i = Some (mkSlot g None);
  wf_gen : forall i sl, slots s !! i = Some sl -> fits 64 (slot_generation sl);
  (* an empty slot is the reserved one, on the free list, or retired *)
  wf_empty : forall i g, slots s !! i = Some (mkSlot g None) ->
    i = 0%nat \/ i ∈ free s \/ g = max_uint 64
}.

Lemma get_Some s tok v :
  get s tok = Some v <-> slots s !! index tok = Some (mkSlot (generation tok) (Some v)).
Proof.
  unfold get. destruct (slots s !! index tok) as [[g o]|]; simpl; [|naive_solver].
  destruct (g =? generation tok) eqn:E; zify_bool; naive_solver.
Qed.

Lemma new_wf c : slab_wf (new c).
Proof.
  split; simpl.
  - by exists 0.
  - rewrite reverse_Permutation. apply NoDup_seq.
  - intros i Hi. rewrite elem_of_reverse, elem_of_seq in Hi. split; [lia|].
    exists 0. change (mkSlot 0 None :: replicate c _) with (replicate (S c) (mkSlot 0 None)).
    apply lookup_replicate_2. lia.
  - intros i sl Hi. change (mkSlot 0 None :: replicate c _) with (replicate (S c) (mkSlot 0 None)) in Hi.
    apply lookup_replicate in Hi as [-> _]. simpl. split; lia.
  - intros i g Hi. change (mkSlot 0 None :: replicate c _) with (replicate (S c) (mkSlot 0 None)) in Hi.
    apply lookup_replicate in Hi as [_ Hi].
    destruct i as [|i]; [by left|]. right; left.
    rewrite elem_of_reverse, elem_of_seq. lia.
Qed.

Lemma insert_inv s v s' r :
  slab_wf s -> insert s v = Some (s', r) ->
  (free s = [] /\ s' = s /\ r = Err v) \/
  exists ix g f, free s = f ++ [ix] /\ ix <> 0%nat /\ slots s !! ix = Some (mkSlot g None) /\
    s' = mkSlab (<[ix := mkSlot g (Some v)]> (slots s)) f /\ r = Ok (mkToken ix g).
Proof.
  intros Hwf. unfold insert. destruct (vec_pop (free s)) as [[f ix]|] eqn:E.
  - apply vec_pop_Some in E.
    destruct (wf_free_slot s Hwf ix) as [H0 [g Hg]]; [rewrite E; set_solver|].
    rewrite Hg. simpl. intros [= <- <-]. right. by exists ix, g, f.
  - apply vec_pop_None in E. intros [= <- <-]. by left.
Qed.

Lemma insert_total s v : slab_wf s -> exists r, insert s v = Some r.
Proof.
  intros Hwf. unfold insert. destruct (vec_pop (free s)) as [[f ix]|] eqn:E; [|by eexists].
  apply vec_pop_Some in E. destruct (wf_free_slot s Hwf ix) as [_ [g ->]]; [rewrite E; set_solver|].
  by eexists.
Qed.

Lemma insert_wf s v s' r : slab_wf s -> insert s v = Some (s', r) -> slab_wf s'.
Proof.
  intros Hwf Hi. destruct (insert_inv _ _ _ _ Hwf Hi)
    as [(_ & -> & _)|(ix & g & f & Hf & H0 & Hg & -> & _)]; [done|].
  pose proof (wf_free_nodup s Hwf) as Hnd. rewrite Hf in Hnd.
  apply NoDup_app in Hnd as (Hndf & Hdis & _).
  assert (ix ∉ f) as Hix by (intros ?; eapply Hdis; [done|set_solver]).
  split; simpl.
  - destruct (wf_slot0 s Hwf) as [g0 Hg0]. exists g0. by rewrite list_lookup_insert_ne.
  - done.
  - intros i Hi'. destruct (wf_free_slot s Hwf i) as [Hi0 [gi Hgi]]; [rewrite Hf; set_solver|].
    split; [done|]. exists gi. rewrite list_lookup_insert_ne; [done|set_solver].
  - intros i sl. rewrite list_lookup_insert_Some. intros [(<- & <- & _)|[_ Hi']].
    + by apply (wf_gen s Hwf ix (mkSlot g None)).
    + by apply (wf_gen s Hwf i).
  - intros i gi. rewrite list_lookup_insert_Some. intros [(_ & ? & _)|[Hne Hi']]; [done|].
    destruct (wf_empty s Hwf i gi Hi') as [?|[Hfr|?]]; auto.
    rewrite Hf in Hfr. set_solver.
Qed.

Lemma remove_inv s tok s' r :
  remove s tok = (s', r) ->
  (get s tok = None /\ s' = s /\ r = None) \/
  exists v, get s tok = Some v /\ r = Some v /\
    ((generation tok + 1 <= max_uint 64 /\
      s' = mkSlab (<[index tok := mkSlot (generation tok + 1) None]> (slots s))
                  (free s ++ [index tok])) \/
     (max_uint 64 < generation tok + 1 /\
      s' = mkSlab (<[index tok := mkSlot (generation tok) None]> (slots s)) (free s))).
Proof.
  unfold remove, get, checked_add, vec_push.
  destruct (slots s !! index tok) as [[g o]|]; simpl; [|naive_solver].
  destruct (g =? generation tok) eqn:E; simpl; [|naive_solver].
  apply Z.eqb_eq in E as ->. destruct o as [v|]; [|naive_solver].
  destruct (generation tok + 1 <=? max_uint 64) eqn:E; zify_bool; naive_solver.
Qed.

Lemma remove_wf s tok s' r : slab_wf s -> remove s tok = (s', r) -> slab_wf s'.
Proof.
  intros Hwf Hr. destruct (remove_inv _ _ _ _ Hr) as [(_ & -> & _)|(v & Hg & _ & Hs)]; [done|].
  apply get_Some in Hg.
  destruct (wf_slot0 s Hwf) as [g0 Hg0].
  assert (index tok <> 0%nat) as Hne by (intros Heq; rewrite Heq in Hg; congruence).
  assert (index tok ∉ free s) as Hnf.
  { intros Hin. destruct (wf_free_slot s Hwf _ Hin) as [_ [g Hg']]. congruence. }
  pose proof (wf_gen s Hwf _ _ Hg) as Hfit. simpl in Hfit.
  destruct Hs as [[Hle ->]|[Hgt ->]]; split; simpl.
  1, 6: exists g0; by rewrite list_lookup_insert_ne.
  1, 5: first [by apply (wf_free_nodup s Hwf)
              | apply NoDup_app; split; [by apply wf_free_nodup|]; split; [set_solver|apply NoDup_singleton]].
  - intros i Hi. apply elem_of_app in Hi as [Hi| ->%list_elem_of_singleton].
    + destruct (wf_free_slot s Hwf i Hi) as [H0 [g Hgi]]. split; [done|]. exists g.
      rewrite list_lookup_insert_ne; [done|]. set_solver.
    + split; [done|]. eexists. apply list_lookup_insert_eq. by apply lookup_lt_Some in Hg.
  - intros i sl. rewrite list_lookup_insert_Some. intros [(<- & <- & _)|[_ Hi]].
    + simpl. unfold fits, max_uint in *. lia.
    + by apply (wf_gen s Hwf i).
  - intros i g. rewrite list_lookup_insert_Some. intros [(<- & _ & _)|[_ Hi]].
    + right; left. set_solver.
    + destruct (wf_empty s Hwf i g Hi) as [?|[?|?]]; set_solver.
  - intros i Hi. destruct (wf_free_slot s Hwf i Hi) as [H0 [g Hgi]]. split; [done|]. exists g.
    rewrite list_lookup_insert_ne; [done|]. set_solver.
  - intros i sl. rewrite list_lookup_insert_Some. intros [(<- & <- & _)|[_ Hi]]; [done|].
    by apply (wf_gen s Hwf i).
  - intros i g. rewrite list_lookup_insert_Some. intros [(<- & [= <-] & _)|[_ Hi]].
    + right; right. unfold fits, max_uint in *. lia.
    + destruct (wf_empty s Hwf i g Hi) as [?|[?|?]]; auto.
Qed.

(** ** Dead tokens

    A token is dead when its slot has moved past its generation, or when the
    slot is retired at that generation. Nothing revives a dead token. *)
Definition dead (s : Slab) (tok : Token) : Prop :=
  exists g o, slots s !! index tok = Some (mkSlot g o) /\ (generation tok < g \/ (g = generation tok /\ o = None /\ index tok ∉ free s)).

Lemma dead_get s tok : dead s tok -> get s tok = None.
Proof.
  intros (g & o & Hs & Hd). destruct (get s tok) as [v|] eqn:E; [|done].
  apply get_Some in E. rewrite Hs in E. simplify_eq. naive_solver lia.
Qed.

Lemma insert_dead s v s' r tok :
  slab_wf s -> insert s v = Some (s', r) -> dead s tok -> dead s' tok /\ r <> Ok tok.
Proof.
  intros Hwf Hi (g & o & Hs & Hd).
  destruct (insert_inv _ _ _ _ Hwf Hi) as [(_ & -> & ->)|(ix & gi & f & Hf & _ & Hgi & -> & ->)].
  { split; [by exists g, o|done]. }
  destruct (decide (ix = index tok)) as [->|Hne].
  - rewrite Hgi in Hs. simplify_eq. destruct Hd as [Hlt|(-> & _ & Hn)].
    + split; [|intros [= Heq]; apply (f_equal generation) in Heq; simpl in Heq; lia].
      exists g, (Some v). simpl. rewrite list_lookup_insert_eq; [naive_solver|].
      by apply lookup_lt_Some in Hgi.
    + destruct Hn. rewrite Hf. set_solver.
  - split; [|intros [= Heq]; by apply (f_equal index) in Heq]. exists g, o. simpl.
    rewrite list_lookup_insert_ne by done. split; [done|].
    destruct Hd as [?|(? & ? & Hn)]; [by left|right]. rewrite Hf in Hn. set_solver.
Qed.

Lemma remove_dead s tok s' v : slab_wf s -> remove s tok = (s', Some v) -> dead s' tok.
Proof.
  intros Hwf Hr. destruct (remove_inv _ _ _ _ Hr) as [(_ & _ & ?)|(w & Hg & _ & Hs)]; [done|].
  apply get_Some in Hg. pose proof (lookup_lt_Some _ _ _ Hg) as Hlt.
  destruct Hs as [[_ ->]|[_ ->]]; eexists _, _; simpl;
    (split; [by apply list_lookup_insert_eq|]); [left; lia|right].
  split; [done|]. split; [done|]. intros Hin.
  destruct (wf_free_slot s Hwf _ Hin) as [_ [g Hg']]. congruence.
Qed.

Lemma remove_keeps_dead s t s' r tok : remove s t = (s', r) -> dead s tok -> dead s' tok.
Proof.
  intros Hr (g & o & Hs & Hd).
  destruct (remove_inv _ _ _ _ Hr) as [(_ & -> & _)|(v & Hg & _ & Hs')]; [by exists g, o|].
  apply get_Some in Hg. pose proof (lookup_lt_Some _ _ _ Hg) as Hlt.
  destruct (decide (index t = index tok)) as [Heq|Hne].
  - rewrite Heq in *. rewrite Hs in Hg. simplify_eq.
    destruct Hs' as [[_ ->]|[_ ->]]; eexists _, _; simpl;
      (split; [by apply list_lookup_insert_eq|]); naive_solver lia.
  - destruct Hs' as [[_ ->]|[_ ->]]; exists g, o; simpl;
      rewrite list_lookup_insert_ne by done; (split; [done|]); [|done].
    destruct Hd as [?|(? & ? & ?)]; [by left|right]. set_solver.
Qed.

Lemma get_mut_inv s t v upd :
  get_mut s t = Some (v, upd) ->
  get s t = Some v /\
  forall v', upd v' = mkSlab (<[index t := mkSlot (generation t) (Some v')]> (slots s)) (free s).
Proof.
  unfold get_mut, get. destruct (slots s !! index t) as [[g o]|]; simpl; [|done].
  destruct (g =? generation t) eqn:E; simpl; [|done]. apply Z.eqb_eq in E as ->.
  destruct o; [|done]. naive_solver.
Qed.

Lemma get_mut_wf s t v upd v' : slab_wf s -> get_mut s t = Some (v, upd) -> slab_wf (upd v').
Proof.
  intros Hwf Hm. destruct (get_mut_inv _ _ _ _ Hm) as [Hg Hu]. rewrite Hu.
  apply get_Some in Hg. destruct (wf_slot0 s Hwf) as [g0 Hg0].
  assert (index t <> 0%nat) as Hne by (intros Heq; rewrite Heq in Hg; congruence).
  split; simpl.
  - exists g0. by rewrite list_lookup_insert_ne.
  - apply (wf_free_nodup s Hwf).
  - intros i Hi. destruct (wf_free_slot s Hwf i Hi) as [H0 [g Hgi]]. split; [done|]. exists g.
    rewrite list_lookup_insert_ne; [done|]. intros Heq. congruence.
  - intros i sl. rewrite list_lookup_insert_Some. intros [(<- & <- & _)|[_ Hi]].
    + apply (wf_gen s Hwf _ _ Hg).
    + by apply (wf_gen s Hwf i).
  - intros i g. rewrite list_lookup_insert_Some. intros [(_ & ? & _)|[_ Hi]]; [done|].
    by apply (wf_empty s Hwf).
Qed.

Lemma get_mut_keeps_dead s t v upd v' tok :
  get_mut s t = Some (v, upd) -> dead s tok -> dead (upd v') tok.
Proof.
  intros Hm (g & o & Hs & Hd). destruct (get_mut_inv _ _ _ _ Hm) as [Hg Hu]. rewrite Hu.
  apply get_Some in Hg. pose proof (lookup_lt_Some _ _ _ Hg) as Hlt.
  destruct (decide (index t = index tok)) as [Heq|Hne].
  - rewrite Heq in *. rewrite Hs in Hg. simplify_eq. eexists _, _; simpl.
    split; [by apply list_lookup_insert_eq|]. naive_solver lia.
  - exists g, o; simpl. by rewrite list_lookup_insert_ne.
Qed.

(** What each operation does to what every token resolves to. *)
Lemma get_upd s ix g o f tok :
  (ix < length (slots s))%nat ->
  get (mkSlab (<[ix := mkSlot g o]> (slots s)) f) tok =
  if decide (ix = index tok) then if g =? generation tok then o else None else get s tok.
Proof.
  intros Hlt. unfold get; simpl. case_decide as Hd.
  - subst. by rewrite list_lookup_insert_eq.
  - by rewrite list_lookup_insert_ne.
Qed.

Lemma insert_get s v s' t tok :
  slab_wf s -> insert s v = Some (s', Ok t) ->
  get s t = None /\ get s' tok = if decide (t = tok) then Some v else get s tok.
Proof.
  intros Hwf Hi. destruct (insert_inv _ _ _ _ Hwf Hi)
    as [(_ & _ & ?)|(ix & g & f & _ & _ & Hg & -> & [= ->])]; [done|].
  assert (forall t', index t' = ix -> get s t' = None) as Hnone.
  { intros t' <-. unfold get. rewrite Hg. simpl. by case_match. }
  split; [by apply Hnone|].
  rewrite get_upd by (by apply lookup_lt_Some in Hg).
  destruct tok as [i g']. simpl. case_decide as H1; subst.
  - rewrite (Hnone (mkToken i g')) by done.
    destruct (g =? g') eqn:E; zify_bool; subst; case_decide; congruence.
  - case_decide; congruence.
Qed.

Lemma get_other_generation s t v tok :
  get s t = Some v -> index t = index tok -> t <> tok -> get s tok = None.
Proof.
  intros Hg%get_Some Hix Hne. unfold get. rewrite <- Hix, Hg. simpl.
  destruct (generation t =? generation tok) eqn:E; [|done]. zify_bool.
  destruct t, tok; simpl in *; congruence.
Qed.

Lemma remove_get s t s' r tok :
  remove s t = (s', r) ->
  r = get s t /\ get s' tok = if decide (t = tok) then None else get s tok.
Proof.
  intros Hr. destruct (remove_inv _ _ _ _ Hr) as [(Hn & -> & ->)|(v & Hg & -> & Hs)].
  { split; [done|]. case_decide; congruence. }
  split; [done|]. pose proof Hg as Hg'. apply get_Some in Hg'.
  pose proof (lookup_lt_Some _ _ _ Hg') as Hlt.
  destruct Hs as [[_ ->]|[_ ->]]; rewrite get_upd by done;
    destruct (decide (index t = index tok)) as [Hi|Hi];
    destruct (decide (t = tok)) as [Ht|Ht]; try congruence;
    rewrite ?(get_other_generation s t v tok) by done; by case_match.
Qed.

End slab.
Arguments Slot : clear implicits.
Arguments Slab : clear implicits.

(** ** The interface: fresh names for live values

    What the adapters above the slab rely on: a name issued now was never
    issued before, names live entries only, and stops resolving for ever once
    its entry has been removed. *)
Inductive Op (T : Type) :=
  | OpInsert (v : T)
  | OpGet (t : Token)
  | OpSet (t : Token) (v : T)
  | OpRemove (t : Token).
Arguments OpInsert {T}. Arguments OpGet {T}. Arguments OpSet {T}. Arguments OpRemove {T}.

Inductive Obs (T : Type) :=
  | ObsInsert (r : result Token T)
  | ObsValue (o : option T).
Arguments ObsInsert {T}. Arguments ObsValue {T}.

(** The abstract state: the live map and every name issued so far. *)
Definition spec_state (T : Type) : Type := gmap Token T * gset Token.

Inductive spec_step {T} : spec_state T -> Op T -> Obs T -> spec_state T -> Prop :=
  | spec_insert_ok m used v t :
      t ∉ used -> index t <> 0%nat ->
      spec_step (m, used) (OpInsert v) (ObsInsert (Ok t)) (<[t := v]> m, {[t]} ∪ used)
  | spec_insert_full m used v :
      spec_step (m, used) (OpInsert v) (ObsInsert (Err v)) (m, used)
  | spec_get m used t :
      spec_step (m, used) (OpGet t) (ObsValue (m !! t)) (m, used)
  | spec_set_live m used t v w :
      m !! t = Some w ->
      spec_step (m, used) (OpSet t v) (ObsValue (Some w)) (<[t := v]> m, used)
  | spec_set_dead m used t v :
      m !! t = None -> spec_step (m, used) (OpSet t v) (ObsValue None) (m, used)
  | spec_remove m used t :
      spec_step (m, used) (OpRemove t) (ObsValue (m !! t)) (delete t m, used).

Class SlotStore (S T : Type) := {
  store_step : S -> Op T -> option (S * Obs T);
  store_rel : S -> spec_state T -> Prop;
  store_sim s a op :
    store_rel s a ->
    exists s' o a', store_step s op = Some (s', o) /\ spec_step a op o a' /\ store_rel s' a'
}.

(** Executing a list of operations, with the observations in order. *)
Fixpoint exec {S T} `{SlotStore S T} (s : S) (ops : list (Op T)) : option (S * list (Obs T)) :=
  match ops with
  | [] => Some (s, [])
  | op :: ops' =>
      match store_step s op with
      | None => None
      | Some (s1, o) =>
          match exec s1 ops' with
          | None => None
          | Some (s2, os) => Some (s2, o :: os)
          end
      end
  end.

Inductive spec_exec {T} : spec_state T -> list (Op T) -> list (Obs T) -> spec_state T -> Prop :=
  | spec_nil a : spec_exec a [] [] a
  | spec_cons a op o a1 ops os a2 :
      spec_step a op o a1 -> spec_exec a1 ops os a2 -> spec_exec a (op :: ops) (o :: os) a2.

Section client.
Context {S T : Type} `{!SlotStore S T}.

Lemma exec_refines ops s a :
  store_rel s a ->
  exists s' os a', exec s ops = Some (s', os) /\ spec_exec a ops os a' /\ store_rel s' a'.
Proof.
  revert s a. induction ops as [|op ops IH]; intros s a Hr; simpl.
  { eexists _, _, _. split; [done|]. split; [constructor|done]. }
  destruct (store_sim s a op Hr) as (s1 & o & a1 & -> & Hs & Hr1).
  destruct (IH s1 a1 Hr1) as (s2 & os & a2 & -> & He & Hr2).
  eexists _, _, _. split; [done|]. split; [by econstructor|done].
Qed.

(** In the abstract store a name that is used and not live stays so. *)
Lemma spec_retired_step (a a' : spec_state T) op o t :
  spec_step a op o a' -> t ∈ a.2 -> a.1 !! t = None ->
  (t ∈ a'.2 /\ a'.1 !! t = None) /\ o <> ObsInsert (Ok t).
Proof.
  destruct 1 as [m used v t' Ht Hi| | |m used t' v w Hw| |m used t'];
    simpl; intros Hu Hn; (split; [split|]); try done; try set_solver.
  - rewrite lookup_insert_ne; [done|]. set_solver.
  - rewrite lookup_insert_ne; [done|]. congruence.
  - rewrite lookup_delete. by case_decide.
Qed.

Lemma spec_retired (a a' : spec_state T) ops os t :
  spec_exec a ops os a' -> t ∈ a.2 -> a.1 !! t = None ->
  (t ∈ a'.2 /\ a'.1 !! t = None) /\ ObsInsert (Ok t) ∉ os.
Proof.
  induction 1 as [|a op o a1 ops os a2 Hs _ IH]; intros Hu Hn; [split; [done|set_solver]|].
  destruct (spec_retired_step _ _ _ _ _ Hs Hu Hn) as [[Hu1 Hn1] Ho].
  destruct (IH Hu1 Hn1) as [? ?]. split; [done|]. rewrite elem_of_cons. naive_solver.
Qed.
End client.

(** ** The slab implements the interface *)
Section implements.
Context {T : Type}.

Definition slab_step (s : Slab T) (op : Op T) : option (Slab T * Obs T) :=
  match op with
  | OpInsert v =>
      match insert s v with Some (s', r) => Some (s', ObsInsert r) | None => None end
  | OpGet t => Some (s, ObsValue (get s t))
  | OpSet t v =>
      match get_mut s t with
      | Some (w, upd) => Some (upd v, ObsValue (Some w))
      | None => Some (s, ObsValue None)
      end
  | OpRemove t => let '(s', r) := remove s t in Some (s', ObsValue r)
  end.

Record slab_rel (s : Slab T) (a : spec_state T) : Prop := {
  rel_wf : slab_wf s;
  rel_get : forall t, a.1 !! t = get s t;
  rel_dead : forall t, t ∈ a.2 -> a.1 !! t = None -> dead s t;
  rel_used : dom a.1 ⊆ a.2
}.

Lemma get_mut_get (s : Slab T) t : get s t = None <-> get_mut s t = None.
Proof.
  unfold get, get_mut. destruct (slots s !! index t) as [[g o]|]; simpl; [|done].
  destruct (g =? generation t); simpl; [|done]. by destruct o.
Qed.

Lemma new_rel c : slab_rel (new c) (∅, ∅).
Proof.
  split; simpl; [apply new_wf| |set_solver|set_solver].
  intros t. rewrite lookup_empty. symmetry. unfold get.
  destruct (slots (new c) !! index t) as [sl|] eqn:E; [|done].
  unfold new in E. cbn [slots] in E. apply lookup_replicate in E as [-> _]. simpl. by case_match.
Qed.

Lemma insert_sim s a v : slab_rel s a ->
  exists s' o a', slab_step s (OpInsert v) = Some (s', o) /\
    spec_step a (OpInsert v) o a' /\ slab_rel s' a'.
Proof.
  intros [Hwf Hg Hd Hu]. destruct a as [m used]. simpl in *.
  destruct (insert_total s v Hwf) as [[s' r] Hi]. rewrite Hi.
  pose proof (insert_wf _ _ _ _ Hwf Hi) as Hwf'.
  destruct r as [t|v'].
  - eexists _, _, _. split; [done|].
    assert (index t <> 0%nat) as H0.
    { destruct (insert_inv _ _ _ _ Hwf Hi) as [(_ & _ & ?)|(?&?&?&?&?&?&?&[= ->])]; done. }
    assert (t ∉ used) as Hfresh.
    { intros Hin. destruct (insert_get _ _ _ _ t Hwf Hi) as [Hn _].
      rewrite <- Hg in Hn. by destruct (insert_dead _ _ _ _ _ Hwf Hi (Hd t Hin Hn)). }
    split; [by constructor|]. split; simpl; [done| | |set_solver].
    + intros t'. destruct (insert_get _ _ _ _ t' Hwf Hi) as [_ ->].
      rewrite lookup_insert. case_decide; [done|]. apply Hg.
    + intros t' Hin. rewrite lookup_insert. case_decide as Hdt; [done|]. intros Hn.
      apply (insert_dead s v s' (Ok t) t' Hwf Hi). apply Hd; [set_solver|done].
  - destruct (insert_inv _ _ _ _ Hwf Hi) as [(_ & -> & [= ->])|(?&?&?&?&?&?&?&?)]; [|done].
    eexists _, _, _. split; [done|]. split; [constructor|]. by split.
Qed.

Lemma set_sim s a t v : slab_rel s a ->
  exists s' o a', slab_step s (OpSet t v) = Some (s', o) /\
    spec_step a (OpSet t v) o a' /\ slab_rel s' a'.
Proof.
  intros [Hwf Hg Hd Hu]. destruct a as [m used]. simpl in *.
  destruct (get_mut s t) as [[w upd]|] eqn:E.
  - destruct (get_mut_inv _ _ _ _ E) as [Hgt Hupd].
    eexists _, _, _. split; [done|]. split; [constructor; by rewrite Hg|].
    split; simpl; [by eapply get_mut_wf| | |].
    + intros t'. pose proof Hgt as Hs. apply get_Some in Hs.
      rewrite Hupd, get_upd by (by apply lookup_lt_Some in Hs). rewrite lookup_insert.
      destruct (decide (t = t')) as [->|Hne].
      * by rewrite decide_True, Z.eqb_refl.
      * case_decide as Hi; [|apply Hg]. rewrite Hg, (get_other_generation s t w) by done.
        destruct (generation t =? generation t') eqn:Eg; [|done]. zify_bool.
        destruct t, t'; simpl in *; congruence.
    + intros t' Hin. rewrite lookup_insert. case_decide; [done|]. intros Hn.
      eapply get_mut_keeps_dead; [done|]. by apply Hd.
    + rewrite dom_insert_L. apply union_subseteq. split; [|done].
      apply singleton_subseteq_l, Hu, elem_of_dom. rewrite Hg, Hgt. done.
  - eexists _, _, _. split; [done|].
    split; [constructor; rewrite Hg; by apply get_mut_get|]. by split.
Qed.

Lemma remove_sim s a t : slab_rel s a ->
  exists s' o a', slab_step s (OpRemove t) = Some (s', o) /\
    spec_step a (OpRemove t) o a' /\ slab_rel s' a'.
Proof.
  intros [Hwf Hg Hd Hu]. destruct a as [m used]. simpl in *.
  destruct (remove s t) as [s' r] eqn:E. eexists _, _, _. split; [done|].
  destruct (remove_get _ _ _ _ t E) as [-> _].
  split; [rewrite <- Hg; constructor|]. split; simpl.
  - by eapply remove_wf.
  - intros t'. destruct (remove_get _ _ _ _ t' E) as [_ ->].
    rewrite lookup_delete. case_decide; [done|]. apply Hg.
  - intros t' Hin. rewrite lookup_delete. case_decide as Hdt.
    + intros _. subst t'. destruct (get s t) as [v|] eqn:Eg.
      * by eapply remove_dead.
      * eapply remove_keeps_dead; [done|]. apply Hd; [done|]. by rewrite Hg.
    + intros Hn. eapply remove_keeps_dead; [done|]. by apply Hd.
  - rewrite dom_delete_L. set_solver.
Qed.

Lemma slab_sim s a op : slab_rel s a ->
  exists s' o a', slab_step s op = Some (s', o) /\ spec_step a op o a' /\ slab_rel s' a'.
Proof.
  destruct op as [v|t|t v|t]; intros Hr;
    [by apply insert_sim| |by apply set_sim|by apply remove_sim].
  eexists _, _, a. split; [done|]. destruct a as [m used].
  split; [|done]. rewrite <- (rel_get _ _ Hr t). constructor.
Qed.

#[global] Instance slab_store : SlotStore (Slab T) T :=
  {| store_step := slab_step; store_rel := slab_rel; store_sim := slab_sim |}.
End implements.

(** ** Properties *)

Section properties.
Context {T : Type}.

Lemma slab_exec (s : Slab T) a (ops : list (Op T)) :
  slab_rel s a ->
  exists s' os a', exec s ops = Some (s', os) /\ spec_exec a ops os a' /\ slab_rel s' a'.
Proof.
  intros Hr. destruct (exec_refines (S := Slab T) ops s a) as (s' & os & a' & H).
  - exact Hr.
  - exists s', os, a'. exact H.
Qed.

Lemma new_exec (c : nat) (ops : list (Op T)) :
  exists s os a, exec (new c) ops = Some (s, os) /\ spec_exec (∅, ∅) ops os a /\ slab_rel s a.
Proof. apply slab_exec, new_rel. Qed.

(** C1. Functional refinement of the whole slab: every sequence of [insert],
    [get], [get_mut] and [remove] on a slab of any capacity runs without a
    panic, and its results are those of a finite map whose names are fresh
    for ever and never name slot 0. *)
Theorem slab_refines_fresh_map (c : nat) (ops : list (Op T)) :
  exists s os a, exec (new c) ops = Some (s, os) /\ spec_exec (∅, ∅) ops os a /\
    slab_wf s /\ forall t, a.1 !! t = get s t.
Proof.
  destruct (new_exec c ops) as (s & os & a & He & Hs & Hr).
  exists s, os, a. split; [done|]. split; [done|]. split; [apply Hr|]. apply (rel_get _ _ Hr).
Qed.

(** Late completions are rejected: once a token has been removed, no
    later history of operations lets it resolve again, and no later insert
    issues it again, whatever slots are reused or retired meanwhile. *)
Theorem removed_token_never_resolves (c : nat) (ops ops' : list (Op T)) s os s1 v t s2 os2 :
  exec (new c) ops = Some (s, os) -> remove s t = (s1, Some v) ->
  exec s1 ops' = Some (s2, os2) ->
  get s2 t = None /\ ObsInsert (Ok t) ∉ os2.
Proof.
  intros He Hr He2.
  destruct (new_exec c ops) as (s' & os' & a & He' & _ & Hrel).
  rewrite He in He'. simplify_eq.
  destruct (remove_sim s' a t Hrel) as (s1' & o & a1 & Hst & Hsp & Hrel1).
  simpl in Hst. rewrite Hr in Hst. simplify_eq. inversion Hsp as [| | | | |m used t']; subst.
  destruct (slab_exec s1' _ ops' Hrel1) as (s2' & os2' & a2 & He2' & Hs2 & Hrel2).
  rewrite He2 in He2'. simplify_eq.
  destruct (spec_retired _ _ _ _ t Hs2) as [[_ Hn] Hno]; simpl.
  - apply (rel_used _ _ Hrel), elem_of_dom. simpl in *. by rewrite H1.
  - by rewrite lookup_delete_eq.
  - split; [|done]. by rewrite <- (rel_get _ _ Hrel2).
Qed.

Lemma slab_capacity_step (s s' : Slab T) op o :
  store_step s op = Some (s', o) -> capacity s' = capacity s.
Proof.
  unfold capacity. destruct op as [v|t|t v|t]; simpl.
  - unfold insert. branch; intros; simplify_eq/=; by rewrite ?length_insert.
  - intros; by simplify_eq.
  - unfold get_mut. branch; intros; simplify_eq/=; by rewrite ?length_insert.
  - unfold remove. branch; intros; simplify_eq/=; by rewrite ?length_insert.
Qed.

(** [insert] refuses only when it must: a refused insert hands the value
    back, and then each of the [capacity] allocatable slots holds a live
    entry or is retired at generation [u64::MAX]. *)
Theorem insert_refused_full (c : nat) (ops : list (Op T)) s os v s' r :
  exec (new c) ops = Some (s, os) -> insert s v = Some (s', Err r) ->
  r = v /\ s' = s /\
  forall i, (1 <= i <= capacity s)%nat ->
    (exists g w, slots s !! i = Some (mkSlot g (Some w)) /\ get s (mkToken i g) = Some w) \/
    slots s !! i = Some (mkSlot (max_uint 64) None).
Proof.
  intros He Hi.
  destruct (new_exec c ops) as (s0 & os0 & a & He' & _ & Hrel).
  rewrite He in He'. simplify_eq. pose proof (rel_wf _ _ Hrel) as Hwf.
  destruct (insert_inv _ _ _ _ Hwf Hi) as [(Hf & -> & [= ->])|(?&?&?&?&?&?&?&?)]; [|done].
  split; [done|]. split; [done|]. intros i Hb. unfold capacity in Hb.
  destruct (slots s0 !! i) as [[g o]|] eqn:Es.
  2: { apply lookup_ge_None in Es. lia. }
  destruct o as [w|].
  - left. exists g, w. split; [done|]. by apply get_Some.
  - right. destruct (wf_empty s0 Hwf i g Es) as [?|[Hin| ->]]; [lia| |done].
    rewrite Hf in Hin. by apply not_elem_of_nil in Hin.
Qed.
End properties.

Example removed_token_never_resolves_witness :
  get (fst (default (new 1, []) (exec (fst (remove (fst (default (new 1, []) (exec (new 1) [OpInsert 10])))
        (mkToken 1 0))) [OpInsert 30]))) (mkToken 1 0) = None.
Proof.
  eapply (removed_token_never_resolves 1 [OpInsert 10] [OpInsert 30]); reflexivity.
Defined.

Example insert_refused_full_witness :
  let s := mkSlab [mkSlot 0 None; mkSlot 0 (Some 10)] [] in
  insert s 20 = Some (s, Err 20) /\
  ((exists g w, slots s !! 1%nat = Some (mkSlot g (Some w)) /\ get s (mkToken 1 g) = Some w) \/
   slots s !! 1%nat = Some (mkSlot (max_uint 64) None)).
Proof.
  intros s. split; [reflexivity|].
  apply (insert_refused_full 1 [OpInsert 10] s [ObsInsert (Ok (mkToken 1 0))] 20 s 20
           eq_refl eq_refl).
  unfold capacity, s; simpl; lia.
Defined.
