(* ===== verification/Limit.v ===== *)
(** * Connection permits ([crates/dn-runtime/src/limit.rs])

    [ConnectionLimit] is one atomic counter. [try_acquire] and [Permit::drop]
    are its two updates. The standard library's [fetch_update] is a loop of a
    load and weak compare-exchanges, so the interleaved system takes those as
    separate steps: any number of threads, any schedule, spurious failures
    included. *)
From S2P Require Import Prelude.

Local Open Scope Z_scope.

(** ** [AtomicUsize::fetch_update], in one step *)
Definition fetch_update (f : Z -> option Z) (v : Z) : Z * result Z Z :=
  match f v with
  | Some next => (next, Ok v)
  | None => (v, Err v)
  end.

Record ConnectionLimit := mkLimit { maximum : Z; used : Z }.

Definition new (maximum : Z) : ConnectionLimit := mkLimit maximum 0.

(** The closure [try_acquire] updates the counter with. *)
Definition acquire_update (l : ConnectionLimit) (u : Z) : option Z :=
  if u <? maximum l then Some (u + 1) else None.

(** [Some tt] is the [Permit]. *)
Definition try_acquire (l : ConnectionLimit) : ConnectionLimit * option unit :=
  let '(u, r) := fetch_update (acquire_update l) (used l) in
  (mkLimit (maximum l) u, match r with Ok _ => Some tt | Err _ => None end).

(** [Permit::drop]: the new state and the [previous] its assertion inspects. *)
Definition drop_permit (l : ConnectionLimit) : ConnectionLimit * Z :=
  (mkLimit (maximum l) (wrapping_sub USIZE (used l) 1), used l).

(** ** Threads *)
Inductive Pc :=
  | Idle
  | Loaded (prev : Z)     (* inside [fetch_update], [prev] read *)
  | Holding               (* owns a permit *)
  | Refused.              (* [try_acquire] returned [None] *)

Inductive Event :=
  | Load                  (* the loop's first load *)
  | Cas (spurious : bool) (* one [compare_exchange_weak], or the loop's exit *)
  | Release               (* the permit is dropped *)
  | Forget.               (* a refused caller goes on *)

Record Sys := mkSys { limit : ConnectionLimit; pcs : list Pc }.

Definition set_pc (s : Sys) (i : nat) (l : ConnectionLimit) (pc : Pc) : Sys :=
  mkSys l (<[i := pc]> (pcs s)).

Definition step (ev : nat * Event) (s : Sys) : option Sys :=
  let '(i, e) := ev in
  match pcs s !! i, e with
  | Some Idle, Load => Some (set_pc s i (limit s) (Loaded (used (limit s))))
  | Some (Loaded prev), Cas spurious =>
      match acquire_update (limit s) prev with
      | None => Some (set_pc s i (limit s) Refused)
      | Some next =>
          if negb spurious && (used (limit s) =? prev)
          then Some (set_pc s i (mkLimit (maximum (limit s)) next) Holding)
          else Some (set_pc s i (limit s) (Loaded (used (limit s))))
      end
  | Some Holding, Release => Some (set_pc s i (fst (drop_permit (limit s))) Idle)
  | Some Refused, Forget => Some (set_pc s i (limit s) Idle)
  | _, _ => None
  end.

Definition init (max : Z) (n : nat) : Sys := mkSys (new max) (replicate n Idle).

Definition is_holding (pc : Pc) : bool := match pc with Holding => true | _ => false end.

Definition holders (s : Sys) : Z := count is_holding (pcs s).

(** ** Invariant *)
Record limit_inv (max : Z) (s : Sys) : Prop := {
  li_max : maximum (limit s) = max;
  li_used : used (limit s) = holders s;
  li_bound : 0 <= used (limit s) <= max
}.

Lemma limit_init_inv max n : 0 <= max -> limit_inv max (init max n).
Proof.
  intros Hm. split; simpl; [done| |lia]. unfold holders. simpl.
  by rewrite count_replicate.
Qed.

Lemma holders_set s i l pc old :
  pcs s !! i = Some old ->
  holders (set_pc s i l pc) =
    holders s - (if is_holding old then 1 else 0) + (if is_holding pc then 1 else 0).
Proof. intros H. unfold holders. simpl. by apply count_insert. Qed.

Lemma limit_step_inv max ev s s' :
  0 <= max < 2 ^ USIZE -> limit_inv max s -> step ev s = Some s' -> limit_inv max s'.
Proof.
  intros Hmax [Hm Hu Hb] Hs. destruct ev as [i e]. unfold step in Hs.
  destruct (pcs s !! i) as [pc|] eqn:Epc; [|done].
  destruct pc as [|prev| |], e as [|sp| |]; simplify_eq;
    try (split; simpl; [done| |done]; rewrite (holders_set _ _ _ _ _ Epc); simpl; lia).
  - unfold acquire_update in Hs. destruct (prev <? maximum (limit s)) eqn:E; zify_bool.
    + destruct (negb sp && (used (limit s) =? prev)) eqn:E2; simplify_eq.
      * apply andb_true_iff in E2 as [_ E2]. zify_bool.
        split; simpl; [done| |lia]. rewrite (holders_set _ _ _ _ _ Epc). simpl. lia.
      * split; simpl; [done| |done]. rewrite (holders_set _ _ _ _ _ Epc). simpl. lia.
    + simplify_eq. split; simpl; [done| |done]. rewrite (holders_set _ _ _ _ _ Epc). simpl. lia.
  - assert (0 < holders s) as Hpos by (by apply (count_pos _ _ i Holding)).
    assert (wrapping_sub USIZE (used (limit s)) 1 = used (limit s) - 1) as Hw.
    { unfold wrapping_sub. apply wrap_small. unfold fits. lia. }
    split; simpl; rewrite ?Hw; [done| |lia]. rewrite (holders_set _ _ _ _ _ Epc). simpl. lia.
Qed.

Lemma limit_reach_inv max n s :
  0 <= max < 2 ^ USIZE -> reach step (init max n) s -> limit_inv max s.
Proof.
  intros Hmax. apply (reach_invariant step (limit_inv max)).
  - apply limit_init_inv; lia.
  - intros; by eapply limit_step_inv.
Qed.

(** ** Properties *)

(** The bound holds under every interleaving: the counter is exactly the
    number of live permits and never exceeds [maximum], for any number of
    threads racing through [fetch_update]'s load and compare-exchange steps;
    so a release never finds the counter at zero. *)
Theorem permits_bounded (max : Z) (n : nat) (s : Sys) :
  0 <= max < 2 ^ USIZE -> reach step (init max n) s ->
  used (limit s) = holders s /\ holders s <= max /\
  forall i, pcs s !! i = Some Holding -> snd (drop_permit (limit s)) <> 0.
Proof.
  intros Hmax Hr. destruct (limit_reach_inv _ _ _ Hmax Hr) as [Hm Hu Hb].
  split; [done|]. split; [lia|]. intros i Hi. simpl.
  pose proof (count_pos is_holding (pcs s) i Holding Hi eq_refl). unfold holders in *. lia.
Qed.

(** The counter held [prev] at some moment of the schedule. *)
Definition loaded_seen (ls : list (nat * Event)) (s0 : Sys) (prev : Z) : Prop :=
  exists ls1 ls2 s1, ls = ls1 ++ ls2 /\ run step ls1 s0 = Some s1 /\ used (limit s1) = prev.

Lemma loaded_was_seen max n ls s i :
  0 <= max < 2 ^ USIZE -> run step ls (init max n) = Some s ->
  (forall prev, pcs s !! i = Some (Loaded prev) -> loaded_seen ls (init max n) prev) /\
  (pcs s !! i = Some Refused -> loaded_seen ls (init max n) max).
Proof.
  intros Hmax. revert s. induction ls as [|l ls IH] using rev_ind; intros s Hrun.
  { simpl in Hrun. simplify_eq. simpl. split; intros; by rewrite ?lookup_replicate in *; naive_solver. }
  destruct (run_snoc _ _ _ _ _ Hrun) as (s1 & Hrun1 & Hst).
  destruct (IH s1 Hrun1) as [IH1 IH2].
  assert (forall p, loaded_seen ls (init max n) p -> loaded_seen (ls ++ [l]) (init max n) p) as Hext.
  { intros p (l1 & l2 & s2 & -> & ? & ?). exists l1, (l2 ++ [l]), s2. by rewrite app_assoc. }
  assert (loaded_seen (ls ++ [l]) (init max n) (used (limit s1))) as Hnow.
  { exists ls, [l], s1. done. }
  pose proof (limit_reach_inv _ _ _ Hmax (run_reach _ _ _ _ Hrun1)) as Hinv1.
  destruct l as [j e]. unfold step in Hst.
  destruct (pcs s1 !! j) as [pc|] eqn:Epc; [|done].
  destruct (decide (i = j)) as [->|Hne].
  2: { assert (pcs s !! i = pcs s1 !! i) as ->; [|naive_solver].
       branch; by rewrite list_lookup_insert_ne. }
  pose proof (lookup_lt_Some _ _ _ Epc) as Hlt.
  destruct pc as [|prev| |], e as [|sp| |]; simplify_eq; simpl;
    rewrite ?list_lookup_insert_eq by done; try (naive_solver; fail).
  unfold acquire_update in Hst. destruct (prev <? maximum (limit s1)) eqn:E; zify_bool.
  - destruct (negb sp && (used (limit s1) =? prev)); simplify_eq; simpl;
      rewrite list_lookup_insert_eq by done; naive_solver.
  - simplify_eq; simpl. rewrite list_lookup_insert_eq by done. split; [naive_solver|]. intros _.
    pose proof (IH1 prev Epc) as (l1 & l2 & s2 & Hl & Hr2 & Hp).
    pose proof (limit_reach_inv _ _ _ Hmax (run_reach _ _ _ _ Hr2)) as [_ _ Hb2].
    rewrite (li_max _ _ Hinv1) in E.
    apply Hext. exists l1, l2, s2. split; [done|]. split; [done|]. lia.
Qed.

(** Refusals are honest: whenever [try_acquire] has returned [None], all
    [maximum] permits were out at some moment of the schedule. *)
Theorem refusal_means_full (max : Z) (n : nat) ls s i :
  0 <= max < 2 ^ USIZE -> run step ls (init max n) = Some s -> pcs s !! i = Some Refused ->
  exists ls1 ls2 s1, ls = ls1 ++ ls2 /\ run step ls1 (init max n) = Some s1 /\ holders s1 = max.
Proof.
  intros Hmax Hr Hi. destruct (loaded_was_seen _ _ _ _ i Hmax Hr) as [_ H].
  destruct (H Hi) as (ls1 & ls2 & s1 & Hl & Hr1 & Hu). exists ls1, ls2, s1.
  split; [done|]. split; [done|].
  pose proof (limit_reach_inv _ _ _ Hmax (run_reach _ _ _ _ Hr1)) as [_ Hu1 _]. lia.
Qed.

(** A permit taken and dropped leaves the counter where it was. *)
Lemma acquire_drop_roundtrip l l' :
  fits USIZE (maximum l) -> fits USIZE (used l) ->
  try_acquire l = (l', Some tt) -> fst (drop_permit l') = l.
Proof.
  intros Hm Hu. unfold try_acquire, fetch_update, acquire_update.
  destruct (used l <? maximum l) eqn:E; zify_bool; [|done].
  intros [= <-]. unfold drop_permit, wrapping_sub. simpl.
  replace (used l + 1 - 1) with (used l) by lia. rewrite wrap_small by done. by destruct l.
Qed.

Definition two_threads : list (nat * Event) :=
  [(0%nat, Load); (1%nat, Load); (0%nat, Cas false); (1%nat, Cas false); (1%nat, Cas false)].

Definition two_threads_end : Sys := mkSys (mkLimit 1 1) [Holding; Refused].

Example permits_bounded_witness :
  reach step (init 1 2) two_threads_end /\ holders two_threads_end <= 1.
Proof.
  assert (reach step (init 1 2) two_threads_end) as Hr
    by (apply (run_reach _ two_threads); reflexivity).
  split; [exact Hr|].
  apply (permits_bounded 1 2 two_threads_end); [split; reflexivity || lia|exact Hr].
Defined.

Example refusal_means_full_witness :
  exists ls1 ls2 s1, two_threads = ls1 ++ ls2 /\ run step ls1 (init 1 2) = Some s1 /\ holders s1 = 1.
Proof.
  apply (refusal_means_full 1 2 two_threads two_threads_end 1);
    [split; reflexivity || lia|reflexivity|reflexivity].
Defined.
