(* ===== verification/Output.v ===== *)
(** * The partial-write cursor ([crates/dn-runtime/src/output.rs])

    [OutputCursor] walks a borrowed byte slice as completions report how much
    the kernel took. The wire is what the completions sent, in order. *)
From S2P Require Import Prelude.

Record OutputCursor := mkCursor { bytes : list Z; sent : nat }.

Inductive OverCompletion := overCompletion.

Definition new (b : list Z) : OutputCursor := mkCursor b 0.

Definition remaining (c : OutputCursor) : list Z := drop (sent c) (bytes c).

Definition is_complete (c : OutputCursor) : bool := (sent c =? length (bytes c))%nat.

Definition complete (c : OutputCursor) (count : nat) : OutputCursor * result unit OverCompletion :=
  if (length (bytes c) - sent c <? count)%nat then (c, Err overCompletion)
  else (mkCursor (bytes c) (sent c + count), Ok tt).

(** One completion as the adapter sees it: [count] bytes of [remaining] left
    the process, if the report is accepted. *)
Definition send_step (cw : OutputCursor * list Z) (count : nat) : OutputCursor * list Z :=
  let '(c, wire) := cw in
  match complete c count with
  | (c', Ok _) => (c', wire ++ take count (remaining c))
  | (c', Err _) => (c', wire)
  end.

Definition send_all (b : list Z) (counts : list nat) : OutputCursor * list Z :=
  fold_left send_step counts (new b, []).

Definition cursor_inv (b : list Z) (cw : OutputCursor * list Z) : Prop :=
  bytes cw.1 = b /\ sent cw.1 <= length b /\ cw.2 = take (sent cw.1) b.

Lemma send_step_inv b cw n : cursor_inv b cw -> cursor_inv b (send_step cw n).
Proof.
  destruct cw as [[bs k] w]. intros (Hb & Hk & Hw). simpl in *. subst.
  unfold complete; simpl. destruct (length b - k <? n)%nat eqn:E.
  - by split.
  - apply Nat.ltb_ge in E. unfold cursor_inv, remaining; simpl.
    split; [done|]. split; [lia|]. by rewrite take_take_drop.
Qed.

(** Partial writes put the exact bytes on the wire: whatever completion
    counts are reported, over-reports included, the wire carries exactly the
    first [sent] bytes of the source, the cursor's remainder is exactly the
    rest, and the cursor never passes the end. *)
Theorem partial_sends_exact (b : list Z) (counts : list nat) :
  let '(c, wire) := send_all b counts in
  wire ++ remaining c = b /\ length wire = sent c /\ sent c <= length b /\
  (is_complete c = true <-> wire = b).
Proof.
  assert (cursor_inv b (send_all b counts)) as H.
  { unfold send_all. assert (cursor_inv b (new b, [])) as H0.
    { split; [done|]. split; simpl; [lia|]. by rewrite take_0. }
    revert H0. generalize (new b, @nil Z). induction counts as [|n ns IH]; intros cw H; simpl; [done|].
    by apply IH, send_step_inv. }
  destruct (send_all b counts) as [[bs k] w]. destruct H as (Hb & Hk & Hw). simpl in *. subst.
  unfold remaining, is_complete; simpl. split; [apply take_drop|].
  rewrite length_take. split; [lia|]. split; [done|].
  rewrite Nat.eqb_eq. split; [intros ->; by rewrite take_ge|].
  intros Heq%(f_equal length). rewrite length_take in Heq. lia.
Qed.

(** An over-report is an error and leaves the cursor alone; any other report
    advances it by exactly the count. *)
Lemma complete_spec c n :
  sent c <= length (bytes c) ->
  (length (remaining c) < n /\ complete c n = (c, Err overCompletion)) \/
  (n <= length (remaining c) /\
   complete c n = (mkCursor (bytes c) (sent c + n), Ok tt) /\
   remaining (fst (complete c n)) = drop n (remaining c)).
Proof.
  intros H. unfold complete, remaining. rewrite length_drop.
  destruct (length (bytes c) - sent c <? n)%nat eqn:E.
  - apply Nat.ltb_lt in E. left. split; [lia|done].
  - apply Nat.ltb_ge in E. right. split; [lia|]. split; [done|].
    simpl. rewrite drop_drop. done.
Qed.
