(* ===== verification/Ring.v ===== *)
(** * The bounded single-producer/single-consumer ring ([models/ring/src/lib.rs])

    [channel], [try_push], [try_pop], [close], [poll_send], [poll_recv] and
    [Ring::drop] are translated whole, on the source's words: positions are
    free-running [usize] counters shifted left by one, the low bit of [tail]
    is the close flag, and a slot is [(word >> 1) & mask]. A slot of
    [MaybeUninit] is an [option]; reading an empty one is undefined behaviour
    and [None] of the outer [option].

    [ring_refines_queue] relates any sequence of these operations to a bounded
    queue with a close flag; [RingConc] interleaves them. *)
From S2P Require Import Prelude.

Local Open Scope Z_scope.

Definition CLOSED : Z := 1.
Definition STEP : Z := 2.

Inductive PushError (T : Type) :=
  | Full (v : T)
  | Closed (v : T).
Arguments Full {T}. Arguments Closed {T}.

Definition into_inner {T} (e : PushError T) : T :=
  match e with Full v | Closed v => v end.

Inductive Poll (A : Type) := Ready (a : A) | Pending.
Arguments Ready {A}. Arguments Pending {A}.

(** ** The waker cell

    A waker is named by a number; [wake] reports the waker it fired. *)
Definition Waker := nat.

Record WakeCell := mkWakeCell { has_waker : bool; wslot : option Waker }.

Definition WakeCell_new : WakeCell := mkWakeCell false None.

Definition register (c : WakeCell) (w : Waker) : WakeCell := mkWakeCell true (Some w).

Definition wake (c : WakeCell) : WakeCell * option Waker :=
  if negb (has_waker c) then (c, None)
  else (mkWakeCell false None, wslot c).

Section ring.
Context {T : Type}.

Record Ring := mkRing {
  buffer : list (option T);
  mask : Z;
  capacity : Z;
  head : Z;
  tail : Z;
  consumer_waker : WakeCell;
  producer_waker : WakeCell
}.

(** The ring with both handles' caches, and the wakers fired so far. *)
Record Chan := mkChan {
  ring : Ring;
  cached_tail : Z;
  cached_head : Z;
  fired : list Waker
}.

Definition is_power_of_two (n : Z) : bool := (0 <? n) && (Z.land n (n - 1) =? 0).

Definition channel (cap : Z) : option Chan :=
  if (0 <? cap) && is_power_of_two cap then
    Some {| ring := {| buffer := replicate (Z.to_nat cap) None;
                       mask := cap - 1; capacity := cap; head := 0; tail := 0;
                       consumer_waker := WakeCell_new; producer_waker := WakeCell_new |};
            cached_tail := 0; cached_head := 0; fired := [] |}
  else None.

Definition slot_of (r : Ring) (word : Z) : nat := Z.to_nat (Z.land (Z.shiftr word 1) (mask r)).

Definition ring_closed (r : Ring) : bool := negb (Z.land (tail r) CLOSED =? 0).
Definition position_word (w : Z) : Z := Z.ldiff w CLOSED.

Definition set_buffer (r : Ring) (b : list (option T)) : Ring :=
  mkRing b (mask r) (capacity r) (head r) (tail r) (consumer_waker r) (producer_waker r).
Definition set_head (r : Ring) (h : Z) : Ring :=
  mkRing (buffer r) (mask r) (capacity r) h (tail r) (consumer_waker r) (producer_waker r).
Definition set_tail (r : Ring) (t : Z) : Ring :=
  mkRing (buffer r) (mask r) (capacity r) (head r) t (consumer_waker r) (producer_waker r).
Definition set_consumer_waker (r : Ring) (w : WakeCell) : Ring :=
  mkRing (buffer r) (mask r) (capacity r) (head r) (tail r) w (producer_waker r).
Definition set_producer_waker (r : Ring) (w : WakeCell) : Ring :=
  mkRing (buffer r) (mask r) (capacity r) (head r) (tail r) (consumer_waker r) w.

Definition log_fired (l : list Waker) (o : option Waker) : list Waker :=
  match o with Some w => l ++ [w] | None => l end.

Definition wake_consumer (c : Chan) : Chan :=
  let '(cell, w) := wake (consumer_waker (ring c)) in
  mkChan (set_consumer_waker (ring c) cell) (cached_tail c) (cached_head c) (log_fired (fired c) w).
Definition wake_producer (c : Chan) : Chan :=
  let '(cell, w) := wake (producer_waker (ring c)) in
  mkChan (set_producer_waker (ring c) cell) (cached_tail c) (cached_head c) (log_fired (fired c) w).

Definition try_push (c : Chan) (value : T) : option (Chan * result unit (PushError T)) :=
  let r := ring c in
  if ring_closed r then Some (c, Err (Closed value))
  else
    let t := cached_tail c in
    let h := head r in
    if capacity r * STEP <=? wrapping_sub USIZE t h then Some (c, Err (Full value))
    else
      let slot := slot_of r t in
      match buffer r !! slot with
      | None => None
      | Some _ =>
          let r1 := set_buffer r (<[slot := Some value]> (buffer r)) in
          if tail r1 =? t then
            Some (wake_consumer
                    (mkChan (set_tail r1 (wrapping_add USIZE t STEP))
                            (wrapping_add USIZE t STEP) (cached_head c) (fired c)), Ok tt)
          else
            match buffer r1 !! slot with
            | Some (Some v) =>
                Some (mkChan (set_buffer r1 (<[slot := None]> (buffer r1)))
                             (cached_tail c) (cached_head c) (fired c), Err (Closed v))
            | _ => None
            end
      end.

Definition Sender_close (c : Chan) : Chan :=
  wake_consumer (mkChan (set_tail (ring c) (Z.lor (tail (ring c)) CLOSED))
                        (cached_tail c) (cached_head c) (fired c)).

Definition Receiver_close (c : Chan) : Chan :=
  wake_producer (mkChan (set_tail (ring c) (Z.lor (tail (ring c)) CLOSED))
                        (cached_tail c) (cached_head c) (fired c)).

Definition try_pop (c : Chan) : option (Chan * option T) :=
  let r := ring c in
  let h := cached_head c in
  let t := position_word (tail r) in
  if h =? t then Some (c, None)
  else
    let slot := slot_of r h in
    match buffer r !! slot with
    | Some (Some value) =>
        let r1 := set_head (set_buffer r (<[slot := None]> (buffer r))) (wrapping_add USIZE h STEP) in
        Some (wake_producer
                (mkChan r1 (cached_tail c) (wrapping_add USIZE h STEP) (fired c)), Some value)
    | _ => None
    end.

Definition register_consumer (c : Chan) (w : Waker) : Chan :=
  mkChan (set_consumer_waker (ring c) (register (consumer_waker (ring c)) w))
         (cached_tail c) (cached_head c) (fired c).
Definition register_producer (c : Chan) (w : Waker) : Chan :=
  mkChan (set_producer_waker (ring c) (register (producer_waker (ring c)) w))
         (cached_tail c) (cached_head c) (fired c).

(** The future's [value] cell is the argument: [Full] puts the value back. *)
Definition poll_send (c : Chan) (value : T) (cx : Waker) :
    option (Chan * option T * Poll (result unit (PushError T))) :=
  match try_push c value with
  | None => None
  | Some (c1, Ok u) => Some (c1, None, Ready (Ok u))
  | Some (c1, Err (Closed v)) => Some (c1, None, Ready (Err (Closed v)))
  | Some (c1, Err (Full v)) =>
      match try_push (register_producer c1 cx) v with
      | None => None
      | Some (c2, Ok u) => Some (wake_producer c2, None, Ready (Ok u))
      | Some (c2, Err (Closed v')) => Some (wake_producer c2, None, Ready (Err (Closed v')))
      | Some (c2, Err (Full v')) => Some (c2, Some v', Pending)
      end
  end.

Definition poll_recv (c : Chan) (cx : Waker) : option (Chan * Poll (option T)) :=
  match try_pop c with
  | None => None
  | Some (c1, Some v) => Some (c1, Ready (Some v))
  | Some (c1, None) =>
      if ring_closed (ring c1) then
        match try_pop c1 with Some (c2, o) => Some (c2, Ready o) | None => None end
      else
        let c2 := register_consumer c1 cx in
        match try_pop c2 with
        | None => None
        | Some (c3, Some v) =>
            Some (wake_consumer c3, Ready (Some v))
        | Some (c3, None) =>
            if ring_closed (ring c3) then
              match try_pop (wake_consumer c3) with Some (c4, o) => Some (c4, Ready o) | None => None end
            else Some (c3, Pending)
        end
  end.

(** [Ring::drop]: the slots from [head] to [tail] are dropped one by one. The
    loop runs at most [capacity] times, its fuel. *)
Fixpoint drop_loop (fuel : nat) (r : Ring) (i t : Z) (dropped : list T) : option (Ring * list T) :=
  if i =? t then Some (r, dropped)
  else match fuel with
       | O => None
       | S f =>
           let slot := slot_of r i in
           match buffer r !! slot with
           | Some (Some v) =>
               drop_loop f (set_buffer r (<[slot := None]> (buffer r)))
                         (wrapping_add USIZE i STEP) t (dropped ++ [v])
           | _ => None
           end
       end.

Definition ring_drop (r : Ring) : option (Ring * list T) :=
  drop_loop (Z.to_nat (capacity r)) r (head r) (position_word (tail r)) [].

End ring.
Arguments Ring : clear implicits.
Arguments Chan : clear implicits.

(** ** Words *)

Section words.
Lemma even_word m : wrap 64 (2 * m) = 2 * (m mod 2 ^ 63).
Proof.
  unfold wrap. change (2 ^ 64) with (2 * 2 ^ 63). by rewrite Z.mul_mod_distr_l by lia.
Qed.

Lemma slot_word m k :
  0 <= k <= 62 -> Z.land (Z.shiftr (wrap 64 (2 * m)) 1) (2 ^ k - 1) = m mod 2 ^ k.
Proof.
  intros Hk. rewrite even_word, Z.shiftr_div_pow2 by lia. change (2 ^ 1) with 2.
  rewrite (Z.mul_comm 2), Z.div_mul by lia.
  replace (2 ^ k - 1) with (Z.ones k) by (rewrite Z.ones_equiv; lia).
  rewrite Z.land_ones by lia.
  rewrite Z.mod_mod_divide; [done|]. exists (2 ^ (63 - k)). rewrite <- Z.pow_add_r by lia. f_equal. lia.
Qed.

Lemma sub_word a b :
  0 <= a - b < 2 ^ 63 -> wrapping_sub USIZE (wrap 64 (2 * a)) (wrap 64 (2 * b)) = 2 * (a - b).
Proof.
  intros H. unfold wrapping_sub, USIZE. rewrite wrap_sub_idemp by lia.
  rewrite wrap_small; [lia|]. unfold fits. lia.
Qed.

Lemma next_word m : wrapping_add USIZE (wrap 64 (2 * m)) STEP = wrap 64 (2 * (m + 1)).
Proof.
  unfold wrapping_add, USIZE, STEP. rewrite wrap_add_l by lia. f_equal. lia.
Qed.

Lemma close_bit x (b : bool) :
  Z.land (2 * x + Z.b2z b) CLOSED = Z.b2z b.
Proof.
  unfold CLOSED. change 1 with (Z.ones 1). rewrite Z.land_ones by lia. change (2 ^ 1) with 2.
  rewrite Z.add_comm, Z.mul_comm, Z.mod_add by lia. by destruct b.
Qed.

Lemma position_bit x (b : bool) : position_word (2 * x + Z.b2z b) = 2 * x.
Proof.
  unfold position_word, CLOSED. change 1 with (Z.ones 1).
  rewrite Z.ldiff_ones_r by lia. rewrite Z.shiftl_mul_pow2, Z.shiftr_div_pow2 by lia.
  change (2 ^ 1) with 2.
  rewrite Z.add_comm, (Z.mul_comm 2 x), Z.div_add by lia. replace (Z.b2z b / 2) with 0 by (by destruct b). lia.
Qed.

Lemma set_close_bit x (b : bool) : Z.lor (2 * x + Z.b2z b) CLOSED = 2 * x + 1.
Proof.
  unfold CLOSED. apply Z.bits_inj'. intros n Hn. rewrite Z.lor_spec.
  destruct (decide (n = 0)) as [->|Hne].
  - by rewrite Z.testbit_odd_0, orb_true_r.
  - replace n with (Z.succ (n - 1)) by lia.
    rewrite Z.testbit_succ_r, Z.testbit_odd_succ by lia.
    change 1 with (2 * 0 + Z.b2z true) at 2. rewrite Z.testbit_succ_r by lia.
    by rewrite Z.bits_0, orb_false_r.
Qed.

Lemma word_inj a b : Z.abs (a - b) < 2 ^ 63 -> wrap 64 (2 * a) = wrap 64 (2 * b) -> a = b.
Proof.
  intros H Heq. destruct (decide (a <= b)).
  - assert (2 * a = 2 * b); [|lia]. apply (wrap_inj_near 64); [lia|lia|done].
  - assert (2 * b = 2 * a); [|lia]. apply (wrap_inj_near 64); [lia|lia|done].
Qed.
End words.

(** ** The slots as a window

    [window r n content]: the slot of position [n + i] holds [content i], for
    each of the [capacity] positions from [n] on. *)
Section window.
Context {T : Type}.
Implicit Types (r : Ring T) (content : Z -> option T).

Definition geometry r : Prop :=
  (exists k, 0 <= k <= 61 /\ capacity r = 2 ^ k) /\ mask r = capacity r - 1.

Definition window r (n : Z) content : Prop :=
  Z.of_nat (length (buffer r)) = capacity r /\
  forall i, 0 <= i < capacity r ->
    buffer r !! Z.to_nat ((n + i) mod capacity r) = Some (content i).

Lemma geometry_cap r : geometry r -> 0 < capacity r <= 2 ^ 61.
Proof.
  intros [(k & Hk & ->) _]. split; [apply pow2_pos; lia|].
  apply Z.pow_le_mono_r; lia.
Qed.

Lemma slot_of_word r n : geometry r -> slot_of r (wrap 64 (2 * n)) = Z.to_nat (n mod capacity r).
Proof.
  intros [(k & Hk & Hc) Hm]. unfold slot_of. by rewrite Hm, Hc, slot_word by lia.
Qed.

Lemma window_write r n content i x :
  geometry r -> 0 <= i < capacity r -> window r n content ->
  window (set_buffer r (<[Z.to_nat ((n + i) mod capacity r) := x]> (buffer r))) n
         (fun j => if j =? i then x else content j).
Proof.
  intros Hg Hi [Hl Hw]. pose proof (geometry_cap r Hg) as Hc.
  split; [by simpl; rewrite length_insert|]. simpl. intros j Hj.
  pose proof (Z.mod_pos_bound (n + i) (capacity r)).
  destruct (j =? i) eqn:E; zify_bool.
  - subst. apply list_lookup_insert_eq. lia.
  - rewrite list_lookup_insert_ne; [by apply Hw|]. intros Heq. apply E.
    pose proof (Z.mod_pos_bound (n + j) (capacity r)).
    apply (mod_near (capacity r) n); lia.
Qed.

Lemma window_shift r n content :
  geometry r -> window r n content -> content 0 = None ->
  window r (n + 1) (fun j => if j =? capacity r - 1 then None else content (j + 1)).
Proof.
  intros Hg [Hl Hw] H0. pose proof (geometry_cap r Hg) as Hc. split; [done|]. intros j Hj.
  destruct (j =? capacity r - 1) eqn:E; zify_bool.
  - subst. replace (n + 1 + (capacity r - 1)) with (n + 0 + 1 * capacity r) by lia.
    rewrite Z.mod_add by lia. rewrite Hw by lia. by rewrite H0.
  - rewrite <- Hw by lia. do 3 f_equal. lia.
Qed.

Lemma window_ext r n c1 c2 :
  (forall i, 0 <= i < capacity r -> c1 i = c2 i) -> window r n c1 -> window r n c2.
Proof. intros He [Hl Hw]. split; [done|]. intros i Hi. by rewrite Hw, He. Qed.

(** Emptying the slot of position [n] takes the head off the window. *)
Lemma window_pop r n v (q : list T) :
  geometry r -> Z.of_nat (length (v :: q)) <= capacity r ->
  window r n (fun i => (v :: q) !! Z.to_nat i) ->
  window (set_buffer r (<[Z.to_nat (n mod capacity r) := None]> (buffer r))) (n + 1)
         (fun i => q !! Z.to_nat i).
Proof.
  intros Hg Hl Hw0. pose proof (geometry_cap r Hg) as Hc. simpl length in Hl.
  pose proof (window_write r n _ 0 None Hg ltac:(lia) Hw0) as Hw.
  rewrite Z.add_0_r in Hw. apply window_shift in Hw; [|apply Hg|done].
  eapply window_ext; [|exact Hw]. simpl. intros i Hi.
  destruct (i =? capacity r - 1) eqn:E; zify_bool.
  - rewrite lookup_ge_None_2; [done|lia].
  - destruct (i + 1 =? 0) eqn:E2; zify_bool; [lia|].
    by replace (Z.to_nat (i + 1)) with (S (Z.to_nat i)) by lia.
Qed.
End window.

(** ** Refinement of a closable bounded queue

    [rep c n q cl]: [n] values have been popped since the start, [q] is in the
    ring, and [cl] is the close flag. [n] is unbounded, so the counters may
    have wrapped around any number of times. *)
Section refinement.
Context {T : Type}.
Implicit Types (c : Chan T) (q : list T).

Record rep c (n : Z) q (cl : bool) : Prop := {
  rep_geo : geometry (ring c);
  rep_head : head (ring c) = wrap 64 (2 * n);
  rep_chead : cached_head c = wrap 64 (2 * n);
  rep_ctail : cached_tail c = wrap 64 (2 * (n + Z.of_nat (length q)));
  rep_tail : tail (ring c) = wrap 64 (2 * (n + Z.of_nat (length q))) + Z.b2z cl;
  rep_len : Z.of_nat (length q) <= capacity (ring c);
  rep_win : window (ring c) n (fun i => q !! Z.to_nat i)
}.

Lemma rep_closed c n q cl : rep c n q cl -> ring_closed (ring c) = cl.
Proof.
  intros H. unfold ring_closed. rewrite (rep_tail _ _ _ _ H), even_word, close_bit. by destruct cl.
Qed.

Lemma rep_position c n q cl :
  rep c n q cl -> position_word (tail (ring c)) = wrap 64 (2 * (n + Z.of_nat (length q))).
Proof. intros H. by rewrite (rep_tail _ _ _ _ H), even_word, position_bit. Qed.

Lemma rep_wake_consumer c n q cl : rep c n q cl -> rep (wake_consumer c) n q cl.
Proof. intros []. unfold wake_consumer. destruct (wake _). by split. Qed.
Lemma rep_wake_producer c n q cl : rep c n q cl -> rep (wake_producer c) n q cl.
Proof. intros []. unfold wake_producer. destruct (wake _). by split. Qed.
Lemma rep_register_consumer c n q cl w : rep c n q cl -> rep (register_consumer c w) n q cl.
Proof. intros []. by split. Qed.
Lemma rep_register_producer c n q cl w : rep c n q cl -> rep (register_producer c w) n q cl.
Proof. intros []. by split. Qed.

Lemma channel_rep k :
  0 <= k <= 61 -> exists c, channel (T := T) (2 ^ k) = Some c /\ rep c 0 [] false /\
    capacity (ring c) = 2 ^ k.
Proof.
  intros Hk. unfold channel. pose proof (pow2_pos k ltac:(lia)) as Hp.
  assert (is_power_of_two (2 ^ k) = true) as ->.
  { unfold is_power_of_two. apply andb_true_iff. split; [by apply Z.ltb_lt|]. apply Z.eqb_eq.
    replace (2 ^ k - 1) with (Z.ones k) by (rewrite Z.ones_equiv; lia).
    rewrite Z.land_ones by lia. apply Z_mod_same_full. }
  rewrite (proj2 (Z.ltb_lt _ _) Hp). eexists. split; [done|]. split; [|done].
  split; cbn [ring head tail cached_head cached_tail capacity buffer]; try done.
  - split; [by exists k|done].
  - cbn [length]. lia.
  - split; cbn [capacity buffer]; [rewrite length_replicate; lia|]. intros i Hi.
    rewrite lookup_nil. apply lookup_replicate_2.
    pose proof (Z.mod_pos_bound (0 + i) (2 ^ k)). lia.
Qed.

Lemma full_test c n q cl :
  rep c n q cl ->
  (capacity (ring c) * STEP <=? wrapping_sub USIZE (cached_tail c) (head (ring c))) =
  (capacity (ring c) <=? Z.of_nat (length q)).
Proof.
  intros H. pose proof (geometry_cap _ (rep_geo _ _ _ _ H)). pose proof (rep_len _ _ _ _ H).
  rewrite (rep_ctail _ _ _ _ H), (rep_head _ _ _ _ H), sub_word by lia. unfold STEP.
  apply bool_eq_iff. rewrite !Z.leb_le. lia.
Qed.

Lemma rep_push c n q v :
  rep c n q false -> Z.of_nat (length q) < capacity (ring c) ->
  let r := ring c in
  let w := wrap 64 (2 * (n + Z.of_nat (length q) + 1)) in
  rep (mkChan (set_tail (set_buffer r
        (<[Z.to_nat ((n + Z.of_nat (length q)) mod capacity r) := Some v]> (buffer r))) w)
        w (cached_head c) (fired c)) n (q ++ [v]) false.
Proof.
  intros H Hlt r w. pose proof (geometry_cap _ (rep_geo _ _ _ _ H)) as Hc.
  assert (Z.of_nat (length (q ++ [v])) = Z.of_nat (length q) + 1) as Hl
    by (rewrite length_app; simpl; lia).
  split; cbn [ring head tail cached_head cached_tail set_tail set_buffer]; rewrite ?Hl, ?Z.add_assoc.
  1-3: apply H.
  - done.
  - by rewrite Z.add_0_r.
  - subst r. simpl. lia.
  - pose proof (window_write r n _ (Z.of_nat (length q)) (Some v) (rep_geo _ _ _ _ H)
                  ltac:(subst r; lia) (rep_win _ _ _ _ H)) as Hw.
    eapply window_ext; [|exact Hw].
    simpl. intros i Hi. destruct (i =? Z.of_nat (length q)) eqn:E; zify_bool.
    + subst. by rewrite Nat2Z.id, list_lookup_middle.
    + destruct (decide (i < Z.of_nat (length q))).
      * rewrite lookup_app_l; [done|lia].
      * rewrite !lookup_ge_None_2; [done| |]; rewrite ?length_app; simpl; lia.
Qed.

(** [try_push] on every branch. *)
Lemma try_push_spec c n q cl v :
  rep c n q cl ->
  if cl then try_push c v = Some (c, Err (Closed v))
  else if capacity (ring c) <=? Z.of_nat (length q) then try_push c v = Some (c, Err (Full v))
  else exists c', try_push c v = Some (c', Ok tt) /\ rep c' n (q ++ [v]) false /\
       capacity (ring c') = capacity (ring c).
Proof.
  intros H. unfold try_push. rewrite (rep_closed _ _ _ _ H). destruct cl; [done|].
  rewrite (full_test _ _ _ _ H).
  destruct (capacity (ring c) <=? Z.of_nat (length q)) eqn:E; zify_bool; [done|].
  pose proof (geometry_cap _ (rep_geo _ _ _ _ H)) as Hc.
  rewrite (rep_ctail _ _ _ _ H), (slot_of_word _ _ (rep_geo _ _ _ _ H)).
  pose proof (proj2 (rep_win _ _ _ _ H) (Z.of_nat (length q)) ltac:(lia)) as Hs. rewrite Hs.
  change (tail (set_buffer (ring c) _)) with (tail (ring c)).
  rewrite (rep_tail _ _ _ _ H). simpl Z.b2z. rewrite Z.add_0_r, Z.eqb_refl, next_word.
  eexists. split; [done|]. split.
  - apply rep_wake_consumer, rep_push; [done|lia].
  - unfold wake_consumer. by destruct (wake _).
Qed.

(** [try_pop] on every branch. *)
Lemma try_pop_spec c n q cl :
  rep c n q cl ->
  match q with
  | [] => try_pop c = Some (c, None)
  | v :: q' => exists c', try_pop c = Some (c', Some v) /\ rep c' (n + 1) q' cl /\
               capacity (ring c') = capacity (ring c)
  end.
Proof.
  intros H. unfold try_pop. rewrite (rep_position _ _ _ _ H), (rep_chead _ _ _ _ H).
  pose proof (geometry_cap _ (rep_geo _ _ _ _ H)) as Hc. pose proof (rep_len _ _ _ _ H) as Hl.
  destruct q as [|v q'].
  { simpl. by rewrite Z.add_0_r, Z.eqb_refl. }
  rewrite (proj2 (Z.eqb_neq _ _)).
  2: { intros Heq%word_inj; simpl length in *; lia. }
  rewrite (slot_of_word _ _ (rep_geo _ _ _ _ H)).
  pose proof (proj2 (rep_win _ _ _ _ H) 0 ltac:(lia)) as Hs. simpl in Hs. rewrite Z.add_0_r in Hs.
  rewrite Hs, next_word. eexists. split; [done|]. split.
  2: { unfold wake_producer. by destruct (wake _). }
  apply rep_wake_producer. simpl length in *.
  split; simpl; rewrite ?(rep_ctail _ _ _ _ H), ?(rep_tail _ _ _ _ H); simpl length; try done.
  - apply H.
  - do 2 f_equal. lia.
  - do 3 f_equal. lia.
  - lia.
  - apply (window_pop (ring c) n v q'); [apply H|simpl; lia|apply (rep_win _ _ _ _ H)].
Qed.

Lemma rep_close c n q cl :
  rep c n q cl ->
  rep (mkChan (set_tail (ring c) (Z.lor (tail (ring c)) CLOSED)) (cached_tail c) (cached_head c) (fired c))
      n q true.
Proof.
  intros []. split; simpl; try done. rewrite rep_tail0, even_word. apply set_close_bit.
Qed.
End refinement.

(** ** The abstract queue and the operations of the two handles *)
Section operations.
Context {T : Type}.
Implicit Types (c : Chan T) (q : list T).

Inductive ROp :=
  | RPush (v : T) | RPop | RSenderClose | RReceiverClose
  | RPollSend (v : T) (w : Waker) | RPollRecv (w : Waker).

Inductive ROut :=
  | OutPush (r : result unit (PushError T))
  | OutPop (o : option T)
  | OutUnit
  | OutSend (back : option T) (p : Poll (result unit (PushError T)))
  | OutRecv (p : Poll (option T)).

Definition ring_op c (op : ROp) : option (Chan T * ROut) :=
  match op with
  | RPush v => match try_push c v with Some (c', r) => Some (c', OutPush r) | None => None end
  | RPop => match try_pop c with Some (c', o) => Some (c', OutPop o) | None => None end
  | RSenderClose => Some (Sender_close c, OutUnit)
  | RReceiverClose => Some (Receiver_close c, OutUnit)
  | RPollSend v w =>
      match poll_send c v w with Some (c', b, p) => Some (c', OutSend b p) | None => None end
  | RPollRecv w =>
      match poll_recv c w with Some (c', p) => Some (c', OutRecv p) | None => None end
  end.

(** What a queue of at most [cap] values with a close flag does. *)
Definition queue_op (cap : Z) (st : list T * bool) (op : ROp) : (list T * bool) * ROut :=
  let '(q, cl) := st in
  let full := cap <=? Z.of_nat (length q) in
  match op with
  | RPush v =>
      if cl then (st, OutPush (Err (Closed v)))
      else if full then (st, OutPush (Err (Full v)))
      else ((q ++ [v], cl), OutPush (Ok tt))
  | RPop =>
      match q with [] => (st, OutPop None) | v :: q' => ((q', cl), OutPop (Some v)) end
  | RSenderClose | RReceiverClose => ((q, true), OutUnit)
  | RPollSend v _ =>
      if cl then (st, OutSend None (Ready (Err (Closed v))))
      else if full then (st, OutSend (Some v) Pending)
      else ((q ++ [v], cl), OutSend None (Ready (Ok tt)))
  | RPollRecv _ =>
      match q with
      | v :: q' => ((q', cl), OutRecv (Ready (Some v)))
      | [] => if cl then (st, OutRecv (Ready None)) else (st, OutRecv Pending)
      end
  end.

Lemma poll_send_spec c n q cl v w :
  rep c n q cl ->
  exists c' b p, poll_send c v w = Some (c', b, p) /\
    rep c' n (queue_op (capacity (ring c)) (q, cl) (RPollSend v w)).1.1 cl /\
    OutSend b p = (queue_op (capacity (ring c)) (q, cl) (RPollSend v w)).2 /\
    capacity (ring c') = capacity (ring c).
Proof.
  intros H. unfold poll_send. pose proof (try_push_spec c n q cl v H) as Hp. simpl.
  destruct cl.
  { rewrite Hp. do 3 eexists. split; [done|]. by split. }
  destruct (capacity (ring c) <=? Z.of_nat (length q)) eqn:E.
  - rewrite Hp. pose proof (rep_register_producer c n q false w H) as H2.
    pose proof (try_push_spec _ n q false v H2) as Hp2. cbn [ring register_producer set_producer_waker capacity] in Hp2.
    rewrite E in Hp2. rewrite Hp2. do 3 eexists. split; [done|]. by split.
  - destruct Hp as (c' & -> & Hr & Hc). do 3 eexists. split; [done|]. by split.
Qed.

Lemma poll_recv_spec c n q cl w :
  rep c n q cl ->
  exists c' n' p, poll_recv c w = Some (c', p) /\
    rep c' n' (queue_op (capacity (ring c)) (q, cl) (RPollRecv w)).1.1 cl /\
    OutRecv p = (queue_op (capacity (ring c)) (q, cl) (RPollRecv w)).2 /\
    capacity (ring c') = capacity (ring c).
Proof.
  intros H. unfold poll_recv. pose proof (try_pop_spec c n q cl H) as Hp. simpl.
  destruct q as [|v q'].
  - rewrite Hp, (rep_closed _ _ _ _ H). destruct cl.
    + rewrite Hp. do 3 eexists. split; [done|]. by split.
    + pose proof (rep_register_consumer c n [] false w H) as H2.
      rewrite (try_pop_spec _ n [] false H2), (rep_closed _ _ _ _ H2).
      do 3 eexists. split; [done|]. by split.
  - destruct Hp as (c' & -> & Hr & Hc). do 3 eexists. split; [done|]. by split.
Qed.

Lemma ring_op_spec c n q cl op :
  rep c n q cl ->
  exists c' n', ring_op c op = Some (c', (queue_op (capacity (ring c)) (q, cl) op).2) /\
    rep c' n' (queue_op (capacity (ring c)) (q, cl) op).1.1
        (queue_op (capacity (ring c)) (q, cl) op).1.2 /\
    capacity (ring c') = capacity (ring c).
Proof.
  intros H. destruct op as [v| | | |v w|w]; simpl.
  - pose proof (try_push_spec c n q cl v H) as Hp. destruct cl.
    { rewrite Hp. by exists c, n. }
    destruct (capacity (ring c) <=? Z.of_nat (length q)).
    + rewrite Hp. by exists c, n.
    + destruct Hp as (c' & -> & Hr & Hc). by exists c', n.
  - pose proof (try_pop_spec c n q cl H) as Hp. destruct q as [|v q'].
    + rewrite Hp. by exists c, n.
    + destruct Hp as (c' & -> & Hr & Hc). by exists c', (n + 1).
  - exists (Sender_close c), n. split; [done|]. split.
    + apply rep_wake_consumer. by eapply rep_close.
    + unfold Sender_close, wake_consumer. by destruct (wake _).
  - exists (Receiver_close c), n. split; [done|]. split.
    + apply rep_wake_producer. by eapply rep_close.
    + unfold Receiver_close, wake_producer. by destruct (wake _).
  - destruct (poll_send_spec c n q cl v w H) as (c' & b & p & -> & Hr & Ho & Hc). simpl in *.
    exists c', n. split; [by rewrite Ho|]. split; [|done].
    destruct cl; [done|]. by destruct (_ <=? _).
  - destruct (poll_recv_spec c n q cl w H) as (c' & n' & p & -> & Hr & Ho & Hc). simpl in *.
    exists c', n'. split; [by rewrite Ho|]. split; [|done].
    destruct q; [|done]. by destruct cl.
Qed.

Fixpoint ring_exec c (ops : list ROp) : option (Chan T * list ROut) :=
  match ops with
  | [] => Some (c, [])
  | op :: ops' =>
      match ring_op c op with
      | None => None
      | Some (c1, o) =>
          match ring_exec c1 ops' with Some (c2, os) => Some (c2, o :: os) | None => None end
      end
  end.

Fixpoint queue_exec (cap : Z) (st : list T * bool) (ops : list ROp) :
    (list T * bool) * list ROut :=
  match ops with
  | [] => (st, [])
  | op :: ops' =>
      let '(st1, o) := queue_op cap st op in
      let '(st2, os) := queue_exec cap st1 ops' in (st2, o :: os)
  end.

Lemma ring_exec_rep ops c n q cl :
  rep c n q cl ->
  exists c' n', ring_exec c ops = Some (c', (queue_exec (capacity (ring c)) (q, cl) ops).2) /\
    rep c' n' (queue_exec (capacity (ring c)) (q, cl) ops).1.1
        (queue_exec (capacity (ring c)) (q, cl) ops).1.2.
Proof.
  revert c n q cl.
  induction ops as [|op ops IH]; intros c n q cl H; cbn [ring_exec queue_exec].
  { by exists c, n. }
  destruct (ring_op_spec c n q cl op H) as (c1 & n1 & -> & Hr & Hc).
  destruct (queue_op (capacity (ring c)) (q, cl) op) as [[q1 cl1] o]. cbn [fst snd] in *.
  destruct (IH c1 n1 q1 cl1 Hr) as (c2 & n2 & He & Hr2). rewrite Hc in He, Hr2. rewrite He.
  destruct (queue_exec (capacity (ring c)) (q1, cl1) ops) as [[q2 cl2] os]. by exists c2, n2.
Qed.

Lemma drop_loop_spec q fuel (r : Ring T) n dropped :
  geometry r -> window r n (fun i => q !! Z.to_nat i) ->
  Z.of_nat (length q) <= capacity r -> (length q <= fuel)%nat ->
  exists r', drop_loop fuel r (wrap 64 (2 * n)) (wrap 64 (2 * (n + Z.of_nat (length q)))) dropped =
    Some (r', dropped ++ q).
Proof.
  revert fuel r n dropped. induction q as [|v q IH]; intros fuel r n dropped Hg Hw Hl Hf.
  - cbn [length]. rewrite Z.add_0_r.
    destruct fuel; cbn [drop_loop]; rewrite Z.eqb_refl, app_nil_r; by eexists.
  - pose proof (geometry_cap r Hg) as Hc. cbn [length] in Hf.
    destruct fuel as [|fuel]; [lia|]. cbn [drop_loop].
    rewrite (proj2 (Z.eqb_neq _ _)).
    2: { intros Heq%word_inj; simpl length in *; lia. }
    rewrite (slot_of_word r n Hg).
    pose proof (proj2 Hw 0 ltac:(lia)) as Hs. simpl in Hs. rewrite Z.add_0_r in Hs.
    rewrite Hs, next_word.
    destruct (IH fuel (set_buffer r (<[Z.to_nat (n mod capacity r) := None]> (buffer r)))
                 (n + 1) (dropped ++ [v])) as (r' & Hr').
    + exact Hg.
    + by apply (window_pop r n v q).
    + simpl length in Hl. simpl. lia.
    + lia.
    + replace (n + 1 + Z.of_nat (length q)) with (n + Z.of_nat (length (v :: q))) in Hr'
        by (simpl length; lia).
      rewrite Hr'. exists r'. by rewrite <- app_assoc.
Qed.

Lemma ring_drop_spec c n q cl :
  rep c n q cl -> exists r', ring_drop (ring c) = Some (r', q).
Proof.
  intros H. unfold ring_drop. rewrite (rep_head _ _ _ _ H), (rep_position _ _ _ _ H).
  destruct (drop_loop_spec q (Z.to_nat (capacity (ring c))) (ring c) n []) as (r' & ->).
  - apply H.
  - apply (rep_win _ _ _ _ H).
  - apply (rep_len _ _ _ _ H).
  - pose proof (rep_len _ _ _ _ H). lia.
  - by exists r'.
Qed.

(** C7. The ring refines a closable bounded FIFO queue: for every capacity
    [2^k] and every sequence of pushes, pops, closes and polls, no operation
    reads an uninitialised slot, every result (the [Full], [Closed] and
    [Pending] branches included) is the queue's, and dropping the ring then
    drops exactly the values still in it, in order. *)
Theorem ring_refines_queue (k : Z) (ops : list ROp) :
  0 <= k <= 61 ->
  exists c c' r', channel (2 ^ k) = Some c /\
    ring_exec c ops = Some (c', (queue_exec (2 ^ k) ([], false) ops).2) /\
    ring_drop (ring c') = Some (r', (queue_exec (2 ^ k) ([], false) ops).1.1).
Proof.
  intros Hk. destruct (channel_rep (T := T) k Hk) as (c & Hch & Hr & Hc).
  destruct (ring_exec_rep ops c 0 [] false Hr) as (c' & n' & He & Hr'). rewrite Hc in *.
  destruct (ring_drop_spec _ _ _ _ Hr') as (r' & Hd). by exists c, c', r'.
Qed.
End operations.
Arguments ROp : clear implicits.
Arguments ROut : clear implicits.

(** The same holds after the counters have wrapped: a capacity-2 ring two
    positions before the [usize] boundary. *)
Definition near_wrap : Chan Z :=
  {| ring := {| buffer := [None; None]; mask := 1; capacity := 2;
                head := 2 ^ 64 - 4; tail := 2 ^ 64 - 4;
                consumer_waker := WakeCell_new; producer_waker := WakeCell_new |};
     cached_tail := 2 ^ 64 - 4; cached_head := 2 ^ 64 - 4; fired := [] |}.

Example near_wrap_run :
  option_map snd (ring_exec near_wrap [RPush 1; RPush 2; RPush 3; RPop; RPush 3; RPop; RPop; RPop]) =
  Some [OutPush (Ok tt); OutPush (Ok tt); OutPush (Err (Full 3)); OutPop (Some 1); OutPush (Ok tt);
        OutPop (Some 2); OutPop (Some 3); OutPop None].
Proof. vm_compute. reflexivity. Qed.

Example ring_refines_queue_witness :
  exists c c' r', channel (2 ^ 1) = Some c /\
    ring_exec c [RPush 7; RPush 8; RPush 9; RReceiverClose; RPop] =
      Some (c', [OutPush (Ok tt); OutPush (Ok tt); OutPush (Err (Full 9)); OutUnit; OutPop (Some 7)]) /\
    ring_drop (ring c') = Some (r', [8]).
Proof. apply (ring_refines_queue 1 [RPush 7; RPush 8; RPush 9; RReceiverClose; RPop]). lia. Defined.
