(* ===== verification/RingConc.v ===== *)
(** * The ring under concurrency ([models/ring/src/lib.rs])

    One producer and one consumer run [try_push], [try_pop] and [close] one
    atomic operation or slot access at a time, in any order. [ub] records a
    read of an uninitialised slot, an access out of range or a write over a
    live value; [pushed] and [popped] are the history of published and
    returned values. The second half is the check-register-recheck handoff of
    [WakeCell], with any number of notifiers. *)
From S2P Require Import Prelude Ring.

Local Open Scope Z_scope.

Section conc.
Context {T : Type}.

Inductive Ppc :=
  | PIdle
  | POpen (v : T)          (* [is_closed] returned false *)
  | PHead (v : T) (h : Z)  (* [head] loaded *)
  | PWrote (v : T)         (* slot written, not yet published *)
  | PWake.                 (* published or closed, [wake] still to run *)

Inductive Cpc :=
  | CIdle
  | CTail                  (* [tail] loaded, ring not empty *)
  | CRead (v : T)          (* slot read, [head] not yet stored *)
  | CWake.

Record Sys := mkSys {
  chan : Chan T;
  ppc : Ppc;
  cpc : Cpc;
  pushed : list T;
  popped : list T;
  ub : bool
}.

Inductive Label := PStart (v : T) | PStep | PClose | CStart | CStep | CClose.

Definition with_ring (c : Chan T) (r : Ring T) : Chan T :=
  mkChan r (cached_tail c) (cached_head c) (fired c).

(** A plain write to a slot, and a read that takes the value out. *)
Definition slot_write (r : Ring T) (i : nat) (v : T) : Ring T * bool :=
  match buffer r !! i with
  | Some None => (set_buffer r (<[i := Some v]> (buffer r)), false)
  | _ => (r, true)
  end.
Definition slot_take (r : Ring T) (i : nat) : option (Ring T * T) :=
  match buffer r !! i with
  | Some (Some v) => Some (set_buffer r (<[i := None]> (buffer r)), v)
  | _ => None
  end.

Definition producer_step (s : Sys) : option Sys :=
  let c := chan s in
  let r := ring c in
  match ppc s with
  | PIdle => None
  | POpen v => Some (mkSys c (PHead v (head r)) (cpc s) (pushed s) (popped s) (ub s))
  | PHead v h =>
      if capacity r * STEP <=? wrapping_sub USIZE (cached_tail c) h
      then Some (mkSys c PIdle (cpc s) (pushed s) (popped s) (ub s))
      else let '(r1, bad) := slot_write r (slot_of r (cached_tail c)) v in
           Some (mkSys (with_ring c r1) (PWrote v) (cpc s) (pushed s) (popped s) (ub s || bad))
  | PWrote v =>
      if tail r =? cached_tail c then
        let t := wrapping_add USIZE (cached_tail c) STEP in
        Some (mkSys (mkChan (set_tail r t) t (cached_head c) (fired c)) PWake (cpc s)
                    (pushed s ++ [v]) (popped s) (ub s))
      else
        match slot_take r (slot_of r (cached_tail c)) with
        | Some (r1, _) =>
            Some (mkSys (with_ring c r1) PIdle (cpc s) (pushed s) (popped s) (ub s))
        | None => Some (mkSys c PIdle (cpc s) (pushed s) (popped s) true)
        end
  | PWake => Some (mkSys (wake_consumer c) PIdle (cpc s) (pushed s) (popped s) (ub s))
  end.

Definition consumer_step (s : Sys) : option Sys :=
  let c := chan s in
  let r := ring c in
  match cpc s with
  | CIdle => None
  | CTail =>
      match slot_take r (slot_of r (cached_head c)) with
      | Some (r1, v) => Some (mkSys (with_ring c r1) (ppc s) (CRead v) (pushed s) (popped s) (ub s))
      | None => Some (mkSys c (ppc s) CIdle (pushed s) (popped s) true)
      end
  | CRead v =>
      let h := wrapping_add USIZE (cached_head c) STEP in
      Some (mkSys (mkChan (set_head r h) (cached_tail c) h (fired c)) (ppc s) CWake
                  (pushed s) (popped s ++ [v]) (ub s))
  | CWake => Some (mkSys (wake_producer c) (ppc s) CIdle (pushed s) (popped s) (ub s))
  end.

Definition close_tail (c : Chan T) : Chan T :=
  with_ring c (set_tail (ring c) (Z.lor (tail (ring c)) CLOSED)).

Definition step (l : Label) (s : Sys) : option Sys :=
  match l, ppc s, cpc s with
  | PStart v, PIdle, _ =>
      if ring_closed (ring (chan s)) then Some s
      else Some (mkSys (chan s) (POpen v) (cpc s) (pushed s) (popped s) (ub s))
  | PStep, _, _ => producer_step s
  | PClose, PIdle, _ =>
      Some (mkSys (close_tail (chan s)) PWake (cpc s) (pushed s) (popped s) (ub s))
  | CStart, _, CIdle =>
      if cached_head (chan s) =? position_word (tail (ring (chan s))) then Some s
      else Some (mkSys (chan s) (ppc s) CTail (pushed s) (popped s) (ub s))
  | CStep, _, _ => consumer_step s
  | CClose, _, CIdle =>
      Some (mkSys (close_tail (chan s)) (ppc s) CWake (pushed s) (popped s) (ub s))
  | _, _, _ => None
  end.

Definition init (c : Chan T) : Sys := mkSys c PIdle CIdle [] [] false.

(** ** Invariant *)

Definition reading (pc : Cpc) : bool := match pc with CRead _ => true | _ => false end.
Definition written (pc : Ppc) : list T := match pc with PWrote v => [v] | _ => [] end.

(** What the slot of position [length popped + i] holds: the published values
    not yet popped, then the value written and not yet published; the first
    slot is empty while the consumer has read it and not stored [head]. *)
Definition content (s : Sys) (i : Z) : option T :=
  if reading (cpc s) && (i =? 0) then None
  else (drop (length (popped s)) (pushed s) ++ written (ppc s)) !! Z.to_nat i.

Record conc_inv (s : Sys) : Prop := {
  ci_geo : geometry (ring (chan s));
  ci_head : head (ring (chan s)) = wrap 64 (2 * Z.of_nat (length (popped s)));
  ci_chead : cached_head (chan s) = wrap 64 (2 * Z.of_nat (length (popped s)));
  ci_ctail : cached_tail (chan s) = wrap 64 (2 * Z.of_nat (length (pushed s)));
  ci_tail : exists cl, tail (ring (chan s)) = wrap 64 (2 * Z.of_nat (length (pushed s))) + Z.b2z cl;
  ci_le : (length (popped s) <= length (pushed s))%nat;
  ci_cap : Z.of_nat (length (pushed s)) <=
           Z.of_nat (length (popped s)) + capacity (ring (chan s));
  ci_prefix : popped s = take (length (popped s)) (pushed s);
  ci_win : window (ring (chan s)) (Z.of_nat (length (popped s))) (content s);
  ci_p : match ppc s with
         | PHead v h => exists m, h = wrap 64 (2 * m) /\ m <= Z.of_nat (length (popped s)) /\
             m <= Z.of_nat (length (pushed s)) <= m + capacity (ring (chan s))
         | PWrote v => Z.of_nat (length (pushed s)) <
             Z.of_nat (length (popped s)) + capacity (ring (chan s))
         | _ => True
         end;
  ci_c : match cpc s with
         | CTail => (length (popped s) < length (pushed s))%nat
         | CRead v => pushed s !! length (popped s) = Some v
         | _ => True
         end;
  ci_ub : ub s = false
}.

Lemma conc_init_inv k c : 0 <= k <= 61 -> channel (2 ^ k) = Some c -> conc_inv (init c).
Proof.
  intros Hk Hc. destruct (channel_rep (T := T) k Hk) as (c' & Hc' & Hr & Hcap).
  rewrite Hc in Hc'. simplify_eq. destruct Hr. simpl in *.
  split; simpl; try done; try lia. by exists false.
Qed.

Lemma conc_closed s : conc_inv s ->
  tail (ring (chan s)) =
    wrap 64 (2 * Z.of_nat (length (pushed s))) + Z.b2z (ring_closed (ring (chan s))) /\
  position_word (tail (ring (chan s))) = wrap 64 (2 * Z.of_nat (length (pushed s))).
Proof.
  intros H. destruct (ci_tail s H) as [cl Ht]. unfold ring_closed.
  rewrite Ht, even_word, close_bit, position_bit. by destruct cl.
Qed.

(** A step that moves only program counters and wakers. *)
Lemma conc_inv_pcs s c p d :
  conc_inv s -> geometry (ring c) -> buffer (ring c) = buffer (ring (chan s)) ->
  capacity (ring c) = capacity (ring (chan s)) ->
  head (ring c) = head (ring (chan s)) -> cached_head c = cached_head (chan s) ->
  cached_tail c = cached_tail (chan s) ->
  (exists cl, tail (ring c) = wrap 64 (2 * Z.of_nat (length (pushed s))) + Z.b2z cl) ->
  written p = written (ppc s) -> reading d = reading (cpc s) ->
  (match p with
   | PHead v h => exists m, h = wrap 64 (2 * m) /\ m <= Z.of_nat (length (popped s)) /\
       m <= Z.of_nat (length (pushed s)) <= m + capacity (ring (chan s))
   | PWrote v => Z.of_nat (length (pushed s)) <
       Z.of_nat (length (popped s)) + capacity (ring (chan s))
   | _ => True
   end) ->
  (match d with
   | CTail => (length (popped s) < length (pushed s))%nat
   | CRead v => pushed s !! length (popped s) = Some v
   | _ => True
   end) ->
  conc_inv (mkSys c p d (pushed s) (popped s) (ub s)).
Proof.
  intros [] Hg Hb Hcap Hh Hch Hct Ht Hw Hr Hp Hc.
  split; simpl; rewrite ?Hh, ?Hch, ?Hct, ?Hcap; try done.
  unfold window, content. simpl. rewrite Hb, Hcap, Hw, Hr. exact ci_win0.
Qed.

Lemma window_lt s : conc_inv s -> 0 < capacity (ring (chan s)) <= 2 ^ 61.
Proof. intros H. apply geometry_cap, H. Qed.

Lemma in_ring_length s : conc_inv s ->
  Z.of_nat (length (drop (length (popped s)) (pushed s))) =
  Z.of_nat (length (pushed s)) - Z.of_nat (length (popped s)).
Proof. intros H. pose proof (ci_le s H). rewrite length_drop. lia. Qed.

(** Writing the slot past the end of the window's contents. *)
Lemma content_write s v x i :
  conc_inv s -> written (ppc s) = [] ->
  (if i =? Z.of_nat (length (pushed s)) - Z.of_nat (length (popped s)) then Some x else content s i) =
  content (mkSys v (PWrote x) (cpc s) (pushed s) (popped s) (ub s)) i \/ i < 0 \/
  (reading (cpc s) = true /\ length (popped s) = length (pushed s)).
Proof.
  intros H Hw. pose proof (in_ring_length s H) as Hl. unfold content. simpl. rewrite Hw, app_nil_r.
  destruct (decide (i < 0)); [by right; left|].
  destruct (i =? _) eqn:E; zify_bool.
  - destruct (reading (cpc s) && (i =? 0)) eqn:E2.
    + apply andb_true_iff in E2 as [? ?]. zify_bool. right; right. split; [done|].
      pose proof (ci_le s H). lia.
    + left. rewrite lookup_app_r by lia. by replace (_ - _)%nat with 0%nat by lia.
  - left. destruct (reading (cpc s) && (i =? 0)); [done|].
    destruct (decide (Z.to_nat i < length (drop (length (popped s)) (pushed s)))%nat).
    + by rewrite lookup_app_l by lia.
    + rewrite lookup_app_r by lia. rewrite lookup_ge_None_2 by lia.
      destruct (Z.to_nat i - _)%nat eqn:E3; [lia|done].
Qed.

Lemma reading_nonempty s : conc_inv s -> reading (cpc s) = true ->
  (length (popped s) < length (pushed s))%nat.
Proof.
  intros H Hr. pose proof (ci_c s H) as Hc. destruct (cpc s); try done.
  by apply lookup_lt_Some in Hc.
Qed.

Lemma producer_slot s : conc_inv s ->
  slot_of (ring (chan s)) (cached_tail (chan s)) =
  Z.to_nat ((Z.of_nat (length (popped s)) +
             (Z.of_nat (length (pushed s)) - Z.of_nat (length (popped s)))) mod
            capacity (ring (chan s))).
Proof.
  intros H. rewrite (ci_ctail s H), slot_of_word by apply H. do 2 f_equal. lia.
Qed.

Lemma step_head_write s v h r1 bad :
  conc_inv s -> ppc s = PHead v h ->
  (capacity (ring (chan s)) * STEP <=? wrapping_sub USIZE (cached_tail (chan s)) h) = false ->
  slot_write (ring (chan s)) (slot_of (ring (chan s)) (cached_tail (chan s))) v = (r1, bad) ->
  conc_inv (mkSys (with_ring (chan s) r1) (PWrote v) (cpc s) (pushed s) (popped s) (ub s || bad)).
Proof.
  intros H Hp Hfull Hw. pose proof (ci_p s H) as Hm. rewrite Hp in Hm.
  destruct Hm as (m & -> & Hm1 & Hm2). pose proof (window_lt s H) as Hcap.
  pose proof (ci_le s H) as Hle.
  rewrite (ci_ctail s H), sub_word in Hfull by lia. unfold STEP in Hfull. zify_bool.
  pose proof (producer_slot s H) as Hslot. rewrite Hslot in Hw.
  assert (written (ppc s) = []) as Hwr by (by rewrite Hp).
  assert (content s (Z.of_nat (length (pushed s)) - Z.of_nat (length (popped s))) = None) as Hnone.
  { unfold content. rewrite Hwr, app_nil_r. case_match; [done|].
    apply lookup_ge_None_2. pose proof (in_ring_length s H). lia. }
  unfold slot_write in Hw.
  rewrite (proj2 (ci_win s H) (Z.of_nat (length (pushed s)) - Z.of_nat (length (popped s)))
             ltac:(lia)), Hnone in Hw. simplify_eq.
  pose proof H as []. split; simpl; try done; [|lia|by rewrite ci_ub0].
  pose proof (window_write _ _ _ (Z.of_nat (length (pushed s)) - Z.of_nat (length (popped s)))
                (Some v) ci_geo0 ltac:(lia) ci_win0) as Hw.
  eapply window_ext; [|exact Hw]. intros i Hi. simpl.
  destruct (content_write s (chan s) v i H Hwr) as [->|[?|[Hr Heq]]];
    [by unfold content|simpl in Hi; lia|].
  apply reading_nonempty in Hr; [lia|done].
Qed.

Lemma step_publish s v :
  conc_inv s -> ppc s = PWrote v -> tail (ring (chan s)) = cached_tail (chan s) ->
  let t := wrapping_add USIZE (cached_tail (chan s)) STEP in
  conc_inv (mkSys (mkChan (set_tail (ring (chan s)) t) t (cached_head (chan s)) (fired (chan s)))
                  PWake (cpc s) (pushed s ++ [v]) (popped s) (ub s)).
Proof.
  intros H Hp Ht t. pose proof (ci_p s H) as Hlt. rewrite Hp in Hlt.
  pose proof (ci_le s H) as Hle.
  assert (t = wrap 64 (2 * Z.of_nat (length (pushed s ++ [v])))) as Htw.
  { unfold t. rewrite (ci_ctail s H), next_word, length_app. do 2 f_equal. simpl. lia. }
  pose proof H as [].
  split; simpl; rewrite <- ?Htw; try done.
  - exists false. by rewrite Z.add_0_r.
  - rewrite length_app. simpl. lia.
  - rewrite length_app. simpl. lia.
  - rewrite take_app_le by done. done.
  - eapply window_ext; [|exact ci_win0]. intros i Hi. unfold content. simpl.
    rewrite Hp, drop_app_le, app_nil_r by done. done.
  - destruct (cpc s); [done| |by rewrite lookup_app_l by (by apply lookup_lt_Some in ci_c0)|done].
    rewrite length_app. simpl. lia.
Qed.

Lemma step_readback s v r1 o :
  conc_inv s -> ppc s = PWrote v ->
  slot_take (ring (chan s)) (slot_of (ring (chan s)) (cached_tail (chan s))) = Some (r1, o) ->
  conc_inv (mkSys (with_ring (chan s) r1) PIdle (cpc s) (pushed s) (popped s) (ub s)).
Proof.
  intros H Hp Ht. pose proof (ci_p s H) as Hlt. rewrite Hp in Hlt. pose proof (ci_le s H) as Hle.
  rewrite (producer_slot s H) in Ht. unfold slot_take in Ht. branch.
  pose proof H as []. split; simpl; try done.
  pose proof (window_write _ _ _ (Z.of_nat (length (pushed s)) - Z.of_nat (length (popped s)))
                None ci_geo0 ltac:(lia) ci_win0) as Hw.
  eapply window_ext; [|exact Hw]. intros i Hi. simpl in *. unfold content. simpl.
  rewrite Hp, app_nil_r. pose proof (in_ring_length s H) as Hl. simpl.
  destruct (i =? _) eqn:E; zify_bool.
  - destruct (reading (cpc s) && (i =? 0)); [done|]. rewrite lookup_ge_None_2 by lia. done.
  - destruct (reading (cpc s) && (i =? 0)); [done|].
    destruct (decide (Z.to_nat i < length (drop (length (popped s)) (pushed s)))%nat).
    + by rewrite lookup_app_l.
    + rewrite lookup_app_r by lia. rewrite (lookup_ge_None_2 (drop _ _)) by lia.
      destruct (Z.to_nat i - _)%nat eqn:E3; [lia|done].
Qed.

Lemma readback_defined s v :
  conc_inv s -> ppc s = PWrote v ->
  slot_take (ring (chan s)) (slot_of (ring (chan s)) (cached_tail (chan s))) <> None.
Proof.
  intros H Hp. pose proof (ci_p s H) as Hlt. rewrite Hp in Hlt. pose proof (ci_le s H) as Hle.
  rewrite (producer_slot s H). unfold slot_take.
  rewrite (proj2 (ci_win s H) (Z.of_nat (length (pushed s)) - Z.of_nat (length (popped s))) ltac:(lia)).
  unfold content. pose proof (in_ring_length s H) as Hl.
  destruct (reading (cpc s) && _) eqn:E.
  - apply andb_true_iff in E as [Hr E]. zify_bool. apply reading_nonempty in Hr; [lia|done].
  - rewrite lookup_app_r by lia. rewrite Hp. simpl. by replace (_ - _)%nat with 0%nat by lia.
Qed.

Lemma consumer_slot s : conc_inv s ->
  slot_of (ring (chan s)) (cached_head (chan s)) =
  Z.to_nat ((Z.of_nat (length (popped s)) + 0) mod capacity (ring (chan s))).
Proof. intros H. rewrite (ci_chead s H), slot_of_word by apply H. by rewrite Z.add_0_r. Qed.

Lemma consumer_take s : conc_inv s -> cpc s = CTail ->
  exists v, pushed s !! length (popped s) = Some v /\
    slot_take (ring (chan s)) (slot_of (ring (chan s)) (cached_head (chan s))) =
    Some (set_buffer (ring (chan s))
            (<[Z.to_nat ((Z.of_nat (length (popped s)) + 0) mod capacity (ring (chan s))) := None]>
               (buffer (ring (chan s)))), v).
Proof.
  intros H Hc. pose proof (ci_c s H) as Hlt. rewrite Hc in Hlt.
  destruct (lookup_lt_is_Some_2 (pushed s) (length (popped s)) Hlt) as [v Hv]. exists v.
  split; [done|]. rewrite (consumer_slot s H). unfold slot_take.
  pose proof (window_lt s H). rewrite (proj2 (ci_win s H) 0 ltac:(lia)).
  unfold content. rewrite Hc. simpl. rewrite lookup_app_l by (rewrite length_drop; lia).
  by rewrite lookup_drop, Nat.add_0_r, Hv.
Qed.

Lemma step_read s v :
  conc_inv s -> cpc s = CTail -> pushed s !! length (popped s) = Some v ->
  conc_inv (mkSys (with_ring (chan s) (set_buffer (ring (chan s))
     (<[Z.to_nat ((Z.of_nat (length (popped s)) + 0) mod capacity (ring (chan s))) := None]>
        (buffer (ring (chan s)))))) (ppc s) (CRead v) (pushed s) (popped s) (ub s)).
Proof.
  intros H Hc Hv. pose proof (window_lt s H) as Hcap. pose proof H as [].
  split; simpl; try done.
  pose proof (window_write _ _ _ 0 None ci_geo0 ltac:(lia) ci_win0) as Hw.
  eapply window_ext; [|exact Hw]. intros i Hi. unfold content. simpl. rewrite Hc. simpl.
  by destruct (i =? 0).
Qed.

Lemma step_store_head s v :
  conc_inv s -> cpc s = CRead v ->
  let h := wrapping_add USIZE (cached_head (chan s)) STEP in
  conc_inv (mkSys (mkChan (set_head (ring (chan s)) h) (cached_tail (chan s)) h (fired (chan s)))
                  (ppc s) CWake (pushed s) (popped s ++ [v]) (ub s)).
Proof.
  intros H Hc h. pose proof (ci_c s H) as Hv. rewrite Hc in Hv.
  pose proof (lookup_lt_Some _ _ _ Hv) as Hlt. pose proof (window_lt s H) as Hcap.
  assert (length (popped s ++ [v]) = S (length (popped s))) as Hlen by (rewrite length_app; simpl; lia).
  assert (Z.of_nat (S (length (popped s))) = Z.of_nat (length (popped s)) + 1) as HS by lia.
  assert (h = wrap 64 (2 * Z.of_nat (length (popped s ++ [v])))) as Hh.
  { unfold h. rewrite (ci_chead s H), next_word, Hlen, HS. done. }
  pose proof H as []. split; simpl; rewrite <- ?Hh; try done; rewrite ?Hlen; try lia.
  - rewrite (take_S_r _ _ _ Hv). by rewrite <- ci_prefix0.
  - rewrite HS. pose proof (window_shift _ _ _ ci_geo0 ci_win0) as Hw.
    assert (content s 0 = None) as H0 by (unfold content; by rewrite Hc).
    eapply window_ext; [|exact (Hw H0)]. intros i Hi. simpl in *. unfold content. simpl. rewrite Hlen, Hc.
    simpl. pose proof (in_ring_length s H) as Hl.
    assert (drop (length (popped s)) (pushed s) = v :: drop (S (length (popped s))) (pushed s)) as Hdr
      by (by apply drop_S).
    rewrite Hdr in *. simpl length in Hl.
    destruct (i =? _) eqn:E; zify_bool.
    + symmetry. apply lookup_ge_None_2. rewrite length_app.
      assert (length (written (ppc s)) <= 1)%nat by (destruct (ppc s); simpl; lia).
      destruct (ppc s); simpl in *; lia.
    + destruct (i + 1 =? 0) eqn:E2; zify_bool; [lia|].
      by replace (Z.to_nat (i + 1)) with (S (Z.to_nat i)) by lia.
  - destruct (ppc s); try done; [|lia].
    destruct ci_p0 as (m & -> & Hm). exists m. split; [done|]. lia.
Qed.

Lemma close_tail_inv s c p d :
  conc_inv s -> c = close_tail (chan s) ->
  written p = written (ppc s) -> reading d = reading (cpc s) ->
  (match p with PHead _ _ | PWrote _ => p = ppc s | _ => True end) ->
  (match d with CTail | CRead _ => d = cpc s | _ => True end) ->
  conc_inv (mkSys c p d (pushed s) (popped s) (ub s)).
Proof.
  intros H -> Hw Hr Hp Hd. apply conc_inv_pcs; try done.
  - apply H.
  - simpl. destruct (ci_tail s H) as [cl Ht]. exists true. rewrite Ht, even_word.
    apply set_close_bit.
  - pose proof (ci_p s H). destruct p; try done; by rewrite <- Hp in *.
  - pose proof (ci_c s H). destruct d; try done; by rewrite <- Hd in *.
Qed.

Lemma wake_consumer_inv s p :
  conc_inv s -> ppc s = PWake -> p = PIdle ->
  conc_inv (mkSys (wake_consumer (chan s)) p (cpc s) (pushed s) (popped s) (ub s)).
Proof.
  intros H Hp ->. unfold wake_consumer. destruct (wake _).
  apply conc_inv_pcs; simpl; try done; try apply H. by rewrite Hp.
Qed.

Lemma wake_producer_inv s d :
  conc_inv s -> cpc s = CWake -> d = CIdle ->
  conc_inv (mkSys (wake_producer (chan s)) (ppc s) d (pushed s) (popped s) (ub s)).
Proof.
  intros H Hp ->. unfold wake_producer. destruct (wake _).
  apply conc_inv_pcs; simpl; try done; try apply H. by rewrite Hp.
Qed.

Lemma producer_step_inv s s' : conc_inv s -> producer_step s = Some s' -> conc_inv s'.
Proof.
  intros H Hs. unfold producer_step in Hs. destruct (ppc s) as [|v|v h|v|] eqn:Hp; [done| | | |].
  - simplify_eq. apply conc_inv_pcs; simpl; try done; try apply H; [by rewrite Hp|].
    exists (Z.of_nat (length (popped s))). split; [apply H|].
    pose proof (ci_cap s H). pose proof (ci_le s H). lia.
  - destruct (_ <=? _) eqn:E.
    + simplify_eq. apply conc_inv_pcs; simpl; try done; try apply H. by rewrite Hp.
    + destruct (slot_write _ _ _) as [r1 bad] eqn:Ew. simplify_eq. by eapply step_head_write.
  - destruct (_ =? _) eqn:E; zify_bool.
    + simplify_eq. by apply step_publish.
    + destruct (slot_take _ _) as [[r1 o]|] eqn:Et.
      * simplify_eq. by eapply step_readback.
      * by apply (readback_defined s v H Hp) in Et.
  - simplify_eq. by apply wake_consumer_inv.
Qed.

Lemma consumer_step_inv s s' : conc_inv s -> consumer_step s = Some s' -> conc_inv s'.
Proof.
  intros H Hs. unfold consumer_step in Hs. destruct (cpc s) as [| |v|] eqn:Hc; [done| | |].
  - destruct (consumer_take s H Hc) as (v & Hv & Ht). rewrite Ht in Hs. simplify_eq.
    by apply step_read.
  - simplify_eq. by apply step_store_head.
  - simplify_eq. by apply wake_producer_inv.
Qed.

Lemma conc_step_inv l s s' : conc_inv s -> step l s = Some s' -> conc_inv s'.
Proof.
  intros H Hs. unfold step in Hs. destruct l as [v| | | | |].
  - destruct (ppc s) eqn:Hp; try done. destruct (ring_closed _); simplify_eq; [done|].
    apply conc_inv_pcs; simpl; try done; try apply H. by rewrite Hp.
  - by apply producer_step_inv in Hs.
  - destruct (ppc s) eqn:Hp; try done. simplify_eq.
    apply close_tail_inv; try done; [by rewrite Hp|by destruct (cpc s)].
  - assert ((if cached_head (chan s) =? position_word (tail (ring (chan s))) then Some s
             else Some (mkSys (chan s) (ppc s) CTail (pushed s) (popped s) (ub s))) = Some s' /\
            cpc s = CIdle) as [Hs' Hc] by (destruct (ppc s), (cpc s); done).
    clear Hs. destruct (_ =? _) eqn:E; simplify_eq; [done|]. zify_bool.
    apply conc_inv_pcs; simpl; try done; try apply H; [by rewrite Hc|].
    rewrite (proj2 (conc_closed s H)), (ci_chead s H) in E. pose proof (ci_le s H).
    destruct (decide (length (popped s) = length (pushed s))); [congruence|lia].
  - by apply consumer_step_inv in Hs; destruct (ppc s).
  - assert (s' = mkSys (close_tail (chan s)) (ppc s) CWake (pushed s) (popped s) (ub s) /\
            cpc s = CIdle) as [-> Hc] by (destruct (ppc s), (cpc s); naive_solver).
    apply close_tail_inv; try done; [by rewrite Hc|by destruct (ppc s)].
Qed.

Lemma conc_reach_inv k c s :
  0 <= k <= 61 -> channel (2 ^ k) = Some c -> reach step (init c) s -> conc_inv s.
Proof.
  intros Hk Hc. apply (reach_invariant step conc_inv); [by eapply conc_init_inv|].
  intros; by eapply conc_step_inv.
Qed.

(** Once closed, always closed, and nothing more is published. *)
Lemma closed_step l s s' :
  conc_inv s -> ring_closed (ring (chan s)) = true -> step l s = Some s' ->
  ring_closed (ring (chan s')) = true /\ pushed s' = pushed s.
Proof.
  intros H Hcl Hs.
  assert (forall c : Chan T, tail (ring c) = tail (ring (chan s)) -> ring_closed (ring c) = true) as Heq.
  { intros c Hc. unfold ring_closed in *. by rewrite Hc. }
  assert (ring_closed (ring (close_tail (chan s))) = true) as Hct.
  { unfold ring_closed. simpl. destruct (ci_tail s H) as [cl ->].
    rewrite even_word, set_close_bit. by rewrite (close_bit _ true). }
  destruct (conc_closed s H) as [Ht _]. rewrite Hcl in Ht. simpl in Ht.
  unfold step, producer_step, consumer_step, slot_write, slot_take, wake_consumer, wake_producer,
    with_ring in Hs.
  destruct l, (ppc s) eqn:Hp, (cpc s) eqn:Hc; try done; branch; try done;
    try (split; [by apply Heq|done]); try (by split).
  all: zify_bool; rewrite (ci_ctail s H) in *; lia.
Qed.

Lemma closed_reach s s' :
  conc_inv s -> ring_closed (ring (chan s)) = true -> reach step s s' ->
  conc_inv s' /\ ring_closed (ring (chan s')) = true /\ pushed s' = pushed s.
Proof.
  intros H Hcl. induction 1 as [|l s1 s2 _ (IH1 & IH2 & IH3) Hs]; [done|].
  destruct (closed_step l s1 s2 IH1 IH2 Hs) as [? ?].
  split; [by eapply conc_step_inv|]. split; congruence.
Qed.
End conc.
Arguments Sys : clear implicits.
Arguments Ppc : clear implicits.
Arguments Cpc : clear implicits.
Arguments Label : clear implicits.

(** ** Properties *)
Section conc_properties.
Context {T : Type}.

(** C8. The ring is safe under every interleaving of one producer and one
    consumer, for every capacity [2^k] and any number of counter
    wrap-arounds: no slot is read uninitialised, read out of range or
    overwritten while live; the values returned by [try_pop] are exactly a
    prefix of the values accepted by [try_push], in order; and at most
    [capacity] accepted values are outstanding. *)
Theorem ring_interleaving_safe (k : Z) (c : Chan T) (s : Sys T) :
  0 <= k <= 61 -> channel (2 ^ k) = Some c -> reach step (init c) s ->
  ub s = false /\ popped s `prefix_of` pushed s /\
  Z.of_nat (length (pushed s)) - Z.of_nat (length (popped s)) <= capacity (ring (chan s)).
Proof.
  intros Hk Hc Hr. pose proof (conc_reach_inv k c s Hk Hc Hr) as H.
  pose proof (ci_cap s H). split; [apply H|]. split; [|lia]. rewrite (ci_prefix s H). apply prefix_take.
Qed.

(** No accepted value is stranded by a close: if the ring is closed and
    the consumer later finds it empty, then every value ever accepted has
    been returned, and no push is ever accepted again, even one that had
    written its slot before the close. *)
Theorem closed_and_empty_is_drained (k : Z) (c : Chan T) (s s' s'' : Sys T) :
  0 <= k <= 61 -> channel (2 ^ k) = Some c -> reach step (init c) s ->
  ring_closed (ring (chan s)) = true -> reach step s s' ->
  cached_head (chan s') = position_word (tail (ring (chan s'))) ->
  reach step s' s'' ->
  popped s' = pushed s' /\ pushed s'' = pushed s'.
Proof.
  intros Hk Hc Hr Hcl Hr' Hempty Hr''.
  pose proof (conc_reach_inv k c s Hk Hc Hr) as H.
  destruct (closed_reach s s' H Hcl Hr') as (H' & Hcl' & _).
  destruct (closed_reach s' s'' H' Hcl' Hr'') as (_ & _ & Heq). split; [|done].
  rewrite (proj2 (conc_closed s' H')), (ci_chead s' H') in Hempty.
  pose proof (ci_le s' H'). pose proof (ci_cap s' H'). pose proof (window_lt s' H').
  apply word_inj in Hempty; [|lia].
  rewrite (ci_prefix s' H'). apply take_ge. lia.
Qed.

(** The interleaved steps are [try_push]: run without interruption from a
    free slot they end in the same ring. *)
Lemma try_push_steps (c c' : Chan T) d r v ps qs :
  try_push c v = Some (c', r) ->
  buffer (ring c) !! slot_of (ring c) (cached_tail c) = Some None ->
  exists n s', run step (PStart v :: replicate n PStep) (mkSys c PIdle d ps qs false) = Some s' /\
    chan s' = c' /\ ppc s' = PIdle /\ ub s' = false /\
    pushed s' = (if is_ok r then ps ++ [v] else ps).
Proof.
  intros Hp Eb. unfold try_push in Hp.
  destruct (ring_closed (ring c)) eqn:Ecl.
  { simplify_eq. exists 0%nat. simpl. rewrite Ecl. by eexists. }
  destruct (_ <=? _) eqn:Ef.
  { simplify_eq. exists 2%nat. simpl. rewrite Ecl. simpl. unfold producer_step. simpl. rewrite Ef.
    by eexists. }
  rewrite Eb in Hp. change (tail (set_buffer _ _)) with (tail (ring c)) in Hp.
  destruct (_ =? _) eqn:Et.
  - simplify_eq. exists 4%nat. simpl. rewrite Ecl. simpl. unfold producer_step. simpl. rewrite Ef.
    unfold slot_write. rewrite Eb. simpl. rewrite Et. simpl. by eexists.
  - exists 3%nat. simpl. rewrite Ecl. simpl. unfold producer_step. simpl. rewrite Ef.
    unfold slot_write. rewrite Eb. simpl. rewrite Et. unfold slot_take. simpl.
    change (slot_of (set_buffer _ _) _) with (slot_of (ring c) (cached_tail c)).
    simpl in Hp. destruct (<[_ := _]> (buffer (ring c)) !! _) as [[o|]|] eqn:E2; try done.
    simplify_eq. eexists. split; [done|]. by split.
Qed.
End conc_properties.

(** The capacity-2 ring of the runs below. *)
Definition ring2 : Chan Z :=
  {| ring := {| buffer := [None; None]; mask := 1; capacity := 2; head := 0; tail := 0;
                consumer_waker := WakeCell_new; producer_waker := WakeCell_new |};
     cached_tail := 0; cached_head := 0; fired := [] |}.

(** One value through the ring, then a second push overtaken by the
    consumer's close between its slot write and its publication. *)
Definition overtaken : list (Label Z) :=
  [PStart 7; PStep; PStep; PStep; CStart; PStep; PStart 8; PStep; CStep; PStep; CStep; CStep;
   CClose; CStep; PStep].

Definition overtaken_end : Sys Z :=
  {| chan := {| ring := {| buffer := [None; None]; mask := 1; capacity := 2; head := 2; tail := 3;
                           consumer_waker := WakeCell_new; producer_waker := WakeCell_new |};
                cached_tail := 2; cached_head := 2; fired := [] |};
     ppc := PIdle; cpc := CIdle; pushed := [7]; popped := [7]; ub := false |}.

Lemma overtaken_run : run step overtaken (init ring2) = Some overtaken_end.
Proof. vm_compute. reflexivity. Qed.

Lemma ring_interleaving_safe_witness :
  popped overtaken_end `prefix_of` pushed overtaken_end.
Proof.
  refine (proj1 (proj2 (ring_interleaving_safe 1 ring2 overtaken_end _ eq_refl _))); [lia|].
  exact (run_reach step overtaken _ _ overtaken_run).
Defined.

Lemma closed_and_empty_is_drained_witness : popped overtaken_end = pushed overtaken_end.
Proof.
  refine (proj1 (closed_and_empty_is_drained 1 ring2 overtaken_end overtaken_end overtaken_end
                   _ eq_refl _ eq_refl reach_refl eq_refl reach_refl)); [lia|].
  exact (run_reach step overtaken _ _ overtaken_run).
Defined.

(** ** The waker handoff

    The waiter of [poll_recv] and [poll_send] checks its condition, registers,
    re-checks and parks; any number of threads make the condition true and
    call [WakeCell::wake]. [items] is what the waiter waits for, [token] the
    executor's record that the parked task was woken. *)
Module Handoff.

Inductive Wpc :=
  | WCheck     (* first check *)
  | WLock      (* about to write [slot] under the lock *)
  | WFlag      (* slot written, about to store [has_waker] *)
  | WRecheck   (* registered *)
  | WParked
  | WDone.     (* condition observed *)

Inductive Npc :=
  | NIdle
  | NLoad      (* in [wake], about to load [has_waker] *)
  | NLock      (* loaded [true], about to lock *)
  | NTake      (* holds the lock, flag cleared, about to take the slot *)
  | NFire.     (* about to call [Waker::wake] *)

Record Cell := mkCell {
  flag : bool;
  parked : bool;        (* [slot] is [Some] *)
  locked : bool;
  token : bool;
  items : Z;
  waiter : Wpc;
  notifiers : list Npc
}.

Inductive HLabel := HWait | HPublish (i : nat) | HWake (i : nat) | HStep (i : nat).

Definition set_notifier (c : Cell) (i : nat) (p : Npc) : Cell :=
  mkCell (flag c) (parked c) (locked c) (token c) (items c) (waiter c) (<[i := p]> (notifiers c)).
Definition set_waiter (c : Cell) (p : Wpc) : Cell :=
  mkCell (flag c) (parked c) (locked c) (token c) (items c) p (notifiers c).

Definition waiter_step (c : Cell) : option Cell :=
  match waiter c with
  | WCheck => Some (set_waiter c (if 0 <? items c then WDone else WLock))
  | WLock =>
      if locked c then None
      else Some (mkCell (flag c) true (locked c) (token c) (items c) WFlag (notifiers c))
  | WFlag => Some (mkCell true (parked c) (locked c) (token c) (items c) WRecheck (notifiers c))
  | WRecheck => Some (set_waiter c (if 0 <? items c then WDone else WParked))
  | WParked =>
      if token c
      then Some (mkCell (flag c) (parked c) (locked c) false (items c) WCheck (notifiers c))
      else None
  | WDone =>
      Some (mkCell (flag c) (parked c) (locked c) (token c) (items c - 1) WCheck (notifiers c))
  end.

Definition notifier_step (i : nat) (p : Npc) (c : Cell) : option Cell :=
  match p with
  | NIdle => None
  | NLoad => Some (set_notifier c i (if flag c then NLock else NIdle))
  | NLock =>
      if locked c then None
      else Some (mkCell false (parked c) true (token c) (items c) (waiter c)
                        (<[i := NTake]> (notifiers c)))
  | NTake =>
      Some (mkCell (flag c) false false (token c) (items c) (waiter c)
                   (<[i := if parked c then NFire else NIdle]> (notifiers c)))
  | NFire =>
      Some (mkCell (flag c) (parked c) (locked c) true (items c) (waiter c)
                   (<[i := NIdle]> (notifiers c)))
  end.

Definition hstep (l : HLabel) (c : Cell) : option Cell :=
  match l with
  | HWait => waiter_step c
  | HPublish i =>
      match notifiers c !! i with
      | Some NIdle => Some (mkCell (flag c) (parked c) (locked c) (token c) (items c + 1) (waiter c)
                                   (<[i := NLoad]> (notifiers c)))
      | _ => None
      end
  | HWake i =>
      match notifiers c !! i with
      | Some NIdle => Some (set_notifier c i NLoad)
      | _ => None
      end
  | HStep i =>
      match notifiers c !! i with
      | Some p => notifier_step i p c
      | None => None
      end
  end.

Definition hinit (n : nat) : Cell := mkCell false false false false 0 WCheck (replicate n NIdle).

Definition is_load (p : Npc) : bool := match p with NLoad => true | _ => false end.
Definition is_lock (p : Npc) : bool := match p with NLock => true | _ => false end.
Definition is_take (p : Npc) : bool := match p with NTake => true | _ => false end.
Definition is_fire (p : Npc) : bool := match p with NFire => true | _ => false end.
Definition n_of (p : Npc -> bool) (c : Cell) : Z := count p (notifiers c).

(** A registration is never dropped: it is armed, or in the hands of a
    notifier that will fire it, or already fired. *)
Definition registered (c : Cell) : Prop :=
  token c = true \/ 0 < n_of is_fire c \/
  (parked c = true /\ (flag c = true \/ 0 < n_of is_take c)).

Record hinv (c : Cell) : Prop := {
  h_lock : n_of is_take c = if locked c then 1 else 0;
  h_items : 0 <= items c /\ (waiter c = WDone -> 0 < items c);
  h_slot : waiter c = WFlag -> token c = true \/ 0 < n_of is_fire c \/ parked c = true;
  h_reg : waiter c = WRecheck \/ waiter c = WParked -> registered c;
  h_wake : waiter c = WParked -> 0 < items c ->
    token c = true \/ 0 < n_of is_load c + n_of is_lock c + n_of is_fire c \/
    (parked c = true /\ 0 < n_of is_take c)
}.

Lemma hinit_inv n : hinv (hinit n).
Proof. split; unfold n_of; simpl; try (by intros []); try done. by apply count_replicate. Qed.

Lemma n_nonneg p c : 0 <= n_of p c.
Proof. apply count_nonneg. Qed.

Ltac counts c :=
  pose proof (n_nonneg is_load c); pose proof (n_nonneg is_lock c);
  pose proof (n_nonneg is_take c); pose proof (n_nonneg is_fire c).

Lemma waiter_step_inv c c' : hinv c -> waiter_step c = Some c' -> hinv c'.
Proof.
  intros [Hl Hi Hs Hr Hw] Hstep. unfold waiter_step, set_waiter in Hstep. counts c.
  destruct (waiter c) eqn:Ew; branch; zify_bool; split; unfold registered, n_of in *; simpl in *;
    naive_solver lia.
Qed.

(** A notifier's move from [p] to [q], on the four counts. *)
Lemma n_move (P : Npc -> bool) c i p q :
  notifiers c !! i = Some p ->
  count P (<[i := q]> (notifiers c)) = n_of P c - (if P p then 1 else 0) + (if P q then 1 else 0).
Proof. apply count_insert. Qed.

Lemma n_own (P : Npc -> bool) c i p :
  notifiers c !! i = Some p -> (if P p then 1 else 0) <= n_of P c.
Proof. apply count_own. Qed.

Lemma notifier_step_inv i p c c' :
  hinv c -> notifiers c !! i = Some p -> notifier_step i p c = Some c' -> hinv c'.
Proof.
  intros [Hl Hi Hs Hr Hw] Hp Hstep. unfold notifier_step, set_notifier in Hstep. counts c.
  pose proof (n_own is_load c i p Hp). pose proof (n_own is_lock c i p Hp).
  pose proof (n_own is_take c i p Hp).
  destruct p, (flag c) eqn:Ef, (locked c) eqn:El, (parked c) eqn:Epk, (token c) eqn:Et; simplify_eq/=;
    split; unfold registered, n_of in *; simpl in *; rewrite ?(n_move _ c i _ _ Hp); unfold n_of; simpl;
    rewrite ?Ef, ?El, ?Epk, ?Et in *; intuition (try congruence; try lia);
    first [right; left; lia | right; right; split; [done|lia]].
Qed.

Lemma hstep_inv l c c' : hinv c -> hstep l c = Some c' -> hinv c'.
Proof.
  intros H Hstep. destruct l as [|i|i|i]; simpl in Hstep; [by eapply waiter_step_inv|..];
    destruct (notifiers c !! i) as [p|] eqn:Hp; try done; [| |by eapply notifier_step_inv];
    destruct p; try done; simplify_eq; destruct H as [Hl Hi Hs Hr Hw]; counts c;
    split; unfold registered, n_of in *; simpl in *; rewrite ?(n_move _ c i _ _ Hp); unfold n_of; simpl;
    naive_solver lia.
Qed.

(** C10. No wakeup is lost: in every interleaving of the waiter with any
    number of notifiers, if the waiter is parked while the condition holds,
    then either it has been woken or some notifier is still inside [wake];
    once every notifier has returned, the waiter has been woken. *)
Theorem no_lost_wakeup (n : nat) (c : Cell) :
  reach hstep (hinit n) c -> waiter c = WParked -> 0 < items c ->
  (forall i p, notifiers c !! i = Some p -> p = NIdle) -> token c = true.
Proof.
  intros Hr Hp Hi Hidle.
  assert (hinv c) as H.
  { apply (reach_invariant hstep hinv (hinit n) c (hinit_inv n)); [|done].
    intros l x y. apply hstep_inv. }
  assert (forall P, P NIdle = false -> n_of P c = 0) as H0.
  { intros P HP. apply count_none. intros i p Hl. by rewrite (Hidle i p Hl). }
  destruct (h_wake c H Hp Hi) as [?|[?|[_ ?]]]; [done|..];
    rewrite ?(H0 is_load), ?(H0 is_lock), ?(H0 is_fire), ?(H0 is_take) in * by done; lia.
Qed.

(** The waiter registers, a publication lands after the re-check. *)
Definition late_publish : list HLabel :=
  [HWait; HWait; HWait; HWait; HPublish 0; HStep 0; HStep 0; HStep 0; HStep 0].

Lemma no_lost_wakeup_witness :
  exists c, run hstep late_publish (hinit 1) = Some c /\ token c = true.
Proof.
  eexists. split; [vm_compute; reflexivity|].
  apply (no_lost_wakeup 1).
  - apply (run_reach hstep late_publish). reflexivity.
  - reflexivity.
  - reflexivity.
  - intros [|i] p Hp; [injection Hp as <-; reflexivity|discriminate Hp].
Defined.
End Handoff.
