(* ===== verification/Wake.v ===== *)
(** * The two-flag wakeup protocol ([models/wake/src/lib.rs])

    [publish], [take_pending] and [park_if_idle] are translated whole over the
    two flags and a doorbell with counting-semaphore semantics. [wstep] then
    interleaves any number of producers (enqueue, then [publish]) with the one
    consumer loop (take, drain, park) at the granularity of single atomic
    operations; the orderings are sequentially consistent, as every access of
    the source is. *)
From S2P Require Import Prelude.

Local Open Scope Z_scope.

Record WakeProtocol := mkWP {
  pending : bool;
  might_block : bool;
  bell : Z               (* doorbell tokens *)
}.

Definition WakeProtocol_new : WakeProtocol := mkWP false false 0.

(** [Doorbell]: [ring] deposits a token, [wait] blocks without one ([None])
    and consumes all of them. *)
Definition bell_ring (b : Z) : Z := b + 1.
Definition bell_wait (b : Z) : option Z := if 0 <? b then Some 0 else None.

Definition publish (p : WakeProtocol) : WakeProtocol * bool :=
  let was_pending := pending p in
  let p1 := mkWP true (might_block p) (bell p) in
  if negb (might_block p1) then (p1, false)
  else if was_pending then (p1, false)
  else (mkWP true (might_block p1) (bell_ring (bell p1)), true).

Definition take_pending (p : WakeProtocol) : WakeProtocol * bool :=
  (mkWP false (might_block p) (bell p), pending p).

(** [None]: blocked on the doorbell. *)
Definition park_if_idle (p : WakeProtocol) : option (WakeProtocol * bool) :=
  if pending p then Some (mkWP (pending p) false (bell p), false)
  else match bell_wait (bell p) with
       | Some b => Some (mkWP (pending p) false b, true)
       | None => None
       end.

(** ** Interleavings *)
Inductive Producer :=
  | Idle
  | Enqueued             (* work visible, [publish] not started *)
  | Swapped (was : bool) (* [pending] swapped *)
  | Ringing.             (* owns the edge, about to ring *)

Inductive Consumer :=
  | Top                  (* about to [take_pending] *)
  | Draining
  | Drained              (* the drain found the queue empty *)
  | Announced            (* [might_block] stored *)
  | Blocked              (* in [bell.wait] *)
  | Resuming (b : bool). (* about to clear [might_block] *)

Record WSys := mkWSys {
  proto : WakeProtocol;
  queue : Z;
  producers : list Producer;
  consumer : Consumer;
  rings : Z;             (* doorbell rings issued *)
  takes : Z              (* [take_pending] calls that returned [true] *)
}.

Inductive WLabel :=
  | LEnqueue (i : nat) | LProducer (i : nat)
  | LTake | LPop | LEmpty | LAgain | LPark | LConsumer.

Definition set_producer (s : WSys) (p : WakeProtocol) (i : nat) (pc : Producer) : WSys :=
  mkWSys p (queue s) (<[i := pc]> (producers s)) (consumer s) (rings s) (takes s).
Definition set_consumer (s : WSys) (p : WakeProtocol) (pc : Consumer) : WSys :=
  mkWSys p (queue s) (producers s) pc (rings s) (takes s).

Definition publish_step (s : WSys) (i : nat) (pc : Producer) : option WSys :=
  let p := proto s in
  match pc with
  | Idle => None
  | Enqueued =>
      Some (set_producer s (mkWP true (might_block p) (bell p)) i (Swapped (pending p)))
  | Swapped was =>
      Some (set_producer s p i
              (if negb (might_block p) then Idle else if was then Idle else Ringing))
  | Ringing =>
      Some (mkWSys (mkWP (pending p) (might_block p) (bell_ring (bell p))) (queue s)
                   (<[i := Idle]> (producers s)) (consumer s) (rings s + 1) (takes s))
  end.

Definition park_step (s : WSys) : option WSys :=
  let p := proto s in
  match consumer s with
  | Announced => Some (set_consumer s p (if pending p then Resuming false else Blocked))
  | Blocked =>
      match bell_wait (bell p) with
      | Some b => Some (set_consumer s (mkWP (pending p) (might_block p) b) (Resuming true))
      | None => None
      end
  | Resuming _ => Some (set_consumer s (mkWP (pending p) false (bell p)) Top)
  | _ => None
  end.

Definition wstep (l : WLabel) (s : WSys) : option WSys :=
  let p := proto s in
  match l, consumer s with
  | LEnqueue i, _ =>
      match producers s !! i with
      | Some Idle => Some (mkWSys p (queue s + 1) (<[i := Enqueued]> (producers s)) (consumer s)
                                  (rings s) (takes s))
      | _ => None
      end
  | LProducer i, _ =>
      match producers s !! i with
      | Some pc => publish_step s i pc
      | None => None
      end
  | LTake, Top =>
      let '(p1, was) := take_pending p in
      Some (mkWSys p1 (queue s) (producers s) Draining (rings s) (takes s + Z.b2z was))
  | LPop, Draining =>
      if 0 <? queue s
      then Some (mkWSys p (queue s - 1) (producers s) Draining (rings s) (takes s)) else None
  | LEmpty, Draining => if queue s =? 0 then Some (set_consumer s p Drained) else None
  | LAgain, Drained => Some (set_consumer s p Top)
  | LPark, Drained => Some (set_consumer s (mkWP (pending p) true (bell p)) Announced)
  | LConsumer, _ => park_step s
  | _, _ => None
  end.

Definition winit (n : nat) : WSys := mkWSys WakeProtocol_new 0 (replicate n Idle) Top 0 0.

(** ** Invariant *)
Definition is_enqueued (p : Producer) : bool := match p with Enqueued => true | _ => false end.
Definition owns_edge (p : Producer) : bool :=
  match p with Swapped false | Ringing => true | _ => false end.

Definition announced (c : Consumer) : bool :=
  match c with Announced | Blocked | Resuming _ => true | _ => false end.

Definition unflagged (s : WSys) : Z := count is_enqueued (producers s).
Definition edge_owners (s : WSys) : Z := count owns_edge (producers s).

Record winv (s : WSys) : Prop := {
  w_queue : 0 <= queue s /\ 0 <= bell (proto s);
  w_mb : might_block (proto s) = announced (consumer s);
  w_flag : 0 < queue s -> pending (proto s) = true \/ 0 < unflagged s \/ consumer s = Draining;
  w_bell : consumer s = Blocked -> pending (proto s) = true ->
           0 < bell (proto s) \/ 0 < edge_owners s;
  w_rings : rings s + edge_owners s <= takes s + Z.b2z (pending (proto s))
}.

Lemma winit_inv n : winv (winit n).
Proof.
  split; simpl; try done. unfold edge_owners. simpl. rewrite count_replicate by done. lia.
Qed.

Lemma publish_inv s i pc s' :
  winv s -> producers s !! i = Some pc -> publish_step s i pc = Some s' -> winv s'.
Proof.
  intros [Hq Hmb Hf Hb Hr] Hi Hs.
  pose proof (count_nonneg is_enqueued (producers s)). pose proof (count_nonneg owns_edge (producers s)).
  pose proof (count_own owns_edge _ _ _ Hi).
  unfold publish_step, set_producer in Hs.
  destruct pc as [| |[]|], (pending (proto s)) eqn:Ep, (might_block (proto s)) eqn:Em; simplify_eq/=;
    split; unfold unflagged, edge_owners, bell_ring in *; simpl in *;
    rewrite ?(count_insert _ _ _ _ _ Hi); simpl; rewrite ?Ep, ?Em in *; simpl in *;
    try (destruct (consumer s); done || lia);
    intuition (try congruence; try (simpl in *; lia)).
Qed.

Lemma wstep_inv l s s' : winv s -> wstep l s = Some s' -> winv s'.
Proof.
  intros H Hs. destruct l as [i|i| | | | | |]; unfold wstep in Hs.
  - destruct (producers s !! i) as [[]|] eqn:Hi; simplify_eq. destruct H as [Hq Hmb Hf Hb Hr].
    pose proof (count_nonneg is_enqueued (producers s)).
    split; unfold unflagged, edge_owners in *; simpl in *; rewrite ?(count_insert _ _ _ _ _ Hi); simpl;
      intuition lia.
  - destruct (producers s !! i) as [pc|] eqn:Hi; [|done]. by eapply publish_inv.
  - destruct H as [Hq Hmb Hf Hb Hr], (consumer s) eqn:Ec; simplify_eq/=.
    split; unfold unflagged, edge_owners in *; simpl in *; intuition (try congruence; try (simpl in *; lia)).
  - destruct H as [Hq Hmb Hf Hb Hr], (consumer s) eqn:Ec; simplify_eq/=. branch. zify_bool.
    split; unfold unflagged, edge_owners in *; simpl in *; intuition (try congruence; try (simpl in *; lia)).
  - destruct H as [Hq Hmb Hf Hb Hr], (consumer s) eqn:Ec; simplify_eq/=. branch. zify_bool.
    split; unfold unflagged, edge_owners in *; simpl in *; intuition (try congruence; try (simpl in *; lia)).
  - destruct H as [Hq Hmb Hf Hb Hr], (consumer s) eqn:Ec; simplify_eq/=.
    split; unfold unflagged, edge_owners in *; simpl in *; intuition (try congruence; try (simpl in *; lia)).
  - destruct H as [Hq Hmb Hf Hb Hr], (consumer s) eqn:Ec; simplify_eq/=.
    split; unfold unflagged, edge_owners in *; simpl in *; intuition (try congruence; try (simpl in *; lia)).
  - destruct H as [Hq Hmb Hf Hb Hr]. unfold park_step, bell_wait, set_consumer in Hs.
    destruct (consumer s) eqn:Ec, (pending (proto s)) eqn:Ep; simplify_eq/=; branch; zify_bool;
    split; unfold unflagged, edge_owners in *; simpl in *; rewrite ?Ep in *;
      intuition (try congruence; try (simpl in *; lia)).
Qed.

Lemma wreach_inv n s : reach wstep (winit n) s -> winv s.
Proof.
  apply (reach_invariant wstep winv); [apply winit_inv|]. intros; by eapply wstep_inv.
Qed.

(** ** Properties *)

(** The uninterrupted step sequence of a producer is [publish]. *)
Lemma publish_steps s i :
  producers s !! i = Some Enqueued ->
  exists k s', run wstep (replicate k (LProducer i)) s = Some s' /\
    proto s' = (publish (proto s)).1 /\ producers s' !! i = Some Idle /\
    rings s' = rings s + Z.b2z (publish (proto s)).2.
Proof.
  intros Hi. assert (forall pc, <[i := pc]> (producers s) !! i = Some pc) as Hins.
  { intros pc. apply list_lookup_insert_eq. by eapply lookup_lt_Some. }
  unfold publish. destruct (might_block (proto s)) eqn:Em, (pending (proto s)) eqn:Ep; simpl;
    [exists 2%nat|exists 3%nat|exists 2%nat|exists 2%nat];
    eexists; simpl; rewrite Hi; simpl;
    rewrite ?Hins; simpl; rewrite ?Em, ?Ep; simpl; rewrite ?list_insert_insert_eq, ?Hins; simpl;
    rewrite ?list_insert_insert_eq; (split; [done|]); simpl; rewrite ?Hins; rewrite ?list_insert_insert_eq, ?Hins;
    repeat split; lia.
Qed.

(** C11. No publish is stranded: in every interleaving of any number of
    producers with the consumer loop, if the consumer is blocked on an empty
    doorbell and no producer is inside its enqueue-and-publish, the work queue
    is empty. *)
Theorem no_stranded_publish (n : nat) (s : WSys) :
  reach wstep (winit n) s ->
  consumer s = Blocked -> bell (proto s) = 0 ->
  (forall i pc, producers s !! i = Some pc -> pc = Idle) -> queue s = 0.
Proof.
  intros Hr Hc Hb Hidle. pose proof (wreach_inv n s Hr) as H.
  assert (forall P, P Idle = false -> count P (producers s) = 0) as H0.
  { intros P HP. apply count_none. intros i pc Hi. by rewrite (Hidle i pc Hi). }
  pose proof (w_queue s H). pose proof (w_flag s H) as Hf. pose proof (w_bell s H Hc) as Hbell.
  unfold unflagged, edge_owners in *. rewrite (H0 is_enqueued), (H0 owns_edge) in * by done.
  rewrite Hc in Hf. destruct (decide (queue s = 0)); [done|].
  destruct Hf as [Hp|[|]]; try done; try lia. destruct (Hbell Hp); lia.
Qed.

(** Wakes coalesce: however many publishes run, the doorbell is rung at
    most once per [false -> true] edge of [pending], so at most once more than
    the consumer has taken it. *)
Theorem rings_coalesce (n : nat) (s : WSys) :
  reach wstep (winit n) s -> rings s <= takes s + Z.b2z (pending (proto s)).
Proof.
  intros Hr. pose proof (wreach_inv n s Hr) as H. pose proof (w_rings s H).
  pose proof (count_nonneg owns_edge (producers s)). unfold edge_owners in *. lia.
Qed.

(** Two publishes race the consumer's announcement: one ring, then the
    consumer drains both and blocks with nothing left. *)
Definition race : list WLabel :=
  [LTake; LEmpty; LPark; LEnqueue 0; LConsumer; LProducer 0; LEnqueue 1; LProducer 1; LProducer 1;
   LProducer 0; LProducer 0; LConsumer; LConsumer; LTake; LPop; LPop; LEmpty; LPark; LConsumer].

Definition race_end : WSys := mkWSys (mkWP false true 0) 0 [Idle; Idle] Blocked 1 1.

Lemma race_reach : reach wstep (winit 2) race_end.
Proof. apply (run_reach wstep race). reflexivity. Qed.

Lemma no_stranded_publish_witness : queue race_end = 0.
Proof.
  refine (no_stranded_publish 2 race_end race_reach eq_refl eq_refl _).
  intros [|[|i]] pc Hi; [injection Hi as <-; reflexivity..|discriminate Hi].
Defined.

Lemma rings_coalesce_witness : rings race_end <= takes race_end + Z.b2z (pending (proto race_end)).
Proof. exact (rings_coalesce 2 race_end race_reach). Defined.
