(* ===== verification/Publish.v ===== *)
(** * Publication of a configuration pair, and the buffer lease
    ([models/config-publish/src/lib.rs], [models/borrow-recycle/src/lib.rs])

    [TornConfig] keeps the pair [(rate_limit, rate_window_ms)] in two atomics,
    [PackedConfig] in one 64-bit word. Readers and the reload thread interleave
    at single loads and stores. [Lease] is the swap through which exactly one
    of the racing hand-back paths takes a lent buffer. *)
From S2P Require Import Prelude.

Local Open Scope Z_scope.

(** A generation of the pair: two [u32]. *)
Definition Gen : Type := Z * Z.
Definition gen_ok (g : Gen) : Prop := fits 32 g.1 /\ fits 32 g.2.

Definition GEN0 : Gen := (100, 1000).
Definition GEN1 : Gen := (5, 60000).

Definition gen_eqb (g h : Gen) : bool := (g.1 =? h.1) && (g.2 =? h.2).
Definition is_a_generation (g : Gen) : bool := gen_eqb g GEN0 || gen_eqb g GEN1.

(** ** One word *)
Definition pack (g : Gen) : Z := Z.lor (Z.shiftl g.1 32) g.2.
Definition unpack (v : Z) : Gen := (wrap 32 (Z.shiftr v 32), wrap 32 (Z.land v 0xffffffff)).

Lemma pack_bound g : gen_ok g -> fits 64 (pack g) /\ pack g = g.1 * 2 ^ 32 + g.2.
Proof.
  intros [[] []]. unfold pack, fits. rewrite lor_shiftl; lia.
Qed.

Lemma unpack_pack g : gen_ok g -> unpack (pack g) = g.
Proof.
  intros Hg. destruct (pack_bound g Hg) as [_ ->]. destruct Hg as [Hl Hw], g as [l w]. simpl in *.
  unfold unpack, fits in *. change 0xffffffff with (Z.ones 32).
  rewrite Z.land_ones, Z.shiftr_div_pow2 by lia.
  rewrite Z.div_add_l, (Z.div_small w), Z.add_0_r by lia.
  rewrite (Z.add_comm (l * _)), Z.mod_add, (Z.mod_small w) by lia.
  unfold wrap. by rewrite !Z.mod_small by lia.
Qed.

(** ** Readers against reloads

    A reader's program counter: idle, limit loaded, or the pair it observed. *)
Inductive Reader := RIdle | RLimit (l : Z) | RSeen (g : Gen).

(** The reload thread: idle, or between the two stores of [publish]. *)
Inductive Writer := WtIdle | WtLimit (w : Z).

Record Torn := mkTorn {
  t_limit : Z; t_window : Z; t_writer : Writer; t_readers : list Reader;
  t_published : list Gen
}.

Inductive TLabel := TPublish (g : Gen) | TStore | TLoad (i : nat).

Definition torn_step (l : TLabel) (s : Torn) : option Torn :=
  match l with
  | TPublish g =>
      match t_writer s with
      | WtIdle => Some (mkTorn g.1 (t_window s) (WtLimit g.2) (t_readers s) (t_published s ++ [g]))
      | _ => None
      end
  | TStore =>
      match t_writer s with
      | WtLimit w => Some (mkTorn (t_limit s) w WtIdle (t_readers s) (t_published s))
      | _ => None
      end
  | TLoad i =>
      match t_readers s !! i with
      | Some RIdle => Some (mkTorn (t_limit s) (t_window s) (t_writer s)
                              (<[i := RLimit (t_limit s)]> (t_readers s)) (t_published s))
      | Some (RLimit l) => Some (mkTorn (t_limit s) (t_window s) (t_writer s)
                              (<[i := RSeen (l, t_window s)]> (t_readers s)) (t_published s))
      | _ => None
      end
  end.

Definition torn_new (g : Gen) (n : nat) : Torn := mkTorn g.1 g.2 WtIdle (replicate n RIdle) [g].

Record Packed := mkPacked { pair_word : Z; p_readers : list Reader; p_published : list Gen }.

Inductive PLabel := PPublish (g : Gen) | PObserve (i : nat).

Definition packed_step (l : PLabel) (s : Packed) : option Packed :=
  match l with
  | PPublish g => Some (mkPacked (pack g) (p_readers s) (p_published s ++ [g]))
  | PObserve i =>
      match p_readers s !! i with
      | Some _ => Some (mkPacked (pair_word s) (<[i := RSeen (unpack (pair_word s))]> (p_readers s))
                          (p_published s))
      | None => None
      end
  end.

Definition packed_new (g : Gen) (n : nat) : Packed := mkPacked (pack g) (replicate n RIdle) [g].

Definition packed_inv (s : Packed) : Prop :=
  Forall gen_ok (p_published s) ->
  (exists g, pair_word s = pack g /\ g ∈ p_published s) /\
  (forall i g, p_readers s !! i = Some (RSeen g) -> g ∈ p_published s).

Lemma packed_step_inv l s s' : packed_inv s -> packed_step l s = Some s' -> packed_inv s'.
Proof.
  intros H Hs Hok. destruct l as [g|i]; simpl in Hs.
  - simplify_eq/=. apply Forall_app in Hok as [Hok Hg]. destruct (H Hok) as [_ Hr].
    split; [exists g; set_solver|]. intros i h Hi. specialize (Hr i h Hi). set_solver.
  - destruct (p_readers s !! i) eqn:Hi; simplify_eq/=. destruct (H Hok) as [(g & Hw & Hg) Hr].
    split; [by exists g|]. intros j h Hj.
    apply list_lookup_insert_Some in Hj as [(-> & [= <-] & _)|(_ & Hj)]; [|by eapply Hr].
    rewrite Hw, unpack_pack; [done|]. rewrite Forall_forall in Hok. auto.
Qed.

Lemma packed_new_inv g n : packed_inv (packed_new g n).
Proof.
  intros _. split; [exists g; split; [done|]; simpl; set_solver|].
  intros i h Hi. simpl in Hi. by apply lookup_replicate in Hi as [? _].
Qed.

(** ** The lease *)
Definition Lease := Z.
Definition lease_held (bid : Z) : Lease := bid.
Definition lease_take (l : Lease) : Lease * option Z := (0, if l =? 0 then None else Some l).
Definition lease_is_held (l : Lease) : bool := negb (l =? 0).

(** Any number of hand-back attempts, in any order. *)
Fixpoint take_all (n : nat) (l : Lease) : Lease * list (option Z) :=
  match n with
  | O => (l, [])
  | S n' => let '(l1, r) := lease_take l in
            let '(l2, rs) := take_all n' l1 in (l2, r :: rs)
  end.

Lemma take_all_empty n : take_all n 0 = (0, replicate n None).
Proof. induction n as [|n IH]; [done|]. simpl. by rewrite IH. Qed.

(** ** Properties *)

(** One-word publication never tears: under every interleaving of reloads
    with any number of readers, each observed pair is a generation that was
    published, whatever 32-bit generations are published. *)
Theorem packed_never_torn (g0 : Gen) (n : nat) (s : Packed) (i : nat) (g : Gen) :
  reach packed_step (packed_new g0 n) s -> Forall gen_ok (p_published s) ->
  p_readers s !! i = Some (RSeen g) -> g ∈ p_published s.
Proof.
  intros Hr Hok Hi.
  assert (packed_inv s) as H.
  { apply (reach_invariant packed_step packed_inv (packed_new g0 n) s); [apply packed_new_inv| |done].
    intros l x y. apply packed_step_inv. }
  destruct (H Hok) as [_ Hp]. by eapply Hp.
Qed.

Lemma packed_never_torn_witness :
  exists s, run packed_step [PPublish GEN1; PObserve 0] (packed_new GEN0 1) = Some s /\
            GEN1 ∈ p_published s.
Proof.
  eexists. split; [vm_compute; reflexivity|].
  apply (packed_never_torn GEN0 1 _ 0 GEN1).
  - apply (run_reach packed_step [PPublish GEN1; PObserve 0]). reflexivity.
  - repeat constructor; vm_compute; discriminate.
  - reflexivity.
Defined.

(** Two separate atomics do tear: a reader can observe the old limit with
    the new window, a pair that is no generation, between the two stores of
    one reload. *)
Theorem torn_pair_observable :
  exists s, reach torn_step (torn_new GEN0 1) s /\
    t_published s = [GEN0; GEN1] /\
    t_readers s !! 0%nat = Some (RSeen (GEN0.1, GEN1.2)) /\
    is_a_generation (GEN0.1, GEN1.2) = false.
Proof.
  eexists. split; [apply (run_reach torn_step [TLoad 0; TPublish GEN1; TStore; TLoad 0]); reflexivity|].
  done.
Qed.

(** Exactly one hand-back wins: however many paths race to take a held
    lease, one of them gets the buffer and every other one gets nothing. *)
Theorem lease_taken_once (bid : Z) (n : nat) :
  bid <> 0 -> (0 < n)%nat ->
  take_all n (lease_held bid) = (0, Some bid :: replicate (n - 1) None) /\
  lease_is_held (take_all n (lease_held bid)).1 = false.
Proof.
  intros Hb Hn. destruct n as [|n]; [lia|]. simpl. unfold lease_held, lease_take.
  rewrite take_all_empty, (proj2 (Z.eqb_neq bid 0) Hb). by rewrite Nat.sub_0_r.
Qed.

Lemma lease_taken_once_witness :
  take_all 3 (lease_held 7) = (0, [Some 7; None; None]).
Proof. exact (proj1 (lease_taken_once 7 3 ltac:(lia) ltac:(lia))). Defined.
