(* ===== verification/BufRing.v ===== *)
(** * The provided-buffer ring ([migration/dataplane/host/src/bufring.rs])

    The records, the 16-bit tail and its published copy, the initial fill and
    [recycle]. Storage is addressed from a base; the mappings and the kernel
    registration, which can fail, are arguments of [new]. The kernel side is
    the documented consumer: it takes the record at its own 16-bit head while
    that differs from the published tail. [bstep] interleaves it with the shard
    between the record write and the release store of the tail. *)
From S2P Require Import Prelude.

Local Open Scope Z_scope.

Record Entry := mkEntry { addr : Z; elen : Z; bid : Z }.

Record BufRing := mkBufRing {
  entries : Z;
  mask : Z;
  buf_size : Z;
  ring_len : Z;
  bufs : Z;
  bufs_len : Z;
  records : list Entry;
  tail : Z;
  shared_tail : Z
}.

Definition PAGE : Z := 4096.
Definition ENTRY_SIZE : Z := 16.

Definition round_page (raw : Z) : Z := Z.land (raw + PAGE - 1) (max_uint USIZE - (PAGE - 1)).

Definition set_records (r : BufRing) (l : list Entry) : BufRing :=
  mkBufRing (entries r) (mask r) (buf_size r) (ring_len r) (bufs r) (bufs_len r) l (tail r) (shared_tail r).
Definition set_tail (r : BufRing) (t : Z) : BufRing :=
  mkBufRing (entries r) (mask r) (buf_size r) (ring_len r) (bufs r) (bufs_len r) (records r) t (shared_tail r).
Definition set_shared (r : BufRing) (t : Z) : BufRing :=
  mkBufRing (entries r) (mask r) (buf_size r) (ring_len r) (bufs r) (bufs_len r) (records r) (tail r) t.

Definition entry_for (r : BufRing) (b : Z) : Entry :=
  mkEntry (bufs r + b * buf_size r) (wrap 32 (buf_size r)) b.

(** The record write of [add], up to the shadow tail. *)
Definition add_record (r : BufRing) (b : Z) : BufRing :=
  let idx := Z.to_nat (Z.land (tail r) (mask r)) in
  set_tail (set_records r (<[idx := entry_for r b]> (records r))) (wrapping_add 16 (tail r) 1).

(** The release store of [add]. *)
Definition publish_tail (r : BufRing) : BufRing := set_shared r (tail r).

Definition add (r : BufRing) (b : Z) : BufRing := publish_tail (add_record r b).

Definition recycle (r : BufRing) (b : Z) : BufRing := add r b.

Definition fill (r : BufRing) (n : nat) : BufRing := fold_left add (seqZ 0 (Z.of_nat n)) r.

Inductive IoError := MapFailed | RegisterFailed.

Definition is_power_of_two (n : Z) : bool := (0 <? n) && (n =? 2 ^ Z.log2 n).

(** The mappings give zeroed memory at a base, or fail. [None]: the assertion
    on [entries]. *)
Definition ring_new (map_ring map_bufs : option Z) (register_ok : bool) (n size : Z) :
    option (result BufRing IoError) :=
  if is_power_of_two n && (n <=? 32768) then
    let rlen := round_page (n * ENTRY_SIZE) in
    match map_ring, map_bufs with
    | None, _ => Some (Err MapFailed)
    | Some _, None => Some (Err MapFailed)
    | Some _, Some base =>
        if register_ok
        then Some (Ok (fill (mkBufRing n (n - 1) size rlen base (n * size)
                             (replicate (Z.to_nat n) (mkEntry 0 0 0)) 0 0) (Z.to_nat n)))
        else Some (Err RegisterFailed)
    end
  else None.

(** [slice]: the address and length of the bytes lent in buffer [b]. *)
Definition slice_of (r : BufRing) (b len : Z) : Z * Z := (bufs r + b * buf_size r, len).

(** ** The shard and the kernel *)

Inductive HostPc := HIdle | HWritten.

Record Sys := mkSys { br : BufRing; khead : Z; lent : list Z; host : HostPc }.

Inductive Label :=
  | Lend                  (* the kernel selects a buffer for a completion *)
  | RecycleWrite (i : nat)  (* the shard writes the record of a lent buffer *)
  | RecyclePublish.

Definition bstep (l : Label) (s : Sys) : option Sys :=
  match l with
  | Lend =>
      if khead s =? shared_tail (br s) then None
      else
        e ← records (br s) !! Z.to_nat (Z.land (khead s) (mask (br s)));
        Some (mkSys (br s) (wrapping_add 16 (khead s) 1) (bid e :: lent s) (host s))
  | RecycleWrite i =>
      match host s with
      | HIdle =>
          b ← lent s !! i;
          Some (mkSys (add_record (br s) b) (khead s) (delete i (lent s)) HWritten)
      | HWritten => None
      end
  | RecyclePublish =>
      match host s with
      | HWritten => Some (mkSys (publish_tail (br s)) (khead s) (lent s) HIdle)
      | HIdle => None
      end
  end.

(** ** The published window *)

Definition ring_ok (k : Z) (r : BufRing) : Prop :=
  0 <= k <= 15 /\ entries r = 2 ^ k /\ mask r = 2 ^ k - 1 /\ Z.of_nat (length (records r)) = 2 ^ k.

(** From position [h], the records hold [w] in order and the tail follows. *)
Record win (k : Z) (r : BufRing) (h : Z) (w : list Z) : Prop := {
  w_ok : ring_ok k r;
  w_tail : tail r = wrap 16 (h + Z.of_nat (length w));
  w_records : forall i b, w !! i = Some b ->
    records r !! Z.to_nat ((h + Z.of_nat i) mod 2 ^ k) = Some (entry_for r b)
}.

Lemma index_mod k x : 0 <= k <= 15 -> Z.land (wrap 16 x) (2 ^ k - 1) = x mod 2 ^ k.
Proof.
  intros Hk. replace (2 ^ k - 1) with (Z.ones k) by (rewrite Z.ones_equiv; lia).
  rewrite Z.land_ones by lia. unfold wrap. pose proof (Z.pow_pos_nonneg 2 k).
  replace (2 ^ 16) with (2 ^ k * 2 ^ (16 - k)) by (rewrite <- Z.pow_add_r by lia; f_equal; lia).
  rewrite Z.rem_mul_r by lia. rewrite (Z.mul_comm (2 ^ k) (_ mod _)), Z.mod_add, Z.mod_mod by lia. done.
Qed.

(** An id added to a window with room goes to its end, over no record of it. *)
Lemma add_record_win k r h w b :
  0 <= h -> win k r h w -> Z.of_nat (length w) < 2 ^ k -> win k (add_record r b) h (w ++ [b]).
Proof.
  intros Hh [(Hk & H1 & H2 & H3) Ht Hr] Hl. pose proof (Z.pow_pos_nonneg 2 k ltac:(lia) ltac:(lia)) as Hp.
  unfold add_record. rewrite Ht, H2, index_mod by done.
  pose proof (Z.mod_pos_bound (h + Z.of_nat (length w)) (2 ^ k) Hp) as Hb. split.
  - split; [done|]. split; [done|]. split; [done|]. cbn [records set_tail set_records]. by rewrite length_insert.
  - cbn [tail set_tail]. unfold wrapping_add. rewrite wrap_add_l, length_app by lia. f_equal. simpl. lia.
  - cbn [records set_tail set_records]. intros i x Hi.
    change (entry_for (set_tail _ _) x) with (entry_for r x).
    apply lookup_snoc_Some in Hi as [[Hi Hx]|[-> ->]].
    + rewrite list_lookup_insert_ne; [by apply Hr|]. intros Heq. apply Z2Nat.inj in Heq; [|lia|].
      * apply (mod_near (2 ^ k) h) in Heq; lia.
      * apply Z.mod_pos_bound. lia.
    + apply list_lookup_insert_eq. lia.
Qed.

Lemma fill_win k l : forall r w,
  win k r 0 w -> Z.of_nat (length w + length l) <= 2 ^ k ->
  shared_tail r = tail r -> let r' := fold_left add l r in win k r' 0 (w ++ l) /\ shared_tail r' = tail r' /\
  bufs r' = bufs r /\ buf_size r' = buf_size r /\ entries r' = entries r /\ ring_len r' = ring_len r.
Proof.
  induction l as [|b l IH]; intros r w H Hl Hs; cbn [fold_left length] in *; [by rewrite app_nil_r|].
  assert (win k (add r b) 0 (w ++ [b])) as Ha.
  { destruct (add_record_win k r 0 w b ltac:(lia) H ltac:(lia)) as [A1 A2 A3]. by split. }
  destruct (IH (add r b) (w ++ [b]) Ha ltac:(rewrite length_app; simpl; lia) eq_refl) as (B1 & B2).
  rewrite <- app_assoc in B1. done.
Qed.

(** ** Histories *)

Definition in_progress (s : Sys) (pend : list Z) : Prop :=
  match host s with HIdle => pend = [] | HWritten => exists b, pend = [b] end.

(** Where every buffer id is: available to the kernel, being recycled, lent. *)
Record binv (k base size : Z) (s : Sys) (h : Z) (avail pend : list Z) : Prop := {
  b_head : 0 <= h /\ khead s = wrap 16 h;
  b_place : bufs (br s) = base /\ buf_size (br s) = size;
  b_win : win k (br s) h (avail ++ pend);
  b_shared : shared_tail (br s) = wrap 16 (h + Z.of_nat (length avail));
  b_pend : in_progress s pend;
  b_all : avail ++ pend ++ lent s ≡ₚ seqZ 0 (2 ^ k)
}.

Lemma binv_length k base size s h avail pend :
  binv k base size s h avail pend ->
  Z.of_nat (length avail + length pend + length (lent s)) = 2 ^ k /\ 0 < 2 ^ k <= 2 ^ 15.
Proof.
  intros H. destruct (w_ok _ _ _ _ (b_win _ _ _ _ _ _ _ H)) as (Hk & _).
  pose proof (Z.pow_pos_nonneg 2 k ltac:(lia) ltac:(lia)). pose proof (Z.pow_le_mono_r 2 k 15 ltac:(lia) ltac:(lia)).
  split; [|lia]. pose proof (Permutation_length (b_all _ _ _ _ _ _ _ H)) as Hl.
  rewrite !length_app, length_seqZ in Hl. lia.
Qed.

(** What the kernel takes is the oldest available id. *)
Lemma lend_spec k base size s h avail pend s' :
  binv k base size s h avail pend -> bstep Lend s = Some s' ->
  exists b rest, avail = b :: rest /\ lent s' = b :: lent s /\ binv k base size s' (h + 1) rest pend.
Proof.
  intros H. pose proof (binv_length _ _ _ _ _ _ _ H) as [Hlen Hp]. destruct H as [[Hh0 Hh] Hpl Hw Hs Hpd Ha].
  cbn [bstep]. destruct (khead s =? shared_tail (br s)) eqn:E; [done|]. zify_bool.
  destruct avail as [|b rest]; [simpl in Hs; rewrite Z.add_0_r in Hs; congruence|].
  destruct (w_ok _ _ _ _ Hw) as (Hk & _ & Hm & _). rewrite Hh, Hm, index_mod by done.
  pose proof (w_records _ _ _ _ Hw 0%nat b eq_refl) as H0. rewrite Z.add_0_r in H0. rewrite H0.
  cbn [mbind option_bind bid entry_for]. intros [= <-]. exists b, rest. split; [done|]. split; [done|].
  split; cbn [br khead lent host].
  - split; [lia|]. unfold wrapping_add. by rewrite wrap_add_l by lia.
  - done.
  - destruct Hw as [W1 W2 W3]. split; [done| |].
    + rewrite W2. f_equal. simpl. lia.
    + intros i x Hi. rewrite <- (W3 (S i) x Hi). do 3 f_equal. lia.
  - rewrite Hs. f_equal. simpl. lia.
  - done.
  - rewrite <- Ha. simpl. rewrite (app_assoc rest), (app_assoc rest). by rewrite <- Permutation_middle.
Qed.

Lemma recycle_write_spec k base size s h avail pend i s' :
  binv k base size s h avail pend -> bstep (RecycleWrite i) s = Some s' ->
  exists b, lent s !! i = Some b /\ binv k base size s' h avail [b].
Proof.
  intros H. pose proof (binv_length _ _ _ _ _ _ _ H) as [Hlen Hp]. destruct H as [[Hh0 Hh] Hpl Hw Hs Hpd Ha].
  cbn [bstep]. unfold in_progress in Hpd. destruct (host s); [|done]. subst pend. rewrite app_nil_r in Hw.
  destruct (lent s !! i) as [b|] eqn:Hi; [|done]. cbn [mbind option_bind]. intros [= <-]. exists b. split; [done|].
  pose proof (lookup_lt_Some _ _ _ Hi) as Hli. split; cbn [br khead lent host]; try done.
  - apply add_record_win; [done|done|]. simpl in Hlen. lia.
  - by exists b.
  - rewrite <- Ha. apply Permutation_app_head. simpl. by rewrite <- delete_Permutation.
Qed.

Lemma recycle_publish_spec k base size s h avail pend s' :
  binv k base size s h avail pend -> bstep RecyclePublish s = Some s' ->
  binv k base size s' h (avail ++ pend) [].
Proof.
  intros [Hh Hpl Hw Hs Hpd Ha]. cbn [bstep]. unfold in_progress in Hpd. destruct (host s); [done|].
  intros [= <-]. split; cbn [br khead lent host]; try done.
  - rewrite app_nil_r. destruct Hw as [W1 W2 W3]. by split.
  - cbn [shared_tail publish_tail set_shared]. by rewrite (w_tail _ _ _ _ Hw).
  - by rewrite <- app_assoc.
Qed.

Lemma bstep_inv k base size l s s' :
  (exists h avail pend, binv k base size s h avail pend) -> bstep l s = Some s' ->
  exists h avail pend, binv k base size s' h avail pend.
Proof.
  intros (h & avail & pend & H) Hst. destruct l as [|i|].
  - destruct (lend_spec _ _ _ _ _ _ _ _ H Hst) as (b & rest & _ & _ & ?). eauto.
  - destruct (recycle_write_spec _ _ _ _ _ _ _ _ _ H Hst) as (b & _ & ?). eauto.
  - pose proof (recycle_publish_spec _ _ _ _ _ _ _ _ H Hst). eauto.
Qed.

(** The initial fill publishes every id in order. *)
Lemma ring_new_ok mr base n size r :
  ring_new (Some mr) (Some base) true n size = Some (Ok r) ->
  exists k, n = 2 ^ k /\ binv k base size (mkSys r 0 [] HIdle) 0 (seqZ 0 n) [] /\
    entries r = n /\ ring_len r = round_page (n * ENTRY_SIZE).
Proof.
  unfold ring_new. destruct (is_power_of_two n) eqn:En; [|done]. cbn [andb].
  destruct (n <=? 32768) eqn:Hn; [|done]. intros Hr. assert (r = fill _ _) as -> by (injection Hr as <-; done). clear Hr.
  apply andb_true_iff in En as [En1%Z.ltb_lt En2%Z.eqb_eq]. apply Z.leb_le in Hn.
  exists (Z.log2 n). split; [done|]. pose proof (Z.log2_nonneg n) as Hk0.
  assert (Z.log2 n <= 15) as Hk.
  { change 15 with (Z.log2 32768). by apply Z.log2_le_mono. }
  set (r0 := mkBufRing _ _ _ _ _ _ _ _ _). unfold fill. rewrite Z2Nat.id by lia.
  assert (win (Z.log2 n) r0 0 []) as H0.
  { split; [|done|done]. repeat split; try done; cbn [entries mask records r0]; rewrite <- ?En2; try done.
    rewrite length_replicate. lia. }
  destruct (fill_win (Z.log2 n) (seqZ 0 n) r0 [] H0) as (F1 & F2 & F3 & F4 & F5 & F6).
  { rewrite length_seqZ, <- En2. simpl. lia. }
  { done. }
  cbn [app] in F1. split; [|by rewrite F5, F6]. split; cbn [br khead lent host]; try done.
  - by rewrite app_nil_r.
  - by rewrite F2, (w_tail _ _ _ _ F1).
  - by rewrite <- En2, !app_nil_r.
Qed.

Lemma round_page_ok raw : 0 <= raw < 2 ^ 63 -> raw <= round_page raw < raw + PAGE /\ round_page raw mod PAGE = 0.
Proof.
  intros Hr. unfold round_page, PAGE. change (max_uint USIZE - (4096 - 1)) with (Z.shiftl (Z.ones 52) 12).
  set (x := raw + 4096 - 1).
  assert (Z.land x (Z.shiftl (Z.ones 52) 12) = Z.shiftl (Z.land (Z.shiftr x 12) (Z.ones 52)) 12) as ->.
  { apply Z.bits_inj'. intros j Hj. rewrite Z.land_spec, !Z.shiftl_spec by lia.
    destruct (decide (j < 12)); [by rewrite !(Z.testbit_neg_r _ (j - 12)), andb_false_r by lia|].
    rewrite Z.land_spec, Z.shiftr_spec by lia. do 2 f_equal. lia. }
  rewrite Z.land_ones, Z.shiftl_mul_pow2, Z.shiftr_div_pow2 by lia.
  pose proof (Z.div_mod x (2 ^ 12)). pose proof (Z.mod_pos_bound x (2 ^ 12)).
  rewrite (Z.mod_small (x / 2 ^ 12)) by (split; [apply Z.div_pos; lia|apply Z.div_lt_upper_bound; lia]).
  split; [lia|]. change 4096 with (2 ^ 12). apply Z.mod_mul. lia.
Qed.

(** What the kernel may still take: the ids of the records from its head up to
    the published tail. *)
Definition available (s : Sys) : list Z :=
  omap (fun i => bid <$> records (br s) !! Z.to_nat (Z.land (wrapping_add 16 (khead s) (Z.of_nat i)) (mask (br s))))
    (seq 0 (Z.to_nat (wrap 16 (shared_tail (br s) - khead s)))).

Lemma omap_seq_lookup {A} (f : nat -> option A) (l : list A) n :
  length l = n -> (forall i x, l !! i = Some x -> f i = Some x) -> omap f (seq 0 n) = l.
Proof.
  revert l. induction n as [|n IH]; intros l Hl Hf; [by destruct l|]. rewrite seq_S, omap_app.
  destruct (lookup_lt_is_Some_2 l n) as [x Hx]; [lia|]. cbn [omap list_omap Nat.add]. rewrite (Hf n x Hx), (IH (take n l)).
  - rewrite <- take_S_r by done. by rewrite take_ge by lia.
  - rewrite length_take. lia.
  - intros i y Hi. apply lookup_take_Some in Hi as [Hi _]. by apply Hf.
Qed.

Lemma binv_records k base size s h avail pend i b :
  binv k base size s h avail pend -> avail !! i = Some b ->
  records (br s) !! Z.to_nat (Z.land (wrapping_add 16 (khead s) (Z.of_nat i)) (mask (br s))) = Some (mkEntry (base + b * size) (wrap 32 size) b).
Proof.
  intros [[Hh0 Hh] [<- <-] Hw _ _ _] Hi. destruct (w_ok _ _ _ _ Hw) as (Hk & _ & Hm & _). rewrite Hm, Hh. unfold wrapping_add.
  rewrite wrap_add_l, index_mod by lia. apply (w_records _ _ _ _ Hw). by apply lookup_app_l_Some.
Qed.

Lemma binv_count k base size s h avail pend :
  binv k base size s h avail pend -> Z.of_nat (length avail) = wrap 16 (shared_tail (br s) - khead s).
Proof.
  intros H. pose proof (binv_length _ _ _ _ _ _ _ H) as [Hlen Hp]. destruct H as [[Hh0 Hh] _ _ Hs _ _].
  rewrite Hs, Hh, wrap_sub_idemp by lia. rewrite wrap_small; unfold fits; lia.
Qed.

Lemma binv_available k base size s h avail pend : binv k base size s h avail pend -> available s = avail.
Proof.
  intros H. apply omap_seq_lookup; [rewrite <- (binv_count _ _ _ _ _ _ _ H); lia|]. intros i b Hi. by rewrite (binv_records _ _ _ _ _ _ _ _ _ H Hi).
Qed.

(** The kernel is refused a buffer only when none is available. *)
Lemma lend_enabled k base size s h avail pend : binv k base size s h avail pend -> avail <> [] -> is_Some (bstep Lend s).
Proof.
  intros H Hne. pose proof (binv_count _ _ _ _ _ _ _ H) as Hc. destruct avail as [|b rest]; [done|]. cbn [bstep].
  destruct (khead s =? shared_tail (br s)) eqn:E; zify_bool.
  { rewrite <- E, Z.sub_diag in Hc. change (wrap 16 0) with 0 in Hc. cbn [length] in Hc. lia. }
  pose proof (binv_records _ _ _ _ _ _ _ 0%nat b H eq_refl) as Hr. unfold wrapping_add in Hr.
  assert (wrap 16 (khead s + Z.of_nat 0) = khead s) as E0.
  { rewrite Z.add_0_r. apply wrap_small. rewrite (proj2 (b_head _ _ _ _ _ _ _ H)). apply wrap_fits. lia. }
  rewrite E0 in Hr. rewrite Hr. by eexists.
Qed.

(** A lent buffer comes back: the two steps of its recycling run, and publish
    it behind what was available. *)
Lemma recycle_runs k base size s h avail pend i b :
  binv k base size s h avail pend -> host s = HIdle -> lent s !! i = Some b ->
  exists s1 s2, bstep (RecycleWrite i) s = Some s1 /\ bstep RecyclePublish s1 = Some s2 /\
    lent s2 = delete i (lent s) /\ br s2 = recycle (br s) b /\ available s1 = avail /\ available s2 = avail ++ [b].
Proof.
  intros H Hi Hb. assert (exists s1, bstep (RecycleWrite i) s = Some s1 /\ lent s1 = delete i (lent s) /\ host s1 = HWritten /\ br s1 = add_record (br s) b) as (s1 & E1 & El & Eh & Eb).
  { cbn [bstep]. rewrite Hi, Hb. eexists. done. }
  destruct (recycle_write_spec _ _ _ _ _ _ _ _ _ H E1) as (b' & Hb' & H1). rewrite Hb in Hb'. injection Hb' as <-.
  assert (exists s2, bstep RecyclePublish s1 = Some s2 /\ lent s2 = lent s1 /\ br s2 = publish_tail (br s1)) as (s2 & E2 & El2 & Eb2).
  { cbn [bstep]. rewrite Eh. eexists. done. }
  pose proof (recycle_publish_spec _ _ _ _ _ _ _ _ H1 E2) as H2. exists s1, s2.
  split_and!; [done|done|congruence|by rewrite Eb2, Eb|by apply (binv_available _ _ _ _ _ _ _ H1)|by apply (binv_available _ _ _ _ _ _ _ H2)].
Qed.

(** C12. The buffer ring never loses, duplicates or exposes a buffer: over
    every interleaving of the kernel's selections with the shard's recycling,
    each id is in one place, available to the kernel (between its head and the
    published 16-bit tail, wrap-around included), lent, or the single one whose
    record is written and not yet published, and between recyclings there is
    none of those; each available record points at its own buffer; the kernel
    is refused only when nothing is available and is otherwise lent the oldest
    available id, which nobody holds; and recycling a lent buffer always
    completes, with that buffer available behind the others. The record region
    covers its entries and is a whole number of pages. *)
Theorem buffer_ring_sound (mr base n size : Z) (r : BufRing) (s : Sys) :
  ring_new (Some mr) (Some base) true n size = Some (Ok r) ->
  reach bstep (mkSys r 0 [] HIdle) s ->
  (n * ENTRY_SIZE <= ring_len r /\ ring_len r mod PAGE = 0) /\
  (exists pend, available s ++ pend ++ lent s ≡ₚ seqZ 0 n /\ length pend = match host s with HIdle => 0%nat | HWritten => 1%nat end) /\
  (forall i b, available s !! i = Some b ->
     records (br s) !! Z.to_nat (Z.land (wrapping_add 16 (khead s) (Z.of_nat i)) (mask (br s))) =
       Some (mkEntry (base + b * size) (wrap 32 size) b)) /\
  (available s <> [] -> is_Some (bstep Lend s)) /\
  (forall s', bstep Lend s = Some s' ->
     exists b, available s = b :: available s' /\ lent s' = b :: lent s /\ b ∉ lent s) /\
  (forall i b, host s = HIdle -> lent s !! i = Some b ->
     exists s1 s2, bstep (RecycleWrite i) s = Some s1 /\ bstep RecyclePublish s1 = Some s2 /\
       lent s2 = delete i (lent s) /\ br s2 = recycle (br s) b /\
       available s1 = available s /\ available s2 = available s ++ [b]).
Proof.
  intros Hn Hr. destruct (ring_new_ok _ _ _ _ _ Hn) as (k & -> & H0 & He & Hl).
  assert (exists h avail pend, binv k base size s h avail pend) as (h & avail & pend & H).
  { eapply (reach_invariant bstep (fun s => exists h avail pend, binv k base size s h avail pend));
      [by eexists _, _, _|apply bstep_inv|done]. }
  pose proof (binv_length _ _ _ _ _ _ _ H) as [Hlen Hp]. pose proof (binv_available _ _ _ _ _ _ _ H) as Ea. rewrite Ea. split_and!.
  - rewrite Hl. destruct (round_page_ok (2 ^ k * ENTRY_SIZE)) as [? ?]; [unfold ENTRY_SIZE; lia|]. lia.
  - rewrite Hl. by destruct (round_page_ok (2 ^ k * ENTRY_SIZE)) as [? ?]; [unfold ENTRY_SIZE; lia|].
  - exists pend. split; [apply H|]. pose proof (b_pend _ _ _ _ _ _ _ H) as Hpd. unfold in_progress in Hpd. destruct (host s); [by subst|]. by destruct Hpd as [b ->].
  - intros i b. apply (binv_records _ _ _ _ _ _ _ _ _ H).
  - apply (lend_enabled _ _ _ _ _ _ _ H).
  - intros s' Hst. destruct (lend_spec _ _ _ _ _ _ _ _ H Hst) as (b & rest & -> & Hl' & H').
    exists b. rewrite (binv_available _ _ _ _ _ _ _ H'). split; [done|]. split; [done|]. pose proof (NoDup_seqZ 0 (2 ^ k)) as Hnd.
    rewrite <- (b_all _ _ _ _ _ _ _ H) in Hnd. simpl in Hnd. apply NoDup_cons in Hnd as [Hnd _]. set_solver.
  - intros i b. apply (recycle_runs _ _ _ _ _ _ _ _ _ H).
Qed.

(** Four buffers, two of them lent, one recycled, and another one after it. *)
Lemma buffer_ring_sound_witness :
  exists r s, ring_new (Some 0) (Some 4096) true 4 2048 = Some (Ok r) /\
    run bstep [Lend; Lend; RecycleWrite 1; Lend; RecyclePublish] (mkSys r 0 [] HIdle) = Some s /\
    lent s = [2; 1] /\ available s = [3; 0] /\
    exists s1 s2, bstep (RecycleWrite 0) s = Some s1 /\ bstep RecyclePublish s1 = Some s2 /\ available s2 = [3; 0; 2].
Proof.
  eexists _, _. split; [vm_compute; reflexivity|]. split; [vm_compute; reflexivity|]. split; [reflexivity|]. split; [vm_compute; reflexivity|].
  edestruct (buffer_ring_sound 0 4096 4 2048) as (_ & _ & _ & _ & _ & H).
  - vm_compute. reflexivity.
  - eapply run_reach with (ls := [Lend; Lend; RecycleWrite 1; Lend; RecyclePublish]). vm_compute. reflexivity.
  - destruct (H 0%nat 2 eq_refl eq_refl) as (s1 & s2 & E1 & E2 & _ & _ & _ & Ea). exists s1, s2. split; [exact E1|]. split; [exact E2|]. rewrite Ea. vm_compute. reflexivity.
Defined.
