(* ===== verification/Standing.v ===== *)
(** * Per-source standing counters
    ([migration/dataplane/host/src/standing.rs])

    The process-wide store of connection counts and arrival windows, striped
    1024 ways by a keyed hash of the source address. Operations are the
    source's, stripe by stripe; a [u32] counter saturates where the source
    saturates and wraps where it uses [+= 1]. Times are nanoseconds, and
    [duration_since] saturates at zero. An out-of-range stripe index is a
    panic, [None].

    The first half shows that neither the striping nor the separate [total]
    can be observed: the store refines one map from source to count. The
    second half runs connections concurrently, one atomic operation or
    critical section at a time. *)
From S2P Require Import Prelude Bytes.

Local Open Scope Z_scope.

(** An address is its 32 or 128 bits, in network order. *)
Inductive IpAddr := V4 (a : Z) | V6 (a : Z).

#[export] Instance IpAddr_eq_dec : EqDecision IpAddr.
Proof. solve_decision. Defined.
#[export] Instance IpAddr_countable : Countable IpAddr.
Proof.
  apply (inj_countable' (fun i => match i with V4 a => inl a | V6 a => inr a end)
                        (fun s => match s with inl a => V4 a | inr a => V6 a end)).
  by intros [].
Defined.

Record RateWindow := mkWindow { rw_start : Z; rw_count : Z }.

Definition duration_since (now start : Z) : Z := saturating_sub now start.

Definition header_expired (timeout started now : Z) : bool :=
  negb (timeout =? 0) && (timeout <=? duration_since now started).

Definition STRIPES : nat := 1024.
Definition STRIPE_BITS : Z := 10.
Definition MAX_CONNS_CEILING : Z := 32768.

(** [cap_refusals] is the static [PROCESS_CAP_REFUSALS]. *)
Record SharedStanding := mkStanding {
  stripes : list (gmap IpAddr Z);
  rate_stripes : list (gmap IpAddr RateWindow);
  req_stripes : list (gmap IpAddr RateWindow);
  total : Z;
  seed : Z;
  cap_refusals : Z
}.

Definition SharedStanding_new (seed : Z) : SharedStanding :=
  mkStanding (replicate STRIPES ∅) (replicate STRIPES ∅) (replicate STRIPES ∅) 0 seed 0.

Definition folded (ip : IpAddr) : Z :=
  match ip with
  | V4 a => a
  | V6 a => Z.lxor (a / 2 ^ 64) (a mod 2 ^ 64)
  end.

Definition fib_index (key : Z) (ip : IpAddr) : nat :=
  Z.to_nat (Z.shiftr (wrapping_mul 64 (Z.lxor (folded ip) key) 0x9e3779b97f4a7c15)
                     (64 - STRIPE_BITS)).

Definition stripe_idx (s : SharedStanding) (ip : IpAddr) : nat := fib_index (seed s) ip.

Definition stripe (s : SharedStanding) (ip : IpAddr) : option (gmap IpAddr Z) :=
  stripes s !! stripe_idx s ip.
Definition rate_stripe (s : SharedStanding) (ip : IpAddr) : option (gmap IpAddr RateWindow) :=
  rate_stripes s !! stripe_idx s ip.
Definition req_stripe (s : SharedStanding) (ip : IpAddr) : option (gmap IpAddr RateWindow) :=
  req_stripes s !! stripe_idx s ip.

Definition set_stripe (s : SharedStanding) (ip : IpAddr) (g : gmap IpAddr Z) : SharedStanding :=
  mkStanding (<[stripe_idx s ip := g]> (stripes s)) (rate_stripes s) (req_stripes s) (total s)
             (seed s) (cap_refusals s).
Definition set_total (s : SharedStanding) (n : Z) : SharedStanding :=
  mkStanding (stripes s) (rate_stripes s) (req_stripes s) n (seed s) (cap_refusals s).
Definition set_rate (s : SharedStanding) (ip : IpAddr) (g : gmap IpAddr RateWindow) : SharedStanding :=
  mkStanding (stripes s) (<[stripe_idx s ip := g]> (rate_stripes s)) (req_stripes s) (total s)
             (seed s) (cap_refusals s).
Definition set_req (s : SharedStanding) (ip : IpAddr) (g : gmap IpAddr RateWindow) : SharedStanding :=
  mkStanding (stripes s) (rate_stripes s) (<[stripe_idx s ip := g]> (req_stripes s)) (total s)
             (seed s) (cap_refusals s).

(** ** Arrival windows *)

(** The critical section of [note_window]: the stripe after it, and the count
    before this arrival. *)
Definition note_window (g : gmap IpAddr RateWindow) (ip : IpAddr) (window now : Z) :
    gmap IpAddr RateWindow * Z :=
  let w := default (mkWindow now 0) (g !! ip) in
  let w := if window <=? duration_since now (rw_start w) then mkWindow now 0 else w in
  (<[ip := mkWindow (rw_start w) (saturating_add 32 (rw_count w) 1)]> g, rw_count w).

Definition req_note_prior (s : SharedStanding) (ip : IpAddr) (limit window now : Z) :
    option (SharedStanding * Z) :=
  if limit =? 0 then Some (s, 0)
  else g ← req_stripe s ip; let '(g', prior) := note_window g ip window now in
       Some (set_req s ip g', prior).

Definition window_count (g : gmap IpAddr RateWindow) (ip : IpAddr) (window now : Z) : Z :=
  match g !! ip with
  | Some w => if duration_since now (rw_start w) <? window then rw_count w else 0
  | None => 0
  end.

Definition req_count (s : SharedStanding) (ip : IpAddr) (window now : Z) : option Z :=
  g ← req_stripe s ip; Some (window_count g ip window now).

(** [note_window(..) + 1 > limit] wraps in release builds at [u32::MAX]. *)
Definition rate_note (s : SharedStanding) (ip : IpAddr) (limit window now : Z) :
    option (SharedStanding * bool) :=
  if limit =? 0 then Some (s, false)
  else g ← rate_stripe s ip; let '(g', prior) := note_window g ip window now in
       Some (set_rate s ip g', limit <? wrapping_add 32 prior 1).

Definition rate_count (s : SharedStanding) (ip : IpAddr) (window now : Z) : option Z :=
  g ← rate_stripe s ip; Some (window_count g ip window now).

Definition prune_stripe (window now : Z) (g : gmap IpAddr RateWindow) : gmap IpAddr RateWindow :=
  filter (fun kv => duration_since now (rw_start kv.2) < window) g.

Definition rate_prune (s : SharedStanding) (window now : Z) : SharedStanding :=
  mkStanding (stripes s) (prune_stripe window now <$> rate_stripes s)
             (prune_stripe window now <$> req_stripes s) (total s) (seed s) (cap_refusals s).

(** ** Connections

    [AdmittedIn] is the constructor [Admitted] of the source and [admit_source]
    its method [admit]. *)

Inductive Admission := AdmittedIn | OverSourceCap | AtProcessCap.

#[export] Instance Admission_eq_dec : EqDecision Admission.
Proof. solve_decision. Defined.

(** The critical sections on one stripe. *)
Definition admit_section (g : gmap IpAddr Z) (ip : IpAddr) (cap : Z) : option (gmap IpAddr Z) :=
  let n := default 0 (g !! ip) in
  if negb (cap =? 0) && (cap <=? n) then None
  else Some (<[ip := wrapping_add 32 n 1]> g).

Definition count_section (g : gmap IpAddr Z) (ip : IpAddr) (cap : Z) : gmap IpAddr Z * bool :=
  let n := default 0 (g !! ip) in
  (<[ip := saturating_add 32 n 1]> g, (cap =? 0) || (n <? cap)).

Definition close_section (g : gmap IpAddr Z) (ip : IpAddr) : gmap IpAddr Z * bool :=
  match g !! ip with
  | Some n =>
      let n' := saturating_sub n 1 in
      (if n' =? 0 then delete ip g else <[ip := n']> g, true)
  | None => (g, false)
  end.

(** The [fetch_update] closures on [total]. *)
Definition reserve (hard n : Z) : option Z :=
  if negb (hard =? 0) && (hard <=? n) then None else Some (n + 1).
Definition release (n : Z) : Z := saturating_sub n 1.

Definition admit_source (s : SharedStanding) (ip : IpAddr) (cap : Z) : option (SharedStanding * bool) :=
  g ← stripe s ip;
  match admit_section g ip cap with
  | None => Some (s, false)
  | Some g' => Some (set_total (set_stripe s ip g') (wrapping_add USIZE (total s) 1), true)
  end.

Definition count_source (s : SharedStanding) (ip : IpAddr) (cap : Z) :
    option (SharedStanding * bool) :=
  g ← stripe s ip;
  let '(g', admitted) := count_section g ip cap in Some (set_stripe s ip g', admitted).

Definition admit_counted (s : SharedStanding) (ip : IpAddr) (cap : Z) :
    option (SharedStanding * bool) :=
  count_source (set_total s (wrapping_add USIZE (total s) 1)) ip cap.

Definition enter_counted (s : SharedStanding) (ip : IpAddr) (cap hard : Z) :
    option (SharedStanding * Admission) :=
  match reserve hard (total s) with
  | None =>
      Some (mkStanding (stripes s) (rate_stripes s) (req_stripes s) (total s) (seed s)
                       (wrapping_add 64 (cap_refusals s) 1), AtProcessCap)
  | Some n =>
      '(s', admitted) ← count_source (set_total s n) ip cap;
      Some (s', if (admitted : bool) then AdmittedIn else OverSourceCap)
  end.

Definition total_active (s : SharedStanding) : Z := total s.

Definition on_close (s : SharedStanding) (ip : IpAddr) : option SharedStanding :=
  g ← stripe s ip;
  let '(g', decremented) := close_section g ip in
  let s1 := set_stripe s ip g' in
  Some (if (decremented : bool) then set_total s1 (release (total s1)) else s1).

Definition ConnGuard_drop (s : SharedStanding) (guard_ip : IpAddr) : option SharedStanding :=
  on_close s guard_ip.

Definition active (s : SharedStanding) (ip : IpAddr) : option Z :=
  g ← stripe s ip; Some (default 0 (g !! ip)).

(** [env] is the value of [DRORB_MAX_CONNS], when set. *)
Definition derive_process_conn_cap (env : option (list Z)) (fd_soft : Z) : Z :=
  let derived :=
    if fd_soft =? 0 then MAX_CONNS_CEILING
    else Z.max 256 (Z.min (fd_soft / 2) MAX_CONNS_CEILING) in
  match env with
  | Some v => match parse_uint USIZE v with Some n => n | None => derived end
  | None => derived
  end.

Arguments fib_index : simpl never.
Arguments STRIPES : simpl never.
Arguments wrapping_add : simpl never.
Arguments saturating_add : simpl never.

(** ** Striping *)

Lemma wrap_shift_bound x : (Z.to_nat (Z.shiftr (wrap 64 x) (64 - STRIPE_BITS)) < STRIPES)%nat.
Proof.
  pose proof (wrap_fits 64 ltac:(lia) x) as [H1 H2]. unfold STRIPE_BITS, STRIPES.
  rewrite Z.shiftr_div_pow2 by lia.
  assert (0 <= wrap 64 x / 2 ^ (64 - 10) < 1024).
  { split; [apply Z.div_pos; lia|]. apply Z.div_lt_upper_bound; lia. }
  lia.
Qed.

Lemma stripe_idx_lt s ip : (stripe_idx s ip < STRIPES)%nat.
Proof. apply wrap_shift_bound. Qed.
#[local] Opaque fib_index.

(** Reduce the record updates and nothing else. *)
Ltac st_simpl :=
  cbn [stripes rate_stripes req_stripes total seed cap_refusals set_stripe set_total set_rate set_req
       fst snd mbind option_bind default].

(** What a striped table represents: one map, each source in its own stripe. *)
Definition striped {V} (idx : IpAddr -> nat) (l : list (gmap IpAddr V)) (m : gmap IpAddr V) : Prop :=
  length l = STRIPES /\
  forall i g ip, l !! i = Some g -> g !! ip = if decide (i = idx ip) then m !! ip else None.

Section striped.
Context {V : Type} (idx : IpAddr -> nat) (Hidx : forall ip, (idx ip < STRIPES)%nat).
Implicit Types (l : list (gmap IpAddr V)) (m : gmap IpAddr V).

Lemma striped_empty : striped idx (replicate STRIPES ∅) (∅ : gmap IpAddr V).
Proof using.
  split; [apply length_replicate|]. intros i g ip [-> _]%lookup_replicate.
  rewrite !lookup_empty. by case_decide.
Qed.

Lemma striped_get l m ip : striped idx l m -> exists g, l !! idx ip = Some g /\ g !! ip = m !! ip.
Proof using Hidx.
  intros [Hl Hg]. destruct (lookup_lt_is_Some_2 l (idx ip)) as [g E]; [rewrite Hl; apply Hidx|].
  exists g. split; [done|]. rewrite (Hg _ _ _ E). by rewrite decide_True.
Qed.

(** An update of one source's entry in its stripe, at the other entries. *)
Lemma striped_set l m m' ip g g' :
  striped idx l m -> l !! idx ip = Some g -> g' !! ip = m' !! ip ->
  (forall j, j <> ip -> g' !! j = g !! j) -> (forall j, j <> ip -> m' !! j = m !! j) ->
  striped idx (<[idx ip := g']> l) m'.
Proof using.
  intros [Hl Hg] E Hip Hg' Hm'. split; [by rewrite length_insert|].
  intros i h j Hi. apply list_lookup_insert_Some in Hi as [(<- & <- & _)|(Hne & Hi)].
  - destruct (decide (j = ip)) as [->|Hj]; [by rewrite decide_True|].
    rewrite Hg', Hm' by done. by apply Hg.
  - rewrite (Hg _ _ _ Hi). destruct (decide (j = ip)) as [->|Hj]; [|by rewrite Hm'].
    by rewrite !decide_False.
Qed.

Lemma striped_insert l m ip g v :
  striped idx l m -> l !! idx ip = Some g -> striped idx (<[idx ip := <[ip := v]> g]> l) (<[ip := v]> m).
Proof using.
  intros Hs E. eapply striped_set; [done..| | |]; intros; by rewrite ?lookup_insert_eq, ?lookup_insert_ne.
Qed.

Lemma striped_delete l m ip g :
  striped idx l m -> l !! idx ip = Some g -> striped idx (<[idx ip := delete ip g]> l) (delete ip m).
Proof using.
  intros Hs E. eapply striped_set; [done..| | |]; intros; by rewrite ?lookup_delete_eq, ?lookup_delete_ne.
Qed.
End striped.

(** ** The abstract store: one map from source to connection count *)

Definition map_sum (m : gmap IpAddr Z) : Z := map_fold (fun _ n acc => n + acc) 0 m.

Arguments map_sum : simpl never.

Lemma map_sum_insert m ip n : m !! ip = None -> map_sum (<[ip := n]> m) = n + map_sum m.
Proof. intros H. unfold map_sum. rewrite map_fold_insert_L; [done| |done]. intros. lia. Qed.

Lemma map_sum_delete m ip n : m !! ip = Some n -> map_sum m = n + map_sum (delete ip m).
Proof. intros H. unfold map_sum. rewrite (map_fold_delete_L _ _ ip n); [done| |done]. intros. lia. Qed.

Lemma map_sum_update m ip n : map_sum (<[ip := n]> m) = map_sum m - default 0 (m !! ip) + n.
Proof.
  destruct (m !! ip) as [k|] eqn:E; simpl.
  - rewrite (map_sum_delete m ip k E), <- insert_delete_eq, map_sum_insert by apply lookup_delete_eq.
    lia.
  - rewrite map_sum_insert by done. lia.
Qed.

Lemma map_sum_nonneg m : (forall ip n, m !! ip = Some n -> 1 <= n) -> 0 <= map_sum m.
Proof.
  induction m as [|ip n m Hm IH] using map_ind; intros H; [done|].
  rewrite map_sum_insert by done.
  assert (1 <= n) by (apply (H ip), lookup_insert_eq).
  assert (0 <= map_sum m); [|lia]. apply IH. intros j k Hj. apply (H j).
  rewrite lookup_insert_ne; [done|]. congruence.
Qed.

Definition count_of (m : gmap IpAddr Z) (ip : IpAddr) : Z := default 0 (m !! ip).

Definition bump (m : gmap IpAddr Z) (ip : IpAddr) : gmap IpAddr Z := <[ip := count_of m ip + 1]> m.

(** The proven admission rule: no cap, or strictly under it. *)
Definition admits (cap n : Z) : bool := (cap =? 0) || (n <? cap).

Inductive StOp :=
  | OpAdmit (ip : IpAddr) (cap : Z)
  | OpAdmitCounted (ip : IpAddr) (cap : Z)
  | OpEnter (ip : IpAddr) (cap hard : Z)
  | OpClose (ip : IpAddr)
  | OpActive (ip : IpAddr)
  | OpTotal.

Inductive StOut := OutBool (b : bool) | OutAdmission (a : Admission) | OutCount (n : Z) | OutUnit.

Definition spec_op (m : gmap IpAddr Z) (op : StOp) : gmap IpAddr Z * StOut :=
  match op with
  | OpAdmit ip cap =>
      if admits cap (count_of m ip) then (bump m ip, OutBool true) else (m, OutBool false)
  | OpAdmitCounted ip cap => (bump m ip, OutBool (admits cap (count_of m ip)))
  | OpEnter ip cap hard =>
      if admits hard (map_sum m)
      then (bump m ip, OutAdmission (if admits cap (count_of m ip) then AdmittedIn else OverSourceCap))
      else (m, OutAdmission AtProcessCap)
  | OpClose ip =>
      (if count_of m ip <=? 1 then delete ip m else <[ip := count_of m ip - 1]> m, OutUnit)
  | OpActive ip => (m, OutCount (count_of m ip))
  | OpTotal => (m, OutCount (map_sum m))
  end.

Definition standing_op (s : SharedStanding) (op : StOp) : option (SharedStanding * StOut) :=
  match op with
  | OpAdmit ip cap => '(s', b) ← admit_source s ip cap; Some (s', OutBool b)
  | OpAdmitCounted ip cap => '(s', b) ← admit_counted s ip cap; Some (s', OutBool b)
  | OpEnter ip cap hard => '(s', a) ← enter_counted s ip cap hard; Some (s', OutAdmission a)
  | OpClose ip => s' ← on_close s ip; Some (s', OutUnit)
  | OpActive ip => n ← active s ip; Some (s, OutCount n)
  | OpTotal => Some (s, OutCount (total_active s))
  end.

Fixpoint spec_run (m : gmap IpAddr Z) (ops : list StOp) : gmap IpAddr Z * list StOut :=
  match ops with
  | [] => (m, [])
  | op :: ops' =>
      let '(m1, o) := spec_op m op in
      let '(m2, os) := spec_run m1 ops' in (m2, o :: os)
  end.

Fixpoint standing_run (s : SharedStanding) (ops : list StOp) : option (SharedStanding * list StOut) :=
  match ops with
  | [] => Some (s, [])
  | op :: ops' =>
      '(s1, o) ← standing_op s op; '(s2, os) ← standing_run s1 ops'; Some (s2, o :: os)
  end.

(** [k] bounds the operations so far, so no counter has saturated. *)
Record st_rep (k : Z) (s : SharedStanding) (m : gmap IpAddr Z) : Prop := {
  sr_striped : striped (stripe_idx s) (stripes s) m;
  sr_counts : forall ip n, m !! ip = Some n -> 1 <= n <= k;
  sr_total : total s = map_sum m;
  sr_sum : 0 <= map_sum m <= k
}.

Lemma count_of_bound k s m ip : 0 <= k -> st_rep k s m -> 0 <= count_of m ip <= k.
Proof.
  intros Hk H. unfold count_of. destruct (m !! ip) as [n|] eqn:E; simpl; [|lia].
  pose proof (sr_counts k s m H ip n E). lia.
Qed.

Lemma rep_bump k s m ip g t :
  0 <= k -> st_rep k s m -> stripe s ip = Some g -> t = map_sum m + 1 ->
  st_rep (k + 1) (set_total (set_stripe s ip (<[ip := count_of m ip + 1]> g)) t) (bump m ip).
Proof.
  intros Hk H Hg ->. pose proof (count_of_bound k s m ip Hk H) as Hc. destruct H as [Hs Hn Ht Hm].
  assert (map_sum (bump m ip) = map_sum m + 1) as Hsum.
  { unfold bump. rewrite map_sum_update. unfold count_of. lia. }
  split; st_simpl.
  - by apply striped_insert.
  - unfold bump. intros j n [[<- <-]|[_ Hj]]%lookup_insert_Some; [lia|]. specialize (Hn j n Hj). lia.
  - done.
  - lia.
Qed.

Lemma rep_get k s m ip :
  st_rep k s m -> exists g, stripe s ip = Some g /\ default 0 (g !! ip) = count_of m ip /\ g !! ip = m !! ip.
Proof.
  intros H. destruct (striped_get (stripe_idx s) (stripe_idx_lt s) _ m ip (sr_striped k s m H)) as (g & E & Hg).
  exists g. split; [done|]. unfold count_of. by rewrite Hg.
Qed.

Lemma admits_negb cap n : negb (cap =? 0) && (cap <=? n) = negb (admits cap n).
Proof. unfold admits. destruct (cap =? 0); simpl; [done|]. apply Z.leb_antisym. Qed.

Lemma rep_mono k s m : st_rep k s m -> st_rep (k + 1) s m.
Proof. intros [Hs Hn Ht Hm]. split; [done| |done|lia]. intros ip n E. specialize (Hn ip n E). lia. Qed.

Lemma set_total_stripe s ip g t : set_stripe (set_total s t) ip g = set_total (set_stripe s ip g) t.
Proof. done. Qed.

Lemma rep_conn_close k s m ip g :
  0 <= k -> st_rep k s m -> stripe s ip = Some g -> g !! ip = m !! ip ->
  exists s', on_close s ip = Some s' /\ st_rep k s' (spec_op m (OpClose ip)).1.
Proof.
  intros Hk H Hg Hgm. destruct H as [Hs Hn Ht Hm]. unfold on_close. rewrite Hg. simpl.
  unfold close_section, count_of. rewrite Hgm. destruct (m !! ip) as [n|] eqn:E; simpl.
  - specialize (Hn ip n E) as Hn1. pose proof (map_sum_delete m ip n E) as Hd.
    assert (0 <= map_sum (delete ip m)).
    { apply map_sum_nonneg. intros j x [_ Hj]%lookup_delete_Some. specialize (Hn j x Hj). lia. }
    unfold saturating_sub. rewrite Z.max_r by lia. eexists. split; [done|].
    destruct (n - 1 =? 0) eqn:E1, (n <=? 1) eqn:E2; zify_bool; try lia; split; st_simpl.
    + by apply striped_delete.
    + intros j x [_ Hj]%lookup_delete_Some. by eapply Hn.
    + rewrite Ht. unfold release, saturating_sub. rewrite Z.max_r by lia. lia.
    + assert (0 <= map_sum (delete ip m)) by lia. lia.
    + by apply striped_insert.
    + intros j x [[<- <-]|[_ Hj]]%lookup_insert_Some; [lia|]. by eapply Hn.
    + rewrite Ht, map_sum_update, E. unfold release, saturating_sub. simpl. rewrite Z.max_r; lia.
    + rewrite map_sum_update, E. simpl. lia.
  - eexists. split; [done|]. rewrite delete_id by done. split; st_simpl; try done.
    replace (<[stripe_idx s ip := g]> (stripes s)) with (stripes s); [done|].
    by rewrite list_insert_id.
Qed.

Lemma add32_exact k n : 0 <= n <= k -> k < 2 ^ 32 - 1 ->
  wrapping_add 32 n 1 = n + 1 /\ saturating_add 32 n 1 = n + 1.
Proof.
  intros Hn Hk. unfold wrapping_add, wrap, saturating_add, max_uint.
  rewrite Z.mod_small, Z.min_l by lia. done.
Qed.

Lemma add64_exact k n : 0 <= n <= k -> k < 2 ^ 32 - 1 -> wrapping_add USIZE n 1 = n + 1.
Proof. intros Hn Hk. unfold wrapping_add, wrap, USIZE. rewrite Z.mod_small; lia. Qed.

(** Every operation on the striped store is the operation on the one map. *)
Lemma standing_op_rep k s m op :
  0 <= k < 2 ^ 32 - 1 -> st_rep k s m ->
  exists s', standing_op s op = Some (s', (spec_op m op).2) /\ st_rep (k + 1) s' (spec_op m op).1.
Proof.
  intros Hk H. pose proof (sr_sum k s m H) as Hsum. pose proof (sr_total k s m H) as Ht.
  destruct op as [ip cap|ip cap|ip cap hard|ip|ip|].
  1-5: destruct (rep_get k s m ip H) as (g & Hg & Hc & Hgm);
    pose proof (count_of_bound k s m ip ltac:(lia) H) as Hb;
    pose proof (add64_exact k (total s) ltac:(lia) ltac:(lia)) as H64;
    destruct (add32_exact k (count_of m ip) Hb ltac:(lia)) as [Hw32 Hs32].
  - unfold standing_op, spec_op, admit_source, admit_section. rewrite Hg. st_simpl. rewrite Hc, admits_negb.
    destruct (admits cap (count_of m ip)); simpl negb; cbv iota; eexists; (split; [done|]).
    + rewrite Hw32, H64. apply rep_bump; lia || done.
    + by apply rep_mono.
  - unfold standing_op, spec_op, admit_counted, count_source.
    change (stripe (set_total s _) ip) with (stripe s ip). rewrite Hg. unfold count_section. st_simpl.
    rewrite Hc. eexists. split; [done|]. rewrite Hs32, H64, set_total_stripe. apply rep_bump; lia || done.
  - unfold standing_op, spec_op, enter_counted, reserve, count_source. rewrite Ht, admits_negb.
    destruct (admits hard (map_sum m)); cbv beta iota delta [negb].
    + change (stripe (set_total s _) ip) with (stripe s ip). rewrite Hg. unfold count_section. st_simpl.
      rewrite Hc. eexists. split; [done|]. rewrite Hs32, set_total_stripe. apply rep_bump; lia || done.
    + eexists. split; [done|]. destruct H as [Hst Hn Ht' Hs']. split; st_simpl; [done| |done|lia].
      intros j n Hj. specialize (Hn j n Hj). lia.
  - destruct (rep_conn_close k s m ip g ltac:(lia) H Hg Hgm) as (s' & Hs' & Hr).
    exists s'. unfold standing_op. rewrite Hs'. split; [done|]. by apply rep_mono.
  - exists s. unfold standing_op, active. rewrite Hg. st_simpl. rewrite Hc. split; [done|]. by apply rep_mono.
  - exists s. unfold standing_op, total_active. rewrite Ht. split; [done|]. by apply rep_mono.
Qed.

Lemma standing_run_rep ops : forall k s m,
  0 <= k -> k + Z.of_nat (length ops) < 2 ^ 32 -> st_rep k s m ->
  exists s', standing_run s ops = Some (s', (spec_run m ops).2) /\
             st_rep (k + Z.of_nat (length ops)) s' (spec_run m ops).1.
Proof.
  induction ops as [|op ops IH]; intros k s m Hk Hl H.
  { exists s. simpl. rewrite Z.add_0_r. by split. }
  cbn [length] in *.
  destruct (standing_op_rep k s m op ltac:(lia) H) as (s1 & Ho & H1).
  destruct (IH (k + 1) s1 _ ltac:(lia) ltac:(lia) H1) as (s2 & Hr & H2).
  exists s2. cbn [standing_run spec_run]. rewrite Ho. cbn [mbind option_bind]. rewrite Hr.
  cbn [mbind option_bind].
  destruct (spec_op m op) as [m1 o], (spec_run m1 ops) as [m2 os] eqn:E. cbn [fst snd] in *.
  rewrite E in *. cbn [fst snd] in *. split; [done|].
  by replace (k + Z.of_nat (S (length ops))) with (k + 1 + Z.of_nat (length ops)) by lia.
Qed.

Lemma st_new_rep key : st_rep 0 (SharedStanding_new key) ∅.
Proof. split; st_simpl; [apply striped_empty| |done|done]. intros ip n Hn. by rewrite lookup_empty in Hn. Qed.

(** C16. The striped store is one per-process map: whatever the stripe key,
    any sequence of admissions (blocking or sharded, with the process ceiling),
    closes and reads answers exactly as a single map from source to count
    does, the reported total being the sum of the per-source counts at every
    point. *)
Theorem standing_refines_single_map (key : Z) (ops : list StOp) :
  Z.of_nat (length ops) < 2 ^ 32 ->
  exists s', standing_run (SharedStanding_new key) ops = Some (s', (spec_run ∅ ops).2) /\
             total_active s' = map_sum (spec_run ∅ ops).1.
Proof.
  intros Hl. destruct (standing_run_rep ops 0 _ ∅ ltac:(lia) ltac:(lia) (st_new_rep key)) as (s' & Hr & H).
  exists s'. split; [done|]. apply (sr_total _ _ _ H).
Qed.

Definition sample_ops : list StOp :=
  [OpEnter (V4 1) 1 2; OpEnter (V4 1) 1 2; OpEnter (V4 2) 1 2; OpClose (V4 1); OpActive (V4 1);
   OpEnter (V4 2) 1 2; OpClose (V4 9); OpTotal].

Lemma standing_refines_single_map_witness :
  exists s', standing_run (SharedStanding_new 0x1234567) sample_ops = Some (s',
    [OutAdmission AdmittedIn; OutAdmission OverSourceCap; OutAdmission AtProcessCap; OutUnit;
     OutCount 1; OutAdmission AdmittedIn; OutUnit; OutCount 2]).
Proof.
  destruct (standing_refines_single_map 0x1234567 sample_ops) as (s' & H & _); [reflexivity|].
  exists s'. exact H.
Defined.

(** ** Arrival windows *)

Lemma note_window_other g ip j window now :
  j <> ip -> (note_window g ip window now).1 !! j = g !! j.
Proof. intros Hj. unfold note_window. cbn [fst]. by rewrite lookup_insert_ne. Qed.

(** An arrival inside the open window, or the first one. *)
Lemma note_window_open g ip window now :
  match g !! ip with Some w => duration_since now (rw_start w) < window | None => 0 < window end ->
  let w := default (mkWindow now 0) (g !! ip) in
  note_window g ip window now =
    (<[ip := mkWindow (rw_start w) (saturating_add 32 (rw_count w) 1)]> g, rw_count w).
Proof.
  intros H w. unfold note_window. fold w.
  replace (window <=? duration_since now (rw_start w)) with false; [done|].
  symmetry. apply Z.leb_gt. subst w. destruct (g !! ip); [done|]. simpl.
  unfold duration_since, saturating_sub. lia.
Qed.

(** The accept gate over a sequence of arrivals: who was let through. *)
Fixpoint rate_run (s : SharedStanding) (limit window : Z) (evs : list (IpAddr * Z)) :
    option (SharedStanding * list (IpAddr * bool)) :=
  match evs with
  | [] => Some (s, [])
  | (ip, now) :: evs' =>
      '(s1, over) ← rate_note s ip limit window now;
      '(s2, rest) ← rate_run s1 limit window evs'; Some (s2, (ip, negb over) :: rest)
  end.

Definition passed_from (ip : IpAddr) (e : IpAddr * bool) : bool := bool_decide (e.1 = ip) && e.2.
Definition arrival_from (ip : IpAddr) (e : IpAddr * Z) : bool := bool_decide (e.1 = ip).

(** [n] arrivals of [ip] are counted in a window that opened in [t0, t0 + window). *)
Definition window_rep (s : SharedStanding) (ip : IpAddr) (t0 window n : Z) : Prop :=
  length (rate_stripes s) = STRIPES /\
  exists g, rate_stripe s ip = Some g /\
    match g !! ip with
    | Some w => t0 <= rw_start w < t0 + window /\ rw_count w = n
    | None => n = 0
    end.

Lemma rate_note_rep s ip j limit window now t0 n :
  0 < limit < 2 ^ 32 -> 0 <= n < 2 ^ 32 - 1 -> window_rep s ip t0 window n ->
  (j = ip -> t0 <= now < t0 + window) ->
  exists s' over, rate_note s j limit window now = Some (s', over) /\
    (j = ip -> over = (limit <? n + 1)) /\
    window_rep s' ip t0 window (if bool_decide (j = ip) then n + 1 else n).
Proof.
  intros Hlim Hn [Hlen (g & Hg & Hw)] Hnow. unfold rate_note.
  rewrite (proj2 (Z.eqb_neq limit 0)) by lia.
  destruct (lookup_lt_is_Some_2 (rate_stripes s) (stripe_idx s j)) as [gj Hgj];
    [rewrite Hlen; apply stripe_idx_lt|].
  change (rate_stripe s j) with (rate_stripes s !! stripe_idx s j). rewrite Hgj. cbn [mbind option_bind].
  case_bool_decide as Hj.
  - subst j. specialize (Hnow eq_refl). unfold rate_stripe in Hg. simplify_eq.
    rewrite note_window_open by (destruct (g !! ip); unfold duration_since, saturating_sub; lia).
    eexists _, _. split; [done|].
    assert (rw_count (default (mkWindow now 0) (g !! ip)) = n) as Hc by (destruct (g !! ip); simpl; lia).
    destruct (add32_exact n n ltac:(lia) ltac:(lia)) as [H1 H2]. rewrite Hc, H1, H2. split; [done|].
    split; [unfold set_rate; st_simpl; by rewrite length_insert|].
    eexists. unfold rate_stripe, set_rate, stripe_idx. st_simpl.
    rewrite list_lookup_insert_eq by (by eapply lookup_lt_Some). split; [done|].
    rewrite lookup_insert_eq. simpl. split; [|done]. destruct (g !! ip); simpl; lia.
  - destruct (note_window gj j window now) as [g' p] eqn:En. eexists _, _. split; [done|].
    split; [done|]. split; [unfold set_rate; st_simpl; by rewrite length_insert|].
    unfold rate_stripe, set_rate, stripe_idx in *. st_simpl.
    destruct (decide (fib_index (seed s) j = fib_index (seed s) ip)) as [E|E].
    + rewrite E, list_lookup_insert_eq by (rewrite Hlen; apply stripe_idx_lt). eexists. split; [done|].
      rewrite E in Hgj. simplify_eq. pose proof (note_window_other g j ip window now ltac:(congruence)) as Ho.
      rewrite En in Ho. simpl in Ho. by rewrite Ho.
    + rewrite list_lookup_insert_ne by done. by exists g.
Qed.

Lemma rate_run_rep ip limit window t0 evs : forall s n,
  0 < limit < 2 ^ 32 -> 0 <= n -> n + Z.of_nat (length evs) < 2 ^ 32 ->
  window_rep s ip t0 window n ->
  (forall t, (ip, t) ∈ evs -> t0 <= t < t0 + window) ->
  exists s' outs, rate_run s limit window evs = Some (s', outs) /\
    count (passed_from ip) outs =
      Z.min limit (n + count (arrival_from ip) evs) - Z.min limit n.
Proof.
  induction evs as [|[j now] evs IH]; intros s n Hl Hn Hlen Hw Ht.
  { exists s, []. simpl. split; [done|lia]. }
  cbn [length] in Hlen.
  destruct (rate_note_rep s ip j limit window now t0 n) as (s1 & over & H1 & Ho & Hw1); try done; try lia.
  { intros ->. apply Ht. set_solver. }
  destruct (IH s1 (if bool_decide (j = ip) then n + 1 else n)) as (s2 & outs & H2 & Hc); try done.
  { case_bool_decide; lia. } { case_bool_decide; lia. } { intros t Hin. apply Ht. set_solver. }
  exists s2, ((j, negb over) :: outs). cbn [rate_run]. rewrite H1. cbn [mbind option_bind]. rewrite H2.
  split; [done|]. cbn [count]. rewrite Hc. unfold passed_from, arrival_from. cbn [fst snd].
  case_bool_decide as Hj; [|simpl; lia]. rewrite (Ho Hj).
  destruct (limit <? n + 1) eqn:E; zify_bool; simpl; lia.
Qed.

(** The rate gate admits exactly [limit] arrivals per window and source:
    whatever else arrives in between from other sources, of the arrivals of
    one source that fall within one window of each other exactly
    [min limit n] pass. *)
Theorem rate_limit_exact (key limit window t0 : Z) (ip : IpAddr) (evs : list (IpAddr * Z)) :
  0 < limit < 2 ^ 32 -> Z.of_nat (length evs) < 2 ^ 32 ->
  (forall t, (ip, t) ∈ evs -> t0 <= t < t0 + window) ->
  exists s' outs, rate_run (SharedStanding_new key) limit window evs = Some (s', outs) /\
    count (passed_from ip) outs = Z.min limit (count (arrival_from ip) evs).
Proof.
  intros Hl Hlen Ht.
  destruct (rate_run_rep ip limit window t0 evs (SharedStanding_new key) 0) as (s' & outs & Hr & Hc);
    try done; try lia.
  - split; [apply length_replicate|]. exists ∅. split; [|by rewrite lookup_empty].
    apply lookup_replicate_2, stripe_idx_lt.
  - exists s', outs. split; [done|]. rewrite Hc. lia.
Qed.

Lemma rate_limit_exact_witness :
  exists s' outs, rate_run (SharedStanding_new 99) 2 1000
      [(V4 1, 0); (V4 2, 10); (V4 1, 20); (V4 1, 900); (V4 2, 5000)] = Some (s', outs) /\
    count (passed_from (V4 1)) outs = 2.
Proof.
  apply (rate_limit_exact 99 2 1000 0 (V4 1)
           [(V4 1, 0); (V4 2, 10); (V4 1, 20); (V4 1, 900); (V4 2, 5000)]); [lia|simpl; lia|].
  intros t Ht. repeat (apply elem_of_cons in Ht as [E|Ht]; [try discriminate E; injection E as ->; lia|]).
  inversion Ht.
Defined.

(** Pruning cannot be observed: reclaiming the windows that have elapsed
    changes no later decision of the accept gate, no later reading of the
    request gate and no later count. *)
Theorem rate_prune_invisible (s : SharedStanding) (ip : IpAddr) (limit window t t' : Z) :
  t <= t' ->
  (snd <$> rate_note (rate_prune s window t) ip limit window t') = (snd <$> rate_note s ip limit window t') /\
  (snd <$> req_note_prior (rate_prune s window t) ip limit window t') =
    (snd <$> req_note_prior s ip limit window t') /\
  rate_count (rate_prune s window t) ip window t' = rate_count s ip window t' /\
  req_count (rate_prune s window t) ip window t' = req_count s ip window t'.
Proof.
  intros Ht.
  assert (forall g, (note_window (prune_stripe window t g) ip window t').2 = (note_window g ip window t').2 /\
                    window_count (prune_stripe window t g) ip window t' = window_count g ip window t') as Hg.
  { intros g. unfold note_window, window_count, prune_stripe. cbn [snd].
    destruct (g !! ip) as [w|] eqn:E; [|by rewrite map_lookup_filter, E].
    destruct (decide (duration_since t (rw_start w) < window)) as [Hd|Hd].
    { by rewrite (proj2 (map_lookup_filter_Some _ _ _ _) (conj E Hd)). }
    rewrite (proj2 (map_lookup_filter_None _ _ _)) by (right; naive_solver).
    unfold default, id. cbn [rw_start rw_count]. unfold duration_since, saturating_sub in *.
    rewrite (proj2 (Z.leb_le window (Z.max 0 (t' - rw_start w)))) by lia.
    rewrite (proj2 (Z.ltb_ge (Z.max 0 (t' - rw_start w)) window)) by lia. by case_match. }
  unfold rate_note, req_note_prior, rate_count, req_count, rate_stripe, req_stripe.
  unfold rate_prune, stripe_idx. st_simpl. rewrite !list_lookup_fmap.
  destruct (rate_stripes s !! _) as [g1|], (req_stripes s !! _) as [g2|];
    destruct (limit =? 0); cbn [fmap option_fmap option_map mbind option_bind];
    repeat split; try done;
    repeat match goal with
    | |- context [note_window (prune_stripe window t ?g) _ _ _] =>
        pose proof (proj1 (Hg g)); destruct (note_window (prune_stripe _ _ g) _ _ _), (note_window g _ _ _)
    | |- context [window_count (prune_stripe window t ?g) _ _ _] => rewrite (proj2 (Hg g))
    end; simpl in *; by simplify_eq.
Qed.

Lemma rate_prune_invisible_witness :
  (snd <$> rate_note (rate_prune (SharedStanding_new 5) 10 100) (V4 3) 1 10 100) = Some false.
Proof. exact (proj1 (rate_prune_invisible (SharedStanding_new 5) (V4 3) 1 10 100 100 ltac:(lia))). Defined.

(** The rate gate fails open on a saturated window: with the count at
    [u32::MAX] the post-increment [prior + 1] wraps to zero in a build without
    overflow checks, and the arrival is let through whatever the limit. *)
Theorem rate_note_wraps_at_max (s : SharedStanding) (g : gmap IpAddr RateWindow) (w : RateWindow)
    (ip : IpAddr) (limit window now : Z) :
  rate_stripe s ip = Some g -> g !! ip = Some w -> rw_count w = 2 ^ 32 - 1 ->
  duration_since now (rw_start w) < window -> 0 < limit ->
  exists s', rate_note s ip limit window now = Some (s', false).
Proof.
  intros Hg Hw Hc Hd Hl. unfold rate_note. rewrite (proj2 (Z.eqb_neq limit 0)) by lia. rewrite Hg.
  cbn [mbind option_bind]. rewrite note_window_open by (by rewrite Hw). rewrite Hw. cbn [default].
  unfold id. rewrite Hc. eexists. do 2 f_equal. apply Z.ltb_ge.
  change (wrapping_add 32 (2 ^ 32 - 1) 1) with 0. lia.
Qed.

Definition saturated : SharedStanding :=
  set_rate (SharedStanding_new 7) (V4 1) {[ V4 1 := mkWindow 0 (2 ^ 32 - 1) ]}.

Lemma rate_note_wraps_at_max_witness :
  exists s', rate_note saturated (V4 1) 3 1000 10 = Some (s', false).
Proof.
  apply (rate_note_wraps_at_max saturated {[ V4 1 := mkWindow 0 (2 ^ 32 - 1) ]} (mkWindow 0 (2 ^ 32 - 1)));
    [vm_compute; reflexivity|vm_compute; reflexivity|reflexivity|vm_compute; reflexivity|lia].
Defined.

(** ** Concurrent accepts and closes

    The shard reactors' connections, each entering through [enter_counted]
    (the reservation on [total], then the stripe's critical section) and
    leaving through [on_close] (the critical section, then the release). *)
Section shards.
Context (cap hard : Z).

Inductive Conn :=
  | Gone
  | Reserved (ip : IpAddr)               (* total reserved, source not yet counted *)
  | Live (ip : IpAddr) (served : bool)   (* in the slab; [served]: admitted by the source gate *)
  | Leaving (decremented : bool).        (* source uncounted, total not yet released *)

Record Shards := mkShards { store : SharedStanding; conns : list Conn }.

Inductive SLabel := SEnter (i : nat) (ip : IpAddr) | SStep (i : nat) | SClose (i : nat).

Definition shard_step (l : SLabel) (s : Shards) : option Shards :=
  match l with
  | SEnter i ip =>
      match conns s !! i with
      | Some Gone =>
          match reserve hard (total (store s)) with
          | None => Some s
          | Some n => Some (mkShards (set_total (store s) n) (<[i := Reserved ip]> (conns s)))
          end
      | _ => None
      end
  | SStep i =>
      match conns s !! i with
      | Some (Reserved ip) =>
          '(st, admitted) ← count_source (store s) ip cap;
          Some (mkShards st (<[i := Live ip admitted]> (conns s)))
      | Some (Leaving d) =>
          Some (mkShards (if (d : bool) then set_total (store s) (release (total (store s))) else store s)
                         (<[i := Gone]> (conns s)))
      | _ => None
      end
  | SClose i =>
      match conns s !! i with
      | Some (Live ip _) =>
          g ← stripe (store s) ip;
          let '(g', d) := close_section g ip in
          Some (mkShards (set_stripe (store s) ip g') (<[i := Leaving d]> (conns s)))
      | _ => None
      end
  end.

Definition shards_init (key : Z) (n : nat) : Shards :=
  mkShards (SharedStanding_new key) (replicate n Gone).

Definition occupied (c : Conn) : bool := match c with Gone => false | _ => true end.
Definition live_from (ip : IpAddr) (c : Conn) : bool :=
  match c with Live j _ => bool_decide (j = ip) | _ => false end.
Definition served_from (ip : IpAddr) (c : Conn) : bool :=
  match c with Live j b => bool_decide (j = ip) && b | _ => false end.
Definition unreleased (c : Conn) : bool := match c with Leaving false => true | _ => false end.

Record shards_inv (s : Shards) : Prop := {
  si_rep : exists m, striped (stripe_idx (store s)) (stripes (store s)) m /\
    (forall ip n, m !! ip = Some n -> 1 <= n) /\
    (forall ip, count_of m ip = count (live_from ip) (conns s));
  si_total : total (store s) = count occupied (conns s);
  si_hard : hard <> 0 -> 0 <= hard -> total (store s) <= hard;
  si_cap : cap <> 0 -> 0 <= cap -> forall ip, count (served_from ip) (conns s) <= cap;
  si_exact : count unreleased (conns s) = 0
}.

Lemma served_le_live ip cs : count (served_from ip) cs <= count (live_from ip) cs.
Proof.
  induction cs as [|c cs IH]; simpl; [done|]. destruct c as [| |j []|]; simpl; try lia;
    case_bool_decide; simpl; lia.
Qed.

Lemma shards_init_inv key n : shards_inv (shards_init key n).
Proof using.
  split; st_simpl.
  - exists ∅. split; [apply striped_empty|]. split; [intros ip k Hk; by rewrite lookup_empty in Hk|].
    intros ip. simpl conns. by rewrite count_replicate.
  - simpl conns. by rewrite count_replicate.
  - done.
  - intros _ Hc ip. simpl conns. by rewrite count_replicate.
  - simpl conns. by rewrite count_replicate.
Qed.

(** Moves of connection [i] that change no live count, and keep or drop what
    it occupies. *)
Lemma conns_move s st i c c' :
  shards_inv s -> conns s !! i = Some c ->
  stripes st = stripes (store s) -> seed st = seed (store s) ->
  (forall ip, live_from ip c = live_from ip c') -> (forall ip, served_from ip c = served_from ip c') ->
  unreleased c = false -> unreleased c' = false ->
  total st = total (store s) - (if occupied c then 1 else 0) + (if occupied c' then 1 else 0) ->
  (hard <> 0 -> 0 <= hard -> total st <= hard) ->
  shards_inv (mkShards st (<[i := c']> (conns s))).
Proof using.
  intros [Hrep Ht Hh Hc Hx] Hi Hst Hsd Hl Hs Hu Hu' Htot Hhard.
  assert (forall p, p c = p c' -> count p (<[i := c']> (conns s)) = count p (conns s)) as Heq.
  { intros p Hp. rewrite (count_insert p _ _ _ _ Hi), Hp. lia. }
  split; cbn [store conns].
  - destruct Hrep as (m & Hm & Hn & Hct). exists m. unfold stripe_idx. rewrite Hst, Hsd.
    split; [done|]. split; [done|]. intros ip. by rewrite Heq.
  - by rewrite (count_insert _ _ _ _ _ Hi), Htot, Ht.
  - done.
  - intros H1 H2 ip. rewrite Heq by done. by apply Hc.
  - rewrite Heq; [done|]. by rewrite Hu, Hu'.
Qed.

Lemma enter_inv s i ip n :
  shards_inv s -> conns s !! i = Some Gone -> reserve hard (total (store s)) = Some n ->
  shards_inv (mkShards (set_total (store s) n) (<[i := Reserved ip]> (conns s))).
Proof using.
  intros H Hi Hr. unfold reserve in Hr. rewrite admits_negb in Hr. unfold admits in Hr.
  destruct ((hard =? 0) || (total (store s) <? hard)) eqn:E; simplify_eq/=.
  eapply conns_move; try done; [simpl; lia|]. intros H0 _. st_simpl.
  apply orb_true_iff in E as [E|E]; zify_bool; [done|lia].
Qed.

Lemma count_step_inv s i ip st b :
  Z.of_nat (length (conns s)) < 2 ^ 32 ->
  shards_inv s -> conns s !! i = Some (Reserved ip) -> count_source (store s) ip cap = Some (st, b) ->
  shards_inv (mkShards st (<[i := Live ip b]> (conns s))).
Proof using.
  intros Hlen [Hrep Ht Hh Hc Hx] Hi Hcs. destruct Hrep as (m & Hm & Hn & Hct).
  destruct (striped_get _ (stripe_idx_lt (store s)) _ m ip Hm) as (g & Hg & Hgm).
  unfold count_source, stripe in Hcs. rewrite Hg in Hcs. unfold count_section in Hcs. cbn [mbind option_bind] in Hcs.
  pose proof (count_insert (live_from ip) _ i _ Gone Hi) as Hlt. simpl in Hlt.
  pose proof (count_length (live_from ip) (<[i := Gone]> (conns s))) as Hll.
  rewrite length_insert in Hll.
  assert (count (live_from ip) (conns s) < Z.of_nat (length (conns s))) as Hlt2.
  { pose proof (count_own occupied _ _ _ Hi). simpl in *.
    assert (forall cs, count (live_from ip) cs + count (fun c => match c with Reserved _ => true | _ => false end) cs
              <= Z.of_nat (length cs)) as Hsum.
    { clear. intros cs. induction cs as [|c cs IH]; cbn [count length]; [lia|].
      destruct c; simpl; try case_bool_decide; lia. }
    specialize (Hsum (conns s)).
    pose proof (count_pos (fun c => match c with Reserved _ => true | _ => false end) _ _ _ Hi eq_refl). lia. }
  assert (default 0 (g !! ip) = count (live_from ip) (conns s)) as Hd.
  { rewrite Hgm. apply (Hct ip). }
  pose proof (count_nonneg (live_from ip) (conns s)) as Hnn.
  destruct (add32_exact (count (live_from ip) (conns s)) (count (live_from ip) (conns s))
              ltac:(lia) ltac:(lia)) as [_ Hs32].
  rewrite Hd, Hs32 in Hcs. simplify_eq. split; cbn [store conns]; st_simpl.
  - exists (bump m ip). unfold bump. rewrite (Hct ip). split; [by apply striped_insert|]. split.
    + intros j k [[<- <-]|[_ Hj]]%lookup_insert_Some; [lia|]. by eapply Hn.
    + intros j. rewrite (count_insert _ _ _ _ _ Hi). unfold count_of. simpl.
      destruct (decide (ip = j)) as [->|Hne].
      * rewrite lookup_insert_eq, bool_decide_true by done. simpl. lia.
      * rewrite lookup_insert_ne, bool_decide_false by done. pose proof (Hct j) as Hj.
        unfold count_of in Hj. lia.
  - rewrite (count_insert _ _ _ _ _ Hi). simpl. lia.
  - done.
  - intros H1 H2 j. rewrite (count_insert _ _ _ _ _ Hi). simpl. specialize (Hc H1 H2 j).
    destruct (decide (ip = j)) as [->|Hne]; [|rewrite bool_decide_false by done; simpl; lia].
    rewrite bool_decide_true by done. simpl.
    pose proof (served_le_live j (conns s)).
    destruct (_ || _) eqn:E; [|lia]. apply orb_true_iff in E as [E|E]; zify_bool; lia.
  - rewrite (count_insert _ _ _ _ _ Hi). simpl. lia.
Qed.

Lemma close_step_inv s i ip b g g' d :
  shards_inv s -> conns s !! i = Some (Live ip b) -> stripe (store s) ip = Some g ->
  close_section g ip = (g', d) ->
  shards_inv (mkShards (set_stripe (store s) ip g') (<[i := Leaving d]> (conns s))).
Proof using.
  intros [Hrep Ht Hh Hc Hx] Hi Hg Hcl. destruct Hrep as (m & Hm & Hn & Hct).
  destruct (striped_get _ (stripe_idx_lt (store s)) _ m ip Hm) as (g0 & Hg0 & Hgm).
  unfold stripe in Hg. simplify_eq. unfold close_section in Hcl. rewrite Hgm in Hcl.
  pose proof (count_pos (live_from ip) _ _ _ Hi) as Hpos. simpl in Hpos.
  rewrite bool_decide_true in Hpos by done. specialize (Hpos eq_refl).
  pose proof (Hct ip) as Hcip. unfold count_of in Hcip.
  destruct (m !! ip) as [n|] eqn:E; [|simpl in Hcip; lia]. simpl in Hcip. unfold id in Hcip.
  specialize (Hn ip n E) as Hn1.
  unfold saturating_sub in Hcl. rewrite Z.max_r in Hcl by lia.
  assert (forall j, count (live_from j) (<[i := Leaving d]> (conns s)) =
                    count (live_from j) (conns s) - (if decide (ip = j) then 1 else 0)) as Hlv.
  { intros j. rewrite (count_insert _ _ _ _ _ Hi). simpl.
    case_decide; [rewrite bool_decide_true by done|rewrite bool_decide_false by done]; lia. }
  split; cbn [store conns]; st_simpl.
  - destruct (n - 1 =? 0) eqn:E1; zify_bool; injection Hcl as <- <-.
    + exists (delete ip m). split; [by apply striped_delete|]. split.
      { intros j k [_ Hj]%lookup_delete_Some. by eapply Hn. }
      intros j. rewrite Hlv. unfold count_of. case_decide as Hj.
      * subst j. rewrite lookup_delete_eq. simpl. lia.
      * rewrite lookup_delete_ne by done. pose proof (Hct j). unfold count_of in *. lia.
    + exists (<[ip := n - 1]> m). split; [by apply striped_insert|]. split.
      { intros j k [[<- <-]|[_ Hj]]%lookup_insert_Some; [lia|]. by eapply Hn. }
      intros j. rewrite Hlv. unfold count_of. case_decide as Hj.
      * subst j. rewrite lookup_insert_eq. simpl. unfold id. lia.
      * rewrite lookup_insert_ne by done. pose proof (Hct j). unfold count_of in *. lia.
  - rewrite (count_insert _ _ _ _ _ Hi). simpl. lia.
  - done.
  - intros H1 H2 j. rewrite (count_insert _ _ _ _ _ Hi). simpl. specialize (Hc H1 H2 j).
    destruct (bool_decide (ip = j) && b); lia.
  - rewrite (count_insert _ _ _ _ _ Hi). simplify_eq. simpl. lia.
Qed.

Lemma shard_step_inv l s s' :
  Z.of_nat (length (conns s)) < 2 ^ 32 -> shards_inv s -> shard_step l s = Some s' ->
  shards_inv s' /\ length (conns s') = length (conns s).
Proof using.
  intros Hlen H Hs. destruct l as [i ip|i|i]; simpl in Hs;
    destruct (conns s !! i) as [[|j|j b|d]|] eqn:Hi; try done.
  - destruct (reserve hard (total (store s))) as [n|] eqn:E; simplify_eq; [|done].
    split; [by eapply enter_inv|]. apply length_insert.
  - destruct (count_source (store s) j cap) as [[st b]|] eqn:E; simplify_eq/=.
    split; [by eapply count_step_inv|]. apply length_insert.
  - simplify_eq. split; [|apply length_insert].
    destruct d; [|exfalso; pose proof (si_exact s H);
                  pose proof (count_pos unreleased _ _ _ Hi eq_refl); lia].
    pose proof (si_total s H) as Ht. pose proof (count_own occupied _ _ _ Hi) as Ho. simpl in Ho.
    eapply conns_move; try done; st_simpl; unfold release, saturating_sub; simpl; [lia|].
    intros H0 H1. pose proof (si_hard s H H0 H1). lia.
  - destruct (stripe (store s) j) as [g|] eqn:Hg; simpl in Hs; [|done].
    destruct (close_section g j) as [g' d] eqn:Hc. simplify_eq.
    split; [by eapply close_step_inv|]. apply length_insert.
Qed.

Lemma shards_reach_inv key n s :
  Z.of_nat n < 2 ^ 32 -> reach shard_step (shards_init key n) s ->
  shards_inv s /\ length (conns s) = n.
Proof using.
  intros Hn. apply (reach_invariant shard_step (fun s => shards_inv s /\ length (conns s) = n)).
  - split; [apply shards_init_inv|apply length_replicate].
  - intros l x y [H1 H2] Hs. destruct (shard_step_inv l x y ltac:(lia) H1 Hs). split; congruence.
Qed.
End shards.

(** The caps hold under every interleaving of accepts and closes on any
    number of shards: the connections in the process never exceed the hard
    ceiling, the connections served for one source never exceed its cap, and
    at every instant the total counts the connections in the process and each
    source's counter counts its connections in the slab. *)
Theorem shard_caps_hold (cap hard key : Z) (n : nat) (s : Shards) :
  0 < cap -> 0 < hard -> Z.of_nat n < 2 ^ 32 -> reach (shard_step cap hard) (shards_init key n) s ->
  count occupied (conns s) <= hard /\
  total_active (store s) = count occupied (conns s) /\
  forall ip, count (served_from ip) (conns s) <= cap /\
             active (store s) ip = Some (count (live_from ip) (conns s)).
Proof.
  intros Hcap Hhard Hn Hr. destruct (shards_reach_inv cap hard key n s Hn Hr) as [H _].
  pose proof (si_hard _ _ s H ltac:(lia) ltac:(lia)) as Hh. pose proof (si_total _ _ s H) as Ht.
  unfold total_active. split; [lia|]. split; [done|]. intros ip. split.
  - by apply (si_cap _ _ s H); lia.
  - destruct (si_rep _ _ s H) as (m & Hm & _ & Hct).
    destruct (striped_get _ (stripe_idx_lt (store s)) _ m ip Hm) as (g & Hg & Hgm).
    unfold active, stripe. rewrite Hg. cbn [mbind option_bind]. rewrite Hgm. f_equal. apply Hct.
Qed.

Definition shard_race : list SLabel :=
  [SEnter 0 (V4 1); SEnter 1 (V4 1); SEnter 2 (V4 2); SStep 1; SStep 0; SClose 1; SStep 1; SEnter 2 (V4 2)].

Lemma shard_caps_hold_witness :
  exists s, run (shard_step 1 2) shard_race (shards_init 3 3) = Some s /\
            total_active (store s) = count occupied (conns s).
Proof.
  destruct (run (shard_step 1 2) shard_race (shards_init 3 3)) as [s|] eqn:E;
    [|vm_compute in E; discriminate E].
  exists s. split; [reflexivity|].
  refine (proj1 (proj2 (shard_caps_hold 1 2 3 3 s _ _ _ _))); [lia|lia|reflexivity|].
  exact (run_reach _ shard_race _ _ E).
Defined.
