(* ===== verification/Cache.v ===== *)
(** * The response cache ([migration/dataplane/host/src/cache.rs])

    Keys and cacheability are read off request and response bytes by the
    source's scanners; the store maps a key to an entry with its store time,
    and concurrent misses coalesce on an in-flight record shared through an
    [Arc]: [flights] is the heap of those records and [inflight] maps a key to
    its record's index. Times are nanoseconds. [fetch] is the serve behind the
    cache; an operation that would block on an unpublished record is [None].

    [cstep] runs any number of threads through [serve], [lookup_coalescing],
    [lookup_effect_nb] and [store], one critical section at a time, while the
    clock advances, purges happen, waits run out and fetches panic. *)
From S2P Require Import Prelude Bytes.

Local Open Scope Z_scope.


(** ** Scanners *)

Definition find (hay needle : bytes) : option nat :=
  if bool_decide (needle = []) || (length hay <? length needle)%nat then None
  else windows_position needle hay.

Definition is_some {A} (o : option A) : bool := match o with Some _ => true | None => false end.

Definition trim (b : bytes) : bytes :=
  let s := default (length b) (position (fun c => negb (is_ascii_whitespace c)) b) in
  let e := default s (S <$> rposition (fun c => negb (is_ascii_whitespace c)) b) in
  slice s e b.

Definition conditional_headers : list bytes :=
  [CRLF ++ bs "if-none-match:"; CRLF ++ bs "if-match:"; CRLF ++ bs "if-modified-since:";
   CRLF ++ bs "if-unmodified-since:"; CRLF ++ bs "if-range:"; CRLF ++ bs "range:"].

Definition cache_key (req : bytes) : option bytes :=
  line_end ← find req CRLF;
  match split_on (fun b => b =? 32) (take line_end req) with
  | method :: target :: _ =>
      if negb (bytes_eqb method (bs "GET")) then None
      else
        let head_end := match find req (CRLF ++ CRLF) with
                        | Some p => (p + 4)%nat | None => length req end in
        let head_lower := to_ascii_lowercase <$> take head_end req in
        if existsb (fun h => is_some (find head_lower h)) conditional_headers
        then None
        else Some (method ++ [32] ++ target)
  | _ => None
  end.

Definition status_is_2xx (resp : bytes) : bool :=
  let line_end := default (length resp) (find resp CRLF) in
  match split_on (fun b => b =? 32) (take line_end resp) with
  | _ :: code :: _ =>
      match head code with Some c => (c =? 50) && (length code =? 3)%nat | None => false end
  | _ => false
  end.

(** The [max-age] directive of one [Cache-Control] value: [None] when no
    directive is one, [Some None] when the first that is does not parse. A
    byte that is not ASCII cannot parse either, so the UTF-8 check of the
    source is covered by the number check. *)
Fixpoint max_age_directive (directives : list bytes) : option (option Z) :=
  match directives with
  | [] => None
  | d :: rest =>
      let d := trim d in
      match position (fun b => b =? 61) d with
      | None => max_age_directive rest
      | Some eq =>
          if eq_ignore_ascii_case (trim (take eq d)) (bs "max-age")
          then Some (parse_uint 64 (trim (drop (S eq) d)))
          else max_age_directive rest
      end
  end.

Fixpoint max_age_lines (lines : list bytes) : option Z :=
  match lines with
  | [] => None
  | line :: rest =>
      let line := default line (strip_suffix [CR] line) in
      match position (fun b => b =? 58) line with
      | None => max_age_lines rest
      | Some colon =>
          if eq_ignore_ascii_case (take colon line) (bs "cache-control")
          then match max_age_directive (split_on (fun b => b =? 44) (drop (S colon) line)) with
               | Some r => r
               | None => max_age_lines rest
               end
          else max_age_lines rest
      end
  end.

Definition parse_max_age (h : bytes) : option Z := max_age_lines (split_on (fun b => b =? LF) h).

Definition cacheable_lifetime (resp : bytes) : option Z :=
  if negb (status_is_2xx resp) then None
  else
    let head_end := match find resp (CRLF ++ CRLF) with
                    | Some p => (p + 2)%nat | None => length resp end in
    max_age ← parse_max_age (take head_end resp);
    if max_age =? 0 then None else Some max_age.

Definition stamp (resp xcache : bytes) (age : option Z) : bytes :=
  match find resp CRLF with
  | None => resp
  | Some p =>
      take (p + 2) resp ++ bs "X-Cache: " ++ xcache ++ CRLF ++
      match age with Some a => bs "Age: " ++ to_dec a ++ CRLF | None => [] end ++
      drop (p + 2) resp
  end.

Definition HIT : bytes := bs "HIT".
Definition MISS : bytes := bs "MISS".

(** ** State *)

Record Entry := mkEntry { body : bytes; stored_at : Z; max_age : Z }.

Record ResponseCache := mkCache {
  store : gmap bytes Entry;
  inflight : gmap bytes nat;
  flights : list (option bytes)     (* [InFlight.done], by record *)
}.

Definition ResponseCache_new : ResponseCache := mkCache ∅ ∅ [].

Definition set_store (c : ResponseCache) (m : gmap bytes Entry) : ResponseCache :=
  mkCache m (inflight c) (flights c).

Definition NANOS : Z := 1000000000.
Definition elapsed_secs (now since : Z) : Z := saturating_sub now since / NANOS.

(** ** Operations, one critical section each *)

Definition try_hit (c : ResponseCache) (key : bytes) (now : Z) : ResponseCache * option bytes :=
  match store c !! key with
  | None => (c, None)
  | Some e =>
      let age := elapsed_secs now (stored_at e) in
      if age <? max_age e then (c, Some (stamp (body e) HIT (Some age)))
      else (set_store c (delete key (store c)), None)
  end.

(** The record of the key's in-flight fetch, and whether this caller leads. *)
Definition elect (c : ResponseCache) (key : bytes) : ResponseCache * (nat * bool) :=
  match inflight c !! key with
  | Some loc => (c, (loc, false))
  | None =>
      let loc := length (flights c) in
      (mkCache (store c) (<[key := loc]> (inflight c)) (flights c ++ [None]), (loc, true))
  end.

Definition insert_entry (c : ResponseCache) (key resp : bytes) (now lifetime : Z) : ResponseCache :=
  set_store c (<[key := mkEntry resp now lifetime]> (store c)).

Definition insert_if_cacheable (c : ResponseCache) (key resp : bytes) (now : Z) : ResponseCache :=
  match cacheable_lifetime resp with
  | Some m => insert_entry c key resp now m
  | None => c
  end.

Definition publish_done (c : ResponseCache) (loc : nat) (resp : bytes) : ResponseCache :=
  mkCache (store c) (inflight c) (<[loc := Some resp]> (flights c)).

Definition clear_marker (c : ResponseCache) (key : bytes) : ResponseCache :=
  mkCache (store c) (delete key (inflight c)) (flights c).

(** [serve], uninterrupted: the response and whether [fetch] ran. *)
Definition serve (c : ResponseCache) (req : bytes) (now : Z) (fetch : bytes) :
    option (ResponseCache * bytes * bool) :=
  match cache_key req with
  | None => Some (c, fetch, true)
  | Some key =>
      match try_hit c key now with
      | (c1, Some hit) => Some (c1, hit, false)
      | (c1, None) =>
          let '(c2, (loc, is_leader)) := elect c1 key in
          if (is_leader : bool) then
            let c3 := insert_if_cacheable c2 key fetch now in
            let c4 := publish_done c3 loc fetch in
            Some (clear_marker c4 key, stamp fetch MISS None, true)
          else
            match flights c2 !! loc with
            | Some (Some b) => Some (c2, stamp b HIT (Some 0), false)
            | _ => None
            end
      end
  end.

(** [timed_out]: whether the leader failed to publish within the deadline. *)
Definition lookup_coalescing (c : ResponseCache) (key : bytes) (now : Z) (timed_out : bool) :
    option (ResponseCache * option bytes) :=
  match try_hit c key now with
  | (c1, Some hit) => Some (c1, Some hit)
  | (c1, None) =>
      let '(c2, (loc, is_leader)) := elect c1 key in
      if (is_leader : bool) then Some (c2, None)
      else match flights c2 !! loc with
           | Some (Some b) => Some (c2, Some (stamp b HIT (Some 0)))
           | _ => if timed_out then Some (try_hit c2 key now) else None
           end
  end.

Inductive CacheProbe := Hit (b : bytes) | Leader | Waiter.

Definition lookup_effect_nb (c : ResponseCache) (key : bytes) (now : Z) : ResponseCache * CacheProbe :=
  match try_hit c key now with
  | (c1, Some hit) => (c1, Hit hit)
  | (c1, None) =>
      match inflight c1 !! key with
      | Some _ => (c1, Waiter)
      | None => ((elect c1 key).1, Leader)
      end
  end.

(** [store]: the entry, then the marker and the record in one section, for the
    guard of the markers is held to the end of it. *)
Definition insert_for (c : ResponseCache) (key resp : bytes) (lifetime now : Z) : ResponseCache :=
  if negb (lifetime =? 0) then insert_entry c key resp now lifetime else c.

Definition publish_store (c : ResponseCache) (key resp : bytes) : ResponseCache :=
  match inflight c !! key with
  | None => c
  | Some loc =>
      let c1 := clear_marker c key in
      match flights c1 !! loc with
      | Some None => publish_done c1 loc resp
      | _ => c1
      end
  end.

Definition store_effect (c : ResponseCache) (key resp : bytes) (lifetime now : Z) : ResponseCache :=
  publish_store (insert_for c key resp lifetime now) key resp.

Definition entry_count (c : ResponseCache) : nat := size (store c).

Definition purge_all (c : ResponseCache) : ResponseCache * nat :=
  (set_store c ∅, size (store c)).

(** ** Threads

    The four callers of the cache, one critical section a step. [serve] runs its
    [fetch] as the leader; a caller of [lookup_coalescing] (the effect
    interpreter) and of [lookup_effect_nb] (the shard) that leads goes on to the
    fold, and [store] is called with what the fold or the disk gave. *)
Inductive Caller := Serve | Coalescing | NonBlocking.

Inductive Thread :=
  | TIdle
  | TProbe (w : Caller) (k : bytes)               (* about to [try_hit] *)
  | TMiss (w : Caller) (k : bytes)                (* missed, about to elect *)
  | TWait (w : Caller) (k : bytes) (loc : nat) (since : Z)   (* on the record, since its last wake-up *)
  | TRetry (k : bytes)                            (* gave up the wait, about to [try_hit] *)
  | TLead (k : bytes) (loc : nat)                 (* [serve]: running [fetch] *)
  | TFetched (k : bytes) (loc : nat) (r : bytes)
  | TStored (k : bytes) (loc : nat) (r : bytes)
  | TPublished (k : bytes) (loc : nat) (r : bytes)
  | TFold (k : bytes) (mark : option nat)         (* the fold, with the record of its election *)
  | TStore (k : bytes) (mark : option nat) (r : bytes) (lifetime : Z)   (* in [store] *)
  | TPublish (k : bytes) (mark : option nat) (r : bytes)
  | TAway (k : bytes)                             (* [CacheProbe::Waiter] *)
  | TDone (k : bytes) (out : bytes).

Definition WAIT : Z := 5 * NANOS.

(** [given]: every response fetched, or handed to [store], with its key. [lost]:
    the records whose leader ended without publishing. [late]: the keys for which
    a caller whose wait ran out led all the same, or which were stored by a caller
    that was never elected. *)
Record CSys := mkCSys {
  cache : ResponseCache;
  now : Z;
  threads : list Thread;
  given : list (bytes * bytes);
  lost : list nat;
  late : list bytes
}.

Inductive CLabel :=
  | LStart (i : nat) (w : Caller) (k : bytes) | LGo (i : nat)
  | LFetch (i : nat) (r : bytes) (lifetime : Z)   (* the fetch, the fold or the disk gives [r] *)
  | LAbandon (i : nat)                            (* the fetch panics, or the fold ends without a store *)
  | LTimeout (i : nat) | LWake (i : nat)          (* five seconds without a wake-up; a spurious one *)
  | LPut (i : nat) (k r : bytes) (lifetime : Z)   (* [store] by a caller that did not look the key up *)
  | LTick (d : Z) | LPurge.

Definition go (i : nat) (t : Thread) (c : ResponseCache) (s : CSys) : CSys :=
  mkCSys c (now s) (<[i := t]> (threads s)) (given s) (lost s) (late s).

Definition idle (t : Thread) : bool := match t with TIdle | TAway _ | TDone _ _ => true | _ => false end.

Definition thread_step (i : nat) (t : Thread) (s : CSys) : option CSys :=
  let c := cache s in
  match t with
  | TProbe w k =>
      match try_hit c k (now s) with
      | (c1, Some hit) => Some (go i (TDone k hit) c1 s)
      | (c1, None) => Some (go i (TMiss w k) c1 s)
      end
  | TMiss w k =>
      let '(c1, (loc, lead)) := elect c k in
      Some (go i (match w, (lead : bool) with
                  | Serve, true => TLead k loc
                  | _, true => TFold k (Some loc)
                  | NonBlocking, false => TAway k
                  | _, false => TWait w k loc (now s)
                  end) c1 s)
  | TWait _ k loc _ =>
      match flights c !! loc with
      | Some (Some b) => Some (go i (TDone k (stamp b HIT (Some 0))) c s)
      | _ => None
      end
  | TRetry k =>
      match try_hit c k (now s) with
      | (c1, Some hit) => Some (go i (TDone k hit) c1 s)
      | (c1, None) => Some (mkCSys c1 (now s) (<[i := TFold k None]> (threads s)) (given s) (lost s) (late s ++ [k]))
      end
  | TFetched k loc r => Some (go i (TStored k loc r) (insert_if_cacheable c k r (now s)) s)
  | TStored k loc r => Some (go i (TPublished k loc r) (publish_done c loc r) s)
  | TPublished k loc r => Some (go i (TDone k (stamp r MISS None)) (clear_marker c k) s)
  | TStore k mark r m => Some (go i (TPublish k mark r) (insert_for c k r m (now s)) s)
  | TPublish k mark r => Some (go i TIdle (publish_store c k r) s)
  | _ => None
  end.

Definition cstep (l : CLabel) (s : CSys) : option CSys :=
  let c := cache s in
  match l with
  | LStart i w k => t ← threads s !! i; if idle t then Some (go i (TProbe w k) c s) else None
  | LGo i => t ← threads s !! i; thread_step i t s
  | LFetch i r m =>
      t ← threads s !! i;
      match t with
      | TLead k loc => Some (mkCSys c (now s) (<[i := TFetched k loc r]> (threads s)) (given s ++ [(k, r)]) (lost s) (late s))
      | TFold k mark => Some (mkCSys c (now s) (<[i := TStore k mark r m]> (threads s)) (given s ++ [(k, r)]) (lost s) (late s))
      | _ => None
      end
  | LAbandon i =>
      t ← threads s !! i;
      match t with
      | TLead _ loc | TFold _ (Some loc) => Some (mkCSys c (now s) (<[i := TIdle]> (threads s)) (given s) (lost s ++ [loc]) (late s))
      | TFold _ None => Some (go i TIdle c s)
      | _ => None
      end
  | LTimeout i =>
      t ← threads s !! i;
      match t with
      | TWait Coalescing k loc since =>
          if negb (since + WAIT <=? now s) then None
          else match flights c !! loc with
               | Some (Some b) => Some (go i (TDone k (stamp b HIT (Some 0))) c s)
               | _ => Some (go i (TRetry k) c s)
               end
      | _ => None
      end
  | LWake i =>
      t ← threads s !! i;
      match t with
      | TWait w k loc _ => match flights c !! loc with Some (Some _) => None | _ => Some (go i (TWait w k loc (now s)) c s) end
      | _ => None
      end
  | LPut i k r m =>
      t ← threads s !! i;
      if idle t then Some (mkCSys c (now s) (<[i := TStore k None r m]> (threads s)) (given s ++ [(k, r)]) (lost s) (late s ++ [k])) else None
  | LTick d => if 0 <=? d then Some (mkCSys c (now s + d) (threads s) (given s) (lost s) (late s)) else None
  | LPurge => Some (mkCSys (purge_all c).1 (now s) (threads s) (given s) (lost s) (late s))
  end.

Definition cinit (n : nat) : CSys := mkCSys ResponseCache_new 0 (replicate n TIdle) [] [] [].

(** The key a thread runs a fetch for, with the record of its election. *)
Definition leads (t : Thread) : option (bytes * option nat) :=
  match t with
  | TLead k loc | TFetched k loc _ | TStored k loc _ | TPublished k loc _ => Some (k, Some loc)
  | TFold k mark | TStore k mark _ _ | TPublish k mark _ => Some (k, mark)
  | _ => None
  end.

(** A leader exists for the key and record. *)
Definition led (s : CSys) (k : bytes) (loc : nat) : Prop :=
  exists i t, threads s !! i = Some t /\ leads t = Some (k, Some loc).

Lemma lookup_threads (s : CSys) i (t' : Thread) j u :
  <[i := t']> (threads s) !! j = Some u -> (j = i /\ u = t') \/ (j <> i /\ threads s !! j = Some u).
Proof. intros [(-> & <- & _)|(Hne & H)]%list_lookup_insert_Some; auto. Qed.

(** ** Whose response it is

    Each record has a key, [own]: every record under a key, waited on or
    published, is that key's. *)
Definition handed (g : list (bytes * bytes)) (k out : bytes) : Prop :=
  exists r, (k, r) ∈ g /\ (out = stamp r MISS None \/ exists age, out = stamp r HIT (Some age)).

Definition thread_prov (own : list bytes) (g : list (bytes * bytes)) (t : Thread) : Prop :=
  (forall k loc, leads t = Some (k, Some loc) -> own !! loc = Some k) /\
  match t with
  | TWait _ k loc _ => own !! loc = Some k
  | TFetched k _ r | TStored k _ r | TPublished k _ r | TStore k _ r _ | TPublish k _ r => (k, r) ∈ g
  | TDone k out => handed g k out
  | _ => True
  end.

Record cache_prov (own : list bytes) (g : list (bytes * bytes)) (c : ResponseCache) : Prop := {
  p_len : length own = length (flights c);
  p_store : forall k e, store c !! k = Some e -> (k, body e) ∈ g;
  p_marker : forall k loc, inflight c !! k = Some loc -> own !! loc = Some k;
  p_flight : forall k loc r, flights c !! loc = Some (Some r) -> own !! loc = Some k -> (k, r) ∈ g
}.

Record prov (own : list bytes) (s : CSys) : Prop := {
  p_cache : cache_prov own (given s) (cache s);
  p_threads : forall i t, threads s !! i = Some t -> thread_prov own (given s) t
}.

Lemma thread_prov_mono own own' g g' t : own `prefix_of` own' -> g ⊆ g' -> thread_prov own g t -> thread_prov own' g' t.
Proof.
  intros Ho Hg [Hl Ht]. assert (forall loc k, own !! loc = Some k -> own' !! loc = Some k) as Hp by (intros; by eapply prefix_lookup_Some).
  split; [intros; apply Hp; eauto|]. destruct t; try done; auto. destruct Ht as (r & ? & ?). exists r. auto.
Qed.

Lemma cache_prov_given own g g' c : g ⊆ g' -> cache_prov own g c -> cache_prov own g' c.
Proof. intros Hg [? Hs Hm Hf]. split; [done|intros; apply Hg; eauto|done|intros; apply Hg; eauto]. Qed.

Lemma prov_move own own' s i t' c n g lo la :
  prov own s -> own `prefix_of` own' -> given s ⊆ g -> cache_prov own' g c -> thread_prov own' g t' ->
  prov own' (mkCSys c n (<[i := t']> (threads s)) g lo la).
Proof.
  intros [_ Ht] Ho Hg Hc Hok. split; [done|]. cbn. intros j u [[-> ->]|[_ Hj]]%lookup_threads; [done|]. eapply thread_prov_mono; eauto.
Qed.

Lemma cache_prov_elect own g c k :
  cache_prov own g c ->
  let '(c1, (loc, lead)) := elect c k in
  exists own', own `prefix_of` own' /\ cache_prov own' g c1 /\ own' !! loc = Some k.
Proof.
  intros [Hl Hs Hm Hf]. unfold elect. destruct (inflight c !! k) as [loc|] eqn:E; [exists own; split_and!; [done|done|eauto]|].
  exists (own ++ [k]). rewrite <- Hl. assert ((own ++ [k]) !! length own = Some k) as Hk by (by rewrite lookup_app_r, Nat.sub_diag by lia).
  split_and!; [by apply prefix_app_r| |done]. split; cbn; [rewrite !length_app; cbn; lia|done|..].
  - intros k0 loc [[<- <-]|[_ Hin]]%lookup_insert_Some; [done|]. apply lookup_app_l_Some. eauto.
  - intros k0 loc r H Ho. apply lookup_app_Some in H as [H|[? H]].
    + rewrite lookup_app_l in Ho by (apply lookup_lt_Some in H; lia). eauto.
    + apply list_lookup_singleton_Some in H as [_ H]. done.
Qed.

Lemma cache_prov_publish own g c k loc r : cache_prov own g c -> own !! loc = Some k -> (k, r) ∈ g -> cache_prov own g (publish_done c loc r).
Proof.
  intros [Hl Hs Hm Hf] Ho Hr. split; cbn; [by rewrite length_insert|done|done|].
  intros k0 l b [(<- & [= <-] & _)|(_ & H)]%list_lookup_insert_Some Hk; [by simplify_eq|eauto].
Qed.

Lemma cache_prov_clear own g c k : cache_prov own g c -> cache_prov own g (clear_marker c k).
Proof. intros [Hl Hs Hm Hf]. split; cbn; [done|done| |done]. intros k0 loc [_ H]%lookup_delete_Some. eauto. Qed.

Lemma cache_prov_insert own g c k r n m : cache_prov own g c -> (k, r) ∈ g -> cache_prov own g (insert_entry c k r n m).
Proof. intros [Hl Hs Hm Hf] Hr. split; cbn; [done| |done|done]. intros k0 e [[<- <-]|[_ H]]%lookup_insert_Some; [done|eauto]. Qed.

Lemma cache_prov_publish_store own g c k r : cache_prov own g c -> (k, r) ∈ g -> cache_prov own g (publish_store c k r).
Proof.
  intros Hc Hr. unfold publish_store. destruct (inflight c !! k) as [loc|] eqn:E; [|done].
  pose proof (cache_prov_clear _ _ _ k Hc). destruct (_ !! loc) as [[]|]; try done. eapply cache_prov_publish; [done|exact (p_marker _ _ _ Hc _ _ E)|done].
Qed.

Lemma cache_prov_hit own g c k n :
  cache_prov own g c ->
  match try_hit c k n with
  | (c1, Some out) => c1 = c /\ handed g k out
  | (c1, None) => cache_prov own g c1 /\ inflight c1 = inflight c /\ flights c1 = flights c
  end.
Proof.
  intros Hc. unfold try_hit. destruct (store c !! k) as [e|] eqn:E; [|done]. destruct (_ <? _).
  - split; [done|]. exists (body e). split; [exact (p_store _ _ _ Hc _ _ E)|]. right. by eexists.
  - split; [|done]. destruct Hc as [Hl Hs Hm Hf]. split; [done| |done|done]. cbn. intros k0 e0 [_ H]%lookup_delete_Some. eauto.
Qed.

Lemma thread_step_prov own i t s s' : prov own s -> threads s !! i = Some t -> thread_step i t s = Some s' -> exists own', prov own' s'.
Proof.
  intros H Hi Hs. destruct H as [Hc Ht] eqn:EH. destruct (Ht i t Hi) as [Hl Hok].
  destruct t as [|w k|w k|w k loc t0|k|k loc|k loc r|k loc r|k loc r|k mk|k mk r m|k mk r|k|k out]; cbn [thread_step] in Hs; try done.
  - pose proof (cache_prov_hit own _ _ k (now s) Hc) as Hh. destruct (try_hit _ _ _) as [c1 [hit|]]; injection Hs as <-; exists own; (eapply prov_move; [done..| |]).
    + by destruct Hh as [-> _].
    + by destruct Hh.
    + by destruct Hh.
    + done.
  - pose proof (cache_prov_elect own _ _ k Hc) as He. destruct (elect _ _) as [c1 [loc lead]]. destruct He as (own' & Ho & Hc' & Hk). injection Hs as <-.
    exists own'. eapply prov_move; [done..|]. destruct w, lead; split; cbn; naive_solver.
  - destruct (flights _ !! loc) as [[b|]|] eqn:E; simplify_eq. exists own. eapply prov_move; [done..|]. split; [done|]. exists b. split; [exact (p_flight _ _ _ Hc _ _ _ E Hok)|]. right. by exists 0.
  - pose proof (cache_prov_hit own _ _ k (now s) Hc) as Hh. destruct (try_hit _ _ _) as [c1 [hit|]]; injection Hs as <-; exists own; (eapply prov_move; [done..| |]).
    + by destruct Hh as [-> _].
    + by destruct Hh.
    + by destruct Hh.
    + done.
  - injection Hs as <-. exists own. eapply prov_move; [done|done|done| |done]. unfold insert_if_cacheable. case_match; [by apply cache_prov_insert|done].
  - injection Hs as <-. exists own. eapply prov_move; [done|done|done| |done]. eapply cache_prov_publish; [done|by apply Hl|done].
  - injection Hs as <-. exists own. eapply prov_move; [done|done|done|by apply cache_prov_clear|]. split; [done|]. exists r. auto.
  - injection Hs as <-. exists own. eapply prov_move; [done|done|done| |done]. unfold insert_for. case_match; [by apply cache_prov_insert|done].
  - injection Hs as <-. exists own. eapply prov_move; [done|done|done| |done]. by apply cache_prov_publish_store.
Qed.

Lemma cstep_prov own l s s' : prov own s -> cstep l s = Some s' -> exists own', prov own' s'.
Proof.
  intros H Hs. pose proof (p_cache _ _ H) as Hc. pose proof (p_threads _ _ H) as Ht.
  destruct l as [i w k|i|i r m|i|i|i|i k r m|d|]; cbn [cstep] in Hs; try (apply bind_Some in Hs as (t & Hi & Hs); destruct (Ht i t Hi) as [Hl Hok]).
  - destruct (idle t); simplify_eq. exists own. by eapply prov_move.
  - by eapply thread_step_prov.
  - assert (given s ⊆ given s ++ [(default [] (fst <$> leads t), r)]) as Hg by set_solver.
    destruct t; simplify_eq; exists own; (eapply prov_move; [done|done|exact Hg|by eapply cache_prov_given|]); (split; cbn in *; [exact Hl|apply elem_of_app; right; by left]).
  - destruct t as [| | | | |k loc| | | |k [loc|]| | | |]; simplify_eq; exists own; by eapply prov_move.
  - destruct t as [| | |w k loc t0| | | | | | | | | |]; try done. destruct w; try done. destruct (negb _); [done|].
    destruct (flights _ !! loc) as [[b|]|] eqn:E; simplify_eq; exists own; (eapply prov_move; [done..|]); split; try done.
    exists b. split; [exact (p_flight _ _ _ Hc _ _ _ E Hok)|]. right. by exists 0.
  - destruct t as [| | |w k loc t0| | | | | | | | | |]; try done. destruct (flights _ !! loc) as [[b|]|]; simplify_eq; exists own; by eapply prov_move.
  - destruct (idle t); simplify_eq. assert (given s ⊆ given s ++ [(k, r)]) as Hg by set_solver. exists own. eapply prov_move; [done|done|exact Hg|by eapply cache_prov_given|]. split; [done|]. apply elem_of_app. right. by left.
  - destruct (0 <=? d); simplify_eq. by exists own.
  - simplify_eq. exists own. split; [|done]. destruct Hc. by split.
Qed.

(** ** One fetch at a time

    For a key that is not [late]: who runs a fetch for it holds its marker and is
    alone, and what is waited on and not published has a leader, or lost it. *)
Definition lead_at (k : bytes) (t : Thread) : option (option nat) :=
  match leads t with Some (k', mark) => if decide (k' = k) then Some mark else None | None => None end.

Definition published (c : ResponseCache) (loc : nat) : Prop := exists b, flights c !! loc = Some (Some b).

Definition thread_bound (c : ResponseCache) (t : Thread) : Prop :=
  (forall k loc, leads t = Some (k, Some loc) -> (loc < length (flights c))%nat) /\
  match t with
  | TWait _ _ loc _ => (loc < length (flights c))%nat
  | TPublished _ loc _ => published c loc
  | _ => True
  end.

Record single (s : CSys) : Prop := {
  f_leader : forall i t k mk, threads s !! i = Some t -> lead_at k t = Some mk -> k ∉ late s ->
               exists loc, mk = Some loc /\ inflight (cache s) !! k = Some loc;
  f_unique : forall i j t u k, threads s !! i = Some t -> threads s !! j = Some u ->
               is_Some (lead_at k t) -> is_Some (lead_at k u) -> k ∉ late s -> i = j;
  f_marker : forall k loc, inflight (cache s) !! k = Some loc -> k ∉ late s -> led s k loc \/ loc ∈ lost s;
  f_wait : forall i w k loc t0, threads s !! i = Some (TWait w k loc t0) -> flights (cache s) !! loc = Some None ->
               k ∉ late s -> led s k loc \/ loc ∈ lost s;
  f_bound : forall i t, threads s !! i = Some t -> thread_bound (cache s) t;
  f_marked : forall k loc, inflight (cache s) !! k = Some loc -> (loc < length (flights (cache s)))%nat
}.

Lemma lead_at_leads k t mk : lead_at k t = Some mk <-> leads t = Some (k, mk).
Proof. unfold lead_at. destruct (leads t) as [[k' m]|]; [|naive_solver]. destruct (decide (k' = k)); naive_solver. Qed.

(** How one thread's move can touch a key: not at all; it is elected; it ends
    and what it led is published; it ends without. *)
Inductive shift (s : CSys) (c : ResponseCache) (lost' : list nat) (t t' : Thread) (k : bytes) : Prop :=
  | Kept : lead_at k t' = lead_at k t -> inflight c !! k = inflight (cache s) !! k -> shift s c lost' t t' k
  | Begun loc : lead_at k t = None -> lead_at k t' = Some (Some loc) -> inflight (cache s) !! k = None -> inflight c !! k = Some loc -> shift s c lost' t t' k
  | Ended : is_Some (lead_at k t) -> lead_at k t' = None -> inflight c !! k = None ->
      (forall loc, lead_at k t = Some (Some loc) -> published c loc) -> shift s c lost' t t' k
  | Dropped : lead_at k t' = None -> inflight c !! k = inflight (cache s) !! k ->
      (forall loc, lead_at k t = Some (Some loc) -> loc ∈ lost') -> shift s c lost' t t' k.

Lemma led_other s i t' j u c n g lo la k loc :
  j <> i -> threads s !! j = Some u -> leads u = Some (k, Some loc) -> led (mkCSys c n (<[i := t']> (threads s)) g lo la) k loc.
Proof. intros Hne Hj Hu. exists j, u. cbn. by rewrite list_lookup_insert_ne. Qed.

Lemma led_moved s i t t' c n g lo la k loc :
  threads s !! i = Some t -> leads t' = Some (k, Some loc) -> led (mkCSys c n (<[i := t']> (threads s)) g lo la) k loc.
Proof. intros Hi Hu. exists i, t'. cbn. by rewrite list_lookup_insert_eq by (by eapply lookup_lt_Some). Qed.

Section move.
Context (s : CSys) (i : nat) (t t' : Thread) (c : ResponseCache) (n : Z) (g : list (bytes * bytes)) (lo : list nat) (la : list bytes).
Context (H : single s) (Hi : threads s !! i = Some t).
Context (Hpub : forall l, published (cache s) l -> published c l) (Hlen : (length (flights (cache s)) <= length (flights c))%nat).
Context (Hlo : lost s ⊆ lo) (Hla : late s ⊆ la).
Context (Hshift : forall k, k ∉ la -> shift s c lo t t' k).
Let s' := mkCSys c n (<[i := t']> (threads s)) g lo la.

Lemma on_time k : k ∉ la -> k ∉ late s.
Proof using Hla. intros Hk Hin. by apply Hk, Hla. Qed.

(** What was led and is not published is led still, or lost. *)
Lemma led_stays k loc : k ∉ la -> led s k loc \/ loc ∈ lost s -> ~ published c loc -> led s' k loc \/ loc ∈ lo.
Proof using Hi Hlo Hshift.
  intros Hk [(j & u & Hj & Hu)|Hl] Hn; [|right; by apply Hlo]. destruct (decide (j = i)) as [->|Hne]; [|left; by eapply led_other]. simplify_eq.
  apply lead_at_leads in Hu. destruct (Hshift k Hk) as [Ht' _|l Ht _ _ _|_ _ _ Hp|_ _ Hd].
  - left. eapply led_moved; [done|]. apply lead_at_leads. by rewrite Ht'.
  - congruence.
  - by destruct Hn; apply Hp.
  - right. by apply Hd.
Qed.

Lemma marker_stays k loc : k ∉ la -> inflight c !! k = Some loc -> led s' k loc \/ loc ∈ lo.
Proof using H Hi Hlo Hla Hshift.
  intros Hk Hin. destruct (Hshift k Hk) as [Ht' Hf|l Ht Ht' _ Hf|_ _ Hf _|Ht' Hf Hd].
  - rewrite Hf in Hin. destruct (f_marker s H k loc Hin (on_time k Hk)) as [(j & u & Hj & Hu)|Hl]; [|right; by apply Hlo]. left.
    destruct (decide (j = i)) as [->|Hne]; [|by eapply led_other]. simplify_eq. eapply led_moved; [done|]. apply lead_at_leads in Hu. apply lead_at_leads. by rewrite Ht'.
  - left. eapply led_moved; [done|]. apply lead_at_leads. congruence.
  - congruence.
  - rewrite Hf in Hin. destruct (f_marker s H k loc Hin (on_time k Hk)) as [(j & u & Hj & Hu)|Hl]; [|right; by apply Hlo].
    destruct (decide (j = i)) as [->|Hne]; [|left; by eapply led_other]. simplify_eq. right. apply Hd. by apply lead_at_leads.
Qed.

(** Who leads a key after the move. *)
Lemma leader_stays j u k mk : <[i := t']> (threads s) !! j = Some u -> lead_at k u = Some mk -> k ∉ la -> exists loc, mk = Some loc /\ inflight c !! k = Some loc.
Proof using H Hi Hla Hshift.
  intros Hj Hu Hk. apply lookup_threads in Hj as [[-> ->]|[Hne Hj]].
  - destruct (Hshift k Hk) as [Ht' Hf|l Ht Ht' _ Hf|_ Ht' _ _|Ht' _ _]; [|exists l; by simplify_eq|congruence..].
    rewrite Ht' in Hu. rewrite Hf. by eapply (f_leader s H); [..|apply on_time].
  - destruct (f_leader s H j u k mk Hj Hu (on_time k Hk)) as (loc & -> & Hin). exists loc. split; [done|].
    destruct (Hshift k Hk) as [_ Hf|l _ _ Hf _|Ht _ _ _|_ Hf _]; [by rewrite Hf|congruence| |by rewrite Hf].
    destruct Hne. by eapply (f_unique s H j i u t k); [..|apply on_time].
Qed.

Lemma single_move :
  thread_bound c t' -> (forall k loc, inflight c !! k = Some loc -> (loc < length (flights c))%nat) ->
  (forall w k loc t0, t' = TWait w k loc t0 -> inflight c !! k = Some loc \/ exists w' t1, t = TWait w' k loc t1) ->
  single s'.
Proof using H Hi Hpub Hlen Hlo Hla Hshift.
  intros Hb Hm Hw. split; cbn [threads cache late lost s']; [..|done].
  - intros. by eapply leader_stays.
  - intros j j' u u' k Hj Hj' Hu Hu' Hk.
    assert (forall a x, a <> i -> threads s !! a = Some x -> is_Some (lead_at k x) -> is_Some (lead_at k t') -> False) as Hno.
    { intros a x Hne Ha Hx Ht. destruct (Hshift k Hk) as [Ht' _|l _ _ Hf _|_ Ht' _ _|Ht' _ _]; [| |rewrite Ht' in Ht; by destruct Ht..].
      - rewrite Ht' in Ht. apply Hne. by eapply (f_unique s H a i x t k); [..|apply on_time].
      - destruct Hx as [mk Hx]. destruct (f_leader s H a x k mk Ha Hx (on_time k Hk)) as (? & _ & ?). congruence. }
    apply lookup_threads in Hj as [[-> ->]|[Hne Hj]], Hj' as [[-> ->]|[Hne' Hj']]; [done|exfalso; eauto..|]. by eapply (f_unique s H); [..|apply on_time].
  - intros. by apply marker_stays.
  - intros j w k loc t0 Hj Hn Hk. assert (~ published c loc) as Hnp by (intros [b ?]; congruence).
    apply lookup_threads in Hj as [[-> Et]|[Hne Hj]].
    + destruct (Hw w k loc t0 (eq_sym Et)) as [Hin|(w' & t1 & Et1)]; [by apply marker_stays|]. pose proof Hi as Hj. rewrite Et1 in Hj.
      apply led_stays; [done| |done]. eapply (f_wait s H); [done| |by apply on_time]. destruct (flights (cache s) !! loc) as [[b|]|] eqn:E; [|done|].
      * destruct Hnp. apply Hpub. by exists b.
      * apply lookup_ge_None in E. pose proof (f_bound s H _ _ Hj) as [_ Hlt]. cbn in Hlt. lia.
    + apply led_stays; [done| |done]. eapply (f_wait s H); [done| |by apply on_time]. destruct (flights (cache s) !! loc) as [[b|]|] eqn:E; [|done|].
      * destruct Hnp. apply Hpub. by exists b.
      * apply lookup_ge_None in E. pose proof (f_bound s H _ _ Hj) as [_ Hlt]. cbn in Hlt. lia.
  - intros j u [[-> ->]|[Hne Hj]]%lookup_threads; [done|]. destruct (f_bound s H j u Hj) as [Hl Hu]. split; [intros k loc E; specialize (Hl k loc E); lia|].
    destruct u; try done; [lia|]. by apply Hpub.
Qed.
End move.

Lemma published_done c loc loc' r : published c loc' -> published (publish_done c loc r) loc'.
Proof.
  intros [b Hb]. destruct (decide (loc' = loc)) as [->|Hne]; [|exists b; cbn; by rewrite list_lookup_insert_ne].
  exists r. cbn. rewrite list_lookup_insert_eq; [done|]. by eapply lookup_lt_Some.
Qed.

Lemma published_here c loc r : (loc < length (flights c))%nat -> published (publish_done c loc r) loc.
Proof. intros Hl. exists r. cbn. by rewrite list_lookup_insert_eq. Qed.

Lemma publish_store_flights c k r : (forall l, published c l -> published (publish_store c k r) l) /\ length (flights (publish_store c k r)) = length (flights c).
Proof.
  unfold publish_store. destruct (inflight c !! k) as [loc|]; [|done]. destruct (_ !! loc) as [[]|]; try done.
  split; [|cbn; by rewrite length_insert]. intros l Hl. by apply published_done.
Qed.

Lemma publish_store_key c k r loc : inflight c !! k = Some loc -> (loc < length (flights c))%nat ->
  inflight (publish_store c k r) !! k = None /\ published (publish_store c k r) loc.
Proof.
  intros E Hl. unfold publish_store. rewrite E. cbn zeta. change (flights (clear_marker c k)) with (flights c).
  destruct (flights c !! loc) as [[b|]|] eqn:Ef.
  - split; [apply lookup_delete_eq|by exists b].
  - split; [apply lookup_delete_eq|]. by apply published_here.
  - apply lookup_ge_None in Ef. lia.
Qed.

Lemma publish_store_other c k r k' : k' <> k -> inflight (publish_store c k r) !! k' = inflight c !! k'.
Proof. intros Hne. unfold publish_store. destruct (inflight c !! k) as [loc|]; [|done]. destruct (flights (clear_marker c k) !! loc) as [[]|]; cbn; by rewrite lookup_delete_ne. Qed.

Lemma try_hit_flights c k n : inflight (try_hit c k n).1 = inflight c /\ flights (try_hit c k n).1 = flights c.
Proof. unfold try_hit. destruct (store c !! k); [|done]. by destruct (_ <? _). Qed.

Lemma lead_at_other k k' mk t : leads t = Some (k, mk) -> k' <> k -> lead_at k' t = None.
Proof. intros Hl Hne. unfold lead_at. rewrite Hl. by destruct (decide _). Qed.

Lemma lead_at_self k mk t : leads t = Some (k, mk) -> lead_at k t = Some mk.
Proof. intros. by apply lead_at_leads. Qed.

(** A move that leaves the markers and the records alone, and what is led. *)
Lemma single_quiet s i t t' c n g la :
  single s -> threads s !! i = Some t -> leads t' = leads t -> inflight c = inflight (cache s) -> flights c = flights (cache s) -> late s ⊆ la ->
  (forall w k loc t0, t' = TWait w k loc t0 -> exists w' t1, t = TWait w' k loc t1) -> (forall k loc r, t' <> TPublished k loc r) ->
  single (mkCSys c n (<[i := t']> (threads s)) g (lost s) la).
Proof.
  intros H Hi Hl Hin Hf Hla Hw Hp. destruct (f_bound s H i t Hi) as [Hb1 Hb2]. eapply single_move; try done.
  - intros l. unfold published. by rewrite Hf.
  - by rewrite Hf.
  - intros k _. apply Kept; [unfold lead_at; by rewrite Hl|by rewrite Hin].
  - split; [rewrite Hl, Hf; exact Hb1|]. destruct t'; try done; [|by destruct (Hp k loc r)]. destruct (Hw _ _ _ _ eq_refl) as (w' & t1 & ->). by rewrite Hf.
  - rewrite Hin, Hf. apply (f_marked s H).
  - intros w k loc t0 E. right. eauto.
Qed.

Lemma elect_single s i w k s' : single s -> threads s !! i = Some (TMiss w k) -> thread_step i (TMiss w k) s = Some s' -> single s'.
Proof.
  intros H Hi Hs. cbn [thread_step] in Hs. unfold elect in Hs. destruct (inflight (cache s) !! k) as [loc|] eqn:E; injection Hs as <-.
  - pose proof (f_marked s H k loc E) as Hlt. eapply single_move; try done.
    + intros k' _. apply Kept; [by destruct w|done].
    + destruct w; split; done.
    + apply (f_marked s H).
    + intros w0 k0 loc0 t0 Et. left. destruct w; by simplify_eq.
  - set (loc := length (flights (cache s))). set (t' := match w with Serve => TLead k loc | _ => TFold k (Some loc) end).
    replace (match w with Serve => TLead k loc | _ => TFold k (Some loc) end) with t' by done.
    assert (leads t' = Some (k, Some loc)) as Hl by (unfold t'; by destruct w).
    eapply single_move with (t := TMiss w k); try done; cbn [flights inflight].
    + intros l [b Hb]. exists b. cbn. by apply lookup_app_l_Some.
    + rewrite length_app. lia.
    + intros k' _. destruct (decide (k' = k)) as [->|Hne].
      * eapply Begun; [done|by apply lead_at_self|done|]. apply lookup_insert_eq.
      * apply Kept; [by rewrite (lead_at_other _ _ _ _ Hl Hne)|]. by apply lookup_insert_ne.
    + split; [|unfold t'; by destruct w]. rewrite Hl. intros k0 l [= _ <-]. cbn [flights]. rewrite length_app. cbn. unfold loc. lia.
    + intros k0 l. rewrite length_app. cbn. intros [[<- <-]|[_ Hin]]%lookup_insert_Some; [unfold loc; lia|]. apply (f_marked s H) in Hin. lia.
    + unfold t'. by destruct w.
Qed.

Lemma thread_step_single i t s s' : single s -> threads s !! i = Some t -> thread_step i t s = Some s' -> single s'.
Proof.
  intros H Hi Hs. pose proof (f_bound s H i t Hi) as [Hbl Hb].
  destruct t as [|w k|w k|w k loc t0|k|k loc|k loc r|k loc r|k loc r|k mk|k mk r m|k mk r|k|k out]; try done; [|by eapply elect_single|..]; cbn [thread_step] in Hs.
  - pose proof (try_hit_flights (cache s) k (now s)) as [Hin Hf]. destruct (try_hit _ _ _) as [c1 [hit|]]; injection Hs as <-; by eapply single_quiet.
  - destruct (flights _ !! loc) as [[b|]|]; simplify_eq. by eapply single_quiet.
  - pose proof (try_hit_flights (cache s) k (now s)) as [Hin Hf]. destruct (try_hit _ _ _) as [c1 [hit|]]; injection Hs as <-; [by eapply single_quiet|].
    cbn in Hin, Hf. eapply single_move; try done; [intros l; unfold published; by rewrite Hf|by rewrite Hf|set_solver| |rewrite Hin, Hf; apply (f_marked s H)].
    intros k' Hk'. apply Kept; [|by rewrite Hin]. rewrite (lead_at_other k k' None (TFold k None)); [done|done|]. intros ->. apply Hk', elem_of_app. right. by left.
  - injection Hs as <-. eapply single_quiet; try done; unfold insert_if_cacheable; by case_match.
  - injection Hs as <-. pose proof (Hbl k loc eq_refl) as Hlt. eapply single_move; try done.
    + intros l. apply published_done.
    + cbn. by rewrite length_insert.
    + intros k' _. by apply Kept.
    + split; [intros k0 l [= <- <-]; cbn; by rewrite length_insert|]. by apply published_here.
    + cbn. rewrite length_insert. apply (f_marked s H).
  - injection Hs as <-. eapply single_move; try done.
    + intros k' _. destruct (decide (k' = k)) as [->|Hne].
      * apply Ended; [by eexists; apply lead_at_self|done|apply lookup_delete_eq|]. intros l E%lead_at_leads. injection E as <-. exact Hb.
      * apply Kept; [by rewrite (lead_at_other k k' (Some loc) (TPublished k loc r))|]. by apply lookup_delete_ne.
    + cbn. intros k0 l [_ Hin]%lookup_delete_Some. by apply (f_marked s H) in Hin.
  - injection Hs as <-. eapply single_quiet; try done; unfold insert_for; by case_match.
  - injection Hs as <-. destruct (publish_store_flights (cache s) k r) as [Hp Hl]. eapply single_move; try done.
    + by rewrite Hl.
    + intros k' Hk'. destruct (decide (k' = k)) as [->|Hne].
      * destruct (f_leader s H i _ k mk Hi (lead_at_self k mk (TPublish k mk r) eq_refl) Hk') as (loc & -> & Hin).
        destruct (publish_store_key (cache s) k r loc Hin (f_marked s H k loc Hin)) as [Hn Hpub].
        apply Ended; [by eexists; apply lead_at_self|done|done|]. intros l E%lead_at_leads. by injection E as <-.
      * apply Kept; [by rewrite (lead_at_other k k' mk (TPublish k mk r))|]. by apply publish_store_other.
    + intros k0 l Hin. rewrite Hl. destruct (decide (k0 = k)) as [->|Hne]; [|rewrite publish_store_other in Hin by done; by apply (f_marked s H) in Hin].
      unfold publish_store in Hin. destruct (inflight (cache s) !! k) as [loc|] eqn:E; [|congruence]. destruct (flights (clear_marker (cache s) k) !! loc) as [[]|]; cbn in Hin; by rewrite lookup_delete_eq in Hin.
Qed.

Lemma abandon_single s i t loc : single s -> threads s !! i = Some t -> (forall k l, leads t = Some (k, Some l) -> l = loc) -> forall n g,
  single (mkCSys (cache s) n (<[i := TIdle]> (threads s)) g (lost s ++ [loc]) (late s)).
Proof.
  intros H Hi Hl n g. eapply single_move; try done; [set_solver| |apply (f_marked s H)].
  intros k _. apply Dropped; [done|done|]. intros l E%lead_at_leads. rewrite (Hl k l E). apply elem_of_app. right. by left.
Qed.

Lemma single_same s c n : single s -> inflight c = inflight (cache s) -> flights c = flights (cache s) -> single (mkCSys c n (threads s) (given s) (lost s) (late s)).
Proof.
  intros [H1 H2 H3 H4 H5 H6] Hin Hf. split; cbn; rewrite ?Hin, ?Hf; try done.
  intros i t Hi. destruct (H5 i t Hi) as [Hl Ht]. split; [by rewrite Hf|]. destruct t; try done; [by rewrite Hf|]. unfold published. by rewrite Hf.
Qed.

Lemma cstep_single l s s' : single s -> cstep l s = Some s' -> single s'.
Proof.
  intros H Hs. destruct l as [i w k|i|i r m|i|i|i|i k r m|d|]; cbn [cstep] in Hs; try (apply bind_Some in Hs as (t & Hi & Hs)).
  - destruct (idle t) eqn:E; simplify_eq. eapply single_quiet; try done. by destruct t.
  - by eapply thread_step_single.
  - destruct t; simplify_eq; by eapply single_quiet.
  - destruct t as [| | | | |k loc| | | |k [loc|]| | | |]; simplify_eq; [eapply abandon_single; try done; naive_solver..|].
    eapply single_move; try done; [|apply (f_marked s H)]. intros k' _. apply Dropped; [done|done|]. by intros l E%lead_at_leads.
  - destruct t as [| | |w k loc t0| | | | | | | | | |]; try done. destruct w; try done. destruct (negb _); [done|].
    destruct (flights _ !! loc) as [[b|]|] eqn:E; simplify_eq; by eapply single_quiet.
  - destruct t as [| | |w k loc t0| | | | | | | | | |]; try done.
    destruct (flights _ !! loc) as [[b|]|]; simplify_eq; eapply single_quiet; try done; intros ? ? ? ? [= <- <- <- <-]; eauto.
  - destruct (idle t) eqn:E; simplify_eq. eapply single_move; try done; [set_solver| |apply (f_marked s H)].
    intros k' Hk'. apply Kept; [|done]. rewrite (lead_at_other k k' None (TStore k None r m)); [|done|intros ->; apply Hk', elem_of_app; right; by left]. unfold lead_at. by destruct t.
  - destruct (0 <=? d); simplify_eq. by apply single_same.
  - simplify_eq. by apply single_same.
Qed.

Lemma cinit_ok n : prov [] (cinit n) /\ single (cinit n).
Proof.
  assert (forall i t, replicate n TIdle !! i = Some t -> t = TIdle) as Hr by (by intros i t [-> _]%lookup_replicate).
  split; split; cbn.
  - split; cbn; try done; intros k e H; by rewrite lookup_empty in H.
  - by intros i t ->%Hr.
  - by intros i t k mk ->%Hr.
  - by intros i j t u k ->%Hr _ [? ?].
  - intros k loc H. by rewrite lookup_empty in H.
  - by intros i w k loc t0 H%Hr.
  - by intros i t ->%Hr.
  - intros k loc H. by rewrite lookup_empty in H.
Qed.

Lemma creach_inv n s : reach cstep (cinit n) s -> (exists own, prov own s) /\ single s.
Proof.
  apply (reach_invariant cstep (fun s => (exists own, prov own s) /\ single s)); [split; [exists []|]; apply cinit_ok|].
  intros l x y [[own Hp] Hs] Hstep. split; [by eapply cstep_prov|by eapply cstep_single].
Qed.

(** ** Properties *)

(** A fetch, a fold or a [store] under way for [k]. *)
Definition fetching (k : bytes) (t : Thread) : bool := match leads t with Some (k', _) => bool_decide (k' = k) | None => false end.

Lemma fetching_lead k t : fetching k t = true -> is_Some (lead_at k t).
Proof. unfold fetching, lead_at. destruct (leads t) as [[k' mk]|]; [|done]. intros ->%bool_decide_eq_true. rewrite decide_True by done. by eexists. Qed.

(** A wait of [lookup_coalescing] ends: at once when its record is published,
    and five seconds after its last wake-up whatever its leader does. *)
Lemma wait_ends s i k loc since :
  threads s !! i = Some (TWait Coalescing k loc since) -> published (cache s) loc \/ since + WAIT <= now s ->
  exists l s', cstep l s = Some s' /\ (threads s' !! i = Some (TRetry k) \/ exists out, threads s' !! i = Some (TDone k out)).
Proof.
  intros Hi Hend. assert (forall t', <[i := t']> (threads s) !! i = Some t') as Hat by (intros; apply list_lookup_insert_eq; by eapply lookup_lt_Some).
  destruct (flights (cache s) !! loc) as [[b|]|] eqn:E.
  - exists (LGo i). cbn. rewrite Hi. cbn. rewrite E. eexists. split; [done|]. right. eexists. apply Hat.
  - destruct Hend as [[b Hb]|Hend]; [congruence|]. exists (LTimeout i). cbn. rewrite Hi. cbn. rewrite (proj2 (Z.leb_le _ _) Hend). cbn. rewrite E. eexists. split; [done|]. left. apply Hat.
  - destruct Hend as [[b Hb]|Hend]; [congruence|]. exists (LTimeout i). cbn. rewrite Hi. cbn. rewrite (proj2 (Z.leb_le _ _) Hend). cbn. rewrite E. eexists. split; [done|]. left. apply Hat.
Qed.


(** Carriage-return line-feed text, for the runs below. *)
Definition crlf_lines (ls : list bytes) : bytes := concat ((fun l => l ++ CRLF) <$> ls).

Definition get_a : bytes := crlf_lines [bs "GET /a HTTP/1.1"; bs "Host: x"; []].
Definition ok60 : bytes :=
  crlf_lines [bs "HTTP/1.1 200 OK"; bs "Cache-Control: public, Max-Age=60"; []] ++ bs "hi".
Definition plain200 : bytes := crlf_lines [bs "HTTP/1.1 200 OK"; bs "Vary: Cookie"; []] ++ bs "me".
Definition key_a : bytes := bs "GET /a".

Example get_a_key : cache_key get_a = Some key_a /\ cacheable_lifetime ok60 = Some 60 /\
  cacheable_lifetime plain200 = None.
Proof. done. Qed.

(** A shard leads, an interpreter waits and is served. *)
Definition two_clients : list CLabel :=
  [LStart 0 NonBlocking key_a; LStart 1 Coalescing key_a; LGo 0; LGo 0; LGo 1; LGo 1; LFetch 0 ok60 60; LGo 0; LGo 0; LGo 1].


(** Collapsing does not bound fetches by one: a client that misses
    before the leader stores and elects after the leader clears its marker
    runs a second fetch for the key while the store already holds a fresh
    entry for it. *)
Theorem second_fetch_reachable :
  exists s e, reach cstep (cinit 2) s /\ given s = [(key_a, ok60); (key_a, ok60)] /\
    now s = 0 /\ store (cache s) !! key_a = Some e /\ 0 < max_age e.
Proof.
  eexists _, _. split.
  - apply (run_reach cstep
      [LStart 0 Coalescing key_a; LStart 1 Coalescing key_a; LGo 0; LGo 1; LGo 0; LFetch 0 ok60 60; LGo 0; LGo 0;
       LGo 1; LFetch 1 ok60 60]).
    vm_compute. reflexivity.
  - done.
Qed.

(** A waiter that gives up after five seconds leads beside the leader; and what
    it stores clears the leader's marker, so that a third caller leads too while
    the first fetch is still under way. *)
Theorem deadline_breaks_collapsing :
  exists s, reach cstep (cinit 3) s /\ late s = [key_a] /\
    threads s !! 0%nat = Some (TFold key_a (Some 0%nat)) /\ threads s !! 2%nat = Some (TFold key_a (Some 1%nat)).
Proof.
  eexists. split.
  - apply (run_reach cstep
      [LStart 0 Coalescing key_a; LStart 1 Coalescing key_a; LGo 0; LGo 0; LGo 1; LGo 1; LTick WAIT; LTimeout 1; LGo 1;
       LFetch 1 plain200 0; LGo 1; LGo 1; LStart 2 Coalescing key_a; LGo 2; LGo 2]).
    vm_compute. reflexivity.
  - vm_compute. done.
Qed.

(** A fetch of [serve] that panics leaves its marker, and whoever waits on it in
    [serve] waits for good: no step of the waiter's is possible, and no one can
    be elected for the key. *)
Theorem panic_strands_serve :
  exists s, reach cstep (cinit 2) s /\ threads s !! 1%nat = Some (TWait Serve key_a 0%nat 0) /\
    threads s !! 0%nat = Some TIdle /\ flights (cache s) !! 0%nat = Some None /\ inflight (cache s) !! key_a = Some 0%nat /\ lost s = [0%nat].
Proof.
  eexists. split.
  - apply (run_reach cstep [LStart 0 Serve key_a; LStart 1 Serve key_a; LGo 0; LGo 0; LGo 1; LGo 1; LAbandon 0]). vm_compute. reflexivity.
  - vm_compute. done.
Qed.

Lemma serve_led_marker c req t0 r c1 out k :
  cache_key req = Some k -> serve c req t0 r = Some (c1, out, true) ->
  inflight c1 !! k = None /\ out = stamp r MISS None /\
  forall m, cacheable_lifetime r = Some m -> store c1 !! k = Some (mkEntry r t0 m).
Proof.
  intros Hk Hs. unfold serve in Hs. rewrite Hk in Hs.
  destruct (try_hit c k t0) as [c0 [hit|]]; [done|].
  destruct (elect c0 k) as [c2 [loc [|]]]; [|repeat case_match; done].
  simplify_eq. simpl. rewrite lookup_delete_eq. split; [done|]. split; [done|].
  intros m Hm. unfold insert_if_cacheable. rewrite Hm. simpl. by rewrite lookup_insert_eq.
Qed.

(** Store and replay: after a fetch of a cacheable response, a request
    for the same key at a later time replays exactly those bytes, stamped with
    their age, without running the handler, for as long as the age in whole
    seconds is below the lifetime, and runs the handler from then on. *)
Theorem serve_replays_while_fresh (c c1 : ResponseCache) (req req' k r r' out : bytes) (t0 t1 m : Z) :
  cache_key req = Some k -> cache_key req' = Some k -> cacheable_lifetime r = Some m ->
  serve c req t0 r = Some (c1, out, true) ->
  if elapsed_secs t1 t0 <? m
  then serve c1 req' t1 r' = Some (c1, stamp r HIT (Some (elapsed_secs t1 t0)), false)
  else exists c2, serve c1 req' t1 r' = Some (c2, stamp r' MISS None, true).
Proof.
  intros Hk Hk' Hm Hs. destruct (serve_led_marker _ _ _ _ _ _ _ Hk Hs) as (Hin & _ & Hst).
  specialize (Hst m Hm). unfold serve at 1 2. rewrite Hk'. unfold try_hit. rewrite Hst.
  cbn [stored_at body max_age]. destruct (elapsed_secs t1 t0 <? m); [done|].
  unfold elect. cbn [inflight set_store]. rewrite Hin. by eexists.
Qed.

Lemma serve_replays_while_fresh_witness :
  exists c1, serve ResponseCache_new get_a 0 ok60 = Some (c1, stamp ok60 MISS None, true) /\
    serve c1 get_a (59 * NANOS) plain200 = Some (c1, stamp ok60 HIT (Some 59), false).
Proof.
  eexists. split; [vm_compute; reflexivity|].
  refine (serve_replays_while_fresh ResponseCache_new _ get_a get_a key_a ok60 plain200
            (stamp ok60 MISS None) 0 (59 * NANOS) 60 _ _ _ _); vm_compute; reflexivity.
Defined.

(** A GET whose response carries no lifetime is not stored, but it is
    still stamped, against the documented unstamped pass-through: the fetched
    bytes come back with [X-Cache: MISS] after the status line. *)
Theorem uncacheable_get_is_stamped (c c1 : ResponseCache) (req k r out : bytes) (t : Z) :
  cache_key req = Some k -> cacheable_lifetime r = None ->
  serve c req t r = Some (c1, out, true) ->
  out = stamp r MISS None /\ store c1 !! k = store (try_hit c k t).1 !! k.
Proof.
  intros Hk Hm Hs. destruct (serve_led_marker _ _ _ _ _ _ _ Hk Hs) as (_ & Ho & _). split; [done|].
  unfold serve in Hs. rewrite Hk in Hs. destruct (try_hit c k t) as [c0 [hit|]]; [done|].
  unfold elect, insert_if_cacheable in Hs. rewrite Hm in Hs.
  destruct (inflight c0 !! k); [repeat case_match; done|]. by simplify_eq.
Qed.

Lemma uncacheable_get_is_stamped_witness :
  exists c1 out, serve ResponseCache_new get_a 0 plain200 = Some (c1, out, true) /\
    out = stamp plain200 MISS None.
Proof.
  eexists _, _. split; [vm_compute; reflexivity|].
  refine (proj1 (uncacheable_get_is_stamped ResponseCache_new _ get_a key_a plain200 _ 0 _ _ _));
    vm_compute; reflexivity.
Defined.
