(* ===== verification/DiskCache.v ===== *)
(** * The disk cache ([migration/dataplane/host/src/cache_disk.rs])

    The entry codec, the key hash and path, and [put], [get_entry],
    [get_fresh], [remove], [promote_on_miss] and [reap] over a file system
    that maps a path under the root (its components) to file contents. An I/O
    error is a parameter of [put]: which of its system calls fails, and what a
    failed write leaves in the temporary file. Each operation is one step here,
    as when no other thread is at work on the key; [DiskConc] takes them one
    system call at a time. *)
From S2P Require Import Prelude Bytes Cache.

Local Open Scope Z_scope.

Definition MAGIC : bytes := bs "DKCH".
Definition VERSION : Z := 1.

Record DiskEntry := mkDiskEntry {
  d_key : bytes; d_stored_at : Z; d_max_age : Z; d_body : bytes
}.

Definition fresh (e : DiskEntry) (now : Z) : bool :=
  saturating_sub now (d_stored_at e) <? d_max_age e.

(** ** Codec *)

Definition encode (key resp : bytes) (stored_at max_age : Z) : bytes :=
  MAGIC ++ to_le_bytes 4 VERSION ++ to_le_bytes 8 stored_at ++ to_le_bytes 8 max_age ++
  to_le_bytes 4 (wrap 32 (Z.of_nat (length key))) ++ key ++ resp.

Definition decode (data : bytes) : option DiskEntry :=
  if (length data <? 28)%nat || negb (bytes_eqb (slice 0 4 data) MAGIC) then None
  else if negb (from_le_bytes (slice 4 8 data) =? VERSION) then None
  else
    let stored_at := from_le_bytes (slice 8 16 data) in
    let max_age := from_le_bytes (slice 16 24 data) in
    let key_len := from_le_bytes (slice 24 28 data) in
    key_end ← checked_add USIZE 28 key_len;
    if Z.of_nat (length data) <? key_end then None
    else Some (mkDiskEntry (slice 28 (Z.to_nat key_end) data) stored_at max_age
                           (drop (Z.to_nat key_end) data)).

(** ** Hash and path *)

Definition fnv1a (data : bytes) (basis : Z) : Z :=
  fold_left (fun h b => wrapping_mul 64 (Z.lxor h b) 0x100000001b3) data basis.

Definition HEX : bytes := bs "0123456789abcdef".

Definition hex_byte (b : Z) : bytes :=
  [default 0 (HEX !! Z.to_nat (Z.shiftr b 4)); default 0 (HEX !! Z.to_nat (Z.land b 0x0f))].

Definition hash_hex (key : bytes) : bytes :=
  let a := fnv1a key 0xcbf29ce484222325 in
  let b := fnv1a key (Z.lxor 0x100000001b3 0xcbf29ce484222325) in
  concat (hex_byte <$> to_be_bytes 8 a ++ to_be_bytes 8 b).

(** A path below the root, by components. *)
Abbreviation Path := (list bytes).
Abbreviation FS := (gmap Path bytes).

Definition entry_path (key : bytes) : Path :=
  let hex := hash_hex key in [slice 0 2 hex; slice 2 4 hex; hex].

Definition dot_tmp : bytes := bs ".tmp".

(** [with_extension("tmp")] of a file name without a dot. *)
Definition tmp_path (p : Path) : Path :=
  match vec_pop p with Some (dir, name) => vec_push dir (name ++ dot_tmp) | None => p end.

Definition is_tmp (name : bytes) : bool := ends_with dot_tmp name && (4 <? length name)%nat.

(** ** Operations *)

Inductive PutIo :=
  | IoOk
  | IoMkdirFails
  | IoWriteFails (left_behind : option bytes)
  | IoRenameFails.

Definition put (enabled : bool) (fs : FS) (key resp : bytes) (stored_at max_age : Z) (io : PutIo) :
    FS * result unit unit :=
  if negb enabled || (max_age =? 0) then (fs, Ok tt)
  else
    let path := entry_path key in
    let data := encode key resp stored_at max_age in
    let tmp := tmp_path path in
    match io with
    | IoMkdirFails => (fs, Err tt)
    | IoWriteFails None => (fs, Err tt)
    | IoWriteFails (Some junk) => (<[tmp := junk]> fs, Err tt)
    | IoRenameFails => (<[tmp := data]> fs, Err tt)
    | IoOk => (<[path := data]> (delete tmp (<[tmp := data]> fs)), Ok tt)
    end.

Definition get_entry (enabled : bool) (fs : FS) (key : bytes) : option DiskEntry :=
  if negb enabled then None
  else data ← fs !! entry_path key;
       entry ← decode data;
       if negb (bytes_eqb (d_key entry) key) then None else Some entry.

Definition get_fresh (enabled : bool) (fs : FS) (key : bytes) (now : Z) : FS * option DiskEntry :=
  match get_entry enabled fs key with
  | None => (fs, None)
  | Some entry =>
      if fresh entry now then (fs, Some entry) else (delete (entry_path key) fs, None)
  end.

Definition remove (enabled : bool) (fs : FS) (key : bytes) : FS * bool :=
  if negb enabled then (fs, false)
  else match fs !! entry_path key with
       | Some _ => (delete (entry_path key) fs, true)
       | None => (fs, false)
       end.

Definition stamp_hit (resp : bytes) (age : Z) : bytes :=
  match find resp CRLF with
  | None => resp
  | Some p =>
      take (p + 2) resp ++ bs "X-Cache: HIT" ++ CRLF ++ bs "Age: " ++ to_dec age ++ CRLF ++
      drop (p + 2) resp
  end.

(** [hot_now] is the hot tier's clock, in nanoseconds. *)
Definition promote_on_miss (enabled : bool) (fs : FS) (hot : ResponseCache) (key : bytes)
    (now hot_now : Z) : FS * ResponseCache * option bytes :=
  match get_fresh enabled fs key now with
  | (fs1, None) => (fs1, hot, None)
  | (fs1, Some entry) =>
      let age := saturating_sub now (d_stored_at entry) in
      let remaining := saturating_sub (d_max_age entry) age in
      (fs1, store_effect hot key (d_body entry) (Z.max remaining 1) hot_now,
       Some (stamp_hit (d_body entry) age))
  end.

(** The files two levels down, less the temporary ones. *)
Definition swept (p : Path) : bool :=
  match p with [_; _; name] => negb (is_tmp name) | _ => false end.

Definition reapable (now : Z) (p : Path) (data : bytes) : bool :=
  swept p && negb (match decode data with Some e => fresh e now | None => false end).

Definition reap (enabled : bool) (fs : FS) (now : Z) : FS * nat :=
  if negb enabled then (fs, 0%nat)
  else
    let kept := filter (fun pd => reapable now pd.1 pd.2 = false) fs in
    (kept, (size fs - size kept)%nat).

(** ** Codec facts *)

Lemma slice_app_r (a b : bytes) i j :
  (length a <= i)%nat -> slice i j (a ++ b) = slice (i - length a) (j - length a) b.
Proof.
  intros H. unfold slice. rewrite drop_app_ge by done. f_equal. lia.
Qed.

Lemma slice_app_l (a b : bytes) j : length a = j -> slice 0 j (a ++ b) = a.
Proof. intros <-. unfold slice. rewrite drop_0, Nat.sub_0_r. apply take_app_length. Qed.

(** The field of [n] bytes that starts a run of fields. *)
Lemma field_here (f rest pre : bytes) i j :
  length pre = i -> (j - i)%nat = length f -> slice i j (pre ++ f ++ rest) = f.
Proof.
  intros Hi Hj. rewrite slice_app_r by lia. rewrite Hi, Nat.sub_diag. apply slice_app_l. lia.
Qed.

Definition entry_ok (key : bytes) (stored_at max_age : Z) : Prop :=
  Z.of_nat (length key) < 2 ^ 32 /\ fits 64 stored_at /\ fits 64 max_age.

Lemma encode_fields key resp sa ma :
  encode key resp sa ma =
    (MAGIC ++ to_le_bytes 4 VERSION ++ to_le_bytes 8 sa ++ to_le_bytes 8 ma ++
     to_le_bytes 4 (wrap 32 (Z.of_nat (length key)))) ++ key ++ resp.
Proof. unfold encode. by rewrite <- !app_assoc. Qed.

Lemma encode_length key resp sa ma :
  length (encode key resp sa ma) = (28 + length key + length resp)%nat.
Proof. unfold encode. rewrite !length_app, !length_to_le_bytes. simpl. lia. Qed.

(** Where each field of an encoded entry is. *)
Lemma encode_slices key resp sa ma :
  let data := encode key resp sa ma in
  slice 0 4 data = MAGIC /\ slice 4 8 data = to_le_bytes 4 VERSION /\
  slice 8 16 data = to_le_bytes 8 sa /\ slice 16 24 data = to_le_bytes 8 ma /\
  slice 24 28 data = to_le_bytes 4 (wrap 32 (Z.of_nat (length key))) /\
  slice 28 (28 + length key) data = key /\ drop (28 + length key) data = resp.
Proof.
  cbv zeta. set (kl := to_le_bytes 4 (wrap 32 _)).
  assert (forall n x, length (to_le_bytes n x) = n) as Hl by apply length_to_le_bytes.
  assert (length kl = 4%nat) as Hkl by apply Hl.
  unfold encode. fold kl. split_and!.
  - by apply slice_app_l.
  - by apply field_here.
  - rewrite (app_assoc MAGIC). apply field_here; [done|]. by rewrite Hl.
  - rewrite (app_assoc MAGIC), (app_assoc (MAGIC ++ _)).
    apply field_here; rewrite ?length_app, ?Hl; done.
  - rewrite (app_assoc MAGIC), (app_assoc (MAGIC ++ _)), (app_assoc ((MAGIC ++ _) ++ _)).
    apply field_here; rewrite ?length_app, ?Hl, ?Hkl; done.
  - rewrite (app_assoc MAGIC), (app_assoc (MAGIC ++ _)), (app_assoc ((MAGIC ++ _) ++ _)),
      (app_assoc (((MAGIC ++ _) ++ _) ++ _)).
    apply field_here; rewrite ?length_app, ?Hl, ?Hkl; simpl; lia.
  - rewrite !app_assoc, drop_app_ge by (rewrite ?length_app, ?Hl, ?Hkl; simpl; lia).
    rewrite !length_app, !Hl, Hkl. simpl. by replace (_ - _)%nat with 0%nat by lia.
Qed.

Lemma decode_encode key resp sa ma :
  entry_ok key sa ma -> decode (encode key resp sa ma) = Some (mkDiskEntry key sa ma resp).
Proof.
  intros (Hk & Hs & Hm). unfold fits in *.
  destruct (encode_slices key resp sa ma) as (H1 & H2 & H3 & H4 & H5 & H6 & H7).
  unfold decode. rewrite encode_length, H1, H2, H3, H4, H5, bytes_eqb_refl.
  rewrite (proj2 (Nat.ltb_ge _ _)) by lia.
  change (from_le_bytes (to_le_bytes 4 VERSION) =? VERSION) with true. cbn [negb orb].
  unfold wrap. rewrite Z.mod_small by lia. rewrite !from_to_le_bytes by (simpl; lia).
  unfold checked_add, max_uint, USIZE. rewrite (proj2 (Z.leb_le _ _)) by lia. cbn [mbind option_bind].
  rewrite (proj2 (Z.ltb_ge _ _)) by lia.
  replace (Z.to_nat (28 + Z.of_nat (length key))) with (28 + length key)%nat by lia.
  by rewrite H6, H7.
Qed.

Lemma slices_join (d : bytes) i j k : (i <= j <= k)%nat -> slice i j d ++ slice j k d = slice i k d.
Proof.
  intros H. unfold slice. rewrite <- (take_drop (j - i) (take (k - i) (drop i d))), take_take, skipn_firstn_comm, drop_drop.
  rewrite Nat.min_l by lia. f_equal. replace (i + (j - i))%nat with j by lia. f_equal. lia.
Qed.

Lemma slice_length (d : bytes) i j : (i <= j <= length d)%nat -> length (slice i j d) = (j - i)%nat.
Proof. intros H. unfold slice. rewrite length_take, length_drop. lia. Qed.

Lemma slice_ok d i j : bytes_ok d -> bytes_ok (slice i j d).
Proof. intros H. by apply Forall_take, Forall_drop. Qed.

Lemma refield d i j n :
  bytes_ok d -> (i <= j <= length d)%nat -> n = (j - i)%nat ->
  to_le_bytes n (from_le_bytes (slice i j d)) = slice i j d.
Proof.
  intros Hd Hij ->. rewrite <- (slice_length d i j Hij) at 1. by apply to_from_le_bytes, slice_ok.
Qed.

Lemma encode_decode d e :
  bytes_ok d -> decode d = Some e -> encode (d_key e) (d_body e) (d_stored_at e) (d_max_age e) = d.
Proof.
  intros Hd H. unfold decode in H.
  destruct (length d <? 28)%nat eqn:El; [done|]. apply Nat.ltb_ge in El.
  destruct (bytes_eqb (slice 0 4 d) MAGIC) eqn:Em; [|done]. apply bytes_eqb_eq in Em.
  destruct (from_le_bytes (slice 4 8 d) =? VERSION) eqn:Ev; [|done]. zify_bool. cbn [negb orb] in H.
  pose proof (from_le_bytes_bound (slice 24 28 d) (slice_ok d _ _ Hd)) as Hkl.
  rewrite slice_length in Hkl by lia. simpl in Hkl.
  unfold checked_add in H. destruct (_ <=? _); [|done]. cbn [mbind option_bind] in H.
  destruct (_ <? _) eqn:Ek; [done|]. zify_bool. injection H as <-. cbn [d_key d_body d_stored_at d_max_age].
  set (kl := from_le_bytes (slice 24 28 d)) in *.
  unfold encode. rewrite <- Em, <- Ev, slice_length by lia. unfold wrap.
  replace (Z.of_nat (Z.to_nat (28 + kl) - 28) mod 2 ^ 32) with kl by (rewrite Z.mod_small; lia).
  subst kl. rewrite !refield by (done || lia).
  rewrite !app_assoc. rewrite !slices_join by lia.
  unfold slice. rewrite drop_0, Nat.sub_0_r. apply take_drop.
Qed.

(** The on-disk format is a bijection between entries and the files it
    accepts: every entry whose key is under 4 GiB and whose times are [u64]
    reads back as written, and every byte file that decodes is the encoding of
    what it decodes to. *)
Theorem disk_codec_bijective (key resp d : bytes) (sa ma : Z) (e : DiskEntry) :
  (entry_ok key sa ma -> decode (encode key resp sa ma) = Some (mkDiskEntry key sa ma resp)) /\
  (bytes_ok d -> decode d = Some e ->
   encode (d_key e) (d_body e) (d_stored_at e) (d_max_age e) = d).
Proof. split; [apply decode_encode|apply encode_decode]. Qed.

Lemma disk_codec_bijective_witness :
  decode (encode (bs "GET /a") (bs "hi") 1700000000 60) =
    Some (mkDiskEntry (bs "GET /a") 1700000000 60 (bs "hi")).
Proof.
  refine (proj1 (disk_codec_bijective (bs "GET /a") (bs "hi") [] 1700000000 60
                   (mkDiskEntry [] 0 0 [])) _).
  repeat split; vm_compute; congruence.
Defined.

(** ** Paths *)

Definition is_hex (c : Z) : Prop := c ∈ HEX.

Lemma hex_byte_ok b : byte_ok b -> Forall is_hex (hex_byte b) /\ length (hex_byte b) = 2%nat.
Proof.
  intros Hb. unfold byte_ok in Hb. split; [|done].
  assert (forall n, 0 <= n < 16 -> is_hex (default 0 (HEX !! Z.to_nat n))) as Hd.
  { intros n Hn. destruct (lookup_lt_is_Some_2 HEX (Z.to_nat n)) as [c Hc]; [simpl; lia|].
    rewrite Hc. unfold is_hex. simpl. by eapply list_elem_of_lookup_2. }
  unfold hex_byte. constructor; [|constructor; [|constructor]]; apply Hd.
  - rewrite Z.shiftr_div_pow2 by lia. split; [apply Z.div_pos; lia|]. apply Z.div_lt_upper_bound; lia.
  - change 0x0f with (Z.ones 4). rewrite Z.land_ones by lia. apply Z.mod_pos_bound. lia.
Qed.

Lemma hex_bytes_ok l :
  bytes_ok l -> Forall is_hex (concat (hex_byte <$> l)) /\ length (concat (hex_byte <$> l)) = (2 * length l)%nat.
Proof.
  induction 1 as [|b l Hb _ [IH1 IH2]]; [done|]. destruct (hex_byte_ok b Hb) as [H1 H2].
  rewrite fmap_cons. cbn [concat]. split; [by apply Forall_app|].
  rewrite length_app, IH2, H2. simpl. lia.
Qed.

Lemma hash_hex_ok key : Forall is_hex (hash_hex key) /\ length (hash_hex key) = 32%nat.
Proof.
  unfold hash_hex. set (a := fnv1a key _). set (b := fnv1a key (Z.lxor _ _)).
  destruct (hex_bytes_ok (to_be_bytes 8 a ++ to_be_bytes 8 b)) as [H1 H2].
  - apply Forall_app. split; apply to_be_bytes_ok.
  - split; [done|]. rewrite H2, length_app, !length_to_be_bytes. done.
Qed.

Lemma entry_path_swept key : swept (entry_path key) = true.
Proof.
  unfold swept, entry_path, is_tmp. destruct (hash_hex_ok key) as [Hh Hl].
  revert Hh Hl. generalize (hash_hex key) as h. intros h Hh Hl.
  apply negb_true_iff, andb_false_iff. left. unfold ends_with. rewrite Hl. simpl.
  apply bytes_eqb_neq. intros Heq.
  assert (46 ∈ h) as Hin.
  { rewrite <- (take_drop 28 h), Heq. set_solver. }
  rewrite Forall_forall in Hh. specialize (Hh _ Hin). unfold is_hex in Hh. vm_compute in Hh.
  repeat (apply elem_of_cons in Hh as [[=]|Hh]). by apply elem_of_nil in Hh.
Qed.

Lemma tmp_path_entry key :
  tmp_path (entry_path key) = [slice 0 2 (hash_hex key); slice 2 4 (hash_hex key); hash_hex key ++ dot_tmp].
Proof. done. Qed.

Lemma tmp_path_not_swept key : swept (tmp_path (entry_path key)) = false.
Proof.
  rewrite tmp_path_entry. unfold swept, is_tmp. destruct (hash_hex_ok key) as [_ Hl].
  revert Hl. generalize (hash_hex key) as h. intros h Hl.
  apply negb_false_iff, andb_true_iff. split.
  - unfold ends_with. rewrite length_app, Hl. simpl. apply bytes_eqb_eq.
    rewrite drop_app_ge by lia. by rewrite Hl.
  - rewrite length_app, Hl. done.
Qed.

(** A key's path cannot leave the cache root: its three components are
    non-empty strings of lowercase hexadecimal digits, of widths 2, 2 and 32,
    so none of them is [.] or [..] or holds a separator. *)
Theorem entry_path_safe (key : bytes) :
  Forall (Forall is_hex) (entry_path key) /\ length <$> entry_path key = [2; 2; 32]%nat.
Proof.
  destruct (hash_hex_ok key) as [Hh Hl]. unfold entry_path.
  revert Hh Hl. generalize (hash_hex key) as h. intros h Hh Hl. split.
  - constructor; [|constructor; [|constructor; [|constructor]]]; [by apply Forall_take, Forall_drop..|done].
  - cbn [fmap list_fmap]. by rewrite !slice_length, Hl by (rewrite Hl; lia).
Qed.

(** ** Histories *)

Inductive DiskOp :=
  | DPut (key resp : bytes) (stored_at max_age : Z) (io : PutIo)
  | DRemove (key : bytes)
  | DGetFresh (key : bytes) (now : Z)
  | DReap (now : Z).

Definition disk_op (fs : FS) (op : DiskOp) : FS :=
  match op with
  | DPut key resp sa ma io => (put true fs key resp sa ma io).1
  | DRemove key => (remove true fs key).1
  | DGetFresh key now => (get_fresh true fs key now).1
  | DReap now => (reap true fs now).1
  end.

Definition disk_run (ops : list DiskOp) (fs : FS) : FS := fold_left disk_op ops fs.

(** The entries written so far. *)
Definition put_entry (op : DiskOp) : option DiskEntry :=
  match op with DPut key resp sa ma _ => Some (mkDiskEntry key sa ma resp) | _ => None end.

Definition op_ok (op : DiskOp) : Prop :=
  match op with DPut key _ sa ma _ => entry_ok key sa ma | _ => True end.

Lemma path_swept_ne key p : swept p = true -> p <> tmp_path (entry_path key).
Proof. intros H ->. by rewrite tmp_path_not_swept in H. Qed.

(** What [put] does to the files the cache reads. *)
Lemma put_swept fs key resp sa ma io p :
  swept p = true ->
  (put true fs key resp sa ma io).1 !! p =
    match io with
    | IoOk => if negb (ma =? 0) && bool_decide (p = entry_path key)
              then Some (encode key resp sa ma) else fs !! p
    | _ => fs !! p
    end.
Proof.
  intros Hp. pose proof (path_swept_ne key p Hp) as Hne. unfold put. cbn [negb orb].
  destruct (ma =? 0); [by destruct io|].
  destruct io as [| |[junk|]|]; cbn [fst negb andb]; try done.
  2-3: by rewrite lookup_insert_ne by congruence.
  case_bool_decide as Heq.
  - subst p. by rewrite lookup_insert_eq.
  - rewrite lookup_insert_ne, lookup_delete_ne, lookup_insert_ne by congruence. done.
Qed.

Definition files_from (es : list DiskEntry) (fs : FS) : Prop :=
  forall p data e, swept p = true -> fs !! p = Some data -> decode data = Some e -> e ∈ es.

Lemma files_from_sub es fs fs' :
  files_from es fs -> (forall p d, fs' !! p = Some d -> fs !! p = Some d) -> files_from es fs'.
Proof. intros H Hsub p data e Hp Hd. eauto. Qed.

Lemma disk_op_files es fs op :
  op_ok op -> files_from es fs ->
  files_from (es ++ match put_entry op with Some e => [e] | None => [] end) (disk_op fs op).
Proof.
  intros Hok H. assert (forall fs', (forall p d, fs' !! p = Some d -> fs !! p = Some d) ->
    files_from (es ++ match put_entry op with Some e => [e] | None => [] end) fs') as Hsub.
  { intros fs' Hs p data e Hp Hd He. apply elem_of_app. left. eapply H; eauto. }
  destruct op as [key resp sa ma io|key|key now|now]; cbn [disk_op put_entry] in *.
  - intros p data e Hp Hd He. rewrite put_swept in Hd by done. apply elem_of_app.
    assert (fs !! p = Some data \/ data = encode key resp sa ma) as [Hold| ->].
    { destruct io; auto. destruct (negb (ma =? 0) && bool_decide (p = entry_path key)); simplify_eq; auto. }
    + left. eauto.
    + right. rewrite decode_encode in He by done. simplify_eq. set_solver.
  - apply Hsub. intros p d Hpd. unfold remove in Hpd. cbn [negb] in Hpd.
    destruct (fs !! entry_path key); [|done]. cbn [fst] in Hpd. by apply lookup_delete_Some in Hpd as [_ ?].
  - apply Hsub. intros p d Hpd. unfold get_fresh in Hpd.
    destruct (get_entry true fs key); [|done]. destruct (fresh _ _); [done|]. cbn [fst] in Hpd.
    by apply lookup_delete_Some in Hpd as [_ ?].
  - apply Hsub. intros p d Hpd. unfold reap in Hpd. cbn [negb fst] in Hpd.
    by apply map_lookup_filter_Some in Hpd as [? _].
Qed.

Lemma disk_run_files ops : forall es fs,
  Forall op_ok ops -> files_from es fs -> files_from (es ++ omap put_entry ops) (disk_run ops fs).
Proof.
  induction ops as [|op ops IH]; intros es fs Hok H; [by rewrite app_nil_r|].
  inversion Hok; subst. cbn [disk_run fold_left].
  pose proof (IH _ _ H3 (disk_op_files es fs op H2 H)) as Hrun.
  cbn [omap list_omap]. destruct (put_entry op).
  - by rewrite <- app_assoc in Hrun.
  - by rewrite app_nil_r in Hrun.
Qed.

(** ** Properties *)

(** One operation after another on an empty directory: an entry found fresh for a
    key was put under exactly that key with exactly those bytes, and its age is
    below its lifetime. *)
Theorem disk_history_serves_puts (ops : list DiskOp) (key : bytes) (now : Z) (e : DiskEntry) :
  Forall op_ok ops -> (get_fresh true (disk_run ops ∅) key now).2 = Some e ->
  d_key e = key /\ e ∈ omap put_entry ops /\ saturating_sub now (d_stored_at e) < d_max_age e.
Proof.
  intros Hok Hg. unfold get_fresh in Hg.
  destruct (get_entry true (disk_run ops ∅) key) as [e'|] eqn:E; [|done].
  destruct (fresh e' now) eqn:Ef; simplify_eq/=. unfold fresh in Ef. zify_bool.
  unfold get_entry in E. cbn [negb] in E.
  destruct (disk_run ops ∅ !! entry_path key) as [data|] eqn:Ed; [|done]. cbn [mbind option_bind] in E.
  destruct (decode data) as [e'|] eqn:Edec; [|done]. cbn [mbind option_bind] in E.
  destruct (bytes_eqb (d_key e') key) eqn:Ek; simplify_eq/=. apply bytes_eqb_eq in Ek.
  split; [done|]. split; [|done].
  assert (files_from [] ∅) as H0 by (intros p d x _ Hd; by rewrite lookup_empty in Hd).
  exact (disk_run_files ops [] ∅ Hok H0 _ _ _ (entry_path_swept key) Ed Edec).
Qed.

Definition disk_history : list DiskOp :=
  [DPut (bs "a") (bs "old") 100 10 IoOk; DPut (bs "a") (bs "new") 105 10 (IoWriteFails (Some (bs "DK")));
   DPut (bs "b") (bs "other") 100 50 IoOk; DReap 104].

Definition disk_history_entry : DiskEntry := mkDiskEntry (bs "a") 100 10 (bs "old").

Lemma disk_history_get :
  (get_fresh true (disk_run disk_history ∅) (bs "a") 109).2 = Some disk_history_entry.
Proof. vm_compute. reflexivity. Qed.

Lemma disk_history_serves_puts_witness : d_key disk_history_entry = bs "a".
Proof.
  refine (proj1 (disk_history_serves_puts disk_history (bs "a") 109 _ _ disk_history_get)).
  repeat constructor; vm_compute; congruence.
Defined.

Lemma get_entry_at fs fs' key :
  fs' !! entry_path key = fs !! entry_path key -> get_entry true fs' key = get_entry true fs key.
Proof. intros H. unfold get_entry. by rewrite H. Qed.

(** A write by itself is read back verbatim: when [put] fails, at
    whichever system call and whatever it leaves in the temporary file, every
    key reads as before; when it succeeds, the key reads as exactly the entry
    written, and a key with another path as before. *)
Theorem put_atomic (fs : FS) (key resp key' : bytes) (sa ma : Z) (io : PutIo) :
  entry_ok key sa ma -> ma <> 0 ->
  match put true fs key resp sa ma io with
  | (fs', Err _) => get_entry true fs' key' = get_entry true fs key'
  | (fs', Ok _) =>
      get_entry true fs' key = Some (mkDiskEntry key sa ma resp) /\
      (entry_path key' <> entry_path key -> get_entry true fs' key' = get_entry true fs key')
  end.
Proof.
  intros Hok Hma. pose proof (fun p => put_swept fs key resp sa ma io p) as Hput.
  destruct (put true fs key resp sa ma io) as [fs' r] eqn:E. cbn [fst] in Hput.
  assert (r = if io is IoOk then Ok tt else Err tt) as ->.
  { unfold put in E. cbn [negb orb] in E. rewrite (proj2 (Z.eqb_neq ma 0) Hma) in E.
    by destruct io as [| |[]|]; simplify_eq. }
  rewrite (proj2 (Z.eqb_neq ma 0) Hma) in Hput. cbn [negb andb] in Hput.
  destruct io; try (apply get_entry_at, Hput, entry_path_swept). split.
  - unfold get_entry. rewrite Hput, bool_decide_true by (done || apply entry_path_swept).
    cbn [negb mbind option_bind]. rewrite decode_encode by done. cbn [mbind option_bind d_key].
    by rewrite bytes_eqb_refl.
  - intros Hne. apply get_entry_at. by rewrite Hput, bool_decide_false by (done || apply entry_path_swept).
Qed.

Lemma put_atomic_witness :
  get_entry true (put true ∅ (bs "k") (bs "v") 1 2 IoRenameFails).1 (bs "k") = None /\
  get_entry true (put true ∅ (bs "k") (bs "v") 1 2 IoOk).1 (bs "k") =
    Some (mkDiskEntry (bs "k") 1 2 (bs "v")).
Proof.
  split.
  - refine (put_atomic ∅ (bs "k") (bs "v") (bs "k") 1 2 IoRenameFails _ _); [|lia].
    repeat split; vm_compute; congruence.
  - refine (proj1 (put_atomic ∅ (bs "k") (bs "v") (bs "k") 1 2 IoOk _ _)); [|lia].
    repeat split; vm_compute; congruence.
Defined.

(** The sweep drops exactly the expired and corrupt entries: every key
    fresh at the sweep reads the same afterwards, no key reads as an entry
    that is not fresh, and temporary files are left alone. *)
Theorem reap_exact (fs : FS) (now : Z) (key : bytes) (p : Path) :
  get_entry true (reap true fs now).1 key =
    match get_entry true fs key with
    | Some e => if fresh e now then Some e else None
    | None => None
    end /\
  (swept p = false -> (reap true fs now).1 !! p = fs !! p).
Proof.
  unfold reap. cbn [negb fst]. split.
  - unfold get_entry. cbn [negb]. rewrite map_lookup_filter.
    destruct (fs !! entry_path key) as [data|]; [|done]. cbn [mbind option_bind].
    unfold reapable. cbn [fst snd]. rewrite entry_path_swept. cbn [andb].
    destruct (decode data) as [e|] eqn:Edec; [|case_guard; [done|]; done]. cbn [mbind option_bind].
    destruct (fresh e now) eqn:Ef; cbn [negb].
    + case_guard; [|congruence]. cbn [mbind option_bind]. simpl. rewrite ?Edec. simpl.
      destruct (bytes_eqb (d_key e) key); simpl; by rewrite ?Ef.
    + case_guard; [congruence|]. cbn [mbind option_bind]. simpl. rewrite ?Edec. simpl.
      destruct (bytes_eqb (d_key e) key); simpl; by rewrite ?Ef.
  - intros Hp. rewrite map_lookup_filter. destruct (fs !! p); [|done]. cbn [mbind option_bind].
    unfold reapable. cbn [fst]. rewrite Hp. by case_guard.
Qed.

Lemma reap_exact_witness :
  (reap true {[ [bs "x.tmp"] := bs "junk" ]} 5).1 !! [bs "x.tmp"] = Some (bs "junk").
Proof.
  exact (proj2 (reap_exact {[ [bs "x.tmp"] := bs "junk" ]} 5 (bs "a") [bs "x.tmp"]) eq_refl).
Defined.

Lemma stamp_hit_stamp resp age : stamp_hit resp age = stamp resp HIT (Some age).
Proof. unfold stamp_hit, stamp. destruct (find resp CRLF); [|done]. by rewrite <- !app_assoc. Qed.

Lemma store_effect_entry c key resp m t :
  m <> 0 -> store (store_effect c key resp m t) !! key = Some (mkEntry resp t m).
Proof.
  intros Hm. unfold store_effect, insert_for. rewrite (proj2 (Z.eqb_neq m 0) Hm). cbn [negb]. unfold publish_store.
  repeat case_match; cbn; apply lookup_insert_eq.
Qed.

(** Promotion keeps the expiry and restarts the age: a promoted entry is
    answered with its true age, and from then on the hot tier serves it
    exactly until the disk entry would have expired, but reports the seconds
    since the promotion, not since the response was stored, as its [Age]. *)
Theorem promotion_keeps_expiry (fs : FS) (hot : ResponseCache) (key : bytes) (e : DiskEntry) (now t : Z) :
  get_entry true fs key = Some e -> d_stored_at e <= now ->
  fresh e now = true -> now <= t ->
  let '(_, hot', out) := promote_on_miss true fs hot key now (now * NANOS) in
  out = Some (stamp (d_body e) HIT (Some (now - d_stored_at e))) /\
  (try_hit hot' key (t * NANOS)).2 =
    if t - d_stored_at e <? d_max_age e
    then Some (stamp (d_body e) HIT (Some (t - now))) else None.
Proof.
  intros Hg Hs Hf Ht. unfold promote_on_miss, get_fresh. rewrite Hg, Hf. unfold fresh in Hf.
  unfold saturating_sub in *. zify_bool. rewrite stamp_hit_stamp, (Z.max_r 0 (now - _)) by lia.
  split; [done|]. unfold try_hit. rewrite store_effect_entry by lia. cbn [stored_at max_age body].
  unfold elapsed_secs, saturating_sub. rewrite Z.max_r by (unfold NANOS; lia).
  rewrite <- Z.mul_sub_distr_r, Z.div_mul by done.
  replace (t - now <? Z.max (Z.max 0 (d_max_age e - (now - d_stored_at e))) 1)
    with (t - d_stored_at e <? d_max_age e); [by case_match|].
  apply bool_eq_iff. rewrite !Z.ltb_lt. lia.
Qed.

Definition disk_with_a : FS := (put true ∅ (bs "a") (bs "v") 100 10 IoOk).1.

Lemma disk_with_a_get : get_entry true disk_with_a (bs "a") = Some (mkDiskEntry (bs "a") 100 10 (bs "v")).
Proof. vm_compute. reflexivity. Qed.

Lemma promotion_keeps_expiry_witness :
  let '(_, hot', out) := promote_on_miss true disk_with_a ResponseCache_new (bs "a") 106 (106 * NANOS) in
  out = Some (stamp (bs "v") HIT (Some 6)) /\
  (try_hit hot' (bs "a") (107 * NANOS)).2 = Some (stamp (bs "v") HIT (Some 1)).
Proof.
  exact (promotion_keeps_expiry disk_with_a ResponseCache_new (bs "a")
           (mkDiskEntry (bs "a") 100 10 (bs "v")) 106 107 disk_with_a_get
           ltac:(simpl; lia) eq_refl ltac:(lia)).
Defined.
