(* ===== verification/DiskConc.v ===== *)
(** * The disk cache under concurrent threads ([cache_disk.rs])

    [DiskCache.put] writes a temporary file and renames it, and the temporary
    name is a function of the key alone: two puts of one key share it. Here the
    operations are run one system call at a time, by any number of threads, over
    a file system in which a name leads to a node and an open file keeps its
    node: [put] makes the directory, opens and truncates the temporary file,
    writes it in any number of pieces, each of which may fail, and renames it;
    a reader opens, reads the file in one step (a published file changes only
    while two puts of its path cross), and removes what is stale. Directories are never
    removed, so only the making of one can fail. *)
From S2P Require Import Prelude Bytes Cache DiskCache.

Local Open Scope Z_scope.

(** ** The file system *)
Record Disk := mkDisk { names : gmap Path nat; nodes : list bytes }.

Definition contents (d : Disk) (p : Path) : option bytes := ino ← names d !! p; nodes d !! ino.

(** [File::create]: the node the name leads to, emptied, or a new one. *)
Definition create (p : Path) (d : Disk) : nat * Disk :=
  match names d !! p with
  | Some ino => (ino, mkDisk (names d) (<[ino := []]> (nodes d)))
  | None => (length (nodes d), mkDisk (<[p := length (nodes d)]> (names d)) (nodes d ++ [[]]))
  end.

(** A write of [b] at [off]; a gap is filled with zeros. *)
Definition write_at (off : nat) (b old : bytes) : bytes :=
  take off old ++ replicate (off - length old) 0 ++ b ++ drop (off + length b) old.
Definition write_node (ino off : nat) (b : bytes) (d : Disk) : Disk := mkDisk (names d) (alter (write_at off b) ino (nodes d)).

(** [fs::rename]; [None] without a file of the old name. *)
Definition rename (p q : Path) (d : Disk) : option Disk :=
  ino ← names d !! p; Some (mkDisk (<[q := ino]> (delete p (names d))) (nodes d)).
Definition unlink (p : Path) (d : Disk) : Disk := mkDisk (delete p (names d)) (nodes d).

(** ** Threads *)
Definition path_of (e : DiskEntry) : Path := entry_path (d_key e).
Definition data_of (e : DiskEntry) : bytes := encode (d_key e) (d_body e) (d_stored_at e) (d_max_age e).

Inductive DThread :=
  | DIdle
  | PMake (e : DiskEntry)                        (* [create_dir_all] *)
  | POpen (e : DiskEntry)                        (* [fs::write]: the open *)
  | PWrite (e : DiskEntry) (ino off : nat)       (* [fs::write]: [off] bytes are out *)
  | PRename (e : DiskEntry)
  | GOpen (key : bytes) (now : Z)                (* [get_fresh] *)
  | GRead (key : bytes) (now : Z) (ino : nat)
  | GStale (key : bytes)
  | GDone (key : bytes) (now : Z) (r : option DiskEntry)
  | SOpen (p : Path) (now : Z)                   (* a file of the sweep *)
  | SRead (p : Path) (now : Z) (ino : nat)
  | SRemove (p : Path).

(** [puts]: every entry whose put has begun. [crossed]: the paths for which a put
    opened the temporary file while another one had it open or had still to
    rename it. *)
Record DSys := mkDSys { disk : Disk; dthreads : list DThread; puts : list DiskEntry; crossed : list Path }.

(** How a system call ends. *)
Inductive Outcome := Works | Wrote (n : nat) | Fails.

Inductive DLabel :=
  | LPutDisk (i : nat) (e : DiskEntry) | LGetDisk (i : nat) (key : bytes) (now : Z)
  | LRemoveDisk (i : nat) (key : bytes) | LSweep (i : nat) (p : Path) (now : Z)
  | LCall (i : nat) (o : Outcome).

Definition busy (p : Path) (t : DThread) : bool :=
  match t with PWrite e _ _ | PRename e => bool_decide (path_of e = p) | _ => false end.

Definition dgo (i : nat) (t : DThread) (d : Disk) (s : DSys) : DSys := mkDSys d (<[i := t]> (dthreads s)) (puts s) (crossed s).

(** What [get_entry] makes of the bytes read. *)
Definition read_entry (key data : bytes) : option DiskEntry :=
  entry ← decode data; if negb (bytes_eqb (d_key entry) key) then None else Some entry.

Definition call_step (i : nat) (t : DThread) (o : Outcome) (s : DSys) : option DSys :=
  let d := disk s in
  match t, o with
  | PMake e, Works => Some (dgo i (POpen e) d s)
  | POpen e, Works =>
      let p := path_of e in
      let '(ino, d1) := create (tmp_path p) d in
      Some (mkDSys d1 (<[i := PWrite e ino 0]> (dthreads s)) (puts s) (if existsb (busy p) (dthreads s) then p :: crossed s else crossed s))
  | PWrite e ino off, Wrote n =>
      let data := data_of e in
      if (0 <? n)%nat && (off + n <=? length data)%nat then
        Some (dgo i (if (off + n =? length data)%nat then PRename e else PWrite e ino (off + n)) (write_node ino off (slice off (off + n) data) d) s)
      else None
  | PRename e, Works =>
      Some (dgo i DIdle (default d (rename (tmp_path (path_of e)) (path_of e) d)) s)
  | PMake _, Fails | POpen _, Fails | PWrite _ _ _, Fails | PRename _, Fails => Some (dgo i DIdle d s)
  | GOpen key now, Works =>
      match names d !! entry_path key with
      | Some ino => Some (dgo i (GRead key now ino) d s)
      | None => Some (dgo i (GDone key now None) d s)
      end
  | GRead key now ino, Works =>
      match nodes d !! ino ≫= read_entry key with
      | None => Some (dgo i (GDone key now None) d s)
      | Some entry => Some (dgo i (if fresh entry now then GDone key now (Some entry) else GStale key) d s)
      end
  | GOpen key now, Fails | GRead key now _, Fails => Some (dgo i (GDone key now None) d s)
  | GStale key, Works => Some (dgo i DIdle (unlink (entry_path key) d) s)
  | SOpen p now, Works =>
      match names d !! p with
      | Some ino => Some (dgo i (SRead p now ino) d s)
      | None => Some (dgo i DIdle d s)
      end
  | SRead p now ino, Works =>
      match nodes d !! ino ≫= decode with
      | Some entry => Some (dgo i (if fresh entry now then DIdle else SRemove p) d s)
      | None => Some (dgo i (SRemove p) d s)
      end
  | SRemove p, Works => Some (dgo i DIdle (unlink p d) s)
  | GStale _, Fails | SOpen _ _, Fails | SRead _ _ _, Fails | SRemove _, Fails => Some (dgo i DIdle d s)
  | _, _ => None
  end.

(** A put whose lifetime is zero does nothing; the times are [u64] and a key is
    under 4 GiB. The sweep takes the files two levels down that are not
    temporary. *)
Definition dstep (l : DLabel) (s : DSys) : option DSys :=
  let ready i := match dthreads s !! i with Some DIdle | Some (GDone _ _ _) => true | _ => false end in
  match l with
  | LPutDisk i e =>
      if ready i && bool_decide (entry_ok (d_key e) (d_stored_at e) (d_max_age e)) && negb (d_max_age e =? 0)
      then Some (mkDSys (disk s) (<[i := PMake e]> (dthreads s)) (puts s ++ [e]) (crossed s)) else None
  | LGetDisk i key now => if ready i then Some (dgo i (GOpen key now) (disk s) s) else None
  | LRemoveDisk i key => if ready i then Some (dgo i (SRemove (entry_path key)) (disk s) s) else None
  | LSweep i p now => if ready i && swept p then Some (dgo i (SOpen p now) (disk s) s) else None
  | LCall i o => t ← dthreads s !! i; call_step i t o s
  end.

Definition dinit (n : nat) : DSys := mkDSys (mkDisk ∅ []) (replicate n DIdle) [] [].

(** ** Paths *)
Lemma tmp_entry_inj k k' : tmp_path (entry_path k) = tmp_path (entry_path k') -> entry_path k = entry_path k'.
Proof. rewrite !tmp_path_entry. unfold entry_path. generalize (hash_hex k), (hash_hex k'). intros h h' E. apply (f_equal (fun p => p !! 2%nat)) in E. injection E as E%app_inv_tail. by rewrite E. Qed.

Lemma entry_not_tmp k k' : entry_path k <> tmp_path (entry_path k').
Proof. apply path_swept_ne, entry_path_swept. Qed.

#[local] Opaque entry_path tmp_path encode.

(** ** Whose node it is

    Every node belongs to one entry path, [home]: only that path, its temporary
    name, and the threads at work on it lead to it. *)
Record located (home : list Path) (d : Disk) : Prop := {
  lo_len : length home = length (nodes d);
  lo_path : forall k ino, names d !! entry_path k = Some ino -> home !! ino = Some (entry_path k);
  lo_tmp : forall k ino, names d !! tmp_path (entry_path k) = Some ino -> home !! ino = Some (entry_path k);
  lo_apart : forall k ino, names d !! entry_path k = Some ino -> names d !! tmp_path (entry_path k) <> Some ino
}.

Definition thread_home (home : list Path) (t : DThread) : Prop :=
  match t with
  | PWrite e ino _ => home !! ino = Some (path_of e)
  | GRead key _ ino => home !! ino = Some (entry_path key)
  | SOpen p _ | SRead p _ _ | SRemove p => swept p = true
  | _ => True
  end.

Lemma thread_home_mono home home' t : home `prefix_of` home' -> thread_home home t -> thread_home home' t.
Proof. intros Hp. destruct t; cbn; try done; intros; by eapply prefix_lookup_Some. Qed.

Lemma located_create home d k ino d' : located home d -> create (tmp_path (entry_path k)) d = (ino, d') ->
  exists home', home `prefix_of` home' /\ located home' d' /\ home' !! ino = Some (entry_path k).
Proof.
  intros [Hl Hp Ht Ha] H. unfold create in H. destruct (names d !! tmp_path (entry_path k)) as [i|] eqn:E; injection H as <- <-.
  - exists home. split_and!; [done| |eauto]. split; cbn; [by rewrite length_insert|done..].
  - exists (home ++ [entry_path k]). rewrite <- Hl. assert (forall l p, home !! l = Some p -> (home ++ [entry_path k]) !! l = Some p) as Hm by (intros; by apply lookup_app_l_Some).
    split_and!; [by apply prefix_app_r| |by rewrite lookup_app_r, Nat.sub_diag by lia]. split; cbn.
    + rewrite !length_app. cbn. lia.
    + intros k0 ino H. rewrite lookup_insert_ne in H by (intros Heq; by eapply entry_not_tmp). eauto.
    + intros k0 ino [[Heq%tmp_entry_inj <-]|[_ H]]%lookup_insert_Some; [|eauto]. rewrite <- Heq. by rewrite lookup_app_r, Nat.sub_diag by lia.
    + intros k0 ino H. rewrite lookup_insert_ne in H by (intros Heq; by eapply entry_not_tmp). intros [[_ <-]|[_ H2]]%lookup_insert_Some; [|by eapply Ha].
      apply Hp, lookup_lt_Some in H. lia.
Qed.

Lemma located_write home d ino off b : located home d -> located home (write_node ino off b d).
Proof. intros [Hl Hp Ht Ha]. split; cbn; [by rewrite length_alter|done..]. Qed.

Lemma located_rename home d k d' : located home d -> rename (tmp_path (entry_path k)) (entry_path k) d = Some d' -> located home d'.
Proof.
  intros [Hl Hp Ht Ha] H. unfold rename in H. destruct (names d !! tmp_path (entry_path k)) as [i|] eqn:E; [|done]. injection H as <-.
  assert (forall k0 ino, (<[entry_path k := i]> (delete (tmp_path (entry_path k)) (names d))) !! tmp_path (entry_path k0) = Some ino -> names d !! tmp_path (entry_path k0) = Some ino /\ entry_path k0 <> entry_path k) as Htm.
  { intros k0 ino H. rewrite lookup_insert_ne in H by apply entry_not_tmp. apply lookup_delete_Some in H as [Hne H]. split; [done|]. intros Heq. by rewrite Heq in Hne. }
  split; cbn; [done|..].
  - intros k0 ino [[<- <-]|[_ [_ H]%lookup_delete_Some]]%lookup_insert_Some; eauto.
  - intros k0 ino [H _]%Htm. eauto.
  - intros k0 ino H [H2 Hne]%Htm. apply lookup_insert_Some in H as [[? _]|[_ [_ H]%lookup_delete_Some]]; [congruence|]. by eapply Ha.
Qed.

Lemma located_unlink home d p : located home d -> located home (unlink p d).
Proof.
  intros [Hl Hp Ht Ha]. split; cbn; [done|..].
  - intros k ino [_ H]%lookup_delete_Some. eauto.
  - intros k ino [_ H]%lookup_delete_Some. eauto.
  - intros k ino [_ H]%lookup_delete_Some [_ H2]%lookup_delete_Some. by eapply Ha.
Qed.

(** ** A path no two puts have crossed on

    Its file holds an entry that was put; the temporary file is the one writer's,
    and holds what it has written; an open file is not written to any more. *)
Definition whole (pu : list DiskEntry) (d : Disk) (ino : nat) : Prop := exists e, e ∈ pu /\ nodes d !! ino = Some (data_of e).

Definition thread_calm (d : Disk) (pu : list DiskEntry) (q : Path) (t : DThread) : Prop :=
  match t with
  | PWrite e ino off => path_of e = q -> e ∈ pu /\ names d !! tmp_path q = Some ino /\ nodes d !! ino = Some (take off (data_of e)) /\ (off < length (data_of e))%nat
  | PRename e => path_of e = q -> e ∈ pu /\ exists ino, names d !! tmp_path q = Some ino /\ nodes d !! ino = Some (data_of e)
  | GRead key _ ino => entry_path key = q -> names d !! tmp_path q <> Some ino /\ whole pu d ino
  | _ => True
  end.

Record calm (s : DSys) (q : Path) : Prop := {
  ca_file : forall ino, names (disk s) !! q = Some ino -> whole (puts s) (disk s) ino;
  ca_threads : forall i t, dthreads s !! i = Some t -> thread_calm (disk s) (puts s) q t;
  ca_alone : forall i j t u, dthreads s !! i = Some t -> dthreads s !! j = Some u -> busy q t = true -> busy q u = true -> i = j
}.

(** What a thread holds whatever the others do. *)
Definition thread_sound (pu : list DiskEntry) (cr : list Path) (t : DThread) : Prop :=
  match t with
  | PMake e | POpen e | PWrite e _ _ | PRename e => e ∈ pu
  | GDone key now (Some e) => d_key e = key /\ fresh e now = true /\ (entry_path key ∉ cr -> e ∈ pu)
  | _ => True
  end.

Record dinv (home : list Path) (s : DSys) : Prop := {
  di_located : located home (disk s);
  di_home : forall i t, dthreads s !! i = Some t -> thread_home home t;
  di_sound : forall i t, dthreads s !! i = Some t -> thread_sound (puts s) (crossed s) t;
  di_puts : forall e, e ∈ puts s -> entry_ok (d_key e) (d_stored_at e) (d_max_age e);
  di_calm : forall k, entry_path k ∉ crossed s -> calm s (entry_path k)
}.

Lemma lookup_dthreads (s : DSys) i (t' : DThread) j u :
  <[i := t']> (dthreads s) !! j = Some u -> (j = i /\ u = t') \/ (j <> i /\ dthreads s !! j = Some u).
Proof. intros [(-> & <- & _)|(Hne & H)]%list_lookup_insert_Some; auto. Qed.

Lemma whole_mono pu pu' d d' ino : pu ⊆ pu' -> nodes d' !! ino = nodes d !! ino -> whole pu d ino -> whole pu' d' ino.
Proof. intros Hp Hn (e & He & Hd). exists e. rewrite Hn. auto. Qed.

(** The threads not at work on the path, and those that are, when its nodes are
    as they were. *)
Lemma thread_calm_mono home d d' pu pu' q t :
  names d' !! tmp_path q = names d !! tmp_path q -> (forall ino, home !! ino = Some q -> nodes d' !! ino = nodes d !! ino) ->
  (forall k ino, q = entry_path k -> names d !! tmp_path q = Some ino -> home !! ino = Some q) -> (exists k, q = entry_path k) ->
  pu ⊆ pu' -> thread_home home t -> thread_calm d pu q t -> thread_calm d' pu' q t.
Proof.
  intros Ht Hn Hl [k Hq] Hp Hh. destruct t; cbn in *; try done.
  - intros H <-. destruct (H eq_refl) as (? & ? & ? & ?). rewrite Ht, Hn by done. auto.
  - intros H E. destruct (H E) as (? & i & ? & ?). split; [auto|]. exists i. rewrite Ht, Hn by eauto. auto.
  - intros H E. destruct (H E) as [? ?]. rewrite Ht. split; [done|]. eapply whole_mono; [done| |done]. apply Hn. by rewrite <- E.
Qed.

(** A move that leaves the path's nodes and temporary name alone. *)
Lemma calm_move home s i t t' d' pu cr k :
  dinv home s -> calm s (entry_path k) -> dthreads s !! i = Some t ->
  (forall ino, names d' !! entry_path k = Some ino -> names (disk s) !! entry_path k = Some ino) ->
  names d' !! tmp_path (entry_path k) = names (disk s) !! tmp_path (entry_path k) ->
  (forall ino, home !! ino = Some (entry_path k) -> nodes d' !! ino = nodes (disk s) !! ino) ->
  puts s ⊆ pu -> thread_calm d' pu (entry_path k) t' -> (busy (entry_path k) t' = true -> busy (entry_path k) t = true) ->
  calm (mkDSys d' (<[i := t']> (dthreads s)) pu cr) (entry_path k).
Proof.
  intros [Hlo Hh _ _ _] [Hf Hth Hal] Hi Hn Ht Hno Hp Hok Hb. split; cbn.
  - intros ino H%Hn. eapply whole_mono; [exact Hp| |by apply Hf]. apply Hno. by eapply lo_path.
  - intros j u [[-> ->]|[_ Hj]]%lookup_dthreads; [done|]. eapply thread_calm_mono; [exact Ht|exact Hno| |by exists k|exact Hp|by eapply Hh|by eapply Hth].
    intros k0 ino -> H. by eapply lo_tmp.
  - intros j j' u u' [[-> ->]|[Hne Hj]]%lookup_dthreads [[-> ->]|[Hne' Hj']]%lookup_dthreads H1 H2; [done|..].
    + destruct Hne'. eapply Hal; eauto.
    + destruct Hne. eapply Hal; eauto.
    + eapply Hal; eauto.
Qed.

Section step.
Context (home : list Path) (s : DSys) (i : nat) (t : DThread).
Context (H : dinv home s) (Hi : dthreads s !! i = Some t).

Lemma dinv_threads home' t' d' pu cr :
  home `prefix_of` home' -> located home' d' -> thread_home home' t' -> puts s ⊆ pu -> crossed s ⊆ cr -> thread_sound pu cr t' ->
  (forall e, e ∈ pu -> entry_ok (d_key e) (d_stored_at e) (d_max_age e)) ->
  (forall k, entry_path k ∉ cr -> calm (mkDSys d' (<[i := t']> (dthreads s)) pu cr) (entry_path k)) ->
  dinv home' (mkDSys d' (<[i := t']> (dthreads s)) pu cr).
Proof using H.
  intros Hpre Hlo Hh Hp Hc Hs Hpu Hca. split; cbn; [done| | |done|done].
  - intros j u [[-> ->]|[_ Hj]]%lookup_dthreads; [done|]. eapply thread_home_mono; [done|]. by eapply di_home.
  - intros j u [[-> ->]|[_ Hj]]%lookup_dthreads; [done|]. pose proof (di_sound _ _ H j u Hj) as Hu. destruct u; cbn in *; auto.
    destruct r; [|done]. destruct Hu as (? & ? & Hu). split_and!; [done..|]. intros Hk. apply Hp, Hu. intros Hin. by apply Hk, Hc.
Qed.

(** Nothing changes on the disk. *)
Lemma dinv_still t' :
  thread_home home t' -> thread_sound (puts s) (crossed s) t' ->
  (forall k, entry_path k ∉ crossed s -> thread_calm (disk s) (puts s) (entry_path k) t') -> (forall q, busy q t' = true -> busy q t = true) ->
  dinv home (dgo i t' (disk s) s).
Proof using H Hi.
  intros Hh Hs Hc Hb. apply dinv_threads; try done; [apply (di_located _ _ H)|apply (di_puts _ _ H)|].
  intros k Hk. eapply calm_move; try done; [by apply (di_calm _ _ H)|by apply Hc|apply Hb].
Qed.

(** A name other than a temporary one is removed. *)
Lemma dinv_unlink p : swept p = true -> dinv home (dgo i DIdle (unlink p (disk s)) s).
Proof using H Hi.
  intros Hp. apply dinv_threads; try done; [apply located_unlink, (di_located _ _ H)|apply (di_puts _ _ H)|].
  intros k Hk. eapply calm_move; try done; [by apply (di_calm _ _ H)|cbn; by intros ino [_ Hn]%lookup_delete_Some|].
  cbn. rewrite lookup_delete_ne; [done|]. by apply path_swept_ne.
Qed.
End step.

Lemma busy_exists q s j u : dthreads s !! j = Some u -> busy q u = true -> existsb (busy q) (dthreads s) = true.
Proof. intros Hj Hb. apply existsb_exists. exists u. split; [|done]. by eapply list_elem_of_In, list_elem_of_lookup_2. Qed.

Lemma create_names home d k ino d' : located home d -> create (tmp_path (entry_path k)) d = (ino, d') ->
  names d' !! tmp_path (entry_path k) = Some ino /\ (forall q, q <> tmp_path (entry_path k) -> names d' !! q = names d !! q) /\
  (names d !! tmp_path (entry_path k) = Some ino \/ ino = length (nodes d)) /\
  (forall j, j <> ino -> (j < length (nodes d))%nat -> nodes d' !! j = nodes d !! j) /\ nodes d' !! ino = Some [].
Proof.
  intros Hlo. unfold create. destruct (names d !! tmp_path (entry_path k)) as [a|] eqn:E; intros [= <- <-]; cbn.
  - split_and!; [done|done|by left|intros j Hj _; by apply list_lookup_insert_ne|].
    apply list_lookup_insert_eq. apply (lo_tmp _ _ Hlo), lookup_lt_Some in E. by rewrite <- (lo_len _ _ Hlo).
  - split_and!; [apply lookup_insert_eq|intros q Hq; by apply lookup_insert_ne|by right|intros j _ Hj; by apply lookup_app_l|].
    by rewrite lookup_app_r, Nat.sub_diag by lia.
Qed.

Lemma home_below home d ino q : located home d -> home !! ino = Some q -> (ino < length (nodes d))%nat.
Proof. intros Hlo Hh. rewrite <- (lo_len _ _ Hlo). by eapply lookup_lt_Some. Qed.

(** The open of a put. *)
Lemma open_inv home s i e ino d' :
  dinv home s -> dthreads s !! i = Some (POpen e) -> create (tmp_path (path_of e)) (disk s) = (ino, d') ->
  exists home', dinv home' (mkDSys d' (<[i := PWrite e ino 0]> (dthreads s)) (puts s) (if existsb (busy (path_of e)) (dthreads s) then path_of e :: crossed s else crossed s)).
Proof.
  intros H Hi Hc. pose proof (di_located _ _ H) as Hlo. pose proof (di_sound _ _ H i _ Hi) as He. cbn in He.
  destruct (located_create _ _ _ _ _ Hlo Hc) as (home' & Hpre & Hlo' & Hino). destruct (create_names _ _ _ _ _ Hlo Hc) as (Hn & Hno & Hold & Hnd & Hempty). change (entry_path (d_key e)) with (path_of e) in *.
  exists home'. apply (dinv_threads _ _ _ H); try done; [by destruct (existsb _ _); set_solver|apply (di_puts _ _ H)|].
  intros k Hk. assert (entry_path k ∉ crossed s) as Hk' by (intros Hin; apply Hk; destruct (existsb _ _); set_solver). pose proof (di_calm _ _ H k Hk') as Hca.
  destruct (decide (entry_path k = path_of e)) as [Heq|Hne].
  - assert (existsb (busy (path_of e)) (dthreads s) = false) as Hb by (destruct (existsb _ _); [|done]; destruct Hk; rewrite Heq; by left).
    rewrite Hb, Heq in *. assert (forall j u, dthreads s !! j = Some u -> busy (path_of e) u = false) as Hnb.
    { intros j u Hj. destruct (busy (path_of e) u) eqn:E; [|done]. by rewrite (busy_exists _ _ _ _ Hj E) in Hb. }
    destruct Hca as [Hf Hth _]. assert (forall a, (a < length (nodes (disk s)))%nat -> names (disk s) !! tmp_path (path_of e) <> Some a -> a <> ino) as Hfresh.
    { intros a Ha Hx ->. destruct Hold as [?|?]; [done|lia]. }
    split; cbn.
    + intros a Ha. rewrite Hno in Ha by apply entry_not_tmp. pose proof (home_below _ _ _ _ Hlo (lo_path _ _ Hlo _ _ Ha)) as Hlt.
      eapply whole_mono; [done| |by apply Hf]. apply Hnd; [|done]. apply Hfresh; [done|]. by eapply lo_apart.
    + intros j u [[-> ->]|[_ Hj]]%lookup_dthreads.
      * cbn. intros _. split_and!; [done|done|by rewrite take_0|]. unfold data_of. rewrite encode_length. lia.
      * pose proof (Hth j u Hj) as Hu. pose proof (Hnb j u Hj) as Hbu. pose proof (di_home _ _ H j u Hj) as Hhu. destruct u; cbn in *; try done.
        -- intros E. by rewrite bool_decide_true in Hbu.
        -- intros E. by rewrite bool_decide_true in Hbu.
        -- intros E. destruct (Hu E) as [Hx Hw]. rewrite E in Hhu. pose proof (home_below _ _ _ _ Hlo Hhu) as Hlt. rewrite Hn. split; [intros [= ->]; by eapply Hfresh|].
           eapply whole_mono; [done| |done]. apply Hnd; [|done]. by apply Hfresh.
    + intros j j' u u' [[-> ->]|[_ Hj]]%lookup_dthreads [[-> ->]|[_ Hj']]%lookup_dthreads B1 B2; [done|..]; by rewrite ?(Hnb _ _ Hj), ?(Hnb _ _ Hj') in *.
  - eapply calm_move; try done.
    + intros a. by rewrite Hno by apply entry_not_tmp.
    + rewrite Hno; [done|]. by intros E%tmp_entry_inj.
    + intros a Ha. apply Hnd; [|by eapply home_below]. intros ->. apply (prefix_lookup_Some _ _ _ _ Ha) in Hpre. congruence.
    + cbn [busy]. by rewrite bool_decide_false by congruence.
Qed.

Lemma write_at_next data off n : (off + n <= length data)%nat -> write_at off (slice off (off + n) data) (take off data) = take (off + n) data.
Proof.
  intros Hl. unfold write_at, slice. rewrite length_take, take_take, !Nat.min_l by lia. rewrite Nat.sub_diag. cbn [replicate app].
  rewrite (drop_ge (take off data)) by (rewrite length_take; lia). rewrite app_nil_r. replace (off + n - off)%nat with n by lia.
  by rewrite <- take_take_drop.
Qed.

(** A piece is written. *)
Lemma write_inv home s i e ino off n :
  dinv home s -> dthreads s !! i = Some (PWrite e ino off) -> (0 < n)%nat -> (off + n <= length (data_of e))%nat ->
  dinv home (dgo i (if (off + n =? length (data_of e))%nat then PRename e else PWrite e ino (off + n)) (write_node ino off (slice off (off + n) (data_of e)) (disk s)) s).
Proof.
  intros H Hi Hn Hle. pose proof (di_located _ _ H) as Hlo. pose proof (di_sound _ _ H i _ Hi) as He. pose proof (di_home _ _ H i _ Hi) as Hho. cbn in He, Hho.
  set (t' := if (_ =? _)%nat then _ else _). assert (forall q, busy q t' = bool_decide (path_of e = q)) as Hbt by (intros q; unfold t'; by destruct (_ =? _)%nat).
  apply (dinv_threads _ _ _ H); try done; [by apply located_write|by unfold t'; destruct (_ =? _)%nat|by unfold t'; destruct (_ =? _)%nat|apply (di_puts _ _ H)|].
  intros k Hk. pose proof (di_calm _ _ H k Hk) as Hca. assert (forall a, a <> ino -> nodes (write_node ino off (slice off (off + n) (data_of e)) (disk s)) !! a = nodes (disk s) !! a) as Hnd
    by (intros a Ha; cbn; by rewrite list_lookup_alter_ne).
  destruct (decide (entry_path k = path_of e)) as [Heq|Hne].
  - rewrite Heq in *. destruct Hca as [Hf Hth Hal]. destruct (Hth i _ Hi eq_refl) as (_ & Htmp & Hnode & _). split; cbn [disk dthreads puts names write_node].
    + intros a Ha. eapply whole_mono; [done| |by apply Hf]. apply Hnd. intros ->. by eapply lo_apart.
    + intros j u [[-> ->]|[Hji Hj]]%lookup_dthreads.
      * unfold t'. destruct (off + n =? length (data_of e))%nat eqn:E; cbn; intros _; (split; [done|]).
        -- apply Nat.eqb_eq in E. exists ino. split; [done|]. rewrite list_lookup_alter_eq, Hnode. cbn. rewrite write_at_next by done. by rewrite take_ge by lia.
        -- apply Nat.eqb_neq in E. split_and!; [done| |lia]. rewrite list_lookup_alter_eq, Hnode. cbn. by rewrite write_at_next by done.
      * pose proof (Hth j u Hj) as Hu. assert (busy (path_of e) u = false) as Hbu.
        { destruct (busy (path_of e) u) eqn:E; [|done]. destruct Hji. apply (Hal j i u _ Hj Hi E). cbn. by rewrite bool_decide_true. }
        destruct u; cbn [busy thread_calm] in *; try done.
        -- intros E. by rewrite bool_decide_true in Hbu.
        -- intros E. by rewrite bool_decide_true in Hbu.
        -- intros E. destruct (Hu E) as [Hx Hw]. split; [done|]. eapply whole_mono; [done| |done]. apply Hnd. congruence.
    + intros j j' u u' [[-> ->]|[Hji Hj]]%lookup_dthreads [[-> ->]|[Hji' Hj']]%lookup_dthreads B1 B2; [done|..].
      * destruct Hji'. eapply Hal; [done..|]. cbn. by rewrite bool_decide_true.
      * destruct Hji. eapply Hal; [done|done|done|]. cbn. by rewrite bool_decide_true.
      * by eapply Hal.
  - eapply calm_move; try done.
    + intros a Ha. apply Hnd. congruence.
    + unfold t'. destruct (_ =? _)%nat; intros E; by destruct Hne.
    + rewrite Hbt, bool_decide_false; [done|congruence].
Qed.

(** The rename. *)
Lemma rename_inv home s i e :
  dinv home s -> dthreads s !! i = Some (PRename e) -> dinv home (dgo i DIdle (default (disk s) (rename (tmp_path (path_of e)) (path_of e) (disk s))) s).
Proof.
  intros H Hi. pose proof (di_located _ _ H) as Hlo. destruct (rename _ _ _) as [d'|] eqn:Er; cbn [default from_option id]; [|by eapply (dinv_still _ _ _ _ H Hi)].
  pose proof (located_rename _ _ _ _ Hlo Er) as Hlo'. apply (dinv_threads _ _ _ H); try done; [apply (di_puts _ _ H)|].
  unfold rename in Er. destruct (names (disk s) !! tmp_path (path_of e)) as [ino|] eqn:Et; [|done]. injection Er as <-.
  intros k Hk. pose proof (di_calm _ _ H k Hk) as Hca. destruct (decide (entry_path k = path_of e)) as [Heq|Hne].
  - rewrite Heq in *. destruct Hca as [Hf Hth Hal]. destruct (Hth i _ Hi eq_refl) as (He & a & Ha & Hnode). assert (a = ino) as -> by congruence. split; cbn [disk dthreads puts names].
    + intros b Hb. rewrite lookup_insert_eq in Hb. injection Hb as <-. by exists e.
    + intros j u [[-> ->]|[Hji Hj]]%lookup_dthreads; [done|]. pose proof (Hth j u Hj) as Hu. assert (busy (path_of e) u = false) as Hbu.
      { destruct (busy (path_of e) u) eqn:E; [|done]. destruct Hji. apply (Hal j i u _ Hj Hi E). cbn. by rewrite bool_decide_true. }
      destruct u; cbn [busy thread_calm] in *; try done.
      * intros E. by rewrite bool_decide_true in Hbu.
      * intros E. by rewrite bool_decide_true in Hbu.
      * intros E. destruct (Hu E) as [Hx Hw]. split; [|done]. cbn. rewrite lookup_insert_ne by apply entry_not_tmp. by rewrite lookup_delete_eq.
    + intros j j' u u' [[-> ->]|[Hji Hj]]%lookup_dthreads [[-> ->]|[Hji' Hj']]%lookup_dthreads B1 B2; try done. by eapply Hal.
  - eapply calm_move; try done; cbn [names].
    + intros b. rewrite lookup_insert_ne by done. by intros [_ Hb]%lookup_delete_Some.
    + rewrite lookup_insert_ne by apply entry_not_tmp. rewrite lookup_delete_ne; [done|]. by intros E%tmp_entry_inj.
Qed.

Lemma read_entry_whole pu d key ino e :
  (forall e, e ∈ pu -> entry_ok (d_key e) (d_stored_at e) (d_max_age e)) -> nodes d !! ino ≫= read_entry key = Some e -> d_key e = key /\ (whole pu d ino -> e ∈ pu).
Proof.
  intros Hok Hr. apply bind_Some in Hr as (data & Hn & Hr). unfold read_entry in Hr. apply bind_Some in Hr as (e0 & Hd & Hr).
  destruct (bytes_eqb (d_key e0) key) eqn:Ek; [|done]. injection Hr as ->. apply bytes_eqb_eq in Ek. split; [done|].
  intros (e1 & He1 & Hw). rewrite Hw in Hn. injection Hn as <-. unfold data_of in Hd. rewrite decode_encode in Hd by (by apply Hok). destruct e1. cbn in Hd. by simplify_eq.
Qed.

Lemma call_inv home s i t o s' : dinv home s -> dthreads s !! i = Some t -> call_step i t o s = Some s' -> exists home', dinv home' s'.
Proof.
  intros H Hi Hs. pose proof (di_located _ _ H) as Hlo. pose proof (di_sound _ _ H i t Hi) as Hso. pose proof (di_home _ _ H i t Hi) as Hho.
  assert (forall t', thread_home home t' -> thread_sound (puts s) (crossed s) t' -> (forall q, busy q t' = false) ->
    (forall k, entry_path k ∉ crossed s -> thread_calm (disk s) (puts s) (entry_path k) t') -> dinv home (dgo i t' (disk s) s)) as Hstill.
  { intros t' ? ? Hb ?. eapply (dinv_still _ _ _ _ H Hi); try done. intros q. by rewrite Hb. }
  destruct t, o; cbn [call_step] in Hs; try done; try (injection Hs as <-; exists home; by apply Hstill).
  - destruct (create _ _) as [ino d'] eqn:Ec. injection Hs as <-. by eapply open_inv.
  - destruct (0 <? n)%nat eqn:E1; [|done]. destruct (_ <=? _)%nat eqn:E2; [|done]. injection Hs as <-. exists home. apply write_inv; [done|done|by apply Nat.ltb_lt|by apply Nat.leb_le].
  - injection Hs as <-. exists home. by apply rename_inv.
  - destruct (names _ !! _) as [ino|] eqn:En; injection Hs as <-; exists home; apply Hstill; try done; [by eapply lo_path|].
    intros k Hk E. rewrite <- E in *. split; [by apply (lo_apart _ _ Hlo)|by apply (ca_file _ _ (di_calm _ _ H key Hk))].
  - destruct (nodes _ !! ino ≫= _) as [e|] eqn:En; injection Hs as <-; exists home; [|by apply Hstill].
    destruct (read_entry_whole _ _ _ _ _ (di_puts _ _ H) En) as [Hk Hw]. destruct (fresh e now) eqn:Ef; apply Hstill; try done.
    cbn. split_and!; [done..|]. intros Hq. apply Hw. by apply (ca_threads _ _ (di_calm _ _ H key Hq) i _ Hi).
  - injection Hs as <-. exists home. eapply (dinv_unlink _ _ _ _ H Hi). apply entry_path_swept.
  - destruct (names _ !! _) as [ino|] eqn:En; injection Hs as <-; exists home; by apply Hstill.
  - destruct (nodes _ !! ino ≫= _) as [e|] eqn:En; injection Hs as <-; exists home; [destruct (fresh e now)|]; by apply Hstill.
  - injection Hs as <-. exists home. by eapply (dinv_unlink _ _ _ _ H Hi).
Qed.

Lemma dstep_inv l s s' : (exists home, dinv home s) -> dstep l s = Some s' -> exists home, dinv home s'.
Proof.
  intros [home H] Hs. assert (forall i, match dthreads s !! i with Some DIdle | Some (GDone _ _ _) => true | _ => false end = true -> exists t, dthreads s !! i = Some t /\ forall q, busy q t = false) as Hready.
  { intros i. destruct (dthreads s !! i) as [t|]; [|done]. intros Hr. exists t. split; [done|]. by destruct t. }
  destruct l as [i e|i key now|i key|i p now|i o]; cbn [dstep] in Hs.
  - destruct (match dthreads s !! i with Some DIdle | Some (GDone _ _ _) => true | _ => false end) eqn:Er; [|done]. apply Hready in Er as (t & Hi & Hb).
    cbn [andb] in Hs. case_bool_decide as Hok; [|done]. destruct (negb _); [|done]. injection Hs as <-. exists home. apply (dinv_threads _ _ _ H); try done.
    + apply (di_located _ _ H).
    + set_solver.
    + cbn. set_solver.
    + intros e' [He'|He'%list_elem_of_singleton]%elem_of_app; [by apply (di_puts _ _ H)|by subst].
    + intros k Hk. eapply calm_move; try done; [by apply (di_calm _ _ H)|set_solver].
  - destruct (match _ with Some DIdle | Some (GDone _ _ _) => true | _ => false end) eqn:Er; [|done]. apply Hready in Er as (t & Hi & Hb). injection Hs as <-. exists home. by eapply (dinv_still _ _ _ _ H Hi).
  - destruct (match _ with Some DIdle | Some (GDone _ _ _) => true | _ => false end) eqn:Er; [|done]. apply Hready in Er as (t & Hi & Hb). injection Hs as <-. exists home. eapply (dinv_still _ _ _ _ H Hi); try done. apply entry_path_swept.
  - destruct (match _ with Some DIdle | Some (GDone _ _ _) => true | _ => false end) eqn:Er; [|done]. apply Hready in Er as (t & Hi & Hb). cbn [andb] in Hs. destruct (swept p) eqn:Ep; [|done]. injection Hs as <-. exists home. by eapply (dinv_still _ _ _ _ H Hi).
  - apply bind_Some in Hs as (t & Hi & Hs). by eapply call_inv.
Qed.

Lemma dinit_inv n : dinv [] (dinit n).
Proof.
  assert (forall i t, replicate n DIdle !! i = Some t -> t = DIdle) as Hr by (by intros i t [-> _]%lookup_replicate).
  split; cbn.
  - by split.
  - by intros i t ->%Hr.
  - by intros i t ->%Hr.
  - by intros e He%elem_of_nil.
  - intros k _. split; cbn; [done|by intros i t ->%Hr|by intros i j t u ->%Hr].
Qed.

Lemma dreach_inv n s : reach dstep (dinit n) s -> exists home, dinv home s.
Proof. apply (reach_invariant dstep (fun s => exists home, dinv home s)); [exists []; apply dinit_inv|]. intros. by eapply dstep_inv. Qed.

(** ** Properties *)

(** C27. The disk tier, under any number of threads that put, look up, remove and
    sweep, one system call at a time, each of which may fail, with files written
    in pieces of any size. A lookup never returns another key's entry nor an
    expired one, whatever the hash of the key collides with; and unless two puts
    of one path had its temporary file open at once, what it returns is an entry
    that was put, with exactly its bytes: no torn file is published, however the
    puts of other keys, the readers and the sweep interleave. On such a path a
    put that gets to its rename publishes exactly its entry. *)
Theorem disk_serves_only_puts (n : nat) (s : DSys) :
  reach dstep (dinit n) s ->
  (forall i key now e, dthreads s !! i = Some (GDone key now (Some e)) ->
     d_key e = key /\ saturating_sub now (d_stored_at e) < d_max_age e /\ (entry_path key ∉ crossed s -> e ∈ puts s)) /\
  (forall i e s', dthreads s !! i = Some (PRename e) -> dstep (LCall i Works) s = Some s' -> entry_path (d_key e) ∉ crossed s ->
     contents (disk s') (entry_path (d_key e)) = Some (encode (d_key e) (d_body e) (d_stored_at e) (d_max_age e)) /\ e ∈ puts s').
Proof.
  intros Hr. destruct (dreach_inv n s Hr) as [home H]. split.
  - intros i key now e Hi. destruct (di_sound _ _ H i _ Hi) as (Hk & Hf & He). split_and!; [done|by apply Z.ltb_lt|done].
  - intros i e s' Hi Hs Hc. cbn [dstep] in Hs. rewrite Hi in Hs. cbn [mbind option_bind call_step] in Hs. injection Hs as <-.
    destruct (ca_threads _ _ (di_calm _ _ H (d_key e) Hc) i _ Hi eq_refl) as (He & ino & Ht & Hn). split; [|done].
    unfold contents, rename. cbn [dgo disk]. change (entry_path (d_key e)) with (path_of e) in *. rewrite Ht. cbn [mbind option_bind default from_option id names nodes].
    by rewrite lookup_insert_eq.
Qed.

(** Undisturbed, the four calls of a put do to the files the cache reads what
    [DiskCache.put] does in one. *)
Theorem put_undisturbed (home : list Path) (s : DSys) (i : nat) (e : DiskEntry) (fs : FS) (k : bytes) :
  dinv home s -> dthreads s !! i = Some (PMake e) -> d_max_age e <> 0 -> fs !! entry_path k = contents (disk s) (entry_path k) ->
  exists s', run dstep [LCall i Works; LCall i Works; LCall i (Wrote (length (data_of e))); LCall i Works] s = Some s' /\
    contents (disk s') (entry_path k) = (put true fs (d_key e) (d_body e) (d_stored_at e) (d_max_age e) IoOk).1 !! entry_path k.
Proof.
  intros H Hi Hm Hfs. pose proof (di_located _ _ H) as Hlo. pose proof (lookup_lt_Some _ _ _ Hi) as Hlt. assert (0 < length (data_of e))%nat as Hpos by (unfold data_of; rewrite encode_length; lia).
  destruct (create (tmp_path (path_of e)) (disk s)) as [ino d1] eqn:Ec. destruct (create_names _ _ _ _ _ Hlo Ec) as (Hn & Hno & Hold & Hnd & Hempty). change (entry_path (d_key e)) with (path_of e) in *.
  cbn [run dstep]. rewrite Hi. cbn [mbind option_bind call_step dgo dthreads disk]. rewrite list_lookup_insert_eq by done. cbn [mbind option_bind call_step dgo disk dthreads puts crossed]. rewrite Ec. cbn [dthreads].
  rewrite list_lookup_insert_eq by (by rewrite length_insert). cbn [mbind option_bind call_step]. rewrite Nat.add_0_l, Nat.eqb_refl, (proj2 (Nat.ltb_lt _ _) Hpos), Nat.leb_refl. cbn [andb dgo dthreads].
  rewrite list_lookup_insert_eq by (by rewrite !length_insert). cbn [mbind option_bind call_step dgo disk dthreads]. eexists. split; [done|].
  rewrite put_swept by apply entry_path_swept. rewrite (proj2 (Z.eqb_neq _ _) Hm). cbn [negb andb dgo disk]. unfold rename, contents. cbn [write_node names nodes]. rewrite Hn. cbn [mbind option_bind default from_option id names nodes].
  change (entry_path (d_key e)) with (path_of e). case_bool_decide as Heq.
  - rewrite Heq, lookup_insert_eq. cbn [mbind option_bind]. rewrite list_lookup_alter_eq, Hempty. cbn [fmap option_fmap option_map]. f_equal. unfold write_at, slice. cbn [take replicate app Nat.sub length].
    rewrite drop_0, Nat.sub_0_r, firstn_all, drop_nil. cbn [app]. by rewrite app_nil_r.
  - rewrite lookup_insert_ne, lookup_delete_ne by (apply not_eq_sym; first [done|apply entry_not_tmp]). rewrite Hno by apply entry_not_tmp. rewrite Hfs. unfold contents.
    destruct (names (disk s) !! entry_path k) as [a|] eqn:Ea; [|done]. cbn [mbind option_bind]. pose proof (lo_path _ _ Hlo _ _ Ea) as Hh.
    assert (a <> ino) as Hai. { intros ->. destruct Hold as [Ho|Ho]; [apply (lo_tmp _ _ Hlo) in Ho; unfold path_of in Heq; congruence|]. pose proof (home_below _ _ _ _ Hlo Hh). lia. }
    rewrite list_lookup_alter_ne by done. apply Hnd; [done|]. by eapply home_below.
Qed.

(** ** Runs *)
Definition entry_long : DiskEntry := mkDiskEntry (bs "a") 100 60 (bs "a long body").
Definition entry_other : DiskEntry := mkDiskEntry (bs "b") 100 60 (bs "other").
Definition entry_next : DiskEntry := mkDiskEntry (bs "a") 130 60 (bs "next").

(** Two keys are put at once, in pieces; one of them again; and it is looked up. *)
Definition disk_run_plain : list DLabel :=
  [LPutDisk 0 entry_long; LPutDisk 1 entry_other; LCall 0 Works; LCall 1 Works; LCall 0 Works; LCall 1 Works; LCall 0 (Wrote 30); LCall 1 (Wrote 34);
   LCall 0 (Wrote 10); LCall 0 Works; LPutDisk 0 entry_next; LCall 0 Works; LGetDisk 2 (bs "a") 150; LCall 0 Works; LCall 2 Works; LCall 1 Works; LCall 0 (Wrote 5); LCall 2 Works].

Lemma disk_serves_only_puts_witness :
  match run dstep disk_run_plain (dinit 3) with
  | Some s => dthreads s !! 2%nat = Some (GDone (bs "a") 150 (Some entry_long)) /\ d_key entry_long = bs "a" /\ entry_long ∈ puts s
  | None => False
  end.
Proof.
  assert ((fun s => (dthreads s !! 2%nat, crossed s)) <$> run dstep disk_run_plain (dinit 3) = Some (Some (GDone (bs "a") 150 (Some entry_long)), [])) as Hrun
    by (vm_compute; reflexivity).
  destruct (run dstep disk_run_plain (dinit 3)) as [s|] eqn:E; [|discriminate Hrun]. injection Hrun as Hi Hc.
  destruct (disk_serves_only_puts 3 s (run_reach dstep disk_run_plain (dinit 3) s E)) as [H _].
  destruct (H 2%nat (bs "a") 150 entry_long Hi) as (Hk & _ & Hp). split; [exact Hi|]. split; [exact Hk|]. apply Hp. rewrite Hc. apply not_elem_of_nil.
Defined.

(** Two puts of one key: the second empties the file the first is about to
    rename, and what is published, while the second still writes, decodes to an
    entry with a body that nobody put. *)
Definition disk_run_crossed : list DLabel :=
  [LPutDisk 0 entry_long; LPutDisk 1 entry_long; LCall 0 Works; LCall 1 Works; LCall 0 Works; LCall 0 (Wrote 40); LCall 1 Works; LCall 0 Works;
   LCall 1 (Wrote 35); LGetDisk 2 (bs "a") 150; LCall 2 Works; LCall 2 Works].

Theorem crossed_puts_serve_a_torn_entry :
  exists s, reach dstep (dinit 3) s /\ dthreads s !! 2%nat = Some (GDone (bs "a") 150 (Some (mkDiskEntry (bs "a") 100 60 (bs "a long")))) /\
    puts s = [entry_long; entry_long].
Proof.
  assert ((fun s => (dthreads s !! 2%nat, puts s)) <$> run dstep disk_run_crossed (dinit 3) =
    Some (Some (GDone (bs "a") 150 (Some (mkDiskEntry (bs "a") 100 60 (bs "a long")))), [entry_long; entry_long])) as Hrun by (vm_compute; reflexivity).
  destruct (run dstep disk_run_crossed (dinit 3)) as [s|] eqn:E; [|discriminate Hrun]. injection Hrun as Hi Hp.
  exists s. split; [exact (run_reach dstep disk_run_crossed (dinit 3) s E)|]. split; [exact Hi|exact Hp].
Qed.
