(* ===== verification/Pool.v ===== *)
(** * The buffer and upstream-connection pools ([migration/dataplane/host/src/pool.rs])

    [Buffers] is [BufferPool]: buffers carry an identity, so that a loan can be
    told from a copy, and a history of loans is a labelled transition system
    whose threads may take, fill and drop in any order (each operation is one
    critical section of the source). [Conns] is [ConnPool]: sockets are
    identities, the clock and what the liveness probe meets on each socket are
    arguments. *)
From S2P Require Import Prelude Bytes.
From stdpp Require Import gmap.

Local Open Scope Z_scope.

Module Buffers.

(** A [Vec<u8>]: its allocation, by identity, and its contents. *)
Record Buf := mkBuf { alloc : Z; contents : bytes }.

Record BufferPool := mkPool { free : list Buf; max_retained : nat }.

Definition pool_new (max_retained : nat) : BufferPool := mkPool [] max_retained.

(** [fresh] is the allocation a new buffer would get. *)
Definition take_buf (p : BufferPool) (fresh : Z) : BufferPool * Buf :=
  match vec_pop (free p) with
  | Some (rest, b) => (mkPool rest (max_retained p), b)
  | None => (p, mkBuf fresh [])
  end.

Definition give_back (p : BufferPool) (b : Buf) : BufferPool :=
  let cleared := mkBuf (alloc b) [] in
  if (length (free p) <? max_retained p)%nat
  then mkPool (vec_push (free p) cleared) (max_retained p) else p.

(** The pool and the buffers on loan, by borrower. *)
Record LoanSys := mkLoanSys { pool : BufferPool; loans : gmap nat Buf; next_alloc : Z }.

Definition loan_init (max_retained : nat) : LoanSys := mkLoanSys (pool_new max_retained) ∅ 0.

Inductive LoanLabel :=
  | Take (who : nat)
  | Fill (who : nat) (data : bytes)
  | DropBuf (who : nat).

Definition loan_step (l : LoanLabel) (s : LoanSys) : option LoanSys :=
  match l with
  | Take who =>
      match loans s !! who with
      | Some _ => None
      | None =>
          let '(p, b) := take_buf (pool s) (next_alloc s) in
          Some (mkLoanSys p (<[who := b]> (loans s)) (next_alloc s + 1))
      end
  | Fill who data =>
      b ← loans s !! who;
      Some (mkLoanSys (pool s) (<[who := mkBuf (alloc b) (contents b ++ data)]> (loans s)) (next_alloc s))
  | DropBuf who =>
      b ← loans s !! who;
      Some (mkLoanSys (give_back (pool s) b) (delete who (loans s)) (next_alloc s))
  end.

Record loan_inv (n : nat) (s : LoanSys) : Prop := {
  bi_max : max_retained (pool s) = n;
  bi_len : (length (free (pool s)) <= n)%nat;
  bi_clear : forall b, b ∈ free (pool s) -> contents b = [];
  bi_nodup : NoDup (alloc <$> free (pool s));
  bi_known : forall b, b ∈ free (pool s) -> alloc b < next_alloc s;
  bi_loaned : forall w b, loans s !! w = Some b -> alloc b < next_alloc s;
  bi_apart : forall w b, loans s !! w = Some b -> alloc b ∉ (alloc <$> free (pool s));
  bi_excl : forall w1 w2 b1 b2, loans s !! w1 = Some b1 -> loans s !! w2 = Some b2 ->
    alloc b1 = alloc b2 -> w1 = w2
}.

Lemma buf_init_inv n : loan_inv n (loan_init n).
Proof. split; simpl; try done; try lia; try (by intros b ?%elem_of_nil). constructor. Qed.

(** What a checkout lends: cleared, and lent to nobody. *)
Lemma buf_take_lends n s p b :
  loan_inv n s -> take_buf (pool s) (next_alloc s) = (p, b) ->
  contents b = [] /\ alloc b < next_alloc s + 1 /\ (alloc b ∉ (alloc <$> free p)) /\
  (forall w b', loans s !! w = Some b' -> alloc b' <> alloc b) /\
  max_retained p = n /\ (length (free p) <= n)%nat /\ (forall x, x ∈ free p -> x ∈ free (pool s)) /\
  NoDup (alloc <$> free p).
Proof.
  intros H. unfold take_buf. destruct (vec_pop (free (pool s))) as [[rest b0]|] eqn:E.
  - intros [= <- <-]. apply vec_pop_Some in E. cbn [free max_retained].
    pose proof (bi_nodup _ _ H) as Hn. pose proof (bi_len _ _ H) as Hl. rewrite E, fmap_app in Hn.
    apply NoDup_app in Hn as (Hn1 & Hn2 & _). rewrite E, length_app in Hl. simpl in Hl.
    assert (b0 ∈ free (pool s)) as Hb by (rewrite E; set_solver).
    split; [by apply (bi_clear _ _ H)|]. split; [pose proof (bi_known _ _ H b0 Hb); lia|].
    split; [intros Hin; apply (Hn2 _ Hin); set_solver|]. split.
    { intros w b' Hw Heq. apply (bi_apart _ _ H w b' Hw). rewrite Heq. by apply list_elem_of_fmap_2. }
    split; [apply (bi_max _ _ H)|]. split; [lia|]. split; [|done]. intros x Hx. rewrite E. set_solver.
  - intros [= <- <-]. apply vec_pop_None in E. rewrite E. cbn [alloc contents free].
    split; [done|]. split; [lia|]. split; [set_solver|]. split.
    { intros w b' Hw Heq. pose proof (bi_loaned _ _ H w b' Hw). lia. }
    split; [apply (bi_max _ _ H)|]. split; [simpl; lia|]. split; [set_solver|constructor].
Qed.

Lemma buf_take_inv n who s s' : loan_inv n s -> loan_step (Take who) s = Some s' -> loan_inv n s'.
Proof.
  intros H Hst. cbn [loan_step] in Hst.
  destruct (loans s !! who) eqn:Hw; [done|].
  destruct (take_buf (pool s) (next_alloc s)) as [p b] eqn:Et. simplify_eq.
  destruct (buf_take_lends n s p b H Et) as (H1 & H2 & H3 & H4 & H5 & H6 & H7 & H8).
  split; cbn [pool loans next_alloc]; try done.
  - intros x Hx. by apply (bi_clear _ _ H), H7.
  - intros x Hx. pose proof (bi_known _ _ H x (H7 x Hx)). lia.
  - intros w x [[<- <-]|[_ Hx]]%lookup_insert_Some; [done|]. pose proof (bi_loaned _ _ H w x Hx). lia.
  - intros w x [[<- <-]|[_ Hx]]%lookup_insert_Some; [done|]. intros (y & Hy & Hin)%list_elem_of_fmap.
    apply (bi_apart _ _ H w x Hx). rewrite Hy. by apply list_elem_of_fmap_2, H7.
  - intros w1 w2 b1 b2 [[<- <-]|[? Hx1]]%lookup_insert_Some [[<- <-]|[? Hx2]]%lookup_insert_Some Heq; try done.
    + by destruct (H4 _ _ Hx2).
    + by destruct (H4 _ _ Hx1).
    + by eapply (bi_excl _ _ H).
Qed.

Lemma buf_fill_inv n who data s s' : loan_inv n s -> loan_step (Fill who data) s = Some s' -> loan_inv n s'.
Proof.
  intros H Hst. cbn [loan_step] in Hst.
  destruct (loans s !! who) as [b|] eqn:Hw; [|done]. simplify_eq/=.
  assert (forall w x, <[who:=mkBuf (alloc b) (contents b ++ data)]> (loans s) !! w = Some x ->
            exists y, loans s !! w = Some y /\ alloc y = alloc x) as Hsame.
  { intros w x [[<- <-]|[_ Hx]]%lookup_insert_Some; eauto. }
  destruct H. split; cbn [pool loans next_alloc]; try done.
  - intros w x (y & Hy & <-)%Hsame. eauto.
  - intros w x (y & Hy & <-)%Hsame. eauto.
  - intros w1 w2 b1 b2 (y1 & Hy1 & <-)%Hsame (y2 & Hy2 & <-)%Hsame. eauto.
Qed.

Lemma buf_drop_inv n who s s' : loan_inv n s -> loan_step (DropBuf who) s = Some s' -> loan_inv n s'.
Proof.
  intros H Hst. cbn [loan_step] in Hst.
  destruct (loans s !! who) as [b|] eqn:Hw; [|done]. simplify_eq/=.
  pose proof (bi_apart _ _ H who b Hw) as Hap. pose proof (bi_loaned _ _ H who b Hw) as Hlt.
  assert (forall w x, delete who (loans s) !! w = Some x -> w <> who /\ loans s !! w = Some x) as Hdel
    by (intros w x [? ?]%lookup_delete_Some; auto).
  pose proof (bi_max _ _ H) as Hm. unfold give_back.
  destruct (length (free (pool s)) <? max_retained (pool s))%nat eqn:El.
  - apply Nat.ltb_lt in El. unfold vec_push.
    split; cbn [pool loans next_alloc free max_retained]; try done.
    + rewrite length_app. simpl. lia.
    + intros x [Hx| ->%list_elem_of_singleton]%elem_of_app; [by apply (bi_clear _ _ H)|done].
    + rewrite fmap_app. apply NoDup_app. split; [apply (bi_nodup _ _ H)|].
      split; [|apply NoDup_singleton]. intros a Ha ->%list_elem_of_singleton. done.
    + intros x [Hx| ->%list_elem_of_singleton]%elem_of_app; [by apply (bi_known _ _ H)|done].
    + intros w x [_ Hx]%Hdel. by eapply (bi_loaned _ _ H).
    + intros w x [Hne Hx]%Hdel. rewrite fmap_app, elem_of_app.
      intros [Hin|Heq%list_elem_of_singleton]; [by apply (bi_apart _ _ H w x Hx)|].
      apply Hne. by eapply (bi_excl _ _ H).
    + intros w1 w2 b1 b2 [_ ?]%Hdel [_ ?]%Hdel. by eapply (bi_excl _ _ H).
  - destruct H. split; cbn [pool loans next_alloc]; try done.
    + intros w x [_ Hx]%Hdel. eauto.
    + intros w x [_ Hx]%Hdel. eauto.
    + intros w1 w2 b1 b2 [_ ?]%Hdel [_ ?]%Hdel. eauto.
Qed.

Lemma buf_step_inv n l s s' : loan_inv n s -> loan_step l s = Some s' -> loan_inv n s'.
Proof. destruct l; [apply buf_take_inv|apply buf_fill_inv|apply buf_drop_inv]. Qed.

(** Over every history of checkouts, writes and drops, whoever makes them:
    the buffer lent next is empty, whatever its earlier borrowers wrote, and
    its allocation is held by no borrower and not retained; no two borrowers
    share an allocation; and at most the configured number is retained. *)
Theorem loans_exclusive (n : nat) (s : LoanSys) :
  reach loan_step (loan_init n) s ->
  let '(p, b) := take_buf (pool s) (next_alloc s) in
  contents b = [] /\
  (forall w b', loans s !! w = Some b' -> alloc b' <> alloc b) /\
  (forall b', b' ∈ free p -> alloc b' <> alloc b) /\
  (forall w1 w2 b1 b2, loans s !! w1 = Some b1 -> loans s !! w2 = Some b2 -> alloc b1 = alloc b2 -> w1 = w2) /\
  (length (free (pool s)) <= n)%nat.
Proof.
  intros Hr. assert (loan_inv n s) as H
    by (eapply (reach_invariant loan_step (loan_inv n)); [apply buf_init_inv|apply buf_step_inv|done]).
  destruct (take_buf (pool s) (next_alloc s)) as [p b] eqn:E.
  destruct (buf_take_lends n s p b H E) as (H1 & _ & H3 & H4 & _).
  split; [done|]. split; [done|]. split; [|split; [apply (bi_excl _ _ H)|apply (bi_len _ _ H)]].
  intros b' Hb Heq. apply H3. rewrite <- Heq. by apply list_elem_of_fmap_2.
Qed.

(** A dirty buffer, dropped, is lent again empty. *)
Lemma loans_exclusive_witness :
  exists s, run loan_step [Take 0; Fill 0 [7; 7]; Take 1; DropBuf 0] (loan_init 4) = Some s /\
    (take_buf (pool s) (next_alloc s)).2 = mkBuf 0 [] /\ (length (free (pool s)) <= 4)%nat.
Proof.
  eexists. split; [vm_compute; reflexivity|]. split; [vm_compute; reflexivity|].
  match goal with |- (length (free (pool ?s)) <= 4)%nat => pose proof (loans_exclusive 4 s) as H end.
  cbn [take_buf pool free vec_pop next_alloc max_retained] in H. apply H.
  eapply run_reach with (ls := [Take 0; Fill 0 [7; 7]; Take 1; DropBuf 0]). vm_compute. reflexivity.
Defined.
End Buffers.

Module Conns.

Abbreviation Sock := Z.
Abbreviation Addr := Z.

Record IdleConn := mkIdle { stream : Sock; returned : Z }.

Record ConnPool := mkConnPool {
  idle : gmap Addr (list IdleConn);
  max_idle_per_host : nat;
  max_idle_age : Z;
  reused : Z;
  dialed : Z
}.

Definition conns_new (max_idle_per_host : nat) (max_idle_age : Z) : ConnPool :=
  mkConnPool ∅ max_idle_per_host max_idle_age 0 0.

Definition set_idle (p : ConnPool) (m : gmap Addr (list IdleConn)) : ConnPool :=
  mkConnPool m (max_idle_per_host p) (max_idle_age p) (reused p) (dialed p).

(** What the probe meets on a socket: the mode switches and the peek. *)
Inductive Peek := PeekBytes (n : nat) | PeekWouldBlock | PeekError.
Record Probe := mkProbe { nonblocking_ok : bool; peek : Peek; blocking_ok : bool }.

Definition is_reusable (pr : Probe) : bool :=
  if negb (nonblocking_ok pr) then false
  else
    let ok := match peek pr with
              | PeekBytes O => false
              | PeekBytes _ => false
              | PeekWouldBlock => true
              | PeekError => false
              end in
    if negb (blocking_ok pr) then false else ok.

(** [Instant::duration_since] saturates. *)
Definition too_old (max_age now : Z) (c : IdleConn) : bool := max_age <? saturating_sub now (returned c).

(** The [while let Some(c) = list.pop()] loop: the list's length is fuel. *)
Fixpoint pop_live (fuel : nat) (max_age now : Z) (probe : Sock -> Probe) (l : list IdleConn) :
    list IdleConn * option Sock :=
  match fuel with
  | O => (l, None)
  | S f =>
      match vec_pop l with
      | None => (l, None)
      | Some (rest, c) =>
          if too_old max_age now c then pop_live f max_age now probe rest
          else if is_reusable (probe (stream c)) then (rest, Some (stream c))
          else pop_live f max_age now probe rest
      end
  end.

Definition checkout (p : ConnPool) (addr : Addr) (now : Z) (probe : Sock -> Probe) : ConnPool * option Sock :=
  match idle p !! addr with
  | None => (p, None)
  | Some l =>
      let '(l', r) := pop_live (length l) (max_idle_age p) now probe l in
      (set_idle p (<[addr := l']> (idle p)), r)
  end.

Definition checkin (p : ConnPool) (addr : Addr) (s : Sock) (now : Z) : ConnPool :=
  let l := default [] (idle p !! addr) in
  set_idle p (<[addr := if (length l <? max_idle_per_host p)%nat then vec_push l (mkIdle s now) else l]> (idle p)).

Definition note_reused (p : ConnPool) : ConnPool :=
  mkConnPool (idle p) (max_idle_per_host p) (max_idle_age p) (wrapping_add 64 (reused p) 1) (dialed p).

Definition note_dialed (p : ConnPool) : ConnPool :=
  mkConnPool (idle p) (max_idle_per_host p) (max_idle_age p) (reused p) (wrapping_add 64 (dialed p) 1).

Definition stats (p : ConnPool) : Z * Z := (reused p, dialed p).

(** The loop pops from the end: what it skipped is dead, what it left is
    untouched. *)
Lemma pop_live_spec f max_age now probe : forall l l' r,
  (length l <= f)%nat -> pop_live f max_age now probe l = (l', r) ->
  let dead c := too_old max_age now c = true \/ is_reusable (probe (stream c)) = false in
  match r with
  | None => l' = [] /\ Forall dead l
  | Some s =>
      exists c skipped, l = l' ++ [c] ++ skipped /\ stream c = s /\ Forall dead skipped /\
        too_old max_age now c = false /\ is_reusable (probe s) = true
  end.
Proof.
  induction f as [|f IH]; intros l l' r Hl Hp dead; cbn [pop_live] in Hp.
  { destruct l; [|simpl in Hl; lia]. simplify_eq. by split. }
  destruct (vec_pop l) as [[rest c]|] eqn:E.
  2:{ apply vec_pop_None in E as ->. simplify_eq. by split. }
  apply vec_pop_Some in E as ->. rewrite length_app in Hl. simpl in Hl.
  assert (dead c -> pop_live f max_age now probe rest = (l', r) ->
    match r with
    | None => l' = [] /\ Forall dead (rest ++ [c])
    | Some s => exists c0 skipped, rest ++ [c] = l' ++ [c0] ++ skipped /\ stream c0 = s /\ Forall dead skipped /\
        too_old max_age now c0 = false /\ is_reusable (probe s) = true
    end) as Hskip.
  { intros Hd Hr. specialize (IH rest l' r ltac:(lia) Hr). destruct r as [s|].
    - destruct IH as (c0 & sk & -> & H2 & H3 & H4 & H5). exists c0, (sk ++ [c]).
      rewrite <- !app_assoc. split; [done|]. split; [done|]. split; [|done].
      apply Forall_app. split; [done|by constructor].
    - destruct IH as [-> ?]. split; [done|]. apply Forall_app. split; [done|by constructor]. }
  destruct (too_old max_age now c) eqn:Eo; [apply Hskip; [by left|done]|].
  destruct (is_reusable (probe (stream c))) eqn:Er; [|apply Hskip; [by right|done]].
  simplify_eq. by exists c, [].
Qed.

(** ** Histories

    The proxy dials, checks out, checks in and closes; a socket is checked in
    under the address it was dialed to. *)
Record ConnSys := mkConnSys { cpool : ConnPool; dialed_to : gmap Sock Addr; in_use : gset Sock; next_sock : Z }.

Definition conn_init (n : nat) (age : Z) : ConnSys := mkConnSys (conns_new n age) ∅ ∅ 0.

Inductive ConnLabel :=
  | Dial (addr : Addr)
  | Checkout (addr : Addr) (now : Z) (probe : Sock -> Probe)
  | Checkin (s : Sock) (now : Z)
  | CloseSock (s : Sock).

Definition conn_step (l : ConnLabel) (y : ConnSys) : option ConnSys :=
  match l with
  | Dial addr =>
      let s := next_sock y in
      Some (mkConnSys (note_dialed (cpool y)) (<[s := addr]> (dialed_to y)) ({[s]} ∪ in_use y) (s + 1))
  | Checkout addr now probe =>
      let '(p, r) := checkout (cpool y) addr now probe in
      match r with
      | Some s => Some (mkConnSys (note_reused p) (dialed_to y) ({[s]} ∪ in_use y) (next_sock y))
      | None => Some (mkConnSys p (dialed_to y) (in_use y) (next_sock y))
      end
  | Checkin s now =>
      if bool_decide (s ∈ in_use y) then
        a ← dialed_to y !! s;
        Some (mkConnSys (checkin (cpool y) a s now) (dialed_to y) (in_use y ∖ {[s]}) (next_sock y))
      else None
  | CloseSock s =>
      if bool_decide (s ∈ in_use y)
      then Some (mkConnSys (cpool y) (dialed_to y) (in_use y ∖ {[s]}) (next_sock y)) else None
  end.

(** The idle list of one address, seen against the rest of the system. *)
Record idle_ok (n : nat) (dt : gmap Sock Addr) (used : gset Sock) (a : Addr) (l : list IdleConn) : Prop := {
  io_len : (length l <= n)%nat;
  io_nodup : NoDup (stream <$> l);
  io_dialed : forall c, c ∈ l -> dt !! stream c = Some a;
  io_apart : forall c, c ∈ l -> stream c ∉ used
}.

Record conn_inv (n : nat) (age : Z) (y : ConnSys) : Prop := {
  ci_cfg : max_idle_per_host (cpool y) = n /\ max_idle_age (cpool y) = age;
  ci_idle : forall a l, idle (cpool y) !! a = Some l -> idle_ok n (dialed_to y) (in_use y) a l;
  ci_known : forall s a, dialed_to y !! s = Some a -> s < next_sock y;
  ci_used : forall s, s ∈ in_use y -> is_Some (dialed_to y !! s)
}.

Lemma pool_cinit_inv n age : conn_inv n age (conn_init n age).
Proof. split; simpl; try done; set_solver. Qed.

(** Entries only leave, and sockets in use only grow by one that left. *)
Lemma idle_ok_prefix n dt used used' a l l' :
  idle_ok n dt used a l -> l' `prefix_of` l ->
  (forall c, c ∈ l' -> stream c ∈ used' -> stream c ∈ used) -> idle_ok n dt used' a l'.
Proof.
  intros [H1 H2 H3 H4] [k ->] Hu. rewrite length_app in H1. rewrite fmap_app in H2.
  apply NoDup_app in H2 as (H2 & _ & _). split; [lia|done| |].
  - intros c Hc. apply H3. set_solver.
  - intros c Hc Hin. apply (H4 c); [set_solver|]. by apply Hu.
Qed.

Lemma checkout_spec p addr now probe p' r :
  checkout p addr now probe = (p', r) ->
  max_idle_per_host p' = max_idle_per_host p /\ max_idle_age p' = max_idle_age p /\
  match idle p !! addr with
  | None => p' = p /\ r = None
  | Some l => exists l', pop_live (length l) (max_idle_age p) now probe l = (l', r) /\
                         idle p' = <[addr := l']> (idle p)
  end.
Proof.
  unfold checkout. destruct (idle p !! addr) as [l|]; [|intros [= <- <-]; done].
  destruct (pop_live _ _ _ _ l) as [l' r'] eqn:E. intros [= <- <-]. split; [done|]. split; [done|]. by exists l'.
Qed.

(** A socket handed out was parked for the address and is parked nowhere now. *)
Lemma checkout_takes n age y addr now probe p' s :
  conn_inv n age y -> checkout (cpool y) addr now probe = (p', Some s) ->
  exists l l' c, idle (cpool y) !! addr = Some l /\ idle p' = <[addr := l']> (idle (cpool y)) /\
    l' `prefix_of` l /\ c ∈ l /\ stream c = s /\ too_old age now c = false /\ is_reusable (probe s) = true /\
    dialed_to y !! s = Some addr /\ (s ∉ in_use y) /\
    (forall a m d, idle p' !! a = Some m -> d ∈ m -> stream d <> s).
Proof.
  intros H Hc. destruct (checkout_spec _ _ _ _ _ _ Hc) as (_ & _ & Hs). destruct (ci_cfg _ _ _ H) as [_ Hage].
  destruct (idle (cpool y) !! addr) as [l|] eqn:Hl; [|by destruct Hs]. destruct Hs as (l' & Hp & Hi).
  destruct (pop_live_spec _ _ _ _ l l' (Some s) (le_n _) Hp) as (c & sk & El & Hst & _ & Ho & Hr).
  destruct (ci_idle _ _ _ H addr l Hl) as [_ Hnd Hdl Hap]. rewrite Hage in Ho.
  assert (c ∈ l) as Hcl by (rewrite El; set_solver).
  exists l, l', c. split; [done|]. split; [done|]. split; [rewrite El; by eexists|].
  split; [done|]. split; [done|]. split; [done|]. split; [done|]. subst s.
  split; [by apply Hdl|]. split; [by apply Hap|].
  intros a m d Hm Hd Heq. rewrite Hi in Hm. apply lookup_insert_Some in Hm as [[<- <-]|[Hne Hm]].
  - rewrite El, !fmap_app in Hnd. apply NoDup_app in Hnd as (_ & Hnd & _).
    apply (Hnd (stream d)); [by apply list_elem_of_fmap_2|]. rewrite Heq. set_solver.
  - pose proof (io_dialed _ _ _ _ _ (ci_idle _ _ _ H a m Hm) d Hd) as H1. rewrite Heq, (Hdl c Hcl) in H1. by simplify_eq.
Qed.

Lemma dial_inv n age addr y y' : conn_inv n age y -> conn_step (Dial addr) y = Some y' -> conn_inv n age y'.
Proof.
  intros [Hcfg Hi Hk Hu] [= <-]. split; cbn [cpool dialed_to in_use next_sock]; [done| | |].
  - intros a l Hl. destruct (Hi a l Hl) as [H1 H2 H3 H4].
    assert (forall c, c ∈ l -> stream c <> next_sock y) as Hne.
    { intros c Hc Heq. pose proof (Hk _ _ (H3 c Hc)). lia. }
    split; cbn [dialed_to in_use]; [done|done| |].
    + intros c Hc. rewrite lookup_insert_ne by (symmetry; by apply Hne). by apply H3.
    + intros c Hc. pose proof (Hne c Hc). pose proof (H4 c Hc). set_solver.
  - intros s a [[<- _]|[_ Hs]]%lookup_insert_Some; [lia|]. pose proof (Hk s a Hs). lia.
  - intros s [->%elem_of_singleton|Hs]%elem_of_union; [rewrite lookup_insert_eq; by eexists|].
    destruct (decide (s = next_sock y)) as [->|]; [rewrite lookup_insert_eq; by eexists|].
    rewrite lookup_insert_ne by done. by apply Hu.
Qed.

Lemma checkout_inv n age addr now probe y y' :
  conn_inv n age y -> conn_step (Checkout addr now probe) y = Some y' -> conn_inv n age y'.
Proof.
  intros H. cbn [conn_step]. destruct (checkout (cpool y) addr now probe) as [p r] eqn:Hc.
  destruct (checkout_spec _ _ _ _ _ _ Hc) as (C1 & C2 & C3). destruct (ci_cfg _ _ _ H) as [D1 D2].
  destruct r as [s|]; intros [= <-].
  - destruct (checkout_takes _ _ _ _ _ _ _ _ H Hc) as (l & l' & c & Hl & Hi & Hp & _ & _ & _ & _ & Hd & _ & Hgone).
    split; cbn [cpool dialed_to in_use next_sock note_reused idle max_idle_per_host max_idle_age].
    + by rewrite C1, C2.
    + intros a m Hm. pose proof Hm as Hm'. rewrite Hi in Hm'.
      assert (exists l0, idle (cpool y) !! a = Some l0 /\ m `prefix_of` l0) as (l0 & Hl0 & Hpre)
        by (apply lookup_insert_Some in Hm' as [[<- <-]|[_ Hm']]; eauto).
      eapply idle_ok_prefix; [by eapply (ci_idle _ _ _ H)|done|].
      intros d Hdm. pose proof (Hgone a m d Hm Hdm). set_solver.
    + apply (ci_known _ _ _ H).
    + intros x [->%elem_of_singleton|Hx]%elem_of_union; [by eexists|]. by apply (ci_used _ _ _ H).
  - split; cbn [cpool dialed_to in_use next_sock]; [by rewrite C1, C2| |apply H|apply H].
    intros a m Hm. destruct (idle (cpool y) !! addr) as [l|] eqn:Hl.
    + destruct C3 as (l' & Hp & Hi). destruct (pop_live_spec _ _ _ _ l l' None (le_n _) Hp) as [-> _].
      rewrite Hi in Hm. apply lookup_insert_Some in Hm as [[<- <-]|[_ Hm]].
      * eapply idle_ok_prefix; [by eapply (ci_idle _ _ _ H)|apply prefix_nil|done].
      * by apply (ci_idle _ _ _ H).
    + destruct C3 as [-> _]. by apply (ci_idle _ _ _ H).
Qed.

(** A socket leaving use disturbs no idle list. *)
Lemma idle_ok_unused n dt used a l s : idle_ok n dt used a l -> idle_ok n dt (used ∖ {[s]}) a l.
Proof. intros [H1 H2 H3 H4]. split; try done. intros c Hc. pose proof (H4 c Hc). set_solver. Qed.

Lemma checkin_inv n age s now y y' : conn_inv n age y -> conn_step (Checkin s now) y = Some y' -> conn_inv n age y'.
Proof.
  intros H. cbn [conn_step]. case_bool_decide as Hs; [|done]. destruct (dialed_to y !! s) as [a|] eqn:Ha; [|done].
  intros [= <-]. destruct (ci_cfg _ _ _ H) as [D1 D2]. split; cbn [cpool dialed_to in_use next_sock]; [done| |apply H|].
  2:{ intros x Hx. apply (ci_used _ _ _ H). set_solver. }
  intros a' m Hm. unfold checkin in Hm. cbn [idle set_idle] in Hm.
  apply lookup_insert_Some in Hm as [[<- <-]|[_ Hm]]; [|by apply idle_ok_unused, (ci_idle _ _ _ H)].
  set (l := default [] (idle (cpool y) !! a)).
  assert (idle_ok n (dialed_to y) (in_use y) a l) as Hl.
  { unfold l. destruct (idle (cpool y) !! a) as [l0|] eqn:E; [by apply (ci_idle _ _ _ H)|].
    split; simpl; [lia|constructor|set_solver|set_solver]. }
  destruct (length l <? _)%nat eqn:El; [|by apply idle_ok_unused]. apply Nat.ltb_lt in El.
  destruct Hl as [H1 H2 H3 H4]. unfold vec_push. split; cbn [dialed_to in_use].
  - rewrite length_app. simpl. lia.
  - rewrite fmap_app. apply NoDup_app. split; [done|]. split; [|apply NoDup_singleton].
    intros x (c & -> & Hc)%list_elem_of_fmap Hx. apply list_elem_of_singleton in Hx. cbn in Hx.
    apply (H4 c Hc). by rewrite Hx.
  - intros c [Hc| ->%list_elem_of_singleton]%elem_of_app; [by apply H3|done].
  - intros c [Hc| ->%list_elem_of_singleton]%elem_of_app; [pose proof (H4 c Hc)|cbn]; set_solver.
Qed.

Lemma close_inv n age s y y' : conn_inv n age y -> conn_step (CloseSock s) y = Some y' -> conn_inv n age y'.
Proof.
  intros H. cbn [conn_step]. case_bool_decide; [|done]. intros [= <-].
  split; cbn [cpool dialed_to in_use next_sock]; [apply H| |apply H|].
  - intros a l Hl. by apply idle_ok_unused, (ci_idle _ _ _ H).
  - intros x Hx. apply (ci_used _ _ _ H). set_solver.
Qed.

Lemma pool_cstep_inv n age l y y' : conn_inv n age y -> conn_step l y = Some y' -> conn_inv n age y'.
Proof. destruct l; [apply dial_inv|apply checkout_inv|apply checkin_inv|apply close_inv]. Qed.

(** Over every history of dials, checkouts, check-ins and closes, no
    upstream socket is ever shared: a socket reused for an address was dialed
    to that address, was parked no longer than the age limit, probes open and
    silent, is held by no other forward, and is parked nowhere afterwards; a
    miss means every socket parked for the address was too old or failed its
    probe; and at most the configured number is parked per address. *)
Theorem reuse_exclusive (n : nat) (age : Z) (y : ConnSys) (addr : Addr) (now : Z) (probe : Sock -> Probe) :
  reach conn_step (conn_init n age) y ->
  let '(p, r) := checkout (cpool y) addr now probe in
  match r with
  | Some s =>
      dialed_to y !! s = Some addr /\ (s ∉ in_use y) /\ is_reusable (probe s) = true /\
      (exists l c, idle (cpool y) !! addr = Some l /\ c ∈ l /\ stream c = s /\
         saturating_sub now (returned c) <= age) /\
      (forall a l c, idle p !! a = Some l -> c ∈ l -> stream c <> s)
  | None =>
      forall l c, idle (cpool y) !! addr = Some l -> c ∈ l ->
        age < saturating_sub now (returned c) \/ is_reusable (probe (stream c)) = false
  end /\
  (forall a l, idle (cpool y) !! a = Some l -> (length l <= n)%nat).
Proof.
  intros Hr. assert (conn_inv n age y) as H
    by (eapply (reach_invariant conn_step (conn_inv n age)); [apply pool_cinit_inv|apply pool_cstep_inv|done]).
  destruct (checkout (cpool y) addr now probe) as [p r] eqn:Hc.
  split; [|intros a l Hl; apply (ci_idle _ _ _ H a l Hl)].
  destruct r as [s|].
  - destruct (checkout_takes _ _ _ _ _ _ _ _ H Hc)
      as (l & l' & c & Hl & _ & _ & Hcl & Hst & Ho & Hre & Hd & Hu & Hgone).
    split; [done|]. split; [done|]. split; [done|]. split; [|done].
    exists l, c. unfold too_old in Ho. zify_bool. done.
  - intros l c Hl Hcl. destruct (checkout_spec _ _ _ _ _ _ Hc) as (_ & _ & Hs). rewrite Hl in Hs.
    destruct Hs as (l' & Hp & _). destruct (pop_live_spec _ _ _ _ l l' None (le_n _) Hp) as [_ Hdead].
    rewrite Forall_forall in Hdead. destruct (Hdead c Hcl) as [Ho|Hn]; [left|by right].
    unfold too_old in Ho. destruct (ci_cfg _ _ _ H) as [_ <-]. zify_bool. done.
Qed.

(** The warmest socket has been closed by the peer; the next one is reused. *)
Lemma reuse_exclusive_witness :
  exists y, run conn_step [Dial 80; Dial 80; Checkin 0 10; Checkin 1 20] (conn_init 8 60) = Some y /\
    (checkout (cpool y) 80 30 (fun s => mkProbe true (if s =? 1 then PeekBytes 0 else PeekWouldBlock) true)).2 = Some 0 /\
    dialed_to y !! 0 = Some 80.
Proof.
  eexists. split; [vm_compute; reflexivity|]. split; [vm_compute; reflexivity|].
  match goal with |- dialed_to ?y !! 0 = _ =>
    pose proof (reuse_exclusive 8 60 y 80 30
      (fun s => mkProbe true (if s =? 1 then PeekBytes 0 else PeekWouldBlock) true)) as H end.
  apply H. eapply run_reach with (ls := [Dial 80; Dial 80; Checkin 0 10; Checkin 1 20]). vm_compute. reflexivity.
Defined.
End Conns.
