(* ===== verification/Http.v ===== *)
(** * HTTP/1.1 framing on the accumulation buffer ([migration/dataplane/host/src/http.rs])

    The request boundary read from the linked framing verdict (a parameter),
    the body-size gate, the HTTP/2 opening checks, header lookup and the
    connection annotation of responses. The walk over HTTP/2 frame headers is a
    recursion over what is left of the buffer, with its length as fuel. *)
From S2P Require Import Prelude Bytes Lines.

Local Open Scope Z_scope.

Definition REQUEST_CAP : Z := 8 * 2 ^ 20.
Definition H2_PREFACE_FULL : nat := 24.

(** ** The opening flight *)

Definition byte_at (l : bytes) (i : nat) : Z := default 0 (l !! i).

Definition frame_len (rest : bytes) : nat :=
  Z.to_nat (Z.lor (Z.lor (Z.shiftl (byte_at rest 0) 16) (Z.shiftl (byte_at rest 1) 8)) (byte_at rest 2)).

Fixpoint h2c_frames (fuel : nat) (rest : bytes) : bool :=
  match fuel with
  | O => false
  | S f =>
      if (length rest <? 9)%nat then false
      else
        let fin := (9 + frame_len rest)%nat in
        if (length rest <? fin)%nat then false
        else if byte_at rest 3 =? 1 then true
        else h2c_frames f (drop fin rest)
  end.

Definition h2c_burst_complete (buf : bytes) : bool :=
  h2c_frames (length buf) (drop H2_PREFACE_FULL buf).

Definition opener_lacks_http_version (req : bytes) : bool :=
  let line_end := default (length req) (position (fun b => b =? LF) req) in
  negb (bool_decide (is_Some (windows_position (bs "HTTP/") (take line_end req)))).

(** ** The request boundary *)

Inductive Frame := NeedMore | Complete (n : Z) | Oversize.

#[export] Instance Frame_eq_dec : EqDecision Frame.
Proof. solve_decision. Defined.

Definition next_request (frame_verdict : bytes -> bytes) (data : bytes) : Frame :=
  let n := Z.of_nat (length data) in
  match frame_verdict data with
  | tag :: le =>
      if tag =? 0 then (if REQUEST_CAP <? n then Oversize else NeedMore)
      else if tag =? 1 then Oversize
      else if (tag =? 2) && (length le =? 8)%nat then
        let consumed := or_le 0 le in
        if (n <? consumed) || (REQUEST_CAP <? consumed) then Oversize else Complete consumed
      else Oversize
  | [] => Oversize
  end.

(** ** Header lookup *)

(** All bytes of [a], lowercased, are those of [b]. *)
Fixpoint lower_prefix (b hay : bytes) : bool :=
  match b, hay with
  | [], _ => true
  | _ :: _, [] => false
  | y :: b', x :: hay' => (to_ascii_lowercase x =? y) && lower_prefix b' hay'
  end.

Fixpoint lower_scan (hay needle : bytes) : option nat :=
  if lower_prefix needle hay then Some 0%nat
  else match hay with [] => None | _ :: h' => S <$> lower_scan h' needle end.

Definition find_ci (hay needle : bytes) : option nat :=
  if bool_decide (needle = []) || (length hay <? length needle)%nat then None
  else lower_scan hay needle.

(** The value of a line that is a field named [name]. *)
Definition line_value (line name : bytes) : option bytes :=
  match position (fun c => c =? COLON) line with
  | Some colon =>
      let n := take colon line in
      let v := drop colon line in
      if (length n =? length name)%nat && lower_prefix name n then Some (trimmed (drop 1 v)) else None
  | None => None
  end.

Definition header_value (h name : bytes) : option bytes :=
  scan_lines (fun line => line_value line name) (length h) h.

(** ** The body-size gate *)

Definition declared_length (h : bytes) : option Z :=
  v ← header_value h (bs "content-length");
  if utf8_valid v then parse_uint 64 (str_trim v) else None.

Definition body_over_limit (acc : bytes) (cap : Z) : bool :=
  if cap =? 0 then false
  else
    match head_end acc with
    | None => false
    | Some p =>
        match declared_length (take p acc) with
        | Some n => (cap <? n) || (cap <? Z.of_nat (length acc - p))
        | None => cap <? Z.of_nat (length acc - p)
        end
    end.

(** ** Connection disposition *)

Definition request_wants_keepalive (h : bytes) : bool :=
  let is_11 := bool_decide (is_Some (find_ci h (bs "http/1.1"))) in
  match header_value h (bs "connection") with
  | Some v =>
      if bool_decide (is_Some (find_ci v (bs "close"))) then false
      else if bool_decide (is_Some (find_ci v (bs "keep-alive"))) then true
      else is_11
  | None => is_11
  end.

Definition response_head (resp : bytes) : bytes := take (default (length resp) (head_end resp)) resp.

Definition disposition (keepalive : bool) : bytes :=
  if keepalive then bs "Connection: keep-alive" else bs "Connection: close".

Definition annotate_connection (resp : bytes) (keepalive : bool) : bytes :=
  match (fun p => (p + 2)%nat) <$> windows_position CRLF resp with
  | None => resp
  | Some status_end =>
      match header_value (response_head resp) (bs "connection") with
      | Some _ => resp
      | None => take status_end resp ++ (disposition keepalive ++ CRLF) ++ drop status_end resp
      end
  end.

Definition response_is_self_delimited (resp : bytes) : bool :=
  let h := response_head resp in
  bool_decide (is_Some (header_value h (bs "content-length"))) ||
  match header_value h (bs "transfer-encoding") with
  | Some te => bool_decide (is_Some (find_ci te (bs "chunked")))
  | None => false
  end.

(** ** Fields of an annotated response *)

Lemma header_value_line s y name :
  first_line s ->
  header_value (s ++ CRLF ++ y) name =
    match line_value s name with Some v => Some v | None => header_value y name end.
Proof. intros Hs. by apply (scan_line (fun line => line_value line name)). Qed.

Lemma response_head_line s y :
  first_line s ->
  response_head (s ++ CRLF ++ y) = s ++ CRLF ++ (if starts_with CRLF y then CRLF else response_head y).
Proof.
  intros Hs. unfold response_head, head_end. rewrite (blank_line s y Hs).
  assert (forall k, take (length s + 2 + k) (s ++ CRLF ++ y) = s ++ CRLF ++ take k y) as Ht.
  { intros k. rewrite <- Nat.add_assoc, take_app_add. done. }
  destruct (starts_with CRLF y) eqn:E.
  - cbn [fmap option_fmap option_map default]. apply starts_with_app in E as (t & ->).
    replace (id (length s + 4)%nat) with (length s + 2 + 2)%nat by (unfold id; lia). by rewrite Ht.
  - destruct (windows_position CRLFCRLF y) as [q|]; cbn [fmap option_fmap option_map default id].
    + rewrite <- Ht. f_equal. lia.
    + by rewrite !take_ge by done.
Qed.

Lemma disposition_line ka : first_line (disposition ka).
Proof. by destruct ka. Qed.

Lemma lower_prefix_eq b hay : lower_prefix b hay = true -> length hay = length b -> b = to_ascii_lowercase <$> hay.
Proof.
  revert hay. induction b as [|y b IH]; intros [|x hay] H Hl; simpl in *; try lia; [done|].
  apply andb_true_iff in H as [<-%Z.eqb_eq H]. f_equal. apply IH; [done|lia].
Qed.

Lemma disposition_value ka name :
  line_value (disposition ka) name =
    if bool_decide (name = bs "connection") then Some (if ka then bs "keep-alive" else bs "close") else None.
Proof.
  case_bool_decide as E; [subst; by destruct ka|]. unfold line_value.
  assert (position (fun c => c =? COLON) (disposition ka) = Some 10%nat) as -> by (by destruct ka).
  assert (take 10 (disposition ka) = bs "Connection") as -> by (by destruct ka).
  destruct (_ && _) eqn:Em; [|done]. exfalso. apply andb_true_iff in Em as [Hl%Nat.eqb_eq Hp].
  apply lower_prefix_eq in Hp; done.
Qed.

(** What annotating does to a response whose first line is [s]. *)
Lemma annotate_line s y ka :
  first_line s ->
  annotate_connection (s ++ CRLF ++ y) ka =
    match header_value (response_head (s ++ CRLF ++ y)) (bs "connection") with
    | Some _ => s ++ CRLF ++ y
    | None => s ++ CRLF ++ disposition ka ++ CRLF ++ y
    end.
Proof.
  intros Hs. unfold annotate_connection. rewrite (first_line_app s y Hs). cbn [fmap option_fmap option_map].
  destruct (header_value _ _); [done|].
  replace (take (length s + 2) (s ++ CRLF ++ y)) with (s ++ CRLF) by (by rewrite take_app_add).
  replace (drop (length s + 2) (s ++ CRLF ++ y)) with y by (by rewrite drop_app_add).
  by rewrite <- !app_assoc.
Qed.

(** The fields of the annotated response. *)
Lemma annotated_fields s y ka name :
  first_line s ->
  header_value (response_head (s ++ CRLF ++ disposition ka ++ CRLF ++ y)) name =
    match line_value s name with
    | Some v => Some v
    | None =>
        if bool_decide (name = bs "connection") then Some (if ka then bs "keep-alive" else bs "close")
        else header_value (if starts_with CRLF y then CRLF else response_head y) name
    end.
Proof.
  intros Hs. rewrite response_head_line by done.
  assert (starts_with CRLF (disposition ka ++ CRLF ++ y) = false) as -> by (by destruct ka).
  rewrite response_head_line by apply disposition_line.
  rewrite !header_value_line by (done || apply disposition_line). rewrite disposition_value.
  destruct (line_value s name); [done|]. by case_bool_decide.
Qed.

Lemma plain_fields s y name :
  first_line s ->
  header_value (response_head (s ++ CRLF ++ y)) name =
    match line_value s name with
    | Some v => Some v
    | None => header_value (if starts_with CRLF y then CRLF else response_head y) name
    end.
Proof. intros Hs. by rewrite response_head_line, header_value_line by done. Qed.

(** Every field but [Connection] survives the annotation. *)
Lemma annotate_keeps_fields resp ka name : name <> bs "connection" ->
  header_value (response_head (annotate_connection resp ka)) name = header_value (response_head resp) name.
Proof.
  intros Hn. destruct (windows_position CRLF resp) as [p|] eqn:Hw; [|unfold annotate_connection; by rewrite Hw].
  destruct (first_line_take _ _ Hw) as [Hs (y & Hy)]. revert Hs Hy. generalize (take p resp). intros s Hs ->.
  pose proof (annotate_line s y ka Hs) as Ha.
  destruct (header_value (response_head (s ++ CRLF ++ y)) (bs "connection")); rewrite Ha; [done|].
  rewrite annotated_fields, plain_fields by done. destruct (line_value s name); [done|].
  by rewrite bool_decide_eq_false_2 by done.
Qed.

Lemma annotate_self_delimited resp ka :
  response_is_self_delimited (annotate_connection resp ka) = response_is_self_delimited resp.
Proof. unfold response_is_self_delimited. by rewrite !annotate_keeps_fields by done. Qed.

(** C35. Annotating a response states the connection's disposition and
    changes nothing else: a response with a status line carries afterwards the
    disposition it stated itself, or else the host's; every other field reads
    as before, and so does whether the response delimits itself; the bytes are
    the response's with at most the one line put in; and annotating again, with
    either decision, does nothing. *)
Theorem annotate_connection_sound (resp : bytes) (keepalive : bool) :
  let r := annotate_connection resp keepalive in
  let field l name := header_value (response_head l) name in
  (is_Some (windows_position CRLF resp) ->
     field r (bs "connection") =
       Some (default (if keepalive then bs "keep-alive" else bs "close") (field resp (bs "connection")))) /\
  (forall name, name <> bs "connection" -> field r name = field resp name) /\
  response_is_self_delimited r = response_is_self_delimited resp /\
  (exists pre post, resp = pre ++ post /\
     (r = pre ++ post \/ r = pre ++ (disposition keepalive ++ CRLF) ++ post)) /\
  (forall k, annotate_connection r k = r).
Proof.
  cbv zeta. split; [|split; [by apply annotate_keeps_fields|split; [apply annotate_self_delimited|]]].
  - intros [p Hw]. destruct (first_line_take _ _ Hw) as [Hs (y & Hy)]. rewrite Hy. generalize (take p resp), Hs. clear. intros s Hs.
    pose proof (annotate_line s y keepalive Hs) as Ha.
    destruct (header_value (response_head (s ++ CRLF ++ y)) (bs "connection")) as [v|] eqn:Hv; rewrite Ha, ?Hv; [done|].
    rewrite plain_fields in Hv by done. rewrite annotated_fields by done. by destruct (line_value s _).
  - destruct (windows_position CRLF resp) as [p|] eqn:Hw.
    2:{ assert (forall k, annotate_connection resp k = resp) as Hid by (intros k; unfold annotate_connection; by rewrite Hw).
        rewrite Hid. split; [|done]. exists [], resp. split; [done|by left]. }
    destruct (first_line_take _ _ Hw) as [Hs (y & Hy)]. rewrite Hy. generalize (take p resp), Hs. clear. intros s Hs.
    pose proof (annotate_line s y keepalive Hs) as Ha.
    destruct (header_value (response_head (s ++ CRLF ++ y)) (bs "connection")) as [v|] eqn:Hv; rewrite Ha.
    + split; [exists [], (s ++ CRLF ++ y); split; [done|by left]|]. intros k. rewrite annotate_line, Hv; done.
    + split; [exists (s ++ CRLF), y; rewrite <- !app_assoc; split; [done|by right]|].
      intros k. rewrite annotate_line by done. rewrite plain_fields in Hv by done. rewrite annotated_fields by done.
      by destruct (line_value s _).
Qed.

Definition teapot : bytes :=
  bs "HTTP/1.1 418 I am a teapot" ++ CRLF ++ bs "Content-Length: 2" ++ CRLF ++ CRLF ++ bs "no".

Lemma annotate_connection_sound_witness :
  header_value (response_head (annotate_connection teapot true)) (bs "connection") =
    Some (default (bs "keep-alive") (header_value (response_head teapot) (bs "connection"))).
Proof.
  apply (proj1 (annotate_connection_sound teapot true)). eexists. vm_compute. reflexivity.
Defined.

(** ** Verdicts on a growing buffer *)

Lemma head_end_app l p y : head_end l = Some p -> head_end (l ++ y) = Some p /\ take p (l ++ y) = take p l.
Proof.
  unfold head_end. intros H. destruct (windows_position CRLFCRLF l) as [q|] eqn:E; simplify_eq/=.
  rewrite (windows_position_app _ _ _ y E). split; [done|].
  pose proof (windows_position_bound _ _ _ E) as Hb. simpl in Hb. apply take_app_le. lia.
Qed.

Lemma h2c_frames_more f : forall g rest y,
  (f <= g)%nat -> h2c_frames f rest = true -> h2c_frames g (rest ++ y) = true.
Proof.
  induction f as [|f IH]; intros [|g] rest y Hg H; try done; [lia|]. cbn [h2c_frames] in *.
  rewrite length_app. destruct (length rest <? 9)%nat eqn:E9; [done|]. apply Nat.ltb_ge in E9.
  assert (forall i, (i < 9)%nat -> byte_at (rest ++ y) i = byte_at rest i) as Hb.
  { intros i Hi. unfold byte_at. by rewrite lookup_app_l by lia. }
  assert (frame_len (rest ++ y) = frame_len rest) as Hlen by (unfold frame_len; rewrite !Hb by lia; done).
  rewrite Hlen, Hb by lia. rewrite (proj2 (Nat.ltb_ge (length rest + length y) 9)) by lia.
  destruct (length rest <? 9 + frame_len rest)%nat eqn:El; [done|]. apply Nat.ltb_ge in El.
  rewrite (proj2 (Nat.ltb_ge _ (9 + frame_len rest))) by lia.
  destruct (_ =? 1); [done|]. rewrite drop_app_le by lia. apply IH; [lia|done].
Qed.

(** The two verdicts taken on a connection's growing buffer are final
    once positive: a body found over the cap stays over it, and a complete
    HTTP/2 opening burst stays complete, whatever arrives next. With the head
    in hand the body gate fires exactly when the bytes already buffered past it
    exceed the cap or the declared length does. *)
Theorem buffered_verdicts_final (acc more : bytes) (cap : Z) (Hcap : 0 <= cap) :
  (body_over_limit acc cap = true -> body_over_limit (acc ++ more) cap = true) /\
  (h2c_burst_complete acc = true -> h2c_burst_complete (acc ++ more) = true) /\
  (forall p, head_end acc = Some p -> cap <> 0 ->
     body_over_limit acc cap = true <->
     cap < Z.of_nat (length (drop p acc)) \/
     exists n, declared_length (take p acc) = Some n /\ cap < n).
Proof.
  split; [|split].
  - unfold body_over_limit. destruct (cap =? 0); [done|].
    destruct (head_end acc) as [p|] eqn:Hp; [|done]. destruct (head_end_app _ _ more Hp) as [-> ->].
    destruct (declared_length (take p acc)) as [n|]; rewrite ?orb_true_iff, !Z.ltb_lt, length_app; lia.
  - unfold h2c_burst_complete. intros H. rewrite length_app.
    destruct (decide (length acc <= H2_PREFACE_FULL)%nat) as [Hl|Hl].
    { rewrite drop_ge in H by done. by destruct (length acc). }
    rewrite drop_app_le by lia. eapply h2c_frames_more; [|done]. lia.
  - intros p Hp Hc. unfold body_over_limit. rewrite (proj2 (Z.eqb_neq _ _)), Hp, length_drop by done.
    destruct (declared_length (take p acc)) as [n|]; rewrite ?orb_true_iff, !Z.ltb_lt.
    + split; [intros [?|?]; [right; by exists n|by left]|]. intros [?|(m & [= <-] & ?)]; auto.
    + split; [by left|]. by intros [?|(m & ? & _)].
Qed.

Definition upload : bytes := bs "POST /a HTTP/1.1" ++ CRLF ++ bs "Content-Length: 9" ++ CRLF ++ CRLF.

Lemma buffered_verdicts_final_witness :
  body_over_limit upload 8 = true /\ body_over_limit (upload ++ bs "12345") 8 = true.
Proof.
  split; [vm_compute; reflexivity|].
  apply (proj1 (buffered_verdicts_final upload (bs "12345") 8 ltac:(discriminate))).
  vm_compute. reflexivity.
Defined.

(** ** The boundary verdict *)

(** The outcomes of the linked framer and their documented encoding. *)
Inductive Outcome := OutNeedMore | OutReject (reason : Z) | OutComplete (consumed : Z).

Definition encode_outcome (o : Outcome) : bytes :=
  match o with
  | OutNeedMore => [0]
  | OutReject r => [1; r]
  | OutComplete n => 2 :: to_le_bytes 8 n
  end.

Lemma or_le_from_le l : bytes_ok l -> or_le 0 l = from_le_bytes l.
Proof.
  intros H. pose proof (from_le_bytes_bound l H) as Hb. rewrite <- (to_from_le_bytes l H) at 1.
  rewrite or_le_to_le by (try done; lia). apply Z.shiftl_0_r.
Qed.

(** The boundary decision is the linked framer's, bounded by the host: an
    encoded outcome is acted on as it says, except that a buffer or a request
    past the cap is refused; and a request is taken off the buffer only on a
    well-formed complete verdict, within the buffer and within the cap, every
    other answer being a wait within the cap or a refusal. *)
Theorem next_request_fail_closed (frame_verdict : bytes -> bytes) (data : bytes)
    (Hv : bytes_ok (frame_verdict data)) :
  (forall o, frame_verdict data = encode_outcome o ->
     next_request frame_verdict data =
       match o with
       | OutNeedMore => if bool_decide (Z.of_nat (length data) <= REQUEST_CAP) then NeedMore else Oversize
       | OutReject _ => Oversize
       | OutComplete n =>
           if bool_decide (n mod 2 ^ 64 <= Z.min (Z.of_nat (length data)) REQUEST_CAP)
           then Complete (n mod 2 ^ 64) else Oversize
       end) /\
  (forall n, next_request frame_verdict data = Complete n ->
     frame_verdict data = encode_outcome (OutComplete n) /\
     0 <= n <= Z.of_nat (length data) /\ n <= REQUEST_CAP) /\
  (next_request frame_verdict data = NeedMore -> Z.of_nat (length data) <= REQUEST_CAP).
Proof.
  unfold next_request. split; [|split].
  - intros o Ho. rewrite Ho in *. destruct o as [|r|n]; cbn [encode_outcome Z.eqb].
    + case_bool_decide; [by rewrite (proj2 (Z.ltb_ge _ _)) by lia|by rewrite (proj2 (Z.ltb_lt _ _)) by lia].
    + done.
    + rewrite length_to_le_bytes, or_le_from_le by apply to_le_bytes_ok. cbn [Pos.eqb Nat.eqb andb].
      assert (from_le_bytes (to_le_bytes 8 n) = n mod 2 ^ 64) as -> by apply from_to_le_mod.
      case_bool_decide as E.
      * by rewrite !(proj2 (Z.ltb_ge _ _)) by lia.
      * destruct (_ || _) eqn:E2; [done|]. apply orb_false_iff in E2 as [?%Z.ltb_ge ?%Z.ltb_ge]. lia.
  - intros n H. destruct (frame_verdict data) as [|tag le]; [done|].
    destruct (tag =? 0); [by destruct (_ <? _)|]. destruct (tag =? 1); [done|].
    destruct ((tag =? 2) && (length le =? 8)%nat) eqn:E; [|done].
    apply andb_true_iff in E as [->%Z.eqb_eq Hl%Nat.eqb_eq].
    destruct (_ || _) eqn:E2; [done|]. apply orb_false_iff in E2 as [?%Z.ltb_ge ?%Z.ltb_ge]. simplify_eq.
    apply Forall_cons in Hv as [_ Hle]. rewrite or_le_from_le in * by done.
    pose proof (from_le_bytes_bound le Hle). split; [|lia]. cbn [encode_outcome].
    by rewrite <- Hl, to_from_le_bytes by done.
  - destruct (frame_verdict data) as [|tag le]; [done|]. repeat case_match; try done. intros _. zify_bool. lia.
Qed.

Lemma next_request_fail_closed_witness :
  next_request (fun _ => encode_outcome (OutComplete 5)) (bs "12345678") = Complete 5.
Proof.
  refine (proj1 (next_request_fail_closed (fun _ => encode_outcome (OutComplete 5)) (bs "12345678") _)
            (OutComplete 5) eq_refl).
  apply (bool_decide_unpack _). vm_compute. exact I.
Defined.
