(* ===== verification/Gzip.v ===== *)
(** * Recompression of gzip responses ([migration/dataplane/host/src/gzip.rs])

    The head scanners and the head rewrite, the positional recovery of the
    plaintext from a stored-block stream, and [recompress]. The CRC, the
    decoder and the encoder of the codec library are parameters. *)
From S2P Require Import Prelude Bytes Lines.

Local Open Scope Z_scope.

Fixpoint fold_prefix (needle hay : bytes) : bool :=
  match needle, hay with
  | [], _ => true
  | _ :: _, [] => false
  | y :: n', x :: h' => (to_ascii_lowercase x =? to_ascii_lowercase y) && fold_prefix n' h'
  end.

Fixpoint fold_scan (hay needle : bytes) : option nat :=
  if fold_prefix needle hay then Some 0%nat
  else match hay with [] => None | _ :: h' => S <$> fold_scan h' needle end.

Definition gz_find_ci (hay needle : bytes) : option nat :=
  if bool_decide (needle = []) || (length hay <? length needle)%nat then None else fold_scan hay needle.

Definition field_name (line : bytes) : option bytes :=
  (fun colon => take colon line) <$> position (fun c => c =? COLON) line.

Definition gz_line_value (name line : bytes) : option bytes :=
  match position (fun c => c =? COLON) line with
  | Some colon =>
      if eq_ignore_ascii_case (take colon line) name then Some (trimmed (drop 1 (drop colon line))) else None
  | None => None
  end.

Definition gz_header_value (h name : bytes) : option bytes := scan_lines (gz_line_value name) (length h) h.

(** ** The head rewrite *)

Definition content_length : bytes := bs "content-length".

Definition is_cl (line : bytes) : bool :=
  match field_name line with
  | Some n => eq_ignore_ascii_case n content_length
  | None => false
  end.

Definition cl_line (new_len : nat) : bytes := bs "Content-Length: " ++ to_dec (Z.of_nat new_len).

Fixpoint rebuild_lines (fuel : nat) (rest : bytes) (new_len : nat) (wrote_cl : bool) : bytes :=
  match fuel with
  | O => []
  | S f =>
      match rest with
      | [] => []
      | _ =>
          let line_end := default (length rest) (windows_position CRLF rest) in
          let line := take line_end rest in
          if bool_decide (line = []) then (if wrote_cl then [] else cl_line new_len ++ CRLF) ++ CRLF
          else if is_cl line then cl_line new_len ++ CRLF ++ rebuild_lines f (drop (line_end + 2) rest) new_len true
          else line ++ CRLF ++ rebuild_lines f (drop (line_end + 2) rest) new_len wrote_cl
      end
  end.

Definition rebuild_head (h : bytes) (new_len : nat) : bytes := rebuild_lines (length h) h new_len false.

(** ** Recovery and recompression *)

Section codec.
Context (crc : bytes -> Z) (gunzip gzip : bytes -> option bytes).

Definition at_ (l : bytes) (i : nat) : Z := default 0 (l !! i).

Definition extract_stored_plaintext (gz : bytes) : option bytes :=
  if (length gz <? 23)%nat then None
  else if negb ((at_ gz 0 =? 0x1f) && (at_ gz 1 =? 0x8b) && (at_ gz 2 =? 8) && (at_ gz 3 =? 0)) then None
  else if negb (at_ gz 10 =? 1) then None
  else
    let body_end := (length gz - 8)%nat in
    let plain := slice 15 body_end gz in
    let crc_stored := from_le_bytes (slice body_end (body_end + 4) gz) in
    let isize_stored := from_le_bytes (slice (body_end + 4) (body_end + 8) gz) in
    if negb (wrap 32 (Z.of_nat (length plain)) =? isize_stored) then None
    else if negb (crc plain =? crc_stored) then None
    else Some plain.

Definition recover (body : bytes) : option bytes :=
  match extract_stored_plaintext body with Some p => Some p | None => gunzip body end.

Definition gz_wanted (h : bytes) : bool :=
  match gz_header_value h (bs "content-encoding") with
  | Some v => bool_decide (is_Some (gz_find_ci v (bs "gzip")))
  | None => false
  end &&
  match gz_header_value h (bs "transfer-encoding") with
  | Some te => negb (bool_decide (is_Some (gz_find_ci te (bs "chunked"))))
  | None => true
  end.

Definition recompress (resp : bytes) : bytes :=
  match head_end resp with
  | None => resp
  | Some p =>
      let h := take p resp in
      let body := drop p resp in
      if negb (gz_wanted h) then resp
      else if bool_decide (body = []) then resp
      else
        match recover body with
        | None => resp
        | Some plain =>
            match gzip plain with
            | None => resp
            | Some gz =>
                if (length body <=? length gz)%nat then resp else rebuild_head h (length gz) ++ gz
            end
        end
  end.
End codec.

(** ** The rewritten head *)

Lemma no_cr_first_line l : Forall (fun b => b <> CR) l -> first_line l.
Proof.
  unfold first_line. induction 1 as [|x l Hx _ IH]; [done|]. cbn [app]. rewrite windows_position_cons.
  assert (starts_with CRLF (x :: l ++ CRLF) = false) as ->.
  { apply not_true_iff_false. intros (t & Ht)%starts_with_app. by injection Ht as -> _. }
  rewrite andb_false_r, IH. done.
Qed.

Lemma cl_line_ok n : line_ok (cl_line n).
Proof.
  split; [|done]. apply no_cr_first_line, Forall_app. split; [by apply (bool_decide_unpack _)|].
  eapply Forall_impl; [apply (proj1 (to_dec_digits _))|]. unfold CR. simpl. lia.
Qed.

Lemma rposition_all {A} (p : A -> bool) l x : Forall (fun y => p y = true) (x :: l) -> rposition p (x :: l) = Some (length l).
Proof.
  revert x. induction l as [|y l IH]; intros x H; inversion_clear H as [|? ? H1 H2].
  - simpl. by rewrite H1.
  - change (rposition p (x :: y :: l)) with
      (match rposition p (y :: l) with Some i => Some (S i) | None => if p x then Some 0%nat else None end).
    by rewrite (IH y H2).
Qed.

Lemma trimmed_digits d : Forall (fun b => 48 <= b <= 57) d -> d <> [] -> trimmed (32 :: d) = d.
Proof.
  intros H Hn. assert (Forall (fun b => not_blank b = true) d) as Hb.
  { eapply Forall_impl; [exact H|]. intros b Hr. unfold not_blank. simpl in Hr.
    by rewrite (proj2 (Z.eqb_neq b 32)), (proj2 (Z.eqb_neq b 9)) by lia. }
  destruct d as [|x d]; [done|]. unfold trimmed.
  assert (position not_blank (32 :: x :: d) = Some 1%nat) as ->
    by (inversion_clear Hb as [|? ? H1 _]; simpl; by rewrite H1).
  assert (rposition not_blank (32 :: x :: d) = Some (S (length d))) as ->.
  { pose proof (rposition_all not_blank d x Hb) as Hr. cbn [rposition] in *. by rewrite Hr. }
  cbn [default fmap option_fmap option_map id]. unfold slice. cbn [drop]. apply take_ge. simpl. lia.
Qed.

Lemma eq_fold a b : eq_ignore_ascii_case a b = true <-> to_ascii_lowercase <$> a = to_ascii_lowercase <$> b.
Proof.
  revert b. induction a as [|x a IH]; intros [|y b]; simpl; try done.
  rewrite andb_true_iff, Z.eqb_eq, IH. split; [intros [H1 H2]; by f_equal|]. intros H. by injection H.
Qed.

Lemma cl_line_value n name :
  gz_line_value name (cl_line n) =
    if eq_ignore_ascii_case content_length name then Some (to_dec (Z.of_nat n)) else None.
Proof.
  unfold gz_line_value, cl_line. destruct (to_dec_digits (Z.of_nat n)) as [Hd Hne].
  set (d := to_dec (Z.of_nat n)) in *.
  assert (position (fun c => c =? COLON) (bs "Content-Length: " ++ d) = Some 14%nat) as -> by done.
  assert (take 14 (bs "Content-Length: " ++ d) = bs "Content-Length") as -> by done.
  assert (drop 1 (drop 14 (bs "Content-Length: " ++ d)) = 32 :: d) as -> by done.
  rewrite trimmed_digits by done.
  assert (eq_ignore_ascii_case (bs "Content-Length") name = eq_ignore_ascii_case content_length name) as ->; [|done].
  apply bool_eq_iff. rewrite !eq_fold. done.
Qed.

Definition new_line (n : nat) (l : bytes) : bytes := if is_cl l then cl_line n else l.

Definition new_lines (n : nat) (wrote : bool) (ls : list bytes) : list bytes :=
  (new_line n <$> ls) ++ (if wrote || existsb is_cl ls then [] else [cl_line n]).

Lemma new_lines_ok n wrote ls : Forall line_ok ls -> Forall line_ok (new_lines n wrote ls).
Proof.
  intros H. apply Forall_app. split.
  - apply Forall_fmap. eapply Forall_impl; [exact H|]. intros l Hl. simpl. unfold new_line.
    destruct (is_cl l); [apply cl_line_ok|done].
  - destruct (_ || _); constructor; [apply cl_line_ok|constructor].
Qed.

Lemma rebuild_block n ls : Forall line_ok ls -> forall fuel wrote,
  (length (block ls ++ CRLF) <= fuel)%nat ->
  rebuild_lines fuel (block ls ++ CRLF) n wrote = block (new_lines n wrote ls) ++ CRLF.
Proof.
  unfold new_lines. induction 1 as [|s ls [Hs Hne] _ IH]; intros fuel wrote Hf.
  - destruct fuel as [|fuel]; [simpl in Hf; lia|]. cbn. rewrite orb_false_r. destruct wrote; [done|].
    unfold block. cbn [fmap list_fmap concat]. by rewrite app_nil_r.
  - rewrite block_cons in *. pose proof (first_line_app s (block ls ++ CRLF) Hs) as Hw.
    assert (length (s ++ CRLF ++ block ls ++ CRLF) = length s + 2 + length (block ls ++ CRLF))%nat as Hlen
      by (rewrite !length_app; simpl; lia).
    assert (take (length s) (s ++ CRLF ++ block ls ++ CRLF) = s) as Ht by apply take_app_length.
    assert (drop (length s + 2) (s ++ CRLF ++ block ls ++ CRLF) = block ls ++ CRLF) as Hd
      by (by rewrite <- drop_drop, drop_app_length).
    destruct fuel as [|fuel]; [lia|]. cbn [rebuild_lines].
    destruct (s ++ CRLF ++ block ls ++ CRLF) as [|b l]; [simpl in Hlen; lia|].
    rewrite Hw. cbn [default id]. rewrite Ht, Hd, bool_decide_eq_false_2 by done.
    cbn [fmap list_fmap existsb app]. rewrite block_cons. unfold new_line at 1.
    destruct (is_cl s).
    + rewrite IH by lia. by rewrite orb_true_l, orb_true_r.
    + rewrite IH by lia. by rewrite orb_false_l.
Qed.

Lemma is_cl_value l : is_cl l = false -> gz_line_value content_length l = None.
Proof.
  unfold is_cl, field_name, gz_line_value. destruct (position _ l) as [colon|]; [|done].
  cbn [fmap option_fmap option_map]. by intros ->.
Qed.

Lemma other_value n l name :
  eq_ignore_ascii_case content_length name = false -> gz_line_value name (new_line n l) = gz_line_value name l.
Proof.
  intros Hn. unfold new_line. destruct (is_cl l) eqn:E; [|done]. rewrite cl_line_value, Hn.
  unfold is_cl, field_name, gz_line_value in *. destruct (position _ l) as [colon|]; [|done].
  cbn [fmap option_fmap option_map] in E. destruct (eq_ignore_ascii_case (take colon l) name) eqn:E2; [|done].
  apply not_true_iff_false in Hn. exfalso. apply Hn. rewrite eq_fold in *. congruence.
Qed.

Lemma new_lines_length_field n ls :
  first_some (gz_line_value content_length) (new_lines n false ls ++ [[]]) = Some (to_dec (Z.of_nat n)).
Proof.
  unfold new_lines. cbn [orb]. rewrite <- app_assoc. induction ls as [|l ls IH].
  - cbn [fmap list_fmap app existsb first_some]. by rewrite cl_line_value.
  - cbn [fmap list_fmap app existsb first_some]. unfold new_line at 1. destruct (is_cl l) eqn:E.
    + by rewrite cl_line_value.
    + rewrite is_cl_value by done. exact IH.
Qed.

Lemma new_lines_other_field n ls name :
  eq_ignore_ascii_case content_length name = false ->
  first_some (gz_line_value name) (new_lines n false ls ++ [[]]) = first_some (gz_line_value name) (ls ++ [[]]).
Proof.
  intros Hn. unfold new_lines. cbn [orb]. generalize (existsb is_cl ls). intros b. rewrite <- app_assoc.
  induction ls as [|l ls IH].
  - destruct b; [done|]. cbn [fmap list_fmap app first_some]. by rewrite cl_line_value, Hn.
  - cbn [fmap list_fmap app first_some]. by rewrite other_value, IH.
Qed.

(** ** The stored-block container *)

(** What the linked stage emits: a fixed header, the stored-block framing
    (whose 16-bit lengths wrap), the body, its CRC and its size. *)
Definition stored_container (crc : bytes -> Z) (mtime_xfl_os : bytes) (plain : bytes) : bytes :=
  [0x1f; 0x8b; 8; 0] ++ mtime_xfl_os ++ [1] ++
  to_le_bytes 2 (Z.of_nat (length plain)) ++ to_le_bytes 2 (65535 - Z.of_nat (length plain)) ++
  plain ++ to_le_bytes 4 (crc plain) ++ to_le_bytes 4 (Z.of_nat (length plain)).

(** A stream of that layout that holds [plain]: a header without optional fields,
    the framing of one stored block with any two lengths, the plaintext, and a
    trailer that agrees with it in checksum and in size. *)
Definition stored_frame (crc : bytes -> Z) (body plain : bytes) : Prop :=
  exists os lens c z, length os = 6%nat /\ length lens = 4%nat /\ length c = 4%nat /\ length z = 4%nat /\
    body = [0x1f; 0x8b; 8; 0] ++ os ++ [1] ++ lens ++ plain ++ c ++ z /\
    from_le_bytes c = crc plain /\ from_le_bytes z = Z.of_nat (length plain) mod 2 ^ 32.

Lemma frame_fields (pre plain c z : bytes) :
  length pre = 15%nat -> length c = 4%nat -> length z = 4%nat ->
  let body := pre ++ plain ++ c ++ z in let body_end := (length body - 8)%nat in
  length body = (length plain + 23)%nat /\ slice 15 body_end body = plain /\ slice body_end (body_end + 4) body = c /\ slice (body_end + 4) (body_end + 8) body = z.
Proof.
  intros Hp Hc Hz. cbv zeta. assert (length (pre ++ plain ++ c ++ z) = length plain + 23)%nat as Hl by (rewrite !length_app; lia).
  rewrite Hl. replace (length plain + 23 - 8)%nat with (15 + length plain)%nat by lia. split_and!; [done|..].
  - rewrite <- Hp. apply slice_mid.
  - rewrite <- Hp, <- Hc, <- length_app, app_assoc. apply slice_mid.
  - replace (pre ++ plain ++ c ++ z) with ((pre ++ plain ++ c) ++ z ++ []) by (by rewrite app_nil_r, <- !app_assoc).
    replace (15 + length plain + 4)%nat with (length (pre ++ plain ++ c)) by (rewrite !length_app; lia).
    replace (15 + length plain + 8)%nat with (length (pre ++ plain ++ c) + length z)%nat by (rewrite !length_app; lia).
    apply slice_mid.
Qed.

Lemma extract_frame crc body plain : stored_frame crc body plain -> extract_stored_plaintext crc body = Some plain.
Proof.
  intros (os & lens & c & z & Ho & Hl & Hc & Hz & -> & Hcrc & Hsize).
  destruct os as [|o1 [|o2 [|o3 [|o4 [|o5 [|o6 [|]]]]]]]; try done. destruct lens as [|l1 [|l2 [|l3 [|l4 [|]]]]]; try done. clear Ho Hl.
  set (pre := [0x1f; 0x8b; 8; 0; o1; o2; o3; o4; o5; o6; 1; l1; l2; l3; l4]).
  change ([0x1f; 0x8b; 8; 0] ++ [o1; o2; o3; o4; o5; o6] ++ [1] ++ [l1; l2; l3; l4] ++ plain ++ c ++ z) with (pre ++ plain ++ c ++ z).
  destruct (frame_fields pre plain c z eq_refl Hc Hz) as (Hlen & H1 & H2 & H3). cbv zeta in *.
  unfold extract_stored_plaintext. rewrite (proj2 (Nat.ltb_ge _ 23)) by lia. cbv zeta. rewrite H1, H2, H3, Hcrc, Hsize.
  unfold wrap. rewrite !Z.eqb_refl. done.
Qed.

Lemma extract_is_frame crc body plain : extract_stored_plaintext crc body = Some plain -> stored_frame crc body plain.
Proof.
  unfold extract_stored_plaintext. destruct (_ <? 23)%nat eqn:El; [done|]. apply Nat.ltb_ge in El.
  destruct ((at_ body 0 =? 0x1f) && (at_ body 1 =? 0x8b) && (at_ body 2 =? 8) && (at_ body 3 =? 0)) eqn:Eh; [|done].
  destruct (at_ body 10 =? 1) eqn:Eb; [|done]. cbn [negb]. cbv zeta. destruct (_ =? from_le_bytes _) eqn:Ez; [|done]. destruct (crc _ =? _) eqn:Ec; [|done]. cbn [negb]. intros [= <-].
  rewrite !andb_true_iff, !Z.eqb_eq in Eh. destruct Eh as [[[E0 E1] E2] E3]. apply Z.eqb_eq in Eb, Ez, Ec.
  destruct body as [|b0 [|b1 [|b2 [|b3 [|b4 [|b5 [|b6 [|b7 [|b8 [|b9 [|b10 [|b11 [|b12 [|b13 [|b14 rest]]]]]]]]]]]]]]]; try (cbn in El; lia).
  cbv [at_ lookup list_lookup default from_option id] in E0, E1, E2, E3, Eb. subst. cbn [length] in El.
  set (n := (length rest - 8)%nat). assert (length rest = n + 8)%nat as Hn by (unfold n; lia).
  exists [b4; b5; b6; b7; b8; b9], [b11; b12; b13; b14], (slice n (n + 4) rest), (slice (n + 4) (n + 8) rest).
  set (body := 0x1f :: 0x8b :: 8 :: 0 :: b4 :: b5 :: b6 :: b7 :: b8 :: b9 :: 1 :: b11 :: b12 :: b13 :: b14 :: rest) in *.
  assert (forall i j i' j', i' = (15 + i)%nat -> j' = (15 + j)%nat -> slice i' j' body = slice i j rest) as Hs
    by (intros i j ? ? -> ->; unfold slice; by replace (15 + j - (15 + i))%nat with (j - i)%nat by lia).
  assert (length body - 8 = 15 + n)%nat as Hend by (cbn [length body]; lia).
  rewrite (Hs 0%nat n) in Ez, Ec |- * by lia. rewrite (Hs n (n + 4)%nat) in Ec by lia. rewrite (Hs (n + 4)%nat (n + 8)%nat) in Ez by lia.
  split_and!; [done|done|unfold slice; rewrite length_take, length_drop; lia|unfold slice; rewrite length_take, length_drop; lia| |by symmetry|by symmetry].
  unfold body. cbn [app]. repeat f_equal. rewrite app_assoc. unfold slice. rewrite drop_0, Nat.sub_0_r. replace (n + 4 - n)%nat with 4%nat by lia. replace (n + 8 - (n + 4))%nat with 4%nat by lia.
  rewrite <- app_assoc, <- drop_drop. rewrite (take_ge (drop 4 (drop n rest))) by (rewrite !length_drop; lia). by rewrite take_drop, take_drop.
Qed.

Lemma stored_container_frame crc os plain : length os = 6%nat -> fits 32 (crc plain) -> stored_frame crc (stored_container crc os plain) plain.
Proof.
  intros Ho Hc. exists os, (to_le_bytes 2 (Z.of_nat (length plain)) ++ to_le_bytes 2 (65535 - Z.of_nat (length plain))), (to_le_bytes 4 (crc plain)), (to_le_bytes 4 (Z.of_nat (length plain))).
  rewrite length_app, !length_to_le_bytes, !from_to_le_mod. change (256 ^ Z.of_nat 4) with (2 ^ 32). unfold fits in Hc. rewrite (Z.mod_small (crc plain)) by lia.
  unfold stored_container. by rewrite <- !app_assoc.
Qed.

(** ** What a head says *)
Definition mentions (v word : bytes) : Prop := exists a w b, v = a ++ w ++ b /\ to_ascii_lowercase <$> w = to_ascii_lowercase <$> word.

Lemma fold_prefix_spec needle : forall hay, fold_prefix needle hay = true <-> exists w b, hay = w ++ b /\ to_ascii_lowercase <$> w = to_ascii_lowercase <$> needle.
Proof.
  induction needle as [|y n IH]; intros hay; cbn [fold_prefix].
  - split; [|done]. intros _. by exists [], hay.
  - destruct hay as [|x h].
    + split; [done|]. intros ([|] & b & H1 & H2); done.
    + rewrite andb_true_iff, Z.eqb_eq, IH. split.
      * intros (Hx & w & b & -> & Hw). exists (x :: w), b. split; [done|]. rewrite !fmap_cons. by f_equal.
      * intros ([|z w] & b & H1 & H2); [done|]. rewrite !fmap_cons in H2. injection H2 as Hz Hw. injection H1 as -> ->. split; [done|]. by exists w, b.
Qed.

Lemma fold_scan_spec needle hay : is_Some (fold_scan hay needle) <-> mentions hay needle.
Proof.
  induction hay as [|x h IH]; cbn [fold_scan].
  - destruct (fold_prefix needle []) eqn:E.
    + apply fold_prefix_spec in E as (w & b & H1 & H2). split; [|by eexists]. intros _. by exists [], w, b.
    + split; [by intros [? ?]|]. intros (a & w & b & H1 & H2). symmetry in H1. apply app_nil in H1 as [-> [-> ->]%app_nil].
      rewrite (proj2 (fold_prefix_spec needle [])) in E; [done|]. by exists [], [].
  - destruct (fold_prefix needle (x :: h)) eqn:E.
    + apply fold_prefix_spec in E as (w & b & H1 & H2). split; [|by eexists]. intros _. by exists [], w, b.
    + rewrite fmap_is_Some, IH. split.
      * intros (a & w & b & -> & Hw). by exists (x :: a), w, b.
      * intros ([|y a] & w & b & H1 & H2); [|injection H1 as -> ->; by exists a, w, b].
        rewrite (proj2 (fold_prefix_spec needle (x :: h))) in E; [done|]. by exists w, b.
Qed.

Lemma gz_find_ci_spec hay needle : needle <> [] -> is_Some (gz_find_ci hay needle) <-> mentions hay needle.
Proof.
  intros Hn. unfold gz_find_ci. rewrite bool_decide_false by done. cbn [orb]. destruct (_ <? _)%nat eqn:E; [|apply fold_scan_spec].
  apply Nat.ltb_lt in E. split; [by intros [? ?]|]. intros (a & w & b & -> & Hw). apply (f_equal length) in Hw. rewrite !length_fmap in Hw. rewrite !length_app in E. lia.
Qed.

(** A response that can be recompressed: it says [gzip] and is not chunked, and
    its body has a plaintext: what the stored block holds when it is one, and
    otherwise what the decoder gives. *)
Definition plaintext_of (crc : bytes -> Z) (gunzip : bytes -> option bytes) (body plain : bytes) : Prop :=
  stored_frame crc body plain \/ ((forall p, ~ stored_frame crc body p) /\ gunzip body = Some plain).

Record recompressible (crc : bytes -> Z) (gunzip : bytes -> option bytes) (resp h body plain : bytes) : Prop := {
  rc_cut : resp = h ++ body;
  rc_head : head_end resp = Some (length h);
  rc_gzip : exists v, gz_header_value h (bs "content-encoding") = Some v /\ mentions v (bs "gzip");
  rc_whole : forall te, gz_header_value h (bs "transfer-encoding") = Some te -> ~ mentions te (bs "chunked");
  rc_some : body <> [];
  rc_plain : plaintext_of crc gunzip body plain
}.

Lemma gz_wanted_spec h : gz_wanted h = true <->
  (exists v, gz_header_value h (bs "content-encoding") = Some v /\ mentions v (bs "gzip")) /\
  (forall te, gz_header_value h (bs "transfer-encoding") = Some te -> ~ mentions te (bs "chunked")).
Proof.
  unfold gz_wanted. rewrite andb_true_iff.
  assert (forall o word, word <> [] -> match o with Some v => bool_decide (is_Some (gz_find_ci v word)) | None => false end = true <-> exists v, o = Some v /\ mentions v word) as Hm.
  { intros [v|] word Hw; [|naive_solver]. rewrite bool_decide_eq_true, gz_find_ci_spec by done. naive_solver. }
  rewrite Hm by done. destruct (gz_header_value h (bs "transfer-encoding")) as [te|]; [|naive_solver].
  rewrite negb_true_iff, bool_decide_eq_false, gz_find_ci_spec by done. naive_solver.
Qed.

Lemma recover_spec crc gunzip body plain : recover crc gunzip body = Some plain <-> plaintext_of crc gunzip body plain.
Proof.
  unfold recover, plaintext_of. destruct (extract_stored_plaintext crc body) as [p|] eqn:E.
  - split; [intros [= ->]; left; by apply extract_is_frame|]. intros [H|[H _]]; [apply extract_frame in H; congruence|]. apply extract_is_frame in E. by apply H in E.
  - split; [|by intros [H%extract_frame|[_ H]]; [congruence|]]. intros H. right. split; [|done]. intros p Hp%extract_frame. congruence.
Qed.

Lemma recompressible_cut crc gunzip resp h body plain p :
  recompressible crc gunzip resp h body plain -> head_end resp = Some p -> take p resp = h /\ drop p resp = body.
Proof. intros H Hp. pose proof (rc_head _ _ _ _ _ _ H) as Hh. assert (p = length h) as -> by congruence. rewrite (rc_cut _ _ _ _ _ _ H). by rewrite take_app_length, drop_app_length. Qed.

(** The head that replaces [h] in front of [g]. *)
Definition reframed (h h' g : bytes) : Prop :=
  head_end (h' ++ g) = Some (length h') /\
  gz_header_value h' content_length = Some (to_dec (Z.of_nat (length g))) /\
  (forall name, eq_ignore_ascii_case content_length name = false -> gz_header_value h' name = gz_header_value h name).

Lemma rebuilt_head resp h body g : starts_with CRLF resp = false -> resp = h ++ body -> head_end resp = Some (length h) -> reframed h (rebuild_head h (length g)) g.
Proof.
  intros Hs Hcut Hp. destruct (head_block resp (length h) Hs Hp) as (ls & rest & Hr & Hls & Hne & Hpl).
  assert (h = block ls ++ CRLF) as ->.
  { rewrite Hcut, app_assoc in Hr. apply (f_equal (take (length h))) in Hr. rewrite take_app_length in Hr. rewrite Hr. apply take_app_length'. rewrite length_app. done. }
  set (ls' := new_lines (length g) false ls).
  assert (rebuild_head (block ls ++ CRLF) (length g) = block ls' ++ CRLF) as -> by (by apply rebuild_block).
  assert (Forall line_ok ls') as Hls' by (by apply new_lines_ok). unfold reframed, gz_header_value. split_and!.
  - rewrite <- app_assoc, block_head, length_app; [done|done|]. by destruct ls.
  - rewrite scan_block by done. apply new_lines_length_field.
  - intros name Hn. rewrite !scan_block by done. by apply new_lines_other_field.
Qed.


(** A toy codec: run lengths behind a marker byte, so that repetitive bodies
    shrink and everything decodes. *)
Definition toy_gzip (p : bytes) : option bytes :=
  match p with
  | x :: _ => if bool_decide (p = replicate (length p) x) then Some [0; Z.of_nat (length p); x] else Some (1 :: p)
  | [] => Some [1]
  end.

Definition toy_gunzip (g : bytes) : option bytes :=
  match g with
  | [0; n; x] => Some (replicate (Z.to_nat n) x)
  | 1 :: p => Some p
  | _ => None
  end.

Lemma toy_codec p g : toy_gzip p = Some g -> toy_gunzip g = Some p.
Proof.
  unfold toy_gzip. destruct p as [|x p]; [by intros [= <-]|]. case_bool_decide as E; intros [= <-]; [|done].
  unfold toy_gunzip. rewrite Nat2Z.id. f_equal. symmetry. exact E.
Qed.

Definition toy_crc (p : bytes) : Z := 7.

Definition gzipped : bytes :=
  block [bs "HTTP/1.1 200 OK"; bs "content-encoding: gzip"; bs "content-LENGTH: 31"] ++ CRLF ++
  stored_container toy_crc [0; 0; 0; 0; 0; 255] (replicate 8 65).

Definition gzipped_head : bytes := block [bs "HTTP/1.1 200 OK"; bs "content-encoding: gzip"; bs "content-LENGTH: 31"] ++ CRLF.

Lemma gzipped_recompressible :
  recompressible toy_crc toy_gunzip gzipped gzipped_head (stored_container toy_crc [0; 0; 0; 0; 0; 255] (replicate 8 65)) (replicate 8 65).
Proof.
  split; [reflexivity|reflexivity| | |discriminate|].
  - exists (bs "gzip"). split; [reflexivity|]. by exists [], (bs "gzip"), [].
  - intros te E. vm_compute in E. discriminate E.
  - left. apply stored_container_frame; [reflexivity|]. unfold fits, toy_crc. lia.
Qed.


(** Its head; a body whose checksum is wrong; a chunked response. *)
Definition gz_resp (fields : list bytes) (c : bytes) : bytes :=
  block ([bs "HTTP/1.1 200 OK"; bs "Content-Encoding: GZip"] ++ fields) ++ CRLF ++
  [0x1f; 0x8b; 8; 0; 0; 0; 0; 0; 0; 255; 1; 8; 0; 247; 255] ++ replicate 8 65 ++ c ++ [8; 0; 0; 0].
Example recompress_runs :
  recompress toy_crc toy_gunzip toy_gzip gzipped = block [bs "HTTP/1.1 200 OK"; bs "content-encoding: gzip"; bs "Content-Length: 3"] ++ CRLF ++ [0; 8; 65] /\
  recompress toy_crc toy_gunzip toy_gzip (gz_resp [] [7; 0; 0; 0]) = block [bs "HTTP/1.1 200 OK"; bs "Content-Encoding: GZip"; bs "Content-Length: 3"] ++ CRLF ++ [0; 8; 65] /\
  recompress toy_crc toy_gunzip toy_gzip (gz_resp [] [8; 0; 0; 0]) = gz_resp [] [8; 0; 0; 0] /\
  recompress toy_crc toy_gunzip toy_gzip (gz_resp [bs "transfer-encoding: Chunked"] [7; 0; 0; 0]) = gz_resp [bs "transfer-encoding: Chunked"] [7; 0; 0; 0].
Proof. vm_compute. auto. Qed.
