(* ===== verification/Ws.v ===== *)
(** * WebSocket handshake and frame codec ([migration/dataplane/host/src/ws.rs])

    SHA-1, base64, the upgrade test, the permessage-deflate negotiation and
    the 101 response are translated whole, on the source's bytes. The
    streaming header decoder and the frame encoders call a linked verdict
    archive; those calls ([header_verdict], [encode_header], [encode_close])
    are parameters. Byte slices of a [str] are trimmed as [str::trim] does,
    by the UTF-8 encodings of the Unicode white space characters. *)
From S2P Require Import Prelude Bytes Lines Http Gzip.

Local Open Scope Z_scope.

(** ** SHA-1 and base64 *)

Definition u32_add (x y : Z) : Z := wrapping_add 32 x y.

(** [while m.len() % 64 != 56 { m.push(0) }]: at most 63 pushes. *)
Fixpoint pad_to_56 (fuel : nat) (m : bytes) : bytes :=
  match fuel with
  | O => m
  | S f => if (length m mod 64 =? 56)%nat then m else pad_to_56 f (vec_push m 0)
  end.

Definition sha1_pad (msg : bytes) : bytes :=
  let bits := wrapping_mul 64 (Z.of_nat (length msg)) 8 in
  pad_to_56 64 (vec_push msg 0x80) ++ to_be_bytes 8 bits.

(** [w[i]] for [i >= 16], appended one at a time. *)
Fixpoint schedule (n : nat) (w : list Z) : list Z :=
  match n with
  | O => w
  | S n' =>
      let i := length w in
      let at_ k := default 0 (w !! (i - k)%nat) in
      schedule n' (vec_push w (rotate_left 32
        (Z.lxor (Z.lxor (Z.lxor (at_ 3%nat) (at_ 8%nat)) (at_ 14%nat)) (at_ 16%nat)) 1))
  end.

Fixpoint be_words (n : nat) (chunk : bytes) : list Z :=
  match n with
  | O => []
  | S n' => from_be_bytes (take 4 chunk) :: be_words n' (drop 4 chunk)
  end.

Definition not32 (x : Z) : Z := max_uint 32 - x.

Definition sha1_fk (i : nat) (b c d : Z) : Z * Z :=
  if (i <=? 19)%nat then (Z.lor (Z.land b c) (Z.land (not32 b) d), 0x5A827999)
  else if (i <=? 39)%nat then (Z.lxor (Z.lxor b c) d, 0x6ED9EBA1)
  else if (i <=? 59)%nat then (Z.lor (Z.lor (Z.land b c) (Z.land b d)) (Z.land c d), 0x8F1BBCDC)
  else (Z.lxor (Z.lxor b c) d, 0xCA62C1D6).

Definition Sha : Type := Z * Z * Z * Z * Z.

Fixpoint sha1_rounds (i : nat) (w : list Z) (st : Sha) : Sha :=
  match w with
  | [] => st
  | wi :: w' =>
      let '(a, b, c, d, e) := st in
      let '(f, k) := sha1_fk i b c d in
      let t := u32_add (u32_add (u32_add (u32_add (rotate_left 32 a 5) f) e) k) wi in
      sha1_rounds (S i) w' (t, a, rotate_left 32 b 30, c, d)
  end.

Definition sha1_block (st : Sha) (chunk : bytes) : Sha :=
  let '(h0, h1, h2, h3, h4) := st in
  let '(a, b, c, d, e) := sha1_rounds 0 (schedule 64 (be_words 16 chunk)) st in
  (u32_add h0 a, u32_add h1 b, u32_add h2 c, u32_add h3 d, u32_add h4 e).

(** [chunks_exact(64)] of a padded message. *)
Fixpoint sha1_blocks (n : nat) (m : bytes) (st : Sha) : Sha :=
  match n with
  | O => st
  | S n' => sha1_blocks n' (drop 64 m) (sha1_block st (take 64 m))
  end.

Definition sha1 (msg : bytes) : bytes :=
  let m := sha1_pad msg in
  let '(h0, h1, h2, h3, h4) :=
    sha1_blocks (length m / 64) m
      (0x67452301, 0xEFCDAB89, 0x98BADCFE, 0x10325476, 0xC3D2E1F0) in
  concat (to_be_bytes 4 <$> [h0; h1; h2; h3; h4]).

Definition base64_alphabet : bytes :=
  bs "ABCDEFGHIJKLMNOPQRSTUVWXYZabcdefghijklmnopqrstuvwxyz0123456789+/".

Definition b64_char (v : Z) : Z := default 0 (base64_alphabet !! Z.to_nat (Z.land v 63)).
Definition b64_word (b0 b1 b2 : Z) : Z := Z.lor (Z.lor (Z.shiftl b0 16) (Z.shiftl b1 8)) b2.

Fixpoint base64 (input : bytes) : bytes :=
  match input with
  | [] => []
  | [b0] =>
      let v := b64_word b0 0 0 in [b64_char (Z.shiftr v 18); b64_char (Z.shiftr v 12); 61; 61]
  | [b0; b1] =>
      let v := b64_word b0 b1 0 in
      [b64_char (Z.shiftr v 18); b64_char (Z.shiftr v 12); b64_char (Z.shiftr v 6); 61]
  | b0 :: b1 :: b2 :: rest =>
      let v := b64_word b0 b1 b2 in
      b64_char (Z.shiftr v 18) :: b64_char (Z.shiftr v 12) :: b64_char (Z.shiftr v 6) ::
      b64_char v :: base64 rest
  end.

(** ** The upgrade request *)

Fixpoint ci_prefix (needle hay : bytes) : bool :=
  match needle, hay with
  | [], _ => true
  | _ :: _, [] => false
  | x :: n', y :: h' => (to_ascii_lowercase y =? to_ascii_lowercase x) && ci_prefix n' h'
  end.

Fixpoint ci_scan (hay needle : bytes) : option nat :=
  if ci_prefix needle hay then Some 0%nat
  else match hay with [] => None | _ :: h' => S <$> ci_scan h' needle end.

Definition ci_find (hay needle : bytes) : option nat :=
  if bool_decide (needle = []) || (length hay <? length needle)%nat then None
  else ci_scan hay needle.

Definition key_header : bytes := bs "sec-websocket-key:".
Definition ext_header_name : bytes := bs "sec-websocket-extensions:".

Definition is_ws_upgrade (h : bytes) : bool :=
  bool_decide (is_Some (ci_find h key_header)) && bool_decide (is_Some (ci_find h (bs "websocket"))).

Definition GUID : bytes := bs "258EAFA5-E914-47DA-95CA-C5AB0DC85B11".

Record WsConfig := mkWsConfig {
  deflate : bool;
  client_no_context_takeover : bool;
  server_no_context_takeover : bool;
  server_max_window_bits : Z
}.

Definition WsConfig_default : WsConfig := mkWsConfig false false false 15.

(** The bytes up to the end of the line. *)
Fixpoint until_eol (l : bytes) : bytes :=
  match l with
  | [] => []
  | b :: l' => if (b =? CR) || (b =? LF) then [] else b :: until_eol l'
  end.

(** [trim_matches] on the double quote. *)
Fixpoint drop_quotes (l : bytes) : bytes :=
  match l with b :: l' => if b =? 34 then drop_quotes l' else l | [] => [] end.
Definition trim_quotes (l : bytes) : bytes := reverse (drop_quotes (reverse (drop_quotes l))).

Definition split_once (c : Z) (l : bytes) : option (bytes * bytes) :=
  i ← position (fun b => b =? c) l; Some (take i l, drop (S i) l).

(** ** permessage-deflate *)

(** The state of the parameter loop: configuration, response, acceptable. *)
Definition Offer : Type := WsConfig * bytes * bool.

Definition offer_param (st : Offer) (param : bytes) : Offer :=
  let '(cfg, resp, ok) := st in
  if bool_decide (param = []) then st
  else
    let '(key, val) :=
      match split_once 61 param with
      | Some (k, v) => (str_trim k, Some (trim_quotes (str_trim v)))
      | None => (param, None)
      end in
    if bytes_eqb key (bs "server_no_context_takeover") then
      (mkWsConfig (deflate cfg) (client_no_context_takeover cfg) true (server_max_window_bits cfg),
       resp ++ bs "; server_no_context_takeover", ok)
    else if bytes_eqb key (bs "client_no_context_takeover") then
      (mkWsConfig (deflate cfg) true (server_no_context_takeover cfg) (server_max_window_bits cfg),
       resp ++ bs "; client_no_context_takeover", ok)
    else if bytes_eqb key (bs "server_max_window_bits") then
      match (v ← val; parse_uint 8 v) with
      | Some n =>
          if (9 <=? n) && (n <=? 15)
          then (mkWsConfig (deflate cfg) (client_no_context_takeover cfg)
                           (server_no_context_takeover cfg) n,
                resp ++ bs "; server_max_window_bits=" ++ to_dec n, ok)
          else (cfg, resp, false)
      | None => (cfg, resp, false)
      end
    else if bytes_eqb key (bs "client_max_window_bits") then
      match val with
      | None => st
      | Some v =>
          match parse_uint 8 v with
          | Some n => if (8 <=? n) && (n <=? 15) then st else (cfg, resp, false)
          | None => (cfg, resp, false)
          end
      end
    else (cfg, resp, false).

Fixpoint first_offer (offers : list bytes) : option (bytes * WsConfig) :=
  match offers with
  | [] => None
  | offer :: rest =>
      match str_trim <$> split_on (fun b => b =? 59) offer with
      | [] => first_offer rest
      | name :: params =>
          if negb (eq_ignore_ascii_case name (bs "permessage-deflate")) then first_offer rest
          else
            let '(cfg, resp, ok) :=
              fold_left offer_param params
                (mkWsConfig true false false 15, bs "permessage-deflate", true) in
            if (ok : bool) then Some (resp, cfg) else first_offer rest
      end
  end.

Definition negotiate_deflate (h : bytes) : option (bytes * WsConfig) :=
  hi ← ci_find h ext_header_name;
  let value := until_eol (drop (hi + length ext_header_name) h) in
  if utf8_valid value then first_offer (split_on (fun b => b =? 44) value) else None.

Fixpoint skip_blanks (l : bytes) : bytes :=
  match l with b :: l' => if (b =? 32) || (b =? 9) then skip_blanks l' else l | [] => [] end.

Definition accept_token (key : bytes) : bytes := base64 (sha1 (key ++ GUID)).

Definition upgrade_response (h : bytes) : option (bytes * WsConfig) :=
  ki ← ci_find h key_header;
  let key := until_eol (skip_blanks (drop (ki + length key_header) h)) in
  let accept := accept_token key in
  let '(ext_header, cfg) :=
    match negotiate_deflate h with
    | Some (value, cfg) => (bs "Sec-WebSocket-Extensions: " ++ value ++ CRLF, cfg)
    | None => ([], WsConfig_default)
    end in
  Some (bs "HTTP/1.1 101 Switching Protocols" ++ CRLF ++ bs "Upgrade: websocket" ++ CRLF ++
        bs "Connection: Upgrade" ++ CRLF ++ bs "Sec-WebSocket-Accept: " ++ accept ++ CRLF ++
        ext_header ++ CRLF, cfg).

(** The example of RFC 6455, section 1.3. *)
Example accept_token_rfc :
  accept_token (bs "dGhlIHNhbXBsZSBub25jZQ==") = bs "s3pPLMBiTxaQ9kYGzzhZRbK+xOo=".
Proof. vm_compute. reflexivity. Qed.

(** ** Frames *)

Definition OP_CONT : Z := 0.
Definition OP_TEXT : Z := 1.
Definition OP_BINARY : Z := 2.
Definition OP_CLOSE : Z := 8.
Definition OP_PING : Z := 9.
Definition OP_PONG : Z := 10.

Definition CLOSE_PROTOCOL_ERROR : Z := 1002.
Definition CLOSE_INVALID_PAYLOAD : Z := 1007.
Definition CLOSE_TOO_BIG : Z := 1009.

Record FrameHeader := mkHeader {
  fin : bool; opcode : Z; len : Z; fmask : list Z; rsv1 : bool
}.

Definition MAX_HEADER : nat := 14.

Inductive HeaderStep :=
  | NeedMore
  | Done (h : FrameHeader) (used : nat)
  | Bad (code : Z).

(** [dbuf] is the filled part of the fixed 14-byte buffer. *)
Record HeaderDecoder := mkDecoder { dbuf : bytes; rsv1_ok : bool }.

Definition with_deflate (ok : bool) : HeaderDecoder := mkDecoder [] ok.

Definition has_rsv1 (d : HeaderDecoder) (buf : bytes) : bool :=
  rsv1_ok d && match buf with b :: _ => negb (Z.land b 0x40 =? 0) | [] => false end.

Definition peel (r : bool) (buf : bytes) : bytes :=
  match buf with
  | b :: rest => if r then Z.ldiff b 0x40 :: rest else buf
  | [] => []
  end.

Definition nth_byte (l : bytes) (i : nat) : Z := default 0 (l !! i).

Section seam.
Context (header_verdict : bytes -> bytes)
        (encode_header : bool -> Z -> Z -> bytes)
        (encode_close : Z -> bytes).

(** A verdict on the filled buffer, read as the source reads it. *)
Definition read_verdict (have prev : nat) (r : bool) (v : bytes) : HeaderStep :=
  match v with
  | tag :: rest =>
      if (tag =? 0) && bool_decide (rest = []) then
        (if (have =? MAX_HEADER)%nat then Bad CLOSE_PROTOCOL_ERROR else NeedMore)
      else if (tag =? 1) && (length rest =? 2)%nat then
        Bad (from_be_bytes rest)
      else if (tag =? 2) && (length rest =? 15)%nat then
        let used := Z.to_nat (nth_byte rest 2) in
        if (used <=? prev)%nat || (have <? used)%nat then Bad CLOSE_PROTOCOL_ERROR
        else Done (mkHeader (negb (nth_byte rest 0 =? 0)) (nth_byte rest 1) (or_le 0 (slice 7 15 rest))
                            (slice 3 7 rest) r) (used - prev)
      else Bad CLOSE_PROTOCOL_ERROR
  | [] => Bad CLOSE_PROTOCOL_ERROR
  end.

Definition dec_step (d : HeaderDecoder) (input : bytes) : HeaderDecoder * HeaderStep :=
  let prev := length (dbuf d) in
  let tk := Nat.min (MAX_HEADER - prev) (length input) in
  let buf := dbuf d ++ take tk input in
  let r := has_rsv1 d buf in
  match read_verdict (length buf) prev r (header_verdict (peel r buf)) with
  | Done h n => (mkDecoder [] (rsv1_ok d), Done h n)
  | st => (mkDecoder buf (rsv1_ok d), st)
  end.

(** [None]: the header size assertion of the source. *)
Definition encode_frame_into (out : bytes) (f : bool) (op : Z) (payload : bytes) : option bytes :=
  let hdr := encode_header f op (Z.of_nat (length payload)) in
  if (2 <=? length hdr)%nat && (length hdr <=? 10)%nat then Some (out ++ hdr ++ payload) else None.

Definition set_rsv1 (start : nat) (out : bytes) : bytes :=
  <[start := Z.lor (nth_byte out start) 0x40]> out.

Definition encode_frame_ext_into (out : bytes) (f : bool) (op : Z) (r : bool) (payload : bytes) :
    option bytes :=
  let start := length out in
  out' ← encode_frame_into out f op payload;
  Some (if r then set_rsv1 start out' else out').

Definition encode_close_into (out : bytes) (code : Z) : option bytes :=
  let f := encode_close code in
  if (length f =? 4)%nat then Some (out ++ f) else None.

(** What the decoder relies on of the verdict archive, as its documentation
    states it: the empty prefix needs more; a decided verdict is stable under
    extension; a decoded header is within the prefix and decided by its own
    bytes. *)
Record verdict_contract : Prop := {
  vc_empty : header_verdict [] = [0];
  vc_stable : forall p q, header_verdict p <> [0] -> header_verdict (p ++ q) = header_verdict p;
  vc_used : forall p rest, header_verdict p = 2 :: rest -> length rest = 15%nat ->
    (Z.to_nat (nth_byte rest 2) <= length p)%nat /\
    header_verdict (take (Z.to_nat (nth_byte rest 2)) p) = header_verdict p
}.

Lemma dec_step_Done d input d' h n :
  dec_step d input = (d', Done h n) ->
  d' = mkDecoder [] (rsv1_ok d) /\ (0 < n <= length input)%nat /\ rsv1 h = has_rsv1 d (dbuf d ++ input) /\
  (rsv1_ok d = false -> rsv1 h = false).
Proof using.
  unfold dec_step, read_verdict. set (tk := Nat.min _ _). set (buf := dbuf d ++ take tk input).
  intros H. assert (length buf = (length (dbuf d) + tk)%nat) as Hl.
  { unfold buf. rewrite length_app, length_take. lia. }
  destruct (header_verdict (peel (has_rsv1 d buf) buf)) as [|tag rest]; [done|].
  destruct ((tag =? 0) && _); [by destruct (length buf =? MAX_HEADER)%nat|].
  destruct ((tag =? 1) && _); [done|]. destruct ((tag =? 2) && _); [|done].
  destruct ((Z.to_nat (nth_byte rest 2) <=? length (dbuf d))%nat || _) eqn:E; [done|].
  apply orb_false_iff in E as [E1%Nat.leb_gt E2%Nat.ltb_ge].
  injection H as <- <- <-. cbn [rsv1]. split; [done|]. split; [lia|]. split.
  - unfold has_rsv1. f_equal. unfold buf. destruct (dbuf d) as [|b l] eqn:Eb; [|done]. simpl in *.
    destruct input as [|b l]; [by rewrite take_nil|].
    destruct tk eqn:Et; [|done]. exfalso. lia.
  - intros Hr. unfold has_rsv1. by rewrite Hr.
Qed.

(** The verdict a decoded header was read from. *)
Lemma dec_step_header d input d' h n :
  dec_step d input = (d', Done h n) ->
  exists p rest, header_verdict p = 2 :: rest /\ length rest = 15%nat /\
    opcode h = nth_byte rest 1 /\ len h = or_le 0 (slice 7 15 rest).
Proof using.
  unfold dec_step. set (buf := dbuf d ++ _). intros H.
  destruct (read_verdict _ _ _ _) eqn:E; simplify_eq. unfold read_verdict in E.
  destruct (header_verdict (peel (has_rsv1 d buf) buf)) as [|tag rest] eqn:Ev; [done|].
  destruct ((tag =? 0) && _); [by destruct (length buf =? MAX_HEADER)%nat|].
  destruct ((tag =? 1) && _); [done|]. destruct ((tag =? 2) && (length rest =? 15)%nat) eqn:E2; [|done].
  apply andb_true_iff in E2 as [->%Z.eqb_eq Hl%Nat.eqb_eq].
  destruct (_ || _); simplify_eq. by exists (peel (has_rsv1 d buf) buf), rest.
Qed.

Lemma dec_step_buf d input :
  (length (dbuf d) <= MAX_HEADER)%nat -> (length (dbuf (dec_step d input).1) <= MAX_HEADER)%nat /\
  rsv1_ok (dec_step d input).1 = rsv1_ok d.
Proof using.
  intros H. unfold dec_step. destruct (read_verdict _ _ _ _); cbn [fst dbuf rsv1_ok]; split; try done;
    rewrite ?length_app, ?length_take; simpl; unfold MAX_HEADER in *; lia.
Qed.

(** ** Splitting the input of the decoder *)
Section splitting.
Context (VC : verdict_contract).

Definition verdict_at (d : HeaderDecoder) (buf : bytes) : bytes :=
  header_verdict (peel (has_rsv1 d buf) buf).

(** Between steps the decoder holds an undecided, not yet full prefix. *)
Definition dec_ok (d : HeaderDecoder) : Prop :=
  (length (dbuf d) < MAX_HEADER)%nat /\ verdict_at d (dbuf d) = [0].

Lemma fill_eq (buf input : bytes) :
  (length buf <= MAX_HEADER)%nat ->
  buf ++ take (Nat.min (MAX_HEADER - length buf) (length input)) input = take MAX_HEADER (buf ++ input).
Proof using.
  intros H. rewrite take_app, (take_ge buf) by done. f_equal.
  destruct (decide (MAX_HEADER - length buf <= length input)%nat).
  - by rewrite Nat.min_l by done.
  - rewrite Nat.min_r by lia. by rewrite !take_ge by lia.
Qed.

Lemma dec_step_eq d input :
  dec_ok d ->
  dec_step d input =
    let buf := take MAX_HEADER (dbuf d ++ input) in
    match read_verdict (length buf) (length (dbuf d)) (has_rsv1 d buf) (verdict_at d buf) with
    | Done h n => (mkDecoder [] (rsv1_ok d), Done h n)
    | st => (mkDecoder buf (rsv1_ok d), st)
    end.
Proof using. intros [H _]. unfold dec_step. by rewrite fill_eq by lia. Qed.

Lemma peel_length r buf : length (peel r buf) = length buf.
Proof using. by destruct buf, r. Qed.

Lemma verdict_extend d buf x :
  verdict_at d buf <> [0] -> has_rsv1 d (buf ++ x) = has_rsv1 d buf /\ verdict_at d (buf ++ x) = verdict_at d buf.
Proof using VC.
  intros H. assert (buf <> []) as Hne.
  { intros ->. apply H. unfold verdict_at. simpl. apply (vc_empty VC). }
  assert (has_rsv1 d (buf ++ x) = has_rsv1 d buf) as Hr by (by destruct buf).
  split; [done|]. unfold verdict_at in *. rewrite Hr.
  replace (peel (has_rsv1 d buf) (buf ++ x)) with (peel (has_rsv1 d buf) buf ++ x)
    by (destruct buf; [done|]; by destruct (has_rsv1 d _)).
  by apply (vc_stable VC).
Qed.

(** The part of the reading that does not look at the fill. *)
Lemma read_verdict_used d buf rest :
  verdict_at d buf = 2 :: rest -> length rest = 15%nat ->
  (length buf <? Z.to_nat (nth_byte rest 2))%nat = false.
Proof using VC.
  intros Hv Hl. destruct (vc_used VC _ _ Hv Hl) as [Hu _]. rewrite peel_length in Hu.
  by apply Nat.ltb_ge.
Qed.

Lemma read_verdict_have d buf x prev r :
  verdict_at d buf <> [0] ->
  read_verdict (length (buf ++ x)) prev r (verdict_at d (buf ++ x)) =
  read_verdict (length buf) prev r (verdict_at d buf).
Proof using VC.
  intros H. destruct (verdict_extend d buf x H) as [_ Hv]. rewrite Hv. unfold read_verdict.
  destruct (verdict_at d buf) as [|tag rest] eqn:E; [done|].
  destruct ((tag =? 0) && bool_decide (rest = [])) eqn:E0.
  { apply andb_true_iff in E0 as [->%Z.eqb_eq ->%bool_decide_eq_true]. done. }
  destruct ((tag =? 1) && _); [done|]. destruct ((tag =? 2) && (length rest =? 15)%nat) eqn:E2; [|done].
  apply andb_true_iff in E2 as [->%Z.eqb_eq Hl%Nat.eqb_eq].
  rewrite (read_verdict_used d buf rest E Hl).
  by rewrite (read_verdict_used d (buf ++ x) rest Hv Hl).
Qed.

Lemma read_need_more have prev r v :
  read_verdict have prev r v = NeedMore -> v = [0] /\ (have <> MAX_HEADER)%nat.
Proof using.
  unfold read_verdict. destruct v as [|tag rest]; [done|].
  destruct ((tag =? 0) && bool_decide (rest = [])) eqn:E0.
  { apply andb_true_iff in E0 as [->%Z.eqb_eq ->%bool_decide_eq_true].
    destruct (have =? MAX_HEADER)%nat eqn:E; [done|]. by apply Nat.eqb_neq in E. }
  destruct ((tag =? 1) && _); [done|]. destruct ((tag =? 2) && _); [|done]. by destruct (_ || _).
Qed.

Lemma take_more {A} n (l x : list A) : exists y, take n (l ++ x) = take n l ++ y.
Proof using. rewrite take_app. by eexists. Qed.

(** A decided step does not change when more input follows. *)
Lemma dec_step_more d a b d' st :
  dec_ok d -> dec_step d a = (d', st) -> st <> NeedMore ->
  (dec_step d (a ++ b)).2 = st /\ (forall h n, st = Done h n -> (dec_step d (a ++ b)).1 = d').
Proof using VC.
  intros Hd Ha Hst. rewrite dec_step_eq in Ha by done. rewrite dec_step_eq by done. cbv zeta in *.
  rewrite app_assoc. destruct (take_more MAX_HEADER (dbuf d ++ a) b) as [y Hy].
  set (buf := take MAX_HEADER (dbuf d ++ a)) in *.
  assert (length buf = MAX_HEADER \/ verdict_at d buf <> [0]) as Hcase.
  { destruct (decide (verdict_at d buf = [0])) as [E|E]; [left|by right].
    rewrite E in Ha. unfold read_verdict in Ha. simpl in Ha.
    destruct (length buf =? MAX_HEADER)%nat eqn:El; [by apply Nat.eqb_eq|]. by simplify_eq. }
  assert (has_rsv1 d (buf ++ y) = has_rsv1 d buf /\
          read_verdict (length (buf ++ y)) (length (dbuf d)) (has_rsv1 d buf) (verdict_at d (buf ++ y)) =
          read_verdict (length buf) (length (dbuf d)) (has_rsv1 d buf) (verdict_at d buf)) as [Hr Hv].
  { destruct Hcase as [Hfull|Hdec].
    - assert (y = []) as ->; [|by rewrite app_nil_r].
      assert (length (buf ++ y) <= MAX_HEADER)%nat as Hl by (rewrite <- Hy, length_take; lia).
      rewrite length_app in Hl. apply length_zero_iff_nil. lia.
    - split; [by apply verdict_extend|]. by apply read_verdict_have. }
  rewrite Hy, Hr, Hv. destruct (read_verdict _ _ _ _); simplify_eq; split; try done.
Qed.

(** A header decided only past an undecided prefix is longer than it. *)
Lemma used_past_prefix d p b rest :
  verdict_at d p = [0] -> (length p < MAX_HEADER)%nat ->
  verdict_at d (take MAX_HEADER (p ++ b)) = 2 :: rest -> length rest = 15%nat ->
  (length p < Z.to_nat (nth_byte rest 2))%nat.
Proof using VC.
  intros Hv Hl Hb Hr. set (buf := take MAX_HEADER (p ++ b)) in *.
  destruct (vc_used VC _ _ Hb Hr) as [_ Hdet]. fold (verdict_at d buf) in Hdet. rewrite Hb in Hdet.
  set (u := Z.to_nat (nth_byte rest 2)) in *. destruct (decide (length p < u)%nat) as [|Hle]; [done|].
  exfalso. destruct p as [|b0 p'].
  { simpl in Hle. replace u with 0%nat in Hdet by lia. rewrite take_0, (vc_empty VC) in Hdet. done. }
  assert (exists z, peel (has_rsv1 d (b0 :: p')) (b0 :: p') = take u (peel (has_rsv1 d buf) buf) ++ z) as [z Hz].
  { change (has_rsv1 d buf) with (has_rsv1 d (b0 :: p')).
    exists (drop u (peel (has_rsv1 d (b0 :: p')) (b0 :: p'))).
    rewrite <- (take_drop u (peel (has_rsv1 d (b0 :: p')) (b0 :: p'))) at 1. f_equal.
    assert (peel (has_rsv1 d (b0 :: p')) buf = take MAX_HEADER (peel (has_rsv1 d (b0 :: p')) (b0 :: p') ++ b)) as ->
      by (unfold buf, MAX_HEADER; simpl; by destruct (has_rsv1 d _)).
    rewrite take_take, Nat.min_l, take_app_le; [done|rewrite peel_length; lia|lia]. }
  unfold verdict_at in Hv. rewrite Hz, (vc_stable VC), Hdet in Hv by (by rewrite Hdet). done.
Qed.

(** An undecided step followed by another is the step on both inputs. *)
Lemma dec_step_join d a b d1 :
  dec_ok d -> dec_step d a = (d1, NeedMore) ->
  dec_ok d1 /\
  dec_step d (a ++ b) =
    match dec_step d1 b with
    | (d2, Done h n) => (d2, Done h (n + length a))
    | r => r
    end.
Proof using VC.
  intros Hd Ha. rewrite dec_step_eq in Ha by done. cbv zeta in Ha.
  destruct (read_verdict _ _ _ _) eqn:Er; simplify_eq.
  apply read_need_more in Er as [Hv Hl]. rewrite length_take in Hl.
  rewrite take_ge in Hv |- * by lia. set (p := dbuf d ++ a) in *.
  assert (dec_ok (mkDecoder p (rsv1_ok d))) as Hd1.
  { split; [simpl; lia|]. simpl. exact Hv. }
  split; [done|]. rewrite !dec_step_eq by done. cbv zeta. cbn [dbuf rsv1_ok]. rewrite app_assoc. fold p.
  change (has_rsv1 (mkDecoder p (rsv1_ok d))) with (has_rsv1 d).
  change (verdict_at (mkDecoder p (rsv1_ok d))) with (verdict_at d).
  pose proof (used_past_prefix d p b) as Hused. set (buf := take MAX_HEADER (p ++ b)) in *.
  assert (length p = (length (dbuf d) + length a)%nat) as Hlp by (unfold p; by rewrite length_app).
  unfold read_verdict. destruct (verdict_at d buf) as [|tag rest] eqn:Eb; [done|].
  destruct ((tag =? 0) && _); [by destruct (length buf =? MAX_HEADER)%nat|].
  destruct ((tag =? 1) && _); [done|]. destruct ((tag =? 2) && (length rest =? 15)%nat) eqn:E2; [|done].
  apply andb_true_iff in E2 as [->%Z.eqb_eq Hr%Nat.eqb_eq].
  specialize (Hused rest Hv ltac:(lia) eq_refl Hr).
  rewrite (proj2 (Nat.leb_gt _ (length p))), (proj2 (Nat.leb_gt _ (length (dbuf d)))) by lia.
  cbn [orb]. destruct (_ <? _)%nat; [done|]. do 2 f_equal. lia.
Qed.
End splitting.
End seam.

(** ** base64 decodes *)

(** The reference decoder: RFC 4648 with padding. *)
Definition b64_index (c : Z) : option Z := Z.of_nat <$> position (fun x => x =? c) base64_alphabet.

Fixpoint base64_decode (l : bytes) : option bytes :=
  match l with
  | [] => Some []
  | c0 :: c1 :: c2 :: c3 :: rest =>
      i0 ← b64_index c0; i1 ← b64_index c1;
      if c2 =? 61 then Some [(i0 * 64 + i1) / 16]
      else i2 ← b64_index c2;
        if c3 =? 61 then Some (to_be_bytes 2 ((i0 * 4096 + i1 * 64 + i2) / 4))
        else i3 ← b64_index c3; tail ← base64_decode rest;
             Some (to_be_bytes 3 (i0 * 262144 + i1 * 4096 + i2 * 64 + i3) ++ tail)
  | _ => None
  end.

Lemma b64_char_index v : 0 <= v -> b64_index (b64_char v) = Some (v mod 64) /\ b64_char v <> 61.
Proof.
  intros Hv. unfold b64_char. change 63 with (Z.ones 6). rewrite Z.land_ones by lia. change (2 ^ 6) with 64.
  pose proof (Z.mod_pos_bound v 64 ltac:(lia)) as Hb. set (i := v mod 64) in *. clearbody i. clear Hv v.
  assert (forall n, (n < 64)%nat ->
    b64_index (default 0 (base64_alphabet !! n)) = Some (Z.of_nat n) /\ default 0 (base64_alphabet !! n) <> 61) as H.
  { intros n Hn. do 64 (destruct n as [|n]; [split; [reflexivity|vm_compute; discriminate]|]). lia. }
  destruct (H (Z.to_nat i) ltac:(lia)) as [H1 H2]. rewrite Z2Nat.id in H1 by lia. done.
Qed.

Lemma b64_word_sum b0 b1 b2 :
  byte_ok b0 -> byte_ok b1 -> byte_ok b2 -> b64_word b0 b1 b2 = b0 * 65536 + b1 * 256 + b2.
Proof.
  unfold byte_ok, b64_word. intros H0 H1 H2.
  rewrite <- Z.lor_assoc, (lor_shiftl b1 b2 8), (lor_shiftl b0 _ 16) by lia. lia.
Qed.

Lemma b64_digits v :
  0 <= v < 2 ^ 24 ->
  (Z.shiftr v 18 mod 64) * 262144 + (Z.shiftr v 12 mod 64) * 4096 + (Z.shiftr v 6 mod 64) * 64 + v mod 64 = v /\
  0 <= Z.shiftr v 18 /\ 0 <= Z.shiftr v 12 /\ 0 <= Z.shiftr v 6.
Proof.
  intros Hv. rewrite !Z.shiftr_div_pow2 by lia.
  change (2 ^ 18) with (64 * 64 * 64). change (2 ^ 12) with (64 * 64). change (2 ^ 6) with 64.
  rewrite <- !Z.div_div by lia.
  pose proof (Z.div_mod v 64). pose proof (Z.div_mod (v / 64) 64). pose proof (Z.div_mod (v / 64 / 64) 64).
  pose proof (Z.mod_pos_bound v 64). pose proof (Z.mod_pos_bound (v / 64) 64).
  pose proof (Z.mod_pos_bound (v / 64 / 64) 64).
  assert (0 <= v / 64 / 64 / 64 < 64).
  { rewrite !Z.div_div by lia. split; [apply Z.div_pos; lia|]. apply Z.div_lt_upper_bound; lia. }
  rewrite (Z.mod_small (v / 64 / 64 / 64)) by lia. lia.
Qed.

Lemma be3 b0 b1 b2 :
  byte_ok b0 -> byte_ok b1 -> byte_ok b2 -> to_be_bytes 3 (b0 * 65536 + b1 * 256 + b2) = [b0; b1; b2].
Proof.
  unfold byte_ok. intros. unfold to_be_bytes. cbn [to_le_bytes].
  replace (b0 * 65536 + b1 * 256 + b2) with (b2 + (b1 + b0 * 256) * 256) by lia.
  rewrite Z.mod_add, Z.div_add, (Z.mod_small b2), (Z.div_small b2), Z.add_0_l by lia.
  by rewrite Z.mod_add, Z.div_add, (Z.mod_small b1), (Z.div_small b1), Z.add_0_l, (Z.mod_small b0) by lia.
Qed.

Lemma base64_decode_group b0 b1 b2 rest tail :
  byte_ok b0 -> byte_ok b1 -> byte_ok b2 -> base64_decode rest = Some tail ->
  let v := b64_word b0 b1 b2 in
  base64_decode (b64_char (Z.shiftr v 18) :: b64_char (Z.shiftr v 12) :: b64_char (Z.shiftr v 6) ::
                 b64_char v :: rest) = Some (b0 :: b1 :: b2 :: tail).
Proof.
  intros H0 H1 H2 Hr. cbv zeta. rewrite b64_word_sum by done.
  assert (0 <= b0 * 65536 + b1 * 256 + b2 < 2 ^ 24) as Hv by (unfold byte_ok in *; lia).
  destruct (b64_digits _ Hv) as (Hs & P18 & P12 & P6). set (v := b0 * 65536 + b1 * 256 + b2) in *.
  cbn [base64_decode].
  destruct (b64_char_index _ P18) as [-> _], (b64_char_index _ P12) as [-> _].
  destruct (b64_char_index _ P6) as [E6 N6], (b64_char_index v) as [E0 N0]; [lia|].
  cbn [mbind option_bind]. rewrite (proj2 (Z.eqb_neq _ 61) N6), E6. cbn [mbind option_bind].
  rewrite (proj2 (Z.eqb_neq _ 61) N0), E0. cbn [mbind option_bind]. rewrite Hr. cbn [mbind option_bind].
  rewrite Hs. subst v. by rewrite be3.
Qed.

Lemma base64_roundtrip_tail1 b0 :
  byte_ok b0 -> base64_decode (base64 [b0]) = Some [b0].
Proof.
  intros H0. cbn [base64]. rewrite b64_word_sum by (done || (unfold byte_ok; lia)).
  assert (0 <= b0 * 65536 + 0 * 256 + 0 < 2 ^ 24) as Hv by (unfold byte_ok in *; lia).
  destruct (b64_digits _ Hv) as (Hs & P18 & P12 & P6). cbn [base64_decode].
  destruct (b64_char_index _ P18) as [-> _], (b64_char_index _ P12) as [-> _].
  cbn [mbind option_bind]. rewrite Z.eqb_refl. do 2 f_equal.
  set (v := b0 * 65536 + 0 * 256 + 0) in *.
  pose proof (Z.mod_pos_bound (Z.shiftr v 6) 64). pose proof (Z.mod_pos_bound v 64).
  symmetry. apply Z.div_unique with ((Z.shiftr v 18 mod 64 * 64 + Z.shiftr v 12 mod 64) - 16 * b0); lia.
Qed.

Lemma base64_roundtrip_tail2 b0 b1 :
  byte_ok b0 -> byte_ok b1 -> base64_decode (base64 [b0; b1]) = Some [b0; b1].
Proof.
  intros H0 H1. cbn [base64]. rewrite b64_word_sum by (done || (unfold byte_ok; lia)).
  assert (0 <= b0 * 65536 + b1 * 256 + 0 < 2 ^ 24) as Hv by (unfold byte_ok in *; lia).
  destruct (b64_digits _ Hv) as (Hs & P18 & P12 & P6). set (v := b0 * 65536 + b1 * 256 + 0) in *.
  cbn [base64_decode].
  destruct (b64_char_index _ P18) as [-> _], (b64_char_index _ P12) as [-> _].
  destruct (b64_char_index _ P6) as [E6 N6].
  cbn [mbind option_bind]. rewrite (proj2 (Z.eqb_neq _ 61) N6), E6. cbn [mbind option_bind].
  rewrite Z.eqb_refl.
  pose proof (Z.mod_pos_bound v 64). pose proof (Z.mod_pos_bound (Z.shiftr v 6) 64).
  replace ((Z.shiftr v 18 mod 64 * 4096 + Z.shiftr v 12 mod 64 * 64 + Z.shiftr v 6 mod 64) / 4)
    with (b0 * 256 + b1).
  - f_equal. unfold byte_ok, to_be_bytes in *. cbn [to_le_bytes].
    replace (b0 * 256 + b1) with (b1 + b0 * 256) by lia.
    by rewrite Z.mod_add, Z.div_add, (Z.mod_small b1), (Z.div_small b1), Z.add_0_l, (Z.mod_small b0) by lia.
  - apply Z.div_unique with ((Z.shiftr v 18 mod 64 * 4096 + Z.shiftr v 12 mod 64 * 64 +
                              Z.shiftr v 6 mod 64) - 4 * (b0 * 256 + b1)); lia.
Qed.

Lemma base64_roundtrip n : forall l, (length l <= n)%nat -> bytes_ok l ->
  base64_decode (base64 l) = Some l.
Proof.
  induction n as [|n IH]; intros l Hl Hok; destruct l as [|b0 [|b1 [|b2 rest]]]; try done; try (simpl in Hl; lia);
    unfold bytes_ok in Hok; rewrite ?Forall_cons in Hok; destruct_and? Hok.
  - by apply base64_roundtrip_tail1.
  - by apply base64_roundtrip_tail2.
  - apply base64_decode_group; [done..|]. apply IH; [simpl in Hl; lia|done].
Qed.

Lemma sha1_bytes_ok msg : bytes_ok (sha1 msg) /\ length (sha1 msg) = 20%nat.
Proof.
  unfold sha1. destruct (sha1_blocks _ _ _) as [[[[h0 h1] h2] h3] h4].
  cbn [fmap list_fmap concat]. split; [|by rewrite !length_app, !length_to_be_bytes].
  repeat (apply Forall_app; split); try apply to_be_bytes_ok. constructor.
Qed.

(** ** Negotiation *)

Lemma offer_param_window params : forall st,
  deflate st.1.1 = true /\ 9 <= server_max_window_bits st.1.1 <= 15 ->
  deflate (fold_left offer_param params st).1.1 = true /\
  9 <= server_max_window_bits (fold_left offer_param params st).1.1 <= 15.
Proof.
  induction params as [|p params IH]; intros st H; [done|]. cbn [fold_left]. apply IH.
  destruct st as [[cfg resp] ok]. cbn [fst] in *. unfold offer_param.
  destruct (bool_decide (p = [])); [done|].
  destruct (match split_once 61 p with Some (k, v) => _ | None => _ end) as [key val].
  repeat (case_match; cbn [fst]); try done.
  match goal with H : _ && _ = true |- _ => apply andb_true_iff in H as [? ?] end. zify_bool.
  cbn [deflate server_max_window_bits]. split; [apply H|lia].
Qed.

Lemma first_offer_window offers v cfg :
  first_offer offers = Some (v, cfg) -> deflate cfg = true /\ 9 <= server_max_window_bits cfg <= 15.
Proof.
  induction offers as [|o offers IH]; cbn [first_offer]; [done|].
  destruct (str_trim <$> split_on _ o) as [|name params]; [done|].
  destruct (negb _); [done|].
  pose proof (offer_param_window params (mkWsConfig true false false 15, bs "permessage-deflate", true)) as Hw.
  destruct (fold_left offer_param params _) as [[c r] ok]. cbn [fst] in Hw.
  destruct ok; [|done]. intros [= <- <-]. apply Hw. cbn. lia.
Qed.

(** ** The response, read back *)

(** A value that is written as it is read: no line break in it, no blank at its
    ends. *)
Definition value_ok (v : bytes) : Prop :=
  Forall (fun b => b <> CR) v /\ exists x y l, v = x :: l /\ last v = Some y /\ not_blank x = true /\ not_blank y = true.

Lemma rposition_last {A} (p : A -> bool) l y : last l = Some y -> p y = true -> rposition p l = Some (length l - 1)%nat.
Proof.
  intros Hl Hy. induction l as [|x l IH]; [done|]. destruct l as [|z l].
  - injection Hl as ->. cbn. by rewrite Hy.
  - change (rposition p (x :: z :: l)) with (match rposition p (z :: l) with Some i => Some (S i) | None => if p x then Some 0%nat else None end).
    rewrite IH by done. cbn [length]. f_equal. lia.
Qed.

Lemma trimmed_value v : value_ok v -> trimmed (32 :: v) = v.
Proof.
  intros [_ (x & y & l & -> & Hl & Hx & Hy)]. unfold trimmed. cbn [position]. change (not_blank 32) with false. cbv iota. rewrite Hx.
  rewrite (rposition_last not_blank (32 :: x :: l) y) by done. cbn [fmap option_fmap option_map default id length]. unfold slice. cbn [drop]. apply take_ge. cbn. lia.
Qed.

(** A response of lines, of which each field is its own. *)
Lemma header_value_block ls y name :
  Forall Lines.line_ok ls -> header_value (block ls ++ y) name = match first_some (fun l => line_value l name) ls with Some v => Some v | None => header_value y name end.
Proof.
  induction 1 as [|l ls [Hl _] _ IH]; [done|]. rewrite block_cons, header_value_line by done. cbn [first_some]. by destruct (line_value l name).
Qed.

Lemma offer_reply_ok params : forall st, value_ok st.1.2 -> value_ok (fold_left offer_param params st).1.2.
Proof.
  assert (forall v w, value_ok v -> Forall (fun b => b <> CR) w -> (exists y, last w = Some y /\ not_blank y = true) -> value_ok (v ++ w)) as Happ.
  { intros v w [Hv (x & y & l & -> & _ & Hx & _)] Hw (z & Hz & Hb). split; [by apply Forall_app_2|]. exists x, z, (l ++ w). split; [done|]. split; [|done].
    by rewrite last_app, Hz. }
  assert (forall n, Forall (fun b => b <> CR) (to_dec n) /\ exists y, last (to_dec n) = Some y /\ not_blank y = true) as Hdec.
  { intros n. destruct (to_dec_digits n) as [Hd Hn]. split; [eapply Forall_impl; [exact Hd|]; cbn; unfold CR; lia|].
    destruct (last (to_dec n)) as [y|] eqn:E; [|by apply last_None in E]. exists y. split; [done|]. apply last_Some_elem_of in E. rewrite Forall_forall in Hd. specialize (Hd _ E).
    unfold not_blank. cbn in Hd. destruct (y =? 32) eqn:?, (y =? 9) eqn:?; lia. }
  induction params as [|p params IH]; intros [[cfg resp] ok] Hv; [done|]. cbn [fold_left]. apply IH. unfold offer_param. cbn [fst snd] in Hv.
  case_bool_decide; [done|]. destruct (match split_once 61 p with Some (k, v) => _ | None => _ end) as [k v].
  repeat case_match; cbn [fst snd]; try done.
  1,2: (apply Happ; [done|apply (bool_decide_unpack _); vm_compute; exact I|eexists; split; vm_compute; reflexivity]).
  destruct (Hdec z) as [Hd1 (y & Hd2 & Hd3)]. apply Happ; [done|apply Forall_app_2; [apply (bool_decide_unpack _); vm_compute; exact I|done]|].
  exists y. by rewrite last_app, Hd2.
Qed.

Lemma negotiated_value h v cfg : negotiate_deflate h = Some (v, cfg) -> value_ok v.
Proof.
  unfold negotiate_deflate. intros (hi & _ & H)%bind_Some. destruct (utf8_valid _); [|done]. revert H. generalize (split_on (fun b => b =? 44) (until_eol (drop (hi + length ext_header_name) h))) as offers.
  induction offers as [|o offers IH]; cbn [first_offer]; [done|]. destruct (str_trim <$> split_on _ o) as [|name params]; [done|]. destruct (negb _); [done|].
  pose proof (offer_reply_ok params (mkWsConfig true false false 15, bs "permessage-deflate", true)) as Hv.
  destruct (fold_left offer_param params _) as [[c r] ok]. cbn [fst snd] in Hv. destruct ok; [|done]. intros [= <- <-]. apply Hv.
  split; [apply (bool_decide_unpack _); vm_compute; exact I|]. eexists _, _, _. split; [reflexivity|]. split_and!; vm_compute; reflexivity.
Qed.

Lemma base64_value l : l <> [] -> value_ok (base64 l).
Proof.
  assert (forall v, b64_char v <> CR /\ not_blank (b64_char v) = true) as Hc.
  { intros v. unfold b64_char. assert (forallb (fun b => negb (b =? CR) && not_blank b) base64_alphabet = true) as H by reflexivity. rewrite forallb_forall in H.
    destruct (base64_alphabet !! _) as [b|] eqn:E; [|vm_compute; split; [discriminate|reflexivity]]. cbn. apply list_elem_of_lookup_2 in E. rewrite list_elem_of_In in E. specialize (H _ E).
    apply andb_true_iff in H as [H1 H2]. split; [intros Hb; rewrite Hb in H1; done|done]. }
  intros Hl. assert (Forall (fun b => b <> CR /\ not_blank b = true) (base64 l) /\ base64 l <> []) as [H Hn].
  { split; [|by destruct l as [|? [|? [|? ?]]]]. clear Hl. assert (61 <> CR /\ not_blank 61 = true) as H61 by done.
    remember (length l) as n eqn:En. revert l En. induction (lt_wf n) as [n _ IH]. intros l ->.
    destruct l as [|b0 [|b1 [|b2 rest]]]; cbn [base64]; repeat (apply Forall_cons; split; [first [apply Hc|exact H61]|]); try apply Forall_nil_2.
    apply (IH (length rest)); [cbn; lia|done]. }
  split; [eapply Forall_impl; [exact H|]; by intros b [? _]|]. destruct (base64 l) as [|x t] eqn:E; [done|]. destruct (last (x :: t)) as [y|] eqn:El; [|by apply last_None in El].
  rewrite Forall_forall in H. exists x, y, t. split_and!; [done..|apply H; left|apply H; by apply last_Some_elem_of].
Qed.

(** The first key field of a request. *)
Inductive key_field (h key : bytes) : Prop :=
  | KeyField pre name blanks rest :
      h = pre ++ name ++ blanks ++ key ++ rest -> ci_find h key_header = Some (length pre) -> length name = length key_header ->
      Forall (fun b => b = 32 \/ b = 9) blanks -> Forall (fun b => b <> CR /\ b <> LF) key -> match head key with Some b => b <> 32 /\ b <> 9 | None => False end ->
      match head rest with Some b => b = CR \/ b = LF | None => True end -> key_field h key.

Lemma until_eol_app key rest : Forall (fun b => b <> CR /\ b <> LF) key -> match head rest with Some b => b = CR \/ b = LF | None => True end -> until_eol (key ++ rest) = key.
Proof.
  intros Hk Hr. induction Hk as [|b key [H1 H2] _ IH]; cbn [app until_eol].
  - destruct rest as [|b rest]; [done|]. cbn in *. by destruct Hr as [-> | ->].
  - rewrite (proj2 (Z.eqb_neq b CR)), (proj2 (Z.eqb_neq b LF)) by done. cbn [orb]. by rewrite IH.
Qed.

Lemma skip_blanks_app blanks l : Forall (fun b => b = 32 \/ b = 9) blanks -> match head l with Some b => b <> 32 /\ b <> 9 | None => False end -> skip_blanks (blanks ++ l) = l.
Proof.
  intros Hb Hl. induction Hb as [|b blanks H _ IH]; cbn [app skip_blanks].
  - destruct l as [|b l]; [done|]. cbn in *. destruct Hl. by rewrite (proj2 (Z.eqb_neq b 32)), (proj2 (Z.eqb_neq b 9)).
  - by destruct H as [-> | ->].
Qed.

Definition response_lines (key : bytes) (ext : option bytes) : list bytes :=
  [bs "HTTP/1.1 101 Switching Protocols"; bs "Upgrade: websocket"; bs "Connection: Upgrade"; bs "Sec-WebSocket-Accept: " ++ accept_token key] ++
  match ext with Some v => [bs "Sec-WebSocket-Extensions: " ++ v] | None => [] end.

Lemma upgrade_response_eq h key : key_field h key ->
  upgrade_response h = Some (block (response_lines key (fst <$> negotiate_deflate h)) ++ CRLF, match negotiate_deflate h with Some (_, cfg) => cfg | None => WsConfig_default end).
Proof.
  intros [pre name blanks rest Hh Hf Hn Hb Hk Hk0 Hr]. unfold upgrade_response. rewrite Hf. cbn [mbind option_bind].
  assert (drop (length pre + length key_header) h = blanks ++ key ++ rest) as ->.
  { rewrite Hh, <- Hn, <- length_app, app_assoc. apply drop_app_length. }
  rewrite skip_blanks_app by (done || by destruct key). rewrite until_eol_app by done.
  unfold response_lines. destruct (negotiate_deflate h) as [[v cfg]|]; cbn [fmap option_fmap option_map fst app]; rewrite !block_cons; change (block []) with (@nil Z); rewrite <- ?app_assoc; reflexivity.
Qed.

Lemma upgrade_lines_ok h key : Forall Lines.line_ok (response_lines key (fst <$> negotiate_deflate h)).
Proof.
  assert (forall (n : string) v, Forall (fun b => b <> CR) (bs n) -> bs n <> [] -> value_ok v -> Lines.line_ok (bs n ++ v)) as H.
  { intros n v Hn Hne [Hv _]. split; [by apply no_cr_first_line, Forall_app_2|]. by destruct (bs n). }
  unfold response_lines. apply Forall_app_2; [|destruct (negotiate_deflate h) as [[v cfg]|] eqn:E; cbn [fmap option_fmap option_map fst]; [|apply Forall_nil_2]; apply Forall_singleton, H; [apply (bool_decide_unpack _); vm_compute; exact I|done|by eapply negotiated_value]].
  rewrite !Forall_cons. split_and!; [by split|by split|by split| |apply Forall_nil_2].
  apply H; [apply (bool_decide_unpack _); vm_compute; exact I|done|]. apply base64_value. pose proof (proj2 (sha1_bytes_ok (key ++ GUID))) as Hl. by destruct (sha1 _).
Qed.


Definition upgrade_request : bytes :=
  bs "GET /chat HTTP/1.1" ++ CRLF ++ bs "Upgrade: websocket" ++ CRLF ++
  bs "Sec-WebSocket-Key: dGhlIHNhbXBsZSBub25jZQ==" ++ CRLF ++
  bs "Sec-WebSocket-Extensions: permessage-deflate; server_max_window_bits=8, permessage-deflate; server_max_window_bits=10" ++
  CRLF ++ CRLF.

