(* ===== verification/WsEngine.v ===== *)
(** * The WebSocket message engine ([migration/dataplane/host/src/ws_assembly.rs])

    [feed] and everything it calls: header events, payload unmasking and
    buffering, control replies, delivery, close. The verdicts it crosses
    ([ws_admit], [ws_utf8], [ws_close_body], and the header and encode calls
    of [Ws.v]) and the DEFLATE contexts are parameters. A fuel of two loop
    turns per input byte drives [feed]; it is proved enough for every input,
    whatever the verdicts are. A panic of the source (an index out of the
    control buffer, an [expect], an encoder assertion) is [Panic]. *)
From S2P Require Import Prelude Bytes Ws.

Local Open Scope Z_scope.

Definition MAX_MESSAGE : Z := 16 * 2 ^ 20.
Definition CTL_MAX : nat := 125.

Inductive Flow := Continue | Shut.

Inductive State := SHeader | SPayload (hdr : FrameHeader) (got : Z).

Definition unmask (m : list Z) (base : Z) (chunk : bytes) : bytes :=
  imap (fun i b => Z.lxor b (nth_byte m (Z.to_nat (Z.land (base + Z.of_nat i) 3)))) chunk.

Section engine.
Context {I D : Type}
        (header_verdict : bytes -> bytes)
        (encode_header : bool -> Z -> Z -> bytes)
        (encode_close : Z -> bytes)
        (ws_admit : Z -> Z -> Z -> bool -> Z -> Z)
        (ws_utf8 : Z -> bytes -> Z)
        (ws_close_body : bytes -> Z)
        (inflate : I -> bytes -> I * option bytes)
        (deflate_msg : D -> bytes -> D * bytes).

(** [ctl] is the filled part of the 125-byte control buffer. *)
Record Engine := mkEngine {
  dec : HeaderDecoder;
  state : State;
  inflater : option I;
  deflater : option D;
  msg_compressed : bool;
  msg : bytes;
  msg_op : Z;
  frame_after : Z;
  frame_deliver : bool;
  utf8 : Z;
  ctl : bytes
}.

Definition with_config (cfg : WsConfig) (i : I) (d : D) : Engine :=
  let on := deflate cfg in
  mkEngine (with_deflate on) SHeader (if on then Some i else None) (if on then Some d else None)
           false [] 0 0 false 0 [].

Definition set_dec (e : Engine) (d : HeaderDecoder) : Engine :=
  mkEngine d (state e) (inflater e) (deflater e) (msg_compressed e) (msg e) (msg_op e)
           (frame_after e) (frame_deliver e) (utf8 e) (ctl e).
Definition set_state (e : Engine) (s : State) : Engine :=
  mkEngine (dec e) s (inflater e) (deflater e) (msg_compressed e) (msg e) (msg_op e)
           (frame_after e) (frame_deliver e) (utf8 e) (ctl e).
Definition set_ctl (e : Engine) (c : bytes) : Engine :=
  mkEngine (dec e) (state e) (inflater e) (deflater e) (msg_compressed e) (msg e) (msg_op e)
           (frame_after e) (frame_deliver e) (utf8 e) c.
Definition set_msg (e : Engine) (m : bytes) (u : Z) : Engine :=
  mkEngine (dec e) (state e) (inflater e) (deflater e) (msg_compressed e) m (msg_op e)
           (frame_after e) (frame_deliver e) u (ctl e).

Definition is_control (op : Z) : bool := OP_CLOSE <=? op.
Definition opens_message (e : Engine) (h : FrameHeader) : bool :=
  ((opcode h =? OP_TEXT) || (opcode h =? OP_BINARY)) && (msg_op e =? 0).

Definition on_header (e : Engine) (h : FrameHeader) : result Engine Z :=
  if rsv1 h && negb (opens_message e h) then Err CLOSE_PROTOCOL_ERROR
  else
    let v := ws_admit (msg_op e) (Z.of_nat (length (msg e))) (opcode h) (fin h) (len h) in
    if Z.shiftr v 32 =? 2 then
      Ok (mkEngine (dec e) (state e) (inflater e) (deflater e)
            (if opens_message e h then rsv1 h else msg_compressed e) (msg e)
            (Z.land (Z.shiftr v 8) 0xF) (Z.land (Z.shiftr v 4) 0xF) (negb (Z.land v 1 =? 0))
            (utf8 e) (ctl e))
    else Err (Z.land v 0xFFFF).

(** What a call did: panicked, or left an engine, output and flow. *)
Definition Outcome : Type := option (Engine * bytes * Flow).

Definition fail (e : Engine) (out : bytes) (code : Z) : Outcome :=
  out' ← encode_close_into encode_close out code; Some (e, out', Shut).

Definition on_close_frame (e : Engine) (out : bytes) : Outcome :=
  let v := ws_close_body (ctl e) in
  let e1 := set_ctl e [] in
  if Z.shiftr v 16 =? 0 then
    out' ← encode_frame_into encode_header out true OP_CLOSE []; Some (e1, out', Shut)
  else if Z.shiftr v 16 =? 1 then
    out' ← encode_close_into encode_close out (Z.land v 0xFFFF); Some (e1, out', Shut)
  else fail e1 out (Z.land v 0xFFFF).

(** The delivered plaintext: [None] a panic, [Some (e, None)] a refusal. *)
Definition resolve (e : Engine) : option (Engine * option bytes) :=
  if msg_compressed e then
    i ← inflater e;
    let '(i', r) := inflate i (msg e) in
    let e1 := mkEngine (dec e) (state e) (Some i') (deflater e) (msg_compressed e) (msg e) (msg_op e)
                (frame_after e) (frame_deliver e) (utf8 e) (ctl e) in
    match r with
    | None => Some (e1, None)
    | Some plain =>
        if (msg_op e =? OP_TEXT) && negb (ws_utf8 0 plain =? 0) then Some (e1, None)
        else Some (e1, Some plain)
    end
  else if (msg_op e =? OP_TEXT) && negb (utf8 e =? 0) then Some (e, None)
  else Some (e, Some (msg e)).

Definition idle_after (e : Engine) (d : option D) : Engine :=
  mkEngine (dec e) (state e) (inflater e) d false [] (frame_after e) (frame_after e)
           (frame_deliver e) 0 (ctl e).

Definition on_frame (e : Engine) (h : FrameHeader) (out : bytes) : Outcome :=
  if opcode h =? OP_CLOSE then on_close_frame e out
  else if opcode h =? OP_PING then
    out' ← encode_frame_into encode_header out true OP_PONG (ctl e); Some (set_ctl e [], out', Continue)
  else if opcode h =? OP_PONG then Some (set_ctl e [], out, Continue)
  else if negb (frame_deliver e) then Some (e, out, Continue)
  else
    '(e1, plain) ← resolve e;
    match plain with
    | None => fail e1 out CLOSE_INVALID_PAYLOAD
    | Some p =>
        match deflater e1 with
        | Some d =>
            let '(d', z) := deflate_msg d p in
            out' ← encode_frame_ext_into encode_header out true (msg_op e1) true z;
            Some (idle_after e1 (Some d'), out', Continue)
        | None =>
            out' ← encode_frame_into encode_header out true (msg_op e1) p;
            Some (idle_after e1 None, out', Continue)
        end
    end.

(** Buffer one run of payload: [None] the control buffer overrun,
    [Some None] a definite UTF-8 violation. *)
Definition absorb_run (e : Engine) (h : FrameHeader) (base : Z) (chunk : bytes) : option (option Engine) :=
  let plain := unmask (fmask h) base chunk in
  if is_control (opcode h) then
    if (length (ctl e) + length chunk <=? CTL_MAX)%nat
    then Some (Some (set_ctl e (ctl e ++ plain))) else None
  else if (msg_op e =? OP_TEXT) && negb (msg_compressed e) then
    let u := ws_utf8 (utf8 e) plain in
    if 7 <? u then Some None else Some (Some (set_msg e (msg e ++ plain) u))
  else Some (Some (set_msg e (msg e ++ plain) (utf8 e))).

(** The engine a UTF-8 violation leaves: the run is already buffered. *)
Definition violated (e : Engine) (h : FrameHeader) (base : Z) (chunk : bytes) : Engine :=
  let plain := unmask (fmask h) base chunk in set_msg e (msg e ++ plain) (ws_utf8 (utf8 e) plain).

(** [if take > 0]. *)
Definition absorb (e : Engine) (h : FrameHeader) (base : Z) (chunk : bytes) : option (option Engine) :=
  if (0 <? length chunk)%nat then absorb_run e h base chunk else Some (Some e).

(** One turn of the loop: return, or go round with the rest of the input. *)
Inductive Turn := Return (r : Outcome) | Again (e : Engine) (input out : bytes).

Definition feed_turn (e : Engine) (input out : bytes) : Turn :=
  match state e with
  | SHeader =>
      let '(d, st) := dec_step header_verdict (dec e) input in
      let e1 := set_dec e d in
      match st with
      | NeedMore => Return (Some (e1, out, Continue))
      | Bad code => Return (fail e1 out code)
      | Done h used =>
          match on_header e1 h with
          | Err code => Return (fail e1 out code)
          | Ok e2 => Again (set_state e2 (SPayload h 0)) (drop used input) out
          end
      end
  | SPayload h got =>
      let tk := Z.to_nat (Z.min (len h - got) (Z.of_nat (length input))) in
      match absorb e h got (take tk input) with
      | None => Return None
      | Some None => Return (fail (violated e h got (take tk input)) out CLOSE_INVALID_PAYLOAD)
      | Some (Some e1) =>
          let got' := got + Z.of_nat tk in
          if got' <? len h then Return (Some (set_state e1 (SPayload h got'), out, Continue))
          else match on_frame (set_state e1 SHeader) h out with
               | Some (e2, out', Continue) => Again e2 (drop tk input) out'
               | r => Return r
               end
      end
  end.

Fixpoint feed_loop (fuel : nat) (e : Engine) (input out : bytes) : option Outcome :=
  match fuel with
  | O => None
  | S f =>
      match feed_turn e input out with
      | Return r => Some r
      | Again e' input' out' => feed_loop f e' input' out'
      end
  end.

Definition feed_fuel (input : bytes) : nat := 2 * length input + 2.

Definition feed (e : Engine) (input out : bytes) : option Outcome :=
  feed_loop (feed_fuel input) e input out.

(** ** Termination *)

Definition turns_left (e : Engine) (input : bytes) : nat :=
  2 * length input + match state e with SHeader => 0 | SPayload _ _ => 1 end.

Lemma fail_shut e out code e' out' f : fail e out code = Some (e', out', f) -> e' = e /\ f = Shut.
Proof using. unfold fail. destruct (encode_close_into _ _ _); [|done]. by intros [= <- _ <-]. Qed.

Lemma on_close_shut e out e' out' f : on_close_frame e out = Some (e', out', f) -> f = Shut.
Proof using.
  unfold on_close_frame. destruct (_ =? 0); [|destruct (_ =? 1)].
  - destruct (encode_frame_into _ _ _ _ _); [|done]. by intros [= _ _ <-].
  - destruct (encode_close_into _ _ _); [|done]. by intros [= _ _ <-].
  - by intros [_ ?]%fail_shut.
Qed.

(** What delivery resolves to keeps everything but the inflate context. *)
Definition with_inflater (e : Engine) (i : option I) : Engine :=
  mkEngine (dec e) (state e) i (deflater e) (msg_compressed e) (msg e) (msg_op e)
           (frame_after e) (frame_deliver e) (utf8 e) (ctl e).

Lemma resolve_keeps e e1 p :
  resolve e = Some (e1, p) -> exists i, e1 = with_inflater e i /\ (is_Some (inflater e) <-> is_Some i).
Proof using.
  unfold resolve. destruct (msg_compressed e) eqn:Ec.
  - destruct (inflater e) as [i|]; [|done]. cbn [mbind option_bind]. destruct (inflate i (msg e)) as [i' r].
    intros H. exists (Some i'). split; [|split; by eexists]. unfold with_inflater. rewrite Ec.
    destruct r; [destruct (_ && _)|]; by injection H as <- _.
  - intros H. exists (inflater e). split; [|done]. clear Ec.
    destruct (_ && _); injection H as <- _; by destruct e.
Qed.

(** The three ways a complete frame goes on. *)
Lemma on_frame_continue e h out e' out' :
  on_frame e h out = Some (e', out', Continue) ->
  ((opcode h = OP_PING \/ opcode h = OP_PONG) /\ e' = set_ctl e []) \/
  (opcode h <> OP_CLOSE /\ opcode h <> OP_PING /\ opcode h <> OP_PONG /\
   (e' = e \/ exists i d, e' = idle_after (with_inflater e i) d /\ (is_Some (inflater e) <-> is_Some i))).
Proof using.
  unfold on_frame. destruct (opcode h =? OP_CLOSE) eqn:E1; [intros H; by apply on_close_shut in H|].
  destruct (opcode h =? OP_PING) eqn:E2.
  { destruct (encode_frame_into _ _ _ _ _); [|done]. intros [= <- _]. zify_bool. left. auto. }
  destruct (opcode h =? OP_PONG) eqn:E3; [intros [= <- _]; zify_bool; left; auto|].
  intros H. right. zify_bool. repeat (split; [done|]).
  destruct (negb (frame_deliver e)); [injection H as <- _; by left|].
  destruct (resolve e) as [[e1 p]|] eqn:Er; [|done]. cbn [mbind option_bind] in H.
  destruct (resolve_keeps _ _ _ Er) as (i & -> & Hi). right. exists i.
  destruct p as [p|]; [|by apply fail_shut in H as [_ ?]].
  destruct (deflater (with_inflater e i)) as [d|].
  - destruct (deflate_msg d p) as [d' z]. destruct (encode_frame_ext_into _ _ _ _ _ _); [|done].
    injection H as <- _. by exists (Some d').
  - destruct (encode_frame_into _ _ _ _ _); [|done]. injection H as <- _. by exists None.
Qed.

Lemma on_frame_state e h out e' out' : on_frame e h out = Some (e', out', Continue) -> state e' = state e.
Proof using.
  intros [[_ ->]|(_ & _ & _ & [->|(i & d & -> & _)])]%on_frame_continue; done.
Qed.

Lemma feed_turn_decreases e input out e' input' out' :
  feed_turn e input out = Again e' input' out' -> (turns_left e' input' < turns_left e input)%nat.
Proof using.
  unfold feed_turn, turns_left. destruct (state e) as [|h got] eqn:Es.
  - destruct (dec_step header_verdict (dec e) input) as [d st] eqn:Ed. destruct st as [|h n|]; try done.
    destruct (dec_step_Done _ _ _ _ _ _ Ed) as (_ & Hn & _).
    destruct (on_header _ _); [|done]. intros [= <- <- <-]. simpl. rewrite length_drop. lia.
  - destruct (absorb _ _ _ _) as [[e1|]|]; try done. destruct (_ <? _); [done|].
    destruct (on_frame _ _ _) as [[[e2 o] []]|] eqn:Ef; try done. intros [= <- <- <-].
    apply on_frame_state in Ef. simpl in Ef. rewrite Ef, length_drop. lia.
Qed.

Lemma feed_loop_enough fuel : forall e input out,
  (turns_left e input < fuel)%nat -> is_Some (feed_loop fuel e input out).
Proof using.
  induction fuel as [|f IH]; intros e input out Hf; [lia|]. simpl.
  destruct (feed_turn e input out) as [r|e' input' out'] eqn:E; [by eexists|].
  apply IH. pose proof (feed_turn_decreases _ _ _ _ _ _ E). lia.
Qed.

Lemma feed_loop_fuel f1 : forall f2 e input out,
  (turns_left e input < f1)%nat -> (turns_left e input < f2)%nat ->
  feed_loop f1 e input out = feed_loop f2 e input out.
Proof using.
  induction f1 as [|f1 IH]; intros [|f2] e input out H1 H2; try lia. simpl.
  destruct (feed_turn e input out) as [r|e' input' out'] eqn:E; [done|].
  pose proof (feed_turn_decreases _ _ _ _ _ _ E). apply IH; lia.
Qed.

Lemma turns_left_fuel e input : (turns_left e input < feed_fuel input)%nat.
Proof using. unfold turns_left, feed_fuel. destruct (state e); lia. Qed.

(** The loop without its fuel. *)
Lemma feed_unfold e input out :
  feed e input out =
    match feed_turn e input out with
    | Return r => Some r
    | Again e' input' out' => feed e' input' out'
    end.
Proof using.
  unfold feed at 1. pose proof (turns_left_fuel e input) as Hf.
  destruct (feed_fuel input) as [|f] eqn:Ef; [lia|]. simpl.
  destruct (feed_turn e input out) as [r|e' input' out'] eqn:E; [done|].
  pose proof (feed_turn_decreases _ _ _ _ _ _ E). unfold feed.
  apply feed_loop_fuel; [lia|apply turns_left_fuel].
Qed.

Lemma feed_total e input out : exists r, feed e input out = Some r.
Proof using. apply feed_loop_enough, turns_left_fuel. Qed.

(** ** Bounds *)

(** What the engine relies on of the linked verdicts, as documented: decoded
    opcodes are the defined ones, control payloads are at most 125 bytes, a
    data frame is admitted only if its message stays within the cap, and
    encoded headers and close frames have their documented sizes. *)
Record engine_contract : Prop := {
  ec_opcode : forall p rest, header_verdict p = 2 :: rest -> length rest = 15%nat ->
    nth_byte rest 1 ∈ [OP_CONT; OP_TEXT; OP_BINARY; OP_CLOSE; OP_PING; OP_PONG] /\
    0 <= or_le 0 (slice 7 15 rest) /\
    (OP_CLOSE <= nth_byte rest 1 -> or_le 0 (slice 7 15 rest) <= 125);
  ec_admit : forall m n op f l, Z.shiftr (ws_admit m n op f l) 32 = 2 -> op < OP_CLOSE ->
    n + l <= MAX_MESSAGE;
  ec_header : forall f op l, (2 <= length (encode_header f op l) <= 10)%nat;
  ec_close : forall c, length (encode_close c) = 4%nat
}.

Definition bounded (e : Engine) : Prop :=
  (length (dbuf (dec e)) <= MAX_HEADER)%nat /\ Z.of_nat (length (msg e)) <= MAX_MESSAGE /\
  (length (ctl e) <= CTL_MAX)%nat.

Definition payload_ok (e : Engine) (h : FrameHeader) (got : Z) : Prop :=
  0 <= got <= len h /\ opcode h ∈ [OP_CONT; OP_TEXT; OP_BINARY; OP_CLOSE; OP_PING; OP_PONG] /\
  if is_control (opcode h)
  then Z.of_nat (length (ctl e)) = got /\ len h <= 125 /\ Z.of_nat (length (msg e)) <= MAX_MESSAGE
  else ctl e = [] /\ Z.of_nat (length (msg e)) + (len h - got) <= MAX_MESSAGE.

Record engine_ok (e : Engine) : Prop := {
  eo_buf : (length (dbuf (dec e)) <= MAX_HEADER)%nat;
  eo_rsv1 : rsv1_ok (dec e) = true -> is_Some (inflater e);
  eo_comp : msg_compressed e = true -> is_Some (inflater e);
  eo_state : match state e with
             | SHeader => ctl e = [] /\ Z.of_nat (length (msg e)) <= MAX_MESSAGE
             | SPayload h got => payload_ok e h got
             end
}.

Lemma engine_ok_bounded e : engine_ok e -> bounded e.
Proof using.
  intros [Hb _ _ Hs]. split; [done|]. unfold CTL_MAX.
  destruct (state e) as [|h got]; [destruct Hs as [-> ?]; split; [done|simpl; lia]|].
  destruct Hs as (Hg & _ & Hc). destruct (is_control (opcode h)).
  - destruct Hc as (H1 & H2 & H3). split; [done|lia].
  - destruct Hc as [-> Hm]. split; [lia|simpl; lia].
Qed.

Lemma with_config_ok cfg i d : engine_ok (with_config cfg i d).
Proof using.
  split; simpl; [unfold MAX_HEADER; lia| |done|unfold MAX_MESSAGE; split; [done|lia]].
  intros ->. by eexists.
Qed.

Section contracted.
Context (HC : engine_contract).

Lemma fail_total e out code : exists out', fail e out code = Some (e, out', Shut).
Proof using HC.
  unfold fail, encode_close_into. rewrite (ec_close HC). simpl. by eexists.
Qed.

Lemma encode_frame_total out f op p : exists out', encode_frame_into encode_header out f op p = Some out'.
Proof using HC.
  unfold encode_frame_into. pose proof (ec_header HC f op (Z.of_nat (length p))).
  rewrite (proj2 (Nat.leb_le 2 _)), (proj2 (Nat.leb_le _ 10)) by lia. by eexists.
Qed.

Lemma unmask_length m base chunk : length (unmask m base chunk) = length chunk.
Proof using. apply length_imap. Qed.

(** A turn that returns returns an outcome, bounded; every turn keeps the
    invariant. *)
Definition turn_ok (t : Turn) : Prop :=
  match t with
  | Return r => exists e out f, r = Some (e, out, f) /\ bounded e /\ (f = Continue -> engine_ok e)
  | Again e _ _ => engine_ok e
  end.

Lemma fail_turn_ok e out code : bounded e -> turn_ok (Return (fail e out code)).
Proof using HC.
  intros H. destruct (fail_total e out code) as [o ->]. by exists e, o, Shut.
Qed.

Lemma header_turn_ok e input out : engine_ok e -> state e = SHeader -> turn_ok (feed_turn e input out).
Proof using HC.
  intros H Hst. pose proof (engine_ok_bounded e H) as (B1 & B2 & B3). unfold feed_turn. rewrite Hst.
  destruct (dec_step_buf header_verdict (dec e) input B1) as [Hb Hr].
  destruct (dec_step header_verdict (dec e) input) as [d st] eqn:Ed. cbn [fst] in *.
  assert (bounded (set_dec e d)) as Hbd by done. destruct H as [_ H2 H3 H4]. rewrite Hst in H4.
  destruct st as [|h n|code]; [| |by apply fail_turn_ok].
  { exists (set_dec e d), out, Continue. split; [done|]. split; [done|]. intros _. split; simpl; try done.
    - by rewrite Hr.
    - by rewrite Hst. }
  destruct (dec_step_Done _ _ _ _ _ _ Ed) as (-> & _ & _ & Hrsv).
  destruct (dec_step_header _ _ _ _ _ _ Ed) as (p & rest & Hv & Hl & Hop & Hlen).
  destruct (ec_opcode HC p rest Hv Hl) as (Ho & Hl0 & Hl1). rewrite <- Hop, <- Hlen in *.
  unfold on_header. destruct (_ && _); [by apply fail_turn_ok|].
  destruct (Z.shiftr _ 32 =? 2) eqn:Ea; [|by apply fail_turn_ok]. zify_bool.
  split; cbn [dec set_state inflater msg_compressed state set_dec msg ctl]; try done.
  - destruct (opens_message _ h); [|done]. intros Hc. apply H2. destruct (rsv1_ok (dec e)); [done|].
    by rewrite Hrsv in Hc.
  - split; [lia|]. split; [done|]. destruct H4 as [-> Hm]. unfold is_control.
    destruct (OP_CLOSE <=? opcode h) eqn:Ec; zify_bool; simpl.
    + split; [done|]. split; [by apply Hl1|done].
    + split; [done|]. apply (ec_admit HC) in Ea; [|done]. simpl in Ea. lia.
Qed.

(** Buffering [n] more bytes of an admitted payload. *)
Lemma absorb_ok e h got chunk :
  engine_ok e -> state e = SPayload h got -> got + Z.of_nat (length chunk) <= len h ->
  match absorb e h got chunk with
  | None => False
  | Some None => bounded (violated e h got chunk)
  | Some (Some e1) => engine_ok (set_state e1 (SPayload h (got + Z.of_nat (length chunk))))
  end.
Proof using.
  intros [H1 H2 H3 H4] Hst Hn. rewrite Hst in H4. destruct H4 as (Hg & Ho & Hc).
  unfold absorb. destruct (0 <? length chunk)%nat eqn:E0.
  2:{ apply Nat.ltb_ge in E0. split; try done. simpl. replace (length chunk) with 0%nat by lia.
      rewrite Z.add_0_r. by split. }
  unfold absorb_run. rename chunk into ch. pose proof (unmask_length (fmask h) got ch) as Hu.
  destruct (is_control (opcode h)) eqn:Ec.
  - destruct Hc as (Hcl & Hl & Hm). rewrite (proj2 (Nat.leb_le _ CTL_MAX)) by (unfold CTL_MAX; lia).
    split; try done. split; [lia|]. split; [done|]. rewrite Ec. cbn [ctl set_state set_ctl msg].
    rewrite length_app, Hu. split; [lia|]. done.
  - destruct Hc as [Hct Hm].
    assert (forall u, engine_ok (set_state (set_msg e (msg e ++ unmask (fmask h) got ch) u)
                        (SPayload h (got + Z.of_nat (length ch))))) as Hok.
    { intros u. split; try done. split; [lia|]. split; [done|]. rewrite Ec. cbn [ctl set_state set_msg msg].
      rewrite length_app, Hu. split; [done|]. lia. }
    destruct (_ && _); [|apply Hok]. destruct (7 <? _); [|apply Hok].
    apply (engine_ok_bounded _ (Hok 0)).
Qed.

Lemma data_opcode op :
  op ∈ [OP_CONT; OP_TEXT; OP_BINARY; OP_CLOSE; OP_PING; OP_PONG] ->
  op <> OP_CLOSE -> op <> OP_PING -> op <> OP_PONG -> is_control op = false.
Proof using.
  intros Ho H1 H2 H3. unfold is_control. apply Z.leb_gt.
  repeat (apply elem_of_cons in Ho as [Ho|Ho];
          [unfold OP_CONT, OP_TEXT, OP_BINARY, OP_CLOSE, OP_PING, OP_PONG in *; lia|]).
  by apply elem_of_nil in Ho.
Qed.

Lemma on_frame_total e h out :
  (msg_compressed e = true -> is_Some (inflater e)) -> is_Some (on_frame e h out).
Proof using HC.
  intros H3. unfold on_frame. destruct (opcode h =? OP_CLOSE).
  { unfold on_close_frame. destruct (_ =? 0); [|destruct (_ =? 1)].
    - destruct (encode_frame_total out true OP_CLOSE []) as [o ->]. by eexists.
    - unfold encode_close_into. rewrite (ec_close HC). by eexists.
    - destruct (fail_total (set_ctl e []) out (Z.land (ws_close_body (ctl e)) 0xFFFF)) as [o ->]. by eexists. }
  destruct (opcode h =? OP_PING).
  { destruct (encode_frame_total out true OP_PONG (ctl e)) as [o ->]. by eexists. }
  destruct (opcode h =? OP_PONG); [by eexists|]. destruct (negb _); [by eexists|].
  assert (is_Some (resolve e)) as [[e1 p] ->].
  { unfold resolve. destruct (msg_compressed e); [|destruct (_ && _); by eexists].
    destruct (H3 eq_refl) as [i ->]. cbn [mbind option_bind].
    destruct (inflate i (msg e)) as [i' [r|]]; [destruct (_ && _)|]; by eexists. }
  cbn [mbind option_bind].
  destruct p as [p|]; [|destruct (fail_total e1 out CLOSE_INVALID_PAYLOAD) as [o ->]; by eexists].
  destruct (deflater e1) as [d|].
  - destruct (deflate_msg d p) as [d' z]. unfold encode_frame_ext_into.
    destruct (encode_frame_total out true (msg_op e1) z) as [o ->]. by eexists.
  - destruct (encode_frame_total out true (msg_op e1) p) as [o ->]. by eexists.
Qed.

Lemma on_frame_shut_keeps e h out e' out' :
  on_frame e h out = Some (e', out', Shut) ->
  dbuf (dec e') = dbuf (dec e) /\ msg e' = msg e /\ (length (ctl e') <= length (ctl e))%nat.
Proof using.
  unfold on_frame. destruct (opcode h =? OP_CLOSE).
  { unfold on_close_frame. destruct (_ =? 0); [|destruct (_ =? 1)].
    - destruct (encode_frame_into _ _ _ _ _); [|done]. intros [= <- _]. simpl. split_and!; [done..|lia].
    - destruct (encode_close_into _ _ _); [|done]. intros [= <- _]. simpl. split_and!; [done..|lia].
    - intros [-> _]%fail_shut. simpl. split_and!; [done..|lia]. }
  destruct (opcode h =? OP_PING); [by destruct (encode_frame_into _ _ _ _ _)|].
  destruct (opcode h =? OP_PONG); [done|]. destruct (negb _); [done|].
  destruct (resolve e) as [[e1 p]|] eqn:Er; [|done]. cbn [mbind option_bind].
  destruct (resolve_keeps _ _ _ Er) as (i & -> & _).
  destruct p; [|intros [-> _]%fail_shut; done].
  destruct (deflater _) as [d|]; [destruct (deflate_msg d _)|];
    [destruct (encode_frame_ext_into _ _ _ _ _ _)|destruct (encode_frame_into _ _ _ _ _)]; done.
Qed.

(** A complete frame's effect, from a header-state engine. *)
Lemma on_frame_ok e h out :
  engine_ok (set_state e (SPayload h (len h))) -> state e = SHeader ->
  match on_frame e h out with
  | Some (e', _, Continue) => engine_ok e'
  | Some (e', _, Shut) => bounded e'
  | None => False
  end.
Proof using HC.
  intros H Hst. pose proof (engine_ok_bounded _ H) as (B1 & B2 & B3). destruct H as [H1 H2 H3 H4].
  cbn [state set_state dec inflater msg_compressed msg ctl] in *. destruct H4 as (Hg & Ho & Hc).
  destruct (on_frame_total e h out H3) as [[[e' out'] f] E]. rewrite E. destruct f.
  - apply on_frame_continue in E as [[Hop ->]|(Hn1 & Hn2 & Hn3 & Hcase)].
    { split; try done. simpl. rewrite Hst. by split. }
    rewrite (data_opcode _ Ho Hn1 Hn2 Hn3) in Hc. destruct Hc as [Hctl Hm].
    destruct Hcase as [->|(i & d & -> & Hi)].
    + split; try done. rewrite Hst. split; [done|lia].
    + split; cbn; try done; [intros Hr; apply Hi, H2, Hr|]. rewrite Hst.
      split; [done|unfold MAX_MESSAGE; lia].
  - apply on_frame_shut_keeps in E as (D1 & D2 & D3).
    unfold bounded. rewrite D1, D2. split; [done|]. split; [done|lia].
Qed.

Lemma feed_turn_ok e input out : engine_ok e -> turn_ok (feed_turn e input out).
Proof using HC.
  intros H. destruct (state e) as [|h got] eqn:Hst; [by apply header_turn_ok|].
  unfold feed_turn. rewrite Hst. set (tk := Z.to_nat (Z.min _ _)).
  pose proof (eo_state e H) as Hg. rewrite Hst in Hg. destruct Hg as (Hg & _ & _).
  assert (length (take tk input) = tk) as Htk by (rewrite length_take; lia).
  pose proof (absorb_ok e h got (take tk input) H Hst ltac:(lia)) as Ha. rewrite Htk in Ha.
  destruct (absorb e h got (take tk input)) as [[e1|]|]; [|by apply fail_turn_ok|done].
  destruct (_ <? _) eqn:El; zify_bool.
  - eexists _, _, _. split; [done|]. split; [by apply engine_ok_bounded|done].
  - assert (got + Z.of_nat tk = len h) as Heq by lia. rewrite Heq in Ha.
    pose proof (on_frame_ok (set_state e1 SHeader) h out Ha eq_refl) as Hf.
    destruct (on_frame (set_state e1 SHeader) h out) as [[[e2 out'] []]|]; [done| |done].
    by exists e2, out', Shut.
Qed.

Lemma feed_ok e input out :
  engine_ok e -> exists e' out' f, feed e input out = Some (Some (e', out', f)) /\ bounded e' /\
                                   (f = Continue -> engine_ok e').
Proof using HC.
  remember (turns_left e input) as n eqn:Hn. revert e input out Hn.
  induction (lt_wf n) as [n _ IH]. intros e input out -> H. rewrite feed_unfold.
  pose proof (feed_turn_ok e input out H) as Ht.
  destruct (feed_turn e input out) as [r|e' input' out'] eqn:E.
  - destruct Ht as (e1 & o1 & f & -> & ?). by exists e1, o1, f.
  - eapply IH; [by eapply feed_turn_decreases|done|done].
Qed.
End contracted.

(** Successive reads of a connection, until it shuts. *)
Fixpoint feed_chunks (e : Engine) (chunks : list bytes) (out : bytes) : option Outcome :=
  match chunks with
  | [] => Some (Some (e, out, Continue))
  | c :: cs =>
      match feed e c out with
      | Some (Some (e', out', Continue)) => feed_chunks e' cs out'
      | r => r
      end
  end.

(** ** Independence of the read schedule *)
Section schedule.
Context (HC : engine_contract) (VC : verdict_contract header_verdict).

(** The incremental UTF-8 automaton, as documented: it composes over chunks,
    and a definite violation stays one. *)
Record utf8_contract : Prop := {
  uc_app : forall s a b, ws_utf8 s a <= 7 -> ws_utf8 (ws_utf8 s a) b = ws_utf8 s (a ++ b);
  uc_bad : forall s a b, 7 < ws_utf8 s a -> 7 < ws_utf8 s (a ++ b)
}.
Context (UC : utf8_contract).

(** What a peer and the connection loop see: the output, and the engine while
    the connection goes on. *)
Definition observe (r : option Outcome) : option (bytes * option Engine) :=
  match r with
  | Some (Some (e, out, Continue)) => Some (out, Some e)
  | Some (Some (_, out, Shut)) => Some (out, None)
  | _ => None
  end.

Lemma unmask_app m base a b :
  unmask m base (a ++ b) = unmask m base a ++ unmask m (base + Z.of_nat (length a)) b.
Proof using.
  unfold unmask. rewrite imap_app. f_equal. apply imap_ext. intros i x _. simpl.
  by rewrite Nat2Z.inj_add, Z.add_assoc.
Qed.

Lemma absorb_app e h base a b :
  absorb e h base (a ++ b) =
    match absorb e h base a with
    | Some (Some e1) => absorb e1 h (base + Z.of_nat (length a)) b
    | r => r
    end.
Proof using UC.
  unfold absorb. rewrite length_app.
  destruct (0 <? length a)%nat eqn:Ea.
  2:{ apply Nat.ltb_ge in Ea. destruct a; [|simpl in Ea; lia]. simpl. by rewrite Z.add_0_r. }
  destruct (0 <? length b)%nat eqn:Eb.
  2:{ apply Nat.ltb_ge in Eb. destruct b; [|simpl in Eb; lia]. rewrite app_nil_r, Nat.add_0_r, Ea.
      by destruct (absorb_run e h base a) as [[]|]. }
  rewrite (proj2 (Nat.ltb_lt 0 (length a + length b))) by (apply Nat.ltb_lt in Ea; lia).
  unfold absorb_run. rewrite unmask_app, length_app.
  destruct (is_control (opcode h)) eqn:Ec.
  - destruct (length (ctl e) + length a <=? CTL_MAX)%nat eqn:E1.
    + cbn [ctl set_ctl]. rewrite length_app, unmask_length, Nat.add_assoc.
      destruct (_ <=? CTL_MAX)%nat; [|done]. unfold set_ctl. cbn. by rewrite <- app_assoc.
    + apply Nat.leb_gt in E1. rewrite (proj2 (Nat.leb_gt _ _)) by lia. done.
  - destruct ((msg_op e =? OP_TEXT) && negb (msg_compressed e)) eqn:Et.
    + destruct (7 <? ws_utf8 (utf8 e) (unmask (fmask h) base a)) eqn:E7; zify_bool.
      * rewrite (proj2 (Z.ltb_lt _ _)); [done|]. by apply (uc_bad UC).
      * cbn [msg_op msg_compressed set_msg utf8 msg]. rewrite Et, (uc_app UC) by done.
        destruct (7 <? _); [done|]. unfold set_msg. cbn. by rewrite <- app_assoc.
    + cbn [msg_op msg_compressed set_msg utf8 msg]. rewrite Et. unfold set_msg. cbn. by rewrite <- app_assoc.
Qed.

Lemma absorb_state e h base chunk st :
  absorb (set_state e st) h base chunk = option_map (option_map (fun e1 => set_state e1 st)) (absorb e h base chunk).
Proof using. unfold absorb, absorb_run. cbn. repeat case_match; done. Qed.

(** The claim for one split of the input. *)
Definition splits (e : Engine) (a b out : bytes) : Prop :=
  match observe (feed e a out) with
  | Some (out1, Some e1) =>
      observe (feed e (a ++ b) out) = observe (feed e1 b out1) /\ dec_ok header_verdict (dec e1)
  | Some (out1, None) => observe (feed e (a ++ b) out) = Some (out1, None)
  | None => True
  end.

Lemma observe_fail e e' out code :
  observe (Some (fail e out code)) = observe (Some (fail e' out code)).
Proof using. unfold fail. by destruct (encode_close_into _ _ _). Qed.

Lemma observe_fail_shut e out code :
  match observe (Some (fail e out code)) with Some (_, Some _) => False | _ => True end.
Proof using. unfold fail. by destruct (encode_close_into _ _ _). Qed.

Lemma fresh_decoder r : dec_ok header_verdict (mkDecoder [] r).
Proof using VC. split; [unfold MAX_HEADER; simpl; lia|]. unfold verdict_at. simpl. apply (vc_empty _ VC). Qed.

Lemma splits_header e a b out :
  dec_ok header_verdict (dec e) -> state e = SHeader ->
  (forall e' a', feed_turn e a out = Again e' a' out -> dec_ok header_verdict (dec e') -> splits e' a' b out) ->
  splits e a b out.
Proof using VC.
  intros Hd Hst IH. unfold splits. rewrite (feed_unfold e a), (feed_unfold e (a ++ b)).
  unfold feed_turn in *. rewrite Hst in *.
  destruct (dec_step header_verdict (dec e) a) as [d st] eqn:Ed. destruct st as [|h n|code].
  - destruct (dec_step_join _ VC _ _ b _ Hd Ed) as [Hd1 ->]. cbn [observe].
    split; [|done]. rewrite feed_unfold. unfold feed_turn. cbn [state set_dec dec]. rewrite Hst.
    destruct (dec_step header_verdict d b) as [d2 st2]. destruct st2 as [|h n|code]; [done| |done].
    change (set_dec (set_dec e d) d2) with (set_dec e d2).
    destruct (on_header (set_dec e d2) h); [|done].
    replace (drop (n + length a) (a ++ b)) with (drop n b); [done|].
    rewrite drop_app_ge by lia. f_equal. lia.
  - destruct (dec_step_more _ VC _ _ b _ _ Hd Ed ltac:(done)) as [H2 H1].
    specialize (H1 h n eq_refl). destruct (dec_step header_verdict (dec e) (a ++ b)) as [d' st']. cbn in H1, H2. subst.
    destruct (dec_step_Done _ _ _ _ _ _ Ed) as (-> & Hn & _).
    destruct (on_header _ h) as [e2|code] eqn:Eh.
    + rewrite drop_app_le by lia. apply IH; [done|]. unfold on_header in Eh. 
      destruct (_ && _); [done|]. destruct (_ =? 2); simplify_eq. cbn. apply fresh_decoder.
    + pose proof (observe_fail_shut (set_dec e (mkDecoder [] (rsv1_ok (dec e)))) out code).
      destruct (observe _) as [[o [e1|]]|]; done.
  - destruct (dec_step_more _ VC _ _ b _ _ Hd Ed ltac:(done)) as [H2 _].
    destruct (dec_step header_verdict (dec e) (a ++ b)) as [d' st']. cbn in H2. subst.
    rewrite (observe_fail (set_dec e d') (set_dec e d)).
    pose proof (observe_fail_shut (set_dec e d) out code).
    destruct (observe _) as [[o [e1|]]|]; done.
Qed.

Lemma splits_payload e h got a b out :
  dec_ok header_verdict (dec e) -> state e = SPayload h got -> 0 <= got <= len h ->
  (forall e' a' out', feed_turn e a out = Again e' a' out' -> dec_ok header_verdict (dec e') -> splits e' a' b out') ->
  splits e a b out.
Proof using UC.
  intros Hd Hst Hg IH. unfold splits. rewrite (feed_unfold e a), (feed_unfold e (a ++ b)).
  unfold feed_turn in *. rewrite Hst in *. rewrite length_app.
  assert (forall e1 base chunk, absorb e h base chunk = Some (Some e1) -> dec e1 = dec e) as Hdec.
  { intros e1 base chunk. unfold absorb, absorb_run. intros Hx. by repeat (case_match; simplify_eq/=). }
  destruct (decide (len h - got <= Z.of_nat (length a))) as [Hle|Hgt].
  - (* the payload ends within [a] *)
    rewrite Z.min_l in * by lia. rewrite Z.min_l by lia. set (tk := Z.to_nat (len h - got)) in *.
    rewrite take_app_le, drop_app_le by lia.
    destruct (absorb e h got (take tk a)) as [[e1|]|] eqn:Ea.
    + destruct (_ <? _) eqn:El; zify_bool; [lia|].
      destruct (on_frame (set_state e1 SHeader) h out) as [[[e2 out'] []]|] eqn:Ef; cbn [observe]; try done.
      apply IH; [done|]. apply on_frame_continue in Ef as [[_ ->]|(_ & _ & _ & [->|(i & d & -> & _)])]; cbn;
        by rewrite (Hdec _ _ _ Ea).
    + pose proof (observe_fail_shut (violated e h got (take tk a)) out CLOSE_INVALID_PAYLOAD).
      destruct (observe _) as [[o [e1|]]|]; done.
    + done.
  - (* it goes on into [b] *)
    rewrite Z.min_r in * by lia. rewrite Nat2Z.id, take_ge in * by lia.
    set (tb := Z.to_nat (Z.min (len h - (got + Z.of_nat (length a))) (Z.of_nat (length b)))).
    replace (Z.to_nat (Z.min (len h - got) (Z.of_nat (length a + length b)))) with (length a + tb)%nat by lia.
    rewrite take_app_add, drop_app_add, absorb_app.
    destruct (absorb e h got a) as [[e1|]|] eqn:Ea.
    + rewrite (proj2 (Z.ltb_lt _ _)) by lia. cbn [observe]. split; [|cbn; by rewrite (Hdec _ _ _ Ea)].
      rewrite (feed_unfold (set_state e1 _) b). unfold feed_turn. cbn [state set_state].
      fold tb. rewrite absorb_state. destruct (absorb e1 h _ (take tb b)) as [[e2|]|]; cbn [option_map]; [| |done].
      * rewrite Nat2Z.inj_add, Z.add_assoc. destruct (_ <? _); [done|].
        change (set_state (set_state e2 (SPayload h (got + Z.of_nat (length a)))) SHeader) with (set_state e2 SHeader). done.
      * apply observe_fail.
    + rewrite (observe_fail (violated e h got (a ++ take tb b)) (violated e h got a)).
      pose proof (observe_fail_shut (violated e h got a) out CLOSE_INVALID_PAYLOAD).
      destruct (observe _) as [[o [e1|]]|]; done.
    + done.
Qed.

Lemma feed_splits e a b out : engine_ok e -> dec_ok header_verdict (dec e) -> splits e a b out.
Proof using HC UC VC.
  remember (turns_left e a) as n eqn:Hn. revert e a out Hn.
  induction (lt_wf n) as [n _ IH]. intros e a out -> H Hd.
  assert (forall e' a' out', feed_turn e a out = Again e' a' out' -> dec_ok header_verdict (dec e') ->
            splits e' a' b out') as IH'.
  { intros e' a' out' Ht Hd'. eapply IH; [by eapply feed_turn_decreases|done| |done].
    pose proof (feed_turn_ok HC e a out H) as Hok. by rewrite Ht in Hok. }
  destruct (state e) as [|h got] eqn:Hst; [apply splits_header; auto|].
  eapply splits_payload; eauto. pose proof (eo_state e H) as Hs. rewrite Hst in Hs. apply Hs.
Qed.

Lemma feed_chunks_concat cs : forall c e out,
  engine_ok e -> dec_ok header_verdict (dec e) ->
  observe (feed_chunks e (c :: cs) out) = observe (feed e (concat (c :: cs)) out).
Proof using HC UC VC.
  induction cs as [|c' cs IH]; intros c e out H Hd.
  - cbn [feed_chunks concat]. rewrite app_nil_r. by destruct (feed e c out) as [[[[e1 o1] []]|]|].
  - pose proof (feed_splits e c (concat (c' :: cs)) out H Hd) as Hs. unfold splits in Hs.
    destruct (feed_ok HC e c out H) as (e1 & o1 & f & Hf & _ & Hok).
    cbn [feed_chunks]. rewrite Hf in *. cbn [concat] in *. destruct f; cbn [observe] in Hs.
    + destruct Hs as [-> Hd1]. apply (IH c' e1 o1); auto.
    + by rewrite Hs.
Qed.
End schedule.
End engine.

(** ** A reference instance of the linked verdicts

    The RFC 6455 rules the verdicts are documented to implement, as concrete
    functions that meet the contracts. *)
Module Reference.

Definition defined_op (op : Z) : bool := bool_decide (op ∈ [OP_CONT; OP_TEXT; OP_BINARY; OP_CLOSE; OP_PING; OP_PONG]).

Definition ext_len (b1 : Z) : nat :=
  let l7 := Z.land b1 0x7F in if l7 =? 126 then 2 else if l7 =? 127 then 8 else 0.

Definition header_len (b1 : Z) : nat := (6 + ext_len b1)%nat.

Definition malformed (b0 b1 : Z) : bool :=
  let op := Z.land b0 0x0F in
  negb (Z.land b0 0x70 =? 0) || negb (defined_op op) || (b1 <? 128) ||
  ((OP_CLOSE <=? op) && ((b0 <? 128) || (125 <? Z.land b1 0x7F))).

Definition payload_len (b1 : Z) (p : bytes) : Z :=
  match ext_len b1 with O => Z.land b1 0x7F | n => from_be_bytes (slice 2 (2 + n) p) end.

Definition verdict (p : bytes) : bytes :=
  match p with
  | b0 :: b1 :: _ =>
      if malformed b0 b1 then [1; 3; 234]
      else if (length p <? header_len b1)%nat then [0]
      else 2 :: (if b0 <? 128 then 0 else 1) :: Z.land b0 0x0F :: Z.of_nat (header_len b1) ::
           slice (header_len b1 - 4) (header_len b1) p ++ to_le_bytes 8 (payload_len b1 p)
  | _ => [0]
  end.

Definition admit_rule (m n op : Z) (f : bool) (l : Z) : Z :=
  let accept during after deliver := Z.lor (Z.shiftl 2 32) (during * 256 + after * 16 + Z.b2z deliver) in
  let reject code := Z.lor (Z.shiftl 1 32) code in
  if OP_CLOSE <=? op then accept m m false
  else if MAX_MESSAGE <? n + l then reject CLOSE_TOO_BIG
  else if op =? OP_CONT then
    if m =? 0 then reject CLOSE_PROTOCOL_ERROR else accept m (if f then 0 else m) f
  else if m =? 0 then accept op (if f then 0 else op) f else reject CLOSE_PROTOCOL_ERROR.

Definition utf8_byte (s b : Z) : Z :=
  let c lo hi next := if between lo hi b then next else 255 in
  if s =? 0 then
    if b <? 128 then 0 else if between 194 223 b then 1 else if b =? 224 then 4
    else if b =? 237 then 5 else if between 225 239 b then 2 else if b =? 240 then 6
    else if b =? 244 then 7 else if between 241 243 b then 3 else 255
  else if s =? 1 then c 128 191 0 else if s =? 2 then c 128 191 1 else if s =? 3 then c 128 191 2
  else if s =? 4 then c 160 191 1 else if s =? 5 then c 128 159 1 else if s =? 6 then c 144 191 2
  else if s =? 7 then c 128 143 2 else 255.

Definition utf8_run (s : Z) (l : bytes) : Z := fold_left utf8_byte l s.

Definition close_body (l : bytes) : Z :=
  match l with
  | [] => 0
  | [_] => 2 * 65536 + CLOSE_PROTOCOL_ERROR
  | hi :: lo :: _ => 65536 + wrap 16 (hi * 256 + lo)
  end.

Definition frame_header (f : bool) (op l : Z) : bytes :=
  let b0 := (if f then 128 else 0) + op in
  if l <? 126 then [b0; l] else if l <? 65536 then b0 :: 126 :: to_be_bytes 2 l
  else b0 :: 127 :: to_be_bytes 8 l.

Definition close_frame (code : Z) : bytes := 136 :: 2 :: to_be_bytes 2 code.

Definition stored_inflate (i : unit) (b : bytes) : unit * option bytes := (i, Some b).
Definition stored_deflate (d : unit) (b : bytes) : unit * bytes := (d, b).

Lemma slice_short (p q : bytes) i j : (j <= length p)%nat -> slice i j (p ++ q) = slice i j p.
Proof.
  intros H. unfold slice. destruct (decide (i <= j)%nat); [|by replace (j - i)%nat with 0%nat by lia].
  rewrite drop_app_le, take_app_le by (rewrite ?length_drop; lia). done.
Qed.

Lemma verdict_stable p q : verdict p <> [0] -> verdict (p ++ q) = verdict p.
Proof.
  destruct p as [|b0 [|b1 p]]; [done..|]. intros H. simpl app. unfold verdict in *.
  destruct (malformed b0 b1); [done|]. destruct (_ <? _)%nat eqn:E; [done|]. apply Nat.ltb_ge in E.
  assert (forall i j, (j <= header_len b1)%nat ->
            slice i j (b0 :: b1 :: p ++ q) = slice i j (b0 :: b1 :: p)) as Hs.
  { intros i j Hj. apply (slice_short (b0 :: b1 :: p) q). lia. }
  rewrite (proj2 (Nat.ltb_ge _ _)) by (simpl in *; rewrite length_app; lia).
  rewrite Hs by lia. do 5 f_equal. unfold payload_len. unfold header_len in Hs.
  destruct (ext_len b1); [done|]. by rewrite Hs by lia.
Qed.

Lemma verdict_ok : verdict_contract verdict.
Proof.
  split; [done|apply verdict_stable|]. intros p rest H Hl.
  destruct p as [|b0 [|b1 p]]; [done..|]. pose proof H as Hv. unfold verdict in H.
  destruct (malformed b0 b1) eqn:Em; [done|]. destruct (_ <? _)%nat eqn:E; [done|]. apply Nat.ltb_ge in E.
  injection H as <-.
  match goal with |- context [nth_byte ?l 2] => change (nth_byte l 2) with (Z.of_nat (header_len b1)) end.
  rewrite Nat2Z.id. split; [done|]. rewrite <- (take_drop (header_len b1) (b0 :: b1 :: p)) at 2.
  symmetry. apply verdict_stable. assert (header_len b1 = S (S (4 + ext_len b1))) as Hk by done.
  rewrite Hk. simpl take. unfold verdict. rewrite Em. destruct (_ <? _)%nat eqn:E'; [|done].
  apply Nat.ltb_lt in E'. simpl length in *. rewrite length_take in E'. rewrite Hk in *. lia.
Qed.

Lemma or_le_nonneg l : bytes_ok l -> forall i, 0 <= i -> 0 <= or_le i l.
Proof.
  induction 1 as [|b l Hb _ IH]; intros i Hi; cbn [or_le]; [lia|]. apply Z.lor_nonneg. split.
  - apply Z.shiftl_nonneg. unfold byte_ok in Hb. lia.
  - apply IH. lia.
Qed.

Lemma or_le_small x : 0 <= x < 256 -> or_le 0 (to_le_bytes 8 x) = x.
Proof.
  intros Hx. cbn [to_le_bytes]. rewrite (Z.mod_small x), (Z.div_small x) by lia.
  change (or_le 0 [x; 0; 0; 0; 0; 0; 0; 0] = x). cbn [or_le]. rewrite !Z.shiftl_0_l, Z.shiftl_0_r, !Z.lor_0_r.
  done.
Qed.

Lemma verdict_fields p rest :
  verdict p = 2 :: rest -> length rest = 15%nat ->
  exists b0 b1 p', p = b0 :: b1 :: p' /\ malformed b0 b1 = false /\ nth_byte rest 1 = Z.land b0 0x0F /\
    slice 7 15 rest = to_le_bytes 8 (payload_len b1 p).
Proof.
  intros H Hl. destruct p as [|b0 [|b1 p]]; [done..|]. exists b0, b1, p. unfold verdict in H.
  destruct (malformed b0 b1) eqn:Em; [done|]. destruct (_ <? _)%nat eqn:E; [done|]. apply Nat.ltb_ge in E.
  apply (f_equal tail) in H. cbn [tail] in H. subst rest. split; [done|]. split; [done|]. split; [done|].
  set (m := slice (header_len b1 - 4) _ _). assert (length m = 4%nat) as Hm.
  { unfold m, slice. rewrite length_take, length_drop. unfold header_len in *. lia. }
  generalize (length_to_le_bytes 8 (payload_len b1 (b0 :: b1 :: p))).
  generalize (to_le_bytes 8 (payload_len b1 (b0 :: b1 :: p))) as w. intros w Hw.
  destruct m as [|? [|? [|? [|? [|]]]]]; try done. unfold slice. cbn [drop app].
  apply take_ge. simpl. lia.
Qed.

Lemma engine_ok_contract : engine_contract verdict frame_header close_frame admit_rule.
Proof.
  split.
  - intros p rest Hv Hl. destruct (verdict_fields p rest Hv Hl) as (b0 & b1 & p' & -> & Hm & -> & ->).
    unfold malformed in Hm. apply orb_false_iff in Hm as [Hm Hc]. apply orb_false_iff in Hm as [Hm _].
    apply orb_false_iff in Hm as [_ Hop]. apply negb_false_iff, bool_decide_eq_true in Hop.
    split; [done|]. split; [apply or_le_nonneg; [apply to_le_bytes_ok|lia]|].
    intros Hcl. apply andb_false_iff in Hc as [Hc|Hc]; [apply Z.leb_gt in Hc; lia|].
    apply orb_false_iff in Hc as [_ Hc]. apply Z.ltb_ge in Hc.
    assert (0 <= Z.land b1 0x7F) by (apply Z.land_nonneg; lia). unfold payload_len, ext_len.
    rewrite (proj2 (Z.eqb_neq _ 126)), (proj2 (Z.eqb_neq _ 127)) by lia. rewrite or_le_small; lia.
  - intros m n op f l H Hop. unfold admit_rule in H. rewrite (proj2 (Z.leb_gt _ _)) in H by done.
    destruct (MAX_MESSAGE <? n + l) eqn:E; zify_bool; [done|lia].
  - intros f op l. unfold frame_header. destruct (_ <? 126); [|destruct (_ <? 65536)]; simpl; lia.
  - intros c. unfold close_frame. simpl. done.
Qed.

Lemma utf8_byte_bad s b : 7 < s -> 7 < utf8_byte s b.
Proof.
  intros H. unfold utf8_byte. repeat (rewrite (proj2 (Z.eqb_neq s _)) by lia). lia.
Qed.

Lemma utf8_ok : utf8_contract utf8_run.
Proof.
  split; intros s a b; unfold utf8_run; rewrite fold_left_app; [done|].
  generalize (fold_left utf8_byte a s). clear. induction b as [|x b IH]; intros s H; [done|].
  cbn [fold_left]. by apply IH, utf8_byte_bad.
Qed.
End Reference.

(** Masking is an involution. *)
Lemma unmask_unmask m base p : unmask m base (unmask m base p) = p.
Proof.
  unfold unmask. apply list_eq. intros i. rewrite !list_lookup_imap. destruct (p !! i); [|done]. simpl.
  by rewrite Z.lxor_assoc, Z.lxor_nilpotent, Z.lxor_0_r.
Qed.

Lemma feed_chunks_ok {I D : Type} hv eh ec adm u8 cb (infl : I -> bytes -> I * option bytes)
    (defl : D -> bytes -> D * bytes) chunks :
  engine_contract hv eh ec adm -> forall e out, engine_ok e ->
  exists e' out' f, feed_chunks hv eh ec adm u8 cb infl defl e chunks out = Some (Some (e', out', f)) /\
    bounded e'.
Proof.
  intros HC. induction chunks as [|c cs IH]; intros e out H; cbn [feed_chunks].
  { exists e, out, Continue. split; [done|]. by apply engine_ok_bounded. }
  destruct (feed_ok hv eh ec adm u8 cb infl defl HC e c out H) as (e1 & o1 & f & -> & Hb & Hok).
  destruct f; [|by exists e1, o1, Shut]. by apply IH, Hok.
Qed.

(** C32. However a peer's bytes arrive, in any reads and whatever they hold,
    the engine of a connection returns from every read without a panic, having
    gone round its loop at most twice per byte, and holds at most 14 header
    bytes, a 16 MiB message and 125 control bytes. *)
Theorem engine_total_and_bounded {I D : Type} hv eh ec adm u8 cb
    (infl : I -> bytes -> I * option bytes) (defl : D -> bytes -> D * bytes)
    (HC : engine_contract hv eh ec adm) (cfg : WsConfig) (i : I) (d : D) (chunks : list bytes) :
  exists e out f,
    feed_chunks hv eh ec adm u8 cb infl defl (with_config cfg i d) chunks [] = Some (Some (e, out, f)) /\
    (length (dbuf (dec e)) <= MAX_HEADER)%nat /\ Z.of_nat (length (msg e)) <= MAX_MESSAGE /\
    (length (ctl e) <= CTL_MAX)%nat.
Proof. apply feed_chunks_ok; [done|apply with_config_ok]. Qed.

Lemma engine_total_and_bounded_witness :
  exists e out f,
    feed_chunks Reference.verdict Reference.frame_header Reference.close_frame Reference.admit_rule
      Reference.utf8_run Reference.close_body Reference.stored_inflate Reference.stored_deflate
      (with_config (mkWsConfig true false false 15) tt tt) [[193; 129]; [1; 2; 3; 4; 96]] [] = Some (Some (e, out, f)) /\
    (length (dbuf (dec e)) <= MAX_HEADER)%nat /\ Z.of_nat (length (msg e)) <= MAX_MESSAGE /\
    (length (ctl e) <= CTL_MAX)%nat.
Proof. apply engine_total_and_bounded. exact Reference.engine_ok_contract. Defined.

(** C33. How the transport cuts a connection's bytes into reads is invisible:
    fed chunk by chunk, the engine sends the same bytes, ends in the same
    state and shuts at the same point as fed all of them at once. *)
Theorem read_schedule_invisible {I D : Type} hv eh ec adm u8 cb
    (infl : I -> bytes -> I * option bytes) (defl : D -> bytes -> D * bytes)
    (HC : engine_contract hv eh ec adm) (VC : verdict_contract hv) (UC : utf8_contract u8)
    (cfg : WsConfig) (i : I) (d : D) (c : bytes) (cs : list bytes) :
  observe (feed_chunks hv eh ec adm u8 cb infl defl (with_config cfg i d) (c :: cs) []) =
  observe (feed hv eh ec adm u8 cb infl defl (with_config cfg i d) (concat (c :: cs)) []).
Proof. apply feed_chunks_concat; try done; [apply with_config_ok|by apply fresh_decoder]. Qed.

(** A masked text frame carrying two letters, read byte by byte. *)
Lemma read_schedule_invisible_witness :
  exists e,
    observe (feed_chunks Reference.verdict Reference.frame_header Reference.close_frame Reference.admit_rule
      Reference.utf8_run Reference.close_body Reference.stored_inflate Reference.stored_deflate
      (with_config (mkWsConfig false false false 15) tt tt) [[129]; [130; 1]; [2; 3; 4]; [73]; [107]] []) =
    Some ([129; 2; 72; 105], Some e).
Proof.
  eexists. etransitivity.
  - apply read_schedule_invisible;
      [exact Reference.engine_ok_contract|exact Reference.verdict_ok|exact Reference.utf8_ok].
  - vm_compute. reflexivity.
Defined.

(** The linked verdict on the header of a final frame. *)
Definition decodes (hv : bytes -> bytes) (hdr : bytes) (op : Z) (m : list Z) (n : Z) : Prop :=
  (0 < length hdr <= MAX_HEADER)%nat /\ length m = 4%nat /\ 0 <= n < 256 ^ 8 /\
  hv hdr = 2 :: 1 :: op :: Z.of_nat (length hdr) :: m ++ to_le_bytes 8 n.

Lemma dec_step_frame hv hdr op m n body :
  verdict_contract hv -> decodes hv hdr op m n ->
  dec_step hv (mkDecoder [] false) (hdr ++ body) =
    (mkDecoder [] false, Done (mkHeader true op n m false) (length hdr)).
Proof.
  intros VC (Hl & Hm & Hn & Hv). unfold dec_step. cbn [dbuf rsv1_ok app length].
  set (tk := Nat.min _ _).
  assert (length hdr <= tk)%nat as Htk by (unfold tk; rewrite length_app; lia).
  assert (take tk (hdr ++ body) = hdr ++ take (tk - length hdr) body) as ->
    by (rewrite take_app, take_ge by lia; done).
  change (has_rsv1 (mkDecoder [] false) (hdr ++ take (tk - length hdr) body)) with false.
  set (buf := hdr ++ take _ body).
  assert (peel false buf = buf) as -> by (unfold peel; by destruct buf).
  assert (hv buf = hv hdr) as -> by (apply (vc_stable _ VC); by rewrite Hv).
  assert (length buf = length hdr + length (take (tk - length hdr) body))%nat as Hb by apply length_app.
  rewrite Hv. unfold read_verdict. cbn [Z.eqb andb].
  pose proof (length_to_le_bytes 8 n) as H8. set (w := to_le_bytes 8 n) in *.
  pose proof (or_le_to_le 8 n 0 ltac:(lia) Hn) as Hw. fold w in Hw. rewrite Z.shiftl_0_r in Hw.
  destruct m as [|m0 [|m1 [|m2 [|m3 [|]]]]]; try done. cbn [app length]. rewrite H8. cbn [Nat.eqb].
  cbn [nth_byte]. unfold nth_byte. cbn [lookup list_lookup default].
  rewrite andb_false_r. unfold id. rewrite Nat2Z.id.
  rewrite (proj2 (Nat.leb_gt (length hdr) 0)), (proj2 (Nat.ltb_ge (length buf) (length hdr))) by lia. cbn [orb].
  unfold slice. cbn [drop take Nat.sub]. rewrite (take_ge w), Hw, Nat.sub_0_r by lia. done.
Qed.

Lemma feed_nothing {I D : Type} hv eh ec adm u8 cb (infl : I -> bytes -> I * option bytes)
    (defl : D -> bytes -> D * bytes) e out :
  verdict_contract hv -> state e = SHeader -> dbuf (dec e) = [] ->
  exists e', feed hv eh ec adm u8 cb infl defl e [] out = Some (Some (e', out, Continue)) /\
    exists d, e' = set_dec e d.
Proof.
  intros VC Hst Hd. rewrite feed_unfold. unfold feed_turn. rewrite Hst.
  unfold dec_step. rewrite Hd. cbn [app length take Nat.min]. rewrite Nat.min_0_r. cbn [take].
  assert (peel (has_rsv1 (dec e) []) [] = []) as -> by done. rewrite (vc_empty _ VC).
  eexists. split; [done|by eexists].
Qed.

(** The payload of a final data frame, buffered whole into an empty message. *)
Lemma absorb_whole {I D : Type} u8 (e : @Engine I D) h payload :
  is_control (opcode h) = false -> msg e = [] -> utf8 e = 0 -> msg_compressed e = false ->
  (msg_op e = OP_TEXT -> payload <> [] -> u8 0 payload = 0) ->
  absorb u8 e h 0 (unmask (fmask h) 0 payload) = Some (Some (set_msg e payload 0)).
Proof.
  intros Hc Hm Hz Hcomp Hu. unfold absorb. rewrite unmask_length. destruct payload as [|b p].
  { cbn. unfold set_msg. destruct e. cbn in *. by subst. }
  cbn [length Nat.ltb Nat.leb]. unfold absorb_run. rewrite Hc, unmask_unmask, Hcomp, Hm, Hz.
  destruct (msg_op e =? OP_TEXT) eqn:Et; [|done]. zify_bool. cbn [andb negb]. by rewrite Hu.
Qed.

Lemma deliver_plain {I D : Type} hv eh ec adm u8 cb (infl : I -> bytes -> I * option bytes)
    (defl : D -> bytes -> D * bytes) e h out :
  engine_contract hv eh ec adm ->
  opcode h = OP_TEXT \/ opcode h = OP_BINARY -> frame_deliver e = true -> msg_compressed e = false ->
  deflater e = None -> utf8 e = 0 ->
  on_frame eh ec u8 cb infl defl e h out =
    Some (idle_after e None, out ++ eh true (msg_op e) (Z.of_nat (length (msg e))) ++ msg e, Continue).
Proof.
  intros HC Hop Hdl Hcomp Hd Hu. unfold on_frame.
  assert ((opcode h =? OP_CLOSE) = false /\ (opcode h =? OP_PING) = false /\ (opcode h =? OP_PONG) = false)
    as (-> & -> & ->) by (destruct Hop as [-> | ->]; done).
  unfold resolve. rewrite Hdl, Hcomp, Hu. cbn [negb Z.eqb].
  rewrite andb_false_r. cbn [mbind option_bind]. rewrite Hd. unfold encode_frame_into.
  pose proof (ec_header _ _ _ _ HC true (msg_op e) (Z.of_nat (length (msg e)))).
  by rewrite (proj2 (Nat.leb_le 2 _)), (proj2 (Nat.leb_le _ 10)) by lia.
Qed.

(** The echo: a client's final text or binary frame, admitted as a whole
    message and (text) valid UTF-8, is answered with one frame of the same
    opcode carrying exactly the plaintext the client masked, appended to the
    output, and the engine is idle again. *)
Theorem single_frame_echo {I D : Type} hv eh ec adm u8 cb
    (infl : I -> bytes -> I * option bytes) (defl : D -> bytes -> D * bytes)
    (VC : verdict_contract hv) (HC : engine_contract hv eh ec adm)
    (cfg : WsConfig) (i : I) (d : D) (hdr m payload : bytes) (op : Z) (out : bytes) :
  deflate cfg = false -> op = OP_TEXT \/ op = OP_BINARY ->
  decodes hv hdr op m (Z.of_nat (length payload)) ->
  adm 0 0 op true (Z.of_nat (length payload)) = Z.lor (Z.shiftl 2 32) (op * 256 + 1) ->
  (op = OP_TEXT -> payload <> [] -> u8 0 payload = 0) ->
  exists e,
    feed hv eh ec adm u8 cb infl defl (with_config cfg i d) (hdr ++ unmask m 0 payload) out =
      Some (Some (e, out ++ eh true op (Z.of_nat (length payload)) ++ payload, Continue)) /\
    state e = SHeader /\ msg e = [] /\ msg_op e = 0 /\ utf8 e = 0 /\ msg_compressed e = false.
Proof.
  intros Hdef Hop Hdec Hadm Hu. set (n := Z.of_nat (length payload)) in *.
  unfold with_config. rewrite Hdef. change (with_deflate false) with (mkDecoder [] false).
  rewrite feed_unfold. unfold feed_turn. cbn [state dec].
  rewrite (dec_step_frame _ _ _ _ _ _ VC Hdec). unfold on_header, opens_message, set_dec.
  cbn [rsv1 andb msg_op msg length opcode fin len]. change (Z.of_nat 0) with 0. rewrite Hadm.
  assert (forall v, v = Z.lor (Z.shiftl 2 32) (op * 256 + 1) ->
    Z.shiftr v 32 = 2 /\ Z.land (Z.shiftr v 8) 15 = op /\ Z.land (Z.shiftr v 4) 15 = 0 /\ Z.land v 1 = 1) as Hbits
    by (intros v ->; destruct Hop as [-> | ->]; done).
  destruct (Hbits _ eq_refl) as (-> & -> & -> & ->). cbn [Z.eqb Pos.eqb negb].
  rewrite drop_app_length, feed_unfold. unfold set_state, feed_turn.
  cbn [state dec inflater deflater msg_compressed msg msg_op frame_after frame_deliver utf8 ctl len].
  rewrite unmask_length, Z.sub_0_r, Z.min_id, Nat2Z.id, take_ge by (by rewrite unmask_length).
  match goal with |- context [absorb u8 ?e ?h 0 (unmask m 0 payload)] =>
    assert (absorb u8 e h 0 (unmask m 0 payload) = Some (Some (set_msg e payload 0))) as ->
      by (apply (absorb_whole u8 e h payload);
          [by destruct Hop as [-> | ->]|done|done|cbn; by destruct (_ && _)|exact Hu]) end.
  fold n. rewrite (proj2 (Z.ltb_ge _ _)) by lia.
  rewrite (deliver_plain hv eh ec adm); try done.
  2:{ cbn. by destruct (_ && _). }
  rewrite drop_ge by (rewrite unmask_length; lia).
  edestruct (feed_nothing hv eh ec adm u8 cb infl defl) as (e' & -> & d' & ->); [done..|].
  eexists. split; [done|]. done.
Qed.

Lemma single_frame_echo_witness :
  exists e,
    feed Reference.verdict Reference.frame_header Reference.close_frame Reference.admit_rule
      Reference.utf8_run Reference.close_body Reference.stored_inflate Reference.stored_deflate
      (with_config (mkWsConfig false false false 15) tt tt)
      ([129; 130; 1; 2; 3; 4] ++ unmask [1; 2; 3; 4] 0 [72; 105]) [7] =
      Some (Some (e, [7] ++ [129; 2] ++ [72; 105], Continue)) /\
    state e = SHeader /\ msg e = [] /\ msg_op e = 0 /\ utf8 e = 0 /\ msg_compressed e = false.
Proof.
  apply (single_frame_echo Reference.verdict Reference.frame_header Reference.close_frame Reference.admit_rule
           Reference.utf8_run Reference.close_body Reference.stored_inflate Reference.stored_deflate
           Reference.verdict_ok Reference.engine_ok_contract _ tt tt [129; 130; 1; 2; 3; 4] [1; 2; 3; 4]
           [72; 105] OP_TEXT [7]).
  - reflexivity.
  - left. reflexivity.
  - unfold decodes, MAX_HEADER. cbn [length]. repeat split; try lia; vm_compute; reflexivity.
  - vm_compute. reflexivity.
  - intros _ _. vm_compute. reflexivity.
Defined.
