(* ===== verification/Socks.v ===== *)
(** * The SOCKS5 egress handshake ([migration/dataplane/host/src/socks.rs])

    The driver [connect], its messages and its budgets. The linked handshake
    decision is a parameter (bytes in, bytes out), and so is the upstream: the
    answer to each read and each write, by its number. The loop is bounded by
    the step budget of the source, which is its fuel. *)
From S2P Require Import Prelude Bytes.

Local Open Scope Z_scope.

Definition PHASE_AWAIT_GREETING : Z := 0.
Definition PHASE_AWAIT_AUTH : Z := 1.
Definition PHASE_AWAIT_REPLY : Z := 2.
Definition PHASE_ESTABLISHED : Z := 3.
Definition PHASE_FAILED : Z := 4.

Definition ACT_WAIT : Z := 0.
Definition ACT_SEND_AUTH : Z := 1.
Definition ACT_SEND_CONNECT : Z := 2.
Definition ACT_TUNNEL_UP : Z := 3.
Definition ACT_CLOSE_ERR : Z := 4.

Record Verdict := mkVerdict { next_phase : Z; action : Z; consumed : nat }.

(** [drorb_socks_step] is the linked decision. *)
Definition socks_step (drorb_socks_step : bytes -> bytes) (phase : Z) (has_auth : bool) (server_buf : bytes) :
    Verdict :=
  match drorb_socks_step (phase :: (if has_auth then 1 else 0) :: server_buf) with
  | p :: a :: hi :: lo :: _ => mkVerdict p a (Z.to_nat (hi * 256 + lo))
  | _ => mkVerdict PHASE_FAILED ACT_CLOSE_ERR 0
  end.

(** ** Messages *)

Inductive Target := V4 (a : bytes) (port : Z) | Domain (host : bytes) (port : Z).

Definition connect_request (t : Target) : bytes :=
  [5; 1; 0] ++
  match t with
  | V4 a port => 1 :: a ++ to_be_bytes 2 port
  | Domain host port =>
      let n := Nat.min (length host) 255 in
      3 :: Z.of_nat n :: take n host ++ to_be_bytes 2 port
  end.

Record Creds := mkCreds { user : bytes; pass : bytes }.

Definition auth_message (c : Creds) : bytes :=
  let ul := Nat.min (length (user c)) 255 in
  let pl := Nat.min (length (pass c)) 255 in
  [1; Z.of_nat ul] ++ take ul (user c) ++ [Z.of_nat pl] ++ take pl (pass c).

Definition greeting (has_auth : bool) : bytes := if has_auth then [5; 2; 0; 2] else [5; 1; 0].

(** ** The driver *)

Inductive SocksError := Rejected | Budget | Io.

Definition MAX_HANDSHAKE_BYTES : nat := 4096.
Definition MAX_STEPS : nat := 64.
Definition READ_CHUNK : nat := 512.

(** The upstream: what the [k]-th read returns ([None] an error, [[]] a
    close), and how many bytes of the [k]-th write go out before it fails
    ([None]: all of them, and it succeeds). *)
Record Upstream := mkUpstream {
  set_timeout_ok : bool;
  on_read : nat -> option bytes;
  on_write : nat -> option nat
}.

(** The driver's side of the connection: reads and writes made, bytes sent. *)
Record Conn := mkConn { reads : nat; writes : nat; sent : bytes }.

Definition write_all (up : Upstream) (c : Conn) (msg : bytes) : Conn * bool :=
  match on_write up (writes c) with
  | None => (mkConn (reads c) (S (writes c)) (sent c ++ msg), true)
  | Some n => (mkConn (reads c) (S (writes c)) (sent c ++ take n msg), false)
  end.

Definition read_chunk (up : Upstream) (c : Conn) : Conn * option bytes :=
  (mkConn (S (reads c)) (writes c) (sent c), take READ_CHUNK <$> on_read up (reads c)).

Lemma write_all_reads up c msg : reads (write_all up c msg).1 = reads c.
Proof. unfold write_all. by destruct (on_write up (writes c)). Qed.

Section driver.
Context (seam : bytes -> bytes) (up : Upstream) (target : Target) (creds : option Creds).

Definition has_auth : bool := bool_decide (is_Some creds).

Definition auth_bytes : bytes := from_option auth_message [] creds.

Fixpoint handshake (steps : nat) (phase : Z) (buf : bytes) (c : Conn) : Conn * result unit SocksError :=
  match steps with
  | O => (c, Err Budget)
  | S k =>
      let v := socks_step seam phase has_auth buf in
      if action v =? ACT_TUNNEL_UP then (c, Ok tt)
      else if action v =? ACT_CLOSE_ERR then (c, Err Rejected)
      else if action v =? ACT_SEND_AUTH then
        let '(c1, ok) := write_all up c auth_bytes in
        if (ok : bool) then handshake k (next_phase v) (drop (Nat.min (consumed v) (length buf)) buf) c1
        else (c1, Err Io)
      else if action v =? ACT_SEND_CONNECT then
        let '(c1, ok) := write_all up c (connect_request target) in
        if (ok : bool) then handshake k (next_phase v) (drop (Nat.min (consumed v) (length buf)) buf) c1
        else (c1, Err Io)
      else if (MAX_HANDSHAKE_BYTES <=? length buf)%nat then (c, Err Budget)
      else
        let '(c1, r) := read_chunk up c in
        match r with
        | None => (c1, Err Io)
        | Some [] => (c1, Err Io)
        | Some chunk => handshake k phase (buf ++ chunk) c1
        end
  end.

Definition connect : Conn * result unit SocksError :=
  let c0 := mkConn 0 0 [] in
  if negb (set_timeout_ok up) then (c0, Err Io)
  else
    let '(c1, ok) := write_all up c0 (greeting has_auth) in
    if (ok : bool) then handshake MAX_STEPS PHASE_AWAIT_GREETING [] c1 else (c1, Err Io).

(** ** What is sent *)

(** What the driver relies on of the linked decision: it authenticates only
    at the greeting and with credentials, connects only from the greeting or
    after authenticating, and opens the tunnel only on the reply. *)
Record seam_gate : Prop := {
  sg_auth : forall p buf, action (socks_step seam p has_auth buf) = ACT_SEND_AUTH ->
    p = PHASE_AWAIT_GREETING /\ has_auth = true /\
    next_phase (socks_step seam p has_auth buf) = PHASE_AWAIT_AUTH;
  sg_connect : forall p buf, action (socks_step seam p has_auth buf) = ACT_SEND_CONNECT ->
    (p = PHASE_AWAIT_GREETING \/ p = PHASE_AWAIT_AUTH) /\
    next_phase (socks_step seam p has_auth buf) = PHASE_AWAIT_REPLY;
  sg_up : forall p buf, action (socks_step seam p has_auth buf) = ACT_TUNNEL_UP -> p = PHASE_AWAIT_REPLY
}.

(** The two whole conversations of the driver. *)
Definition conversation (s : bytes) : Prop :=
  s = greeting has_auth ++ connect_request target \/
  (has_auth = true /\ s = greeting has_auth ++ auth_bytes ++ connect_request target).

Definition at_phase (p : Z) (s : bytes) : Prop :=
  (p = PHASE_AWAIT_GREETING /\ s = greeting has_auth) \/
  (p = PHASE_AWAIT_AUTH /\ has_auth = true /\ s = greeting has_auth ++ auth_bytes) \/
  (p = PHASE_AWAIT_REPLY /\ conversation s).

Definition so_far (c : Conn) (r : result unit SocksError) : Prop :=
  exists s, conversation s /\ sent c `prefix_of` s /\ (r = Ok tt -> sent c = s).

Lemma at_phase_so_far p c e : at_phase p (sent c) -> so_far c (Err e).
Proof using.
  intros [[_ Hs]|[(_ & Ha & Hs)|[_ Hs]]]; unfold so_far; rewrite ?Hs.
  - exists (greeting has_auth ++ connect_request target). split; [by left|]. split; [by apply prefix_app_r|done].
  - exists (greeting has_auth ++ auth_bytes ++ connect_request target). split; [by right|].
    split; [|done]. rewrite app_assoc. by apply prefix_app_r.
  - by exists (sent c).
Qed.

(** A message that leads from one phase to the next, sent whole or in part. *)
Lemma write_so_far p' c msg :
  at_phase p' (sent c ++ msg) -> forall c1 ok, write_all up c msg = (c1, ok) ->
  so_far c1 (Err Io) /\ (ok = true -> at_phase p' (sent c1)) /\ reads c1 = reads c.
Proof using.
  intros H c1 ok Hw. unfold write_all in Hw.
  destruct (on_write up (writes c)) as [n|]; injection Hw as <- <-; cbn [sent reads].
  - split; [|done].
    destruct (at_phase_so_far p' (mkConn 0 0 (sent c ++ msg)) Io H) as (s & Hs & Hp & _).
    exists s. split; [done|]. split; [|done]. cbn [sent] in *. etrans; [|done].
    apply prefix_app. apply prefix_take.
  - split; [by eapply at_phase_so_far|]. done.
Qed.

Lemma handshake_so_far (G : seam_gate) steps : forall p buf c c' r,
  at_phase p (sent c) -> handshake steps p buf c = (c', r) -> so_far c' r.
Proof using.
  induction steps as [|k IH]; intros p buf c c' r H Hh; cbn [handshake] in Hh.
  { injection Hh as <- <-. by eapply at_phase_so_far. }
  set (v := socks_step seam p has_auth buf) in *.
  destruct (action v =? ACT_TUNNEL_UP) eqn:E1; [|destruct (action v =? ACT_CLOSE_ERR);
    [|destruct (action v =? ACT_SEND_AUTH) eqn:E3; [|destruct (action v =? ACT_SEND_CONNECT) eqn:E4]]]; zify_bool.
  - injection Hh as <- <-. apply (sg_up G) in E1. subst p.
    destruct H as [[? _]|[[? _]|[_ Hs]]]; [done|done|]. by exists (sent c).
  - injection Hh as <- <-. by eapply at_phase_so_far.
  - destruct (sg_auth G p buf E3) as (-> & Ha & Hn). fold v in Hn.
    assert (at_phase (next_phase v) (sent c ++ auth_bytes)) as Hat.
    { rewrite Hn. right. left. destruct H as [[_ ->]|[[? _]|[? _]]]; done. }
    destruct (write_all up c auth_bytes) as [c1 ok] eqn:Ew.
    destruct (write_so_far _ _ _ Hat _ _ Ew) as (Hf & Hok & _).
    destruct ok; [|by injection Hh as <- <-]. by eapply IH; [apply Hok|].
  - destruct (sg_connect G p buf E4) as (Hp & Hn). fold v in Hn.
    assert (at_phase (next_phase v) (sent c ++ connect_request target)) as Hat.
    { rewrite Hn. right. right. split; [done|].
      destruct H as [[_ ->]|[(_ & Ha & ->)|[-> _]]]; [by left| |by destruct Hp].
      right. by rewrite <- app_assoc. }
    destruct (write_all up c (connect_request target)) as [c1 ok] eqn:Ew.
    destruct (write_so_far _ _ _ Hat _ _ Ew) as (Hf & Hok & _).
    destruct ok; [|by injection Hh as <- <-]. by eapply IH; [apply Hok|].
  - destruct (_ <=? length buf)%nat; [injection Hh as <- <-; by eapply at_phase_so_far|].
    unfold read_chunk in Hh. destruct (on_read up (reads c)) as [l|]; cbn [fmap option_fmap option_map] in Hh.
    + destruct (take READ_CHUNK l) as [|b l']; [injection Hh as <- <-; by eapply at_phase_so_far|].
      eapply IH; [|exact Hh]. exact H.
    + injection Hh as <- <-. by eapply at_phase_so_far.
Qed.

Lemma handshake_reads steps : forall p buf c,
  (reads (handshake steps p buf c).1 <= reads c + steps)%nat.
Proof using.
  induction steps as [|k IH]; intros p buf c; cbn [handshake]; [simpl; lia|].
  set (v := socks_step seam p has_auth buf).
  pose proof (write_all_reads up c) as Hw.
  destruct (_ =? ACT_TUNNEL_UP); [simpl; lia|]. destruct (_ =? ACT_CLOSE_ERR); [simpl; lia|].
  assert (forall msg q b, (reads (let '(c1, ok) := write_all up c msg in
            if (ok : bool) then handshake k q b c1 else (c1, Err Io)).1 <= reads c + S k)%nat) as Hsend.
  { intros msg q b. specialize (Hw msg). destruct (write_all up c msg) as [c1 ok]. cbn [fst] in Hw.
    destruct ok; [specialize (IH q b c1); lia|cbn [fst]; lia]. }
  destruct (_ =? ACT_SEND_AUTH); [apply Hsend|]. destruct (_ =? ACT_SEND_CONNECT); [apply Hsend|].
  destruct (_ <=? length buf)%nat; [simpl; lia|]. unfold read_chunk.
  destruct (on_read up (reads c)) as [l|]; cbn [fmap option_fmap option_map]; [|simpl; lia].
  destruct (take READ_CHUNK l) as [|b l']; [simpl; lia|].
  specialize (IH p (buf ++ b :: l') (mkConn (S (reads c)) (writes c) (sent c))). simpl in IH. lia.
Qed.
End driver.

(** The decision is asked about less than two chunks past the byte budget. *)
Lemma handshake_local (seam seam' : bytes -> bytes) up target creds steps :
  (forall l, (length l < 2 + MAX_HANDSHAKE_BYTES + READ_CHUNK)%nat -> seam' l = seam l) ->
  forall p buf c, (length buf < MAX_HANDSHAKE_BYTES + READ_CHUNK)%nat ->
  handshake seam' up target creds steps p buf c = handshake seam up target creds steps p buf c.
Proof.
  intros Hs. induction steps as [|k IH]; intros p buf c Hb; cbn [handshake]; [done|].
  assert (socks_step seam' p (has_auth creds) buf = socks_step seam p (has_auth creds) buf) as ->
    by (unfold socks_step; rewrite Hs by (cbn [length]; lia); done).
  set (v := socks_step seam p (has_auth creds) buf).
  destruct (_ =? ACT_TUNNEL_UP); [done|]. destruct (_ =? ACT_CLOSE_ERR); [done|].
  destruct (_ =? ACT_SEND_AUTH); [|destruct (_ =? ACT_SEND_CONNECT)].
  - destruct (write_all up c (auth_bytes creds)) as [c1 []]; [|done]. apply IH. rewrite length_drop. lia.
  - destruct (write_all up c (connect_request target)) as [c1 []]; [|done]. apply IH. rewrite length_drop. lia.
  - destruct (_ <=? length buf)%nat eqn:El; [done|]. apply Nat.leb_gt in El. unfold read_chunk.
    destruct (on_read up (reads c)) as [l|]; [|done]. cbn [fmap option_fmap option_map].
    assert (length (take READ_CHUNK l) <= READ_CHUNK)%nat as Hl by (rewrite length_take; lia).
    destruct (take READ_CHUNK l) as [|b l']; [done|]. apply IH. rewrite length_app. lia.
Qed.

(** C38. Whatever the upstream does, the egress handshake sends nothing but
    the greeting, at most one authentication message (with credentials only)
    and one CONNECT request, in that order; success is reported only after the
    whole conversation was sent and the linked decision opened the tunnel; at
    most 64 reads are made; and the decision is never asked about more than
    4607 buffered bytes. *)
Theorem connect_sends_only_the_handshake (seam : bytes -> bytes) (up : Upstream) (target : Target)
    (creds : option Creds) (G : seam_gate seam creds) :
  let '(c, r) := connect seam up target creds in
  (exists s, sent c `prefix_of` s /\ (r = Ok tt -> sent c = s) /\
     (s = greeting (has_auth creds) ++ connect_request target \/
      (is_Some creds /\ s = greeting (has_auth creds) ++ auth_bytes creds ++ connect_request target))) /\
  (reads c <= MAX_STEPS)%nat /\
  (forall seam', (forall l, (length l <= 2 + 4607)%nat -> seam' l = seam l) ->
     connect seam' up target creds = (c, r)).
Proof.
  destruct (connect seam up target creds) as [c r] eqn:Hc. split; [|split].
  - assert (so_far target creds c r) as (s & Hs & Hp & Hr).
    { unfold connect in Hc. destruct (negb _).
      { injection Hc as <- <-. exists (greeting (has_auth creds) ++ connect_request target).
        split; [by left|]. split; [apply prefix_nil|done]. }
      destruct (write_all up _ _) as [c1 ok] eqn:Ew.
      destruct (write_so_far up target creds PHASE_AWAIT_GREETING (mkConn 0 0 []) (greeting (has_auth creds))
                  ltac:(by left) _ _ Ew) as (Hf & Hok & _).
      destruct ok; [|by injection Hc as <- <-]. by eapply handshake_so_far; [done|by apply Hok|]. }
    exists s. split; [done|]. split; [done|]. destruct Hs as [->|[Ha ->]]; [by left|right].
    split; [|done]. by apply bool_decide_eq_true in Ha.
  - unfold connect in Hc. destruct (negb _); [injection Hc as <- <-; simpl; lia|].
    destruct (write_all up _ _) as [c1 ok] eqn:Ew.
    pose proof (write_all_reads up (mkConn 0 0 []) (greeting (has_auth creds))) as H0.
    rewrite Ew in H0. cbn [fst reads] in H0.
    destruct ok; [|injection Hc as <- <-; lia].
    pose proof (handshake_reads seam up target creds MAX_STEPS PHASE_AWAIT_GREETING [] c1) as Hr.
    rewrite Hc in Hr. cbn [fst] in Hr. lia.
  - intros seam' Hs. rewrite <- Hc. unfold connect. destruct (negb _); [done|].
    destruct (write_all up _ _) as [c1 []]; [|done].
    assert (length (@nil Z) < MAX_HANDSHAKE_BYTES + READ_CHUNK)%nat as H0
      by (unfold MAX_HANDSHAKE_BYTES, READ_CHUNK; cbn [length]; lia).
    assert (forall l, (length l < 2 + MAX_HANDSHAKE_BYTES + READ_CHUNK)%nat -> seam' l = seam l) as Hs'
      by (intros l Hl; apply Hs; unfold MAX_HANDSHAKE_BYTES, READ_CHUNK in Hl; lia).
    exact (handshake_local seam seam' up target creds MAX_STEPS Hs' PHASE_AWAIT_GREETING [] c1 H0).
Qed.

(** A decision that follows the protocol on the reply codes alone. *)
Definition plain_decision (l : bytes) : bytes :=
  match l with
  | p :: a :: _ :: code :: _ =>
      if p =? 0 then
        if code =? 0 then [2; 2; 0; 2] else if (code =? 2) && (a =? 1) then [1; 1; 0; 2] else [4; 4; 0; 0]
      else if p =? 1 then (if code =? 0 then [2; 2; 0; 2] else [4; 4; 0; 0])
      else if p =? 2 then (if code =? 0 then [3; 3; 0; 10] else [4; 4; 0; 0])
      else [4; 4; 0; 0]
  | _ => [4; 0; 0; 0]
  end.

Lemma plain_decision_gate creds : seam_gate plain_decision creds.
Proof.
  split; intros p buf; unfold socks_step; destruct buf as [|v [|code buf]]; try done;
    cbn [plain_decision]; destruct (p =? 0) eqn:E0; zify_bool.
  - destruct (code =? 0); [done|]. destruct (has_auth creds); [|by rewrite andb_false_r].
    destruct (code =? 2); done.
  - destruct (p =? 1), (p =? 2), (code =? 0); done.
  - intros H. split; [by left|]. revert H. destruct (code =? 0); [done|]. by destruct (_ && _).
  - destruct (p =? 1) eqn:E1; zify_bool; [|by destruct (p =? 2), (code =? 0)].
    intros H. split; [by right|]. revert H. by destruct (code =? 0).
  - destruct (code =? 0); [done|]. by destruct (_ && _).
  - destruct (p =? 1), (p =? 2) eqn:E2, (code =? 0); zify_bool; done.
Qed.

(** An upstream that picks password authentication and accepts. *)
Definition friendly : Upstream :=
  mkUpstream true
    (fun k => match k with
              | O => Some [5; 2]
              | 1%nat => Some [1]
              | 2%nat => Some [0; 5; 0]
              | _ => Some [0; 1; 127; 0; 0; 1; 0; 80]
              end)
    (fun _ => None).

Lemma connect_sends_only_the_handshake_witness :
  let '(c, r) := connect plain_decision friendly (V4 [127; 0; 0; 1] 80) (Some (mkCreds [117] [112])) in
  r = Ok tt /\ sent c = [5; 2; 0; 2; 1; 1; 117; 1; 112; 5; 1; 0; 1; 127; 0; 0; 1; 0; 80] /\
  (reads c <= MAX_STEPS)%nat.
Proof.
  pose proof (connect_sends_only_the_handshake plain_decision friendly (V4 [127; 0; 0; 1] 80)
                (Some (mkCreds [117] [112])) (plain_decision_gate _)) as H.
  destruct (connect _ _ _ _) as [c r] eqn:E. vm_compute in E. injection E as <- <-.
  destruct H as (_ & Hr & _). split; [reflexivity|]. split; [reflexivity|]. exact Hr.
Defined.
