(* ===== verification/Static.v ===== *)
(** * Static file serving ([static_serve.rs])

    The host side of the static lane: the request target is mapped to a file
    under the document root, the boundary facts are framed for the linked
    decision, its encoded plan is parsed, and the plan is executed, either
    synchronously ([handle_streaming_zc]: a bounded user-space pump, or
    [sendfile]) or as segments for a reactor ([plan]). The linked decisions
    [core] and [decide] and the file system are parameters; the file system
    does not change between the checks and the open of one request, and a file
    may be shorter than its metadata said.

    C14: only files under the root are opened. C5: both executions put the
    same bytes on the wire. [parse_plan_exact]: the plan parser is the exact
    inverse of the documented encoding. *)
From S2P Require Import Prelude Bytes Lines Io.

Local Open Scope Z_scope.

(** ** [std::path] *)
Definition SLASH : Z := 47.

Inductive component :=
  | RootDir
  | CurDir
  | ParentDir
  | Normal (s : bytes).

#[export] Instance component_eq_dec : EqDecision component.
Proof. solve_decision. Defined.

Definition normal (s : bytes) : component :=
  if bytes_eqb s (bs "..") then ParentDir else Normal s.

Definition components (p : bytes) : list component :=
  let segs := split_on (Z.eqb SLASH) p in
  let body := normal <$> filter (fun s => s <> [] /\ s <> bs ".") segs in
  if starts_with [SLASH] p then RootDir :: body
  else match segs with
       | s :: _ => if bytes_eqb s (bs ".") then CurDir :: body else body
       | [] => body
       end.

(** [Path::starts_with] compares whole components. *)
Fixpoint comps_prefix (a b : list component) : bool :=
  match a, b with
  | [], _ => true
  | x :: a', y :: b' => bool_decide (x = y) && comps_prefix a' b'
  | _ :: _, [] => false
  end.

Definition path_starts_with (p base : bytes) : bool :=
  comps_prefix (components base) (components p).

Definition file_name (p : bytes) : option bytes :=
  match last (components p) with Some (Normal s) => Some s | _ => None end.

(** [PathBuf::push] and [Path::join]: an absolute argument replaces the path. *)
Definition path_push (p q : bytes) : bytes :=
  if starts_with [SLASH] q then q
  else match last p with
       | None => q
       | Some c => if c =? SLASH then p ++ q else p ++ [SLASH] ++ q
       end.

(** ** The file system *)
Record opened := Opened {
  handle : file;
  md : option (Z * option Z)     (* [len], and [modified] since the epoch *)
}.

Record filesystem := FileSystem {
  canonicalize : bytes -> option bytes;
  is_file : bytes -> bool;
  is_dir : bytes -> bool;
  open : bytes -> option opened
}.

(** ** Data *)
Record StaticRoot := mkStaticRoot {
  root : bytes;
  prefix : bytes;
  spa_index : option bytes
}.

Inductive PlanOut :=
  | Reply (resp : bytes)
  | Whole (head : bytes)
  | Window (off n : Z) (head : bytes)
  | Parts (head tail : bytes) (segs : list (bytes * Z * Z)).

Inductive Resolved :=
  | RFile (p : bytes)
  | Redirect
  | Missing.

Inductive StaticSeg :=
  | SegBuf (b : bytes)
  | SegWindow (off n : Z).

Record StaticPlan := mkStaticPlan {
  p_segs : list StaticSeg;
  p_file : option file;
  p_keepalive : bool;
  p_head : bytes
}.

Record StaticOutcome := mkStaticOutcome {
  o_head : bytes;
  o_bytes : Z;
  o_keepalive : bool
}.

Definition STREAM_CHUNK : Z := 64 * 1024.
Definition SENDFILE_MAX : Z := 0x7ffff000.

(** ** Frames and plans *)
Definition bit (b : bool) (i : Z) : Z := Z.shiftl (if b then 1 else 0) i.

Definition decide_frame (found redir ka : bool) (len mtime : Z) (name req : bytes) : bytes :=
  let flags := Z.lor (Z.lor (bit ka 0) (bit found 1)) (bit redir 2) in
  [flags] ++ to_be_bytes 8 len ++ to_be_bytes 8 mtime ++
  to_be_bytes 2 (wrap 16 (Z.of_nat (length name))) ++ name ++ req.

Definition be_u64 (b : bytes) : Z := if (length b =? 8)%nat then from_be_bytes b else 0.

(** [take]: the next [n] bytes and what is left. *)
Definition take_n (n : Z) (p : bytes) : option (bytes * bytes) :=
  if Z.of_nat (length p) <? n then None
  else Some (take (Z.to_nat n) p, drop (Z.to_nat n) p).

(** A big-endian length, then that many bytes. *)
Definition take_len (w : Z) (p : bytes) : option (bytes * bytes) :=
  '(l, p1) ← take_n w p; take_n (from_be_bytes l) p1.

Fixpoint parse_segs (count : nat) (p : bytes) : option (list (bytes * Z * Z) * bytes) :=
  match count with
  | O => Some ([], p)
  | S c =>
      '(pre, p1) ← take_len 2 p;
      '(off, p2) ← take_n 8 p1;
      '(n, p3) ← take_n 8 p2;
      '(rest, p4) ← parse_segs c p3;
      Some ((pre, be_u64 off, be_u64 n) :: rest, p4)
  end.

Definition parse_plan (out : bytes) : option PlanOut :=
  match out with
  | [] => None
  | tag :: rest =>
      if tag =? 1 then Some (Reply rest)
      else if tag =? 2 then Some (Whole rest)
      else if tag =? 3 then
        if (length rest <? 16)%nat then None
        else Some (Window (be_u64 (take 8 rest)) (be_u64 (slice 8 16 rest)) (drop 16 rest))
      else if tag =? 4 then
        '(head, p1) ← take_len 4 rest;
        '(tail, p2) ← take_len 2 p1;
        '(count, p3) ← take_n 2 p2;
        '(segs, p4) ← parse_segs (Z.to_nat (from_be_bytes count)) p3;
        match p4 with [] => Some (Parts head tail segs) | _ => None end
      else None
  end.

(** ** Targets *)
Definition request_line (req : bytes) : option (bytes * bytes) :=
  line_end ← windows_position CRLF req;
  match split_on (Z.eqb 32) (take line_end req) with
  | method :: target :: _ => Some (method, target)
  | _ => None
  end.

Definition target_path (target : bytes) : bytes :=
  take (default (length target) (position (fun b => (b =? 63) || (b =? 35)) target)) target.

Definition strip_prefix (pre l : bytes) : option bytes :=
  if starts_with pre l then Some (drop (length pre) l) else None.

Definition is_static_path (s : StaticRoot) (req : bytes) : bool :=
  match request_line req with
  | None => false
  | Some (method, target) =>
      match method with [] => false | _ => starts_with (prefix s) (target_path target) end
  end.

(** [str::trim_start_matches('/')]. *)
Fixpoint trim_slashes (l : bytes) : bytes :=
  match l with
  | b :: l' => if b =? SLASH then trim_slashes l' else l
  | [] => []
  end.

Section serving.
Context (fs : filesystem).

Definition from_env (env : string -> option bytes) : option StaticRoot :=
  r ← env "DRORB_STATIC_ROOT"%string;
  root ← canonicalize fs r;
  if negb (is_dir fs root) then None
  else
    let p0 := default (bs "/static/") (env "DRORB_STATIC_PREFIX"%string) in
    let p1 := if starts_with [SLASH] p0 then p0 else SLASH :: p0 in
    let p2 := if ends_with [SLASH] p1 then p1 else p1 ++ [SLASH] in
    let chosen :=
      match env "DRORB_STATIC_SPA_INDEX"%string with
      | Some s => Some s
      | None =>
          v0 ← env "DRORB_STATIC_SPA"%string;
          let v := str_trim v0 in
          if bytes_eqb v [] || eq_ignore_ascii_case v (bs "0") || eq_ignore_ascii_case v (bs "false")
          then None
          else if eq_ignore_ascii_case v (bs "1") || eq_ignore_ascii_case v (bs "true")
          then Some (bs "index.html")
          else Some v
      end in
    let spa :=
      s ← chosen;
      let s' := str_trim (trim_slashes s) in
      match s' with [] => None | _ => Some s' end in
    Some (mkStaticRoot root p2 spa).

Context (s : StaticRoot) (core : bytes -> option bytes).

(** The candidate's real path, when it is still under the root. *)
Definition real_under_root (candidate : bytes) : option bytes :=
  real ← canonicalize fs candidate;
  if path_starts_with real (root s) then Some real else None.

Definition resolve_with (target : bytes) : option bytes :=
  rel ← strip_prefix (prefix s) (target_path target);
  joined ← core rel;
  if negb (utf8_valid joined) then None
  else
    let candidate := match joined with [] => root s | _ => path_push (root s) joined end in
    real ← real_under_root candidate;
    if is_file fs real then Some real else None.

Definition spa_index_file : option bytes :=
  rel ← spa_index s;
  real ← real_under_root (path_push (root s) rel);
  if is_file fs real then Some real else None.

Definition resolve_primary (target : bytes) : Resolved :=
  let path := target_path target in
  match strip_prefix (prefix s) path with
  | None => Missing
  | Some rel =>
      match core rel with
      | None => Missing
      | Some joined =>
          if negb (utf8_valid joined) then Missing
          else
            let candidate := match joined with [] => root s | _ => path_push (root s) joined end in
            match real_under_root candidate with
            | None => Missing
            | Some real =>
                if is_file fs real then RFile real
                else if is_dir fs real then
                  if negb (ends_with [SLASH] path) then Redirect
                  else match real_under_root (path_push real (bs "index.html")) with
                       | Some ireal => if is_file fs ireal then RFile ireal else Missing
                       | None => Missing
                       end
                else Missing
            end
      end
  end.

Definition resolve_entity (target : bytes) : Resolved :=
  match resolve_primary target with
  | Missing => match spa_index_file with Some idx => RFile idx | None => Missing end
  | other => other
  end.

(** ** The boundary facts *)
Record facts := Facts {
  fa_file : option file;
  fa_len : Z;
  fa_mtime : Z;
  fa_name : bytes;
  fa_redir : bool
}.

Definition no_facts : facts := Facts None 0 0 [] false.

Definition gather (method target : bytes) : facts :=
  if bytes_eqb method (bs "GET") || bytes_eqb method (bs "HEAD") then
    match resolve_entity target with
    | RFile path =>
        match open fs path with
        | Some o =>
            match md o with
            | Some (len, modified) =>
                Facts (Some (handle o)) len (default 0 modified) (default [] (file_name path)) false
            | None => no_facts
            end
        | None => no_facts
        end
    | Redirect => Facts None 0 0 [] true
    | Missing => no_facts
    end
  else no_facts.

(** ** The pumps *)

(** [None]: out of fuel. *)
Fixpoint pump_loop (fuel : nat) (f : file) (c : sink) (remaining : Z) :
    option (result unit io_error * file * sink) :=
  match fuel with
  | O => None
  | S fuel' =>
      if remaining <=? 0 then Some (Ok (), f, c)
      else
        match read_file (Z.min remaining STREAM_CHUNK) f with
        | (Ok [], f') => Some (Err UnexpectedEof, f', snd (flush c))
        | (Ok got, f') =>
            match write_all got c with
            | (Ok _, c') => pump_loop fuel' f' c' (remaining - Z.of_nat (length got))
            | (Err e, c') => Some (Err e, f', c')
            end
        | (Err e, f') => Some (Err e, f', snd (flush c))
        end
  end.

Definition pump_window (f : file) (c : sink) (off n : Z) :
    option (result Z io_error * file * sink) :=
  match seek_start off f with
  | (Err e, f') => Some (Err e, f', c)
  | (Ok _, f') =>
      '(r, f'', c') ← pump_loop (S (Z.to_nat n)) f' c n;
      Some (match r with Ok _ => Ok n | Err e => Err e end, f'', c')
  end.

Fixpoint sendfile_loop (fuel : nat) (f : file) (c : sink) (offset remaining : Z) :
    option (result unit io_error * file * sink) :=
  match fuel with
  | O => None
  | S fuel' =>
      if remaining <=? 0 then Some (Ok (), f, c)
      else
        match sendfile offset (Z.min remaining SENDFILE_MAX) f c with
        | (Err Interrupted, f', c') => sendfile_loop fuel' f' c' offset remaining
        | (Err e, f', c') => Some (Err e, f', c')
        | (Ok sent, f', c') =>
            if sent =? 0 then Some (Err UnexpectedEof, f', c')
            else sendfile_loop fuel' f' c' (offset + sent) (remaining - sent)
        end
  end.

Definition sendfile_window (f : file) (c : sink) (off n : Z) :
    option (result unit io_error * file * sink) :=
  sendfile_loop (S (length (calls f) + Z.to_nat n)) f c (as_off_t off) n.

Definition send_window (zc : bool) (f : file) (c : sink) (off n : Z) :
    option (result Z io_error * file * sink) :=
  if zc then
    match flush c with
    | (Err e, c') => Some (Err e, f, c')
    | (Ok _, c') =>
        '(r, f', c'') ← sendfile_window f c' off n;
        Some (match r with Ok _ => Ok n | Err e => Err e end, f', c'')
    end
  else pump_window f c off n.

(** ** Serving a request *)
Context (decide : bytes -> option bytes).

Definition reply_head (resp : bytes) : bytes :=
  take (default (length resp) (head_end resp)) resp.

(** The prefaces and windows of a multipart plan. *)
Fixpoint send_parts (zc : bool) (segs : list (bytes * Z * Z)) (f : file) (c : sink) (total : Z) :
    option (result Z io_error * file * sink) :=
  match segs with
  | [] => Some (Ok total, f, c)
  | (pre, off, n) :: segs' =>
      match write_all pre c with
      | (Err e, c') => Some (Err e, f, c')
      | (Ok _, c') =>
          '(r, f', c'') ← send_window zc f c' off n;
          match r with
          | Err e => Some (Err e, f', c'')
          | Ok sent => send_parts zc segs' f' c'' (total + Z.of_nat (length pre) + sent)
          end
      end
  end.

(** The last steps of a served plan. *)
Definition finish (head : bytes) (ka : bool) (total : Z) (c : sink) :
    result StaticOutcome io_error * sink :=
  match flush c with
  | (Err e, c') => (Err e, c')
  | (Ok _, c') => (Ok (mkStaticOutcome head total ka), c')
  end.

(** Resolution, frame, decision and parse: the same in both entry points. *)
Definition decide_plan (req : bytes) (ka : bool) : result (facts * PlanOut) io_error :=
  match request_line req with
  | None => Err InvalidData
  | Some (method, target) =>
      let fa := gather method target in
      let found := bool_decide (is_Some (fa_file fa)) in
      match decide (decide_frame found (fa_redir fa) ka (fa_len fa) (fa_mtime fa) (fa_name fa) req) with
      | None => Err InvalidData
      | Some out =>
          match parse_plan out with
          | None => Err InvalidData
          | Some pl => Ok (fa, pl)
          end
      end
  end.

(** A head, one window of the file and a flush: [Whole] and [Window]. *)
Definition send_one (zc ka : bool) (head : bytes) (off n : Z) (fo : option file) (c : sink) :
    option (result StaticOutcome io_error * sink) :=
  match fo with
  | None => Some (Err InvalidData, c)
  | Some f =>
      match write_all head c with
      | (Err e, c1) => Some (Err e, c1)
      | (Ok _, c1) =>
          '(r, _, c2) ← send_window zc f c1 off n;
          match r with
          | Err e => Some (Err e, c2)
          | Ok sent => Some (finish head ka (Z.of_nat (length head) + sent) c2)
          end
      end
  end.

Definition handle_streaming_zc (req : bytes) (ka zc : bool) (c : sink) :
    option (result StaticOutcome io_error * sink) :=
  match decide_plan req ka with
  | Err e => Some (Err e, c)
  | Ok (fa, Reply resp) =>
      match write_all resp c with
      | (Err e, c1) => Some (Err e, c1)
      | (Ok _, c1) => Some (finish (reply_head resp) ka (Z.of_nat (length resp)) c1)
      end
  | Ok (fa, Whole head) => send_one zc ka head 0 (fa_len fa) (fa_file fa) c
  | Ok (fa, Window off n head) => send_one zc ka head off n (fa_file fa) c
  | Ok (fa, Parts head tail segs) =>
      match fa_file fa with
      | None => Some (Err InvalidData, c)
      | Some f =>
          match write_all head c with
          | (Err e, c1) => Some (Err e, c1)
          | (Ok _, c1) =>
              '(r, _, c2) ← send_parts zc segs f c1 (Z.of_nat (length head));
              match r with
              | Err e => Some (Err e, c2)
              | Ok total =>
                  match write_all tail c2 with
                  | (Err e, c3) => Some (Err e, c3)
                  | (Ok _, c3) => Some (finish head ka (total + Z.of_nat (length tail)) c3)
                  end
              end
          end
      end
  end.

Definition handle_streaming (req : bytes) (ka : bool) (c : sink) :=
  handle_streaming_zc req ka false c.

(** The buffer is a [Vec]: it takes everything. *)
Definition serve_tls_buf (vec_room : nat) (req : bytes) (ka : bool) : option (result bytes io_error) :=
  '(r, c) ← handle_streaming req ka (Sink [] vec_room []);
  Some (match r with Ok _ => Ok (wire c) | Err e => Err e end).

Definition file_segs (parts : list (bytes * Z * Z)) : list StaticSeg :=
  concat ((fun '(pre, off, n) => [SegBuf pre; SegWindow off n]) <$> parts).

Definition plan (req : bytes) (ka : bool) : result StaticPlan io_error :=
  match decide_plan req ka with
  | Err e => Err e
  | Ok (fa, Reply resp) => Ok (mkStaticPlan [SegBuf resp] None ka (reply_head resp))
  | Ok (fa, Whole head) =>
      match fa_file fa with
      | None => Err InvalidData
      | Some f => Ok (mkStaticPlan [SegBuf head; SegWindow 0 (fa_len fa)] (Some f) ka head)
      end
  | Ok (fa, Window off n head) =>
      match fa_file fa with
      | None => Err InvalidData
      | Some f => Ok (mkStaticPlan [SegBuf head; SegWindow off n] (Some f) ka head)
      end
  | Ok (fa, Parts head tail parts) =>
      match fa_file fa with
      | None => Err InvalidData
      | Some f =>
          Ok (mkStaticPlan ([SegBuf head] ++ file_segs parts ++ [SegBuf tail]) (Some f) ka head)
      end
  end.
End serving.

(** ** Confinement *)
Section confinement.
Context (fs : filesystem) (s : StaticRoot) (core : bytes -> option bytes).

(** What a target may be looked up as: what the linked resolution makes of it
    under the root, the index of that directory, or the fixed fallback. *)
Inductive candidate (target : bytes) : bytes -> Prop :=
  | CTarget rel joined :
      strip_prefix (prefix s) (target_path target) = Some rel -> core rel = Some joined ->
      candidate target (match joined with [] => root s | _ => path_push (root s) joined end)
  | CIndex dir real :
      candidate target dir -> canonicalize fs dir = Some real -> is_dir fs real = true -> ends_with [SLASH] (target_path target) = true ->
      candidate target (path_push real (bs "index.html"))
  | CFallback rel : spa_index s = Some rel -> candidate target (path_push (root s) rel).

(** The real path of a candidate, under the root, of a regular file. *)
Definition confined (target p : bytes) : Prop :=
  exists c, candidate target c /\ canonicalize fs c = Some p /\ path_starts_with p (root s) = true /\ is_file fs p = true.

Lemma real_under_root_Some c p : real_under_root fs s c = Some p -> canonicalize fs c = Some p /\ path_starts_with p (root s) = true.
Proof. unfold real_under_root. intros (q & Hq & H)%bind_Some. case_match; by simplify_eq. Qed.

Lemma spa_index_confined target p : spa_index_file fs s = Some p -> confined target p.
Proof.
  unfold spa_index_file. intros (rel & Hs & (real & Hr & Hf)%bind_Some)%bind_Some. case_match; simplify_eq.
  apply real_under_root_Some in Hr as [Hc Hp]. eexists. split_and!; [by apply CFallback|done..].
Qed.

Lemma resolve_primary_confined target p : resolve_primary fs s core target = RFile p -> confined target p.
Proof.
  unfold resolve_primary. destruct (strip_prefix _ _) as [rel|] eqn:Es; [|done]. destruct (core rel) as [joined|] eqn:Ec; [|done].
  destruct (utf8_valid joined); [|done]. cbn [negb]. pose proof (CTarget target rel joined Es Ec) as Hc.
  destruct (real_under_root _ _ _) as [real|] eqn:Er; [|done]. apply real_under_root_Some in Er as [Er Hp].
  destruct (is_file fs real) eqn:Ef; [intros [= <-]; by eexists|]. destruct (is_dir fs real) eqn:Ed; [|done].
  destruct (ends_with _ _) eqn:Ee; [|done]. cbn [negb]. destruct (real_under_root _ _ (path_push real _)) as [ireal|] eqn:Ei; [|done].
  apply real_under_root_Some in Ei as [Ei Hi]. destruct (is_file fs ireal) eqn:Efi; [|done]. intros [= <-].
  eexists. split_and!; [by eapply CIndex|done..].
Qed.

Lemma resolve_entity_confined target p : resolve_entity fs s core target = RFile p -> confined target p.
Proof.
  unfold resolve_entity. destruct (resolve_primary _ _ _ _) eqn:E; [|done|].
  - intros [= <-]. by apply resolve_primary_confined in E.
  - destruct (spa_index_file fs s) eqn:Ei; [|done]. intros [= <-]. by apply spa_index_confined.
Qed.

Lemma resolve_with_primary target p :
  resolve_with fs s core target = Some p <->
  resolve_primary fs s core target = RFile p /\
  exists rel joined, strip_prefix (prefix s) (target_path target) = Some rel /\ core rel = Some joined /\
    real_under_root fs s (match joined with [] => root s | _ => path_push (root s) joined end) = Some p.
Proof.
  unfold resolve_with, resolve_primary. destruct (strip_prefix _ _) as [rel|]; [|naive_solver]. cbn [mbind option_bind].
  destruct (core rel) as [joined|] eqn:Ec; [|naive_solver]. cbn [mbind option_bind].
  destruct (utf8_valid joined); [|naive_solver]. cbn [negb].
  destruct (real_under_root _ _ _) as [real|] eqn:Er; [|naive_solver]. cbn [mbind option_bind].
  destruct (is_file fs real) eqn:Ef; [naive_solver|]. split; [done|].
  intros (H & ? & ? & Hs1 & Hc & Hr). simplify_eq.
  repeat (case_match; try done); simplify_eq; congruence.
Qed.
End confinement.

(** ** The pumps *)

(** Whether a call that behaves like [cl] lets the execution go on; only the
    [sendfile] loop retries an interruption. *)
Definition benign (zc : bool) (cl : call) : Prop :=
  match cl with Short _ => True | Intr => zc = true | Failed _ => False end.

Lemma read_file_spec want f r f' :
  0 <= pos f -> 0 < want -> read_file want f = (r, f') ->
  data f' = data f /\ (exists cs, calls f = cs ++ calls f') /\
  match r with
  | Ok got =>
      got = window (data f) (pos f) (Z.of_nat (length got)) /\ Z.of_nat (length got) <= want /\
      pos f' = pos f + Z.of_nat (length got) /\ (got = [] <-> Z.of_nat (length (data f)) <= pos f)
  | Err _ => ~ Forall (benign false) (calls f)
  end.
Proof.
  intros Hp Hw. unfold read_file.
  assert (forall n cs, 0 < n <= want -> (exists cs0, calls f = cs0 ++ cs) ->
            let got := window (data f) (pos f) n in
            let f1 := File (data f) (pos f + Z.of_nat (length got)) cs in
            data f1 = data f /\ (exists cs0, calls f = cs0 ++ calls f1) /\
            got = window (data f) (pos f) (Z.of_nat (length got)) /\ Z.of_nat (length got) <= want /\
            pos f1 = pos f + Z.of_nat (length got) /\ (got = [] <-> Z.of_nat (length (data f)) <= pos f)) as Hm.
  { intros n cs Hn Hcs. cbn zeta. split_and!; [done|done|by apply window_got; lia| |done|by apply window_nil; lia].
    rewrite length_window by lia. lia. }
  destruct (calls f) as [|[k| |e] cs] eqn:E; intros [= <- <-].
  - apply Hm; [lia|by exists []].
  - apply Hm; [lia|by exists [Short k]].
  - split; [done|]. split; [by exists [Intr]|]. by inversion_clear 1.
  - split; [done|]. split; [by exists [Failed e]|]. by inversion_clear 1.
Qed.

(** What a [sendfile] of at most [want] bytes leaves. *)
Definition sendfile_post (offset want : Z) (f : file) (c : sink) (r : result Z io_error) (f' : file) (c' : sink) : Prop :=
  data f' = data f /\ (exists cs, calls f = cs ++ calls f') /\
  match r with
  | Ok sent =>
      let got := window (data f) offset sent in
      0 <= offset /\ sent = Z.of_nat (length got) /\ sent <= want /\ (length got <= room c)%nat /\
      c' = Sink (wire c ++ got) (room c - length got) (flushes c) /\
      (sent = 0 <-> Z.of_nat (length (data f)) <= offset)
  | Err e =>
      c' = c /\
      (e = Interrupted /\ (length (calls f') < length (calls f))%nat \/
       e <> Interrupted /\ (offset < 0 \/ room c = 0%nat \/ ~ Forall (benign true) (calls f)))
  end.

Lemma splice_out_spec offset n want f0 f c r f' c' :
  0 < n <= want -> data f = data f0 -> (exists cs, calls f0 = cs ++ calls f) ->
  splice_out offset n f c = (r, f', c') -> sendfile_post offset want f0 c r f' c'.
Proof.
  intros Hn Hd Hcs. unfold splice_out, sendfile_post. rewrite Hd.
  destruct (offset <? 0) eqn:Eo; zify_bool.
  { intros [= <- <- <-]. split_and!; try done. right. split; [done|by left]. }
  pose proof (window_nil (data f0) offset n ltac:(lia) ltac:(lia)) as Hnil.
  destruct (window (data f0) offset n) as [|b l] eqn:Ew.
  { intros [= <- <- <-]. simpl. split_and!; try done; [lia|lia|destruct c; simpl; by rewrite app_nil_r, Nat.sub_0_r|naive_solver]. }
  destruct (room c =? 0)%nat eqn:Er; [apply Nat.eqb_eq in Er|apply Nat.eqb_neq in Er]; intros [= <- <- <-].
  { split_and!; try done. right. split; [done|]. by right; left. }
  rewrite <- Ew. pose proof (take_window (data f0) offset n (room c) ltac:(lia) ltac:(lia)) as Hgot.
  assert (0 < length (take (room c) (window (data f0) offset n)))%nat as Hpos
    by (rewrite length_take, Ew; simpl; lia).
  pose proof (length_window (data f0) offset n). rewrite length_take in *.
  cbn zeta. rewrite <- Hgot, length_take. split_and!; try done; lia.
Qed.

Lemma sendfile_spec offset want f c r f' c' :
  0 < want -> sendfile offset want f c = (r, f', c') -> sendfile_post offset want f c r f' c'.
Proof.
  intros Hw. unfold sendfile. destruct (calls f) as [|[k| |e] cs] eqn:E.
  - apply splice_out_spec; [lia|done|by exists []].
  - apply splice_out_spec; [lia|done|by exists [Short k]; rewrite E].
  - intros [= <- <- <-]. unfold sendfile_post. rewrite E. simpl. split_and!; try done; [by exists [Intr]|].
    left. split; [done|lia].
  - intros [= <- <- <-]. unfold sendfile_post. rewrite E. simpl. split_and!; try done; [by exists [Failed e]|].
    destruct (decide (e = Interrupted)); [left|right]; (split; [done|]); [lia|].
    right; right. by inversion_clear 1.
Qed.

(** What sending the window [[off, off + n)] of [d] leaves: all of it, or an
    error after a prefix of it. *)
Definition sent_window (d : bytes) (off n : Z) (ok : bool) (c c' : sink) : Prop :=
  if ok then
    Z.of_nat (length (window d off n)) = n /\ (length (window d off n) <= room c)%nat /\
    wire c' = wire c ++ window d off n /\ room c' = (room c - length (window d off n))%nat
  else exists p, p `prefix_of` window d off n /\ wire c' = wire c ++ p.

Lemma sent_window_step d off n m ok c c1 c' :
  0 <= off -> 0 <= m <= n -> Z.of_nat (length (window d off m)) = m ->
  (length (window d off m) <= room c)%nat ->
  wire c1 = wire c ++ window d off m -> room c1 = (room c - length (window d off m))%nat ->
  sent_window d (off + m) (n - m) ok c1 c' -> sent_window d off n ok c c'.
Proof.
  intros Ho Hm Hl Hr Hw Hr1 H. unfold sent_window in *.
  replace n with (m + (n - m)) by lia. rewrite window_app by lia.
  destruct ok.
  - destruct H as (Hl' & Hr' & Hw' & Hr''). rewrite !length_app, Hw', Hw, <- app_assoc. split_and!; [lia|lia|done|lia].
  - destruct H as (p & Hp & Hw'). exists (window d off m ++ p). split; [by apply prefix_app|].
    by rewrite Hw', Hw, <- app_assoc.
Qed.

Lemma sent_window_none d off n c : sent_window d off n false c c.
Proof. exists []. split; [apply prefix_nil|by rewrite app_nil_r]. Qed.

Lemma sent_window_flush d off n c : sent_window d off n false c (snd (flush c)).
Proof.
  destruct (flush c) as [r c'] eqn:E. apply flush_wire in E as [H _]. simpl.
  exists []. split; [apply prefix_nil|by rewrite app_nil_r].
Qed.

Lemma sent_window_all d off n c c' :
  n = 0 -> wire c' = wire c -> room c' = room c -> sent_window d off n true c c'.
Proof. intros -> Hw Hr. unfold sent_window, window. simpl. rewrite app_nil_r. split_and!; [done|lia|done|lia]. Qed.

(** The conditions under which nothing can go wrong. *)
Definition window_calm (zc : bool) (f : file) (c : sink) (off n : Z) : Prop :=
  Forall (benign zc) (calls f) /\ off + n <= Z.of_nat (length (data f)) /\ n <= Z.of_nat (room c).

Lemma benign_suffix zc cs cs0 cs' : cs = cs0 ++ cs' -> Forall (benign zc) cs -> Forall (benign zc) cs'.
Proof. intros ->. rewrite Forall_app. naive_solver. Qed.

(** A round that read something. *)
Lemma pump_round fuel got f1 c n :
  got <> [] ->
  match (@Ok bytes io_error got, f1) with
  | (Ok [], f') => Some (Err UnexpectedEof, f', snd (flush c))
  | (Ok g, f') =>
      match write_all g c with
      | (Ok _, c') => pump_loop fuel f' c' (n - Z.of_nat (length g))
      | (Err e, c') => Some (Err e, f', c')
      end
  | (Err e, f') => Some (Err e, f', snd (flush c))
  end =
  match write_all got c with
  | (Ok _, c') => pump_loop fuel f1 c' (n - Z.of_nat (length got))
  | (Err e, c') => Some (Err e, f1, c')
  end.
Proof. by destruct got. Qed.

(** The loop ends, and sends the window or a prefix of it. *)
Lemma pump_loop_spec fuel : forall f c n,
  0 <= pos f -> 0 <= n -> (Z.to_nat n < fuel)%nat ->
  exists r f' c', pump_loop fuel f c n = Some (r, f', c') /\
    data f' = data f /\ (exists cs, calls f = cs ++ calls f') /\
    sent_window (data f) (pos f) n (is_ok r) c c' /\
    (is_ok r = true -> flushes c' = flushes c) /\
    (window_calm false f c (pos f) n -> is_ok r = true).
Proof.
  induction fuel as [|fuel IH]; intros f c n Hp Hn Hf; [lia|]. cbn [pump_loop].
  destruct (n <=? 0) eqn:En; zify_bool.
  { exists (Ok ()), f, c. split_and!; try done; [by exists []|apply sent_window_all; (done || lia)]. }
  destruct (read_file _ f) as [r0 f1] eqn:Er.
  apply read_file_spec in Er as (Hd & (cs & Hcs) & Hr); [|done|unfold STREAM_CHUNK; lia].
  destruct r0 as [got|e].
  2:{ eexists _, _, _. split; [done|]. split_and!; try done; [by exists cs|..].
      - apply sent_window_flush.
      - by intros (? & _). }
  destruct Hr as (Hg & Hlen & Hpos & Hnil). destruct (decide (got = [])) as [->|Hne].
  { eexists _, _, _. split; [done|]. split_and!; try done; [by exists cs|..].
    - apply sent_window_flush.
    - intros (_ & H & _). pose proof (proj1 Hnil eq_refl). lia. }
  assert (0 < length got)%nat by (destruct got; [done|simpl; lia]).
  rewrite (pump_round fuel got f1 c n Hne).
  assert (window (data f) (pos f) n = got ++ window (data f) (pos f1) (n - Z.of_nat (length got))) as Hwin.
  { rewrite Hpos. replace n with (Z.of_nat (length got) + (n - Z.of_nat (length got))) at 1 by lia.
    rewrite window_app by lia. by rewrite <- Hg. }
  destruct (write_all got c) as [rw c1] eqn:Ew. destruct rw as [u|e].
  - apply write_all_Ok in Ew as [Hroom ->].
    destruct (IH f1 (Sink (wire c ++ got) (room c - length got) (flushes c)) (n - Z.of_nat (length got)))
      as (r & f' & c' & -> & Hd' & (cs' & Hcs') & Hs & Hfl & Hcalm); [lia|lia|lia|].
    exists r, f', c'. split_and!; [done|congruence|exists (cs ++ cs'); by rewrite Hcs, Hcs', app_assoc|..].
    + rewrite Hd, Hpos in Hs. eapply sent_window_step; [..|exact Hs]; rewrite <- ?Hg; try done; lia.
    + done.
    + intros (Hb & Hl & Hrm). apply Hcalm. split_and!; [by eapply benign_suffix|rewrite Hd; lia|simpl; lia].
  - exists (Err e), f1, c1. split_and!; try done; [by exists cs|..].
    + destruct (write_all_wire _ _ _ _ Ew) as (p & Hpre & Hwp). exists p. split; [|done].
      rewrite Hwin. by apply prefix_app_r.
    + intros (_ & _ & Hrm). rewrite write_all_ok in Ew by lia. done.
Qed.

Lemma sendfile_round fuel e f' c' offset n :
  e <> Interrupted ->
  match (@Err Z io_error e, f', c') with
  | (Err Interrupted, f', c') => sendfile_loop fuel f' c' offset n
  | (Err e, f', c') => Some (Err e, f', c')
  | (Ok sent, f', c') =>
      if sent =? 0 then Some (Err UnexpectedEof, f', c')
      else sendfile_loop fuel f' c' (offset + sent) (n - sent)
  end = Some (Err e, f', c').
Proof. by destruct e. Qed.

Lemma sendfile_loop_spec fuel : forall f c offset n,
  0 <= n -> (length (calls f) + Z.to_nat n < fuel)%nat ->
  exists r f' c', sendfile_loop fuel f c offset n = Some (r, f', c') /\
    data f' = data f /\ (exists cs, calls f = cs ++ calls f') /\
    sent_window (data f) offset n (is_ok r) c c' /\ flushes c' = flushes c /\
    (offset < 0 -> wire c' = wire c) /\
    (0 <= offset -> window_calm true f c offset n -> is_ok r = true).
Proof.
  induction fuel as [|fuel IH]; intros f c offset n Hn Hf; [lia|]. cbn [sendfile_loop].
  destruct (n <=? 0) eqn:En; zify_bool.
  { exists (Ok ()), f, c. split_and!; try done; [by exists []|apply sent_window_all; (done || lia)]. }
  destruct (sendfile _ _ f c) as [[r0 f1] c1] eqn:Er.
  apply sendfile_spec in Er as (Hd & (cs & Hcs) & Hr); [|unfold SENDFILE_MAX; lia].
  destruct r0 as [sent|e].
  - destruct Hr as (Ho & Hs & Hw & Hroom & -> & Hz). destruct (sent =? 0) eqn:Ez; zify_bool.
    + eexists _, _, _. split; [done|]. split_and!; try done; [by exists cs|..].
      * exists (window (data f) offset sent). split; [apply window_prefix; lia|done].
      * lia.
      * intros _ (_ & Hl & _). pose proof (proj1 Hz Ez). lia.
    + set (c1 := Sink _ _ _).
      assert (length cs + length (calls f1) = length (calls f))%nat by (rewrite Hcs, length_app; lia).
      destruct (IH f1 c1 (offset + sent) (n - sent)) as (r & f' & c' & -> & Hd' & (cs' & Hcs') & Hs' & Hfl & Hneg & Hcalm); [lia|lia|].
      exists r, f', c'. split_and!; [done|congruence|exists (cs ++ cs'); by rewrite Hcs, Hcs', app_assoc|..|done|lia|].
      * rewrite Hd in Hs'. eapply sent_window_step; [..|exact Hs']; try done; lia.
      * intros _ (Hb & Hl & Hrm). apply Hcalm; [lia|]. split_and!; [by eapply benign_suffix|rewrite Hd; lia|simpl; lia].
  - destruct Hr as (-> & [[-> Hlt]|[Hne Hbad]]).
    + destruct (IH f1 c offset n) as (r & f' & c' & -> & Hd' & (cs' & Hcs') & Hs' & Hfl & Hneg & Hcalm); [lia|lia|].
      exists r, f', c'. split_and!; [done|congruence|exists (cs ++ cs'); by rewrite Hcs, Hcs', app_assoc|by rewrite <- Hd|done|done|].
      intros Ho (Hb & Hl & Hrm). apply Hcalm; [done|]. split_and!; [by eapply benign_suffix|by rewrite Hd|done].
    + rewrite (sendfile_round fuel e f1 c offset n Hne). exists (Err e), f1, c. split_and!; try done; [by exists cs|apply sent_window_none|].
      intros Ho (Hb & Hl & Hrm). destruct Hbad as [?|[?|?]]; [lia|lia|done].
Qed.

(** What [send_window] leaves. *)
Definition window_post (zc : bool) (f : file) (c : sink) (off n : Z)
    (r : result Z io_error) (f' : file) (c' : sink) : Prop :=
  data f' = data f /\ (exists cs, calls f = cs ++ calls f') /\
  sent_window (data f) off n (is_ok r) c c' /\ (forall m, r = Ok m -> m = n) /\
  (Forall (eq true) (flushes c) -> Forall (eq true) (flushes c') \/ is_ok r = false) /\
  (off < 2 ^ 63 -> window_calm zc f c off n -> Forall (eq true) (flushes c) -> is_ok r = true).

Lemma is_ok_const {A E} (x : A) (r : result unit E) :
  is_ok (match r with Ok _ => Ok x | Err e => Err e end) = is_ok r.
Proof. by destruct r. Qed.

Lemma pump_window_spec f c off n :
  fits 64 off -> 0 <= n ->
  exists r f' c', pump_window f c off n = Some (r, f', c') /\ window_post false f c off n r f' c'.
Proof.
  unfold fits. intros Hoff Hn.
  unfold pump_window, seek_start, as_off_t, window_post. destruct (off <? 2 ^ 63) eqn:Eo; zify_bool.
  - rewrite (proj2 (Z.ltb_ge off 0)) by lia.
    destruct (pump_loop_spec (S (Z.to_nat n)) (File (data f) off (calls f)) c n)
      as (r & f' & c' & -> & Hd & Hcs & Hs & Hfl & Hcalm); [simpl; lia|lia|lia|]. cbn [mbind option_bind].
    eexists _, f', c'. split; [done|]. rewrite is_ok_const.
    split_and!; [done|done|done|by destruct r; naive_solver| |].
    + intros Hc. destruct (is_ok r); [left; by rewrite Hfl|by right].
    + intros _ Hw _. by apply Hcalm.
  - rewrite (proj2 (Z.ltb_lt _ 0)) by lia. exists (Err InvalidInput), f, c.
    split_and!; try done; [by exists []|apply sent_window_none|by right|lia].
Qed.

(** At an offset the kernel takes for negative, only an empty window is sent. *)
Lemma sent_window_neg d off off' n ok c c0 c' :
  wire c0 = wire c -> room c0 = room c -> wire c' = wire c0 ->
  sent_window d off' n ok c0 c' -> sent_window d off n ok c c'.
Proof.
  intros Hw0 Hr0 Hw Hs. unfold sent_window in *. destruct ok.
  - destruct Hs as (Hl & Hr & Hw' & Hrr). rewrite Hw in Hw'.
    apply (f_equal length) in Hw'. rewrite length_app in Hw'. assert (n = 0) as -> by lia.
    unfold window in *. simpl in *. rewrite app_nil_r. split_and!; [done|lia|congruence|lia].
  - exists []. rewrite app_nil_r. split; [apply prefix_nil|congruence].
Qed.

Lemma send_window_spec zc f c off n :
  fits 64 off -> 0 <= n ->
  exists r f' c', send_window zc f c off n = Some (r, f', c') /\ window_post zc f c off n r f' c'.
Proof.
  intros Hoff Hn. destruct zc; [|by apply pump_window_spec].
  unfold send_window. destruct (flush c) as [rf c0] eqn:Ef.
  pose proof (flush_wire _ _ _ Ef) as [Hw0 Hr0]. destruct rf as [u|e].
  2:{ exists (Err e), f, c0. split; [done|]. split_and!; try done; [by exists []| |by right|].
      - exists []. split; [apply prefix_nil|by rewrite app_nil_r].
      - intros _ _ Hfl. destruct (flush_calm c Hfl) as (fl & Hf & _). congruence. }
  unfold sendfile_window.
  destruct (sendfile_loop_spec (S (length (calls f) + Z.to_nat n)) f c0 (as_off_t off) n)
    as (r & f' & c' & -> & Hd & Hcs & Hs & Hfl & Hneg & Hcalm); [lia|lia|]. cbn [mbind option_bind].
  eexists _, f', c'. split; [done|]. unfold window_post. rewrite is_ok_const.
  unfold fits, as_off_t in *.
  split_and!; [done|done| |by destruct r; naive_solver| |].
  - destruct (off <? 2 ^ 63) eqn:Eo; zify_bool.
    + unfold sent_window in *. rewrite <- Hw0, <- Hr0. done.
    + eapply sent_window_neg; [exact Hw0|exact Hr0|apply Hneg; lia|exact Hs].
  - intros Hc. left. rewrite Hfl. destruct (flush_calm c Hc) as (fl & Hf & Hfl'). rewrite Hf in Ef. by simplify_eq.
  - intros Ho (Hb & Hl & Hrm) _. rewrite (proj2 (Z.ltb_lt _ _) Ho) in Hcalm.
    apply Hcalm; [lia|]. split_and!; [done|done|lia].
Qed.

(** ** Executing a plan *)

(** The bytes a segment stands for, and whether the file still has them. *)
Definition seg_bytes (d : bytes) (sg : StaticSeg) : bytes :=
  match sg with SegBuf b => b | SegWindow off n => window d off n end.

Definition seg_whole (d : bytes) (sg : StaticSeg) : Prop :=
  match sg with SegBuf _ => True | SegWindow off n => Z.of_nat (length (window d off n)) = n end.

Definition seg_ok (sg : StaticSeg) : Prop :=
  match sg with SegBuf _ => True | SegWindow off n => fits 64 off /\ fits 64 n end.

Definition walk (d : bytes) (segs : list StaticSeg) : bytes := concat (seg_bytes d <$> segs).

(** The segments in order, as an executor takes them. *)
Fixpoint exec (zc : bool) (segs : list StaticSeg) (f : file) (c : sink) (total : Z) :
    option (result Z io_error * file * sink) :=
  match segs with
  | [] => Some (Ok total, f, c)
  | SegBuf b :: segs' =>
      match write_all b c with
      | (Err e, c') => Some (Err e, f, c')
      | (Ok _, c') => exec zc segs' f c' (total + Z.of_nat (length b))
      end
  | SegWindow off n :: segs' =>
      '(r, f', c') ← send_window zc f c off n;
      match r with
      | Err e => Some (Err e, f', c')
      | Ok sent => exec zc segs' f' c' (total + sent)
      end
  end.

(** What executing segments leaves: all their bytes, or an error after a
    prefix of them. *)
Definition sent_segs (d : bytes) (segs : list StaticSeg) (r : result Z io_error) (total : Z) (c c' : sink) : Prop :=
  match r with
  | Ok t =>
      Forall (seg_whole d) segs /\ wire c' = wire c ++ walk d segs /\
      t = total + Z.of_nat (length (walk d segs))
  | Err _ => exists p, p `prefix_of` walk d segs /\ wire c' = wire c ++ p
  end.

(** Nothing fails: no call of the file, no flush, and the client takes it all. *)
Definition exec_calm (zc : bool) (segs : list StaticSeg) (f : file) (c : sink) : Prop :=
  Forall (benign zc) (calls f) /\ Forall (eq true) (flushes c) /\
  Forall (fun sg => match sg with
                    | SegBuf _ => True
                    | SegWindow off n => off < 2 ^ 63 /\ off + n <= Z.of_nat (length (data f)) end) segs /\
  (length (walk (data f) segs) <= room c)%nat.

Lemma walk_cons d sg segs : walk d (sg :: segs) = seg_bytes d sg ++ walk d segs.
Proof. done. Qed.

Lemma walk_app d segs1 segs2 : walk d (segs1 ++ segs2) = walk d segs1 ++ walk d segs2.
Proof. unfold walk. by rewrite fmap_app, concat_app. Qed.

Lemma sent_segs_cons d sg segs r total c c1 c' :
  seg_whole d sg -> wire c1 = wire c ++ seg_bytes d sg ->
  sent_segs d segs r (total + Z.of_nat (length (seg_bytes d sg))) c1 c' ->
  sent_segs d (sg :: segs) r total c c'.
Proof.
  intros Hw Hc H. unfold sent_segs in *. rewrite walk_cons, length_app. destruct r as [t|e].
  - destruct H as (Hall & Hw' & ->). rewrite Hw', Hc, <- app_assoc. split_and!; [by constructor|done|lia].
  - destruct H as (p & Hp & Hw'). exists (seg_bytes d sg ++ p). rewrite Hw', Hc, <- app_assoc.
    split; [by apply prefix_app|done].
Qed.

Lemma exec_spec zc segs : forall f c total,
  Forall seg_ok segs ->
  exists r f' c', exec zc segs f c total = Some (r, f', c') /\
    sent_segs (data f) segs r total c c' /\
    (exec_calm zc segs f c -> is_ok r = true /\ Forall (eq true) (flushes c')).
Proof.
  induction segs as [|[b|off n] segs IH]; intros f c total Hok; cbn [exec].
  - exists (Ok total), f, c. split; [done|]. split; [|by intros (_ & ? & _)].
    unfold sent_segs, walk. simpl. rewrite app_nil_r. split_and!; [done|done|lia].
  - inversion_clear Hok as [|? ? _ Hok']. destruct (write_all b c) as [rw c1] eqn:Ew. destruct rw as [u|e].
    + apply write_all_Ok in Ew as [Hroom ->]. set (c1 := Sink _ _ _).
      destruct (IH f c1 (total + Z.of_nat (length b)) Hok') as (r & f' & c' & -> & Hs & Hcalm).
      exists r, f', c'. split; [done|]. split; [by eapply (sent_segs_cons _ (SegBuf b)); [| |exact Hs]|].
      intros (Hb & Hfl & Hseg & Hlen). apply Hcalm. inversion_clear Hseg.
      rewrite walk_cons, length_app in Hlen. split_and!; try done. simpl in *. lia.
    + exists (Err e), f, c1. split; [done|]. split.
      * destruct (write_all_wire _ _ _ _ Ew) as (p & Hp & Hw). exists p. split; [|done].
        rewrite walk_cons. by apply prefix_app_r.
      * intros (_ & _ & _ & Hlen). rewrite walk_cons, length_app in Hlen. simpl in Hlen.
        rewrite write_all_ok in Ew by lia. done.
  - apply Forall_cons in Hok as [[Hoff Hn] Hok'].
    destruct (send_window_spec zc f c off n Hoff) as (r0 & f1 & c1 & -> & Hd & (cs & Hcs) & Hs0 & Hr0 & Hfl0 & Hcalm0);
      [unfold fits in Hn; lia|]. cbn [mbind option_bind]. destruct r0 as [sent|e]; cbn [is_ok] in *.
    + rewrite (Hr0 sent eq_refl) in *. destruct Hs0 as (Hl & Hrm & Hw & Hrr).
      destruct (IH f1 c1 (total + n) Hok') as (r & f' & c' & -> & Hs & Hcalm). rewrite Hd in Hs.
      exists r, f', c'. split; [done|]. split.
      { eapply (sent_segs_cons _ (SegWindow off n)); [done|done|]. cbn [seg_bytes]. by rewrite Hl. }
      intros (Hb & Hfl & Hseg & Hlen). apply Hcalm. apply Forall_cons in Hseg as [[Ho Hoe] Hseg'].
      rewrite walk_cons, length_app in Hlen. cbn [seg_bytes] in Hlen. unfold exec_calm. rewrite Hd, Hrr.
      split_and!; [by eapply benign_suffix|by destruct (Hfl0 Hfl)|done|lia].
    + exists (Err e), f1, c1. split; [done|]. split.
      * destruct Hs0 as (p & Hp & Hw). exists p. split; [|done]. rewrite walk_cons. by apply prefix_app_r.
      * intros (Hb & Hfl & Hseg & Hlen). apply Forall_cons in Hseg as [[Ho Hoe] Hseg'].
        rewrite walk_cons, length_app in Hlen. cbn [seg_bytes] in Hlen. unfold fits in Hoff, Hn.
        exfalso. cut (false = true); [done|]. apply Hcalm0; [done| |done]. split_and!; [done|done|].
        pose proof (length_window (data f) off n). lia.
Qed.

Lemma exec_app zc segs1 : forall segs2 f c total,
  exec zc (segs1 ++ segs2) f c total =
    '(r, f', c') ← exec zc segs1 f c total;
    match r with Err e => Some (Err e, f', c') | Ok t => exec zc segs2 f' c' t end.
Proof.
  induction segs1 as [|[b|off n] segs1 IH]; intros segs2 f c total; cbn [exec app]; [done| |].
  - destruct (write_all b c) as [[u|e] c1]; [apply IH|done].
  - destruct (send_window zc f c off n) as [[[[sent|e] f1] c1]|]; cbn [mbind option_bind]; [apply IH|done|done].
Qed.

Lemma send_parts_exec zc segs : forall f c total,
  send_parts zc segs f c total = exec zc (file_segs segs) f c total.
Proof.
  induction segs as [|[[pre off] n] segs IH]; intros f c total; [done|].
  change (file_segs ((pre, off, n) :: segs)) with (SegBuf pre :: SegWindow off n :: file_segs segs).
  cbn [send_parts exec]. destruct (write_all pre c) as [[u|e] c1]; [|done].
  destruct (send_window zc f c1 off n) as [[[[sent|e] f1] c2]|]; cbn [mbind option_bind]; [apply IH|done|done].
Qed.

Section plans.
Context (fs : filesystem) (s : StaticRoot) (core decide : bytes -> option bytes).

Definition no_file : file := File [] 0 [].

(** The synchronous path is the execution of the linearized plan. *)
Lemma handle_exec req ka zc c :
  handle_streaming_zc fs s core decide req ka zc c =
    match plan fs s core decide req ka with
    | Err e => Some (Err e, c)
    | Ok p =>
        '(r, _, c') ← exec zc (p_segs p) (default no_file (p_file p)) c 0;
        match r with
        | Err e => Some (Err e, c')
        | Ok total => Some (finish (p_head p) ka total c')
        end
    end.
Proof.
  unfold handle_streaming_zc, plan, send_one. destruct (decide_plan _ _ _ _ _ _) as [[fa pl]|e]; [|done].
  destruct pl as [resp|head|off n head|head tail parts].
  1:{ cbn [p_segs exec]. by destruct (write_all resp c) as [[u|e] c1]. }
  all: destruct (fa_file fa) as [f|]; [|done]; cbn [p_segs p_file p_head default id app exec].
  all: destruct (write_all head c) as [[u|e] c1]; [|done]; rewrite ?Z.add_0_l.
  1,2: destruct (send_window _ _ _ _ _) as [[[[sent|e] f1] c2]|]; done.
  rewrite exec_app, <- send_parts_exec.
  destruct (send_parts _ _ _ _ _) as [[[[t|e] f1] c2]|]; [|done|done]. cbn [mbind option_bind exec].
  by destruct (write_all tail c2) as [[u2|e] c3].
Qed.

(** What the model takes of the linked decision and of the file system:
    bytes, and a [u64] length. *)
Record boundary_ok : Prop := {
  decide_bytes frame out : decide frame = Some out -> bytes_ok out;
  stat_fits p o len mt : open fs p = Some o -> md o = Some (len, mt) -> fits 64 len
}.
End plans.

Lemma be_u64_fits b : bytes_ok b -> fits 64 (be_u64 b).
Proof.
  intros H. unfold be_u64, fits. destruct (length b =? 8)%nat eqn:E; [|lia]. apply Nat.eqb_eq in E.
  unfold from_be_bytes. pose proof (from_le_bytes_bound (reverse b)) as Hb.
  rewrite length_reverse, E in Hb. apply Hb. by apply Forall_reverse.
Qed.

(** ** Plans on the wire *)

(** The documented encoding of a plan. *)
Definition encode_seg (sg : bytes * Z * Z) : bytes :=
  let '(pre, off, n) := sg in
  to_be_bytes 2 (Z.of_nat (length pre)) ++ pre ++ to_be_bytes 8 off ++ to_be_bytes 8 n.

Definition encode_plan (pl : PlanOut) : bytes :=
  match pl with
  | Reply resp => 1 :: resp
  | Whole head => 2 :: head
  | Window off n head => 3 :: to_be_bytes 8 off ++ to_be_bytes 8 n ++ head
  | Parts head tail segs =>
      4 :: to_be_bytes 4 (Z.of_nat (length head)) ++ head ++
      to_be_bytes 2 (Z.of_nat (length tail)) ++ tail ++
      to_be_bytes 2 (Z.of_nat (length segs)) ++ concat (encode_seg <$> segs)
  end.

Definition part_wf (sg : bytes * Z * Z) : Prop :=
  let '(pre, off, n) := sg in fits 16 (Z.of_nat (length pre)) /\ fits 64 off /\ fits 64 n.

Definition plan_wf (pl : PlanOut) : Prop :=
  match pl with
  | Reply _ | Whole _ => True
  | Window off n _ => fits 64 off /\ fits 64 n
  | Parts head tail segs =>
      fits 32 (Z.of_nat (length head)) /\ fits 16 (Z.of_nat (length tail)) /\
      fits 16 (Z.of_nat (length segs)) /\ Forall part_wf segs
  end.

Lemma to_from_be_bytes l : bytes_ok l -> to_be_bytes (length l) (from_be_bytes l) = l.
Proof.
  intros H. unfold to_be_bytes, from_be_bytes.
  rewrite <- (length_reverse l) at 1. rewrite to_from_le_bytes by (by apply Forall_reverse). apply reverse_involutive.
Qed.

Lemma to_from_be_len n l : bytes_ok l -> length l = n -> to_be_bytes n (from_be_bytes l) = l.
Proof. intros H <-. by apply to_from_be_bytes. Qed.

Lemma from_be_bytes_fits w l : bytes_ok l -> length l = w -> fits (8 * Z.of_nat w) (from_be_bytes l).
Proof.
  intros H <-. unfold fits, from_be_bytes. pose proof (from_le_bytes_bound (reverse l)) as Hb.
  rewrite length_reverse in Hb. rewrite Z.pow_mul_r by lia. change (2 ^ 8) with 256.
  apply Hb. by apply Forall_reverse.
Qed.

Lemma from_to_be w x : fits (8 * Z.of_nat w) x -> from_be_bytes (to_be_bytes w x) = x.
Proof.
  unfold fits. intros H. apply from_to_be_bytes. rewrite Z.pow_mul_r in H by lia. exact H.
Qed.

Lemma take_n_Some n p a b :
  0 <= n -> take_n n p = Some (a, b) <-> p = a ++ b /\ Z.of_nat (length a) = n.
Proof.
  intros Hn. unfold take_n. destruct (_ <? n) eqn:E; zify_bool.
  - split; [done|]. intros [-> Ha]. rewrite length_app in E. lia.
  - split.
    + intros [= <- <-]. rewrite take_drop, length_take. split; [done|lia].
    + intros [-> <-]. by rewrite Nat2Z.id, take_app_length, drop_app_length.
Qed.

Lemma take_u64 p x b :
  bytes_ok p ->
  (exists l, take_n 8 p = Some (l, b) /\ x = be_u64 l) <-> p = to_be_bytes 8 x ++ b /\ fits 64 x.
Proof.
  intros Hp. split.
  - intros (l & [-> Hl]%take_n_Some & ->); [|lia]. apply Forall_app in Hp as [Hl' _].
    unfold be_u64. rewrite (proj2 (Nat.eqb_eq _ _)) by lia.
    rewrite to_from_be_len by (done || lia). split; [done|]. apply (from_be_bytes_fits 8); [done|lia].
  - intros [-> Hx]. exists (to_be_bytes 8 x). rewrite take_n_Some, length_to_be_bytes by lia.
    split; [done|]. unfold be_u64. rewrite length_to_be_bytes. by rewrite (from_to_be 8).
Qed.

Lemma take_len_Some (w : nat) p a b :
  bytes_ok p ->
  take_len (Z.of_nat w) p = Some (a, b) <->
  p = to_be_bytes w (Z.of_nat (length a)) ++ a ++ b /\ fits (8 * Z.of_nat w) (Z.of_nat (length a)).
Proof.
  intros Hp. unfold take_len. rewrite bind_Some. split.
  - intros ([l p1] & H1 & H2). apply take_n_Some in H1 as [-> Hl]; [|lia]. apply Forall_app in Hp as [Hl' _].
    pose proof (from_be_bytes_fits w l Hl' ltac:(lia)) as Hf.
    apply take_n_Some in H2 as [-> Ha]; [|unfold fits in Hf; lia]. rewrite Ha. split; [|done].
    by rewrite to_from_be_len by (done || lia).
  - intros [-> Hf]. exists (to_be_bytes w (Z.of_nat (length a)), a ++ b).
    rewrite take_n_Some, length_to_be_bytes by lia. split; [done|].
    rewrite take_n_Some by (rewrite from_to_be by done; lia). by rewrite from_to_be.
Qed.

Lemma take_len_2 p a b :
  bytes_ok p ->
  take_len 2 p = Some (a, b) <->
  p = to_be_bytes 2 (Z.of_nat (length a)) ++ a ++ b /\ fits 16 (Z.of_nat (length a)).
Proof. apply (take_len_Some 2). Qed.

Lemma take_len_4 p a b :
  bytes_ok p ->
  take_len 4 p = Some (a, b) <->
  p = to_be_bytes 4 (Z.of_nat (length a)) ++ a ++ b /\ fits 32 (Z.of_nat (length a)).
Proof. apply (take_len_Some 4). Qed.

Lemma parse_segs_Some count : forall p segs rest,
  bytes_ok p ->
  parse_segs count p = Some (segs, rest) <->
  p = concat (encode_seg <$> segs) ++ rest /\ length segs = count /\ Forall part_wf segs.
Proof.
  induction count as [|c IH]; intros p segs rest Hp; cbn [parse_segs].
  { split; [intros [= <- <-]; done|]. intros (-> & Hl & _). by apply nil_length_inv in Hl as ->. }
  split.
  - intros ([pre p1] & H1 & ([off p2] & H2 & ([n p3] & H3 & ([segs0 p4] & H4 & H5)%bind_Some)%bind_Some)%bind_Some)%bind_Some.
    apply take_len_2 in H1 as [-> Hpre]; [|done].
    apply Forall_app in Hp as [_ Hp]. apply Forall_app in Hp as [_ Hp].
    destruct (proj1 (take_u64 p1 _ p2 Hp) (ex_intro _ off (conj H2 eq_refl))) as [-> Hoff].
    apply Forall_app in Hp as [_ Hp].
    destruct (proj1 (take_u64 p2 _ p3 Hp) (ex_intro _ n (conj H3 eq_refl))) as [-> Hn].
    apply Forall_app in Hp as [_ Hp]. apply IH in H4 as (-> & <- & Hw); [|done]. simplify_eq.
    split_and!; [|done|by constructor]. cbn [fmap list_fmap concat encode_seg]. by rewrite <- !app_assoc.
  - intros (-> & Hl & Hw). destruct segs as [|[[pre off] n] segs]; [done|]. injection Hl as Hl.
    apply Forall_cons in Hw as [(Hpre & Hoff & Hn) Hw].
    cbn [fmap list_fmap concat encode_seg] in *. rewrite <- !app_assoc in *.
    rewrite (proj2 (take_len_2 _ _ _ Hp) (conj eq_refl Hpre)). cbn [mbind option_bind].
    apply Forall_app in Hp as [_ Hp]. apply Forall_app in Hp as [_ Hp].
    destruct (proj2 (take_u64 _ off _ Hp) (conj eq_refl Hoff)) as (l1 & -> & ->). cbn [mbind option_bind].
    apply Forall_app in Hp as [_ Hp].
    destruct (proj2 (take_u64 _ n _ Hp) (conj eq_refl Hn)) as (l2 & -> & ->). cbn [mbind option_bind].
    apply Forall_app in Hp as [_ Hp]. by rewrite (proj2 (IH _ segs rest Hp)).
Qed.

Lemma cons_tail {A} (x : A) l l' : x :: l = x :: l' -> l = l'.
Proof. by intros [=]. Qed.

Lemma parse_parts_Some rest head tail segs :
  bytes_ok rest ->
  parse_plan (4 :: rest) = Some (Parts head tail segs) <->
  plan_wf (Parts head tail segs) /\ 4 :: rest = encode_plan (Parts head tail segs).
Proof.
  intros Hp. cbn [parse_plan encode_plan]. cbn [Z.eqb Pos.eqb]. split.
  - intros ([h p1] & H1 & ([t p2] & H2 & ([cnt p3] & H3 & ([sg p4] & H4 & H5)%bind_Some)%bind_Some)%bind_Some)%bind_Some.
    apply take_len_4 in H1 as [-> Hh]; [|done]. do 2 apply Forall_app in Hp as [_ Hp].
    apply take_len_2 in H2 as [-> Ht]; [|done]. do 2 apply Forall_app in Hp as [_ Hp].
    apply take_n_Some in H3 as [-> Hc]; [|lia]. apply Forall_app in Hp as [Hcnt Hp].
    pose proof (from_be_bytes_fits 2 cnt Hcnt ltac:(lia)) as Hf.
    apply parse_segs_Some in H4 as (-> & Hlen & Hw); [|done]. destruct p4; [|done]. simplify_eq.
    assert (from_be_bytes cnt = Z.of_nat (length segs)) as Hn by (unfold fits in Hf; lia).
    rewrite <- Hn. split; [by split_and!; rewrite <- ?Hn|]. rewrite app_nil_r. do 5 f_equal.
    by rewrite to_from_be_len by (done || lia).
  - intros [(Hh & Ht & Hn & Hw) Heq]. apply cons_tail in Heq as ->.
    rewrite (proj2 (take_len_4 _ _ _ Hp) (conj eq_refl Hh)). cbn [mbind option_bind].
    do 2 apply Forall_app in Hp as [_ Hp].
    rewrite (proj2 (take_len_2 _ _ _ Hp) (conj eq_refl Ht)). cbn [mbind option_bind].
    do 2 apply Forall_app in Hp as [_ Hp].
    rewrite (proj2 (take_n_Some 2 _ (to_be_bytes 2 (Z.of_nat (length segs))) _ ltac:(lia)))
      by (by rewrite length_to_be_bytes). cbn [mbind option_bind].
    apply Forall_app in Hp as [_ Hp]. rewrite (from_to_be 2), Nat2Z.id by done.
    rewrite (proj2 (parse_segs_Some _ _ segs [] Hp)) by (by rewrite app_nil_r). done.
Qed.

Lemma parse_window_Some rest off n head :
  bytes_ok rest ->
  parse_plan (3 :: rest) = Some (Window off n head) <->
  plan_wf (Window off n head) /\ 3 :: rest = encode_plan (Window off n head).
Proof.
  intros Hp. cbn [parse_plan encode_plan]. cbn [Z.eqb Pos.eqb]. split.
  - destruct (length rest <? 16)%nat eqn:E; [done|]. apply Nat.ltb_ge in E. intros [= <- <- <-].
    assert (rest = take 8 rest ++ slice 8 16 rest ++ drop 16 rest) as Hr.
    { unfold slice. change 16%nat with (8 + 8)%nat at 2. rewrite <- drop_drop, take_drop. by rewrite take_drop. }
    assert (length (take 8 rest) = 8%nat) as H8 by (rewrite length_take; lia).
    assert (length (slice 8 16 rest) = 8%nat) as H16 by (unfold slice; rewrite length_take, length_drop; lia).
    rewrite Hr in Hp. apply Forall_app in Hp as [Hb1 Hp]. apply Forall_app in Hp as [Hb2 _].
    split; [split; by apply be_u64_fits|]. f_equal. rewrite Hr at 1. unfold be_u64.
    rewrite H8, H16. cbn [Nat.eqb]. by rewrite !to_from_be_len.
  - intros [[Hoff Hn] Heq]. apply cons_tail in Heq as ->.
    assert (forall x, length (to_be_bytes 8 x) = 8%nat) as Hl by apply length_to_be_bytes.
    rewrite !length_app, !Hl. cbn [Nat.add Nat.ltb Nat.leb]. unfold slice, be_u64.
    rewrite !(take_app_length' (to_be_bytes 8 off)), !(drop_app_length' (to_be_bytes 8 off)) by (by rewrite Hl).
    cbn [Nat.sub]. rewrite !(take_app_length' (to_be_bytes 8 n)) by (by rewrite Hl).
    change 16%nat with (8 + 8)%nat. rewrite <- drop_drop, !(drop_app_length' (to_be_bytes 8 off)) by (by rewrite Hl).
    rewrite (drop_app_length' (to_be_bytes 8 n)), !Hl by (by rewrite Hl). cbn [Nat.eqb].
    by rewrite !(from_to_be 8).
Qed.

Lemma parse_plan_wf out pl : bytes_ok out -> parse_plan out = Some pl -> plan_wf pl.
Proof.
  intros Hb. destruct out as [|tag rest]; [done|]. apply Forall_cons in Hb as [_ Hb].
  destruct pl as [resp|head|off n head|head tail segs]; [done|done|..]; intros H.
  - destruct (decide (tag = 3)) as [->|]; [by apply parse_window_Some in H as [? _]|].
    exfalso. revert H. cbn [parse_plan]. repeat case_match; zify_bool; try done.
    intros Hp. repeat (apply bind_Some in Hp as ([? ?] & _ & Hp)). by case_match.
  - destruct (decide (tag = 4)) as [->|]; [by apply parse_parts_Some in H as [? _]|].
    exfalso. revert H. cbn [parse_plan]. by repeat case_match; zify_bool.
Qed.

(** Plans round-trip and nothing else parses: the parser accepts exactly
    the documented encodings of well-formed plans, and returns the plan that
    was encoded; every other output of the linked decision is refused. *)
Theorem parse_plan_exact out pl :
  bytes_ok out -> parse_plan out = Some pl <-> plan_wf pl /\ out = encode_plan pl.
Proof.
  intros Hb. destruct out as [|tag rest].
  { split; [done|]. intros [_ H]. by destruct pl. }
  apply Forall_cons in Hb as [_ Hb]. destruct pl as [resp|head|off n head|head tail segs].
  3: destruct (decide (tag = 3)) as [->|]; [by apply parse_window_Some|].
  4: destruct (decide (tag = 4)) as [->|]; [by apply parse_parts_Some|].
  all: cbn [parse_plan encode_plan plan_wf]; split;
    [intros H; repeat (case_match; zify_bool; try done); simplify_eq;
     repeat match goal with H : _ ≫= _ = Some _ |- _ => apply bind_Some in H as ([? ?] & _ & H) end;
     repeat case_match; by simplify_eq
    |intros [? ?]; by simplify_eq].
Qed.

(** ** The lane as a whole *)
Section lane.
Context (fs : filesystem) (s : StaticRoot) (core decide : bytes -> option bytes).

Lemma gather_file method target f :
  fa_file (gather fs s core method target) = Some f ->
  (method = bs "GET" \/ method = bs "HEAD") /\
  exists path o, confined fs s core target path /\ open fs path = Some o /\ handle o = f /\
    exists mt, md o = Some (fa_len (gather fs s core method target), mt).
Proof.
  unfold gather. destruct (bytes_eqb method (bs "GET") || _) eqn:Em; [|done].
  apply orb_true_iff in Em. rewrite !bytes_eqb_eq in Em.
  destruct (resolve_entity _ _ _ _) as [path| |] eqn:Er; [|done|done].
  apply resolve_entity_confined in Er. destruct (open fs path) as [o|] eqn:Eo; [|done].
  destruct (md o) as [[len mt]|] eqn:Emd; [|done]. cbn [fa_file fa_len]. intros [= <-]. eauto 10.
Qed.

Lemma decide_plan_Ok req ka fa pl :
  decide_plan fs s core decide req ka = Ok (fa, pl) ->
  (exists method target, request_line req = Some (method, target) /\ fa = gather fs s core method target) /\
  exists frame out, decide frame = Some out /\ parse_plan out = Some pl.
Proof.
  unfold decide_plan. destruct (request_line req) as [[m t]|]; [|done]. cbn zeta.
  destruct (decide _) as [out|] eqn:Ed; [|done]. destruct (parse_plan out) eqn:Ep; [|done].
  intros [= <- <-]. eauto 10.
Qed.

Lemma plan_segs_ok req ka p :
  boundary_ok fs decide -> plan fs s core decide req ka = Ok p -> Forall seg_ok (p_segs p).
Proof.
  intros [Hdec Hst]. unfold plan. destruct (decide_plan _ _ _ _ _ _) as [[fa pl]|] eqn:E; [|done].
  apply decide_plan_Ok in E as [(m & t & _ & ->) (frame & out & Hd & Hp)].
  apply parse_plan_wf in Hp; [|by eapply Hdec].
  destruct pl as [resp|head|off n head|head tail parts];
    [intros [= <-]; by repeat constructor|destruct (fa_file _) as [f|] eqn:Ef; [|done]; intros [= <-]..].
  - apply gather_file in Ef as (_ & path & o & _ & Ho & _ & mt & Hmd).
    pose proof (Hst _ _ _ _ Ho Hmd). by repeat (constructor; try done).
  - destruct Hp. by repeat (constructor; try done).
  - destruct Hp as (_ & _ & _ & Hw). cbn [p_segs]. constructor; [done|]. apply Forall_app. split; [|by repeat constructor].
    unfold file_segs. induction Hw as [|[[pre off] n] parts (Hpre & Hoff & Hn) _ IH]; [constructor|].
    cbn [fmap list_fmap concat app]. constructor; [done|]. by constructor.
Qed.
End lane.

(** What [std::fs::canonicalize] documents: an absolute path without [.] and
    [..], every symbolic link resolved, so that it is its own real path. *)
Definition canonical (fs : filesystem) : Prop :=
  forall p q, canonicalize fs p = Some q -> canonicalize fs q = Some q /\ exists names, components q = RootDir :: (Normal <$> names).

Lemma comps_prefix_app a b : comps_prefix a b = true -> exists rest, b = a ++ rest.
Proof.
  revert b. induction a as [|x a IH]; intros b H; [by exists b|]. destruct b as [|y b]; [done|]. cbn in H.
  apply andb_true_iff in H as [->%bool_decide_eq_true [rest ->]%IH]. by exists rest.
Qed.

Lemma normal_suffix (a rest : list component) names : a <> [] -> RootDir :: (Normal <$> names) = a ++ rest -> exists below, rest = Normal <$> below.
Proof.
  intros Ha H. destruct a as [|x a]; [done|]. injection H as <- H. revert a H Ha. induction names as [|n names IH]; intros a H Ha.
  - destruct a, rest; try done. by exists [].
  - destruct a as [|y a]; [by exists (n :: names)|]. injection H as _ H. by apply (IH a).
Qed.

(** C14. Confinement: for a root that was resolved when the lane was configured,
    and whatever the request, the linked resolution and the links of the file
    system: a plan (and so the synchronous path, which executes it) reads a file
    only for GET and HEAD, and it is the regular file at the real path of
    something the target may be looked up as, the SPA fallback and directory
    indexes included; that path is absolute, with no link and no [..] left in
    it, and lies below the root, component by component. *)
Theorem serves_only_under_root fs env s core decide req ka p f :
  canonical fs -> from_env fs env = Some s ->
  plan fs s core decide req ka = Ok p -> p_file p = Some f ->
  exists target, (request_line req = Some (bs "GET", target) \/ request_line req = Some (bs "HEAD", target)) /\
  exists c path o below, candidate fs s core target c /\ canonicalize fs c = Some path /\ canonicalize fs path = Some path /\
    components path = components (root s) ++ (Normal <$> below) /\ canonicalize fs (root s) = Some (root s) /\
    is_file fs path = true /\ open fs path = Some o /\ f = handle o.
Proof.
  intros Hcan Henv. unfold plan. destruct (decide_plan _ _ _ _ _ _) as [[fa pl]|] eqn:E; [|done].
  apply decide_plan_Ok in E as [(m & t & Hrl & ->) _]. intros H Hf.
  assert (fa_file (gather fs s core m t) = Some f) as Hg.
  { destruct pl; [by simplify_eq|destruct (fa_file _); by simplify_eq..]. }
  assert (exists r, canonicalize fs r = Some (root s)) as (r & Hroot).
  { unfold from_env in Henv. apply bind_Some in Henv as (r & _ & (root0 & Hr & Henv)%bind_Some). exists r. destruct (negb _); [done|]. by injection Henv as <-. }
  apply Hcan in Hroot as [Hroot (names & Hnames)].
  apply gather_file in Hg as (Hm & path & o & (c & Hc & Hcp & Hpre & Hfile) & Ho & Hh & _).
  exists t. split; [by destruct Hm as [-> | ->]; auto|]. destruct (Hcan _ _ Hcp) as [Hpp (pn & Hpn)].
  destruct (comps_prefix_app _ _ Hpre) as (rest & Hrest). rewrite Hpn in Hrest.
  destruct (normal_suffix (components (root s)) _ _ ltac:(by rewrite Hnames) Hrest) as (below & ->).
  exists c, path, o, below. rewrite Hpn. done.
Qed.

Lemma handle_spec fs s core decide req ka zc c :
  boundary_ok fs decide ->
  match plan fs s core decide req ka with
  | Err e => handle_streaming_zc fs s core decide req ka zc c = Some (Err e, c)
  | Ok p =>
      let f := default no_file (p_file p) in
      let body := walk (data f) (p_segs p) in
      exists r c', handle_streaming_zc fs s core decide req ka zc c = Some (r, c') /\
        match r with
        | Ok o =>
            Forall (seg_whole (data f)) (p_segs p) /\ wire c' = wire c ++ body /\
            o = mkStaticOutcome (p_head p) (Z.of_nat (length body)) ka
        | Err _ => exists sent, sent `prefix_of` body /\ wire c' = wire c ++ sent
        end /\
        (exec_calm zc (p_segs p) f c -> is_ok r = true)
  end.
Proof.
  intros Hb. rewrite handle_exec. destruct (plan _ _ _ _ _ _) as [p|e] eqn:E; [|done]. cbn zeta.
  apply plan_segs_ok in E as Hok; [|done]. set (f := default no_file (p_file p)).
  destruct (exec_spec zc (p_segs p) f c 0 Hok) as (r & f' & c' & -> & Hs & Hcalm). cbn [mbind option_bind].
  destruct r as [t|e].
  2:{ eexists _, _. split; [done|]. split; [done|]. intros Hc. by destruct (Hcalm Hc). }
  destruct Hs as (Hall & Hw & ->). unfold finish. destruct (flush c') as [rf c2] eqn:Ef.
  pose proof (flush_wire _ _ _ Ef) as [Hw2 _]. destruct rf as [u|e]; eexists _, _; (split; [done|]).
  - split; [|done]. split_and!; [done|by rewrite Hw2|done].
  - split; [eexists; split; [done|by rewrite Hw2]|]. intros Hc. destruct (Hcalm Hc) as [_ Hfl].
    destruct (flush_calm c' Hfl) as (fl & Hf & _). congruence.
Qed.

(** A plan starts with the head it records. *)
Lemma plan_head_first fs s core decide req ka p :
  plan fs s core decide req ka = Ok p ->
  p_head p `prefix_of` walk (data (default no_file (p_file p))) (p_segs p).
Proof.
  unfold plan. destruct (decide_plan _ _ _ _ _ _) as [[fa pl]|]; [|done]. intros H.
  destruct pl as [resp|head|off n head|head tail parts]; [|destruct (fa_file fa); [|done]..]; injection H as <-;
    unfold walk; cbn [p_head p_file p_segs fmap list_fmap concat seg_bytes app]; [|by apply prefix_app_r..].
  rewrite app_nil_r. apply prefix_take.
Qed.

(** C5. Execution: the request is answered without panic or divergence, and
    the synchronous path, whether it pumps through a buffer or uses [sendfile],
    writes exactly what walking the segments of [plan] gives, reporting its
    length; when it fails, for a file that shrank or a client that went away,
    what was sent is a prefix of that and the result is an error, never a short
    success; and when no call fails, it succeeds. *)
Theorem handle_walks_plan fs s core decide req ka zc c :
  boundary_ok fs decide ->
  match plan fs s core decide req ka with
  | Err e => handle_streaming_zc fs s core decide req ka zc c = Some (Err e, c)
  | Ok p =>
      let f := default no_file (p_file p) in
      let body := walk (data f) (p_segs p) in
      exists r c', handle_streaming_zc fs s core decide req ka zc c = Some (r, c') /\
        match r with
        | Ok o =>
            Forall (seg_whole (data f)) (p_segs p) /\ wire c' = wire c ++ body /\
            o = mkStaticOutcome (p_head p) (Z.of_nat (length body)) ka
        | Err _ => exists sent, sent `prefix_of` body /\ wire c' = wire c ++ sent
        end /\
        (exec_calm zc (p_segs p) f c -> is_ok r = true)
  end.
Proof. apply handle_spec. Qed.

(** ** Concrete inputs *)
Definition demo_fs : filesystem :=
  FileSystem
    (fun p => if bytes_eqb p (bs "/srv/www/link") || bytes_eqb p (bs "/etc/passwd") then Some (bs "/etc/passwd")
              else if bytes_eqb p (bs "/srv/www") || bytes_eqb p (bs "www") then Some (bs "/srv/www")
              else if bytes_eqb p (bs "/srv/www2") then Some (bs "/srv/www2")
              else if bytes_eqb p (bs "/srv/www/a.txt") then Some p
              else None)
    (fun p => negb (bytes_eqb p (bs "/srv/www")))
    (fun p => bytes_eqb p (bs "/srv/www"))
    (fun _ => Some (Opened (File (bs "0123456789") 0 [Short 0; Intr; Short 1]) (Some (10, Some 7)))).

Definition demo_root : StaticRoot := mkStaticRoot (bs "/srv/www") (bs "/static/") None.

Definition demo_decide (_ : bytes) : option bytes :=
  Some (encode_plan (Parts (bs "HEAD") (bs "END") [(bs "a", 1, 3); (bs "b", 6, 4)])).

Definition demo_req : bytes := bs "GET /static/a.txt?x HTTP/1.1" ++ CRLFCRLF.

Definition demo_plan : result StaticPlan io_error := plan demo_fs demo_root Some demo_decide demo_req true.

(** A link out of the root, a sibling whose name extends the root's, and an
    absolute path are not served. *)
Example escapes_missing :
  resolve_primary demo_fs demo_root Some (bs "/static/link") = Missing /\
  resolve_primary demo_fs demo_root (fun _ => Some (bs "/srv/www2")) (bs "/static/x") = Missing /\
  resolve_primary demo_fs demo_root Some (bs "/static/a.txt#f") = RFile (bs "/srv/www/a.txt").
Proof. vm_compute. done. Qed.

Example sendfile_run :
  (snd <$> handle_streaming_zc demo_fs demo_root Some demo_decide demo_req true true (Sink [] 99 [])) =
  Some (Sink (bs "HEADa123b6789END") 83 []).
Proof. vm_compute. done. Qed.

Lemma demo_boundary : boundary_ok demo_fs demo_decide.
Proof.
  split.
  - intros frame out [= <-]. by vm_compute; repeat constructor.
  - intros p o len mt [= <-] [= <- _]. by vm_compute.
Defined.

Definition demo_env (v : string) : option bytes := if String.eqb v "DRORB_STATIC_ROOT" then Some (bs "www") else None.

Lemma demo_canonical : canonical demo_fs.
Proof.
  intros p q Hp. change (canonicalize demo_fs p) with
    (if bytes_eqb p (bs "/srv/www/link") || bytes_eqb p (bs "/etc/passwd") then Some (bs "/etc/passwd")
     else if bytes_eqb p (bs "/srv/www") || bytes_eqb p (bs "www") then Some (bs "/srv/www")
     else if bytes_eqb p (bs "/srv/www2") then Some (bs "/srv/www2")
     else if bytes_eqb p (bs "/srv/www/a.txt") then Some p else None) in Hp.
  destruct (_ || _); [injection Hp as <-; split; [reflexivity|by exists [bs "etc"; bs "passwd"]]|].
  destruct (_ || _); [injection Hp as <-; split; [reflexivity|by exists [bs "srv"; bs "www"]]|].
  destruct (bytes_eqb p (bs "/srv/www2")); [injection Hp as <-; split; [reflexivity|by exists [bs "srv"; bs "www2"]]|].
  destruct (bytes_eqb p (bs "/srv/www/a.txt")) eqn:E; [|done]. apply bytes_eqb_eq in E as ->. injection Hp as <-. split; [reflexivity|by exists [bs "srv"; bs "www"; bs "a.txt"]].
Defined.

Lemma serves_only_under_root_witness :
  exists path o below, components path = components (bs "/srv/www") ++ (Normal <$> below) /\ is_file demo_fs path = true /\
    open demo_fs path = Some o /\ File (bs "0123456789") 0 [Short 0; Intr; Short 1] = handle o.
Proof.
  destruct demo_plan as [p|e] eqn:E; [|vm_compute in E; discriminate].
  destruct (serves_only_under_root demo_fs demo_env demo_root Some demo_decide demo_req true p (File (bs "0123456789") 0 [Short 0; Intr; Short 1]) demo_canonical ltac:(vm_compute; reflexivity) E)
    as (t & _ & c & path & o & below & _ & _ & _ & Hb & _ & Hf & Ho & Hh).
  - vm_compute in E. injection E as <-. reflexivity.
  - exists path, o, below. done.
Defined.

Lemma handle_walks_plan_witness :
  exists r c', handle_streaming_zc demo_fs demo_root Some demo_decide demo_req true true (Sink [] 99 []) = Some (r, c') /\
    is_ok r = true.
Proof.
  pose proof (handle_walks_plan demo_fs demo_root Some demo_decide demo_req true true (Sink [] 99 []) demo_boundary) as H.
  change (plan demo_fs demo_root Some demo_decide demo_req true) with demo_plan in H.
  destruct demo_plan as [p|e] eqn:E; [|vm_compute in E; discriminate].
  destruct H as (r & c' & Hh & _ & Hc). exists r, c'. split; [exact Hh|]. apply Hc.
  vm_compute in E. injection E as <-. split_and!; [by repeat constructor|by constructor| |by vm_compute; lia].
  repeat (apply Forall_cons_2 || apply Forall_nil_2); first [exact I | split; vm_compute; congruence].
Defined.

Lemma parse_plan_exact_witness :
  parse_plan (encode_plan (Window 5 9 (bs "x"))) = Some (Window 5 9 (bs "x")).
Proof.
  apply parse_plan_exact; [by vm_compute; repeat constructor|]. split; [|reflexivity].
  split; split; vm_compute; congruence.
Defined.
