(* ===== verification/Chunked.v ===== *)
(** * The chunked-body parser ([proxy_dial.rs], [ChunkedParser])

    The proxy relays a chunked body verbatim and runs this parser over a copy to
    see where it ends. [advance] is the source's index loop, with what is left
    of the block for the index; the chunk size is a [usize], whose overflow
    panics when the build checks arithmetic and wraps when it does not
    ([checks]). [feed1] is the byte-at-a-time reference; the loop refines it, so
    reads may cut the stream anywhere. *)
From S2P Require Import Prelude Bytes Lines.

Local Open Scope Z_scope.

Inductive ChunkSt :=
  | Size
  | SizeExt
  | SizeCr
  | CData (n : Z)
  | DataCr
  | DataLf
  | TrailerStart
  | TrailerLine
  | TrailerLineCr
  | TrailerFinalCr
  | CDone.

#[export] Instance ChunkSt_eq_dec : EqDecision ChunkSt.
Proof. solve_decision. Defined.

Record ChunkedParser := mkChunked { st : ChunkSt; size : Z }.

Definition chunked_new : ChunkedParser := mkChunked Size 0.

Definition hex_digit (b : Z) : option Z :=
  if (48 <=? b) && (b <=? 57) then Some (b - 48)
  else if (97 <=? b) && (b <=? 102) then Some (b - 97 + 10)
  else if (65 <=? b) && (b <=? 70) then Some (b - 65 + 10)
  else None.

Definition is_done (p : ChunkedParser) : bool := bool_decide (st p = CDone).

Section parser.
Context (checks : bool).

(** [size * 16 + digit] at [usize]. *)
Definition size_push (size d : Z) : option Z :=
  let v := size * 16 + d in
  if v <? 2 ^ USIZE then Some v else if checks then None else Some (wrap USIZE v).

(** One turn of the loop on a nonempty rest: the parser, how many bytes were
    consumed, and whether the call returns [true]. *)
Definition turn (p : ChunkedParser) (b : Z) (avail : Z) : option (ChunkedParser * Z * bool) :=
  match st p with
  | Size =>
      match hex_digit b with
      | Some d => v ← size_push (size p) d; Some (mkChunked Size v, 1, false)
      | None =>
          if b =? CR then Some (mkChunked SizeCr (size p), 1, false)
          else if b =? 59 then Some (mkChunked SizeExt (size p), 1, false)
          else Some (p, 1, false)
      end
  | SizeExt => Some (mkChunked (if b =? CR then SizeCr else SizeExt) (size p), 1, false)
  | SizeCr => Some (mkChunked (if size p =? 0 then TrailerStart else CData (size p)) (size p), 1, false)
  | CData n =>
      let taken := Z.min n avail in
      let left := n - taken in
      Some (mkChunked (if left =? 0 then DataCr else CData left) (size p), taken, false)
  | DataCr => Some (mkChunked DataLf (size p), 1, false)
  | DataLf => Some (mkChunked Size 0, 1, false)
  | TrailerStart =>
      if b =? CR then Some (mkChunked TrailerFinalCr (size p), 1, false)
      else Some (mkChunked TrailerLine (size p), 0, false)
  | TrailerLine => Some (mkChunked (if b =? CR then TrailerLineCr else TrailerLine) (size p), 1, false)
  | TrailerLineCr => Some (mkChunked TrailerStart (size p), 1, false)
  | TrailerFinalCr => Some (mkChunked CDone (size p), 0, true)
  | CDone => Some (p, 0, true)
  end.

(** [None]: a panic, or out of fuel. *)
Fixpoint advance_loop (fuel : nat) (p : ChunkedParser) (rest : bytes) : option (ChunkedParser * bool) :=
  match fuel with
  | O => None
  | S f =>
      match rest with
      | [] => Some (p, is_done p)
      | b :: _ =>
          '(p', n, stop) ← turn p b (Z.of_nat (length rest));
          if stop : bool then Some (p', true) else advance_loop f p' (drop (Z.to_nat n) rest)
      end
  end.

Definition advance (p : ChunkedParser) (block : bytes) : option (ChunkedParser * bool) :=
  advance_loop (S (2 * length block)) p block.

(** ** The byte-at-a-time reference *)
Definition feed1 (p : ChunkedParser) (b : Z) : option ChunkedParser :=
  match st p with
  | CData n => Some (mkChunked (if n - 1 =? 0 then DataCr else CData (n - 1)) (size p))
  | TrailerStart => Some (mkChunked (if b =? CR then TrailerFinalCr else TrailerLine) (size p))
  | TrailerFinalCr => Some (mkChunked CDone (size p))
  | CDone => Some p
  | _ => '(p', _, _) ← turn p b 1; Some p'
  end.

Fixpoint feeds (p : ChunkedParser) (l : bytes) : option ChunkedParser :=
  match l with
  | [] => Some p
  | b :: l' => p' ← feed1 p b; feeds p' l'
  end.

(** A chunk being read has bytes left. *)
Definition parser_ok (p : ChunkedParser) : Prop :=
  0 <= size p /\ match st p with CData n => 0 < n | _ => True end.

Lemma feeds_app l1 : forall p l2, feeds p (l1 ++ l2) = p' ← feeds p l1; feeds p' l2.
Proof.
  induction l1 as [|b l1 IH]; intros p l2; [done|]. cbn [app feeds].
  destruct (feed1 p b) as [p'|]; cbn [mbind option_bind]; [apply IH|done].
Qed.

Lemma feeds_done l : forall p, st p = CDone -> feeds p l = Some p.
Proof.
  induction l as [|b l IH]; intros p Hp; [done|]. cbn [feeds]. unfold feed1. rewrite Hp. by apply IH.
Qed.

Lemma hex_digit_nonneg b d : hex_digit b = Some d -> 0 <= d < 16.
Proof. unfold hex_digit. intros H. repeat case_match; simplify_eq; rewrite ?andb_true_iff in *; zify_bool; lia. Qed.

Lemma size_push_nonneg s d v : 0 <= s -> 0 <= d -> size_push s d = Some v -> 0 <= v < 2 ^ USIZE.
Proof.
  intros Hs Hd. unfold size_push. repeat case_match; intros; simplify_eq; zify_bool; [lia|].
  apply wrap_fits. done.
Qed.

Lemma feed1_ok p b p' : parser_ok p -> feed1 p b = Some p' -> parser_ok p'.
Proof.
  intros [Hs Hd]. destruct p as [[] s]; unfold feed1, parser_ok in *; cbn [st size turn] in *.
  - destruct (hex_digit b) as [d|] eqn:E.
    + destruct (size_push s d) as [v|] eqn:Ev; cbn [mbind option_bind]; [|done]. intros [= <-].
      apply hex_digit_nonneg in E. apply size_push_nonneg in Ev; [|lia..]. simpl. lia.
    + destruct (b =? CR); [|destruct (b =? 59)]; intros [= <-]; by simpl.
  - intros [= <-]. by destruct (b =? CR).
  - intros [= <-]. destruct (s =? 0) eqn:E; zify_bool; simpl; lia.
  - intros [= <-]. destruct (n - 1 =? 0) eqn:E; zify_bool; simpl; lia.
  - by intros [= <-].
  - intros [= <-]. simpl. lia.
  - intros [= <-]. by destruct (b =? CR).
  - intros [= <-]. by destruct (b =? CR).
  - by intros [= <-].
  - by intros [= <-].
  - by intros [= <-].
Qed.

(** A run of data bytes is skipped at once. *)
Lemma feeds_data l : forall n s,
  Z.of_nat (length l) <= n -> 0 < n ->
  feeds (mkChunked (CData n) s) l =
    Some (mkChunked (if n - Z.of_nat (length l) =? 0 then DataCr else CData (n - Z.of_nat (length l))) s).
Proof.
  induction l as [|b l IH]; intros n s Hl Hn.
  { cbn [feeds length]. rewrite (proj2 (Z.eqb_neq _ _)) by lia. by rewrite Z.sub_0_r. }
  cbn [feeds length] in *. unfold feed1. cbn [st size mbind option_bind].
  destruct (n - 1 =? 0) eqn:E; zify_bool.
  - destruct l; [|simpl in Hl; lia]. cbn [feeds length]. by rewrite (proj2 (Z.eqb_eq _ _)) by lia.
  - rewrite IH by lia. by replace (n - 1 - Z.of_nat (length l)) with (n - Z.of_nat (S (length l))) by lia.
Qed.

(** A turn that consumes one byte is a step of the reference. *)
Lemma turn_feed1 p b avail :
  match st p with CData _ | TrailerStart | TrailerFinalCr | CDone => False | _ => True end ->
  turn p b avail = p' ← feed1 p b; Some (p', 1, false).
Proof.
  destruct p as [[] s]; cbn [st]; try done; intros _; unfold feed1; cbn [turn st size]; try done.
  destruct (hex_digit b) as [d|]; [by destruct (size_push s d)|]. by destruct (b =? CR), (b =? 59).
Qed.

(** The loop refines the reference, and its fuel is enough. *)
Lemma advance_loop_feeds fuel : forall p rest,
  parser_ok p -> (2 * length rest < fuel)%nat ->
  advance_loop fuel p rest = p' ← feeds p rest; Some (p', is_done p').
Proof.
  induction (lt_wf fuel) as [fuel _ IH]. intros p rest Hok Hf.
  destruct fuel as [|fuel]; [lia|]. cbn [advance_loop]. destruct rest as [|b rest]; [done|].
  assert (forall p1, feed1 p b = Some p1 -> advance_loop fuel p1 rest = p' ← feeds p1 rest; Some (p', is_done p')) as Hnext.
  { intros p1 H1. apply IH; [lia|by eapply feed1_ok|cbn [length] in Hf; lia]. }
  destruct (st p) eqn:Est.
  4:{ destruct p as [st0 s0]. cbn [st] in Est. subst st0. destruct Hok as [Hs Hn]. cbn [st size] in Hs, Hn.
      cbn [turn st size mbind option_bind]. set (k := Z.min n (Z.of_nat (length (b :: rest)))).
      assert (0 < k) by (unfold k; cbn [length]; lia). assert (Z.to_nat k <= length (b :: rest))%nat by lia.
      rewrite <- (take_drop (Z.to_nat k) (b :: rest)) at 2. rewrite feeds_app.
      assert (Z.of_nat (length (take (Z.to_nat k) (b :: rest))) = k) as Hk by (rewrite length_take; lia).
      rewrite feeds_data by lia. rewrite Hk. cbn [mbind option_bind]. apply IH; [lia| |rewrite length_drop; lia].
      unfold parser_ok in *. destruct (n - k =? 0) eqn:E; zify_bool; cbn [st size]; split; lia || done. }
  6:{ cbn [feeds]. unfold turn. rewrite Est. unfold feed1 at 1. rewrite Est.
      destruct (b =? CR) eqn:Eb; cbn [mbind option_bind].
      - change (drop (Z.to_nat 1) (b :: rest)) with rest. apply Hnext. unfold feed1. rewrite Est. by rewrite Eb.
      - destruct fuel as [|fuel]; [cbn [length] in Hf; lia|].
        change (drop (Z.to_nat 0) (b :: rest)) with (b :: rest). cbn [advance_loop turn st size]. rewrite Eb.
        cbn [mbind option_bind]. change (drop (Z.to_nat 1) (b :: rest)) with rest.
        apply IH; [lia|by destruct Hok|cbn [length] in Hf; lia]. }
  8:{ cbn [feeds]. unfold turn. rewrite Est. unfold feed1. rewrite Est. cbn [mbind option_bind].
      by rewrite feeds_done. }
  8:{ cbn [feeds]. unfold turn. rewrite Est. unfold feed1. rewrite Est. cbn [mbind option_bind].
      rewrite feeds_done by done. cbn [mbind option_bind]. unfold is_done. by rewrite Est. }
  all: cbn [feeds]; rewrite turn_feed1 by (by rewrite Est);
    destruct (feed1 p b) as [p1|]; cbn [mbind option_bind]; [|done];
    change (drop (Z.to_nat 1) (b :: rest)) with rest; by apply Hnext.
Qed.

Lemma advance_feeds p block :
  parser_ok p -> advance p block = p' ← feeds p block; Some (p', is_done p').
Proof. intros H. apply advance_loop_feeds; [done|lia]. Qed.
End parser.

(** ** Chunked bodies *)
Record chunk := mkChunk { digits : bytes; ext : bytes; payload : bytes }.

Definition hex_value (s : Z) (l : bytes) : Z :=
  fold_left (fun a b => a * 16 + default 0 (hex_digit b)) l s.

Definition no_cr (l : bytes) : Prop := Forall (fun b => b <> CR) l.

(** A size line: hexadecimal digits of a [usize], then possibly an extension. *)
Definition size_line_ok (ds ex : bytes) : Prop :=
  Forall (fun b => is_Some (hex_digit b)) ds /\ hex_value 0 ds < 2 ^ USIZE /\
  (ex = [] \/ exists ex', ex = 59 :: ex' /\ no_cr ex').

Definition chunk_ok (c : chunk) : Prop :=
  size_line_ok (digits c) (ext c) /\ hex_value 0 (digits c) = Z.of_nat (length (payload c)) /\ payload c <> [].

Definition trailer_ok (l : bytes) : Prop := l <> [] /\ no_cr l.

Definition encode_chunk (c : chunk) : bytes := digits c ++ ext c ++ CRLF ++ payload c ++ CRLF.

(** Chunks, the last chunk (a size line worth zero), trailer lines, and the
    final empty line up to its CR and its LF. *)
Definition encode_to_cr (cs : list chunk) (zeros ex : bytes) (trailers : list bytes) : bytes :=
  concat (encode_chunk <$> cs) ++ (zeros ++ ex ++ CRLF) ++ block trailers ++ [CR].

Definition encode_body (cs : list chunk) (zeros ex : bytes) (trailers : list bytes) : bytes :=
  encode_to_cr cs zeros ex trailers ++ [LF].

Definition body_ok (cs : list chunk) (zeros ex : bytes) (trailers : list bytes) : Prop :=
  Forall chunk_ok cs /\ size_line_ok zeros ex /\ hex_value 0 zeros = 0 /\ Forall trailer_ok trailers.

Section recognition.
Context (checks : bool).
Local Abbreviation feeds := (Chunked.feeds checks).

Lemma hex_value_mono l : forall s, 0 <= s -> s <= hex_value s l.
Proof.
  induction l as [|b l IH]; intros s Hs; cbn; [done|].
  assert (0 <= default 0 (hex_digit b)) by (destruct (hex_digit b) eqn:E; [apply hex_digit_nonneg in E; simpl; lia|done]).
  etransitivity; [|apply IH; lia]. lia.
Qed.

Lemma feeds_digits l : forall s,
  0 <= s -> Forall (fun b => is_Some (hex_digit b)) l -> hex_value s l < 2 ^ USIZE ->
  feeds (mkChunked Size s) l = Some (mkChunked Size (hex_value s l)).
Proof.
  induction l as [|b l IH]; intros s Hs Hl Hv; [done|]. apply Forall_cons in Hl as [[d Hd] Hl].
  cbn [Chunked.feeds]. unfold feed1. cbn [st size turn]. rewrite Hd.
  cbn [hex_value fold_left] in Hv. rewrite Hd in Hv. cbn [default id] in Hv.
  pose proof (hex_digit_nonneg _ _ Hd). pose proof (hex_value_mono l (s * 16 + d) ltac:(lia)) as Hm.
  unfold size_push. rewrite (proj2 (Z.ltb_lt _ _)); [|unfold hex_value in Hm; lia].
  cbn [mbind option_bind]. rewrite IH; [|lia|done|done]. cbn [hex_value fold_left]. by rewrite Hd.
Qed.

Lemma feeds_no_cr stt l : forall s,
  (stt = SizeExt \/ stt = TrailerLine) -> no_cr l -> feeds (mkChunked stt s) l = Some (mkChunked stt s).
Proof.
  induction l as [|b l IH]; intros s Hst Hl; [done|]. apply Forall_cons in Hl as [Hb Hl].
  cbn [Chunked.feeds]. apply Z.eqb_neq in Hb. destruct Hst as [-> | ->]; unfold feed1; cbn [st size turn];
    rewrite Hb; cbn [mbind option_bind]; apply IH; auto.
Qed.

Lemma feeds_size_line ds ex :
  size_line_ok ds ex ->
  feeds (mkChunked Size 0) (ds ++ ex ++ CRLF) =
    Some (mkChunked (if hex_value 0 ds =? 0 then TrailerStart else CData (hex_value 0 ds)) (hex_value 0 ds)).
Proof.
  intros (Hd & Hv & Hex). rewrite feeds_app, feeds_digits by done. cbn [mbind option_bind].
  destruct Hex as [->|(ex' & -> & Hex)]; [done|]. cbn [app Chunked.feeds]. unfold feed1 at 1.
  cbn [st size turn hex_digit Z.leb Z.compare Pos.compare Pos.compare_cont andb Z.eqb Pos.eqb mbind option_bind CR].
  rewrite feeds_app, feeds_no_cr by auto. done.
Qed.

Lemma feeds_chunk c : chunk_ok c -> feeds chunked_new (encode_chunk c) = Some chunked_new.
Proof.
  intros (Hs & Hv & Hp). unfold encode_chunk, chunked_new.
  assert (0 < Z.of_nat (length (payload c))) by (destruct (payload c); [done|simpl; lia]).
  replace (digits c ++ ext c ++ CRLF ++ payload c ++ CRLF) with ((digits c ++ ext c ++ CRLF) ++ payload c ++ CRLF)
    by (by rewrite <- !app_assoc).
  rewrite feeds_app, feeds_size_line by done. cbn [mbind option_bind]. rewrite Hv.
  rewrite (proj2 (Z.eqb_neq _ 0)), feeds_app, feeds_data by lia. rewrite Z.sub_diag. done.
Qed.

Lemma feeds_trailers ts : forall s,
  Forall trailer_ok ts -> feeds (mkChunked TrailerStart s) (block ts) = Some (mkChunked TrailerStart s).
Proof.
  induction ts as [|t ts IH]; intros s Hts; [done|]. apply Forall_cons in Hts as [[Hne Hcr] Hts].
  unfold block. cbn [fmap list_fmap concat]. fold (block ts). rewrite <- app_assoc, feeds_app.
  destruct t as [|b t]; [done|]. apply Forall_cons in Hcr as [Hb Hcr]. apply Z.eqb_neq in Hb.
  cbn [Chunked.feeds]. unfold feed1 at 1. cbn [st size]. rewrite Hb. cbn [mbind option_bind].
  rewrite feeds_no_cr by auto. cbn [mbind option_bind]. rewrite feeds_app. cbn. by rewrite IH.
Qed.

Lemma feeds_to_cr cs zeros ex ts :
  body_ok cs zeros ex ts ->
  feeds chunked_new (encode_to_cr cs zeros ex ts) = Some (mkChunked TrailerFinalCr 0).
Proof.
  intros (Hcs & Hz & Hv & Hts). unfold encode_to_cr. rewrite feeds_app.
  assert (feeds chunked_new (concat (encode_chunk <$> cs)) = Some chunked_new) as ->.
  { induction Hcs as [|c cs Hc _ IH]; [done|]. cbn [fmap list_fmap concat]. by rewrite feeds_app, feeds_chunk. }
  cbn [mbind option_bind]. unfold chunked_new. rewrite feeds_app, feeds_size_line by done. rewrite Hv.
  cbn [mbind option_bind Z.eqb]. by rewrite feeds_app, feeds_trailers.
Qed.
End recognition.

(** The blocks the pump reads, in turn: whether the end was seen. *)
Fixpoint advance_blocks (checks : bool) (p : ChunkedParser) (blocks : list bytes) : option bool :=
  match blocks with
  | [] => Some (is_done p)
  | b :: blocks' =>
      '(p', fin) ← advance checks p b;
      if fin : bool then Some true else advance_blocks checks p' blocks'
  end.

Lemma feeds_ok checks l : forall p p', parser_ok p -> feeds checks p l = Some p' -> parser_ok p'.
Proof.
  induction l as [|b l IH]; intros p p' Hp; [by intros [= <-]|]. cbn [feeds].
  destruct (feed1 checks p b) as [p1|] eqn:E; [|done]. apply IH. by eapply feed1_ok.
Qed.

(** Without overflow checks nothing panics. *)
Lemma feeds_total l : forall p, is_Some (feeds false p l).
Proof.
  induction l as [|b l IH]; intros p; [done|]. cbn [feeds].
  assert (is_Some (feed1 false p b)) as [p' ->]; [|apply IH].
  unfold feed1. destruct (st p) eqn:E; try done; unfold turn; rewrite E; try done.
  destruct (hex_digit b) as [d|]; [|by destruct (b =? CR), (b =? 59)].
  unfold size_push. by destruct (_ <? _).
Qed.

(** However reads cut the stream, the parser says what it says of the whole. *)
Lemma advance_blocks_concat checks blocks : forall p p',
  parser_ok p -> feeds checks p (concat blocks) = Some p' ->
  advance_blocks checks p blocks = Some (is_done p').
Proof.
  induction blocks as [|b blocks IH]; intros p p' Hp; cbn [concat advance_blocks]; [by intros [= <-]|].
  rewrite feeds_app, advance_feeds by done.
  destruct (feeds checks p b) as [p1|] eqn:E; cbn [mbind option_bind]; [|done]. intros H.
  destruct (is_done p1) eqn:Ed; [|apply IH; [by eapply feeds_ok|done]].
  unfold is_done in Ed. apply bool_decide_eq_true in Ed. rewrite feeds_done in H by done. simplify_eq.
  unfold is_done. by rewrite bool_decide_true.
Qed.

Lemma feeds_prefix checks l1 l2 p p' : feeds checks p (l1 ++ l2) = Some p' -> exists p1, feeds checks p l1 = Some p1 /\ feeds checks p1 l2 = Some p'.
Proof. rewrite feeds_app. by intros (p1 & H1 & H2)%bind_Some; eauto. Qed.

(** C22. The end of a chunked body is seen exactly: over the blocks of any
    well-formed body, cut anywhere and with any chunk extensions and trailers,
    the parser neither panics nor reports the end before the last byte, reports
    it at the last byte, and keeps reporting it whatever follows. *)
Theorem chunked_end_exact checks cs zeros ex ts blocks :
  body_ok cs zeros ex ts ->
  let body := encode_body cs zeros ex ts in
  (concat blocks `prefix_of` body ->
     advance_blocks checks chunked_new blocks = Some (bool_decide (concat blocks = body))) /\
  (body `prefix_of` concat blocks -> advance_blocks checks chunked_new blocks = Some true).
Proof.
  intros Hb body. pose proof (feeds_to_cr checks cs zeros ex ts Hb) as Hcr.
  assert (parser_ok chunked_new) as Hok by (by split).
  assert (feeds checks chunked_new body = Some (mkChunked CDone 0)) as Hbody
    by (unfold body, encode_body; by rewrite feeds_app, Hcr).
  split.
  - intros [suf Hsuf]. destruct (decide (concat blocks = body)) as [Heq|Hne].
    + rewrite bool_decide_true by done. rewrite <- Heq in Hbody. by apply (advance_blocks_concat _ _ _ _ Hok Hbody).
    + rewrite bool_decide_false by done. destruct suf as [|x suf _] using rev_ind; [by rewrite app_nil_r in Hsuf|].
      unfold body, encode_body in Hsuf. rewrite app_assoc in Hsuf. apply app_inj_tail in Hsuf as [Hsuf _].
      rewrite Hsuf in Hcr. apply feeds_prefix in Hcr as (p1 & H1 & H2).
      rewrite (advance_blocks_concat _ _ _ _ Hok H1). f_equal. apply bool_decide_eq_false. intros Hd.
      rewrite feeds_done in H2 by done. by simplify_eq.
  - intros [suf Hsuf]. assert (feeds checks chunked_new (concat blocks) = Some (mkChunked CDone 0)) as H
      by (rewrite Hsuf, feeds_app, Hbody; by apply feeds_done).
    by apply (advance_blocks_concat _ _ _ _ Hok H).
Qed.

Lemma chunked_end_exact_witness :
  advance_blocks true chunked_new
    [bs "5;a=b"; CRLF ++ bs "he"; bs "llo" ++ CRLF ++ bs "0"; CRLF ++ bs "X: y"; CRLF ++ [CR]; [LF]] = Some true.
Proof.
  refine (proj2 (chunked_end_exact true [mkChunk (bs "5") (bs ";a=b") (bs "hello")] (bs "0") [] [bs "X: y"] _ _) _).
  - split_and!.
    + constructor; [|constructor]. split; [|split; [reflexivity|discriminate]].
      split; [by repeat constructor|]. split; [reflexivity|]. right. eexists. split; [reflexivity|].
      repeat constructor; discriminate.
    + split; [by repeat constructor|]. split; [reflexivity|by left].
    + reflexivity.
    + constructor; [|constructor]. split; [discriminate|]. repeat constructor; discriminate.
  - exists []. reflexivity.
Defined.

(** Seventeen digits: without overflow checks the size wraps to zero and the
    blank line of the next chunk ends the body; with them the thread panics. *)
Example oversize_chunk_ends_body :
  let block := bs "10000000000000000" ++ CRLF ++ CRLF ++ bs "5" in
  (snd <$> advance false chunked_new block) = Some true /\ advance true chunked_new block = None.
Proof. vm_compute. done. Qed.
