(* ===== verification/ProxyHead.v ===== *)
(** * What the proxy reads off a head ([proxy_dial.rs])

    The scanners of request and response heads: the proxy path test, the
    affinity key, the framing fields, whether an upstream socket may be reused,
    the gate on response heads (the linked verdict is a parameter), and the
    host's own error responses. The scanners end a line at LF and drop one CR
    before it. *)
From S2P Require Import Prelude Bytes Lines Http Static.

Local Open Scope Z_scope.

(** ** Slices *)
Fixpoint drop_while (p : Z -> bool) (l : bytes) : bytes :=
  match l with
  | b :: l' => if p b then drop_while p l' else l
  | [] => []
  end.

(** Both ends. *)
Definition trim_while (p : Z -> bool) (l : bytes) : bytes :=
  reverse (drop_while p (reverse (drop_while p l))).

Definition trim_ascii (b : bytes) : bytes := trim_while is_ascii_whitespace b.
Definition trim_ows (b : bytes) : bytes := trim_while (fun c => (c =? 32) || (c =? 9)) b.

Fixpoint any_window (n : nat) (p : bytes -> bool) (l : bytes) : bool :=
  ((n <=? length l)%nat && p (take n l)) ||
  match l with [] => false | _ :: l' => any_window n p l' end.

Definition find (hay needle : bytes) : option nat := windows_position needle hay.

Definition lf_lines (head : bytes) : list bytes :=
  (fun line => default line (strip_suffix [CR] line)) <$> split_on (fun c => c =? LF) head.

(** What follows [name], colon included, on the first line that starts with it. *)
Fixpoint first_field (name : bytes) (lines : list bytes) : option bytes :=
  match lines with
  | [] => None
  | line :: lines' =>
      let n := length name in
      if (n <=? length line)%nat && eq_ignore_ascii_case (take n line) name
      then Some (drop n line) else first_field name lines'
  end.

(** ** Requests *)
Definition request_target (req : bytes) : option bytes := snd <$> Static.request_line req.

Definition is_proxy_path (req : bytes) : bool :=
  match request_target req with
  | Some t => bytes_eqb t (bs "/api") || starts_with (bs "/api/") t || starts_with (bs "/api?") t
  | None => false
  end.

(** The first [sid=] crumb of the [Cookie] lines. *)
Fixpoint find_sid (crumbs : list bytes) : option bytes :=
  match crumbs with
  | [] => None
  | c :: crumbs' =>
      match Static.strip_prefix (bs "sid=") (trim_ascii c) with
      | Some v => Some v
      | None => find_sid crumbs'
      end
  end.

Definition cookie_sid (line : bytes) : option bytes :=
  if (7 <=? length line)%nat && eq_ignore_ascii_case (take 7 line) (bs "cookie:")
  then find_sid (split_on (fun c => c =? 59) (drop 7 line)) else None.

Definition sticky_key (req : bytes) : bytes :=
  let head := take (default (length req) (head_end req)) req in
  match first_some cookie_sid (lf_lines head) with
  | Some v => v
  | None => default [] (request_target req)
  end.

(** ** Response framing *)
Definition content_length (head : bytes) : option Z :=
  v0 ← first_field (bs "content-length:") (lf_lines head);
  let v := trim_ascii v0 in
  if utf8_valid v then parse_uint 64 (str_trim v) else None.

Definition is_chunked (head : bytes) : bool :=
  match first_field (bs "transfer-encoding:") (lf_lines head) with
  | Some v => any_window 7 (fun w => bytes_eqb w (bs "chunked")) (to_ascii_lowercase <$> trim_ascii v)
  | None => false
  end.

Definition is_event_stream (head : bytes) : bool :=
  match first_field (bs "content-type:") (lf_lines head) with
  | Some v0 =>
      let v := trim_ascii v0 in
      let mt := match position (fun b => b =? 59) v with Some p => trim_ascii (take p v) | None => v end in
      eq_ignore_ascii_case mt (bs "text/event-stream")
  | None => false
  end.

(** ** Reuse of the upstream socket *)
Definition header_name_lower (line : bytes) : bytes :=
  to_ascii_lowercase <$> take (default (length line) (position (fun b => b =? COLON) line)) line.

Definition connection_tokens (line : bytes) : list bytes :=
  if bytes_eqb (header_name_lower line) (bs "connection") then
    let value := match position (fun b => b =? COLON) line with Some p => drop (p + 1) line | None => [] end in
    (fun tok => to_ascii_lowercase <$> trim_ows tok) <$> split_on (fun b => b =? 44) value
  else [].

Definition resp_upstream_keepalive (head : bytes) : bool :=
  match lf_lines head with
  | [] => false
  | status :: lines =>
      let http11 := any_window 8 (fun w => eq_ignore_ascii_case w (bs "HTTP/1.1")) status in
      let toks := concat (connection_tokens <$> lines) in
      let saw_close := existsb (bytes_eqb (bs "close")) toks in
      let saw_keepalive := existsb (bytes_eqb (bs "keep-alive")) toks in
      if saw_close then false else http11 || saw_keepalive
  end.

(** ** The gate on response heads *)
Section gate.
Context (resp_gated : bytes -> bytes).     (* [drorb_proxy_forward_resp_gated] *)

Definition forward_response_head_gated (head : bytes) : option bytes :=
  let block_end := default (length head) (find head CRLFCRLF) in
  match resp_gated (take block_end head) with
  | 0 :: out => Some (out ++ drop block_end head)
  | _ => None
  end.

Definition client_resp_head (raw_head : bytes) (keepalive : bool) : option bytes :=
  (fun head => annotate_connection head keepalive) <$> forward_response_head_gated raw_head.
End gate.

(** ** The host's own responses *)
Definition own_response (status len body : string) : bytes :=
  bs "HTTP/1.1 " ++ bs status ++ CRLF ++ bs "Content-Length: " ++ bs len ++ CRLF ++
  bs "Connection: close" ++ CRLF ++ CRLF ++ bs body.

Definition bad_gateway : bytes := own_response "502 Bad Gateway" "11" "bad gateway".
Definition gateway_timeout : bytes := own_response "504 Gateway Timeout" "15" "gateway timeout".
Definition service_unavailable : bytes := own_response "503 Service Unavailable" "19" "no healthy upstream".

(** A response framed by its own [Content-Length], after which the sender
    closes. *)
Definition own_framed (resp : bytes) : bool :=
  match head_end resp with
  | Some he =>
      bool_decide (content_length (take he resp) = Some (Z.of_nat (length resp - he))) &&
      negb (resp_upstream_keepalive (take he resp))
  | None => false
  end.

Lemma own_responses_framed :
  own_framed bad_gateway = true /\ own_framed gateway_timeout = true /\ own_framed service_unavailable = true.
Proof. vm_compute. done. Qed.

(** The gate fails closed, and keeps the separator and what follows it. *)
Lemma gated_head_shape resp_gated head h :
  forward_response_head_gated resp_gated head = Some h ->
  exists out p, resp_gated (take p head) = 0 :: out /\ h = out ++ drop p head /\
    (find head CRLFCRLF = Some p \/ find head CRLFCRLF = None /\ p = length head).
Proof.
  unfold forward_response_head_gated. destruct (find head CRLFCRLF) as [p|]; cbn [default id].
  - destruct (resp_gated (take p head)) as [|[] out] eqn:E; try done. intros [= <-]. eauto 10.
  - destruct (resp_gated (take (length head) head)) as [|[] out] eqn:E; try done. intros [= <-]. eauto 10.
Qed.

(** A [close] token anywhere in the [Connection] fields forbids reuse. *)
Lemma close_not_reused head line :
  line ∈ drop 1 (lf_lines head) -> bs "close" ∈ connection_tokens line -> resp_upstream_keepalive head = false.
Proof.
  unfold resp_upstream_keepalive. intros Hl Ht. destruct (lf_lines head) as [|status lines]; [done|].
  cbn [drop] in Hl. assert (existsb (bytes_eqb (bs "close")) (concat (connection_tokens <$> lines)) = true) as ->; [|done].
  apply existsb_exists. exists (bs "close"). split; [|apply bytes_eqb_refl].
  apply in_concat. exists (connection_tokens line). split; apply list_elem_of_In; [by apply list_elem_of_fmap_2|done].
Qed.

(** An HTTP/1.0 response with [Connection: keep-alive] is reusable. *)
Example http10_keepalive_reused :
  resp_upstream_keepalive (bs "HTTP/1.0 200 OK" ++ CRLF ++ bs "Connection: keep-alive" ++ CRLFCRLF) = true.
Proof. vm_compute. done. Qed.

Example keepalive_cases :
  resp_upstream_keepalive (bs "HTTP/1.1 200 OK" ++ CRLFCRLF) = true /\
  resp_upstream_keepalive (bs "HTTP/1.1 200 OK" ++ CRLF ++ bs "connection: x , CLOSE" ++ CRLFCRLF) = false /\
  resp_upstream_keepalive (bs "HTTP/1.0 200 OK" ++ CRLFCRLF) = false /\
  sticky_key (bs "GET /api HTTP/1.1" ++ CRLF ++ bs "COOKIE: a=b; sid=zz" ++ CRLFCRLF) = bs "zz" /\
  sticky_key (bs "GET /api?q HTTP/1.1" ++ CRLFCRLF) = bs "/api?q".
Proof. vm_compute. done. Qed.
