(* ===== verification/ProxyPump.v ===== *)
(** * Relaying a response body ([proxy_dial.rs])

    [Portable]: the user-space pumps, by [Content-Length], to the end of the
    stream, and chunked. [Relay]: the kernel relay through a pipe with
    [splice(2)], whose pipe is parked between forwards. An upstream is the list
    of what its reads find, a client a [sink]; the kernel's calls are lists of
    how the coming ones behave. *)
From S2P Require Import Prelude Bytes Io Chunked.

Local Open Scope Z_scope.

Definition PROXY_CHUNK : nat := Z.to_nat (64 * 1024).

Abbreviation upstream := (list read_ev).

(** [write_all], then a flush when the route streams events. *)
Definition put (fl : bool) (b : bytes) (c : sink) : bool * sink :=
  match write_all b c with
  | (Err _, c1) => (false, c1)
  | (Ok _, c1) =>
      if fl then match flush c1 with (Ok _, c2) => (true, c2) | (Err _, c2) => (false, c2) end
      else (true, c1)
  end.

Lemma put_spec fl b c ok c' :
  put fl b c = (ok, c') ->
  delivered b ok c c' /\ (calm c -> calm c') /\ (calm c -> (length b <= room c)%nat -> ok = true).
Proof.
  unfold put. destruct (write_all b c) as [r c1] eqn:E.
  apply write_all_delivered in E as (Hd & Hf & Hok). destruct r as [u|e]; cbn [is_ok] in *.
  2:{ intros [= <- <-]. split_and!; [done|unfold calm; by rewrite Hf|]. intros _ H. by specialize (Hok H). }
  destruct fl; [|intros [= <- <-]; split_and!; [done|unfold calm; by rewrite Hf|done]].
  destruct (flush c1) as [rf c2] eqn:Ef. pose proof (flush_wire _ _ _ Ef) as [Hw Hr].
  destruct rf as [u2|e]; intros [= <- <-]; split_and!.
  - destruct Hd as (? & ? & ?). unfold delivered. rewrite Hw, Hr. done.
  - intros Hc. assert (calm c1) as Hc1 by (unfold calm; by rewrite Hf).
    destruct (flush_calm c1 Hc1) as (fl & Hfl & ?). rewrite Hfl in Ef. by simplify_eq.
  - done.
  - destruct Hd as (Hw1 & _). exists b. split; [done|congruence].
  - intros Hc. assert (calm c1) as Hc1 by (unfold calm; by rewrite Hf).
    destruct (flush_calm c1 Hc1) as (fl & Hfl & ?). rewrite Hfl in Ef. by simplify_eq.
  - intros Hc _. assert (calm c1) as Hc1 by (unfold calm; by rewrite Hf).
    destruct (flush_calm c1 Hc1) as (fl & Hfl & ?). rewrite Hfl in Ef. by simplify_eq.
Qed.

Module Portable.

(** [None]: out of fuel (or, in the chunked pump, a panic of the parser). *)
Fixpoint fixed_loop (fuel : nat) (fl : bool) (up : upstream) (c : sink) (remaining : nat) (sent : Z) :
    option (bool * upstream * sink * Z) :=
  match fuel with
  | O => None
  | S f =>
      if (remaining =? 0)%nat then Some (true, up, c, sent)
      else match read PROXY_CHUNK up with
           | (Ok [], up') => Some (false, up', c, sent)
           | (Err _, up') => Some (false, up', c, sent)
           | (Ok got, up') =>
               let w := take remaining got in
               match put fl w c with
               | (false, c') => Some (false, up', c', sent)
               | (true, c') =>
                   fixed_loop f fl up' c' (remaining - length w) (sent + Z.of_nat (length w))
               end
           end
  end.

Definition stream_fixed (fl : bool) (up : upstream) (c : sink) (leftover : bytes) (clen : nat) (sent : Z) :
    option (bool * upstream * sink * Z) :=
  let first := take clen leftover in
  match first with
  | [] => fixed_loop (S (weight up)) fl up c clen sent
  | _ =>
      match put fl first c with
      | (false, c') => Some (false, up, c', sent)
      | (true, c') =>
          fixed_loop (S (weight up)) fl up c' (clen - length first) (sent + Z.of_nat (length first))
      end
  end.

Fixpoint eof_loop (fuel : nat) (fl : bool) (up : upstream) (c : sink) (sent : Z) :
    option (bool * upstream * sink * Z) :=
  match fuel with
  | O => None
  | S f =>
      match read PROXY_CHUNK up with
      | (Ok [], up') => Some (true, up', c, sent)
      | (Err _, up') => Some (false, up', c, sent)
      | (Ok got, up') =>
          match put fl got c with
          | (false, c') => Some (false, up', c', sent)
          | (true, c') => eof_loop f fl up' c' (sent + Z.of_nat (length got))
          end
      end
  end.

Definition stream_to_eof (fl : bool) (up : upstream) (c : sink) (leftover : bytes) (sent : Z) :
    option (bool * upstream * sink * Z) :=
  match leftover with
  | [] => eof_loop (S (weight up)) fl up c sent
  | _ =>
      match put fl leftover c with
      | (false, c') => Some (false, up, c', sent)
      | (true, c') => eof_loop (S (weight up)) fl up c' (sent + Z.of_nat (length leftover))
      end
  end.

Fixpoint chunked_loop (checks : bool) (fuel : nat) (fl : bool) (p : ChunkedParser) (up : upstream) (c : sink) (sent : Z) :
    option (bool * upstream * sink * Z) :=
  match fuel with
  | O => None
  | S f =>
      match read PROXY_CHUNK up with
      | (Ok [], up') => Some (false, up', c, sent)
      | (Err _, up') => Some (false, up', c, sent)
      | (Ok got, up') =>
          match put fl got c with
          | (false, c') => Some (false, up', c', sent)
          | (true, c') =>
              '(p', fin) ← advance checks p got;
              if fin : bool then Some (true, up', c', sent + Z.of_nat (length got))
              else chunked_loop checks f fl p' up' c' (sent + Z.of_nat (length got))
          end
      end
  end.

Definition stream_chunked (checks fl : bool) (up : upstream) (c : sink) (leftover : bytes) (sent : Z) :
    option (bool * upstream * sink * Z) :=
  match leftover with
  | [] => chunked_loop checks (S (weight up)) fl chunked_new up c sent
  | _ =>
      match put fl leftover c with
      | (false, c') => Some (false, up, c', sent)
      | (true, c') =>
          '(p, fin) ← advance checks chunked_new leftover;
          let sent' := sent + Z.of_nat (length leftover) in
          if fin : bool then Some (true, up, c', sent')
          else chunked_loop checks (S (weight up)) fl p up c' sent'
      end
  end.

Lemma chunk_pos : (0 < PROXY_CHUNK)%nat.
Proof. unfold PROXY_CHUNK. lia. Qed.

Lemma fixed_loop_spec fuel fl : forall up c remaining sent,
  (weight up < fuel)%nat ->
  exists ok up' c' sent', fixed_loop fuel fl up c remaining sent = Some (ok, up', c', sent') /\
    delivered (take remaining (arrived up)) ok c c' /\
    (ok = true -> (remaining <= length (arrived up))%nat /\ sent' = sent + Z.of_nat remaining) /\
    (calm c -> (remaining <= length (arrived up))%nat -> (remaining <= room c)%nat -> ok = true).
Proof.
  induction fuel as [|f IH]; intros up c remaining sent Hf; [lia|]. cbn [fixed_loop].
  destruct (remaining =? 0)%nat eqn:E0; [apply Nat.eqb_eq in E0 as ->|apply Nat.eqb_neq in E0].
  { exists true, up, c, sent. rewrite take_0. split_and!; [done|apply delivered_nil|split; lia|done]. }
  destruct (read PROXY_CHUNK up) as [r up'] eqn:Er. apply read_spec in Er as Hr; [|apply chunk_pos].
  destruct r as [[|b got0]|e].
  - exists false, up', c, sent. split_and!; [done|by apply delivered_none|done|].
    destruct Hr as [-> _]. simpl. lia.
  - set (got := b :: got0) in *. destruct Hr as (Ha & Hc & Hw & Hl).
    set (w := take remaining got). assert (length w <= remaining)%nat as Hwl by (unfold w; rewrite length_take; lia).
    assert (take remaining (arrived up) = w ++ take (remaining - length w) (arrived up')) as Htk
      by (rewrite Ha; apply take_lead).
    destruct (put fl w c) as [okp c1] eqn:Ep. apply put_spec in Ep as (Hd & Hcm & Hok). destruct okp.
    + destruct (IH up' c1 (remaining - length w)%nat (sent + Z.of_nat (length w))) as (ok & up2 & c2 & s2 & -> & Hd2 & Hs2 & Hc2); [lia|].
      exists ok, up2, c2, s2. split_and!; [done|rewrite Htk; by eapply delivered_app| |].
      * intros Hok2. destruct (Hs2 Hok2) as [H1 H2]. split; [|lia]. rewrite Ha, length_app.
        unfold w in H1. rewrite length_take in H1. lia.
      * intros Hcalm Hlen Hroom. destruct Hd as (_ & _ & Hr1). apply Hc2; [by apply Hcm| |lia].
        rewrite Ha, length_app in Hlen. unfold w. rewrite length_take. lia.
    + exists false, up', c1, sent. split_and!; [done|rewrite Htk; by apply delivered_more|done|].
      intros Hcalm _ Hroom. apply Hok; [done|lia].
  - exists false, up', c, sent. split_and!; [done|by apply delivered_none|done|].
    destruct Hr as [-> _]. simpl. lia.
Qed.

Lemma stream_fixed_spec fl up c leftover clen sent :
  exists ok up' c' sent', stream_fixed fl up c leftover clen sent = Some (ok, up', c', sent') /\
    delivered (take clen (leftover ++ arrived up)) ok c c' /\
    (ok = true -> (clen <= length (leftover ++ arrived up))%nat /\ sent' = sent + Z.of_nat clen) /\
    (calm c -> (clen <= length (leftover ++ arrived up))%nat -> (clen <= room c)%nat -> ok = true).
Proof.
  unfold stream_fixed. set (first := take clen leftover).
  pose proof (take_lead clen leftover (arrived up)) as Htk. pose proof (take_lead_le clen leftover (arrived up)) as Hle.
  fold first in Htk, Hle.
  assert (length first <= clen)%nat as Hfl by (unfold first; rewrite length_take; lia).
  rewrite Htk. clearbody first. destruct first as [|b first0].
  - destruct (fixed_loop_spec (S (weight up)) fl up c clen sent) as (ok & up' & c' & s' & -> & Hd & Hs & Hc); [lia|].
    cbn [length app] in *. rewrite Nat.sub_0_r in *. exists ok, up', c', s'. rewrite Hle. done.
  - set (first := b :: first0) in *. destruct (put fl first c) as [okp c1] eqn:Ep.
    apply put_spec in Ep as (Hd & Hcm & Hok). destruct okp.
    + destruct (fixed_loop_spec (S (weight up)) fl up c1 (clen - length first) (sent + Z.of_nat (length first)))
        as (ok & up' & c' & s' & -> & Hd2 & Hs & Hc); [lia|].
      exists ok, up', c', s'. rewrite Hle. split_and!; [done|by eapply delivered_app|intros H; destruct (Hs H); split; lia|].
      intros Hcalm Hlen Hroom. destruct Hd as (_ & _ & Hr). apply Hc; [by apply Hcm|done|lia].
    + exists false, up, c1, sent. split_and!; [done|by apply delivered_more|done|].
      intros Hcalm _ Hroom. apply Hok; [done|lia].
Qed.

Lemma eof_loop_spec fuel fl : forall up c sent,
  (weight up < fuel)%nat ->
  exists ok up' c' sent', eof_loop fuel fl up c sent = Some (ok, up', c', sent') /\
    delivered (arrived up) ok c c' /\
    (ok = true -> clean_end up = true /\ sent' = sent + Z.of_nat (length (arrived up))) /\
    (calm c -> clean_end up = true -> (length (arrived up) <= room c)%nat -> ok = true).
Proof.
  induction fuel as [|f IH]; intros up c sent Hf; [lia|]. cbn [eof_loop].
  destruct (read PROXY_CHUNK up) as [r up'] eqn:Er. apply read_spec in Er as Hr; [|apply chunk_pos].
  destruct r as [[|b got0]|e].
  - destruct Hr as [Ha Hc]. exists true, up', c, sent. rewrite Ha. split_and!; [done|apply delivered_nil|simpl; split; [done|lia]|done].
  - set (got := b :: got0) in *. destruct Hr as (Ha & Hc & Hw & _). rewrite Ha.
    destruct (put fl got c) as [okp c1] eqn:Ep. apply put_spec in Ep as (Hd & Hcm & Hok). destruct okp.
    + destruct (IH up' c1 (sent + Z.of_nat (length got))) as (ok & up2 & c2 & s2 & -> & Hd2 & Hs2 & Hc2); [lia|].
      exists ok, up2, c2, s2. rewrite length_app, <- Hc. split_and!; [done|by eapply delivered_app| |].
      * intros Hok2. destruct (Hs2 Hok2). split; [done|lia].
      * intros Hcalm Hcl Hroom. destruct Hd as (_ & _ & Hr1). apply Hc2; [by apply Hcm|done|lia].
    + exists false, up', c1, sent. split_and!; [done|by apply delivered_more|done|].
      intros Hcalm _ Hroom. rewrite length_app in Hroom. apply Hok; [done|lia].
  - destruct Hr as [Ha Hc]. exists false, up', c, sent. split_and!; [done|by apply delivered_none|done|congruence].
Qed.

Lemma stream_to_eof_spec fl up c leftover sent :
  exists ok up' c' sent', stream_to_eof fl up c leftover sent = Some (ok, up', c', sent') /\
    delivered (leftover ++ arrived up) ok c c' /\
    (ok = true -> clean_end up = true /\ sent' = sent + Z.of_nat (length (leftover ++ arrived up))) /\
    (calm c -> clean_end up = true -> (length (leftover ++ arrived up) <= room c)%nat -> ok = true).
Proof.
  unfold stream_to_eof. destruct leftover as [|b l0].
  - by destruct (eof_loop_spec (S (weight up)) fl up c sent) as (ok & up' & c' & s' & -> & H); [lia|eauto 10].
  - set (l := b :: l0) in *. destruct (put fl l c) as [okp c1] eqn:Ep.
    apply put_spec in Ep as (Hd & Hcm & Hok). rewrite length_app. destruct okp.
    + destruct (eof_loop_spec (S (weight up)) fl up c1 (sent + Z.of_nat (length l)))
        as (ok & up' & c' & s' & -> & Hd2 & Hs & Hc); [lia|].
      exists ok, up', c', s'. split_and!; [done|by eapply delivered_app|intros H; destruct (Hs H); split; [done|lia]|].
      intros Hcalm Hcl Hroom. destruct Hd as (_ & _ & Hr). apply Hc; [by apply Hcm|done|lia].
    + exists false, up, c1, sent. split_and!; [done|by apply delivered_more|done|].
      intros Hcalm _ Hroom. apply Hok; [done|lia].
Qed.

(** The chunked pump: what it sent when it saw the end, and when it does. *)
Lemma chunked_loop_spec checks fuel fl : forall p up c sent pend,
  parser_ok p -> st p <> CDone -> feeds checks p (arrived up) = Some pend -> (weight up < fuel)%nat ->
  exists ok up' c' sent', chunked_loop checks fuel fl p up c sent = Some (ok, up', c', sent') /\
    exists seen, seen `prefix_of` arrived up /\ delivered seen ok c c' /\
      (ok = true -> sent' = sent + Z.of_nat (length seen) /\ exists pd, feeds checks p seen = Some pd /\ st pd = CDone) /\
      (calm c -> (length (arrived up) <= room c)%nat -> ok = is_done pend).
Proof.
  induction fuel as [|f IH]; intros p up c sent pend Hp Hnd Hpend Hf; [lia|]. cbn [chunked_loop].
  assert (is_done p = false) as Hnd' by (unfold is_done; by apply bool_decide_eq_false).
  destruct (read PROXY_CHUNK up) as [r up'] eqn:Er. apply read_spec in Er as Hr; [|apply chunk_pos].
  destruct r as [[|b got0]|e].
  - destruct Hr as [Ha _]. rewrite Ha in *. simplify_eq/=. exists false, up', c, sent. split; [done|]. exists [].
    split_and!; [done|by apply delivered_none|done|done].
  - set (got := b :: got0) in *. destruct Hr as (Ha & Hc & Hw & _). rewrite Ha in *.
    apply feeds_prefix in Hpend as (p1 & Hp1 & Hp2).
    destruct (put fl got c) as [okp c1] eqn:Ep. apply put_spec in Ep as (Hd & Hcm & Hok). destruct okp.
    + rewrite advance_feeds, Hp1 by done. cbn [mbind option_bind]. destruct (is_done p1) eqn:Ed.
      * exists true, up', c1, (sent + Z.of_nat (length got)). split; [done|]. exists got.
        apply bool_decide_eq_true in Ed. split_and!; [by apply prefix_app_r|done|eauto|].
        rewrite feeds_done in Hp2 by done. simplify_eq. intros. unfold is_done. by rewrite bool_decide_true.
      * apply bool_decide_eq_false in Ed.
        destruct (IH p1 up' c1 (sent + Z.of_nat (length got)) pend) as (ok & up2 & c2 & s2 & -> & seen & Hseen & Hd2 & Hs2 & Hc2);
          [by eapply feeds_ok|done|done|lia|].
        exists ok, up2, c2, s2. split; [done|]. exists (got ++ seen). rewrite length_app in *.
        split_and!; [by apply prefix_app|by eapply delivered_app| |].
        -- intros Hok2. destruct (Hs2 Hok2) as (Hs & pd & Hfd & Hst). split; [lia|]. exists pd. by rewrite feeds_app, Hp1.
        -- intros Hcalm Hroom. destruct Hd as (_ & _ & Hr1). rewrite length_app in Hroom. apply Hc2; [by apply Hcm|lia].
    + exists false, up', c1, sent. split; [done|]. destruct Hd as (q & Hq & Hwq). exists q.
      split_and!; [by apply prefix_app_r|exists q; done|done|].
      * intros Hcalm Hroom. rewrite length_app in Hroom. cut (false = true); [done|]. apply Hok; [done|lia].
  - destruct Hr as [Ha _]. rewrite Ha in *. simplify_eq/=. exists false, up', c, sent. split; [done|]. exists [].
    split_and!; [done|by apply delivered_none|done|done].
Qed.

Lemma stream_chunked_spec checks fl up c leftover sent pend :
  feeds checks chunked_new (leftover ++ arrived up) = Some pend ->
  exists ok up' c' sent', stream_chunked checks fl up c leftover sent = Some (ok, up', c', sent') /\
    exists seen, seen `prefix_of` leftover ++ arrived up /\ delivered seen ok c c' /\
      (ok = true -> sent' = sent + Z.of_nat (length seen) /\
         exists pd, feeds checks chunked_new seen = Some pd /\ st pd = CDone) /\
      (calm c -> (length (leftover ++ arrived up) <= room c)%nat -> ok = is_done pend).
Proof.
  intros Hf. assert (parser_ok chunked_new) as Hok0 by done. unfold stream_chunked.
  destruct leftover as [|b l0]; [by apply chunked_loop_spec; [| | |lia]|]. set (l := b :: l0) in *.
  apply feeds_prefix in Hf as (p1 & Hp1 & Hp2).
  destruct (put fl l c) as [okp c1] eqn:Ep. apply put_spec in Ep as (Hd & Hcm & Hok). destruct okp.
  2:{ exists false, up, c1, sent. split; [done|]. destruct Hd as (q & Hq & Hwq). exists q.
      split_and!; [by apply prefix_app_r|exists q; done|done|]. intros Hcalm Hroom. rewrite length_app in Hroom.
      cut (false = true); [done|]. apply Hok; [done|lia]. }
  rewrite advance_feeds, Hp1 by done. cbn [mbind option_bind]. destruct (is_done p1) eqn:Ed.
  - apply bool_decide_eq_true in Ed. eexists _, _, _, _. split; [done|]. exists l.
    split_and!; [by apply prefix_app_r|done|eauto|]. rewrite feeds_done in Hp2 by done. simplify_eq.
    intros. unfold is_done. by rewrite bool_decide_true.
  - apply bool_decide_eq_false in Ed.
    destruct (chunked_loop_spec checks (S (weight up)) fl p1 up c1 (sent + Z.of_nat (length l)) pend)
      as (ok & up2 & c2 & s2 & -> & seen & Hseen & Hd2 & Hs2 & Hc2); [by eapply feeds_ok|done|done|lia|].
    exists ok, up2, c2, s2. split; [done|]. exists (l ++ seen). rewrite !length_app.
    split_and!; [by apply prefix_app|by eapply delivered_app| |].
    + intros Hok2. destruct (Hs2 Hok2) as (Hs & pd & Hfd & Hst). split; [lia|]. exists pd. by rewrite feeds_app, Hp1.
    + intros Hcalm Hroom. destruct Hd as (_ & _ & Hr1). apply Hc2; [by apply Hcm|lia].
Qed.
End Portable.

Module Relay.

Definition SPLICE_CHUNK : nat := Z.to_nat (64 * 1024).

(** The thread's kernel: how the coming splices into and out of the pipe
    behave, whether the coming [pipe2]s succeed, and the parked relay, by what
    its pipe holds. *)
Record kernel := Kernel {
  fills : list call;
  drains : list call;
  pipes : list bool;
  idle_relay : option bytes
}.

Inductive Outcome := Ran (complete : bool) | RelayUnsupported.

Definition relay_new (k : kernel) : option bytes * kernel :=
  match pipes k with
  | [] => (Some [], k)
  | ok :: ps => ((if ok then Some [] else None), Kernel (fills k) (drains k) ps (idle_relay k))
  end.

Definition acquire (k : kernel) : option bytes * kernel :=
  match idle_relay k with
  | Some pipe => (Some pipe, Kernel (fills k) (drains k) (pipes k) None)
  | None => relay_new k
  end.

Definition release (pipe : bytes) (k : kernel) : kernel :=
  match idle_relay k with
  | None => Kernel (fills k) (drains k) (pipes k) (Some pipe)
  | Some _ => k
  end.

Definition unsupported (e : io_error) : bool :=
  match e with InvalidInput | Unsupported => true | _ => false end.

(** [splice_once] from the upstream: interruptions are retried. *)
Fixpoint skip_intr (up : upstream) : upstream :=
  match up with Fault Interrupted :: up' => skip_intr up' | _ => up end.

Fixpoint fill_once (cs : list call) (n : nat) (up : upstream) : result bytes io_error * list call * upstream :=
  match cs with
  | Intr :: cs' | Failed Interrupted :: cs' => fill_once cs' n up
  | Failed e :: cs' => (Err e, cs', up)
  | Short k :: cs' => let '(r, up') := read (n `min` S k) (skip_intr up) in (r, cs', up')
  | [] => let '(r, up') := read n (skip_intr up) in (r, [], up')
  end.

(** [splice_once] to the client: at most [n] bytes of the pipe. *)
Definition push_out (n : nat) (pipe : bytes) (c : sink) : result nat io_error * bytes * sink :=
  match pipe with
  | [] => (Ok 0%nat, [], c)
  | _ =>
      if (room c =? 0)%nat then (Err BrokenPipe, pipe, c)
      else
        let got := take (room c) (take n pipe) in
        (Ok (length got), drop (length got) pipe, Sink (wire c ++ got) (room c - length got) (flushes c))
  end.

Fixpoint drain_once (cs : list call) (n : nat) (pipe : bytes) (c : sink) :
    result nat io_error * list call * bytes * sink :=
  match cs with
  | Intr :: cs' | Failed Interrupted :: cs' => drain_once cs' n pipe c
  | Failed e :: cs' => (Err e, cs', pipe, c)
  | Short k :: cs' => let '(r, pipe', c') := push_out (n `min` S k) pipe c in (r, cs', pipe', c')
  | [] => let '(r, pipe', c') := push_out n pipe c in (r, [], pipe', c')
  end.

(** [drain]: exactly [in_pipe] bytes, each round at least one. *)
Fixpoint drain_loop (fuel : nat) (cs : list call) (in_pipe : nat) (pipe : bytes) (c : sink) (sent : Z) :
    option (bool * list call * bytes * sink * Z) :=
  match fuel with
  | O => None
  | S f =>
      if (in_pipe =? 0)%nat then Some (true, cs, pipe, c, sent)
      else match drain_once cs in_pipe pipe c with
           | (Ok O, cs', pipe', c') => Some (false, cs', pipe', c', sent)
           | (Err _, cs', pipe', c') => Some (false, cs', pipe', c', sent)
           | (Ok m, cs', pipe', c') => drain_loop f cs' (in_pipe - m) pipe' c' (sent + Z.of_nat m)
           end
  end.

Definition drain (cs : list call) (in_pipe : nat) (pipe : bytes) (c : sink) (sent : Z) :=
  drain_loop (S in_pipe) cs in_pipe pipe c sent.

(** The state of a pump: the kernel, the pipe, both sockets and the count. *)
Record pump := Pump { pk : kernel; ppipe : bytes; pup : upstream; pc : sink; psent : Z }.

Definition set_fills (k : kernel) cs := Kernel cs (drains k) (pipes k) (idle_relay k).
Definition set_drains (k : kernel) cs := Kernel (fills k) cs (pipes k) (idle_relay k).

(** One fill and its drain: [inl] goes on, [inr] returns. [Ok] of nothing is
    the end of the upstream. *)
Definition relay_round (first : bool) (want : nat) (eof : Outcome) (x : pump) : option (pump * nat + Outcome * pump) :=
  let '(r, cs, up') := fill_once (fills (pk x)) want (pup x) in
  let k := set_fills (pk x) cs in
  match r with
  | Ok [] => Some (inr (eof, Pump k (ppipe x) up' (pc x) (psent x)))
  | Err e =>
      Some (inr (if first && unsupported e then RelayUnsupported else Ran false,
                 Pump k (ppipe x) up' (pc x) (psent x)))
  | Ok got =>
      '(ok, ds, pipe', c', sent') ← drain (drains k) (length got) (ppipe x ++ got) (pc x) (psent x);
      let x' := Pump (set_drains k ds) pipe' up' c' sent' in
      Some (if ok : bool then inl (x', length got) else inr (Ran false, x'))
  end.

Fixpoint exact_loop (fuel : nat) (first : bool) (remaining : nat) (x : pump) : option (Outcome * pump) :=
  match fuel with
  | O => None
  | S f =>
      if (remaining =? 0)%nat then Some (Ran true, x)
      else
        out ← relay_round first (remaining `min` SPLICE_CHUNK) (Ran false) x;
        match out with
        | inr res => Some res
        | inl (x', n) => exact_loop f false (remaining - n) x'
        end
  end.

Definition move_exact (remaining : nat) (x : pump) : option (Outcome * pump) :=
  exact_loop (S remaining) true remaining x.

Fixpoint relay_eof_loop (fuel : nat) (first : bool) (x : pump) : option (Outcome * pump) :=
  match fuel with
  | O => None
  | S f =>
      out ← relay_round first SPLICE_CHUNK (Ran true) x;
      match out with
      | inr res => Some res
      | inl (x', _) => relay_eof_loop f false x'
      end
  end.

Definition move_to_eof (x : pump) : option (Outcome * pump) :=
  relay_eof_loop (S (weight (pup x))) true x.

(** The bytes read past the head, when there are any. *)
Definition lead (b : bytes) (c : sink) : bool * sink :=
  match b with
  | [] => (true, c)
  | _ => match write_all b c with (Ok _, c') => (true, c') | (Err _, c') => (false, c') end
  end.

(** The body of [forward_streaming_spliced]. *)
Definition splice_fixed (fl : bool) (k : kernel) (up : upstream) (c : sink) (leftover : bytes) (clen : nat) (sent : Z) :
    option (bool * kernel * upstream * sink * Z) :=
  let first := take clen leftover in
  let '(ok, c1) := lead first c in
  if negb ok then Some (false, k, up, c1, sent)
  else
    let sent1 := sent + Z.of_nat (length first) in
    let remaining := (clen - length first)%nat in
    if (remaining =? 0)%nat then Some (true, k, up, c1, sent1)
    else
      let fallback k up c1 sent1 :=
        '(b, up', c', s') ← Portable.stream_fixed fl up c1 [] remaining sent1;
        Some (b, k, up', c', s') in
      match acquire k with
      | (Some pipe, k1) =>
          '(out, x) ← move_exact remaining (Pump k1 pipe up c1 sent1);
          match out with
          | Ran true => Some (true, release (ppipe x) (pk x), pup x, pc x, psent x)
          | Ran false => Some (false, pk x, pup x, pc x, psent x)
          | RelayUnsupported => fallback (release (ppipe x) (pk x)) (pup x) (pc x) (psent x)
          end
      | (None, k1) => fallback k1 up c1 sent1
      end.

Definition splice_eof (fl : bool) (k : kernel) (up : upstream) (c : sink) (leftover : bytes) (sent : Z) :
    option (bool * kernel * upstream * sink * Z) :=
  let '(ok, c1) := lead leftover c in
  if negb ok then Some (false, k, up, c1, sent)
  else
    let sent1 := sent + Z.of_nat (length leftover) in
    let fallback k up c1 sent1 :=
      '(b, up', c', s') ← Portable.stream_to_eof fl up c1 [] sent1;
      Some (b, k, up', c', s') in
    match acquire k with
    | (Some pipe, k1) =>
        '(out, x) ← move_to_eof (Pump k1 pipe up c1 sent1);
        match out with
        | Ran true => Some (true, release (ppipe x) (pk x), pup x, pc x, psent x)
        | Ran false => Some (false, pk x, pup x, pc x, psent x)
        | RelayUnsupported => fallback (release (ppipe x) (pk x)) (pup x) (pc x) (psent x)
        end
    | (None, k1) => fallback k1 up c1 sent1
    end.

(** The verbatim pump of the layer-4 relay. *)
Definition splice_to_eof (k : kernel) (up : upstream) (c : sink) : option (bool * kernel * upstream * sink) :=
  match relay_new k with
  | (Some pipe, k1) =>
      '(out, x) ← move_to_eof (Pump k1 pipe up c 0);
      Some (match out with Ran _ => true | RelayUnsupported => false end, pk x, pup x, pc x)
  | (None, k1) => Some (false, k1, up, c)
  end.

(** ** The relay *)

(** Faults of a socket are neither interruptions nor refusals to splice. *)
Definition plain_ev (ev : read_ev) : Prop :=
  match ev with Fault e => e <> Interrupted /\ unsupported e = false | Data _ => True end.
Definition plain (up : upstream) : Prop := Forall plain_ev up.

Definition gentle (cl : call) : Prop := match cl with Failed e => e = Interrupted | _ => True end.

Lemma skip_plain up : plain up -> skip_intr up = up.
Proof. destruct up as [|[b|[]] up]; try done. intros H. apply Forall_cons in H as [[H _] _]. done. Qed.

Lemma read_plain n up r up' : plain up -> read n up = (r, up') -> plain up' /\ (forall e, r = Err e -> e <> Interrupted /\ unsupported e = false).
Proof.
  unfold read. destruct up as [|[b|e] up]; intros H; [by intros [= <- <-]| |].
  - apply Forall_cons in H as [_ H]. destruct (_ <=? _)%nat; intros [= <- <-]; (split; [|done]); [done|by constructor].
  - apply Forall_cons in H as [He H]. intros [= <- <-]. split; [done|]. by intros e' [= <-].
Qed.

Definition fill_post (n : nat) (cs : list call) (up : upstream) (r : result bytes io_error) (cs' : list call) (up' : upstream) : Prop :=
  plain up' /\ (Forall gentle cs -> Forall gentle cs') /\
  match r with
  | Ok [] => arrived up = [] /\ clean_end up = true
  | Ok got => arrived up = got ++ arrived up' /\ clean_end up' = clean_end up /\ (weight up' < weight up)%nat /\ (length got <= n)%nat
  | Err e =>
      (unsupported e = true -> up' = up) /\ (Forall gentle cs -> arrived up = [] /\ clean_end up = false)
  end.

Lemma fill_read n m cs cs' up r up' :
  (0 < m <= n)%nat -> plain up -> (Forall gentle cs -> Forall gentle cs') ->
  read m (skip_intr up) = (r, up') -> fill_post n cs up r cs' up'.
Proof.
  intros Hm Hp Hg Hr. rewrite skip_plain in Hr by done.
  pose proof (read_plain _ _ _ _ Hp Hr) as [Hp' He]. apply read_spec in Hr; [|lia].
  split; [done|]. split; [done|]. destruct r as [[|b got]|e]; [done| |].
  - destruct Hr as (H1 & H2 & H3 & H4). split; [done|]. split; [done|]. split; [done|]. lia.
  - destruct (He e eq_refl) as [_ Hu]. split; [congruence|done].
Qed.

Lemma fill_retry n cl cs up r cs' up' :
  gentle cl -> fill_post n cs up r cs' up' -> fill_post n (cl :: cs) up r cs' up'.
Proof.
  intros Hcl (H1 & H2 & H3). split; [done|]. split; [by intros [_ ?]%Forall_cons; auto|].
  destruct r as [[|b got]|e]; [done|done|]. destruct H3 as [H3 H4]. split; [done|]. intros [_ ?]%Forall_cons; auto.
Qed.

Lemma fill_once_spec n cs : forall up r cs' up',
  (0 < n)%nat -> plain up -> fill_once cs n up = (r, cs', up') -> fill_post n cs up r cs' up'.
Proof.
  induction cs as [|cl cs IH]; intros up r cs' up' Hn Hp; cbn [fill_once].
  { destruct (read n (skip_intr up)) as [r0 up0] eqn:E. intros [= <- <- <-]. by eapply fill_read. }
  destruct cl as [k| |e].
  - destruct (read (n `min` S k) (skip_intr up)) as [r0 up0] eqn:E. intros [= <- <- <-].
    eapply (fill_read _ (n `min` S k)); [lia|done|by intros [_ ?]%Forall_cons|done].
  - intros H. by apply fill_retry, IH.
  - destruct (decide (e = Interrupted)) as [->|Hne]; [intros H; by apply fill_retry, IH|].
    intros H. assert (r = Err e /\ cs' = cs /\ up' = up) as (-> & -> & ->) by (destruct e; by simplify_eq).
    split; [done|]. split; [by intros [_ ?]%Forall_cons|]. split; [done|]. by intros [? _]%Forall_cons.
Qed.

(** Draining: exactly the bytes at the front of the pipe. *)
Lemma push_out_spec n x pipe c r pipe' c' :
  x <> [] -> (0 < n)%nat -> push_out n (x ++ pipe) c = (r, pipe', c') ->
  match r with
  | Ok m => (0 < m)%nat /\ (m <= n)%nat /\ (m <= room c)%nat /\
      pipe' = drop m (x ++ pipe) /\ c' = Sink (wire c ++ take m (x ++ pipe)) (room c - m) (flushes c)
  | Err _ => c' = c /\ room c = 0%nat
  end.
Proof.
  intros Hx Hn. unfold push_out. destruct (x ++ pipe) as [|b l] eqn:E; [by destruct x|].
  destruct (room c =? 0)%nat eqn:Er; [apply Nat.eqb_eq in Er|apply Nat.eqb_neq in Er]; intros [= <- <- <-]; [done|].
  rewrite take_take, length_take. set (m := ((room c `min` n) `min` length (b :: l))%nat).
  assert (0 < m)%nat by (unfold m; cbn [length]; lia).
  assert (take (room c `min` n) (b :: l) = take m (b :: l)) as ->.
  { unfold m. destruct (decide (room c `min` n <= length (b :: l))%nat); [f_equal; lia|rewrite !take_ge; [done|lia..]]. }
  split; [done|]. split; [lia|]. split; [lia|]. by rewrite ?length_take.
Qed.

Definition drain_post (n : nat) (cs : list call) (x pipe : bytes) (c : sink) (r : result nat io_error) (cs' : list call) (pipe' : bytes) (c' : sink) : Prop :=
  (Forall gentle cs -> Forall gentle cs') /\
  match r with
  | Ok m => (0 < m <= n)%nat /\ (m <= room c)%nat /\ pipe' = drop m (x ++ pipe) /\
      c' = Sink (wire c ++ take m (x ++ pipe)) (room c - m) (flushes c)
  | Err _ => c' = c /\ (room c = 0%nat \/ ~ Forall gentle cs)
  end.

Lemma drain_push n m cs cs' x pipe c r pipe' c' :
  x <> [] -> (0 < m <= n)%nat -> (Forall gentle cs -> Forall gentle cs') ->
  push_out m (x ++ pipe) c = (r, pipe', c') -> drain_post n cs x pipe c r cs' pipe' c'.
Proof.
  intros Hx Hm Hg H. apply push_out_spec in H; [|done|lia]. split; [done|].
  destruct r; [|naive_solver]. destruct H as (? & ? & ? & ? & ?). split; [lia|done].
Qed.

Lemma drain_retry n cl cs x pipe c r cs' pipe' c' :
  gentle cl -> drain_post n cs x pipe c r cs' pipe' c' -> drain_post n (cl :: cs) x pipe c r cs' pipe' c'.
Proof.
  intros Hcl (H1 & H2). split; [by intros [_ ?]%Forall_cons; auto|]. destruct r; [done|].
  destruct H2 as [-> [?|Hn]]; (split; [done|]); [by left|]. right. intros [_ ?]%Forall_cons. done.
Qed.

Lemma drain_once_spec n cs x pipe c : forall r cs' pipe' c',
  x <> [] -> (0 < n)%nat -> drain_once cs n (x ++ pipe) c = (r, cs', pipe', c') ->
  drain_post n cs x pipe c r cs' pipe' c'.
Proof.
  induction cs as [|cl cs IH]; intros r cs' pipe' c' Hx Hn; cbn [drain_once].
  { destruct (push_out n (x ++ pipe) c) as [[r0 p0] c0] eqn:E. intros [= <- <- <- <-]. by eapply drain_push. }
  destruct cl as [k| |e].
  - destruct (push_out (n `min` S k) (x ++ pipe) c) as [[r0 p0] c0] eqn:E. intros [= <- <- <- <-].
    eapply (drain_push _ (n `min` S k)); [done|lia|by intros [_ ?]%Forall_cons|done].
  - intros H. by apply drain_retry, IH.
  - destruct (decide (e = Interrupted)) as [->|Hne]; [intros H; by apply drain_retry, IH|].
    intros H. assert (r = Err e /\ cs' = cs /\ c' = c) as (-> & -> & ->) by (destruct e; by simplify_eq).
    split; [by intros [_ ?]%Forall_cons|]. split; [done|]. right. by intros [? _]%Forall_cons.
Qed.

Lemma drain_loop_spec fuel : forall cs x pipe c sent,
  (length x < fuel)%nat ->
  exists ok cs' pipe' c' sent', drain_loop fuel cs (length x) (x ++ pipe) c sent = Some (ok, cs', pipe', c', sent') /\
    delivered x ok c c' /\ flushes c' = flushes c /\ (Forall gentle cs -> Forall gentle cs') /\
    (ok = true -> pipe' = pipe /\ sent' = sent + Z.of_nat (length x)) /\
    (Forall gentle cs -> (length x <= room c)%nat -> ok = true).
Proof.
  induction fuel as [|f IH]; intros cs x pipe c sent Hf; [lia|]. cbn [drain_loop].
  destruct (length x =? 0)%nat eqn:E0; [apply Nat.eqb_eq in E0|apply Nat.eqb_neq in E0].
  { apply nil_length_inv in E0 as ->. exists true, cs, pipe, c, sent.
    split_and!; try done; [apply delivered_nil|]. simpl. intros _. split; [done|lia]. }
  destruct (drain_once cs (length x) (x ++ pipe) c) as [[[r cs1] p1] c1] eqn:E.
  apply drain_once_spec in E as [Hg Hr]; [|by intros ->|lia]. destruct r as [m|e].
  - destruct Hr as (Hm & Hmr & -> & ->). destruct m as [|m0]; [lia|]. set (m := S m0) in *.
    rewrite drop_app, take_app. replace (m - length x)%nat with 0%nat by lia. rewrite drop_0, take_0, app_nil_r.
    set (c1 := Sink _ _ _). replace (length x - m)%nat with (length (drop m x)) by (rewrite length_drop; lia).
    destruct (IH cs1 (drop m x) pipe c1 (sent + Z.of_nat m)) as (ok & cs2 & p2 & c2 & s2 & -> & Hd & Hfl & Hg2 & Hok & Hc);
      [rewrite length_drop; lia|].
    exists ok, cs2, p2, c2, s2. rewrite length_drop in *.
    assert (length (take m x) = m) as Htl by (rewrite length_take; lia).
    split; [done|]. split; [|split; [by rewrite Hfl|split; [auto|split]]].
    + rewrite <- (take_drop m x). eapply delivered_app; [|done]. unfold delivered, c1. cbn [wire room]. rewrite Htl. done.
    + intros H. destruct (Hok H). split; [done|lia].
    + intros Hgs Hroom. apply Hc; [auto|cbn [room c1]; lia].
  - destruct Hr as [-> Hbad]. exists false, cs1, p1, c, sent. split_and!; try done; [by apply delivered_none|].
    intros Hgs Hroom. destruct Hbad; [lia|done].
Qed.

Definition gentle_kernel (k : kernel) : Prop := Forall gentle (fills k) /\ Forall gentle (drains k).

(** Between rounds: an empty pipe, and the parked relay untouched. *)
Definition settled (x x' : pump) : Prop :=
  ppipe x' = [] /\ plain (pup x') /\ idle_relay (pk x') = idle_relay (pk x) /\ flushes (pc x') = flushes (pc x) /\
  (gentle_kernel (pk x) -> gentle_kernel (pk x')).

Inductive round_post (first : bool) (want : nat) (eof : Outcome) (x : pump) : pump * nat + Outcome * pump -> Prop :=
  | round_moved got x' :
      got <> [] -> (length got <= want)%nat -> arrived (pup x) = got ++ arrived (pup x') ->
      clean_end (pup x') = clean_end (pup x) -> (weight (pup x') < weight (pup x))%nat ->
      delivered got true (pc x) (pc x') -> psent x' = psent x + Z.of_nat (length got) -> settled x x' ->
      round_post first want eof x (inl (x', length got))
  | round_eof x' :
      arrived (pup x) = [] -> clean_end (pup x) = true -> pc x' = pc x -> psent x' = psent x -> settled x x' ->
      round_post first want eof x (inr (eof, x'))
  | round_failed got rest x' :
      arrived (pup x) = got ++ rest -> (length got <= want)%nat -> delivered got false (pc x) (pc x') ->
      idle_relay (pk x') = idle_relay (pk x) ->
      (gentle_kernel (pk x) -> (room (pc x) < length got)%nat \/ arrived (pup x) = [] /\ clean_end (pup x) = false) ->
      round_post first want eof x (inr (Ran false, x'))
  | round_refused x' :
      first = true -> pup x' = pup x -> pc x' = pc x -> psent x' = psent x -> settled x x' ->
      (gentle_kernel (pk x) -> arrived (pup x) = [] /\ clean_end (pup x) = false) ->
      round_post first want eof x (inr (RelayUnsupported, x')).

Lemma relay_round_spec first want eof x :
  ppipe x = [] -> plain (pup x) -> (0 < want)%nat ->
  exists out, relay_round first want eof x = Some out /\ round_post first want eof x out.
Proof.
  intros Hpipe Hp Hw. unfold relay_round.
  destruct (fill_once (fills (pk x)) want (pup x)) as [[r cs] up'] eqn:Ef.
  apply fill_once_spec in Ef as (Hp' & Hg & Hr); [|done|done].
  assert (gentle_kernel (pk x) -> gentle_kernel (set_fills (pk x) cs)) as Hgk
    by (intros [H1 H2]; split; [by apply Hg|done]).
  destruct r as [[|b got0]|e].
  - destruct Hr as [Ha Hc]. eexists. split; [done|]. by apply round_eof.
  - set (got := b :: got0) in *. destruct Hr as (Ha & Hc & Hwt & Hl). rewrite Hpipe. cbn [app].
    destruct (drain_loop_spec (S (length got)) (drains (set_fills (pk x) cs)) got [] (pc x) (psent x))
      as (ok & ds & pipe' & c' & s' & Hdl & Hd & Hfl & Hg2 & Hok & Hcalm); [lia|].
    rewrite app_nil_r in Hdl. unfold drain. rewrite Hdl. cbn [mbind option_bind]. eexists. split; [done|]. destruct ok.
    + destruct (Hok eq_refl) as [-> ->]. apply round_moved; try done.
      split_and!; try done. intros Hk. destruct (Hgk Hk) as [H1 H2]. split; [done|by apply Hg2].
    + eapply round_failed; [exact Ha|done|done|done|]. intros Hk. left. destruct (Hgk Hk) as [H1 H2].
      apply Nat.nle_gt. intros Hle. by specialize (Hcalm H2 Hle).
  - destruct Hr as [Hu Hgr]. eexists. split; [done|]. destruct (first && unsupported e) eqn:Eu.
    + apply andb_true_iff in Eu as [-> Eu]. rewrite (Hu Eu) in *. apply round_refused; try done.
      intros [H _]. by apply Hgr.
    + apply (round_failed _ _ _ _ [] (arrived (pup x))); [done|simpl; lia|by apply delivered_none|done|].
      intros [Hf _]. right. by apply Hgr.
Qed.

Lemma settled_trans x y z : settled x y -> settled y z -> settled x z.
Proof. intros (? & ? & ? & ? & ?) (? & ? & ? & ? & ?). split_and!; try congruence; auto. Qed.

Lemma settled_refl x : ppipe x = [] -> plain (pup x) -> settled x x.
Proof. done. Qed.

(** How the relay of [body] ended; refusing it leaves everything in place. *)
Definition moved (body : bytes) (first : bool) (o : Outcome) (x x' : pump) : Prop :=
  idle_relay (pk x') = idle_relay (pk x) /\
  match o with
  | Ran ok =>
      delivered body ok (pc x) (pc x') /\
      (ok = true -> settled x x' /\ psent x' = psent x + Z.of_nat (length body))
  | RelayUnsupported => first = true /\ pup x' = pup x /\ pc x' = pc x /\ psent x' = psent x /\ settled x x'
  end.

Lemma moved_step got body first o x x1 x' :
  delivered got true (pc x) (pc x1) -> psent x1 = psent x + Z.of_nat (length got) -> settled x x1 ->
  moved body false o x1 x' -> moved (got ++ body) first o x x'.
Proof.
  intros Hd Hs Hst [Hi Hm]. pose proof Hst as (_ & _ & Hi1 & _). split; [congruence|]. destruct o as [ok|]; [|by destruct Hm].
  destruct Hm as [Hd2 Hok]. split; [by eapply delivered_app|]. intros H. destruct (Hok H) as [Hst2 Hs2].
  split; [by eapply settled_trans|]. rewrite length_app. lia.
Qed.

Lemma exact_loop_spec fuel : forall first remaining x,
  ppipe x = [] -> plain (pup x) -> (remaining < fuel)%nat ->
  exists o x', exact_loop fuel first remaining x = Some (o, x') /\
    moved (take remaining (arrived (pup x))) first o x x' /\
    (o = Ran true -> (remaining <= length (arrived (pup x)))%nat) /\
    (gentle_kernel (pk x) -> (remaining <= length (arrived (pup x)))%nat -> (remaining <= room (pc x))%nat -> o = Ran true).
Proof.
  induction fuel as [|f IH]; intros first remaining x Hpipe Hp Hf; [lia|]. cbn [exact_loop].
  destruct (remaining =? 0)%nat eqn:E0; [apply Nat.eqb_eq in E0 as ->|apply Nat.eqb_neq in E0].
  { exists (Ran true), x. rewrite take_0. split; [done|]. split; [|split; [lia|done]].
    split; [done|]. split; [apply delivered_nil|]. split; [by apply settled_refl|simpl; lia]. }
  destruct (relay_round_spec first (remaining `min` SPLICE_CHUNK) (Ran false) x Hpipe Hp) as (out & -> & Hout);
    [unfold SPLICE_CHUNK; lia|]. cbn [mbind option_bind].
  destruct Hout as [got x1 Hne Hlen Ha Hc Hw Hd Hs Hst|x1 Ha Hc Hpc Hs Hst|got rest x1 Ha Hlen Hd Hi Hbad|x1 -> Hup Hpc Hs Hst Hbad].
  - pose proof Hst as (Hpipe1 & Hp1 & _). assert (0 < length got)%nat by (destruct got; [done|simpl; lia]).
    destruct (IH false (remaining - length got)%nat x1) as (o & x' & -> & Hm & Hok & Hcalm); [done|done|lia|].
    exists o, x'. split; [done|]. rewrite Ha, length_app, take_app, (take_ge got) by lia.
    split; [by eapply moved_step|]. split; [intros ->; specialize (Hok eq_refl); lia|].
    intros Hk Hl Hr. destruct Hd as (_ & _ & Hrr). apply Hcalm; [by apply Hst|lia|lia].
  - exists (Ran false), x1. split; [done|]. rewrite Ha, take_nil. split; [|split; [done|simpl; lia]].
    destruct Hst as (_ & _ & Hi & _). split; [done|]. split; [|done]. apply delivered_none. by rewrite Hpc.
  - exists (Ran false), x1. split; [done|]. rewrite Ha, take_app, (take_ge got) by lia.
    split; [split; [done|]; split; [by apply delivered_more|done]|]. split; [done|].
    intros Hk Hl Hr. destruct (Hbad Hk) as [?|[Hnil _]]; [lia|]. rewrite Ha in Hnil. rewrite Hnil in Hl. simpl in Hl. lia.
  - exists RelayUnsupported, x1. split; [done|]. split; [|split; [done|]].
    + destruct Hst as (? & ? & ? & ?). by split.
    + intros Hk Hl Hr. destruct (Hbad Hk) as [Hnil _]. rewrite Hnil in Hl. simpl in Hl. lia.
Qed.

Lemma relay_eof_loop_spec fuel : forall first x,
  ppipe x = [] -> plain (pup x) -> (weight (pup x) < fuel)%nat ->
  exists o x', relay_eof_loop fuel first x = Some (o, x') /\
    moved (arrived (pup x)) first o x x' /\
    (o = Ran true -> clean_end (pup x) = true) /\
    (gentle_kernel (pk x) -> clean_end (pup x) = true -> (length (arrived (pup x)) <= room (pc x))%nat -> o = Ran true).
Proof.
  induction fuel as [|f IH]; intros first x Hpipe Hp Hf; [lia|]. cbn [relay_eof_loop].
  destruct (relay_round_spec first SPLICE_CHUNK (Ran true) x Hpipe Hp) as (out & -> & Hout);
    [unfold SPLICE_CHUNK; lia|]. cbn [mbind option_bind].
  destruct Hout as [got x1 Hne Hlen Ha Hc Hw Hd Hs Hst|x1 Ha Hc Hpc Hs Hst|got rest x1 Ha Hlen Hd Hi Hbad|x1 -> Hup Hpc Hs Hst Hbad].
  - pose proof Hst as (Hpipe1 & Hp1 & _).
    destruct (IH false x1) as (o & x' & -> & Hm & Hok & Hcalm); [done|done|lia|].
    exists o, x'. split; [done|]. rewrite Ha, length_app, <- Hc. split; [by eapply moved_step|]. split; [done|].
    intros Hk Hl Hr. destruct Hd as (_ & _ & Hrr). apply Hcalm; [by apply Hst|done|lia].
  - exists (Ran true), x1. split; [done|]. rewrite Ha. split; [|split; [done|done]].
    pose proof Hst as (_ & _ & Hi & _). split; [done|]. split; [rewrite Hpc; apply delivered_nil|]. split; [done|simpl; lia].
  - exists (Ran false), x1. split; [done|]. rewrite Ha.
    split; [split; [done|]; split; [by apply delivered_more|done]|]. split; [done|].
    intros Hk Hl Hr. rewrite length_app in Hr. destruct (Hbad Hk) as [?|[_ ?]]; [lia|congruence].
  - exists RelayUnsupported, x1. split; [done|]. split; [|split; [done|]].
    + pose proof Hst as (_ & _ & Hi & _). by split.
    + intros Hk Hl Hr. destruct (Hbad Hk) as [_ ?]. congruence.
Qed.

(** ** Parking *)

(** A parked relay's pipe is empty. *)
Definition idle_ok (k : kernel) : Prop := forall pipe, idle_relay k = Some pipe -> pipe = [].

Lemma acquire_spec k r k1 :
  idle_ok k -> acquire k = (r, k1) ->
  idle_ok k1 /\ (forall pipe, r = Some pipe -> pipe = []) /\ (gentle_kernel k -> gentle_kernel k1).
Proof.
  unfold acquire, relay_new. intros Hi. destruct (idle_relay k) as [pipe|] eqn:E.
  - intros [= <- <-]. split_and!; [done|intros ? [= <-]; by apply Hi|done].
  - destruct (pipes k) as [|ok ps]; intros [= <- <-]; (split; [done|]); (split; [|done]); [naive_solver|destruct ok; naive_solver].
Qed.

Lemma release_idle pipe k : idle_ok k -> pipe = [] -> idle_ok (release pipe k).
Proof. intros Hi ->. unfold release. destruct (idle_relay k) eqn:E; [done|]. by intros ? [= <-]. Qed.

(** What a body pump leaves: the bytes and count of [body], and a relay fit
    for the next forward. *)
Definition spliced (body : bytes) (sent : Z) (c : sink) (ok : bool) (k' : kernel) (c' : sink) (sent' : Z) : Prop :=
  idle_ok k' /\ delivered body ok c c' /\ (ok = true -> sent' = sent + Z.of_nat (length body)).

Lemma spliced_after first body sent c c1 ok k' c' sent' :
  delivered first true c c1 -> spliced body (sent + Z.of_nat (length first)) c1 ok k' c' sent' ->
  spliced (first ++ body) sent c ok k' c' sent'.
Proof.
  intros Hd (Hi & Hd2 & Hs). split; [done|]. split; [by eapply delivered_app|]. intros H. rewrite length_app, Hs by done. lia.
Qed.

Lemma lead_spec b c ok c1 :
  lead b c = (ok, c1) ->
  delivered b ok c c1 /\ flushes c1 = flushes c /\ ((length b <= room c)%nat -> ok = true).
Proof.
  unfold lead. destruct b as [|x b]; [intros [= <- <-]; split_and!; [apply delivered_nil|done|done]|].
  destruct (write_all (x :: b) c) as [r c0] eqn:E. apply write_all_delivered in E as (H1 & H2 & H3).
  by destruct r; intros [= <- <-].
Qed.

Lemma splice_fixed_spec fl k up c leftover clen sent :
  idle_ok k -> plain up ->
  exists ok k' up' c' sent', splice_fixed fl k up c leftover clen sent = Some (ok, k', up', c', sent') /\
    spliced (take clen (leftover ++ arrived up)) sent c ok k' c' sent' /\
    (ok = true -> (clen <= length (leftover ++ arrived up))%nat) /\
    (gentle_kernel k -> calm c -> (clen <= length (leftover ++ arrived up))%nat -> (clen <= room c)%nat -> ok = true).
Proof.
  intros Hi Hp. unfold splice_fixed. set (first := take clen leftover). set (remaining := (clen - length first)%nat).
  pose proof (take_lead_le clen leftover (arrived up)) as Hle. rewrite take_lead. fold first in Hle |- *. fold remaining in Hle |- *.
  setoid_rewrite Hle.
  assert (length first <= clen)%nat as Hfl by (unfold first; rewrite length_take; lia).
  destruct (lead first c) as [okl c1] eqn:El. apply lead_spec in El as (Hd & Hf & Hok). destruct okl; cbn [negb].
  2:{ exists false, k, up, c1, sent. split; [done|]. split; [split; [done|]; split; [by apply delivered_more|done]|].
      split; [done|]. intros _ _ _ Hr. apply Hok. lia. }
  assert (calm c -> calm c1) as Hcm by (unfold calm; by rewrite Hf). pose proof Hd as (_ & _ & Hr1).
  destruct (remaining =? 0)%nat eqn:E0; [apply Nat.eqb_eq in E0|apply Nat.eqb_neq in E0].
  { rewrite E0, take_0. exists true, k, up, c1, (sent + Z.of_nat (length first)). split; [done|].
    split; [|split; [lia|done]]. split; [done|]. rewrite app_nil_r. done. }
  assert (forall k0, idle_ok k0 -> (gentle_kernel k -> gentle_kernel k0) -> exists ok k' up' c' sent',
     ('(b, up', c', s') ← Portable.stream_fixed fl up c1 [] remaining (sent + Z.of_nat (length first)); Some (b, k0, up', c', s'))
       = Some (ok, k', up', c', sent') /\
     spliced (first ++ take remaining (arrived up)) sent c ok k' c' sent' /\
     (ok = true -> (remaining <= length (arrived up))%nat) /\
     (gentle_kernel k -> calm c -> (remaining <= length (arrived up))%nat -> (clen <= room c)%nat -> ok = true)) as Hfallback.
  { intros k0 Hi0 _. destruct (Portable.stream_fixed_spec fl up c1 [] remaining (sent + Z.of_nat (length first)))
      as (ok & up' & c' & s' & -> & Hd2 & Hs & Hc). cbn [mbind option_bind app] in *.
    exists ok, k0, up', c', s'. split; [done|]. split; [eapply spliced_after; [done|]|].
    - split; [done|]. split; [done|]. intros H. destruct (Hs H) as [Hl ->]. rewrite length_take. lia.
    - split; [intros H; by destruct (Hs H)|]. intros _ Hcalm Hl Hr. apply Hc; [by apply Hcm|done|lia]. }
  destruct (acquire k) as [[pipe|] k1] eqn:Ea; apply acquire_spec in Ea as (Hi1 & Hpe & Hg1); [|done|by apply Hfallback|done].
  rewrite (Hpe pipe eq_refl). set (x := Pump _ _ _ _ _).
  destruct (exact_loop_spec (S remaining) true remaining x) as (o & x' & Hx & [Hid Hm] & Hlen & Hcalm); [done|done|lia|].
  unfold move_exact. rewrite Hx. cbn [mbind option_bind]. assert (idle_ok (pk x')) as Hi' by (unfold idle_ok; rewrite Hid; done).
  destruct o as [[]|].
  - destruct Hm as [Hd2 Hs]. destruct (Hs eq_refl) as [(Hpipe & _) Hs2]. eexists _, _, _, _, _. split; [done|].
    split; [eapply spliced_after; [done|]; split; [by apply release_idle|by split]|]. split; [by intros _; apply Hlen|done].
  - destruct Hm as [Hd2 _]. eexists _, _, _, _, _. split; [done|]. split; [eapply spliced_after; [done|]; by split|].
    split; [done|]. intros Hk Hc Hl Hr. cut (Ran false = Ran true); [done|]. apply Hcalm; [by apply Hg1|done|cbn; lia].
  - destruct Hm as (_ & Hup & Hpc & Hs & (Hpipe & _ & _ & _ & Hgx)). rewrite Hup, Hpc, Hs. apply Hfallback.
    + by apply release_idle.
    + intros Hk. specialize (Hgx (Hg1 Hk)). unfold release. by destruct (idle_relay _).
Qed.

Lemma splice_eof_spec fl k up c leftover sent :
  idle_ok k -> plain up ->
  exists ok k' up' c' sent', splice_eof fl k up c leftover sent = Some (ok, k', up', c', sent') /\
    spliced (leftover ++ arrived up) sent c ok k' c' sent' /\
    (ok = true -> clean_end up = true) /\
    (gentle_kernel k -> calm c -> clean_end up = true -> (length (leftover ++ arrived up) <= room c)%nat -> ok = true).
Proof.
  intros Hi Hp. unfold splice_eof. setoid_rewrite length_app.
  destruct (lead leftover c) as [okl c1] eqn:El. apply lead_spec in El as (Hd & Hf & Hok). destruct okl; cbn [negb].
  2:{ exists false, k, up, c1, sent. split; [done|]. split; [split; [done|]; split; [by apply delivered_more|done]|].
      split; [done|]. intros _ _ _ Hr. apply Hok. lia. }
  assert (calm c -> calm c1) as Hcm by (unfold calm; by rewrite Hf). pose proof Hd as (_ & _ & Hr1).
  assert (forall k0, idle_ok k0 -> exists ok k' up' c' sent',
     ('(b, up', c', s') ← Portable.stream_to_eof fl up c1 [] (sent + Z.of_nat (length leftover)); Some (b, k0, up', c', s'))
       = Some (ok, k', up', c', sent') /\
     spliced (leftover ++ arrived up) sent c ok k' c' sent' /\
     (ok = true -> clean_end up = true) /\
     (gentle_kernel k -> calm c -> clean_end up = true -> (length leftover + length (arrived up) <= room c)%nat -> ok = true)) as Hfallback.
  { intros k0 Hi0. destruct (Portable.stream_to_eof_spec fl up c1 [] (sent + Z.of_nat (length leftover)))
      as (ok & up' & c' & s' & -> & Hd2 & Hs & Hc). cbn [mbind option_bind app] in *.
    exists ok, k0, up', c', s'. split; [done|]. split; [eapply spliced_after; [done|]|].
    - split; [done|]. split; [done|]. intros H. by destruct (Hs H).
    - split; [intros H; by destruct (Hs H)|]. intros _ Hcalm Hl Hr. apply Hc; [by apply Hcm|done|lia]. }
  destruct (acquire k) as [[pipe|] k1] eqn:Ea; apply acquire_spec in Ea as (Hi1 & Hpe & Hg1); [|done|by apply Hfallback|done].
  rewrite (Hpe pipe eq_refl). set (x := Pump _ _ _ _ _).
  destruct (relay_eof_loop_spec (S (weight up)) true x) as (o & x' & Hx & [Hid Hm] & Hlen & Hcalm); [done|done|cbn; lia|].
  unfold move_to_eof. cbn [pup x]. rewrite Hx. cbn [mbind option_bind]. assert (idle_ok (pk x')) as Hi' by (unfold idle_ok; rewrite Hid; done).
  destruct o as [[]|].
  - destruct Hm as [Hd2 Hs]. destruct (Hs eq_refl) as [(Hpipe & _) Hs2]. eexists _, _, _, _, _. split; [done|].
    split; [eapply spliced_after; [done|]; split; [by apply release_idle|by split]|]. split; [by intros _; apply Hlen|done].
  - destruct Hm as [Hd2 _]. eexists _, _, _, _, _. split; [done|]. split; [eapply spliced_after; [done|]; by split|].
    split; [done|]. intros Hk Hc Hl Hr. cut (Ran false = Ran true); [done|]. apply Hcalm; [by apply Hg1|done|cbn; lia].
  - destruct Hm as (_ & Hup & Hpc & Hs & (Hpipe & _)). rewrite Hup, Hpc, Hs. apply Hfallback. by apply release_idle.
Qed.
End Relay.

(** ** Both pumps *)

(** The body a response is framed to, and whether all of it is there. *)
Definition framed (clen : option nat) (leftover : bytes) (up : upstream) : bytes :=
  match clen with Some n => take n (leftover ++ arrived up) | None => leftover ++ arrived up end.

Definition whole (clen : option nat) (leftover : bytes) (up : upstream) : bool :=
  match clen with Some n => (n <=? length (leftover ++ arrived up))%nat | None => clean_end up end.

Definition portable_body (fl : bool) (up : upstream) (c : sink) (clen : option nat) (leftover : bytes) (sent : Z) :=
  match clen with
  | Some n => Portable.stream_fixed fl up c leftover n sent
  | None => Portable.stream_to_eof fl up c leftover sent
  end.

Definition spliced_body (fl : bool) (k : Relay.kernel) (up : upstream) (c : sink) (clen : option nat) (leftover : bytes) (sent : Z) :=
  match clen with
  | Some n => Relay.splice_fixed fl k up c leftover n sent
  | None => Relay.splice_eof fl k up c leftover sent
  end.

(** What was sent and counted, given whether the pump reports the body complete. *)
Definition body_sent (clen : option nat) (leftover : bytes) (up : upstream) (sent : Z) (c : sink) (ok : bool) (c' : sink) (sent' : Z) : Prop :=
  delivered (framed clen leftover up) ok c c' /\
  (ok = true -> whole clen leftover up = true /\ sent' = sent + Z.of_nat (length (framed clen leftover up))).

Lemma portable_body_sent fl up c clen leftover sent :
  exists ok up' c' sent', portable_body fl up c clen leftover sent = Some (ok, up', c', sent') /\
    body_sent clen leftover up sent c ok c' sent' /\
    (calm c -> (length (framed clen leftover up) <= room c)%nat -> ok = whole clen leftover up).
Proof.
  unfold portable_body, body_sent, framed, whole. destruct clen as [n|].
  - destruct (Portable.stream_fixed_spec fl up c leftover n sent) as (ok & up' & c' & s' & -> & Hd & Hs & Hc).
    exists ok, up', c', s'. split; [done|]. split; [split; [done|]|].
    + intros H. destruct (Hs H) as [Hl ->]. rewrite length_take, Nat.min_l by done. by rewrite (proj2 (Nat.leb_le _ _)).
    + intros Hcalm Hr. destruct (n <=? length (leftover ++ arrived up))%nat eqn:E.
      * apply Nat.leb_le in E. rewrite length_take in Hr. apply Hc; [done|done|lia].
      * apply Nat.leb_gt in E. apply not_true_iff_false. intros H. destruct (Hs H). lia.
  - destruct (Portable.stream_to_eof_spec fl up c leftover sent) as (ok & up' & c' & s' & -> & Hd & Hs & Hc).
    exists ok, up', c', s'. split; [done|]. split; [done|]. intros Hcalm Hr.
    destruct (clean_end up); [by apply Hc|]. apply not_true_iff_false. intros H. by destruct (Hs H).
Qed.

Lemma spliced_body_sent fl k up c clen leftover sent :
  Relay.idle_ok k -> Relay.plain up ->
  exists ok k' up' c' sent', spliced_body fl k up c clen leftover sent = Some (ok, k', up', c', sent') /\
    Relay.idle_ok k' /\ body_sent clen leftover up sent c ok c' sent' /\
    (calm c -> Relay.gentle_kernel k -> (length (framed clen leftover up) <= room c)%nat -> ok = whole clen leftover up).
Proof.
  intros Hi Hp. unfold spliced_body, body_sent, framed, whole. destruct clen as [n|].
  - destruct (Relay.splice_fixed_spec fl k up c leftover n sent Hi Hp) as (ok & k' & up' & c' & s' & -> & (Hi' & Hd & Hs) & Hl & Hc).
    exists ok, k', up', c', s'. split; [done|]. split; [done|]. split; [split; [done|]|].
    + intros H. rewrite (Hs H). by rewrite (proj2 (Nat.leb_le _ _) (Hl H)).
    + intros Hcalm Hk Hr. destruct (n <=? length (leftover ++ arrived up))%nat eqn:E.
      * apply Nat.leb_le in E. rewrite length_take in Hr. apply Hc; [done|done|done|lia].
      * apply Nat.leb_gt in E. apply not_true_iff_false. intros H. specialize (Hl H). lia.
  - destruct (Relay.splice_eof_spec fl k up c leftover sent Hi Hp) as (ok & k' & up' & c' & s' & -> & (Hi' & Hd & Hs) & Hl & Hc).
    exists ok, k', up', c', s'. split; [done|]. split; [done|]. split; [split; [done|naive_solver]|].
    intros Hcalm Hk Hr. destruct (clean_end up); [by apply Hc|]. apply not_true_iff_false. intros H. by specialize (Hl H).
Qed.

(** ** What is left of the upstream

    A pump leaves the faults of the upstream as they were. *)
Lemma fixed_loop_plain fuel : forall fl up c n sent ok up' c' sent',
  Relay.plain up -> Portable.fixed_loop fuel fl up c n sent = Some (ok, up', c', sent') -> Relay.plain up'.
Proof.
  induction fuel as [|f IH]; intros fl up c n sent ok up' c' sent' Hp; [done|]. cbn [Portable.fixed_loop].
  destruct (n =? 0)%nat; [by intros [= _ <- _ _]|]. destruct (read PROXY_CHUNK up) as [r u] eqn:Er.
  apply Relay.read_plain in Er as [Hu _]; [|done]. destruct r as [[|b l]|e]; [by intros [= _ <- _ _]| |by intros [= _ <- _ _]].
  destruct (put _ _ _) as [[] c1]; [by apply IH|by intros [= _ <- _ _]].
Qed.

Lemma eof_loop_plain fuel : forall fl up c sent ok up' c' sent',
  Relay.plain up -> Portable.eof_loop fuel fl up c sent = Some (ok, up', c', sent') -> Relay.plain up'.
Proof.
  induction fuel as [|f IH]; intros fl up c sent ok up' c' sent' Hp; [done|]. cbn [Portable.eof_loop].
  destruct (read PROXY_CHUNK up) as [r u] eqn:Er. apply Relay.read_plain in Er as [Hu _]; [|done].
  destruct r as [[|b l]|e]; [by intros [= _ <- _ _]| |by intros [= _ <- _ _]].
  destruct (put _ _ _) as [[] c1]; [by apply IH|by intros [= _ <- _ _]].
Qed.

Lemma chunked_loop_plain checks fuel : forall fl p up c sent ok up' c' sent',
  Relay.plain up -> Portable.chunked_loop checks fuel fl p up c sent = Some (ok, up', c', sent') -> Relay.plain up'.
Proof.
  induction fuel as [|f IH]; intros fl p up c sent ok up' c' sent' Hp; [done|]. cbn [Portable.chunked_loop].
  destruct (read PROXY_CHUNK up) as [r u] eqn:Er. apply Relay.read_plain in Er as [Hu _]; [|done].
  destruct r as [[|b l]|e]; [by intros [= _ <- _ _]| |by intros [= _ <- _ _]].
  destruct (put _ _ _) as [[] c1]; [|by intros [= _ <- _ _]].
  destruct (advance _ _ _) as [[p' []]|]; [by intros [= _ <- _ _]|by apply IH|done].
Qed.

Lemma portable_body_plain fl up c clen leftover sent ok up' c' sent' :
  Relay.plain up -> portable_body fl up c clen leftover sent = Some (ok, up', c', sent') -> Relay.plain up'.
Proof.
  intros Hp. unfold portable_body, Portable.stream_fixed, Portable.stream_to_eof. intros H.
  repeat case_match; simplify_eq; first [done|by eapply fixed_loop_plain|by eapply eof_loop_plain].
Qed.

Lemma stream_chunked_plain checks fl up c leftover sent ok up' c' sent' :
  Relay.plain up -> Portable.stream_chunked checks fl up c leftover sent = Some (ok, up', c', sent') -> Relay.plain up'.
Proof.
  intros Hp. unfold Portable.stream_chunked. destruct leftover as [|b l]; [by apply chunked_loop_plain|].
  destruct (put _ _ _) as [[] c1]; [|by intros [= _ <- _ _]].
  destruct (advance _ _ _) as [[p' []]|]; [by intros [= _ <- _ _]|by apply chunked_loop_plain|done].
Qed.

Lemma fill_once_plain cs n : forall up r cs' up',
  Relay.plain up -> Relay.fill_once cs n up = (r, cs', up') -> Relay.plain up'.
Proof.
  induction cs as [|x cs IH]; intros up r cs' up' Hp; cbn [Relay.fill_once]; rewrite ?Relay.skip_plain by done.
  - destruct (read n up) as [r0 u] eqn:E. apply Relay.read_plain in E as [? _]; [|done]. by intros [= _ _ <-].
  - destruct x as [k| |e]; [|by apply IH|destruct e; first [by apply IH|by intros [= _ _ <-]]].
    destruct (read _ up) as [r0 u] eqn:E. apply Relay.read_plain in E as [? _]; [|done]. by intros [= _ _ <-].
Qed.

Lemma relay_round_plain first want eof x r : Relay.plain (Relay.pup x) -> Relay.relay_round first want eof x = Some r ->
  match r with inl (x', _) | inr (_, x') => Relay.plain (Relay.pup x') end.
Proof.
  intros Hp. unfold Relay.relay_round. destruct (Relay.fill_once _ _ _) as [[r0 cs] u] eqn:E.
  apply fill_once_plain in E; [|done]. destruct r0 as [[|b l]|e]; [by intros [= <-]| |by intros [= <-]].
  destruct (Relay.drain _ _ _ _ _) as [[[[[[] ds] pipe'] c'] s']|]; [by intros [= <-]..|done].
Qed.

Lemma exact_loop_plain fuel : forall first n x o x',
  Relay.plain (Relay.pup x) -> Relay.exact_loop fuel first n x = Some (o, x') -> Relay.plain (Relay.pup x').
Proof.
  induction fuel as [|f IH]; intros first n x o x' Hp; [done|]. cbn [Relay.exact_loop].
  destruct (n =? 0)%nat; [by intros [= _ <-]|]. destruct (Relay.relay_round _ _ _ _) as [r|] eqn:E; [|done].
  apply relay_round_plain in E; [|done]. destruct r as [[x1 k]|[o1 x1]]; [by apply IH|by intros [= _ <-]].
Qed.

Lemma relay_eof_loop_plain fuel : forall first x o x',
  Relay.plain (Relay.pup x) -> Relay.relay_eof_loop fuel first x = Some (o, x') -> Relay.plain (Relay.pup x').
Proof.
  induction fuel as [|f IH]; intros first x o x' Hp; [done|]. cbn [Relay.relay_eof_loop].
  destruct (Relay.relay_round _ _ _ _) as [r|] eqn:E; [|done].
  apply relay_round_plain in E; [|done]. destruct r as [[x1 k]|[o1 x1]]; [by apply IH|by intros [= _ <-]].
Qed.

Lemma spliced_body_plain fl k up c clen leftover sent ok k' up' c' sent' :
  Relay.plain up -> spliced_body fl k up c clen leftover sent = Some (ok, k', up', c', sent') -> Relay.plain up'.
Proof.
  intros Hp. unfold spliced_body, Relay.splice_fixed, Relay.splice_eof. destruct clen as [n|]; cbn zeta;
    destruct (Relay.lead _ c) as [[] c1]; cbn [negb]; [|by intros [= _ _ <- _ _]| |by intros [= _ _ <- _ _]].
  - destruct (_ =? 0)%nat; [by intros [= _ _ <- _ _]|].
    assert (forall k u c s, Relay.plain u -> ('(b, up', c', s') ← Portable.stream_fixed fl u c [] (n - length (take n leftover)) s;
      Some (b, k, up', c', s')) = Some (ok, k', up', c', sent') -> Relay.plain up') as Hf.
    { intros k0 u c0 s Hu. destruct (Portable.stream_fixed _ _ _ _ _ _) as [[[[b u'] c''] s'']|] eqn:E; [|done].
      intros [= _ _ <- _ _]. exact (portable_body_plain fl u c0 (Some _) [] s _ _ _ _ Hu E). }
    destruct (Relay.acquire k) as [[pipe|] k1]; [|by apply Hf].
    destruct (Relay.move_exact _ _) as [[o x]|] eqn:E; [|done]. apply exact_loop_plain in E; [|done].
    destruct o as [[]|]; [by intros [= _ _ <- _ _]..|by apply Hf].
  - assert (forall k u c s, Relay.plain u -> ('(b, up', c', s') ← Portable.stream_to_eof fl u c [] s;
      Some (b, k, up', c', s')) = Some (ok, k', up', c', sent') -> Relay.plain up') as Hf.
    { intros k0 u c0 s Hu. destruct (Portable.stream_to_eof _ _ _ _ _) as [[[[b u'] c''] s'']|] eqn:E; [|done].
      intros [= _ _ <- _ _]. exact (portable_body_plain fl u c0 None [] s _ _ _ _ Hu E). }
    destruct (Relay.acquire k) as [[pipe|] k1]; [|by apply Hf].
    destruct (Relay.move_to_eof _) as [[o x]|] eqn:E; [|done]. apply relay_eof_loop_plain in E; [|done].
    destruct o as [[]|]; [by intros [= _ _ <- _ _]..|by apply Hf].
Qed.

(** C19. The two ways to relay a body, of a stated length or up to the close. The
    user-space pump terminates whatever the upstream's reads find, and sends the
    client a prefix of the framed body, all of it when it reports the body
    complete. So does the pipe relay, whatever the kernel's splices do, on an
    upstream whose reads are not interrupted and do not fail as a splice that is
    not supported does; and it parks only an empty pipe. On such an upstream, for
    a client that takes everything and a kernel whose splices fail only by
    interruption, the two agree: both report the body complete exactly when the
    upstream delivered it whole, and then both have sent exactly it. *)
Theorem body_pumps_agree fl k up c clen leftover sent :
  Relay.idle_ok k ->
  exists okp upp cp sp, portable_body fl up c clen leftover sent = Some (okp, upp, cp, sp) /\
    body_sent clen leftover up sent c okp cp sp /\
    (Relay.plain up ->
     exists oks k' ups cs ss, spliced_body fl k up c clen leftover sent = Some (oks, k', ups, cs, ss) /\
       body_sent clen leftover up sent c oks cs ss /\ Relay.idle_ok k' /\
       (calm c -> Relay.gentle_kernel k -> (length (framed clen leftover up) <= room c)%nat ->
          okp = whole clen leftover up /\ oks = whole clen leftover up /\
          (whole clen leftover up = true -> wire cp = wire c ++ framed clen leftover up /\ wire cs = wire c ++ framed clen leftover up))).
Proof.
  intros Hi. destruct (portable_body_sent fl up c clen leftover sent) as (okp & upp & cp & sp & H1 & H2 & H3).
  exists okp, upp, cp, sp. split_and!; [done..|]. intros Hp.
  destruct (spliced_body_sent fl k up c clen leftover sent Hi Hp) as (oks & k' & ups & cs & ss & H4 & H5 & H6 & H7).
  exists oks, k', ups, cs, ss. split_and!; [done..|]. intros Hc Hg Hr. specialize (H3 Hc Hr). specialize (H7 Hc Hg Hr). split_and!; [done..|].
  intros Hw. rewrite Hw in H3, H7. destruct H2 as [H2 _], H6 as [H6 _]. rewrite H3 in H2. rewrite H7 in H6. split; [apply H2|apply H6].
Qed.

Definition demo_up : upstream := [Data (bs "lo, w"); Data (bs "orld"); Fault TimedOut].
Definition demo_kernel : Relay.kernel := Relay.Kernel [Short 1; Intr] [Intr; Short 0] [] None.

Example relay_run :
  (fun r => wire r.1.2) <$> spliced_body false demo_kernel demo_up (Sink [] 99 []) (Some 12%nat) (bs "hel") 0 = Some (bs "hello, world") /\
  (fun r => wire r.1.2) <$> spliced_body false (Relay.Kernel [Failed Unsupported] [] [] None) demo_up (Sink [] 99 []) (Some 12%nat) (bs "hel") 0
    = Some (bs "hello, world").
Proof. vm_compute. done. Qed.

(** A read that a signal interrupts ends the body in user space, and is made again
    by the relay. *)
Example interrupted_read_differs :
  let up := [Data (bs "lo, w"); Fault Interrupted; Data (bs "orld")] in
  (fun r => (r.1.1.1, wire r.1.2)) <$> portable_body false up (Sink [] 99 []) (Some 12%nat) (bs "hel") 0 = Some (false, bs "hello, w") /\
  (fun r => (r.1.1.1.1, wire r.1.2)) <$> spliced_body false (Relay.Kernel [] [] [] None) up (Sink [] 99 []) (Some 12%nat) (bs "hel") 0 = Some (true, bs "hello, world").
Proof. vm_compute. done. Qed.

Lemma body_pumps_agree_witness :
  exists okp upp cp sp oks k' ups cs ss,
    portable_body false demo_up (Sink [] 99 []) (Some 12%nat) (bs "hel") 0 = Some (okp, upp, cp, sp) /\
    spliced_body false demo_kernel demo_up (Sink [] 99 []) (Some 12%nat) (bs "hel") 0 = Some (oks, k', ups, cs, ss) /\
    okp = true /\ oks = true /\ wire cp = bs "hello, world" /\ wire cs = bs "hello, world".
Proof.
  destruct (body_pumps_agree false demo_kernel demo_up (Sink [] 99 []) (Some 12%nat) (bs "hel") 0) as (okp & upp & cp & sp & H1 & _ & H); [by intros pipe [=]|].
  destruct H as (oks & k' & ups & cs & ss & H2 & _ & _ & Hc).
  - unfold Relay.plain, demo_up. repeat (apply Forall_cons_2 || apply Forall_nil_2); cbn; auto.
  - exists okp, upp, cp, sp, oks, k', ups, cs, ss. split; [exact H1|]. split; [exact H2|]. destruct Hc as (Hp & Hs & Hw).
    + constructor.
    + split; repeat (apply Forall_cons_2 || apply Forall_nil_2); exact I.
    + vm_compute. lia.
    + destruct (Hw eq_refl) as [Hw1 Hw2]. split; [exact Hp|]. split; [exact Hs|]. split; [exact Hw1|exact Hw2].
Defined.
