(* ===== verification/Fleet.v ===== *)
(** * The backend fleet ([proxy_dial.rs], [Fleet])

    The configured backends with their live health mask, circuit breaker and
    load. Name resolution and the probe's connections are parameters. Shifts
    by a backend id and counters are [u32]: where the source would overflow it
    panics when the build checks arithmetic ([checks], [None]) and wraps or
    masks the shift when it does not. [Race] interleaves the breaker's updates
    one lock section or atomic operation at a time. *)
From S2P Require Import Prelude Bytes.
From stdpp Require Import sorting.

Local Open Scope Z_scope.

Abbreviation Backend := Z.
Abbreviation SockAddr := Z.

Record Fleet := mkFleet {
  targets : gmap Backend bytes;
  resolved : gmap Backend (option SockAddr);
  health : Z;
  breaker : gmap Backend Z;
  inflight : gmap Backend Z;
  breaker_threshold : Z;
  round : Z
}.

Definition set_health (f : Fleet) (h : Z) : Fleet :=
  mkFleet (targets f) (resolved f) h (breaker f) (inflight f) (breaker_threshold f) (round f).
Definition set_breaker (f : Fleet) (b : gmap Backend Z) : Fleet :=
  mkFleet (targets f) (resolved f) (health f) b (inflight f) (breaker_threshold f) (round f).
Definition set_inflight (f : Fleet) (m : gmap Backend Z) : Fleet :=
  mkFleet (targets f) (resolved f) (health f) (breaker f) m (breaker_threshold f) (round f).
Definition set_resolved (f : Fleet) (m : gmap Backend (option SockAddr)) : Fleet :=
  mkFleet (targets f) m (health f) (breaker f) (inflight f) (breaker_threshold f) (round f).

(** [str::split_once]. *)
Definition split_once (sep : Z) (l : bytes) : option (bytes * bytes) :=
  (fun p => (take p l, drop (S p) l)) <$> position (Z.eqb sep) l.

Section fleet.
Context (checks : bool) (resolve_target : bytes -> option SockAddr).

(** [1u32 << id]. *)
Definition bit_of (id : Backend) : option Z :=
  if id <? 32 then Some (2 ^ id) else if checks then None else Some (2 ^ (id mod 32)).

(** [n + 1] at [u32]. *)
Definition bump (n : Z) : option Z :=
  if n + 1 <? 2 ^ 32 then Some (n + 1) else if checks then None else Some (wrapping_add 32 n 1).

(** Per entry: outer [None] is a panic, inner [None] the malformed spec. *)
Definition parse_entry (entry : bytes) (acc : gmap Backend bytes * gmap Backend (option SockAddr) * Z) :
    option (option (gmap Backend bytes * gmap Backend (option SockAddr) * Z)) :=
  let '(ts, rs, mask) := acc in
  match split_once 61 entry with
  | None => Some None
  | Some (id_s, addr_s) =>
      match parse_uint 32 (str_trim id_s) with
      | None => Some None
      | Some id =>
          let target := str_trim addr_s in
          b ← bit_of id;
          Some (Some (<[id := target]> ts, <[id := resolve_target target]> rs, Z.lor mask b))
      end
  end.

Fixpoint parse_entries (entries : list bytes) (acc : gmap Backend bytes * gmap Backend (option SockAddr) * Z) :
    option (option (gmap Backend bytes * gmap Backend (option SockAddr) * Z)) :=
  match entries with
  | [] => Some (Some acc)
  | e :: entries' =>
      r ← parse_entry e acc;
      match r with None => Some None | Some acc' => parse_entries entries' acc' end
  end.

Definition parse (spec : bytes) (threshold : Z) : option (option Fleet) :=
  let entries := filter (fun s => s <> []) (str_trim <$> split_on (Z.eqb 44) spec) in
  r ← parse_entries entries (∅, ∅, 0);
  match r with
  | None => Some None
  | Some (ts, rs, mask) =>
      if bool_decide (ts = ∅) then Some None
      else Some (Some (mkFleet ts rs mask ∅ ((fun _ => 0) <$> ts) threshold 0))
  end.

Definition fleet_from_env (env : string -> option bytes) : option (option Fleet) :=
  match env "DRORB_PROXY_BACKENDS"%string with
  | None => Some None
  | Some spec =>
      parse spec (default 3 (v ← env "DRORB_PROXY_BREAKER"%string; parse_uint 32 v))
  end.

Definition mask (f : Fleet) : Z := Z.land (health f) 0xff.

Definition addr (f : Fleet) (id : Backend) : option SockAddr * Fleet :=
  match targets f !! id with
  | None => (None, f)
  | Some target =>
      match resolved f !! id with
      | Some (Some cached) => (Some cached, f)
      | slot =>
          match resolve_target target with
          | None => (None, f)
          | Some a =>
              (Some a, match slot with Some _ => set_resolved f (<[id := Some a]> (resolved f)) | None => f end)
          end
      end
  end.

Definition next_round (f : Fleet) : Z * Fleet :=
  (Z.land (round f) 0xff,
   mkFleet (targets f) (resolved f) (health f) (breaker f) (inflight f) (breaker_threshold f) (wrapping_add 32 (round f) 1)).

Definition conns_bytes (f : Fleet) : bytes :=
  (fun id => match inflight f !! id with Some c => Z.min c 255 | None => 0 end) <$> [0; 1; 2].

(** ** Health and breaker *)
Definition set_up (f : Fleet) (id : Backend) (up : bool) : option Fleet :=
  b ← bit_of id;
  Some (set_health f (if up then Z.lor (health f) b else Z.ldiff (health f) b)).

Definition record_success (f : Fleet) (id : Backend) : option Fleet :=
  set_up (set_breaker f (<[id := 0]> (breaker f))) id true.

Definition record_failure (f : Fleet) (id : Backend) : option Fleet :=
  n ← bump (default 0 (breaker f !! id));
  let f1 := set_breaker f (<[id := n]> (breaker f)) in
  if breaker_threshold f <=? n then set_up f1 id false else Some f1.

Definition inflight_inc (f : Fleet) (id : Backend) : Fleet :=
  match inflight f !! id with
  | Some c => set_inflight f (<[id := wrapping_add 32 c 1]> (inflight f))
  | None => f
  end.

Definition inflight_dec (f : Fleet) (id : Backend) : Fleet :=
  match inflight f !! id with
  | Some c => set_inflight f (<[id := wrapping_sub 32 c 1]> (inflight f))
  | None => f
  end.

(** One backend of a sweep; [accepts] is whether its address takes connections. *)
Definition probe_backend (accepts : SockAddr -> bool) (f : Fleet) (id : Backend) (target : bytes) : option Fleet :=
  let a := resolve_target target in
  let f1 := match resolved f !! id with Some _ => set_resolved f (<[id := a]> (resolved f)) | None => f end in
  let up := match a with Some x => accepts x | None => false end in
  let f2 := if up then set_breaker f1 (<[id := 0]> (breaker f1)) else f1 in
  set_up f2 id up.

Fixpoint probe_list (accepts : SockAddr -> bool) (l : list (Backend * bytes)) (f : Fleet) : option Fleet :=
  match l with
  | [] => Some f
  | (id, target) :: l' => f' ← probe_backend accepts f id target; probe_list accepts l' f'
  end.

Definition probe_once (accepts : SockAddr -> bool) (f : Fleet) : option (Z * Fleet) :=
  f' ← probe_list accepts (map_to_list (targets f)) f; Some (mask f', f').

(** ** The admin snapshot *)
Record BackendHealth := mkHealth {
  bh_id : Backend;
  bh_addr : bytes;
  bh_up : bool;
  bh_inflight : Z;
  bh_failures : Z;
  bh_open : bool
}.

Definition health_of (f : Fleet) (id : Backend) (target : bytes) : option BackendHealth :=
  b ← bit_of id;
  let failures := default 0 (breaker f !! id) in
  Some (mkHealth id target (negb (Z.land (health f) b =? 0)) (default 0 (inflight f !! id))
          failures (breaker_threshold f <=? failures)).

(** [sort_by_key(|b| b.id)]. *)
Definition by_id (p q : Backend * bytes) : Prop := p.1 <= q.1.

#[export] Instance by_id_dec : RelDecision by_id.
Proof. intros p q. unfold by_id. apply _. Defined.

Definition snapshot (f : Fleet) : option (list BackendHealth) :=
  mapM (fun '(id, target) => health_of f id target) (merge_sort by_id (map_to_list (targets f))).
End fleet.

(** ** Histories *)
Inductive FleetOp :=
  | Success (id : Backend)
  | Failure (id : Backend)
  | Sweep (accepts : SockAddr -> bool)
  | Enter (id : Backend)
  | Leave (id : Backend)
  | Lookup (id : Backend)
  | Round.

Section histories.
Context (checks : bool) (resolve_target : bytes -> option SockAddr).

(** Forwards only ever name a configured backend. *)
Definition fleet_step (op : FleetOp) (f : Fleet) : option Fleet :=
  match op with
  | Success id => if bool_decide (is_Some (targets f !! id)) then record_success checks f id else None
  | Failure id => if bool_decide (is_Some (targets f !! id)) then record_failure checks f id else None
  | Sweep accepts => snd <$> probe_once checks resolve_target accepts f
  | Enter id => Some (inflight_inc f id)
  | Leave id => Some (inflight_dec f id)
  | Lookup id => Some (addr resolve_target f id).2
  | Round => Some (next_round f).2
  end.

(** Every id is below the width of the mask. *)
Definition narrow (f : Fleet) : Prop := forall id t, targets f !! id = Some t -> 0 <= id < 32.

(** ** What the history says of one backend

    The failures since it last answered, whether it is up, and the forwards that
    entered and have not left. *)
Record Seen := mkSeen { failures : Z; up : bool; load : Z }.

Definition seen_step (thr : Z) (id : Backend) (target : bytes) (s : Seen) (op : FleetOp) : Seen :=
  match op with
  | Success i => if bool_decide (i = id) then mkSeen 0 true (load s) else s
  | Failure i => if bool_decide (i = id) then mkSeen (failures s + 1) (up s && (failures s + 1 <? thr)) (load s) else s
  | Sweep accepts =>
      if match resolve_target target with Some a => accepts a | None => false end
      then mkSeen 0 true (load s) else mkSeen (failures s) false (load s)
  | Enter i => if bool_decide (i = id) then mkSeen (failures s) (up s) (load s + 1) else s
  | Leave i => if bool_decide (i = id) then mkSeen (failures s) (up s) (load s - 1) else s
  | Lookup _ | Round => s
  end.

Definition seen (thr : Z) (id : Backend) (target : bytes) (ops : list FleetOp) : Seen :=
  fold_left (seen_step thr id target) ops (mkSeen 0 true 0).

Definition agree (f : Fleet) (id : Backend) (s : Seen) : Prop :=
  Z.testbit (health f) id = up s /\ default 0 (breaker f !! id) = failures s /\ inflight f !! id = Some (load s mod 2 ^ 32).

Lemma bit_of_narrow id : 0 <= id < 32 -> bit_of checks id = Some (2 ^ id).
Proof. intros H. unfold bit_of. by rewrite (proj2 (Z.ltb_lt _ _)) by lia. Qed.

Lemma testbit_lor_pow h id i : 0 <= id -> 0 <= i -> Z.testbit (Z.lor h (2 ^ id)) i = Z.testbit h i || (i =? id).
Proof. intros H Hi. rewrite Z.lor_spec, Z.pow2_bits_eqb by lia. by rewrite Z.eqb_sym. Qed.

Lemma testbit_ldiff_pow h id i : 0 <= id -> 0 <= i -> Z.testbit (Z.ldiff h (2 ^ id)) i = Z.testbit h i && negb (i =? id).
Proof. intros H Hi. rewrite Z.ldiff_spec, Z.pow2_bits_eqb by lia. by rewrite (Z.eqb_sym id). Qed.

(** [set_up] changes one bit. *)
Lemma set_up_spec f id u : 0 <= id < 32 ->
  exists h, set_up checks f id u = Some (set_health f h) /\ forall i, 0 <= i -> Z.testbit h i = if decide (i = id) then u else Z.testbit (health f) i.
Proof.
  intros Hid. unfold set_up. rewrite bit_of_narrow by done. cbn [mbind option_bind]. eexists. split; [done|]. intros i Hi. destruct u.
  - rewrite testbit_lor_pow by lia. destruct (decide (i = id)) as [->|Hne]; [by rewrite Z.eqb_refl, orb_true_r|]. by rewrite (proj2 (Z.eqb_neq _ _) Hne), orb_false_r.
  - rewrite testbit_ldiff_pow by lia. destruct (decide (i = id)) as [->|Hne]; [by rewrite Z.eqb_refl, andb_false_r|]. by rewrite (proj2 (Z.eqb_neq _ _) Hne), andb_true_r.
Qed.

(** The parts a history leaves alone, and the bits of the mask. *)
Record fleet_fixed (ts : gmap Backend bytes) (thr : Z) (f : Fleet) : Prop := {
  ff_targets : targets f = ts;
  ff_threshold : breaker_threshold f = thr;
  ff_narrow : narrow f;
  ff_bits : forall i, 0 <= i -> Z.testbit (health f) i = true -> is_Some (ts !! i)
}.

Lemma bits_kept (ts : gmap Backend bytes) h h' id u :
  is_Some (ts !! id) -> (forall i, 0 <= i -> Z.testbit h i = true -> is_Some (ts !! i)) ->
  (forall i, 0 <= i -> Z.testbit h' i = if decide (i = id) then u else Z.testbit h i) -> forall i, 0 <= i -> Z.testbit h' i = true -> is_Some (ts !! i).
Proof. intros Hid Hb Hh i Hi E. rewrite Hh in E by done. destruct (decide (i = id)) as [->|]; [done|eauto]. Qed.

Section tracked.
Context (ts : gmap Backend bytes) (thr : Z) (id : Backend) (target : bytes) (Hid : ts !! id = Some target) (f : Fleet) (s : Seen) (Hf : fleet_fixed ts thr f) (Hs : agree f id s).

Lemma id_narrow i t : ts !! i = Some t -> 0 <= i < 32.
Proof using Hf. intros H. eapply (ff_narrow _ _ _ Hf). by rewrite (ff_targets _ _ _ Hf). Qed.

Lemma success_tracked i f' : is_Some (targets f !! i) -> record_success checks f i = Some f' -> agree f' id (seen_step thr id target s (Success i)).
Proof using Hid Hf Hs.
  rewrite (ff_targets _ _ _ Hf). intros [t Ht] H. unfold record_success in H. pose proof (id_narrow i t Ht) as H32. pose proof (id_narrow id target Hid) as Hid32.
  destruct (set_up_spec (set_breaker f (<[i:=0]> (breaker f))) i true H32) as (h & E & Hh). rewrite E in H. injection H as <-.
  destruct Hs as (A1 & A2 & A3). unfold agree. cbn [seen_step]. case_bool_decide as Ei.
  - subst i. cbn. rewrite Hh, decide_True, lookup_insert_eq by (done || lia). done.
  - cbn. rewrite Hh, decide_False, lookup_insert_ne by (done || lia || congruence). done.
Qed.

Lemma failure_tracked i f' : is_Some (targets f !! i) -> 0 <= failures s + 1 < 2 ^ 32 -> record_failure checks f i = Some f' -> agree f' id (seen_step thr id target s (Failure i)).
Proof using Hid Hf Hs.
  rewrite (ff_targets _ _ _ Hf). intros [t Ht] Hb (n & Hn & H)%bind_Some. cbn zeta in H. pose proof (id_narrow i t Ht) as H32. pose proof (id_narrow id target Hid) as Hid32.
  destruct Hs as (A1 & A2 & A3). rewrite (ff_threshold _ _ _ Hf) in H.
  assert (i = id -> n = failures s + 1) as Hn'. { intros ->. rewrite A2 in Hn. unfold bump in Hn. rewrite (proj2 (Z.ltb_lt _ _)) in Hn by lia. congruence. }
  destruct (thr <=? n) eqn:E; zify_bool.
  - destruct (set_up_spec (set_breaker f (<[i:=n]> (breaker f))) i false H32) as (h & E' & Hh). rewrite E' in H. injection H as <-.
    unfold agree. cbn [seen_step]. case_bool_decide as Ei.
    + rewrite (Hn' Ei) in *. subst i. cbn. rewrite Hh, decide_True, lookup_insert_eq by (done || lia). rewrite (proj2 (Z.ltb_ge _ _)), andb_false_r by lia. done.
    + cbn. rewrite Hh, decide_False, lookup_insert_ne by (done || lia || congruence). done.
  - injection H as <-. unfold agree. cbn [seen_step]. case_bool_decide as Ei; cbn.
    + rewrite (Hn' Ei) in *. subst i. rewrite lookup_insert_eq, (proj2 (Z.ltb_lt _ _)), andb_true_r by lia. done.
    + by rewrite lookup_insert_ne by congruence.
Qed.
End tracked.

(** One backend of a sweep. *)
Lemma probe_backend_spec accepts ts thr f i t : fleet_fixed ts thr f -> ts !! i = Some t ->
  exists f', probe_backend checks resolve_target accepts f i t = Some f' /\ fleet_fixed ts thr f' /\ inflight f' = inflight f /\
    let ok := match resolve_target t with Some a => accepts a | None => false end in
    (forall j, 0 <= j -> Z.testbit (health f') j = if decide (j = i) then ok else Z.testbit (health f) j) /\
    breaker f' = if ok then <[i := 0]> (breaker f) else breaker f.
Proof.
  intros [H1 H2 H3 H4] Ht. unfold probe_backend. set (ok := match resolve_target t with Some x => accepts x | None => false end). cbv zeta.
  set (f1 := match resolved f !! i with Some _ => set_resolved f _ | None => f end). assert (targets f1 = targets f /\ health f1 = health f /\ breaker f1 = breaker f /\ inflight f1 = inflight f /\ breaker_threshold f1 = breaker_threshold f) as (E1 & E2 & E3 & E4 & E5)
    by (unfold f1; by destruct (resolved f !! i)).
  assert (0 <= i < 32) as H32 by (eapply H3; by rewrite H1). set (f2 := if ok then _ else _).
  assert (targets f2 = targets f /\ health f2 = health f /\ breaker f2 = (if ok then <[i := 0]> (breaker f) else breaker f) /\ inflight f2 = inflight f /\ breaker_threshold f2 = breaker_threshold f) as (F1 & F2 & F3 & F4 & F5)
    by (unfold f2; destruct ok; cbn; rewrite ?E3; split_and!; done).
  destruct (set_up_spec f2 i ok H32) as (h & -> & Hh). rewrite F2 in Hh. exists (set_health f2 h). split_and!; [done| |done|done|done].
  split; [by rewrite <- H1|by rewrite <- H2| |].
  - unfold narrow. cbn. by rewrite F1.
  - cbn. eapply bits_kept; [by rewrite Ht|exact H4|exact Hh].
Qed.

Lemma probe_list_spec accepts ts thr l : forall f, fleet_fixed ts thr f -> NoDup l.*1 -> Forall (fun p => ts !! p.1 = Some p.2) l ->
  exists f', probe_list checks resolve_target accepts l f = Some f' /\ fleet_fixed ts thr f' /\ inflight f' = inflight f /\
    forall id target s, ts !! id = Some target -> agree f id s -> agree f' id (if decide (id ∈ l.*1) then seen_step thr id target s (Sweep accepts) else s).
Proof.
  induction l as [|[i t] l IH]; intros f Hf Hd Hl; [by exists f|]. apply Forall_cons in Hl as [Hi Hl]. cbn [fst snd] in Hi. rewrite fmap_cons in Hd. apply NoDup_cons in Hd as [Hni Hd].
  cbn [probe_list]. destruct (probe_backend_spec accepts ts thr f i t Hf Hi) as (f1 & -> & Hf1 & E1 & Hh & Hb). cbn [mbind option_bind].
  destruct (IH f1 Hf1 Hd Hl) as (f2 & -> & Hf2 & E2 & Hag). exists f2. split_and!; [done|done|congruence|]. intros id target s Hid Hs. rewrite fmap_cons. cbn [fst].
  pose proof (id_narrow ts thr f Hf id target Hid) as H32. destruct Hs as (A1 & A2 & A3). destruct (decide (id = i)) as [->|Hne].
  - assert (t = target) as -> by congruence. rewrite decide_True by (by left).
    specialize (Hag i target (seen_step thr i target s (Sweep accepts)) Hid). rewrite decide_False in Hag by done. apply Hag. clear Hag. unfold agree. cbn [seen_step].
    rewrite Hh, decide_True, Hb, E1, A3 by (done || lia). destruct (match resolve_target target with Some a => accepts a | None => false end); cbn; [|done]. by rewrite lookup_insert_eq.
  - specialize (Hag id target s Hid). assert (agree f1 id s) as Hs1.
    { unfold agree. rewrite Hh, decide_False, Hb, E1 by (done || lia). split_and!; [done| |done]. destruct (match resolve_target t with Some a => accepts a | None => false end); [|done]. by rewrite lookup_insert_ne. }
    specialize (Hag Hs1). destruct (decide (id ∈ l.*1)) as [Hin|Hin]; [by rewrite decide_True by (by right)|]. rewrite decide_False; [done|]. rewrite elem_of_cons. tauto.
Qed.

Lemma probe_once_spec accepts ts thr f : fleet_fixed ts thr f ->
  exists m f', probe_once checks resolve_target accepts f = Some (m, f') /\ fleet_fixed ts thr f' /\
    forall id target s, ts !! id = Some target -> agree f id s -> agree f' id (seen_step thr id target s (Sweep accepts)).
Proof.
  intros Hf. unfold probe_once. rewrite (ff_targets _ _ _ Hf).
  destruct (probe_list_spec accepts ts thr (map_to_list ts) f Hf) as (f' & -> & Hf' & _ & Hag).
  - apply NoDup_fst_map_to_list.
  - apply Forall_forall. by intros [i t] Hin%elem_of_map_to_list.
  - exists (mask f'), f'. split_and!; [done|done|]. intros id target s Hid Hs. specialize (Hag id target s Hid Hs). rewrite decide_True in Hag; [done|].
    apply list_elem_of_fmap. exists (id, target). split; [done|]. by apply elem_of_map_to_list.
Qed.

Lemma load_tracked ts thr f i (d : Z) (m : Z -> Z) : fleet_fixed ts thr f -> (forall c, m c = (c + d) mod 2 ^ 32) ->
  forall id target s, ts !! id = Some target -> agree f id s ->
  agree (match inflight f !! i with Some c => set_inflight f (<[i := m c]> (inflight f)) | None => f end) id (if bool_decide (i = id) then mkSeen (failures s) (up s) (load s + d) else s).
Proof.
  intros Hf Hm id target s Hid (A1 & A2 & A3). case_bool_decide as Ei.
  - subst i. rewrite A3. unfold agree. cbn. rewrite lookup_insert_eq, Hm, Z.add_mod_idemp_l by done. done.
  - destruct (inflight f !! i); [|done]. unfold agree. cbn. by rewrite lookup_insert_ne.
Qed.

Lemma fleet_step_tracked ts thr op f f' : fleet_fixed ts thr f -> fleet_step op f = Some f' ->
  fleet_fixed ts thr f' /\ forall id target s, ts !! id = Some target -> 0 <= failures s -> failures s + 1 < 2 ^ 32 -> agree f id s -> agree f' id (seen_step thr id target s op).
Proof.
  intros Hf H. destruct op as [i|i|accepts|i|i|i|]; cbn [fleet_step] in H.
  - case_bool_decide as Ht; [|done]. assert (fleet_fixed ts thr f') as Hf'.
    { rewrite (ff_targets _ _ _ Hf) in Ht. destruct Ht as [t Ht]. unfold record_success in H. pose proof (id_narrow ts thr f Hf i t Ht) as H32.
      destruct (set_up_spec (set_breaker f (<[i:=0]> (breaker f))) i true H32) as (h & E & Hh). rewrite E in H. injection H as <-. destruct Hf as [H1 H2 H3 H4].
      split; [done|done|done|]. cbn. eapply bits_kept; [by rewrite Ht|exact H4|exact Hh]. }
    split; [done|]. intros id target s Hid _ _ Hs. exact (success_tracked ts thr id target Hid f s Hf Hs i f' Ht H).
  - case_bool_decide as Ht; [|done]. split; [|intros id target s Hid ? ? Hs; exact (failure_tracked ts thr id target Hid f s Hf Hs i f' Ht ltac:(lia) H)].
    rewrite (ff_targets _ _ _ Hf) in Ht. destruct Ht as [t Ht]. apply bind_Some in H as (n & _ & H). cbn zeta in H. pose proof (id_narrow ts thr f Hf i t Ht) as H32.
    destruct Hf as [H1 H2 H3 H4]. destruct (_ <=? n); [|by injection H as <-].
    destruct (set_up_spec (set_breaker f (<[i:=n]> (breaker f))) i false H32) as (h & E & Hh). rewrite E in H. injection H as <-. split; [done|done|done|]. cbn. eapply bits_kept; [by rewrite Ht|exact H4|exact Hh].
  - destruct (probe_once_spec accepts ts thr f Hf) as (m & f1 & E & Hf1 & Hag). rewrite E in H. injection H as <-. split; [done|]. intros. by apply Hag.
  - injection H as <-. split; [unfold inflight_inc; destruct (inflight f !! i); [by destruct Hf|done]|]. intros id target s Hid _ _ Hs. by apply (load_tracked ts thr f i 1 (fun c => wrapping_add 32 c 1)) with (target := target).
  - injection H as <-. split; [unfold inflight_dec; destruct (inflight f !! i); [by destruct Hf|done]|]. intros id target s Hid _ _ Hs. by apply (load_tracked ts thr f i (-1) (fun c => wrapping_sub 32 c 1)) with (target := target).
  - injection H as <-. unfold addr. destruct (targets f !! i) as [t|]; [|done]. destruct (resolved f !! i) as [[a|]|]; [done|destruct (resolve_target t)..]; try done; (split; [by destruct Hf|done]).
  - injection H as <-. split; [by destruct Hf|done].
Qed.

Lemma seen_step_bound thr id target s op n : 0 <= failures s <= n -> 0 <= failures (seen_step thr id target s op) <= n + 1.
Proof. intros H. destruct op; cbn; repeat case_match; cbn; lia. Qed.

Lemma run_tracked ts thr ops : forall f f', fleet_fixed ts thr f -> run fleet_step ops f = Some f' ->
  fleet_fixed ts thr f' /\ forall id target s n, ts !! id = Some target -> 0 <= failures s <= n -> n + Z.of_nat (length ops) < 2 ^ 32 -> agree f id s -> agree f' id (fold_left (seen_step thr id target) ops s).
Proof.
  induction ops as [|op ops IH]; intros f f' Hf H; cbn [run] in H; [by injection H as <-|]. destruct (fleet_step op f) as [f1|] eqn:E; [|done].
  destruct (fleet_step_tracked ts thr op f f1 Hf E) as [Hf1 Hag]. destruct (IH f1 f' Hf1 H) as [Hf' Hall]. split; [done|]. cbn [fold_left length]. intros id target s n Hid Hn Hl Hs.
  eapply (Hall _ _ _ (n + 1)); [done|by apply seen_step_bound|lia|]. apply Hag; [done|lia|lia|done].
Qed.

(** No operation panics on a configured backend. *)
Lemma run_total ts thr ops : forall f, fleet_fixed ts thr f ->
  (forall id target, ts !! id = Some target -> exists s, 0 <= failures s /\ failures s + Z.of_nat (length ops) < 2 ^ 32 /\ agree f id s) ->
  Forall (fun op => match op with Success i | Failure i => is_Some (ts !! i) | _ => True end) ops -> exists f', run fleet_step ops f = Some f'.
Proof.
  induction ops as [|op ops IH]; intros f Hf Hs Hn; [by exists f|]. apply Forall_cons in Hn as [Hop Hn]. cbn [run length] in *.
  assert (exists f1, fleet_step op f = Some f1) as (f1 & E).
  { destruct op as [i|i|accepts|i|i|i|]; cbn [fleet_step]; try (by eexists).
    - rewrite bool_decide_true by (by rewrite (ff_targets _ _ _ Hf)). destruct Hop as [t Ht]. unfold record_success.
      destruct (set_up_spec (set_breaker f (<[i:=0]> (breaker f))) i true) as (h & -> & _); [by eapply id_narrow|by eexists].
    - rewrite bool_decide_true by (by rewrite (ff_targets _ _ _ Hf)). destruct Hop as [t Ht]. destruct (Hs i t Ht) as (s & H1 & H2 & _ & H3 & _). unfold record_failure. rewrite H3.
      unfold bump. rewrite (proj2 (Z.ltb_lt _ _)) by lia. cbn [mbind option_bind]. destruct (_ <=? _); [|by eexists].
      destruct (set_up_spec (set_breaker f (<[i:=failures s + 1]> (breaker f))) i false) as (h & -> & _); [by eapply id_narrow|by eexists].
    - destruct (probe_once_spec accepts ts thr f Hf) as (m & f1 & -> & _). by eexists. }
  rewrite E. destruct (fleet_step_tracked ts thr op f f1 Hf E) as [Hf1 Hag]. apply IH; [done| |done]. intros id target Hid. destruct (Hs id target Hid) as (s & H1 & H2 & H3).
  exists (seen_step thr id target s op). pose proof (seen_step_bound thr id target s op (failures s) ltac:(lia)). split_and!; [lia|lia|]. apply Hag; [done|lia|lia|done].
Qed.

(** ** Parsing *)
(** Every entry sets its bit, and no other is set. *)
Definition bits_ok (ts : gmap Backend bytes) (m : Z) : Prop :=
  forall i, 0 <= i -> Z.testbit m i = true <-> is_Some (ts !! i).

Lemma parse_entries_bits entries : forall ts rs m ts' rs' m',
  parse_entries checks resolve_target entries (ts, rs, m) = Some (Some (ts', rs', m')) ->
  (forall id, is_Some (ts !! id) -> is_Some (ts' !! id)) /\
  ((forall id t, ts' !! id = Some t -> 0 <= id < 32) -> bits_ok ts m -> bits_ok ts' m').
Proof.
  induction entries as [|e entries IH]; intros ts rs m ts' rs' m'; cbn [parse_entries]; [by intros [= <- <- <-]|].
  destruct (parse_entry _ _ e _) as [[[[ts1 rs1] m1]|]|] eqn:E; cbn [mbind option_bind]; try done. intros H.
  destruct (IH _ _ _ _ _ _ H) as [Hgrow Hbits]. clear IH H. unfold parse_entry in E.
  destruct (split_once 61 e) as [[ids a]|]; [|done]. destruct (parse_uint 32 (str_trim ids)) as [id|]; [|done].
  destruct (bit_of checks id) as [b|] eqn:Eb; [|done]. simplify_eq/=.
  split; [intros i Hi; apply Hgrow; destruct (decide (i = id)) as [->|]; [by rewrite lookup_insert_eq|by rewrite lookup_insert_ne]|].
  intros Hn Hm. apply Hbits; [done|]. destruct (Hgrow id) as [t Ht]; [by rewrite lookup_insert_eq|].
  pose proof (Hn id t Ht) as Hid. rewrite bit_of_narrow in Eb by done. simplify_eq.
  intros i Hi. rewrite testbit_lor_pow by lia. destruct (decide (i = id)) as [->|Hne]; [rewrite lookup_insert_eq, Z.eqb_refl, orb_true_r; naive_solver|].
  rewrite lookup_insert_ne by done. rewrite (proj2 (Z.eqb_neq _ _) Hne), orb_false_r. by apply Hm.
Qed.

Lemma parse_tracked spec thr f :
  parse checks resolve_target spec thr = Some (Some f) -> narrow f ->
  fleet_fixed (targets f) thr f /\ forall id target, targets f !! id = Some target -> agree f id (mkSeen 0 true 0).
Proof.
  unfold parse. intros H Hn. apply bind_Some in H as ([[[ts rs] m]|] & He & H); [|done]. case_bool_decide; [done|]. simplify_eq.
  destruct (parse_entries_bits _ _ _ _ _ _ _ He) as [_ Hb]. assert (bits_ok ts m) as Hm by (apply Hb; [exact Hn|]; intros i _; rewrite Z.bits_0, lookup_empty; by split; [|intros [? ?]]).
  split.
  - split; [done|done|done|]. cbn. intros i Hi E. by apply Hm.
  - intros id target Hid. pose proof (Hn id target Hid). unfold agree. cbn in *. split_and!; [apply Hm; [lia|by rewrite Hid]|done|]. by rewrite lookup_fmap, Hid.
Qed.
End histories.

Lemma land_pow2_testbit h id : 0 <= id -> negb (Z.land h (2 ^ id) =? 0) = Z.testbit h id.
Proof.
  intros Hid. apply bool_eq_iff. rewrite negb_true_iff, Z.eqb_neq. split.
  - intros Hne. destruct (Z.testbit h id) eqn:E; [done|exfalso]. apply Hne. apply Z.bits_inj'. intros i Hi.
    rewrite Z.land_spec, Z.pow2_bits_eqb, Z.bits_0 by lia. destruct (id =? i) eqn:Ei; zify_bool; [|by rewrite andb_false_r].
    subst i. by rewrite E.
  - intros Hb H0. assert (Z.testbit (Z.land h (2 ^ id)) id = false) as Hf by (rewrite H0; apply Z.bits_0).
    rewrite Z.land_spec, Z.pow2_bits_eqb, Z.eqb_refl, Hb in Hf by lia. done.
Qed.

Lemma snapshot_spec checks resolve_target ts thr f ops : fleet_fixed ts thr f ->
  (forall id target, ts !! id = Some target -> agree f id (seen resolve_target thr id target ops)) ->
  snapshot checks f = Some ((fun '(id, target) =>
    let s := seen resolve_target thr id target ops in mkHealth id target (up s) (load s mod 2 ^ 32) (failures s) (thr <=? failures s)) <$> merge_sort by_id (map_to_list ts)).
Proof.
  intros Hf Hag. unfold snapshot. rewrite (ff_targets _ _ _ Hf). set (l0 := merge_sort by_id (map_to_list ts)).
  assert (forall p, p ∈ l0 -> ts !! p.1 = Some p.2) as Hl0.
  { intros [id t] Hin. apply elem_of_map_to_list. rewrite <- (merge_sort_Permutation by_id). done. }
  clearbody l0. induction l0 as [|[id t] l0 IH]; [done|]. cbn [mapM]. rewrite fmap_cons.
  pose proof (Hl0 (id, t) ltac:(left)) as Hid. cbn [fst snd] in Hid. pose proof (id_narrow ts thr f Hf id t Hid) as H32.
  rewrite IH by (intros p Hp; apply Hl0; by right). unfold health_of. rewrite bit_of_narrow by done. cbn [mbind option_bind]. destruct (Hag id t Hid) as (A1 & A2 & A3).
  rewrite land_pow2_testbit, A1, A2, A3, (ff_threshold _ _ _ Hf) by lia. done.
Qed.

(** The failures of a backend that is up are below the threshold. *)
Lemma seen_closed resolve_target thr id target ops : 0 < thr -> up (seen resolve_target thr id target ops) = true -> failures (seen resolve_target thr id target ops) < thr.
Proof.
  intros Hthr. unfold seen. assert (up (mkSeen 0 true 0) = true -> failures (mkSeen 0 true 0) < thr) as H0 by done. revert H0. generalize (mkSeen 0 true 0).
  induction ops as [|op ops IH]; intros s H0; [done|]. cbn [fold_left]. apply IH.
  destruct op; cbn; repeat case_match; cbn; try done. intros [_ Hlt]%andb_true_iff. by apply Z.ltb_lt.
Qed.

(** C29. A fleet parsed from a configuration whose ids fit the mask, through any
    history, one operation after another, of at most [2^32 - 1] successes,
    failures, health sweeps, loads and lookups of configured backends. Nothing
    panics, and the mask, the breaker's counts and the loads are for each backend
    exactly what the history says of it: up from the start; down from the failure
    that brings its consecutive failures to the threshold, and from a sweep that
    does not reach it; up again from a success or a sweep that does, which clears
    the failures; its load the forwards that entered less those that left, as a
    [u32]. The mask names configured backends only, and the operator's view lists
    exactly these facts in order of the ids; what it shows as up has its breaker
    closed. (Concurrent updates of one backend can leave more: see
    [Race.success_overtaken].) *)
Theorem fleet_breaker_sound checks resolve_target spec thr f0 ops :
  parse checks resolve_target spec thr = Some (Some f0) -> 0 < thr -> narrow f0 ->
  Forall (fun op => match op with Success i | Failure i => is_Some (targets f0 !! i) | _ => True end) ops -> Z.of_nat (length ops) < 2 ^ 32 ->
  exists f, run (fleet_step checks resolve_target) ops f0 = Some f /\
    (forall i, 0 <= i -> Z.testbit (health f) i = true -> is_Some (targets f0 !! i)) /\
    (forall id target, targets f0 !! id = Some target ->
       let s := seen resolve_target thr id target ops in
       Z.testbit (health f) id = up s /\ default 0 (breaker f !! id) = failures s /\ inflight f !! id = Some (load s mod 2 ^ 32) /\
       (up s = true -> failures s < thr)) /\
    snapshot checks f = Some ((fun '(id, target) =>
      let s := seen resolve_target thr id target ops in
      mkHealth id target (up s) (load s mod 2 ^ 32) (failures s) (thr <=? failures s)) <$> merge_sort by_id (map_to_list (targets f0))).
Proof.
  intros Hp Hthr Hn Hops Hl. destruct (parse_tracked _ _ _ _ _ Hp Hn) as [Hf0 Ha0].
  destruct (run_total checks resolve_target (targets f0) thr ops f0 Hf0) as [f Hrun]; [|done|].
  { intros id target Hid. exists (mkSeen 0 true 0). split_and!; [done|cbn; lia|by eapply Ha0]. }
  destruct (run_tracked checks resolve_target (targets f0) thr ops f0 f Hf0 Hrun) as [Hf Hag]. exists f.
  assert (forall id target, targets f0 !! id = Some target -> agree f id (seen resolve_target thr id target ops)) as Hall.
  { intros id target Hid. apply (Hag id target _ 0); [done|done|lia|by eapply Ha0]. }
  split_and!; [done|apply (ff_bits _ _ _ Hf)| |by eapply snapshot_spec].
  intros id target Hid. destruct (Hall id target Hid) as (? & ? & ?). split_and!; try done. by apply seen_closed.
Qed.

Definition demo_resolve (t : bytes) : option SockAddr := Some (Z.of_nat (length t)).

(** Two failures take the second backend down; a sweep that reaches only the
    first leaves it so; and one forward is in flight. *)
Definition demo_ops : list FleetOp := [Failure 2; Enter 0; Failure 2; Lookup 2; Success 0; Enter 2; Sweep (fun a => a =? 11); Leave 2].

Lemma fleet_breaker_sound_witness :
  exists f0 f, parse true demo_resolve (bs "0=10.0.0.1:80, 2=gateway:8080") 2 = Some (Some f0) /\
    run (fleet_step true demo_resolve) demo_ops f0 = Some f /\
    (forall i, 0 <= i -> Z.testbit (health f) i = true -> is_Some (targets f0 !! i)) /\
    snapshot true f = Some [mkHealth 0 (bs "10.0.0.1:80") true 1 0 false; mkHealth 2 (bs "gateway:8080") false 0 2 true].
Proof.
  destruct (parse true demo_resolve (bs "0=10.0.0.1:80, 2=gateway:8080") 2) as [[f0|]|] eqn:E0;
    [|vm_compute in E0; discriminate..].
  assert (targets f0 = {[0 := bs "10.0.0.1:80"; 2 := bs "gateway:8080"]}) as Ht by (vm_compute in E0; injection E0 as <-; vm_compute; reflexivity).
  assert (narrow f0) as Hn.
  { intros id t Hid. rewrite Ht in Hid. apply elem_of_map_to_list in Hid. vm_compute in Hid. repeat (apply elem_of_cons in Hid as [Hid|Hid]; [injection Hid as -> ->; lia|]).
    apply elem_of_nil in Hid. destruct Hid. }
  destruct (fleet_breaker_sound true demo_resolve (bs "0=10.0.0.1:80, 2=gateway:8080") 2 f0 demo_ops E0 eq_refl Hn) as (f & Hrun & Hbits & _ & Hsnap).
  - rewrite Ht. repeat (apply Forall_cons_2; [first [exact I|eexists; vm_compute; reflexivity]|]). apply Forall_nil_2.
  - reflexivity.
  - exists f0, f. split; [reflexivity|]. split; [exact Hrun|]. split; [exact Hbits|]. rewrite Hsnap, Ht. vm_compute. reflexivity.
Defined.

(** An id past the mask's width: a panic, or another backend's bit. *)
Example wide_id_aliases :
  parse true demo_resolve (bs "32=a:1") 3 = None /\
  health <$> (parse false demo_resolve (bs "32=a:1") 3 ≫= id) = Some 1.
Proof. vm_compute. done. Qed.

(** ** Interleavings

    One backend, with the breaker's lock. [record_success] (and a probe that
    recovers the backend) zeroes the count in one critical section and sets the
    bit after it; [record_failure] holds the lock across both updates. *)
Module Race.

Inductive Pc := S0 | S1 | F0 | F1 | D0 | Finished.

#[export] Instance Pc_eq_dec : EqDecision Pc.
Proof. solve_decision. Defined.

Record state := mkState { count_ : Z; up : bool; lock : option nat; pcs : list Pc }.

Definition at_pc (s : state) (i : nat) (n : Z) (u : bool) (lk : option nat) (pc : Pc) : state :=
  mkState n u lk (<[i := pc]> (pcs s)).

Definition step (thr : Z) (i : nat) (s : state) : option state :=
  pc ← pcs s !! i;
  match pc with
  | S0 => match lock s with None => Some (at_pc s i 0 (up s) None S1) | Some _ => None end
  | S1 => Some (at_pc s i (count_ s) true (lock s) Finished)
  | F0 =>
      match lock s with
      | Some _ => None
      | None =>
          let n := count_ s + 1 in
          if thr <=? n then Some (at_pc s i n (up s) (Some i) F1) else Some (at_pc s i n (up s) None Finished)
      end
  | F1 => Some (at_pc s i (count_ s) false None Finished)
  | D0 => Some (at_pc s i (count_ s) false (lock s) Finished)
  | Finished => None
  end.

(** A success overtaken by failures leaves the bit set with the breaker open. *)
Lemma success_overtaken :
  run (step 2) [0; 1; 2; 2; 0]%nat (mkState 0 true None [S0; F0; F0]) =
    Some (mkState 2 true None [Finished; Finished; Finished]).
Proof. vm_compute. done. Qed.

End Race.
