(* ===== verification/ProxyHop.v ===== *)
(** * The proxied exchange ([proxy_dial.rs])

    Dialling or reusing an upstream socket, sending it the request, reading and
    framing its response, and relaying that to the client: the buffered
    [forward] and the streaming hop [handle_streaming_via] over [Fleet], with
    [Pool.Conns] as the pool of idle sockets, [ProxyHead] for the head and
    [ProxyPump] for the body. The linked request and response transforms, the
    pick, name resolution and the network ([net]: what connections give, what
    each socket's peer sends, what a liveness probe meets) are parameters. *)
From S2P Require Import Prelude Bytes Lines Io Http Pool Chunked ProxyHead ProxyPump Fleet.

Local Open Scope Z_scope.

(** A connected socket: what was sent to the peer, and what it sends. *)
Record sock := mkSock { tx : sink; rx : list read_ev }.

Record net := Net {
  npool : option Conns.ConnPool;              (* [None]: pooling is off *)
  socks : gmap Z sock;
  connects : list (result sock io_error);     (* how the coming dials end *)
  next_id : Z;
  now : Z;
  probe : Z -> Conns.Probe;
  kern : Relay.kernel
}.

Definition set_pool (n : net) (p : option Conns.ConnPool) : net :=
  Net p (socks n) (connects n) (next_id n) (now n) (probe n) (kern n).
Definition set_socks (n : net) (m : gmap Z sock) : net :=
  Net (npool n) m (connects n) (next_id n) (now n) (probe n) (kern n).
Definition set_kern (n : net) (k : Relay.kernel) : net :=
  Net (npool n) (socks n) (connects n) (next_id n) (now n) (probe n) k.

Definition close (n : net) (id : Z) : net := set_socks n (delete id (socks n)).

(** [TcpStream::connect_timeout]. *)
Definition connect (n : net) : result Z io_error * net :=
  match connects n with
  | [] => (Err TimedOut, n)
  | r :: rs =>
      let n' := Net (npool n) (socks n) rs (next_id n) (now n) (probe n) (kern n) in
      match r with
      | Err e => (Err e, n')
      | Ok s =>
          (Ok (next_id n),
           Net (npool n) (<[next_id n := s]> (socks n)) rs (next_id n + 1) (now n) (probe n) (kern n))
      end
  end.

Definition note_dialed (n : net) : net := set_pool n (Conns.note_dialed <$> npool n).

Definition dial_or_reuse (a : SockAddr) (n : net) : result (Z * bool) io_error * net :=
  let dial n := let '(r, n') := connect n in (match r with Ok id => Ok (id, false) | Err e => Err e end, n') in
  match npool n with
  | Some p =>
      match Conns.checkout p a (now n) (probe n) with
      | (p', Some id) => (Ok (id, true), set_pool n (Some (Conns.note_reused p')))
      | (p', None) => dial (set_pool n (Some (Conns.note_dialed p')))
      end
  | None => dial n
  end.

Definition return_to_pool (a : SockAddr) (id : Z) (n : net) : net :=
  match npool n with
  | Some p => set_pool n (Some (Conns.checkin p a id (now n)))
  | None => close n id
  end.

Definition no_sock : sock := mkSock (Sink [] 0 []) [].
Definition the_sock (n : net) (id : Z) : sock := default no_sock (socks n !! id).
Definition put_sock (n : net) (id : Z) (s : sock) : net := set_socks n (<[id := s]> (socks n)).

Definition READ_BLOCK : nat := Z.to_nat 16384.

(** ** Reading a response *)

(** How the loop that reads a head ends. *)
Inductive HeadRead :=
  | HeadFull (buf : bytes) (he : nat)
  | HeadClosed (buf : bytes)
  | HeadFailed (e : io_error).

(** [None]: out of fuel. *)
Fixpoint read_head (fuel : nat) (buf : bytes) (up : list read_ev) : option (HeadRead * list read_ev) :=
  match fuel with
  | O => None
  | S f =>
      match head_end buf with
      | Some he => Some (HeadFull buf he, up)
      | None =>
          match read READ_BLOCK up with
          | (Err e, up') => Some (HeadFailed e, up')
          | (Ok [], up') => Some (HeadClosed buf, up')
          | (Ok got, up') => read_head f (buf ++ got) up'
          end
      end
  end.

Fixpoint read_until (fuel : nat) (want : option nat) (buf : bytes) (up : list read_ev) :
    option (result bytes io_error * list read_ev) :=
  match fuel with
  | O => None
  | S f =>
      if match want with Some w => (w <=? length buf)%nat | None => false end then Some (Ok buf, up)
      else match read READ_BLOCK up with
           | (Err e, up') => Some (Err e, up')
           | (Ok [], up') => Some (Ok buf, up')
           | (Ok got, up') => read_until f want (buf ++ got) up'
           end
  end.

(** A close before the end of the head is what was read, not an error. *)
Definition read_response (up : list read_ev) : option (result bytes io_error * list read_ev) :=
  '(r, up1) ← read_head (S (weight up)) [] up;
  match r with
  | HeadFailed e => Some (Err e, up1)
  | HeadClosed buf => Some (Ok buf, up1)
  | HeadFull buf he =>
      let want := (fun clen => (he + Z.to_nat clen)%nat) <$> content_length (take he buf) in
      read_until (S (weight up1)) want buf up1
  end.

Section hop.
Context (strip_hop_by_hop : bytes -> bytes) (forward_request : bytes -> bytes -> bytes) (resp_gated : bytes -> bytes).
Context (checks : bool) (resolve_target : bytes -> option SockAddr).

(** ** The buffered forward *)
Definition forward_once (s : sock) (req : bytes) : option (result bytes io_error * sock) :=
  match write_all req (tx s) with
  | (Err e, t1) => Some (Err e, mkSock t1 (rx s))
  | (Ok _, t1) =>
      match flush t1 with
      | (Err e, t2) => Some (Err e, mkSock t2 (rx s))
      | (Ok _, t2) => '(r, up') ← read_response (rx s); Some (r, mkSock t2 up')
      end
  end.

(** The check-in gate of [forward]. *)
Definition at_boundary (resp : bytes) : bool :=
  match head_end resp with
  | Some he =>
      let head := take he resp in
      match forward_response_head_gated resp_gated head with
      | Some _ =>
          match content_length head with
          | Some clen => (Z.of_nat (length resp) =? Z.of_nat he + clen) && resp_upstream_keepalive head
          | None => false
          end
      | None => false
      end
  | None => false
  end.

Definition settle (a : SockAddr) (id : Z) (resp : bytes) (n : net) : result bytes io_error * net :=
  (Ok resp, if at_boundary resp then return_to_pool a id n else close n id).

Definition forward (a : SockAddr) (req : bytes) (n : net) : option (result bytes io_error * net) :=
  let fwd := strip_hop_by_hop req in
  match dial_or_reuse a n with
  | (Err e, n1) => Some (Err e, n1)
  | (Ok (id, reused), n1) =>
      '(r, s1) ← forward_once (the_sock n1 id) fwd;
      let n2 := put_sock n1 id s1 in
      match r with
      | Ok resp => Some (settle a id resp n2)
      | Err e =>
          if reused : bool then
            match connect (note_dialed (close n2 id)) with
            | (Err e', n3) => Some (Err e', n3)
            | (Ok id', n3) =>
                '(r', s3) ← forward_once (the_sock n3 id') fwd;
                let n4 := put_sock n3 id' s3 in
                match r' with
                | Ok resp => Some (settle a id' resp n4)
                | Err e' => Some (Err e', close n4 id')
                end
            end
          else Some (Err e, close n2 id)
      end
  end.

(** ** The streaming forward *)
Record UpstreamHead := mkUH { uh_sock : Z; uh_buf : bytes; uh_end : nat; uh_clen : option Z; uh_chunked : bool }.

Definition send_and_read_head (id : Z) (fwd : bytes) (n : net) : option (result UpstreamHead io_error * net) :=
  let s := the_sock n id in
  match write_all fwd (tx s) with
  | (Err e, _) => Some (Err e, close n id)
  | (Ok _, t1) =>
      match flush t1 with
      | (Err e, _) => Some (Err e, close n id)
      | (Ok _, t2) =>
          '(r, up') ← read_head (S (weight (rx s))) [] (rx s);
          match r with
          | HeadFailed e => Some (Err e, close n id)
          | HeadClosed _ => Some (Err UnexpectedEof, close n id)
          | HeadFull buf he =>
              let head := take he buf in
              Some (Ok (mkUH id buf he (content_length head) (is_chunked head)), put_sock n id (mkSock t2 up'))
          end
      end
  end.

Definition dial_and_read_head (a : SockAddr) (req client_ip : bytes) (n : net) :
    option (result UpstreamHead io_error * net) :=
  let fwd := forward_request req client_ip in
  match dial_or_reuse a n with
  | (Err e, n1) => Some (Err e, n1)
  | (Ok (id, reused), n1) =>
      '(r, n2) ← send_and_read_head id fwd n1;
      match r with
      | Ok uh => Some (Ok uh, n2)
      | Err e =>
          if reused : bool then
            match connect (note_dialed n2) with
            | (Err e', n3) => Some (Err e', n3)
            | (Ok id', n3) => send_and_read_head id' fwd n3
            end
          else Some (Err e, n2)
      end
  end.

Record Streamed := mkStreamed { s_head : bytes; s_bytes : Z; s_keepalive : bool; s_complete : bool }.

Definition refuse_upstream_head (c : sink) : Streamed * sink :=
  let resp := bad_gateway in
  let '(r, c') := write_all resp c in
  (mkStreamed resp (if is_ok r then Z.of_nat (length resp) else 0) false false, c').

Definition maybe_pool_upstream (a : SockAddr) (id : Z) (clen : option Z) (complete reusable : bool) (n : net) : net :=
  if complete && bool_decide (is_Some clen) && reusable then return_to_pool a id n else close n id.

(** The body, by its framing; [splice] is the kernel relay. *)
Definition relay_body (splice fl : bool) (k : Relay.kernel) (uh : UpstreamHead) (up : list read_ev) (c : sink) (sent : Z) :
    option (bool * Relay.kernel * list read_ev * sink * Z) :=
  let leftover := drop (uh_end uh) (uh_buf uh) in
  let clen := Z.to_nat <$> uh_clen uh in
  if bool_decide (uh_clen uh = None) && uh_chunked uh then
    '(ok, up', c', sent') ← Portable.stream_chunked checks fl up c leftover sent; Some (ok, k, up', c', sent')
  else if splice then spliced_body fl k up c clen leftover sent
  else '(ok, up', c', sent') ← portable_body fl up c clen leftover sent; Some (ok, k, up', c', sent').

Definition relay_response (splice : bool) (a : SockAddr) (uh : UpstreamHead) (ka : bool) (c : sink) (n : net) :
    option (Streamed * net * sink) :=
  let raw := take (uh_end uh) (uh_buf uh) in
  let keepalive := ka && (bool_decide (is_Some (uh_clen uh)) || uh_chunked uh) in
  let reusable := resp_upstream_keepalive raw in
  let sse := is_event_stream raw in
  match client_resp_head resp_gated raw keepalive with
  | None => let '(s, c') := refuse_upstream_head c in Some (s, close n (uh_sock uh), c')
  | Some head =>
      match write_all head c with
      | (Err _, c1) => Some (mkStreamed head 0 false false, close n (uh_sock uh), c1)
      | (Ok _, c1) =>
          let c2 := if sse then snd (flush c1) else c1 in
          let s := the_sock n (uh_sock uh) in
          '(complete, k', up', c3, sent) ← relay_body splice sse (kern n) uh (rx s) c2 (Z.of_nat (length head));
          let n1 := set_kern (put_sock n (uh_sock uh) (mkSock (tx s) up')) k' in
          Some (mkStreamed head sent (keepalive && complete) complete,
                maybe_pool_upstream a (uh_sock uh) (uh_clen uh) complete reusable n1, c3)
      end
  end.

Definition forward_streaming_via (splice : bool) (a : SockAddr) (req : bytes) (ka : bool) (client_ip : bytes) (c : sink) (n : net) :
    option (result Streamed io_error * net * sink) :=
  '(r, n1) ← dial_and_read_head a req client_ip n;
  match r with
  | Err e => Some (Err e, n1, c)
  | Ok uh => '(s, n2, c') ← relay_response splice a uh ka c n1; Some (Ok s, n2, c')
  end.

Definition forward_streaming := forward_streaming_via false.
Definition forward_streaming_spliced := forward_streaming_via true.

(** ** The hop *)
Record StreamOutcome := mkOutcome { so_head : bytes; so_bytes : Z; so_keepalive : bool; so_backend : option SockAddr }.

(** One of the host's own responses. *)
Definition answer (resp : bytes) (f : Fleet) (n : net) (c : sink) : option (result StreamOutcome io_error * Fleet * net * sink) :=
  match write_all resp c with
  | (Err e, c') => Some (Err e, f, n, c')
  | (Ok _, c') => Some (Ok (mkOutcome resp (Z.of_nat (length resp)) false None), f, n, c')
  end.

Definition handle_streaming_via (pick : Z -> bytes -> option Backend) (splice : bool) (req : bytes) (ka : bool)
    (client_ip : bytes) (f : Fleet) (c : sink) (n : net) : option (result StreamOutcome io_error * Fleet * net * sink) :=
  match pick (mask f) (sticky_key req) with
  | None => answer service_unavailable f n c
  | Some id =>
      match addr resolve_target f id with
      | (None, f1) => answer bad_gateway f1 n c
      | (Some a, f1) =>
          '(out, n1, c1) ← forward_streaming_via splice a req ka client_ip c n;
          let f2 := inflight_dec (inflight_inc f1 id) id in
          match out with
          | Ok s =>
              f3 ← (if s_complete s then record_success checks f2 id else record_failure checks f2 id);
              Some (Ok (mkOutcome (s_head s) (s_bytes s) (s_keepalive s) (Some a)), f3, n1, c1)
          | Err e =>
              f3 ← record_failure checks f2 id;
              answer (match e with TimedOut | WouldBlock => gateway_timeout | _ => bad_gateway end) f3 n1 c1
          end
      end
  end.
End hop.

(** ** Reading consumes what it returns *)
Lemma block_pos : (0 < READ_BLOCK)%nat.
Proof. unfold READ_BLOCK. lia. Qed.

Lemma read_head_spec fuel : forall buf up,
  (weight up < fuel)%nat ->
  exists r up', read_head fuel buf up = Some (r, up') /\ (Relay.plain up -> Relay.plain up') /\
    match r with
    | HeadFull buf' he => buf ++ arrived up = buf' ++ arrived up' /\ head_end buf' = Some he
    | HeadClosed buf' => buf' = buf ++ arrived up /\ head_end buf' = None
    | HeadFailed _ => clean_end up = false
    end.
Proof.
  induction fuel as [|f IH]; intros buf up Hf; [lia|]. cbn [read_head].
  destruct (head_end buf) as [he|] eqn:Eh; [by eexists _, _; split_and!; eauto|].
  destruct (read READ_BLOCK up) as [r up'] eqn:Er.
  assert (Relay.plain up -> Relay.plain up') as Hp by (intros Hp; by destruct (Relay.read_plain _ _ _ _ Hp Er)).
  apply read_spec in Er as Hr; [|apply block_pos]. destruct r as [[|b got]|e].
  - destruct Hr as [Ha _]. eexists _, _. split; [done|]. split; [done|]. by rewrite Ha, app_nil_r.
  - destruct Hr as (Ha & Hc & Hw & _). destruct (IH (buf ++ b :: got) up') as (r & up2 & -> & Hp2 & H); [lia|].
    eexists _, _. split; [done|]. split; [auto|]. rewrite Ha. destruct r as [buf' he|buf'|e].
    + by rewrite <- app_assoc in H.
    + by rewrite <- app_assoc in H.
    + congruence.
  - destruct Hr as [_ Hc]. eexists _, _. by split.
Qed.

Lemma read_until_spec fuel want : forall buf up,
  (weight up < fuel)%nat ->
  exists r up', read_until fuel want buf up = Some (r, up') /\
    forall buf', r = Ok buf' ->
      buf `prefix_of` buf' /\
      (forall w, want = Some w -> (w <= length buf')%nat -> buf ++ arrived up = buf' ++ arrived up').
Proof.
  induction fuel as [|f IH]; intros buf up Hf; [lia|]. cbn [read_until].
  destruct (match want with Some w => (w <=? length buf)%nat | None => false end) eqn:Ew.
  { eexists _, _. split; [done|]. by intros buf' [= <-]. }
  destruct (read READ_BLOCK up) as [r up'] eqn:Er. apply read_spec in Er as Hr; [|apply block_pos].
  destruct r as [[|b got]|e].
  - eexists _, _. split; [done|]. intros buf' [= <-]. split; [done|]. intros w -> Hw. apply Nat.leb_gt in Ew. lia.
  - destruct Hr as (Ha & Hc & Hw & _). destruct (IH (buf ++ b :: got) up') as (r & up2 & -> & H); [lia|].
    eexists _, _. split; [done|]. intros buf' Hb. destruct (H buf' Hb) as [Hpre Hall]. split; [by eapply prefix_app_l|].
    intros w Hw1 Hl. by rewrite Ha, app_assoc, <- (Hall w Hw1 Hl).
  - by eexists _, _.
Qed.

Lemma content_length_nonneg head n : content_length head = Some n -> 0 <= n.
Proof.
  unfold content_length. intros (v & _ & H)%bind_Some. cbn zeta in H. destruct (utf8_valid _); [|done].
  unfold parse_uint in H. repeat case_match; try done; by eapply proj1, parse_digits_range.
Qed.

(** At a boundary, the response is all that was consumed. *)
Lemma read_response_boundary resp_gated up resp up' :
  read_response up = Some (Ok resp, up') -> at_boundary resp_gated resp = true ->
  arrived up = resp ++ arrived up'.
Proof.
  unfold read_response. destruct (read_head_spec (S (weight up)) [] up) as (r & up1 & -> & _ & Hr); [lia|].
  cbn [mbind option_bind app] in *. destruct r as [buf he|buf|e]; [|intros [= <- <-]|done].
  2:{ destruct Hr as [_ Hn]. unfold at_boundary. by rewrite Hn. }
  destruct Hr as [Ha Hhe]. cbn zeta. set (want := _ <$> content_length (take he buf)).
  destruct (read_until_spec (S (weight up1)) want buf up1) as (r & up2 & -> & H); [lia|]. intros [= -> ->] Hb.
  destruct (H resp eq_refl) as [[x Hx] Hall]. unfold at_boundary in Hb. rewrite Ha.
  destruct (head_end_app buf he x Hhe) as [Hhe' Htk]. rewrite <- Hx in Hhe', Htk. rewrite Hhe', Htk in Hb.
  destruct (forward_response_head_gated _ _); [|done].
  destruct (content_length (take he buf)) as [clen|] eqn:Ec; [|done].
  apply andb_true_iff in Hb as [Hlen _]. zify_bool. pose proof (content_length_nonneg _ _ Ec).
  apply (Hall (he + Z.to_nat clen)%nat); [done|lia].
Qed.

(** ** The pool *)
Definition pooled (n : net) (a : SockAddr) : list Z :=
  match npool n with Some p => Conns.stream <$> default [] (Conns.idle p !! a) | None => [] end.

(** The stream of socket [id] as a forward finds it: already open, or dialled. *)
Definition stream_before (n : net) (id : Z) (up : list read_ev) : Prop :=
  up = rx (the_sock n id) \/ exists s, Ok s ∈ connects n /\ up = rx s.

Lemma the_put_sock n id s : the_sock (put_sock n id s) id = s.
Proof. unfold the_sock, put_sock. cbn [set_socks socks]. by rewrite lookup_insert_eq. Qed.

Lemma connect_spec n r n' :
  connect n = (r, n') ->
  npool n' = npool n /\ kern n' = kern n /\ (forall s, s ∈ connects n' -> s ∈ connects n) /\
  (forall id, r = Ok id -> exists s, Ok s ∈ connects n /\ the_sock n' id = s).
Proof.
  unfold connect. destruct (connects n) as [|[s|e] rs] eqn:E; intros [= <- <-]; cbn [npool kern connects]; rewrite ?E.
  - by split_and!.
  - split_and!; [done|done|set_solver|]. intros id [= <-]. exists s. split; [set_solver|].
    unfold the_sock. cbn [socks]. by rewrite lookup_insert_eq.
  - split_and!; [done|done|set_solver|done].
Qed.

Lemma pooled_pool n n' a : npool n' = npool n -> pooled n' a = pooled n a.
Proof. unfold pooled. by intros ->. Qed.

Lemma pooled_note n a : pooled (note_dialed n) a = pooled n a.
Proof. unfold pooled, note_dialed. cbn [set_pool npool]. by destruct (npool n). Qed.

(** A checkout only takes from the pool. *)
Lemma pooled_checkout p a t pr p' r :
  Conns.checkout p a t pr = (p', r) ->
  forall i, i ∈ Conns.stream <$> default [] (Conns.idle p' !! a) -> i ∈ Conns.stream <$> default [] (Conns.idle p !! a).
Proof.
  unfold Conns.checkout. destruct (Conns.idle p !! a) as [l|] eqn:E; [|intros [= <- <-] i; by rewrite E].
  destruct (Conns.pop_live _ _ _ _ l) as [l' r'] eqn:El. apply Conns.pop_live_spec in El; [|done].
  intros [= <- <-] i. cbn [Conns.set_idle Conns.idle]. rewrite lookup_insert_eq. cbn [default id].
  destruct r' as [s0|].
  - destruct El as (c & sk & -> & _). rewrite fmap_app. set_solver.
  - destruct El as [-> _]. by intros ?%elem_of_nil.
Qed.

Lemma dial_or_reuse_spec a n r n1 :
  dial_or_reuse a n = (r, n1) ->
  (forall id, id ∈ pooled n1 a -> id ∈ pooled n a) /\ kern n1 = kern n /\
  (forall s, s ∈ connects n1 -> s ∈ connects n) /\
  (forall id re, r = Ok (id, re) -> stream_before n id (rx (the_sock n1 id))).
Proof.
  assert (forall n0 r0 n2, connects n0 = connects n -> kern n0 = kern n -> (forall id, id ∈ pooled n0 a -> id ∈ pooled n a) ->
    (let '(r, n') := connect n0 in (match r with Ok id => Ok (id, false) | Err e => Err e end, n')) = (r0, n2) ->
    (forall id, id ∈ pooled n2 a -> id ∈ pooled n a) /\ kern n2 = kern n /\ (forall s, s ∈ connects n2 -> s ∈ connects n) /\
    (forall id re, r0 = Ok (id, re) -> stream_before n id (rx (the_sock n2 id)))) as Hdial.
  { intros n0 r0 n2 Hc Hk Hp. destruct (connect n0) as [r' n'] eqn:E. intros [= <- <-].
    apply connect_spec in E as (H1 & H2 & H3 & H4). rewrite Hc in *. split_and!.
    - intros id. rewrite (pooled_pool n0 n' a H1). apply Hp.
    - congruence.
    - done.
    - intros id re. destruct r' as [i|e]; [|done]. intros [= <- _]. right. destruct (H4 i eq_refl) as (s & Hs & ->). eauto. }
  unfold dial_or_reuse. destruct (npool n) as [p|] eqn:Ep; [|by apply Hdial].
  destruct (Conns.checkout p a (now n) (probe n)) as [p' [i|]] eqn:Ec.
  - intros [= <- <-]. split_and!; try done.
    + intros id. unfold pooled. rewrite Ep. cbn [set_pool npool Conns.note_reused Conns.idle]. by eapply pooled_checkout.
    + intros id re [= <- <-]. by left.
  - apply Hdial; [done|done|]. intros id. unfold pooled. rewrite Ep. cbn [set_pool npool Conns.note_dialed Conns.idle]. by eapply pooled_checkout.
Qed.

Lemma forward_once_boundary resp_gated s req resp s' :
  forward_once s req = Some (Ok resp, s') -> at_boundary resp_gated resp = true -> arrived (rx s) = resp ++ arrived (rx s').
Proof.
  unfold forward_once. destruct (write_all req (tx s)) as [[u|e] t1]; [|done]. destruct (flush t1) as [[u2|e] t2]; [|done].
  destruct (read_response (rx s)) as [[r up']|] eqn:E; [|done]. cbn [mbind option_bind]. intros [= -> <-] Hb.
  by eapply read_response_boundary.
Qed.

Lemma pooled_settle resp_gated a sid s1 resp n :
  let n' := snd (settle resp_gated a sid resp (put_sock n sid s1)) in
  forall i, i ∈ pooled n' a ->
    i ∈ pooled n a \/ (i = sid /\ at_boundary resp_gated resp = true /\ the_sock n' i = s1).
Proof.
  cbn zeta. intros i. unfold settle. cbn [snd]. destruct (at_boundary resp_gated resp); [|by left].
  unfold return_to_pool. destruct (npool (put_sock n sid s1)) as [p|] eqn:Ep; [|by left; unfold pooled in *; cbn in *; rewrite Ep in *].
  unfold pooled. cbn [set_pool npool Conns.checkin Conns.set_idle Conns.idle] in *. cbn [put_sock set_socks npool] in Ep. rewrite Ep.
  rewrite lookup_insert_eq. cbn [default id]. case_match; [|by left]. unfold vec_push. rewrite fmap_app.
  intros [Hi|Hi]%elem_of_app; [by left|]. apply list_elem_of_singleton in Hi as ->. right. split_and!; [done|done|apply the_put_sock].
Qed.

(** A socket goes back to the pool only at a message boundary: whenever the
    buffered forward leaves a socket in the pool that was not there before, the
    response it returned is a head the gate accepted and exactly its
    [Content-Length] of body, the upstream did not ask to close, and the bytes
    taken from that socket are exactly that response, so the next reader starts
    at the next message. *)
Theorem forward_pools_at_boundary strip resp_gated a req n r n' id :
  forward strip resp_gated a req n = Some (r, n') -> id ∈ pooled n' a -> (id ∉ pooled n a) ->
  exists resp he clen up,
    r = Ok resp /\ head_end resp = Some he /\ content_length (take he resp) = Some clen /\
    Z.of_nat (length resp) = Z.of_nat he + clen /\ resp_upstream_keepalive (take he resp) = true /\
    is_Some (forward_response_head_gated resp_gated (take he resp)) /\
    stream_before n id up /\ arrived up = resp ++ arrived (rx (the_sock n' id)).
Proof.
  intros H Hin Hout. unfold forward in H. destruct (dial_or_reuse a n) as [r0 n1] eqn:Ed.
  apply dial_or_reuse_spec in Ed as (Hpool & _ & Hconn & Hbefore).
  assert (forall m i resp s0 s1, (forall x, x ∈ pooled m a -> x ∈ pooled n a) -> stream_before n i (rx s0) ->
            forward_once s0 (strip req) = Some (Ok resp, s1) -> Some (settle resp_gated a i resp (put_sock m i s1)) = Some (r, n') ->
            exists he clen up, r = Ok resp /\ head_end resp = Some he /\ content_length (take he resp) = Some clen /\
              Z.of_nat (length resp) = Z.of_nat he + clen /\ resp_upstream_keepalive (take he resp) = true /\
              is_Some (forward_response_head_gated resp_gated (take he resp)) /\
              stream_before n id up /\ arrived up = resp ++ arrived (rx (the_sock n' id))) as Hsettle.
  { intros m i resp s0 s1 Hm Hb Ho Hs.
    pose proof (pooled_settle resp_gated a i s1 resp m) as Hps. cbn zeta in Hps. apply (inj Some) in Hs.
    rewrite Hs in Hps. cbn [snd] in Hps. destruct (Hps id Hin) as [Hold|(-> & Hbd & Hsock)]; [by destruct Hout; apply Hm|].
    pose proof (forward_once_boundary _ _ _ _ _ Ho Hbd) as Harr. unfold settle in Hs. injection Hs as <- _.
    unfold at_boundary in Hbd. destruct (head_end resp) as [he|] eqn:Eh; [|done].
    destruct (forward_response_head_gated _ _) as [h|] eqn:Eg; [|done].
    destruct (content_length (take he resp)) as [clen|] eqn:Ec; [|done]. apply andb_true_iff in Hbd as [Hl Hk]. zify_bool.
    exists he, clen, (rx s0). split_and!; try done. by rewrite Hsock. }
  destruct r0 as [[i reused]|e]; [|simplify_eq; by destruct Hout; apply Hpool].
  destruct (forward_once (the_sock n1 i) (strip req)) as [[r1 s1]|] eqn:Eo; [|done]. cbn [mbind option_bind] in H.
  destruct r1 as [resp|e]; [exists resp; exact (Hsettle n1 i resp _ s1 Hpool (Hbefore _ _ eq_refl) Eo H)|].
  destruct reused; [|simplify_eq; by destruct Hout; apply Hpool].
  destruct (connect _) as [r3 n3] eqn:E3. apply connect_spec in E3 as (Hp3 & _ & _ & Hs3). cbn [note_dialed connects] in Hs3.
  assert (forall x, x ∈ pooled n3 a -> x ∈ pooled n a) as Hm3.
  { intros x. rewrite (pooled_pool _ n3 a Hp3), pooled_note. apply Hpool. }
  destruct r3 as [i'|e3]; [|simplify_eq; by destruct Hout; apply Hm3].
  destruct (forward_once (the_sock n3 i') (strip req)) as [[r4 s4]|] eqn:E4; [|done]. cbn [mbind option_bind] in H.
  destruct r4 as [resp|e4]; [|simplify_eq; by destruct Hout; apply Hm3].
  exists resp. eapply (Hsettle n3 i'); [done| |exact E4|exact H]. right. destruct (Hs3 i' eq_refl) as (s & Hs & ->). eauto.
Qed.

(** ** Framing of what the client gets *)

(** [body] has the length the head [raw] gives, or holds a last chunk. *)
Definition self_framed (raw body : bytes) : Prop :=
  match content_length raw with
  | Some n => Z.of_nat (length body) = n
  | None => is_chunked raw = true /\ exists pd, feeds false chunked_new body = Some pd /\ st pd = CDone
  end.

Definition uh_ok (uh : UpstreamHead) : Prop :=
  let raw := take (uh_end uh) (uh_buf uh) in uh_clen uh = content_length raw /\ uh_chunked uh = is_chunked raw.

(** The bytes behind the head that the head announces: its [Content-Length] of
    them, chunks, or everything up to the close. Of chunks, the block that brings
    the last one may bring more. *)
Definition announced (raw stream body : bytes) : Prop :=
  match content_length raw with
  | Some n => body = take (Z.to_nat n) stream
  | None => if is_chunked raw then body `prefix_of` stream else body = stream
  end.

(** What relaying the body of [uh] sent, of [stream]. *)
Definition pumped (uh : UpstreamHead) (stream : bytes) (sent : Z) (c : sink) (ok : bool) (c' : sink) (sent' : Z) : Prop :=
  exists body, delivered body ok c c' /\ announced (take (uh_end uh) (uh_buf uh)) stream body /\
    (ok = true -> sent' = sent + Z.of_nat (length body) /\
       (is_Some (uh_clen uh) \/ uh_chunked uh = true -> self_framed (take (uh_end uh) (uh_buf uh)) body)).

Lemma body_sent_pumped uh l up sent c ok c' sent' :
  uh_ok uh -> (uh_clen uh = None -> uh_chunked uh = false) ->
  body_sent (Z.to_nat <$> uh_clen uh) l up sent c ok c' sent' -> pumped uh (l ++ arrived up) sent c ok c' sent'.
Proof.
  intros [Hcl Hch] Hno [Hd Hs]. eexists. split; [done|]. split.
  { unfold announced, framed. rewrite <- Hcl, <- Hch. destruct (uh_clen uh); [done|]. by rewrite Hno. }
  intros H. destruct (Hs H) as [Hw ->]. split; [done|].
  unfold self_framed. rewrite <- Hcl, <- Hch. destruct (uh_clen uh) as [n|] eqn:En.
  - intros _. unfold whole, framed in *. cbn [fmap option_fmap option_map] in *. apply Nat.leb_le in Hw. rewrite length_take.
    pose proof (content_length_nonneg _ n (eq_sym Hcl)). lia.
  - rewrite Hno by done. intros [[? ?]|?]; done.
Qed.

Lemma relay_body_sent splice fl k uh up c sent :
  Relay.idle_ok k -> Relay.plain up -> uh_ok uh ->
  exists ok k' up' c' sent', relay_body false splice fl k uh up c sent = Some (ok, k', up', c', sent') /\
    Relay.idle_ok k' /\ Relay.plain up' /\ pumped uh (drop (uh_end uh) (uh_buf uh) ++ arrived up) sent c ok c' sent'.
Proof.
  intros Hi Hp Huh. unfold relay_body. set (l := drop (uh_end uh) (uh_buf uh)).
  destruct (bool_decide (uh_clen uh = None) && uh_chunked uh) eqn:Ec.
  - apply andb_true_iff in Ec as [Ec%bool_decide_eq_true Ech]. destruct Huh as [Hcl Hch].
    destruct (feeds_total (l ++ arrived up) chunked_new) as [pend Hf].
    destruct (Portable.stream_chunked_spec false fl up c l sent pend Hf) as (ok & up' & c' & s' & E & seen & Hpre & Hd & Hs & _).
    pose proof (stream_chunked_plain _ _ _ _ _ _ _ _ _ _ Hp E) as Hp'. rewrite E.
    cbn [mbind option_bind]. eexists _, _, _, _, _. split; [done|]. split; [done|]. split; [done|]. exists seen. split; [done|].
    split; [unfold announced; by rewrite <- Hcl, <- Hch, Ec, Ech|].
    intros H. destruct (Hs H) as [Hs1 Hs2]. split; [done|]. intros _. unfold self_framed. by rewrite <- Hcl, <- Hch, Ec.
  - assert (uh_clen uh = None -> uh_chunked uh = false) as Hno
      by (intros Hn; rewrite bool_decide_true in Ec by done; done).
    destruct splice.
    + destruct (spliced_body_sent fl k up c (Z.to_nat <$> uh_clen uh) l sent Hi Hp) as (ok & k' & up' & c' & s' & E & Hi' & Hb & _).
      pose proof (spliced_body_plain _ _ _ _ _ _ _ _ _ _ _ _ Hp E) as Hp'. rewrite E.
      eexists _, _, _, _, _. split; [done|]. split; [done|]. split; [done|]. by eapply body_sent_pumped.
    + destruct (portable_body_sent fl up c (Z.to_nat <$> uh_clen uh) l sent) as (ok & up' & c' & s' & E & Hb & _).
      pose proof (portable_body_plain _ _ _ _ _ _ _ _ _ _ Hp E) as Hp'. rewrite E. cbn [mbind option_bind].
      eexists _, _, _, _, _. split; [done|]. split; [done|]. split; [done|]. by eapply body_sent_pumped.
Qed.

(** ** Upstreams *)
Definition net_plain (n : net) : Prop :=
  (forall id s, socks n !! id = Some s -> Relay.plain (rx s)) /\ (forall s, Ok s ∈ connects n -> Relay.plain (rx s)).

Lemma the_sock_plain n id : net_plain n -> Relay.plain (rx (the_sock n id)).
Proof. intros [H _]. unfold the_sock. destruct (socks n !! id) eqn:E; [by eapply H|constructor]. Qed.

Lemma net_plain_put n id s : net_plain n -> Relay.plain (rx s) -> net_plain (put_sock n id s).
Proof.
  intros [H1 H2] Hs. split; [|done]. intros i s'. cbn [put_sock set_socks socks].
  intros [[<- <-]|[_ ?]]%lookup_insert_Some; [done|by eapply H1].
Qed.

Lemma net_plain_close n id : net_plain n -> net_plain (close n id).
Proof. intros [H1 H2]. split; [|done]. intros i s. cbn [close set_socks socks]. intros [_ ?]%lookup_delete_Some. by eapply H1. Qed.

Lemma net_plain_connect n r n' : net_plain n -> connect n = (r, n') -> net_plain n'.
Proof.
  intros Hn. pose proof Hn as [H1 H2]. unfold connect.
  destruct (connects n) as [|[s|e] rs] eqn:E; intros [= <- <-]; [done| |].
  - split; cbn [socks connects]; [|intros s' Hs; apply H2; set_solver].
    intros i s' [[<- <-]|[_ ?]]%lookup_insert_Some; [apply H2; set_solver|by eapply H1].
  - split; cbn [socks connects]; [done|intros s' Hs; apply H2; set_solver].
Qed.

Lemma dial_plain a n r n1 : net_plain n -> dial_or_reuse a n = (r, n1) -> net_plain n1 /\ kern n1 = kern n.
Proof.
  intros Hn H. split; [|by apply dial_or_reuse_spec in H as (_ & ? & _)]. unfold dial_or_reuse in H.
  assert (forall n0, net_plain n0 -> (let '(r, n') := connect n0 in (match r with Ok id => Ok (id, false) | Err e => Err e end, n')) = (r, n1) -> net_plain n1) as Hd.
  { intros n0 H0. destruct (connect n0) as [r' n'] eqn:E. intros [= <- <-]. by eapply net_plain_connect. }
  destruct (npool n) as [p|]; [|by eapply Hd]. destruct (Conns.checkout _ _ _ _) as [p' [i|]]; [by simplify_eq|].
  by eapply Hd; [|exact H].
Qed.

Lemma net_plain_pooled a id clen complete reusable n :
  net_plain n -> net_plain (maybe_pool_upstream a id clen complete reusable n).
Proof.
  intros Hn. unfold maybe_pool_upstream. case_match; [|by apply net_plain_close]. unfold return_to_pool.
  case_match; [|by apply net_plain_close]. destruct Hn as [H1 H2]. split; [|done]. intros i s Hs. by eapply H1.
Qed.

(** The head, if any, is framed by what it says, and with what is still to come
    it is what the peer of a socket found in [n] sent. *)
Definition head_from (n n' : net) (uh : UpstreamHead) : Prop :=
  uh_ok uh /\ head_end (uh_buf uh) = Some (uh_end uh) /\
  exists up, stream_before n (uh_sock uh) up /\ arrived up = uh_buf uh ++ arrived (rx (the_sock n' (uh_sock uh))).

Lemma send_and_read_head_ok id fwd n :
  net_plain n ->
  exists r n', send_and_read_head id fwd n = Some (r, n') /\ net_plain n' /\ kern n' = kern n /\ connects n' = connects n /\
    forall uh, r = Ok uh -> uh_ok uh /\ head_end (uh_buf uh) = Some (uh_end uh) /\ uh_sock uh = id /\
      arrived (rx (the_sock n id)) = uh_buf uh ++ arrived (rx (the_sock n' id)).
Proof.
  intros Hn. unfold send_and_read_head.
  destruct (write_all fwd _) as [[u|e] t1]; [|eexists _, _; split; [done|]; split_and!; [by apply net_plain_close|done..]].
  destruct (flush t1) as [[u2|e] t2]; [|eexists _, _; split; [done|]; split_and!; [by apply net_plain_close|done..]].
  destruct (read_head_spec (S (weight (rx (the_sock n id)))) [] (rx (the_sock n id))) as (r & up' & -> & Hp & Hr); [lia|].
  cbn [mbind option_bind]. destruct r as [buf he|buf|e]; eexists _, _; (split; [done|]); split_and!; try done; try by apply net_plain_close.
  - apply net_plain_put; [done|]. by apply Hp, the_sock_plain.
  - destruct Hr as [Ha He]. intros uh [= <-]. rewrite the_put_sock. done.
Qed.

Lemma dial_and_read_head_ok fr a req ip n :
  net_plain n ->
  exists r n', dial_and_read_head fr a req ip n = Some (r, n') /\ net_plain n' /\ kern n' = kern n /\
    forall uh, r = Ok uh -> head_from n n' uh.
Proof.
  intros Hn. unfold dial_and_read_head. destruct (dial_or_reuse a n) as [r0 n1] eqn:Ed.
  pose proof (dial_plain _ _ _ _ Hn Ed) as [Hn1 Hk1]. apply dial_or_reuse_spec in Ed as (_ & _ & Hconn & Hbefore).
  destruct r0 as [[id re]|e]; [|by eexists _, _].
  destruct (send_and_read_head_ok id (fr req ip) n1 Hn1) as (r & n2 & -> & Hn2 & Hk2 & Hc2 & Huh). cbn [mbind option_bind].
  destruct r as [uh|e].
  { eexists _, _. split; [done|]. split_and!; [done|congruence|]. intros uh' [= <-]. destruct (Huh uh eq_refl) as (H1 & H2 & H3 & H4).
    split_and!; [done..|]. rewrite H3. eexists. split; [by eapply Hbefore|done]. }
  destruct re; [|eexists _, _; split; [done|]; split_and!; [done|congruence|done]].
  destruct (connect (note_dialed n2)) as [r3 n3] eqn:E3. assert (net_plain n3) as Hn3 by (by eapply net_plain_connect; [|exact E3]).
  apply connect_spec in E3 as (_ & Hk3 & _ & Hs3). cbn [note_dialed set_pool kern connects] in Hk3, Hs3.
  destruct r3 as [id'|e3]; [|eexists _, _; split; [done|]; split_and!; [done|congruence|done]].
  destruct (send_and_read_head_ok id' (fr req ip) n3 Hn3) as (r4 & n4 & -> & Hn4 & Hk4 & _ & Huh4).
  eexists _, _. split; [done|]. split_and!; [done|congruence|]. intros uh ->. destruct (Huh4 uh eq_refl) as (H1 & H2 & H3 & H4).
  split_and!; [done..|]. rewrite H3. eexists. split; [|exact H4]. right. destruct (Hs3 id' eq_refl) as (s & Hs & ->). exists s. split; [|done]. apply Hconn. by rewrite <- Hc2.
Qed.

(** A response relayed to the client, of the upstream's head [raw] and [stream]
    behind it: the head is refused, and the client gets (a part of) the host's
    502; or the client gets a part of the transformed head and the body it
    announces, all of it when the relay is complete, which it is when the
    connection is kept. *)
Definition keeps (raw : bytes) (ka : bool) : bool := ka && (bool_decide (is_Some (content_length raw)) || is_chunked raw).

Definition relayed (resp_gated : bytes -> bytes) (ka : bool) (raw stream : bytes) (s : Streamed) (c c' : sink) : Prop :=
  match client_resp_head resp_gated raw (keeps raw ka) with
  | None => s_keepalive s = false /\ s_head s = bad_gateway /\ exists p, p `prefix_of` bad_gateway /\ wire c' = wire c ++ p
  | Some head =>
      s_head s = head /\ exists body p, announced raw stream body /\ p `prefix_of` head ++ body /\ wire c' = wire c ++ p /\
        (s_keepalive s = true -> s_complete s = true /\ ka = true /\ p = head ++ body /\ s_bytes s = Z.of_nat (length (head ++ body)) /\ self_framed raw body)
  end.

Lemma delivered_prefix body ok c c' : delivered body ok c c' -> exists p, p `prefix_of` body /\ wire c' = wire c ++ p /\ (ok = true -> p = body).
Proof. destruct ok; intros H; [destruct H as (Hw & _); by exists body|]. destruct H as (p & Hp & Hw). by exists p. Qed.

Lemma relay_response_sent resp_gated splice a uh ka c n :
  Relay.idle_ok (kern n) -> net_plain n -> uh_ok uh ->
  exists s n' c', relay_response resp_gated false splice a uh ka c n = Some (s, n', c') /\
    Relay.idle_ok (kern n') /\ net_plain n' /\
    relayed resp_gated ka (take (uh_end uh) (uh_buf uh)) (drop (uh_end uh) (uh_buf uh) ++ arrived (rx (the_sock n (uh_sock uh)))) s c c'.
Proof.
  intros Hi Hn Huh. pose proof (the_sock_plain n (uh_sock uh) Hn) as Hp. unfold relay_response, relayed. set (raw := take (uh_end uh) (uh_buf uh)).
  replace (ka && (bool_decide (is_Some (uh_clen uh)) || uh_chunked uh)) with (keeps raw ka) by (unfold keeps; by destruct Huh as [-> ->]).
  destruct (client_resp_head resp_gated raw (keeps raw ka)) as [head|] eqn:Eh.
  2:{ unfold refuse_upstream_head. destruct (write_all bad_gateway c) as [r c'] eqn:Ew.
      apply write_all_wire in Ew as (p & Hpp & Hw). eexists _, _, _. split; [done|]. split; [done|]. split; [by apply net_plain_close|]. eauto. }
  destruct (write_all head c) as [[u|e] c1] eqn:Ew.
  2:{ apply write_all_wire in Ew as (p & Hpp & Hw). eexists _, _, _. split; [done|]. split; [done|]. split; [by apply net_plain_close|].
      split; [done|]. exists (match content_length raw with Some k => take (Z.to_nat k) (drop (uh_end uh) (uh_buf uh) ++ arrived (rx (the_sock n (uh_sock uh)))) | None => drop (uh_end uh) (uh_buf uh) ++ arrived (rx (the_sock n (uh_sock uh))) end), p.
      split; [unfold announced; destruct (content_length raw); [done|by destruct (is_chunked raw)]|]. split; [by apply prefix_app_r|done]. }
  apply write_all_Ok in Ew as [_ Hc1]. set (c2 := if is_event_stream raw then snd (flush c1) else c1).
  assert (wire c2 = wire c ++ head) as Hw2.
  { unfold c2. destruct (is_event_stream raw); [|by rewrite Hc1]. destruct (flush c1) as [rf cf] eqn:Ef.
    apply flush_wire in Ef as [Hw _]. cbn [snd]. by rewrite Hw, Hc1. }
  destruct (relay_body_sent splice (is_event_stream raw) (kern n) uh (rx (the_sock n (uh_sock uh))) c2 (Z.of_nat (length head)) Hi Hp Huh)
    as (ok & k' & up' & c3 & sent & -> & Hi' & Hp' & body & Hd & Han & Hs). cbn [mbind option_bind].
  eexists _, _, _. split; [done|]. split.
  { unfold maybe_pool_upstream. case_match; [|exact Hi']. unfold return_to_pool. case_match; exact Hi'. }
  assert (net_plain (set_kern (put_sock n (uh_sock uh) (mkSock (tx (the_sock n (uh_sock uh))) up')) k')) as Hn'
    by (destruct (net_plain_put n (uh_sock uh) (mkSock (tx (the_sock n (uh_sock uh))) up') Hn Hp'); by split).
  split; [by apply net_plain_pooled|]. cbn [s_keepalive s_complete s_head s_bytes]. split; [done|].
  destruct (delivered_prefix _ _ _ _ Hd) as (p & Hpp & Hw3 & Hfull). exists body, (head ++ p). split; [done|]. split; [by apply prefix_app|].
  split; [by rewrite Hw3, Hw2, <- app_assoc|]. intros [Hk Hok]%andb_true_iff. destruct (Hs Hok) as [-> Hfr]. unfold keeps in Hk. apply andb_true_iff in Hk as [Hka Hself].
  split_and!; [done|done|by rewrite Hfull|rewrite length_app; lia|]. apply Hfr. destruct Huh as [-> ->].
  apply orb_true_iff in Hself as [?%bool_decide_eq_true|?]; [by left|by right].
Qed.

(** ** The hop *)
Definition own_responses : list bytes := [service_unavailable; bad_gateway; gateway_timeout].

Lemma own_framed_all resp : resp ∈ own_responses -> own_framed resp = true.
Proof.
  destruct own_responses_framed as (H1 & H2 & H3). unfold own_responses.
  rewrite !elem_of_cons, elem_of_nil. by intros [->|[->|[->|[]]]].
Qed.

Definition loads_fit (f : Fleet) : Prop := forall id c, inflight f !! id = Some c -> fits 32 c.

Lemma inflight_balanced f id : loads_fit f -> inflight (inflight_dec (inflight_inc f id) id) = inflight f.
Proof.
  intros Hf. unfold inflight_inc. destruct (inflight f !! id) as [c|] eqn:E.
  - unfold inflight_dec. cbn [set_inflight inflight]. rewrite lookup_insert_eq, insert_insert_eq.
    unfold wrapping_add, wrapping_sub. pose proof (Hf id c E) as Hc.
    replace (wrap 32 (wrap 32 (c + 1) - 1)) with c; [cbn [set_inflight inflight]; by apply insert_id|].
    unfold wrap. rewrite Zminus_mod_idemp_l. replace (c + 1 - 1) with c by lia. symmetry. apply Z.mod_small, Hc.
  - unfold inflight_dec. by rewrite E.
Qed.

Lemma record_total f id (ok : bool) :
  exists f', (if ok then record_success false f id else record_failure false f id) = Some f' /\ inflight f' = inflight f.
Proof.
  assert (forall g up, exists f', set_up false g id up = Some f' /\ inflight f' = inflight g) as Hset.
  { intros g up. unfold set_up, bit_of. destruct (id <? 32); eexists; done. }
  destruct ok.
  - apply (Hset (set_breaker f (<[id := 0]> (breaker f))) true).
  - unfold record_failure. assert (exists n, bump false (default 0 (breaker f !! id)) = Some n) as [n ->]
      by (unfold bump; destruct (_ <? 2 ^ 32); eauto).
    cbn [mbind option_bind]. cbn zeta. destruct (_ <=? _); [|by eexists].
    apply (Hset (set_breaker f (<[id := n]> (breaker f))) false).
Qed.

Lemma addr_inflight rt f id r f1 : addr rt f id = (r, f1) -> inflight f1 = inflight f.
Proof. unfold addr. intros H. repeat case_match; simplify_eq; done. Qed.

(** What the client was sent, given the outcome of a hop: one of the host's own
    responses, or, of what the peer of a socket found in [n] sent, the transformed
    head and the body it announces. *)
Definition hop_sent (resp_gated : bytes -> bytes) (ka : bool) (n : net) (r : result StreamOutcome io_error) (c c' : sink) : Prop :=
  match r with
  | Err _ => exists resp p, resp ∈ own_responses /\ p `prefix_of` resp /\ wire c' = wire c ++ p
  | Ok o =>
      match so_backend o with
      | None => so_keepalive o = false /\ so_head o ∈ own_responses /\ own_framed (so_head o) = true /\ wire c' = wire c ++ so_head o
      | Some _ =>
          exists id up raw stream, stream_before n id up /\ arrived up = raw ++ stream /\ head_end (raw ++ stream) = Some (length raw) /\
            match client_resp_head resp_gated raw (keeps raw ka) with
            | None => so_keepalive o = false /\ so_head o = bad_gateway /\ exists p, p `prefix_of` bad_gateway /\ wire c' = wire c ++ p
            | Some head =>
                so_head o = head /\ exists body p, announced raw stream body /\ p `prefix_of` head ++ body /\ wire c' = wire c ++ p /\
                  (so_keepalive o = true -> ka = true /\ p = head ++ body /\ so_bytes o = Z.of_nat (length (head ++ body)) /\ self_framed raw body)
            end
      end
  end.

Lemma answer_sent resp_gated ka resp f n c :
  resp ∈ own_responses ->
  exists r c', answer resp f n c = Some (r, f, n, c') /\ forall n0, hop_sent resp_gated ka n0 r c c'.
Proof.
  intros Hr. unfold answer. destruct (write_all resp c) as [[u|e] c'] eqn:Ew; eexists _, _; (split; [done|]); intros n0.
  - apply write_all_Ok in Ew as [_ ->]. cbn. split_and!; [done|done|by apply own_framed_all|done].
  - apply write_all_wire in Ew as (p & Hp & Hw). cbn. eauto.
Qed.

Lemma head_end_cut buf he more : head_end buf = Some he -> head_end (take he buf ++ drop he buf ++ more) = Some (length (take he buf)).
Proof.
  unfold head_end. intros H. apply fmap_Some in H as (p & Hp & ->). pose proof (windows_position_bound _ _ _ Hp) as Hb. change (length CRLFCRLF) with 4%nat in Hb.
  rewrite app_assoc, take_drop, (windows_position_app _ _ _ more Hp), length_take, Nat.min_l by lia. done.
Qed.

Lemma hop_spec fr resp_gated rt pick splice req ka ip f c n :
  Relay.idle_ok (kern n) -> net_plain n -> loads_fit f ->
  exists r f' n' c',
    handle_streaming_via fr resp_gated false rt pick splice req ka ip f c n = Some (r, f', n', c') /\
    Relay.idle_ok (kern n') /\ net_plain n' /\ inflight f' = inflight f /\ hop_sent resp_gated ka n r c c'.
Proof.
  intros Hi Hn Hf. unfold handle_streaming_via.
  destruct (pick _ _) as [id|].
  2:{ destruct (answer_sent resp_gated ka service_unavailable f n c) as (r & c' & -> & H); [set_solver|]. eauto 10. }
  destruct (addr rt f id) as [[a|] f1] eqn:Ea; apply addr_inflight in Ea.
  2:{ destruct (answer_sent resp_gated ka bad_gateway f1 n c) as (r & c' & -> & H); [set_solver|]. eauto 10. }
  assert (inflight (inflight_dec (inflight_inc f1 id) id) = inflight f) as Hload.
  { rewrite <- Ea. apply inflight_balanced. unfold loads_fit. by rewrite Ea. }
  set (f2 := inflight_dec (inflight_inc f1 id) id) in *. unfold forward_streaming_via.
  destruct (dial_and_read_head_ok fr a req ip n Hn) as (r1 & n1 & -> & Hn1 & Hk1 & Huh). cbn [mbind option_bind].
  destruct r1 as [uh|e].
  - destruct (relay_response_sent resp_gated splice a uh ka c n1) as (s & n2 & c' & -> & Hi2 & Hn2 & Hrel);
      [by rewrite Hk1|done|by apply (Huh uh eq_refl)|]. cbn [mbind option_bind].
    destruct (record_total f2 id (s_complete s)) as (f3 & -> & Hl3). cbn [mbind option_bind].
    eexists _, f3, n2, c'. split; [done|]. split; [done|]. split; [done|]. split; [congruence|].
    destruct (Huh uh eq_refl) as (_ & Hend & up & Hb & Harr). cbn. exists (uh_sock uh), up, (take (uh_end uh) (uh_buf uh)), (drop (uh_end uh) (uh_buf uh) ++ arrived (rx (the_sock n1 (uh_sock uh)))). split; [exact Hb|].
    split; [rewrite Harr, app_assoc, take_drop; done|]. split; [by apply head_end_cut|]. unfold relayed in Hrel. destruct (client_resp_head _ _ _); [|exact Hrel].
    destruct Hrel as (? & body & p & ? & ? & ? & Hk). split; [done|]. exists body, p. split_and!; [done..|]. intros Hka. destruct (Hk Hka) as (_ & ?). done.
  - cbn [mbind option_bind]. destruct (record_total f2 id false) as (f3 & -> & Hl3). cbn [mbind option_bind].
    destruct (answer_sent resp_gated ka (match e with TimedOut | WouldBlock => gateway_timeout | _ => bad_gateway end) f3 n1 c)
      as (r & c' & -> & H); [destruct e; set_solver|].
    exists r, f3, n1, c'. split; [done|]. split; [by rewrite Hk1|]. split; [done|]. split; [congruence|done].
Qed.


(** ** Concrete exchanges *)
Definition accept_gate (head : bytes) : bytes := 0 :: head.

Definition idle_kernel : Relay.kernel := Relay.Kernel [] [] [] None.

(** One connection, whose peer sends [rx0], and a pool. *)
Definition one_peer (rx0 : list read_ev) : net :=
  Net (Some (Conns.conns_new 4 90)) ∅ [Ok (mkSock (Sink [] 999 []) rx0)] 0 0
    (fun _ => Conns.mkProbe true Conns.PeekWouldBlock true) idle_kernel.

Definition ok_head (fields : string) : bytes := bs "HTTP/1.1 200 OK" ++ CRLF ++ bs fields ++ CRLFCRLF.

Definition one_backend (thr : Z) : Fleet := mkFleet {[0 := bs "h:1"]} {[0 := Some 7]} 1 ∅ {[0 := 0]} thr 0.

Definition demo_hop (thr : Z) (method : string) (rx0 : list read_ev) :=
  handle_streaming_via (fun req _ => req) accept_gate false (fun _ => None) (fun _ _ => Some 0) true
    (bs method ++ bs " /api HTTP/1.1" ++ CRLFCRLF) true [] (one_backend thr) (Sink [] 999 []) (one_peer rx0).

Definition demo_message : bytes := ok_head "Content-Length: 2" ++ bs "ok".

Lemma demo_peer_plain rx0 : Relay.plain rx0 -> net_plain (one_peer rx0).
Proof. intros H. split; [done|]. intros s [[= ->]|Hs]%elem_of_cons; [done|]. by apply elem_of_nil in Hs. Qed.

Lemma forward_pools_at_boundary_witness :
  exists resp he clen up,
    @Ok bytes io_error demo_message = Ok resp /\ head_end resp = Some he /\ content_length (take he resp) = Some clen /\
    Z.of_nat (length resp) = Z.of_nat he + clen /\ resp_upstream_keepalive (take he resp) = true /\
    is_Some (forward_response_head_gated accept_gate (take he resp)) /\
    stream_before (one_peer [Data demo_message]) 0 up /\
    arrived up = resp ++ arrived (rx (the_sock (default (one_peer []) (snd <$>
      forward (fun r => r) accept_gate 7 (bs "GET") (one_peer [Data demo_message]))) 0)).
Proof.
  eapply (forward_pools_at_boundary (fun r => r) accept_gate 7 (bs "GET") (one_peer [Data demo_message]) (Ok demo_message) _ 0).
  - vm_compute. reflexivity.
  - vm_compute. left.
  - vm_compute. by intros ?%elem_of_nil.
Defined.


(** The streaming forward has no check that nothing was read past the body: the
    excess is dropped and the socket is pooled in the middle of what follows;
    the buffered forward closes it. *)
Example streamed_overread_pooled :
  let peer := one_peer [Data (demo_message ++ bs "HTTP/1.1 2"); Data (bs "00 OK")] in
  match forward_streaming_via (fun req _ => req) accept_gate false true 7 (bs "GET") true [] (Sink [] 999 []) peer with
  | Some (Ok s, n', _) => s_complete s && bool_decide (pooled n' 7 = [0]) && bool_decide (arrived (rx (the_sock n' 0)) = bs "00 OK")
  | _ => false
  end = true /\
  (fun r => pooled r.2 7) <$> forward (fun r => r) accept_gate 7 (bs "GET") peer = Some [].
Proof. vm_compute. done. Qed.

(** A HEAD request answered as it should be, by a head alone, is waited on for
    the body its head describes: the hop fails and counts against the backend. *)
Example head_request_trips_breaker :
  match demo_hop 1 "HEAD" [Data (ok_head "Content-Length: 2"); Fault WouldBlock] with
  | Some (Ok o, f', _, _) => negb (so_keepalive o) && (mask f' =? 0)
  | _ => false
  end = true.
Proof. vm_compute. done. Qed.

(** What arrives with the last chunk goes to the client too, on a connection
    that stays open. *)
Example chunked_excess_relayed :
  match demo_hop 3 "GET" [Data (ok_head "Transfer-Encoding: chunked" ++ bs "0" ++ CRLFCRLF ++ bs "EXTRA")] with
  | Some (Ok o, _, _, c') => so_keepalive o && ends_with (bs "EXTRA") (wire c')
  | _ => false
  end = true.
Proof. vm_compute. done. Qed.
