(* ===== verification/Interim.v ===== *)
(** * The interim 100 response ([migration/dataplane/host/src/interim.rs])

    Whether a buffered head asks for [100 Continue]. The scanner reads the head
    alone, so neither the body nor later bytes change its answer. *)
From S2P Require Import Prelude Bytes Lines Http ProxyHead.

Local Open Scope Z_scope.

Definition INTERIM_100 : bytes := bs "HTTP/1.1 100 Continue" ++ CRLFCRLF.

Definition eq_ignore_case (a b : bytes) : bool :=
  (length a =? length b)%nat &&
  forallb (fun '(x, y) => to_ascii_lowercase x =? to_ascii_lowercase y) (zip a b).

Definition trim_ows (v : bytes) : bytes := trim_while (fun c => (c =? 32) || (c =? 9)) v.

(** A line that is the field [Expect: 100-continue]. *)
Definition expects_continue (line : bytes) : bool :=
  match position (fun c => c =? COLON) line with
  | None => false
  | Some colon =>
      eq_ignore_case (take colon line) (bs "expect") &&
      eq_ignore_case (trim_ows (drop (colon + 1) line)) (bs "100-continue")
  end.

Definition wants_interim_100 (acc : bytes) : bool :=
  match windows_position CRLFCRLF acc with
  | None => false
  | Some head_end =>
      match lf_lines (take head_end acc) with
      | line :: lines => ends_with (bs "HTTP/1.1") line && existsb expects_continue lines
      | [] => false
      end
  end.

(** What follows the head has no say. *)
Lemma wants_interim_head acc more :
  is_Some (windows_position CRLFCRLF acc) -> wants_interim_100 (acc ++ more) = wants_interim_100 acc.
Proof.
  intros [p Hp]. unfold wants_interim_100. assert (head_end acc = Some (p + 4)%nat) as Hh by (unfold head_end; by rewrite Hp).
  destruct (head_end_app acc _ more Hh) as [Ha Ht]. unfold head_end in Ha.
  destruct (windows_position CRLFCRLF (acc ++ more)) as [q|]; [|done]. injection Ha as Hq. replace q with p by lia.
  rewrite Hp. assert (take p (acc ++ more) = take p acc) as ->; [|done].
  apply (f_equal (take p)) in Ht. rewrite !take_take in Ht. by replace (p `min` (p + 4))%nat with p in Ht by lia.
Qed.

(** Only a request that withholds a body over HTTP/1.1 is answered early. *)
Example interim_cases :
  let req v f := bs "POST / HTTP/" ++ bs v ++ CRLF ++ bs f ++ CRLFCRLF in
  wants_interim_100 (req "1.1" "eXpect: 100-Continue ") = true /\
  wants_interim_100 (req "1.0" "Expect: 100-continue") = false /\
  wants_interim_100 (req "1.1" "Expect: 200-ok") = false /\
  wants_interim_100 (req "1.1"%string "X: 1"%string ++ bs "Expect: 100-continue" ++ CRLFCRLF) = false /\
  wants_interim_100 (bs "POST / HTTP/1.1" ++ CRLF ++ bs "Expect: 100-continue" ++ CRLF) = false.
Proof. vm_compute. done. Qed.
