(* ===== verification/IpText.v ===== *)
(** * Addresses in text

    [str::parse::<IpAddr>] of the standard library, which the host applies to
    forwarded client addresses: dotted decimal without leading zeros, or eight
    hexadecimal groups with one run elided and an optional dotted tail. A
    parser takes the text and gives a value with the text left. *)
From S2P Require Import Prelude Bytes Standing.

Local Open Scope Z_scope.

Definition DOT : Z := 46.
Definition COLON_ : Z := 58.

Definition parser A := bytes -> option (A * bytes).

Definition digit_value (radix b : Z) : option Z :=
  let d := if between 48 57 b then b - 48
           else if between 97 102 b then b - 87
           else if between 65 70 b then b - 55
           else radix in
  if d <? radix then Some d else None.

(** Digits as far as they go; [None] past [max] of them or past the width. *)
Fixpoint read_digits (radix w : Z) (max : nat) (value : Z) (l : bytes) : option (Z * nat * bytes) :=
  match l with
  | b :: l' =>
      match digit_value radix b with
      | None => Some (value, O, l)
      | Some d =>
          match max with
          | O => None
          | S max' =>
              let v := value * radix + d in
              if 2 ^ w <=? v then None
              else '(v', n, rest) ← read_digits radix w max' v l'; Some (v', S n, rest)
          end
      end
  | [] => Some (value, O, [])
  end.

Definition read_number (radix w : Z) (max : nat) (allow_zero_prefix : bool) : parser Z := fun l =>
  '(v, n, rest) ← read_digits radix w max 0 l;
  if (n =? 0)%nat then None
  else if negb allow_zero_prefix && bool_decide (head l = Some 48) && (1 <? n)%nat then None
  else Some (v, rest).

(** [read_separator]: the separator comes before every item but the first. *)
Definition read_separator {A} (sep : Z) (index : nat) (p : parser A) : parser A := fun l =>
  match index with
  | O => p l
  | S _ => match l with b :: l' => if b =? sep then p l' else None | [] => None end
  end.

Fixpoint read_octets (todo index : nat) (value : Z) : parser Z := fun l =>
  match todo with
  | O => Some (value, l)
  | S todo' =>
      '(o, l') ← read_separator DOT index (read_number 10 8 3 false) l;
      read_octets todo' (S index) (value * 256 + o) l'
  end.

Definition read_ipv4_addr : parser Z := read_octets 4 0 0.

(** [read_groups]: the groups read, and whether they end in a dotted quad,
    which takes two of them. *)
Fixpoint read_groups (todo index : nat) (l : bytes) : list Z * bool * bytes :=
  match todo with
  | O => ([], false, l)
  | S todo' =>
      let group :=
        match read_separator COLON_ index (read_number 16 16 4 true) l with
        | Some (g, l') => let '(gs, v4, rest) := read_groups todo' (S index) l' in (g :: gs, v4, rest)
        | None => ([], false, l)
        end in
      match todo' with
      | O => group
      | S _ =>
          match read_separator COLON_ index read_ipv4_addr l with
          | Some (a, l') => ([a / 2 ^ 16; a mod 2 ^ 16], true, l')
          | None => group
          end
      end
  end.

Definition of_groups (gs : list Z) : Z := fold_left (fun v g => v * 2 ^ 16 + g) gs 0.

Definition read_ipv6_addr : parser Z := fun l =>
  let '(head, head_ipv4, l1) := read_groups 8 0 l in
  if (length head =? 8)%nat then Some (of_groups head, l1)
  else if head_ipv4 then None
  else
    match l1 with
    | c1 :: c2 :: l2 =>
        if (c1 =? COLON_) && (c2 =? COLON_) then
          let '(tail, _, l3) := read_groups (8 - (length head + 1)) 0 l2 in
          Some (of_groups (head ++ replicate (8 - length head - length tail) 0 ++ tail), l3)
        else None
    | _ => None
    end.

Definition parse_ip (l : bytes) : option IpAddr :=
  match read_ipv4_addr l with
  | Some (a, rest) => if bool_decide (rest = []) then Some (V4 a) else None
  | None =>
      match read_ipv6_addr l with
      | Some (a, rest) => if bool_decide (rest = []) then Some (V6 a) else None
      | None => None
      end
  end.

(** [IpAddr::is_loopback]. *)
Definition is_loopback (ip : IpAddr) : bool :=
  match ip with
  | V4 a => Z.shiftr a 24 =? 127
  | V6 a => a =? 1
  end.

(** [IpAddr::V4(Ipv4Addr::UNSPECIFIED)]. *)
Definition UNSPECIFIED : IpAddr := V4 0.

Example parse_ip_cases :
  parse_ip (bs "127.0.0.1") = Some (V4 0x7f000001) /\
  parse_ip (bs "1.2.3.04") = None /\ parse_ip (bs "1.2.3.256") = None /\ parse_ip (bs "1.2.3.4:80") = None /\
  parse_ip (bs "::1") = Some (V6 1) /\ parse_ip (bs "1::") = Some (V6 (2 ^ 112)) /\
  parse_ip (bs "::ffff:10.0.0.1") = Some (V6 0xffff0a000001) /\
  parse_ip (bs "1:2:3:4:5:6:7:8") = Some (V6 0x00010002000300040005000600070008) /\
  parse_ip (bs "1:2:3:4:5:6:7::8") = None /\ parse_ip (bs "1.2.3.4::") = None /\ parse_ip [] = None.
Proof. vm_compute. done. Qed.
