(* ===== verification/Connect.v ===== *)
(** * The CONNECT tunnel ([migration/dataplane/host/src/proxy_connect.rs])

    The target of the request line, the frame handed to the linked admission
    gate, the refusals and the two copies of the tunnel. The gate, the lookup of
    names and the network are parameters, and every use of them is an event of
    the trace a request leaves ([M]). The directions of a tunnel share
    nothing but the two sockets, so each is a function of its own reads; the
    socket options are not modelled. *)
From S2P Require Import Prelude Bytes Lines Io.

Local Open Scope Z_scope.

Definition is_connect (req : bytes) : bool := starts_with (bs "CONNECT ") req.

Definition refusal (status len body : string) : bytes :=
  bs "HTTP/1.1 " ++ bs status ++ CRLF ++ bs "Content-Length: " ++ bs len ++ CRLF ++ bs "Connection: close" ++ CRLFCRLF ++ bs body.

Definition H1_200_ESTABLISHED : bytes := bs "HTTP/1.1 200 Connection Established" ++ CRLFCRLF.
Definition H1_403_FORBIDDEN : bytes := refusal "403 Forbidden" "9" "Forbidden".
Definition H1_400_BAD_REQUEST : bytes := refusal "400 Bad Request" "11" "Bad Request".
Definition H1_502_BAD_GATEWAY : bytes := refusal "502 Bad Gateway" "11" "Bad Gateway".

Definition parse_target (req : bytes) : option bytes :=
  let line := take (default (length req) (windows_position CRLF req)) req in
  match split_on (fun c => c =? 32) line with
  | _ :: target :: _ =>
      if utf8_valid target then
        let t := str_trim target in if bool_decide (t = []) then None else Some t
      else None
  | _ => None
  end.

Definition allow_list (env : string -> option bytes) : list bytes :=
  match env "DRORB_CONNECT_ALLOW"%string with
  | None => []
  | Some s => filter (fun p => p <> []) (str_trim <$> split_on (fun c => c =? 44) s)
  end.

(** What crosses to the gate: the target and the patterns, a line each. *)
Definition gate_frame (target : bytes) (allow : list bytes) : bytes :=
  target ++ concat ((fun p => LF :: p) <$> allow).

Section tunnel.
Context (connect_gate : bytes -> option bytes) (env : string -> option bytes).

Definition gate_admits (target : bytes) : bool :=
  match connect_gate (gate_frame target (allow_list env)) with
  | Some out => bool_decide (head out = Some 1)
  | None => false
  end.

(** [std::io::copy]: to the end of the reads, interruptions retried. *)
Definition COPY_CHUNK : nat := Z.to_nat (8 * 1024).

Fixpoint copy_loop (fuel : nat) (up : list read_ev) (c : sink) : option (list read_ev * sink) :=
  match fuel with
  | O => None
  | S f =>
      match read COPY_CHUNK up with
      | (Ok [], up') => Some (up', c)
      | (Err Interrupted, up') => copy_loop f up' c
      | (Err _, up') => Some (up', c)
      | (Ok got, up') =>
          match write_all got c with
          | (Err _, c') => Some (up', c')
          | (Ok _, c') => copy_loop f up' c'
          end
      end
  end.

Definition copy (up : list read_ev) (c : sink) : option (list read_ev * sink) := copy_loop (S (weight up)) up c.

Record Socket := mkSocket { s_rx : list read_ev; s_tx : sink }.

(** Both directions; each half-closes the other side when it ends. Nothing
    moves unless both sockets could be duplicated. *)
Definition pump (client_cloned upstream_cloned : bool) (client upstream : Socket) : option (Socket * Socket) :=
  if negb client_cloned then Some (client, upstream)
  else if negb upstream_cloned then Some (client, upstream)
  else
    '(crx, utx) ← copy (s_rx client) (s_tx upstream);
    '(urx, ctx) ← copy (s_rx upstream) (s_tx client);
    Some (mkSocket crx ctx, mkSocket urx utx).

Context {Addr : Type} (to_socket_addrs : bytes -> option Addr) (dial : Addr -> option Socket) (client_cloned upstream_cloned : bool).

Definition reply (b : bytes) (client : Socket) : Socket := mkSocket (s_rx client) (snd (write_all b (s_tx client))).

(** What a request asks of the outside, in order. *)
Inductive Event := EGate (frame : bytes) | EResolve (name : bytes) | EDial (a : Addr).

Definition M (A : Type) : Type := list Event -> A * list Event.
Definition ret {A} (x : A) : M A := fun tr => (x, tr).
Definition bind {A B} (m : M A) (f : A -> M B) : M B := fun tr => let '(x, tr') := m tr in f x tr'.
Local Notation "x <- m ;; k" := (bind m (fun x => k)) (at level 100, m at next level, right associativity).

Definition ask_gate (target : bytes) : M bool :=
  fun tr => (gate_admits target, tr ++ [EGate (gate_frame target (allow_list env))]).
Definition resolve (target : bytes) : M (option Addr) := fun tr => (to_socket_addrs target, tr ++ [EResolve target]).
Definition connect (a : Addr) : M (option Socket) := fun tr => (dial a, tr ++ [EDial a]).

(** The client, and the upstream when one was reached. *)
Definition handle_connect (req : bytes) (client : Socket) : M (option (Socket * option Socket)) :=
  match parse_target req with
  | None => ret (Some (reply H1_400_BAD_REQUEST client, None))
  | Some target =>
      admitted <- ask_gate target ;;
      if negb admitted then ret (Some (reply H1_403_FORBIDDEN client, None))
      else
        addr <- resolve target ;;
        match addr with
        | None => ret (Some (reply H1_502_BAD_GATEWAY client, None))
        | Some a =>
            dialled <- connect a ;;
            match dialled with
            | None => ret (Some (reply H1_502_BAD_GATEWAY client, None))
            | Some upstream =>
                match write_all H1_200_ESTABLISHED (s_tx client) with
                | (Err _, c) => ret (Some (mkSocket (s_rx client) c, Some upstream))
                | (Ok _, c) =>
                    ret ('(cl, u) ← pump client_cloned upstream_cloned (mkSocket (s_rx client) c) upstream; Some (cl, Some u))
                end
            end
        end
  end.

(** ** What a copy delivers *)

(** Everything that comes before the end or the first fault that is not an
    interruption. *)
Fixpoint readable (up : list read_ev) : bytes :=
  match up with
  | Data (b :: l) :: up' => (b :: l) ++ readable up'
  | Fault Interrupted :: up' => readable up'
  | _ => []
  end.

Lemma read_readable n up r up' : (0 < n)%nat -> read n up = (r, up') ->
  match r with
  | Ok [] => readable up = []
  | Ok got => readable up = got ++ readable up' /\ (weight up' < weight up)%nat
  | Err Interrupted => readable up' = readable up /\ (weight up' < weight up)%nat
  | Err _ => readable up = []
  end.
Proof using.
  intros Hn. destruct up as [|[b|e] up]; cbn [read].
  - by intros [= <- <-].
  - destruct (length b <=? n)%nat eqn:E; intros [= <- <-].
    + destruct b as [|x b]; [done|]. cbn [readable weight]. split; [done|lia].
    + apply Nat.leb_gt in E. destruct b as [|x b]; [cbn in E; lia|]. destruct n as [|n]; [lia|]. cbn [take drop].
      assert (exists y l, drop n b = y :: l) as (y & l & Hd).
      { destruct (drop n b) as [|y l] eqn:Ed; [|eauto]. apply (f_equal length) in Ed. rewrite length_drop in Ed. cbn in E, Ed. lia. }
      rewrite Hd. cbn [readable weight]. rewrite <- Hd. split.
      * rewrite app_assoc. f_equal. cbn [app]. by rewrite take_drop.
      * rewrite length_drop. cbn [length]. lia.
  - intros [= <- <-]. destruct e; cbn [readable weight]; first [done|split; [done|lia]].
Qed.

(** A copy returns, having delivered a prefix of that, and all of it unless the
    receiver failed. *)
Definition copied (up : list read_ev) (c c' : sink) : Prop :=
  exists p, p `prefix_of` readable up /\ wire c' = wire c ++ p /\ ((length (readable up) <= room c)%nat -> p = readable up).

Lemma copy_loop_spec fuel : forall up c, (weight up < fuel)%nat ->
  exists up' c', copy_loop fuel up c = Some (up', c') /\ copied up c c'.
Proof using.
  induction fuel as [|f IH]; intros up c Hf; [lia|]. cbn [copy_loop].
  destruct (read COPY_CHUNK up) as [r up'] eqn:E. apply read_readable in E; [|unfold COPY_CHUNK; lia].
  assert (readable up = [] -> copied up c c) as Hnil.
  { intros Hr. exists []. rewrite Hr, app_nil_r. split_and!; done. }
  destruct r as [[|b l]|e]; [by eexists _, _; split; [done|]; apply Hnil| |].
  - destruct E as [Hr Hw]. destruct (write_all (b :: l) c) as [[u|e] c1] eqn:Ew.
    + apply write_all_Ok in Ew as [Hroom ->]. destruct (IH up' (Sink (wire c ++ b :: l) (room c - length (b :: l)) (flushes c)))
        as (up2 & c2 & -> & p & Hp & Hw2 & Hall); [lia|]. eexists _, _. split; [done|]. exists ((b :: l) ++ p). rewrite Hr.
      split_and!; [by apply prefix_app|by rewrite Hw2; cbn [wire]; rewrite <- app_assoc|].
      rewrite length_app. intros Hlen. rewrite Hall; [done|]. cbn [room]. lia.
    + pose proof Ew as Ew'. apply write_all_wire in Ew as (p & Hp & Hw1). eexists _, _. split; [done|]. exists p. rewrite Hr.
      split_and!; [by apply prefix_app_r|done|]. rewrite length_app. intros Hlen. unfold write_all in Ew'.
      rewrite (proj2 (Nat.leb_le _ _)) in Ew' by lia. done.
  - destruct e; try (by eexists _, _; split; [done|]; apply Hnil). destruct E as [Hr Hw].
    destruct (IH up' c) as (up2 & c2 & -> & H); [lia|]. eexists _, _. split; [done|]. unfold copied in *. by rewrite <- Hr.
Qed.

Lemma copy_spec up c : exists up' c', copy up c = Some (up', c') /\ copied up c c'.
Proof using. apply copy_loop_spec. lia. Qed.

(** One response, whole as long as the client takes bytes. *)
Definition answered (resp : bytes) (client client' : Socket) : Prop :=
  exists p, p `prefix_of` resp /\ wire (s_tx client') = wire (s_tx client) ++ p /\ ((length resp <= room (s_tx client))%nat -> p = resp).

Lemma reply_answered resp client : answered resp client (reply resp client).
Proof using.
  unfold reply, answered. destruct (write_all resp (s_tx client)) as [r c] eqn:Ew. pose proof Ew as Ew'.
  apply write_all_wire in Ew as (p & Hp & Hw). exists p. split_and!; [done|done|]. intros Hlen.
  unfold write_all in Ew'. rewrite (proj2 (Nat.leb_le _ _) Hlen) in Ew'. injection Ew' as <- <-. cbn in Hw. by apply app_inv_head in Hw.
Qed.

(** The verdict of the gate on the target and the configured patterns. *)
Definition verdict (target : bytes) : option Z := connect_gate (gate_frame target (allow_list env)) ≫= head.

Lemma gate_verdict target : gate_admits target = bool_decide (verdict target = Some 1).
Proof using. unfold gate_admits, verdict. by destruct (connect_gate _) as [out|]. Qed.

(** The ways a request ends: the trace it leaves, the client and the upstream
    after it. *)
Inductive ends (req : bytes) (client : Socket) : list Event -> Socket -> option Socket -> Prop :=
  | ENoTarget client' :
      parse_target req = None -> answered H1_400_BAD_REQUEST client client' -> ends req client [] client' None
  | EDenied target client' :
      parse_target req = Some target -> verdict target <> Some 1 -> answered H1_403_FORBIDDEN client client' ->
      ends req client [EGate (gate_frame target (allow_list env))] client' None
  | EUnresolved target client' :
      parse_target req = Some target -> verdict target = Some 1 -> to_socket_addrs target = None -> answered H1_502_BAD_GATEWAY client client' ->
      ends req client [EGate (gate_frame target (allow_list env)); EResolve target] client' None
  | EUnreached target a client' :
      parse_target req = Some target -> verdict target = Some 1 -> to_socket_addrs target = Some a -> dial a = None ->
      answered H1_502_BAD_GATEWAY client client' ->
      ends req client [EGate (gate_frame target (allow_list env)); EResolve target; EDial a] client' None
  | ETunnel target a u0 c1 client' u :
      parse_target req = Some target -> verdict target = Some 1 -> to_socket_addrs target = Some a -> dial a = Some u0 ->
      answered H1_200_ESTABLISHED client c1 ->
      (if bool_decide ((length H1_200_ESTABLISHED <= room (s_tx client))%nat) && client_cloned && upstream_cloned
       then copied (s_rx client) (s_tx u0) (s_tx u) /\ copied (s_rx u0) (s_tx c1) (s_tx client')
       else s_tx client' = s_tx c1 /\ u = u0) ->
      ends req client [EGate (gate_frame target (allow_list env)); EResolve target; EDial a] client' (Some u).

End tunnel.

(** The frame does not determine the target: a bare line feed in the request
    line moves what follows it into the pattern list. *)
Example gate_frame_confusable :
  parse_target (bs "CONNECT a:1" ++ [LF] ++ bs "*:2 HTTP/1.1" ++ CRLFCRLF) = Some (bs "a:1" ++ [LF] ++ bs "*:2") /\
  gate_frame (bs "a:1" ++ [LF] ++ bs "*:2") [] = gate_frame (bs "a:1") [bs "*:2"].
Proof. vm_compute. done. Qed.
