(* ===== verification/Blocking.v ===== *)
(** * The connection loop of the blocking backend ([migration/dataplane/host/src/blocking.rs])

    One accepted connection: the opening check, the header phase with its
    deadline, body gate and interim response, and the lanes in the order of the
    source, as one state machine over the socket. [Conn] holds the socket, the
    request index and what the thread records. Whenever the thread looks at the
    clock or the configuration ([look]), time has passed and the other threads
    have run: the readings and the others' effect are given by the position of
    the look. A streaming lane is an argument that meets [StreamLane]; the file
    server and the reverse proxy do ([Lanes]). The HTTP/2 engine and the CONNECT
    tunnel take the socket over and end the loop. *)
From S2P Require Import Prelude Bytes Lines Io Standing IpText Http Gzip Ws WsEngine Static ProxyHead Interim Connect.

Local Open Scope Z_scope.

Definition MAX_CONNS : Z := 1024.
Definition H2_PREFACE : bytes := bs "PRI * HTTP/2.0" ++ CRLF.

Definition canned (status len body : string) : bytes :=
  bs "HTTP/1.1 " ++ bs status ++ CRLF ++ bs "Content-Type: text/plain" ++ CRLF ++
  bs "Content-Length: " ++ bs len ++ CRLF ++ bs "Connection: close" ++ CRLFCRLF ++ bs body ++ [LF].

Definition CONN_LIMIT_503 : bytes := canned "503 Service Unavailable" "36" "per-source connection limit reached".
Definition RATE_LIMIT_429 : bytes := canned "429 Too Many Requests" "20" "rate limit exceeded".
Definition SLOWLORIS_408 : bytes := canned "408 Request Timeout" "23" "request header timeout".
Definition BODY_413 : bytes := canned "413 Content Too Large" "18" "content too large".

(** The stack buffers of [fill] and of the frame loop. *)
Definition FILL_CHUNK : nat := Z.to_nat 16384.
Definition WS_CHUNK : nat := Z.to_nat 65536.

(** ** Heads *)

(** The lines of a head through its last CRLF, or of everything when the head
    is not complete. *)
Definition head_lines (msg : bytes) : list bytes :=
  lf_lines (take (default (length msg) ((fun p => (p + 2)%nat) <$> windows_position CRLFCRLF msg)) msg).

(** The value of a line that is a field of that name, as the code splits it. *)
Definition field_rest (name line : bytes) : option bytes :=
  match position (fun c => c =? COLON) line with
  | None => None
  | Some colon => if eq_ignore_ascii_case (take colon line) name then Some (drop (colon + 1) line) else None
  end.

Definition response_wants_close (resp : bytes) : bool :=
  existsb (fun line =>
    match field_rest (bs "connection") line with
    | None => false
    | Some rest => existsb (fun tok => eq_ignore_ascii_case (trim_ascii tok) (bs "close")) (split_on (fun c => c =? 44) rest)
    end) (head_lines resp).

Fixpoint first_forwarded (lines : list bytes) : option bytes :=
  match lines with
  | [] => None
  | line :: lines' =>
      match field_rest (bs "x-forwarded-for") line with
      | Some value => Some value
      | None => first_forwarded lines'
      end
  end.

Definition client_addr (req : bytes) (peer : IpAddr) : IpAddr :=
  if negb (is_loopback peer) then peer
  else
    match first_forwarded (head_lines req) with
    | None => peer
    | Some value =>
        let first := default value (head (split_on (fun c => c =? 44) value)) in
        let trimmed := trim_ascii first in
        if utf8_valid trimmed then default peer (parse_ip trimmed) else peer
    end.

(** ** What the thread reads and records *)

Record Deployment := mkDeployment {
  lb_policy : Z;
  config_text : bytes;
  has_routes : bool;
  is_vhost_proxy : bytes -> bool
}.

(** The clock, in milliseconds, and the values a reload can change. *)
Record Ambient := mkAmbient {
  a_now : Z;
  slowloris_timeout : Z;
  max_body_size : Z;
  burst_cap : Z;
  rate_limit : Z;
  rate_window : Z;
  deployment : option Deployment;
  raw_text : bytes
}.

Definition secs (ms : Z) : Z := ms / 1000.

(** [serve::pack_rate_scalar]. *)
Definition pack_rate_scalar (cap count elapsed_secs : Z) : Z :=
  Z.lor (wrap 64 (Z.shiftl (Z.min elapsed_secs cap) 32)) (Z.min count cap).

Record Meter := mkMeter {
  m_client : IpAddr;
  m_seq : Z;
  m_active : Z;
  m_hdr_span : Z;
  m_rate_prior : Z
}.

(** What a served response leaves in the metrics and the access log. *)
Inductive Entry :=
  | LogWhole (req resp : bytes)
  | LogStreamed (req head : bytes) (count : Z) (backend : option Z).

(** [StreamOutcome] of the proxy and [StaticOutcome] of the file server. *)
Record LaneOut := mkLaneOut { lo_head : bytes; lo_bytes : Z; lo_keepalive : bool; lo_backend : option Z }.

(** Why the connection ended. *)
Inductive Exit :=
  | Quiet                                  (* end, fault or malformed: nothing was sent *)
  | Refused (resp : bytes)                 (* a canned refusal was written *)
  | Answered                               (* the response was the last *)
  | WriteFailed
  | ToH2 (acc : bytes)
  | ToConnect (req : bytes)
  | Upgrade
  | OwnerGone.

Inductive Next := Again | Leave (e : Exit).

(** ** Streaming lanes: what the loop relies on

    [None] of the inner option: the serve owner is gone. When a lane lets the
    connection go on, the client had asked for that, and what it was sent
    starts with the head and has the length that are reported. *)
Definition lane (W : Type) : Type :=
  bytes -> bool -> sink -> W -> option (option (result LaneOut io_error) * sink * W).

Definition lane_sent (ka : bool) (r : option (result LaneOut io_error)) (c c' : sink) : Prop :=
  match r with
  | None | Some (Err _) => True
  | Some (Ok o) => lo_keepalive o = true -> ka = true /\ exists resp,
      wire c' = wire c ++ resp /\ lo_head o `prefix_of` resp /\ lo_bytes o = Z.of_nat (length resp)
  end.

Class StreamLane {W : Type} (inv : W -> Prop) (l : lane W) : Prop :=
  lane_ok : forall req ka c w, inv w ->
    exists r c' w', l req ka c w = Some (r, c', w') /\ inv w' /\
      wire c `prefix_of` wire c' /\ lane_sent ka r c c'.

(** ** The loop *)
Record Conn (W : Type) := mkConn {
  c_rx : list read_ev;          (* the socket's coming reads *)
  c_tx : sink;
  c_tick : nat;                 (* looks so far *)
  c_seq : Z;                    (* [conn_seq] *)
  c_start : Z;                  (* [conn_start] *)
  c_log : list Entry;
  c_table : SharedStanding;
  c_world : W                   (* what the lanes keep *)
}.
Arguments mkConn {W}. Arguments c_rx {W}. Arguments c_tx {W}. Arguments c_tick {W}. Arguments c_seq {W}.
Arguments c_start {W}. Arguments c_log {W}. Arguments c_table {W}. Arguments c_world {W}.

Section conn.
Context {W I D : Type}.
#[local] Abbreviation Conn := (Conn W).

Definition set_rx (s : Conn) (r : list read_ev) : Conn :=
  mkConn r (c_tx s) (c_tick s) (c_seq s) (c_start s) (c_log s) (c_table s) (c_world s).
Definition set_tx (s : Conn) (c : sink) : Conn :=
  mkConn (c_rx s) c (c_tick s) (c_seq s) (c_start s) (c_log s) (c_table s) (c_world s).
Definition set_world (s : Conn) (w : W) : Conn :=
  mkConn (c_rx s) (c_tx s) (c_tick s) (c_seq s) (c_start s) (c_log s) (c_table s) w.
Definition set_table (s : Conn) (t : SharedStanding) : Conn :=
  mkConn (c_rx s) (c_tx s) (c_tick s) (c_seq s) (c_start s) (c_log s) t (c_world s).
Definition next_seq (s : Conn) : Conn :=
  mkConn (c_rx s) (c_tx s) (c_tick s) (saturating_add 64 (c_seq s) 1) (c_start s) (c_log s) (c_table s) (c_world s).

(** [emit] and [emit_streamed]. *)
Definition emit (e : Entry) (s : Conn) : Conn :=
  mkConn (c_rx s) (c_tx s) (c_tick s) (c_seq s) (c_start s) (c_log s ++ [e]) (c_table s) (c_world s).

(** The readings at each look, and what the other threads did before it. *)
Context (amb : nat -> Ambient) (others : nat -> SharedStanding -> W -> SharedStanding * W).

Definition look (s : Conn) : Ambient * Conn :=
  let '(t, w) := others (c_tick s) (c_table s) (c_world s) in
  (amb (c_tick s), mkConn (c_rx s) (c_tx s) (S (c_tick s)) (c_seq s) (c_start s) (c_log s) t w).

(** One read into the accumulation buffer. *)
Definition fill (acc : bytes) (s : Conn) : result nat io_error * bytes * Conn :=
  match Io.read FILL_CHUNK (c_rx s) with
  | (Ok got, r) => (Ok (length got), acc ++ got, set_rx s r)
  | (Err e, r) => (Err e, acc, set_rx s r)
  end.

(** A best-effort write and flush, as before a refusal's return. *)
Definition write_flush (b : bytes) (s : Conn) : Conn :=
  set_tx s (snd (flush (snd (write_all b (c_tx s))))).

(** *** The opening flight *)

Inductive Opening := HttpOpener (acc : bytes) | Ended (e : Exit).

Fixpoint preface_wait (fuel : nat) (slow_timeout wait_start : Z) (acc : bytes) (s : Conn) : option (Opening * Conn) :=
  if (length acc <? length H2_PREFACE)%nat && starts_with acc H2_PREFACE then
    match fuel with
    | O => None
    | S fuel' =>
        let '(a, s1) := look s in
        if header_expired slow_timeout wait_start (a_now a) then Some (Ended Quiet, s1)
        else match fill acc s1 with
             | (Ok O, _, s2) | (Err _, _, s2) => Some (Ended Quiet, s2)
             | (Ok (S _), acc', s2) => preface_wait fuel' slow_timeout wait_start acc' s2
             end
    end
  else if starts_with H2_PREFACE acc then Some (Ended (ToH2 acc), s)
  else Some (HttpOpener acc, s).

(** The peek at the top of the loop: only an empty buffer is looked at. *)
Definition opening (acc : bytes) (s : Conn) : option (Opening * Conn) :=
  if negb (bool_decide (acc = [])) then Some (HttpOpener acc, s)
  else
    match fill acc s with
    | (Ok O, _, s1) | (Err _, _, s1) => Some (Ended Quiet, s1)
    | (Ok (S _), acc', s1) =>
        let '(a, s2) := look s1 in
        let '(b, s3) := look s2 in
        preface_wait (S (weight (c_rx s3))) (slowloris_timeout a) (a_now b) acc' s3
    end.

(** *** The header phase *)
Context (frame_verdict : bytes -> bytes).

Inductive Header := Framed (total : nat) (acc : bytes) | HeaderEnded (e : Exit).

Fixpoint header_phase (fuel : nat) (slow_timeout hdr_start : Z) (interim_100_sent : bool) (acc : bytes) (s : Conn) :
    option (Header * Conn) :=
  match fuel with
  | O => None
  | S fuel' =>
      let '(a, s1) := look s in
      if (c_seq s =? 0) && header_expired slow_timeout hdr_start (a_now a)
      then Some (HeaderEnded (Refused SLOWLORIS_408), write_flush SLOWLORIS_408 s1)
      else
        let '(b, s2) := look s1 in
        if body_over_limit acc (max_body_size b)
        then Some (HeaderEnded (Refused BODY_413), write_flush BODY_413 s2)
        else
          match next_request frame_verdict acc with
          | Http.Complete n => Some (Framed (Z.to_nat n) acc, s2)
          | Http.Oversize => Some (HeaderEnded Quiet, s2)
          | Http.NeedMore =>
              let ask := negb interim_100_sent && wants_interim_100 acc in
              let s3 := if ask then write_flush INTERIM_100 s2 else s2 in
              match fill acc s3 with
              | (Ok O, _, s4) | (Err _, _, s4) => Some (HeaderEnded Quiet, s4)
              | (Ok (S _), acc', s4) => header_phase fuel' slow_timeout hdr_start (interim_100_sent || ask) acc' s4
              end
          end
  end.

(** *** WebSocket *)
Context (header_verdict : bytes -> bytes) (encode_header : bool -> Z -> Z -> bytes) (encode_close : Z -> bytes)
        (ws_admit : Z -> Z -> Z -> bool -> Z -> Z) (ws_utf8 : Z -> bytes -> Z) (ws_close_body : bytes -> Z)
        (inflate : I -> bytes -> I * option bytes) (deflate_msg : D -> bytes -> D * bytes) (infl0 : I) (defl0 : D).

#[local] Abbreviation ws_feed :=
  (WsEngine.feed header_verdict encode_header encode_close ws_admit ws_utf8 ws_close_body inflate deflate_msg).

(** Reads are discarded until the peer is done or five seconds have passed. *)
Fixpoint close_drain_loop (fuel : nat) (deadline : Z) (s : Conn) : option Conn :=
  let '(a, s1) := look s in
  if a_now a <? deadline then
    match fuel with
    | O => None
    | S fuel' =>
        match Io.read WS_CHUNK (c_rx s1) with
        | (Ok [], r) | (Err _, r) => Some (set_rx s1 r)
        | (Ok (_ :: _), r) => close_drain_loop fuel' deadline (set_rx s1 r)
        end
    end
  else Some s1.

Definition ws_close_drain (s : Conn) : option Conn :=
  let '(a, s1) := look s in
  close_drain_loop (S (weight (c_rx s1))) (a_now a + 5000) s1.

(** One feed: what it produced is written at once. [inl]: the loop goes on. *)
Definition ws_turn (e : Engine) (chunk : bytes) (s : Conn) : option (Engine * Conn + Conn) :=
  '(e', out, flow) ← mjoin (ws_feed e chunk []);
  let '(failed, s1) :=
    if bool_decide (out = []) then (false, s)
    else match write_all out (c_tx s) with
         | (Ok _, c) => (false, set_tx s c)
         | (Err _, c) => (true, set_tx s c)
         end in
  if failed : bool then Some (inr s1)
  else match flow with
       | Shut => s2 ← ws_close_drain s1; Some (inr s2)
       | Continue => Some (inl (e', s1))
       end.

Fixpoint ws_reads (fuel : nat) (e : Engine) (s : Conn) : option Conn :=
  match fuel with
  | O => None
  | S fuel' =>
      match Io.read WS_CHUNK (c_rx s) with
      | (Ok [], r) | (Err _, r) => Some (set_rx s r)
      | (Ok (b :: l), r) =>
          t ← ws_turn e (b :: l) (set_rx s r);
          match t with
          | inl (e', s1) => ws_reads fuel' e' s1
          | inr s1 => Some s1
          end
      end
  end.

Definition ws_frame_loop (pipelined : bytes) (cfg : WsConfig) (s : Conn) : option Conn :=
  let e := with_config cfg infl0 defl0 in
  let go (e : Engine) (s : Conn) := ws_reads (S (weight (c_rx s))) e s in
  if bool_decide (pipelined = []) then go e s
  else
    t ← ws_turn e pipelined s;
    match t with
    | inl (e', s1) => go e' s1
    | inr s1 => Some s1
    end.

Context (upgrade_gate : bytes -> option bytes).

Definition serve_ws_upgrade (req pipelined : bytes) (s : Conn) : option (Exit * Conn) :=
  match upgrade_gate req with
  | None => Some (OwnerGone, s)
  | Some (b :: l) => Some (Refused (b :: l), set_tx s (snd (write_all (b :: l) (c_tx s))))
  | Some [] =>
      match upgrade_response req with
      | None => Some (Quiet, s)
      | Some (resp, cfg) =>
          match write_all resp (c_tx s) with
          | (Err _, c) => Some (WriteFailed, set_tx s c)
          | (Ok _, c) => s1 ← ws_frame_loop pipelined cfg (set_tx s c); Some (Upgrade, s1)
          end
      end
  end.

(** *** The lanes, in order *)

(** The end of a buffered lane: the disposition from the request, the framing
    of the response and the response's own wish. *)
Definition send_buffered (annotate keepalive_req : bool) (req resp : bytes) (s : Conn) : Next * Conn :=
  let keepalive := keepalive_req && response_is_self_delimited resp && negb (response_wants_close resp) in
  let out := if annotate then annotate_connection resp keepalive else resp in
  let s1 := emit (LogWhole req out) s in
  match write_all out (c_tx s1) with
  | (Err _, c) => (Leave WriteFailed, set_tx s1 c)
  | (Ok _, c) => (if keepalive then Again else Leave Answered, set_tx s1 c)
  end.

(** The end of a streaming lane; the file server and the streamed serve count
    the request, the proxy does not. *)
Definition send_streamed (counts : bool) (l : lane W) (keepalive_req : bool) (req : bytes) (s : Conn) : option (Next * Conn) :=
  '(r, c, w) ← l req keepalive_req (c_tx s) (c_world s);
  let s1 := set_world (set_tx s c) w in
  Some match r with
       | None => (Leave OwnerGone, s1)
       | Some (Err _) => (Leave WriteFailed, s1)
       | Some (Ok o) =>
           let s2 := emit (LogStreamed req (lo_head o) (lo_bytes o) (lo_backend o)) s1 in
           if lo_keepalive o then (Again, if counts then next_seq s2 else s2) else (Leave Answered, s2)
       end.

Context (peer_ip : IpAddr)
        (cake_serve native_health : bytes -> option bytes)
        (effect_seam : bool) (should_handle : bytes -> bool) (run_effect_serve : bytes -> W -> option bytes * W)
        (proxy : option (lane W))
        (call_cfg : bytes -> bytes -> option bytes)
        (static_root : option StaticRoot) (static_lane : lane W)
        (stream_lane : option (lane W))
        (braid : bool) (call_metered_braided : bytes -> Meter -> option bytes)
        (gateway_selector : option bytes) (call_gateway : bytes -> bytes -> Meter -> option bytes)
        (call_metered_cfg : bytes -> bytes -> Meter -> option bytes)
        (rust_gzip : bool) (crc : bytes -> Z) (gunzip gzip : bytes -> option bytes).

(** The connection context of the metered seam; it notes the arrival. *)
Definition meter (hdr_start : Z) (req : bytes) (s : Conn) : option (Meter * Conn) :=
  let '(a, s1) := look s in
  n ← active (c_table s1) peer_ip;
  let '(h, s2) := look s1 in
  let '(b, s3) := look s2 in
  '(t, prior) ← req_note_prior (c_table s3) peer_ip (rate_limit b) (rate_window b) (a_now b);
  Some (mkMeter (client_addr req peer_ip)
          (pack_rate_scalar (burst_cap a) (c_seq s) (secs (duration_since (a_now a) (c_start s))))
          (saturating_sub n 1) (secs (duration_since (a_now h) hdr_start)) prior,
        set_table s3 t).

(** The default serve. *)
Definition serve_metered (hdr_start : Z) (keepalive_req : bool) (req : bytes) (s : Conn) : option (Next * Conn) :=
  '(m, s1) ← meter hdr_start req s;
  let '(a, s2) := look (next_seq s1) in
  let resp :=
    if braid then call_metered_braided req m
    else match gateway_selector with
         | Some sel => call_gateway sel req m
         | None => call_metered_cfg (match deployment a with Some d => config_text d | None => raw_text a end) req m
         end in
  Some match resp with
       | None => (Leave OwnerGone, s2)
       | Some r => send_buffered true keepalive_req req (if rust_gzip then recompress crc gunzip gzip r else r) s2
       end.

Definition serve_default (hdr_start : Z) (keepalive_req : bool) (req : bytes) (s : Conn) : option (Next * Conn) :=
  match stream_lane with
  | Some l => send_streamed true l keepalive_req req s
  | None => serve_metered hdr_start keepalive_req req s
  end.

(** The lanes behind the proxy: the configured routes, the file server, the
    streamed serve and the default one. *)
Definition serve_local (hdr_start : Z) (keepalive_req : bool) (req : bytes) (s : Conn) : option (Next * Conn) :=
  let '(a, s1) := look s in
  let routed :=
    match deployment a with
    | Some d => if has_routes d then call_cfg (config_text d) req else None
    | None => None
    end in
  match routed with
  | Some resp => Some (send_buffered true keepalive_req req resp s1)
  | None =>
      match static_root with
      | Some sr =>
          if is_static_path sr req then send_streamed true static_lane keepalive_req req s1
          else serve_default hdr_start keepalive_req req s1
      | None => serve_default hdr_start keepalive_req req s1
      end
  end.

Definition serve_request (hdr_start : Z) (req pipelined : bytes) (s : Conn) : option (Next * Conn) :=
  if is_ws_upgrade req then '(e, s1) ← serve_ws_upgrade req pipelined s; Some (Leave e, s1)
  else
    let keepalive_req := request_wants_keepalive req in
    match cake_serve req with
    | Some cake => Some (Leave Answered, let s1 := emit (LogWhole req cake) s in set_tx s1 (snd (write_all cake (c_tx s1))))
    | None =>
    match native_health req with
    | Some native => Some (send_buffered false keepalive_req req native s)
    | None =>
    if is_connect req then Some (Leave (ToConnect req), s)
    else
    let '(effect, s1) :=
      if effect_seam && should_handle req
      then let '(r, w) := run_effect_serve req (c_world s) in (r, set_world s w)
      else (None, s) in
    match effect with
    | Some resp => Some (send_buffered true keepalive_req req resp s1)
    | None =>
    match proxy with
    | Some l =>
        if negb effect_seam && is_proxy_path req then send_streamed false l keepalive_req req s1
        else
          let '(a, s2) := look s1 in
          if match deployment a with Some d => is_vhost_proxy d req | None => false end
          then send_streamed false l keepalive_req req s2
          else serve_local hdr_start keepalive_req req s2
    | None => serve_local hdr_start keepalive_req req s1
    end
    end
    end
    end.

(** *** The keep-alive loop *)
Fixpoint conn_loop (fuel : nat) (acc : bytes) (s : Conn) : option (Exit * Conn) :=
  match fuel with
  | O => None
  | S fuel' =>
      '(o, s1) ← opening acc s;
      match o with
      | Ended e => Some (e, s1)
      | HttpOpener acc1 =>
          let '(a, s2) := look s1 in
          let '(b, s3) := look s2 in
          '(h, s4) ← header_phase (S (weight (c_rx s3))) (slowloris_timeout a) (a_now b) false acc1 s3;
          match h with
          | HeaderEnded e => Some (e, s4)
          | Framed total acc2 =>
              let req := take total acc2 in
              let acc3 := drop total acc2 in
              if (c_seq s4 =? 0) && opener_lacks_http_version req then Some (Quiet, s4)
              else
                '(n, s5) ← serve_request (a_now b) req acc3 s4;
                match n with
                | Again => conn_loop fuel' acc3 s5
                | Leave e => Some (e, s5)
                end
          end
      end
  end.

Definition handle_conn_prefilled (prefill : bytes) (s : Conn) : option (Exit * Conn) :=
  let '(a, s1) := look s in
  conn_loop (S (length prefill + weight (c_rx s1))) prefill
    (mkConn (c_rx s1) (c_tx s1) (c_tick s1) 0 (a_now a) (c_log s1) (c_table s1) (c_world s1)).

Definition handle_conn (s : Conn) : option (Exit * Conn) := handle_conn_prefilled [] s.

(** ** What the loop keeps *)
Context (inv : W -> Prop).

Definition table_ok (t : SharedStanding) : Prop :=
  length (stripes t) = STRIPES /\ length (req_stripes t) = STRIPES.

Definition good (s : Conn) : Prop := table_ok (c_table s) /\ inv (c_world s).

(** From [s] to [s'] the client was sent [out] and [ents] were recorded. *)
Definition moved (out : bytes) (ents : list Entry) (s s' : Conn) : Prop :=
  wire (c_tx s') = wire (c_tx s) ++ out /\ c_log s' = c_log s ++ ents /\ good s'.

(** ... and nothing was read. *)
Definition sent (out : bytes) (ents : list Entry) (s s' : Conn) : Prop :=
  c_rx s' = c_rx s /\ moved out ents s s'.

Lemma moved_refl s : good s -> moved [] [] s s.
Proof using. intros H. by unfold moved; rewrite !app_nil_r. Qed.

Lemma moved_trans o1 o2 l1 l2 s s1 s2 :
  moved o1 l1 s s1 -> moved o2 l2 s1 s2 -> moved (o1 ++ o2) (l1 ++ l2) s s2.
Proof using. intros (W1 & L1 & _) (W2 & L2 & G). split; [|split]; [by rewrite W2, W1, app_assoc|by rewrite L2, L1, app_assoc|done]. Qed.

Lemma sent_refl s : good s -> sent [] [] s s.
Proof using. intros H. split; [done|by apply moved_refl]. Qed.

Lemma sent_trans o1 o2 l1 l2 s s1 s2 :
  sent o1 l1 s s1 -> sent o2 l2 s1 s2 -> sent (o1 ++ o2) (l1 ++ l2) s s2.
Proof using. intros [R1 M1] [R2 M2]. split; [congruence|by eapply moved_trans]. Qed.

Lemma sent_then o l s s1 s2 : sent [] [] s s1 -> sent o l s1 s2 -> sent o l s s2.
Proof using. apply (sent_trans [] o [] l). Qed.

Lemma sent_good o l s s' : sent o l s s' -> good s'.
Proof using. by intros (_ & _ & _ & G). Qed.

Lemma write_sent b s r c : good s -> write_all b (c_tx s) = (r, c) ->
  exists p, p `prefix_of` b /\ (r = Ok () -> p = b) /\ sent p [] s (set_tx s c).
Proof using.
  intros G E. destruct r as [[]|e].
  - apply write_all_Ok in E as [_ ->]. exists b. split_and!; [done|done|]. split; [done|]. by unfold moved; rewrite app_nil_r.
  - apply write_all_wire in E as (p & Hp & Hw). exists p. split_and!; [done|done|]. split; [done|]. by unfold moved; rewrite app_nil_r.
Qed.

Lemma write_flush_sent b s : good s -> exists p, p `prefix_of` b /\ sent p [] s (write_flush b s).
Proof using.
  intros G. unfold write_flush. destruct (write_all b (c_tx s)) as [r c] eqn:E. cbn [snd].
  destruct (write_sent b s r c G E) as (p & Hp & _ & Hr & Hw & Hl & Hg). exists p. split; [done|].
  destruct (flush c) as [rf c2] eqn:Ef. apply flush_wire in Ef as [Hf _]. split; [done|]. cbn [snd].
  split; [|done]. cbn. by rewrite Hf.
Qed.

Lemma emit_sent e s : good s -> sent [] [e] s (emit e s).
Proof using. intros G. split; [done|]. by unfold moved; rewrite app_nil_r. Qed.

Context (Hothers : forall n t w, table_ok t -> inv w -> table_ok (others n t w).1 /\ inv (others n t w).2).

Lemma look_sent s : good s -> sent [] [] s (look s).2 /\ c_seq (look s).2 = c_seq s.
Proof using Hothers.
  intros [Ht Hw]. unfold look. destruct (Hothers (c_tick s) _ _ Ht Hw) as [Ht' Hw'].
  destruct (others _ _ _) as [t w]. split; [|done]. split; [done|]. by unfold moved; rewrite !app_nil_r.
Qed.

(** The rest of the client's stream, and the reads it can still cost. *)
Definition pending (acc : bytes) (s : Conn) : bytes := acc ++ arrived (c_rx s).
Definition cost (acc : bytes) (s : Conn) : nat := length acc + weight (c_rx s).

Lemma fill_spec acc s r acc' s' : good s -> fill acc s = (r, acc', s') ->
  moved [] [] s s' /\
  match r with
  | Ok (S _) => pending acc' s' = pending acc s /\ (cost acc' s' <= cost acc s)%nat /\ (weight (c_rx s') < weight (c_rx s))%nat
  | _ => True
  end.
Proof using.
  intros G. unfold fill. destruct (read FILL_CHUNK (c_rx s)) as [[got|e] rest] eqn:E; intros [= <- <- <-];
    (split; [by unfold moved; rewrite !app_nil_r|]); [|done].
  pose proof (read_weight _ _ _ _ E) as Hw. apply read_spec in E; [|unfold FILL_CHUNK; lia].
  destruct got as [|b got]; [done|]. cbn [length]. destruct E as (Ha & _ & Hlt & _). unfold pending, cost. cbn [set_rx c_rx].
  rewrite Ha, <- app_assoc, length_app. split; [done|]. cbn [length] in *. lia.
Qed.

Definition opened_ok (acc : bytes) (s : Conn) (o : Opening) (s' : Conn) : Prop :=
  match o with
  | HttpOpener acc' => pending acc' s' = pending acc s /\ (cost acc' s' <= cost acc s)%nat
  | Ended Quiet => True
  | Ended (ToH2 a) => pending a s' = pending acc s
  | Ended _ => False
  end.

Lemma preface_wait_spec fuel : forall slow start acc s, good s -> (weight (c_rx s) < fuel)%nat ->
  exists o s', preface_wait fuel slow start acc s = Some (o, s') /\ moved [] [] s s' /\ opened_ok acc s o s'.
Proof using Hothers.
  induction fuel as [|fuel IH]; intros slow start acc s G Hf; [lia|]. cbn [preface_wait].
  destruct (_ && _); [|case_match; eexists _, _; (split; [done|]); (split; [by apply moved_refl|done])].
  destruct (look_sent s G) as [[Hr Hm] _]. destruct (look s) as [a s1]. cbn [snd] in *.
  destruct (header_expired _ _ _); [by eexists _, _|].
  destruct (fill acc s1) as [[r acc'] s2] eqn:Ef. apply fill_spec in Ef as [Hm2 Hr2]; [|by apply Hm].
  assert (moved [] [] s s2) as Hm' by exact (moved_trans [] [] [] [] _ _ _ Hm Hm2).
  destruct r as [[|n]|e]; [by eexists _, _| |by eexists _, _]. destruct Hr2 as (Hp & Hc & Hw).
  destruct (IH slow start acc' s2) as (o & s' & -> & Hm3 & Ho); [by apply Hm'|rewrite Hr in Hw; lia|].
  eexists _, _. split; [done|]. split; [exact (moved_trans [] [] [] [] _ _ _ Hm' Hm3)|].
  unfold pending, cost in *. rewrite Hr in Hp, Hc. unfold opened_ok, pending, cost in *.
  destruct o as [a'|[]]; try done; [|congruence]. destruct Ho as [Ho1 Ho2]. split; [congruence|lia].
Qed.

Lemma opening_spec acc s : good s ->
  exists o s', opening acc s = Some (o, s') /\ moved [] [] s s' /\ opened_ok acc s o s'.
Proof using Hothers.
  intros G. unfold opening. destruct (bool_decide (acc = [])); cbn [negb].
  2:{ eexists _, _. split; [done|]. split; [by apply moved_refl|done]. }
  destruct (fill acc s) as [[r acc'] s1] eqn:Ef. apply fill_spec in Ef as [Hm Hr]; [|done].
  destruct r as [[|n]|e]; [by eexists _, _| |by eexists _, _]. destruct Hr as (Hp & Hc & Hw).
  destruct (look_sent s1) as [Ha _]; [by apply Hm|]. destruct (look s1) as [a s2]. cbn [snd] in Ha.
  destruct (look_sent s2) as [Hb _]; [by eapply sent_good|]. destruct (look s2) as [b s3]. cbn [snd] in Hb.
  destruct (sent_then _ _ _ _ _ Ha Hb) as [Hr3 Hm3].
  destruct (preface_wait_spec (S (weight (c_rx s3))) (slowloris_timeout a) (a_now b) acc' s3) as (o & s' & -> & Hm' & Ho);
    [by apply Hm3|lia|].
  eexists _, _. split; [done|]. split; [exact (moved_trans [] [] [] [] _ _ _ (moved_trans [] [] [] [] _ _ _ Hm Hm3) Hm')|].
  unfold opened_ok, pending, cost in *. rewrite Hr3 in Ho.
  destruct o as [a'|[]]; try done; [|congruence]. destruct Ho as [Ho1 Ho2]. split; [congruence|lia].
Qed.

(** The framer's boundaries lie past the start. *)
Definition framer_ok : Prop := forall data n, next_request frame_verdict data = Http.Complete n -> 0 < n.
Context (Hframe : framer_ok).

Lemma framed_within data n : next_request frame_verdict data = Http.Complete n ->
  (0 < Z.to_nat n <= length data)%nat /\ n = Z.of_nat (Z.to_nat n).
Proof using Hframe.
  intros H. pose proof (Hframe _ _ H) as Hn. unfold next_request in H.
  destruct (frame_verdict data) as [|tag le]; [done|].
  destruct (tag =? 0); [by case_match|]. destruct (tag =? 1); [done|]. destruct (_ && _); [|done].
  cbn zeta in H. destruct (_ || _) eqn:E; [done|]. injection H as H. apply orb_false_iff in E as [E _].
  apply Z.ltb_ge in E. lia.
Qed.

Definition phase_ok (i acc : bytes) (s : Conn) (h : Header) (s' : Conn) : Prop :=
  match h with
  | Framed total acc' =>
      moved i [] s s' /\ pending acc' s' = pending acc s /\ (cost acc' s' <= cost acc s)%nat /\
      (0 < total <= length acc')%nat /\ next_request frame_verdict acc' = Http.Complete (Z.of_nat total)
  | HeaderEnded Quiet => moved i [] s s'
  | HeaderEnded (Refused r) => r ∈ [SLOWLORIS_408; BODY_413] /\ exists p, p `prefix_of` r /\ moved (i ++ p) [] s s'
  | HeaderEnded _ => False
  end.

Lemma phase_ok_after i j acc acc1 s s1 h s' :
  moved i [] s s1 -> pending acc1 s1 = pending acc s -> (cost acc1 s1 <= cost acc s)%nat ->
  phase_ok j acc1 s1 h s' -> phase_ok (i ++ j) acc s h s'.
Proof using.
  intros Hm Hp Hc. unfold phase_ok. destruct h as [total acc'|[]]; try done.
  - intros (Hm' & Hp' & Hc' & Ht). split_and!; [exact (moved_trans _ _ [] [] _ _ _ Hm Hm')|congruence|lia|apply Ht..].
  - intros Hm'. exact (moved_trans _ _ [] [] _ _ _ Hm Hm').
  - intros (Hr & p & Hp' & Hm'). split; [done|]. exists p. split; [done|]. rewrite <- app_assoc. exact (moved_trans _ _ [] [] _ _ _ Hm Hm').
Qed.

Lemma header_phase_spec fuel : forall slow start asked acc s, good s -> (weight (c_rx s) < fuel)%nat ->
  exists h s' i, header_phase fuel slow start asked acc s = Some (h, s') /\
    i `prefix_of` (if asked then [] else INTERIM_100) /\ phase_ok i acc s h s'.
Proof using Hothers Hframe.
  induction fuel as [|fuel IH]; intros slow start asked acc s G Hf; [lia|]. cbn [header_phase].
  destruct (look_sent s G) as [Ha _]. destruct (look s) as [a s1]. cbn [snd] in Ha.
  destruct (_ && header_expired _ _ _).
  { destruct (write_flush_sent SLOWLORIS_408 s1) as (p & Hp & Hs); [by eapply sent_good|].
    eexists _, _, []. split; [done|]. split; [by apply prefix_nil|]. split; [by left|]. exists p. split; [done|]. apply (sent_then _ _ _ _ _ Ha Hs). }
  destruct (look_sent s1) as [Hb _]; [by eapply sent_good|]. destruct (look s1) as [b s2]. cbn [snd] in Hb.
  pose proof (sent_then _ _ _ _ _ Ha Hb) as H2. clear Ha Hb.
  destruct (body_over_limit _ _).
  { destruct (write_flush_sent BODY_413 s2) as (p & Hp & Hs); [by eapply sent_good|].
    eexists _, _, []. split; [done|]. split; [by apply prefix_nil|]. split; [by right; left|]. exists p. split; [done|]. apply (sent_then _ _ _ _ _ H2 Hs). }
  destruct (next_request _ acc) as [|n|] eqn:En.
  2:{ apply framed_within in En as Hn. destruct Hn as [Hn Hn']. eexists _, _, []. split; [done|]. split; [by apply prefix_nil|].
      destruct H2 as [Hr Hm]. unfold phase_ok, pending, cost. rewrite Hr. split_and!; [done..|lia|lia|by rewrite <- Hn']. }
  2:{ eexists _, _, []. split; [done|]. split; [by apply prefix_nil|]. apply H2. }
  set (ask := negb asked && _). 
  assert (exists i, i `prefix_of` (if ask then INTERIM_100 else []) /\ sent i [] s (if ask then write_flush INTERIM_100 s2 else s2))
    as (i & Hi & Hs).
  { destruct ask; [|exists []; split; [by apply prefix_nil|done]].
    destruct (write_flush_sent INTERIM_100 s2) as (p & Hp & Hs); [by eapply sent_good|]. exists p. split; [done|]. by eapply sent_then. }
  set (s3 := if ask then write_flush _ _ else _) in *. destruct Hs as [Hr Hm].
  assert (i `prefix_of` (if asked then [] else INTERIM_100)) as Hia.
  { unfold ask in Hi. destruct asked; [done|]. destruct (wants_interim_100 acc); [done|]. cbn in Hi. apply prefix_nil_inv in Hi as ->. apply prefix_nil. }
  destruct (fill acc s3) as [[r acc'] s4] eqn:Ef. apply fill_spec in Ef as [Hm4 Hr4]; [|by apply Hm].
  pose proof (moved_trans _ _ [] [] _ _ _ Hm Hm4) as Hm'. rewrite app_nil_r in Hm'.
  destruct r as [[|k]|e]; [by eexists _, _, i| |by eexists _, _, i]. destruct Hr4 as (Hp & Hc & Hw).
  unfold pending, cost in Hp, Hc. rewrite Hr in Hp, Hc, Hw.
  destruct (IH slow start (asked || ask) acc' s4) as (h & s' & j & -> & Hj & Hok); [by apply Hm'|lia|].
  eexists _, _, (i ++ j). split; [done|]. split; [|by eapply phase_ok_after].
  destruct ask eqn:Ea; [rewrite orb_true_r in Hj; apply prefix_nil_inv in Hj as ->; by rewrite app_nil_r|].
  apply prefix_nil_inv in Hi as ->. by rewrite orb_false_r in Hj.
Qed.

(** *** An upgraded connection *)
Context (HC : engine_contract header_verdict encode_header encode_close ws_admit).

Lemma close_drain_spec fuel : forall deadline s, good s -> (weight (c_rx s) < fuel)%nat ->
  exists s', close_drain_loop fuel deadline s = Some s' /\ moved [] [] s s'.
Proof using Hothers.
  induction fuel as [|fuel IH]; intros deadline s G Hf; [lia|]. cbn [close_drain_loop].
  destruct (look_sent s G) as [[Hr Hm] _]. destruct (look s) as [a s1]. cbn [snd] in *.
  destruct (a_now a <? deadline); [|by eexists].
  destruct (read WS_CHUNK (c_rx s1)) as [r rest] eqn:E. apply read_spec in E; [|unfold WS_CHUNK; lia].
  assert (moved [] [] s (set_rx s1 rest)) as Hm' by exact Hm.
  destruct r as [[|b l]|e]; [by eexists| |by eexists]. destruct E as (_ & _ & Hlt & _). rewrite Hr in Hlt.
  destruct (IH deadline (set_rx s1 rest)) as (s' & -> & Hs); [by apply Hm|cbn; lia|].
  eexists. split; [done|]. exact (moved_trans [] [] [] [] _ _ _ Hm' Hs).
Qed.

Lemma ws_close_drain_spec s : good s -> exists s', ws_close_drain s = Some s' /\ moved [] [] s s'.
Proof using Hothers.
  intros G. unfold ws_close_drain. destruct (look_sent s G) as [[Hr Hm] _]. destruct (look s) as [a s1]. cbn [snd] in *.
  destruct (close_drain_spec (S (weight (c_rx s1))) (a_now a + 5000) s1) as (s' & -> & Hs); [by apply Hm|lia|].
  eexists. split; [done|]. exact (moved_trans [] [] [] [] _ _ _ Hm Hs).
Qed.

Lemma ws_turn_spec e chunk s : good s -> engine_ok e ->
  exists r out, ws_turn e chunk s = Some r /\
    match r with
    | inl (e', s') => engine_ok e' /\ sent out [] s s'
    | inr s' => moved out [] s s'
    end.
Proof using Hothers HC.
  intros G He. unfold ws_turn.
  destruct (feed_ok _ _ _ _ ws_utf8 ws_close_body inflate deflate_msg HC e chunk [] He) as (e' & out & flow & -> & _ & Hok).
  cbn [mjoin option_join mbind option_bind].
  assert (exists p, match (if bool_decide (out = []) then (false, s)
      else match write_all out (c_tx s) with (Ok _, c) => (false, set_tx s c) | (Err _, c) => (true, set_tx s c) end)
      with (_, s1) => sent p [] s s1 end) as [p Hp].
  { destruct (bool_decide (out = [])); [exists []; by apply sent_refl|].
    destruct (write_all out (c_tx s)) as [w c] eqn:Ew. destruct (write_sent out s w c G Ew) as (p & _ & _ & Hs).
    exists p. by destruct w. }
  destruct (if bool_decide (out = []) then _ else _) as [failed s1].
  destruct failed; [eexists _, p; split; [done|apply Hp]|].
  destruct flow; [eexists _, p; split; [done|]; split; [by apply Hok|done]|].
  destruct (ws_close_drain_spec s1) as (s2 & -> & Hs2); [by eapply sent_good|].
  eexists _, p. split; [done|]. destruct Hp as [_ Hp]. pose proof (moved_trans _ _ [] [] _ _ _ Hp Hs2) as H. by rewrite app_nil_r in H.
Qed.

Lemma ws_reads_spec fuel : forall e s, good s -> engine_ok e -> (weight (c_rx s) < fuel)%nat ->
  exists s' out, ws_reads fuel e s = Some s' /\ moved out [] s s'.
Proof using Hothers HC.
  induction fuel as [|fuel IH]; intros e s G He Hf; [lia|]. cbn [ws_reads].
  destruct (read WS_CHUNK (c_rx s)) as [r rest] eqn:E. apply read_spec in E; [|unfold WS_CHUNK; lia].
  assert (moved [] [] s (set_rx s rest)) as Hm by exact (moved_refl s G).
  destruct r as [[|b l]|er]; [by eexists _, []| |by eexists _, []]. destruct E as (_ & _ & Hlt & _).
  destruct (ws_turn_spec e (b :: l) (set_rx s rest)) as (r & out & -> & Hr); [by apply Hm|done|]. cbn [mbind option_bind].
  destruct r as [[e' s1]|s1]; [|exists s1, out; split; [done|exact (moved_trans [] _ [] [] _ _ _ Hm Hr)]].
  destruct Hr as [He' [Hrx Hs]]. destruct (IH e' s1) as (s' & out' & -> & Hs'); [by apply Hs|done|rewrite Hrx; cbn; lia|].
  exists s', (out ++ out'). split; [done|]. exact (moved_trans _ _ [] [] _ _ _ (moved_trans [] _ [] [] _ _ _ Hm Hs) Hs').
Qed.

Lemma ws_frame_loop_spec pipelined cfg s : good s ->
  exists s' out, ws_frame_loop pipelined cfg s = Some s' /\ moved out [] s s'.
Proof using Hothers HC.
  intros G. unfold ws_frame_loop. pose proof (with_config_ok cfg infl0 defl0) as He.
  destruct (bool_decide (pipelined = [])); [apply ws_reads_spec; [done|done|lia]|].
  destruct (ws_turn_spec (with_config cfg infl0 defl0) pipelined s G He) as (r & out & -> & Hr). cbn [mbind option_bind].
  destruct r as [[e' s1]|s1]; [|by eexists _, _]. destruct Hr as [He' [_ Hs]].
  destruct (ws_reads_spec (S (weight (c_rx s1))) e' s1) as (s' & out' & -> & Hs'); [by apply Hs|done|lia|].
  exists s', (out ++ out'). split; [done|]. exact (moved_trans _ _ [] [] _ _ _ Hs Hs').
Qed.

(** *** One request *)
Definition entry_req (e : Entry) : bytes :=
  match e with LogWhole req _ => req | LogStreamed req _ _ _ => req end.

(** An exchange after which the connection goes on: the client asked for it,
    and the recorded response is what was sent: a self-delimited one, whole, or
    a streamed one with its head and its length. *)
Definition kept (req out : bytes) (ents : list Entry) : Prop :=
  request_wants_keepalive req = true /\
  ((ents = [LogWhole req out] /\ response_is_self_delimited out = true) \/
   (exists head n b, ents = [LogStreamed req head n b] /\ head `prefix_of` out /\ n = Z.of_nat (length out))).

(** How a request can end the connection. *)
Definition left_ok (e : Exit) (req out : bytes) (ents : list Entry) : Prop :=
  match e with
  | Quiet => out = [] /\ ents = []
  | Refused r => ents = [] /\ out `prefix_of` r /\ upgrade_gate req = Some r
  | Answered => exists en, ents = [en] /\ entry_req en = req /\
      match en with LogWhole _ r => out `prefix_of` r | LogStreamed _ _ _ _ => True end
  | WriteFailed => ents = [] \/ exists en, ents = [en] /\ entry_req en = req
  | ToH2 _ => False
  | ToConnect r => r = req /\ out = [] /\ ents = []
  | Upgrade => ents = [] /\ upgrade_gate req = Some [] /\
      exists resp cfg, upgrade_response req = Some (resp, cfg) /\ resp `prefix_of` out
  | OwnerGone => ents = []
  end.

Definition served (req : bytes) (n : Next) (s s' : Conn) : Prop :=
  exists out ents, moved out ents s s' /\
    match n with
    | Again => c_rx s' = c_rx s /\ kept req out ents
    | Leave e => left_ok e req out ents
    end.

Lemma served_after req n s s1 s' : sent [] [] s s1 -> served req n s1 s' -> served req n s s'.
Proof using.
  intros [Hr Hm] (out & ents & Hm' & Hn). exists out, ents. split; [exact (moved_trans [] _ [] _ _ _ _ Hm Hm')|].
  destruct n; [|done]. destruct Hn as [Hr' Hk]. split; [congruence|done].
Qed.

Lemma serve_ws_upgrade_spec req pipelined s : good s ->
  exists e s', serve_ws_upgrade req pipelined s = Some (e, s') /\ served req (Leave e) s s'.
Proof using Hothers HC.
  intros G. unfold serve_ws_upgrade. destruct (upgrade_gate req) as [[|b l]|] eqn:Eg.
  2:{ destruct (write_all (b :: l) (c_tx s)) as [r c] eqn:Ew. destruct (write_sent _ s r c G Ew) as (p & Hp & _ & _ & Hm).
      eexists _, _. split; [done|]. exists p, []. by split. }
  2:{ eexists _, _. split; [done|]. exists [], []. split; [by apply moved_refl|done]. }
  destruct (upgrade_response req) as [[resp cfg]|] eqn:Er.
  2:{ eexists _, _. split; [done|]. exists [], []. split; [by apply moved_refl|done]. }
  destruct (write_all resp (c_tx s)) as [r c] eqn:Ew. destruct (write_sent _ s r c G Ew) as (p & Hp & Hok & _ & Hm).
  destruct r as [[]|e]; [|eexists _, _; split; [done|]; exists p, []; split; [done|by left]].
  rewrite (Hok eq_refl) in Hm.
  destruct (ws_frame_loop_spec pipelined cfg (set_tx s c)) as (s' & out & -> & Hm'); [by apply Hm|].
  eexists _, _. split; [done|]. exists (resp ++ out), []. split; [exact (moved_trans _ _ [] [] _ _ _ Hm Hm')|].
  split_and!; [done|done|]. eexists _, _. split; [done|]. by apply prefix_app_r.
Qed.

Lemma send_buffered_spec annotate req resp s : good s ->
  served req (send_buffered annotate (request_wants_keepalive req) req resp s).1 s
    (send_buffered annotate (request_wants_keepalive req) req resp s).2.
Proof using.
  intros G. unfold send_buffered. set (ka := _ && _). set (out := if annotate then _ else _). cbn zeta.
  destruct (write_all out (c_tx (emit _ s))) as [r c] eqn:Ew.
  pose proof (emit_sent (LogWhole req out) s G) as He.
  destruct (write_sent out (emit (LogWhole req out) s) r c (sent_good _ _ _ _ He) Ew) as (p & Hp & Hok & Hs).
  pose proof (sent_trans _ _ _ _ _ _ _ He Hs) as [Hr Hm]. cbn [app] in Hm.
  destruct r as [[]|e]; [|by exists p, [LogWhole req out]; split; [done|]; right; eexists].
  rewrite (Hok eq_refl) in Hm. exists out, [LogWhole req out]. destruct ka eqn:Eka; (split; [exact Hm|]).
  - split; [exact Hr|]. unfold ka in Eka. apply andb_true_iff in Eka as [[Hka Hd]%andb_true_iff _]. split; [done|]. left. split; [done|].
    unfold out. destruct annotate; [by rewrite annotate_self_delimited|done].
  - by eexists.
Qed.

Lemma send_streamed_spec counts l req s : StreamLane inv l -> good s ->
  exists n s', send_streamed counts l (request_wants_keepalive req) req s = Some (n, s') /\ served req n s s'.
Proof using.
  intros Hl [Gt Gw]. unfold send_streamed.
  destruct (Hl req (request_wants_keepalive req) (c_tx s) (c_world s) Gw) as (r & c & w & -> & Hw & [out Hout] & Hs).
  cbn [mbind option_bind]. set (s1 := set_world (set_tx s c) w).
  assert (moved out [] s s1) as Hm by (unfold moved; rewrite app_nil_r; split_and!; [exact Hout|done|by split]).
  destruct r as [[o|e]|]; [|eexists _, s1; (split; [done|]); exists out, []; split; [done|by left]|by eexists _, s1; split; [done|]; exists out, []].
  pose proof (emit_sent (LogStreamed req (lo_head o) (lo_bytes o) (lo_backend o)) s1 (proj2 (proj2 Hm))) as [_ He].
  pose proof (moved_trans _ _ _ _ _ _ _ Hm He) as Hm2. rewrite app_nil_r in Hm2. cbn [app] in Hm2.
  destruct (lo_keepalive o) eqn:Ek; [|eexists _, _; split; [done|]; eexists out, _; split; [exact Hm2|]; by eexists].
  destruct (Hs Ek) as (Hka & resp & Hr & Hh & Hn). rewrite Hout in Hr. apply app_inv_head in Hr as ->.
  eexists _, _. split; [done|]. eexists resp, _. split; [by destruct counts; exact Hm2|].
  split; [by destruct counts|]. split; [done|]. right. eauto 10.
Qed.

Context (Hproxy : forall l, proxy = Some l -> StreamLane inv l) (Hstatic : StreamLane inv static_lane)
        (Hstream : forall l, stream_lane = Some l -> StreamLane inv l)
        (Heffect : forall req w, inv w -> inv (run_effect_serve req w).2).

Lemma note_prior_total t ip limit window now : table_ok t ->
  exists t' n, req_note_prior t ip limit window now = Some (t', n) /\ table_ok t'.
Proof using.
  intros [H1 H2]. unfold req_note_prior. destruct (limit =? 0); [by eexists _, _|].
  unfold req_stripe. destruct (lookup_lt_is_Some_2 (req_stripes t) (stripe_idx t ip)) as [g ->].
  { rewrite H2. apply stripe_idx_lt. }
  cbn [mbind option_bind]. destruct (note_window g ip window now) as [g' n]. eexists _, _. split; [done|].
  split; [done|]. cbn [set_req req_stripes]. by rewrite length_insert.
Qed.

Lemma meter_spec hdr req s : good s -> exists m s', meter hdr req s = Some (m, s') /\ sent [] [] s s'.
Proof using Hothers.
  intros G. unfold meter. destruct (look_sent s G) as [Ha _]. destruct (look s) as [a s1]. cbn [snd] in Ha.
  pose proof (sent_good _ _ _ _ Ha) as G1. unfold active, stripe.
  destruct (lookup_lt_is_Some_2 (stripes (c_table s1)) (stripe_idx (c_table s1) peer_ip)) as [g ->].
  { rewrite (proj1 (proj1 G1)). apply stripe_idx_lt. }
  cbn [mbind option_bind]. destruct (look_sent s1 G1) as [Hb _]. destruct (look s1) as [h s2]. cbn [snd] in Hb.
  pose proof (sent_good _ _ _ _ Hb) as G2. destruct (look_sent s2 G2) as [Hc _]. destruct (look s2) as [b s3]. cbn [snd] in Hc.
  pose proof (sent_good _ _ _ _ Hc) as [G3 G3'].
  destruct (note_prior_total (c_table s3) peer_ip (rate_limit b) (rate_window b) (a_now b) G3) as (t & n & -> & Ht).
  cbn [mbind option_bind]. eexists _, _. split; [done|].
  destruct (sent_then _ _ _ _ _ Ha (sent_then _ _ _ _ _ Hb Hc)) as (Hr & Hw & Hl & _). split_and!; [done..|by split].
Qed.

Lemma serve_metered_spec hdr req s : good s ->
  exists n s', serve_metered hdr (request_wants_keepalive req) req s = Some (n, s') /\ served req n s s'.
Proof using Hothers.
  intros G. unfold serve_metered. destruct (meter_spec hdr req s G) as (m & s1 & -> & H1). cbn [mbind option_bind].
  assert (sent [] [] s (next_seq s1)) as H1' by exact H1.
  destruct (look_sent (next_seq s1) (sent_good _ _ _ _ H1')) as [H2 _]. destruct (look (next_seq s1)) as [a s2]. cbn [snd] in H2.
  pose proof (sent_then _ _ _ _ _ H1' H2) as H. destruct (if braid then _ else _) as [r|].
  - pose proof (send_buffered_spec true req (if rust_gzip then recompress crc gunzip gzip r else r) s2 (sent_good _ _ _ _ H)) as Hs.
    destruct (send_buffered _ _ _ _ _) as [n s']. exists n, s'. split; [done|]. by eapply served_after.
  - eexists _, _. split; [done|]. exists [], []. split; [apply H|done].
Qed.

Lemma serve_local_spec hdr req s : good s ->
  exists n s', serve_local hdr (request_wants_keepalive req) req s = Some (n, s') /\ served req n s s'.
Proof using Hothers Hstatic Hstream.
  intros G. unfold serve_local. destruct (look_sent s G) as [Ha _]. destruct (look s) as [a s1]. cbn [snd] in Ha.
  pose proof (sent_good _ _ _ _ Ha) as G1.
  assert (exists n s', serve_default hdr (request_wants_keepalive req) req s1 = Some (n, s') /\ served req n s1 s') as Hd.
  { unfold serve_default. destruct stream_lane as [l|] eqn:El; [by apply send_streamed_spec; [apply Hstream|]|by apply serve_metered_spec]. }
  assert (exists n s', match static_root with
      | Some sr => if is_static_path sr req then send_streamed true static_lane (request_wants_keepalive req) req s1
                   else serve_default hdr (request_wants_keepalive req) req s1
      | None => serve_default hdr (request_wants_keepalive req) req s1 end = Some (n, s') /\ served req n s1 s') as (n & s' & E & Hs).
  { destruct static_root as [sr|]; [|done]. destruct (is_static_path sr req); [by apply send_streamed_spec|done]. }
  destruct (match deployment a with Some _ => _ | None => None end) as [resp|].
  - pose proof (send_buffered_spec true req resp s1 G1) as Hb. destruct (send_buffered _ _ _ _ _) as [n' s''].
    eexists _, _. split; [done|]. by eapply served_after.
  - eexists _, _. split; [exact E|]. by eapply served_after.
Qed.

Lemma serve_request_spec hdr req pipelined s : good s ->
  exists n s', serve_request hdr req pipelined s = Some (n, s') /\ served req n s s'.
Proof using Hothers HC Hproxy Hstatic Hstream Heffect.
  intros G. unfold serve_request. destruct (is_ws_upgrade req).
  { destruct (serve_ws_upgrade_spec req pipelined s G) as (e & s' & -> & Hs). cbn [mbind option_bind]. eauto. }
  cbn zeta. destruct (cake_serve req) as [cake|].
  { pose proof (emit_sent (LogWhole req cake) s G) as He.
    destruct (write_all cake (c_tx (emit _ s))) as [r c] eqn:Ew.
    destruct (write_sent cake (emit (LogWhole req cake) s) r c (sent_good _ _ _ _ He) Ew) as (p & Hp & _ & Hs).
    pose proof (sent_trans _ _ _ _ _ _ _ He Hs) as [_ Hm].
    eexists _, _. split; [done|]. exists p, [LogWhole req cake]. split; [exact Hm|]. by eexists. }
  destruct (native_health req) as [native|].
  { pose proof (send_buffered_spec false req native s G) as Hb. destruct (send_buffered _ _ _ _ _) as [n s']. eauto. }
  destruct (is_connect req).
  { eexists _, _. split; [done|]. exists [], []. split; [by apply moved_refl|done]. }
  assert (exists r s1, (if effect_seam && should_handle req
      then let '(r, w) := run_effect_serve req (c_world s) in (r, set_world s w) else (None, s)) = (r, s1) /\ sent [] [] s s1)
    as (r & s1 & -> & H1).
  { destruct (_ && _); [|eexists _, _; split; [done|by apply sent_refl]].
    pose proof (Heffect req (c_world s) (proj2 G)) as Hw. destruct (run_effect_serve req (c_world s)) as [r w].
    eexists _, _. split; [done|]. split; [done|]. unfold moved. rewrite !app_nil_r. split_and!; [done..|]. by split; [apply G|]. }
  pose proof (sent_good _ _ _ _ H1) as G1. destruct r as [resp|].
  { pose proof (send_buffered_spec true req resp s1 G1) as Hb. destruct (send_buffered _ _ _ _ _) as [n s'].
    eexists _, _. split; [done|]. by eapply served_after. }
  assert (forall s2, sent [] [] s s2 -> forall r, (exists n s', r = Some (n, s') /\ served req n s2 s') ->
    exists n s', r = Some (n, s') /\ served req n s s') as Hgo.
  { intros s2 H2 r' (n & s' & -> & Hs). eexists _, _. split; [done|]. by eapply served_after. }
  destruct proxy as [l|]; [|by apply (Hgo s1 H1), serve_local_spec].
  destruct (_ && is_proxy_path req); [by apply (Hgo s1 H1), send_streamed_spec; [apply Hproxy|]|].
  destruct (look_sent s1 G1) as [Ha _]. destruct (look s1) as [a s2]. cbn [snd] in Ha.
  pose proof (sent_then _ _ _ _ _ H1 Ha) as H2. pose proof (sent_good _ _ _ _ H2) as G2.
  destruct (match deployment a with Some _ => _ | None => _ end); apply (Hgo s2 H2);
    [by apply send_streamed_spec; [apply Hproxy|]|by apply serve_local_spec].
Qed.

(** *** The whole connection *)

(** The framer delimits [req] at the start of the stream. *)
Definition framed (req : bytes) : Prop :=
  exists more, next_request frame_verdict (req ++ more) = Http.Complete (Z.of_nat (length req)).

Record exchange := mkExchange { x_req : bytes; x_interim : bytes; x_resp : bytes; x_ents : list Entry }.

Definition x_sent (x : exchange) : bytes := x_interim x ++ x_resp x.

Definition exchange_ok (x : exchange) : Prop :=
  framed (x_req x) /\ x_interim x `prefix_of` INTERIM_100 /\ kept (x_req x) (x_resp x) (x_ents x).

(** The end of a connection whose unanswered input is [rest]: [tail] was sent
    last and [ents] recorded. Either the engine of HTTP/2 was handed everything
    unread, or no further request was framed, or one was and ended it. *)
Definition ended (e : Exit) (rest tail : bytes) (ents : list Entry) (s' : Conn) : Prop :=
  (exists a, e = ToH2 a /\ tail = [] /\ ents = [] /\ rest = pending a s') \/
  exists interim out, tail = interim ++ out /\ interim `prefix_of` INTERIM_100 /\
    ((ents = [] /\ (e = Quiet /\ out = [] \/ exists r, e = Refused r /\ r ∈ [SLOWLORIS_408; BODY_413] /\ out `prefix_of` r)) \/
     (exists req more, rest = req ++ more /\ framed req /\ left_ok e req out ents)).

Definition conversation (acc : bytes) (s : Conn) (e : Exit) (s' : Conn) : Prop :=
  exists xs rest tail ents,
    pending acc s = concat (x_req <$> xs) ++ rest /\ Forall exchange_ok xs /\
    moved (concat (x_sent <$> xs) ++ tail) (concat (x_ents <$> xs) ++ ents) s s' /\ ended e rest tail ents s'.

Lemma conversation_end acc s e s' tail ents :
  moved tail ents s s' -> ended e (pending acc s) tail ents s' -> conversation acc s e s'.
Proof using. intros Hm He. exists [], (pending acc s), tail, ents. by split_and!. Qed.

Lemma conversation_cons x acc acc' s s1 e s' :
  exchange_ok x -> pending acc s = x_req x ++ pending acc' s1 -> moved (x_sent x) (x_ents x) s s1 ->
  conversation acc' s1 e s' -> conversation acc s e s'.
Proof using.
  intros Hx Hp Hm (xs & rest & tail & ents & Hp' & Hxs & Hm' & He). exists (x :: xs), rest, tail, ents.
  cbn [fmap list_fmap concat]. rewrite <- !app_assoc. split_and!; [by rewrite Hp, Hp'|by constructor| |done].
  exact (moved_trans _ _ _ _ _ _ _ Hm Hm').
Qed.

Lemma conn_loop_spec fuel : forall acc s, good s -> (cost acc s < fuel)%nat ->
  exists e s', conn_loop fuel acc s = Some (e, s') /\ conversation acc s e s'.
Proof using Hothers Hframe HC Hproxy Hstatic Hstream Heffect.
  induction fuel as [|fuel IH]; intros acc s G Hf; [lia|]. cbn [conn_loop].
  destruct (opening_spec acc s G) as (o & s1 & -> & Hm1 & Ho). cbn [mbind option_bind].
  destruct o as [acc1|e]; cbn [opened_ok] in Ho.
  2:{ eexists _, _. split; [done|]. apply (conversation_end _ _ _ _ [] []); [done|].
      destruct e; try done; [right; exists [], []; split_and!; [done|apply prefix_nil|by left; split; [|left]]|].
      left. eexists. by split_and!. }
  destruct Ho as [Hp1 Hc1]. destruct (look_sent s1) as [Ha _]; [by apply Hm1|]. destruct (look s1) as [a s2]. cbn [snd] in Ha.
  destruct (look_sent s2) as [Hb _]; [by eapply sent_good|]. destruct (look s2) as [b s3]. cbn [snd] in Hb.
  destruct (sent_then _ _ _ _ _ Ha Hb) as [Hr3 Hm3]. pose proof (moved_trans [] [] [] [] _ _ _ Hm1 Hm3) as H3. clear Ha Hb.
  destruct (header_phase_spec (S (weight (c_rx s3))) (slowloris_timeout a) (a_now b) false acc1 s3) as (h & s4 & i & -> & Hi & Hok);
    [by apply H3|lia|]. cbn [mbind option_bind].
  apply (phase_ok_after [] i acc acc1 s) in Hok; [|done|unfold pending in *; congruence|unfold cost in *; rewrite Hr3; lia]. cbn [app] in Hok.
  destruct h as [total acc2|e]; cbn [phase_ok] in Hok.
  2:{ eexists _, _. split; [done|]. destruct e; try done.
      - apply (conversation_end _ _ _ _ i []); [done|]. right. exists i, []. split_and!; [by rewrite app_nil_r|done|by left; split; [|left]].
      - destruct Hok as (Hr & p & Hp & Hm). apply (conversation_end _ _ _ _ (i ++ p) []); [done|]. right. exists i, p.
        split_and!; [done|done|]. left. split; [done|]. right. eauto. }
  destruct Hok as (Hm4 & Hp4 & Hc4 & Ht & Hn). set (req := take total acc2).
  assert (acc2 = req ++ drop total acc2) as Hcut by (by unfold req; rewrite take_drop).
  assert (length req = total) as Hlen by (unfold req; rewrite length_take; lia).
  assert (framed req) as Hfr by (exists (drop total acc2); by rewrite <- Hcut, Hlen).
  assert (pending acc s = req ++ drop total acc2 ++ arrived (c_rx s4)) as Hpend
    by (rewrite <- Hp4; unfold pending; by rewrite Hcut at 1; rewrite <- app_assoc).
  destruct (_ && opener_lacks_http_version req).
  { eexists _, _. split; [done|]. apply (conversation_end _ _ _ _ i []); [done|]. right. exists i, [].
    split_and!; [by rewrite app_nil_r|done|by left; split; [|left]]. }
  destruct (serve_request_spec (a_now b) req (drop total acc2) s4) as (n & s5 & -> & out & ents & Hm5 & Hnx); [by apply Hm4|].
  cbn [mbind option_bind]. pose proof (moved_trans _ _ [] _ _ _ _ Hm4 Hm5) as Hm. cbn [app] in Hm.
  destruct n as [|e].
  - destruct Hnx as [Hr5 Hk]. destruct (IH (drop total acc2) s5) as (e & s' & -> & Hconv); [by apply Hm5| |].
    { unfold cost in *. rewrite Hr5, length_drop. lia. }
    eexists _, _. split; [done|]. apply (conversation_cons (mkExchange req i out ents) acc (drop total acc2) s s5); [by split_and!| |done|done].
    unfold pending at 2. by rewrite Hr5.
  - eexists _, _. split; [done|]. apply (conversation_end _ _ _ _ (i ++ out) ents); [done|]. right. exists i, out.
    split_and!; [done|done|]. right. exists req. eauto.
Qed.

(** Against any lanes that meet the interface. *)
Lemma conn_answers_in_order (prefill : bytes) (s : Conn) (G : good s) :
  exists e s', handle_conn_prefilled prefill s = Some (e, s') /\ conversation prefill s e s'.
Proof using Hothers Hframe HC Hproxy Hstatic Hstream Heffect.
  unfold handle_conn_prefilled. destruct (look_sent s G) as [[Hr Hm] _]. destruct (look s) as [a s1]. cbn [snd] in *.
  set (s2 := mkConn _ _ _ _ _ _ _ _). assert (moved [] [] s s2) as Hm2 by exact Hm.
  destruct (conn_loop_spec (S (length prefill + weight (c_rx s1))) prefill s2) as (e & s' & -> & Hc); [by apply Hm|unfold cost; cbn; lia|].
  eexists _, _. split; [done|]. destruct Hc as (xs & rest & tail & ents & Hp & Hxs & Hm' & He).
  exists xs, rest, tail, ents. split_and!; [by rewrite <- Hp; unfold pending; cbn; rewrite Hr|done|exact (moved_trans [] _ [] _ _ _ _ Hm2 Hm')|done].
Qed.
End conn.

(** ** A concrete host *)
Module Demo.

(** A framer for requests without bodies: a request ends with its head. *)
Definition framer (data : bytes) : bytes :=
  match head_end data with
  | Some p => let le := to_le_bytes 8 (Z.of_nat p) in if 0 <? or_le 0 le then 2 :: le else [1]
  | None => [0]
  end.

Lemma framer_progress : framer_ok framer.
Proof.
  intros data n. unfold next_request, framer. destruct (head_end data) as [p|]; [|cbn zeta; cbn [Z.eqb]; by destruct (REQUEST_CAP <? _)].
  cbn zeta. destruct (0 <? or_le 0 _) eqn:E; [|done]. cbn [Z.eqb]. destruct (_ && _); [|done].
  destruct (_ || _); [done|]. intros [= <-]. by apply Z.ltb_lt.
Qed.

Definition closed_lane : lane unit := fun _ _ c w => Some (Some (Err OtherErr), c, w).

Lemma closed_lane_ok : StreamLane (fun _ => True) closed_lane.
Proof. intros req ka c w _. eexists _, _, _. split_and!; [done|done|done|done]. Qed.

Definition ambient (t : nat) : Ambient := mkAmbient (Z.of_nat t) 0 0 8 0 0 None [].

Definition hello (_ req : bytes) (_ : Meter) : option bytes :=
  Some (bs "HTTP/1.1 200 OK" ++ CRLF ++ bs "Content-Length: 2" ++ CRLFCRLF ++ take 2 (drop 5 req)).

(** The host with its linked verdicts filled in: only the default lane serves. *)
Definition host (proxied : option (lane unit)) (prefill : bytes) (s : Conn unit) : option (Exit * Conn unit) :=
  handle_conn_prefilled ambient (fun _ t w => (t, w)) framer
    WsEngine.Reference.verdict WsEngine.Reference.frame_header WsEngine.Reference.close_frame WsEngine.Reference.admit_rule
    WsEngine.Reference.utf8_run WsEngine.Reference.close_body WsEngine.Reference.stored_inflate WsEngine.Reference.stored_deflate tt tt
    (fun _ => Some []) (V4 0x7f000001) (fun _ => None) (fun _ => None) false (fun _ => false) (fun _ w => (None, w))
    proxied (fun _ _ => None) None closed_lane None false (fun _ _ => None) None (fun _ _ _ => None) hello
    false (fun _ => 0) (fun _ => None) (fun _ => None) prefill s.

Definition page (path fields : string) : bytes :=
  bs "GET /" ++ bs path ++ bs " HTTP/1.1" ++ CRLF ++ bs "Host: h" ++ CRLF ++ bs fields ++ CRLF.

Definition start (rx : list read_ev) : Conn unit :=
  mkConn rx (Sink [] 4096 []) 0 0 0 [] (SharedStanding_new 7) tt.

(** Two requests in one read and a third cut in two, the last asking to close. *)
Definition three_requests : list read_ev :=
  [Data (page "aa" "" ++ page "bb" "" ++ bs "GET /cc HT");
   Data (bs "TP/1.1" ++ CRLF ++ bs "Connection: close" ++ CRLFCRLF); Data (page "dd" "")].
End Demo.

Example three_requests_served :
  match Demo.host None [] (Demo.start Demo.three_requests) with
  | Some (Answered, s') => bytes_eqb (arrived (c_rx s')) (Demo.page "dd" "") && (length (c_log s') =? 3)%nat && ends_with (bs "cc") (wire (c_tx s'))
  | _ => false
  end = true.
Proof. vm_compute. reflexivity. Qed.
