(* ===== verification/Lanes.v ===== *)
(** * The streaming lanes of the connection loop

    The reverse-proxy entry ([proxy_hook.rs]), the streamed serve
    ([stream_serve.rs]) and the file server ([static_serve.rs]) as lanes, each
    with the proof that it meets [StreamLane], the interface the connection loop
    is verified against. The streamed serve asks the linked core for one chunk
    at a time; [bound] is the number of chunks within which the core ends every
    response. *)
From S2P Require Import Prelude Bytes Lines Io Standing Http Pool Ws WsEngine Static ProxyHead ProxyPump Fleet ProxyHop Blocking.

Local Open Scope Z_scope.

(** What the lanes keep between requests. *)
Record World := mkWorld { w_fs : filesystem; w_fleet : Fleet; w_net : net }.

(** ** The reverse proxy *)
Definition lb_policy_byte (env : string -> option bytes) : Z :=
  match env "DRORB_LB_POLICY"%string with
  | None => 3
  | Some v =>
      if bool_decide (v ∈ [bs "roundRobin"; bs "round_robin"; bs "rr"; bs "wrr"; bs "0"]) then 0
      else if bool_decide (v ∈ [bs "leastConn"; bs "least_conn"; bs "leastconn"; bs "1"]) then 1
      else if bool_decide (v ∈ [bs "wLeastConn"; bs "weighted_least_conn"; bs "wleastconn"; bs "2"]) then 2
      else 3
  end.

Section hook.
Context (lb_pick : bytes -> option bytes) (env : string -> option bytes).

Definition lb_frame (pol rnd msk : Z) (conns key : bytes) : bytes :=
  [pol; rnd; msk; wrap 8 (Z.of_nat (length conns))] ++ conns ++ key.

Definition pick_lb_via_seam (pol rnd msk : Z) (conns key : bytes) : option Backend :=
  out ← lb_pick (lb_frame pol rnd msk conns key);
  if bool_decide (out = []) then None
  else if utf8_valid out then parse_uint 32 (str_trim out) else None.

Context (forward_request : bytes -> bytes -> bytes) (resp_gated : bytes -> bytes) (checks : bool)
        (resolve_target : bytes -> option SockAddr) (client_ip : bytes).

(** With a fleet; without one the lane is absent. *)
Definition handle_proxy_streaming (req : bytes) (ka : bool) (f : Fleet) (c : sink) (n : net) :
    option (result StreamOutcome io_error * Fleet * net * sink) :=
  let '(rnd, f1) := next_round f in
  let conns := conns_bytes f1 in
  handle_streaming_via forward_request resp_gated checks resolve_target
    (fun msk key => pick_lb_via_seam (lb_policy_byte env) rnd msk conns key) true req ka client_ip f1 c n.

(** Whether a reactor hands the connection over. *)
Definition takes_over_connection (fleet : option Fleet) (effect_seam : bool) (dep : option Deployment) (req : bytes) : bool :=
  match fleet with
  | None => false
  | Some _ =>
      if negb effect_seam && is_proxy_path req then true
      else match dep with Some d => is_vhost_proxy d req | None => false end
  end.

Definition proxy_lane : lane World := fun req ka c w =>
  '(r, f, n, c') ← handle_proxy_streaming req ka (w_fleet w) c (w_net w);
  Some (Some match r with
             | Ok o => Ok (mkLaneOut (so_head o) (so_bytes o) (so_keepalive o) (so_backend o))
             | Err e => Err e
             end, c', mkWorld (w_fs w) f n).
End hook.

(** The host that takes the proxied requests off the shards: the requests a
    reactor hands over are those the loop's proxy lane takes. *)
Lemma takes_over_iff fleet effect_seam dep req :
  takes_over_connection fleet effect_seam dep req = true <->
  is_Some fleet /\ ((effect_seam = false /\ is_proxy_path req = true) \/
                    exists d, dep = Some d /\ is_vhost_proxy d req = true).
Proof.
  unfold takes_over_connection. destruct fleet as [f|]; [|by split; [|intros [[? ?] _]]].
  destruct effect_seam, (is_proxy_path req) eqn:Ep, dep as [d|]; cbn; naive_solver.
Qed.

(** ** The streamed serve *)
Section streamed.
Context (serve_stream : bytes -> option bytes) (chunk_size : Z).

Definition FLAG_MORE : Z := 1.
Definition FLAG_KEEPALIVE : Z := 2.

Definition stream_frame (idx : Z) (req : bytes) : bytes :=
  to_be_bytes 4 idx ++ to_be_bytes 4 chunk_size ++ req.

Fixpoint stream_loop (fuel : nat) (req : bytes) (idx count : Z) (head : bytes) (ka_core : bool) (c : sink) :
    option (option (result (bytes * Z * bool) io_error) * sink) :=
  match fuel with
  | O => None
  | S fuel' =>
      match serve_stream (stream_frame idx req) with
      | None => Some (None, c)
      | Some [] => Some (Some (Ok (head, count, ka_core)), c)
      | Some (flags :: chunk) =>
          let head' := if idx =? 0 then head ++ chunk else head in
          let ka' := if idx =? 0 then negb (Z.land flags FLAG_KEEPALIVE =? 0) else ka_core in
          match write_all chunk c with
          | (Err e, c1) => Some (Some (Err e), c1)
          | (Ok _, c1) =>
              let count' := count + Z.of_nat (length chunk) in
              if Z.land flags FLAG_MORE =? 0 then Some (Some (Ok (head', count', ka')), c1)
              else stream_loop fuel' req (wrapping_add 32 idx 1) count' head' ka' c1
          end
      end
  end.

Definition serve_streamed (bound : nat) (req : bytes) (ka : bool) (c : sink) :
    option (option (result LaneOut io_error) * sink) :=
  '(r, c1) ← stream_loop bound req 0 0 [] false c;
  Some match r with
       | None => (None, c1)
       | Some (Err e) => (Some (Err e), c1)
       | Some (Ok (head, count, ka_core)) =>
           match flush c1 with
           | (Err e, c2) => (Some (Err e), c2)
           | (Ok _, c2) => (Some (Ok (mkLaneOut head count (ka && ka_core) None)), c2)
           end
       end.

Definition streamed_lane (bound : nat) : lane World := fun req ka c w =>
  '(r, c') ← serve_streamed bound req ka c; Some (r, c', w).

(** The core ends every response within [bound] chunks. *)
Definition ends_within (bound : nat) : Prop :=
  forall req, exists i, (i < bound)%nat /\ Z.of_nat i < 2 ^ 32 /\
    match serve_stream (stream_frame (Z.of_nat i) req) with
    | Some (flags :: _) => Z.land flags FLAG_MORE = 0
    | _ => True
    end.

(** The bytes sent are counted, and the head is the first chunk. *)
Definition stream_post (idx : nat) (head : bytes) (count : Z) (c : sink) (r : option (result (bytes * Z * bool) io_error)) (c' : sink) : Prop :=
  exists x, wire c' = wire c ++ x /\
    match r with
    | Some (Ok (head', count', _)) =>
        count' = count + Z.of_nat (length x) /\ if (idx =? 0)%nat then head' `prefix_of` x else head' = head
    | _ => True
    end.

Lemma stream_loop_spec last : forall fuel req idx count head ka c,
  Z.of_nat (idx + last) < 2 ^ 32 -> (last < fuel)%nat -> (idx = 0%nat -> head = []) ->
  match serve_stream (stream_frame (Z.of_nat (idx + last)) req) with
  | Some (flags :: _) => Z.land flags FLAG_MORE = 0
  | _ => True
  end ->
  exists r c', stream_loop fuel req (Z.of_nat idx) count head ka c = Some (r, c') /\ stream_post idx head count c r c'.
Proof using.
  induction last as [|last IH]; intros [|fuel] req idx count head ka c Hi Hf Hh Hend; try lia; cbn [stream_loop].
  all: destruct (serve_stream (stream_frame (Z.of_nat idx) req)) as [[|flags chunk]|] eqn:Es;
    [eexists _, _; split; [done|]; exists []; rewrite app_nil_r; split; [done|]; split; [cbn; lia|];
       destruct idx; [by rewrite Hh by done; apply prefix_nil|done]| |
     by eexists _, _; split; [done|]; exists []; rewrite app_nil_r].
  all: destruct (write_all chunk c) as [[u|e] c1] eqn:Ew;
    [|by apply write_all_wire in Ew as (p & _ & Hw); eexists _, _; split; [done|]; exists p].
  all: apply write_all_Ok in Ew as [_ Hc1]; assert (wire c1 = wire c ++ chunk) as Hw1 by (by rewrite Hc1).
  all: destruct (Z.land flags FLAG_MORE =? 0) eqn:Em;
    [eexists _, _; split; [done|]; exists chunk; split; [done|]; split; [done|];
     destruct idx; [cbn; by rewrite (Hh eq_refl)|done]|].
  - rewrite Nat.add_0_r, Es in Hend. by rewrite Hend in Em.
  - replace (wrapping_add 32 (Z.of_nat idx) 1) with (Z.of_nat (S idx))
      by (unfold wrapping_add, wrap; rewrite Z.mod_small; lia).
    replace (idx + S last)%nat with (S idx + last)%nat in Hi, Hend by lia.
    edestruct (IH fuel req (S idx)) as (r & c' & -> & x & Hx & Hr); [done|lia|done|done|].
    eexists _, _. split; [done|]. exists (chunk ++ x). split; [by rewrite Hx, Hw1, app_assoc|].
    destruct r as [[[[h n] k]|e]|]; try done. destruct Hr as [-> ->]. split; [rewrite length_app; lia|].
    destruct idx; [cbn; rewrite (Hh eq_refl); by apply prefix_app_r|done].
Qed.

#[export] Instance streamed_lane_ok bound (inv : World -> Prop) : ends_within bound -> StreamLane inv (streamed_lane bound).
Proof using.
  intros Hend req ka c w Hw. unfold streamed_lane, serve_streamed. destruct (Hend req) as (i & Hi & Hi' & Hm).
  destruct (stream_loop_spec i bound req 0 0 [] false c) as (r & c1 & E & x & Hx & Hr); [done|done|done|done|].
  change (Z.of_nat 0) with 0 in E. rewrite E. cbn [mbind option_bind].
  destruct r as [[[[h n] k]|e]|]; [|by eexists _, _, _; split_and!; [done|done|rewrite Hx; by apply prefix_app_r|]..].
  destruct Hr as [-> Hh]. destruct (flush c1) as [rf c2] eqn:Ef. apply flush_wire in Ef as [Hw2 _].
  destruct rf as [u|e]; eexists _, _, _; (split_and!; [done|done|rewrite Hw2, Hx; by apply prefix_app_r|]); [|done].
  cbn. intros [-> _]%andb_true_iff. split; [done|]. exists x. by rewrite Hw2.
Qed.
End streamed.

(** ** The file server *)
Section files.
Context (s : StaticRoot) (resolve decide : bytes -> option bytes).

Definition files_lane : lane World := fun req ka c w =>
  '(r, c') ← handle_streaming_zc (w_fs w) s resolve decide req ka true c;
  Some (Some match r with
             | Ok o => Ok (mkLaneOut (o_head o) (o_bytes o) (o_keepalive o) None)
             | Err e => Err e
             end, c', w).

#[export] Instance files_lane_ok (inv : World -> Prop) :
  (forall w, inv w -> boundary_ok (w_fs w) decide) -> StreamLane inv files_lane.
Proof using.
  intros Hb req ka c w Hw. unfold files_lane. pose proof (handle_spec (w_fs w) s resolve decide req ka true c (Hb w Hw)) as H.
  destruct (plan (w_fs w) s resolve decide req ka) as [p|e] eqn:Ep.
  2:{ rewrite H. eexists _, _, _. split_and!; done. }
  cbn zeta in H. destruct H as (r & c' & -> & Hr & _). cbn [mbind option_bind]. apply plan_head_first in Ep.
  destruct r as [o|e]; eexists _, _, _; (split; [done|]); (split; [done|]).
  - destruct Hr as (_ & Hx & ->). rewrite Hx. split; [by apply prefix_app_r|]. cbn. intros ->. split; [done|]. eauto.
  - destruct Hr as (x & _ & Hx). rewrite Hx. split; [by apply prefix_app_r|done].
Qed.
End files.

(** ** The proxy as a lane *)
Definition proxy_inv (w : World) : Prop :=
  Relay.idle_ok (kern (w_net w)) /\ net_plain (w_net w) /\ loads_fit (w_fleet w).

#[export] Instance proxy_lane_ok lb env fr gated rt ip (fs_inv : filesystem -> Prop) :
  StreamLane (fun w => fs_inv (w_fs w) /\ proxy_inv w) (proxy_lane lb env fr gated false rt ip).
Proof.
  intros req ka c w (Hfs & Hi & Hn & Hf). unfold proxy_lane, handle_proxy_streaming.
  destruct (next_round (w_fleet w)) as [rnd f1] eqn:Er. assert (inflight f1 = inflight (w_fleet w)) as Hf1 by (by injection Er as _ <-).
  assert (loads_fit f1) as Hl1 by (unfold loads_fit; by rewrite Hf1).
  destruct (hop_spec fr gated rt (fun msk key => pick_lb_via_seam lb (lb_policy_byte env) rnd msk (conns_bytes f1) key)
              true req ka ip f1 c (w_net w) Hi Hn Hl1) as (r & f' & n' & c' & -> & Hi' & Hn' & Hf' & Hs).
  cbn [mbind option_bind]. eexists _, _, _. split; [done|].
  split; [split; [exact Hfs|]; unfold proxy_inv, loads_fit; cbn [w_net w_fleet]; by rewrite Hf', Hf1|].
  destruct r as [o|e]; cbn [hop_sent lane_sent lo_keepalive lo_head lo_bytes] in *.
  - destruct (so_backend o).
    + destruct Hs as (id & up & raw & stream & _ & _ & _ & Hs). destruct (client_resp_head _ _ _) as [head|].
      * destruct Hs as (-> & body & p & _ & _ & Hw & Hk). rewrite Hw. split; [by apply prefix_app_r|]. intros H. destruct (Hk H) as (-> & -> & Hb & _).
        split; [done|]. exists (head ++ body). split_and!; [done|by apply prefix_app_r|done].
      * destruct Hs as (Hka & _ & p & _ & Hw). rewrite Hw, Hka. split; [by apply prefix_app_r|done].
    + destruct Hs as (Hka & _ & _ & Hw). rewrite Hw, Hka. split; [by apply prefix_app_r|done].
  - destruct Hs as (resp & p & _ & _ & Hw). rewrite Hw. split; [by apply prefix_app_r|done].
Qed.

(** ** The deployed loop

    The connection loop with these lanes: the linked verdicts, the clock and
    configuration, the other threads, the network, the files and the client are
    arbitrary within their documented contracts. *)
Section deployed.
Context {I D : Type} (amb : nat -> Ambient) (others : nat -> SharedStanding -> World -> SharedStanding * World)
        (frame_verdict : bytes -> bytes)
        (hv : bytes -> bytes) (eh : bool -> Z -> Z -> bytes) (ec : Z -> bytes) (adm : Z -> Z -> Z -> bool -> Z -> Z)
        (u8 : Z -> bytes -> Z) (cb : bytes -> Z) (infl : I -> bytes -> I * option bytes) (defl : D -> bytes -> D * bytes) (i0 : I) (d0 : D)
        (upgrade_gate : bytes -> option bytes) (peer : IpAddr) (cake native : bytes -> option bytes)
        (effect_seam : bool) (should_handle : bytes -> bool) (run_effect : bytes -> World -> option bytes * World)
        (fleet_configured : bool) (lb : bytes -> option bytes) (env : string -> option bytes) (fr : bytes -> bytes -> bytes)
        (gated : bytes -> bytes) (rt : bytes -> option SockAddr) (peer_text : bytes)
        (call_cfg : bytes -> bytes -> option bytes) (sr : option StaticRoot) (resolve decide_static : bytes -> option bytes)
        (stream_on : bool) (serve_stream : bytes -> option bytes) (chunk_size : Z) (bound : nat)
        (braid : bool) (call_braided : bytes -> Meter -> option bytes) (selector : option bytes)
        (call_gateway call_metered : bytes -> bytes -> Meter -> option bytes)
        (rust_gzip : bool) (crc : bytes -> Z) (gunzip gzip : bytes -> option bytes).

Definition no_root : StaticRoot := mkStaticRoot [] [] None.

Definition deployed : bytes -> Conn World -> option (Exit * Conn World) :=
  handle_conn_prefilled amb others frame_verdict hv eh ec adm u8 cb infl defl i0 d0 upgrade_gate peer cake native
    effect_seam should_handle run_effect
    (if fleet_configured then Some (proxy_lane lb env fr gated false rt peer_text) else None)
    call_cfg sr (files_lane (default no_root sr) resolve decide_static)
    (if stream_on then Some (streamed_lane serve_stream chunk_size bound) else None)
    braid call_braided selector call_gateway call_metered rust_gzip crc gunzip gzip.

Definition world_ok (w : World) : Prop := boundary_ok (w_fs w) decide_static /\ proxy_inv w.

Record host_contract : Prop := {
  hc_framer : framer_ok frame_verdict;
  hc_engine : engine_contract hv eh ec adm;
  hc_stream : ends_within serve_stream chunk_size bound;
  hc_others : forall n t w, table_ok t -> world_ok w -> table_ok (others n t w).1 /\ world_ok (others n t w).2;
  hc_effect : forall req w, world_ok w -> world_ok (run_effect req w).2
}.

(** C3. One connection of the blocking backend, whatever the client sends and
    when, however its socket behaves, whatever the clock, the configuration,
    the other threads and the linked verdicts do: the loop returns, without
    panic. The stream is cut into consecutive requests where the framer says,
    and they are answered once each, in order: the bytes sent are, in order,
    each request's response, after at most one interim response for it, and
    nothing else. The connection goes on after a response only if the client
    asked for it and the response delimits itself or was streamed with its
    length known; what is recorded is what was sent. A refused connection gets
    the refusal alone, an upgrade follows only an empty verdict of the gate, and
    the HTTP/2 engine is handed every byte not yet answered. *)
Theorem deployed_conn_answers (HC : host_contract) (prefill : bytes) (s : Conn World)
    (Ht : table_ok (c_table s)) (Hw : world_ok (c_world s)) :
  exists e s', deployed prefill s = Some (e, s') /\
    conversation frame_verdict upgrade_gate world_ok prefill s e s'.
Proof using.
  destruct HC as [Hf He Hs Ho Hx]. apply conn_answers_in_order; try done.
  - intros l. destruct fleet_configured; [|done]. intros [= <-]. apply (proxy_lane_ok _ _ _ _ _ _ (fun fs => boundary_ok fs decide_static)).
  - apply files_lane_ok. by intros w [Hb _].
  - intros l. destruct stream_on; [|done]. intros [= <-]. by apply streamed_lane_ok.
Qed.
End deployed.

(** ** A concrete deployment *)
Definition demo_host : bytes -> Conn World -> option (Exit * Conn World) :=
  deployed Demo.ambient (fun _ t w => (t, w)) Demo.framer
    Reference.verdict Reference.frame_header Reference.close_frame Reference.admit_rule
    Reference.utf8_run Reference.close_body Reference.stored_inflate Reference.stored_deflate tt tt
    (fun _ => Some []) (V4 0x7f000001) (fun _ => None) (fun _ => None) false (fun _ => false) (fun _ w => (None, w))
    true (fun _ => Some (bs "0")) (fun _ => None) (fun req _ => req) accept_gate (fun _ => None) (bs "127.0.0.1")
    (fun _ _ => None) (Some demo_root) Some demo_decide false (fun _ => None) 1 1
    false (fun _ _ => None) None (fun _ _ _ => None) Demo.hello false (fun _ => 0) (fun _ => None) (fun _ => None).

Definition demo_start (rx : list read_ev) : Conn World :=
  mkConn rx (Sink [] 4096 []) 0 0 0 [] (SharedStanding_new 7)
    (mkWorld demo_fs (one_backend 3) (one_peer [Data demo_message])).

(** A file, a proxied resource and a page, pipelined. *)
Definition demo_flight : bytes := Demo.page "static/a.txt" "" ++ Demo.page "api" "" ++ Demo.page "zz" "".

Example demo_flight_served :
  match demo_host [] (demo_start [Data demo_flight]) with
  | Some (Quiet, s') =>
      bool_decide (entry_req <$> c_log s' = [Demo.page "static/a.txt" ""; Demo.page "api" ""; Demo.page "zz" ""]) &&
      starts_with (bs "HEADa123b6789ENDHTTP/1.1 200 OK") (wire (c_tx s')) && ends_with (bs "zz") (wire (c_tx s'))
  | _ => false
  end = true.
Proof. vm_compute. reflexivity. Qed.

(** A proxied request leaves the request index where it was: on a connection
    used for nothing else every request counts as the first. *)
Example proxied_not_counted :
  (fun r => (c_seq r.2, length (c_log r.2))) <$> demo_host [] (demo_start [Data (Demo.page "api" "")]) = Some (0, 1%nat) /\
  (fun r => (c_seq r.2, length (c_log r.2))) <$> demo_host [] (demo_start [Data (Demo.page "zz" "")]) = Some (1, 1%nat).
Proof. vm_compute. done. Qed.

(** The tunnel is handed the socket, not what was already read off it. *)
Example connect_drops_pipelined :
  match demo_host [] (demo_start [Data (bs "CONNECT h:1 HTTP/1.1" ++ CRLFCRLF ++ bs "early")]) with
  | Some (ToConnect _, s') => bool_decide (arrived (c_rx s') = [])
  | _ => false
  end = true.
Proof. vm_compute. done. Qed.

Lemma deployed_conn_answers_witness :
  exists e s', demo_host [] (demo_start [Data demo_flight]) = Some (e, s') /\
    conversation Demo.framer (fun _ => Some []) (world_ok demo_decide) [] (demo_start [Data demo_flight]) e s'.
Proof.
  apply deployed_conn_answers.
  - split; [exact Demo.framer_progress|exact Reference.engine_ok_contract| |done|done].
    intros req. exists 0%nat. split; [lia|]. by split.
  - by split.
  - split; [exact demo_boundary|]. split; [by intros pipe [=]|]. split; [apply demo_peer_plain; by repeat constructor|].
    intros id c Hc. cbn in Hc. apply lookup_singleton_Some in Hc as [<- <-]. vm_compute. split; congruence.
Defined.
