(* ===== verification/Accept.v ===== *)
(** * The accept loop of the blocking backend ([blocking.rs], [run])

    The single accepting thread against its workers: each atomic operation of
    the thread is a step, and workers leave between any two of them. [admit] and
    [on_close] are one step each here; their halves are interleaved in
    [Standing.shard_caps_hold]. A worker leaves through [ConnCountGuard], whether
    [handle_conn] returned or panicked; a worker whose thread could not be
    created is undone by the accepting thread. *)
From S2P Require Import Prelude Bytes Standing Blocking.

Local Open Scope Z_scope.

(** Where the accepting thread is with the connection it accepted. *)
Inductive Pc :=
  | Waiting
  | UnderThreads (ip : IpAddr)       (* below the thread ceiling *)
  | UnderCeilings (ip : IpAddr)      (* and below the process ceiling *)
  | Entered (ip : IpAddr)            (* [admit] counted it *)
  | OverRate (ip : IpAddr)           (* the 429 is written, [on_close] pending *)
  | Cleared (ip : IpAddr)            (* the rate gate passed *)
  | Counted (ip : IpAddr)            (* [ACTIVE_CONNS] incremented *)
  | Unspawned (ip : IpAddr)          (* the thread could not be created *)
  | Uncounting.                      (* ... its source is uncounted *)

Inductive Worker :=
  | Serving (ip : IpAddr) (owner : nat)
  | Leaving                          (* the source is uncounted, [ACTIVE_CONNS] not yet *)
  | Gone.

Record Server := mkServer {
  sv_table : SharedStanding;
  active_conns : Z;                  (* [ACTIVE_CONNS] *)
  workers : list Worker;
  sv_pc : Pc;
  next_owner : nat;
  sv_sent : list (IpAddr * bytes);   (* the canned refusals, in order *)
  conn_limit_refused : Z;
  rate_limit_refused : Z
}.

Inductive Label :=
  | LAccept (ip : IpAddr)
  | LCeiling
  | LAdmit
  | LRate (limit window now : Z)
  | LGo
  | LSpawn (created : bool)
  | LWorker (i : nat).

(** [ConnCountGuard::drop], its two halves. *)
Definition guard_uncount (s : Server) (ip : IpAddr) (ws : list Worker) (pc : Pc) : option Server :=
  t ← on_close (sv_table s) ip;
  Some (mkServer t (active_conns s) ws pc (next_owner s) (sv_sent s) (conn_limit_refused s) (rate_limit_refused s)).

Definition guard_release (s : Server) (ws : list Worker) (pc : Pc) : Server :=
  mkServer (sv_table s) (wrapping_sub USIZE (active_conns s) 1) ws pc (next_owner s) (sv_sent s)
    (conn_limit_refused s) (rate_limit_refused s).

Definition at_pc (s : Server) (t : SharedStanding) (pc : Pc) : Server :=
  mkServer t (active_conns s) (workers s) pc (next_owner s) (sv_sent s) (conn_limit_refused s) (rate_limit_refused s).

Definition refuse_conn (s : Server) (ip : IpAddr) : Server :=
  mkServer (sv_table s) (active_conns s) (workers s) Waiting (next_owner s) (sv_sent s ++ [(ip, CONN_LIMIT_503)])
    (conn_limit_refused s + 1) (rate_limit_refused s).

Definition refuse_rate (s : Server) (t : SharedStanding) (ip : IpAddr) : Server :=
  mkServer t (active_conns s) (workers s) (OverRate ip) (next_owner s) (sv_sent s ++ [(ip, RATE_LIMIT_429)])
    (conn_limit_refused s) (rate_limit_refused s + 1).

Section accept.
(** [max_connections], [process_conn_cap] and the number of serve owners. The
    source reads the first at each accept, and a reload may change it: a run here
    is one between two such changes, with one cap in force. *)
Context (cap conn_cap : Z) (owners : nat).

Definition worker_step (i : nat) (s : Server) : option Server :=
  match workers s !! i with
  | Some (Serving ip _) => guard_uncount s ip (<[i := Leaving]> (workers s)) (sv_pc s)
  | Some Leaving => Some (guard_release s (<[i := Gone]> (workers s)) (sv_pc s))
  | _ => None
  end.

(** [owners[next_owner]] panics out of range; the remainder by zero too. *)
Definition spawn (created : bool) (ip : IpAddr) (s : Server) : option Server :=
  if (next_owner s <? owners)%nat then
    let s1 := mkServer (sv_table s) (active_conns s)
                (if created then workers s ++ [Serving ip (next_owner s)] else workers s)
                (if created then Waiting else Unspawned ip)
                ((next_owner s + 1) mod owners)%nat (sv_sent s) (conn_limit_refused s) (rate_limit_refused s) in
    Some s1
  else None.

Definition accept_step (l : Label) (s : Server) : option Server :=
  match l, sv_pc s with
  | LAccept ip, Waiting =>
      Some (at_pc s (sv_table s) (if MAX_CONNS <=? active_conns s then Waiting else UnderThreads ip))
  | LCeiling, UnderThreads ip =>
      Some (at_pc s (sv_table s)
              (if negb (conn_cap =? 0) && (conn_cap <=? total_active (sv_table s)) then Waiting else UnderCeilings ip))
  | LAdmit, UnderCeilings ip =>
      '(t, ok) ← admit_source (sv_table s) ip cap;
      Some (if (ok : bool) then at_pc s t (Entered ip) else refuse_conn s ip)
  | LRate limit window now, Entered ip =>
      '(t, over) ← rate_note (sv_table s) ip limit window now;
      Some (if (over : bool) then refuse_rate s t ip else at_pc s t (Cleared ip))
  | LGo, OverRate ip => guard_uncount s ip (workers s) Waiting
  | LGo, Cleared ip =>
      Some (mkServer (sv_table s) (wrapping_add USIZE (active_conns s) 1) (workers s) (Counted ip) (next_owner s)
              (sv_sent s) (conn_limit_refused s) (rate_limit_refused s))
  | LSpawn created, Counted ip => spawn created ip s
  | LGo, Unspawned ip => guard_uncount s ip (workers s) Uncounting
  | LGo, Uncounting => Some (guard_release s (workers s) Waiting)
  | LWorker i, _ => worker_step i s
  | _, _ => None
  end.

Definition server_init (key : Z) : Server :=
  mkServer (SharedStanding_new key) 0 [] Waiting 0 [] 0 0.

(** ** Who holds what *)
Definition holds (ip : IpAddr) (w : Worker) : bool :=
  match w with Serving j _ => bool_decide (j = ip) | _ => false end.
Definition is_serving (w : Worker) : bool := match w with Serving _ _ => true | _ => false end.
Definition is_thread (w : Worker) : bool := match w with Gone => false | _ => true end.

Definition pc_source (pc : Pc) : option IpAddr :=
  match pc with
  | Entered ip | OverRate ip | Cleared ip | Counted ip | Unspawned ip => Some ip
  | _ => None
  end.
Definition pc_thread (pc : Pc) : Z :=
  match pc with Counted _ | Unspawned _ | Uncounting => 1 | _ => 0 end.
(** Past the thread ceiling, not yet counted. *)
Definition pc_reserves (pc : Pc) : Z :=
  match pc with UnderThreads _ | UnderCeilings _ | Entered _ | OverRate _ | Cleared _ => 1 | _ => 0 end.

Definition pc_holds (ip : IpAddr) (pc : Pc) : Z := if bool_decide (pc_source pc = Some ip) then 1 else 0.
Definition pc_in (pc : Pc) : Z := if bool_decide (is_Some (pc_source pc)) then 1 else 0.

Definition sources (s : Server) (ip : IpAddr) : Z := count (holds ip) (workers s) + pc_holds ip (sv_pc s).
Definition inside (s : Server) : Z := count is_serving (workers s) + pc_in (sv_pc s).
Definition threads (s : Server) : Z := count is_thread (workers s) + pc_thread (sv_pc s).

Record server_inv (s : Server) : Prop := {
  iv_rep : exists m, st_rep (MAX_CONNS + 1) (sv_table s) m /\ forall ip, count_of m ip = sources s ip;
  iv_rates : length (rate_stripes (sv_table s)) = STRIPES;
  iv_total : total (sv_table s) = inside s;
  iv_active : active_conns s = threads s;
  iv_ceiling : threads s + pc_reserves (sv_pc s) <= MAX_CONNS;
  iv_conn_cap : conn_cap <> 0 -> 0 <= conn_cap -> inside s + (if sv_pc s is UnderCeilings _ then 1 else 0) <= conn_cap;
  iv_cap : cap <> 0 -> 0 <= cap -> forall ip, sources s ip <= cap;
  iv_owner : (next_owner s < owners)%nat
}.

(** ** The table under one operation *)
Lemma count_le_sum k t m ip : st_rep k t m -> count_of m ip <= map_sum m.
Proof using.
  intros [_ Hn _ Hm]. unfold count_of. destruct (m !! ip) as [n|] eqn:E; [|cbn; lia].
  pose proof (map_sum_delete m ip n E). assert (0 <= map_sum (delete ip m)); [|cbn; lia].
  apply map_sum_nonneg. intros j x [_ Hj]%lookup_delete_Some. pose proof (Hn j x Hj). lia.
Qed.

Lemma rep_tight k k' t m : st_rep k t m -> map_sum m <= k' -> st_rep k' t m.
Proof using.
  intros H Hk. pose proof H as [Hs Hn Ht Hm]. split; [done| |done|lia]. intros ip n E. pose proof (Hn ip n E).
  pose proof (count_le_sum k t m ip H) as Hc. unfold count_of in Hc. rewrite E in Hc. cbn in Hc. lia.
Qed.

Lemma admit_rep k t m ip t' ok :
  0 <= k < 2 ^ 32 - 1 -> st_rep k t m -> admit_source t ip cap = Some (t', ok) ->
  rate_stripes t' = rate_stripes t /\
  if (ok : bool) then st_rep (k + 1) t' (bump m ip) /\ admits cap (count_of m ip) = true /\ total t' = total t + 1 else t' = t.
Proof using.
  intros Hk H E. destruct (standing_op_rep k t m (OpAdmit ip cap) Hk H) as (t2 & Eop & Hrep).
  cbn [standing_op] in Eop. rewrite E in Eop. cbn [mbind option_bind] in Eop. unfold admit_source in E.
  destruct (stripe t ip) as [g|]; [|done]. cbn [mbind option_bind] in E. cbn [spec_op] in Eop, Hrep.
  destruct (admit_section g ip cap) as [g'|]; injection E as <- <-; (split; [done|]); [|done].
  destruct (admits cap (count_of m ip)) eqn:Ea; [|done]. injection Eop as <-. split_and!; [done|done|].
  cbn [total set_total]. apply (add64_exact k); [rewrite (sr_total _ _ _ H); apply (sr_sum _ _ _ H)|lia].
Qed.

Lemma count_of_close m ip j : 1 <= count_of m ip ->
  count_of (spec_op m (OpClose ip)).1 j = count_of m j - (if bool_decide (j = ip) then 1 else 0).
Proof using.
  intros H. cbn [spec_op fst]. destruct (count_of m ip <=? 1) eqn:E; zify_bool; case_bool_decide as Hj; [subst j| |subst j|];
    unfold count_of in *; rewrite ?lookup_delete_eq, ?lookup_insert_eq, ?lookup_delete_ne, ?lookup_insert_ne by congruence; cbn; lia.
Qed.

Lemma count_of_bump m ip j : count_of (bump m ip) j = count_of m j + (if bool_decide (j = ip) then 1 else 0).
Proof using.
  unfold bump, count_of. case_bool_decide as Hj; [subst j; rewrite lookup_insert_eq|rewrite lookup_insert_ne by congruence]; cbn; lia.
Qed.

Lemma close_rep k t m ip :
  0 <= k -> st_rep k t m -> 1 <= count_of m ip ->
  exists t', on_close t ip = Some t' /\ rate_stripes t' = rate_stripes t /\ total t' = total t - 1 /\
    st_rep k t' (spec_op m (OpClose ip)).1.
Proof using.
  intros Hk H Hc. destruct (rep_get k t m ip H) as (g & Hg & _ & Hgm). pose proof (count_le_sum k t m ip H) as Hs.
  destruct (rep_conn_close k t m ip g Hk H Hg Hgm) as (t' & E & Hr). exists t'. split; [done|].
  unfold on_close in E. rewrite Hg in E. cbn [mbind option_bind] in E. unfold close_section in E. rewrite Hgm in E.
  unfold count_of in Hc, Hs. destruct (m !! ip) as [n|]; cbn in Hc, Hs; [|lia]. injection E as <-.
  split_and!; [done| |done]. cbn [total set_total set_stripe]. unfold release, saturating_sub. rewrite (sr_total _ _ _ H). lia.
Qed.

Lemma rate_note_keeps_rep k t m ip limit window now t' over :
  st_rep k t m -> rate_note t ip limit window now = Some (t', over) ->
  st_rep k t' m /\ total t' = total t /\ length (rate_stripes t') = length (rate_stripes t).
Proof using.
  intros H. unfold rate_note. destruct (limit =? 0); [by intros [= <- _]|]. destruct (rate_stripe t ip) as [g|]; [|done].
  cbn [mbind option_bind]. destruct (note_window g ip window now) as [g' n]. intros [= <- _].
  split_and!; [by destruct H|done|]. cbn [set_rate rate_stripes]. apply length_insert.
Qed.

Lemma pc_at pc ip : pc_source pc = Some ip ->
  pc_in pc = 1 /\ forall j, pc_holds j pc = if bool_decide (j = ip) then 1 else 0.
Proof using.
  intros E. unfold pc_in, pc_holds. rewrite E. split; [by rewrite bool_decide_true|]. intros j.
  by rewrite (bool_decide_ext (Some ip = Some j) (j = ip)) by naive_solver.
Qed.

Lemma pc_off pc : pc_source pc = None -> pc_in pc = 0 /\ forall j, pc_holds j pc = 0.
Proof using.
  intros E. unfold pc_in, pc_holds. rewrite E. split; [by rewrite bool_decide_false by (by intros [])|]. intros j. by rewrite bool_decide_false.
Qed.

(** ** The invariant *)
Lemma holds_threads ws : count is_serving ws <= count is_thread ws.
Proof using. induction ws as [|w ws IH]; cbn [count]; [lia|]. destruct w; cbn [is_serving is_thread]; lia. Qed.

Lemma inside_bound s : threads s + pc_reserves (sv_pc s) <= MAX_CONNS -> 0 <= inside s <= MAX_CONNS.
Proof using.
  unfold threads, inside. pose proof (holds_threads (workers s)). pose proof (count_nonneg is_serving (workers s)).
  destruct (sv_pc s); cbn; unfold MAX_CONNS; lia.
Qed.

(** The next state's table agrees with the workers and the thread. *)
Lemma inv_intro s m : st_rep (MAX_CONNS + 2) (sv_table s) m ->
  (forall ip, count_of m ip = sources s ip) -> length (rate_stripes (sv_table s)) = STRIPES ->
  total (sv_table s) = inside s -> active_conns s = threads s -> threads s + pc_reserves (sv_pc s) <= MAX_CONNS ->
  (conn_cap <> 0 -> 0 <= conn_cap -> inside s + (if sv_pc s is UnderCeilings _ then 1 else 0) <= conn_cap) ->
  (cap <> 0 -> 0 <= cap -> forall ip, sources s ip <= cap) -> (next_owner s < owners)%nat -> server_inv s.
Proof using.
  intros Hr Hc Hl Ht Ha Hb H1 H2 Ho. split; try done. exists m. split; [|done]. eapply rep_tight; [exact Hr|].
  rewrite <- (sr_total _ _ _ Hr), Ht. pose proof (inside_bound s Hb). lia.
Qed.

(** A connection leaves the table: a worker's or the thread's own. *)
Lemma uncount_inv s ip ws pc : server_inv s -> 1 <= sources s ip ->
  (forall j, count (holds j) ws + pc_holds j pc = sources s j - (if bool_decide (j = ip) then 1 else 0)) ->
  count is_serving ws + pc_in pc = inside s - 1 -> count is_thread ws + pc_thread pc = threads s ->
  pc_reserves pc <= pc_reserves (sv_pc s) -> (forall j, pc = UnderCeilings j -> sv_pc s = UnderCeilings j) ->
  exists s', guard_uncount s ip ws pc = Some s' /\ server_inv s'.
Proof using.
  intros [(m & Hr & Hm) Hl Ht Ha Hb H1 H2 Ho] Hip Hs Hi Hth Hres Hu. unfold guard_uncount.
  destruct (close_rep (MAX_CONNS + 1) (sv_table s) m ip ltac:(done) Hr) as (t & -> & Hlt & Htt & Hrt); [by rewrite Hm|].
  cbn [mbind option_bind]. eexists. split; [done|].
  apply (inv_intro _ (spec_op m (OpClose ip)).1); unfold sources, inside, threads in *; cbn [sv_table active_conns workers sv_pc next_owner].
  - replace (MAX_CONNS + 2) with (MAX_CONNS + 1 + 1) by lia. by apply rep_mono.
  - intros j. rewrite count_of_close by (by rewrite Hm). by rewrite Hm, Hs.
  - by rewrite Hlt.
  - lia.
  - lia.
  - lia.
  - intros Hn Hp. specialize (H1 Hn Hp).
    assert ((if pc is UnderCeilings _ then 1 else 0) <= (if sv_pc s is UnderCeilings _ then 1 else 0)); [|lia].
    destruct pc; try (by destruct (sv_pc s)). by rewrite (Hu _ eq_refl).
  - intros Hn Hp j. rewrite Hs. specialize (H2 Hn Hp j). case_bool_decide; lia.
  - done.
Qed.

Lemma release_inv s ws pc : server_inv s ->
  (forall j, count (holds j) ws + pc_holds j pc = sources s j) ->
  count is_serving ws + pc_in pc = inside s -> count is_thread ws + pc_thread pc = threads s - 1 ->
  pc_reserves pc <= pc_reserves (sv_pc s) -> (forall j, pc = UnderCeilings j -> sv_pc s = UnderCeilings j) ->
  server_inv (guard_release s ws pc).
Proof using.
  intros [(m & Hr & Hm) Hl Ht Ha Hb H1 H2 Ho] Hs Hi Hth Hres Hu.
  assert (0 <= count is_thread ws + pc_thread pc) as Hpos by (pose proof (count_nonneg is_thread ws); destruct pc; cbn; lia).
  apply (inv_intro _ m); unfold sources, inside, threads in *; cbn [guard_release sv_table active_conns workers sv_pc next_owner]; try done.
  - replace (MAX_CONNS + 2) with (MAX_CONNS + 1 + 1) by lia. by apply rep_mono.
  - intros j. by rewrite Hm, Hs.
  - lia.
  - unfold wrapping_sub, wrap, USIZE. unfold MAX_CONNS in *. rewrite Z.mod_small; [lia|]. destruct (sv_pc s); cbn in *; lia.
  - lia.
  - intros Hn Hp. specialize (H1 Hn Hp).
    assert ((if pc is UnderCeilings _ then 1 else 0) <= (if sv_pc s is UnderCeilings _ then 1 else 0)); [|lia].
    destruct pc; try (by destruct (sv_pc s)). by rewrite (Hu _ eq_refl).
  - intros Hn Hp j. rewrite Hs. by apply H2.
Qed.

(** A worker can always leave, and leaving keeps the invariant. *)
Lemma worker_step_inv i s w : server_inv s -> workers s !! i = Some w -> w <> Gone ->
  exists s', worker_step i s = Some s' /\ server_inv s'.
Proof using.
  intros H Hw Hg. unfold worker_step. rewrite Hw. destruct w as [ip o| |]; [| |done].
  - apply uncount_inv; [done| |intros j|..]; unfold sources, inside, threads; rewrite ?(count_insert _ _ _ _ Leaving Hw);
      cbn [is_serving is_thread holds]; try lia; [|rewrite (bool_decide_ext (ip = j) (j = ip)) by done; case_bool_decide; lia|done].
    pose proof (count_own (holds ip) _ _ _ Hw) as Hc. cbn [holds] in Hc. rewrite bool_decide_true in Hc by done.
    unfold pc_holds. case_bool_decide; lia.
  - eexists. split; [done|]. apply release_inv; [done|intros j|..]; unfold sources, inside, threads; rewrite ?(count_insert _ _ _ _ Gone Hw);
      cbn [is_serving is_thread holds]; try lia; done.
Qed.

(** The thread moves on without touching table or workers. *)
Lemma move_inv s t pc : server_inv s ->
  (exists m, st_rep (MAX_CONNS + 2) t m /\ forall ip, count_of m ip = count (holds ip) (workers s) + pc_holds ip pc) ->
  length (rate_stripes t) = STRIPES -> total t = count is_serving (workers s) + pc_in pc ->
  pc_thread pc = pc_thread (sv_pc s) -> threads s + pc_reserves pc <= MAX_CONNS ->
  (conn_cap <> 0 -> 0 <= conn_cap -> count is_serving (workers s) + pc_in pc + (if pc is UnderCeilings _ then 1 else 0) <= conn_cap) ->
  (cap <> 0 -> 0 <= cap -> forall ip, count (holds ip) (workers s) + pc_holds ip pc <= cap) ->
  server_inv (at_pc s t pc).
Proof using.
  intros [_ _ _ Ha Hb _ _ Ho] (m & Hr & Hm) Hl Ht Hth Hres H1 H2.
  apply (inv_intro _ m); unfold sources, inside, threads in *; cbn [at_pc sv_table active_conns workers sv_pc next_owner]; try done; lia.
Qed.

Lemma idle_move_inv s pc : server_inv s -> pc_source pc = pc_source (sv_pc s) -> pc_thread pc = pc_thread (sv_pc s) ->
  threads s + pc_reserves pc <= MAX_CONNS ->
  (conn_cap <> 0 -> 0 <= conn_cap -> inside s + (if pc is UnderCeilings _ then 1 else 0) <= conn_cap) ->
  server_inv (at_pc s (sv_table s) pc).
Proof using.
  intros H Hsrc Hth Hres H1. pose proof H as [(m & Hr & Hm) Hl Ht Ha Hb _ H2 Ho].
  assert (forall ip, pc_holds ip pc = pc_holds ip (sv_pc s)) as Hh by (intros ip; unfold pc_holds; by rewrite Hsrc).
  assert (pc_in pc = pc_in (sv_pc s)) as Hin by (unfold pc_in; by rewrite Hsrc).
  unfold sources, inside in *. apply move_inv; try done; rewrite ?Hin; try done.
  - exists m. replace (MAX_CONNS + 2) with (MAX_CONNS + 1 + 1) by lia. split; [by apply rep_mono|]. intros ip. by rewrite Hm, Hh.
  - intros Hn Hp ip. rewrite Hh. by apply H2.
Qed.
Lemma inv_ext s s' : sv_table s' = sv_table s -> active_conns s' = active_conns s -> workers s' = workers s ->
  sv_pc s' = sv_pc s -> next_owner s' = next_owner s -> server_inv s -> server_inv s'.
Proof using.
  intros E1 E2 E3 E4 E5 [H1 H2 H3 H4 H5 H6 H7 H8]. split; unfold sources, inside, threads in *; by rewrite ?E1, ?E2, ?E3, ?E4, ?E5.
Qed.

Lemma entering_inv s ip t ok : server_inv s -> sv_pc s = UnderCeilings ip -> admit_source (sv_table s) ip cap = Some (t, ok) ->
  server_inv (if ok then at_pc s t (Entered ip) else refuse_conn s ip).
Proof using.
  intros H Hpc E. pose proof H as [(m & Hr & Hm) Hl Ht Ha Hb H1 H2 Ho].
  destruct (admit_rep (MAX_CONNS + 1) _ m ip t ok ltac:(done) Hr E) as [Hlt Hok].
  unfold sources, inside in *. rewrite Hpc in Hm, Ht, Hb, H1, H2. cbn [pc_reserves] in Hb.
  destruct ok.
  2:{ apply (inv_ext (at_pc s (sv_table s) Waiting)); try done. apply idle_move_inv; try done; rewrite ?Hpc; [done|done|cbn [pc_reserves]; lia|].
      intros Hn Hp. specialize (H1 Hn Hp). unfold inside. rewrite Hpc. lia. }
  destruct Hok as (Hrt & Had & Htt). destruct (pc_off (UnderCeilings ip) eq_refl) as [Ei Eh], (pc_at (Entered ip) ip eq_refl) as [Ei' Eh'].
  assert (forall j, count_of m j = count (holds j) (workers s)) as Hm' by (intros j; rewrite Hm, Eh; lia).
  apply move_inv; try done; rewrite ?Hpc, ?Ei'.
  - exists (bump m ip). replace (MAX_CONNS + 2) with (MAX_CONNS + 1 + 1) by lia. split; [done|]. intros j.
    by rewrite count_of_bump, Hm', Eh'.
  - by rewrite Hlt.
  - rewrite Htt, Ht, Ei. lia.
  - done.
  - intros Hn Hp. specialize (H1 Hn Hp). rewrite Ei in H1. lia.
  - intros Hn Hp j. specialize (H2 Hn Hp j). rewrite Eh in H2. rewrite Eh'. case_bool_decide as Hj; [|lia]. subst j.
    unfold admits in Had. rewrite Hm' in Had. apply orb_true_iff in Had as [?%Z.eqb_eq|?%Z.ltb_lt]; lia.
Qed.

Lemma rating_inv s ip limit window now t over : server_inv s -> sv_pc s = Entered ip ->
  rate_note (sv_table s) ip limit window now = Some (t, over) ->
  server_inv (if over then refuse_rate s t ip else at_pc s t (Cleared ip)).
Proof using.
  intros H Hpc E. pose proof H as [(m & Hr & Hm) Hl Ht Ha Hb H1 H2 Ho].
  destruct (rate_note_keeps_rep _ _ _ _ _ _ _ _ _ Hr E) as (Hrt & Htt & Hlt).
  unfold sources, inside in *. rewrite Hpc in Hm, Ht, Hb, H1, H2.
  assert (forall pc, pc = OverRate ip \/ pc = Cleared ip -> server_inv (at_pc s t pc)) as Hgo.
  { intros pc Hp. assert (pc_source pc = Some ip /\ pc_thread pc = 0 /\ pc_reserves pc = 1 /\ (if pc is UnderCeilings _ then 1 else 0) = 0)
      as (E1 & E2 & E3 & E4) by (by destruct Hp as [->| ->]).
    apply move_inv; unfold pc_holds, pc_in in *; rewrite ?E1, ?E2, ?E3, ?E4, ?Hpc; try done; [|by rewrite Hlt|by rewrite Htt].
    exists m. replace (MAX_CONNS + 2) with (MAX_CONNS + 1 + 1) by lia. split; [by apply rep_mono|done]. }
  destruct over; [|by apply Hgo; right]. apply (inv_ext (at_pc s t (OverRate ip))); try done. by apply Hgo; left.
Qed.

Lemma counting_inv s ip : server_inv s -> sv_pc s = Cleared ip ->
  server_inv (mkServer (sv_table s) (wrapping_add USIZE (active_conns s) 1) (workers s) (Counted ip) (next_owner s)
                (sv_sent s) (conn_limit_refused s) (rate_limit_refused s)).
Proof using.
  intros [(m & Hr & Hm) Hl Ht Ha Hb H1 H2 Ho] Hpc. unfold sources, inside, threads in *. rewrite Hpc in *. cbn in Hb, Ha.
  apply (inv_intro _ m); unfold sources, inside, threads; cbn [sv_table active_conns workers sv_pc next_owner]; try done.
  - replace (MAX_CONNS + 2) with (MAX_CONNS + 1 + 1) by lia. by apply rep_mono.
  - rewrite Ha. pose proof (count_nonneg is_thread (workers s)). unfold wrapping_add, wrap, USIZE, MAX_CONNS in *. rewrite Z.mod_small; cbn; lia.
  - cbn. lia.
Qed.

Lemma spawn_inv s ip created : server_inv s -> sv_pc s = Counted ip -> exists s', spawn created ip s = Some s' /\ server_inv s'.
Proof using.
  intros [(m & Hr & Hm) Hl Ht Ha Hb H1 H2 Ho] Hpc. unfold spawn. rewrite (proj2 (Nat.ltb_lt _ _) Ho). eexists. split; [done|].
  unfold sources, inside, threads in *. rewrite Hpc in *.
  assert (forall ip', (if created then workers s ++ [Serving ip (next_owner s)] else workers s) = ip' ->
    (forall j, count (holds j) ip' + pc_holds j (if created then Waiting else Unspawned ip) = count (holds j) (workers s) + pc_holds j (Counted ip)) /\
    count is_serving ip' + pc_in (if created then Waiting else Unspawned ip) = count is_serving (workers s) + pc_in (Counted ip) /\
    count is_thread ip' + pc_thread (if created then Waiting else Unspawned ip) = count is_thread (workers s) + pc_thread (Counted ip)) as Hcnt.
  { intros ws <-. destruct created; [|done]. rewrite !count_app. cbn [count is_serving is_thread holds]. split; [intros j; rewrite count_app|cbn; lia].
    unfold pc_holds. cbn [count holds pc_source]. rewrite (bool_decide_ext (Some ip = Some j) (ip = j)) by naive_solver.
    rewrite (bool_decide_false (None = Some j)) by done. lia. }
  destruct (Hcnt _ eq_refl) as (C1 & C2 & C3).
  apply (inv_intro _ m); unfold sources, inside, threads; cbn [sv_table active_conns workers sv_pc next_owner]; rewrite ?C2, ?C3; try done.
  - replace (MAX_CONNS + 2) with (MAX_CONNS + 1 + 1) by lia. by apply rep_mono.
  - intros j. by rewrite Hm, C1.
  - destruct created; cbn in *; lia.
  - intros Hn Hp. specialize (H1 Hn Hp). destruct created; cbn in *; lia.
  - intros Hn Hp j. rewrite C1. by apply H2.
  - apply Nat.mod_upper_bound. lia.
Qed.
(** The thread's next operation never fails, and keeps the invariant. *)
Lemma go_inv s : server_inv s ->
  match sv_pc s with
  | OverRate _ | Cleared _ | Unspawned _ | Uncounting => exists s', accept_step LGo s = Some s' /\ server_inv s'
  | _ => accept_step LGo s = None
  end.
Proof using.
  intros H. destruct (sv_pc s) as [| | | |ip|ip| |ip|] eqn:Hpc; unfold accept_step; rewrite Hpc; try done.
  - destruct (pc_at (OverRate ip) ip eq_refl) as [Ei Eh], (pc_off Waiting eq_refl) as [Ei' Eh'].
    apply uncount_inv; [done|..]; unfold sources, inside, threads; rewrite Hpc, ?Ei, ?Ei'; cbn [pc_reserves]; try done; try lia;
      [rewrite Eh, bool_decide_true by done; pose proof (count_nonneg (holds ip) (workers s)); lia|intros j; rewrite Eh, Eh'; lia].
  - eexists. split; [done|]. by apply counting_inv.
  - destruct (pc_at (Unspawned ip) ip eq_refl) as [Ei Eh], (pc_off Uncounting eq_refl) as [Ei' Eh'].
    apply uncount_inv; [done|..]; unfold sources, inside, threads; rewrite Hpc, ?Ei, ?Ei'; cbn [pc_reserves]; try done; try lia;
      [rewrite Eh, bool_decide_true by done; pose proof (count_nonneg (holds ip) (workers s)); lia|intros j; rewrite Eh, Eh'; lia].
  - eexists. split; [done|]. apply release_inv; [done|..]; unfold sources, inside, threads; rewrite ?Hpc; try done. cbn [pc_thread]. lia.
Qed.

Lemma accept_step_inv l s s' : server_inv s -> accept_step l s = Some s' -> server_inv s'.
Proof using.
  intros H E. pose proof H as [_ _ Ht Ha Hb H1 _ _]. destruct l as [ip| | |limit window now| |created|i]; unfold accept_step in E.
  - destruct (sv_pc s) eqn:Hpc; try done. injection E as <-. apply idle_move_inv; try done; rewrite ?Hpc.
    + by case_match.
    + by case_match.
    + rewrite ?Hpc in Hb. destruct (MAX_CONNS <=? active_conns s) eqn:E; [done|]. zify_bool. cbn [pc_reserves] in *. lia.
    + intros Hn Hp. specialize (H1 Hn Hp). rewrite ?Hpc in H1. by destruct (MAX_CONNS <=? _).
  - destruct (sv_pc s) as [|ip| | | | | | |] eqn:Hpc; try done. injection E as <-. apply idle_move_inv; try done; rewrite ?Hpc.
    + by case_match.
    + by case_match.
    + rewrite ?Hpc in Hb. cbn [pc_reserves] in Hb. destruct (_ && _); cbn [pc_reserves]; lia.
    + intros Hn Hp. specialize (H1 Hn Hp). rewrite ?Hpc in H1. unfold total_active.
      destruct (negb (conn_cap =? 0) && (conn_cap <=? total (sv_table s))) eqn:E; [done|].
      apply andb_false_iff in E as [E%negb_false_iff|E]; zify_bool; lia.
  - destruct (sv_pc s) as [| |ip| | | | | |] eqn:Hpc; try done.
    destruct (admit_source _ _ _) as [[t ok]|] eqn:Ea; [|done]. injection E as <-. by eapply entering_inv.
  - destruct (sv_pc s) as [| | |ip| | | | |] eqn:Hpc; try done.
    destruct (rate_note _ _ _ _ _) as [[t ok]|] eqn:Ea; [|done]. injection E as <-. by eapply rating_inv.
  - pose proof (go_inv s H) as Hg. unfold accept_step in Hg. destruct (sv_pc s); try congruence; destruct Hg as (s1 & E1 & Hs1); congruence.
  - destruct (sv_pc s) as [| | | | | |ip| |] eqn:Hpc; try done. destruct (spawn_inv s ip created H Hpc) as (s1 & E1 & Hs1). congruence.
  - assert (worker_step i s = Some s') as Ew by (by destruct (sv_pc s)). unfold worker_step in Ew.
    destruct (workers s !! i) as [w|] eqn:Hw; [|done]. destruct (worker_step_inv i s w H Hw) as (s1 & E1 & Hs1); [by intros ->|].
    unfold worker_step in E1. rewrite Hw in E1. congruence.
Qed.

Lemma server_init_inv key : (0 < owners)%nat -> server_inv (server_init key).
Proof using.
  intros Ho. apply (inv_intro _ ∅); try done.
  apply (rep_tight 0); [apply st_new_rep|done].
Qed.

(** The operations the thread can be about to perform, and a worker's exit. *)
Definition due (s : Server) (l : Label) : Prop :=
  match l, sv_pc s with
  | LAccept _, Waiting | LCeiling, UnderThreads _ | LAdmit, UnderCeilings _ | LRate _ _ _, Entered _ | LSpawn _, Counted _ => True
  | LGo, (OverRate _ | Cleared _ | Unspawned _ | Uncounting) => True
  | LWorker i, _ => exists w, workers s !! i = Some w /\ w <> Gone
  | _, _ => False
  end.

(** None of them fails. *)
Lemma due_enabled s l : server_inv s -> due s l -> is_Some (accept_step l s).
Proof using.
  intros H Hd. pose proof H as [(m & Hr & _) Hl _ _ _ _ _ _]. unfold due in Hd. destruct l as [ip| | |limit window now| |created|i].
  - unfold accept_step. by destruct (sv_pc s).
  - unfold accept_step. by destruct (sv_pc s).
  - unfold accept_step. destruct (sv_pc s) as [| |ip| | | | | |]; try done.
    destruct (standing_op_rep (MAX_CONNS + 1) _ _ (OpAdmit ip cap) ltac:(done) Hr) as (t & E & _). cbn [standing_op] in E.
    by destruct (admit_source _ _ _) as [[t' ok]|].
  - unfold accept_step. destruct (sv_pc s) as [| | |ip| | | | |]; try done. unfold rate_note. destruct (limit =? 0); [done|].
    unfold rate_stripe. destruct (lookup_lt_is_Some_2 (rate_stripes (sv_table s)) (stripe_idx (sv_table s) ip)) as [g ->];
      [rewrite Hl; apply stripe_idx_lt|]. cbn [mbind option_bind]. by destruct (note_window _ _ _ _).
  - pose proof (go_inv s H) as Hg. destruct (sv_pc s); try done; destruct Hg as (s' & -> & _); done.
  - unfold accept_step. destruct (sv_pc s) as [| | | | | |ip| |] eqn:Hpc; try done. by destruct (spawn_inv s ip created H Hpc) as (s' & -> & _).
  - assert (exists w, workers s !! i = Some w /\ w <> Gone) as (w & Hw & Hg) by (by destruct (sv_pc s)).
    destruct (worker_step_inv i s w H Hw Hg) as (s' & E & _). unfold accept_step. rewrite E. by destruct (sv_pc s).
Qed.
End accept.

(** C13. The accept loop keeps its books and its ceilings: with workers
    returning, panicking or failing to start at any point, whatever the order of
    refusals, [ACTIVE_CONNS] is the number of worker threads (and the one being
    made), never above [MAX_CONNS]; each source's counter is the number of its
    connections, never above its cap; the total is their sum, never above the
    process ceiling; no operation of the thread or of a leaving worker panics,
    and once the thread waits and every worker is gone all counters are back at
    zero. *)
Theorem accept_counters_exact (cap conn_cap : Z) (owners : nat) (key : Z) (s : Server)
    (Hcap : 0 <= cap) (Hconn : 0 <= conn_cap) (Ho : (0 < owners)%nat)
    (Hr : reach (accept_step cap conn_cap owners) (server_init key) s) :
  active_conns s = count is_thread (workers s) + pc_thread (sv_pc s) /\
  count is_thread (workers s) <= MAX_CONNS /\
  (forall ip, active (sv_table s) ip = Some (sources s ip) /\ (cap <> 0 -> sources s ip <= cap)) /\
  total_active (sv_table s) = inside s /\ (conn_cap <> 0 -> inside s <= conn_cap) /\
  (forall l, due s l -> is_Some (accept_step cap conn_cap owners l s)) /\
  (sv_pc s = Waiting -> (forall i w, workers s !! i = Some w -> w = Gone) ->
     active_conns s = 0 /\ total_active (sv_table s) = 0 /\ forall ip, active (sv_table s) ip = Some 0).
Proof.
  assert (server_inv cap conn_cap owners s) as H.
  { revert Hr. apply reach_invariant; [by apply server_init_inv|]. intros l x y Hx. by apply accept_step_inv. }
  pose proof (fun l => due_enabled _ _ _ s l H) as Hprog. destruct H as [(m & Hrep & Hm) _ Ht Ha Hb H1 H2 _].
  assert (forall ip, active (sv_table s) ip = Some (sources s ip)) as Hact.
  { intros ip. destruct (rep_get _ _ _ ip Hrep) as (g & Hg & Hc & _). unfold active. rewrite Hg. cbn [mbind option_bind]. by rewrite Hc, Hm. }
  split; [exact Ha|]. split; [unfold threads in Hb; destruct (sv_pc s); cbn [pc_thread pc_reserves] in Hb; lia|].
  split; [intros ip; split; [apply Hact|intros Hn; by apply H2]|]. split; [exact Ht|].
  split; [intros Hn; specialize (H1 Hn Hconn); destruct (sv_pc s); lia|]. split; [exact Hprog|].
  intros Hpc Hgone. assert (forall p, p Gone = false -> count p (workers s) = 0) as Hz.
  { intros p Hp. apply count_none. intros i w Hw. by rewrite (Hgone i w Hw). }
  rewrite Ha. unfold total_active. rewrite Ht. unfold threads, inside. rewrite Hpc, !Hz by done. split_and!; [done|done|].
  intros ip. rewrite Hact. unfold sources. by rewrite Hpc, Hz.
Qed.

(** Two connections and a third refused at the source's cap; one worker leaves,
    and a connection whose thread cannot be made is undone. *)
Definition busy_day : list Label :=
  let enter ip := [LAccept ip; LCeiling; LAdmit] in
  let go ip := enter ip ++ [LRate 0 0 0; LGo; LSpawn true] in
  go (V4 1) ++ go (V4 1) ++ enter (V4 1) ++ [LWorker 0] ++ enter (V4 2) ++ [LWorker 0; LRate 0 0 0; LGo; LSpawn false; LGo; LGo].

Lemma accept_counters_exact_witness :
  exists s, run (accept_step 2 9 2) busy_day (server_init 3) = Some s /\
    active_conns s = count is_thread (workers s) + pc_thread (sv_pc s) /\ active_conns s = 1 /\ conn_limit_refused s = 1.
Proof.
  destruct (run (accept_step 2 9 2) busy_day (server_init 3)) as [s|] eqn:E; [|vm_compute in E; discriminate E].
  exists s. split; [reflexivity|]. split.
  - refine (proj1 (accept_counters_exact 2 9 2 3 s _ _ _ _)); [done|done|lia|]. exact (run_reach _ busy_day _ _ E).
  - vm_compute in E. injection E as <-. split; reflexivity.
Defined.
