(* ===== verification/Counts.v ===== *)
(** * The standing table, as the event loops rely on it

    [counts t h]: the table counts [h ip] connections of every source [ip].
    Entering, leaving and noting an arrival keep it, and none of them panics;
    both reactors ([UringInv], [KqInv]) keep their own connections and those of
    the other threads counted this way. *)
From S2P Require Import Prelude Standing Accept.

Local Open Scope Z_scope.

Definition at_source (ip j : IpAddr) : Z := if bool_decide (j = ip) then 1 else 0.

Lemma at_source_nonneg ip j : 0 <= at_source ip j.
Proof. unfold at_source. by case_bool_decide. Qed.

Lemma tot_perm {A} (g : A -> Z) l1 l2 : l1 ≡ₚ l2 -> tot g l1 = tot g l2.
Proof. induction 1; cbn; lia. Qed.

Definition TABLE_MAX : Z := 2 ^ 32 - 3.

(** The table counts [h] connections per source. *)
Definition counts (t : SharedStanding) (h : IpAddr -> Z) : Prop :=
  length (rate_stripes t) = STRIPES /\ length (req_stripes t) = STRIPES /\
  exists m, st_rep TABLE_MAX t m /\ forall ip, count_of m ip = h ip.

Lemma counts_ext t h h' : (forall ip, h ip = h' ip) -> counts t h -> counts t h'.
Proof. intros E (H1 & H2 & m & Hr & Hm). split_and!; [done..|]. exists m. split; [done|]. intros ip. by rewrite Hm. Qed.

Lemma counts_close t h ip : counts t h -> 1 <= h ip ->
  exists t', on_close t ip = Some t' /\ counts t' (fun j => h j - at_source ip j).
Proof.
  intros (H1 & H2 & m & Hr & Hm) Hip. destruct (close_rep TABLE_MAX t m ip) as (t' & E & Hl & _ & Hr'); [done|done|by rewrite Hm|].
  exists t'. split; [done|]. unfold on_close in E. destruct (stripe t ip) as [g|]; [|done]. cbn [mbind option_bind] in E.
  destruct (close_section g ip) as [g' b]. assert (req_stripes t' = req_stripes t) as Hq by (destruct b; by injection E as <-).
  split_and!; [congruence..|]. exists (spec_op m (OpClose ip)).1. split; [done|]. intros j.
  rewrite count_of_close by (by rewrite Hm). by rewrite Hm.
Qed.

Lemma counts_enter t h ip cap hard : 0 < hard < TABLE_MAX -> counts t h ->
  exists t' a, enter_counted t ip cap hard = Some (t', a) /\
    counts t' (fun j => h j + if bool_decide (a = AtProcessCap) then 0 else at_source ip j).
Proof.
  intros Hh (H1 & H2 & m & Hr & Hm).
  destruct (standing_op_rep TABLE_MAX t m (OpEnter ip cap hard)) as (t' & E & Hr'); [done|done|].
  cbn [standing_op] in E. destruct (enter_counted t ip cap hard) as [[t1 a]|] eqn:Ee; [|done]. cbn [mbind option_bind] in E.
  injection E as -> Ea. exists t', a. split; [done|].
  assert (rate_stripes t' = rate_stripes t /\ req_stripes t' = req_stripes t) as [Hl1 Hl2].
  { unfold enter_counted in Ee. destruct (reserve hard (total t)); [|by injection Ee as <- _]. unfold count_source in Ee.
    destruct (stripe _ ip); [|done]. cbn [mbind option_bind] in Ee. destruct (count_section _ _ _). by injection Ee as <- _. }
  split_and!; [congruence..|]. cbn [spec_op fst snd] in Ea, Hr'. pose proof (sr_sum _ _ _ Hr) as Hs.
  destruct (admits hard (map_sum m)) eqn:Em; cbn [fst snd] in Ea, Hr'; unfold admits in Em;
    destruct (hard =? 0) eqn:E0; zify_bool; try lia; cbn [orb] in Em; zify_bool.
  - assert (a <> AtProcessCap) as Hne by (destruct (admits cap (count_of m ip)); congruence).
    exists (Standing.bump m ip). split.
    + eapply rep_tight; [exact Hr'|]. unfold Standing.bump. rewrite map_sum_update. unfold count_of. lia.
    + intros j. rewrite count_of_bump, Hm. by rewrite (bool_decide_false (a = AtProcessCap)).
  - assert (a = AtProcessCap) as -> by congruence. exists m. split; [by eapply rep_tight; [|apply Hs]|]. intros j. rewrite Hm. rewrite bool_decide_true by done. lia.
Qed.

Lemma counts_active t h ip : counts t h -> exists n, active t ip = Some n.
Proof. intros (_ & _ & m & Hr & _). destruct (rep_get _ _ _ ip Hr) as (g & Hg & _). unfold active. rewrite Hg. cbn. eauto. Qed.

Lemma counts_rate t h ip limit window now : counts t h ->
  exists t' b, rate_note t ip limit window now = Some (t', b) /\ counts t' h.
Proof.
  intros (H1 & H2 & m & Hr & Hm).
  destruct (rate_note t ip limit window now) as [[t' b]|] eqn:E.
  - exists t', b. split; [done|]. destruct (rate_note_keeps_rep _ _ _ _ _ _ _ _ _ Hr E) as (Hr' & _ & Hl).
    split_and!; [congruence| |by exists m]. unfold rate_note in E. destruct (limit =? 0); [by injection E as <- _|].
    destruct (rate_stripe t ip); [|done]. cbn [mbind option_bind] in E. destruct (note_window _ _ _ _). by injection E as <- _.
  - unfold rate_note in E. destruct (limit =? 0); [done|]. unfold rate_stripe in E.
    destruct (lookup_lt_is_Some_2 (rate_stripes t) (stripe_idx t ip)) as [g Hg]; [rewrite H1; apply stripe_idx_lt|].
    rewrite Hg in E. cbn [mbind option_bind] in E. by destruct (note_window g ip window now).
Qed.

Lemma counts_prior t h ip limit window now : counts t h ->
  exists t' n, req_note_prior t ip limit window now = Some (t', n) /\ counts t' h.
Proof.
  intros (H1 & H2 & m & Hr & Hm). unfold req_note_prior. destruct (limit =? 0).
  { eexists _, _. split; [done|]. split_and!; [done..|by exists m]. }
  unfold req_stripe. destruct (lookup_lt_is_Some_2 (req_stripes t) (stripe_idx t ip)) as [g ->]; [rewrite H2; apply stripe_idx_lt|].
  cbn [mbind option_bind]. destruct (note_window g ip window now) as [g' n]. eexists _, _. split; [done|].
  split_and!; [done|cbn [set_req req_stripes]; by rewrite length_insert|]. exists m. split; [by destruct Hr|done].
Qed.

Lemma prune_counts t h window now : counts t h -> counts (rate_prune t window now) h.
Proof. intros (H1 & H2 & m & Hr & Hm). split_and!; [by cbn; rewrite length_fmap..|]. exists m. split; [|done]. by destruct Hr. Qed.
