(* ===== verification/Interp.v ===== *)
(** * The effect interpreter ([interp.rs])

    The linked core is a resumable program: a crossing either ends with a
    response or yields one effect. No closure crosses the boundary: the host
    runs the effect, appends the result to a list and crosses again with the
    original request and the whole list, which the core replays. [Prog] is such
    a program and [denote] runs it directly; [run_effect_serve] is the host's
    loop over frames, and the theorem at the end is that it computes [denote],
    provided the core replays the frames it is given. The process-wide caches,
    the fleet and the network are [Effects]; the other threads act before each
    effect and while a coalesced reader waits. *)
From S2P Require Import Prelude Bytes Lines Io Cache DiskCache Static ProxyHead Fleet ProxyHop Blocking.

Local Open Scope Z_scope.

(** [serve::Seam]: the entry points of the linked core. *)
Inductive Seam :=
  | SeamHttp | Datagram | UpgradeGate | ProxyPick | LbPick
  | ServeStep | ServeResume | ServeProxyStreamHead | ServeStepCfg | ServeResumeCfg
  | L4Bind | DeploymentOfConfig | ServeStepPol | ServeResumePol
  | ServeCfg | ServeBraided | ServeStream | ConnectGate | GrpcFrameLen
  | StaticResolve | StaticDecide | ServeGatewaySeam.

Definition TAG_DONE : Z := 0.
Definition TAG_YIELD_PROXY : Z := 1.
Definition TAG_YIELD_CACHE_LOOKUP : Z := 2.
Definition TAG_YIELD_CACHE_STORE : Z := 3.

(** ** Which requests, which seams *)

Definition is_cacheable_shape (req : bytes) : bool :=
  match windows_position CRLF req with
  | None => false
  | Some e =>
      match split_on (fun b => b =? 32) (take e req) with
      | m :: t :: _ => bytes_eqb m (bs "GET") && (starts_with (bs "/static") t || starts_with (bs "/admin") t)
      | _ => false
      end
  end.

Definition should_handle (fleet : option Fleet) (req : bytes) : bool :=
  if is_proxy_path req && bool_decide (is_Some fleet) then true else is_cacheable_shape req.

Definition lb_selector (env : string -> option bytes) : Z :=
  match env "DRORB_LB_POLICY"%string with
  | Some v => if bool_decide (v ∈ [bs "leastConn"; bs "least_conn"; bs "leastconn"; bs "1"]) then 1 else 0
  | None => 0
  end.

Definition current_mask (fleet : option Fleet) : Z := from_option mask 0 fleet.

Definition seams (env : string -> option bytes) (dep : option Deployment) : Seam * Seam * option Z :=
  match dep with
  | Some d => (ServeStepPol, ServeResumePol, Some (lb_policy d))
  | None =>
      let sel := lb_selector env in
      if sel =? 0 then (ServeStep, ServeResume, None) else (ServeStepCfg, ServeResumeCfg, Some sel)
  end.

(** ** Frames *)

Definition opt_byte (p : option Z) : bytes := from_option (fun b => [b]) [] p.

(** A [u32] length in front; [as u32] wraps. *)
Definition sized (b : bytes) : bytes := to_be_bytes 4 (wrap 32 (Z.of_nat (length b))) ++ b.

Definition frame_step (prefix : option Z) (msk : Z) (req : bytes) : bytes := opt_byte prefix ++ [msk] ++ req.

Definition frame_resume (prefix : option Z) (msk : Z) (req : bytes) (results : list bytes) : bytes :=
  opt_byte prefix ++ [msk] ++ sized req ++ [wrap 8 (Z.of_nat (length results))] ++ concat (sized <$> results).

(** What a crossing returned. *)
Inductive StepOut :=
  | SDone (resp : bytes)
  | SProxy (backend : Z) (req : bytes)
  | SLookup (key : bytes)
  | SStore (lifetime : Z) (key resp : bytes)
  | SShortStore                              (* the key runs past the frame *)
  | SOther.

Definition decode_step (cur : bytes) : StepOut :=
  match cur with
  | [] => SOther
  | tag :: rest =>
      if tag =? TAG_DONE then SDone rest
      else if tag =? TAG_YIELD_PROXY then match rest with b :: r => SProxy b r | [] => SOther end
      else if tag =? TAG_YIELD_CACHE_LOOKUP then SLookup rest
      else if tag =? TAG_YIELD_CACHE_STORE then
        if (9 <=? length cur)%nat then
          let key_len := Z.to_nat (from_be_bytes (take 4 (drop 4 rest))) in
          let body := drop 8 rest in
          if (length body <? key_len)%nat then SShortStore
          else SStore (from_be_bytes (take 4 rest)) (take key_len body) (drop key_len body)
        else SOther
      else SOther
  end.

(** ** The effects *)
Record Effects := mkEffects {
  e_cache : ResponseCache;
  e_disk : FS;
  e_fleet : option Fleet;
  e_net : net
}.

Definition set_cache (w : Effects) (c : ResponseCache) : Effects := mkEffects c (e_disk w) (e_fleet w) (e_net w).
Definition set_disk (w : Effects) (d : FS) : Effects := mkEffects (e_cache w) d (e_fleet w) (e_net w).
Definition set_fleet (w : Effects) (f : Fleet) : Effects := mkEffects (e_cache w) (e_disk w) (Some f) (e_net w).
Definition set_net (w : Effects) (n : net) : Effects := mkEffects (e_cache w) (e_disk w) (e_fleet w) n.

(** The clocks of the two tiers and how the disk behaves. *)
Record Reading := mkReading { r_now : Z; r_secs : Z; r_put : PutIo }.

Section effects.
Context (rd : nat -> Reading) (others waited : nat -> Effects -> Effects)
        (strip resp_gated : bytes -> bytes) (checks : bool) (resolve_target : bytes -> option SockAddr)
        (disk_on : bool).

(** The [i]-th effect of a request. [None]: a panic; [(None, _)]: no fleet. *)
Definition dial_effect (i : nat) (backend : Z) (req : bytes) (w : Effects) : option (option bytes * Effects) :=
  match e_fleet w with
  | None => Some (None, w)
  | Some f =>
      match addr resolve_target f backend with
      | (None, f1) => Some (Some bad_gateway, set_fleet w f1)
      | (Some a, f1) =>
          '(r, n) ← forward strip resp_gated a req (e_net w);
          match r with
          | Ok resp => f2 ← record_success checks f1 backend; Some (Some resp, set_net (set_fleet w f2) n)
          | Err _ => f2 ← record_failure checks f1 backend; Some (Some bad_gateway, set_net (set_fleet w f2) n)
          end
      end
  end.

(** [cache::lookup_coalescing]: the wait ends when the leader has published or
    after five seconds. *)
Definition lookup_wait (i : nat) (key : bytes) (w : Effects) : option bytes * Effects :=
  match try_hit (e_cache w) key (r_now (rd i)) with
  | (c1, Some hit) => (Some hit, set_cache w c1)
  | (c1, None) =>
      let '(c2, (loc, is_leader)) := elect c1 key in
      if (is_leader : bool) then (None, set_cache w c2)
      else
        let w1 := waited i (set_cache w c2) in
        match flights (e_cache w1) !! loc with
        | Some (Some b) => (Some (stamp b Cache.HIT (Some 0)), w1)
        | _ => let '(c3, h) := try_hit (e_cache w1) key (r_now (rd i)) in (h, set_cache w1 c3)
        end
  end.

Definition lookup_effect (i : nat) (key : bytes) (w : Effects) : bytes * Effects :=
  match lookup_wait i key w with
  | (Some hit, w1) => (hit, w1)
  | (None, w1) =>
      let '(d, c, hit) :=
        if disk_on then promote_on_miss disk_on (e_disk w1) (e_cache w1) key (r_secs (rd i)) (r_now (rd i))
        else (e_disk w1, e_cache w1, None) in
      (default [] hit, set_disk (set_cache w1 c) d)
  end.

Definition store_both (i : nat) (lifetime : Z) (key resp : bytes) (w : Effects) : Effects :=
  let w1 := set_cache w (Cache.store_effect (e_cache w) key resp lifetime (r_now (rd i))) in
  if disk_on && negb (lifetime =? 0)
  then set_disk w1 (put disk_on (e_disk w1) key resp (r_secs (rd i)) lifetime (r_put (rd i))).1
  else w1.

(** One yielded effect; [(None, _)]: the request is not one the seam acts on. *)
Definition exec_effect (i : nat) (st : StepOut) (w : Effects) : option (option bytes * Effects) :=
  let w0 := others i w in
  match st with
  | SProxy backend req => dial_effect i backend req w0
  | SLookup key => let '(r, w1) := lookup_effect i key w0 in Some (Some r, w1)
  | SStore lifetime key resp => Some (Some [], store_both i lifetime key resp w0)
  | _ => Some (None, w0)
  end.

(** ** The loop *)
Context (call_seam : Seam -> bytes -> option bytes) (env : string -> option bytes) (dep : option Deployment).

Section loop.
Context (prefix : option Z) (msk : Z) (req : bytes) (resume_seam : Seam).

Fixpoint effect_loop (fuel : nat) (cur : bytes) (results : list bytes) (w : Effects) : option (option bytes * Effects) :=
  match fuel with
  | O => None
  | S fuel' =>
      match decode_step cur with
      | SDone resp => Some (Some resp, w)
      | SShortStore | SOther => Some (None, w)
      | st =>
          '(r, w1) ← exec_effect (length results) st w;
          match r with
          | None => Some (None, w1)
          | Some res =>
              let results' := results ++ [res] in
              match call_seam resume_seam (frame_resume prefix msk req results') with
              | None => Some (None, w1)
              | Some cur' => effect_loop fuel' cur' results' w1
              end
          end
      end
  end.
End loop.

(** [fuel] bounds the effects of one request. *)
Definition run_effect_serve (fuel : nat) (req : bytes) (w : Effects) : option (option bytes * Effects) :=
  let msk := current_mask (e_fleet w) in
  let '(step_seam, resume_seam, prefix) := seams env dep in
  match call_seam step_seam (frame_step prefix msk req) with
  | None => Some (None, w)
  | Some cur => effect_loop prefix msk req resume_seam fuel cur [] w
  end.

(** ** The program behind the seam *)
Inductive Eff :=
  | EProxy (backend : Z) (req : bytes)
  | ELookup (key : bytes)
  | EStore (lifetime : Z) (key resp : bytes).

Inductive Prog :=
  | Done (resp : bytes)
  | Yield (e : Eff) (k : bytes -> Prog).

Definition eff_out (e : Eff) : StepOut :=
  match e with
  | EProxy b r => SProxy b r
  | ELookup k => SLookup k
  | EStore l k r => SStore l k r
  end.

Definition encode_eff (e : Eff) : bytes :=
  match e with
  | EProxy b r => TAG_YIELD_PROXY :: b :: r
  | ELookup k => TAG_YIELD_CACHE_LOOKUP :: k
  | EStore l k r => TAG_YIELD_CACHE_STORE :: to_be_bytes 4 l ++ sized k ++ r
  end.

Definition encode (p : Prog) : bytes := match p with Done resp => TAG_DONE :: resp | Yield e _ => encode_eff e end.

Fixpoint replay (p : Prog) (results : list bytes) : Prog :=
  match p, results with
  | Yield _ k, r :: rs => replay (k r) rs
  | _, _ => p
  end.

(** The program run directly, each effect where it stands. *)
Fixpoint denote (i : nat) (p : Prog) (w : Effects) : option (option bytes * Effects) :=
  match p with
  | Done resp => Some (Some resp, w)
  | Yield e k =>
      '(r, w1) ← exec_effect i (eff_out e) w;
      match r with None => Some (None, w1) | Some res => denote (S i) (k res) w1 end
  end.

Definition eff_fits (e : Eff) : Prop :=
  match e with EStore l k _ => fits 32 l /\ Z.of_nat (length k) < 2 ^ 32 | _ => True end.

(** At most [n] effects, whatever they return, each of which has a frame. *)
Fixpoint within (n : nat) (p : Prog) : Prop :=
  match p with
  | Done _ => True
  | Yield e k => match n with O => False | S n' => eff_fits e /\ forall r, within n' (k r) end
  end.

(** The reference decoder of the resume frame. *)
Definition take_sized (b : bytes) : option (bytes * bytes) :=
  let n := Z.to_nat (from_be_bytes (take 4 b)) in
  if (4 + n <=? length b)%nat then Some (take n (drop 4 b), drop (4 + n) b) else None.

Fixpoint take_results (n : nat) (b : bytes) : option (list bytes) :=
  match n with
  | O => if bool_decide (b = []) then Some [] else None
  | S n' => '(r, b') ← take_sized b; rs ← take_results n' b'; Some (r :: rs)
  end.

Definition decode_resume (has_prefix : bool) (b : bytes) : option (option Z * Z * bytes * list bytes) :=
  let '(prefix, b1) := if has_prefix then (head b, tail b) else (None, b) in
  match b1 with
  | [] => None
  | msk :: b2 =>
      '(req, b3) ← take_sized b2;
      match b3 with
      | [] => None
      | n :: b4 => rs ← take_results (Z.to_nat n) b4; Some (prefix, msk, req, rs)
      end
  end.
End effects.

(** ** The effects return *)
Lemma read_response_returns up : exists r up', read_response up = Some (r, up').
Proof.
  unfold read_response. destruct (read_head_spec (S (weight up)) [] up) as (r & up1 & -> & _); [lia|].
  cbn [mbind option_bind]. destruct r as [buf he|buf|e]; eauto.
  all: match goal with |- context [read_until _ ?want ?b ?u] =>
    destruct (read_until_spec (S (weight u)) want b u) as (r & up2 & -> & _); [lia|eauto] end.
Qed.

Lemma forward_returns strip gated a req n : exists r n', forward strip gated a req n = Some (r, n').
Proof.
  assert (forall s b, exists r s', forward_once s b = Some (r, s')) as Ho.
  { intros s b. unfold forward_once. destruct (write_all b (tx s)) as [[u|e] t1]; [|eauto].
    destruct (flush t1) as [[v|e] t2]; [|eauto]. destruct (read_response_returns (rx s)) as (r & up & ->). cbn. eauto. }
  unfold forward. destruct (dial_or_reuse a n) as [[[id reused]|e] n1]; [|eauto].
  destruct (Ho (the_sock n1 id) (strip req)) as (r & s1 & ->). cbn [mbind option_bind].
  destruct r as [resp|e]; [unfold settle; eauto|]. destruct reused; [|eauto].
  destruct (connect (note_dialed (close (put_sock n1 id s1) id))) as [[id'|e'] n3]; [|eauto].
  destruct (Ho (the_sock n3 id') (strip req)) as (r' & s3 & ->). cbn [mbind option_bind].
  destruct r'; unfold settle; eauto.
Qed.

Section returns.
Context (rd : nat -> Reading) (others waited : nat -> Effects -> Effects)
        (strip resp_gated : bytes -> bytes) (resolve_target : bytes -> option SockAddr) (disk_on : bool).

(** In a build that does not check arithmetic no effect panics. *)
Lemma exec_effect_returns i e w :
  exists r w', exec_effect rd others waited strip resp_gated false resolve_target disk_on i (eff_out e) w = Some (r, w').
Proof using.
  unfold exec_effect. destruct e as [b req|key|l key resp]; cbn [eff_out]; [|destruct (lookup_effect _ _ _ _ _ _); eauto|eauto].
  unfold dial_effect. destruct (e_fleet (others i w)) as [f|]; [|eauto].
  destruct (addr resolve_target f b) as [[a|] f1]; [|eauto].
  destruct (forward_returns strip resp_gated a req (e_net (others i w))) as (r & n & ->). cbn [mbind option_bind].
  assert (forall x, is_Some (bit_of false x)) as Hb by (intros x; unfold bit_of; destruct (x <? 32); eauto).
  destruct r; unfold record_success, record_failure, bump, set_up.
  - destruct (Hb b) as [v ->]. cbn. eauto.
  - destruct (_ + 1 <? 2 ^ 32); cbn [mbind option_bind]; (destruct (breaker_threshold f1 <=? _); [|eauto]);
      destruct (Hb b) as [v ->]; cbn; eauto.
Qed.
End returns.

(** ** Frames are read back *)
Lemma sized_short b : Z.of_nat (length b) < 2 ^ 32 -> sized b = to_be_bytes 4 (Z.of_nat (length b)) ++ b.
Proof. intros H. unfold sized. rewrite wrap_small; [done|]. split; [lia|done]. Qed.

Lemma take_sized_ok b y : Z.of_nat (length b) < 2 ^ 32 -> take_sized (sized b ++ y) = Some (b, y).
Proof.
  intros H. rewrite sized_short by done. unfold take_sized. set (h := to_be_bytes 4 (Z.of_nat (length b))).
  assert (length h = 4%nat) as Hh by apply length_to_be_bytes. rewrite <- app_assoc.
  assert (from_be_bytes h = Z.of_nat (length b)) as Hn.
  { apply from_to_be_bytes. change (256 ^ Z.of_nat 4) with (2 ^ 32). lia. }
  rewrite (take_app_length' h), (drop_app_length' h), Hn, Nat2Z.id by done.
  rewrite !length_app, Hh. destruct (Nat.leb_spec (4 + length b) (4 + (length b + length y))); [|lia].
  rewrite take_app_length. do 2 f_equal. rewrite <- drop_drop, (drop_app_length' h) by done. apply drop_app_length.
Qed.

Lemma take_results_ok rs : Forall (fun r => Z.of_nat (length r) < 2 ^ 32) rs ->
  take_results (length rs) (concat (sized <$> rs)) = Some rs.
Proof.
  induction 1 as [|r rs Hr _ IH]; [done|]. cbn [length take_results fmap list_fmap concat].
  rewrite take_sized_ok by done. cbn [mbind option_bind]. by rewrite IH.
Qed.

(** The resume frame determines everything it was built from. *)
Lemma frame_resume_decodes prefix msk req rs :
  Z.of_nat (length req) < 2 ^ 32 -> (length rs < 256)%nat -> Forall (fun r => Z.of_nat (length r) < 2 ^ 32) rs ->
  decode_resume (bool_decide (is_Some prefix)) (frame_resume prefix msk req rs) = Some (prefix, msk, req, rs).
Proof.
  intros Hq Hn Hf. unfold frame_resume, decode_resume.
  assert ((if bool_decide (is_Some prefix) then (head (opt_byte prefix ++ [msk] ++ sized req ++ [wrap 8 (Z.of_nat (length rs))] ++ concat (sized <$> rs)),
             tail (opt_byte prefix ++ [msk] ++ sized req ++ [wrap 8 (Z.of_nat (length rs))] ++ concat (sized <$> rs)))
           else (None, opt_byte prefix ++ [msk] ++ sized req ++ [wrap 8 (Z.of_nat (length rs))] ++ concat (sized <$> rs))) =
          (prefix, [msk] ++ sized req ++ [wrap 8 (Z.of_nat (length rs))] ++ concat (sized <$> rs))) as -> by by destruct prefix.
  cbn [app]. rewrite take_sized_ok by done. cbn [mbind option_bind app].
  rewrite (wrap_small 8) by (unfold fits; lia). rewrite Nat2Z.id. by rewrite take_results_ok.
Qed.

Lemma decode_encode_eff e : eff_fits e -> decode_step (encode_eff e) = eff_out e.
Proof.
  destruct e as [b r|k|l k r]; [done|done|]. intros [Hl Hk]. cbn [encode_eff eff_out]. unfold decode_step.
  change (TAG_YIELD_CACHE_STORE =? TAG_DONE) with false. change (TAG_YIELD_CACHE_STORE =? TAG_YIELD_PROXY) with false.
  change (TAG_YIELD_CACHE_STORE =? TAG_YIELD_CACHE_LOOKUP) with false. change (TAG_YIELD_CACHE_STORE =? TAG_YIELD_CACHE_STORE) with true.
  cbv iota. rewrite sized_short by done. set (h := to_be_bytes 4 l). set (g := to_be_bytes 4 (Z.of_nat (length k))).
  assert (length h = 4%nat) as Hh by apply length_to_be_bytes. assert (length g = 4%nat) as Hg by apply length_to_be_bytes.
  rewrite <- app_assoc. cbn [length]. rewrite !length_app, Hh, Hg. destruct (Nat.leb_spec 9 (S (4 + (4 + (length k + length r))))); [|lia].
  assert (drop 8 (h ++ g ++ k ++ r) = k ++ r) as ->.
  { change 8%nat with (4 + 4)%nat. rewrite <- drop_drop, (drop_app_length' h), (drop_app_length' g) by done. done. }
  rewrite (take_app_length' h), (drop_app_length' h) by done. rewrite (take_app_length' g) by done.
  assert (from_be_bytes h = l /\ from_be_bytes g = Z.of_nat (length k)) as [-> ->].
  { unfold fits in Hl. split; apply from_to_be_bytes; change (256 ^ Z.of_nat 4) with (2 ^ 32); lia. }
  rewrite Nat2Z.id, length_app.
  destruct (Nat.ltb_spec (length k + length r) (length k)); [lia|]. by rewrite take_app_length, drop_app_length.
Qed.

Lemma replay_nil p : replay p [] = p.
Proof. by destruct p. Qed.

Lemma replay_snoc p rs r : replay p (rs ++ [r]) = match replay p rs with Yield _ k => k r | q => q end.
Proof.
  revert p. induction rs as [|x rs IH]; intros [resp|e k]; cbn [app replay]; [done| |done|apply IH]. apply replay_nil.
Qed.

(** ** The loop computes the program *)
Section refinement.
Context (rd : nat -> Reading) (others waited : nat -> Effects -> Effects)
        (strip resp_gated : bytes -> bytes) (resolve_target : bytes -> option SockAddr) (disk_on : bool)
        (call_seam : Seam -> bytes -> option bytes) (env : string -> option bytes) (dep : option Deployment)
        (core : option Z -> Z -> bytes -> Prog).

#[local] Abbreviation exec := (exec_effect rd others waited strip resp_gated false resolve_target disk_on).
#[local] Abbreviation direct := (denote rd others waited strip resp_gated false resolve_target disk_on).

(** What the module relies on of the linked core: it replays. *)
Record core_replays : Prop := {
  cr_step msk req prefix : prefix = (seams env dep).2 ->
    call_seam (seams env dep).1.1 (frame_step prefix msk req) = Some (encode (core prefix msk req));
  cr_resume msk req prefix rs b : prefix = (seams env dep).2 ->
    decode_resume (bool_decide (is_Some prefix)) b = Some (prefix, msk, req, rs) ->
    call_seam (seams env dep).1.2 b = Some (encode (replay (core prefix msk req) rs))
}.

(** Along the run the results fit the frame's length fields. *)
Fixpoint results_fit (i : nat) (p : Prog) (w : Effects) : Prop :=
  match p with
  | Done _ => True
  | Yield e k => forall r w', exec i (eff_out e) w = Some (Some r, w') -> Z.of_nat (length r) < 2 ^ 32 /\ results_fit (S i) (k r) w'
  end.

Lemma effect_loop_denotes (HC : core_replays) msk req n : forall p rs w,
  Z.of_nat (length req) < 2 ^ 32 -> (length rs + n < 256)%nat -> Forall (fun r => Z.of_nat (length r) < 2 ^ 32) rs ->
  replay (core (seams env dep).2 msk req) rs = p -> within n p ->
  results_fit (length rs) p w ->
  effect_loop rd others waited strip resp_gated false resolve_target disk_on call_seam (seams env dep).2 msk req (seams env dep).1.2
    (S n) (encode p) rs w = direct (length rs) p w.
Proof using.
  induction n as [|n IH]; intros p rs w Hq Hn Hf Hp Hw HF; destruct p as [resp|e k]; [done|done|done|].
  destruct Hw as [He Hk]. cbn [encode effect_loop]. rewrite decode_encode_eff by done. cbn [denote].
  destruct (exec_effect_returns rd others waited strip resp_gated resolve_target disk_on (length rs) e w) as (r & w1 & Hx).
  cbn [results_fit] in HF.
  assert (r = None \/ exists res, r = Some res /\
    call_seam (seams env dep).1.2 (frame_resume (seams env dep).2 msk req (rs ++ [res])) = Some (encode (k res)) /\
    effect_loop rd others waited strip resp_gated false resolve_target disk_on call_seam (seams env dep).2 msk req
      (seams env dep).1.2 (S n) (encode (k res)) (rs ++ [res]) w1 = direct (S (length rs)) (k res) w1) as Hr.
  { destruct r as [res|]; [right; exists res; split; [done|]|by left]. destruct (HF res w1 Hx) as [Hlen HF'].
    assert (Forall (fun r => Z.of_nat (length r) < 2 ^ 32) (rs ++ [res])) as Hf'.
    { apply Forall_app. split; [done|]. by constructor. }
    assert (replay (core (seams env dep).2 msk req) (rs ++ [res]) = k res) as Hk' by by rewrite replay_snoc, Hp.
    rewrite (cr_resume HC msk req (seams env dep).2 (rs ++ [res])); [|done|apply frame_resume_decodes; [done|rewrite length_app; cbn; lia|done]].
    rewrite Hk'. split; [done|]. rewrite IH; try done; rewrite length_app, Nat.add_1_r; [done|lia|done]. }
  destruct e; cbn [eff_out] in *; rewrite Hx; cbn [mbind option_bind];
    (destruct Hr as [->|(res & -> & -> & Hr)]; [done|exact Hr]).
Qed.

Lemma denote_returns p : forall i w, exists r w', direct i p w = Some (r, w').
Proof using.
  induction p as [resp|e k IH]; intros i w; cbn [denote]; [eauto|].
  destruct (exec_effect_returns rd others waited strip resp_gated resolve_target disk_on i e w) as (r & w1 & ->).
  cbn [mbind option_bind]. destruct r as [res|]; [apply IH|eauto].
Qed.

(** C36. The effect loop computes the program behind the seam. Provided the
    linked core replays the frames it is given, and for a program of at most
    255 effects: the loop over encoded steps and replay frames returns, without
    panic, exactly what running the program directly gives, each effect
    performed once, in order, on the caches, the backends and the network as
    the other threads leave them; in particular an answer from the cache runs
    no dial, and a failed dial gives the program the gateway error. *)
Theorem effect_serve_refines (HC : core_replays) (n : nat) (req : bytes) (w : Effects) :
  let prog := core (seams env dep).2 (current_mask (e_fleet w)) req in
  (n < 256)%nat -> Z.of_nat (length req) < 2 ^ 32 -> within n prog -> results_fit 0 prog w ->
  exists r w', direct 0 prog w = Some (r, w') /\
    run_effect_serve rd others waited strip resp_gated false resolve_target disk_on call_seam env dep (S n) req w = Some (r, w').
Proof using.
  intros prog Hn Hq Hw HF. destruct (denote_returns prog 0 w) as (r & w' & Hd). exists r, w'. split; [done|].
  unfold run_effect_serve. rewrite <- Hd. unfold prog in *. clear prog Hd.
  pose proof (cr_step HC (current_mask (e_fleet w)) req _ eq_refl) as Hs.
  pose proof (effect_loop_denotes HC (current_mask (e_fleet w)) req n _ [] w Hq Hn (Forall_nil_2 _) (replay_nil _) Hw HF) as Hl.
  destruct (seams env dep) as [[step_seam resume_seam] prefix]. cbn [fst snd] in *. by rewrite Hs.
Qed.
End refinement.

(** ** A cacheable page *)
Module DemoCore.
Definition page_core (prefix : option Z) (msk : Z) (req : bytes) : Prog :=
  Yield (ELookup req) (fun hit => match hit with
    | [] => Yield (EStore 60 req (bs "page")) (fun _ => Done (bs "page"))
    | _ => Done hit
    end).

Definition replaying (s : Seam) (b : bytes) : option bytes :=
  match s, b with
  | ServeStep, msk :: req => Some (encode (page_core None msk req))
  | ServeResume, _ => '(p, msk, req, rs) ← decode_resume false b; Some (encode (replay (page_core p msk req) rs))
  | _, _ => None
  end.

Definition readings (_ : nat) : Reading := mkReading 5000000000 5 IoOk.
Definition world : Effects := mkEffects ResponseCache_new ∅ None (one_peer []).

Definition serve (w : Effects) : option (option bytes * Effects) :=
  run_effect_serve readings (fun _ w => w) (fun _ w => w) id id false (fun _ => None) false replaying (fun _ => None) None 3 (bs "k") w.
End DemoCore.

(** The first request stores, the second is answered from the store. *)
Example page_is_cached :
  match DemoCore.serve DemoCore.world with
  | Some (Some r, w) =>
      bool_decide (r = bs "page") && match DemoCore.serve w with Some (Some r2, _) => bool_decide (r2 = stamp (bs "page") Cache.HIT (Some 0)) | _ => false end
  | _ => false
  end = true.
Proof. vm_compute. done. Qed.

Lemma effect_serve_refines_witness :
  exists r w', denote DemoCore.readings (fun _ w => w) (fun _ w => w) id id false (fun _ => None) false 0
                 (DemoCore.page_core None 0 (bs "k")) DemoCore.world = Some (r, w') /\ DemoCore.serve DemoCore.world = Some (r, w').
Proof.
  apply (effect_serve_refines DemoCore.readings (fun _ w => w) (fun _ w => w) id id (fun _ => None) false DemoCore.replaying
           (fun _ => None) None DemoCore.page_core).
  - split; [by intros msk req prefix ->|]. intros msk req prefix rs b -> Hb. cbn in Hb. unfold DemoCore.replaying. cbn. by rewrite Hb.
  - lia.
  - done.
  - split; [done|]. intros [|b r]; [|done]. split; [by split|]. done.
  - intros r w' Hr. vm_compute in Hr. injection Hr as <- <-. split; [done|].
    intros r w' Hr. vm_compute in Hr. injection Hr as <- <-. by split.
Defined.
