(* ===== verification/UringState.v ===== *)
(** * The state of an io_uring shard ([uring.rs])

    [Shard] is what one shard thread owns (its slab, backlog and counters)
    together with what it exchanges with the kernel (submission and completion
    queues, provided buffers, the splice pipe, what each socket was sent), with
    the serve owner (jobs, mailbox) and with the rest of the process. A
    submission queue entry carries the bytes it points to; a completion carries
    the bytes the kernel wrote and is routed by its [user_data] alone. The
    lists [due] and [wires] are what was staged for a socket and what went out
    on it. Access-log capture and metrics are left out. *)
From S2P Require Import Prelude Bytes Lines Io Standing Cache Http Static Chunked ProxyHead Fleet Blocking Lanes Interp.

Local Open Scope Z_scope.

Definition RECV_CHUNK : nat := Z.to_nat 16384.
Definition MAX_CONNS_PER_SHARD : Z := MAX_CONNS_CEILING.
Definition SPLICE_CHUNK : Z := 2 ^ 20.

(** ** Submission and completion queue entries *)
Inductive Sqe :=
  | QAccept
  | QEventfd
  | QRecv (slot : nat) (fd : Z)
  | QRecvBr (slot : nat) (fd : Z)
  | QSend (slot : nat) (fd : Z) (zc : bool) (data : bytes)
  | QWritev (slot : nat) (fd : Z) (data : bytes)
  | QClose (fd : Z)
  | QConnect (slot : nat) (up_fd : Z) (a : SockAddr)
  | QUpSend (slot : nat) (up_fd : Z) (data : bytes)
  | QUpRecv (slot : nat) (up_fd : Z)
  | QStaticSend (slot : nat) (fd : Z) (data : bytes)
  | QSpliceIn (slot : nat) (src : option file) (off : Z) (len : Z)
  | QSpliceOut (slot : nat) (fd : Z) (len : Z).

Definition TAG_ACCEPT : Z := Z.shiftl 1 32.
Definition TAG_EVENTFD : Z := Z.shiftl 2 32.
Definition TAG_RECV : Z := Z.shiftl 3 32.
Definition TAG_SEND : Z := Z.shiftl 4 32.
Definition TAG_CLOSE : Z := Z.shiftl 5 32.
Definition TAG_RECV_BR : Z := Z.shiftl 6 32.
Definition TAG_PROXY_CONNECT : Z := Z.shiftl 7 32.
Definition TAG_PROXY_SEND : Z := Z.shiftl 8 32.
Definition TAG_PROXY_RECV : Z := Z.shiftl 9 32.
Definition TAG_STATIC_SEND : Z := Z.shiftl 10 32.
Definition TAG_SPLICE_IN : Z := Z.shiftl 11 32.
Definition TAG_SPLICE_OUT : Z := Z.shiftl 12 32.
Definition TAG_MASK : Z := Z.shiftl 0xffffffff 32.
Definition SLOT_MASK : Z := 0xffffffff.

Definition sqe_tag (q : Sqe) : Z :=
  match q with
  | QAccept => TAG_ACCEPT
  | QEventfd => TAG_EVENTFD
  | QRecv _ _ => TAG_RECV
  | QRecvBr _ _ => TAG_RECV_BR
  | QSend _ _ _ _ | QWritev _ _ _ => TAG_SEND
  | QClose _ => TAG_CLOSE
  | QConnect _ _ _ => TAG_PROXY_CONNECT
  | QUpSend _ _ _ => TAG_PROXY_SEND
  | QUpRecv _ _ => TAG_PROXY_RECV
  | QStaticSend _ _ _ => TAG_STATIC_SEND
  | QSpliceIn _ _ _ _ => TAG_SPLICE_IN
  | QSpliceOut _ _ _ => TAG_SPLICE_OUT
  end.

Definition sqe_slot (q : Sqe) : nat :=
  match q with
  | QAccept | QEventfd | QClose _ => 0
  | QRecv i _ | QRecvBr i _ | QSend i _ _ _ | QWritev i _ _ | QConnect i _ _ | QUpSend i _ _ | QUpRecv i _
  | QStaticSend i _ _ | QSpliceIn i _ _ _ | QSpliceOut i _ _ => i
  end.

Definition user_data (q : Sqe) : Z := Z.lor (sqe_tag q) (Z.of_nat (sqe_slot q)).

Record Cqe := mkCqe {
  ud : Z;
  res : Z;
  cq_bid : option Z;        (* [cqueue::buffer_select] *)
  cq_more : bool;
  cq_notif : bool;
  cq_data : bytes           (* the bytes the kernel wrote where the entry pointed *)
}.

Definition cqe_tag (e : Cqe) : Z := Z.land (ud e) TAG_MASK.
Definition cqe_slot (e : Cqe) : nat := Z.to_nat (Z.land (ud e) SLOT_MASK).

(** ** Per-connection state *)
Inductive SplitBody := LeaseBody (bid : Z) | StaticBody.

Record SplitSend := mkSplit { sp_head : bytes; sp_body : SplitBody; sp_body_len : nat; sp_sent : nat }.

Inductive ReplyFraming := Unknown | Fixed (target : Z) | ByChunks | ToEof.

Record ProxyDial := mkDial {
  up_fd : Z;
  pd_backend : Z;
  forward_req : bytes;
  pd_sent : nat;
  up_acc : bytes;
  framing : ReplyFraming;
  pd_head_end : option nat;
  chunk_parser : ChunkedParser;
  chunk_fed : nat;
  stream : bool;
  stream_target : Z;
  stream_forwarded : Z;
  sse : bool;
  sse_done : bool;
  op_deadline : Z
}.

Record StepState := mkStep {
  st_prefix : option Z;
  st_mask : Z;
  st_req : bytes;
  st_results : list bytes;
  st_resume_seam : Seam;
  st_keepalive : bool
}.

(** The bookkeeping of one zero-copy send: entries issued, data completions
    seen, notifications promised and seen. *)
Record ZcSend := mkZc { zc_issued : Z; zc_data : Z; zc_notif_exp : Z; zc_notif : Z; zc_error : bool }.

Definition zc_clear : ZcSend := mkZc 0 0 0 0 false.

Record StaticSend := mkStatic {
  ss_segs : list StaticSeg;
  ss_file : option file;
  ss_seg : nat;
  seg_started : bool;
  buf_sent : nat;
  win_off : Z;
  win_remaining : Z;
  pipe_bytes : Z;
  ss_keepalive : bool;
  ss_head : bytes;
  ss_bytes : Z
}.

Record Conn := mkUConn {
  u_fd : Z;
  u_peer : IpAddr;
  u_seq : Z;    (* conn_seq *)
  u_start : Z;    (* conn_start *)
  u_acc : bytes;
  u_lease : option Z;    (* leased_bid *)
  u_resp : option bytes;
  u_sent : nat;
  u_zc : ZcSend;
  u_req_ka : bool;    (* req_keepalive *)
  u_ka : bool;    (* keepalive *)
  u_h2c : bool;
  u_interim : bool;    (* interim_100_sent *)
  u_step : option StepState;
  u_proxy : option ProxyDial;
  u_await_head : bool;    (* awaiting_stream_head *)
  u_hdr_start : Z;
  u_hdr_done : bool;    (* headers_done *)
  u_req_len : nat;
  u_split : option SplitSend;
  u_static : option StaticSend
}.
Definition set_u_seq (v : Z) (c : Conn) : Conn :=
  mkUConn (u_fd c) (u_peer c) v (u_start c) (u_acc c) (u_lease c) (u_resp c) (u_sent c) (u_zc c) (u_req_ka c) (u_ka c)
    (u_h2c c) (u_interim c) (u_step c) (u_proxy c) (u_await_head c) (u_hdr_start c) (u_hdr_done c) (u_req_len c)
    (u_split c) (u_static c).
Definition set_u_acc (v : bytes) (c : Conn) : Conn :=
  mkUConn (u_fd c) (u_peer c) (u_seq c) (u_start c) v (u_lease c) (u_resp c) (u_sent c) (u_zc c) (u_req_ka c) (u_ka c)
    (u_h2c c) (u_interim c) (u_step c) (u_proxy c) (u_await_head c) (u_hdr_start c) (u_hdr_done c) (u_req_len c)
    (u_split c) (u_static c).
Definition set_u_lease (v : option Z) (c : Conn) : Conn :=
  mkUConn (u_fd c) (u_peer c) (u_seq c) (u_start c) (u_acc c) v (u_resp c) (u_sent c) (u_zc c) (u_req_ka c) (u_ka c)
    (u_h2c c) (u_interim c) (u_step c) (u_proxy c) (u_await_head c) (u_hdr_start c) (u_hdr_done c) (u_req_len c)
    (u_split c) (u_static c).
Definition set_u_resp (v : option bytes) (c : Conn) : Conn :=
  mkUConn (u_fd c) (u_peer c) (u_seq c) (u_start c) (u_acc c) (u_lease c) v (u_sent c) (u_zc c) (u_req_ka c) (u_ka c)
    (u_h2c c) (u_interim c) (u_step c) (u_proxy c) (u_await_head c) (u_hdr_start c) (u_hdr_done c) (u_req_len c)
    (u_split c) (u_static c).
Definition set_u_sent (v : nat) (c : Conn) : Conn :=
  mkUConn (u_fd c) (u_peer c) (u_seq c) (u_start c) (u_acc c) (u_lease c) (u_resp c) v (u_zc c) (u_req_ka c) (u_ka c)
    (u_h2c c) (u_interim c) (u_step c) (u_proxy c) (u_await_head c) (u_hdr_start c) (u_hdr_done c) (u_req_len c)
    (u_split c) (u_static c).
Definition set_u_zc (v : ZcSend) (c : Conn) : Conn :=
  mkUConn (u_fd c) (u_peer c) (u_seq c) (u_start c) (u_acc c) (u_lease c) (u_resp c) (u_sent c) v (u_req_ka c) (u_ka
    c) (u_h2c c) (u_interim c) (u_step c) (u_proxy c) (u_await_head c) (u_hdr_start c) (u_hdr_done c) (u_req_len c)
    (u_split c) (u_static c).
Definition set_u_req_ka (v : bool) (c : Conn) : Conn :=
  mkUConn (u_fd c) (u_peer c) (u_seq c) (u_start c) (u_acc c) (u_lease c) (u_resp c) (u_sent c) (u_zc c) v (u_ka c)
    (u_h2c c) (u_interim c) (u_step c) (u_proxy c) (u_await_head c) (u_hdr_start c) (u_hdr_done c) (u_req_len c)
    (u_split c) (u_static c).
Definition set_u_ka (v : bool) (c : Conn) : Conn :=
  mkUConn (u_fd c) (u_peer c) (u_seq c) (u_start c) (u_acc c) (u_lease c) (u_resp c) (u_sent c) (u_zc c) (u_req_ka c)
    v (u_h2c c) (u_interim c) (u_step c) (u_proxy c) (u_await_head c) (u_hdr_start c) (u_hdr_done c) (u_req_len c)
    (u_split c) (u_static c).
Definition set_u_interim (v : bool) (c : Conn) : Conn :=
  mkUConn (u_fd c) (u_peer c) (u_seq c) (u_start c) (u_acc c) (u_lease c) (u_resp c) (u_sent c) (u_zc c) (u_req_ka c)
    (u_ka c) (u_h2c c) v (u_step c) (u_proxy c) (u_await_head c) (u_hdr_start c) (u_hdr_done c) (u_req_len c) (u_split
    c) (u_static c).
Definition set_u_step (v : option StepState) (c : Conn) : Conn :=
  mkUConn (u_fd c) (u_peer c) (u_seq c) (u_start c) (u_acc c) (u_lease c) (u_resp c) (u_sent c) (u_zc c) (u_req_ka c)
    (u_ka c) (u_h2c c) (u_interim c) v (u_proxy c) (u_await_head c) (u_hdr_start c) (u_hdr_done c) (u_req_len c)
    (u_split c) (u_static c).
Definition set_u_proxy (v : option ProxyDial) (c : Conn) : Conn :=
  mkUConn (u_fd c) (u_peer c) (u_seq c) (u_start c) (u_acc c) (u_lease c) (u_resp c) (u_sent c) (u_zc c) (u_req_ka c)
    (u_ka c) (u_h2c c) (u_interim c) (u_step c) v (u_await_head c) (u_hdr_start c) (u_hdr_done c) (u_req_len c)
    (u_split c) (u_static c).
Definition set_u_await_head (v : bool) (c : Conn) : Conn :=
  mkUConn (u_fd c) (u_peer c) (u_seq c) (u_start c) (u_acc c) (u_lease c) (u_resp c) (u_sent c) (u_zc c) (u_req_ka c)
    (u_ka c) (u_h2c c) (u_interim c) (u_step c) (u_proxy c) v (u_hdr_start c) (u_hdr_done c) (u_req_len c) (u_split c)
    (u_static c).
Definition set_u_hdr_start (v : Z) (c : Conn) : Conn :=
  mkUConn (u_fd c) (u_peer c) (u_seq c) (u_start c) (u_acc c) (u_lease c) (u_resp c) (u_sent c) (u_zc c) (u_req_ka c)
    (u_ka c) (u_h2c c) (u_interim c) (u_step c) (u_proxy c) (u_await_head c) v (u_hdr_done c) (u_req_len c) (u_split
    c) (u_static c).
Definition set_u_hdr_done (v : bool) (c : Conn) : Conn :=
  mkUConn (u_fd c) (u_peer c) (u_seq c) (u_start c) (u_acc c) (u_lease c) (u_resp c) (u_sent c) (u_zc c) (u_req_ka c)
    (u_ka c) (u_h2c c) (u_interim c) (u_step c) (u_proxy c) (u_await_head c) (u_hdr_start c) v (u_req_len c) (u_split
    c) (u_static c).
Definition set_u_req_len (v : nat) (c : Conn) : Conn :=
  mkUConn (u_fd c) (u_peer c) (u_seq c) (u_start c) (u_acc c) (u_lease c) (u_resp c) (u_sent c) (u_zc c) (u_req_ka c)
    (u_ka c) (u_h2c c) (u_interim c) (u_step c) (u_proxy c) (u_await_head c) (u_hdr_start c) (u_hdr_done c) v (u_split
    c) (u_static c).
Definition set_u_split (v : option SplitSend) (c : Conn) : Conn :=
  mkUConn (u_fd c) (u_peer c) (u_seq c) (u_start c) (u_acc c) (u_lease c) (u_resp c) (u_sent c) (u_zc c) (u_req_ka c)
    (u_ka c) (u_h2c c) (u_interim c) (u_step c) (u_proxy c) (u_await_head c) (u_hdr_start c) (u_hdr_done c) (u_req_len
    c) v (u_static c).
Definition set_u_static (v : option StaticSend) (c : Conn) : Conn :=
  mkUConn (u_fd c) (u_peer c) (u_seq c) (u_start c) (u_acc c) (u_lease c) (u_resp c) (u_sent c) (u_zc c) (u_req_ka c)
    (u_ka c) (u_h2c c) (u_interim c) (u_step c) (u_proxy c) (u_await_head c) (u_hdr_start c) (u_hdr_done c) (u_req_len
    c) (u_split c) v.

(** ** The shard *)
Record Slab := mkSlab { conns : list (option Conn); sl_free : list nat }.

(** A request handed to the serve owner, with the slot its answer goes to; the
    last kind runs on a thread of its own. *)
Inductive ReqBuf := Pooled (b : bytes) | Borrowed (bid : Z) (len : nat).

Inductive Job :=
  | JobServe (slot : nat) (seam : Seam) (req : ReqBuf) (m : option Meter)
  | JobDefer (slot : nat) (req : bytes).

Definition job_slot (j : Job) : nat := match j with JobServe i _ _ _ | JobDefer i _ => i end.

Record ShardDone := mkDone { done_conn : nat; done_resp : bytes; split_static : bool }.

(** What the threads that take a connection over are given. *)
Inductive Lane := HandH2 (burst : bytes) | HandConnect (req : bytes) | HandWs (head rest : bytes) | HandProxy (burst : bytes).

Record Handed := mkHanded { h_lane : Lane; h_fd : Z; h_ip : IpAddr }.

Record Common := mkCommon { table : SharedStanding; cache : ResponseCache; fleet : option Fleet }.

Record Shard := mkShard {
  slab : Slab;
  backlog : list Sqe;
  proxy_inflight : Z;
  tick : nat;    (* looks at the clock so far *)
  common : Common;    (* shared with the other threads *)
  gw_up : bool;    (* the serve owner takes jobs *)
  jobs : list Job;    (* taken, not answered *)
  mailbox : list ShardDone;
  submitted : list Sqe;    (* with the kernel *)
  owed : list nat;    (* zero-copy notifications still to come, by slot *)
  cq : list Cqe;
  br_ring : list Z;    (* buffers the kernel may fill *)
  br_mem : gmap Z bytes;
  accept_addr : IpAddr;
  pipe : bytes;    (* the shard's splice pipe *)
  wires : gmap Z bytes;    (* what each socket was sent *)
  due : gmap Z bytes;    (* and what was staged for it *)
  handed : list Handed;    (* threads that took a connection over *)
  zc_borrow : Z;
  zc_recycle : Z
}.
Definition set_slab (v : Slab) (s : Shard) : Shard :=
  mkShard v (backlog s) (proxy_inflight s) (tick s) (common s) (gw_up s) (jobs s) (mailbox s) (submitted s) (owed s)
    (cq s) (br_ring s) (br_mem s) (accept_addr s) (pipe s) (wires s) (due s) (handed s) (zc_borrow s) (zc_recycle s).
Definition set_backlog (v : list Sqe) (s : Shard) : Shard :=
  mkShard (slab s) v (proxy_inflight s) (tick s) (common s) (gw_up s) (jobs s) (mailbox s) (submitted s) (owed s) (cq
    s) (br_ring s) (br_mem s) (accept_addr s) (pipe s) (wires s) (due s) (handed s) (zc_borrow s) (zc_recycle s).
Definition set_proxy_inflight (v : Z) (s : Shard) : Shard :=
  mkShard (slab s) (backlog s) v (tick s) (common s) (gw_up s) (jobs s) (mailbox s) (submitted s) (owed s) (cq s)
    (br_ring s) (br_mem s) (accept_addr s) (pipe s) (wires s) (due s) (handed s) (zc_borrow s) (zc_recycle s).
Definition set_tick (v : nat) (s : Shard) : Shard :=
  mkShard (slab s) (backlog s) (proxy_inflight s) v (common s) (gw_up s) (jobs s) (mailbox s) (submitted s) (owed s)
    (cq s) (br_ring s) (br_mem s) (accept_addr s) (pipe s) (wires s) (due s) (handed s) (zc_borrow s) (zc_recycle s).
Definition set_common (v : Common) (s : Shard) : Shard :=
  mkShard (slab s) (backlog s) (proxy_inflight s) (tick s) v (gw_up s) (jobs s) (mailbox s) (submitted s) (owed s) (cq
    s) (br_ring s) (br_mem s) (accept_addr s) (pipe s) (wires s) (due s) (handed s) (zc_borrow s) (zc_recycle s).
Definition set_gw_up (v : bool) (s : Shard) : Shard :=
  mkShard (slab s) (backlog s) (proxy_inflight s) (tick s) (common s) v (jobs s) (mailbox s) (submitted s) (owed s)
    (cq s) (br_ring s) (br_mem s) (accept_addr s) (pipe s) (wires s) (due s) (handed s) (zc_borrow s) (zc_recycle s).
Definition set_jobs (v : list Job) (s : Shard) : Shard :=
  mkShard (slab s) (backlog s) (proxy_inflight s) (tick s) (common s) (gw_up s) v (mailbox s) (submitted s) (owed s)
    (cq s) (br_ring s) (br_mem s) (accept_addr s) (pipe s) (wires s) (due s) (handed s) (zc_borrow s) (zc_recycle s).
Definition set_mailbox (v : list ShardDone) (s : Shard) : Shard :=
  mkShard (slab s) (backlog s) (proxy_inflight s) (tick s) (common s) (gw_up s) (jobs s) v (submitted s) (owed s) (cq
    s) (br_ring s) (br_mem s) (accept_addr s) (pipe s) (wires s) (due s) (handed s) (zc_borrow s) (zc_recycle s).
Definition set_submitted (v : list Sqe) (s : Shard) : Shard :=
  mkShard (slab s) (backlog s) (proxy_inflight s) (tick s) (common s) (gw_up s) (jobs s) (mailbox s) v (owed s) (cq s)
    (br_ring s) (br_mem s) (accept_addr s) (pipe s) (wires s) (due s) (handed s) (zc_borrow s) (zc_recycle s).
Definition set_owed (v : list nat) (s : Shard) : Shard :=
  mkShard (slab s) (backlog s) (proxy_inflight s) (tick s) (common s) (gw_up s) (jobs s) (mailbox s) (submitted s) v
    (cq s) (br_ring s) (br_mem s) (accept_addr s) (pipe s) (wires s) (due s) (handed s) (zc_borrow s) (zc_recycle s).
Definition set_cq (v : list Cqe) (s : Shard) : Shard :=
  mkShard (slab s) (backlog s) (proxy_inflight s) (tick s) (common s) (gw_up s) (jobs s) (mailbox s) (submitted s)
    (owed s) v (br_ring s) (br_mem s) (accept_addr s) (pipe s) (wires s) (due s) (handed s) (zc_borrow s) (zc_recycle
    s).
Definition set_br_ring (v : list Z) (s : Shard) : Shard :=
  mkShard (slab s) (backlog s) (proxy_inflight s) (tick s) (common s) (gw_up s) (jobs s) (mailbox s) (submitted s)
    (owed s) (cq s) v (br_mem s) (accept_addr s) (pipe s) (wires s) (due s) (handed s) (zc_borrow s) (zc_recycle s).
Definition set_br_mem (v : gmap Z bytes) (s : Shard) : Shard :=
  mkShard (slab s) (backlog s) (proxy_inflight s) (tick s) (common s) (gw_up s) (jobs s) (mailbox s) (submitted s)
    (owed s) (cq s) (br_ring s) v (accept_addr s) (pipe s) (wires s) (due s) (handed s) (zc_borrow s) (zc_recycle s).
Definition set_accept_addr (v : IpAddr) (s : Shard) : Shard :=
  mkShard (slab s) (backlog s) (proxy_inflight s) (tick s) (common s) (gw_up s) (jobs s) (mailbox s) (submitted s)
    (owed s) (cq s) (br_ring s) (br_mem s) v (pipe s) (wires s) (due s) (handed s) (zc_borrow s) (zc_recycle s).
Definition set_pipe (v : bytes) (s : Shard) : Shard :=
  mkShard (slab s) (backlog s) (proxy_inflight s) (tick s) (common s) (gw_up s) (jobs s) (mailbox s) (submitted s)
    (owed s) (cq s) (br_ring s) (br_mem s) (accept_addr s) v (wires s) (due s) (handed s) (zc_borrow s) (zc_recycle
    s).
Definition set_wires (v : gmap Z bytes) (s : Shard) : Shard :=
  mkShard (slab s) (backlog s) (proxy_inflight s) (tick s) (common s) (gw_up s) (jobs s) (mailbox s) (submitted s)
    (owed s) (cq s) (br_ring s) (br_mem s) (accept_addr s) (pipe s) v (due s) (handed s) (zc_borrow s) (zc_recycle s).
Definition set_due (v : gmap Z bytes) (s : Shard) : Shard :=
  mkShard (slab s) (backlog s) (proxy_inflight s) (tick s) (common s) (gw_up s) (jobs s) (mailbox s) (submitted s)
    (owed s) (cq s) (br_ring s) (br_mem s) (accept_addr s) (pipe s) (wires s) v (handed s) (zc_borrow s) (zc_recycle
    s).
Definition set_handed (v : list Handed) (s : Shard) : Shard :=
  mkShard (slab s) (backlog s) (proxy_inflight s) (tick s) (common s) (gw_up s) (jobs s) (mailbox s) (submitted s)
    (owed s) (cq s) (br_ring s) (br_mem s) (accept_addr s) (pipe s) (wires s) (due s) v (zc_borrow s) (zc_recycle s).
Definition set_zc_borrow (v : Z) (s : Shard) : Shard :=
  mkShard (slab s) (backlog s) (proxy_inflight s) (tick s) (common s) (gw_up s) (jobs s) (mailbox s) (submitted s)
    (owed s) (cq s) (br_ring s) (br_mem s) (accept_addr s) (pipe s) (wires s) (due s) (handed s) v (zc_recycle s).
Definition set_zc_recycle (v : Z) (s : Shard) : Shard :=
  mkShard (slab s) (backlog s) (proxy_inflight s) (tick s) (common s) (gw_up s) (jobs s) (mailbox s) (submitted s)
    (owed s) (cq s) (br_ring s) (br_mem s) (accept_addr s) (pipe s) (wires s) (due s) (handed s) (zc_borrow s) v.

Definition set_table (t : SharedStanding) (s : Shard) : Shard := set_common (mkCommon t (cache (common s)) (fleet (common s))) s.
Definition set_cache (c : ResponseCache) (s : Shard) : Shard := set_common (mkCommon (table (common s)) c (fleet (common s))) s.
Definition set_fleet (f : option Fleet) (s : Shard) : Shard := set_common (mkCommon (table (common s)) (cache (common s)) f) s.

Definition get (i : nat) (s : Shard) : option Conn := mjoin (conns (slab s) !! i).
Definition put (i : nat) (c : Conn) (s : Shard) : Shard := set_slab (mkSlab (<[i := Some c]> (conns (slab s))) (sl_free (slab s))) s.
Definition upd (i : nat) (f : Conn -> Conn) (s : Shard) : Shard :=
  match get i s with Some c => put i (f c) s | None => s end.

Definition live (sl : Slab) : Z := Z.of_nat (length (conns sl)) - Z.of_nat (length (sl_free sl)).

(** [self.conns[i] = ...] panics out of range. *)
Definition slab_insert (c : Conn) (sl : Slab) : option (Slab * nat) :=
  match vec_pop (sl_free sl) with
  | Some (fr, i) => if (i <? length (conns sl))%nat then Some (mkSlab (<[i := Some c]> (conns sl)) fr, i) else None
  | None => Some (mkSlab (conns sl ++ [Some c]) (sl_free sl), length (conns sl))
  end.

Definition slab_remove (i : nat) (sl : Slab) : Slab :=
  match conns sl !! i with
  | Some (Some _) => mkSlab (<[i := None]> (conns sl)) (vec_push (sl_free sl) i)
  | _ => sl
  end.

Definition push (q : Sqe) (s : Shard) : Shard := set_backlog (backlog s ++ [q]) s.

(** Every descriptor in use: of a connection or of its upstream, one a close is
    queued for, one accepted and not yet seen, one a thread took over. *)
Definition conn_fds (c : Conn) : list Z := u_fd c :: from_option (fun d => [up_fd d]) [] (u_proxy c).
Definition close_fds (l : list Sqe) : list Z := omap (fun q => match q with QClose f => Some f | _ => None end) l.
Definition accept_fds (l : list Cqe) : list Z :=
  omap (fun e => if (cqe_tag e =? TAG_ACCEPT) && (0 <=? res e) then Some (res e) else None) l.
Definition open_fds (s : Shard) : list Z :=
  concat (conn_fds <$> omap id (conns (slab s))) ++ close_fds (backlog s ++ submitted s) ++ accept_fds (cq s) ++ (h_fd <$> handed s).
