(* ===== verification/Uring.v ===== *)
(** * The io_uring shard ([uring.rs])

    The completion handlers of one shard, each as it stands in the source, over
    the state of [UringState]. [None] is a panic (or fuel, which never runs
    out). Whenever a handler looks at the clock or at something shared, time
    has passed and the other threads have run ([look]). The serve owner's
    answers, the kernel's results and the order of both are the labels of
    [ustep]; what a label may do is the kernel's contract, [complete]. *)
From S2P Require Import Prelude Bytes Lines Io Standing Cache Http Gzip Ws Static Chunked ProxyHead Fleet Interim Connect Blocking Lanes Interp UringState.

Local Open Scope Z_scope.

Definition bare (status len body : string) : bytes :=
  bs "HTTP/1.1 " ++ bs status ++ CRLF ++ bs "Content-Type: text/plain" ++ CRLF ++
  bs "Content-Length: " ++ bs len ++ CRLFCRLF ++ bs body ++ [LF].

Definition CONN_LIMIT_503 : bytes := bare "503 Service Unavailable" "36" "per-source connection limit reached".
Definition RATE_LIMIT_429 : bytes := bare "429 Too Many Requests" "20" "rate limit exceeded".
Definition SLOWLORIS_408 : bytes := bare "408 Request Timeout" "23" "request header timeout".
Definition ENOBUFS : Z := 105.

(** ** What a shard is given

    Its mode, the process configuration, the linked core's and libraries'
    functions; and what the system answers at each look: the clock, what the
    other threads did, how much of a direct send went out, whether a thread
    could be created, whether a file could be read, which descriptor a new
    socket gets. *)
Class Host := mkHost {
  zc : bool;
  amb : nat -> Ambient;
  others : nat -> Common -> Common;
  source_cap : Z;
  process_cap : Z;
  split_span : bool;
  bulk_body : bytes;
  frame_verdict : bytes -> bytes;
  braid : bool;
  gateway_selector : option Z;
  proc_env : string -> option bytes;
  effect_seam : bool;
  disk_on : bool;
  native_proxy : bool;
  native_stream : bool;
  proxy_timeout : Z;
  resolve_target : bytes -> option SockAddr;
  strip_hop_by_hop : bytes -> bytes;
  resp_gated : bytes -> bytes;
  rust_gzip : bool;
  gz_crc : bytes -> Z;
  gz_gunzip : bytes -> option bytes;
  gz_gzip : bytes -> option bytes;
  static_root : option StaticRoot;
  fs_at : nat -> filesystem;
  resolve_static : bytes -> option bytes;
  decide_static : bytes -> option bytes;
  use_splice : bool;
  sent_now : nat -> nat;
  spawn_ok : nat -> bool;
  pread_ok : nat -> bool;
  alloc : nat -> list Z -> option Z
}.

Section shard.
Context {host : Host}.

Definition look (s : Shard) : Ambient * Shard :=
  (amb (tick s), set_tick (S (tick s)) (set_common (others (tick s) (common s)) s)).

(** ** Leases, dials, closing *)

(** [BufRing::recycle]: the buffer goes behind those the kernel has. *)
Definition recycle_bid (bid : Z) (s : Shard) : Shard := if zc then set_br_ring (br_ring s ++ [bid]) s else s.
Definition count_recycle (s : Shard) : Shard := if zc then set_zc_recycle (wrapping_add 64 (zc_recycle s) 1) s else s.

Definition release_lease (i : nat) (s : Shard) : Shard :=
  match get i s with
  | Some c =>
      match u_lease c with
      | Some bid => count_recycle (recycle_bid bid (put i (set_u_lease None c) s))
      | None => s
      end
  | None => s
  end.

Definition take_proxy (i : nat) (s : Shard) : option ProxyDial * Shard :=
  match get i s with
  | Some c =>
      match u_proxy c with
      | Some d => (Some d, set_proxy_inflight (saturating_sub (proxy_inflight s) 1) (put i (set_u_proxy None c) s))
      | None => (None, s)
      end
  | None => (None, s)
  end.

(** [standing::on_close]. *)
Definition uncount (ip : IpAddr) (s : Shard) : option Shard :=
  let s1 := (look s).2 in
  t ← on_close (table (common s1)) ip; Some (set_table t s1).

Definition remove (i : nat) (s : Shard) : Shard := set_slab (slab_remove i (slab s)) s.

(** The upstream descriptor is closed when its dial is dropped. *)
Definition close (i : nat) (s : Shard) : option Shard :=
  let s1 := (take_proxy i (release_lease i s)).2 in
  match get i s1 with
  | Some c => s2 ← uncount (u_peer c) (push (QClose (u_fd c)) s1); Some (remove i s2)
  | None => Some (remove i s1)
  end.

(** The four handoffs: the thread takes the socket and the count; when it
    cannot be created both are dropped. *)
Definition handoff (i : nat) (l : Lane) (s : Shard) : option Shard :=
  match get i s with
  | None => Some s
  | Some c =>
      let s1 := remove i (take_proxy i (release_lease i s)).2 in
      let ok := spawn_ok (tick s1) in
      let s2 := (look s1).2 in
      if ok : bool then Some (set_handed (handed s2 ++ [mkHanded l (u_fd c) (u_peer c)]) s2) else uncount (u_peer c) s2
  end.

Definition h2c_handoff (i : nat) (s : Shard) : option Shard :=
  handoff i (HandH2 (from_option u_acc [] (get i s))) s.
Definition connect_handoff (i : nat) (req : bytes) (s : Shard) : option Shard := handoff i (HandConnect req) s.
Definition ws_handoff (i : nat) (head rest : bytes) (s : Shard) : option Shard := handoff i (HandWs head rest) s.
Definition proxy_handoff (i : nat) (burst : bytes) (s : Shard) : option Shard := handoff i (HandProxy burst) s.

(** ** Arming *)
Definition arm_recv (i : nat) (s : Shard) : Shard :=
  match get i s with
  | Some c => push (if zc then QRecvBr i (u_fd c) else QRecv i (u_fd c)) s
  | None => s
  end.

(** [expect("send with no response staged")] and the slice. *)
Definition send_sqe (i : nat) (c : Conn) (z : bool) : option Sqe :=
  r ← u_resp c; if (u_sent c <=? length r)%nat then Some (QSend i (u_fd c) z (drop (u_sent c) r)) else None.

Definition zc_issue (z : ZcSend) : ZcSend := mkZc (zc_issued z + 1) (zc_data z) (zc_notif_exp z) (zc_notif z) (zc_error z).

Definition push_send (i : nat) (s : Shard) : option Shard :=
  match get i s with
  | None => Some s
  | Some c =>
      let c1 := if zc then set_u_zc (zc_issue (u_zc c)) c else c in
      q ← send_sqe i c1 zc; Some (push q (put i c1 s))
  end.

(** Every place that stages bytes resets the send state the same way. *)
Definition load (r : option bytes) (c : Conn) : Conn := set_u_zc zc_clear (set_u_sent 0%nat (set_u_resp r c)).

Definition owe (fd : Z) (b : bytes) (s : Shard) : Shard := set_due (<[fd := default [] (due s !! fd) ++ b]> (due s)) s.

Definition send_staged (i : nat) (c : Conn) (r : bytes) (s : Shard) : option Shard :=
  push_send i (owe (u_fd c) r (put i (load (Some r) c) s)).

(** ** Staging a response *)
Definition split_data (sp : SplitSend) (s : Shard) : option bytes :=
  body ← match sp_body sp with
         | LeaseBody bid => if zc then Some (take (sp_body_len sp) (default [] (br_mem s !! bid))) else None
         | StaticBody => Some bulk_body
         end;
  if (length (sp_head sp) + sp_body_len sp <=? sp_sent sp)%nat then None
  else Some (drop (sp_sent sp) (sp_head sp ++ body)).

Definition push_split_send (i : nat) (s : Shard) : Shard :=
  match get i s with
  | Some c =>
      match u_split c ≫= (fun sp => split_data sp s) with
      | Some data => push (QWritev i (u_fd c) data) s
      | None => s
      end
  | None => s
  end.

(** The disposition of a head whose body follows from elsewhere. *)
Definition disposed (c : Conn) (resp : bytes) : Conn * bytes :=
  let ka := negb (u_h2c c) && u_req_ka c && response_is_self_delimited resp in
  (set_u_ka ka c, if u_h2c c then resp else annotate_connection resp ka).

Definition start_split (i : nat) (c : Conn) (sp : SplitSend) (s : Shard) : Shard :=
  let s1 := put i (set_u_split (Some sp) c) s in
  push_split_send i (owe (u_fd c) (default [] (split_data sp s1)) s1).

Definition stage_split_response (i : nat) (head : bytes) (s : Shard) : Shard :=
  match get i s with
  | None => s
  | Some c =>
      let '(c1, head1) := disposed c head in
      match u_lease c1 with
      | None => put i c1 s
      | Some bid => start_split i c1 (mkSplit head1 (LeaseBody bid) (u_req_len c1) 0) s
      end
  end.

Definition stage_static_split_response (i : nat) (head : bytes) (s : Shard) : Shard :=
  let s1 := release_lease i s in
  match get i s1 with
  | None => s1
  | Some c => let '(c1, head1) := disposed c head in start_split i c1 (mkSplit head1 StaticBody (length bulk_body) 0) s1
  end.

Definition stage_response_appended (i : nat) (resp : bytes) (s : Shard) : option Shard :=
  let s1 := release_lease i s in
  let resp1 := if rust_gzip then recompress gz_crc gz_gunzip gz_gzip resp else resp in
  match get i s1 with
  | None => Some s1
  | Some c => let '(c1, resp2) := disposed c resp1 in send_staged i c1 resp2 s1
  end.

Definition stage_response (i : nat) (resp : bytes) (split_st : bool) (s : Shard) : option Shard :=
  if split_st then Some (stage_static_split_response i resp s)
  else if split_span then
    let can_split := match get i s with
                     | Some c => bool_decide (is_Some (u_lease c)) && (0 <? u_req_len c)%nat && zc
                     | None => false
                     end in
    if can_split then Some (stage_split_response i resp s) else close i s
  else stage_response_appended i resp s.

(** ** Jobs *)
Definition submit (j : Job) (s : Shard) : bool * Shard := (gw_up s, if gw_up s then set_jobs (jobs s ++ [j]) s else s).

(** Closes the connection when the owner is gone. *)
Definition submit_or_close (i : nat) (j : Job) (s : Shard) : option Shard :=
  match submit j s with (true, s1) => Some s1 | (false, s1) => close i s1 end.

Definition sized_cfg (cfg req : bytes) : bytes := sized cfg ++ req.

(** The metered seams, for bytes the host owns. *)
Definition metered_job (i : nat) (a : Ambient) (req : bytes) (m : Meter) : Job :=
  if braid then JobServe i ServeBraided (Pooled req) (Some m)
  else match gateway_selector with
       | Some sel => JobServe i ServeGatewaySeam (Pooled (to_be_bytes 8 sel ++ req)) (Some m)
       | None => JobServe i ServeCfg (Pooled (sized_cfg (match deployment a with Some d => config_text d | None => raw_text a end) req)) (Some m)
       end.

(** The connection context; it notes the arrival. *)
Definition meter_of (c : Conn) (req : bytes) (s : Shard) : option (Meter * Shard) :=
  let '(a, s1) := look s in
  n ← active (table (common s1)) (u_peer c);
  let '(h, s2) := look s1 in
  let '(b, s3) := look s2 in
  '(t, prior) ← req_note_prior (table (common s3)) (u_peer c) (rate_limit b) (rate_window b) (a_now b);
  Some (mkMeter (client_addr req (u_peer c))
          (pack_rate_scalar (burst_cap a) (u_seq c) (secs (duration_since (a_now a) (u_start c))))
          (saturating_sub n 1) (secs (duration_since (a_now h) (u_hdr_start c))) prior,
        set_table t s3).

(** ** The static lane *)
Inductive StaticAction :=
  | ActSend (data : bytes)
  | ActSpliceIn (src : option file) (off len : Z)
  | ActSpliceOut (len : Z)
  | ActFinish (ka : bool).

Definition set_cursor (ss : StaticSend) (seg : nat) (started : bool) (bsent : nat) (off rem pb total : Z) : StaticSend :=
  mkStatic (ss_segs ss) (ss_file ss) seg started bsent off rem pb (ss_keepalive ss) (ss_head ss) total.

Definition next_seg (ss : StaticSend) : StaticSend :=
  set_cursor ss (S (ss_seg ss)) false (buf_sent ss) (win_off ss) (win_remaining ss) (pipe_bytes ss) (ss_bytes ss).

Definition start_seg (ss : StaticSend) (sg : StaticSeg) : StaticSend :=
  if seg_started ss then ss
  else match sg with
       | SegBuf _ => set_cursor ss (ss_seg ss) true 0 (win_off ss) (win_remaining ss) (pipe_bytes ss) (ss_bytes ss)
       | SegWindow off n => set_cursor ss (ss_seg ss) true (buf_sent ss) off n 0 (ss_bytes ss)
       end.

(** The next operation, past the segments that are done. *)
Fixpoint static_next (fuel : nat) (ss : StaticSend) : option (StaticSend * StaticAction) :=
  match fuel with
  | O => None
  | S fuel' =>
      match ss_segs ss !! ss_seg ss with
      | None => Some (ss, ActFinish (ss_keepalive ss))
      | Some sg =>
          let ss1 := start_seg ss sg in
          match sg with
          | SegBuf b =>
              if (buf_sent ss1 <? length b)%nat then Some (ss1, ActSend (drop (buf_sent ss1) b))
              else static_next fuel' (next_seg ss1)
          | SegWindow _ _ =>
              if 0 <? pipe_bytes ss1 then Some (ss1, ActSpliceOut (pipe_bytes ss1))
              else if 0 <? win_remaining ss1
              then Some (ss1, ActSpliceIn (ss_file ss1) (win_off ss1) (Z.min (win_remaining ss1) SPLICE_CHUNK))
              else static_next fuel' (next_seg ss1)
          end
      end
  end.

(** One entry is queued, or the plan is on the wire. *)
Definition drive_static (i : nat) (s : Shard) : option (Shard * option bool) :=
  match get i s with
  | None => Some (s, None)
  | Some c =>
      match u_static c with
      | None => Some (s, None)
      | Some ss =>
          '(ss1, act) ← static_next (S (S (length (ss_segs ss) - ss_seg ss))) ss;
          let s1 := put i (set_u_static (Some ss1) c) s in
          Some match act with
               | ActSend data => (push (QStaticSend i (u_fd c) data) s1, None)
               | ActSpliceIn src off len => (push (QSpliceIn i src off len) s1, None)
               | ActSpliceOut len => (push (QSpliceOut i (u_fd c) len) s1, None)
               | ActFinish ka => (upd i (set_u_static None) s1, Some ka)
               end
      end
  end.

(** Without splicing the windows are read into segments of their own. *)
Fixpoint materialize (ok : bool) (f : file) (segs : list StaticSeg) : option (list StaticSeg) :=
  match segs with
  | [] => Some []
  | SegBuf b :: segs' => rest ← materialize ok f segs'; Some (SegBuf b :: rest)
  | SegWindow off n :: segs' =>
      let b := window (data f) off n in
      if ok && (Z.of_nat (length b) =? n) then rest ← materialize ok f segs'; Some (SegBuf b :: rest) else None
  end.

(** ** Dispatching what has been received *)
Section dispatch.
Context (again : Shard -> option Shard).    (* [dispatch_acc], after a response that keeps the connection *)

Definition after_static (i : nat) (r : Shard * option bool) : option Shard :=
  match r with
  | (s, None) => Some s
  | (s, Some ka) => if ka : bool then again s else close i s
  end.

Definition dispatch_static (i : nat) (req : bytes) (s : Shard) : option Shard :=
  match static_root with
  | None => close i s
  | Some sr =>
      let t := tick s in
      let s1 := (look s).2 in
      match plan (fs_at t) sr resolve_static decide_static req (request_wants_keepalive req) with
      | Err _ => close i s1
      | Ok p =>
          match (if use_splice then Some (p_segs p)
                 else match p_file p with Some f => materialize (pread_ok t) f (p_segs p) | None => Some (p_segs p) end) with
          | None => close i s1
          | Some segs =>
              let ss := mkStatic segs (p_file p) 0 false 0 0 0 0 (p_keepalive p) (p_head p) 0 in
              r ← drive_static i (upd i (set_u_static (Some ss)) s1); after_static i r
          end
      end
  end.

Definition maybe_interim_100 (i : nat) (s : Shard) : Shard :=
  match get i s with
  | Some c =>
      if negb (u_interim c) && wants_interim_100 (u_acc c) then
        let out := take (sent_now (tick s)) INTERIM_100 in
        let s1 := owe (u_fd c) out (put i (set_u_interim true c) (look s).2) in
        set_wires (<[u_fd c := default [] (wires s1 !! u_fd c) ++ out]> (wires s1)) s1
      else s
  | None => s
  end.

(** A framed request that stays on the shard. *)
Definition dispatch_request (i : nat) (total : nat) (c : Conn) (s : Shard) : option Shard :=
  let req := take total (u_acc c) in
  let c1 := set_u_interim false (set_u_hdr_done true (set_u_req_ka (request_wants_keepalive req) (set_u_acc (drop total (u_acc c)) c))) in
  let s1 := put i c1 (look s).2 in
  if match static_root with Some sr => is_static_path sr req | None => false end then dispatch_static i req s1
  else if effect_seam && should_handle (fleet (common s1)) req then
    let '(a, s2) := look s1 in
    let '(step_seam, resume_seam, prefix) := seams proc_env (deployment a) in
    let msk := current_mask (fleet (common s2)) in
    match submit (JobServe i step_seam (Pooled (frame_step prefix msk req)) None) s2 with
    | (true, s3) => Some (upd i (set_u_step (Some (mkStep prefix msk req [] resume_seam (request_wants_keepalive req)))) s3)
    | (false, s3) => close i s3
    end
  else
    '(m, s2) ← meter_of c1 req s1;
    let '(a, s3) := look s2 in
    let s4 := upd i (fun c => set_u_hdr_start (a_now a) (set_u_seq (wrapping_add 64 (u_seq c) 1) c)) s3 in
    let '(b, s5) := look s4 in
    submit_or_close i (metered_job i b req m) s5.

(** Past the gates. *)
Definition dispatch_framed (i : nat) (c : Conn) (s : Shard) : option Shard :=
  if negb (u_h2c c) && (length (u_acc c) <? length H2_PREFACE)%nat && starts_with (u_acc c) H2_PREFACE then Some (arm_recv i s)
  else if negb (u_h2c c) && starts_with H2_PREFACE (u_acc c) then h2c_handoff i s
  else
    match next_request frame_verdict (u_acc c) with
    | Http.Complete n =>
        let total := Z.to_nat n in
        let req := take total (u_acc c) in
        if negb (u_hdr_done c) && opener_lacks_http_version req then close i s
        else if is_connect req then connect_handoff i req s
        else if is_ws_upgrade req then ws_handoff i req (drop total (u_acc c)) s
        else
          let '(a, s1) := look s in
          if takes_over_connection (fleet (common s1)) effect_seam (deployment a) req then proxy_handoff i (u_acc c) s1
          else dispatch_request i total c s1
    | Http.NeedMore => Some (arm_recv i (maybe_interim_100 i s))
    | Http.Oversize => close i s
    end.

Definition dispatch_turn (i : nat) (s : Shard) : option Shard :=
  match get i s with
  | None => Some s
  | Some c =>
      let '(a, s1) := look s in
      let '(b, s2) := look s1 in
      if negb (slowloris_timeout a =? 0) && negb (u_hdr_done c) && header_expired (slowloris_timeout a) (u_hdr_start c) (a_now b)
      then stage_response i SLOWLORIS_408 false s2
      else
        let '(d, s3) := look s2 in
        if negb (max_body_size d =? 0) && body_over_limit (u_acc c) (max_body_size d)
        then stage_response i BODY_413 false s3
        else dispatch_framed i c s3
  end.
End dispatch.

(** A finished response without suspension dispatches the next request on the
    same stack; each round consumes a request. *)
Fixpoint dispatch (fuel : nat) (i : nat) (s : Shard) : option Shard :=
  match fuel with
  | O => None
  | S fuel' => dispatch_turn (dispatch fuel' i) i s
  end.

Definition dispatch_acc (i : nat) (s : Shard) : option Shard :=
  dispatch (S (from_option (fun c => length (u_acc c)) 0%nat (get i s))) i s.

Definition finish_send (i : nat) (ka : bool) (s : Shard) : option Shard := if ka then dispatch_acc i s else close i s.

(** ** Receiving *)
Definition on_recv (i : nat) (r : Z) (data : bytes) (s : Shard) : option Shard :=
  if r <=? 0 then close i s
  else match get i s with
       | None => Some s
       | Some c => dispatch_acc i (put i (set_u_acc (u_acc c ++ data) c) s)
       end.

(** Nothing before or after it, and answered by one crossing. *)
Definition borrowable (a : Ambient) (f : option Fleet) (slice : bytes) : bool :=
  let is_h2c := starts_with H2_PREFACE slice || starts_with slice H2_PREFACE in
  let takes_over := is_ws_upgrade slice || is_connect slice || takes_over_connection f effect_seam (deployment a) slice in
  negb (is_h2c || takes_over) && match next_request frame_verdict slice with Http.Complete t => t =? Z.of_nat (length slice) | _ => false end.

Definition serve_borrowed (i : nat) (bid : Z) (slice : bytes) (s : Shard) : option Shard :=
  match get i s with
  | None => Some (recycle_bid bid s)
  | Some c =>
      let '(a, s1) := look s in
      '(m, s2) ← meter_of c slice s1;
      let has_cfg := (match deployment a with Some d => negb (bool_decide (config_text d = [])) | None => false end)
                     || negb (bool_decide (raw_text a = [])) in
      let '(b, s3) := look s2 in
      let c1 := set_u_interim false (set_u_hdr_start (a_now b) (set_u_hdr_done true
                  (set_u_seq (wrapping_add 64 (u_seq c) 1) (set_u_req_ka (request_wants_keepalive slice) c)))) in
      if braid || (bool_decide (gateway_selector = None) && negb has_cfg) then
        let c2 := set_u_req_len (length slice) (set_u_lease (Some bid) c1) in
        let s4 := set_zc_borrow (wrapping_add 64 (zc_borrow s3) 1) (put i c2 s3) in
        match submit (JobServe i (if braid then ServeBraided else SeamHttp) (Borrowed bid (length slice)) (Some m)) s4 with
        | (true, s5) => Some s5
        | (false, s5) => close i (count_recycle (recycle_bid bid (upd i (set_u_lease None) s5)))
        end
      else
        let '(ok, s4) := submit (metered_job i a slice m) (put i c1 s3) in
        let s5 := count_recycle (recycle_bid bid s4) in
        if ok then Some s5 else close i s5
  end.

Definition on_recv_br (i : nat) (r : Z) (bid : option Z) (s : Shard) : option Shard :=
  if r =? - ENOBUFS then Some match get i s with Some c => push (QRecv i (u_fd c)) s | None => s end
  else if r <=? 0 then close i s
  else match bid with
       | None => close i s
       | Some b =>
           match get i s with
           | None => Some (recycle_bid b s)
           | Some c =>
               let '(a, s1) := look s in
               let slice := take (Z.to_nat r) (default [] (br_mem s1 !! b)) in
               if negb zc then None
               else if bool_decide (u_acc c = []) && borrowable a (fleet (common s1)) slice then serve_borrowed i b slice s1
               else dispatch_acc i (recycle_bid b (put i (set_u_acc (u_acc c ++ slice) c) s1))
           end
       end.

(** ** The effect seam *)
Definition push_result_and_resume (i : nat) (result : bytes) (s : Shard) : option Shard :=
  match get i s with
  | None => Some s
  | Some c =>
      match u_step c with
      | None => Some s
      | Some st =>
          let st1 := mkStep (st_prefix st) (st_mask st) (st_req st) (st_results st ++ [result]) (st_resume_seam st) (st_keepalive st) in
          let j := JobServe i (st_resume_seam st) (Pooled (frame_resume (st_prefix st) (st_mask st) (st_req st) (st_results st1))) None in
          match submit j (put i (set_u_step (Some st1) c) s) with
          | (true, s1) => Some s1
          | (false, s1) => close i (upd i (set_u_step None) s1)
          end
      end
  end.

Definition defer_to_blocking (i : nat) (s : Shard) : option Shard :=
  match get i s with
  | None => Some s
  | Some c =>
      match u_step c with
      | None => Some s
      | Some st =>
          let s1 := put i (set_u_req_ka (st_keepalive st) (set_u_step None c)) s in
          if spawn_ok (tick s1) then Some (set_jobs (jobs s1 ++ [JobDefer i (st_req st)]) (look s1).2) else close i (look s1).2
      end
  end.

(** *** The upstream dial *)
Definition set_proxy_deadline (now : Z) (d : ProxyDial) : ProxyDial :=
  mkDial (up_fd d) (pd_backend d) (forward_req d) (pd_sent d) (up_acc d) (framing d) (pd_head_end d) (chunk_parser d) (chunk_fed d)
    (stream d) (stream_target d) (stream_forwarded d) (sse d) (sse_done d) (now + if sse d then 315360000000 else proxy_timeout).
Definition set_pd_sent (n : nat) (d : ProxyDial) : ProxyDial :=
  mkDial (up_fd d) (pd_backend d) (forward_req d) n (up_acc d) (framing d) (pd_head_end d) (chunk_parser d) (chunk_fed d)
    (stream d) (stream_target d) (stream_forwarded d) (sse d) (sse_done d) (op_deadline d).
Definition set_up_acc (b : bytes) (d : ProxyDial) : ProxyDial :=
  mkDial (up_fd d) (pd_backend d) (forward_req d) (pd_sent d) b (framing d) (pd_head_end d) (chunk_parser d) (chunk_fed d)
    (stream d) (stream_target d) (stream_forwarded d) (sse d) (sse_done d) (op_deadline d).
Definition set_reply (fr : ReplyFraming) (he : option nat) (p : ChunkedParser) (fed : nat) (d : ProxyDial) : ProxyDial :=
  mkDial (up_fd d) (pd_backend d) (forward_req d) (pd_sent d) (up_acc d) fr he p fed
    (stream d) (stream_target d) (stream_forwarded d) (sse d) (sse_done d) (op_deadline d).
Definition set_stream (target fwd : Z) (d : ProxyDial) : ProxyDial :=
  mkDial (up_fd d) (pd_backend d) (forward_req d) (pd_sent d) [] (framing d) (pd_head_end d) (chunk_parser d) (chunk_fed d)
    true target fwd (sse d) (sse_done d) (op_deadline d).
Definition set_sse (fin : bool) (p : ChunkedParser) (fwd : Z) (d : ProxyDial) : ProxyDial :=
  mkDial (up_fd d) (pd_backend d) (forward_req d) (pd_sent d) [] (framing d) (pd_head_end d) p (chunk_fed d)
    (stream d) (stream_target d) fwd true fin (op_deadline d).

Definition with_dial (i : nat) (d : ProxyDial) (s : Shard) : Shard := upd i (set_u_proxy (Some d)) s.
Definition dial_of (i : nat) (s : Shard) : option ProxyDial := get i s ≫= u_proxy.

(** [framing] and [head_end], once the head is complete. *)
Definition decide_framing (d : ProxyDial) : ProxyDial :=
  match pd_head_end d with
  | Some _ => d
  | None =>
      match find (up_acc d) CRLFCRLF with
      | None => d
      | Some p =>
          let he := (p + 4)%nat in
          let head := take he (up_acc d) in
          match content_length head with
          | Some clen => set_reply (Fixed (wrap USIZE (Z.of_nat he + clen))) (Some he) (chunk_parser d) (chunk_fed d) d
          | None =>
              if is_chunked head then set_reply ByChunks (Some he) (chunk_parser d) he d
              else set_reply ToEof (Some he) (chunk_parser d) (chunk_fed d) d
          end
      end
  end.

Definition reply_complete (d : ProxyDial) : option (ProxyDial * bool) :=
  let d1 := decide_framing d in
  match pd_head_end d1 with
  | None => Some (d1, false)
  | Some _ =>
      match framing d1 with
      | Fixed target => Some (d1, target <=? Z.of_nat (length (up_acc d1)))
      | ByChunks =>
          if (chunk_fed d1 <=? length (up_acc d1))%nat then
            '(p, fin) ← advance false (chunk_parser d1) (drop (chunk_fed d1) (up_acc d1));
            Some (set_reply (framing d1) (pd_head_end d1) p (length (up_acc d1)) d1, fin)
          else None
      | ToEof | Unknown => Some (d1, false)
      end
  end.

Definition stream_target_from_framing (d : ProxyDial) : Z :=
  match framing d, pd_head_end d with
  | Fixed target, Some he => saturating_sub target (Z.of_nat he)
  | _, _ => 0
  end.

(** The breaker; without a fleet nothing is recorded. *)
Definition record (ok : bool) (b : Z) (s : Shard) : Shard :=
  let s1 := (look s).2 in
  set_fleet (f ← fleet (common s1); Some (default f (if ok then record_success false f b else record_failure false f b))) s1.

Definition proxy_dial_failed (i : nat) (s : Shard) : option Shard :=
  match take_proxy i s with
  | (Some d, s1) => push_result_and_resume i bad_gateway (record false (pd_backend d) s1)
  | (None, s1) => push_result_and_resume i bad_gateway s1
  end.

Definition proxy_reply_done (i : nat) (s : Shard) : option Shard :=
  match take_proxy i s with
  | (Some d, s1) => push_result_and_resume i (up_acc d) (record true (pd_backend d) s1)
  | (None, s1) => Some s1
  end.

Definition start_proxy_dial (i : nat) (backend : Z) (req : bytes) (s : Shard) : option Shard :=
  let '(a, s1) := look s in
  match (f ← fleet (common s1); Some (addr resolve_target f backend)) with
  | None => push_result_and_resume i bad_gateway s1
  | Some (None, f1) => push_result_and_resume i bad_gateway (set_fleet (Some f1) s1)
  | Some (Some sa, f1) =>
      let s2 := set_fleet (Some f1) s1 in
      match alloc (tick s2) (open_fds s2) with
      | None => push_result_and_resume i bad_gateway (record false backend s2)
      | Some fd =>
          let s3 := (look s2).2 in
          let d := mkDial fd backend (strip_hop_by_hop req) 0 [] Unknown None chunked_new 0 false 0 0 false false (a_now a + proxy_timeout) in
          match get i s3 with
          | None => Some s3
          | Some c => Some (push (QConnect i fd sa) (set_proxy_inflight (proxy_inflight s3 + 1) (put i (set_u_proxy (Some d) c) s3)))
          end
      end
  end.

Definition on_step_reply (i : nat) (step : bytes) (s : Shard) : option Shard :=
  match decode_step step with
  | SDone resp =>
      let s1 := upd i (fun c => match u_step c with Some st => set_u_req_ka (st_keepalive st) (set_u_step None c) | None => c end) s in
      stage_response i resp false s1
  | SLookup key =>
      if disk_on then defer_to_blocking i s
      else
        let '(a, s1) := look s in
        let '(c, probe) := lookup_effect_nb (cache (common s1)) key (a_now a) in
        let s2 := set_cache c s1 in
        match probe with
        | Hit hit => push_result_and_resume i hit s2
        | Leader => push_result_and_resume i [] s2
        | Waiter => defer_to_blocking i s2
        end
  | SStore lifetime key resp =>
      if disk_on then defer_to_blocking i s
      else
        let '(a, s1) := look s in
        push_result_and_resume i [] (set_cache (Cache.store_effect (cache (common s1)) key resp lifetime (a_now a)) s1)
  | SProxy backend req => if native_proxy then start_proxy_dial i backend req s else defer_to_blocking i s
  | SShortStore | SOther => defer_to_blocking i s
  end.

Definition on_proxy_connect (i : nat) (r : Z) (s : Shard) : option Shard :=
  if r <? 0 then proxy_dial_failed i s
  else match dial_of i s with
       | None => Some s
       | Some d =>
           let '(a, s1) := look s in
           Some (push (QUpSend i (up_fd d) (forward_req d)) (with_dial i (set_proxy_deadline (a_now a) d) s1))
       end.

Definition arm_proxy_recv (i : nat) (s : Shard) : Shard :=
  match dial_of i s with
  | None => s
  | Some d => let '(a, s1) := look s in push (QUpRecv i (up_fd d)) (with_dial i (set_proxy_deadline (a_now a) d) s1)
  end.

Definition on_proxy_send (i : nat) (r : Z) (s : Shard) : option Shard :=
  if r <=? 0 then proxy_dial_failed i s
  else match dial_of i s with
       | None => Some s
       | Some d =>
           let d1 := set_pd_sent (pd_sent d + Z.to_nat r) d in
           if (pd_sent d1 <? length (forward_req d1))%nat then
             let '(a, s1) := look s in
             Some (push (QUpSend i (up_fd d) (drop (pd_sent d1) (forward_req d1))) (with_dial i (set_proxy_deadline (a_now a) d1) s1))
           else Some (arm_proxy_recv i (with_dial i d1 s))
       end.

(** *** Streaming an upstream's body through *)
Definition proxy_stream_finish (i : nat) (s : Shard) : option Shard :=
  let s1 := match take_proxy i s with
            | (Some d, s1) => record true (pd_backend d) s1
            | (None, s1) => s1
            end in
  let s2 := release_lease i s1 in
  match get i s2 with
  | None => Some s2
  | Some c => finish_send i (u_ka c) (put i (set_u_step None c) s2)
  end.

Definition proxy_sse_eof (i : nat) (s : Shard) : option Shard := proxy_stream_finish i (upd i (set_u_ka false) s).

Definition proxy_stream_forward_chunk (i : nat) (s : Shard) : option Shard :=
  match get i s with
  | None => Some s
  | Some c =>
      match u_proxy c with
      | None => Some s
      | Some d =>
          let n := Z.min (Z.of_nat (length (up_acc d))) (saturating_sub (stream_target d) (stream_forwarded d)) in
          let d1 := set_stream (stream_target d) (stream_forwarded d + n) d in
          send_staged i (set_u_proxy (Some d1) c) (take (Z.to_nat n) (up_acc d)) s
      end
  end.

Definition proxy_sse_forward_chunk (i : nat) (s : Shard) : option Shard :=
  match get i s with
  | None => Some s
  | Some c =>
      match u_proxy c with
      | None => Some s
      | Some d =>
          '(p, fin) ← (if framing d is ByChunks then advance false (chunk_parser d) (up_acc d) else Some (chunk_parser d, false));
          let d1 := set_sse (sse_done d || fin) p (stream_forwarded d + Z.of_nat (length (up_acc d))) d in
          send_staged i (set_u_proxy (Some d1) c) (up_acc d) s
      end
  end.

(** The tail of a streamed block's send. *)
Definition proxy_after_send (i : nat) (fin : bool) (s : Shard) : option Shard :=
  let s1 := upd i (load None) s in
  if fin then proxy_stream_finish i s1 else Some (arm_proxy_recv i s1).

Definition on_stream_head_reply (i : nat) (head : bytes) (s : Shard) : option Shard :=
  let s1 := upd i (set_u_await_head false) s in
  if bool_decide (head = []) then
    match dial_of i s1 with
    | None => Some s1
    | Some d =>
        '(d1, fin) ← reply_complete d;
        let s2 := with_dial i d1 s1 in
        if fin : bool then proxy_reply_done i s2 else Some (arm_proxy_recv i s2)
    end
  else
    match get i s1 with
    | None => Some s1
    | Some c =>
        let ka := u_req_ka c && negb (u_h2c c) && response_is_self_delimited head in
        let out := if u_h2c c then head else annotate_connection head ka in
        match u_proxy c with
        | None => Some s1
        | Some d =>
            let he := default (length (up_acc d)) (pd_head_end d) in
            let target := stream_target_from_framing d in
            let n := Z.min (Z.of_nat (length (up_acc d) - he)) target in
            if (length (up_acc d) <? he)%nat then None
            else send_staged i (set_u_ka ka (set_u_proxy (Some (set_stream target n d)) c))
                   (out ++ take (Z.to_nat n) (drop he (up_acc d))) s1
        end
    end.

(** [Some]: the stream was entered or refused, and the reply is handled. *)
Definition try_start_proxy_sse (i : nat) (already_done : bool) (s : Shard) : option (option Shard) :=
  if negb native_stream then Some None
  else match get i s with
  | None => Some None
  | Some c =>
      match u_proxy c with
      | None => Some None
      | Some d =>
          match pd_head_end d with
          | None => Some None
          | Some he =>
              if stream d || sse d || negb (is_event_stream (take he (up_acc d))) then Some None
              else
                let framed := match framing d with Fixed _ | ByChunks => true | _ => false end in
                let ka := u_req_ka c && negb (u_h2c c) && framed in
                match forward_response_head_gated resp_gated (take he (up_acc d)) with
                | None => s1 ← proxy_dial_failed i s; Some (Some s1)
                | Some h =>
                    let out := if u_h2c c then h else annotate_connection h ka in
                    let left := drop he (up_acc d) in
                    let d1 := set_sse already_done (chunk_parser d) (stream_forwarded d + Z.of_nat (length left)) d in
                    s1 ← send_staged i (set_u_ka ka (set_u_proxy (Some d1) c)) (out ++ left) s;
                    Some (Some s1)
                end
          end
      end
  end.

Definition stream_head_frame (req up_head : bytes) (body_len : Z) : bytes :=
  sized req ++ sized up_head ++ to_be_bytes 4 (wrap 32 body_len).

Definition try_start_proxy_stream (i : nat) (s : Shard) : option Shard :=
  if negb native_stream then None
  else
    c ← get i s;
    d ← u_proxy c;
    if stream d then None
    else
      he ← pd_head_end d;
      target ← (if framing d is Fixed t then Some t else None);
      st ← u_step c;
      let j := JobServe i ServeProxyStreamHead
                 (Pooled (stream_head_frame (st_req st) (take he (up_acc d)) (wrapping_sub USIZE target (Z.of_nat he)))) None in
      match submit j s with
      | (true, s1) => Some (upd i (set_u_await_head true) s1)
      | (false, _) => None
      end.

Definition on_proxy_recv (i : nat) (r : Z) (data : bytes) (s : Shard) : option Shard :=
  if r =? 0 then
    match dial_of i s with
    | Some d => if sse d then proxy_sse_eof i s else if stream d then proxy_stream_finish i s else proxy_reply_done i s
    | None => proxy_reply_done i s
    end
  else if r <? 0 then proxy_dial_failed i s
  else
    match dial_of i s with
    | None => Some s
    | Some d =>
        let d1 := set_up_acc (up_acc d ++ data) d in
        let s1 := with_dial i d1 s in
        if sse d then proxy_sse_forward_chunk i s1
        else if stream d then proxy_stream_forward_chunk i s1
        else
          '(d2, complete) ← reply_complete d1;
          let s2 := with_dial i d2 s1 in
          t ← try_start_proxy_sse i complete s2;
          match t with
          | Some s3 => Some s3
          | None =>
              match try_start_proxy_stream i s2 with
              | Some s3 => Some s3
              | None => if complete : bool then proxy_reply_done i s2 else Some (arm_proxy_recv i s2)
              end
          end
    end.

(** ** Sending *)
Definition on_split_send (i : nat) (r : Z) (s : Shard) : option Shard :=
  if r <=? 0 then close i s
  else match get i s with
  | None => Some s
  | Some c =>
      match u_split c with
      | None => Some s
      | Some sp =>
          let sp1 := mkSplit (sp_head sp) (sp_body sp) (sp_body_len sp) (sp_sent sp + Z.to_nat r) in
          let s1 := put i (set_u_split (Some sp1) c) s in
          if (length (sp_head sp) + sp_body_len sp <=? sp_sent sp1)%nat then
            let s2 := release_lease i s1 in
            match get i s2 with
            | None => Some s2
            | Some c2 => finish_send i (u_ka c2) (put i (set_u_split None c2) s2)
            end
          else Some (push_split_send i s1)
      end
  end.

(** Whether the completed send was a streamed block, and whether the last. *)
Definition streamed (c : Conn) : option bool :=
  match u_proxy c with
  | Some d => if sse d then Some (sse_done d) else if stream d then Some (stream_target d <=? stream_forwarded d) else None
  | None => None
  end.

Definition resp_len (c : Conn) : nat := from_option length 0%nat (u_resp c).

Definition on_send_plain (i : nat) (r : Z) (s : Shard) : option Shard :=
  if r <=? 0 then close i s
  else match get i s with
  | None => Some s
  | Some c =>
      let c1 := set_u_sent (u_sent c + Z.to_nat r)%nat c in
      let s1 := put i c1 s in
      if (u_sent c1 <? resp_len c1)%nat then q ← send_sqe i c1 false; Some (push q s1)
      else match streamed c1 with
           | Some fin => proxy_after_send i fin s1
           | None => finish_send i (u_ka c1) (put i (set_u_sent 0%nat (set_u_resp None c1)) s1)
           end
  end.

Definition finalize_zc_send (i : nat) (s : Shard) : option Shard :=
  match get i s with
  | None => Some s
  | Some c =>
      match streamed c with
      | Some fin => proxy_after_send i fin s
      | None =>
          let ok := negb (zc_error (u_zc c)) && (resp_len c <=? u_sent c)%nat in
          finish_send i (ok && u_ka c) (put i (load None c) s)
      end
  end.

Definition on_send_zc (i : nat) (r : Z) (more notif : bool) (s : Shard) : option Shard :=
  match get i s with
  | None => Some s
  | Some c =>
      let z := u_zc c in
      s1 ← (if notif then Some (put i (set_u_zc (mkZc (zc_issued z) (zc_data z) (zc_notif_exp z) (zc_notif z + 1) (zc_error z)) c) s)
            else
              let z1 := mkZc (zc_issued z) (zc_data z + 1) (zc_notif_exp z + if more then 1 else 0) (zc_notif z) (zc_error z) in
              if r <? 0 then Some (put i (set_u_zc (mkZc (zc_issued z1) (zc_data z1) (zc_notif_exp z1) (zc_notif z1) true) c) s)
              else
                let c1 := set_u_sent (u_sent c + Z.to_nat r)%nat (set_u_zc z1 c) in
                if negb (zc_error z1) && (u_sent c1 <? resp_len c1)%nat
                then q ← send_sqe i c1 true; Some (push q (put i (set_u_zc (zc_issue z1) c1) s))
                else Some (put i c1 s));
      match get i s1 with
      | None => Some s1
      | Some c1 =>
          if (zc_data (u_zc c1) =? zc_issued (u_zc c1)) && (zc_notif (u_zc c1) =? zc_notif_exp (u_zc c1))
          then finalize_zc_send i s1 else Some s1
      end
  end.

Definition on_send (i : nat) (r : Z) (more notif : bool) (s : Shard) : option Shard :=
  if match get i s with Some c => bool_decide (is_Some (u_split c)) | None => false end then on_split_send i r s
  else if zc then on_send_zc i r more notif s
  else on_send_plain i r s.

(** ** The static lane's completions *)
Definition drive (i : nat) (s : Shard) : option Shard :=
  '(s1, fin) ← drive_static i s;
  match fin with None => Some s1 | Some ka => finish_send i ka s1 end.

(** The residue of an aborted send is read off the pipe. *)
Definition close_static (i : nat) (s : Shard) : option Shard :=
  match get i s with
  | None => close i s
  | Some c =>
      let residual := from_option pipe_bytes 0 (u_static c) in
      close i (set_pipe (if use_splice then drop (Z.to_nat residual) (pipe s) else pipe s) (put i (set_u_static None c) s))
  end.

Definition on_static (f : StaticSend -> StaticSend) (i : nat) (r : Z) (s : Shard) : option Shard :=
  if r <=? 0 then close_static i s
  else drive i (upd i (fun c => set_u_static (f <$> u_static c) c) s).

Definition on_static_send (i : nat) (r : Z) : Shard -> option Shard :=
  on_static (fun ss => set_cursor ss (ss_seg ss) (seg_started ss) (buf_sent ss + Z.to_nat r)%nat (win_off ss) (win_remaining ss)
                         (pipe_bytes ss) (ss_bytes ss + r)) i r.
Definition on_splice_in (i : nat) (r : Z) : Shard -> option Shard :=
  on_static (fun ss => set_cursor ss (ss_seg ss) (seg_started ss) (buf_sent ss) (win_off ss + r) (saturating_sub (win_remaining ss) r)
                         (pipe_bytes ss + r) (ss_bytes ss)) i r.
Definition on_splice_out (i : nat) (r : Z) : Shard -> option Shard :=
  on_static (fun ss => set_cursor ss (ss_seg ss) (seg_started ss) (buf_sent ss) (win_off ss) (win_remaining ss)
                         (saturating_sub (pipe_bytes ss) r) (ss_bytes ss + r)) i r.

(** ** The serve owner's answers *)
Definition on_done (d : ShardDone) (s : Shard) : option Shard :=
  let i := done_conn d in
  if match get i s with Some c => u_await_head c | None => false end then on_stream_head_reply i (done_resp d) s
  else if match get i s with Some c => bool_decide (is_Some (u_step c)) | None => false end then on_step_reply i (done_resp d) s
  else stage_response i (done_resp d) (split_static d) s.

Fixpoint drain (n : nat) (s : Shard) : option Shard :=
  match n, mailbox s with
  | S n', d :: rest => s1 ← on_done d (set_mailbox rest s); drain n' s1
  | _, _ => Some s
  end.

Definition on_wakeup (s : Shard) : option Shard :=
  s1 ← drain (length (mailbox s)) s; Some (push QEventfd s1).

(** ** Accepting *)
Definition fresh_conn (fd : Z) (ip : IpAddr) (now : Z) : Conn :=
  mkUConn fd ip 0 now [] None None 0 zc_clear false false false false None None false now false 0 None None.

Definition on_accept (r : Z) (s : Shard) : option Shard :=
  let ip := accept_addr s in
  let s0 := push QAccept s in
  if r <? 0 then Some s0
  else if MAX_CONNS_PER_SHARD <=? live (slab s0) then Some (push (QClose r) s0)
  else
    let '(a, s1) := look s0 in
    '(t, adm) ← enter_counted (table (common s1)) ip source_cap process_cap;
    let s2 := set_table t s1 in
    if bool_decide (adm = AtProcessCap) then Some (push (QClose r) s2)
    else
      let '(b, s3) := look s2 in
      '(t', over_rate) ← rate_note (table (common s3)) ip (rate_limit b) (rate_window b) (a_now a);
      '(sl, i) ← slab_insert (fresh_conn r ip (a_now a)) (slab s3);
      let s4 := set_wires (<[r := []]> (wires s3)) (set_due (<[r := []]> (due s3)) (set_slab sl (set_table t' s3))) in
      if bool_decide (adm = OverSourceCap) then stage_response i CONN_LIMIT_503 false s4
      else if over_rate : bool then stage_response i RATE_LIMIT_429 false s4
      else Some (arm_recv i s4).

(** ** Upstream deadlines *)
Definition expired (now : Z) (s : Shard) : list nat :=
  filter (fun i => (if dial_of i s is Some d then op_deadline d <=? now else false) = true) (seq 0 (length (conns (slab s)))).

Definition sweep_slot (i : nat) (s : Shard) : option Shard :=
  if match dial_of i s with Some d => stream d | None => false end then close i s else proxy_dial_failed i s.

Definition sweep_proxy_timeouts (s : Shard) : option Shard :=
  if proxy_inflight s =? 0 then Some s
  else
    let '(a, s1) := look s in
    foldl (fun acc i => x ← acc; sweep_slot i x) (Some s1) (expired (a_now a) s1).

(** ** The kernel and the loop *)
Inductive Outcome :=
  | KFail (e : Z) (more : bool)               (* [-e] *)
  | KBytes (b : bytes)                        (* received, or end of stream *)
  | KMoved (n : nat) (more : bool)            (* sent or spliced *)
  | KDone.

Definition wire_to (fd : Z) (b : bytes) (s : Shard) : Shard := set_wires (<[fd := default [] (wires s !! fd) ++ b]> (wires s)) s.
Definition post (q : Sqe) (r : Z) (bid : option Z) (more : bool) (b : bytes) (s : Shard) : Shard :=
  set_cq (cq s ++ [mkCqe (user_data q) r bid more false b]) s.

(** What the kernel may make of an entry: bytes go out in order from the front,
    a received block is not larger than asked for, a provided buffer is lent
    with a block, only a zero-copy send promises a notification, an accepted
    socket has a descriptor that was not in use. *)
Definition complete (q : Sqe) (o : Outcome) (s : Shard) : option Shard :=
  match q, o with
  | QSend i _ z _, KFail e more =>
      if (0 <? e) && implb more z
      then Some (post q (- e) None more [] (if more then set_owed (owed s ++ [i]) s else s)) else None
  | _, KFail e more => if (0 <? e) && negb more then Some (post q (- e) None false [] s) else None
  | QAccept, KMoved f more =>
      let fd := Z.of_nat f in
      if bool_decide (fd ∈ open_fds s) || more then None else Some (post q fd None false [] s)
  | QEventfd, KDone => Some (post q 8 None false [] s)
  | QRecv _ _, KBytes b | QUpRecv _ _, KBytes b =>
      if (length b <=? RECV_CHUNK)%nat then Some (post q (Z.of_nat (length b)) None false b s) else None
  | QRecvBr _ _, KBytes [] => Some (post q 0 None false [] s)
  | QRecvBr _ _, KBytes b =>
      match br_ring s with
      | bid :: rest =>
          if (length b <=? RECV_CHUNK)%nat
          then Some (post q (Z.of_nat (length b)) (Some bid) false [] (set_br_mem (<[bid := b]> (br_mem s)) (set_br_ring rest s)))
          else None
      | [] => None
      end
  | QSend i fd z data, KMoved n more =>
      if (n <=? length data)%nat && implb more z
      then Some (post q (Z.of_nat n) None more [] (wire_to fd (take n data) (if more then set_owed (owed s ++ [i]) s else s)))
      else None
  | QWritev _ fd data, KMoved n false | QStaticSend _ fd data, KMoved n false =>
      if (n <=? length data)%nat then Some (post q (Z.of_nat n) None false [] (wire_to fd (take n data) s)) else None
  | QClose _, KDone => Some (post q 0 None false [] s)
  | QConnect _ _ _, KDone => Some (post q 0 None false [] s)
  | QUpSend _ _ data, KMoved n false => if (n <=? length data)%nat then Some (post q (Z.of_nat n) None false [] s) else None
  | QSpliceIn _ (Some f) off len, KMoved n false =>
      let b := window (data f) off (Z.of_nat n) in
      if (Z.of_nat n <=? len) && (n =? length b)%nat
      then Some (post q (Z.of_nat n) None false [] (set_pipe (pipe s ++ b) s)) else None
  | QSpliceOut _ fd len, KMoved n false =>
      if (Z.of_nat n <=? len) && (n <=? length (pipe s))%nat
      then Some (post q (Z.of_nat n) None false [] (set_pipe (drop n (pipe s)) (wire_to fd (take n (pipe s)) s))) else None
  | _, _ => None
  end.

Definition handle (e : Cqe) (s : Shard) : option Shard :=
  let t := cqe_tag e in
  let i := cqe_slot e in
  if t =? TAG_ACCEPT then on_accept (res e) s
  else if t =? TAG_EVENTFD then on_wakeup s
  else if t =? TAG_RECV then on_recv i (res e) (cq_data e) s
  else if t =? TAG_RECV_BR then on_recv_br i (res e) (cq_bid e) s
  else if t =? TAG_SEND then on_send i (res e) (cq_more e) (cq_notif e) s
  else if t =? TAG_PROXY_CONNECT then on_proxy_connect i (res e) s
  else if t =? TAG_PROXY_SEND then on_proxy_send i (res e) s
  else if t =? TAG_PROXY_RECV then on_proxy_recv i (res e) (cq_data e) s
  else if t =? TAG_STATIC_SEND then on_static_send i (res e) s
  else if t =? TAG_SPLICE_IN then on_splice_in i (res e) s
  else if t =? TAG_SPLICE_OUT then on_splice_out i (res e) s
  else Some s.

Inductive Label :=
  | LFlush                                    (* [flush]: the backlog goes to the kernel *)
  | LKernel (k : nat) (o : Outcome)           (* the [k]-th submitted entry completes *)
  | LNotif (k : nat)                          (* the [k]-th promised notification is posted *)
  | LHandle                                   (* the next completion is handled *)
  | LAnswer (k : nat) (resp : bytes) (split_st : bool)   (* the [k]-th job is answered *)
  | LPeer (ip : IpAddr)                       (* the address the coming accept reports *)
  | LOwnerGone
  | LReturn (k : nat)                         (* a thread that took a connection over returns *)
  | LSweep
  | LPrune.                                   (* idle rate windows are reclaimed *)

Definition ustep (l : Label) (s : Shard) : option Shard :=
  match l with
  | LFlush => Some (set_backlog [] (set_submitted (submitted s ++ backlog s) s))
  | LKernel k o => q ← submitted s !! k; complete q o (set_submitted (delete k (submitted s)) s)
  | LNotif k =>
      i ← owed s !! k;
      Some (set_cq (cq s ++ [mkCqe (Z.lor TAG_SEND (Z.of_nat i)) 0 None false true []]) (set_owed (delete k (owed s)) s))
  | LHandle => match cq s with e :: rest => handle e (set_cq rest s) | [] => None end
  | LAnswer k resp split_st =>
      j ← jobs s !! k;
      (* the answer to a split crossing is a response head *)
      if split_st && bool_decide (resp = []) then None
      else Some (set_mailbox (mailbox s ++ [mkDone (job_slot j) resp split_st]) (set_jobs (delete k (jobs s)) s))
  | LPeer ip => if existsb (fun q => if q is QAccept then true else false) (submitted s) then Some (set_accept_addr ip s) else None
  | LOwnerGone => Some (set_gw_up false s)
  | LReturn k =>
      h ← handed s !! k;
      uncount (h_ip h) (set_handed (delete k (handed s)) s)
  | LSweep => sweep_proxy_timeouts s
  | LPrune => let '(a, s1) := look s in Some (set_table (rate_prune (table (common s1)) (rate_window a) (a_now a)) s1)
  end.

(** The ring is primed with an accept and a read of the eventfd. *)
Definition shard_init (c0 : Common) (n : nat) : Shard :=
  mkShard (mkSlab [] []) [QAccept; QEventfd] 0 0 c0 true [] [] [] [] [] (if zc then seqZ 0 (Z.of_nat n) else []) ∅ (V4 0) [] ∅ ∅ [] 0 0.
End shard.
