(* ===== verification/UringInv.v ===== *)
(** * Who owns what on a shard

    Slots of the shard's slab carry no generation, completions are routed by
    slot alone, and a slot is reused as soon as it is freed. What makes that
    sound is a discipline: of every connection exactly one thing is outstanding
    at any time (a receive, a job with the serve owner, a send with its
    notifications, a gather write, a step of a file transfer, a step of an
    upstream dial), and of a freed slot nothing. [slot_ok] says what may be
    outstanding in which state of a connection and how much of what was staged
    is still to be sent; [glob] that every provided buffer, every descriptor,
    every count of a source and of a dial has exactly one owner. [But i] is the
    invariant while the completion for slot [i] is being handled. *)
From S2P Require Import Prelude Bytes Lines Io Standing Cache Http Gzip Ws Static Chunked ProxyHead Fleet Interim Connect Blocking Lanes Interp Accept Counts UringState Uring.

Local Open Scope Z_scope.

(** ** Routing: [user_data] gives back the tag and the slot *)
Lemma tag_slot_decode t i : 0 <= t < 2 ^ 32 -> 0 <= i < 2 ^ 32 ->
  Z.land (Z.lor (Z.shiftl t 32) i) TAG_MASK = Z.shiftl t 32 /\ Z.land (Z.lor (Z.shiftl t 32) i) SLOT_MASK = i.
Proof.
  intros Ht Hi. assert (forall k, 32 <= k -> Z.testbit i k = false) as Hb.
  { intros k Hk. destruct (Z.eq_dec i 0) as [->|]; [apply Z.bits_0|]. apply Z.bits_above_log2; [lia|].
    apply Z.log2_lt_pow2; [lia|]. pose proof (Z.pow_le_mono_r 2 32 k). lia. }
  assert (forall k, 32 <= k -> Z.testbit t k = false) as Hc.
  { intros k Hk. destruct (Z.eq_dec t 0) as [->|]; [apply Z.bits_0|]. apply Z.bits_above_log2; [lia|].
    apply Z.log2_lt_pow2; [lia|]. pose proof (Z.pow_le_mono_r 2 32 k). lia. }
  unfold TAG_MASK, SLOT_MASK. change 0xffffffff with (Z.ones 32). split; apply Z.bits_inj'; intros k Hk;
    rewrite Z.land_spec, Z.lor_spec, ?Z.shiftl_spec by lia.
  - destruct (decide (k < 32)); [rewrite !(Z.testbit_neg_r _ (k - 32)) by lia; by rewrite andb_false_r|].
    rewrite Hb, orb_false_r by lia. destruct (decide (k - 32 < 32)); [rewrite Z.ones_spec_low by lia; apply andb_true_r|].
    by rewrite Hc by lia.
  - destruct (decide (k < 32)); [rewrite Z.ones_spec_low, (Z.testbit_neg_r t) by lia; by rewrite andb_true_r|].
    by rewrite Z.ones_spec_high, Hb, andb_false_r by lia.
Qed.

Lemma user_data_decode q r b m n d : Z.of_nat (sqe_slot q) < 2 ^ 32 ->
  cqe_tag (mkCqe (user_data q) r b m n d) = sqe_tag q /\ cqe_slot (mkCqe (user_data q) r b m n d) = sqe_slot q.
Proof.
  intros H. unfold cqe_tag, cqe_slot, user_data. cbn [ud].
  assert (exists t, sqe_tag q = Z.shiftl t 32 /\ 0 <= t < 2 ^ 32) as (t & -> & Ht) by (destruct q; eexists; split; (done || lia)).
  destruct (tag_slot_decode t (Z.of_nat (sqe_slot q))) as [-> ->]; [lia|lia|]. by rewrite Nat2Z.id.
Qed.

Lemma notif_decode i r b m n d : Z.of_nat i < 2 ^ 32 ->
  cqe_tag (mkCqe (Z.lor TAG_SEND (Z.of_nat i)) r b m n d) = TAG_SEND /\ cqe_slot (mkCqe (Z.lor TAG_SEND (Z.of_nat i)) r b m n d) = i.
Proof.
  intros H. unfold cqe_tag, cqe_slot. cbn [ud]. unfold TAG_SEND. destruct (tag_slot_decode 4 (Z.of_nat i)) as [-> ->]; [lia|lia|].
  by rewrite Nat2Z.id.
Qed.

(** ** Indicators *)
Definition one (b : bool) : Z := if b then 1 else 0.
Definition is_z (z w : Z) : Z := one (z =? w).
Definition is_opt (z : Z) (o : option Z) : Z := from_option (is_z z) 0 o.

Lemma one_nonneg b : 0 <= one b.
Proof. by destruct b. Qed.
Lemma is_z_nonneg z w : 0 <= is_z z w.
Proof. apply one_nonneg. Qed.
Lemma is_opt_nonneg z o : 0 <= is_opt z o.
Proof. destruct o; [apply is_z_nonneg|done]. Qed.
#[export] Hint Resolve one_nonneg is_z_nonneg is_opt_nonneg : dn.

(** ** What is outstanding for a slot *)
Inductive Tok :=
  | TQ (q : Sqe)          (* queued or with the kernel *)
  | TC (e : Cqe)          (* completed, not yet handled *)
  | TN                    (* a promised notification *)
  | TJ (j : Job)          (* with the serve owner *)
  | TM (d : ShardDone).   (* in the mailbox *)

Definition sqe_conn (q : Sqe) : bool := match q with QAccept | QEventfd | QClose _ => false | _ => true end.
Definition cqe_conn (e : Cqe) : bool :=
  negb ((cqe_tag e =? TAG_ACCEPT) || (cqe_tag e =? TAG_EVENTFD) || (cqe_tag e =? TAG_CLOSE)).

Definition sqe_tok (i : nat) (q : Sqe) : option Tok := if sqe_conn q && (sqe_slot q =? i)%nat then Some (TQ q) else None.
Definition cqe_tok (i : nat) (e : Cqe) : option Tok := if cqe_conn e && (cqe_slot e =? i)%nat then Some (TC e) else None.
Definition note_tok (i j : nat) : option Tok := if (j =? i)%nat then Some TN else None.
Definition job_tok (i : nat) (j : Job) : option Tok := if (job_slot j =? i)%nat then Some (TJ j) else None.
Definition done_tok (i : nat) (d : ShardDone) : option Tok := if (done_conn d =? i)%nat then Some (TM d) else None.

Definition toks (i : nat) (s : Shard) : list Tok :=
  omap (sqe_tok i) (backlog s) ++ omap (sqe_tok i) (submitted s) ++ omap (cqe_tok i) (cq s) ++ omap (note_tok i) (owed s) ++
  omap (job_tok i) (jobs s) ++ omap (done_tok i) (mailbox s).

Ltac usimpl := cbn [slab backlog proxy_inflight tick common gw_up jobs mailbox submitted owed cq br_ring br_mem accept_addr pipe wires due
  handed zc_borrow zc_recycle set_slab set_backlog set_proxy_inflight set_tick set_common set_gw_up set_jobs set_mailbox set_submitted
  set_owed set_cq set_br_ring set_br_mem set_accept_addr set_pipe set_wires set_due set_handed set_zc_borrow set_zc_recycle
  UringState.set_table UringState.set_cache UringState.set_fleet table cache fleet put push conns sl_free] in *.

(** The buffers of the ring, the connections the other threads count. *)
Class World := mkWorld { nbufs : nat; theirs : nat -> IpAddr -> Z }.

(** *** Per phase *)
Section phases.
Context {host : Host} {world : World}.

Definition is_recv (i : nat) (c : Conn) (t : Tok) : Prop :=
  match t with
  | TQ q => q = QRecv i (u_fd c) \/ (zc = true /\ q = QRecvBr i (u_fd c))
  | TC e => cqe_tag e = TAG_RECV /\ cq_bid e = None \/
            cqe_tag e = TAG_RECV_BR /\ zc = true /\ (res e <= 0 -> cq_bid e = None) /\ (res e > 0 -> is_Some (cq_bid e))
  | _ => False
  end.

(** The dial has not begun to stream. *)
Definition dial_plain (d : ProxyDial) : Prop :=
  stream d = false /\ sse d = false /\ parser_ok (chunk_parser d) /\
  (forall he, pd_head_end d = Some he -> (he <= length (up_acc d))%nat) /\
  (framing d = ByChunks -> (chunk_fed d <= length (up_acc d))%nat).
Definition dial_streams (d : ProxyDial) : Prop := native_stream = true /\ (stream d = true \/ sse d = true) /\ parser_ok (chunk_parser d).

Definition is_dial (i : nat) (c : Conn) (d : ProxyDial) (t : Tok) : Prop :=
  match t with
  | TQ q => match q with QConnect j f _ | QUpSend j f _ | QUpRecv j f => j = i /\ f = up_fd d | _ => False end /\
            (dial_plain d \/ dial_streams d /\ q = QUpRecv i (up_fd d))
  | TC e => cq_bid e = None /\
            ((cqe_tag e = TAG_PROXY_CONNECT \/ cqe_tag e = TAG_PROXY_SEND) /\ dial_plain d \/
             cqe_tag e = TAG_PROXY_RECV /\ (dial_plain d \/ dial_streams d))
  | _ => False
  end.

(** What the core is asked when an effect's result has been recorded. *)
Definition replays (i : nat) (st : StepState) (j : Job) : Prop :=
  (st_results st = [] /\ exists seam, j = JobServe i seam (Pooled (frame_step (st_prefix st) (st_mask st) (st_req st))) None) \/
  j = JobServe i (st_resume_seam st) (Pooled (frame_resume (st_prefix st) (st_mask st) (st_req st) (st_results st))) None.

Definition is_serve (i : nat) (c : Conn) (t : Tok) : Prop :=
  match t with
  | TJ j => (forall bid len seam m, j = JobServe i seam (Borrowed bid len) m -> u_lease c = Some bid) /\
            match u_step c with Some st => u_await_head c = false -> replays i st j | None => True end
  | TM d => split_static d = true -> done_resp d <> []
  | _ => False
  end /\
  (is_Some (u_step c) -> u_lease c = None) /\
  if u_await_head c then exists d, u_proxy c = Some d /\ dial_plain d /\ is_Some (u_step c) /\ native_stream = true else u_proxy c = None.

Definition is_note (t : Tok) : Prop :=
  match t with TN => True | TC e => cqe_tag e = TAG_SEND /\ cq_notif e = true /\ cq_bid e = None | _ => False end.

Definition promised (t : Tok) : Z := match t with TC e => one (cq_more e) | _ => 0 end.

(** A send from offset [sent] of [r]; [left] is what is still to go out. *)
Definition is_data (z : bool) (i : nat) (fd : Z) (r : bytes) (sent : nat) (t : Tok) (left : bytes) : Prop :=
  match t with
  | TQ q => q = QSend i fd z (drop sent r) /\ left = drop sent r
  | TC e => cqe_tag e = TAG_SEND /\ cq_notif e = false /\ cq_bid e = None /\ (cq_more e = true -> z = true) /\
            res e <= Z.of_nat (length r - sent) /\ left = drop (sent + Z.to_nat (Z.max 0 (res e))) r
  | _ => False
  end.

(** At most one send is with the kernel, and every promise is accounted for. *)
Definition sends (i : nat) (c : Conn) (r : bytes) (T : list Tok) (left : bytes) : Prop :=
  (u_sent c <= length r)%nat /\
  if zc then exists D N, T ≡ₚ D ++ N /\ T <> [] /\ Forall is_note N /\
    zc_notif_exp (u_zc c) + tot promised D = zc_notif (u_zc c) + Z.of_nat (length N) /\
    match D with
    | [] => zc_issued (u_zc c) = zc_data (u_zc c) /\ left = drop (u_sent c) r /\ (zc_error (u_zc c) = true \/ (length r <= u_sent c)%nat)
    | [t] => zc_issued (u_zc c) = zc_data (u_zc c) + 1 /\ zc_error (u_zc c) = false /\ is_data true i (u_fd c) r (u_sent c) t left
    | _ => False
    end
  else exists t, T = [t] /\ is_data false i (u_fd c) r (u_sent c) t left.

Definition split_body (mem : gmap Z bytes) (sp : SplitSend) : bytes :=
  match sp_body sp with LeaseBody bid => take (sp_body_len sp) (default [] (mem !! bid)) | StaticBody => bulk_body end.

Definition is_gather (mem : gmap Z bytes) (i : nat) (c : Conn) (sp : SplitSend) (t : Tok) (left : bytes) : Prop :=
  let whole := sp_head sp ++ split_body mem sp in
  (sp_sent sp < length (sp_head sp) + sp_body_len sp)%nat /\
  (forall bid, sp_body sp = LeaseBody bid -> u_lease c = Some bid /\ zc = true) /\
  (sp_body sp = StaticBody -> sp_body_len sp = length bulk_body) /\
  match t with
  | TQ q => q = QWritev i (u_fd c) (drop (sp_sent sp) whole) /\ left = drop (sp_sent sp) whole
  | TC e => cqe_tag e = TAG_SEND /\ cq_notif e = false /\ cq_bid e = None /\ left = drop (sp_sent sp + Z.to_nat (Z.max 0 (res e))) whole
  | _ => False
  end.

Definition is_static (i : nat) (c : Conn) (t : Tok) : Prop :=
  match t with
  | TQ q => match q with QStaticSend j f _ | QSpliceOut j f _ => j = i /\ f = u_fd c | QSpliceIn j _ _ _ => j = i | _ => False end
  | TC e => (cqe_tag e = TAG_STATIC_SEND \/ cqe_tag e = TAG_SPLICE_IN \/ cqe_tag e = TAG_SPLICE_OUT) /\ cq_bid e = None
  | _ => False
  end.

(** Nothing of the other lanes is in progress. *)
Definition no_lane (c : Conn) : Prop := u_split c = None /\ u_static c = None.
Definition no_effect (c : Conn) : Prop := u_await_head c = false /\ u_proxy c = None /\ u_step c = None.

Definition idle (c : Conn) : Prop := no_lane c /\ no_effect c /\ u_lease c = None.

(** A response may follow: no dial, or one that streams. *)
Definition may_send (c : Conn) : Prop :=
  u_lease c = None /\
  (u_proxy c = None /\ u_step c = None \/ (exists d, u_proxy c = Some d /\ dial_streams d) /\ is_Some (u_step c)).

Inductive slot_ok (mem : gmap Z bytes) (i : nat) (c : Conn) : list Tok -> bytes -> Prop :=
  | S_recv t : idle c -> is_recv i c t -> slot_ok mem i c [t] []
  | S_serve t : no_lane c -> is_serve i c t -> slot_ok mem i c [t] []
  | S_send r T left : no_lane c -> u_await_head c = false -> u_resp c = Some r -> may_send c ->
      sends i c r T left -> slot_ok mem i c T left
  | S_split sp t left : u_split c = Some sp -> u_static c = None -> no_effect c -> is_gather mem i c sp t left -> slot_ok mem i c [t] left
  | S_static t left : u_split c = None -> is_Some (u_static c) -> is_Some static_root -> no_effect c -> u_lease c = None -> is_static i c t -> slot_ok mem i c [t] left
  | S_dial d t : no_lane c -> u_await_head c = false -> u_proxy c = Some d -> is_Some (u_step c) -> u_lease c = None -> is_dial i c d t ->
      slot_ok mem i c [t] [].

(** ** What the shard owns *)
Definition own (g : Conn -> Z) (s : Shard) : Z := tot (from_option g 0) (conns (slab s)).

Definition slab_ok (sl : Slab) : Prop :=
  NoDup (sl_free sl) /\ (forall i, i ∈ sl_free sl <-> conns sl !! i = Some None) /\ Z.of_nat (length (conns sl)) <= MAX_CONNS_PER_SHARD.

Definition fds_of (f : Z) (c : Conn) : Z := is_z f (u_fd c) + from_option (fun d => is_z f (up_fd d)) 0 (u_proxy c).
Definition closes (f : Z) (q : Sqe) : Z := match q with QClose g => is_z f g | _ => 0 end.
Definition accepts (f : Z) (e : Cqe) : Z := if (cqe_tag e =? TAG_ACCEPT) && (0 <=? res e) then is_z f (res e) else 0.
Definition h_has (f : Z) (h : Handed) : Z := is_z f (h_fd h).
Definition h_from (ip : IpAddr) (h : Handed) : Z := at_source ip (h_ip h).
Definition lent (b : Z) (e : Cqe) : Z := if cqe_tag e =? TAG_RECV_BR then is_opt b (cq_bid e) else 0.
Definition leases (b : Z) (c : Conn) : Z := is_opt b (u_lease c).
Definition has_dial (c : Conn) : Z := from_option (fun _ => 1) 0 (u_proxy c).
Definition from_ip (ip : IpAddr) (c : Conn) : Z := at_source ip (u_peer c).

Definition queued (g : Sqe -> Z) (s : Shard) : Z := tot g (backlog s) + tot g (submitted s).

Definition all_bids : list Z := if zc then seqZ 0 (Z.of_nat nbufs) else [].

(** [x]: a lent buffer, [y]: an accepted descriptor the handler at work holds. *)
Record glob (x y : list Z) (s : Shard) : Prop := {
  g_bids b : tot (is_z b) (br_ring s) + tot (lent b) (cq s) + own (leases b) s + tot (is_z b) x
             = tot (is_z b) all_bids;
  g_fds f : own (fds_of f) s + queued (closes f) s + tot (accepts f) (cq s) + tot (h_has f) (handed s) + tot (is_z f) y <= 1;
  g_dials : proxy_inflight s = own has_dial s;
  g_counts : counts (table (common s)) (fun ip => own (from_ip ip) s + tot (h_from ip) (handed s) + theirs (tick s) ip)
}.

(** Outstanding accepts and reads of the eventfd. *)
Definition armed (q : Sqe) (s : Shard) : Z :=
  queued (fun q' => one (sqe_tag q' =? sqe_tag q)) s + tot (fun e => one (cqe_tag e =? sqe_tag q)) (cq s).

Definition wire_of (fd : Z) (s : Shard) : bytes := default [] (wires s !! fd).
Definition due_of (fd : Z) (s : Shard) : bytes := default [] (due s !! fd).

(** Bytes go out as staged, except on two paths: a file transfer stages
    nothing, and a failed zero-copy send of a streamed block is passed over
    (below, [lost_block]). *)
Definition exact_wire : Prop := static_root = None /\ (zc = true -> native_stream = false).

Definition good_slot (s : Shard) (i : nat) (c : Conn) : Prop :=
  exists left, slot_ok (br_mem s) i c (toks i s) left /\ (exact_wire -> wire_of (u_fd c) s ++ left = due_of (u_fd c) s).

(** [ev]: reads of the eventfd outstanding. *)
Record Inv (ev : Z) (s : Shard) : Prop := {
  i_slab : slab_ok (slab s);
  i_glob : glob [] [] s;
  i_accept : armed QAccept s = 1;
  i_eventfd : armed QEventfd s = ev;
  i_slots i c : get i s = Some c -> good_slot s i c;
  i_dead i : get i s = None -> toks i s = []
}.

(** Slot [i] is being handled: nothing is outstanding for it, [left] of what
    was staged is not sent. *)
Record But (ev : Z) (i : nat) (c : Conn) (left : bytes) (x : list Z) (s : Shard) : Prop := {
  b_slab : slab_ok (slab s);
  b_glob : glob x [] s;
  b_accept : armed QAccept s = 1;
  b_eventfd : armed QEventfd s = ev;
  b_get : get i s = Some c;
  b_toks : toks i s = [];
  b_wire : exact_wire -> wire_of (u_fd c) s ++ left = due_of (u_fd c) s;
  b_slots j c' : j <> i -> get j s = Some c' -> good_slot s j c';
  b_dead j : get j s = None -> toks j s = []
}.

(** What the shard relies on: the other threads count what they hold, the
    ceiling is set, descriptors are fresh, the framer makes progress. *)
Class HostOk : Prop := {
  ho_theirs n ip : 0 <= theirs n ip;
  ho_others n cm h : (forall ip, 0 <= h ip) -> counts (table cm) (fun ip => h ip + theirs n ip) ->
    counts (table (others n cm)) (fun ip => h ip + theirs (S n) ip);
  ho_cap : 0 < process_cap < TABLE_MAX;
  ho_alloc n l f : alloc n l = Some f -> f ∉ l;
  ho_framer : framer_ok frame_verdict
}.

(** ** Updates *)
Lemma get_put i c s j : (i < length (conns (slab s)))%nat -> get j (put i c s) = if decide (j = i) then Some c else get j s.
Proof.
  intros H. unfold get. usimpl. case_decide as E; [subst j; by rewrite list_lookup_insert_eq|by rewrite list_lookup_insert_ne by congruence].
Qed.

Lemma get_holds i s c : get i s = Some c <-> conns (slab s) !! i = Some (Some c).
Proof. unfold get. destruct (conns (slab s) !! i) as [[c'|]|]; cbn; naive_solver. Qed.

Lemma get_lt i s c : get i s = Some c -> (i < length (conns (slab s)))%nat.
Proof. rewrite get_holds. apply lookup_lt_Some. Qed.

Lemma get_put_eq i c c0 s : get i s = Some c0 -> get i (put i c s) = Some c.
Proof. intros H%get_lt. rewrite get_put by done. by rewrite decide_True. Qed.

Lemma own_put g i c c' s : get i s = Some c -> own g (put i c' s) = own g s - g c + g c'.
Proof. intros H%get_holds. unfold own. usimpl. by rewrite (tot_insert _ _ _ _ (Some c') H). Qed.

Lemma own_nonneg g s : (forall c, 0 <= g c) -> 0 <= own g s.
Proof. intros H. apply tot_nonneg. intros [c|]; cbn; [apply H|done]. Qed.

Lemma own_get g i c s : (forall c, 0 <= g c) -> get i s = Some c -> g c <= own g s.
Proof.
  intros H Hi%get_holds. unfold own. apply (tot_own (from_option g 0) _ i (Some c)); [|done]. intros [c'|]; cbn; [apply H|done].
Qed.

Lemma own_two g i j c d s : (forall c, 0 <= g c) -> i <> j -> get i s = Some c -> get j s = Some d -> g c + g d <= own g s.
Proof.
  intros H Hij Hi%get_holds Hj%get_holds. apply (tot_two (from_option g 0) _ i j (Some c) (Some d)); [|done..]. intros [c'|]; cbn; [apply H|done].
Qed.

Lemma fds_of_nonneg f c : 0 <= fds_of f c.
Proof. unfold fds_of. pose proof (is_z_nonneg f (u_fd c)). destruct (u_proxy c); cbn; [pose proof (is_z_nonneg f (up_fd p))|]; lia. Qed.
Lemma closes_nonneg f q : 0 <= closes f q.
Proof. destruct q; cbn; try done. apply is_z_nonneg. Qed.
Lemma accepts_nonneg f e : 0 <= accepts f e.
Proof. unfold accepts. destruct (_ && _); [apply is_z_nonneg|done]. Qed.
Lemma has_dial_nonneg c : 0 <= has_dial c.
Proof. by unfold has_dial; destruct (u_proxy c). Qed.
Lemma h_has_nonneg f h : 0 <= h_has f h.
Proof. apply is_z_nonneg. Qed.
Lemma h_from_nonneg ip h : 0 <= h_from ip h.
Proof. apply at_source_nonneg. Qed.
Lemma from_ip_nonneg ip c : 0 <= from_ip ip c.
Proof. apply at_source_nonneg. Qed.
Lemma lent_nonneg b e : 0 <= lent b e.
Proof. unfold lent. destruct (_ =? _); [apply is_opt_nonneg|done]. Qed.
Lemma leases_nonneg b c : 0 <= leases b c.
Proof. apply is_opt_nonneg. Qed.
#[local] Hint Resolve h_has_nonneg h_from_nonneg from_ip_nonneg lent_nonneg leases_nonneg fds_of_nonneg closes_nonneg accepts_nonneg has_dial_nonneg at_source_nonneg tot_nonneg own_nonneg : dn.

Lemma queued_nonneg g s : (forall q, 0 <= g q) -> 0 <= queued g s.
Proof. intros H. unfold queued. pose proof (tot_nonneg g (backlog s) H). pose proof (tot_nonneg g (submitted s) H). lia. Qed.

Lemma is_z_refl f : is_z f f = 1.
Proof. unfold is_z. by rewrite Z.eqb_refl. Qed.

Lemma fds_own c : 1 <= fds_of (u_fd c) c.
Proof. unfold fds_of. rewrite is_z_refl. destruct (u_proxy c) as [p|]; cbn; [pose proof (is_z_nonneg (u_fd c) (up_fd p))|]; lia. Qed.

(** Different connections have different sockets. *)
Lemma fd_distinct x y s i j c d : glob x y s -> i <> j -> get i s = Some c -> get j s = Some d -> u_fd c <> u_fd d.
Proof.
  intros Hg Hij Hi Hj E. pose proof (g_fds _ _ _ Hg (u_fd c)) as Hf.
  pose proof (own_two (fds_of (u_fd c)) i j c d s ltac:(auto with dn) Hij Hi Hj) as H2.
  pose proof (queued_nonneg (closes (u_fd c)) s ltac:(auto with dn)). pose proof (tot_nonneg (accepts (u_fd c)) (cq s) ltac:(auto with dn)).
  pose proof (tot_nonneg (h_has (u_fd c)) (handed s) ltac:(auto with dn)). pose proof (tot_nonneg (is_z (u_fd c)) y ltac:(auto with dn)).
  pose proof (fds_own c) as Hc. pose proof (fds_own d) as Hd. rewrite <- E in Hd. lia.
Qed.

(** What the invariant reads of a state. *)
Definition alike (s s' : Shard) : Prop :=
  slab s' = slab s /\ backlog s' = backlog s /\ submitted s' = submitted s /\ owed s' = owed s /\ cq s' = cq s /\
  jobs s' = jobs s /\ mailbox s' = mailbox s /\ br_ring s' = br_ring s /\ br_mem s' = br_mem s /\ wires s' = wires s /\ due s' = due s /\
  handed s' = handed s /\ proxy_inflight s' = proxy_inflight s.

Definition held (s : Shard) (ip : IpAddr) : Z := own (from_ip ip) s + tot (h_from ip) (handed s).

Lemma held_nonneg s ip : 0 <= held s ip.
Proof.
  unfold held. pose proof (own_nonneg (from_ip ip) s ltac:(auto with dn)). pose proof (tot_nonneg (h_from ip) (handed s) ltac:(auto with dn)). lia.
Qed.

Lemma good_slot_alike s s' j c : alike s s' -> good_slot s j c -> good_slot s' j c.
Proof.
  intros (? & Hb & Hs & Ho & Hc & Hj & Hm & ? & Hmem & Hw & Hd & ? & ?) (left & Hok & Hwr). exists left.
  unfold toks, wire_of, due_of in *. by rewrite Hb, Hs, Ho, Hc, Hj, Hm, Hmem, Hw, Hd.
Qed.

Lemma glob_alike x y s s' : alike s s' -> counts (table (common s')) (fun ip => held s ip + theirs (tick s') ip) -> glob x y s -> glob x y s'.
Proof.
  intros (Hsl & Hb & Hs & Ho & Hc & Hj & Hm & Hr & Hmem & Hw & Hd & Hh & Hp) Hk [Gb Gf Gd Gc].
  split; unfold own, queued in *; rewrite ?Hsl, ?Hb, ?Hs, ?Hc, ?Hr, ?Hh, ?Hp; done.
Qed.

Lemma But_alike ev i c left x s s' : alike s s' -> counts (table (common s')) (fun ip => held s ip + theirs (tick s') ip) ->
  But ev i c left x s -> But ev i c left x s'.
Proof.
  intros Ha Hk [Bs Bg Bac Bev Bget Bt Bw Bsl Bd]. pose proof Ha as (Hsl & Hb & Hs & Ho & Hc & Hj & Hm & Hr & Hmem & Hw & Hdu & Hh & Hp).
  assert (forall j, get j s' = get j s) as Hget by (intros j; unfold get; by rewrite Hsl).
  assert (forall j, toks j s' = toks j s) as Htk by (intros j; unfold toks; by rewrite Hb, Hs, Hc, Ho, Hj, Hm).
  split.
  - by rewrite Hsl.
  - by apply (glob_alike _ _ s).
  - unfold armed, queued in *. by rewrite Hb, Hs, Hc.
  - unfold armed, queued in *. by rewrite Hb, Hs, Hc.
  - by rewrite Hget.
  - by rewrite Htk.
  - unfold wire_of, due_of in *. by rewrite Hw, Hdu.
  - intros j c' Hne. rewrite Hget. intros Hj'. apply (good_slot_alike s); [done|]. by apply Bsl.
  - intros j. rewrite Hget, Htk. apply Bd.
Qed.

Lemma Inv_alike ev s s' : alike s s' -> counts (table (common s')) (fun ip => held s ip + theirs (tick s') ip) -> Inv ev s -> Inv ev s'.
Proof.
  intros Ha Hk [Is Ig Iac Iev Isl Id]. pose proof Ha as (Hsl & Hb & Hs & Ho & Hc & Hj & Hm & Hr & Hmem & Hw & Hdu & Hh & Hp).
  assert (forall j, get j s' = get j s) as Hget by (intros j; unfold get; by rewrite Hsl).
  split.
  - by rewrite Hsl.
  - by apply (glob_alike _ _ s).
  - unfold armed, queued in *. by rewrite Hb, Hs, Hc.
  - unfold armed, queued in *. by rewrite Hb, Hs, Hc.
  - intros j c'. rewrite Hget. intros Hj'. apply (good_slot_alike s); [done|]. by apply Isl.
  - intros j. rewrite Hget. unfold toks. rewrite Hb, Hs, Hc, Ho, Hj, Hm. apply Id.
Qed.

Section rely.
Context {ok : HostOk}.

Lemma alike_look s : alike s (look s).2.
Proof. by unfold alike, look; usimpl. Qed.

Lemma look_counts s h : (forall ip, 0 <= h ip) -> counts (table (common s)) (fun ip => h ip + theirs (tick s) ip) ->
  counts (table (common (look s).2)) (fun ip => h ip + theirs (tick (look s).2) ip).
Proof. intros Hh Hc. unfold look. usimpl. cbn [snd]. usimpl. by apply ho_others. Qed.

Lemma glob_counts x y s : glob x y s -> counts (table (common s)) (fun ip => held s ip + theirs (tick s) ip).
Proof. by intros [_ _ _ Gc]. Qed.

Lemma But_look ev i c left x s : But ev i c left x s -> But ev i c left x (look s).2.
Proof.
  intros H. apply (But_alike _ _ _ _ _ s); [apply alike_look| |done]. apply look_counts; [apply held_nonneg|]. by eapply glob_counts, b_glob.
Qed.

End rely.
End phases.
#[export] Hint Resolve h_has_nonneg h_from_nonneg from_ip_nonneg lent_nonneg leases_nonneg fds_of_nonneg closes_nonneg accepts_nonneg has_dial_nonneg at_source_nonneg tot_nonneg own_nonneg : dn.

(** A look at the clock while slot [i] is at work. *)
Ltac look_in H a s1 H1 :=
  match type of H with
  | But _ _ _ _ _ ?s =>
      let E := fresh "Elook" in destruct (look s) as [a s1] eqn:E; pose proof (But_look _ _ _ _ _ _ H) as H1; rewrite E in H1; cbn [snd] in H1; clear E
  end.
Tactic Notation "look_at" hyp(H) "as" ident(a) ident(s1) ident(H1) := look_in H a s1 H1.

Section slots.
Context {host : Host} {world : World} {ok : HostOk}.

(** ** One slot at work *)
Lemma toks_put i j c s : toks j (put i c s) = toks j s.
Proof. done. Qed.

Lemma slot_ok_get_put ev i c c' left x s j d : But ev i c left x s -> get j (put i c' s) = Some d -> j <> i -> get j s = Some d.
Proof. intros H Hj Hne. rewrite get_put in Hj by (by eapply get_lt, b_get). by rewrite decide_False in Hj. Qed.

Lemma slab_ok_put i c c' s : get i s = Some c -> slab_ok (slab s) -> slab_ok (slab (put i c' s)).
Proof.
  intros Hi (Hn & Hf & Hl). unfold slab_ok. usimpl. rewrite length_insert. split_and!; [done| |done]. intros j. rewrite Hf.
  destruct (decide (j = i)) as [->|Hne]; [|by rewrite list_lookup_insert_ne by congruence].
  rewrite list_lookup_insert_eq by (by eapply get_lt). apply get_holds in Hi. rewrite Hi. naive_solver.
Qed.

Lemma But_put ev i c c' left x x' s : But ev i c left x s ->
  u_fd c' = u_fd c -> u_peer c' = u_peer c -> up_fd <$> u_proxy c' = up_fd <$> u_proxy c ->
  (forall b, leases b c' + tot (is_z b) x' = leases b c + tot (is_z b) x) -> But ev i c' left x' (put i c' s).
Proof.
  intros H Hfd Hpeer Hup Hx. pose proof H as [Bs Bg Bac Bev Bget Bt Bw Bsl Bd]. pose proof Bg as [Gb Gf Gd Gc].
  assert (forall f, fds_of f c' = fds_of f c) as Hfds.
  { intros f. unfold fds_of. rewrite Hfd. destruct (u_proxy c'), (u_proxy c); cbn in *; congruence. }
  assert (has_dial c' = has_dial c) as Hdl by (unfold has_dial; destruct (u_proxy c'), (u_proxy c); cbn in *; congruence).
  split.
  - by eapply slab_ok_put.
  - split.
    + intros b. rewrite (own_put _ i c c' s Bget). specialize (Gb b). specialize (Hx b). change (br_ring (put i c' s)) with (br_ring s).
      change (cq (put i c' s)) with (cq s). lia.
    + intros f. rewrite (own_put _ i c c' s Bget), Hfds. specialize (Gf f). change (queued (closes f) (put i c' s)) with (queued (closes f) s).
      change (cq (put i c' s)) with (cq s). change (handed (put i c' s)) with (handed s). lia.
    + rewrite (own_put _ i c c' s Bget), Hdl. change (proxy_inflight (put i c' s)) with (proxy_inflight s). lia.
    + apply (counts_ext _ (fun ip => own (from_ip ip) s + tot (h_from ip) (handed s) + theirs (tick s) ip)); [|done].
      intros ip. rewrite (own_put _ i c c' s Bget). unfold from_ip. rewrite Hpeer. change (handed (put i c' s)) with (handed s).
      change (tick (put i c' s)) with (tick s). lia.
  - done.
  - done.
  - by eapply get_put_eq.
  - done.
  - by rewrite Hfd.
  - intros j d Hne Hj. apply Bsl; [done|]. by eapply slot_ok_get_put.
  - intros j Hj. apply Bd. rewrite get_put in Hj by (by eapply get_lt). by case_decide.
Qed.

(** Changes that touch neither socket, lease nor upstream. *)
Lemma But_upd ev i c left x s f : But ev i c left x s ->
  (forall c, u_fd (f c) = u_fd c /\ u_peer (f c) = u_peer c /\ u_lease (f c) = u_lease c /\ up_fd <$> u_proxy (f c) = up_fd <$> u_proxy c) ->
  But ev i (f c) left x (upd i f s).
Proof.
  intros H Hf. destruct (Hf c) as (H1 & H2 & H3 & H4). unfold upd. rewrite (b_get _ _ _ _ _ _ H).
  eapply But_put; [done..|]. intros b. unfold leases. by rewrite H3.
Qed.

Definition opt_tok (o : option Tok) : list Tok := from_option (fun t => [t]) [] o.

(** What is queued for slot [i] leaves the other slots as they were. *)
Lemma push_toks q j s : toks j (push q s) ≡ₚ opt_tok (sqe_tok j q) ++ toks j s.
Proof.
  unfold toks. usimpl. rewrite omap_app. cbn [omap list_omap]. destruct (sqe_tok j q) as [t|]; cbn [opt_tok from_option app]; [|by rewrite app_nil_r].
  rewrite <- app_assoc. cbn [app]. symmetry. apply Permutation_middle.
Qed.

Lemma push_other q i j s : sqe_slot q = i -> j <> i -> toks j (push q s) = toks j s.
Proof.
  intros Hq Hj. unfold toks. usimpl. rewrite omap_app. cbn [omap list_omap]. unfold sqe_tok at 2. rewrite Hq.
  destruct (Nat.eqb_spec i j); [congruence|]. by rewrite andb_false_r, app_nil_r.
Qed.

Lemma push_own q i s : sqe_conn q = true -> sqe_slot q = i -> toks i s = [] -> toks i (push q s) = [TQ q].
Proof.
  intros Hc Hq Ht. pose proof (push_toks q i s) as Hp. rewrite Ht in Hp. unfold sqe_tok in Hp. rewrite Hc, Hq, Nat.eqb_refl in Hp.
  by apply Permutation_singleton_r in Hp.
Qed.

Lemma queued_push g q s : queued g (push q s) = queued g s + g q.
Proof. unfold queued. usimpl. rewrite tot_app. cbn [tot]. lia. Qed.

Lemma conn_tags q : sqe_conn q = true -> (sqe_tag q =? TAG_ACCEPT) = false /\ (sqe_tag q =? TAG_EVENTFD) = false /\ forall f, closes f q = 0.
Proof. by destruct q. Qed.

Lemma good_slot_frame s s' j c : toks j s' = toks j s -> br_mem s' = br_mem s -> wire_of (u_fd c) s' = wire_of (u_fd c) s ->
  due_of (u_fd c) s' = due_of (u_fd c) s -> good_slot s j c -> good_slot s' j c.
Proof. intros Ht Hm Hw Hd (left & H1 & H2). exists left. by rewrite Ht, Hm, Hw, Hd. Qed.

(** From the slot at work back to the invariant: something is outstanding. *)
Lemma But_back ev i c left s s' T : But ev i c left [] s ->
  slab s' = slab s -> br_ring s' = br_ring s -> br_mem s' = br_mem s -> cq s' = cq s -> wires s' = wires s -> due s' = due s ->
  handed s' = handed s -> proxy_inflight s' = proxy_inflight s -> common s' = common s -> tick s' = tick s ->
  (forall f, queued (closes f) s' = queued (closes f) s) -> armed QAccept s' = armed QAccept s -> armed QEventfd s' = armed QEventfd s ->
  (forall j, j <> i -> toks j s' = toks j s) -> toks i s' = T -> slot_ok (br_mem s) i c T left -> Inv ev s'.
Proof.
  intros [Bs Bg Bac Bev Bget Bt Bw Bsl Bd] Hsl Hr Hm Hc Hw Hd Hh Hp Hcm Htk Hq Ha He Ho Ht Hok. pose proof Bg as [Gb Gf Gd Gc].
  assert (forall j, get j s' = get j s) as Hget by (intros j; unfold get; by rewrite Hsl).
  split.
  - by rewrite Hsl.
  - split; unfold own in *; rewrite ?Hsl, ?Hr, ?Hc, ?Hh, ?Hp, ?Hcm, ?Htk; try done. intros f. by rewrite Hq.
  - by rewrite Ha.
  - by rewrite He.
  - intros j d. rewrite Hget. intros Hj. destruct (decide (j = i)) as [->|Hne].
    + assert (d = c) as -> by congruence. exists left. rewrite Ht, Hm. split; [done|]. unfold wire_of, due_of in *. by rewrite Hw, Hd.
    + apply (good_slot_frame s); [by apply Ho|done|unfold wire_of; by rewrite Hw|unfold due_of; by rewrite Hd|by apply Bsl].
  - intros j. rewrite Hget. intros Hj. destruct (decide (j = i)) as [->|Hne]; [congruence|]. rewrite Ho by done. by apply Bd.
Qed.

Lemma But_push ev i c left s q : But ev i c left [] s -> sqe_conn q = true -> sqe_slot q = i ->
  slot_ok (br_mem s) i c [TQ q] left -> Inv ev (push q s).
Proof.
  intros H Hc Hq Hok. destruct (conn_tags q Hc) as (Ha & He & Hcl).
  eapply (But_back _ _ _ _ s (push q s) [TQ q]); try done.
  - intros f. rewrite queued_push, Hcl. lia.
  - unfold armed. rewrite queued_push. cbn [sqe_tag]. rewrite Ha. change (cq (push q s)) with (cq s). cbn [one]. lia.
  - unfold armed. rewrite queued_push. cbn [sqe_tag]. rewrite He. change (cq (push q s)) with (cq s). cbn [one]. lia.
  - intros j Hj. by eapply push_other.
  - apply push_own; [done..|]. by eapply b_toks.
Qed.

Lemma job_toks j k s : toks k (set_jobs (jobs s ++ [j]) s) ≡ₚ opt_tok (job_tok k j) ++ toks k s.
Proof.
  unfold toks. usimpl. rewrite omap_app. cbn [omap list_omap]. destruct (job_tok k j) as [t|]; cbn [opt_tok from_option app]; [|by rewrite app_nil_r].
  rewrite <- app_assoc. cbn [app]. by rewrite !Permutation_middle.
Qed.

Lemma But_job ev i c left s j : But ev i c left [] s -> job_slot j = i -> slot_ok (br_mem s) i c [TJ j] left ->
  Inv ev (set_jobs (jobs s ++ [j]) s).
Proof.
  intros H Hj Hok. eapply (But_back _ _ _ _ s _ [TJ j]); try done.
  - intros k Hk. unfold toks. usimpl. rewrite omap_app. cbn [omap list_omap]. unfold job_tok at 2. rewrite Hj.
    destruct (Nat.eqb_spec i k); [congruence|]. by rewrite app_nil_r.
  - pose proof (job_toks j i s) as Hp. rewrite (b_toks _ _ _ _ _ _ H) in Hp. unfold job_tok in Hp. rewrite Hj, Nat.eqb_refl in Hp.
    by apply Permutation_singleton_r in Hp.
Qed.

(** What is staged for slot [i]'s socket, and what goes out on it. *)
Lemma But_owe ev i c left x s b : But ev i c left x s -> But ev i c (left ++ b) x (owe (u_fd c) b s).
Proof.
  intros H. pose proof H as [Bs Bg Bac Bev Bget Bt Bw Bsl Bd]. split; try done.
  - by destruct Bg.
  - intros Hst. specialize (Bw Hst). unfold wire_of, due_of, owe in *. usimpl. rewrite lookup_insert_eq. cbn [from_option]. unfold id in *. by rewrite app_assoc, Bw.
  - intros j d Hne Hj. apply (good_slot_frame s); try done; [|by apply Bsl]. unfold due_of, owe. usimpl.
    by rewrite lookup_insert_ne by (eapply fd_distinct; [exact Bg| |exact Bget|exact Hj]; congruence).
Qed.

Lemma But_wire ev i c left left' x s b : But ev i c left x s -> left = b ++ left' -> But ev i c left' x (wire_to (u_fd c) b s).
Proof.
  intros H ->. pose proof H as [Bs Bg Bac Bev Bget Bt Bw Bsl Bd]. split; try done.
  - by destruct Bg.
  - intros Hst. specialize (Bw Hst). unfold wire_of, due_of, wire_to in *. usimpl. rewrite lookup_insert_eq. cbn [from_option]. unfold id in *.
    by rewrite <- app_assoc.
  - intros j d Hne Hj. apply (good_slot_frame s); try done; [|by apply Bsl]. unfold wire_of, wire_to. usimpl.
    by rewrite lookup_insert_ne by (eapply fd_distinct; [exact Bg| |exact Bget|exact Hj]; congruence).
Qed.

(** ** Leases, dials, closing *)
Lemma But_same ev i c left x s s' : alike s s' -> common s' = common s -> tick s' = tick s -> But ev i c left x s -> But ev i c left x s'.
Proof. intros Ha Hc Ht H. apply (But_alike _ _ _ _ _ s); [done| |done]. rewrite Hc, Ht. by eapply glob_counts, b_glob. Qed.

Lemma But_common ev i c left x s cm : table cm = table (common s) -> But ev i c left x s -> But ev i c left x (set_common cm s).
Proof.
  intros Hc H. apply (But_alike _ _ _ _ _ s); [by unfold alike; usimpl| |done]. usimpl. rewrite Hc. by eapply glob_counts, b_glob.
Qed.

Lemma But_zc ev i c left b s : But ev i c left [b] s -> zc = true.
Proof.
  intros H. destruct zc eqn:E; [done|]. pose proof (g_bids _ _ _ (b_glob _ _ _ _ _ _ H) b) as Hb. unfold all_bids in Hb. rewrite E in Hb.
  cbn [tot] in Hb. rewrite is_z_refl in Hb.
  pose proof (tot_nonneg (is_z b) (br_ring s) ltac:(auto with dn)). pose proof (tot_nonneg (lent b) (cq s) ltac:(auto with dn)).
  pose proof (own_nonneg (leases b) s ltac:(auto with dn)). lia.
Qed.

Lemma But_recycle ev i c left b s : But ev i c left [b] s -> But ev i c left [] (recycle_bid b s).
Proof.
  intros H. unfold recycle_bid. rewrite (But_zc _ _ _ _ _ _ H). pose proof H as [Bs Bg Bac Bev Bget Bt Bw Bsl Bd].
  pose proof Bg as [Gb Gf Gd Gc]. split; try done.
  split; try done. intros b'. specialize (Gb b'). usimpl. rewrite tot_app. cbn [tot] in *.
  change (own (leases b') (set_br_ring (br_ring s ++ [b]) s)) with (own (leases b') s). lia.
Qed.

Lemma But_count ev i c left x s : But ev i c left x s -> But ev i c left x (count_recycle s).
Proof. intros H. unfold count_recycle. destruct zc; [|done]. by apply (But_same _ _ _ _ _ s); [unfold alike; usimpl|..]. Qed.

Lemma set_lease_id c : u_lease c = None -> set_u_lease None c = c.
Proof. by destruct c; intros [= ->]. Qed.

Lemma But_release ev i c left s : But ev i c left [] s -> But ev i (set_u_lease None c) left [] (release_lease i s).
Proof.
  intros H. unfold release_lease. rewrite (b_get _ _ _ _ _ _ H). destruct (u_lease c) as [b|] eqn:E; [|by rewrite set_lease_id].
  apply But_count, But_recycle. eapply But_put; [exact H|done..|]. intros b'. unfold leases. cbn [u_lease set_u_lease]. rewrite E. cbn. lia.
Qed.

Lemma set_proxy_id c : u_proxy c = None -> set_u_proxy None c = c.
Proof. by destruct c; intros [= ->]. Qed.

Lemma But_take_proxy ev i c left x s : But ev i c left x s ->
  exists s', take_proxy i s = (u_proxy c, s') /\ But ev i (set_u_proxy None c) left x s'.
Proof.
  intros H. unfold take_proxy. rewrite (b_get _ _ _ _ _ _ H). destruct (u_proxy c) as [d|] eqn:E; eexists; (split; [done|]); [|by rewrite set_proxy_id].
  pose proof H as [Bs Bg Bac Bev Bget Bt Bw Bsl Bd]. pose proof Bg as [Gb Gf Gd Gc]. set (c' := set_u_proxy None c).
  split; try done.
  - by apply (slab_ok_put i c).
  - split.
    + intros b. specialize (Gb b). change (own (leases b) _) with (own (leases b) (put i c' s)). rewrite (own_put _ i c c' s Bget). usimpl.
      assert (leases b c' = leases b c) as -> by done. lia.
    + intros f. specialize (Gf f). change (own (fds_of f) _) with (own (fds_of f) (put i c' s)). rewrite (own_put _ i c c' s Bget). usimpl.
      change (queued (closes f) _) with (queued (closes f) s). assert (fds_of f c' = is_z f (u_fd c)) as -> by (unfold fds_of, c'; cbn; lia).
      assert (fds_of f c = is_z f (u_fd c) + is_z f (up_fd d)) as Hfc by (unfold fds_of; by rewrite E).
      pose proof (is_z_nonneg f (up_fd d)). lia.
    + change (own has_dial _) with (own has_dial (put i c' s)). rewrite (own_put _ i c c' s Bget). usimpl. rewrite Gd.
      assert (has_dial c' = 0 /\ has_dial c = 1) as [-> Hd1] by (unfold has_dial, c'; cbn [u_proxy set_u_proxy]; by rewrite E).
      pose proof (own_get has_dial i c s ltac:(auto with dn) Bget). unfold saturating_sub. lia.
    + apply (counts_ext _ (fun ip => own (from_ip ip) s + tot (h_from ip) (handed s) + theirs (tick s) ip)); [|done].
      intros ip. change (own (from_ip ip) (set_proxy_inflight _ _)) with (own (from_ip ip) (put i c' s)). rewrite (own_put _ i c c' s Bget).
      assert (from_ip ip c' = from_ip ip c) as -> by done. usimpl. lia.
  - by apply (get_put_eq i c' c).
  - intros j d' Hne Hj. apply Bsl; [done|]. by apply (slot_ok_get_put _ _ _ c' _ _ _ _ _ H).
  - intros j Hj. apply Bd. change (get j (put i c' s) = None) in Hj. rewrite get_put in Hj by (by eapply get_lt). by case_decide.
Qed.

Lemma own_remove g i c s : get i s = Some c -> own g (remove i s) = own g s - g c.
Proof.
  intros H%get_holds. unfold own, remove, slab_remove. rewrite H. usimpl. rewrite (tot_insert _ _ _ _ None H). cbn. lia.
Qed.

Lemma get_remove i j c s : get i s = Some c -> get j (remove i s) = if decide (j = i) then None else get j s.
Proof.
  intros H. pose proof (get_lt _ _ _ H) as Hl. apply get_holds in H. unfold get, remove, slab_remove. rewrite H. usimpl.
  case_decide as E; [subst j; by rewrite list_lookup_insert_eq|by rewrite list_lookup_insert_ne by congruence].
Qed.

Lemma slab_ok_remove i c s : get i s = Some c -> slab_ok (slab s) -> slab_ok (slab (remove i s)).
Proof.
  intros Hg (Hn & Hf & Hl). pose proof (get_lt _ _ _ Hg) as Hlt. apply get_holds in Hg. unfold slab_ok, remove, slab_remove. rewrite Hg. usimpl.
  rewrite length_insert. unfold vec_push. split_and!; [| |done].
  - apply NoDup_app. split_and!; [done| |apply NoDup_singleton]. intros j Hj ->%list_elem_of_singleton. apply Hf in Hj. congruence.
  - intros j. rewrite elem_of_app, list_elem_of_singleton, Hf. destruct (decide (j = i)) as [->|Hne].
    + rewrite list_lookup_insert_eq by done. naive_solver.
    + rewrite list_lookup_insert_ne by congruence. naive_solver.
Qed.

(** The connection leaves the slab: its socket and its count are with [s']. *)
Lemma But_leave ev i c left s s' : But ev i c left [] s -> u_lease c = None -> u_proxy c = None ->
  slab s' = slab s -> br_ring s' = br_ring s -> br_mem s' = br_mem s -> cq s' = cq s -> wires s' = wires s -> due s' = due s ->
  proxy_inflight s' = proxy_inflight s -> (forall j, toks j s' = toks j s) ->
  (forall f, queued (closes f) s' + tot (h_has f) (handed s') <= queued (closes f) s + tot (h_has f) (handed s) + is_z f (u_fd c)) ->
  armed QAccept s' = armed QAccept s -> armed QEventfd s' = armed QEventfd s ->
  counts (table (common s')) (fun ip => own (from_ip ip) s - from_ip ip c + tot (h_from ip) (handed s') + theirs (tick s') ip) ->
  Inv ev (remove i s').
Proof.
  intros [Bs Bg Bac Bev Bget Bt Bw Bsl Bd] Hle Hpr Hsl Hr Hm Hc Hw Hd Hp Htk Hq Ha He Hk. pose proof Bg as [Gb Gf Gd Gc].
  assert (get i s' = Some c) as Hg' by (unfold get; by rewrite Hsl).
  assert (forall g, own g (remove i s') = own g s - g c) as Hown.
  { intros g. rewrite (own_remove g i c s' Hg'). unfold own. by rewrite Hsl. }
  split.
  - apply (slab_ok_remove i c s' Hg'). by rewrite Hsl.
  - split.
    + intros b. rewrite Hown. specialize (Gb b). unfold remove. usimpl. rewrite Hr, Hc.
      assert (leases b c = 0) as -> by (unfold leases; by rewrite Hle). lia.
    + intros f. rewrite Hown. specialize (Gf f). specialize (Hq f). unfold remove. usimpl. rewrite Hc.
      change (queued (closes f) (set_slab _ s')) with (queued (closes f) s').
      assert (fds_of f c = is_z f (u_fd c)) as -> by (unfold fds_of; rewrite Hpr; cbn; lia). cbn [tot] in *. lia.
    + rewrite Hown. unfold remove. usimpl. rewrite Hp, Gd. assert (has_dial c = 0) as -> by (unfold has_dial; by rewrite Hpr). lia.
    + apply (counts_ext _ _ _ (fun ip => eq_sym (f_equal (fun n => n + _ + _) (Hown (from_ip ip))))). exact Hk.
  - change (armed QAccept (remove i s')) with (armed QAccept s'). by rewrite Ha.
  - change (armed QEventfd (remove i s')) with (armed QEventfd s'). by rewrite He.
  - intros j d Hj. rewrite (get_remove i j c s' Hg') in Hj. case_decide as Hne; [done|].
    apply (good_slot_frame s); [apply Htk|done|unfold wire_of; by rewrite <- Hw|unfold due_of; by rewrite <- Hd|].
    apply Bsl; [done|]. unfold get in *. by rewrite <- Hsl.
  - intros j Hj. change (toks j (remove i s')) with (toks j s'). rewrite Htk. rewrite (get_remove i j c s' Hg') in Hj.
    case_decide as Hne; [by subst j|]. apply Bd. unfold get in *. by rewrite <- Hsl.
Qed.

Lemma at_source_sym ip j : at_source ip j = at_source j ip.
Proof. unfold at_source. by rewrite (bool_decide_ext (j = ip) (ip = j)). Qed.

Lemma uncount_spec ip s h : (forall j, 0 <= h j) -> 1 <= h ip -> counts (table (common s)) (fun j => h j + theirs (tick s) j) ->
  exists s', uncount ip s = Some s' /\ alike s s' /\ counts (table (common s')) (fun j => h j - at_source ip j + theirs (tick s') j).
Proof.
  intros Hh Hip Hc. unfold uncount. pose proof (look_counts s h Hh Hc) as Hl.
  destruct (counts_close _ _ ip Hl) as (t & -> & Ht). { pose proof (ho_theirs (tick (look s).2) ip). lia. }
  cbn [mbind option_bind]. eexists. split; [done|]. split; [by unfold alike, look; usimpl|].
  usimpl. eapply counts_ext; [|exact Ht]. intros j. cbn beta. lia.
Qed.

Lemma from_ip_own ip i c s : get i s = Some c -> u_peer c = ip -> 1 <= own (from_ip ip) s.
Proof.
  intros H <-. pose proof (own_get (from_ip (u_peer c)) i c s ltac:(auto with dn) H) as Ho.
  assert (from_ip (u_peer c) c = 1) as Hf by (unfold from_ip, at_source; by rewrite bool_decide_true). lia.
Qed.

Lemma close_keeps ev i c left s : But ev i c left [] s -> exists s', close i s = Some s' /\ Inv ev s'.
Proof.
  intros H. unfold close. destruct (But_take_proxy _ _ _ _ _ _ (But_release _ _ _ _ _ H)) as (s1 & -> & H1). cbn [snd].
  rewrite (b_get _ _ _ _ _ _ H1). set (c1 := set_u_proxy None (set_u_lease None c)) in *. set (s2 := push (QClose (u_fd c1)) s1).
  pose proof (b_get _ _ _ _ _ _ H1) as Hg. pose proof (glob_counts _ _ _ (b_glob _ _ _ _ _ _ H1)) as Hc.
  destruct (uncount_spec (u_peer c1) s2 (held s2)) as (s3 & -> & Ha & Hc3).
  { apply held_nonneg. }
  { unfold held. pose proof (from_ip_own (u_peer c1) i c1 s2 Hg eq_refl).
    pose proof (tot_nonneg (h_from (u_peer c1)) (handed s2) ltac:(auto with dn)). lia. }
  { exact Hc. }
  cbn [mbind option_bind]. eexists. split; [done|].
  destruct Ha as (Hsl & Hb & Hs & Ho & Hcq & Hj & Hm & Hr & Hmem & Hw & Hd & Hh & Hp).
  eapply (But_leave ev i c1 left s1); try done.
  - intros j. unfold toks. rewrite Hb, Hs, Ho, Hcq, Hj, Hm. unfold s2. usimpl. rewrite omap_app. cbn. by rewrite app_nil_r.
  - intros f. unfold queued. rewrite Hb, Hs, Hh. unfold s2. usimpl. rewrite tot_app. cbn [tot closes]. lia.
  - unfold armed, queued. rewrite Hb, Hs, Hcq. unfold s2. usimpl. rewrite tot_app. cbn [tot sqe_tag]. change (TAG_CLOSE =? TAG_ACCEPT) with false. cbn [one]. lia.
  - unfold armed, queued. rewrite Hb, Hs, Hcq. unfold s2. usimpl. rewrite tot_app. cbn [tot sqe_tag]. change (TAG_CLOSE =? TAG_EVENTFD) with false. cbn [one]. lia.
  - eapply counts_ext; [|exact Hc3]. intros ip. cbn beta. rewrite Hh. unfold held. change (own (from_ip ip) s2) with (own (from_ip ip) s1).
    change (from_ip ip c1) with (at_source ip (u_peer c1)). rewrite (at_source_sym ip). lia.
Qed.

Lemma look_remove i s : remove i (look s).2 = (look (remove i s)).2.
Proof. done. Qed.

Lemma uncount_remove ip i s : uncount ip (remove i s) = s' ← uncount ip s; Some (remove i s').
Proof. unfold uncount. rewrite <- look_remove. change (common (remove i (look s).2)) with (common (look s).2). by destruct (on_close _ _). Qed.

Lemma handoff_inv ev i c left l s : But ev i c left [] s -> exists s', handoff i l s = Some s' /\ Inv ev s'.
Proof.
  intros H. unfold handoff. rewrite (b_get _ _ _ _ _ _ H).
  destruct (But_take_proxy _ _ _ _ _ _ (But_release _ _ _ _ _ H)) as (s1 & -> & H1). cbn [snd].
  set (c1 := set_u_proxy None (set_u_lease None c)) in *. rewrite <- look_remove. pose proof (But_look _ _ _ _ _ _ H1) as H2.
  set (s2 := (look s1).2) in *. pose proof (glob_counts _ _ _ (b_glob _ _ _ _ _ _ H2)) as Hc. pose proof (b_get _ _ _ _ _ _ H2) as Hg.
  destruct (spawn_ok _).
  - eexists. split; [done|]. change (set_handed _ (remove i s2)) with (remove i (set_handed (handed s2 ++ [mkHanded l (u_fd c) (u_peer c)]) s2)).
    eapply (But_leave ev i c1 left s2); try done.
    + intros f. usimpl. rewrite tot_app. cbn [tot]. unfold h_has at 2. cbn [h_fd]. change (queued (closes f) (set_handed _ s2)) with (queued (closes f) s2).
      change (u_fd c1) with (u_fd c). lia.
    + eapply counts_ext; [|exact Hc]. intros ip. cbn beta. usimpl. rewrite tot_app. cbn [tot]. unfold held.
      change (h_from ip (mkHanded l (u_fd c) (u_peer c))) with (from_ip ip c1). lia.
  - change (u_peer c) with (u_peer c1). rewrite uncount_remove. destruct (uncount_spec (u_peer c1) s2 (held s2)) as (s3 & -> & Ha & Hc3).
    { apply held_nonneg. }
    { unfold held. pose proof (from_ip_own (u_peer c1) i c1 s2 Hg eq_refl). pose proof (tot_nonneg (h_from (u_peer c1)) (handed s2) ltac:(auto with dn)). lia. }
    { exact Hc. }
    cbn [mbind option_bind]. eexists. split; [done|]. destruct Ha as (Hsl & Hb & Hs & Ho & Hcq & Hj & Hm & Hr & Hmem & Hw & Hd & Hh & Hp).
    eapply (But_leave ev i c1 left s2); try done.
    + intros j. unfold toks. by rewrite Hb, Hs, Ho, Hcq, Hj, Hm.
    + intros f. unfold queued. rewrite Hb, Hs, Hh. pose proof (is_z_nonneg f (u_fd c1)). lia.
    + unfold armed, queued. by rewrite Hb, Hs, Hcq.
    + unfold armed, queued. by rewrite Hb, Hs, Hcq.
    + eapply counts_ext; [|exact Hc3]. intros ip. cbn beta. rewrite Hh. unfold held.
      change (from_ip ip c1) with (at_source ip (u_peer c1)). rewrite (at_source_sym ip). lia.
Qed.

(** ** Arming *)
Lemma arm_recv_inv ev i c s : But ev i c [] [] s -> idle c -> Inv ev (arm_recv i s).
Proof.
  intros H Hl. unfold arm_recv. rewrite (b_get _ _ _ _ _ _ H).
  apply (But_push ev i c [] s); [done|by destruct zc|by destruct zc|]. apply S_recv; [done..|].
  destruct zc eqn:E; cbn; [right; by rewrite E|by left].
Qed.

Lemma load_fields r c : u_fd (load r c) = u_fd c /\ u_peer (load r c) = u_peer c /\ u_lease (load r c) = u_lease c /\ u_proxy (load r c) = u_proxy c.
Proof. done. Qed.

Lemma send_staged_inv ev i c0 c r x0 s : But ev i c0 [] x0 s -> 
  u_fd c = u_fd c0 -> u_peer c = u_peer c0 -> up_fd <$> u_proxy c = up_fd <$> u_proxy c0 -> 
  (forall b, leases b c = leases b c0 + tot (is_z b) x0) ->
  no_lane c -> u_await_head c = false -> may_send c ->
  exists s', send_staged i c r s = Some s' /\ Inv ev s'.
Proof.
  intros H Hfd Hpe Hup Hle Hl Ha Hm. unfold send_staged, push_send.
  assert (But ev i (load (Some r) c) r [] (owe (u_fd c) r (put i (load (Some r) c) s))) as H1.
  { apply (But_owe ev i (load (Some r) c) [] [] (put i (load (Some r) c) s) r). apply (But_put ev i c0 _ [] x0 [] s H); [done..|].
    intros b. specialize (Hle b). unfold leases in *. change (u_lease (load (Some r) c)) with (u_lease c). cbn [tot]. lia. }
  rewrite (b_get _ _ _ _ _ _ H1). set (c1 := if zc then _ else _).
  assert (send_sqe i c1 zc = Some (QSend i (u_fd c) zc r)) as ->.
  { unfold send_sqe, c1. destruct zc; cbn; by rewrite drop_0. }
  cbn [mbind option_bind]. eexists. split; [done|].
  assert (But ev i c1 r [] (put i c1 (owe (u_fd c) r (put i (load (Some r) c) s)))) as H2.
  { apply (But_put _ _ (load (Some r) c) _ _ [] [] _ H1); unfold c1; destruct zc; done. }
  apply (But_push ev i c1 r); [done..|].
  apply (S_send _ _ _ r).
  - unfold c1. by destruct zc.
  - unfold c1. by destruct zc.
  - unfold c1. by destruct zc.
  - unfold c1. by destruct zc.
  - split; [unfold c1; destruct zc; cbn; lia|]. unfold c1. destruct zc eqn:Ez.
    + exists [TQ (QSend i (u_fd c) true r)], []. cbn. rewrite drop_0. by split_and!.
    + eexists. split; [done|]. cbn. by rewrite drop_0.
Qed.

(** ** Staging *)
Lemma annotate_nonempty resp ka : resp <> [] -> annotate_connection resp ka <> [].
Proof.
  intros H. unfold annotate_connection. destruct (windows_position CRLF resp) as [p|]; cbn [fmap option_fmap option_map]; [|done].
  destruct (header_value _ _); [done|]. intros Ha. apply (f_equal length) in Ha. rewrite !length_app in Ha. destruct ka; cbn in Ha; lia.
Qed.

Lemma disposed_spec c resp c1 out : disposed c resp = (c1, out) ->
  c1 = set_u_ka (u_ka c1) c /\ (resp <> [] -> out <> []).
Proof. unfold disposed. intros [= <- <-]. split; [done|]. destruct (u_h2c c); [done|]. apply annotate_nonempty. Qed.

Lemma start_split_inv ev i c0 c sp s : But ev i c0 [] [] s -> u_fd c = u_fd c0 -> u_peer c = u_peer c0 -> u_proxy c = u_proxy c0 ->
  u_lease c = u_lease c0 -> no_effect c -> u_static c = None -> sp_sent sp = 0%nat -> (0 < length (sp_head sp) + sp_body_len sp)%nat ->
  (forall bid, sp_body sp = LeaseBody bid -> u_lease c = Some bid /\ zc = true) ->
  (sp_body sp = StaticBody -> sp_body_len sp = length bulk_body) -> Inv ev (start_split i c sp s).
Proof.
  intros H Hfd Hpe Hpr Hle He Hst H0 Hlen Hl Hb. unfold start_split. set (c1 := set_u_split (Some sp) c).
  assert (But ev i c1 [] [] (put i c1 s)) as H1.
  { apply (But_put ev i c0 c1 [] [] [] s H); [done|done|by unfold c1; cbn; rewrite Hpr|]. intros b. unfold leases, c1. cbn [u_lease set_u_split]. by rewrite Hle. }
  assert (split_data sp (put i c1 s) = Some (sp_head sp ++ split_body (br_mem s) sp)) as Hsd.
  { unfold split_data, split_body. rewrite H0. destruct (Nat.leb_spec (length (sp_head sp) + sp_body_len sp) 0); [lia|].
    destruct (sp_body sp) as [bid|] eqn:Eb; [destruct (Hl bid eq_refl) as [_ ->]|]; cbn [mbind option_bind]; by rewrite drop_0. }
  rewrite Hsd. cbn [from_option]. unfold id. set (whole := sp_head sp ++ split_body (br_mem s) sp) in *.
  pose proof (But_owe _ _ _ _ _ _ whole H1) as H2. cbn [app] in H2. change (u_fd c1) with (u_fd c) in H2.
  unfold push_split_send. rewrite (b_get _ _ _ _ _ _ H2). change (u_split c1) with (Some sp). cbn [mbind option_bind].
  assert (split_data sp (owe (u_fd c) whole (put i c1 s)) = Some whole) as -> by exact Hsd. cbv iota.
  apply (But_push ev i c1 whole); [done..|]. apply (S_split _ _ _ sp); [done..|]. unfold is_gather. rewrite H0, drop_0.
  split; [lia|]. split; [done|]. split; [done|]. by split.
Qed.

Lemma stage_appended_inv ev i c resp s : But ev i c [] [] s -> no_lane c -> no_effect c ->
  exists s', stage_response_appended i resp s = Some s' /\ Inv ev s'.
Proof.
  intros H Hl (He1 & He2 & He3). unfold stage_response_appended. pose proof (But_release _ _ _ _ _ H) as H1. rewrite (b_get _ _ _ _ _ _ H1).
  destruct (disposed _ _) as [c1 out] eqn:Ed. apply disposed_spec in Ed as [-> _].
  eapply send_staged_inv; [exact H1|done..|]. split; [done|]. by left.
Qed.

Lemma stage_response_inv ev i c resp sp s : But ev i c [] [] s -> no_lane c -> no_effect c -> (sp = true -> resp <> []) ->
  exists s', stage_response i resp sp s = Some s' /\ Inv ev s'.
Proof.
  intros H Hl He Hr. unfold stage_response. destruct sp.
  - eexists. split; [done|]. unfold stage_static_split_response. pose proof (But_release _ _ _ _ _ H) as H1. rewrite (b_get _ _ _ _ _ _ H1).
    destruct (disposed _ _) as [c1 out] eqn:Ed. apply disposed_spec in Ed as [-> Ho]. specialize (Ho (Hr eq_refl)).
    eapply start_split_inv; [exact H1|done..|by destruct Hl|done| |done|done]. cbn. destruct out; [done|cbn; lia].
  - destruct split_span; [|by eapply stage_appended_inv]. rewrite (b_get _ _ _ _ _ _ H).
    destruct (bool_decide (is_Some (u_lease c)) && (0 <? u_req_len c)%nat && zc) eqn:Ec; [|by eapply close_keeps].
    apply andb_true_iff in Ec as [[Ec Hq]%andb_true_iff Hz]. apply bool_decide_eq_true in Ec as [bid Ec]. apply Nat.ltb_lt in Hq.
    eexists. split; [done|]. unfold stage_split_response. rewrite (b_get _ _ _ _ _ _ H).
    destruct (disposed _ _) as [c1 out] eqn:Ed. apply disposed_spec in Ed as [-> Ho]. cbn [u_lease set_u_ka]. rewrite Ec.
    eapply start_split_inv; [exact H|done..|by destruct Hl|done|cbn; lia| |done]. intros b [= <-]. done.
Qed.

(** ** Jobs *)
Lemma submit_inv ev i c s j : But ev i c [] [] s -> job_slot j = i -> no_lane c ->
  is_serve i c (TJ j) -> 
  (submit j s = (false, s) /\ gw_up s = false) \/ exists s1, submit j s = (true, s1) /\ Inv ev s1.
Proof.
  intros H Hj Hl Hs. unfold submit. destruct (gw_up s) eqn:E; [right|by left]. eexists. split; [done|].
  eapply But_job; [exact H|done|]. by apply S_serve.
Qed.

Lemma submit_or_close_inv ev i c s j : But ev i c [] [] s -> job_slot j = i -> no_lane c -> is_serve i c (TJ j) ->
  exists s', submit_or_close i j s = Some s' /\ Inv ev s'.
Proof.
  intros H Hj Hl Hs. unfold submit_or_close. destruct (submit_inv ev i c s j H Hj Hl Hs) as [[-> _]|(s1 & -> & Hi)]; [by eapply close_keeps|eauto].
Qed.

Lemma owned_job i c j : no_effect c ->
  (forall bid len seam m, j <> JobServe i seam (Borrowed bid len) m) -> is_serve i c (TJ j).
Proof.
  intros (Ha & Hp & Hs) Hj. split; [|rewrite Ha, Hs; split; [by intros []|done]]. split; [|by rewrite Hs]. intros bid len seam m E. by destruct (Hj bid len seam m).
Qed.

Lemma meter_of_inv ev i c c0 left x req s : But ev i c left x s -> u_peer c0 = u_peer c ->
  exists m s', meter_of c0 req s = Some (m, s') /\ But ev i c left x s'.
Proof.
  intros H Hp. unfold meter_of. look_at H as a s1 H1.
  destruct (counts_active _ _ (u_peer c0) (glob_counts _ _ _ (b_glob _ _ _ _ _ _ H1))) as [n ->]. cbn [mbind option_bind].
  look_at H1 as h s2 H2.
  look_at H2 as b s3 H3.
  destruct (counts_prior _ _ (u_peer c0) (rate_limit b) (rate_window b) (a_now b) (glob_counts _ _ _ (b_glob _ _ _ _ _ _ H3))) as (t & p & -> & Ht).
  cbn [mbind option_bind]. eexists _, _. split; [done|]. apply (But_alike _ _ _ _ _ s3); [by unfold alike; usimpl|done|done].
Qed.

End slots.
