(* ===== verification/UringServe.v ===== *)
(** * The invariant, through dispatching and receiving

    Every way a handler can leave the slot it works on: a request is served,
    framed, refused, handed off, answered from a file or from the cache. *)
From S2P Require Import Prelude Bytes Lines Io Standing Cache Http Gzip Ws Static Chunked ProxyHead Fleet Interim Connect Blocking Lanes Interp Accept Counts UringState Uring UringInv.

Local Open Scope Z_scope.

Section serving.
Context {host : Host} {world : World} {ok : HostOk}.

(** ** The static lane *)
Lemma But_left ev i c left left' x s : ~ exact_wire -> But ev i c left x s -> But ev i c left' x s.
Proof. intros Hr [Bs Bg Bac Bev Bget Bt Bw Bsl Bd]. by split. Qed.

Lemma start_seg_segs ss sg : ss_segs (start_seg ss sg) = ss_segs ss /\ ss_seg (start_seg ss sg) = ss_seg ss.
Proof. unfold start_seg. destruct (seg_started ss), sg; done. Qed.

Lemma static_next_total fuel : forall ss, (length (ss_segs ss) - ss_seg ss < fuel)%nat -> exists ss' act, static_next fuel ss = Some (ss', act).
Proof.
  induction fuel as [|f IH]; intros ss Hf; [lia|]. cbn [static_next]. destruct (ss_segs ss !! ss_seg ss) as [sg|] eqn:E; [|eauto].
  apply lookup_lt_Some in E. destruct (start_seg_segs ss sg) as [H1 H2].
  assert (exists ss' act, static_next f (next_seg (start_seg ss sg)) = Some (ss', act)) as Hn.
  { apply IH. unfold next_seg. cbn [ss_segs ss_seg set_cursor]. rewrite H1, H2. lia. }
  destruct sg; [destruct (_ <? _)%nat|destruct (0 <? pipe_bytes _); [|destruct (0 <? win_remaining _)]]; eauto.
Qed.

Lemma drive_static_inv ev i c ss s : But ev i c [] [] s -> u_split c = None -> u_static c = Some ss -> is_Some static_root -> no_effect c -> u_lease c = None ->
  exists s1 fin, drive_static i s = Some (s1, fin) /\
    match fin with None => Inv ev s1 | Some ka => But ev i (set_u_static None c) [] [] s1 end.
Proof.
  intros H Hsp Hst Hr He Hle. unfold drive_static. rewrite (b_get _ _ _ _ _ _ H), Hst.
  destruct (static_next_total (S (S (length (ss_segs ss) - ss_seg ss))) ss) as (ss1 & act & ->); [lia|]. cbn [mbind option_bind].
  set (c1 := set_u_static (Some ss1) c). assert (But ev i c1 [] [] (put i c1 s)) as H1 by (by apply (But_put ev i c c1 [] [] [] s H)).
  destruct act as [d|src off len|len|ka]; eexists _, _; (split; [done|]).
  1-3: eapply But_push; [exact H1|done..|]; by apply S_static.
  change (set_u_static None c) with (set_u_static None c1). by apply But_upd.
Qed.

(** ** Dispatching *)
Lemma upd_jobs i f j s : upd i f (set_jobs (jobs s ++ [j]) s) = set_jobs (jobs (upd i f s) ++ [j]) (upd i f s).
Proof. unfold upd. change (get i (set_jobs (jobs s ++ [j]) s)) with (get i s). by destruct (get i s). Qed.

Section again.
Context (ev : Z) (i : nat) (n : nat) (again : Shard -> option Shard).
(** The continuation, on a connection with fewer bytes than [n] received. *)
Context (Hagain : forall c s, But ev i c [] [] s -> idle c -> (length (u_acc c) < n)%nat ->
           exists s', again s = Some s' /\ Inv ev s').

Lemma dispatch_static_inv c req s : But ev i c [] [] s -> idle c -> is_Some static_root -> (length (u_acc c) < n)%nat ->
  exists s', dispatch_static again i req s = Some s' /\ Inv ev s'.
Proof.
  intros H ([Hs1 Hs2] & He & Hle) [sr Hr] Hn. unfold dispatch_static. rewrite Hr. pose proof (But_look _ _ _ _ _ _ H) as H1.
  destruct (plan _ _ _ _ _ _) as [p|e]; [|by eapply close_keeps].
  destruct (if use_splice then _ else _) as [segs|]; [|by eapply close_keeps]. set (ss := mkStatic _ _ _ _ _ _ _ _ _ _ _).
  assert (But ev i (set_u_static (Some ss) c) [] [] (upd i (set_u_static (Some ss)) (look s).2)) as H2 by (by apply But_upd).
  destruct (drive_static_inv _ _ _ ss _ H2) as (s1 & fin & -> & Hf); [done|done|by rewrite Hr|done|done|]. cbn [mbind option_bind after_static].
  destruct fin as [[|]|]; [|by eapply close_keeps|eauto]. by eapply Hagain.
Qed.

Lemma maybe_interim_inv c s : But ev i c [] [] s -> exists c', But ev i c' [] [] (maybe_interim_100 i s) /\
  (idle c -> idle c').
Proof.
  intros H. unfold maybe_interim_100. rewrite (b_get _ _ _ _ _ _ H). destruct (negb (u_interim c) && _); [|by exists c].
  set (out := take _ INTERIM_100). set (c1 := set_u_interim true c). exists c1. split; [|done].
  assert (But ev i c1 [] [] (put i c1 (look s).2)) as H1 by (by apply (But_put ev i c c1 [] [] [] _ (But_look _ _ _ _ _ _ H))).
  pose proof (But_owe _ _ _ _ _ _ out H1) as H2. cbn [app] in H2. eapply (But_wire _ _ c1); [exact H2|]. by rewrite app_nil_r.
Qed.

Lemma next_request_fits data m : next_request frame_verdict data = Http.Complete m -> 0 < m <= Z.of_nat (length data).
Proof.
  intros E. split; [by apply (ho_framer _ _ E)|]. unfold next_request in E. destruct (frame_verdict data) as [|tag le]; [done|].
  destruct (tag =? 0); [by destruct (REQUEST_CAP <? _)|]. destruct (tag =? 1); [done|]. destruct ((tag =? 2) && _); [|done].
  destruct (_ || _) eqn:Eo; [done|]. injection E as <-. apply orb_false_iff in Eo as [Eo _]. zify_bool. lia.
Qed.

Lemma dispatch_request_inv c total s : But ev i c [] [] s -> idle c -> (0 < total <= length (u_acc c))%nat -> (length (u_acc c) <= n)%nat ->
  exists s', dispatch_request again i total c s = Some s' /\ Inv ev s'.
Proof.
  intros H Hl Ht Hn. unfold dispatch_request. set (req := take total (u_acc c)). set (c1 := set_u_interim _ _).
  assert (But ev i c1 [] [] (put i c1 (look s).2)) as H1 by (by apply (But_put ev i c c1 [] [] [] _ (But_look _ _ _ _ _ _ H))).
  set (s1 := put i c1 (look s).2) in *.
  assert (length (u_acc c1) < n)%nat as Hlen by (unfold c1; cbn; rewrite length_drop; lia).
  assert (idle c1) as Hl1 by done. pose proof Hl1 as (Hn1 & He1 & Hle1). destruct (match static_root with Some sr => _ | None => _ end) eqn:Est.
  { eapply dispatch_static_inv; try done. by destruct static_root. }
  destruct (effect_seam && _).
  - look_at H1 as a s2 H2.
    destruct (seams proc_env (deployment a)) as [[step_seam resume_seam] prefix].
    set (msk := current_mask _). set (st := mkStep _ _ _ _ _ _). unfold submit. destruct (gw_up s2); [|by eapply close_keeps].
    eexists. split; [done|]. set (j := JobServe _ _ _ _).
    rewrite upd_jobs.
    eapply But_job; [by apply But_upd|done|]. apply S_serve; [done|]. destruct He1 as (Ha & Hp & _). split.
    + split; [by intros bid len seam m [=]|]. cbn. intros _. left. split; [done|]. by exists step_seam.
    + split; [done|]. change (u_await_head _) with (u_await_head c1). by rewrite Ha.
  - destruct (meter_of_inv ev i c1 c1 [] [] req s1 H1 eq_refl) as (m & s2 & -> & H2). cbn [mbind option_bind].
    look_at H2 as a s3 H3.
    set (f := fun c => set_u_hdr_start _ _). assert (But ev i (f c1) [] [] (upd i f s3)) as H4 by (by apply But_upd).
    look_at H4 as b s5 H5.
    eapply submit_or_close_inv; [exact H5| |done|].
    + unfold metered_job. destruct braid; [done|]. by destruct gateway_selector.
    + apply owned_job; [done|]. intros bid len seam m'. unfold metered_job. destruct braid; [done|].
      by destruct gateway_selector.
Qed.

Lemma dispatch_framed_inv c s : But ev i c [] [] s -> idle c -> (length (u_acc c) <= n)%nat ->
  exists s', dispatch_framed again i c s = Some s' /\ Inv ev s'.
Proof.
  intros H Hl Hn. unfold dispatch_framed. destruct (_ && _ && _); [eexists; split; [done|]; by eapply arm_recv_inv|].
  destruct (negb (u_h2c c) && _); [by eapply handoff_inv|].
  destruct (next_request frame_verdict (u_acc c)) as [|m|] eqn:En; [| |by eapply close_keeps].
  - eexists. split; [done|]. destruct (maybe_interim_inv c s H) as (c' & H' & Hl'). eapply arm_recv_inv; eauto.
  - apply next_request_fits in En. destruct (negb (u_hdr_done c) && _); [by eapply close_keeps|].
    destruct (is_connect _); [by eapply handoff_inv|]. destruct (is_ws_upgrade _); [by eapply handoff_inv|].
    look_at H as a s1 H1.
    destruct (takes_over_connection _ _ _ _); [by eapply handoff_inv|]. eapply dispatch_request_inv; try done. lia.
Qed.

Lemma dispatch_turn_inv c s : But ev i c [] [] s -> idle c -> (length (u_acc c) <= n)%nat ->
  exists s', dispatch_turn again i s = Some s' /\ Inv ev s'.
Proof.
  intros H Hl Hn. pose proof Hl as (Hl1 & He & _). unfold dispatch_turn. rewrite (b_get _ _ _ _ _ _ H).
  look_at H as a s1 H1.
  look_at H1 as b s2 H2.
  destruct (_ && _ && _); [by eapply stage_response_inv|].
  look_at H2 as d s3 H3.
  destruct (_ && _); [by eapply stage_response_inv|]. by eapply dispatch_framed_inv.
Qed.
End again.

Lemma dispatch_inv ev i fuel : forall c s, But ev i c [] [] s -> idle c -> (length (u_acc c) < fuel)%nat ->
  exists s', dispatch fuel i s = Some s' /\ Inv ev s'.
Proof.
  induction fuel as [|f IH]; intros c s H Hl Hf; [lia|]. cbn [dispatch].
  eapply (dispatch_turn_inv ev i f); try done. lia.
Qed.

Lemma dispatch_acc_inv ev i c s : But ev i c [] [] s -> idle c -> exists s', dispatch_acc i s = Some s' /\ Inv ev s'.
Proof. intros H Hl. unfold dispatch_acc. eapply dispatch_inv; try done. rewrite (b_get _ _ _ _ _ _ H). cbn. lia. Qed.

Lemma finish_send_inv ev i c ka s : But ev i c [] [] s -> idle c -> exists s', finish_send i ka s = Some s' /\ Inv ev s'.
Proof. intros H Hl. unfold finish_send. destruct ka; [by eapply dispatch_acc_inv|by eapply close_keeps]. Qed.

(** Where nothing may follow, only a close. *)
Lemma finish_close_inv ev i c left s : But ev i c left [] s -> exists s', finish_send i false s = Some s' /\ Inv ev s'.
Proof. intros H. by eapply close_keeps. Qed.

(** ** Receiving *)
Lemma on_recv_inv ev i c r data s : But ev i c [] [] s -> idle c -> exists s', on_recv i r data s = Some s' /\ Inv ev s'.
Proof.
  intros H Hl. unfold on_recv. destruct (r <=? 0); [by eapply close_keeps|]. rewrite (b_get _ _ _ _ _ _ H).
  set (c1 := set_u_acc _ c). eapply (dispatch_acc_inv ev i c1); [|done..]. by apply (But_put ev i c c1 [] [] [] s H).
Qed.

Lemma serve_borrowed_inv ev i c b slice s : But ev i c [] [b] s -> idle c ->
  exists s', serve_borrowed i b slice s = Some s' /\ Inv ev s'.
Proof.
  intros H (Hl & He & Hle). pose proof He as (Ha & Hp & Hs). unfold serve_borrowed. rewrite (b_get _ _ _ _ _ _ H).
  look_at H as a s1 H1.
  destruct (meter_of_inv ev i c c [] [b] slice s1 H1 eq_refl) as (m & s2 & -> & H2). cbn [mbind option_bind].
  look_at H2 as a2 s3 H3.
  set (c1 := set_u_interim false _). destruct (braid || _).
  - set (c2 := set_u_req_len _ _).
    assert (But ev i c2 [] [] (put i c2 s3)) as H4.
    { apply (But_put ev i c c2 [] [b] [] s3 H3); [done..|]. intros b'. unfold leases, c2. cbn [u_lease set_u_req_len set_u_lease]. rewrite Hle. cbn. lia. }
    assert (But ev i c2 [] [] (set_zc_borrow (wrapping_add 64 (zc_borrow s3) 1) (put i c2 s3))) as H5
      by (by apply (But_same _ _ _ _ _ (put i c2 s3))). 
    set (j := JobServe i _ _ _). destruct (submit_inv ev i c2 _ j H5) as [[-> _]|(s5 & -> & Hi)]; [done|done| | |eauto].
    { split; [|cbn; rewrite Ha, Hs; split; [by intros []|done]]. split; [|cbn; by rewrite Hs]. by intros bid len seam m' [= _ <-]. }
    eapply close_keeps, But_count, But_recycle. unfold upd. rewrite (b_get _ _ _ _ _ _ H5).
    eapply But_put; [exact H5|done..|]. intros b'. unfold leases, c2. cbn. lia.
  - assert (But ev i c1 [] [b] (put i c1 s3)) as H4 by (by apply (But_put ev i c c1 [] [b] [b] s3 H3)).
    assert (job_slot (metered_job i a slice m) = i) as Hj by (unfold metered_job; destruct braid; [done|]; by destruct gateway_selector).
    unfold submit. destruct (gw_up _).
    + eexists. split; [done|]. set (j := metered_job i a slice m) in *. set (s4 := put i c1 s3) in *.
      assert (count_recycle (recycle_bid b (set_jobs (jobs s4 ++ [j]) s4)) =
              set_jobs (jobs (count_recycle (recycle_bid b s4)) ++ [j]) (count_recycle (recycle_bid b s4))) as ->
        by (unfold count_recycle, recycle_bid; by destruct zc).
      eapply But_job; [by eapply But_count, But_recycle|done|]. apply S_serve; [done|]. apply owned_job; [done|].
      intros bid len seam m'. unfold j, metered_job. destruct braid; [done|]. by destruct gateway_selector.
    + by eapply close_keeps, But_count, But_recycle.
Qed.

Lemma on_recv_br_inv ev i c r bid s : But ev i c [] (from_option (fun b => [b]) [] bid) s -> zc = true ->
  (r <= 0 -> bid = None) -> (r > 0 -> is_Some bid) ->
  idle c -> exists s', on_recv_br i r bid s = Some s' /\ Inv ev s'.
Proof.
  intros H Hz Hn Hp Hl. unfold on_recv_br. destruct (r =? - ENOBUFS) eqn:Er.
  { zify_bool. unfold ENOBUFS in Er. rewrite (Hn ltac:(lia)) in H. cbn in H. eexists. split; [done|]. rewrite (b_get _ _ _ _ _ _ H).
    eapply But_push; [exact H|done..|]. apply S_recv; [done..|]. by left. }
  destruct (r <=? 0) eqn:E0; zify_bool. { rewrite (Hn E0) in H. by eapply close_keeps. }
  destruct (Hp ltac:(lia)) as [b ->]. cbn [from_option] in H. rewrite (b_get _ _ _ _ _ _ H).
  look_at H as a s1 H1. rewrite Hz. cbn [negb].
  destruct (_ && _); [by eapply serve_borrowed_inv|]. set (c1 := set_u_acc _ c).
  eapply (dispatch_acc_inv ev i c1); [|done..]. apply But_recycle. by apply (But_put ev i c c1 [] [b] [b] s1 H1).
Qed.
End serving.
