(* ===== verification/UringEffect.v ===== *)
(** * The invariant, through effects and the upstream dial

    A request on the effect seam waits for the serve owner or for its upstream,
    never for both; a dial's reply is recorded once, whatever ended it; a
    streamed body alternates between a receive from the upstream and a send to
    the client. *)
From S2P Require Import Prelude Bytes Lines Io Standing Cache Http Gzip Ws Static Chunked ProxyHead Fleet Interim Connect Blocking Lanes Interp Accept Counts UringState Uring UringInv UringServe.

Local Open Scope Z_scope.

Section effects.
Context {host : Host} {world : World} {ok : HostOk}.

(** A request on the effect seam, nothing of it outstanding. *)
Definition stepping (c : Conn) : Prop :=
  no_lane c /\ u_await_head c = false /\ is_Some (u_step c) /\ u_lease c = None.

Lemma push_result_inv ev i c result s : But ev i c [] [] s -> stepping c -> u_proxy c = None ->
  exists s', push_result_and_resume i result s = Some s' /\ Inv ev s'.
Proof.
  intros H (Hl & Ha & [st Hst] & Hle) Hp. unfold push_result_and_resume. rewrite (b_get _ _ _ _ _ _ H), Hst.
  set (st1 := mkStep _ _ _ _ _ _). set (j := JobServe _ _ _ _). set (c1 := set_u_step (Some st1) c).
  assert (But ev i c1 [] [] (put i c1 s)) as H1 by (by apply (But_put ev i c c1 [] [] [] s H)).
  destruct (submit_inv ev i c1 _ j H1) as [[-> _]|(s1 & -> & Hi)]; [done|done| | |eauto].
  - split; [split; [by intros|by right]|]. split; [done|]. cbn. by rewrite Ha.
  - eapply close_keeps. by apply But_upd.
Qed.

Lemma defer_inv ev i c s : But ev i c [] [] s -> stepping c -> u_proxy c = None ->
  exists s', defer_to_blocking i s = Some s' /\ Inv ev s'.
Proof.
  intros H (Hl & Ha & [st Hst] & Hle) Hp. unfold defer_to_blocking. rewrite (b_get _ _ _ _ _ _ H), Hst.
  set (c1 := set_u_req_ka _ _). assert (But ev i c1 [] [] (look (put i c1 s)).2) as H1 by (by apply But_look, (But_put ev i c c1 [] [] [] s H)).
  destruct (spawn_ok _); [|by eapply close_keeps]. eexists. split; [done|].
  apply (But_job ev i c1 [] _ (JobDefer i (st_req st)) H1); [done|]. apply S_serve; [done|]. by apply owned_job.
Qed.

(** ** The dial *)
Lemma But_dial ev i c d d' left x s : But ev i c left x s -> u_proxy c = Some d -> up_fd d' = up_fd d ->
  But ev i (set_u_proxy (Some d') c) left x (with_dial i d' s).
Proof.
  intros H Hd Hf. unfold with_dial, upd. rewrite (b_get _ _ _ _ _ _ H).
  apply (But_put ev i c _ left x x s H); [done|done| |done]. cbn. rewrite Hd. cbn. by rewrite Hf.
Qed.

Lemma But_dial_of ev i c left x s : But ev i c left x s -> dial_of i s = u_proxy c.
Proof. intros H. unfold dial_of. by rewrite (b_get _ _ _ _ _ _ H). Qed.

Lemma But_record ev i c left x ok' b s : But ev i c left x s -> But ev i c left x (record ok' b s).
Proof. intros H. unfold record. apply But_common; [done|]. by apply But_look. Qed.

Lemma dial_failed_inv ev i c s : But ev i c [] [] s -> stepping c -> exists s', proxy_dial_failed i s = Some s' /\ Inv ev s'.
Proof.
  intros H Hc. unfold proxy_dial_failed. destruct (But_take_proxy _ _ _ _ _ _ H) as (s1 & -> & H1).
  destruct (u_proxy c) as [d|]; (apply (push_result_inv ev i (set_u_proxy None c)); [|done..]); [by apply But_record|done].
Qed.

Lemma reply_done_inv ev i c d s : But ev i c [] [] s -> stepping c -> u_proxy c = Some d ->
  exists s', proxy_reply_done i s = Some s' /\ Inv ev s'.
Proof.
  intros H Hc Hd. unfold proxy_reply_done. destruct (But_take_proxy _ _ _ _ _ _ H) as (s1 & -> & H1). rewrite Hd.
  eapply push_result_inv; [by apply But_record|done..].
Qed.

(** *** Opening it: the new descriptor is in no other hands *)
Lemma elem_concat {A} (x : A) ls : x ∈ concat ls <-> exists l, x ∈ l /\ l ∈ ls.
Proof.
  induction ls as [|k ls IH]; cbn [concat]; [setoid_rewrite elem_of_nil; naive_solver|].
  rewrite elem_of_app, IH. setoid_rewrite elem_of_cons. naive_solver.
Qed.

Lemma not_in_tot {A} (g : A -> Z) (h : A -> list Z) f l : (forall a, f ∉ h a -> g a = 0) -> f ∉ concat (h <$> l) -> tot g l = 0.
Proof.
  intros Hg Hf. apply tot_zero. intros a Ha. apply Hg. intros Hin. apply Hf. apply elem_concat. exists (h a). split; [done|].
  by apply list_elem_of_fmap_2.
Qed.

Lemma is_z_ne f g : f <> g -> is_z f g = 0.
Proof. intros H. unfold is_z. by destruct (Z.eqb_spec f g). Qed.

Lemma conn_fds_spec f c : f ∉ conn_fds c -> fds_of f c = 0.
Proof.
  unfold conn_fds, fds_of. intros Hf. rewrite not_elem_of_cons in Hf. destruct Hf as [H1 H2]. rewrite is_z_ne by done.
  destruct (u_proxy c); cbn in *; [|done]. rewrite list_elem_of_singleton in H2. by rewrite is_z_ne.
Qed.

Lemma close_fds_spec f l : f ∉ close_fds l -> tot (closes f) l = 0.
Proof.
  intros H. apply tot_zero. intros q Hq. destruct q; try done. cbn. apply is_z_ne. intros ->. apply H. unfold close_fds.
  apply list_elem_of_omap. by eexists.
Qed.

Lemma accept_fds_spec f l : f ∉ accept_fds l -> tot (accepts f) l = 0.
Proof.
  intros H. apply tot_zero. intros e He. unfold accepts. destruct (_ && _) eqn:E; [|done]. apply is_z_ne. intros ->. apply H.
  unfold accept_fds. apply list_elem_of_omap. exists e. by rewrite E.
Qed.

Lemma fresh_fd f s : f ∉ open_fds s ->
  own (fds_of f) s = 0 /\ queued (closes f) s = 0 /\ tot (accepts f) (cq s) = 0 /\ tot (h_has f) (handed s) = 0.
Proof.
  unfold open_fds. rewrite !not_elem_of_app. intros (H1 & H2 & H3 & H4). split_and!.
  - apply (not_in_tot _ (fun o => from_option conn_fds [] o) f); [by intros [c|]; [apply conn_fds_spec|]|].
    intros (l & Hf & Hl)%elem_concat. apply list_elem_of_fmap in Hl as (o & -> & Ho). destruct o as [c|]; cbn in Hf; [|by apply not_elem_of_nil in Hf].
    apply H1. apply elem_concat. exists (conn_fds c). split; [done|]. apply list_elem_of_fmap_2, list_elem_of_omap. by eexists.
  - unfold queued. apply close_fds_spec in H2. rewrite tot_app in H2. done.
  - by apply accept_fds_spec.
  - apply tot_zero. intros h Hh. apply is_z_ne. intros ->. apply H4. by apply list_elem_of_fmap_2.
Qed.

Lemma But_open ev i c d left s : But ev i c left [] s -> u_proxy c = None -> up_fd d ∉ open_fds s ->
  But ev i (set_u_proxy (Some d) c) left [] (set_proxy_inflight (proxy_inflight s + 1) (put i (set_u_proxy (Some d) c) s)).
Proof.
  intros H Hp Hf. pose proof H as [Bs Bg Bac Bev Bget Bt Bw Bsl Bd]. pose proof Bg as [Gb Gf Gd Gc]. set (c' := set_u_proxy (Some d) c).
  destruct (fresh_fd _ _ Hf) as (F1 & F2 & F3 & F4). split; try done.
  - by apply (slab_ok_put i c).
  - split.
    + intros b. specialize (Gb b). change (own (leases b) _) with (own (leases b) (put i c' s)). rewrite (own_put _ i c c' s Bget). usimpl.
      change (leases b c') with (leases b c). lia.
    + intros f. specialize (Gf f). change (own (fds_of f) _) with (own (fds_of f) (put i c' s)). rewrite (own_put _ i c c' s Bget). usimpl.
      change (queued (closes f) _) with (queued (closes f) s). cbn [tot] in *.
      assert (fds_of f c' = fds_of f c + is_z f (up_fd d)) as -> by (unfold fds_of; rewrite Hp; cbn; lia).
      destruct (decide (f = up_fd d)) as [->|Hne]; [rewrite is_z_refl; lia|rewrite (is_z_ne f (up_fd d)) by done; lia].
    + change (own has_dial _) with (own has_dial (put i c' s)). rewrite (own_put _ i c c' s Bget). usimpl. rewrite Gd.
      assert (has_dial c' = 1 /\ has_dial c = 0) as [-> ->] by (unfold has_dial; by rewrite Hp). lia.
    + apply (counts_ext _ (fun ip => own (from_ip ip) s + tot (h_from ip) (handed s) + theirs (tick s) ip)); [|done].
      intros ip. change (own (from_ip ip) (set_proxy_inflight _ _)) with (own (from_ip ip) (put i c' s)). rewrite (own_put _ i c c' s Bget).
      change (from_ip ip c') with (from_ip ip c). usimpl. lia.
  - by apply (get_put_eq i c' c).
  - intros j d' Hne Hj. apply Bsl; [done|]. by apply (slot_ok_get_put _ _ _ c' _ _ _ _ _ H).
  - intros j Hj. apply Bd. change (get j (put i c' s) = None) in Hj. rewrite get_put in Hj by (by eapply get_lt). by case_decide.
Qed.

Lemma start_dial_inv ev i c backend req s : But ev i c [] [] s -> stepping c -> u_proxy c = None ->
  exists s', start_proxy_dial i backend req s = Some s' /\ Inv ev s'.
Proof.
  intros H Hc Hp. unfold start_proxy_dial. look_at H as a s1 H1.
  destruct (fleet (common s1)) as [f|]; cbn [mbind option_bind]; [|by eapply push_result_inv].
  destruct (addr resolve_target f backend) as [[sa|] f1]; (assert (But ev i c [] [] (UringState.set_fleet (Some f1) s1)) as H2 by (by apply But_common));
    [|by eapply push_result_inv].
  destruct (alloc _ _) as [fd|] eqn:Ea; [|eapply push_result_inv; [by apply But_record|done..]].
  apply ho_alloc in Ea. set (s2 := UringState.set_fleet (Some f1) s1) in *. pose proof (But_look _ _ _ _ _ _ H2) as H3. rewrite (b_get _ _ _ _ _ _ H3).
  eexists. split; [done|]. set (d := mkDial _ _ _ _ _ _ _ _ _ _ _ _ _ _ _).
  eapply (But_push ev i (set_u_proxy (Some d) c)); [by apply But_open|done..|]. destruct Hc as (Hl & Ha & Hst & Hle).
  apply (S_dial _ _ _ d); [done..|]. split; [done|]. left. by split_and!.
Qed.
(** ** The owner's steps *)
Lemma But_cache ev i c left x s k : But ev i c left x s -> But ev i c left x (UringState.set_cache k s).
Proof. by apply But_common. Qed.

Lemma on_step_reply_inv ev i c step s : But ev i c [] [] s -> stepping c -> u_proxy c = None ->
  exists s', on_step_reply i step s = Some s' /\ Inv ev s'.
Proof.
  intros H Hc Hp. unfold on_step_reply. destruct (decode_step step) as [resp|backend req|key|life key resp| |].
  - set (f := fun c : Conn => match u_step c with Some st => _ | None => _ end). pose proof Hc as (Hl & Ha & [st Hst] & Hle).
    assert (But ev i (f c) [] [] (upd i f s)) as H1 by (apply But_upd; [done|]; intros c'; unfold f; by destruct (u_step c')).
    eapply stage_response_inv; [exact H1| | |done]; unfold f; by rewrite Hst.
  - destruct native_proxy; [by eapply start_dial_inv|by eapply defer_inv].
  - destruct disk_on; [by eapply defer_inv|]. look_at H as a s1 H1. destruct (lookup_effect_nb _ _ _) as [k []];
      [eapply push_result_inv|eapply push_result_inv|eapply defer_inv]; by try apply But_cache.
  - destruct disk_on; [by eapply defer_inv|]. look_at H as a s1 H1. eapply push_result_inv; by try apply But_cache.
  - by eapply defer_inv.
  - by eapply defer_inv.
Qed.

(** ** The dial's completions *)
Lemma arm_proxy_recv_inv ev i c d s : But ev i c [] [] s -> stepping c -> u_proxy c = Some d -> dial_plain d \/ dial_streams d ->
  Inv ev (arm_proxy_recv i s).
Proof.
  intros H (Hl & Ha & Hst & Hle) Hd Hpl. unfold arm_proxy_recv. rewrite (But_dial_of _ _ _ _ _ _ H), Hd. look_at H as a s1 H1.
  pose proof (But_dial _ _ _ d (set_proxy_deadline (a_now a) d) _ _ _ H1 Hd eq_refl) as H2.
  eapply But_push; [exact H2|done..|]. eapply S_dial; [done..|]. split; [done|]. destruct Hpl as [Hpl|Hpl]; [left|right]; done.
Qed.

Lemma up_send_inv ev i c d d' data s : But ev i c [] [] s -> stepping c -> u_proxy c = Some d -> dial_plain d' -> up_fd d' = up_fd d ->
  Inv ev (push (QUpSend i (up_fd d) data) (with_dial i d' s)).
Proof.
  intros H (Hl & Ha & Hst & Hle) Hd Hpl Hf. pose proof (But_dial _ _ _ d d' _ _ _ H Hd Hf) as H2.
  eapply But_push; [exact H2|done..|]. eapply S_dial; [done..|]. split; [done|]. by left.
Qed.

Lemma on_proxy_connect_inv ev i c d r s : But ev i c [] [] s -> stepping c -> u_proxy c = Some d -> dial_plain d ->
  exists s', on_proxy_connect i r s = Some s' /\ Inv ev s'.
Proof.
  intros H Hc Hd Hpl. unfold on_proxy_connect. destruct (r <? 0); [by eapply dial_failed_inv|].
  rewrite (But_dial_of _ _ _ _ _ _ H), Hd. look_at H as a s1 H1. eexists. split; [done|]. by eapply up_send_inv.
Qed.

Lemma on_proxy_send_inv ev i c d r s : But ev i c [] [] s -> stepping c -> u_proxy c = Some d -> dial_plain d ->
  exists s', on_proxy_send i r s = Some s' /\ Inv ev s'.
Proof.
  intros H Hc Hd Hpl. unfold on_proxy_send. destruct (r <=? 0); [by eapply dial_failed_inv|].
  rewrite (But_dial_of _ _ _ _ _ _ H), Hd. set (d1 := set_pd_sent _ d). destruct (_ <? _)%nat.
  - look_at H as a s1 H1. eexists. split; [done|]. by eapply up_send_inv.
  - eexists. split; [done|]. eapply arm_proxy_recv_inv; [by apply (But_dial _ _ c d d1)|done|done|by left].
Qed.

(** ** Streaming *)
Lemma stream_finish_inv ev i c s : But ev i c [] [] s -> no_lane c -> u_await_head c = false ->
  exists s', proxy_stream_finish i s = Some s' /\ Inv ev s'.
Proof.
  intros H Hl Ha. unfold proxy_stream_finish. destruct (But_take_proxy _ _ _ _ _ _ H) as (s1 & -> & H1).
  match goal with |- context [release_lease i ?x] => set (s2 := x) end.
  assert (But ev i (set_u_proxy None c) [] [] s2) as H2 by (unfold s2; destruct (u_proxy c); [by apply But_record|done]).
  pose proof (But_release _ _ _ _ _ H2) as H3. rewrite (b_get _ _ _ _ _ _ H3). set (c3 := set_u_lease None _) in *.
  eapply (finish_send_inv ev i (set_u_step None c3)); [|done]. by apply (But_put ev i c3 _ [] [] [] _ H3).
Qed.

Lemma stream_chunk_inv ev i c d d' r c' s : But ev i c [] [] s ->
  c' = set_u_proxy (Some d') c \/ (exists ka, c' = set_u_ka ka (set_u_proxy (Some d') c)) ->
  stepping c -> u_proxy c = Some d -> dial_streams d' -> up_fd d' = up_fd d ->
  exists s', send_staged i c' r s = Some s' /\ Inv ev s'.
Proof.
  intros H Hc' (Hl & Ha & Hst & Hle) Hd Hs Hf.
  assert (u_fd c' = u_fd c /\ u_peer c' = u_peer c /\ u_proxy c' = Some d' /\ u_lease c' = None /\ no_lane c' /\ u_await_head c' = false /\ u_step c' = u_step c)
    as (E1 & E2 & E3 & E4 & E5 & E6 & E7) by (destruct Hc' as [->|[ka ->]]; done).
  eapply (send_staged_inv ev i c c'); [exact H|done|done| | |done|done|].
  - rewrite E3, Hd. cbn. by rewrite Hf.
  - intros b. unfold leases. by rewrite E4, Hle.
  - split; [done|]. right. rewrite E3, E7. by split; [eexists|].
Qed.

Lemma advance_ok p b : parser_ok p -> exists p' fin, advance false p b = Some (p', fin) /\ parser_ok p'.
Proof.
  intros H. rewrite advance_feeds by done.
  assert (forall b p, parser_ok p -> exists p', feeds false p b = Some p' /\ parser_ok p') as Hf.
  { clear. induction b as [|x b IH]; intros p Hp; cbn [feeds]; [eauto|].
    destruct (feed1 false p x) as [p1|] eqn:E; cbn [mbind option_bind]; [by apply IH; eapply feed1_ok|].
    destruct p as [[] z]; unfold feed1, turn, size_push in E; cbn [st Chunked.size] in E; repeat case_match; simplify_eq/=. }
  destruct (Hf b p H) as (p' & -> & Hp'). cbn. eauto.
Qed.

Lemma stream_forward_inv ev i c d s : But ev i c [] [] s -> stepping c -> u_proxy c = Some d -> dial_streams d -> stream d = true ->
  exists s', proxy_stream_forward_chunk i s = Some s' /\ Inv ev s'.
Proof.
  intros H Hc Hd Hs Hst. unfold proxy_stream_forward_chunk. rewrite (b_get _ _ _ _ _ _ H), Hd.
  eapply stream_chunk_inv; [exact H|by left|done|exact Hd| |reflexivity]. destruct Hs as (? & ? & ?). split_and!; [done|by left|done].
Qed.

Lemma sse_forward_inv ev i c d s : But ev i c [] [] s -> stepping c -> u_proxy c = Some d -> dial_streams d ->
  exists s', proxy_sse_forward_chunk i s = Some s' /\ Inv ev s'.
Proof.
  intros H Hc Hd (Hn & Hs & Hp). unfold proxy_sse_forward_chunk. rewrite (b_get _ _ _ _ _ _ H), Hd.
  assert (exists p fin, (if framing d is ByChunks then advance false (chunk_parser d) (up_acc d) else Some (chunk_parser d, false)) = Some (p, fin) /\ parser_ok p)
    as (p & fin & -> & Hp') by (destruct (framing d); [eauto|eauto|by apply advance_ok|eauto]).
  cbn [mbind option_bind]. eapply stream_chunk_inv; [exact H|by left|done|exact Hd| |reflexivity]. split_and!; [done|by right|done].
Qed.

Lemma after_send_inv ev i c d fin s : But ev i c [] [] s -> stepping c -> u_proxy c = Some d -> dial_streams d ->
  exists s', proxy_after_send i fin s = Some s' /\ Inv ev s'.
Proof.
  intros H Hc Hd Hs. unfold proxy_after_send. assert (But ev i (load None c) [] [] (upd i (load None) s)) as H1 by (by apply But_upd).
  destruct fin; [destruct Hc as (? & ? & ?); by eapply stream_finish_inv|]. eexists. split; [done|].
  eapply arm_proxy_recv_inv; [exact H1|done|exact Hd|by right].
Qed.

(** ** The reply *)
Lemma decide_framing_plain d : dial_plain d -> dial_plain (decide_framing d) /\ up_fd (decide_framing d) = up_fd d.
Proof.
  intros (H1 & H2 & H3 & H4 & H5). unfold decide_framing. destruct (pd_head_end d) as [he|] eqn:Eh; [by rewrite <- Eh in H4|].
  destruct (ProxyHead.find (up_acc d) CRLFCRLF) as [p|] eqn:Ef; [|split; [split_and!; try done; by rewrite Eh|done]].
  apply windows_position_bound in Ef. cbn [length CRLFCRLF] in Ef.
  assert (forall he, Some (p + 4)%nat = Some he -> (he <= length (up_acc d))%nat) as Hhe by (intros he [= <-]; lia).
  destruct (content_length _); [|destruct (is_chunked _)]; (split; [|done]); split_and!; try done.
Qed.

Lemma reply_complete_plain d : dial_plain d -> exists d' fin, reply_complete d = Some (d', fin) /\ dial_plain d' /\ up_fd d' = up_fd d.
Proof.
  intros H. unfold reply_complete. destruct (decide_framing_plain d H) as [H1 H2]. set (d1 := decide_framing d) in *.
  destruct (pd_head_end d1) eqn:Eh; [|by eexists _, _]. destruct (framing d1) eqn:Ef; try by eexists _, _.
  destruct H1 as (A1 & A2 & A3 & A4 & A5). destruct (Nat.leb_spec (chunk_fed d1) (length (up_acc d1))); [|specialize (A5 Ef); lia].
  destruct (advance_ok (chunk_parser d1) (drop (chunk_fed d1) (up_acc d1)) A3) as (p & fin & -> & Hp). cbn [mbind option_bind].
  eexists _, _. split; [done|]. split; [|done]. split_and!; try done. by rewrite <- Eh.
Qed.

Lemma on_stream_head_inv ev i c d head s : But ev i c [] [] s -> no_lane c -> u_proxy c = Some d -> dial_plain d -> is_Some (u_step c) -> u_lease c = None ->
  native_stream = true -> exists s', on_stream_head_reply i head s = Some s' /\ Inv ev s'.
Proof.
  intros H Hl Hd Hpl Hst Hle Hn. unfold on_stream_head_reply. set (c1 := set_u_await_head false c).
  assert (But ev i c1 [] [] (upd i (set_u_await_head false) s)) as H1 by (by apply But_upd). assert (stepping c1) as Hc1 by done.
  assert (u_proxy c1 = Some d) as Hd1 by done. case_bool_decide.
  - rewrite (But_dial_of _ _ _ _ _ _ H1), Hd1. destruct (reply_complete_plain d Hpl) as (d' & fin & -> & Hpl' & Hf). cbn [mbind option_bind].
    pose proof (But_dial _ _ _ _ d' _ _ _ H1 Hd1 Hf) as H2. destruct fin; [by eapply reply_done_inv|]. eexists. split; [done|].
    eapply arm_proxy_recv_inv; [exact H2|done|done|by left].
  - rewrite (b_get _ _ _ _ _ _ H1), Hd1. destruct Hpl as (A1 & A2 & A3 & A4 & A5).
    assert (default (length (up_acc d)) (pd_head_end d) <= length (up_acc d))%nat as Hhe
      by (destruct (pd_head_end d) as [he|] eqn:E; cbn; [by apply A4|done]).
    destruct (Nat.ltb_spec (length (up_acc d)) (default (length (up_acc d)) (pd_head_end d))); [lia|].
    eapply stream_chunk_inv; [exact H1|right; by eexists|done|exact Hd1| |reflexivity]. split_and!; [done|by left|done].
Qed.

Lemma try_sse_inv ev i c d fin s : But ev i c [] [] s -> stepping c -> u_proxy c = Some d -> dial_plain d ->
  exists o, try_start_proxy_sse i fin s = Some o /\ forall s', o = Some s' -> Inv ev s'.
Proof.
  intros H Hc Hd (A1 & A2 & A3 & A4 & A5). unfold try_start_proxy_sse. destruct native_stream eqn:En; cbn [negb]; [|by eexists].
  rewrite (b_get _ _ _ _ _ _ H), Hd. destruct (pd_head_end d) as [he|]; [|by eexists]. destruct (stream d || sse d || _); [by eexists|].
  destruct (forward_response_head_gated _ _) as [h|].
  - set (d1 := set_sse _ _ _ d). match goal with |- context [send_staged i ?c1 ?r s] => set (c1' := c1); set (r' := r) end.
    destruct (stream_chunk_inv ev i c d d1 r' c1' s H) as (s1 & -> & Hi); [right; by eexists|done|done| |done|].
    { split_and!; [done|by right|done]. }
    cbn [mbind option_bind]. eexists. split; [done|]. by intros s' [= <-].
  - destruct (dial_failed_inv ev i c s H Hc) as (s1 & -> & Hi). cbn [mbind option_bind]. eexists. split; [done|]. by intros s' [= <-].
Qed.

Lemma try_stream_inv ev i c d s s' : But ev i c [] [] s -> stepping c -> u_proxy c = Some d -> dial_plain d ->
  try_start_proxy_stream i s = Some s' -> Inv ev s'.
Proof.
  intros H (Hl & Ha & Hst & Hle) Hd Hpl. unfold try_start_proxy_stream. destruct native_stream eqn:En; cbn [negb]; [|done].
  rewrite (b_get _ _ _ _ _ _ H). cbn [mbind option_bind]. rewrite Hd. cbn [mbind option_bind]. destruct (stream d); [done|].
  destruct (pd_head_end d) as [he|]; [|done]. cbn [mbind option_bind]. destruct (framing d); try done. cbn [mbind option_bind].
  destruct Hst as [st Hst]. rewrite Hst. cbn [mbind option_bind]. unfold submit. destruct (gw_up s); [|done]. intros [= <-].
  rewrite upd_jobs. set (j := JobServe _ _ _ _). eapply (But_job _ _ (set_u_await_head true c)); [by apply But_upd|done|].
  apply S_serve; [done|]. split; [split; [by intros|]|].
  - cbn. rewrite Hst. done.
  - split; [done|]. cbn. eexists. by split_and!.
Qed.

Lemma on_proxy_recv_inv ev i c d r data s : But ev i c [] [] s -> stepping c -> u_proxy c = Some d -> dial_plain d \/ dial_streams d ->
  exists s', on_proxy_recv i r data s = Some s' /\ Inv ev s'.
Proof.
  intros H Hc Hd Hpl. pose proof Hc as (Hl & Ha & _). unfold on_proxy_recv. rewrite (But_dial_of _ _ _ _ _ _ H), Hd. destruct (r =? 0).
  { destruct (sse d); [|destruct (stream d); [by eapply stream_finish_inv|by eapply reply_done_inv]].
    unfold proxy_sse_eof. eapply stream_finish_inv; [by apply But_upd|done..]. }
  destruct (r <? 0); [by eapply dial_failed_inv|]. set (d1 := set_up_acc _ d).
  pose proof (But_dial _ _ _ d d1 _ _ _ H Hd eq_refl) as H1. set (c1 := set_u_proxy (Some d1) c) in *. assert (stepping c1) as Hc1 by done.
  destruct Hpl as [Hpl|Hs].
  - pose proof Hpl as (A1 & A2 & A3 & A4 & A5). rewrite A1, A2. assert (dial_plain d1) as Hpl1.
    { unfold dial_plain, d1. cbn. rewrite length_app. split_and!; try done; [intros he Hhe; specialize (A4 he Hhe)|intros Hf; specialize (A5 Hf)]; lia. }
    destruct (reply_complete_plain d1 Hpl1) as (d2 & fin & -> & Hpl2 & Hf). cbn [mbind option_bind].
    pose proof (But_dial _ _ c1 d1 d2 _ _ _ H1 eq_refl Hf) as H2. set (c2 := set_u_proxy (Some d2) c1) in *. assert (stepping c2) as Hc2 by done.
    destruct (try_sse_inv ev i c2 d2 fin _ H2 Hc2 eq_refl Hpl2) as ([s3|] & -> & Ho); cbn [mbind option_bind]; [by eauto|].
    destruct (try_start_proxy_stream _ _) as [s3|] eqn:E; [eexists; split; [done|]; by eapply (try_stream_inv ev i c2 d2)|].
    destruct fin; [by eapply reply_done_inv|]. eexists. split; [done|]. eapply (arm_proxy_recv_inv ev i c2 d2); [exact H2|done|done|by left].
  - destruct (sse d) eqn:Es; [by eapply sse_forward_inv|]. pose proof Hs as (Hn & [Hst|?] & Hp); [rewrite Hst|congruence]. by eapply stream_forward_inv.
Qed.
End effects.
