(* ===== verification/UringSend.v ===== *)
(** * The invariant, through sends and answers

    [Mid] is the invariant while a completion of slot [i] is at work and others
    of the same slot may still come: a zero-copy send is settled only when the
    data completion of every entry and every promised notification are in. *)
From S2P Require Import Prelude Bytes Lines Io Standing Cache Http Gzip Ws Static Chunked ProxyHead Fleet Interim Connect Blocking Lanes Interp Accept Counts UringState Uring UringInv UringServe UringEffect.

Local Open Scope Z_scope.

Section sending.
Context {host : Host} {world : World} {ok : HostOk}.

Record Mid (ev : Z) (i : nat) (c : Conn) (left : bytes) (x : list Z) (s : Shard) : Prop := {
  m_slab : slab_ok (slab s);
  m_glob : glob x [] s;
  m_accept : armed QAccept s = 1;
  m_eventfd : armed QEventfd s = ev;
  m_get : get i s = Some c;
  m_wire : exact_wire -> wire_of (u_fd c) s ++ left = due_of (u_fd c) s;
  m_slots j c' : j <> i -> get j s = Some c' -> good_slot s j c';
  m_dead j : get j s = None -> toks j s = []
}.

Lemma Mid_But ev i c left x s : Mid ev i c left x s -> toks i s = [] -> But ev i c left x s.
Proof. intros [] Ht. by split. Qed.

Lemma Mid_Inv ev i c left s : Mid ev i c left [] s -> slot_ok (br_mem s) i c (toks i s) left -> Inv ev s.
Proof.
  intros [] Hok. split; try done. intros j d Hj. destruct (decide (j = i)) as [->|]; [|by auto].
  assert (d = c) as -> by congruence. by exists left.
Qed.

(** A change of the send state. *)
Lemma Mid_put ev i c c' left x s : Mid ev i c left x s ->
  u_fd c' = u_fd c -> u_peer c' = u_peer c -> u_proxy c' = u_proxy c -> u_lease c' = u_lease c -> Mid ev i c' left x (put i c' s).
Proof.
  intros [Ms Mg Ma Me Mget Mw Msl Md] Hfd Hpe Hpr Hle. pose proof Mg as [Gb Gf Gd Gc].
  assert (forall g, g c' = g c -> own g (put i c' s) = own g s) as Hown by (intros g Hg; rewrite (own_put g i c c' s Mget), Hg; lia).
  split; try done.
  - by eapply slab_ok_put.
  - split.
    + intros b. rewrite Hown by (unfold leases; by rewrite Hle). apply (Gb b).
    + intros f. rewrite Hown by (unfold fds_of; by rewrite Hfd, Hpr). apply (Gf f).
    + rewrite Hown by (unfold has_dial; by rewrite Hpr). done.
    + eapply counts_ext; [|exact Gc]. intros ip. cbn beta. rewrite Hown by (unfold from_ip; by rewrite Hpe). done.
  - by eapply get_put_eq.
  - by rewrite Hfd.
  - intros j d Hne Hj. apply Msl; [done|]. rewrite get_put in Hj by (by eapply get_lt). by rewrite decide_False in Hj.
  - intros j Hj. apply Md. rewrite get_put in Hj by (by eapply get_lt). by case_decide.
Qed.

Lemma Mid_push ev i c left x s q : Mid ev i c left x s -> sqe_conn q = true -> sqe_slot q = i -> Mid ev i c left x (push q s).
Proof.
  intros [Ms Mg Ma Me Mget Mw Msl Md] Hc Hq. destruct (conn_tags q Hc) as (Ha & He & Hcl). pose proof Mg as [Gb Gf Gd Gc]. split; try done.
  - split; try done. intros f. specialize (Gf f). rewrite queued_push, Hcl. change (own (fds_of f) (push q s)) with (own (fds_of f) s).
    change (cq (push q s)) with (cq s). change (handed (push q s)) with (handed s). lia.
  - rewrite <- Ma. unfold armed. rewrite queued_push. cbn [sqe_tag]. rewrite Ha. change (cq (push q s)) with (cq s). cbn [one]. lia.
  - rewrite <- Me. unfold armed. rewrite queued_push. cbn [sqe_tag]. rewrite He. change (cq (push q s)) with (cq s). cbn [one]. lia.
  - intros j d Hne Hj. apply (good_slot_frame s); [by eapply push_other|done..|by apply Msl].
  - intros j Hj. change (get j (push q s)) with (get j s) in Hj. rewrite (push_other q i) by (done || congruence). by apply Md.
Qed.

(** ** Finishing a send *)
Lemma zc_streams_inexact c d : u_proxy c = Some d -> dial_streams d -> zc = true -> ~ exact_wire.
Proof. intros _ (Hn & _) Hz [_ He]. rewrite He in Hn by done. done. Qed.

Lemma streamed_None c : u_proxy c = None -> streamed c = None.
Proof. unfold streamed. by intros ->. Qed.

Lemma streamed_Some c d : u_proxy c = Some d -> dial_streams d -> exists fin, streamed c = Some fin.
Proof. unfold streamed. intros -> (_ & Hs & _). destruct (sse d), (stream d); naive_solver. Qed.

(** What follows a send that is done: the next block of a stream, the next
    request, or a close. *)
Lemma sent_inv ev i c s : But ev i c [] [] s -> no_lane c -> u_await_head c = false -> may_send c -> forall ka c',
  (c' = load None c \/ c' = set_u_sent 0%nat (set_u_resp None c)) ->
  exists s', match streamed c with
             | Some fin => proxy_after_send i fin s
             | None => finish_send i ka (put i c' s)
             end = Some s' /\ Inv ev s'.
Proof.
  intros H Hl Ha (Hle & [[Hp Hs]|[(d & Hp & Hd) Hs]]) ka c' Hc'.
  - rewrite streamed_None by done.
    assert (u_fd c' = u_fd c /\ u_peer c' = u_peer c /\ u_proxy c' = u_proxy c /\ u_lease c' = u_lease c /\ idle c') as (E1 & E2 & E3 & E4 & E5)
      by (destruct Hc' as [->| ->]; done).
    eapply (finish_send_inv ev i c'); [|done]. apply (But_put ev i c c' [] [] [] s H); [done|done|by rewrite E3|].
    intros b. unfold leases. by rewrite E4.
  - destruct (streamed_Some c d Hp Hd) as [fin ->]. by eapply after_send_inv.
Qed.

Lemma finalize_inv ev i c r s : But ev i c (drop (u_sent c) r) [] s -> zc = true -> no_lane c -> u_await_head c = false -> may_send c -> u_resp c = Some r ->
  exists s', finalize_zc_send i s = Some s' /\ Inv ev s'.
Proof.
  intros H Hz Hl Ha Hm Hr. unfold finalize_zc_send. rewrite (b_get _ _ _ _ _ _ H).
  assert (But ev i c [] [] s \/ u_proxy c = None /\ (u_sent c < length r)%nat) as [H0|[Hp Hlt]].
  { destruct (decide (length r <= u_sent c)%nat) as [Hle|]; [left; by rewrite drop_ge in H|].
    destruct Hm as (_ & [[Hp _]|[(d & Hp & Hd) _]]); [right; split; [done|lia]|left]. eapply But_left; [by eapply zc_streams_inexact|done]. }
  - eapply sent_inv; [done..|]. by left.
  - rewrite streamed_None by done. unfold resp_len. rewrite Hr. cbn [from_option].
    destruct (Nat.leb_spec (length r) (u_sent c)); [lia|]. rewrite andb_false_r. cbn [andb finish_send].
    eapply (close_keeps ev i (load None c)). by apply (But_put ev i c (load None c) _ [] [] s H).
Qed.

(** ** Plain sends *)
Lemma on_send_plain_inv ev i c r e left s : But ev i c left [] s -> zc = false -> no_lane c -> u_await_head c = false -> may_send c -> u_resp c = Some r ->
  (u_sent c <= length r)%nat -> is_data false i (u_fd c) r (u_sent c) (TC e) left ->
  exists s', on_send_plain i (res e) s = Some s' /\ Inv ev s'.
Proof.
  intros H Hz Hl Ha Hm Hr Hs (Ht & Hn & Hb & Hmo & Hres & Hleft). unfold on_send_plain. destruct (res e <=? 0) eqn:E0; [by eapply close_keeps|]. zify_bool.
  rewrite (b_get _ _ _ _ _ _ H). rewrite Z.max_r in Hleft by lia. set (c1 := set_u_sent _ c).
  assert (But ev i c1 left [] (put i c1 s)) as H1 by (by apply (But_put ev i c c1 left [] [] s H)).
  assert (resp_len c1 = length r) as -> by (unfold resp_len, c1; cbn [u_resp set_u_sent]; by rewrite Hr).
  assert (u_sent c1 = (u_sent c + Z.to_nat (res e))%nat) as Hs1 by done. destruct (Nat.ltb_spec (u_sent c1) (length r)) as [Hlt|Hge].
  - unfold send_sqe. change (u_resp c1) with (u_resp c). rewrite Hr. cbn [mbind option_bind]. destruct (Nat.leb_spec (u_sent c1) (length r)); [|lia].
    cbn [mbind option_bind]. eexists. split; [done|]. eapply But_push; [exact H1|done..|]. apply (S_send _ _ _ r); [done..|].
    split; [lia|]. rewrite Hz. eexists. split; [done|]. split; [done|]. by rewrite Hleft.
  - assert (left = []) as -> by (rewrite Hleft; apply drop_ge; lia). eapply sent_inv; [done..|]. by right.
Qed.

(** ** Zero-copy sends *)
Lemma note_in T D N T1 e z i c r sent left : T ≡ₚ D ++ N -> T ≡ₚ TC e :: T1 -> Forall is_note N ->
  match D with [] => True | [t] => is_data z i c r sent t left | _ => False end ->
  (cq_notif e = true /\ exists N', N ≡ₚ TC e :: N' /\ T1 ≡ₚ D ++ N') \/ (cq_notif e = false /\ D = [TC e] /\ T1 ≡ₚ N).
Proof.
  intros H1 H2 HN HD. assert (TC e ∈ D ++ N) as Hin by (rewrite <- H1, H2; left). apply elem_of_app in Hin as [Hin|Hin].
  - right. destruct D as [|t [|]]; [by apply elem_of_nil in Hin| |done]. apply list_elem_of_singleton in Hin as <-.
    destruct HD as (_ & Hn & _). split_and!; [done..|]. rewrite H1 in H2. cbn [app] in H2. by apply Permutation_cons_inv in H2.
  - left. pose proof (proj1 (Forall_forall _ _) HN _ Hin) as (_ & Hn & _). split; [done|].
    apply elem_of_Permutation in Hin as [N' HN']. exists N'. split; [done|]. rewrite H1, HN' in H2.
    rewrite <- Permutation_middle in H2. symmetry. by apply Permutation_cons_inv in H2.
Qed.

Definition zc_settled (c : Conn) : Prop := zc_data (u_zc c) = zc_issued (u_zc c) /\ zc_notif (u_zc c) = zc_notif_exp (u_zc c).

(** After the bookkeeping of a completion: either something is still to come,
    or the send is settled. *)
Lemma settle_inv ev i c r left s : Mid ev i c left [] s -> zc = true -> no_lane c -> u_await_head c = false -> may_send c -> u_resp c = Some r ->
  (toks i s <> [] -> ~ zc_settled c /\ sends i c r (toks i s) left) ->
  (toks i s = [] -> zc_settled c /\ left = drop (u_sent c) r) ->
  exists s', (match get i s with
              | None => Some s
              | Some c1 => if (zc_data (u_zc c1) =? zc_issued (u_zc c1)) && (zc_notif (u_zc c1) =? zc_notif_exp (u_zc c1))
                           then finalize_zc_send i s else Some s
              end) = Some s' /\ Inv ev s'.
Proof.
  intros H Hz Hl Ha Hm Hr Hmore Hend. rewrite (m_get _ _ _ _ _ _ H).
  destruct ((zc_data (u_zc c) =? zc_issued (u_zc c)) && (zc_notif (u_zc c) =? zc_notif_exp (u_zc c))) eqn:E.
  - apply andb_true_iff in E as [E1 E2]. zify_bool. destruct (toks i s) as [|t T] eqn:Et; [|by destruct Hmore as [[] _]].
    destruct (Hend eq_refl) as [_ ->]. eapply finalize_inv; try done. by apply Mid_But.
  - eexists. split; [done|]. apply (Mid_Inv _ _ _ _ _ H). destruct (toks i s) as [|t T] eqn:Et.
    { destruct (Hend eq_refl) as [[E1 E2] _]. apply andb_false_iff in E as [E|E]; zify_bool; congruence. }
    apply (S_send _ _ _ r); [done..|]. by apply Hmore.
Qed.

Lemma sends_notes i c r T left : zc = true -> T <> [] -> Forall is_note T -> (u_sent c <= length r)%nat ->
  zc_issued (u_zc c) = zc_data (u_zc c) -> zc_notif_exp (u_zc c) = zc_notif (u_zc c) + Z.of_nat (length T) ->
  left = drop (u_sent c) r -> (zc_error (u_zc c) = true \/ (length r <= u_sent c)%nat) -> ~ zc_settled c /\ sends i c r T left.
Proof.
  intros Hz HT HN Hs Hd Hn Hl He. split.
  - intros [_ E]. destruct T; [done|]. cbn [length] in Hn. lia.
  - split; [done|]. rewrite Hz. exists [], T. cbn [app tot]. split_and!; try done. lia.
Qed.

Section zc.
Context (ev : Z) (i : nat) (c : Conn) (r : bytes) (left : bytes) (s : Shard).
Context (H : Mid ev i c left [] s) (Hz : zc = true) (Hl : no_lane c) (Ha : u_await_head c = false) (Hm : may_send c) (Hr : u_resp c = Some r)
  (Hs : (u_sent c <= length r)%nat).

(** A change of the send bookkeeping, when nothing more is queued. *)
Lemma settle_put c1 : u_fd c1 = u_fd c -> u_peer c1 = u_peer c -> u_proxy c1 = u_proxy c -> u_lease c1 = u_lease c ->
  no_lane c1 -> u_await_head c1 = false -> may_send c1 -> u_resp c1 = Some r ->
  (toks i s <> [] -> ~ zc_settled c1 /\ sends i c1 r (toks i s) left) -> (toks i s = [] -> zc_settled c1 /\ left = drop (u_sent c1) r) ->
  exists s', (match get i (put i c1 s) with
              | None => Some (put i c1 s)
              | Some c2 => if (zc_data (u_zc c2) =? zc_issued (u_zc c2)) && (zc_notif (u_zc c2) =? zc_notif_exp (u_zc c2))
                           then finalize_zc_send i (put i c1 s) else Some (put i c1 s)
              end) = Some s' /\ Inv ev s'.
Proof. intros. eapply (settle_inv ev i c1 r left); try done. by apply (Mid_put ev i c c1 left [] s H). Qed.

(** A notification. *)
Lemma zc_notif_inv e D N' : cq_notif e = true -> Forall is_note N' -> toks i s ≡ₚ D ++ N' ->
  zc_notif_exp (u_zc c) + tot promised D = zc_notif (u_zc c) + 1 + Z.of_nat (length N') ->
  match D with
  | [] => zc_issued (u_zc c) = zc_data (u_zc c) /\ left = drop (u_sent c) r /\ (zc_error (u_zc c) = true \/ (length r <= u_sent c)%nat)
  | [t] => zc_issued (u_zc c) = zc_data (u_zc c) + 1 /\ zc_error (u_zc c) = false /\ is_data true i (u_fd c) r (u_sent c) t left
  | _ => False
  end ->
  exists s', on_send_zc i (res e) (cq_more e) (cq_notif e) s = Some s' /\ Inv ev s'.
Proof.
  intros Hno HN1 HT1 Hcnt HD. unfold on_send_zc. rewrite (m_get _ _ _ _ _ _ H), Hno. cbn [mbind option_bind]. set (c1 := set_u_zc _ c).
  apply (settle_put c1); try done.
  - intros Hne. destruct D as [|t [|]]; [| |done].
    + cbn [app] in HT1. destruct HD as (Hd & Hleft & He). apply sends_notes; try done; [by rewrite HT1|].
      apply Permutation_length in HT1. cbn [tot] in Hcnt. unfold c1. cbn [u_zc set_u_zc zc_notif_exp zc_notif]. lia.
    + destruct HD as (Hd & He & Hdat). split; [intros [E _]; unfold c1 in E; cbn [u_zc set_u_zc zc_data zc_issued] in E; lia|].
      split; [done|]. rewrite Hz. exists [t], N'. unfold c1. cbn [u_zc set_u_zc zc_notif_exp zc_notif zc_issued zc_data zc_error].
      split_and!; try done; lia.
  - intros Hnil. rewrite Hnil in HT1. symmetry in HT1. apply Permutation_nil_r, app_nil in HT1 as [-> ->].
    destruct HD as (Hd & Hleft & He). cbn [tot length] in Hcnt. split; [|done]. unfold zc_settled, c1. cbn [u_zc set_u_zc zc_data zc_issued zc_notif zc_notif_exp]. split; lia.
Qed.

(** The data completion: the rest is sent, or all of it is out, or it failed. *)
Lemma zc_data_inv e : cq_notif e = false -> Forall is_note (toks i s) ->
  zc_notif_exp (u_zc c) + one (cq_more e) = zc_notif (u_zc c) + Z.of_nat (length (toks i s)) ->
  zc_issued (u_zc c) = zc_data (u_zc c) + 1 -> zc_error (u_zc c) = false -> is_data true i (u_fd c) r (u_sent c) (TC e) left ->
  exists s', on_send_zc i (res e) (cq_more e) (cq_notif e) s = Some s' /\ Inv ev s'.
Proof.
  intros Hno HN1 Hcnt Hd He (Ht & _ & Hb & Hmo & Hres & Hleft). unfold on_send_zc. rewrite (m_get _ _ _ _ _ _ H), Hno. cbv iota zeta. set (z1 := mkZc _ (_ + 1) _ _ _).
  assert (zc_issued z1 = zc_data z1 /\ zc_notif_exp z1 = zc_notif z1 + Z.of_nat (length (toks i s)) /\ zc_error z1 = false) as (A1 & A2 & A3)
    by (unfold z1; cbn [zc_issued zc_data zc_notif_exp zc_notif zc_error]; unfold one in Hcnt; destruct (cq_more e); split_and!; [lia|lia|done|lia|lia|done]).
  destruct (res e <? 0) eqn:E0; zify_bool.
  { rewrite Z.max_l, Nat.add_0_r in Hleft by lia. cbn [mbind option_bind]. apply settle_put; try done.
    - intros Hne. apply sends_notes; try done. by left.
    - intros Hnil. rewrite Hnil in A2. cbn [length] in A2. split; [split; cbn [u_zc set_u_zc zc_data zc_issued zc_notif zc_notif_exp]; lia|done]. }
  rewrite Z.max_r in Hleft by lia. rewrite A3. cbn [negb andb]. set (c1 := set_u_sent _ _).
  assert (u_sent c1 = (u_sent c + Z.to_nat (res e))%nat) as Hs1 by done. assert (resp_len c1 = length r) as -> by (unfold resp_len, c1; cbn; by rewrite Hr).
  destruct (Nat.ltb_spec (u_sent c1) (length r)) as [Hlt|Hge].
  - unfold send_sqe. change (u_resp c1) with (u_resp c). rewrite Hr. cbn [mbind option_bind]. destruct (Nat.leb_spec (u_sent c1) (length r)); [|lia].
    cbn [mbind option_bind]. set (q := QSend _ _ _ _). set (c2 := set_u_zc (zc_issue z1) c1).
    assert (toks i (push q (put i c2 s)) ≡ₚ [TQ q] ++ toks i s) as Hp.
    { pose proof (push_toks q i (put i c2 s)) as Hp. unfold sqe_tok in Hp. cbn [q sqe_conn sqe_slot] in Hp. by rewrite Nat.eqb_refl in Hp. }
    eapply (settle_inv ev i c2 r left); try done; [apply Mid_push; [by apply (Mid_put ev i c c2 left [] s H)|done..]| |].
    + intros _. split; [intros [E _]; unfold c2 in E; cbn [u_zc set_u_zc zc_issue zc_data zc_issued] in E; lia|].
      split; [change (u_sent c2) with (u_sent c1); lia|]. rewrite Hz. exists [TQ q], (toks i s). split; [done|]. split; [intros E; rewrite E in Hp; by apply Permutation_nil_cons in Hp|].
      split; [done|]. unfold c2. cbn [u_zc set_u_zc zc_issue zc_issued zc_data zc_notif_exp zc_notif zc_error tot promised is_data].
      split; [lia|]. split; [lia|]. split; [done|]. by rewrite Hleft.
    + intros E. rewrite E in Hp. by apply Permutation_nil_cons in Hp.
  - cbn [mbind option_bind]. apply settle_put; try done.
    + intros Hne. apply sends_notes; try done; [lia|by right].
    + intros Hnil. rewrite Hnil in A2. cbn [length] in A2. split; [split; unfold c1; cbn [u_zc set_u_sent set_u_zc]; lia|done].
Qed.
End zc.

Lemma on_send_zc_inv ev i c r e left T s : Mid ev i c left [] s -> zc = true -> no_lane c -> u_await_head c = false -> may_send c -> u_resp c = Some r ->
  T ≡ₚ TC e :: toks i s -> sends i c r T left ->
  exists s', on_send_zc i (res e) (cq_more e) (cq_notif e) s = Some s' /\ Inv ev s'.
Proof.
  intros H Hz Hl Ha Hm Hr HT (Hs & Hsend). rewrite Hz in Hsend. destruct Hsend as (D & N & HDN & _ & HN & Hcnt & HD).
  destruct (note_in T D N (toks i s) e true i (u_fd c) r (u_sent c) left HDN HT HN) as [(Hno & N' & HN' & HT1)|(Hno & -> & HT1)].
  { destruct D as [|? []]; [done|naive_solver|done]. }
  - apply Permutation_length in HN' as HNl. cbn [length] in HNl. rewrite HN' in HN. apply Forall_cons in HN as [_ HN].
    eapply (zc_notif_inv ev i c r left s); try done. lia.
  - destruct HD as (Hd & He & Hdat). apply Permutation_length in HT1 as HNl. cbn [tot promised] in Hcnt.
    eapply (zc_data_inv ev i c r left s); try done; [by rewrite HT1|lia].
Qed.

(** ** Gather writes *)
Lemma split_data_rest sp s c : (sp_sent sp < length (sp_head sp) + sp_body_len sp)%nat ->
  (forall bid, sp_body sp = LeaseBody bid -> u_lease c = Some bid /\ zc = true) ->
  split_data sp s = Some (drop (sp_sent sp) (sp_head sp ++ split_body (br_mem s) sp)).
Proof.
  intros Hlt Hl. unfold split_data, split_body. destruct (Nat.leb_spec (length (sp_head sp) + sp_body_len sp) (sp_sent sp)); [lia|].
  destruct (sp_body sp) as [bid|] eqn:Eb; [by destruct (Hl bid eq_refl) as [_ ->]|done].
Qed.

Lemma on_split_send_inv ev i c sp e left s : But ev i c left [] s -> u_split c = Some sp -> u_static c = None -> no_effect c ->
  is_gather (br_mem s) i c sp (TC e) left -> exists s', on_split_send i (res e) s = Some s' /\ Inv ev s'.
Proof.
  intros H Hsp Hst He (Hlt & Hl & Hb & Ht & Hn & Hbid & Hleft). unfold on_split_send. destruct (res e <=? 0) eqn:E0; [by eapply close_keeps|]. zify_bool.
  rewrite (b_get _ _ _ _ _ _ H), Hsp. rewrite Z.max_r in Hleft by lia. set (sp1 := mkSplit _ _ _ _). set (c1 := set_u_split (Some sp1) c).
  assert (But ev i c1 left [] (put i c1 s)) as H1 by (by apply (But_put ev i c c1 left [] [] s H)).
  destruct (Nat.leb_spec (length (sp_head sp) + sp_body_len sp) (sp_sent sp1)) as [Hge|Hl2].
  - assert (left = []) as ->.
    { rewrite Hleft. apply drop_ge. rewrite length_app. cbn [sp1 sp_sent] in Hge. unfold split_body.
      destruct (sp_body sp); [rewrite length_take; lia|]. rewrite <- Hb by done. lia. }
    pose proof (But_release _ _ _ _ _ H1) as H2. rewrite (b_get _ _ _ _ _ _ H2). set (c2 := set_u_lease None c1) in *.
    eapply (finish_send_inv ev i (set_u_split None c2)); [|done]. by apply (But_put ev i c2 _ [] [] [] _ H2).
  - eexists. split; [done|]. unfold push_split_send. rewrite (b_get _ _ _ _ _ _ H1). change (u_split c1) with (Some sp1). cbn [mbind option_bind].
    rewrite (split_data_rest sp1 _ c) by done. eapply But_push; [exact H1|done..|]. apply (S_split _ _ _ sp1); [done..|].
    by split_and!.
Qed.

(** ** File transfers *)
Lemma static_inexact : is_Some static_root -> ~ exact_wire.
Proof. intros [r Hr] [He _]. congruence. Qed.

Lemma on_static_inv ev i c f left r s : But ev i c left [] s -> u_split c = None -> is_Some (u_static c) -> is_Some static_root -> no_effect c -> u_lease c = None ->
  exists s', on_static f i r s = Some s' /\ Inv ev s'.
Proof.
  intros H Hsp [ss Hss] Hr He Hle. unfold on_static. destruct (r <=? 0).
  - unfold close_static. rewrite (b_get _ _ _ _ _ _ H). set (c1 := set_u_static None c).
    assert (But ev i c1 left [] (put i c1 s)) as H1 by (by apply (But_put ev i c c1 left [] [] s H)).
    eapply (close_keeps ev i c1). by apply (But_same _ _ _ _ _ (put i c1 s)).
  - set (g := fun c : Conn => set_u_static _ _). assert (But ev i (g c) [] [] (upd i g s)) as H1 by (apply But_upd; [by eapply But_left; [apply static_inexact|]|done]).
    unfold drive. destruct (drive_static_inv ev i (g c) (f ss) _ H1) as (s1 & fin & -> & Hf); [done|unfold g; cbn; by rewrite Hss|done..|].
    cbn [mbind option_bind]. destruct fin as [ka|]; [|eauto]. by eapply finish_send_inv.
Qed.

(** ** The serve owner's answers *)
Lemma on_done_inv ev i c d s : But ev i c [] [] s -> done_conn d = i -> no_lane c -> is_serve i c (TM d) ->
  exists s', on_done d s = Some s' /\ Inv ev s'.
Proof.
  intros H Hi Hl (Hresp & Hle & Hs). unfold on_done. rewrite Hi, (b_get _ _ _ _ _ _ H). destruct (u_await_head c) eqn:Ea.
  - destruct Hs as (dl & Hp & Hpl & Hst & Hn). eapply on_stream_head_inv; try done. by apply Hle.
  - case_bool_decide as Hst; [eapply on_step_reply_inv; try done; by split_and!; auto|].
    eapply stage_response_inv; try done. split_and!; [done..|]. destruct (u_step c); [by destruct Hst|done].
Qed.
End sending.
