(* ===== verification/UringShard.v ===== *)
(** * The shard keeps its discipline

    Every completion in any order, every answer of the serve owner, every
    outcome the kernel's contract allows: no handler panics, and between two of
    them every connection has its one outstanding thing, every buffer, socket
    and count its one owner. *)
From S2P Require Import Prelude Bytes Lines Io Standing Cache Http Gzip Ws Static Chunked ProxyHead Fleet Interim Connect Blocking Lanes Interp Accept Counts UringState Uring UringInv UringServe UringEffect UringSend.

Local Open Scope Z_scope.

Section shard.
Context {host : Host} {world : World} {ok : HostOk}.

(** ** The order of what is outstanding does not matter *)
Lemma slot_ok_perm mem i c T T' left : T ≡ₚ T' -> slot_ok mem i c T left -> slot_ok mem i c T' left.
Proof.
  intros HT Hok. assert (forall t, T = [t] -> T' = [t]) as H1 by (intros t ->; symmetry; by apply Permutation_singleton_l).
  destruct Hok as [t|t|r T left Hl Ha Hr Hm (Hs & Hsend)|sp t left|t left|d t].
  - rewrite (H1 t eq_refl). by apply S_recv.
  - rewrite (H1 t eq_refl). by apply S_serve.
  - apply (S_send _ _ _ r); [done..|]. split; [done|]. destruct zc.
    + destruct Hsend as (D & N & H2 & H3 & H4). exists D, N. split; [by rewrite <- HT|]. split; [|done]. intros ->. by apply Permutation_nil_r in HT.
    + destruct Hsend as (t & -> & Hd). exists t. split; [by apply H1|done].
  - rewrite (H1 t eq_refl). by eapply S_split.
  - rewrite (H1 t eq_refl). by eapply S_static.
  - rewrite (H1 t eq_refl). by eapply S_dial.
Qed.

(** Only a leased buffer's bytes are read. *)
Lemma slot_ok_mem mem mem' i c T left : (forall b, u_lease c = Some b -> mem' !! b = mem !! b) -> slot_ok mem i c T left -> slot_ok mem' i c T left.
Proof.
  intros Hm Hok. destruct Hok as [t|t|r T left|sp t left Hsp Hst He Hg|t left|d t].
  - by apply S_recv.
  - by apply S_serve.
  - by eapply S_send.
  - eapply S_split; [done..|]. destruct Hg as (Hlt & Hl & Hb & Hg). split_and!; [done..|].
    assert (split_body mem' sp = split_body mem sp) as -> by (unfold split_body; destruct (sp_body sp) as [b|] eqn:E; [destruct (Hl b eq_refl) as [? _]; by rewrite Hm|done]).
    done.
  - by apply S_static.
  - by eapply S_dial.
Qed.

Lemma slot_ok_nonempty mem i c left : ~ slot_ok mem i c [] left.
Proof.
  intros H. inversion H as [|? ? ?|r T l Hl Ha Hr Hm (Hs & Hsend)|?|?|?]. subst. destruct zc; [naive_solver|]. by destruct Hsend as (t & ? & _).
Qed.

(** ** The next completion *)
Definition lent_bid (e : Cqe) : list Z := if cqe_tag e =? TAG_RECV_BR then from_option (fun b => [b]) [] (cq_bid e) else [].

Lemma lent_bid_tot b e : tot (is_z b) (lent_bid e) = lent b e.
Proof. unfold lent_bid, lent. destruct (_ =? _); [|done]. destruct (cq_bid e); cbn; lia. Qed.

Lemma cqe_conn_tags e : cqe_conn e = true -> (cqe_tag e =? TAG_ACCEPT) = false /\ (cqe_tag e =? TAG_EVENTFD) = false.
Proof. unfold cqe_conn. by destruct (_ =? TAG_ACCEPT), (_ =? TAG_EVENTFD). Qed.

Lemma cq_toks e rest j s : cq s = e :: rest -> toks j s ≡ₚ opt_tok (cqe_tok j e) ++ toks j (set_cq rest s).
Proof.
  intros E. unfold toks. usimpl. rewrite E. cbn [omap list_omap]. destruct (cqe_tok j e) as [t|]; cbn [opt_tok from_option app]; [|done].
  by rewrite !Permutation_middle.
Qed.

Lemma cq_other e rest j s : cq s = e :: rest -> cqe_tok j e = None -> toks j (set_cq rest s) = toks j s.
Proof. intros E Hn. unfold toks. usimpl. rewrite E. cbn [omap list_omap]. by rewrite Hn. Qed.

Lemma enter_cqe ev e rest s : Inv ev s -> cq s = e :: rest -> cqe_conn e = true ->
  exists c left, slot_ok (br_mem s) (cqe_slot e) c (toks (cqe_slot e) s) left /\
    toks (cqe_slot e) s ≡ₚ TC e :: toks (cqe_slot e) (set_cq rest s) /\ Mid ev (cqe_slot e) c left (lent_bid e) (set_cq rest s).
Proof.
  intros [Is Ig Iac Iev Isl Id] E Hc. pose proof Ig as [Gb Gf Gd Gc]. set (i := cqe_slot e). pose proof (cq_toks e rest i s E) as Hp.
  unfold cqe_tok in Hp. rewrite Hc, Nat.eqb_refl in Hp. cbn [andb opt_tok from_option app] in Hp.
  destruct (get i s) as [c|] eqn:Hg; [|rewrite (Id i Hg) in Hp; by apply Permutation_nil_cons in Hp].
  destruct (Isl i c Hg) as (left & Hok & Hw). exists c, left. split; [done|]. split; [done|]. destruct (cqe_conn_tags e Hc) as [Ha He].
  assert (forall j, j <> i -> toks j (set_cq rest s) = toks j s) as Ho.
  { intros j Hj. apply (cq_other e); [done|]. unfold cqe_tok. destruct (Nat.eqb_spec (cqe_slot e) j) as [<-|]; [by destruct Hj|]. by rewrite andb_false_r. }
  split; try done.
  - split; try done.
    + intros b. specialize (Gb b). rewrite E in Gb. cbn [tot] in Gb. usimpl. rewrite lent_bid_tot.
      change (own (leases b) (set_cq rest s)) with (own (leases b) s). lia.
    + intros f. specialize (Gf f). rewrite E in Gf. cbn [tot] in Gf. usimpl. cbn [tot].
      change (own (fds_of f) (set_cq rest s)) with (own (fds_of f) s). change (queued (closes f) (set_cq rest s)) with (queued (closes f) s).
      pose proof (accepts_nonneg f e). lia.
  - rewrite <- Iac. unfold armed, queued. usimpl. rewrite E. cbn [tot sqe_tag]. rewrite Ha. cbn [one]. lia.
  - rewrite <- Iev. unfold armed, queued. usimpl. rewrite E. cbn [tot sqe_tag]. rewrite He. cbn [one]. lia.
  - intros j d Hne Hj. apply (good_slot_frame s); [by apply Ho|done..|by apply Isl].
  - intros j Hj. change (get j (set_cq rest s)) with (get j s) in Hj. rewrite Ho by congruence. by apply Id.
Qed.

(** A completion of the shard's own: an accept, an eventfd read, a close. *)
Lemma own_cqe_toks e rest j s : cq s = e :: rest -> cqe_conn e = false -> toks j (set_cq rest s) = toks j s.
Proof. intros E Hc. apply (cq_other e); [done|]. unfold cqe_tok. by rewrite Hc. Qed.

Lemma on_send_route i r m n s : on_send i r m n s =
  match get i s with
  | Some c => if bool_decide (is_Some (u_split c)) then on_split_send i r s else if zc then on_send_zc i r m n s else on_send_plain i r s
  | None => if zc then on_send_zc i r m n s else on_send_plain i r s
  end.
Proof. unfold on_send. destruct (get i s) as [c|]; [by case_bool_decide|done]. Qed.

(** A connection's completion is handled, whatever it is. *)
Lemma handle_conn_inv ev e rest s : Inv ev s -> cq s = e :: rest -> cqe_conn e = true ->
  exists s', handle e (set_cq rest s) = Some s' /\ Inv ev s'.
Proof.
  intros H E Hc. destruct (enter_cqe ev e rest s H E Hc) as (c & left & Hok & Hp & Hm). set (i := cqe_slot e) in *. set (s1 := set_cq rest s) in *.
  assert (forall t, toks i s = [t] -> t = TC e /\ But ev i c left (lent_bid e) s1) as H1.
  { intros t Et. rewrite Et in Hp. apply Permutation_singleton_l in Hp. injection Hp as -> Ht. split; [done|]. by apply Mid_But. }
  assert (forall n, cqe_tag e = n -> n <> TAG_RECV_BR -> lent_bid e = []) as Hl0.
  { intros n En Hn. unfold lent_bid. destruct (Z.eqb_spec (cqe_tag e) TAG_RECV_BR); [congruence|done]. }
  change (br_mem s) with (br_mem s1) in Hok. remember (toks i s) as T eqn:HT in Hok.
  destruct Hok as [t Hi Hr|t Hl Hr|r T left Hl Ha Hr Hms Hs|sp t left Hsp Hst He Hg|t left Hsp Hst Hro He Hle Hr|d t Hl Ha Hd Hst Hle Hr].
  - destruct (H1 t (eq_sym HT)) as [-> Hb]. destruct Hr as [[Ht _]|(Ht & Hz & Hn & Hpos)].
    + rewrite (Hl0 _ Ht) in Hb by done. unfold handle. rewrite Ht. by eapply on_recv_inv.
    + unfold handle. rewrite Ht. unfold lent_bid in Hb. rewrite Ht in Hb. cbn in Hb. by eapply on_recv_br_inv.
  - destruct (H1 t (eq_sym HT)) as [-> Hb]. by destruct Hr as [[] _].
  - subst T. assert (cqe_tag e = TAG_SEND) as Ht.
    { destruct Hs as (_ & Hs). destruct zc.
      - destruct Hs as (D & N & H2 & _ & HN & _ & HD). destruct (note_in _ D N _ e true i (u_fd c) r (u_sent c) left H2 Hp HN) as [(_ & N' & HN' & _)|(_ & -> & _)].
        + destruct D as [|? []]; [done|naive_solver|done].
        + rewrite HN' in HN. apply Forall_cons in HN as [(? & _) _]. done.
        + by destruct HD as (_ & _ & ? & _).
      - destruct Hs as (t & Et & Hd). destruct (H1 t Et) as [-> _]. by destruct Hd as (? & _). }
    rewrite (Hl0 _ Ht) in Hm by done. unfold handle. rewrite Ht. change (exists s', on_send i (res e) (cq_more e) (cq_notif e) s1 = Some s' /\ Inv ev s').
    rewrite on_send_route, (m_get _ _ _ _ _ _ Hm). destruct Hl as [Hl1 Hl2]. rewrite Hl1. rewrite bool_decide_false by (by intros []).
    destruct zc eqn:Hz; [by eapply on_send_zc_inv|]. pose proof Hs as (Hle & Hs'). rewrite Hz in Hs'. destruct Hs' as (t & Et & Hd).
    destruct (H1 t Et) as [-> Hb]. rewrite (Hl0 _ Ht) in Hb by done. by eapply on_send_plain_inv.
  - destruct (H1 t (eq_sym HT)) as [-> Hb]. pose proof Hg as (_ & _ & _ & Ht & _). rewrite (Hl0 _ Ht) in Hb by done. unfold handle. rewrite Ht.
    change (exists s', on_send i (res e) (cq_more e) (cq_notif e) s1 = Some s' /\ Inv ev s'). rewrite on_send_route, (b_get _ _ _ _ _ _ Hb), Hsp.
    rewrite bool_decide_true by done. by eapply on_split_send_inv.
  - destruct (H1 t (eq_sym HT)) as [-> Hb]. destruct Hr as [Ht _]. unfold handle.
    destruct Ht as [Ht|[Ht|Ht]]; rewrite (Hl0 _ Ht) in Hb by done; rewrite Ht; by eapply on_static_inv.
  - destruct (H1 t (eq_sym HT)) as [-> Hb]. destruct Hr as [_ [[[Ht|Ht] Hpl]|[Ht Hpl]]]; rewrite (Hl0 _ Ht) in Hb by done; unfold handle; rewrite Ht.
    + by eapply on_proxy_connect_inv.
    + by eapply on_proxy_send_inv.
    + by eapply on_proxy_recv_inv.
Qed.

(** ** Answers *)
Lemma mail_toks d rest j s : mailbox s = d :: rest -> toks j s ≡ₚ opt_tok (done_tok j d) ++ toks j (set_mailbox rest s).
Proof.
  intros E. unfold toks. usimpl. rewrite E. cbn [omap list_omap]. destruct (done_tok j d) as [t|]; cbn [opt_tok from_option app]; [|done].
  by rewrite !Permutation_middle.
Qed.

Lemma answer_inv ev d rest s : Inv ev s -> mailbox s = d :: rest -> exists s', on_done d (set_mailbox rest s) = Some s' /\ Inv ev s'.
Proof.
  intros [Is Ig Iac Iev Isl Id] E. set (i := done_conn d). pose proof (mail_toks d rest i s E) as Hp. unfold done_tok in Hp. rewrite Nat.eqb_refl in Hp.
  cbn [opt_tok from_option app] in Hp. destruct (get i s) as [c|] eqn:Hg; [|rewrite (Id i Hg) in Hp; by apply Permutation_nil_cons in Hp].
  destruct (Isl i c Hg) as (left & Hok & Hw). set (s1 := set_mailbox rest s) in *.
  assert (forall j, j <> i -> toks j s1 = toks j s) as Ho.
  { intros j Hj. unfold toks, s1. usimpl. rewrite E. cbn [omap list_omap]. unfold done_tok at 2. destruct (Nat.eqb_spec (done_conn d) j) as [<-|]; [by destruct Hj|done]. }
  assert (toks i s1 = [] -> left = [] -> But ev i c [] [] s1) as Hb.
  { intros Ht ->. split; try done; [by destruct Ig| |].
    - intros j c' Hne Hj. apply (good_slot_frame s); [by apply Ho|done..|by apply Isl].
    - intros j Hj. change (get j s1) with (get j s) in Hj. rewrite Ho by congruence. by apply Id. }
  remember (toks i s) as T eqn:HT in Hok.
  assert (forall t, T = [t] -> t = TM d /\ toks i s1 = []) as H1.
  { intros t Et. rewrite <- HT, Et in Hp. apply Permutation_singleton_l in Hp. by injection Hp as -> Ht. }
  destruct Hok as [t Hi Hr|t Hl Hr|r T left Hl Ha Hr Hms (_ & Hs)|sp t left Hsp Hst He Hg'|t left Hsp Hst Hro He Hle Hr|d' t Hl Ha Hd Hst Hle Hr];
    try (destruct (H1 t eq_refl) as [-> Ht1]); try done.
  - by eapply on_done_inv; [apply Hb|..].
  - exfalso. destruct zc; [|by destruct Hs as (t & -> & Hd); destruct (H1 t eq_refl) as [-> _]]. destruct Hs as (D & N & HDN & _ & HN & _ & HD).
    rewrite <- HT in Hp. assert (TM d ∈ D ++ N) as Hin by (rewrite <- HDN, Hp; left). apply elem_of_app in Hin as [Hin|Hin].
    + destruct D as [|t [|]]; [by apply elem_of_nil in Hin| |done]. apply list_elem_of_singleton in Hin as <-. by destruct HD as (_ & _ & ?).
    + by apply (proj1 (Forall_forall _ _) HN) in Hin.
  - by destruct Hg' as (_ & _ & _ & ?).
Qed.

Lemma drain_inv n ev : forall s, Inv ev s -> exists s', drain n s = Some s' /\ Inv ev s'.
Proof.
  induction n as [|n IH]; intros s H; cbn [drain]; [eauto|]. destruct (mailbox s) as [|d rest] eqn:E; [eauto|].
  destruct (answer_inv ev d rest s H E) as (s1 & -> & H1). cbn [mbind option_bind]. by apply IH.
Qed.

(** ** The shard's own entries *)
Lemma own_push_toks q j s : sqe_conn q = false -> toks j (push q s) = toks j s.
Proof. intros Hc. unfold toks. usimpl. rewrite omap_app. cbn [omap list_omap]. unfold sqe_tok at 2. rewrite Hc. by rewrite app_nil_r. Qed.

(** What the kernel, the owner and the shard exchange may change; the slab, the
    counts and what is handed over do not. *)
Lemma Inv_exchange ev ev' s s' : Inv ev s ->
  slab s' = slab s -> handed s' = handed s -> proxy_inflight s' = proxy_inflight s -> common s' = common s -> tick s' = tick s ->
  (forall b, tot (is_z b) (br_ring s') + tot (lent b) (cq s') = tot (is_z b) (br_ring s) + tot (lent b) (cq s)) ->
  (forall f, own (fds_of f) s + queued (closes f) s' + tot (accepts f) (cq s') + tot (h_has f) (handed s) <= 1) ->
  armed QAccept s' = 1 -> armed QEventfd s' = ev' ->
  (forall j c, get j s = Some c -> good_slot s j c -> good_slot s' j c) -> (forall j, toks j s = [] -> get j s = None -> toks j s' = []) -> Inv ev' s'.
Proof.
  intros [Is Ig Iac Iev Isl Id] Hsl Hh Hp Hc Ht Hb Hf Ha He Hs Hd. pose proof Ig as [Gb Gf Gd Gc].
  assert (forall j, get j s' = get j s) as Hget by (intros j; unfold get; by rewrite Hsl). assert (forall g, own g s' = own g s) as Hown by (intros g; unfold own; by rewrite Hsl).
  split; try done.
  - by rewrite Hsl.
  - split.
    + intros b. specialize (Gb b). specialize (Hb b). rewrite Hown. lia.
    + intros f. specialize (Hf f). rewrite Hown, Hh. cbn [tot]. lia.
    + by rewrite Hp, Hown.
    + rewrite Hc, Ht. eapply counts_ext; [|exact Gc]. intros ip. cbn beta. by rewrite Hown, Hh.
  - intros j c. rewrite Hget. intros Hj. apply Hs; [done|]. by apply Isl.
  - intros j. rewrite Hget. intros Hj. apply Hd; [|done]. by apply Id.
Qed.

Lemma fds_bound ev s f : Inv ev s -> own (fds_of f) s + queued (closes f) s + tot (accepts f) (cq s) + tot (h_has f) (handed s) <= 1.
Proof. intros H. pose proof (g_fds _ _ _ (i_glob _ _ H) f) as Hf. cbn [tot] in Hf. lia. Qed.

Lemma own_cqe_done ev e rest s : Inv ev s -> cq s = e :: rest -> cqe_conn e = false -> cqe_tag e <> TAG_ACCEPT ->
  Inv (ev - one (cqe_tag e =? TAG_EVENTFD)) (set_cq rest s).
Proof.
  intros H E Hc Hna. assert (forall j, toks j (set_cq rest s) = toks j s) as Ho by (intros j; by apply (own_cqe_toks e)).
  assert (cqe_tag e <> TAG_RECV_BR) as Hnb by (intros Ht; unfold cqe_conn in Hc; by rewrite Ht in Hc).
  eapply Inv_exchange; [exact H|done..| | | | | |].
  - intros b. usimpl. rewrite E. cbn [tot]. unfold lent at 2. rewrite (proj2 (Z.eqb_neq _ _) Hnb). lia.
  - intros f. pose proof (fds_bound ev s f H) as Hf. rewrite E in Hf. cbn [tot] in Hf. change (queued (closes f) (set_cq rest s)) with (queued (closes f) s).
    usimpl. pose proof (accepts_nonneg f e). lia.
  - rewrite <- (i_accept _ _ H). unfold armed, queued. usimpl. rewrite E. cbn [tot sqe_tag]. rewrite (proj2 (Z.eqb_neq _ _) Hna). cbn [one]. lia.
  - rewrite <- (i_eventfd _ _ H). unfold armed, queued. usimpl. rewrite E. cbn [tot sqe_tag]. lia.
  - intros j c _. by apply good_slot_frame.
  - intros j Hj _. by rewrite Ho.
Qed.

Lemma eventfd_armed ev s : Inv ev s -> Inv (ev + 1) (push QEventfd s).
Proof.
  intros H. assert (forall j, toks j (push QEventfd s) = toks j s) as Ho by (intros j; by apply own_push_toks).
  eapply Inv_exchange; [exact H|done..| | | | |].
  - intros f. rewrite queued_push. cbn [closes]. change (cq (push QEventfd s)) with (cq s). pose proof (fds_bound ev s f H). lia.
  - rewrite <- (i_accept _ _ H). unfold armed. rewrite queued_push. change (cq (push QEventfd s)) with (cq s). cbn [sqe_tag]. change (TAG_EVENTFD =? TAG_ACCEPT) with false. cbn [one]. lia.
  - rewrite <- (i_eventfd _ _ H). unfold armed. rewrite queued_push. change (cq (push QEventfd s)) with (cq s). cbn [sqe_tag]. rewrite Z.eqb_refl. cbn [one]. lia.
  - intros j c _. by apply good_slot_frame.
  - intros j Hj _. by rewrite Ho.
Qed.

Lemma on_wakeup_inv ev e rest s : Inv ev s -> cq s = e :: rest -> cqe_tag e = TAG_EVENTFD -> exists s', on_wakeup (set_cq rest s) = Some s' /\ Inv ev s'.
Proof.
  intros H E Ht. unfold on_wakeup. destruct (drain_inv (length (mailbox (set_cq rest s))) (ev - 1) (set_cq rest s)) as (s1 & -> & H1).
  { pose proof (own_cqe_done ev e rest s H E) as H1. rewrite Ht in H1. apply H1; [unfold cqe_conn; by rewrite Ht|done]. }
  cbn [mbind option_bind]. eexists. split; [done|]. apply eventfd_armed in H1. by replace (ev - 1 + 1) with ev in H1 by lia.
Qed.

(** ** Accepting

    The accept has completed: [y] is the new socket, [h] what has been counted
    for it and is in no slot yet. *)
Record Adm (ev : Z) (y : list Z) (h : IpAddr -> Z) (s : Shard) : Prop := {
  a_slab : slab_ok (slab s);
  a_bids b : tot (is_z b) (br_ring s) + tot (lent b) (cq s) + own (leases b) s = tot (is_z b) all_bids;
  a_fds f : own (fds_of f) s + queued (closes f) s + tot (accepts f) (cq s) + tot (h_has f) (handed s) + tot (is_z f) y <= 1;
  a_dials : proxy_inflight s = own has_dial s;
  a_counts : counts (table (common s)) (fun ip => held s ip + h ip + theirs (tick s) ip);
  a_accept : armed QAccept s = 1;
  a_eventfd : armed QEventfd s = ev;
  a_slots i c : get i s = Some c -> good_slot s i c;
  a_dead i : get i s = None -> toks i s = []
}.

Definition new_fd (e : Cqe) : list Z := if 0 <=? res e then [res e] else [].
Definition no_one (_ : IpAddr) : Z := 0.

Lemma Adm_Inv ev y s : Adm ev y no_one s -> Inv ev s.
Proof.
  intros [As Ab Af Ad Ac Aac Aev Asl Ade]. split; try done. split; try done.
  - intros b. specialize (Ab b). cbn [tot]. lia.
  - intros f. specialize (Af f). pose proof (tot_nonneg (is_z f) y ltac:(auto with dn)). cbn [tot]. lia.
  - eapply counts_ext; [|exact Ac]. intros ip. unfold held, no_one. cbn beta. lia.
Qed.

Lemma enter_accept ev e rest s : Inv ev s -> cq s = e :: rest -> cqe_tag e = TAG_ACCEPT -> Adm ev (new_fd e) no_one (push QAccept (set_cq rest s)).
Proof.
  intros [Is Ig Iac Iev Isl Id] E Ht. assert (cqe_conn e = false) as Hc by (unfold cqe_conn; by rewrite Ht). pose proof Ig as [Gb Gf Gd Gc].
  set (s1 := set_cq rest s). assert (forall j, toks j (push QAccept s1) = toks j s) as Ho.
  { intros j. rewrite own_push_toks by done. by apply (own_cqe_toks e). }
  split; try done.
  - intros b. specialize (Gb b). rewrite E in Gb. cbn [tot] in Gb. assert (lent b e = 0) as Hl by (unfold lent; by rewrite Ht).
    change (own (leases b) (push QAccept s1)) with (own (leases b) s). change (br_ring (push QAccept s1)) with (br_ring s).
    change (cq (push QAccept s1)) with rest. cbn [tot] in Gb. lia.
  - intros f. specialize (Gf f). rewrite E in Gf. cbn [tot] in Gf. rewrite queued_push. cbn [closes].
    change (own (fds_of f) (push QAccept s1)) with (own (fds_of f) s). change (queued (closes f) s1) with (queued (closes f) s).
    change (cq (push QAccept s1)) with rest. change (handed (push QAccept s1)) with (handed s). cbn [tot] in Gf.
    assert (tot (is_z f) (new_fd e) = accepts f e) as -> by (unfold new_fd, accepts; rewrite Ht, Z.eqb_refl; cbn [andb]; destruct (0 <=? res e); cbn; lia). lia.
  - eapply counts_ext; [|exact Gc]. intros ip. change (held (push QAccept s1) ip) with (held s ip). unfold held, no_one. change (tick (push QAccept s1)) with (tick s). lia.
  - rewrite <- Iac. unfold armed. rewrite queued_push. unfold queued, s1. usimpl. rewrite E. cbn [tot sqe_tag]. rewrite Ht, Z.eqb_refl. cbn [one]. lia.
  - rewrite <- Iev. unfold armed. rewrite queued_push. unfold queued, s1. usimpl. rewrite E. cbn [tot sqe_tag]. rewrite Ht. change (TAG_ACCEPT =? TAG_EVENTFD) with false. cbn [one]. lia.
  - intros j d Hj. apply (good_slot_frame s); [done..|by apply Isl].
  - intros j Hj. rewrite Ho. by apply Id.
Qed.

Lemma Adm_alike ev y h h' s s' : alike s s' -> counts (table (common s')) (fun ip => held s ip + h' ip + theirs (tick s') ip) -> Adm ev y h s -> Adm ev y h' s'.
Proof.
  intros (Hsl & Hb & Hs & Ho & Hc & Hj & Hm & Hr & Hmem & Hw & Hd & Hh & Hp) Hk [As Ab Af Ad Ac Aac Aev Asl Ade].
  assert (forall g, own g s' = own g s) as Hown by (intros g; unfold own; by rewrite Hsl).
  assert (forall j, toks j s' = toks j s) as Ht by (intros j; unfold toks; by rewrite Hb, Hs, Ho, Hc, Hj, Hm).
  split.
  - by rewrite Hsl.
  - intros b. rewrite Hr, Hc, Hown. apply Ab.
  - intros f. rewrite Hown, Hc, Hh. unfold queued. rewrite Hb, Hs. apply Af.
  - by rewrite Hp, Hown.
  - eapply counts_ext; [|exact Hk]. intros ip. unfold held. by rewrite Hown, Hh.
  - unfold armed, queued. by rewrite Hb, Hs, Hc.
  - unfold armed, queued. by rewrite Hb, Hs, Hc.
  - intros j c Hg. apply (good_slot_frame s); [done|done|unfold wire_of; by rewrite Hw|unfold due_of; by rewrite Hd|]. apply Asl. unfold get in *. by rewrite <- Hsl.
  - intros j Hg. rewrite Ht. apply Ade. unfold get in *. by rewrite <- Hsl.
Qed.

Lemma Adm_look ev y h s : (forall ip, 0 <= h ip) -> Adm ev y h s -> Adm ev y h (look s).2.
Proof.
  intros Hh H. eapply Adm_alike; [apply alike_look| |exact H]. apply (look_counts s (fun ip => held s ip + h ip)); [|by destruct H].
  intros ip. pose proof (held_nonneg s ip). specialize (Hh ip). lia.
Qed.

Lemma Adm_close ev r h s : Adm ev [r] h s -> Adm ev [] h (push (QClose r) s).
Proof.
  intros [As Ab Af Ad Ac Aac Aev Asl Ade]. assert (forall j, toks j (push (QClose r) s) = toks j s) as Ho by (intros j; by apply own_push_toks). split; try done.
  - intros f. specialize (Af f). rewrite queued_push. cbn [closes tot] in *. change (own (fds_of f) (push _ s)) with (own (fds_of f) s).
    change (cq (push _ s)) with (cq s). change (handed (push _ s)) with (handed s). lia.
  - rewrite <- Aac. unfold armed. rewrite queued_push. change (cq (push _ s)) with (cq s). cbn [sqe_tag]. change (TAG_CLOSE =? TAG_ACCEPT) with false. cbn [one]. lia.
  - rewrite <- Aev. unfold armed. rewrite queued_push. change (cq (push _ s)) with (cq s). cbn [sqe_tag]. change (TAG_CLOSE =? TAG_EVENTFD) with false. cbn [one]. lia.
  - intros j d Hj. apply (good_slot_frame s); [done..|by apply Asl].
  - intros j Hj. rewrite Ho. by apply Ade.
Qed.

(** *** Into the slab *)
Lemma slab_insert_spec c sl : slab_ok sl -> live sl < MAX_CONNS_PER_SHARD ->
  exists sl' i, slab_insert c sl = Some (sl', i) /\ slab_ok sl' /\ mjoin (conns sl !! i) = None /\ conns sl' !! i = Some (Some c) /\
    (forall j, j <> i -> mjoin (conns sl' !! j) = mjoin (conns sl !! j)) /\
    (forall g : Conn -> Z, tot (from_option g 0) (conns sl') = tot (from_option g 0) (conns sl) + g c).
Proof.
  intros (Hn & Hf & Hl) Hlive. unfold slab_insert. destruct (vec_pop (sl_free sl)) as [[fr i]|] eqn:E.
  - apply vec_pop_Some in E. rewrite E in Hn, Hf. apply NoDup_app in Hn as (Hn & Hd & _).
    assert (conns sl !! i = Some None) as Hi by (apply Hf; rewrite elem_of_app; right; by apply list_elem_of_singleton). pose proof (lookup_lt_Some _ _ _ Hi) as Hlt.
    destruct (Nat.ltb_spec i (length (conns sl))); [|lia]. eexists _, _. split; [done|]. split; [|split_and!].
    + split; [done|]. cbn [conns sl_free]. split; [|by rewrite length_insert]. intros j. destruct (decide (j = i)) as [->|Hne].
      * rewrite list_lookup_insert_eq by done. split; [|done]. intros Hj. by destruct (Hd i Hj); apply list_elem_of_singleton.
      * rewrite list_lookup_insert_ne by congruence. rewrite <- Hf, elem_of_app, list_elem_of_singleton. naive_solver.
    + by rewrite Hi.
    + cbn [conns]. by rewrite list_lookup_insert_eq.
    + intros j Hj. cbn [conns]. by rewrite list_lookup_insert_ne by congruence.
    + intros g. cbn [conns]. rewrite (tot_insert _ _ _ _ _ Hi). cbn. lia.
  - apply vec_pop_None in E. rewrite E in *. unfold live in Hlive. rewrite E in Hlive. cbn [length] in Hlive. eexists _, _. split; [done|]. split; [|split_and!].
    + split; [constructor|]. cbn [conns sl_free]. rewrite length_app. cbn [length]. split; [|lia]. intros j. rewrite Hf.
      destruct (decide (j < length (conns sl))%nat); [by rewrite lookup_app_l by done|]. rewrite (lookup_ge_None_2 (conns sl)) by lia.
      split; [done|]. rewrite lookup_app_r by lia. destruct (j - length (conns sl))%nat eqn:Ej; [done|]. done.
    + by rewrite lookup_ge_None_2 by lia.
    + cbn [conns]. by rewrite list_lookup_middle.
    + intros j Hj. cbn [conns]. destruct (decide (j < length (conns sl))%nat); [by rewrite lookup_app_l by done|].
      rewrite lookup_app_r by lia. rewrite (lookup_ge_None_2 (conns sl)) by lia. destruct (j - length (conns sl))%nat eqn:Ej; [lia|done].
    + intros g. cbn [conns]. rewrite tot_app. cbn. lia.
Qed.

(** The socket enters a free slot: nothing is outstanding for it. *)
Lemma admit_inserted ev r ip now sl i s : Adm ev [r] (at_source ip) s -> slab_ok sl -> get i s = None -> conns sl !! i = Some (Some (fresh_conn r ip now)) ->
  (forall j, j <> i -> mjoin (conns sl !! j) = get j s) ->
  (forall g : Conn -> Z, tot (from_option g 0) (conns sl) = own g s + g (fresh_conn r ip now)) ->
  But ev i (fresh_conn r ip now) [] [] (set_wires (<[r := []]> (wires s)) (set_due (<[r := []]> (due s)) (set_slab sl s))).
Proof.
  intros [As Ab Af Ad Ac Aac Aev Asl Ade] Hsl Hi Hc Ho Hown. set (c := fresh_conn r ip now) in *. set (s1 := set_wires _ _).
  assert (forall g, own g s1 = own g s + g c) as Hown1 by (intros g; apply Hown).
  assert (get i s1 = Some c) as Hg by (unfold get, s1; usimpl; by rewrite Hc).
  assert (forall j, j <> i -> get j s1 = get j s) as Hgo by (intros j Hj; by apply Ho).
  split; try done.
  - split.
    + intros b. specialize (Ab b). rewrite Hown1. unfold s1. usimpl. cbn [tot]. change (leases b c) with 0. lia.
    + intros f. specialize (Af f). rewrite Hown1. unfold s1. change (queued (closes f) (set_wires _ _)) with (queued (closes f) s). usimpl. cbn [tot] in *.
      unfold fds_of at 2. change (u_fd c) with r. change (u_proxy c) with (@None ProxyDial). cbn [from_option]. lia.
    + rewrite Hown1. unfold s1. usimpl. change (has_dial c) with 0. lia.
    + eapply counts_ext; [|exact Ac]. intros j. unfold held. rewrite Hown1. change (from_ip j c) with (at_source j ip). rewrite (at_source_sym j). unfold s1. usimpl. lia.
  - by apply Ade.
  - intros _. unfold wire_of, due_of, s1. usimpl. change (u_fd c) with r. by rewrite !lookup_insert_eq.
  - intros j d Hne Hj. rewrite Hgo in Hj by done. apply (good_slot_frame s); [done|done| | |by apply Asl].
    1,2: assert (u_fd d <> r) as Hd; [|unfold wire_of, due_of, s1; usimpl; by rewrite lookup_insert_ne by congruence].
    all: intros E; specialize (Af r); pose proof (own_get (fds_of r) j d s ltac:(auto with dn) Hj) as Hf;
      pose proof (fds_own d) as Hd; rewrite E in Hd; cbn [tot] in Af; rewrite is_z_refl in Af;
      pose proof (queued_nonneg (closes r) s ltac:(auto with dn)); pose proof (tot_nonneg (accepts r) (cq s) ltac:(auto with dn));
      pose proof (tot_nonneg (h_has r) (handed s) ltac:(auto with dn)); lia.
  - intros j Hj. destruct (decide (j = i)) as [->|Hne]; [congruence|]. rewrite Hgo in Hj by done. by apply Ade.
Qed.

Lemma Adm_counted ev y s t h' : Adm ev y no_one s -> counts t (fun ip => held s ip + h' ip + theirs (tick s) ip) -> Adm ev y h' (UringState.set_table t s).
Proof. intros H Ht. by eapply Adm_alike; [|exact Ht|exact H]. Qed.

Lemma on_accept_inv ev e rest s : Inv ev s -> cq s = e :: rest -> cqe_tag e = TAG_ACCEPT ->
  exists s', on_accept (res e) (set_cq rest s) = Some s' /\ Inv ev s'.
Proof.
  intros H E Ht. unfold on_accept. pose proof (enter_accept ev e rest s H E Ht) as H0. set (s0 := push QAccept (set_cq rest s)) in *.
  set (ip := accept_addr (set_cq rest s)). set (r := res e) in *. destruct (r <? 0) eqn:E0; [eexists; split; [done|]; by eapply Adm_Inv|]. zify_bool.
  assert (new_fd e = [r]) as Hy by (unfold new_fd; fold r; by rewrite (proj2 (Z.leb_le 0 r)) by lia). rewrite Hy in H0.
  destruct (MAX_CONNS_PER_SHARD <=? live (slab s0)) eqn:El; [eexists; split; [done|]; by eapply Adm_Inv, Adm_close|]. zify_bool.
  pose proof (Adm_look ev [r] no_one s0 ltac:(done) H0) as H1. destruct (look s0) as [a s1] eqn:E1. cbn [snd] in H1.
  assert (slab s1 = slab s0) as Hs1 by (by injection E1 as _ <-).
  destruct (counts_enter _ _ ip source_cap process_cap ho_cap (a_counts _ _ _ _ H1)) as (t & adm & -> & Hc). cbn [mbind option_bind].
  set (h := fun j => if bool_decide (adm = AtProcessCap) then 0 else at_source ip j).
  assert (Adm ev [r] h (UringState.set_table t s1)) as H2.
  { apply Adm_counted; [done|]. eapply counts_ext; [|exact Hc]. intros j. unfold h, no_one. cbn beta. lia. }
  set (s2 := UringState.set_table t s1) in *. unfold h in H2. destruct (bool_decide (adm = AtProcessCap)) eqn:Ead.
  { eexists. split; [done|]. by eapply Adm_Inv, Adm_close. }
  change (Adm ev [r] (at_source ip) s2) in H2. pose proof (Adm_look ev [r] _ s2 (at_source_nonneg ip) H2) as H3. destruct (look s2) as [b s3] eqn:E3. cbn [snd] in H3.
  assert (slab s3 = slab s0) as Hs3 by (injection E3 as _ <-; exact Hs1).
  destruct (counts_rate _ _ ip (rate_limit b) (rate_window b) (a_now a) (a_counts _ _ _ _ H3)) as (t' & over & -> & Hc'). cbn [mbind option_bind].
  destruct (slab_insert_spec (fresh_conn r ip (a_now a)) (slab s3)) as (sl & i & -> & Hsl & Hi & Hci & Ho & Hown); [by destruct H3|rewrite Hs3; lia|].
  cbn [mbind option_bind]. assert (Adm ev [r] (at_source ip) (UringState.set_table t' s3)) as H4 by (by eapply Adm_alike; [|exact Hc'|exact H3]).
  pose proof (admit_inserted ev r ip (a_now a) sl i _ H4 Hsl Hi Hci Ho Hown) as Hb. set (s4 := set_wires _ _) in *.
  change (set_wires (<[r:=[]]> (wires s3)) (set_due (<[r:=[]]> (due s3)) (set_slab sl (UringState.set_table t' s3)))) with s4.
  destruct (bool_decide (adm = OverSourceCap)); [by eapply stage_response_inv|]. destruct over; [by eapply stage_response_inv|]. eexists. split; [done|]. by eapply arm_recv_inv.
Qed.

(** ** Any completion *)
Lemma handle_inv ev e rest s : Inv ev s -> cq s = e :: rest -> exists s', handle e (set_cq rest s) = Some s' /\ Inv ev s'.
Proof.
  intros H E. destruct (cqe_conn e) eqn:Hc; [by eapply handle_conn_inv|]. pose proof Hc as Hc'. unfold cqe_conn in Hc'. apply negb_false_iff in Hc'.
  rewrite !orb_true_iff in Hc'. destruct Hc' as [[Ht|Ht]|Ht]; apply Z.eqb_eq in Ht.
  - pose proof (on_accept_inv ev e rest s H E Ht) as Hi. unfold handle. by rewrite Ht.
  - pose proof (on_wakeup_inv ev e rest s H E Ht) as Hi. unfold handle. by rewrite Ht.
  - unfold handle. rewrite Ht. eexists. split; [done|]. pose proof (own_cqe_done ev e rest s H E Hc) as Hi. rewrite Ht in Hi.
    change (one (TAG_CLOSE =? TAG_EVENTFD)) with 0 in Hi. rewrite Z.sub_0_r in Hi. by apply Hi.
Qed.

End shard.
