(* ===== verification/UringRun.v ===== *)
(** * The kernel's side, and every run of a shard

    [complete] is what the kernel may do with a submitted entry; whatever it
    does, the discipline holds, and so it holds along every run. *)
From S2P Require Import Prelude Bytes Lines Io Standing Cache Http Gzip Ws Static Chunked ProxyHead Fleet Interim Connect Blocking Lanes Interp Accept Counts UringState Uring UringInv UringServe UringEffect UringSend UringShard.

Local Open Scope Z_scope.

Section shard.
Context {host : Host} {world : World} {ok : HostOk}.

(** ** The kernel *)
Definition sqe_out (q : Sqe) : option Z := match q with QSend _ f _ _ | QWritev _ f _ | QStaticSend _ f _ | QSpliceOut _ f _ => Some f | _ => None end.
Definition zc_send (q : Sqe) : bool := match q with QSend _ _ z _ => z | _ => false end.

(** What a completion may report: the result, a lent buffer, a promise of a
    notification, the bytes that went out. *)
Inductive says : Sqe -> Z -> option Z -> bool -> bytes -> Prop :=
  | K_fail q r more : r < 0 -> (more = true -> zc_send q = true) -> says q r None more []
  | K_quiet q r : 0 <= r -> match q with QRecv _ _ | QConnect _ _ _ | QUpSend _ _ _ | QUpRecv _ _ | QSpliceIn _ _ _ _ => True | QRecvBr _ _ => r = 0 | _ => False end ->
      says q r None false []
  | K_lent i fd r b : 0 < r -> says (QRecvBr i fd) r (Some b) false []
  | K_sent i fd z data n more : (n <= length data)%nat -> (more = true -> z = true) -> says (QSend i fd z data) (Z.of_nat n) None more (take n data)
  | K_gather i fd data n : (n <= length data)%nat -> says (QWritev i fd data) (Z.of_nat n) None false (take n data)
  | K_file q r out : match q with QStaticSend _ _ _ | QSpliceOut _ _ _ => True | _ => False end -> says q r None false out.

(** And what it does to the state. *)
Record posted (q : Sqe) (r : Z) (bid : option Z) (more : bool) (b out : bytes) (s s' : Shard) : Prop := {
  p_slab : slab s' = slab s; p_backlog : backlog s' = backlog s; p_submitted : submitted s' = submitted s;
  p_owed : owed s' = owed s ++ (if more then [sqe_slot q] else []);
  p_cq : cq s' = cq s ++ [mkCqe (user_data q) r bid more false b];
  p_jobs : jobs s' = jobs s; p_mailbox : mailbox s' = mailbox s; p_handed : handed s' = handed s; p_inflight : proxy_inflight s' = proxy_inflight s;
  p_common : common s' = common s; p_tick : tick s' = tick s; p_due : due s' = due s;
  p_bufs : match bid with
           | Some k => br_ring s = k :: br_ring s' /\ forall j, j <> k -> br_mem s' !! j = br_mem s !! j
           | None => br_ring s' = br_ring s /\ br_mem s' = br_mem s
           end;
  p_wires f : wire_of f s' = wire_of f s ++ if decide (sqe_out q = Some f) then out else []
}.

Lemma wire_to_of fd b f s : wire_of f (wire_to fd b s) = wire_of f s ++ if decide (Some fd = Some f) then b else [].
Proof.
  unfold wire_of, wire_to. usimpl. case_decide as E; [injection E as ->; by rewrite lookup_insert_eq|].
  rewrite lookup_insert_ne by congruence. by rewrite app_nil_r.
Qed.

Ltac posted := split; unfold post, wire_of; usimpl; rewrite ?app_nil_r; try done; try (intros ?; case_decide; by rewrite app_nil_r); try (intros ?; apply wire_to_of).

Lemma complete_fail q e more s s' : sqe_conn q = true -> complete q (KFail e more) s = Some s' ->
  exists r b, says q r None more [] /\ posted q r None more b [] s s'.
Proof.
  intros Hc. destruct q as [| | | | | | | | | | |? [f|]|]; try done; cbn [complete]; (destruct (_ && _) eqn:E; [|done]); apply andb_true_iff in E as [E1 E2]; zify_bool; intros [= <-]; exists (- e), [].
  3: split; [apply K_fail; [lia|]; by intros ->|destruct more; posted].
  all: apply negb_true_iff in E2 as ->; (split; [apply K_fail; [lia|done]|posted]).
Qed.

Lemma complete_posts q o s s' : sqe_conn q = true -> complete q o s = Some s' ->
  exists r bid more b out, says q r bid more out /\ posted q r bid more b out s s'.
Proof.
  intros Hc H. destruct o as [e more|b|n more|].
  { destruct (complete_fail q e more s s' Hc H) as (r & b & H1 & H2). by exists r, None, more, b, []. }
  all: destruct q; try done; cbn [complete] in H.
  all: repeat match type of H with
       | context [if ?x then _ else _] => destruct x eqn:?; try done
       | context [match ?x with _ => _ end] => destruct x eqn:?; try done
       end.
  all: repeat match goal with E : _ && _ = true |- _ => apply andb_true_iff in E as [? ?] end; zify_bool; try injection H as <-.
  all: eexists _, _, _, _, _; split; [|posted].
  all: try (by rewrite app_nil_r); try (apply K_quiet; [lia|done]); try (apply K_lent; lia); try (apply K_gather; by apply Nat.leb_le); try (by apply K_file); try done.
  all: try (apply K_sent; [by apply Nat.leb_le|by intros [=]]).
  split; [done|]. intros j Hj. by rewrite lookup_insert_ne.
Qed.

(** What a send's completion reports. *)
Lemma says_sent i fd z data r bid more out : says (QSend i fd z data) r bid more out ->
  bid = None /\ (more = true -> z = true) /\ out = take (Z.to_nat (Z.max 0 r)) data /\ r <= Z.of_nat (length data).
Proof.
  intros Hs. inversion Hs; subst; try done; split_and!; try done; try lia.
  - by rewrite Z.max_l by lia.
  - by rewrite Z.max_r, Nat2Z.id by lia.
Qed.

Lemma sends_complete i c rs q T R left r bid more b out : sends i c rs T left -> T ≡ₚ TQ q :: R -> sqe_slot q = i -> (Z.of_nat i < 2 ^ 32) ->
  says q r bid more out ->
  sqe_out q = Some (u_fd c) /\
  exists left', sends i c rs (TC (mkCqe (user_data q) r bid more false b) :: (if more then [TN] else []) ++ R) left' /\ left = out ++ left'.
Proof.
  intros (Hle & Hsend) HT Hq Hi Hs. destruct (user_data_decode q r bid more false b ltac:(by rewrite Hq)) as [Htag _]. set (e := mkCqe _ _ _ _ _ _) in *.
  assert (exists z N, (q = QSend i (u_fd c) z (drop (u_sent c) rs) /\ left = drop (u_sent c) rs) /\ z = zc /\ R ≡ₚ N /\ Forall is_note N /\
    if zc then zc_notif_exp (u_zc c) = zc_notif (u_zc c) + Z.of_nat (length N) /\ zc_issued (u_zc c) = zc_data (u_zc c) + 1 /\ zc_error (u_zc c) = false else N = [])
    as (z & N & [-> ->] & -> & HR & HN & Hc).
  { destruct zc eqn:Hz.
    - destruct Hsend as (D & N & HDN & _ & HN & Hcnt & HD). rewrite HDN in HT. exists true, N. destruct D as [|t [|]]; [| |done].
      { assert (TQ q ∈ N) as Hin by (cbn [app] in HT; rewrite HT; left). by apply (proj1 (Forall_forall _ _) HN) in Hin. }
      destruct HD as (Hd1 & Hd2 & Hdat). assert (t = TQ q) as ->.
      { assert (TQ q ∈ [t] ++ N) as Hin by (rewrite HT; left). cbn [app] in Hin. apply elem_of_cons in Hin as [->|Hin]; [done|].
        by apply (proj1 (Forall_forall _ _) HN) in Hin. }
      cbn [app] in HT. apply Permutation_cons_inv in HT. cbn [tot promised] in Hcnt. destruct Hdat as [-> ->]. split_and!; try done; lia.
    - destruct Hsend as (t & -> & Hdat). apply Permutation_singleton_l in HT. injection HT as -> <-. destruct Hdat as [-> ->]. exists false, []. by split_and!. }
  destruct (says_sent _ _ _ _ _ _ _ _ Hs) as (-> & Hm & -> & Hr). rewrite length_drop in Hr. set (n := Z.to_nat (Z.max 0 r)).
  split; [done|]. exists (drop (u_sent c + n) rs). split; [|by rewrite <- drop_drop, take_drop]. split; [done|].
  assert (is_data zc i (u_fd c) rs (u_sent c) (TC e) (drop (u_sent c + n) rs)) as Hd by (cbn [is_data]; rewrite Htag; by split_and!).
  destruct zc eqn:Hz.
  - destruct Hc as (Hc1 & Hc2 & Hc3). exists [TC e], ((if more then [TN] else []) ++ N). split; [by rewrite HR|]. split; [done|].
    split; [apply Forall_app; split; [destruct more; by repeat constructor|done]|]. cbn [tot promised cq_more e]. rewrite length_app.
    split; [destruct more; cbn [one length]; lia|]. by split_and!.
  - subst N. apply Permutation_nil_r in HR as ->. destruct more; [by specialize (Hm eq_refl)|]. by exists (TC e).
Qed.

Lemma says_out q r bid more out : says q r bid more out -> sqe_out q = None -> out = [].
Proof. intros Hs Hq. destruct Hs as [q r more|q r|i fd r b|i fd z data n more|i fd data n|q r out Hf]; try done. by destruct q. Qed.

Lemma says_more q r bid more out : says q r bid more out -> zc_send q = false -> more = false.
Proof. intros Hs Hq. destruct Hs as [q r more Hr Hm|q r|i fd r b|i fd z data n more Hn Hm|i fd data n|q r out]; try done; destruct more; [by rewrite Hm in Hq|done|by cbn in Hq; rewrite Hm in Hq|done]. Qed.

Lemma says_none q r bid more out : says q r bid more out -> match q with QRecvBr _ _ => False | _ => True end -> bid = None.
Proof. by destruct 1. Qed.

(** What an entry's completion makes of the slot. *)
Lemma slot_completes mem mem' i c q T R left r bid more b out : slot_ok mem i c T left -> T ≡ₚ TQ q :: R -> sqe_slot q = i -> (Z.of_nat i < 2 ^ 32) ->
  (forall k, u_lease c = Some k -> mem' !! k = mem !! k) -> says q r bid more out ->
  (forall f, sqe_out q = Some f -> f = u_fd c) /\
  exists left', slot_ok mem' i c (TC (mkCqe (user_data q) r bid more false b) :: (if more then [TN] else []) ++ R) left' /\ (exact_wire -> left = out ++ left').
Proof.
  intros Hok HT Hq Hi Hmem Hs. destruct (user_data_decode q r bid more false b ltac:(by rewrite Hq)) as [Htag _]. set (e := mkCqe _ _ _ _ _ _) in *.
  apply (slot_ok_mem _ mem') in Hok; [|done]. clear Hmem mem.
  destruct Hok as [t Hid Hr|t Hl Hr|rs T left Hl Ha Hr Hms (Hle & Hsend)|sp t left Hsp Hst He Hg|t left Hsp Hst Hro He Hle Hr|d t Hl Ha Hd Hst Hle Hr].
  - apply Permutation_singleton_l in HT. injection HT as -> <-. assert (more = false /\ out = []) as [-> ->].
    { split; [eapply says_more|eapply says_out]; try done; by destruct Hr as [->|[_ ->]]. }
    split; [by destruct Hr as [->|[_ ->]]|]. exists []. split; [|done]. apply S_recv; [done|]. cbn [is_recv]. rewrite Htag.
    destruct Hr as [->|[Hz ->]]; [left|right]; [split; [done|]; by inversion Hs|]. split_and!; [done|done|..]; inversion Hs; subst; cbn; intros; (done || lia || by eexists).
  - apply Permutation_singleton_l in HT. injection HT as -> <-. by destruct Hr.
  - destruct (sends_complete i c rs q T R left r bid more b out (conj Hle Hsend) HT Hq Hi Hs) as (Ho & left' & Hs' & ->).
    split; [intros f; rewrite Ho; by intros [= <-]|]. exists left'. split; [by apply (S_send _ _ _ rs)|done].
  - apply Permutation_singleton_l in HT. injection HT as -> <-. destruct Hg as (Hlt & Hlb & Hsb & -> & ->). split; [by intros f [= <-]|].
    set (whole := sp_head sp ++ split_body mem' sp) in *.
    assert (bid = None /\ more = false /\ exists n, out = take n (drop (sp_sent sp) whole) /\ n = Z.to_nat (Z.max 0 r)) as (-> & -> & n & -> & Hn).
    { split_and!; [by eapply says_none|by eapply says_more|]. inversion Hs; subst; try done; [exists 0%nat|exists n]; (split_and!; [done|lia]). }
    exists (drop (sp_sent sp + n) whole). split; [|intros _; by rewrite <- drop_drop, take_drop]. apply (S_split _ _ _ sp); [done..|].
    split_and!; try done. by rewrite Hn.
  - apply Permutation_singleton_l in HT. injection HT as -> <-. split; [destruct q; try done; by destruct Hr as [_ ->]; intros f [= <-]|].
    assert (bid = None /\ more = false) as [-> ->] by (split; [eapply says_none|eapply says_more]; try done; by destruct q).
    exists left. split; [|by intros ?%static_inexact]. apply S_static; [done..|]. cbn [is_static]. rewrite Htag. split; [|done]. destruct q; try done; cbn; naive_solver.
  - apply Permutation_singleton_l in HT. injection HT as -> <-. destruct Hr as [Hr Hpl]. split; [by destruct q|].
    assert (bid = None /\ more = false /\ out = []) as (-> & -> & ->)
      by (split_and!; [eapply says_none|eapply says_more|eapply says_out]; try done; by destruct q).
    exists []. split; [|done]. apply (S_dial _ _ _ d); [done..|]. split; [done|]. rewrite Htag.
    destruct q; try done; destruct Hpl as [Hpl|[Hpl [=]]]; cbn; eauto.
Qed.

Lemma good_slot_perm s s' j c : toks j s' ≡ₚ toks j s -> (forall k, u_lease c = Some k -> br_mem s' !! k = br_mem s !! k) ->
  wire_of (u_fd c) s' = wire_of (u_fd c) s -> due_of (u_fd c) s' = due_of (u_fd c) s -> good_slot s j c -> good_slot s' j c.
Proof.
  intros Ht Hm Hw Hd (left & H1 & H2). exists left. rewrite Hw, Hd. split; [|done]. eapply slot_ok_perm; [by symmetry|]. by eapply slot_ok_mem.
Qed.

(** A submitted entry taken out of the queue. *)
Lemma sub_toks k q j s : submitted s !! k = Some q ->
  toks j s ≡ₚ opt_tok (sqe_tok j q) ++ toks j (set_submitted (delete k (submitted s)) s).
Proof.
  intros H. unfold toks. usimpl. rewrite (delete_Permutation _ _ _ H) at 1. cbn [omap list_omap].
  destruct (sqe_tok j q) as [t|]; cbn [opt_tok from_option app]; [|done]. by rewrite !Permutation_middle.
Qed.

Lemma sub_queued g k q s : submitted s !! k = Some q -> queued g (set_submitted (delete k (submitted s)) s) = queued g s - g q.
Proof. intros H. unfold queued. usimpl. rewrite (tot_delete g _ _ _ H). lia. Qed.

Lemma tot_NoDup b l : NoDup l -> tot (is_z b) l <= 1.
Proof.
  induction 1 as [|x l Hx _ IH]; cbn [tot]; [lia|]. destruct (decide (b = x)) as [->|Hne]; [|rewrite is_z_ne by done; lia].
  rewrite is_z_refl, tot_zero; [lia|]. intros y Hy. apply is_z_ne. by intros ->.
Qed.

Lemma all_bids_once b : tot (is_z b) all_bids <= 1.
Proof. apply tot_NoDup. unfold all_bids. destruct zc; [apply NoDup_seqZ|constructor]. Qed.

(** A buffer the kernel has is leased by no connection. *)
Lemma free_not_leased x y s b rest j c : glob x y s -> br_ring s = b :: rest -> get j s = Some c -> u_lease c <> Some b.
Proof.
  intros [Gb _ _ _] Hr Hg Hl. specialize (Gb b). rewrite Hr in Gb. cbn [tot] in Gb. rewrite is_z_refl in Gb.
  pose proof (own_get (leases b) j c s ltac:(auto with dn) Hg) as Ho. assert (leases b c = 1) as Hb by (unfold leases; rewrite Hl; cbn; by rewrite is_z_refl).
  pose proof (all_bids_once b). pose proof (tot_nonneg (is_z b) rest ltac:(auto with dn)). pose proof (tot_nonneg (lent b) (cq s) ltac:(auto with dn)).
  pose proof (tot_nonneg (is_z b) x ltac:(auto with dn)). lia.
Qed.

Lemma slot_small i c s : slab_ok (slab s) -> get i s = Some c -> Z.of_nat i < 2 ^ 32.
Proof. intros (_ & _ & Hl) Hg%get_lt. unfold MAX_CONNS_PER_SHARD, MAX_CONNS_CEILING in Hl. lia. Qed.

Lemma posted_toks q r bid more b out s s' j : posted q r bid more b out s s' -> sqe_conn q = true -> Z.of_nat (sqe_slot q) < 2 ^ 32 ->
  toks j s' ≡ₚ (if decide (j = sqe_slot q) then TC (mkCqe (user_data q) r bid more false b) :: (if more then [TN] else []) else []) ++ toks j s.
Proof.
  intros [] Hc Hi. destruct (user_data_decode q r bid more false b Hi) as [Ht Hs]. set (e := mkCqe _ _ _ _ _ _) in *.
  unfold toks. rewrite p_backlog0, p_submitted0, p_owed0, p_cq0, p_jobs0, p_mailbox0, !omap_app. cbn [omap list_omap].
  assert (cqe_conn e = true) as Hce by (unfold cqe_conn; rewrite Ht; by destruct q). unfold cqe_tok at 2. rewrite Hce, Hs. cbn [andb].
  case_decide as Hj.
  - subst j. rewrite Nat.eqb_refl. destruct more; cbn [omap list_omap app]; [unfold note_tok at 2; rewrite Nat.eqb_refl|]; cbn [omap list_omap app]; rewrite ?app_nil_r.
    + rewrite <- !app_assoc. cbn [app]. rewrite !Permutation_middle. done.
    + rewrite <- !app_assoc. cbn [app]. by rewrite !Permutation_middle.
  - destruct (Nat.eqb_spec (sqe_slot q) j); [congruence|]. destruct more; cbn [omap list_omap app]; [unfold note_tok at 2; rewrite (proj2 (Nat.eqb_neq _ _)) by congruence|]; by rewrite ?app_nil_r.
Qed.

Lemma says_bid q r bid more b out : says q r bid more out -> Z.of_nat (sqe_slot q) < 2 ^ 32 ->
  forall k, lent k (mkCqe (user_data q) r bid more false b) = is_opt k bid.
Proof.
  intros Hs Hi k. unfold lent. destruct (user_data_decode q r bid more false b Hi) as [-> _]. cbn [cq_bid]. destruct bid as [x|]; [|by destruct (_ =? _)]. by inversion Hs.
Qed.

Lemma kernel_inv ev k q o s s' : Inv ev s -> submitted s !! k = Some q -> sqe_conn q = true ->
  complete q o (set_submitted (delete k (submitted s)) s) = Some s' -> Inv ev s'.
Proof.
  intros H Hk Hc Hco. pose proof H as [Is Ig _ _ Isl Id]. set (i := sqe_slot q). set (s0 := set_submitted _ s) in *.
  pose proof (sub_toks k q i s Hk) as Hp. unfold sqe_tok in Hp. fold i in Hp. rewrite Hc, Nat.eqb_refl in Hp. cbn [andb opt_tok from_option app] in Hp. fold s0 in Hp.
  destruct (get i s) as [c|] eqn:Hg; [|rewrite (Id i Hg) in Hp; by apply Permutation_nil_cons in Hp].
  destruct (Isl i c Hg) as (left & Hok & Hw). pose proof (slot_small i c s Is Hg) as Hi.
  destruct (complete_posts q o s0 s' Hc Hco) as (r & bid & more & b & out & Hs & P). set (e := mkCqe (user_data q) r bid more false b).
  destruct (user_data_decode q r bid more false b Hi) as [Htag _]. fold e in Htag.
  assert (forall j d, get j s = Some d -> forall b', u_lease d = Some b' -> br_mem s' !! b' = br_mem s !! b') as Hmem.
  { intros j d Hj b' Hl. pose proof (p_bufs _ _ _ _ _ _ _ _ P) as Hb. destruct bid as [x|]; [|by destruct Hb as [_ ->]].
    destruct Hb as [Hr Hm]. apply (Hm b'). intros ->. by apply (free_not_leased [] [] s x (br_ring s') j d Ig Hr Hj). }
  destruct (slot_completes _ (br_mem s') i c q _ _ left r bid more b out Hok Hp eq_refl Hi (Hmem i c Hg) Hs) as (Hout & left' & Hok' & Hleft).
  destruct (conn_tags q Hc) as (Ta & Te & Tc).
  assert (forall j, j <> i -> toks j s ≡ₚ toks j s0) as Hoth.
  { intros j Hj. rewrite (sub_toks k q j s Hk). unfold sqe_tok. fold i. destruct (Nat.eqb_spec i j); [congruence|]. by rewrite andb_false_r. }
  assert (forall g, queued g s' = queued g s - g q) as Hqu by (intros g; rewrite <- (sub_queued g k q s Hk); unfold queued; by rewrite (p_backlog _ _ _ _ _ _ _ _ P), (p_submitted _ _ _ _ _ _ _ _ P)).
  pose proof (p_cq _ _ _ _ _ _ _ _ P) as Hcq. fold e in Hcq. pose proof (fun j => posted_toks q r bid more b out s0 s' j P Hc Hi) as Htk. fold e i in Htk.
  eapply Inv_exchange; [exact H|by destruct P..| | | | | |].
  - intros b'. rewrite Hcq, tot_app. cbn [tot]. assert (lent b' e = is_opt b' bid) as -> by (by eapply says_bid).
    pose proof (p_bufs _ _ _ _ _ _ _ _ P) as Hb. change (br_ring s0) with (br_ring s) in Hb. change (cq s0) with (cq s).
    destruct bid as [x|]; destruct Hb as [Hb _]; rewrite Hb; cbn [tot is_opt from_option]; lia.
  - intros f. pose proof (fds_bound ev s f H). rewrite Hqu, Hcq, tot_app, Tc. cbn [tot]. unfold accepts at 2. rewrite Htag, Ta. change (cq s0) with (cq s). cbn [andb]. lia.
  - rewrite <- (i_accept _ _ H). unfold armed. rewrite Hqu, Hcq, tot_app. cbn [tot sqe_tag]. rewrite Htag, Ta. change (cq s0) with (cq s). cbn [one]. lia.
  - rewrite <- (i_eventfd _ _ H). unfold armed. rewrite Hqu, Hcq, tot_app. cbn [tot sqe_tag]. rewrite Htag, Te. change (cq s0) with (cq s). cbn [one]. lia.
  - intros j d Hj Hgs. destruct (decide (j = i)) as [->|Hne].
    + assert (d = c) as -> by congruence. exists left'. split; [eapply slot_ok_perm; [|exact Hok']; rewrite Htk, decide_True by done; by rewrite app_comm_cons|].
      intros Hx. rewrite (p_wires _ _ _ _ _ _ _ _ P). unfold due_of. rewrite (p_due _ _ _ _ _ _ _ _ P). change (due s0) with (due s). fold (due_of (u_fd c) s).
      rewrite <- Hw by done. rewrite Hleft by done. rewrite <- app_assoc. change (wire_of (u_fd c) s0) with (wire_of (u_fd c) s). do 2 f_equal.
      case_decide as Ho; [done|]. destruct (sqe_out q) as [f|] eqn:Eo; [by rewrite (Hout f eq_refl) in Ho|]. by rewrite (says_out _ _ _ _ _ Hs Eo).
    + apply (good_slot_perm s); [|by eapply Hmem| |unfold due_of; by rewrite (p_due _ _ _ _ _ _ _ _ P)|done].
      * rewrite Htk, decide_False by done. by rewrite (Hoth j Hne).
      * rewrite (p_wires _ _ _ _ _ _ _ _ P). case_decide as Ho; [|by rewrite app_nil_r]. exfalso. apply Hout in Ho. by eapply (fd_distinct _ _ s j i d c Ig).
  - intros j Hn Hj. assert (j <> i) as Hne by congruence. specialize (Htk j). rewrite decide_False in Htk by done. rewrite <- (Hoth j Hne), Hn in Htk.
    by apply Permutation_nil_r in Htk.
Qed.

(** The shard's own entries complete. *)
Lemma own_posted ev k q r s : Inv ev s -> submitted s !! k = Some q -> sqe_conn q = false -> let s0 := set_submitted (delete k (submitted s)) s in
  (q = QAccept -> 0 <= r -> r ∉ open_fds s0) -> Inv ev (post q r None false [] s0).
Proof.
  intros H Hk Hc s0 Hfd. set (s' := post q r None false [] s0). set (e := mkCqe (user_data q) r None false false []).
  assert (cqe_tag e = sqe_tag q) as Ht by (apply user_data_decode; destruct q; done || (cbn; lia)).
  assert (forall j, toks j s' ≡ₚ toks j s) as Htk.
  { intros j. rewrite (sub_toks k q j s Hk). unfold sqe_tok. rewrite Hc. cbn [andb opt_tok from_option app]. unfold toks, s', post, s0. usimpl.
    rewrite omap_app. cbn [omap list_omap]. unfold cqe_tok at 2. fold e. assert (cqe_conn e = false) as -> by (unfold cqe_conn; rewrite Ht; by destruct q). by rewrite app_nil_r. }
  assert (forall g, queued g s' = queued g s - g q) as Hqu by (intros g; by rewrite <- (sub_queued g k q s Hk)).
  assert (forall g : Cqe -> Z, tot g (cq s') = tot g (cq s) + g e) as Hcq by (intros g; unfold s', post, s0; usimpl; rewrite tot_app; cbn [tot]; fold e; lia).
  eapply Inv_exchange; [exact H|done..| | | | | |].
  - intros b. rewrite Hcq. unfold lent at 2. cbn [cq_bid e is_opt from_option]. change (br_ring s') with (br_ring s). destruct (_ =? _); lia.
  - intros f. pose proof (fds_bound ev s f H) as Gf. rewrite Hqu, Hcq. unfold accepts at 2. rewrite Ht. cbn [res e].
    destruct q as [| | | | | |g| | | | | |]; try done; cbn [sqe_tag closes]; [|change (TAG_EVENTFD =? TAG_ACCEPT) with false; cbn [andb]; lia|].
    + change (TAG_ACCEPT =? TAG_ACCEPT) with true. cbn [andb]. destruct (0 <=? r) eqn:Er; zify_bool; [|lia].
      destruct (fresh_fd _ _ (Hfd eq_refl Er)) as (F1 & F2 & F3 & F4). destruct (decide (f = r)) as [->|Hne]; [|rewrite is_z_ne by done; lia]. rewrite is_z_refl.
      unfold s0 in F2. rewrite (sub_queued _ _ _ _ Hk) in F2. cbn [closes] in F2. change (own (fds_of r) s0) with (own (fds_of r) s) in F1.
      change (cq s0) with (cq s) in F3. change (handed s0) with (handed s) in F4. lia.
    + change (TAG_CLOSE =? TAG_ACCEPT) with false. cbn [andb]. pose proof (is_z_nonneg f g). lia.
  - rewrite <- (i_accept _ _ H). unfold armed. rewrite Hqu, Hcq, Ht. lia.
  - rewrite <- (i_eventfd _ _ H). unfold armed. rewrite Hqu, Hcq, Ht. lia.
  - intros j d _. by apply good_slot_perm.
  - intros j Hn _. specialize (Htk j). rewrite Hn in Htk. by apply Permutation_nil_r in Htk.
Qed.

Lemma kernel_any_inv ev k q o s s' : Inv ev s -> submitted s !! k = Some q ->
  complete q o (set_submitted (delete k (submitted s)) s) = Some s' -> Inv ev s'.
Proof.
  intros H Hk Hco. destruct (sqe_conn q) eqn:Hc; [by eapply kernel_inv|]. pose proof (own_posted ev k q) as Hp.
  destruct q; try done; destruct o as [e more|b|n more|]; try done; cbn [complete] in Hco; repeat case_match; try done; injection Hco as <-; apply Hp; try done;
    intros _ Hr; zify_bool; rewrite ?andb_true_iff, ?orb_false_iff in *; try (destruct_and!; zify_bool; lia).
  destruct_and!. by case_bool_decide.
Qed.

(** ** Notifications and answers *)
Lemma slot_notified mem i c T R left n : slot_ok mem i c T left -> T ≡ₚ TN :: R -> is_note (TC n) -> slot_ok mem i c (TC n :: R) left.
Proof.
  intros Hok HT Hn.
  destruct Hok as [t Hid Hr|t Hl Hr|rs T left Hl Ha Hr Hms (Hle & Hsend)|sp t left Hsp Hst He Hg|t left Hsp Hst Hro He Hle Hr|d t Hl Ha Hd Hst Hle Hr];
    try (apply Permutation_singleton_l in HT; injection HT as -> <-); try done; [by destruct Hr| |by destruct Hg as (_ & _ & _ & ?)].
  apply (S_send _ _ _ rs); [done..|]. split; [done|]. destruct zc.
  - destruct Hsend as (D & N & HDN & _ & HN & Hcnt & HD). assert (TN ∈ N) as Hin.
    { assert (TN ∈ D ++ N) as Hin by (rewrite <- HDN, HT; left). apply elem_of_app in Hin as [Hin|Hin]; [|done].
      destruct D as [|t [|]]; [by apply elem_of_nil in Hin| |done]. apply list_elem_of_singleton in Hin as <-. by destruct HD as (_ & _ & ?). }
    apply elem_of_Permutation in Hin as [N' HN']. rewrite HN' in HN. apply Forall_cons in HN as [_ HN]. exists D, (TC n :: N').
    rewrite HDN, HN', <- Permutation_middle in HT. apply Permutation_cons_inv in HT. apply Permutation_length in HN'. cbn [length] in *.
    split; [by rewrite <- HT, Permutation_middle|]. split; [done|]. split; [by constructor|]. split; [lia|done].
  - destruct Hsend as (t & -> & Hdat). apply Permutation_singleton_l in HT. by injection HT as -> <-.
Qed.

Lemma slot_answered mem i c T R left j d : slot_ok mem i c T left -> T ≡ₚ TJ j :: R -> (split_static d = true -> done_resp d <> []) ->
  slot_ok mem i c (TM d :: R) left.
Proof.
  intros Hok HT Hn.
  destruct Hok as [t Hid Hr|t Hl Hr|rs T left Hl Ha Hr Hms (Hle & Hsend)|sp t left Hsp Hst He Hg|t left Hsp Hst Hro He Hle Hr|d' t Hl Ha Hd Hst Hle Hr];
    try (apply Permutation_singleton_l in HT; injection HT as -> <-); try done; [..|by destruct Hg as (_ & _ & _ & ?)].
  - apply S_serve; [done|]. by destruct Hr as [_ ?].
  - exfalso. destruct zc; [|by destruct Hsend as (t & -> & Hdat); apply Permutation_singleton_l in HT; injection HT as -> <-].
    destruct Hsend as (D & N & HDN & _ & HN & Hcnt & HD). assert (TJ j ∈ D ++ N) as Hin by (rewrite <- HDN, HT; left). apply elem_of_app in Hin as [Hin|Hin].
    + destruct D as [|t [|]]; [by apply elem_of_nil in Hin| |done]. apply list_elem_of_singleton in Hin as <-. by destruct HD as (_ & _ & ?).
    + by apply (proj1 (Forall_forall _ _) HN) in Hin.
Qed.

(** One thing outstanding for slot [i] becomes another. *)
Lemma swap_inv ev i t t' s s' : Inv ev s ->
  slab s' = slab s -> br_ring s' = br_ring s -> br_mem s' = br_mem s -> wires s' = wires s -> due s' = due s -> handed s' = handed s ->
  proxy_inflight s' = proxy_inflight s -> common s' = common s -> tick s' = tick s -> (forall g, queued g s' = queued g s) ->
  (forall g : Cqe -> Z, (forall e, TC e = t' -> g e = 0) -> tot g (cq s') = tot g (cq s)) -> (forall e, TC e = t' -> cqe_tag e = TAG_SEND) ->
  (exists R, toks i s ≡ₚ t :: R /\ toks i s' ≡ₚ t' :: R) -> (forall j, j <> i -> toks j s' ≡ₚ toks j s) ->
  (forall c R left, slot_ok (br_mem s) i c (toks i s) left -> toks i s ≡ₚ t :: R -> slot_ok (br_mem s) i c (t' :: R) left) -> Inv ev s'.
Proof.
  intros H Hsl Hr Hm Hw Hd Hh Hp Hc Htk Hq Hcq Ht (R & HR & HR') Ho Hsw. eapply Inv_exchange; [exact H|done..| | | | | |].
  - intros b. rewrite Hr, Hcq; [done|]. intros e He. unfold lent. by rewrite (Ht e He).
  - intros f. rewrite Hq, Hcq; [by apply (fds_bound ev)|]. intros e He. unfold accepts. by rewrite (Ht e He).
  - rewrite <- (i_accept _ _ H). unfold armed. rewrite Hq, Hcq; [done|]. intros e He. by rewrite (Ht e He).
  - rewrite <- (i_eventfd _ _ H). unfold armed. rewrite Hq, Hcq; [done|]. intros e He. by rewrite (Ht e He).
  - intros j d Hj (left & Hok & Hwi). exists left. unfold wire_of, due_of in *. rewrite Hm, Hw, Hd. split; [|done].
    destruct (decide (j = i)) as [->|Hne]; [|by eapply slot_ok_perm; [symmetry; apply Ho|]]. eapply slot_ok_perm; [by symmetry|]. by eapply Hsw.
  - intros j Hn Hj. destruct (decide (j = i)) as [->|Hne]; [rewrite Hn in HR; by apply Permutation_nil_cons in HR|].
    specialize (Ho j Hne). rewrite Hn in Ho. by apply Permutation_nil_r in Ho.
Qed.

Lemma notif_inv ev k i s : Inv ev s -> owed s !! k = Some i ->
  Inv ev (set_cq (cq s ++ [mkCqe (Z.lor TAG_SEND (Z.of_nat i)) 0 None false true []]) (set_owed (delete k (owed s)) s)).
Proof.
  intros H Hk. set (s' := set_cq _ _).
  assert (forall j, toks j s ≡ₚ opt_tok (note_tok j i) ++ toks j (set_owed (delete k (owed s)) s)) as Hp.
  { intros j. unfold toks. usimpl. rewrite (delete_Permutation _ _ _ Hk) at 1. cbn [omap list_omap]. unfold note_tok at 1 4.
    destruct (i =? j)%nat; cbn [opt_tok from_option app]; [|done]. by rewrite !Permutation_middle. }
  assert (is_Some (get i s)) as [c Hg].
  { destruct (get i s) eqn:Hg; [done|]. specialize (Hp i). rewrite (i_dead _ _ H i Hg) in Hp. unfold note_tok in Hp. rewrite Nat.eqb_refl in Hp. by apply Permutation_nil_cons in Hp. }
  destruct (notif_decode i 0 None false true [] (slot_small i c s (i_slab _ _ H) Hg)) as [Ht Hs]. set (n := mkCqe _ _ _ _ _ _) in *.
  assert (forall j, toks j s' ≡ₚ (if (i =? j)%nat then [TC n] else []) ++ toks j (set_owed (delete k (owed s)) s)) as Hp'.
  { intros j. unfold toks, s'. usimpl. rewrite omap_app. cbn [omap list_omap]. unfold cqe_tok at 2. assert (cqe_conn n = true) as -> by (unfold cqe_conn; by rewrite Ht).
    rewrite Hs. destruct (i =? j)%nat; cbn [andb app]; rewrite ?app_nil_r; [|done]. rewrite <- app_assoc. cbn [app]. by rewrite !Permutation_middle. }
  eapply (swap_inv ev i TN (TC n) s s'); try done.
  - intros g Hg0. unfold s'. usimpl. rewrite tot_app. cbn [tot]. rewrite (Hg0 n eq_refl). lia.
  - by intros e [= ->].
  - exists (toks i (set_owed (delete k (owed s)) s)). rewrite Hp', (Hp i). unfold note_tok. by rewrite Nat.eqb_refl.
  - intros j Hj. rewrite Hp', (Hp j). unfold note_tok. by rewrite (proj2 (Nat.eqb_neq i j)) by congruence.
  - intros c' R left Hok HR. by eapply slot_notified.
Qed.

Lemma job_answered_inv ev k j d s : Inv ev s -> jobs s !! k = Some j -> done_conn d = job_slot j -> (split_static d = true -> done_resp d <> []) ->
  Inv ev (set_mailbox (mailbox s ++ [d]) (set_jobs (delete k (jobs s)) s)).
Proof.
  intros H Hk Hd Hsp. set (s' := set_mailbox _ _). set (s0 := set_jobs (delete k (jobs s)) s). set (i := job_slot j).
  assert (forall x, toks x s ≡ₚ opt_tok (job_tok x j) ++ toks x s0) as Hp.
  { intros x. unfold toks, s0. usimpl. rewrite (delete_Permutation _ _ _ Hk) at 1. cbn [omap list_omap].
    destruct (job_tok x j); cbn [opt_tok from_option app]; [|done]. by rewrite !Permutation_middle. }
  assert (forall x, toks x s' ≡ₚ opt_tok (done_tok x d) ++ toks x s0) as Hp'.
  { intros x. unfold toks, s', s0. usimpl. rewrite omap_app. cbn [omap list_omap].
    destruct (done_tok x d) as [t|]; cbn [opt_tok from_option app]; rewrite ?app_nil_r; [|done]. rewrite (Permutation_app_comm _ [t]). cbn [app]. by rewrite !Permutation_middle. }
  unfold job_tok, done_tok in *. rewrite Hd in Hp'. fold i in Hp, Hp'. eapply (swap_inv ev i (TJ j) (TM d) s s'); try done.
  - exists (toks i s0). rewrite Hp', (Hp i). by rewrite Nat.eqb_refl.
  - intros x Hx. rewrite Hp', (Hp x). by rewrite (proj2 (Nat.eqb_neq i x)) by congruence.
  - intros c R left Hok HR. by eapply slot_answered.
Qed.

(** ** The remaining steps *)
Lemma flush_inv ev s : Inv ev s -> Inv ev (set_backlog [] (set_submitted (submitted s ++ backlog s) s)).
Proof.
  intros H. set (s' := set_backlog _ _). assert (forall g, queued g s' = queued g s) as Hq by (intros g; unfold queued, s'; usimpl; rewrite tot_app; cbn [tot]; lia).
  assert (forall j, toks j s' ≡ₚ toks j s) as Ht.
  { intros j. unfold toks, s'. usimpl. rewrite omap_app. cbn [omap list_omap app]. rewrite <- app_assoc, !app_assoc.
    do 4 apply Permutation_app_tail. apply Permutation_app_comm. }
  eapply Inv_exchange; [exact H|done..| | | | |].
  - intros f. rewrite Hq. exact (fds_bound ev s f H).
  - rewrite <- (i_accept _ _ H). unfold armed. by rewrite Hq.
  - rewrite <- (i_eventfd _ _ H). unfold armed. by rewrite Hq.
  - intros j d _. by apply good_slot_perm.
  - intros j Hn _. specialize (Ht j). rewrite Hn in Ht. by apply Permutation_nil_r in Ht.
Qed.

Lemma return_inv ev k h s : Inv ev s -> handed s !! k = Some h -> exists s', uncount (h_ip h) (set_handed (delete k (handed s)) s) = Some s' /\ Inv ev s'.
Proof.
  intros [Is Ig Iac Iev Isl Id] Hk. pose proof Ig as [Gb Gf Gd Gc]. set (s1 := set_handed _ s).
  assert (Adm ev [] (at_source (h_ip h)) s1) as HA.
  { split; try done.
    - intros b. specialize (Gb b). cbn [tot] in Gb. change (own (leases b) s1) with (own (leases b) s). unfold s1. usimpl. lia.
    - intros f. specialize (Gf f). cbn [tot] in *. change (own (fds_of f) s1) with (own (fds_of f) s). change (queued (closes f) s1) with (queued (closes f) s).
      unfold s1. usimpl. rewrite (tot_delete _ _ _ _ Hk). pose proof (h_has_nonneg f h). lia.
    - eapply counts_ext; [|exact Gc]. intros ip. unfold held. change (own (from_ip ip) s1) with (own (from_ip ip) s). unfold s1. usimpl.
      rewrite (tot_delete _ _ _ _ Hk). change (h_from ip h) with (at_source ip (h_ip h)). rewrite (at_source_sym ip). lia. }
  destruct (uncount_spec (h_ip h) s1 (fun j => held s1 j + at_source (h_ip h) j)) as (s2 & -> & Ha & Hc).
  { intros j. pose proof (held_nonneg s1 j). pose proof (at_source_nonneg (h_ip h) j). lia. }
  { pose proof (held_nonneg s1 (h_ip h)). unfold at_source. rewrite bool_decide_true by done. lia. }
  { eapply counts_ext; [|exact (a_counts _ _ _ _ HA)]. done. }
  eexists. split; [done|]. eapply (Adm_Inv ev []), (Adm_alike ev [] (at_source (h_ip h)) no_one s1 s2); [done| |done].
  eapply counts_ext; [|exact Hc]. intros j. unfold no_one. cbn beta. lia.
Qed.

Lemma look_inv ev s : Inv ev s -> Inv ev (look s).2.
Proof. intros H. eapply Inv_alike; [apply alike_look| |done]. apply look_counts; [apply held_nonneg|]. by eapply glob_counts, i_glob. Qed.

(** No upstream deadline has passed. *)
Definition calm (l : Label) (s : Shard) : Prop := l = LSweep -> expired (a_now (amb (tick s))) s = [].

Lemma ustep_inv ev l s s' : Inv ev s -> calm l s -> ustep l s = Some s' -> Inv ev s'.
Proof.
  intros H Hl Hs. destruct l as [|k o|k| |k resp sp|ip| |k| |]; cbn [ustep] in Hs.
  - injection Hs as <-. by apply flush_inv.
  - destruct (submitted s !! k) as [q|] eqn:E; [|done]. by eapply kernel_any_inv.
  - destruct (owed s !! k) as [i|] eqn:E; [|done]. injection Hs as <-. by apply notif_inv.
  - destruct (cq s) as [|e rest] eqn:E; [done|]. destruct (handle_inv ev e rest s H E) as (s1 & Hs1 & Hi). congruence.
  - destruct (jobs s !! k) as [j|] eqn:E; [|done]. cbn [mbind option_bind] in Hs. destruct (sp && _) eqn:Eb; [done|]. injection Hs as <-.
    apply (job_answered_inv ev k j); [done..|]. cbn. intros ->. cbn [andb] in Eb. by apply bool_decide_eq_false in Eb.
  - destruct (existsb _ _); [|done]. injection Hs as <-. by eapply Inv_alike; [|exact (glob_counts _ _ _ (i_glob _ _ H))|exact H].
  - injection Hs as <-. by eapply Inv_alike; [|exact (glob_counts _ _ _ (i_glob _ _ H))|exact H].
  - destruct (handed s !! k) as [h|] eqn:E; [|done]. cbn [mbind option_bind] in Hs. destruct (return_inv ev k h s H E) as (s1 & Hs1 & Hi). congruence.
  - unfold sweep_proxy_timeouts in Hs. destruct (_ =? 0); [by injection Hs as <-|]. cbn [look] in Hs.
    change (expired (a_now (amb (tick s))) _) with (expired (a_now (amb (tick s))) s) in Hs. rewrite (Hl eq_refl) in Hs. cbn [foldl] in Hs. injection Hs as <-. by apply look_inv.
  - injection Hs as <-. pose proof (look_inv ev s H) as H1. eapply Inv_alike; [| |exact H1]; [by unfold alike; usimpl|]. usimpl.
    apply prune_counts. exact (glob_counts _ _ _ (i_glob _ _ H1)).
Qed.

(** The state a shard starts in, with the process's table as it is. *)
Lemma init_inv c0 : counts (table c0) (theirs 0) -> Inv 1 (shard_init c0 nbufs).
Proof.
  intros Hc. split; try done.
  - split; [constructor|]. cbn. split; [|by unfold MAX_CONNS_PER_SHARD, MAX_CONNS_CEILING]. intros i. by rewrite elem_of_nil, lookup_nil.
  - split; try done. intros b. cbn -[all_bids]. unfold all_bids. lia.
Qed.

Inductive reachable : Shard -> Prop :=
  | R_init c0 : counts (table c0) (theirs 0) -> reachable (shard_init c0 nbufs)
  | R_step l s s' : reachable s -> calm l s -> ustep l s = Some s' -> reachable s'.

Lemma reachable_inv s : reachable s -> Inv 1 s.
Proof. induction 1 as [c0 Hc|l s s' _ IH Hl Hs]; [by apply init_inv|by eapply ustep_inv]. Qed.
End shard.
