(* ===== verification/UringMain.v ===== *)
(** * What a shard promises, and three runs that break it

    The discipline of [UringInv] along every run in which no upstream deadline
    expires, in terms of what it means for a connection; a concrete shard that
    serves a request from a lent buffer with a zero-copy send; and the runs
    behind the findings on [uring.rs]. *)
From S2P Require Import Prelude Bytes Lines Io Standing Cache Http Gzip Ws Static Chunked ProxyHead Fleet Interim Connect Blocking Lanes Interp Accept Counts UringState Uring UringInv UringServe UringEffect UringSend UringShard UringRun.

Local Open Scope Z_scope.

Section main.
Context {host : Host} {world : World} {ok : HostOk}.

Lemma bids_once s b : Inv 1 s -> b ∈ all_bids -> tot (is_z b) (br_ring s) + tot (lent b) (cq s) + own (leases b) s = 1.
Proof.
  intros H Hb. pose proof (g_bids _ _ _ (i_glob _ _ H) b) as Hg. cbn [tot] in Hg. pose proof (all_bids_once b).
  apply list_elem_of_lookup in Hb as [i Hi]. pose proof (tot_own (is_z b) all_bids i b ltac:(auto with dn) Hi) as Ho. rewrite is_z_refl in Ho. lia.
Qed.

Lemma count_reads t h ip : counts t h -> active t ip = Some (h ip).
Proof.
  intros (_ & _ & m & Hr & Hm). destruct (rep_get _ _ _ ip Hr) as (g & Hg & Hd & _). unfold active. rewrite Hg. cbn. by rewrite Hd, Hm.
Qed.

(** C2. Along every run of an io_uring shard (accepts, receives, answers of the
    serve owner, sends with their zero-copy notifications, gather writes, file
    transfers, upstream dials and streams, handoffs, closes, in any order and
    with any results the kernel may give), as long as no upstream deadline
    expires: the handler of the next completion does not panic; of a live
    connection at least one completion is outstanding (several with zero-copy
    sends), and what is outstanding fits its state, with the bytes it points to;
    of a free slot nothing is, so that no completion reaches a later connection
    in the slot; each provided buffer is in one place; no two connections share
    a socket; the dials and the connections per source are counted exactly; one
    accept and one eventfd read are armed. And on a shard without a static root
    and without zero-copy streaming, what a socket was sent, followed by what is
    left of what is staged for it, is what was staged for it, in order; with
    them it need not be ([splice_pipe_crosses], [lost_block] below). *)
Theorem shard_discipline (s : Shard) : reachable s ->
  (forall e rest, cq s = e :: rest -> is_Some (handle e (set_cq rest s))) /\
  (forall i c, get i s = Some c -> toks i s <> [] /\
     exists left, slot_ok (br_mem s) i c (toks i s) left /\ (exact_wire -> wire_of (u_fd c) s ++ left = due_of (u_fd c) s)) /\
  (forall i, get i s = None -> toks i s = []) /\
  (forall b, b ∈ all_bids -> tot (is_z b) (br_ring s) + tot (lent b) (cq s) + own (leases b) s = 1) /\
  (forall i j c d, i <> j -> get i s = Some c -> get j s = Some d -> u_fd c <> u_fd d) /\
  proxy_inflight s = own has_dial s /\
  (forall ip, active (table (common s)) ip = Some (held s ip + theirs (tick s) ip)) /\
  armed QAccept s = 1 /\ armed QEventfd s = 1.
Proof.
  intros H%reachable_inv. pose proof H as [Is Ig Iac Iev Isl Id]. split_and!; try done.
  - intros e rest E. destruct (handle_inv 1 e rest s H E) as (s' & -> & _). done.
  - intros i c Hg. destruct (Isl i c Hg) as (left & Hok & Hw). split; [|by exists left]. intros E. rewrite E in Hok. by apply slot_ok_nonempty in Hok.
  - intros b. by apply bids_once.
  - intros i j c d. by apply (fd_distinct [] [] s).
  - by destruct Ig.
  - intros ip. apply (count_reads _ _ ip (glob_counts _ _ _ Ig)).
Qed.

(** ** Runs *)
Fixpoint urun (ls : list Label) (s : Shard) : option Shard :=
  match ls with
  | [] => Some s
  | l :: ls' => s' ← ustep l s; urun ls' s'
  end.

Lemma urun_reachable ls : forall s s', Forall (fun l => l <> LSweep) ls -> reachable s -> urun ls s = Some s' -> reachable s'.
Proof.
  induction ls as [|l ls IH]; intros s s' Hf Hr; cbn [urun]; [by intros [= <-]|]. apply Forall_cons in Hf as [Hl Hf].
  destruct (ustep l s) as [s1|] eqn:E; [|done]. cbn [mbind option_bind]. apply IH; [done|]. eapply R_step; [exact Hr|by intros ?|exact E].
Qed.
End main.

(** ** A concrete shard *)
Module DemoShard.

(** The smallest descriptor above those in use. *)
Definition next_fd (_ : nat) (l : list Z) : option Z := Some (1 + foldr Z.max 0 l).

Lemma next_fd_fresh n l f : next_fd n l = Some f -> f ∉ l.
Proof.
  intros [= <-] Hin. assert (forall l x, x ∈ l -> x <= foldr Z.max 0 l) as H.
  { clear. induction l as [|y l IH]; intros x Hx; [by apply elem_of_nil in Hx|]. apply elem_of_cons in Hx as [->|Hx]; cbn; [lia|]. specialize (IH x Hx). lia. }
  specialize (H l _ Hin). lia.
Qed.

Definition no_files : filesystem := FileSystem (fun _ => None) (fun _ => false) (fun _ => false) (fun _ => None).

(** The core answers every static request with the whole file. *)
Definition whole_file (_ : bytes) : option bytes := None.

Definition machine (z streams : bool) (sr : option StaticRoot) (fs : filesystem) (decide_out : bytes -> option bytes) (fleet_addr : option SockAddr) : Host :=
  mkHost z (fun t => mkAmbient (Z.of_nat t) 0 0 8 0 0 None []) (fun _ c => c) 0 1000 false [] Demo.framer false None (fun _ => None)
    streams false true streams 50 (fun _ => fleet_addr) id id false (fun _ => 0) (fun _ => None) (fun _ => None) sr (fun _ => fs) Some decide_out true
    (fun _ => 1000%nat) (fun _ => true) (fun _ => true) next_fd.

#[export] Instance alone : World := mkWorld 4 (fun _ _ => 0).

#[export] Instance machine_ok z st sr fs dec fa : @HostOk (machine z st sr fs dec fa) alone.
Proof.
  split; [done|by intros n cm h _|by cbn|apply next_fd_fresh|apply Demo.framer_progress].
Qed.

Definition quiet : Common := mkCommon (SharedStanding_new 7) ResponseCache_new None.

Lemma quiet_counts : counts (table quiet) (theirs 0).
Proof.
  split_and!; [done|done|]. exists ∅. split; [|by intros ip]. eapply (rep_tight 0); [apply st_new_rep|]. by unfold TABLE_MAX.
Qed.

Definition ok_page : bytes := bs "HTTP/1.1 200 OK" ++ CRLF ++ bs "Content-Length: 2" ++ CRLFCRLF ++ bs "hi".
Definition sent_page : bytes := annotate_connection ok_page true.

(** A request is received in a lent buffer, served from it, and answered with
    two zero-copy sends; the connection is kept. *)
Definition borrow_and_send : list Label :=
  [LFlush; LPeer (V4 9); LKernel 0 (KMoved 7 false); LHandle;
   LFlush; LKernel 2 (KBytes (Demo.page "aa" "")); LHandle;
   LAnswer 0 ok_page false; LKernel 0 KDone; LHandle;
   LFlush; LKernel 1 (KMoved 10 true); LHandle;
   LNotif 0; LFlush; LHandle; LKernel 2 (KMoved (length sent_page - 10) true); LHandle; LNotif 0; LHandle].
End DemoShard.
Import DemoShard.

Definition plain_machine (z : bool) : Host := machine z false None no_files whole_file None.

Definition served (s : Shard) : bool :=
  bool_decide (wire_of 7 s = sent_page) && bool_decide (due_of 7 s = sent_page) && (length (br_ring s) =? 4)%nat && (zc_borrow s =? 1) && (zc_recycle s =? 1)
  && bool_decide (is_Some (get 0 s)).

Lemma shard_discipline_witness :
  exists s, @urun (plain_machine true) borrow_and_send (@shard_init (plain_machine true) quiet 4) = Some s /\ served s = true /\ toks 0 s <> [].
Proof.
  set (h := plain_machine true). set (o := @urun h borrow_and_send (@shard_init h quiet 4)).
  assert ((served <$> o) = Some true) as Hs by (vm_compute; reflexivity).
  destruct o as [s|] eqn:E; [|discriminate Hs]. exists s. injection Hs as Hs. split; [reflexivity|]. split; [exact Hs|].
  assert (@reachable h alone s) as Hr.
  { apply (@urun_reachable h alone borrow_and_send (@shard_init h quiet 4)); [unfold borrow_and_send; repeat (apply Forall_cons_2; [discriminate|]); apply Forall_nil_2|exact (@R_init h alone quiet quiet_counts)|exact E]. }
  pose proof (@shard_discipline h alone (machine_ok true false None no_files whole_file None) s Hr) as (_ & Hl & _).
  unfold served in Hs. apply andb_prop in Hs as [_ Hg]. apply bool_decide_eq_true in Hg as [c Hc]. exact (proj1 (Hl 0%nat c Hc)).
Defined.

(** ** Runs behind the findings *)
Definition checked (h : Host) (c0 : Common) (ls : list Label) (p : Shard -> bool) : bool :=
  match @urun h ls (@shard_init h c0 4) with Some s => p s | None => false end.

(** Two file transfers share the shard's pipe: each client is sent the other's
    file. *)
Definition two_files : filesystem :=
  FileSystem Some (fun _ => true) (fun _ => false)
    (fun p => Some (Opened (File (if ends_with (bs "a") p then bs "AAAA" else bs "BBBB") 0 []) (Some (4, Some 0)))).

Definition files_machine : Host :=
  machine false false (Some (mkStaticRoot (bs "/srv") (bs "/static/") None)) two_files (fun _ => Some (encode_plan (Whole (bs "H")))) None.

Definition crossed : list Label :=
  [LFlush; LKernel 0 (KMoved 7 false); LHandle; LFlush; LKernel 1 (KMoved 8 false); LHandle; LFlush;
   LKernel 1 (KBytes (Demo.page "static/a" "")); LHandle; LKernel 2 (KBytes (Demo.page "static/b" "")); LHandle; LFlush;
   LKernel 2 (KMoved 1 false); LHandle; LKernel 2 (KMoved 1 false); LHandle; LFlush;
   LKernel 2 (KMoved 4 false); LHandle; LKernel 2 (KMoved 4 false); LHandle; LFlush;
   LKernel 3 (KMoved 4 false); LKernel 2 (KMoved 4 false)].

Example splice_pipe_crosses :
  checked files_machine quiet crossed (fun s => bytes_eqb (wire_of 7 s) (bs "HBBBB") && bytes_eqb (wire_of 8 s) (bs "HAAAA")) = true.
Proof. vm_compute. reflexivity. Qed.

(** *** With an upstream *)
Definition one_backend : Fleet := mkFleet {[0 := bs "up"]} {[0 := Some 99]} 255 {[0 := 0]} {[0 := 0]} 3 0.
Definition proxied : Common := mkCommon (SharedStanding_new 7) ResponseCache_new (Some one_backend).
Definition proxy_machine (z : bool) : Host := machine z true None no_files whole_file (Some 99).
Definition yield_proxy : bytes := TAG_YIELD_PROXY :: 0 :: bs "GET / HTTP/1.1" ++ CRLFCRLF.
Definition up_head : bytes := bs "HTTP/1.1 200 OK" ++ CRLF ++ bs "Content-Length: 4" ++ CRLFCRLF.

(** The request arrives in two reads and is answered with a dial. *)
Definition dialing : list Label :=
  let req := Demo.page "static/x" "" in
  [LFlush; LKernel 0 (KMoved 7 false); LHandle; LFlush; LKernel 2 (KBytes (take 10 req)); LHandle; LFlush; LKernel 2 (KBytes (drop 10 req)); LHandle;
   LAnswer 0 yield_proxy false; LKernel 0 KDone; LHandle; LFlush].

(** The zero-copy send of the head and the first block fails; the stream goes
    on with the next block, and the connection is kept. *)
Definition failing_block : list Label :=
  dialing ++
  [LKernel 1 KDone; LHandle; LFlush; LKernel 2 (KMoved 18 false); LHandle; LFlush; LKernel 2 (KBytes (up_head ++ bs "ab")); LHandle;
   LAnswer 0 up_head false; LKernel 1 KDone; LHandle; LFlush; LKernel 1 (KFail 12 false); LHandle; LFlush; LKernel 2 (KBytes (bs "cd")); LHandle; LFlush;
   LKernel 2 (KMoved 2 true); LHandle; LNotif 0; LHandle].

Example lost_block :
  checked (proxy_machine true) proxied failing_block
    (fun s => bytes_eqb (wire_of 7 s) (bs "cd") && bool_decide (is_Some (get 0 s)) && existsb (fun q => if q is QRecvBr _ _ then true else false) (backlog s)) = true.
Proof. vm_compute. reflexivity. Qed.

(** The deadline of a dial passes while its connect is with the kernel; the
    connect then fails: the request is resumed twice, and answered twice. *)
Definition swept : list Label :=
  dialing ++ repeat LSweep 60 ++ [LKernel 1 (KFail 110 false); LHandle;
    LAnswer 0 (TAG_DONE :: ok_page) false; LAnswer 0 (TAG_DONE :: ok_page) false; LKernel 1 KDone; LHandle].

Definition sends_of (i : nat) (s : Shard) : nat := length (List.filter (fun q => match q with QSend j _ _ _ => (j =? i)%nat | _ => false end) (backlog s ++ submitted s)).

Example swept_answered_twice :
  checked (proxy_machine false) proxied swept (fun s => (sends_of 0 s =? 2)%nat) = true.
Proof. vm_compute. reflexivity. Qed.

(** ** A whole request in a lent buffer

    With provided buffers a request that arrives whole, in one block, goes
    straight to the metered seam, also when the static lane or the effect seam
    answers it otherwise: the same request is answered from the file without
    provided buffers, and handed to the core with them. *)
Definition static_machine (z : bool) : Host :=
  machine z false (Some (mkStaticRoot (bs "/srv") (bs "/static/") None)) two_files (fun _ => Some (encode_plan (Whole (bs "H")))) None.

Definition one_static : list Label :=
  [LFlush; LKernel 0 (KMoved 7 false); LHandle; LFlush; LKernel 2 (KBytes (Demo.page "static/a" "")); LHandle].

Definition to_the_core (s : Shard) : bool := match jobs s with [JobServe 0 SeamHttp (Borrowed _ _) _] => true | _ => false end.
Definition from_the_file (s : Shard) : bool := match jobs s with [] => existsb (fun q => if q is QStaticSend _ _ _ then true else false) (backlog s) | _ => false end.

Example borrow_skips_static :
  checked (static_machine false) quiet one_static from_the_file && checked (static_machine true) quiet one_static to_the_core = true.
Proof. vm_compute. reflexivity. Qed.
