(* ===== verification/Serve.v ===== *)
(** * The serve gateway ([serve.rs], [gateway.rs], [cake_serve.rs])

    How a request reaches the linked core: the seams with their exported
    functions, the frames the callers build and the owner takes apart, the
    measurement and demonstration switches in front of the deployed crossing,
    and one job on an owner thread ([run_job]) with the catch around it. A call
    into the linked archives is a [Crossing]; [link] is what it returns, or a
    panic of the marshalling around it. The concurrent part is [ServeRun]. *)
From S2P Require Import Prelude Bytes Lines Io Standing Static Blocking Interp UringState.

Local Open Scope Z_scope.

(** ** What is linked *)

(** The exported functions from bytes to bytes. *)
Inductive Export :=
  | drorb_serve | drorb_serve_flat | drorb_serve_span | drorb_serve_span_list | drorb_serve_full
  | drorb_serve_bodypoly | drorb_serve_bodypoly_list | drorb_serve_poly | drorb_serve_dense | drorb_serve_dense_list
  | drorb_serve_densefull | drorb_serve_densefull_list | drorb_serve_densefull2 | drorb_serve_gated
  | drorb_serve_gated_list | drorb_serve_split_head | drorb_serve_ultra | drorb_serve_ultra_list
  | drorb_serve_dense_real | drorb_serve_conformant | drorb_serve_head_idx | drorb_serve_grpcweb
  | drorb_serve_conformant_head_idx | drorb_serve_conformant_dense | drorb_serve_dense_idx
  | drorb_serve_conformant_fast | drorb_serve_conformant_zc | drorb_bulk_body | drorb_serve_braided
  | drorb_serve_datagram | drorb_upgrade_gate | drorb_proxy_pick | drorb_lb_pick | drorb_serve_step
  | drorb_serve_proxy_stream_head | drorb_serve_resume | drorb_serve_step_cfg | drorb_serve_resume_cfg
  | drorb_l4_bind | drorb_deployment_of_config | drorb_serve_step_pol | drorb_serve_resume_pol
  | drorb_serve_stream | drorb_connect_gate | drorb_grpc_frame_len | drorb_static_resolve | drorb_static_decide
  | drorb_serve_cfg.

Record TlsCert := mkTlsCert {
  cert_der : bytes; tls_seed : bytes; ecdsa_cert : bytes; ecdsa_priv : bytes;
  rsa_cert : bytes; rsa_n : bytes; rsa_e : bytes; rsa_d : bytes
}.

(** The scalars that cross with a metered request. *)
Record Gates := mkGates {
  g_seq : Z; g_active : Z; g_span : Z; g_cap : Z; g_rate_count : Z; g_rate_limit : Z; g_burst_cap : Z; g_burst_refill : Z
}.

Inductive Crossing :=
  | CallOne (f : Export) (input : bytes)
  | CallPipeline (peer : bytes) (g : Gates) (input : bytes)
  | CallMeteredCfg (peer : bytes) (g : Gates) (input : bytes)
  | CallBraided (peer : bytes) (seq : Z) (input : bytes)
  | CallGateway (peer : bytes) (seq gw_sel : Z) (input : bytes)
  | CallTls (fd : Z) (cert : TlsCert)
  | CallCake (image : Z) (line : bytes)
  | CallHealth (req : bytes).

(** The configuration as read at a crossing. *)
Record Limits := mkLimits { max_connections : Z; l_rate_limit : Z; l_burst_cap : Z; l_burst_refill : Z }.

(** What the gateway is given: the archives, the environment and how the
    binary was built, the configuration and the lent buffers over time. *)
Class Linked := mkLinked {
  link : Crossing -> option bytes;
  getenv : string -> option bytes;
  has_health : bool;
  has_cake : bool;
  cake_image_count : Z;
  limits_at : nat -> Limits;
  lent_at : nat -> Z -> bytes
}.

Section serve.
Context {linked : Linked}.

(** ** Switches *)
Definition switch (name : string) : bool :=
  match getenv name with Some v => bool_decide (v ∈ [bs "1"; bs "true"; bs "yes"; bs "on"]) | None => false end.

Definition flat_serve_enabled : bool := switch "DRORB_FLAT".
Definition health_native_enabled : bool := switch "DRORB_HEALTH_NATIVE".
Definition cake_serve_enabled : bool := switch "DRORB_CAKE_SERVE".

Definition span_number : option Z :=
  v ← getenv "DRORB_SPAN"; List.find (fun k => bytes_eqb v (to_dec k)) (seqZ 1 25).

Definition is_split_span : bool := bool_decide (span_number = Some 15).
Definition is_zc_split_span : bool := bool_decide (span_number = Some 23).

Definition panic_test_mode : Z :=
  match getenv "DRORB_PANIC_TEST" with
  | Some v => if bytes_eqb v (bs "1") then 1 else if bytes_eqb v (bs "2") then 2 else 0
  | None => 0
  end.

Definition req_target_is_panic_probe (req : bytes) : bool :=
  bool_decide (is_Some (windows_position (bs "/__panic_test") (take 256 req))).

Definition serve_owner_count : Z :=
  match getenv "DRORB_SERVE_OWNERS" ≫= parse_uint USIZE with Some n => Z.max 1 (Z.min 64 n) | None => 1 end.

(** [gateway::selector]. *)
Definition selector : option Z :=
  v ← getenv "DRORB_GATEWAY"; if bool_decide (str_trim v ∈ [bs "dreggnet"; bs "dregg.net"; bs "1"]) then Some 1 else None.

(** ** Seams *)
Definition entry (s : Seam) : Export :=
  match s with
  | SeamHttp => if flat_serve_enabled then drorb_serve_flat else drorb_serve_head_idx
  | Datagram => drorb_serve_datagram
  | UpgradeGate => drorb_upgrade_gate
  | ProxyPick => drorb_proxy_pick
  | LbPick => drorb_lb_pick
  | ServeStep => drorb_serve_step
  | ServeResume => drorb_serve_resume
  | ServeProxyStreamHead => drorb_serve_proxy_stream_head
  | ServeStepCfg => drorb_serve_step_cfg
  | ServeResumeCfg => drorb_serve_resume_cfg
  | L4Bind => drorb_l4_bind
  | DeploymentOfConfig => drorb_deployment_of_config
  | ServeStepPol => drorb_serve_step_pol
  | ServeResumePol => drorb_serve_resume_pol
  | ServeCfg => drorb_serve_cfg
  | ServeBraided => drorb_serve_braided
  | ServeStream => drorb_serve_stream
  | ConnectGate => drorb_connect_gate
  | GrpcFrameLen => drorb_grpc_frame_len
  | StaticResolve => drorb_static_resolve
  | StaticDecide => drorb_static_decide
  | ServeGatewaySeam => drorb_serve
  end.

Definition span_serve_seam : option Export :=
  n ← span_number;
  list_to_map (M := gmap Z Export)
    [(1, drorb_serve_span); (2, drorb_serve_span_list); (3, drorb_serve_full); (4, drorb_serve); (5, drorb_serve_bodypoly);
     (6, drorb_serve_bodypoly_list); (7, drorb_serve_poly); (8, drorb_serve_dense); (9, drorb_serve_dense_list);
     (10, drorb_serve_densefull); (11, drorb_serve_densefull_list); (12, drorb_serve_densefull2); (13, drorb_serve_gated);
     (14, drorb_serve_gated_list); (15, drorb_serve_split_head); (16, drorb_serve_ultra); (17, drorb_serve_ultra_list);
     (18, drorb_serve_dense_real); (19, drorb_serve_conformant); (20, drorb_serve_conformant_dense); (21, drorb_serve_dense_idx);
     (22, drorb_serve_conformant_fast); (24, drorb_serve_head_idx); (25, drorb_serve_grpcweb)] !! n.

Definition serve_into (req : bytes) (s : Seam) : option bytes := link (CallOne (entry s) req).
Definition serve_into_via (req : bytes) (f : Export) : option bytes := link (CallOne f req).

(** The payload without its tag, and whether it is a head only. *)
Definition serve_zc_into (req : bytes) : option (bytes * bool) :=
  out ← link (CallOne drorb_serve_conformant_zc req);
  Some match out with [] => ([], false) | tag :: rest => (rest, tag =? 1) end.

(** ** The client address *)

(** [buf[n] = ...] panics past the end of the buffer. *)
Definition put_byte (b : Z) (acc : option (bytes * nat)) : option (bytes * nat) :=
  '(buf, n) ← acc; if (n <? length buf)%nat then Some (<[n := b]> buf, S n) else None.

Definition bit_of (octet bit : Z) : Z := Z.land (Z.shiftr octet bit) 1.

Definition push_octets (octets : bytes) (acc : option (bytes * nat)) : option (bytes * nat) :=
  foldl (fun acc octet => foldl (fun acc bit => put_byte (bit_of octet bit) acc) acc [7; 6; 5; 4; 3; 2; 1; 0]) acc octets.

Definition octets (ip : IpAddr) : bytes := match ip with V4 a => to_be_bytes 4 a | V6 a => to_be_bytes 16 a end.

Definition encode_addr (ip : IpAddr) : option bytes :=
  '(buf, n) ← push_octets (octets ip) (put_byte (match ip with V4 _ => 4 | V6 _ => 6 end) (Some (replicate 129 0, 0%nat)));
  Some (take n buf).

(** ** Metered crossings *)
Definition gates (l : Limits) (m : Meter) : Gates :=
  mkGates (m_seq m) (m_active m) (m_hdr_span m) (max_connections l) (m_rate_prior m) (l_rate_limit l) (l_burst_cap l) (l_burst_refill l).

Definition serve_metered_dense_conformant_into (l : Limits) (req : bytes) (m : Meter) : option bytes :=
  peer ← encode_addr (m_client m); link (CallPipeline peer (gates l m) req).

(** A frame with no configuration is served by the pipeline. *)
Definition serve_metered_cfg_conformant_into (l : Limits) (framed : bytes) (m : Meter) : option bytes :=
  if starts_with [0; 0; 0; 0] framed then serve_metered_dense_conformant_into l (drop 4 framed) m
  else peer ← encode_addr (m_client m); link (CallMeteredCfg peer (gates l m) framed).

Definition serve_metered_braided_conformant_into (req : bytes) (m : Meter) : option bytes :=
  peer ← encode_addr (m_client m); link (CallBraided peer (m_seq m) req).

Definition serve_gateway_into (framed : bytes) (m : Meter) : option bytes :=
  let '(gw_sel, req) := if (8 <=? length framed)%nat then (from_be_bytes (take 8 framed), drop 8 framed) else (0, framed) in
  peer ← encode_addr (m_client m); link (CallGateway peer (m_seq m) gw_sel req).

(** ** The compiled responders *)
Definition HEALTH_EXACT_REQ : bytes := bs "GET /health HTTP/1.1" ++ CRLF ++ bs "Host: x" ++ CRLFCRLF.

Definition wants_native_health (req : bytes) : bool := has_health && health_native_enabled && bytes_eqb req HEALTH_EXACT_REQ.

(** [Some None]: declined; the buffer has room for 512 bytes. *)
Definition serve_native_into (req : bytes) : option (option bytes) :=
  if negb (wants_native_health req) then Some None
  else out ← link (CallHealth req); let out := take 512 out in Some (if bool_decide (out = []) then None else Some out).

Definition HTTP_METHODS : list bytes :=
  [bs "GET "; bs "HEAD "; bs "POST "; bs "PUT "; bs "DELETE "; bs "OPTIONS "; bs "PATCH "; bs "TRACE "; bs "CONNECT "].

Definition looks_like_http_request (line : bytes) : bool := existsb (fun m => starts_with m line) HTTP_METHODS.

Definition unframe (req : bytes) : bytes :=
  if looks_like_http_request req then req
  else if (4 <=? length req)%nat then
    match checked_add USIZE (from_be_bytes (take 4 req)) 4 with
    | Some off =>
        if (off <=? Z.of_nat (length req)) && looks_like_http_request (drop (Z.to_nat off) req) then drop (Z.to_nat off) req else req
    | None => req
    end
  else req.

(** The thread's cell, [-2] before its first use, and the pool's counter. *)
Record Images := mkImages { im_mine : Z; im_next : Z }.

Definition my_image_idx (im : Images) : Z * Images :=
  if negb (im_mine im =? -2) then (im_mine im, im)
  else
    let claimed := im_next im in
    let idx := if claimed <? cake_image_count then claimed else -1 in
    (idx, mkImages idx (wrapping_add USIZE (im_next im) 1)).

Definition wants_cake_serve (req : bytes) : bool := has_cake && cake_serve_enabled && looks_like_http_request (unframe req).

Definition serve_cake_into (im : Images) (req : bytes) : option (option bytes) * Images :=
  if negb (wants_cake_serve req) then (Some None, im)
  else
    let '(idx, im1) := my_image_idx im in
    if idx <? 0 then (Some None, im1)
    else (out ← link (CallCake idx (unframe req)); let out := take 4096 out in Some (if bool_decide (out = []) then None else Some out), im1).

(** ** Jobs *)
Inductive ServeReply := Sync (client : nat) | ToShard (shard conn : nat) | ToReactor (reactor conn : nat).

#[export] Instance ServeReply_eq_dec : EqDecision ServeReply.
Proof. solve_decision. Defined.

Record ServeJob := mkJob {
  j_req : ReqBuf;
  j_seam : Seam;
  j_reply : ServeReply;
  j_meter : option Meter;
  j_tls : option (Z * TlsCert)
}.

(** A borrowed request is read where it was received. *)
Definition req_bytes (n : nat) (r : ReqBuf) : bytes :=
  match r with Pooled b => b | Borrowed bid len => take len (lent_at n bid) end.

(** The deployed crossing, when no switch is set. *)
Definition cross (l : Limits) (req : bytes) (s : Seam) (m : option Meter) : option bytes :=
  match m with
  | Some m =>
      match s with
      | ServeCfg => serve_metered_cfg_conformant_into l req m
      | ServeBraided => serve_metered_braided_conformant_into req m
      | ServeGatewaySeam => serve_gateway_into req m
      | _ => serve_metered_dense_conformant_into l req m
      end
  | None => match s with SeamHttp => serve_into_via req drorb_serve_conformant_head_idx | _ => serve_into req s end
  end.

Definition is_http_serve (s : Seam) (m : option Meter) : bool :=
  bool_decide (is_Some m) || match s with SeamHttp => true | _ => false end.

Definition serve_lean (l : Limits) (req : bytes) (s : Seam) (m : option Meter) : option (bytes * bool) :=
  if is_zc_split_span && is_http_serve s m then serve_zc_into req
  else match span_serve_seam with
       | Some f => if is_http_serve s m then r ← serve_into_via req f; Some (r, false) else r ← cross l req s m; Some (r, false)
       | None => r ← cross l req s m; Some (r, false)
       end.

(** The compute phase: [None] is a panic. *)
Definition run_job (n : nat) (im : Images) (j : ServeJob) : option (bytes * bool) * Images :=
  match j_tls j with
  | Some (fd, cert) => (_ ← link (CallTls fd cert); Some ([], false), im)
  | None =>
      let req := req_bytes n (j_req j) in
      match serve_cake_into im req with
      | (None, im1) => (None, im1)
      | (Some (Some out), im1) => (Some (out, false), im1)
      | (Some None, im1) =>
          (nat_out ← serve_native_into req;
           match nat_out with
           | Some out => Some (out, false)
           | None => serve_lean (limits_at n) req (j_seam j) (j_meter j)
           end, im1)
      end
  end.

Definition PANIC_500 : bytes :=
  bs "HTTP/1.1 500 Internal Server Error" ++ CRLF ++ bs "Content-Type: text/plain; charset=utf-8" ++ CRLF ++
  bs "Content-Length: 22" ++ CRLF ++ bs "Connection: close" ++ CRLFCRLF ++ bs "internal server error" ++ [LF].

Definition probe_hit (mode : Z) (n : nat) (j : ServeJob) : bool :=
  (panic_test_mode =? mode) && bool_decide (j_tls j = None) && req_target_is_panic_probe (req_bytes n (j_req j)).

Definition run_job_caught (n : nat) (im : Images) (j : ServeJob) : option (bytes * bool) * Images :=
  if probe_hit 1 n j then (None, im) else run_job n im j.

(** ** The callers' side *)
Definition job (req : ReqBuf) (s : Seam) (r : ServeReply) (m : option Meter) : ServeJob := mkJob req s r m None.

Definition job_submit (req : bytes) (s : Seam) (r : ServeReply) : ServeJob := job (Pooled req) s r None.
Definition job_metered (req : bytes) (m : Meter) (r : ServeReply) : ServeJob := job (Pooled req) SeamHttp r (Some m).
Definition job_metered_cfg (config req : bytes) (m : Meter) (r : ServeReply) : ServeJob :=
  job (Pooled (sized config ++ req)) ServeCfg r (Some m).
Definition job_metered_braided (req : bytes) (m : Meter) (r : ServeReply) : ServeJob := job (Pooled req) ServeBraided r (Some m).
Definition job_gateway (gw_sel : Z) (req : bytes) (m : Meter) (r : ServeReply) : ServeJob :=
  job (Pooled (to_be_bytes 8 gw_sel ++ req)) ServeGatewaySeam r (Some m).
Definition job_borrowed (bid : Z) (len : nat) (braided : bool) (m : Meter) (r : ServeReply) : ServeJob :=
  job (Borrowed bid len) (if braided then ServeBraided else SeamHttp) r (Some m).
Definition job_cfg (config req : bytes) (r : ServeReply) : ServeJob := job (Pooled (sized config ++ req)) ServeCfg r None.
Definition job_step (prefix : option Z) (msk : Z) (req : bytes) (s : Seam) (r : ServeReply) : ServeJob :=
  job (Pooled (frame_step prefix msk req)) s r None.
Definition job_resume (prefix : option Z) (msk : Z) (req : bytes) (results : list bytes) (s : Seam) (r : ServeReply) : ServeJob :=
  job (Pooled (frame_resume prefix msk req results)) s r None.
Definition job_stream_head (req up_head : bytes) (body_len : Z) (r : ServeReply) : ServeJob :=
  job (Pooled (sized req ++ sized up_head ++ to_be_bytes 4 (wrap 32 body_len))) ServeProxyStreamHead r None.
Definition job_tls (fd : Z) (cert : TlsCert) (r : ServeReply) : ServeJob := mkJob (Pooled []) SeamHttp r None (Some (fd, cert)).

(** What the static lane makes of its answers. *)
Definition static_resolved (out : bytes) : option bytes := match out with 1 :: resolved => Some resolved | _ => None end.
Definition static_decided (out : bytes) : option bytes := match out with [] => None | _ => Some out end.
End serve.

(** ** The address crosses unchanged *)
Definition octet_bits (o : Z) : bytes := (fun b => bit_of o b) <$> [7; 6; 5; 4; 3; 2; 1; 0].

(** How the filter reads it back. *)
Fixpoint of_bits (l : bytes) (acc : Z) : Z := match l with [] => acc | b :: l' => of_bits l' (2 * acc + b) end.

Definition decode_addr (b : bytes) : option IpAddr :=
  match b with
  | 4 :: bits => if (length bits =? 32)%nat then Some (V4 (of_bits bits 0)) else None
  | 6 :: bits => if (length bits =? 128)%nat then Some (V6 (of_bits bits 0)) else None
  | _ => None
  end.

Definition addr_fits (ip : IpAddr) : Prop := match ip with V4 a => fits 32 a | V6 a => fits 128 a end.

Lemma put_byte_ok b pre rest : (0 < rest)%nat ->
  put_byte b (Some (pre ++ replicate rest 0, length pre)) = Some ((pre ++ [b]) ++ replicate (rest - 1) 0, length (pre ++ [b])).
Proof.
  intros H. destruct rest as [|rest]; [lia|]. cbn [replicate put_byte mbind option_bind]. rewrite !length_app. cbn [length].
  rewrite (proj2 (Nat.ltb_lt _ _)) by lia. rewrite insert_app_r_alt by lia. rewrite Nat.sub_diag, Nat.add_1_r, <- app_assoc. cbn [app insert list_insert Nat.sub]. by rewrite Nat.sub_0_r.
Qed.

Lemma foldl_put_byte l : forall pre rest, (length l <= rest)%nat ->
  foldl (fun acc b => put_byte b acc) (Some (pre ++ replicate rest 0, length pre)) l =
  Some ((pre ++ l) ++ replicate (rest - length l) 0, length (pre ++ l)).
Proof.
  induction l as [|b l IH]; intros pre rest H; cbn [foldl length] in *; [by rewrite app_nil_r, Nat.sub_0_r|].
  rewrite put_byte_ok by lia. rewrite IH by lia. rewrite <- (app_assoc pre [b] l). cbn [app]. by replace (rest - S (length l))%nat with (rest - 1 - length l)%nat by lia.
Qed.

Lemma push_octets_bits os acc : push_octets os acc = foldl (fun acc b => put_byte b acc) acc (concat (octet_bits <$> os)).
Proof.
  unfold push_octets. revert acc. induction os as [|o os IH]; intros acc; [done|]. cbn [foldl fmap list_fmap concat]. rewrite IH, foldl_app. done.
Qed.

Lemma length_octet_bits os : length (concat (octet_bits <$> os)) = (8 * length os)%nat.
Proof. induction os as [|o os IH]; [done|]. cbn [fmap list_fmap concat length]. rewrite length_app, IH. cbn. lia. Qed.

Lemma encode_addr_bits ip : encode_addr ip = Some ((match ip with V4 _ => 4 | V6 _ => 6 end) :: concat (octet_bits <$> octets ip)).
Proof.
  unfold encode_addr. set (tag := match ip with V4 _ => 4 | V6 _ => 6 end).
  assert (length (octets ip) <= 16)%nat as Hl by (destruct ip; cbn [octets]; rewrite length_to_be_bytes; lia).
  pose proof (put_byte_ok tag [] 129 ltac:(lia)) as Hp. cbn [app length] in Hp. rewrite Hp. clear Hp.
  pose proof (foldl_put_byte (concat (octet_bits <$> octets ip)) [tag] (129 - 1) ltac:(rewrite length_octet_bits; lia)) as Hf. cbn [app length] in Hf.
  rewrite push_octets_bits, Hf. cbn [mbind option_bind]. exact (f_equal Some (take_app_length (tag :: _) _)).
Qed.

Lemma of_bits_acc l : forall acc, of_bits l acc = acc * 2 ^ Z.of_nat (length l) + of_bits l 0.
Proof.
  induction l as [|b l IH]; intros acc; cbn [of_bits length]; [change (2 ^ Z.of_nat 0) with 1; lia|].
  rewrite IH, (IH (2 * 0 + b)). rewrite Nat2Z.inj_succ, Z.pow_succ_r by lia. lia.
Qed.

Lemma of_bits_app l k : of_bits (l ++ k) 0 = of_bits l 0 * 2 ^ Z.of_nat (length k) + of_bits k 0.
Proof. induction l as [|b l IH]; [done|]. cbn [app of_bits]. rewrite of_bits_acc, IH, (of_bits_acc l (2 * 0 + b)). rewrite length_app, Nat2Z.inj_add, Z.pow_add_r by lia. ring. Qed.

Lemma of_octet_bits o : byte_ok o -> of_bits (octet_bits o) 0 = o.
Proof.
  intros H. assert (forallb (fun o => of_bits (octet_bits o) 0 =? o) (seqZ 0 256) = true) as Ha by (vm_compute; reflexivity).
  rewrite List.forallb_forall in Ha. apply Z.eqb_eq, Ha, list_elem_of_In, elem_of_seqZ. unfold byte_ok in H. lia.
Qed.

Lemma from_be_snoc l b : from_be_bytes (l ++ [b]) = from_be_bytes l * 256 + b.
Proof. unfold from_be_bytes. rewrite reverse_app. cbn. lia. Qed.

Lemma of_bits_octets os : bytes_ok os -> of_bits (concat (octet_bits <$> os)) 0 = from_be_bytes os.
Proof.
  induction os as [|o os IH] using rev_ind; intros H; [done|]. apply Forall_app in H as [H Ho]. apply Forall_cons in Ho as [Ho _].
  rewrite fmap_app, concat_app, of_bits_app, IH by done. cbn [fmap list_fmap concat]. rewrite app_nil_r, of_octet_bits by done. change (2 ^ Z.of_nat (length (octet_bits o))) with 256. by rewrite from_be_snoc.
Qed.

Lemma decode_encode_addr ip : addr_fits ip -> encode_addr ip ≫= decode_addr = Some ip.
Proof.
  intros H. rewrite encode_addr_bits. cbn [mbind option_bind]. pose proof (length_octet_bits (octets ip)) as Hl.
  destruct ip as [a|a]; cbn [octets addr_fits decode_addr] in *; rewrite length_to_be_bytes in Hl; rewrite Hl; cbn [Nat.eqb Nat.mul Nat.add];
    rewrite of_bits_octets by apply to_be_bytes_ok; rewrite from_to_be_bytes; try done; destruct H as [H1 H2]; split; lia.
Qed.

(** ** What a job crosses *)
Section crossings.
Context {linked : Linked}.

(** No measurement or demonstration switch is set. *)
Definition deployed : Prop :=
  span_number = None /\ has_cake && cake_serve_enabled = false /\ has_health && health_native_enabled = false /\ panic_test_mode = 0.

Definition peer_of (m : Meter) : bytes := default [] (encode_addr (m_client m)).

Lemma deployed_run n im req s r m : deployed ->
  run_job_caught n im (mkJob req s r m None) = (x ← cross (limits_at n) (req_bytes n req) s m; Some (x, false), im).
Proof.
  intros (Hs & Hc & Hh & Hp). unfold run_job_caught, probe_hit, run_job, serve_cake_into, wants_cake_serve, serve_native_into, wants_native_health, serve_lean, is_zc_split_span, span_serve_seam.
  rewrite Hp, Hc, Hh, Hs. done.
Qed.

Lemma starts_with_sized config req : Z.of_nat (length config) < 2 ^ 32 -> starts_with [0; 0; 0; 0] (sized config ++ req) = bool_decide (config = []).
Proof.
  intros H. rewrite sized_short by done. destruct config as [|b config]; [done|]. rewrite bool_decide_eq_false_2 by done.
  set (h := to_be_bytes 4 (Z.of_nat (length (b :: config)))). destruct (starts_with _ _) eqn:E; [|done]. exfalso.
  apply starts_with_app in E as [t E]. assert (from_be_bytes h = Z.of_nat (length (b :: config))) as Hn.
  { apply from_to_be_bytes. change (256 ^ Z.of_nat 4) with (2 ^ 32). lia. }
  assert (take 4 ((h ++ b :: config) ++ req) = [0; 0; 0; 0]) as Ht by (rewrite E; done).
  rewrite <- app_assoc, take_app_length' in Ht by (symmetry; apply length_to_be_bytes). rewrite Ht in Hn. cbn [length] in Hn. change (from_be_bytes [0; 0; 0; 0]) with 0 in Hn. lia.
Qed.

(** C34. The owner takes apart what the caller put together. In a deployment with
    no measurement or demonstration switch set (no span, no compiled responder, no
    panic probe), a metered request crosses with the client's address, which the
    filter reads back, and with each reading in the argument of its name: the
    connection's sequence, active count, head span and arrivals, and the
    configuration's connection cap, arrival limit, burst capacity and refill at
    that moment. A configuration of fewer than 4 GiB and its request are recovered
    from their frame, a request without configuration crosses as the direct
    metered one does, a gateway request with its selector, a borrowed request as
    the bytes of the lent buffer. *)
Theorem metered_jobs_cross (n : nat) (im : Images) (config req : bytes) (sel bid : Z) (len : nat) (m : Meter) (r : ServeReply) :
  deployed -> Z.of_nat (length config) < 2 ^ 32 -> fits 64 sel -> addr_fits (m_client m) ->
  let g := {| g_seq := m_seq m; g_active := m_active m; g_span := m_hdr_span m; g_cap := max_connections (limits_at n);
              g_rate_count := m_rate_prior m; g_rate_limit := l_rate_limit (limits_at n);
              g_burst_cap := l_burst_cap (limits_at n); g_burst_refill := l_burst_refill (limits_at n) |} in
  let answers j c := run_job_caught n im j = (x ← link c; Some (x, false), im) in
  decode_addr (peer_of m) = Some (m_client m) /\
  answers (job_metered req m r) (CallPipeline (peer_of m) g req) /\
  answers (job_metered_cfg [] req m r) (CallPipeline (peer_of m) g req) /\
  (config <> [] -> exists f, take_sized f = Some (config, req) /\ answers (job_metered_cfg config req m r) (CallMeteredCfg (peer_of m) g f)) /\
  answers (job_metered_braided req m r) (CallBraided (peer_of m) (m_seq m) req) /\
  answers (job_gateway sel req m r) (CallGateway (peer_of m) (m_seq m) sel req) /\
  answers (job_borrowed bid len false m r) (CallPipeline (peer_of m) g (take len (lent_at n bid))).
Proof.
  intros Hd Hc Hsel Ha g answers. pose proof (decode_encode_addr _ Ha) as Hp. unfold peer_of. destruct (encode_addr (m_client m)) as [peer|] eqn:Ep; [|done].
  cbn [mbind option_bind default] in *.
  assert (forall q s c, cross (limits_at n) (req_bytes n q) s (Some m) = link c -> answers (job q s r (Some m)) c) as Hx.
  { intros q s c H. unfold answers, job. rewrite deployed_run by done. by rewrite H. }
  split_and!; [done|apply Hx|apply Hx| |apply Hx|apply Hx|apply Hx]; cbn [cross req_bytes];
    unfold serve_metered_dense_conformant_into, serve_metered_cfg_conformant_into, serve_metered_braided_conformant_into, serve_gateway_into.
  - by rewrite Ep.
  - rewrite starts_with_sized by (cbn; lia). rewrite bool_decide_eq_true_2 by done. unfold serve_metered_dense_conformant_into. rewrite Ep. done.
  - intros Hne. exists (sized config ++ req). split; [by apply take_sized_ok|]. apply Hx. cbn [cross req_bytes]. unfold serve_metered_cfg_conformant_into.
    rewrite starts_with_sized by done. rewrite bool_decide_eq_false_2 by done. by rewrite Ep.
  - by rewrite Ep.
  - rewrite length_app, length_to_be_bytes. cbn [Nat.leb Nat.add]. rewrite take_app_length', drop_app_length' by (symmetry; apply length_to_be_bytes).
    rewrite from_to_be_bytes by (change (256 ^ Z.of_nat 8) with (2 ^ 64); exact Hsel). by rewrite Ep.
  - by rewrite Ep.
Qed.

(** With a span selected, the exports that read a plain request are given the
    configuration frame in front of it. *)
Lemma span_reads_the_frame n im config req m r f : has_cake && cake_serve_enabled = false -> has_health && health_native_enabled = false ->
  panic_test_mode = 0 -> is_zc_split_span = false -> span_serve_seam = Some f ->
  run_job_caught n im (job_metered_cfg config req m r) = (x ← link (CallOne f (sized config ++ req)); Some (x, false), im).
Proof.
  intros Hc Hh Hp Hz Hf. unfold run_job_caught, probe_hit, run_job, serve_cake_into, wants_cake_serve, serve_native_into, wants_native_health, serve_lean, job_metered_cfg, job.
  cbn [j_tls j_req j_seam j_meter req_bytes]. rewrite Hp, Hc, Hh, Hz, Hf. done.
Qed.
End crossings.

(** ** A core that echoes what crossed *)
Module DemoLink.
Definition echo (c : Crossing) : option bytes :=
  match c with
  | CallPipeline _ g i => Some ([g_seq g; g_active g; g_span g; g_cap g; g_rate_count g; g_rate_limit g; g_burst_cap g; g_burst_refill g] ++ i)
  | CallMeteredCfg _ _ i | CallBraided _ _ i | CallGateway _ _ _ i | CallOne _ i => Some i
  | _ => Some []
  end.

Definition demo_meter : Meter := mkMeter (V4 0x7f000001) 3 1 0 2.

#[export] Instance echoing : Linked := mkLinked echo (fun _ => None) false false 0 (fun _ => mkLimits 4 10 8 1) (fun _ _ => bs "GET / HTTP/1.1").
End DemoLink.

Lemma metered_jobs_cross_witness :
  run_job_caught (linked := DemoLink.echoing) 0 (mkImages (-2) 0) (job_metered (bs "GET /a") DemoLink.demo_meter (Sync 0)) = (Some ([3; 1; 0; 4; 2; 10; 8; 1] ++ bs "GET /a", false), mkImages (-2) 0) /\
  run_job_caught (linked := DemoLink.echoing) 0 (mkImages (-2) 0) (job_gateway 1 (bs "GET /a") DemoLink.demo_meter (Sync 0)) = (Some (bs "GET /a", false), mkImages (-2) 0).
Proof.
  pose proof (metered_jobs_cross (linked := DemoLink.echoing) 0 (mkImages (-2) 0) (bs "x") (bs "GET /a") 1 0 0 DemoLink.demo_meter (Sync 0)) as H.
  destruct H as (_ & H1 & _ & _ & _ & H2 & _); [|done|done|done|split; [exact H1|exact H2]]. unfold deployed. split_and!; reflexivity.
Defined.
