(* ===== verification/ServeRun.v ===== *)
(** * Serve owners and their callers ([serve.rs])

    One or more owner threads, each with its own queue, cross the seam for all
    connections; callers block on a channel of their own, shards and reactors
    are sent their answers through a mailbox and woken. A panic while a request
    is computed is answered with a [500]; one outside of that ends the process.
    [Sys] keeps, as ghost state, what each owner was asked and answered, what
    went into each mailbox and what each call returned. A mailbox lives as long
    as the process, as the shards do; a poisoned pool lock is not modelled. *)
From S2P Require Import Prelude Bytes Lines Io Standing Static Blocking Interp UringState Serve.

Local Open Scope Z_scope.

(** A mailbox: of a shard ([true]) or of a reactor, whose messages carry no
    split flag. *)
Abbreviation Box := (bool * nat)%type.

Inductive Phase :=
  | Idle
  | Taken (j : ServeJob)
  | Ready (j : ServeJob) (resp : bytes) (split : bool)
  | Ringing (k : Box).                        (* sent; the bell is still to ring *)

Record Owner := mkOwner {
  queue : list ServeJob;
  phase : Phase;
  image : Z;
  asked : list ServeJob;
  answered : list (ServeJob * (bytes * bool))
}.

Record Sys := mkSys {
  owners : list Owner;
  next_image : Z;
  bulk : bytes;
  chans : gmap nat (list bytes);
  boxes : gmap Box (list ShardDone);
  bells : gset Box;
  awake : gset Box;
  heartbeat : Z;
  serve_panics : Z;
  exited : bool;
  ticks : nat;
  pend : gmap nat (nat * ServeJob);           (* callers that wait, for whom and with what *)
  returned : list (nat * ServeJob * bytes);
  hist : gmap Box (list (nat * ShardDone))
}.

Definition chan (s : Sys) (c : nat) : list bytes := default [] (chans s !! c).
Definition box (s : Sys) (k : Box) : list ShardDone := default [] (boxes s !! k).
Definition sent_to (s : Sys) (k : Box) : list (nat * ShardDone) := default [] (hist s !! k).

Definition set_owner (o : nat) (w : Owner) (s : Sys) : Sys :=
  mkSys (<[o := w]> (owners s)) (next_image s) (bulk s) (chans s) (boxes s) (bells s) (awake s) (heartbeat s) (serve_panics s) (exited s)
    (ticks s) (pend s) (returned s) (hist s).
Definition set_clients (ch : gmap nat (list bytes)) (p : gmap nat (nat * ServeJob)) (r : list (nat * ServeJob * bytes)) (s : Sys) : Sys :=
  mkSys (owners s) (next_image s) (bulk s) ch (boxes s) (bells s) (awake s) (heartbeat s) (serve_panics s) (exited s) (ticks s) p r (hist s).
Definition set_boxes (b : gmap Box (list ShardDone)) (be aw : gset Box) (h : gmap Box (list (nat * ShardDone))) (s : Sys) : Sys :=
  mkSys (owners s) (next_image s) (bulk s) (chans s) b be aw (heartbeat s) (serve_panics s) (exited s) (ticks s) (pend s) (returned s) h.
Definition beat (s : Sys) : Sys :=
  mkSys (owners s) (next_image s) (bulk s) (chans s) (boxes s) (bells s) (awake s) (wrapping_add 64 (heartbeat s) 1) (serve_panics s) (exited s)
    (ticks s) (pend s) (returned s) (hist s).
Definition exit_70 (s : Sys) : Sys :=
  mkSys (owners s) (next_image s) (bulk s) (chans s) (boxes s) (bells s) (awake s) (heartbeat s) (serve_panics s) true (ticks s) (pend s)
    (returned s) (hist s).

(** The computed step of a job: images, the panic counter and the clock move. *)
Definition computed_at (next : Z) (panicked : bool) (s : Sys) : Sys :=
  mkSys (owners s) next (bulk s) (chans s) (boxes s) (bells s) (awake s) (heartbeat s)
    (if panicked then wrapping_add 64 (serve_panics s) 1 else serve_panics s) (exited s) (S (ticks s)) (pend s) (returned s) (hist s).

Section system.
Context {linked : Linked}.

(** [deliver_reply]: a split response is put together for all but the shards. *)
Definition whole (body : bytes) (r : bytes * bool) : bytes := if r.2 then r.1 ++ body else r.1.

Definition box_of (r : ServeReply) : option Box :=
  match r with Sync _ => None | ToShard k _ => Some (true, k) | ToReactor k _ => Some (false, k) end.

Definition message (body : bytes) (r : ServeReply) (v : bytes * bool) : option (Box * ShardDone) :=
  match r with
  | Sync _ => None
  | ToShard k conn => Some ((true, k), mkDone conn v.1 v.2)
  | ToReactor k conn => Some ((false, k), mkDone conn (whole body v) false)
  end.

Definition deliver_reply (o : nat) (r : ServeReply) (v : bytes * bool) (s : Sys) : Sys :=
  match r with
  | Sync c => set_clients (<[c := chan s c ++ [whole (bulk s) v]]> (chans s)) (pend s) (returned s) s
  | _ =>
      match message (bulk s) r v with
      | Some (k, d) => set_boxes (<[k := box s k ++ [d]]> (boxes s)) (bells s) (awake s) (<[k := sent_to s k ++ [(o, d)]]> (hist s)) s
      | None => s
      end
  end.

Definition caught (n : nat) (im : Images) (j : ServeJob) : bytes * bool := default (PANIC_500, false) (run_job_caught n im j).1.

(** [serve_owner_loop], one step of the thread. *)
Definition own_step (o : nat) (s : Sys) : option Sys :=
  w ← owners s !! o;
  match phase w with
  | Idle =>
      match queue w with
      | [] => None
      | j :: q => Some (set_owner o (mkOwner q (Taken j) (image w) (asked w) (answered w)) s)
      end
  | Taken j =>
      if probe_hit 2 (ticks s) j then Some (exit_70 s)
      else
        let im := mkImages (image w) (next_image s) in
        let r := run_job_caught (ticks s) im j in
        let v := caught (ticks s) im j in
        Some (computed_at (im_next r.2) (bool_decide (r.1 = None))
                (set_owner o (mkOwner (queue w) (Ready j v.1 v.2) (im_mine r.2) (asked w) (answered w)) s))
  | Ready j resp split =>
      let next := match box_of (j_reply j) with Some k => Ringing k | None => Idle end in
      let s1 := deliver_reply o (j_reply j) (resp, split)
                  (set_owner o (mkOwner (queue w) next (image w) (asked w) (answered w ++ [(j, (resp, split))])) s) in
      Some (match box_of (j_reply j) with Some _ => s1 | None => beat s1 end)
  | Ringing k =>
      Some (beat (set_boxes (boxes s) ({[k]} ∪ bells s) (awake s) (hist s) (set_owner o (mkOwner (queue w) Idle (image w) (asked w) (answered w)) s)))
  end.

(** [self.tx.send(job)]. *)
Definition enqueue (o : nat) (j : ServeJob) (s : Sys) : option Sys :=
  w ← owners s !! o; Some (set_owner o (mkOwner (queue w ++ [j]) (phase w) (image w) (asked w ++ [j]) (answered w)) s).

Inductive Label :=
  | Own (o : nat)
  | Call (c o : nat) (j : ServeJob)           (* the blocking calls, up to the wait *)
  | Recv (c : nat)
  | Submit (o : nat) (j : ServeJob)           (* a shard or a reactor *)
  | Clear (k : Box)                           (* the bell is read *)
  | Drain (k : Box).                          (* and the mailbox emptied *)

Definition sys_step (l : Label) (s : Sys) : option Sys :=
  if exited s then None
  else match l with
  | Own o => own_step o s
  | Call c o j =>
      if bool_decide (j_reply j = Sync c) && bool_decide (pend s !! c = None)
      then s1 ← enqueue o j s; Some (set_clients (chans s1) (<[c := (o, j)]> (pend s1)) (returned s1) s1) else None
  | Recv c =>
      '(_, j) ← pend s !! c;
      match chan s c with
      | [] => None
      | b :: rest => Some (set_clients (<[c := rest]> (chans s)) (delete c (pend s)) (returned s ++ [(c, j, b)]) s)
      end
  | Submit o j => if bool_decide (is_Some (box_of (j_reply j))) then enqueue o j s else None
  | Clear k => if bool_decide (k ∈ bells s) then Some (set_boxes (boxes s) (bells s ∖ {[k]}) ({[k]} ∪ awake s) (hist s) s) else None
  | Drain k => if bool_decide (k ∈ awake s) then Some (set_boxes (<[k := []]> (boxes s)) (bells s) (awake s ∖ {[k]}) (hist s) s) else None
  end.

(** [spawn_serve_thread] and [serve_owner_set]; without the body the primary
    owner does not start. *)
Definition init_static_bulk_body : option bytes := if is_zc_split_span then link (CallOne drorb_bulk_body []) else Some [].

Definition boot : option Sys :=
  b ← init_static_bulk_body;
  Some (mkSys (replicate (Z.to_nat serve_owner_count) (mkOwner [] Idle (-2) [] [])) 0 b ∅ ∅ ∅ ∅ 0 0 false 0 ∅ [] ∅).

(** ** The invariant *)

(** What a job is answered with: what the core gave at some moment, or the
    canned [500] when the computation panicked. *)
Definition is_answer (j : ServeJob) (v : bytes * bool) : Prop := exists n im, v = caught n im j.

Definition in_hand (p : Phase) : list ServeJob := match p with Taken j | Ready j _ _ => [j] | _ => [] end.
Definition own_jobs (w : Owner) : list ServeJob := in_hand (phase w) ++ queue w.
Definition outstanding (s : Sys) : list ServeJob := concat (own_jobs <$> owners s).

Definition is_client (c : nat) (j : ServeJob) : Prop := j_reply j = Sync c.
#[local] Instance is_client_dec c j : Decision (is_client c j) := decide (j_reply j = Sync c).

Definition client_ok (s : Sys) (c : nat) : Prop :=
  match pend s !! c with
  | None => chan s c = [] /\ filter (is_client c) (outstanding s) = []
  | Some (o, j) =>
      j_reply j = Sync c /\
      ((chan s c = [] /\ filter (is_client c) (outstanding s) = [j] /\ exists w, owners s !! o = Some w /\ j ∈ own_jobs w) \/
       (filter (is_client c) (outstanding s) = [] /\ exists v, is_answer j v /\ chan s c = [whole (bulk s) v]))
  end.

Definition put_in (body : bytes) (k : Box) (a : ServeJob * (bytes * bool)) : option ShardDone :=
  '(k', d) ← message body (j_reply a.1) a.2; if decide (k' = k) then Some d else None.

Definition ringing (w : Owner) : Z := match phase w with Ringing _ => 1 | _ => 0 end.
Definition finished (w : Owner) : Z := Z.of_nat (length (answered w)) - ringing w.
Definition claimed (w : Owner) : Z := if image w =? -2 then 0 else 1.

Record OwnerOk (s : Sys) (o : nat) (w : Owner) : Prop := {
  ow_fifo : asked w = (answered w).*1 ++ own_jobs w;
  ow_answers j v : (j, v) ∈ answered w -> is_answer j v;
  ow_ready j resp split : phase w = Ready j resp split -> is_answer j (resp, split);
  ow_sent k : (filter (fun m : nat * ShardDone => m.1 = o) (sent_to s k)).*2 = omap (put_in (bulk s) k) (answered w);
  ow_image : -2 <= image w < Z.max 0 (next_image s)
}.

Record SysOk (s : Sys) : Prop := {
  sy_owner o w : owners s !! o = Some w -> OwnerOk s o w;
  sy_alone o w o' w' : owners s !! o = Some w -> owners s !! o' = Some w' -> image w' = image w -> 0 <= image w -> o' = o;
  sy_client c : client_ok s c;
  sy_returned c j b : (c, j, b) ∈ returned s -> exists v, is_answer j v /\ b = whole (bulk s) v;
  sy_box k : exists seen, (sent_to s k).*2 = seen ++ box s k;
  sy_bell k : box s k <> [] -> k ∈ bells s \/ k ∈ awake s \/ exists o w, owners s !! o = Some w /\ phase w = Ringing k;
  sy_beat : heartbeat s = wrap 64 (tot finished (owners s));
  sy_images : next_image s = tot claimed (owners s);
  sy_few : Z.of_nat (length (owners s)) <= 64
}.

(** ** Owners move one at a time *)
Lemma out_split o w s : owners s !! o = Some w -> exists l1 l2, outstanding s = l1 ++ own_jobs w ++ l2 /\
  forall w', outstanding (set_owner o w' s) = l1 ++ own_jobs w' ++ l2.
Proof.
  intros H. exists (concat (own_jobs <$> take o (owners s))), (concat (own_jobs <$> drop (S o) (owners s))). split.
  - unfold outstanding. rewrite <- (take_drop_middle _ _ _ H) at 1. by rewrite fmap_app, fmap_cons, concat_app, concat_cons.
  - intros w'. unfold outstanding, set_owner. cbn [owners]. rewrite insert_take_drop by (by eapply lookup_lt_Some). by rewrite fmap_app, fmap_cons, concat_app, concat_cons.
Qed.

Lemma out_same o w w' s : owners s !! o = Some w -> own_jobs w' = own_jobs w -> outstanding (set_owner o w' s) = outstanding s.
Proof. intros H E. destruct (out_split o w s H) as (l1 & l2 & -> & ->). by rewrite E. Qed.

Lemma owner_get o w' s o' : is_Some (owners s !! o) -> owners (set_owner o w' s) !! o' = if decide (o' = o) then Some w' else owners s !! o'.
Proof.
  intros [w H]. cbn [set_owner owners]. case_decide as E; [subst|by rewrite list_lookup_insert_ne by congruence]. apply list_lookup_insert_eq. by eapply lookup_lt_Some.
Qed.

(** What one owner's move leaves of the others. *)
Record Moves (o : nat) (w w' : Owner) (s s' : Sys) : Prop := {
  mv_from : owners s !! o = Some w;
  mv_to : owners s' = <[o := w']> (owners s);
  mv_bulk : bulk s' = bulk s;
  mv_sent o' k : o' <> o -> filter (fun m : nat * ShardDone => m.1 = o') (sent_to s' k) = filter (fun m : nat * ShardDone => m.1 = o') (sent_to s k);
  mv_next : next_image s <= next_image s';
  mv_image : image w' = image w \/ image w' < 0 \/ next_image s <= image w'
}.

Lemma moves_get o w w' s s' o' : Moves o w w' s s' -> owners s' !! o' = if decide (o' = o) then Some w' else owners s !! o'.
Proof. intros [H -> _ _ _ _]. apply (owner_get o w' s). eauto. Qed.

Lemma moves_others o w w' s s' : Moves o w w' s s' -> SysOk s -> OwnerOk s' o w' -> forall o' w'', owners s' !! o' = Some w'' -> OwnerOk s' o' w''.
Proof.
  intros M H Hw o' w''. rewrite (moves_get _ _ _ _ _ _ M). case_decide as E; [subst o'; by intros [= <-]|]. intros Hg.
  destruct (sy_owner _ H _ _ Hg) as [A1 A2 A3 A4 A5]. split; try done.
  - intros k. rewrite (mv_sent _ _ _ _ _ M), (mv_bulk _ _ _ _ _ M) by done. apply A4.
  - pose proof (mv_next _ _ _ _ _ M). lia.
Qed.

Lemma moves_alone o w w' s s' : Moves o w w' s s' -> SysOk s ->
  forall i x j y, owners s' !! i = Some x -> owners s' !! j = Some y -> image y = image x -> 0 <= image x -> j = i.
Proof.
  intros M H i x j y. rewrite !(moves_get _ _ _ _ _ _ M). pose proof (mv_from _ _ _ _ _ M) as Hw.
  assert (forall j y, owners s !! j = Some y -> image y = image w' -> 0 <= image w' -> j = o) as Hn.
  { intros j' y' Hy E Hp. destruct (mv_image _ _ _ _ _ M) as [Hi|[Hi|Hi]]; [|lia|].
    - apply (sy_alone _ H o w j' y' Hw Hy); congruence.
    - pose proof (ow_image _ _ _ (sy_owner _ H _ _ Hy)). lia. }
  case_decide; case_decide; intros Hx Hy; simplify_eq; try done.
  - intros E Hp. symmetry in E. rewrite (Hn j y Hy) by (done || lia). done.
  - intros E Hp. symmetry. apply (Hn i x Hx); [done|lia].
  - by apply (sy_alone _ H i x j y).
Qed.

Lemma moves_tot o w w' s s' (f : Owner -> Z) : Moves o w w' s s' -> tot f (owners s') = tot f (owners s) - f w + f w'.
Proof. intros M. rewrite (mv_to _ _ _ _ _ M). apply tot_insert. by destruct M. Qed.

Lemma moves_length o w w' s s' : Moves o w w' s s' -> length (owners s') = length (owners s).
Proof. intros M. rewrite (mv_to _ _ _ _ _ M). apply length_insert. Qed.

(** The callers do not see a move that keeps the owner's jobs. *)
Lemma moves_clients o w w' s s' : Moves o w w' s s' -> SysOk s -> own_jobs w' = own_jobs w -> chans s' = chans s -> pend s' = pend s -> forall c, client_ok s' c.
Proof.
  intros M H E Ec Ep c. pose proof (sy_client _ H c) as Hc. unfold client_ok in *.
  assert (outstanding s' = outstanding s) as Ho.
  { rewrite <- (out_same o w w' s (mv_from _ _ _ _ _ M) E). unfold outstanding. by rewrite (mv_to _ _ _ _ _ M). }
  rewrite Ep. unfold chan in *. rewrite Ec, Ho, (mv_bulk _ _ _ _ _ M). destruct (pend s !! c) as [[i j]|]; [|done].
  destruct Hc as [Hj [(A & B & x & Hx & Hin)|Hb]]; (split; [done|]); [left|by right]. split_and!; try done.
  destruct (decide (i = o)) as [->|Hne].
  - exists w'. rewrite (moves_get _ _ _ _ _ _ M), decide_True by done. split; [done|]. rewrite E. rewrite (mv_from _ _ _ _ _ M) in Hx. by simplify_eq.
  - exists x. rewrite (moves_get _ _ _ _ _ _ M), decide_False by done. done.
Qed.

(** A mailbox with messages keeps its bell, its reader or its ringing owner. *)
Lemma moves_bell o w w' s s' : Moves o w w' s s' -> SysOk s -> boxes s' = boxes s -> bells s' = bells s -> awake s' = awake s ->
  (forall k, phase w = Ringing k -> phase w' = Ringing k) ->
  forall k, box s' k <> [] -> k ∈ bells s' \/ k ∈ awake s' \/ exists o w, owners s' !! o = Some w /\ phase w = Ringing k.
Proof.
  intros M H Eb -> -> Hr k. unfold box. rewrite Eb. intros Hk. destruct (sy_bell _ H k Hk) as [?|[?|(i & x & Hx & Hp)]]; [by left|right; by left|right; right].
  destruct (decide (i = o)) as [->|Hne].
  - exists o, w'. rewrite (moves_get _ _ _ _ _ _ M), decide_True by done. split; [done|]. rewrite (mv_from _ _ _ _ _ M) in Hx. simplify_eq. by apply Hr.
  - exists i, x. rewrite (moves_get _ _ _ _ _ _ M), decide_False by done. done.
Qed.

Lemma moves_beat o w w' s s' : Moves o w w' s s' -> SysOk s -> heartbeat s' = heartbeat s -> finished w' = finished w ->
  heartbeat s' = wrap 64 (tot finished (owners s')).
Proof. intros M H -> E. rewrite (moves_tot _ _ _ _ _ _ M), E, (sy_beat _ H). f_equal. lia. Qed.

Lemma moves_beats o w w' s s' : Moves o w w' s s' -> SysOk s -> heartbeat s' = wrapping_add 64 (heartbeat s) 1 -> finished w' = finished w + 1 ->
  heartbeat s' = wrap 64 (tot finished (owners s')).
Proof.
  intros M H -> E. rewrite (moves_tot _ _ _ _ _ _ M), E, (sy_beat _ H). unfold wrapping_add. rewrite wrap_add_l by lia. f_equal. lia.
Qed.

Lemma take_ok o w j q s : SysOk s -> owners s !! o = Some w -> phase w = Idle -> queue w = j :: q ->
  SysOk (set_owner o (mkOwner q (Taken j) (image w) (asked w) (answered w)) s).
Proof.
  intros H Hw Hp Hq. set (w' := mkOwner _ _ _ _ _). set (s' := set_owner o w' s).
  assert (Moves o w w' s s') as M by (split; try done; by left).
  assert (own_jobs w' = own_jobs w) as Ej by (unfold own_jobs; by rewrite Hp, Hq).
  destruct (sy_owner _ H _ _ Hw) as [A1 A2 A3 A4 A5].
  split; [apply (moves_others _ _ _ _ _ M H)|apply (moves_alone _ _ _ _ _ M H)|apply (moves_clients _ _ _ _ _ M H Ej); done|apply H|apply H| | | |].
  - split; try done. by rewrite Ej.
  - apply (moves_bell _ _ _ _ _ M H); try done. congruence.
  - apply (moves_beat _ _ _ _ _ M H); [done|]. unfold finished, ringing. by rewrite Hp.
  - rewrite (moves_tot _ _ _ _ _ _ M). change (next_image s') with (next_image s). rewrite (sy_images _ H). change (claimed w') with (claimed w). lia.
  - rewrite (moves_length _ _ _ _ _ M). apply H.
Qed.

(** An image is claimed once, while there are any. *)
Lemma my_image_fresh im : -2 <= im_mine im -> 0 <= im_next im < 2 ^ 64 - 1 ->
  let im' := (my_image_idx im).2 in
  (im' = im \/ im_mine im = -2 /\ im_next im' = im_next im + 1 /\ (im_mine im' = -1 \/ im_mine im' = im_next im)).
Proof.
  intros H1 H2. unfold my_image_idx. destruct (Z.eqb_spec (im_mine im) (-2)) as [E|E]; cbn [negb snd]; [right|by left]. split; [done|].
  cbn [im_next im_mine]. unfold wrapping_add. rewrite wrap_small by (unfold fits, USIZE; lia). split; [done|]. case_match; auto.
Qed.

Definition claims (im im' : Images) : Prop :=
  im' = im \/ im_mine im = -2 /\ im_next im' = im_next im + 1 /\ (im_mine im' = -1 \/ im_mine im' = im_next im).

Lemma serve_cake_images im req : -2 <= im_mine im -> 0 <= im_next im < 2 ^ 64 - 1 -> claims im (serve_cake_into im req).2.
Proof.
  intros H1 H2. pose proof (my_image_fresh im H1 H2) as Hf. unfold serve_cake_into. destruct (wants_cake_serve req); cbn [negb]; [|by left].
  destruct (my_image_idx im) as [idx im1]. by destruct (idx <? 0).
Qed.

Lemma run_job_images n im j : -2 <= im_mine im -> 0 <= im_next im < 2 ^ 64 - 1 -> claims im (run_job_caught n im j).2.
Proof.
  intros H1 H2. unfold run_job_caught. destruct (probe_hit 1 n j); [by left|]. unfold run_job. destruct (j_tls j) as [[fd cert]|]; [by left|].
  pose proof (serve_cake_images im (req_bytes n (j_req j)) H1 H2) as Hc. by destruct (serve_cake_into im _) as [[[out|]|] im1].
Qed.

Lemma compute_ok o w j s : SysOk s -> owners s !! o = Some w -> phase w = Taken j ->
  let im := mkImages (image w) (next_image s) in
  let r := run_job_caught (ticks s) im j in
  let v := caught (ticks s) im j in
  SysOk (computed_at (im_next r.2) (bool_decide (r.1 = None)) (set_owner o (mkOwner (queue w) (Ready j v.1 v.2) (im_mine r.2) (asked w) (answered w)) s)).
Proof.
  intros H Hw Hp im r v. destruct (sy_owner _ H _ _ Hw) as [A1 A2 A3 A4 A5].
  assert (0 <= next_image s <= 64) as Hn.
  { rewrite (sy_images _ H). pose proof (sy_few _ H). split; [apply tot_nonneg; intros x; unfold claimed; by case_match|].
    etransitivity; [|exact H0]. clear. induction (owners s) as [|x l IH]; cbn [tot length]; [done|]. unfold claimed at 1. case_match; lia. }
  pose proof (run_job_images (ticks s) im j ltac:(cbn; lia) ltac:(cbn; lia)) as Hi. change (run_job_caught (ticks s) im j) with r in Hi. unfold claims in Hi. cbn [im im_mine im_next] in Hi.
  set (w' := mkOwner _ _ _ _ _). set (s' := computed_at _ _ _).
  assert (Moves o w w' s s') as M.
  { split; try done; cbn; destruct Hi as [->|(E1 & E2 & E3)]; cbn; lia. }
  assert (own_jobs w' = own_jobs w) as Ej by (unfold own_jobs; by rewrite Hp).
  split; [apply (moves_others _ _ _ _ _ M H)|apply (moves_alone _ _ _ _ _ M H)|apply (moves_clients _ _ _ _ _ M H Ej); done|apply H|apply H| | | |].
  - split; try done; [by rewrite Ej| |].
    + cbn [w' phase]. intros ? ? ? [= <- <- <-]. exists (ticks s), im. exact (eq_sym (surjective_pairing v)).
    + cbn. destruct Hi as [->|(E1 & E2 & [E3|E3])]; cbn; [cbn; lia|lia|lia].
  - apply (moves_bell _ _ _ _ _ M H); try done. congruence.
  - apply (moves_beat _ _ _ _ _ M H); [done|]. unfold finished, ringing. by rewrite Hp.
  - rewrite (moves_tot _ _ _ _ _ _ M). rewrite <- (sy_images _ H). unfold claimed. cbn. destruct Hi as [->|(E1 & E2 & [E3|E3])]; [cbn; lia| |].
    + rewrite E1, E2, E3. cbn. lia.
    + rewrite E1, E2, E3. destruct (Z.eqb_spec (next_image s) (-2)); cbn; lia.
  - rewrite (moves_length _ _ _ _ _ M). apply H.
Qed.

Lemma moves_split o w w' s s' : Moves o w w' s s' -> exists l1 l2, outstanding s = l1 ++ own_jobs w ++ l2 /\ outstanding s' = l1 ++ own_jobs w' ++ l2.
Proof.
  intros M. destruct (out_split o w s (mv_from _ _ _ _ _ M)) as (l1 & l2 & E1 & E2). exists l1, l2. split; [done|].
  rewrite <- E2. unfold outstanding. by rewrite (mv_to _ _ _ _ _ M).
Qed.

(** Where a waiting caller's job is, after an owner moved. *)
Lemma moves_holds o w w' s s' i j : Moves o w w' s s' -> (j ∈ own_jobs w -> j ∈ own_jobs w') ->
  (exists x, owners s !! i = Some x /\ j ∈ own_jobs x) -> exists x, owners s' !! i = Some x /\ j ∈ own_jobs x.
Proof.
  intros M Hj (x & Hx & Hin). destruct (decide (i = o)) as [->|Hne].
  - exists w'. rewrite (moves_get _ _ _ _ _ _ M), decide_True by done. split; [done|]. rewrite (mv_from _ _ _ _ _ M) in Hx. simplify_eq. auto.
  - exists x. rewrite (moves_get _ _ _ _ _ _ M), decide_False by done. done.
Qed.

Lemma filter_client_none c j : j_reply j <> Sync c -> filter (is_client c) [j] = [].
Proof. intros H. by rewrite filter_cons_False. Qed.

Definition reply_chans (j : ServeJob) (v : bytes * bool) (s : Sys) : gmap nat (list bytes) :=
  match j_reply j with Sync c => <[c := chan s c ++ [whole (bulk s) v]]> (chans s) | _ => chans s end.

Lemma chan_other s s' j v c : chans s' = reply_chans j v s -> j_reply j <> Sync c -> chan s' c = chan s c.
Proof.
  intros E Hj. unfold chan at 1. rewrite E. unfold reply_chans. destruct (j_reply j) as [c0| |] eqn:Er; [|done|done]. rewrite lookup_insert_ne by congruence. done.
Qed.

Lemma moves_delivered o w w' s s' j v : Moves o w w' s s' -> SysOk s -> own_jobs w = j :: own_jobs w' -> pend s' = pend s ->
  chans s' = reply_chans j v s -> is_answer j v -> forall c, client_ok s' c.
Proof.
  intros M H Ej Ep Ec Hv c. pose proof (sy_client _ H c) as Hc. destruct (moves_split _ _ _ _ _ M) as (l1 & l2 & E1 & E2).
  unfold client_ok in *. rewrite Ep, (mv_bulk _ _ _ _ _ M), E2. rewrite E1, Ej in Hc. rewrite !filter_app in *. rewrite filter_cons in Hc. cbn [app] in Hc.
  destruct (decide (is_client c j)) as [Hj|Hj].
  - assert (chan s' c = chan s c ++ [whole (bulk s) v]) as -> by (unfold chan at 1; rewrite Ec; unfold reply_chans; rewrite Hj, lookup_insert_eq; done).
    destruct (pend s !! c) as [[i j0]|]; [|destruct Hc as [_ Hf]; by destruct (filter _ l1)].
    destruct Hc as [Hr [(A & B & _)|[B _]]]; (split; [done|]); [|by destruct (filter _ l1)]. right.
    assert (j ∈ [j0]) as ->%list_elem_of_singleton by (rewrite <- B, <- app_comm_cons; apply elem_of_app; right; left).
    split; [|exists v; by rewrite A]. apply (f_equal length) in B. rewrite ?length_app in B. cbn [length] in B. rewrite ?length_app in B.
    apply nil_length_inv. rewrite !length_app. lia.
  - rewrite (chan_other s s' j v c Ec Hj).
    destruct (pend s !! c) as [[i j0]|]; [|done]. destruct Hc as [Hr [(A & B & Hh)|HB]]; (split; [done|]); [left|by right]. split_and!; try done.
    apply (moves_holds _ _ _ _ _ _ _ M); [|done]. rewrite Ej. intros [->|?]%elem_of_cons; [by destruct Hj|done].
Qed.

Lemma answered_grows (l : list (ServeJob * (bytes * bool))) j v : ((l ++ [(j, v)]).*1 : list ServeJob) = l.*1 ++ [j].
Proof. by rewrite fmap_app. Qed.

(** The move of an owner that hands over an answer. *)
Lemma deliver_ok o w j resp split s s' nxt : SysOk s -> owners s !! o = Some w -> phase w = Ready j resp split ->
  (nxt = Idle \/ exists k, nxt = Ringing k) ->
  let v := (resp, split) in
  let w' := mkOwner (queue w) nxt (image w) (asked w) (answered w ++ [(j, v)]) in
  Moves o w w' s s' -> pend s' = pend s -> returned s' = returned s -> chans s' = reply_chans j v s -> next_image s' = next_image s ->
  (forall k, (filter (fun m : nat * ShardDone => m.1 = o) (sent_to s' k)).*2 = omap (put_in (bulk s) k) (answered w ++ [(j, v)])) ->
  (forall k, exists seen, (sent_to s' k).*2 = seen ++ box s' k) ->
  (forall k, box s' k <> [] -> k ∈ bells s' \/ k ∈ awake s' \/ exists o w, owners s' !! o = Some w /\ phase w = Ringing k) ->
  heartbeat s' = wrap 64 (tot finished (owners s')) -> SysOk s'.
Proof.
  intros H Hw Hp Hn v w' M Ep Er Ec Ei Hs Hb Hbell Hbeat. destruct (sy_owner _ H _ _ Hw) as [A1 A2 A3 A4 A5].
  assert (own_jobs w = j :: own_jobs w') as Ej by (unfold own_jobs; rewrite Hp; cbn [w' phase queue]; destruct Hn as [->|[k ->]]; done).
  pose proof (A3 _ _ _ Hp) as Hv.
  split; [apply (moves_others _ _ _ _ _ M H)|apply (moves_alone _ _ _ _ _ M H)|apply (moves_delivered _ _ _ _ _ _ _ M H Ej Ep Ec Hv)| |done|done|done| |].
  - split; try done.
    + cbn [w' asked answered]. rewrite answered_grows, <- app_assoc. rewrite A1, Ej. done.
    + cbn [w' answered]. intros j' v' [?|[= -> ->]%list_elem_of_singleton]%elem_of_app; auto.
    + cbn [w' phase]. destruct Hn as [->|[k ->]]; done.
    + intros k. rewrite (mv_bulk _ _ _ _ _ M). apply Hs.
    + rewrite Ei. exact A5.
  - intros c j' b. rewrite Er, (mv_bulk _ _ _ _ _ M). apply H.
  - rewrite (moves_tot _ _ _ _ _ _ M), Ei, (sy_images _ H). change (claimed w') with (claimed w). lia.
  - rewrite (moves_length _ _ _ _ _ M). apply H.
Qed.

Lemma deliver_sync_ok o w j resp split c s : SysOk s -> owners s !! o = Some w -> phase w = Ready j resp split -> j_reply j = Sync c ->
  SysOk (beat (deliver_reply o (Sync c) (resp, split) (set_owner o (mkOwner (queue w) Idle (image w) (asked w) (answered w ++ [(j, (resp, split))])) s))).
Proof.
  intros H Hw Hp Hr. set (w' := mkOwner _ _ _ _ _). set (s' := beat _).
  assert (Moves o w w' s s') as M by (split; try done; by left).
  pose proof (sy_owner _ H _ _ Hw) as Ho.
  apply (deliver_ok o w j resp split s s' Idle H Hw Hp (or_introl eq_refl) M); try done.
  - unfold reply_chans. by rewrite Hr.
  - intros k. rewrite omap_app. unfold put_in at 2. cbn. rewrite Hr. cbn. rewrite app_nil_r. apply Ho.
  - apply H.
  - apply (moves_bell _ _ _ _ _ M H); try done. congruence.
  - apply (moves_beats _ _ _ _ _ M H); [done|]. unfold finished, ringing. rewrite Hp. cbn [w' phase answered]. rewrite length_app. cbn [length]. lia.
Qed.

Lemma sent_insert s k l k' : default [] (<[k := l]> (hist s) !! k') = if decide (k' = k) then l else sent_to s k'.
Proof. case_decide as E; [subst; by rewrite lookup_insert_eq|by rewrite lookup_insert_ne by congruence]. Qed.

Lemma box_insert (m : gmap Box (list ShardDone)) k l k' : default [] (<[k := l]> m !! k') = if decide (k' = k) then l else default [] (m !! k').
Proof. case_decide as E; [subst; by rewrite lookup_insert_eq|by rewrite lookup_insert_ne by congruence]. Qed.

Lemma deliver_box_ok o w j resp split k d s : SysOk s -> owners s !! o = Some w -> phase w = Ready j resp split ->
  message (bulk s) (j_reply j) (resp, split) = Some (k, d) ->
  let s1 := set_owner o (mkOwner (queue w) (Ringing k) (image w) (asked w) (answered w ++ [(j, (resp, split))])) s in
  SysOk (set_boxes (<[k := box s k ++ [d]]> (boxes s1)) (bells s1) (awake s1) (<[k := sent_to s k ++ [(o, d)]]> (hist s1)) s1).
Proof.
  intros H Hw Hp Hm s1. set (w' := mkOwner _ _ _ _ _) in s1. set (s' := set_boxes _ _ _ _ _).
  assert (forall k', sent_to s' k' = if decide (k' = k) then sent_to s k ++ [(o, d)] else sent_to s k') as Es by (intros k'; apply (sent_insert s)).
  assert (forall k', box s' k' = if decide (k' = k) then box s k ++ [d] else box s k') as Eb by (intros k'; apply box_insert).
  assert (Moves o w w' s s') as M.
  { split; try done; [|by left]. intros o' k' Ho. rewrite Es. case_decide as E; [subst k'|done].
    rewrite filter_app, filter_cons_False by (cbn; congruence). by rewrite app_nil_r. }
  pose proof (sy_owner _ H _ _ Hw) as Ho.
  apply (deliver_ok o w j resp split s s' (Ringing k) H Hw Hp (or_intror (ex_intro _ k eq_refl)) M); try done.
  - unfold reply_chans. by destruct (j_reply j).
  - intros k'. rewrite omap_app. cbn [omap list_omap]. unfold put_in at 2. cbn [fst snd]. rewrite Hm. cbn [mbind option_bind]. rewrite Es.
    destruct (decide (k' = k)) as [->|Hne]; [rewrite decide_True by done|rewrite decide_False by congruence].
    + rewrite filter_app, filter_cons_True by done. rewrite fmap_app, (ow_sent _ _ _ Ho). done.
    + rewrite app_nil_r. apply Ho.
  - intros k'. rewrite Es, Eb. destruct (sy_box _ H k') as [seen E]. case_decide as E'; [subst k'|by exists seen]. exists seen. by rewrite fmap_app, E, <- app_assoc.
  - intros k'. rewrite Eb. case_decide as E; [subst k'; intros _|].
    + right; right. exists o, w'. split; [|done]. rewrite (moves_get _ _ _ _ _ _ M). by rewrite decide_True.
    + intros Hk. change (bells s') with (bells s). change (awake s') with (awake s). destruct (sy_bell _ H k' Hk) as [?|[?|(i & x & Hx & Hr)]]; [by left|right; by left|right; right].
      exists i, x. split; [|done]. rewrite (moves_get _ _ _ _ _ _ M). rewrite decide_False; [done|]. intros ->. simplify_eq. congruence.
  - apply (moves_beat _ _ _ _ _ M H); [done|]. unfold finished, ringing. rewrite Hp. cbn [w' phase answered]. rewrite length_app. cbn [length]. lia.
Qed.

Lemma ring_ok o w k s : SysOk s -> owners s !! o = Some w -> phase w = Ringing k ->
  SysOk (beat (set_boxes (boxes s) ({[k]} ∪ bells s) (awake s) (hist s) (set_owner o (mkOwner (queue w) Idle (image w) (asked w) (answered w)) s))).
Proof.
  intros H Hw Hp. set (w' := mkOwner _ _ _ _ _). set (s' := beat _).
  assert (Moves o w w' s s') as M by (split; try done; by left).
  assert (own_jobs w' = own_jobs w) as Ej by (unfold own_jobs; by rewrite Hp).
  destruct (sy_owner _ H _ _ Hw) as [A1 A2 A3 A4 A5].
  split; [apply (moves_others _ _ _ _ _ M H)|apply (moves_alone _ _ _ _ _ M H)|apply (moves_clients _ _ _ _ _ M H Ej); done|apply H|apply H| | | |].
  - split; try done. by rewrite Ej.
  - intros k' Hk. cbn. destruct (sy_bell _ H k' Hk) as [?|[?|(i & x & Hx & Hr)]]; [left; set_solver|right; by left|].
    destruct (decide (i = o)) as [->|Hne]; [left; rewrite Hw in Hx; injection Hx as <-; rewrite Hp in Hr; injection Hr as <-; apply elem_of_union_l, elem_of_singleton; reflexivity|]. right; right. exists i, x. split; [|done]. rewrite list_lookup_insert_ne; congruence.
  - apply (moves_beats _ _ _ _ _ M H); [done|]. unfold finished, ringing. rewrite Hp. cbn [w' phase answered]. lia.
  - rewrite (moves_tot _ _ _ _ _ _ M). change (next_image s') with (next_image s). rewrite (sy_images _ H). change (claimed w') with (claimed w). lia.
  - rewrite (moves_length _ _ _ _ _ M). apply H.
Qed.

(** ** The callers' moves *)
Lemma elem_snoc_l {A} (x y : A) l : x ∈ l -> x ∈ l ++ [y].
Proof. intros H. apply elem_of_app. by left. Qed.

(** An owner is given a job; [p] is who waits for what. *)
Lemma enqueue_ok o j s s1 p : SysOk s -> enqueue o j s = Some s1 ->
  (forall c, j_reply j <> Sync c -> p !! c = pend s !! c) -> (forall c, j_reply j = Sync c -> pend s !! c = None /\ p !! c = Some (o, j)) ->
  SysOk (set_clients (chans s1) p (returned s1) s1).
Proof.
  intros H. unfold enqueue. destruct (owners s !! o) as [w|] eqn:Hw; [|done]. cbn [mbind option_bind]. intros [= <-] Hp1 Hp2.
  set (w' := mkOwner _ _ _ _ _). set (s' := set_clients _ _ _ _).
  assert (Moves o w w' s s') as M by (split; try done; by left).
  destruct (sy_owner _ H _ _ Hw) as [A1 A2 A3 A4 A5].
  assert (own_jobs w' = own_jobs w ++ [j]) as Ej by (unfold own_jobs; cbn [w' phase queue]; by rewrite app_assoc).
  split; [apply (moves_others _ _ _ _ _ M H)|apply (moves_alone _ _ _ _ _ M H)| |apply H|apply H| | | |].
  - split; try done. rewrite Ej. cbn [w' asked answered]. by rewrite A1, app_assoc.
  - intros c. pose proof (sy_client _ H c) as Hc. destruct (moves_split _ _ _ _ _ M) as (l1 & l2 & E1 & E2). unfold client_ok in *.
    change (pend s') with p. change (chan s' c) with (chan s c). change (bulk s') with (bulk s). rewrite E2, Ej. rewrite E1 in Hc. rewrite !filter_app in *.
    destruct (decide (j_reply j = Sync c)) as [Hj|Hj].
    + destruct (Hp2 c Hj) as [E ->]. rewrite E in Hc. destruct Hc as [Hch Hf]. split; [done|]. left. split; [done|].
      apply app_eq_nil in Hf as [-> [-> ->]%app_eq_nil]. rewrite filter_cons_True by done. split; [done|].
      exists w'. rewrite (moves_get _ _ _ _ _ _ M), decide_True by done. split; [done|]. rewrite Ej. apply elem_of_app. right. left.
    + rewrite (Hp1 c Hj), (filter_client_none c j Hj), app_nil_r. destruct (pend s !! c) as [[i j0]|]; [|done].
      destruct Hc as [Hr [(A & B & Hh)|HB]]; (split; [done|]); [left|by right]. split_and!; try done.
      apply (moves_holds _ _ _ _ _ _ _ M); [|done]. rewrite Ej. apply elem_snoc_l.
  - apply (moves_bell _ _ _ _ _ M H); done.
  - apply (moves_beat _ _ _ _ _ M H); done.
  - rewrite (moves_tot _ _ _ _ _ _ M). change (next_image s') with (next_image s). rewrite (sy_images _ H). change (claimed w') with (claimed w). lia.
  - rewrite (moves_length _ _ _ _ _ M). apply H.
Qed.

Lemma set_clients_same s : set_clients (chans s) (pend s) (returned s) s = s.
Proof. by destruct s. Qed.

Lemma recv_ok c o j b rest s : SysOk s -> pend s !! c = Some (o, j) -> chan s c = b :: rest ->
  SysOk (set_clients (<[c := rest]> (chans s)) (delete c (pend s)) (returned s ++ [(c, j, b)]) s).
Proof.
  intros H Hp Hc. pose proof (sy_client _ H c) as Hk. unfold client_ok in Hk. rewrite Hp, Hc in Hk.
  destruct Hk as [Hr [(? & _)|(Hf & v & Hv & [= -> ->])]]; [done|].
  destruct H as [A1 A2 A3 A4 A5 A6 A7 A8 A9]. split; try done.
  - intros o' w Hw. destruct (A1 o' w Hw). by split.
  - intros c'. specialize (A3 c'). unfold client_ok, chan in *. cbn [set_clients pend chans].
    destruct (decide (c' = c)) as [->|Hne]; [by rewrite lookup_delete_eq, lookup_insert_eq|by rewrite lookup_delete_ne, lookup_insert_ne by congruence].
  - intros c' j' b'. cbn [set_clients returned bulk]. intros [?|[= -> -> ->]%list_elem_of_singleton]%elem_of_app; [by apply (A4 c')|eauto].
Qed.

Lemma clear_ok k s : SysOk s -> SysOk (set_boxes (boxes s) (bells s ∖ {[k]}) ({[k]} ∪ awake s) (hist s) s).
Proof.
  intros [A1 A2 A3 A4 A5 A6 A7 A8 A9]. split; try done.
  - intros o' w Hw. destruct (A1 o' w Hw). by split.
  - intros k' Hk. cbn. destruct (decide (k' = k)) as [->|Hne]; [right; left; by apply elem_of_union_l, elem_of_singleton|].
    destruct (A6 k' Hk) as [?|[?|?]]; [left|right; left|by right; right]; [|by apply elem_of_union_r].
    apply elem_of_difference. split; [done|]. by intros ?%elem_of_singleton.
Qed.

Lemma drain_ok k s : SysOk s -> SysOk (set_boxes (<[k := []]> (boxes s)) (bells s) (awake s ∖ {[k]}) (hist s) s).
Proof.
  intros [A1 A2 A3 A4 A5 A6 A7 A8 A9]. set (s' := set_boxes _ _ _ _ _).
  assert (forall k', box s' k' = if decide (k' = k) then [] else box s k') as Eb by (intros k'; apply box_insert).
  split; try done.
  - intros o' w Hw. destruct (A1 o' w Hw). by split.
  - intros k'. rewrite Eb. case_decide; [|apply A5]. exists (sent_to s k').*2. by rewrite app_nil_r.
  - intros k'. rewrite Eb. case_decide as E; [done|]. intros Hk. destruct (A6 k' Hk) as [?|[?|?]]; [by left|right; left|by right; right].
    cbn. apply elem_of_difference. split; [done|]. by intros ?%elem_of_singleton.
Qed.

Lemma own_step_ok o s s' : SysOk s -> own_step o s = Some s' -> exited s' = false -> SysOk s'.
Proof.
  intros H. unfold own_step. destruct (owners s !! o) as [w|] eqn:Hw; [|done]. cbn [mbind option_bind]. destruct (phase w) as [|j|j resp split|k] eqn:Hp.
  - destruct (queue w) as [|j q] eqn:Hq; [done|]. intros [= <-] _. by apply take_ok.
  - case_match; [by intros [= <-]|]. intros [= <-] _. by apply compute_ok.
  - destruct (j_reply j) as [c|k conn|k conn] eqn:Hr; cbn [box_of]; intros [= <-] _.
    + by apply deliver_sync_ok.
    + apply (deliver_box_ok o w j resp split (true, k) _ s H Hw Hp). by rewrite Hr.
    + apply (deliver_box_ok o w j resp split (false, k) _ s H Hw Hp). by rewrite Hr.
  - intros [= <-] _. by apply ring_ok.
Qed.

Lemma sys_step_ok l s s' : SysOk s -> sys_step l s = Some s' -> exited s' = false -> SysOk s'.
Proof.
  intros H. unfold sys_step. destruct (exited s); [done|]. destruct l as [o|c o j|c|o j|k|k].
  - by apply own_step_ok.
  - case_match eqn:E; [|done]. apply andb_prop in E as [E1 E2]. apply bool_decide_eq_true in E1, E2.
    destruct (enqueue o j s) as [s1|] eqn:Eq; [|done]. cbn [mbind option_bind]. intros [= <-] _. apply (enqueue_ok o j s s1 _ H Eq).
    + intros c' Hc. assert (pend s1 = pend s) as -> by (unfold enqueue in Eq; destruct (owners s !! o); [|done]; by injection Eq as <-).
      rewrite lookup_insert_ne; congruence.
    + intros c' Hc. rewrite E1 in Hc. injection Hc as <-. by rewrite lookup_insert_eq.
  - destruct (pend s !! c) as [[o j]|] eqn:Ep; [|done]. cbn [mbind option_bind]. destruct (chan s c) as [|b rest] eqn:Ec; [done|]. intros [= <-] _. by eapply recv_ok.
  - case_match eqn:E; [|done]. apply bool_decide_eq_true in E as [k E]. intros Eq _. rewrite <- set_clients_same.
    assert (pend s' = pend s) as Ep by (unfold enqueue in Eq; destruct (owners s !! o); [|done]; by injection Eq as <-).
    apply (enqueue_ok o j s s' _ H Eq); [by rewrite Ep|]. intros c Hc. by rewrite Hc in E.
  - case_match; [|done]. intros [= <-] _. by apply clear_ok.
  - case_match; [|done]. intros [= <-] _. by apply drain_ok.
Qed.

Lemma boot_ok s : boot = Some s -> SysOk s /\ exited s = false.
Proof.
  unfold boot. destruct init_static_bulk_body as [b|]; [|done]. cbn [mbind option_bind]. intros [= <-]. split; [|done].
  assert (forall o w, replicate (Z.to_nat serve_owner_count) (mkOwner [] Idle (-2) [] []) !! o = Some w -> w = mkOwner [] Idle (-2) [] []) as Hr.
  { intros o w [-> _]%lookup_replicate. done. }
  assert (forall n, outstanding (mkSys (replicate n (mkOwner [] Idle (-2) [] [])) 0 b ∅ ∅ ∅ ∅ 0 0 false 0 ∅ [] ∅) = []) as Ho.
  { intros n. unfold outstanding. cbn [owners]. by induction n. }
  split; cbn [owners returned heartbeat next_image].
  - intros o w ->%Hr. split; cbn; [done|by intros ?? ?%elem_of_nil|done|done|lia].
  - by intros o w o' w' ->%Hr ->%Hr.
  - intros c. unfold client_ok. cbn [pend]. rewrite lookup_empty, Ho. done.
  - by intros c j r ?%elem_of_nil.
  - intros k. by exists [].
  - done.
  - by rewrite tot_zero by (intros x [-> _]%elem_of_replicate; done).
  - by rewrite tot_zero by (intros x [-> _]%elem_of_replicate; done).
  - rewrite length_replicate. unfold serve_owner_count. case_match; lia.
Qed.

Lemma reach_ok s0 s : boot = Some s0 -> reach sys_step s0 s -> exited s = false -> SysOk s.
Proof.
  intros H0%boot_ok. induction 1 as [|l s1 s2 _ IH Hs]; [by intros _; apply H0|]. intros He. apply (sys_step_ok l s1 s2); [|done|done].
  apply IH. unfold sys_step in Hs. by destruct (exited s1).
Qed.

(** ** Every call is answered *)

(** The moves an owner needs to become idle. *)
Definition moves_left (w : Owner) : nat :=
  4 * length (queue w) + match phase w with Idle => 0 | Taken _ => 3 | Ready _ _ _ => 2 | Ringing _ => 1 end.

Lemma own_step_moves o w s : owners s !! o = Some w -> moves_left w <> 0%nat -> exists s', own_step o s = Some s' /\ pend s' = pend s /\
  (exited s' = true \/ exited s' = exited s /\ exists w', owners s' !! o = Some w' /\ (moves_left w' < moves_left w)%nat).
Proof.
  intros Hw Hm. unfold own_step. rewrite Hw. cbn [mbind option_bind].
  assert (forall w', <[o := w']> (owners s) !! o = Some w') as Hs by (intros w'; apply list_lookup_insert_eq; by eapply lookup_lt_Some).
  unfold moves_left in *. destruct (phase w) as [|j|j resp split|k] eqn:Hp.
  - destruct (queue w) as [|j q] eqn:Hq; [done|]. eexists. split; [done|]. split; [done|]. right. split; [done|].
    eexists. split; [apply Hs|]. cbn. lia.
  - case_match; [eexists; split; [done|]; split; [done|]; by left|]. eexists. split; [done|]. split; [done|]. right. split; [done|].
    eexists. split; [apply Hs|]. cbn. lia.
  - eexists. split; [done|]. destruct (j_reply j) as [c|k conn|k conn]; (split; [done|]); right; (split; [done|]); eexists; (split; [apply Hs|]); cbn; lia.
  - eexists. split; [done|]. split; [done|]. right. split; [done|]. eexists. split; [apply Hs|]. cbn. lia.
Qed.

Lemma own_jobs_moves w : own_jobs w <> [] -> moves_left w <> 0%nat.
Proof. unfold own_jobs, moves_left. destruct (phase w), (queue w); cbn; (done || lia). Qed.

Lemma call_answered n : forall s c o j w, SysOk s -> exited s = false -> pend s !! c = Some (o, j) -> owners s !! o = Some w -> (moves_left w <= n)%nat ->
  exists k s', (k <= n)%nat /\ run sys_step (replicate k (Own o)) s = Some s' /\
    (exited s' = true \/ exists v, is_answer j v /\ chan s' c = [whole (bulk s') v]).
Proof.
  induction n as [|n IH]; intros s c o j w H He Hp Hw Hm; pose proof (sy_client _ H c) as Hc; unfold client_ok in Hc; rewrite Hp in Hc;
    destruct Hc as [Hr [(A & B & x & Hx & Hin)|(_ & Hv)]]; try (by exists 0%nat, s; split_and!; [lia|done|right]); rewrite Hw in Hx; injection Hx as <-.
  - assert (moves_left w <> 0)%nat by (apply own_jobs_moves; intros E; rewrite E in Hin; by apply elem_of_nil in Hin). lia.
  - assert (moves_left w <> 0)%nat as Hne by (apply own_jobs_moves; intros E; rewrite E in Hin; by apply elem_of_nil in Hin).
    destruct (own_step_moves o w s Hw Hne) as (s1 & Hs & Ep & [Hex|(Ee & w' & Hw' & Hlt)]).
    + exists 1%nat, s1. split; [lia|]. cbn [replicate run]. unfold sys_step at 1. rewrite He, Hs. split; [done|]. by left.
    + destruct (IH s1 c o j w') as (k & s' & Hk & Hrun & Hend); [by apply (own_step_ok o s); [| |congruence]|congruence|congruence|done|lia|].
      exists (S k), s'. split; [lia|]. cbn [replicate run]. unfold sys_step at 1. by rewrite He, Hs.
Qed.

(** Only the second test mode panics where nothing catches it. *)
Lemma own_step_stays o s s' : panic_test_mode <> 2 -> own_step o s = Some s' -> exited s' = exited s.
Proof.
  intros Hm. unfold own_step. destruct (owners s !! o) as [w|]; [|done]. cbn [mbind option_bind]. destruct (phase w) as [|j|j resp split|k].
  - destruct (queue w); [done|]. by intros [= <-].
  - unfold probe_hit. rewrite (proj2 (Z.eqb_neq _ _) Hm). cbn [andb]. by intros [= <-].
  - intros [= <-]. by destruct (j_reply j).
  - by intros [= <-].
Qed.

Lemma sys_step_stays l s s' : panic_test_mode <> 2 -> sys_step l s = Some s' -> exited s' = false.
Proof.
  intros Hm. unfold sys_step. destruct (exited s) eqn:He; [done|]. destruct l as [o|c o j|c|o j|k|k].
  - intros ->%own_step_stays; done.
  - case_match; [|done]. unfold enqueue. destruct (owners s !! o); [|done]. by intros [= <-].
  - destruct (pend s !! c) as [[o j]|]; [|done]. cbn [mbind option_bind]. destruct (chan s c); [done|]. by intros [= <-].
  - case_match; [|done]. unfold enqueue. destruct (owners s !! o); [|done]. by intros [= <-].
  - case_match; [|done]. by intros [= <-].
  - case_match; [|done]. by intros [= <-].
Qed.

Lemma run_stays ls : panic_test_mode <> 2 -> forall s s', exited s = false -> run sys_step ls s = Some s' -> exited s' = false.
Proof.
  intros Hm. induction ls as [|l ls IH]; intros s s' He; cbn [run]; [by intros [= <-]|]. destruct (sys_step l s) as [s1|] eqn:E; [|done].
  apply IH. by apply (sys_step_stays l s).
Qed.

(** C6. The serve owners answer every request once. Over every interleaving of
    the owner threads, the blocked callers and the shards and reactors, whatever
    the linked core returns and wherever its marshalling panics: the process
    stays up (the mode that tests the opposite apart); a caller that waits is
    answered within four moves for each job in front of it in its owner's queue,
    and what a call returns is the answer to its own request, whole; each owner
    answers its jobs in the order it was given them; a mailbox received exactly
    the answers of each owner's jobs for it, in that order, and while it holds
    any its bell has rung, its reader is awake or the ring is on its way; the
    heartbeat counts the finished jobs; no two owners run the same image. *)
Theorem gateway_answers (s0 s : Sys) : panic_test_mode <> 2 -> boot = Some s0 -> reach sys_step s0 s ->
  exited s = false /\
  (forall c o j, pend s !! c = Some (o, j) -> exists k s' v, (k <= from_option moves_left 0 (owners s !! o))%nat /\
     run sys_step (replicate k (Own o)) s = Some s' /\ is_answer j v /\ chan s' c = [whole (bulk s') v]) /\
  (forall c j b, (c, j, b) ∈ returned s -> exists v, is_answer j v /\ b = whole (bulk s) v) /\
  (forall o w, owners s !! o = Some w -> asked w = (answered w).*1 ++ own_jobs w /\ (forall j v, (j, v) ∈ answered w -> is_answer j v) /\
     forall k, (filter (fun m : nat * ShardDone => m.1 = o) (sent_to s k)).*2 = omap (put_in (bulk s) k) (answered w)) /\
  (forall k, (exists seen, (sent_to s k).*2 = seen ++ box s k) /\
     (box s k <> [] -> k ∈ bells s \/ k ∈ awake s \/ exists o w, owners s !! o = Some w /\ phase w = Ringing k)) /\
  heartbeat s = wrap 64 (tot finished (owners s)) /\
  (forall o w o' w', owners s !! o = Some w -> owners s !! o' = Some w' -> image w' = image w -> 0 <= image w -> o' = o).
Proof.
  intros Hm Hb Hr. assert (exited s = false) as He by (destruct Hr as [|l x y _ Hs]; [exact (proj2 (boot_ok _ Hb))|exact (sys_step_stays l x y Hm Hs)]).
  pose proof (reach_ok s0 s Hb Hr He) as H. split_and!; [done| |apply H| | |apply H|apply H].
  - intros c o j Hp. pose proof (sy_client _ H c) as Hc. unfold client_ok in Hc. rewrite Hp in Hc. destruct Hc as [_ [(_ & _ & w & Hw & _)|(_ & v & Hv)]].
    + destruct (call_answered _ s c o j w H He Hp Hw (le_n _)) as (k & s' & Hk & Hrun & [Hx|(v & Hv)]); [|exists k, s', v; by rewrite Hw].
      by rewrite (run_stays _ Hm s s' He Hrun) in Hx.
    + exists 0%nat, s, v. split; [lia|]. split; [done|]. exact Hv.
  - intros o w Hw. pose proof (sy_owner _ H o w Hw) as Ho. split_and!; apply Ho.
  - intros k. split; apply H.
Qed.
End system.

(** ** Two owners, a caller and a shard *)
Module DemoGateway.
(** The core answers with the request; marshalling an empty one panics. *)
Definition echo_or_panic (c : Crossing) : option bytes :=
  match c with CallOne _ [] | CallPipeline _ _ [] => None | CallPipeline _ _ i | CallOne _ i => Some i | _ => Some [] end.

#[export] Instance two_owners : Linked :=
  mkLinked echo_or_panic (fun v => if String.eqb v "DRORB_SERVE_OWNERS" then Some (bs "2") else None) false false 0
    (fun _ => mkLimits 4 10 8 1) (fun _ _ => []).

Definition ask (c : nat) (r : bytes) : ServeJob := job_submit r SeamHttp (Sync c).
Definition post (k conn : nat) (r : bytes) : ServeJob := job_metered r DemoLink.demo_meter (ToShard k conn).

(** Caller 0 and a shard share owner 0; the shard's request panics. *)
Definition traffic : list Label :=
  [Call 0 0 (ask 0 (bs "a")); Submit 0 (post 7 3 []); Own 0; Own 0; Own 0; Call 1 1 (ask 1 (bs "b")); Recv 0; Own 0; Own 0; Own 0; Own 0; Own 1;
   Clear (true, 7%nat); Drain (true, 7%nat); Call 0 0 (ask 0 (bs "c"))].

Definition as_expected (s : Sys) : bool :=
  bool_decide ((fun r => (r.1.1, r.2)) <$> returned s = [(0%nat, bs "a")]) && (heartbeat s =? 2) && (serve_panics s =? 1)
  && bool_decide ((fun m : nat * ShardDone => (m.1, done_conn m.2, done_resp m.2)) <$> sent_to s (true, 7%nat) = [(0%nat, 3%nat, PANIC_500)]).
End DemoGateway.

Lemma gateway_answers_witness : exists s0 s, boot (linked := DemoGateway.two_owners) = Some s0 /\
  run (sys_step (linked := DemoGateway.two_owners)) DemoGateway.traffic s0 = Some s /\ DemoGateway.as_expected s = true /\ exited s = false.
Proof.
  set (o := boot (linked := DemoGateway.two_owners)). destruct o as [s0|] eqn:E0; [|vm_compute in E0; discriminate E0]. exists s0.
  set (r := run (sys_step (linked := DemoGateway.two_owners)) DemoGateway.traffic s0).
  assert (DemoGateway.as_expected <$> r = Some true) as He by (subst r; vm_compute in E0; injection E0 as <-; vm_compute; reflexivity).
  destruct r as [s|] eqn:E; [|discriminate He]. exists s. injection He as He. split; [reflexivity|]. split; [reflexivity|]. split; [exact He|].
  exact (proj1 (gateway_answers (linked := DemoGateway.two_owners) s0 s ltac:(vm_compute; discriminate) E0 (run_reach _ _ _ _ E))).
Defined.
