(* ===== verification/Text.v ===== *)
(** * Text as the host reads it

    [String::from_utf8_lossy], [str::lines], [str::split_whitespace] and
    [str::strip_prefix], on bytes. *)
From S2P Require Import Prelude Bytes.

Local Open Scope Z_scope.

Definition byte_at (l : bytes) (i : nat) : Z := default 0 (l !! i).

(** The length of the first character, or of the invalid bytes one replacement
    character stands for. *)
Definition utf8_head (l : bytes) : bool * nat :=
  let b := byte_at l 0 in
  let c1 := byte_at l 1 in
  if b <? 128 then (true, 1%nat)
  else if between 194 223 b then (if cont c1 then (true, 2%nat) else (false, 1%nat))
  else if between 224 239 b then
    if if b =? 224 then between 160 191 c1 else if b =? 237 then between 128 159 c1 else cont c1
    then if cont (byte_at l 2) then (true, 3%nat) else (false, 2%nat)
    else (false, 1%nat)
  else if between 240 244 b then
    if if b =? 240 then between 144 191 c1 else if b =? 244 then between 128 143 c1 else cont c1
    then if cont (byte_at l 2) then (if cont (byte_at l 3) then (true, 4%nat) else (false, 3%nat)) else (false, 2%nat)
    else (false, 1%nat)
  else (false, 1%nat).

Definition REPLACEMENT : bytes := [0xEF; 0xBF; 0xBD].

Fixpoint lossy (fuel : nat) (l : bytes) : bytes :=
  match fuel with
  | O => []
  | S f =>
      match l with
      | [] => []
      | _ => let '(ok, n) := utf8_head l in (if ok : bool then take n l else REPLACEMENT) ++ lossy f (drop n l)
      end
  end.

Definition from_utf8_lossy (l : bytes) : bytes := lossy (length l) l.

(** A carriage return is dropped only in front of its line feed. *)
Definition strip_cr (l : bytes) : bytes := match last l with Some b => if b =? CR then removelast l else l | None => l end.

Fixpoint lines_from (cur l : bytes) : list bytes :=
  match l with
  | [] => match cur with [] => [] | _ => [cur] end
  | b :: l' => if b =? LF then strip_cr cur :: lines_from [] l' else lines_from (cur ++ [b]) l'
  end.

Definition str_lines (l : bytes) : list bytes := lines_from [] l.

(** The white-space character [l] begins with. *)
Definition ws_head (l : bytes) : option bytes := snd <$> list_find (fun w => starts_with w l = true) white_space.

Definition flush_token (cur : bytes) : list bytes := match cur with [] => [] | _ => [cur] end.

Fixpoint tokens_from (fuel : nat) (cur l : bytes) : list bytes :=
  match fuel, l with
  | S f, _ :: _ =>
      match ws_head l with
      | Some w => flush_token cur ++ tokens_from f [] (drop (length w) l)
      | None => let n := (utf8_head l).2 in tokens_from f (cur ++ take n l) (drop n l)
      end
  | _, _ => flush_token cur
  end.

Definition split_whitespace (l : bytes) : list bytes := tokens_from (length l) [] l.

Definition strip_prefix (pre l : bytes) : option bytes := if starts_with pre l then Some (drop (length pre) l) else None.

Lemma strip_prefix_Some pre l r : strip_prefix pre l = Some r -> l = pre ++ r.
Proof.
  unfold strip_prefix. destruct (starts_with pre l) eqn:E; [|done]. intros [= <-].
  apply starts_with_app in E as [t ->]. by rewrite drop_app_length.
Qed.

(** ** Characters *)
Lemma utf8_head_pos l : (1 <= (utf8_head l).2 <= 4)%nat.
Proof. unfold utf8_head. repeat case_match; cbn; lia. Qed.

Lemma between_ascii lo hi b : 0 <= b < 128 -> 128 <= lo -> between lo hi b = false.
Proof. unfold between. lia. Qed.

(** An ASCII byte ends whatever came before it. *)
Lemma utf8_head_ends x l b u :
  0 <= b < 128 ->
  utf8_head ((x :: l) ++ b :: u) = utf8_head (x :: l) /\ ((utf8_head (x :: l)).2 <= S (length l))%nat.
Proof.
  intros Hb. assert (forall c, 0 <= c < 128 -> cont c = false) as Hc by (intros; unfold cont; lia).
  assert (forall lo hi, 128 <= lo -> between lo hi 0 = false) as H0 by (intros; apply between_ascii; lia).
  unfold utf8_head, byte_at. destruct l as [|y [|z [|w l]]]; cbn -[Z.ltb Z.eqb];
    rewrite ?(between_ascii _ _ b), ?H0, ?(Hc b), ?(Hc 0) by lia; repeat case_match; cbn; split; try done; lia.
Qed.

Lemma utf8_head_ascii b l : 0 <= b < 128 -> utf8_head (b :: l) = (true, 1%nat).
Proof. intros Hb. unfold utf8_head. change (byte_at (b :: l) 0) with b. by rewrite (proj2 (Z.ltb_lt b 128)) by lia. Qed.

Lemma lossy_fuel n : forall f1 f2 l, (length l <= n)%nat -> (length l <= f1)%nat -> (length l <= f2)%nat -> lossy f1 l = lossy f2 l.
Proof.
  induction n as [|n IH]; intros [|f1] [|f2] [|x l] Hn H1 H2; cbn [length] in *; try lia; try done.
  cbn [lossy]. pose proof (utf8_head_pos (x :: l)) as Hp. destruct (utf8_head (x :: l)) as [ok k]. cbn [snd] in Hp.
  f_equal. apply IH; rewrite length_drop; cbn [length]; lia.
Qed.

Lemma from_utf8_lossy_cons x l :
  from_utf8_lossy (x :: l) =
    let '(ok, n) := utf8_head (x :: l) in (if ok : bool then take n (x :: l) else REPLACEMENT) ++ from_utf8_lossy (drop n (x :: l)).
Proof.
  unfold from_utf8_lossy. cbn [length lossy]. pose proof (utf8_head_pos (x :: l)) as Hp.
  destruct (utf8_head (x :: l)) as [ok k]. cbn [snd] in Hp. f_equal.
  apply (lossy_fuel (length l)); rewrite length_drop; cbn [length]; lia.
Qed.

Lemma from_utf8_lossy_split b u n : forall t,
  (length t <= n)%nat -> 0 <= b < 128 -> from_utf8_lossy (t ++ b :: u) = from_utf8_lossy t ++ b :: from_utf8_lossy u.
Proof.
  induction n as [|n IH]; intros [|x t] Hn Hb; cbn [length] in *; try lia;
    [by cbn [app]; rewrite from_utf8_lossy_cons, utf8_head_ascii by lia..|].
  pose proof (utf8_head_ends x t b u Hb) as [He Hk]. pose proof (utf8_head_pos (x :: t)) as Hp.
  rewrite from_utf8_lossy_cons. cbn [app] in *. rewrite from_utf8_lossy_cons, He. destruct (utf8_head (x :: t)) as [ok k]. cbn [snd] in *.
  rewrite !(app_comm_cons t (b :: u) x). rewrite take_app_le, drop_app_le by (cbn [length]; lia).
  rewrite IH by (rewrite ?length_drop; cbn [length]; lia). by rewrite <- app_assoc.
Qed.

(** Decoding is the identity on ASCII. *)
Definition ascii_text (l : bytes) : Prop := Forall (fun b => 0 <= b < 128) l.

Lemma from_utf8_lossy_ascii l : ascii_text l -> from_utf8_lossy l = l.
Proof. induction 1 as [|b l Hb _ IH]; [done|]. rewrite from_utf8_lossy_cons, utf8_head_ascii by done. cbn [take drop app]. by rewrite drop_0, take_0, IH. Qed.

(** Decoding is the identity on valid text. *)
Lemma utf8_valid_head x l :
  utf8_valid (x :: l) = true -> exists n, utf8_head (x :: l) = (true, n) /\ utf8_valid (drop n (x :: l)) = true.
Proof.
  intros H. unfold utf8_head, byte_at. cbn [utf8_valid] in H.
  destruct l as [|y [|z [|w l]]]; cbn -[Z.ltb Z.eqb between cont utf8_valid] in *;
    repeat case_match; try done; try (exfalso; unfold between, cont in *; lia);
    eexists; (split; [reflexivity|]); cbn [drop]; rewrite ?drop_0; rewrite ?andb_true_iff in H; tauto.
Qed.

Lemma from_utf8_lossy_valid l : utf8_valid l = true -> from_utf8_lossy l = l.
Proof.
  remember (length l) as n eqn:Hn. revert l Hn. induction n as [n IH] using lt_wf_ind. intros [|x l] Hn H; [done|].
  apply utf8_valid_head in H as (k & Hh & Hv). rewrite from_utf8_lossy_cons. pose proof (utf8_head_pos (x :: l)) as Hp. rewrite Hh in *.
  cbn [snd] in Hp. rewrite (IH (length (drop k (x :: l)))); [apply take_drop| |done|done]. rewrite length_drop, Hn. cbn [length]. lia.
Qed.

(** ** Lines *)
Lemma lines_from_split cur t u : lines_from cur (t ++ LF :: u) = lines_from cur (t ++ [LF]) ++ lines_from [] u.
Proof.
  revert cur. induction t as [|b t IH]; intros cur; cbn; [done|]. case_match; [|apply IH]. cbn. by rewrite IH.
Qed.

(** What follows a line feed does not change the lines before it. *)
Theorem text_lines_split t u :
  str_lines (from_utf8_lossy (t ++ LF :: u)) = str_lines (from_utf8_lossy (t ++ [LF])) ++ str_lines (from_utf8_lossy u).
Proof.
  rewrite !(from_utf8_lossy_split LF _ (length t)) by (unfold LF; lia). apply lines_from_split.
Qed.

Lemma lines_from_line cur l : LF ∉ l -> last (cur ++ l) <> Some CR -> lines_from cur (l ++ [LF]) = [cur ++ l].
Proof.
  revert cur. induction l as [|b l IH]; intros cur Hl Hc; cbn.
  - rewrite app_nil_r in *. unfold strip_cr. case_match; [|done]. case_match; [|done]. exfalso. apply Hc. f_equal. lia.
  - apply not_elem_of_cons in Hl as [Hb Hl]. rewrite (proj2 (Z.eqb_neq b LF)) by congruence.
    rewrite IH; rewrite <- ?app_assoc; done.
Qed.

Lemma str_lines_one l : LF ∉ l -> last l <> Some CR -> str_lines (l ++ [LF]) = [l].
Proof. apply (lines_from_line []). Qed.

Lemma str_lines_app l u : str_lines ((l ++ [LF]) ++ u) = str_lines (l ++ [LF]) ++ str_lines u.
Proof. rewrite <- app_assoc. apply lines_from_split. Qed.

Lemma lines_from_no_lf cur l : LF ∉ cur -> Forall (fun s => LF ∉ s) (lines_from cur l).
Proof.
  revert cur. induction l as [|b l IH]; intros cur Hc; cbn.
  - destruct cur; repeat constructor; done.
  - case_match eqn:E.
    + constructor; [|apply IH, not_elem_of_nil]. unfold strip_cr. repeat case_match; [|done..].
      destruct cur as [|c cur _] using rev_ind; [done|]. rewrite removelast_last. by apply not_elem_of_app in Hc as [? _].
    + apply IH. apply not_elem_of_app. split; [done|]. apply not_elem_of_cons. split; [|apply not_elem_of_nil]. zify_bool. congruence.
Qed.

Lemma str_lines_no_lf l : Forall (fun s => LF ∉ s) (str_lines l).
Proof. apply lines_from_no_lf, not_elem_of_nil. Qed.

(** ** Tokens *)
Definition graphic (b : Z) : bool := (33 <=? b) && (b <=? 126).

Lemma ws_head_graphic b l : graphic b = true -> ws_head (b :: l) = None.
Proof.
  unfold graphic. intros Hb. unfold ws_head. rewrite (proj2 (list_find_None _ _)); [done|].
  unfold white_space. repeat first [apply Forall_nil_2 | apply Forall_cons_2; [cbn [starts_with]; by rewrite (proj2 (Z.eqb_neq _ b)) by lia|]].
Qed.

Lemma tokens_graphic f w : forall cur l,
  forallb graphic w = true -> (length w <= f)%nat -> tokens_from f cur (w ++ l) = tokens_from (f - length w) (cur ++ w) l.
Proof.
  revert f. induction w as [|b w IH]; intros f cur l Hw Hf; [by rewrite app_nil_r, Nat.sub_0_r|].
  cbn [forallb] in Hw. apply andb_true_iff in Hw as [Hb Hw]. destruct f as [|f]; cbn [length] in *; [lia|].
  cbn [app tokens_from]. rewrite ws_head_graphic, utf8_head_ascii by (done || unfold graphic in Hb; lia). cbn [take drop snd]. rewrite take_0, drop_0.
  rewrite IH by (done || lia). by rewrite <- app_assoc.
Qed.

(** Two printable words separated by a space. *)
Lemma split_whitespace_two a b :
  forallb graphic a = true -> forallb graphic b = true -> a <> [] -> b <> [] -> split_whitespace (a ++ 32 :: b) = [a; b].
Proof.
  intros Ha Hb Hna Hnb. unfold split_whitespace. rewrite tokens_graphic by (done || rewrite length_app; cbn; lia).
  rewrite length_app. cbn [length]. replace (length a + S (length b) - length a)%nat with (S (length b)) by lia.
  cbn [tokens_from]. change (ws_head (32 :: b)) with (Some [32]). cbn [app drop length].
  pose proof (tokens_graphic (length b) b [] [] Hb ltac:(lia)) as Ht. rewrite app_nil_r, Nat.sub_diag in Ht. rewrite drop_0, Ht. by destruct a, b.
Qed.

(** ** Trimming *)
Lemma ends_with_app w l : ends_with w l = true -> exists p, l = p ++ w.
Proof. unfold ends_with. rewrite andb_true_iff, bytes_eqb_eq. intros [_ H]. exists (take (length l - length w) l). rewrite <- H at 2. by rewrite take_drop. Qed.

Lemma white_space_last w : w ∈ white_space -> exists c, last w = Some c /\ graphic c = false.
Proof.
  assert (forallb (fun w => match last w with Some c => negb (graphic c) | None => false end) white_space = true) as H by (vm_compute; reflexivity).
  intros Hw. rewrite forallb_forall in H. specialize (H w (proj1 (list_elem_of_In _ _) Hw)). cbn in H. destruct (last w) as [c|]; [|done]. exists c. split; [done|]. by destruct (graphic c).
Qed.

Lemma trim_left_graphic f b l : graphic b = true -> trim_left f (b :: l) = b :: l.
Proof.
  intros Hb. destruct f as [|f]; [done|]. cbn [trim_left]. pose proof (ws_head_graphic b l Hb) as H. unfold ws_head in H.
  by destruct (list_find _ white_space) as [[i w]|].
Qed.

Lemma trim_right_graphic f l c : last l = Some c -> graphic c = true -> trim_right f l = l.
Proof.
  intros Hl Hc. destruct f as [|f]; [done|]. cbn [trim_right].
  assert (list_find (fun w => ends_with w l = true) white_space = None) as ->; [|done].
  apply list_find_None, Forall_forall. intros w Hw (p & ->)%ends_with_app. destruct (white_space_last w Hw) as (d & Hd & Hg).
  rewrite last_app, Hd in Hl. congruence.
Qed.

(** Text that begins and ends with a printable character is left alone. *)
Lemma str_trim_graphic l b c : head l = Some b -> last l = Some c -> graphic b = true -> graphic c = true -> str_trim l = l.
Proof.
  intros Hh Hl Hb Hc. destruct l as [|x l]; [done|]. injection Hh as ->. unfold str_trim. rewrite trim_left_graphic by done. by eapply trim_right_graphic.
Qed.

Lemma str_trim_space l b c : head l = Some b -> last l = Some c -> graphic b = true -> graphic c = true -> str_trim (32 :: l) = l.
Proof.
  intros Hh Hl Hb Hc. rewrite <- (str_trim_graphic l b c) at 2 by done. destruct l as [|x l]; [done|]. injection Hh as ->.
  unfold str_trim. cbn [length trim_left]. change (drop (length [32]) (32 :: b :: l)) with (b :: l). cbn [list_find]. 
  done.
Qed.

(** ** Splitting *)
Lemma split_on_line (p : Z -> bool) (l y : bytes) : Forall (fun b => p b = false) l -> forall b, p b = true -> split_on p (l ++ b :: y) = l :: split_on p y.
Proof. intros Hl b Hb. induction Hl as [|x l Hx _ IH]; cbn [app split_on]; [by rewrite Hb|]. by rewrite Hx, IH. Qed.

Lemma split_on_none p l : Forall (fun b => p b = false) l -> split_on p l = [l].
Proof. intros Hl. induction Hl as [|x l Hx _ IH]; cbn [split_on]; [done|]. by rewrite Hx, IH. Qed.
