(* ===== verification/Config.v ===== *)
(** * The operator's configuration

    [config.rs]: the gates read from the directives of the configuration file,
    the deployment read from the linked parser's projection lines, and the
    loading of both, at boot and at run time. The parser behind the gateway
    ([call_deployment]) is a parameter: the bytes it answers for a text, or
    nothing when the serve thread is gone. *)
From S2P Require Import Prelude Bytes Lines Text.

Local Open Scope Z_scope.

Definition DEFAULT_MAX_CONNECTIONS : Z := 512.
Definition DEFAULT_RATE_LIMIT : Z := 2000.
Definition DEFAULT_RATE_WINDOW_MS : Z := 1000.
Definition DEFAULT_SLOWLORIS_MS : Z := 30000.
Definition DEFAULT_MAX_BODY_SIZE : Z := 128 * 1024 * 1024.
Definition DEFAULT_BURST_CAP : Z := 512.
Definition DEFAULT_BURST_REFILL : Z := 64.

Record Deployment := mkDeployment {
  lb_policy : Z;
  l4_binds : list bytes;
  config_text : bytes;
  route_count : Z;
  vproxy_hosts : list bytes
}.

#[export] Instance Deployment_eq_dec : EqDecision Deployment.
Proof. solve_decision. Defined.

Definition has_routes (d : Deployment) : bool := 0 <? route_count d.

(** The scan stops at the blank line, at a head that is cut, or at the first
    [Host] line, whatever its value is. *)
Definition host_line (line : bytes) : option (option bytes) :=
  match position (fun b => b =? COLON) line with
  | Some colon =>
      if eq_ignore_ascii_case (take colon line) (bs "host") then
        let v := drop 1 (drop colon line) in
        Some (if utf8_valid v then Some (hd (str_trim v) (split_on (fun b => b =? COLON) (str_trim v))) else None)
      else None
  | None => None
  end.

Fixpoint host_header_loop (fuel : nat) (rest : bytes) : option bytes :=
  match fuel with
  | O => None
  | S f =>
      match windows_position CRLF rest with
      | None | Some O => None
      | Some fin =>
          match host_line (take fin rest) with
          | Some r => r
          | None => host_header_loop f (drop (fin + 2) rest)
          end
      end
  end.

Definition host_header (req : bytes) : option bytes :=
  line_end ← windows_position CRLF req; host_header_loop (length req) (drop (line_end + 2) req).

Definition is_vhost_proxy (d : Deployment) (req : bytes) : bool :=
  if bool_decide (vproxy_hosts d = []) then false
  else match host_header req with
       | Some h => existsb (fun v => bytes_eqb v h) (vproxy_hosts d)
       | None => false
       end.

Definition TAB : Z := 9.

Definition first_l4_bind (d : Deployment) : option bytes :=
  line ← head (l4_binds d); b ← head (split_on (fun c => c =? TAB) line); if bool_decide (b = []) then None else Some b.

(** ** The gates *)
Definition directive (w : Z) (name : string) (line : bytes) : option Z :=
  match split_whitespace line with
  | [k; n] => if bytes_eqb k (bs name) then parse_uint w n else None
  | _ => None
  end.

Definition scan_max_connections (text : bytes) : Z :=
  foldl (fun cap line => default cap (directive 32 "max-connections" line)) DEFAULT_MAX_CONNECTIONS (str_lines (from_utf8_lossy text)).

Record Dos := mkDos { d_rate : Z; d_window_ms : Z; d_slow_ms : Z; d_max_body : Z; d_burst_cap : Z; d_burst_refill : Z }.

#[export] Instance Dos_eq_dec : EqDecision Dos.
Proof. solve_decision. Defined.

Definition dos_line (d : Dos) (line : bytes) : Dos :=
  let '(mkDos rate window slow body bcap brefill) := d in
  match split_whitespace line with
  | [k; n] =>
      if bytes_eqb k (bs "rate-limit") then mkDos (default rate (parse_uint 32 n)) window slow body bcap brefill
      else if bytes_eqb k (bs "rate-window") then
        mkDos rate (default window ((fun v => Z.max v 1) <$> parse_uint 64 n)) slow body bcap brefill
      else if bytes_eqb k (bs "slowloris-timeout") then mkDos rate window (default slow (parse_uint 64 n)) body bcap brefill
      else if bytes_eqb k (bs "max-body-size") then mkDos rate window slow (default body (parse_uint 64 n)) bcap brefill
      else if bytes_eqb k (bs "burst-cap") then mkDos rate window slow body (default bcap (parse_uint 32 n)) brefill
      else if bytes_eqb k (bs "burst-refill") then mkDos rate window slow body bcap (default brefill (parse_uint 32 n))
      else d
  | _ => d
  end.

Definition default_dos : Dos :=
  mkDos DEFAULT_RATE_LIMIT DEFAULT_RATE_WINDOW_MS DEFAULT_SLOWLORIS_MS DEFAULT_MAX_BODY_SIZE DEFAULT_BURST_CAP DEFAULT_BURST_REFILL.

Definition scan_dos_directives (text : bytes) : Dos := foldl dos_line default_dos (str_lines (from_utf8_lossy text)).

(** The process-wide state: the raw text behind its lock, one atomic per gate,
    the deployment behind its lock and the generation. *)
Record Config := mkConfig {
  RAW : bytes;
  MAX_CONNECTIONS : Z;
  RATE_LIMIT : Z;
  RATE_WINDOW_MS : Z;
  SLOWLORIS_MS : Z;
  MAX_BODY_SIZE : Z;
  BURST_CAP : Z;
  BURST_REFILL : Z;
  CELL : option Deployment;
  GENERATION : Z
}.

#[export] Instance Config_eq_dec : EqDecision Config.
Proof. solve_decision. Defined.

Definition initial : Config :=
  mkConfig [] DEFAULT_MAX_CONNECTIONS DEFAULT_RATE_LIMIT DEFAULT_RATE_WINDOW_MS DEFAULT_SLOWLORIS_MS DEFAULT_MAX_BODY_SIZE
    DEFAULT_BURST_CAP DEFAULT_BURST_REFILL None 0.

(** The readers: a gate stored in 64 bits is read back at its own width. *)
Definition max_connections (c : Config) : Z := wrap 32 (MAX_CONNECTIONS c).
Definition rate_limit (c : Config) : Z := wrap 32 (RATE_LIMIT c).
Definition burst_cap (c : Config) : Z := wrap 32 (BURST_CAP c).
Definition burst_refill (c : Config) : Z := wrap 32 (BURST_REFILL c).
Definition max_body_size (c : Config) : Z := wrap USIZE (MAX_BODY_SIZE c).
Definition rate_window (c : Config) : Z := Z.max (RATE_WINDOW_MS c) 1.
Definition slowloris_timeout (c : Config) : Z := SLOWLORIS_MS c.
Definition raw_text (c : Config) : bytes := RAW c.
Definition generation (c : Config) : Z := GENERATION c.
Definition get (c : Config) : option Deployment := CELL c.

(** One store each, in the order of [set_raw]. *)
Inductive Store :=
  | StRaw (b : bytes) | StMaxConnections (v : Z) | StRateLimit (v : Z) | StRateWindow (v : Z) | StSlowloris (v : Z)
  | StMaxBodySize (v : Z) | StBurstCap (v : Z) | StBurstRefill (v : Z).

#[export] Instance Store_eq_dec : EqDecision Store.
Proof. solve_decision. Defined.

Definition store (s : Store) (c : Config) : Config :=
  let '(mkConfig raw mc rl rw sl mb bc br ce ge) := c in
  match s with
  | StRaw b => mkConfig b mc rl rw sl mb bc br ce ge
  | StMaxConnections v => mkConfig raw v rl rw sl mb bc br ce ge
  | StRateLimit v => mkConfig raw mc v rw sl mb bc br ce ge
  | StRateWindow v => mkConfig raw mc rl v sl mb bc br ce ge
  | StSlowloris v => mkConfig raw mc rl rw v mb bc br ce ge
  | StMaxBodySize v => mkConfig raw mc rl rw sl v bc br ce ge
  | StBurstCap v => mkConfig raw mc rl rw sl mb v br ce ge
  | StBurstRefill v => mkConfig raw mc rl rw sl mb bc v ce ge
  end.

Definition raw_stores (text : bytes) : list Store :=
  let d := scan_dos_directives text in
  [StRaw text; StMaxConnections (scan_max_connections text); StRateLimit (d_rate d); StRateWindow (d_window_ms d);
   StSlowloris (d_slow_ms d); StMaxBodySize (d_max_body d); StBurstCap (d_burst_cap d); StBurstRefill (d_burst_refill d)].

Definition set_raw (text : bytes) (c : Config) : Config := foldl (fun c s => store s c) c (raw_stores text).

(** ** The deployment *)
Record Projection := mkProjection { p_lb : option Z; p_routes : Z; p_l4 : list bytes; p_vproxy : list bytes }.

Definition projection_line (p : Projection) (line : bytes) : Projection :=
  let '(mkProjection lb routes l4 vproxy) := p in
  match strip_prefix (bs "lb" ++ [TAB]) line with
  | Some b => mkProjection (parse_uint 8 b) routes l4 vproxy
  | None =>
      match strip_prefix (bs "routes" ++ [TAB]) line with
      | Some n => mkProjection lb (default 0 (parse_uint 32 n)) l4 vproxy
      | None =>
          match strip_prefix (bs "vproxy" ++ [TAB]) line with
          | Some h => mkProjection lb routes l4 (vec_push vproxy h)
          | None => if bool_decide (line = []) then p else mkProjection lb routes (vec_push l4 line) vproxy
          end
      end
  end.

Definition read_projection (out : bytes) : Projection := foldl projection_line (mkProjection None 0 [] []) (str_lines (from_utf8_lossy out)).

Inductive Reason := CannotRead | ServeThreadGone | DidNotParse | NoLbPolicy.

#[export] Instance Reason_eq_dec : EqDecision Reason.
Proof. solve_decision. Defined.

Inductive ReloadOutcome := Applied (generation : Z) | KeptOld (reason : Reason) | NoConfig.

#[export] Instance ReloadOutcome_eq_dec : EqDecision ReloadOutcome.
Proof. solve_decision. Defined.

(** The parser's answer, for the text that crossed. *)
Definition deployment_of (text out : bytes) : result Deployment Reason :=
  if bool_decide (out = []) then Err DidNotParse
  else
    let p := read_projection out in
    match p_lb p with
    | Some lb => Ok (mkDeployment lb (p_l4 p) text (p_routes p) (p_vproxy p))
    | None => Err NoLbPolicy
    end.

Section loading.
Context (call_deployment : bytes -> option bytes).

(** [file] is what reading the path gives. *)
Definition parse_text (text : bytes) : result Deployment Reason :=
  match call_deployment text with Some out => deployment_of text out | None => Err ServeThreadGone end.

Definition parse_from_path (file : option bytes) : result Deployment Reason :=
  match file with Some text => parse_text text | None => Err CannotRead end.

Definition set_raw_file (file : option bytes) (c : Config) : Config := match file with Some b => set_raw b c | None => c end.

Definition set_cell (d : Deployment) (c : Config) : Config :=
  let '(mkConfig raw mc rl rw sl mb bc br _ ge) := c in mkConfig raw mc rl rw sl mb bc br (Some d) ge.
Definition set_generation (g : Z) (c : Config) : Config :=
  let '(mkConfig raw mc rl rw sl mb bc br ce _) := c in mkConfig raw mc rl rw sl mb bc br ce g.

(** The file is read twice, for the gates and for the parser: [file1] and
    [file2]. [var] is whether [DRORB_CONFIG] is set. *)
Definition load (var : bool) (file1 file2 : option bytes) (c : Config) : Config :=
  if negb var then c
  else
    let c1 := set_raw_file file1 c in
    match parse_from_path file2 with Ok dep => set_generation 1 (set_cell dep c1) | Err _ => c1 end.

Definition reload (var : bool) (file1 file2 : option bytes) (c : Config) : ReloadOutcome * Config :=
  if negb var then (NoConfig, c)
  else
    let c1 := set_raw_file file1 c in
    match parse_from_path file2 with
    | Ok dep =>
        let c2 := set_cell dep c1 in
        let g := wrapping_add 64 (GENERATION c2) 1 in
        (Applied g, set_generation g c2)
    | Err reason => (KeptOld reason, c1)
    end.
End loading.

(** ** What the gates are *)
Definition text_lines (text : bytes) : list bytes := str_lines (from_utf8_lossy text).

(** The last well-formed directive of that name, or the default. *)
Definition last_directive (w : Z) (name : string) (d : Z) (text : bytes) : Z := default d (last (omap (directive w name) (text_lines text))).

Lemma foldl_last {A B} (f : A -> option B) (d : B) (l : list A) :
  foldl (fun a x => default a (f x)) d l = default d (last (omap f l)).
Proof.
  induction l as [|x l IH] using rev_ind; [done|]. rewrite foldl_app, omap_app. cbn.
  destruct (f x) as [v|] eqn:E; cbn; [by rewrite last_snoc|]. by rewrite app_nil_r.
Qed.

Lemma foldl_project {A B C} (p : B -> C) (f : B -> A -> B) (g : C -> A -> C) b l :
  (forall b x, p (f b x) = g (p b) x) -> p (foldl f b l) = foldl g (p b) l.
Proof. intros H. revert b. induction l as [|x l IH]; intros b; cbn; [done|]. by rewrite IH, H. Qed.

Ltac by_keyword :=
  intros [? ? ? ? ? ?] ?; unfold dos_line, directive; repeat case_match; try done;
  repeat match goal with H : bytes_eqb _ _ = true |- _ => apply bytes_eqb_eq in H; subst end; try done; try congruence.

Lemma scan_rate text : d_rate (scan_dos_directives text) = last_directive 32 "rate-limit" DEFAULT_RATE_LIMIT text.
Proof. unfold scan_dos_directives, last_directive. rewrite <- foldl_last. apply (foldl_project d_rate). by_keyword. Qed.

Lemma scan_slow text : d_slow_ms (scan_dos_directives text) = last_directive 64 "slowloris-timeout" DEFAULT_SLOWLORIS_MS text.
Proof. unfold scan_dos_directives, last_directive. rewrite <- foldl_last. apply (foldl_project d_slow_ms). by_keyword. Qed.

Lemma scan_body text : d_max_body (scan_dos_directives text) = last_directive 64 "max-body-size" DEFAULT_MAX_BODY_SIZE text.
Proof. unfold scan_dos_directives, last_directive. rewrite <- foldl_last. apply (foldl_project d_max_body). by_keyword. Qed.

Lemma scan_burst_cap text : d_burst_cap (scan_dos_directives text) = last_directive 32 "burst-cap" DEFAULT_BURST_CAP text.
Proof. unfold scan_dos_directives, last_directive. rewrite <- foldl_last. apply (foldl_project d_burst_cap). by_keyword. Qed.

Lemma scan_burst_refill text : d_burst_refill (scan_dos_directives text) = last_directive 32 "burst-refill" DEFAULT_BURST_REFILL text.
Proof. unfold scan_dos_directives, last_directive. rewrite <- foldl_last. apply (foldl_project d_burst_refill). by_keyword. Qed.

Lemma scan_window text : d_window_ms (scan_dos_directives text) = Z.max (last_directive 64 "rate-window" DEFAULT_RATE_WINDOW_MS text) 1.
Proof.
  unfold scan_dos_directives, last_directive. rewrite <- foldl_last.
  rewrite (foldl_project d_window_ms _ (fun a l => default a ((fun v => Z.max v 1) <$> directive 64 "rate-window" l))) by by_keyword.
  symmetry. apply (foldl_project (fun v => Z.max v 1)). intros b x. by destruct (directive _ _ x).
Qed.

Lemma scan_connections text : scan_max_connections text = last_directive 32 "max-connections" DEFAULT_MAX_CONNECTIONS text.
Proof. apply foldl_last. Qed.

Lemma directive_fits w name line n : 0 <= w -> directive w name line = Some n -> fits w n.
Proof. intros Hw. unfold directive. repeat case_match; try done. by apply parse_uint_fits. Qed.

Lemma last_directive_fits w name d text : 0 <= w -> fits w d -> fits w (last_directive w name d text).
Proof.
  intros Hw Hd. unfold last_directive. destruct (last _) as [v|] eqn:E; [|done].
  apply last_Some_elem_of, list_elem_of_omap in E as (line & _ & Hl). by eapply directive_fits.
Qed.

(** Setting the raw text sets every gate to its last well-formed directive,
    and nothing else; the stored width loses nothing. *)
Lemma set_raw_gates text c :
  let c' := set_raw text c in
  raw_text c' = text /\ get c' = get c /\ generation c' = generation c /\
  max_connections c' = last_directive 32 "max-connections" DEFAULT_MAX_CONNECTIONS text /\
  rate_limit c' = last_directive 32 "rate-limit" DEFAULT_RATE_LIMIT text /\
  rate_window c' = Z.max (last_directive 64 "rate-window" DEFAULT_RATE_WINDOW_MS text) 1 /\
  slowloris_timeout c' = last_directive 64 "slowloris-timeout" DEFAULT_SLOWLORIS_MS text /\
  max_body_size c' = last_directive 64 "max-body-size" DEFAULT_MAX_BODY_SIZE text /\
  burst_cap c' = last_directive 32 "burst-cap" DEFAULT_BURST_CAP text /\
  burst_refill c' = last_directive 32 "burst-refill" DEFAULT_BURST_REFILL text.
Proof.
  cbn zeta. destruct c. unfold set_raw, raw_stores. cbn [foldl store].
  unfold max_connections, rate_limit, rate_window, slowloris_timeout, max_body_size, burst_cap, burst_refill, raw_text, get, generation.
  cbn [RAW MAX_CONNECTIONS RATE_LIMIT RATE_WINDOW_MS SLOWLORIS_MS MAX_BODY_SIZE BURST_CAP BURST_REFILL CELL GENERATION].
  rewrite scan_rate, scan_slow, scan_body, scan_burst_cap, scan_burst_refill, scan_window, scan_connections.
  rewrite !wrap_small by (apply last_directive_fits; (lia || done)). repeat split; lia.
Qed.

(** ** The operator's directives *)
Definition directive_line (name : string) (n : Z) : bytes := bs name ++ 32 :: to_dec n ++ [LF].

(** A name the grammar can spell: printable and not empty. *)
Definition keyword (name : string) : Prop := forallb graphic (bs name) = true /\ bs name <> [].

Lemma to_dec_graphic n : forallb graphic (to_dec n) = true.
Proof.
  apply forallb_forall. intros b Hb%list_elem_of_In. destruct (to_dec_digits n) as [H _]. rewrite Forall_forall in H.
  specialize (H b Hb). unfold graphic. lia.
Qed.

Lemma graphic_ascii l : forallb graphic l = true -> ascii_text l.
Proof. intros H. apply Forall_forall. intros b Hb%list_elem_of_In. rewrite forallb_forall in H. specialize (H b Hb). unfold graphic in H. lia. Qed.

Lemma graphic_not b l : forallb graphic l = true -> graphic b = false -> b ∉ l.
Proof. intros H Hb Hl%list_elem_of_In. rewrite forallb_forall in H. specialize (H b Hl). congruence. Qed.

Lemma directive_line_text name n : keyword name -> text_lines (directive_line name n) = [bs name ++ 32 :: to_dec n].
Proof.
  intros [Hk Hne]. pose proof (to_dec_graphic n) as Hd. destruct (to_dec_digits n) as [_ Hn].
  unfold text_lines, directive_line. rewrite from_utf8_lossy_ascii.
  - rewrite app_comm_cons, app_assoc. apply str_lines_one.
    + apply not_elem_of_app. split; [by apply graphic_not|]. apply not_elem_of_cons. split; [done|by apply graphic_not].
    + rewrite last_app. cbn [last]. destruct (to_dec n) as [|x l] eqn:E; [done|]. rewrite last_cons_cons.
      destruct (last (x :: l)) as [y|] eqn:El; [|by apply last_None in El]. apply last_Some_elem_of in El.
      intros [= ->]. by apply (graphic_not CR) in El.
  - apply Forall_app. split; [by apply graphic_ascii|]. constructor; [lia|]. apply Forall_app. split; [by apply graphic_ascii|].
    constructor; [|constructor]. unfold LF. lia.
Qed.

Lemma directive_one w name name' n :
  keyword name -> 0 <= n <= max_uint w -> directive w name' (bs name ++ 32 :: to_dec n) = if bytes_eqb (bs name) (bs name') then Some n else None.
Proof.
  intros [Hk Hne] Hn. unfold directive. destruct (to_dec_digits n) as [_ Hd].
  rewrite split_whitespace_two by (done || apply to_dec_graphic). by rewrite parse_to_dec.
Qed.

(** ** Settings, printed and read back *)
Inductive Gate := GConnections | GRate | GWindow | GSlowloris | GBody | GBurstCap | GBurstRefill.

#[export] Instance Gate_eq_dec : EqDecision Gate.
Proof. solve_decision. Defined.

Definition gate_name (g : Gate) : string :=
  match g with
  | GConnections => "max-connections" | GRate => "rate-limit" | GWindow => "rate-window" | GSlowloris => "slowloris-timeout"
  | GBody => "max-body-size" | GBurstCap => "burst-cap" | GBurstRefill => "burst-refill"
  end.

Definition gate_width (g : Gate) : Z := match g with GWindow | GSlowloris | GBody => 64 | _ => 32 end.

Definition gate_default (g : Gate) : Z :=
  match g with
  | GConnections => DEFAULT_MAX_CONNECTIONS | GRate => DEFAULT_RATE_LIMIT | GWindow => DEFAULT_RATE_WINDOW_MS
  | GSlowloris => DEFAULT_SLOWLORIS_MS | GBody => DEFAULT_MAX_BODY_SIZE | GBurstCap => DEFAULT_BURST_CAP | GBurstRefill => DEFAULT_BURST_REFILL
  end.

(** What the rest of the host reads. *)
Definition gate (g : Gate) : Config -> Z :=
  match g with
  | GConnections => max_connections | GRate => rate_limit | GWindow => rate_window | GSlowloris => slowloris_timeout
  | GBody => max_body_size | GBurstCap => burst_cap | GBurstRefill => burst_refill
  end.

(** A window has a positive width. *)
Definition effective (g : Gate) (v : Z) : Z := match g with GWindow => Z.max v 1 | _ => v end.

Definition gate_in (g : Gate) (text : bytes) : Z := last_directive (gate_width g) (gate_name g) (gate_default g) text.

Lemma set_raw_gate g text c : gate g (set_raw text c) = effective g (gate_in g text).
Proof. pose proof (set_raw_gates text c) as H. cbn zeta in H. destruct_and! H. by destruct g. Qed.

Lemma gate_keyword g : keyword (gate_name g).
Proof. by destruct g. Qed.

Lemma gate_name_inj g g' : bs (gate_name g) = bs (gate_name g') -> g = g'.
Proof. by destruct g, g'. Qed.

Definition setting_line '((g, n) : Gate * Z) : bytes := directive_line (gate_name g) n.
Definition render_settings (l : list (Gate * Z)) : bytes := concat (setting_line <$> l).

Definition setting_ok '((g, n) : Gate * Z) : Prop := 0 <= n <= max_uint (gate_width g).

(** The last value given for a gate. *)
Definition setting (g : Gate) (l : list (Gate * Z)) : option Z := last (omap (fun '(g', n) => if decide (g' = g) then Some n else None) l).

Lemma text_lines_settings l :
  text_lines (render_settings l) = (fun '(g, n) => bs (gate_name g) ++ 32 :: to_dec n) <$> l.
Proof.
  induction l as [|[g n] l IH]; [done|]. unfold text_lines, render_settings in *. cbn [fmap list_fmap concat].
  unfold setting_line at 1, directive_line. rewrite app_comm_cons, app_assoc, <- app_assoc. cbn [app].
  rewrite text_lines_split, IH. rewrite <- app_assoc. cbn [app].
  pose proof (directive_line_text (gate_name g) n (gate_keyword g)) as H. unfold text_lines, directive_line in H. by rewrite H.
Qed.

(** Printing settings as directives after any text and reading the whole back
    gives each gate the last value set for it, zero included, and leaves a gate
    that was not set as the text before left it. *)
Theorem settings_roundtrip t l c g :
  Forall setting_ok l ->
  gate g (set_raw (t ++ LF :: render_settings l) c) = effective g (default (gate_in g (t ++ [LF])) (setting g l)).
Proof.
  intros Hl. rewrite set_raw_gate. f_equal. unfold gate_in, last_directive at 1. unfold text_lines at 1. rewrite text_lines_split.
  fold (text_lines (render_settings l)). rewrite text_lines_settings, omap_app.
  assert (omap (directive (gate_width g) (gate_name g)) ((fun '(g, n) => bs (gate_name g) ++ 32 :: to_dec n) <$> l) =
          omap (fun '(g', n) => if decide (g' = g) then Some n else None) l) as ->.
  { induction Hl as [|[g' n] l Hn _ IH]; [done|]. cbn [fmap list_fmap omap list_omap]. rewrite IH.
    unfold setting_ok in Hn. destruct (decide (g' = g)) as [->|Hne].
    - by rewrite directive_one, bytes_eqb_refl by (done || apply gate_keyword).
    - unfold directive. destruct (to_dec_digits n) as [_ Hd], (gate_keyword g') as [Hk Hk'].
      rewrite split_whitespace_two by (done || apply to_dec_graphic). rewrite (proj2 (bytes_eqb_neq _ _)); [done|]. by intros ?%gate_name_inj. }
  unfold setting. rewrite last_app. by destruct (last (omap _ l)).
Qed.

Lemma settings_roundtrip_witness :
  gate GBody (set_raw (bs "rate-limit 7" ++ LF :: render_settings [(GBody, 5); (GWindow, 0); (GBody, 0)]) initial) = 0.
Proof.
  rewrite (settings_roundtrip (bs "rate-limit 7") [(GBody, 5); (GWindow, 0); (GBody, 0)] initial GBody); [vm_compute; reflexivity|].
  repeat constructor; vm_compute; intros; discriminate.
Defined.

(** ** Types *)
Definition untagged (line : bytes) : Prop :=
  strip_prefix (bs "lb" ++ [TAB]) line = None /\ strip_prefix (bs "routes" ++ [TAB]) line = None /\ strip_prefix (bs "vproxy" ++ [TAB]) line = None.

(** A listener line is one line, not empty and not another projection; a host
    is one line. *)
Record dep_ok (d : Deployment) : Prop := {
  do_lb : fits 8 (lb_policy d);
  do_routes : fits 32 (route_count d);
  do_l4 : Forall (fun l => (LF ∉ l) /\ l <> [] /\ untagged l) (l4_binds d);
  do_vproxy : Forall (fun h => LF ∉ h) (vproxy_hosts d)
}.

Record config_ok (c : Config) : Prop := {
  co_connections : fits 32 (MAX_CONNECTIONS c);
  co_rate : fits 32 (RATE_LIMIT c);
  co_window : fits 64 (RATE_WINDOW_MS c) /\ 0 < RATE_WINDOW_MS c;
  co_slow : fits 64 (SLOWLORIS_MS c);
  co_body : fits 64 (MAX_BODY_SIZE c);
  co_cap : fits 32 (BURST_CAP c);
  co_refill : fits 32 (BURST_REFILL c);
  co_cell : forall d, CELL c = Some d -> dep_ok d;
  co_generation : fits 64 (GENERATION c)
}.

Lemma projection_typed out :
  let p := read_projection out in
  (forall lb, p_lb p = Some lb -> fits 8 lb) /\ fits 32 (p_routes p) /\
  Forall (fun l => (LF ∉ l) /\ l <> [] /\ untagged l) (p_l4 p) /\ Forall (fun h => LF ∉ h) (p_vproxy p).
Proof.
  cbn zeta. unfold read_projection. pose proof (str_lines_no_lf (from_utf8_lossy out)) as Hlf. revert Hlf.
  generalize (str_lines (from_utf8_lossy out)) as ls. intros ls.
  induction ls as [|line ls IH] using rev_ind; intros Hlf; [by split_and!|].
  apply Forall_app in Hlf as [Hlf Hl]. apply Forall_inv in Hl. destruct (IH Hlf) as (Hlb & Hr & H4 & Hv). clear IH.
  rewrite foldl_snoc. destruct (foldl _ _ ls) as [lb routes l4 vproxy]. cbn [p_lb p_routes p_l4 p_vproxy] in *.
  unfold projection_line, vec_push.
  destruct (strip_prefix (bs "lb" ++ [TAB]) line) as [b|] eqn:E1.
  { split_and!; cbn; try done. intros n Hn. by eapply parse_uint_fits. }
  destruct (strip_prefix (bs "routes" ++ [TAB]) line) as [n|] eqn:E2.
  { split_and!; cbn; try done; destruct (parse_uint 32 n) as [v|] eqn:Ev; cbn; try apply (parse_uint_fits 32 n v); (lia || done). }
  destruct (strip_prefix (bs "vproxy" ++ [TAB]) line) as [h|] eqn:E3.
  { split_and!; cbn; try done; try apply Hr. apply Forall_app. split; [done|]. constructor; [|constructor].
    apply strip_prefix_Some in E3 as ->. by apply not_elem_of_app in Hl as [_ ?]. }
  case_bool_decide; cbn; [done|]. split_and!; try done; try apply Hr. apply Forall_app. split; [done|]. repeat constructor; done.
Qed.

Lemma deployment_typed text out d : deployment_of text out = Ok d -> dep_ok d /\ config_text d = text.
Proof.
  unfold deployment_of. case_bool_decide; [done|]. pose proof (projection_typed out) as Hp. cbn zeta in *. destruct Hp as (Hlb & Hr & H4 & Hv).
  destruct (p_lb _) as [lb|]; [|done]. intros [= <-]. split; [|done]. constructor; cbn; auto.
Qed.

Lemma parse_typed call file d : parse_from_path call file = Ok d -> dep_ok d /\ file = Some (config_text d).
Proof.
  unfold parse_from_path, parse_text. destruct file as [text|]; [|done]. destruct (call text) as [out|]; [|done].
  intros [H ->]%deployment_typed. done.
Qed.

Definition store_ok (s : Store) : Prop :=
  match s with
  | StRaw _ => True
  | StMaxConnections v | StRateLimit v | StBurstCap v | StBurstRefill v => fits 32 v
  | StRateWindow v => fits 64 v /\ 0 < v
  | StSlowloris v | StMaxBodySize v => fits 64 v
  end.

Lemma store_typed s c : store_ok s -> config_ok c -> config_ok (store s c).
Proof. intros Hs []. destruct c, s; constructor; cbn in *; done. Qed.

Lemma raw_stores_ok text : Forall store_ok (raw_stores text).
Proof.
  unfold raw_stores. rewrite scan_rate, scan_slow, scan_body, scan_burst_cap, scan_burst_refill, scan_window, scan_connections.
  repeat (apply Forall_cons_2; [cbn; try (apply last_directive_fits; (lia || done))|]); [done|..|apply Forall_nil_2].
  pose proof (last_directive_fits 64 "rate-window" DEFAULT_RATE_WINDOW_MS text ltac:(lia) ltac:(done)). unfold fits in *. lia.
Qed.

Lemma set_raw_typed text c : config_ok c -> config_ok (set_raw text c).
Proof.
  unfold set_raw. pose proof (raw_stores_ok text) as H. revert c. induction H as [|s l Hs _ IH]; intros c Hc; cbn; [done|].
  by apply IH, store_typed.
Qed.

Lemma set_cell_typed d c : dep_ok d -> config_ok c -> config_ok (set_cell d c).
Proof. intros Hd []. destruct c. constructor; cbn in *; try done. by intros ? [= <-]. Qed.

Lemma set_generation_typed g c : fits 64 g -> config_ok c -> config_ok (set_generation g c).
Proof. intros Hg []. destruct c. by constructor. Qed.

Lemma set_raw_file_typed file c : config_ok c -> config_ok (set_raw_file file c).
Proof. destruct file; [apply set_raw_typed|done]. Qed.

Definition session (call : bytes -> option bytes) (var : bool) (file1 file2 : option bytes) (h : list (option bytes * option bytes)) : Config :=
  foldl (fun c '(f1, f2) => (reload call var f1 f2 c).2) (load call var file1 file2 initial) h.

Lemma load_typed call var f1 f2 c : config_ok c -> config_ok (load call var f1 f2 c).
Proof.
  intros Hc. unfold load. destruct var; [|done]. cbn [negb]. destruct (parse_from_path call f2) as [d|] eqn:E; [|by apply set_raw_file_typed].
  apply parse_typed in E as [Hd _]. by apply set_generation_typed, set_cell_typed, set_raw_file_typed.
Qed.

Lemma reload_typed call var f1 f2 c : config_ok c -> config_ok (reload call var f1 f2 c).2.
Proof.
  intros Hc. unfold reload. destruct var; [|done]. cbn [negb]. destruct (parse_from_path call f2) as [d|] eqn:E; [|by apply set_raw_file_typed].
  apply parse_typed in E as [Hd _]. cbn [snd]. apply set_generation_typed; [apply wrap_fits; lia|]. by apply set_cell_typed, set_raw_file_typed.
Qed.

Lemma initial_typed : config_ok initial.
Proof. by constructor. Qed.

Lemma gate_typed c g : config_ok c -> fits (gate_width g) (gate g c).
Proof.
  intros []. destruct g; cbn; unfold max_connections, rate_limit, max_body_size, burst_cap, burst_refill, rate_window, slowloris_timeout;
    try (apply wrap_fits; (lia || done)); unfold fits in *; lia.
Qed.

(** Whatever the files hold and the parser answers, at boot and over any reloads:
    every gate is a number of its width (so reading one back at 32 bits loses
    nothing), the rate window is never empty, and the deployment in force has a
    policy byte, a route count, and one listener or host per line. *)
Lemma config_typed call var file1 file2 h :
  let c := session call var file1 file2 h in
  config_ok c /\ (forall g, fits (gate_width g) (gate g c)) /\
  max_connections c = MAX_CONNECTIONS c /\ rate_limit c = RATE_LIMIT c /\ burst_cap c = BURST_CAP c /\ burst_refill c = BURST_REFILL c /\
  max_body_size c = MAX_BODY_SIZE c /\ rate_window c = RATE_WINDOW_MS c.
Proof.
  cbn zeta. assert (config_ok (session call var file1 file2 h)) as Hc.
  { unfold session. induction h as [|[f1 f2] h IH] using rev_ind; [apply load_typed, initial_typed|].
    rewrite foldl_snoc. by apply reload_typed. }
  split; [done|]. split; [intros g; by apply gate_typed|]. destruct Hc.
  unfold max_connections, rate_limit, burst_cap, burst_refill, max_body_size, rate_window. rewrite !wrap_small by done. repeat split; lia.
Qed.

(** ** The projection, printed and read back *)
Definition line_of (l : bytes) : Prop := utf8_valid l = true /\ (LF ∉ l) /\ last l <> Some CR.

Lemma text_lines_cons l u : line_of l -> text_lines (l ++ LF :: u) = l :: text_lines u.
Proof.
  intros (Hv & Hl & Hc). unfold text_lines. rewrite text_lines_split. rewrite (from_utf8_lossy_split LF [] (length l)) by (unfold LF; lia).
  rewrite from_utf8_lossy_valid by done. change (from_utf8_lossy []) with (@nil Z). by rewrite (str_lines_one l).
Qed.

Definition tagged (tag : string) (v : bytes) : bytes := bs tag ++ TAB :: v.

Definition projection_lines (d : Deployment) : list bytes :=
  tagged "lb" (to_dec (lb_policy d)) :: tagged "routes" (to_dec (route_count d)) :: (tagged "vproxy" <$> vproxy_hosts d) ++ l4_binds d.

Definition render_projection (d : Deployment) : bytes := concat ((fun l => l ++ [LF]) <$> projection_lines d).

Lemma text_lines_render ls : Forall line_of ls -> text_lines (concat ((fun l => l ++ [LF]) <$> ls)) = ls.
Proof.
  induction 1 as [|l ls Hl _ IH]; [done|]. cbn [fmap list_fmap concat]. rewrite <- app_assoc. cbn [app]. rewrite text_lines_cons by done. by rewrite IH.
Qed.

Lemma projection_tags lb n l4 vs v :
  projection_line (mkProjection lb n l4 vs) (tagged "lb" v) = mkProjection (parse_uint 8 v) n l4 vs /\
  projection_line (mkProjection lb n l4 vs) (tagged "routes" v) = mkProjection lb (default 0 (parse_uint 32 v)) l4 vs /\
  projection_line (mkProjection lb n l4 vs) (tagged "vproxy" v) = mkProjection lb n l4 (vs ++ [v]).
Proof. done. Qed.

Lemma projection_vproxy lb n l4 vs hs : foldl projection_line (mkProjection lb n l4 vs) (tagged "vproxy" <$> hs) = mkProjection lb n l4 (vs ++ hs).
Proof.
  revert vs. induction hs as [|h hs IH]; intros vs; cbn [fmap list_fmap foldl]; [by rewrite app_nil_r|].
  rewrite (proj2 (proj2 (projection_tags lb n l4 vs h))), IH. by rewrite <- app_assoc.
Qed.

Lemma projection_l4 lb n l4 vs ls :
  Forall (fun l => l <> [] /\ untagged l) ls -> foldl projection_line (mkProjection lb n l4 vs) ls = mkProjection lb n (l4 ++ ls) vs.
Proof.
  intros H. revert l4. induction H as [|l ls [Hne (H1 & H2 & H3)] _ IH]; intros l4; cbn [foldl]; [by rewrite app_nil_r|].
  unfold projection_line at 2. rewrite H1, H2, H3, bool_decide_eq_false_2 by done. rewrite IH. unfold vec_push. by rewrite <- app_assoc.
Qed.

Lemma to_dec_line n : line_of (to_dec n).
Proof.
  pose proof (to_dec_graphic n) as H. split_and!; [|by apply graphic_not|].
  - apply graphic_ascii in H. induction H as [|b l Hb _ IH]; [done|]. cbn. by rewrite (proj2 (Z.ltb_lt b 128)) by lia.
  - intros Hl%last_Some_elem_of. by apply (graphic_not CR) in Hl.
Qed.

Lemma tagged_line tag v : tag = "lb"%string \/ tag = "routes"%string \/ tag = "vproxy"%string -> line_of v -> line_of (tagged tag v).
Proof.
  intros Ht (Hv & Hl & Hc). unfold tagged. split_and!.
  - by destruct Ht as [->|[-> | ->]].
  - apply not_elem_of_app. split; [|by apply not_elem_of_cons]. apply graphic_not; [|done]. by destruct Ht as [->|[-> | ->]].
  - rewrite last_app, last_cons. by destruct (last v).
Qed.

(** Every deployment whose lines are lines is read back from its projection:
    the policy, the routes, the hosts and the listeners in order. *)
Theorem projection_roundtrip d :
  dep_ok d -> Forall line_of (l4_binds d) -> Forall line_of (vproxy_hosts d) ->
  deployment_of (config_text d) (render_projection d) = Ok d.
Proof.
  intros [Hlb Hr H4 _] Hl4 Hv. destruct d as [lb l4 text routes vs]. cbn [lb_policy l4_binds config_text route_count vproxy_hosts] in *.
  set (d := mkDeployment lb l4 text routes vs). unfold deployment_of. rewrite bool_decide_eq_false_2 by done. unfold read_projection.
  fold (text_lines (render_projection d)). unfold render_projection. rewrite text_lines_render.
  - subst d. unfold projection_lines. cbn [lb_policy l4_binds config_text route_count vproxy_hosts foldl]. rewrite foldl_app.
    rewrite (proj1 (projection_tags _ _ _ _ _)), (proj1 (proj2 (projection_tags _ _ _ _ _))).
    rewrite !parse_to_dec by (unfold fits, max_uint in *; lia). rewrite projection_vproxy, projection_l4; [done|].
    eapply Forall_impl; [exact H4|]. naive_solver.
  - subst d. unfold projection_lines. repeat constructor; try (apply tagged_line; [tauto|apply to_dec_line]).
    apply Forall_app. split; [|done]. apply Forall_fmap. eapply Forall_impl; [exact Hv|]. intros h Hh. apply tagged_line; [tauto|done].
Qed.

Definition sample_deployment : Deployment := mkDeployment 3 [bs "0.0.0.0:9000" ++ TAB :: bs "p"] (bs "pool p") 2 [bs "a.example"; bs ""].

Lemma projection_roundtrip_witness :
  deployment_of (bs "pool p") (render_projection sample_deployment) = Ok sample_deployment.
Proof.
  apply (projection_roundtrip sample_deployment); [constructor; try done; repeat constructor; try done; by vm_compute; set_solver|..];
    repeat constructor; try done; by vm_compute; set_solver.
Defined.

(** ** What is in force

    The linked parser, as what it answers: for a text it accepts, the projection
    of a deployment whose lines are lines, and nothing for one it does not. *)
Definition describes (call : bytes -> option bytes) (parser : bytes -> option Deployment) : Prop :=
  forall text, match parser text with
               | Some d => dep_ok d /\ config_text d = text /\ Forall line_of (l4_binds d) /\ Forall line_of (vproxy_hosts d) /\ call text = Some (render_projection d)
               | None => call text = Some [] \/ call text = None
               end.

Lemma describes_parse call parser f : describes call parser ->
  match f ≫= parser with Some d => parse_from_path call f = Ok d | None => exists r, parse_from_path call f = Err r end.
Proof.
  intros H. destruct f as [text|]; [|by eexists]. cbn. unfold parse_text. specialize (H text). destruct (parser text) as [d|].
  - destruct H as (Hd & <- & Hl & Hv & ->). by apply projection_roundtrip.
  - destruct H as [-> | ->]; by eexists.
Qed.

(** One reading of the two files, at boot or at a reload. *)
Lemma reload_in_force call parser f1 f2 c : describes call parser ->
  let c' := (reload call true f1 f2 c).2 in
  get c' = match f2 ≫= parser with Some d => Some d | None => get c end /\
  generation c' = match f2 ≫= parser with Some _ => wrapping_add 64 (generation c) 1 | None => generation c end /\
  raw_text c' = default (raw_text c) f1 /\ (forall g, gate g c' = match f1 with Some t => effective g (gate_in g t) | None => gate g c end).
Proof.
  intros H. cbn zeta. pose proof (describes_parse call parser f2 H) as Hp. unfold reload. cbn [negb].
  assert (get (set_raw_file f1 c) = get c /\ generation (set_raw_file f1 c) = generation c /\ raw_text (set_raw_file f1 c) = default (raw_text c) f1 /\
    forall g, gate g (set_raw_file f1 c) = match f1 with Some t => effective g (gate_in g t) | None => gate g c end) as (H1 & H2 & H3 & H4).
  { destruct f1 as [t|]; [|done]. cbn [set_raw_file default]. pose proof (set_raw_gates t c) as Hg. cbn zeta in Hg. split_and!; [naive_solver..|]. intros g. apply set_raw_gate. }
  destruct (set_raw_file f1 c) as [raw mc rl rw sl mb bc br ce ge]. destruct (f2 ≫= parser) as [d|].
  - rewrite Hp. cbn. cbn in H2. rewrite <- H2. split_and!; [done|done|done|]. intros g. specialize (H4 g). by destruct g.
  - destruct Hp as [r ->]. done.
Qed.

Lemma load_is_reload call f1 f2 : load call true f1 f2 initial = (reload call true f1 f2 initial).2.
Proof.
  unfold load, reload. cbn [negb]. destruct (parse_from_path call f2) as [d|]; [|done]. cbn [snd]. f_equal.
  destruct f1 as [t|]; [|done]. cbn [set_raw_file]. pose proof (set_raw_gates t initial) as H. cbn zeta in H. destruct_and! H.
  destruct (set_raw t initial). cbn in *. by subst.
Qed.


(** A parser that accepts one text, and the file over a boot and two reloads, of
    which the first is rejected and sets a gate. *)
Definition demo_parser (text : bytes) : option Deployment := if bytes_eqb text (bs "pool p") then Some sample_deployment else None.
Definition demo_call (text : bytes) : option bytes := Some (match demo_parser text with Some d => render_projection d | None => [] end).

Lemma demo_describes : describes demo_call demo_parser.
Proof.
  intros text. unfold demo_call. destruct (demo_parser text) as [d|] eqn:E; [|by left]. unfold demo_parser in E.
  destruct (bytes_eqb text (bs "pool p")) eqn:Et; [|done]. apply bytes_eqb_eq in Et. injection E as <-.
  split_and!; [constructor; try done; repeat constructor; try done; by vm_compute; set_solver|done|repeat constructor; try done; by vm_compute; set_solver|repeat constructor; try done; by vm_compute; set_solver|done].
Qed.


(** ** Virtual hosts *)
Lemma host_header_block ls body : forall fuel,
  Forall line_ok ls -> (length ls < fuel)%nat -> host_header_loop fuel (block ls ++ CRLF ++ body) = mjoin (first_some host_line ls).
Proof.
  induction ls as [|l ls IH]; intros [|fuel] Hls Hf; cbn [length] in Hf; try lia; [done|].
  apply Forall_cons in Hls as [[Hl Hne] Hls]. rewrite block_cons. cbn [host_header_loop]. rewrite first_line_app by done.
  destruct (length l) as [|k] eqn:E; [by destruct l|]. rewrite <- E. rewrite take_app_length.
  cbn [first_some]. destruct (host_line l) as [r|]; [done|].
  replace (length l + 2)%nat with (length (l ++ CRLF)) by (rewrite length_app; cbn; lia). rewrite app_assoc, drop_app_length. apply IH; [done|lia].
Qed.

Lemma block_length ls y : (length ls <= length (block ls ++ y))%nat.
Proof. induction ls as [|l ls IH]; [cbn; lia|]. rewrite block_cons, !length_app. cbn [length CRLF]. rewrite length_app in *. lia. Qed.

(** The request's host is the value of its first [Host] line; a request is
    proxied by virtual host exactly when that value is one of the hosts. *)
Theorem vhost_is_first_host d line0 ls body :
  first_line line0 -> Forall line_ok ls ->
  let req := line0 ++ CRLF ++ block ls ++ CRLF ++ body in
  host_header req = mjoin (first_some host_line ls) /\
  (is_vhost_proxy d req = true <-> exists h, mjoin (first_some host_line ls) = Some h /\ h ∈ vproxy_hosts d).
Proof.
  intros H0 Hls req. assert (host_header req = mjoin (first_some host_line ls)) as Hh.
  { subst req. unfold host_header. rewrite first_line_app by done. cbn [mbind option_bind].
    replace (length line0 + 2)%nat with (length (line0 ++ CRLF)) by (rewrite length_app; cbn; lia). rewrite app_assoc, drop_app_length.
    apply host_header_block; [done|]. pose proof (block_length ls (CRLF ++ body)). rewrite length_app, length_app. cbn [length CRLF]. lia. }
  split; [done|]. unfold is_vhost_proxy. rewrite Hh. case_bool_decide as Hv; [rewrite Hv; split; [done|]; intros (h & _ & Hin); by apply elem_of_nil in Hin|].
  destruct (mjoin _) as [h|]; [|split; [done|naive_solver]]. rewrite existsb_exists. split.
  - intros (v & Hin & ->%bytes_eqb_eq). exists h. by rewrite list_elem_of_In.
  - intros (h' & [= <-] & Hin). exists h. rewrite <- list_elem_of_In, bytes_eqb_refl. done.
Qed.

Example vhost_port_dropped :
  host_header (bs "GET / HTTP/1.1" ++ CRLF ++ bs "HOST:  a.example:8080 " ++ CRLFCRLF) = Some (bs "a.example").
Proof. reflexivity. Qed.

(** An address literal is cut at its first colon. *)
Example vhost_ipv6_cut : host_header (bs "GET / HTTP/1.1" ++ CRLF ++ bs "Host: [::1]:8080" ++ CRLFCRLF) = Some (bs "[").
Proof. reflexivity. Qed.

(** ** One reload *)

(** A rejected reload keeps the deployment and its generation. *)
Lemma reload_kept call var f1 f2 c r :
  (reload call var f1 f2 c).1 = KeptOld r -> get (reload call var f1 f2 c).2 = get c /\ generation (reload call var f1 f2 c).2 = generation c.
Proof.
  unfold reload. destruct var; [|done]. cbn [negb]. destruct (parse_from_path call f2); [done|]. intros _. cbn [snd]. destruct f1 as [t|]; [|done].
  pose proof (set_raw_gates t c) as H. cbn zeta in H. naive_solver.
Qed.

(** The gates have moved, though, and so has the raw text. *)
Example rejected_reload_moves_gates :
  let '(outcome, c) := reload (fun _ => Some []) true (Some (bs "max-body-size 0" ++ LF :: bs "not a route")) (Some (bs "not a route")) initial in
  outcome = KeptOld DidNotParse /\ max_body_size initial = 134217728 /\ max_body_size c = 0.
Proof. vm_compute. done. Qed.
