(* ===== verification/Reload.v ===== *)
(** * Reconfiguration at run time

    [reconfig.rs] and [config::reload], as the threads that execute them: the
    watcher, which a signal asks for a reload, and any number of admin requests,
    which reload at once. Each takes one step per atomic operation, lock, file
    read or gateway call. The file changes at any time; [fs] is what it has held
    so far, the last being what a read returns. *)
From S2P Require Import Prelude Bytes Text Config.

Local Open Scope Z_scope.

(** Where a thread stands in [reload_now]. A text read is named by its place in
    the history of the file. *)
Inductive Pc :=
  | Idle
  | Polling
  | Exited
  | Begin
  | ReadRaw
  | Storing (l : list Store)
  | ReadParse
  | Parsing (v : nat)
  | Swapping (d : Deployment)
  | Counting
  | Tally (o : ReloadOutcome)
  | Clearing (o : ReloadOutcome).

#[export] Instance Pc_eq_dec : EqDecision Pc.
Proof. solve_decision. Defined.

Record Process := mkProcess {
  cfg : Config;
  fs : list (option bytes);
  RELOAD_PENDING : bool;
  DRAINING : bool;
  DRAIN_BEGUN : bool;
  RELOADS_APPLIED : Z;
  RELOADS_REJECTED : Z;
  SHUTDOWN : bool;
  serve_up : bool;
  watcher : Pc;
  admins : list Pc;
  snapshots : list (option Deployment)
}.

Inductive Thread := Watcher | Admin (i : nat).

#[export] Instance Thread_eq_dec : EqDecision Thread.
Proof. solve_decision. Defined.

Inductive Label :=
  | LWrite (f : option bytes) | LSighup | LShutdown | LServeGone | LBeginDrain | LGet
  | LRequest (i : nat)
  | LStep (t : Thread).

Definition pc (s : Process) (t : Thread) : option Pc := match t with Watcher => Some (watcher s) | Admin i => admins s !! i end.

Definition set_pc (t : Thread) (p : Pc) (s : Process) : Process :=
  let '(mkProcess c f rp dr db ra rr sd up w ad sn) := s in
  match t with
  | Watcher => mkProcess c f rp dr db ra rr sd up p ad sn
  | Admin i => mkProcess c f rp dr db ra rr sd up w (<[i := p]> ad) sn
  end.

Definition set_cfg (c : Config) (s : Process) : Process :=
  let '(mkProcess _ f rp dr db ra rr sd up w ad sn) := s in mkProcess c f rp dr db ra rr sd up w ad sn.
Definition set_pending (b : bool) (s : Process) : Process :=
  let '(mkProcess c f _ dr db ra rr sd up w ad sn) := s in mkProcess c f b dr db ra rr sd up w ad sn.
Definition set_draining (b : bool) (s : Process) : Process :=
  let '(mkProcess c f rp _ db ra rr sd up w ad sn) := s in mkProcess c f rp b db ra rr sd up w ad sn.

Definition on_sighup (s : Process) : Process := set_pending true s.

Definition draining (s : Process) : bool := DRAINING s || DRAIN_BEGUN s.
Definition drain_begun (s : Process) : bool := DRAIN_BEGUN s.
Definition reloads_applied (s : Process) : Z := RELOADS_APPLIED s.
Definition reloads_rejected (s : Process) : Z := RELOADS_REJECTED s.

(** Whether this call began it. *)
Definition begin_drain (s : Process) : bool * Process :=
  let '(mkProcess c f rp dr db ra rr sd up w ad sn) := s in (negb db, mkProcess c f rp dr true ra rr sd up w ad sn).

Definition file_at (s : Process) (v : nat) : option bytes := default None (fs s !! v).
Definition now (s : Process) : nat := (length (fs s) - 1)%nat.

Definition tally (o : ReloadOutcome) (s : Process) : Process :=
  let '(mkProcess c f rp dr db ra rr sd up w ad sn) := s in
  match o with
  | Applied _ => mkProcess c f rp dr db (wrapping_add 64 ra 1) rr sd up w ad sn
  | KeptOld _ => mkProcess c f rp dr db ra (wrapping_add 64 rr 1) sd up w ad sn
  | NoConfig => s
  end.

Section reconfig.
Context (call_deployment : bytes -> option bytes) (var : bool).

(** The answer of the linked parser while its thread runs. *)
Definition call_now (s : Process) (text : bytes) : option bytes := if serve_up s then call_deployment text else None.

(** One iteration of [watch]: the shutdown flag, then the pending flag. *)
Definition watch_step (s : Process) : option Process :=
  match watcher s with
  | Idle => Some (set_pc Watcher (if SHUTDOWN s then Exited else Polling) s)
  | Polling => Some (set_pc Watcher (if RELOAD_PENDING s then Begin else Idle) (set_pending false s))
  | _ => None
  end.

Definition reload_step (t : Thread) (s : Process) : option Process :=
  match pc s t with
  | Some Begin => Some (set_pc t (if var then ReadRaw else Tally NoConfig) (set_draining true s))
  | Some ReadRaw =>
      Some (set_pc t (match file_at s (now s) with Some text => Storing (raw_stores text) | None => ReadParse end) s)
  | Some (Storing (st :: l)) => Some (set_pc t (match l with [] => ReadParse | _ => Storing l end) (set_cfg (store st (cfg s)) s))
  | Some ReadParse => Some (set_pc t (Parsing (now s)) s)
  | Some (Parsing v) =>
      Some (set_pc t (match parse_from_path (call_now s) (file_at s v) with Ok d => Swapping d | Err r => Tally (KeptOld r) end) s)
  | Some (Swapping d) => Some (set_pc t Counting (set_cfg (set_cell d (cfg s)) s))
  | Some Counting =>
      let g := wrapping_add 64 (GENERATION (cfg s)) 1 in
      Some (set_pc t (Tally (Applied g)) (set_cfg (set_generation g (cfg s)) s))
  | Some (Tally o) => Some (set_pc t (Clearing o) (tally o s))
  | Some (Clearing _) => Some (set_pc t Idle (set_draining false s))
  | _ => None
  end.

Definition step (l : Label) (s : Process) : option Process :=
  let '(mkProcess c f rp dr db ra rr sd up w ad sn) := s in
  match l with
  | LWrite t => Some (mkProcess c (f ++ [t]) rp dr db ra rr sd up w ad sn)
  | LSighup => Some (on_sighup s)
  | LShutdown => Some (mkProcess c f rp dr db ra rr true up w ad sn)
  | LServeGone => Some (mkProcess c f rp dr db ra rr sd false w ad sn)
  | LBeginDrain => Some (begin_drain s).2
  | LGet => Some (mkProcess c f rp dr db ra rr sd up w ad (sn ++ [get c]))
  | LRequest i => match ad !! i with Some Idle => Some (set_pc (Admin i) Begin s) | _ => None end
  | LStep Watcher => match w with Idle | Polling => watch_step s | _ => reload_step Watcher s end
  | LStep t => reload_step t s
  end.

(** The process after boot: the file was [f1], then [f2], when it was loaded. *)
Definition booted (f1 f2 : option bytes) (n : nat) : Process :=
  mkProcess (load call_deployment var f1 f2 initial) [f1; f2] false false false 0 0 false true Idle (replicate n Idle) [].
End reconfig.

(** ** What holds under every interleaving *)
Section invariant.
Context (call_deployment : bytes -> option bytes) (var : bool) (f1 f2 : option bytes) (n : nat).

Local Abbreviation rstep := (step call_deployment var).
Local Abbreviation start := (booted call_deployment var f1 f2 n).

(** Accepted by the parser as it stands in the file. *)
Definition accepted (fs : list (option bytes)) (d : Deployment) : Prop := exists f, f ∈ fs /\ parse_from_path call_deployment f = Ok d.

Definition pc_ok (fs : list (option bytes)) (p : Pc) : Prop :=
  match p with
  | Storing l => l <> [] /\ (length l <= 8)%nat /\ exists text, Some text ∈ fs /\ forall st, st ∈ l -> st ∈ raw_stores text
  | Parsing v => (v < length fs)%nat
  | Swapping d => accepted fs d
  | _ => True
  end.

(** A gate is the default or read from a text the file held. *)
Definition gate_held (fs : list (option bytes)) (c : Config) (g : Gate) : Prop :=
  gate g c = gate_default g \/ exists text, Some text ∈ fs /\ gate g c = effective g (gate_in g text).

Definition tallying (p : Pc) : bool := match p with Tally (Applied _) => true | _ => false end.

Record inv (s : Process) : Prop := {
  i_cfg : config_ok (cfg s);
  i_fs : fs s <> [];
  i_raw : RAW (cfg s) = [] \/ Some (RAW (cfg s)) ∈ fs s;
  i_gates : forall g, gate_held (fs s) (cfg s) g;
  i_cell : forall d, CELL (cfg s) = Some d -> accepted (fs s) d;
  i_snap : forall d, Some d ∈ snapshots s -> accepted (fs s) d;
  i_pcs : forall t p, pc s t = Some p -> pc_ok (fs s) p;
  i_applied : fits 64 (RELOADS_APPLIED s);
  i_generation : GENERATION (cfg s) = wrap 64 (GENERATION (cfg start) + RELOADS_APPLIED s + count tallying (watcher s :: admins s));
  i_exit : watcher s = Exited -> SHUTDOWN s = true
}.

Lemma accepted_mono fs fs' d : fs ⊆ fs' -> accepted fs d -> accepted fs' d.
Proof. intros Hs (f & Hf & H). exists f. auto. Qed.

Lemma pc_ok_mono fs fs' p : fs `prefix_of` fs' -> pc_ok fs p -> pc_ok fs' p.
Proof.
  intros [k ->]. destruct p; cbn; try done.
  - intros (H1 & H2 & text & Ht & H3). split_and!; [done..|]. exists text. split; [set_solver|done].
  - rewrite length_app. lia.
  - apply accepted_mono. set_solver.
Qed.

Lemma pc_set s t t' p0 p : pc s t = Some p0 -> pc (set_pc t p s) t' = if decide (t' = t) then Some p else pc s t'.
Proof.
  destruct s as [? ? ? ? ? ? ? ? ? w ad ?], t as [|i], t' as [|j]; cbn; intros H; try done.
  destruct (decide (Admin j = Admin i)) as [[= ->]|Hne]; [by rewrite list_lookup_insert_eq by by eapply lookup_lt_Some|].
  rewrite list_lookup_insert_ne by congruence. done.
Qed.

Lemma count_set_pc s t p0 p :
  pc s t = Some p0 ->
  count tallying (watcher (set_pc t p s) :: admins (set_pc t p s)) =
    count tallying (watcher s :: admins s) - (if tallying p0 then 1 else 0) + (if tallying p then 1 else 0).
Proof.
  destruct s as [? ? ? ? ? ? ? ? ? w ad ?], t as [|i]; cbn; intros H; [simplify_eq; lia|]. rewrite (count_insert _ _ _ _ _ H). lia.
Qed.

Lemma set_pc_frame t p s :
  cfg (set_pc t p s) = cfg s /\ fs (set_pc t p s) = fs s /\ RELOADS_APPLIED (set_pc t p s) = RELOADS_APPLIED s /\
  snapshots (set_pc t p s) = snapshots s /\ SHUTDOWN (set_pc t p s) = SHUTDOWN s /\ RELOAD_PENDING (set_pc t p s) = RELOAD_PENDING s /\
  serve_up (set_pc t p s) = serve_up s.
Proof. by destruct s, t. Qed.

(** Stores act on one gate each. *)
Lemma store_gate text st c g :
  st ∈ raw_stores text ->
  (gate g (store st c) = gate g c \/ gate g (store st c) = effective g (gate_in g text)) /\
  (RAW (store st c) = RAW c \/ RAW (store st c) = text) /\ CELL (store st c) = CELL c /\ GENERATION (store st c) = GENERATION c.
Proof.
  intros Hst. pose proof (set_raw_gates text initial) as H. cbn zeta in H. destruct_and! H. destruct c.
  unfold raw_stores in Hst. set_unfold in Hst.
  destruct Hst as [->|[->|[->|[->|[->|[->|[->|[->|[]]]]]]]]]; (split; [destruct g; (by left) || (by right)|cbn; auto]).
Qed.

(** A thread moves on, over a state whose threads are those of [s]. *)
Lemma inv_move s s1 t p0 p :
  inv s -> pc s t = Some p0 ->
  watcher s1 = watcher s -> admins s1 = admins s -> fs s1 = fs s -> snapshots s1 = snapshots s -> SHUTDOWN s1 = SHUTDOWN s ->
  config_ok (cfg s1) -> (RAW (cfg s1) = [] \/ Some (RAW (cfg s1)) ∈ fs s) -> (forall g, gate_held (fs s) (cfg s1) g) ->
  (forall d, CELL (cfg s1) = Some d -> accepted (fs s) d) -> fits 64 (RELOADS_APPLIED s1) ->
  GENERATION (cfg s1) = wrap 64 (GENERATION (cfg start) + RELOADS_APPLIED s1 + count tallying (watcher s :: admins s)
                                 - (if tallying p0 then 1 else 0) + (if tallying p then 1 else 0)) ->
  pc_ok (fs s) p -> (p = Exited -> SHUTDOWN s = true) -> inv (set_pc t p s1).
Proof.
  intros [] Hp Hw Ha Hf Hs Hd Hc Hr Hg Hce Hra Hge Hpo Hx. pose proof (set_pc_frame t p s1) as (E1 & E2 & E3 & E4 & E5 & _).
  assert (forall t', pc s1 t' = pc s t') as Hpc by (intros []; cbn; congruence).
  constructor; rewrite ?E1, ?E2, ?E3, ?E4, ?E5, ?Hf, ?Hs, ?Hd; try done.
  - intros t' p'. rewrite (pc_set s1 t t' p0) by by rewrite Hpc. case_decide; [by intros [= <-]|]. rewrite Hpc. apply i_pcs0.
  - rewrite (count_set_pc s1 t p0) by by rewrite Hpc. rewrite Hw, Ha, Hge. f_equal. lia.
  - destruct s1, t; cbn in *; [done|]. by rewrite Hw.
Qed.

Lemma file_now s : fs s <> [] -> file_at s (now s) ∈ fs s.
Proof.
  intros H. unfold file_at, now. destruct (fs s !! (length (fs s) - 1)%nat) as [f|] eqn:E; [by eapply list_elem_of_lookup_2|].
  apply lookup_ge_None in E. destruct (fs s); cbn in *; [done|lia].
Qed.

Lemma reload_step_inv t s s' : inv s -> reload_step call_deployment var t s = Some s' -> inv s'.
Proof.
  intros Hi Hs. unfold reload_step in Hs. destruct (pc s t) as [p|] eqn:Hp; [|done]. pose proof Hi as [].
  destruct p as [| | | | |[|st l]| |v|d| |o|o]; simplify_eq; pose proof (i_pcs0 t _ Hp) as Hok; cbn in Hok.
  - eapply (inv_move s _ t); eauto; try (destruct s; done); [|destruct var; done..]. destruct s; cbn in *. rewrite i_generation0. f_equal. destruct var; cbn; lia.
  - pose proof (file_now s i_fs0) as Hn. eapply (inv_move s s t); eauto; [rewrite i_generation0; f_equal| |]; destruct (file_at s (now s)) as [text|] eqn:E; cbn; try done; try lia.
    split_and!; [done|lia|]. eauto.
  - destruct Hok as (_ & Hlen & text & Ht & Hst). pose proof (fun g => store_gate text st (cfg s) g (Hst st ltac:(set_solver))) as Hg.
    destruct (Hg GRate) as (_ & Hraw & Hce & Hge).
    eapply (inv_move s _ t); eauto; try (destruct s; done).
    + destruct s; cbn in *. apply store_typed; [|done]. pose proof (raw_stores_ok text) as Hall. rewrite Forall_forall in Hall. apply Hall, Hst. set_solver.
    + destruct s; cbn in *. destruct Hraw as [-> | ->]; [done|by right].
    + intros g. destruct s; cbn in *. unfold gate_held. destruct (Hg g) as ([-> | ->] & _); [apply i_gates0|]. right. eauto.
    + destruct s; cbn in *. by rewrite Hce.
    + destruct s; cbn in *. rewrite Hge, i_generation0. f_equal. destruct l; cbn; lia.
    + destruct l as [|st' l]; cbn; [done|]. cbn in Hlen. split_and!; [done|lia|]. exists text. split; [done|]. intros. apply Hst. set_solver.
    + by destruct l.
  - eapply (inv_move s s t); eauto; cbn [tallying pc_ok]; [rewrite i_generation0; f_equal; lia| |done]. unfold now. destruct (fs s); cbn; [done|lia].
  - eapply (inv_move s s t); eauto; [rewrite i_generation0; f_equal| |]; destruct (parse_from_path _ _) as [d|] eqn:E; cbn; try done; try lia.
    exists (file_at s v). split.
    + unfold file_at. destruct (fs s !! v) as [f|] eqn:Ef; [by eapply list_elem_of_lookup_2|]. apply lookup_ge_None in Ef. lia.
    + unfold parse_from_path, parse_text, call_now in *. destruct (file_at s v); [|done]. by destruct (serve_up s).
  - eapply (inv_move s _ t); eauto; try (destruct s; done); destruct s as [c]; cbn in *.
    + apply set_cell_typed; [|done]. destruct Hok as (f & _ & Hf). by apply parse_typed in Hf as [? _].
    + by destruct c.
    + intros g. specialize (i_gates0 g). unfold gate_held in *. by destruct c, g.
    + intros d'. destruct c. cbn. by intros [= <-].
    + destruct c; cbn in *. rewrite i_generation0. f_equal. lia.
  - eapply (inv_move s _ t); eauto; try (destruct s; done); destruct s as [c]; cbn in *.
    + apply set_generation_typed; [apply wrap_fits; lia|done].
    + by destruct c.
    + intros g. specialize (i_gates0 g). unfold gate_held in *. by destruct c, g.
    + by destruct c.
    + destruct c; cbn in *. unfold wrapping_add. rewrite i_generation0, wrap_add_l by lia. f_equal. lia.
  - eapply (inv_move s _ t); eauto; try (destruct s, o; done); destruct s as [c], o; cbn in *; try done; try (apply wrap_fits; lia).
    + rewrite i_generation0. unfold wrapping_add.
      match goal with |- _ = wrap 64 (?b + wrap 64 ?x + ?k - 1 + 0) => replace (b + wrap 64 x + k - 1 + 0) with (wrap 64 x + (b + k - 1)) by lia end.
      rewrite wrap_add_l by lia. f_equal. lia.
    + rewrite i_generation0. f_equal. lia.
    + rewrite i_generation0. f_equal. lia.
  - eapply (inv_move s _ t); eauto; try (destruct s; done). destruct s; cbn in *. rewrite i_generation0. f_equal. lia.
Qed.

Lemma inv_env s s' :
  inv s -> cfg s' = cfg s -> fs s `prefix_of` fs s' -> watcher s' = watcher s -> admins s' = admins s ->
  RELOADS_APPLIED s' = RELOADS_APPLIED s -> (forall d, Some d ∈ snapshots s' -> Some d ∈ snapshots s \/ CELL (cfg s) = Some d) ->
  (SHUTDOWN s = true -> SHUTDOWN s' = true) -> inv s'.
Proof.
  intros [] Hc Hf Hw Ha Hr Hs Hd. assert (fs s ⊆ fs s') as Hsub by (destruct Hf as [k ->]; set_solver).
  constructor; rewrite ?Hc, ?Hw, ?Ha, ?Hr; auto.
  - destruct Hf as [k ->]. by destruct (fs s).
  - destruct i_raw0; auto.
  - intros g. destruct (i_gates0 g) as [|(text & Ht & Hg)]; [by left|right; eauto].
  - intros d Hcd. eapply accepted_mono; eauto.
  - intros d Hin. eapply accepted_mono; [done|]. destruct (Hs d Hin); eauto.
  - intros t p Hp. eapply pc_ok_mono; [done|]. apply (i_pcs0 t). destruct t; cbn in *; congruence.
Qed.

Lemma step_inv l s s' : inv s -> rstep l s = Some s' -> inv s'.
Proof.
  intros Hi Hs. destruct s as [c f rp dr db ra rr sd up w ad sn], l as [x| | | | | |i|t]; cbn in Hs.
  - simplify_eq. eapply inv_env; eauto; cbn; eauto using prefix_app_r.
  - simplify_eq. eapply inv_env; eauto.
  - simplify_eq. eapply inv_env; eauto.
  - simplify_eq. eapply inv_env; eauto.
  - simplify_eq. eapply inv_env; eauto.
  - simplify_eq. eapply inv_env; eauto. cbn. intros d [Hd|Hd%list_elem_of_singleton]%elem_of_app; auto.
  - destruct (ad !! i) as [[]|] eqn:Ei; simplify_eq. pose proof Hi as [].
    eapply (inv_move _ (mkProcess c f rp dr db ra rr sd up w ad sn) (Admin i) Idle Begin Hi Ei); auto; try done. cbn in *. rewrite i_generation0. f_equal. lia.
  - destruct t as [|i]; [|by eapply reload_step_inv].
    destruct w eqn:Ew; try by eapply (reload_step_inv Watcher).
    + cbn in Hs. simplify_eq. pose proof Hi as []. eapply (inv_move _ (mkProcess c f rp dr db ra rr sd up Idle ad sn) Watcher Idle); eauto; cbn in *.
      * rewrite i_generation0. f_equal. destruct sd; cbn; lia.
      * by destruct sd.
      * by destruct sd.
    + cbn in Hs. simplify_eq. pose proof Hi as [].
      eapply (inv_move _ (mkProcess c f false dr db ra rr sd up Polling ad sn) Watcher Polling (if rp then Begin else Idle) Hi); eauto; cbn in *.
      * rewrite i_generation0. f_equal. destruct rp; cbn; lia.
      * by destruct rp.
      * by destruct rp.
Qed.

Lemma load_gates g c : gate_held [f1; f2] (load call_deployment var f1 f2 c) g \/ gate g (load call_deployment var f1 f2 c) = gate g c.
Proof.
  unfold load. destruct var; [|by right]. cbn [negb]. unfold set_raw_file.
  assert (forall c', gate g (match parse_from_path call_deployment f2 with Ok dep => set_generation 1 (set_cell dep c') | Err _ => c' end) = gate g c') as Hg.
  { intros c'. destruct (parse_from_path _ _); [|done]. by destruct c', g. }
  destruct f1 as [text|]; rewrite ?Hg; [left|by right]. right. exists text. rewrite Hg. split; [set_solver|apply set_raw_gate].
Qed.

Lemma booted_inv : inv start.
Proof.
  assert (forall t p, pc start t = Some p -> p = Idle) as Hp by (intros [|i] p; cbn; [congruence|]; intros [-> _]%lookup_replicate; done).
  constructor; cbn [cfg fs snapshots RELOADS_APPLIED watcher admins SHUTDOWN start booted]; try done.
  - apply load_typed, initial_typed.
  - unfold load, set_raw_file. destruct var; [|by left]. cbn [negb]. assert (forall c', RAW (match parse_from_path call_deployment f2 with Ok dep => set_generation 1 (set_cell dep c') | Err _ => c' end) = RAW c') as ->
      by (intros c'; destruct (parse_from_path _ _), c'; done). destruct f1 as [text|]; [|by left]. right. set_solver.
  - intros g. destruct (load_gates g initial) as [H|H]; [done|]. left. rewrite H. by destruct g.
  - intros d. unfold load. destruct var; [|done]. cbn [negb]. destruct (parse_from_path call_deployment f2) as [d'|] eqn:E.
    + destruct (set_raw_file f1 initial). cbn. intros [= <-]. exists f2. split; [set_solver|done].
    + unfold set_raw_file. destruct f1; done.
  - set_solver.
  - intros t p H%Hp. by subst.
  - rewrite Z.add_0_r. change (count tallying (Idle :: replicate n Idle)) with (0 + count tallying (replicate n Idle)).
    rewrite count_replicate, !Z.add_0_r by done. symmetry. apply wrap_small, load_typed, initial_typed.
Qed.
End invariant.

(** The deployment changes in one step, to the one that was parsed. *)
Lemma cell_changes_by_swap call var l s s' :
  step call var l s = Some s' -> CELL (cfg s') <> CELL (cfg s) ->
  exists t d, l = LStep t /\ pc s t = Some (Swapping d) /\ CELL (cfg s') = Some d.
Proof.
  intros Hs Hne. assert (forall t, reload_step call var t s = Some s' -> exists d, pc s t = Some (Swapping d) /\ CELL (cfg s') = Some d) as Hr.
  { intros t H. unfold reload_step in H. destruct (pc s t) as [p|]; [|done].
    pose proof (fun p s => set_pc_frame t p s) as Hfr.
    destruct p as [| | | | |[|st l']| |v|d| |o|o]; simplify_eq; try (exfalso; apply Hne; rewrite (proj1 (Hfr _ _)); by destruct s as [[]]).
    - exfalso. apply Hne. rewrite (proj1 (Hfr _ _)). by destruct s as [[]], st.
    - exists d. split; [done|]. rewrite (proj1 (Hfr _ _)). by destruct s as [[]].
    - exfalso. apply Hne. rewrite (proj1 (Hfr _ _)). by destruct s as [[]], o. }
  assert (watch_step s = Some s' -> CELL (cfg s') = CELL (cfg s)) as Hw.
  { unfold watch_step. destruct (watcher s); try done; intros [= <-]; rewrite (proj1 (set_pc_frame _ _ _)); by destruct s. }
  destruct s as [c f rp dr db ra rr sd up w ad sn], l as [x| | | | | |i|t]; cbn in Hs; simplify_eq; try done.
  - destruct (ad !! i) as [[]|]; simplify_eq; done.
  - destruct t as [|i]; [|destruct (Hr _ Hs) as (d & ? & ?); eauto].
    destruct w; try (destruct (Hr Watcher Hs) as (d' & ? & ?); by exists Watcher, d'); by apply Hw in Hs.
Qed.

Definition tallies (s : Process) : Z := count tallying (watcher s :: admins s).

(** C18. Under every interleaving of reloads, whenever and however the file changes:
    the deployment in force, and every deployment a request holds, is a whole
    text of the file as the parser accepted it; it changes only when an
    accepted text is swapped in; the gates are defaults or the directives of
    texts the file held, within their widths; and the generation counts the
    reloads applied, up to those about to be tallied. *)
Theorem reload_sound call var f1 f2 n s :
  reach (step call var) (booted call var f1 f2 n) s ->
  config_ok (cfg s) /\
  (forall d, get (cfg s) = Some d \/ Some d ∈ snapshots s ->
     Some (config_text d) ∈ fs s /\ parse_text call (config_text d) = Ok d) /\
  (forall l s', step call var l s = Some s' -> get (cfg s') <> get (cfg s) ->
     exists t d, l = LStep t /\ pc s t = Some (Swapping d) /\ get (cfg s') = Some d) /\
  (forall g, gate g (cfg s) = gate_default g \/ exists text, Some text ∈ fs s /\ gate g (cfg s) = effective g (gate_in g text)) /\
  generation (cfg s) = wrap 64 (generation (cfg (booted call var f1 f2 n)) + reloads_applied s + tallies s).
Proof.
  intros Hr. assert (inv call var f1 f2 n s) as [].
  { eapply reach_invariant; [apply booted_inv|apply step_inv|done]. }
  split_and!; [done| |by intros; eapply cell_changes_by_swap|done|done].
  intros d Hd. assert (accepted call (fs s) d) as (f & Hf & Hp) by (destruct Hd; auto).
  pose proof (parse_typed _ _ _ Hp) as [_ ->]. done.
Qed.

(** ** A signal is not lost *)
Section signal.
Context (call_deployment : bytes -> option bytes) (n0 : nat).

Local Abbreviation rstep := (step call_deployment true).

(** The gates, and the raw text, are those of the version [v] of the file. *)
Definition reads_as (c : Config) (text : bytes) : Prop := RAW c = text /\ forall g, gate g c = effective g (gate_in g text).
Definition gates_as (s : Process) (v : nat) : Prop := forall text, file_at s v = Some text -> reads_as (cfg s) text.
Definition cell_as (s : Process) (v : nat) : Prop :=
  forall d, parse_from_path call_deployment (file_at s v) = Ok d -> get (cfg s) = Some d.

(** Both come from versions no older than [n0]. *)
Definition settled (s : Process) : Prop :=
  exists v1 v2, (n0 <= v1 <= v2)%nat /\ (v2 <= now s)%nat /\ gates_as s v1 /\ cell_as s v2.

Definition fresh (s : Process) : Prop :=
  match watcher s with
  | Begin | ReadRaw => True
  | Storing l => exists v text, (n0 <= v <= now s)%nat /\ file_at s v = Some text /\ reads_as (foldl (fun c st => store st c) (cfg s) l) text
  | ReadParse => exists v, (n0 <= v <= now s)%nat /\ gates_as s v
  | Parsing v2 => exists v, (n0 <= v <= v2)%nat /\ (v2 <= now s)%nat /\ gates_as s v
  | Swapping d => exists v v2, (n0 <= v <= v2)%nat /\ (v2 <= now s)%nat /\ gates_as s v /\ parse_from_path call_deployment (file_at s v2) = Ok d
  | _ => settled s
  end.

Record heard (s : Process) : Prop := {
  h_admins : Forall (fun p => p = Idle) (admins s);
  h_fs : fs s <> [];
  h_now : (n0 <= now s)%nat;
  h_fresh : serve_up s = true -> RELOAD_PENDING s = true \/ fresh s
}.

Lemma file_at_prefix s s' v : fs s `prefix_of` fs s' -> fs s <> [] -> (v <= now s)%nat -> file_at s' v = file_at s v.
Proof.
  intros [k Hk] Hne Hv. unfold file_at, now in *. rewrite Hk, lookup_app_l; [done|]. destruct (fs s); [done|cbn in *; lia].
Qed.

Lemma now_prefix s s' : fs s `prefix_of` fs s' -> (now s <= now s')%nat.
Proof. intros [k Hk]. unfold now. rewrite Hk, length_app. lia. Qed.

Lemma fresh_env s s' :
  fs s `prefix_of` fs s' -> fs s <> [] -> cfg s' = cfg s -> watcher s' = watcher s -> fresh s -> fresh s'.
Proof.
  intros Hf Hne Hc Hw H. pose proof (now_prefix _ _ Hf) as Hn. pose proof (fun v => file_at_prefix s s' v Hf Hne) as Hv.
  assert (forall v, (v <= now s)%nat -> gates_as s v -> gates_as s' v) as Hg by (intros v Hle Hd text; rewrite Hv, Hc by done; apply Hd).
  assert (forall v, (v <= now s)%nat -> cell_as s v -> cell_as s' v) as Hce by (intros v Hle Hd d; unfold get; rewrite Hv, Hc by done; apply Hd).
  assert (settled s -> settled s') as Hse.
  { intros (v1 & v2 & H1 & H2 & H3 & H4). exists v1, v2. split_and!; [lia..|apply Hg; [lia|done]|by apply Hce]. }
  unfold fresh in *. rewrite Hw. destruct (watcher s); auto.
  - destruct H as (v & text & H1 & H2 & H3). exists v, text. rewrite Hv, Hc by lia. split_and!; (lia || done).
  - destruct H as (v & H1 & H2). exists v. split; [lia|]. apply Hg; [lia|done].
  - destruct H as (w & H1 & H2 & H3). exists w. split_and!; [lia..|]. apply Hg; [lia|done].
  - destruct H as (w & w2 & H1 & H2 & H3 & H4). exists w, w2. rewrite Hv by lia. split_and!; [lia..|apply Hg; [lia|done]|done].
Qed.

Lemma heard_env s s' :
  heard s -> fs s `prefix_of` fs s' -> cfg s' = cfg s -> watcher s' = watcher s -> admins s' = admins s ->
  (serve_up s' = true -> serve_up s = true) -> (RELOAD_PENDING s = true -> RELOAD_PENDING s' = true) -> heard s'.
Proof.
  intros [] Hf Hc Hw Ha Hu Hp. constructor.
  - by rewrite Ha.
  - destruct Hf as [k ->]. by destruct (fs s).
  - pose proof (now_prefix _ _ Hf). lia.
  - intros Hs. destruct (h_fresh0 (Hu Hs)) as [|H]; [by left; auto|right]. by eapply fresh_env.
Qed.

(** The watcher moves: only the freshness is at stake. *)
Lemma heard_move s s1 p :
  heard s -> fs s1 = fs s -> admins s1 = admins s -> serve_up s1 = serve_up s ->
  (serve_up s = true -> RELOAD_PENDING s1 = true \/ fresh (set_pc Watcher p s1)) -> heard (set_pc Watcher p s1).
Proof.
  intros [] Hf Ha Hu Hx. destruct s1 as [c f rp dr db ra rr sd up w ad sn]. cbn in *. subst. constructor; cbn; [done..|exact Hx].
Qed.

Lemma watch_heard s s' : heard s -> watch_step s = Some s' -> heard s'.
Proof.
  intros Hh Hs. pose proof Hh as []. unfold watch_step in Hs. destruct s as [c f rp dr db ra rr sd up w ad sn]. cbn in *.
  destruct w; simplify_eq.
  - apply (heard_move _ (mkProcess c f rp dr db ra rr sd up Idle ad sn) _ Hh); try done. intros Hu. destruct (h_fresh0 Hu) as [|H]; [by left|right]. by destruct sd.
  - apply (heard_move _ (mkProcess c f false dr db ra rr sd up Polling ad sn) _ Hh); try done. intros Hu. right. destruct rp; [done|].
    by destruct (h_fresh0 Hu).
Qed.

Lemma fresh_step s s' : fs s <> [] -> (n0 <= now s)%nat -> serve_up s = true -> fresh s -> reload_step call_deployment true Watcher s = Some s' -> fresh s'.
Proof.
  intros Hne Hn Hu Hf Hs. unfold reload_step in Hs. unfold fresh in Hf. cbn [pc] in Hs. destruct s as [c f rp dr db ra rr sd up w ad sn]. cbn in *. subst up.
  destruct w as [| | | | |[|st l]| |v|d| |o|o]; simplify_eq; try done.
  - unfold fresh. cbn. destruct (file_at _ _) as [text|] eqn:E; cbn.
    + eexists _, text. split; [|split; [exact E|]]; [split; [exact Hn|done]|]. split; [apply set_raw_gates|intros g; apply set_raw_gate].
    + eexists. split; [split; [exact Hn|done]|]. intros text Ht. unfold file_at, now in *; cbn in *; congruence.
  - destruct Hf as (v & text & Hv & Ht & Hr). unfold fresh. destruct l as [|st' l]; cbn.
    + exists v. split; [done|]. intros text' Ht'. assert (text' = text) as ->; [|done]. unfold file_at, now in *; cbn in *; congruence.
    + exists v, text. done.
  - destruct Hf as (v & Hv & Hg). exists v. split_and!; (lia || done).
  - destruct Hf as (v1 & H1 & H2 & Hg). unfold fresh. cbn. unfold call_now in *. cbn. destruct (parse_from_path call_deployment (file_at _ v)) as [d|r] eqn:E; cbn.
    + by exists v1, v.
    + exists v1, v. split_and!; try (lia || done). intros d Hd. unfold file_at, now in *; cbn in *; congruence.
  - destruct Hf as (v1 & v2 & H1 & H2 & Hg & Hp). exists v1, v2. split_and!; try (lia || done).
    + intros text Ht. specialize (Hg text Ht). destruct c. split; [apply Hg|]. intros g. rewrite <- (proj2 Hg g). by destruct g.
    + intros d' Hd. destruct c. cbn. unfold file_at, now in *; cbn in *; congruence.
  - destruct Hf as (v1 & v2 & H1 & H2 & Hg & Hp). exists v1, v2. split_and!; try (lia || done).
    + intros text Ht. specialize (Hg text Ht). destruct c. split; [apply Hg|]. intros g. rewrite <- (proj2 Hg g). by destruct g.
    + intros d' Hd. destruct c. exact (Hp d' Hd).
  - by destruct o.
Qed.

Lemma reload_heard s s' : heard s -> reload_step call_deployment true Watcher s = Some s' -> heard s'.
Proof.
  intros Hh Hs. pose proof Hh as [].
  assert (fs s' = fs s /\ admins s' = admins s /\ serve_up s' = serve_up s /\ RELOAD_PENDING s' = RELOAD_PENDING s) as (E1 & E2 & E3 & E4).
  { unfold reload_step in Hs. destruct s as [c f rp dr db ra rr sd up w ad sn]. cbn in *.
    destruct w as [| | | | |[|st l]| |v|d| |o|o]; simplify_eq; try done. by destruct o. }
  constructor; rewrite ?E1, ?E2, ?E3, ?E4; try done; unfold now in *; rewrite ?E1; try done.
  intros Hu. destruct (h_fresh0 Hu) as [|Hf]; [by left|right]. by eapply fresh_step.
Qed.

Lemma step_heard l s s' : (forall i, l <> LRequest i) -> heard s -> rstep l s = Some s' -> heard s'.
Proof.
  intros Hl Hh Hs. destruct s as [c f rp dr db ra rr sd up w ad sn], l as [x| | | | | |i|t]; cbn in Hs; simplify_eq;
    try (eapply heard_env; by eauto using prefix_app_r).
  - by destruct (Hl i).
  - destruct t as [|i]; [destruct w; (by eapply reload_heard) || by eapply watch_heard|].
    unfold reload_step in Hs. cbn in Hs. destruct (ad !! i) as [p|] eqn:E; [|done].
    destruct Hh as [Ha]. cbn in Ha. rewrite Forall_lookup in Ha. by rewrite (Ha i p E) in Hs.
Qed.
End signal.

(** ** The watcher gets there *)
Definition pc_left (p : Pc) : nat :=
  match p with
  | Idle | Exited => 0
  | Polling | Clearing _ => 1
  | Tally _ => 2
  | Counting => 3
  | Swapping _ => 4
  | Parsing _ => 5
  | ReadParse => 6
  | Storing l => 6 + length l
  | ReadRaw => 15
  | Begin => 16
  end.

(** The steps the watcher needs before it is idle with nothing pending. *)
Definition steps_left (s : Process) : nat :=
  match RELOAD_PENDING s, watcher s with
  | true, Polling => 17
  | true, p => 18 + pc_left p
  | false, p => pc_left p
  end.

Definition watcher_ok (s : Process) : Prop :=
  SHUTDOWN s = false /\ watcher s <> Exited /\
  match watcher s with Storing l => (1 <= length l <= 8)%nat | _ => True end.

Lemma watcher_steps call var s :
  watcher_ok s -> (0 < steps_left s)%nat ->
  exists s', step call var (LStep Watcher) s = Some s' /\ watcher_ok s' /\ (steps_left s' < steps_left s)%nat.
Proof.
  intros (Hsd & Hx & Hst) Hk. destruct s as [c f rp dr db ra rr sd up w ad sn]. unfold watcher_ok, steps_left in *. cbn in *. subst sd.
  destruct w as [| | | | |[|st l]| |v|d| |o|o]; try done; cbn in *.
  - destruct rp; [|lia]. eexists. split; [reflexivity|]. cbn. split; [done|lia].
  - eexists. split; [reflexivity|]. cbn. destruct rp; cbn; (split; [done|lia]).
  - eexists. split; [reflexivity|]. destruct var, rp; cbn; (split; [done|lia]).
  - eexists. split; [reflexivity|]. destruct (file_at _ _) as [text|], rp; cbn; (split; [split_and!; (done || lia)|lia]).
  - lia.
  - eexists. split; [reflexivity|]. destruct l, rp; cbn in *; (split; [split_and!; (done || lia)|lia]).
  - eexists. split; [reflexivity|]. destruct rp; cbn; (split; [done|lia]).
  - eexists. split; [reflexivity|]. destruct (parse_from_path _ _), rp; cbn; (split; [done|lia]).
  - eexists. split; [reflexivity|]. destruct rp; cbn; (split; [done|lia]).
  - eexists. split; [reflexivity|]. destruct rp; cbn; (split; [done|lia]).
  - eexists. split; [reflexivity|]. destruct o, rp; cbn; (split; [done|lia]).
  - eexists. split; [reflexivity|]. destruct rp; cbn; (split; [done|lia]).
Qed.

Lemma watcher_finishes call var m : forall s,
  watcher_ok s -> (steps_left s <= m)%nat ->
  exists k s', (k <= m)%nat /\ run (step call var) (replicate k (LStep Watcher)) s = Some s' /\ watcher s' = Idle /\ RELOAD_PENDING s' = false.
Proof.
  induction m as [|m IH]; intros s Hok Hm; destruct (decide (steps_left s = 0%nat)) as [Hz|Hz]; try lia.
  1, 2: exists 0%nat, s; split; [lia|]; split; [done|]; unfold steps_left in Hz; destruct Hok as (_ & Hx & Hst);
    destruct (RELOAD_PENDING s), (watcher s); cbn in Hz; (done || lia).
  destruct (watcher_steps call var s Hok ltac:(lia)) as (s1 & Hs & Hok1 & Hlt).
  destruct (IH s1 Hok1 ltac:(lia)) as (k & s' & Hk & Hr & Hw). exists (S k), s'. split; [lia|]. split; [|done].
  cbn [replicate run]. by rewrite Hs.
Qed.

Lemma steps_left_bound s : watcher_ok s -> (steps_left s <= 34)%nat.
Proof. intros (_ & _ & Hl). unfold steps_left. destruct (RELOAD_PENDING s), (watcher s); cbn in *; lia. Qed.

Lemma run_heard call n0 ls : forall s s',
  Forall (fun l => forall i, l <> LRequest i) ls -> heard call n0 s -> run (step call true) ls s = Some s' -> heard call n0 s'.
Proof.
  induction ls as [|l ls IH]; intros s s' Hls Hh Hr; cbn in Hr; [by simplify_eq|]. apply Forall_cons in Hls as [Hl Hls].
  destruct (step call true l s) as [s1|] eqn:E; [|done]. eapply IH; [done|by eapply step_heard|done].
Qed.

Lemma run_serve_up call k s s' : run (step call true) (replicate k (LStep Watcher)) s = Some s' -> serve_up s' = serve_up s.
Proof.
  revert s. induction k as [|k IH]; cbn [replicate run]; intros s Hr; [by simplify_eq|]. destruct (step _ _ _ s) as [s1|] eqn:E; [|done].
  rewrite (IH s1 Hr). clear IH Hr. destruct s as [c f rp dr db ra rr sd up w ad sn]. cbn in E.
  destruct w as [| | | | |[|st l]| |v|d| |o|o]; cbn in E; simplify_eq; try done. by destruct o.
Qed.


(** ** One thread alone *)

(** Left alone, the steps of a reload are [Config.reload] of the file, and the
    outcome is tallied. *)
Theorem steps_are_reload call var s :
  watcher s = Begin ->
  let f := file_at s (now s) in
  let '(o, c) := reload (call_now call s) var f f (cfg s) in
  exists k s', (k <= 16)%nat /\ run (step call var) (replicate k (LStep Watcher)) s = Some s' /\ watcher s' = Idle /\ cfg s' = c /\
    RELOADS_APPLIED s' = (match o with Applied _ => wrapping_add 64 (RELOADS_APPLIED s) 1 | _ => RELOADS_APPLIED s end) /\
    RELOADS_REJECTED s' = (match o with KeptOld _ => wrapping_add 64 (RELOADS_REJECTED s) 1 | _ => RELOADS_REJECTED s end).
Proof.
  intros Hw. destruct s as [c f rp dr db ra rr sd up w ad sn]. cbn in Hw. subst w. unfold reload. destruct var; cbn [negb].
  2:{ exists 3%nat. eexists. split; [lia|]. split; [reflexivity|]. done. }
  set (s0 := mkProcess c f rp dr db ra rr sd up Begin ad sn).
  destruct (file_at s0 (now s0)) as [text|] eqn:Ef.
  - assert (run (step call true) (replicate 10 (LStep Watcher)) s0 = Some (mkProcess (set_raw text c) f rp true db ra rr sd up ReadParse ad sn)) as H10.
    { cbn [replicate run]. subst s0. cbn [step reload_step pc watcher set_draining set_pc]. unfold file_at, now in *. cbn [fs] in *. rewrite Ef. reflexivity. }
    cbn [parse_from_path set_raw_file cfg s0].
    destruct (parse_text (call_now call s0) text) as [d|r] eqn:Ep.
    + exists 16%nat. eexists. split; [lia|]. rewrite (replicate_add 10 6), run_app, H10. split; [|split_and!].
      { cbn [replicate run]. cbn [step reload_step pc watcher set_pc]. unfold file_at, now in *. cbn [fs s0] in *. rewrite Ef. cbn [parse_from_path].
        change (call_now call _) with (call_now call s0). rewrite Ep. reflexivity. }
      all: done.
    + exists 14%nat. eexists. split; [lia|]. rewrite (replicate_add 10 4), run_app, H10. split; [|split_and!].
      { cbn [replicate run]. cbn [step reload_step pc watcher set_pc]. unfold file_at, now in *. cbn [fs s0] in *. rewrite Ef. cbn [parse_from_path].
        change (call_now call _) with (call_now call s0). rewrite Ep. reflexivity. }
      all: done.
  - exists 6%nat. eexists. split; [lia|]. cbn [replicate run]. subst s0. cbn [step reload_step pc watcher set_pc set_draining].
    unfold file_at, now in *. cbn [fs] in *. rewrite Ef. cbn. unfold file_at, now. cbn. rewrite Ef. done.
Qed.

(** ** Runs *)

(** A parser that accepts what begins with [pool], with the length as policy. *)
Definition toy_parser (text : bytes) : option bytes :=
  Some (if starts_with (bs "pool") text then render_projection (mkDeployment (Z.of_nat (length text)) [] [] 0 []) else []).

Definition text_a : bytes := bs "pool a" ++ LF :: bs "max-connections 10" ++ LF :: bs "rate-limit 10".
Definition text_b : bytes := bs "pool bb" ++ LF :: bs "max-connections 20" ++ LF :: bs "rate-limit 20".
Definition text_bad : bytes := bs "oops" ++ LF :: bs "max-connections 0".

Definition toy := step toy_parser true.
Definition toy_boot (n : nat) : Process := booted toy_parser true (Some text_a) (Some text_a) n.

Definition at_end {A} (o : option Process) (f : Process -> A) : option A := f <$> o.

Lemma reload_sound_witness :
  exists s, run toy ([LWrite (Some text_b); LRequest 0; LGet] ++ replicate 16 (LStep (Admin 0))) (toy_boot 1) = Some s /\
    generation (cfg s) = wrap 64 (1 + 1 + 0).
Proof.
  eexists. split; [vm_compute; reflexivity|].
  pose proof (reload_sound toy_parser true (Some text_a) (Some text_a) 1) as H. unfold generation.
  etransitivity; [apply H|]; [|vm_compute; reflexivity].
  apply (run_reach (step toy_parser true) ([LWrite (Some text_b); LRequest 0; LGet] ++ replicate 16 (LStep (Admin 0)))). vm_compute. reflexivity.
Defined.


(** A signal and an admin reload that overlap can leave the older text in
    force, at rest and with nothing pending: the admin read [text_a] before
    the file changed and swaps it in after the watcher swapped in [text_b]. *)
Example stale_deployment_stays :
  at_end (run toy ([LRequest 0] ++ replicate 11 (LStep (Admin 0)) ++ [LWrite (Some text_b); LSighup] ++ replicate 18 (LStep Watcher) ++
                   replicate 5 (LStep (Admin 0))) (toy_boot 1))
    (fun s => (watcher s, admins s, RELOAD_PENDING s, config_text <$> get (cfg s), bool_decide (RAW (cfg s) = text_b))) =
  Some (Idle, [Idle], false, Some text_a, true).
Proof. vm_compute. reflexivity. Qed.

(** And a mixture of gates: the connection cap of one text, the rate limit of
    another. *)
Example gates_mixed_at_rest :
  at_end (run toy ([LRequest 0] ++ replicate 4 (LStep (Admin 0)) ++ [LWrite (Some text_b); LSighup] ++ replicate 18 (LStep Watcher) ++
                   replicate 12 (LStep (Admin 0))) (toy_boot 1))
    (fun s => (watcher s, admins s, max_connections (cfg s), rate_limit (cfg s))) =
  Some (Idle, [Idle], 20, 10).
Proof. vm_compute. reflexivity. Qed.

(** The first of two overlapping reloads to end clears the flag of both. *)
Example draining_cleared_early :
  at_end (run toy ([LRequest 0; LRequest 1; LStep (Admin 0); LStep (Admin 1)] ++ replicate 15 (LStep (Admin 0))) (toy_boot 2))
    (fun s => (admins s, draining s)) = Some ([Idle; ReadRaw], false).
Proof. vm_compute. reflexivity. Qed.

(** The two reads of one reload see two files. *)
Example gates_and_deployment_apart :
  at_end (run toy ([LSighup; LWrite (Some text_b)] ++ replicate 12 (LStep Watcher) ++ [LWrite (Some text_a)] ++ replicate 6 (LStep Watcher)) (toy_boot 0))
    (fun s => (watcher s, max_connections (cfg s), config_text <$> get (cfg s))) = Some (Idle, 20, Some text_a).
Proof. vm_compute. reflexivity. Qed.
