(* ===== verification/Renewal.v ===== *)
(** * Certificate renewal

    [renewal.rs]: the validity of a leaf certificate, read from its DER; when a
    leaf is due; and the scheduler, which renews the configured leaf and sweeps
    the cache of on-demand leaves. The issuer, the directory and the clock are
    what they answer at each tick. A fraction is a binary64 number, with the
    arithmetic of [SpecFloat]. *)
From Stdlib Require Import SpecFloat.
From S2P Require Import Prelude Bytes Text.

Local Open Scope Z_scope.

(** ** DER *)
Record Tlv := mkTlv { tag : Z; content : bytes; tlv_end : nat }.

(** [len = (len << 8) | byte], over the [n] bytes of a long form. *)
Fixpoint long_len (n off : nat) (buf : bytes) (len : Z) : option Z :=
  match n with
  | O => Some len
  | S n' => b ← buf !! off; long_len n' (S off) buf (Z.lor (Z.shiftl len 8) b)
  end.

(** The length and the width of the header. *)
Definition tlv_len (buf : bytes) (off : nat) (len_byte : Z) : option (Z * nat) :=
  if len_byte <? 0x80 then Some (len_byte, 2%nat)
  else
    let n := Z.to_nat (Z.land len_byte 0x7f) in
    if (n =? 0)%nat || (4 <? n)%nat then None
    else len ← long_len n (off + 2) buf 0; Some (len, (2 + n)%nat).

Definition read_tlv (buf : bytes) (off : nat) : option Tlv :=
  t ← buf !! off;
  len_byte ← buf !! (off + 1)%nat;
  '(len, hdr) ← tlv_len buf off len_byte;
  let start := (off + hdr)%nat in
  fin ← checked_add USIZE (Z.of_nat start) len;
  if Z.of_nat (length buf) <? fin then None else Some (mkTlv t (slice start (Z.to_nat fin) buf) (Z.to_nat fin)).

(** ** Times *)

(** Hinnant's formula; the division of the source truncates. *)
Definition days_from_civil (y m d : Z) : Z :=
  let y := if m <=? 2 then y - 1 else y in
  let era := Z.quot (if 0 <=? y then y else y - 399) 400 in
  let yoe := y - era * 400 in
  let doy := Z.quot (153 * (if 2 <? m then m - 3 else m + 9) + 2) 5 + d - 1 in
  let doe := yoe * 365 + Z.quot yoe 4 - Z.quot yoe 100 + doy in
  era * 146097 + doe - 719468.

(** [str::get(i..j)]: nothing past the end or inside a character. *)
Definition is_char_boundary (s : bytes) (i : nat) : bool := match s !! i with Some b => negb (cont b) | None => (i =? length s)%nat end.
Definition str_get (i j : nat) (s : bytes) : option bytes :=
  if (i <=? j)%nat && (j <=? length s)%nat && is_char_boundary s i && is_char_boundary s j then Some (slice i j s) else None.

(** [str::parse::<i64>]. *)
Definition parse_i64 (l : bytes) : option Z :=
  match l with
  | 45 :: l' => match l' with [] => None | _ => v ← parse_digits 64 l'; if v <=? 2 ^ 63 then Some (- v) else None end
  | _ => parse_uint 63 l
  end.

Definition Zch : Z := 90.

Definition parse_asn1_time (tag : Z) (content : bytes) : option Z :=
  if negb (utf8_valid content) then None
  else
    s ← strip_suffix [Zch] content;
    '(year, rest) ← (if tag =? 0x17 then yy ← str_get 0 2 s ≫= parse_i64; Some (if yy <? 50 then 2000 + yy else 1900 + yy, drop 2 s)
                     else if tag =? 0x18 then yyyy ← str_get 0 4 s ≫= parse_i64; Some (yyyy, drop 4 s)
                     else None);
    mon ← str_get 0 2 rest ≫= parse_i64;
    day ← str_get 2 4 rest ≫= parse_i64;
    hour ← str_get 4 6 rest ≫= parse_i64;
    mi ← str_get 6 8 rest ≫= parse_i64;
    let sec := default 0 (str_get 8 10 rest ≫= parse_i64) in
    if negb ((1 <=? mon) && (mon <=? 12)) || negb ((1 <=? day) && (day <=? 31)) then None
    else Some (days_from_civil year mon day * 86400 + hour * 3600 + mi * 60 + sec).

(** Certificate, tbsCertificate, then its fields up to the validity. *)
Definition parse_validity (der : bytes) : option (Z * Z) :=
  cert ← read_tlv der 0;
  if negb (tag cert =? 0x30) then None
  else
    tbs ← read_tlv (content cert) 0;
    if negb (tag tbs =? 0x30) then None
    else
      let body := content tbs in
      first ← read_tlv body 0;
      let off := if tag first =? 0xA0 then tlv_end first else 0%nat in
      serial ← read_tlv body off;
      alg ← read_tlv body (tlv_end serial);
      issuer ← read_tlv body (tlv_end alg);
      validity ← read_tlv body (tlv_end issuer);
      if negb (tag validity =? 0x30) then None
      else
        nb ← read_tlv (content validity) 0;
        not_before ← parse_asn1_time (tag nb) (content nb);
        na ← read_tlv (content validity) (tlv_end nb);
        not_after ← parse_asn1_time (tag na) (content na);
        Some (not_before, not_after).

(** ** When a leaf is due *)
Abbreviation f64 := spec_float.
Definition f64_of (z : Z) : f64 := binary_normalize 53 1024 z 0 false.
Definition f64_mul : f64 -> f64 -> f64 := SFmul 53 1024.

(** [as i64]: towards zero, saturating, and zero for not-a-number. *)
Definition f64_as_i64 (f : f64) : Z :=
  let clamp v := Z.max (- 2 ^ 63) (Z.min (2 ^ 63 - 1) v) in
  match f with
  | S754_zero _ | S754_nan => 0
  | S754_infinity s => if s then - 2 ^ 63 else 2 ^ 63 - 1
  | S754_finite s m e => clamp (cond_Zopp s (if 0 <=? e then Z.pos m * 2 ^ e else Z.pos m / 2 ^ (- e)))
  end.

Definition one_third : f64 := SFdiv 53 1024 (f64_of 1) (f64_of 3).

Definition due (now not_before not_after : Z) (fraction : f64) : bool :=
  let lifetime := Z.max (not_after - not_before) 1 in
  let remaining := not_after - now in
  remaining <=? f64_as_i64 (f64_mul (f64_of lifetime) fraction).

(** ** The scheduler *)
Definition plausible_sni (h : bytes) : bool :=
  negb (bool_decide (h = [])) && (length h <=? 253)%nat && negb (bool_decide (is_Some (windows_position (bs "..") h))) &&
  forallb (fun b => between 48 57 b || between 65 90 b || between 97 122 b || bool_decide (b ∈ [45; 46; 42; 95])) h.

Record SweepCfg := mkSweepCfg {
  dir_url : bytes; cache_dir : bytes; webroot : bytes; issue_bin : bytes; contact : option bytes; account_key : option bytes;
  fraction : f64; min_reattempt : Z
}.

(** An entry of the cache directory: its name, whether it is a directory, and
    what reading its leaf gives. *)
Record DirEntry := mkEntry { file_name : bytes; is_dir : bool; leaf : option bytes }.

(** The attempts of one sweep, in order, with the issuer's success. *)
Record Sweep := mkSweep { last_attempt : gmap bytes Z; attempts : list (bytes * bool) }.

Definition as_i64 (x : Z) : Z := if x <? 2 ^ 63 then x else x - 2 ^ 64.

Section scheduler.
Context (cfg : SweepCfg) (remint : Z -> bytes -> bool).

Definition rate_limited (now : Z) (last : gmap bytes Z) (sni : bytes) : bool :=
  match last !! sni with Some l => now - l <? as_i64 (min_reattempt cfg) | None => false end.

Definition sweep_entry (now : Z) (force : bool) (s : Sweep) (e : DirEntry) : Sweep :=
  if negb (is_dir e) then s
  else
    let sni := from_utf8_lossy (file_name e) in
    if negb (plausible_sni sni) then s
    else match leaf e with
         | None => s
         | Some der =>
             match parse_validity der with
             | None => s
             | Some (nb, na) =>
                 if negb (due now nb na (fraction cfg) || force) then s
                 else if rate_limited now (last_attempt s) sni then s
                 else mkSweep (<[sni := now]> (last_attempt s)) (attempts s ++ [(sni, remint now sni)])
             end
         end.

(** [None]: the cache directory cannot be read. *)
Definition sweep (now : Z) (force : bool) (dir : option (list DirEntry)) (last : gmap bytes Z) : Sweep :=
  match dir with Some l => foldl (sweep_entry now force) (mkSweep last []) l | None => mkSweep last [] end.

(** Whether the configured leaf is renewed. *)
Definition tick_leaf (fraction : f64) (now : Z) (leaf : option bytes) (force : bool) : bool :=
  match leaf ≫= parse_validity with Some (nb, na) => due now nb na fraction | None => true end || force.

(** One round of the scheduler: what the clock, the leaf and the directory
    answer. *)
Record Tick := mkTick { t_now : Z; t_leaf : option bytes; t_dir : option (list DirEntry) }.

Record Round := mkRound { r_now : Z; r_renewed : bool; r_attempts : list (bytes * bool) }.

(** The rounds until a shutdown; the forced flags hold for the first. *)
Fixpoint scheduler (leaf_cfg : option f64) (sweep_on leaf_forced sweep_forced : bool) (last : gmap bytes Z) (ts : list Tick) : list Round :=
  match ts with
  | [] => []
  | t :: ts' =>
      let renewed := match leaf_cfg with Some fr => tick_leaf fr (t_now t) (t_leaf t) leaf_forced | None => false end in
      let s := if sweep_on then sweep (t_now t) sweep_forced (t_dir t) last else mkSweep last [] in
      mkRound (t_now t) renewed (attempts s) ::
        scheduler leaf_cfg sweep_on (match leaf_cfg with Some _ => false | None => leaf_forced end)
          (if sweep_on then false else sweep_forced) (last_attempt s) ts'
  end.
End scheduler.

Example due_as_tested :
  (due (40 * 86400) 0 (90 * 86400) one_third, due (61 * 86400) 0 (90 * 86400) one_third, due (100 * 86400) 0 (90 * 86400) one_third,
   due (60 * 86400) 0 (90 * 86400) one_third, due (60 * 86400 - 1) 0 (90 * 86400) one_third) = (false, true, true, true, false).
Proof. vm_compute. reflexivity. Qed.

Example times_as_tested :
  (parse_asn1_time 0x17 (bs "240301120000Z"), parse_asn1_time 0x18 (bs "20240301120000Z"), parse_asn1_time 0x17 (bs "500101000000Z"),
   parse_asn1_time 0x17 (bs "490101000000Z")) = (Some 1709294400, Some 1709294400, Some (days_from_civil 1950 1 1 * 86400), Some (days_from_civil 2049 1 1 * 86400)).
Proof. vm_compute. reflexivity. Qed.

(** ** The calendar *)
Definition is_leap (y : Z) : bool := (y mod 4 =? 0) && (negb (y mod 100 =? 0) || (y mod 400 =? 0)).

Definition month_days (y m : Z) : Z :=
  if m =? 2 then (if is_leap y then 29 else 28) else if (m =? 4) || (m =? 6) || (m =? 9) || (m =? 11) then 30 else 31.

Definition valid_date (y m d : Z) : Prop := 1 <= m <= 12 /\ 1 <= d <= month_days y m.

Definition next_day '((y, m, d) : Z * Z * Z) : Z * Z * Z :=
  if d <? month_days y m then (y, m, d + 1) else if m <? 12 then (y, m + 1, 1) else (y + 1, 1, 1).

(** Years that begin in March, with the division rounding down. *)
Definition doy (m d : Z) : Z := (153 * (if 2 <? m then m - 3 else m + 9) + 2) / 5 + d - 1.
Definition march_year (y m : Z) : Z := if m <=? 2 then y - 1 else y.
Definition year_days (y : Z) : Z := 365 * y + y / 4 - y / 100 + y / 400.

Lemma quot_era y : Z.quot (if 0 <=? y then y else y - 399) 400 = y / 400.
Proof. case_match; zify_bool; [rewrite Z.quot_div_nonneg by lia; done|]. Z.to_euclidean_division_equations. lia. Qed.

Lemma days_from_civil_eq y m d : 1 <= m <= 12 -> days_from_civil y m d = year_days (march_year y m) + doy m d - 719468.
Proof.
  intros Hm. unfold days_from_civil, doy, year_days. fold (march_year y m). generalize (march_year y m) as k. intros k. rewrite quot_era.
  pose proof (Z.mod_pos_bound k 400). pose proof (Z.div_mod k 400).
  rewrite !Z.quot_div_nonneg by (repeat case_match; lia). set (q := k / 400) in *. replace (k - q * 400) with (k mod 400) by lia.
  assert (k / 4 = 100 * q + (k mod 400) / 4) as -> by (Z.to_euclidean_division_equations; lia).
  assert (k / 100 = 4 * q + (k mod 400) / 100) as -> by (Z.to_euclidean_division_equations; lia). lia.
Qed.

Lemma year_days_next y : year_days (y + 1) = year_days y + (if is_leap (y + 1) then 366 else 365).
Proof.
  unfold year_days, is_leap.
  destruct ((y + 1) mod 4 =? 0) eqn:E4, ((y + 1) mod 100 =? 0) eqn:E100, ((y + 1) mod 400 =? 0) eqn:E400; zify_bool; cbn;
    Z.to_euclidean_division_equations; lia.
Qed.

Lemma next_day_valid y m d y' m' d' : valid_date y m d -> next_day (y, m, d) = (y', m', d') -> valid_date y' m' d'.
Proof.
  unfold next_day. intros [Hm Hd] H. assert (forall y m, 28 <= month_days y m) as Hp by (intros; unfold month_days; repeat case_match; lia).
  pose proof (Hp y' m'). repeat case_match; simplify_eq; zify_bool; split; lia.
Qed.

Lemma days_next_day y m d :
  valid_date y m d -> let '(y', m', d') := next_day (y, m, d) in days_from_civil y' m' d' = days_from_civil y m d + 1.
Proof.
  intros Hv. destruct (next_day (y, m, d)) as [[y' m'] d'] eqn:E. pose proof (next_day_valid _ _ _ _ _ _ Hv E) as [Hm' _]. destruct Hv as [Hm Hd].
  rewrite !days_from_civil_eq by done. unfold next_day in E.
  destruct (d <? month_days y m) eqn:El; [simplify_eq; unfold doy; lia|]. zify_bool. assert (d = month_days y m) as -> by lia. clear Hd El.
  assert (m = 1 \/ m = 2 \/ m = 3 \/ m = 4 \/ m = 5 \/ m = 6 \/ m = 7 \/ m = 8 \/ m = 9 \/ m = 10 \/ m = 11 \/ m = 12) as Hc by lia.
  pose proof (year_days_next (y - 1)) as Hy. replace (y - 1 + 1) with y in Hy by lia.
  destruct_or! Hc; subst m; cbn in E; simplify_eq; unfold march_year, doy, month_days in *; cbn -[year_days is_leap] in *;
    repeat match goal with |- context [?a / 5] => let v := eval vm_compute in (a / 5) in change (a / 5) with v end;
    repeat case_match; rewrite ?Z.add_simpl_r; lia.
Qed.

(** [days_from_civil] counts the days from 1 January 1970. *)
Theorem days_from_civil_counts n :
  let '(y, m, d) := Nat.iter n next_day (1970, 1, 1) in valid_date y m d /\ days_from_civil y m d = Z.of_nat n.
Proof.
  induction n as [|n IH]; [split; [split; cbn; lia|done]|]. rewrite Nat.iter_succ.
  destruct (Nat.iter n next_day (1970, 1, 1)) as [[y m] d]. destruct IH as [Hv Hd].
  destruct (next_day (y, m, d)) as [[y' m'] d'] eqn:E. pose proof (days_next_day y m d Hv) as Hn. rewrite E in Hn.
  split; [by eapply next_day_valid|]. lia.
Qed.

(** ** Times, printed and read back *)
Definition two (n : Z) : bytes := [48 + n / 10; 48 + n mod 10].
Definition four (n : Z) : bytes := two (n / 100) ++ two (n mod 100).

Definition clock_text (m d h mi s : Z) : bytes := two m ++ two d ++ two h ++ two mi ++ two s.
Definition unix_time (y m d h mi s : Z) : Z := days_from_civil y m d * 86400 + h * 3600 + mi * 60 + s.

Lemma below_forall (p : Z -> bool) n : forallb p (seqZ 0 n) = true -> forall x, 0 <= x < n -> p x = true.
Proof. intros H x Hx. rewrite forallb_forall in H. apply H, list_elem_of_In, elem_of_seqZ. lia. Qed.

Definition reads (print : Z -> bytes) (n : Z) : bool := match parse_i64 (print n) with Some v => v =? n | None => false end.

Lemma reads_true print n : reads print n = true -> parse_i64 (print n) = Some n.
Proof. unfold reads. case_match; [|done]. intros. f_equal. lia. Qed.

Lemma parse_two n : 0 <= n < 100 -> parse_i64 (two n) = Some n.
Proof. intros Hn. apply reads_true, (below_forall (reads two) 100); [vm_compute; reflexivity|done]. Qed.

Lemma parse_four n : 0 <= n < 10000 -> parse_i64 (four n) = Some n.
Proof. intros Hn. apply reads_true, (below_forall (reads four) 10000); [vm_compute; reflexivity|done]. Qed.

Lemma two_ascii n : 0 <= n < 100 -> ascii_text (two n).
Proof. intros Hn. unfold two. repeat constructor; Z.to_euclidean_division_equations; lia. Qed.

Lemma utf8_valid_ascii l : ascii_text l -> utf8_valid l = true.
Proof. induction 1 as [|b l Hb _ IH]; [done|]. cbn. by rewrite (proj2 (Z.ltb_lt b 128)) by lia. Qed.

Lemma str_get_ascii i j l : ascii_text l -> (i <= j <= length l)%nat -> str_get i j l = Some (slice i j l).
Proof.
  intros Hl Hij. unfold str_get. rewrite (proj2 (Nat.leb_le i j)), (proj2 (Nat.leb_le j (length l))) by lia.
  assert (forall k, (k <= length l)%nat -> is_char_boundary l k = true) as Hb.
  { intros k Hk. unfold is_char_boundary. destruct (l !! k) as [b|] eqn:E.
    - unfold ascii_text in Hl. rewrite Forall_lookup in Hl. specialize (Hl k b E). unfold cont. lia.
    - apply lookup_ge_None in E. apply Nat.eqb_eq. lia. }
  by rewrite !Hb by lia.
Qed.

Lemma strip_z l : strip_suffix [Zch] (l ++ [Zch]) = Some l.
Proof.
  unfold strip_suffix, ends_with. rewrite length_app. cbn [length]. rewrite (proj2 (Nat.leb_le _ _)) by lia.
  replace (length l + 1 - 1)%nat with (length l) by lia. rewrite drop_app_length, bytes_eqb_refl, take_app_length. done.
Qed.

Lemma ascii_z l : ascii_text l -> ascii_text (l ++ [Zch]).
Proof. intros H. apply Forall_app. split; [done|]. apply Forall_cons_2; [unfold Zch; lia|apply Forall_nil_2]. Qed.

Definition clock_ok (m d h mi s : Z) : Prop := 1 <= m <= 12 /\ 1 <= d <= 31 /\ 0 <= h < 100 /\ 0 <= mi < 100 /\ 0 <= s < 100.

(** The fields after the year. *)
Definition clock (rest : bytes) (year : Z) : option Z :=
  mon ← str_get 0 2 rest ≫= parse_i64; day ← str_get 2 4 rest ≫= parse_i64; hour ← str_get 4 6 rest ≫= parse_i64;
  mi ← str_get 6 8 rest ≫= parse_i64;
  let sec := default 0 (str_get 8 10 rest ≫= parse_i64) in
  if negb ((1 <=? mon) && (mon <=? 12)) || negb ((1 <=? day) && (day <=? 31)) then None
  else Some (days_from_civil year mon day * 86400 + hour * 3600 + mi * 60 + sec).

Lemma clock_text_ascii m d h mi s : clock_ok m d h mi s -> ascii_text (clock_text m d h mi s).
Proof.
  intros (Hm & Hd & Hh & Hi & Hs). unfold clock_text, ascii_text. rewrite !Forall_app.
  split_and!; apply two_ascii; lia.
Qed.

Lemma clock_read y m d h mi s : clock_ok m d h mi s -> clock (clock_text m d h mi s) y = Some (unix_time y m d h mi s).
Proof.
  intros Hok. pose proof (clock_text_ascii _ _ _ _ _ Hok) as Ha. destruct Hok as (Hm & Hd & Hh & Hi & Hs).
  unfold clock. rewrite !str_get_ascii by (done || cbn; lia).
  change (slice 0 2 (clock_text m d h mi s)) with (two m). change (slice 2 4 (clock_text m d h mi s)) with (two d).
  change (slice 4 6 (clock_text m d h mi s)) with (two h). change (slice 6 8 (clock_text m d h mi s)) with (two mi).
  change (slice 8 10 (clock_text m d h mi s)) with (two s). cbn [mbind option_bind]. rewrite !parse_two by lia. cbn [mbind option_bind default].
  by rewrite (proj2 (Z.leb_le 1 m)), (proj2 (Z.leb_le m 12)), (proj2 (Z.leb_le 1 d)), (proj2 (Z.leb_le d 31)) by lia.
Qed.

Lemma general_time y m d h mi s :
  0 <= y < 10000 -> clock_ok m d h mi s ->
  parse_asn1_time 0x18 ((four y ++ clock_text m d h mi s) ++ [Zch]) = Some (unix_time y m d h mi s).
Proof.
  intros Hy Hok. pose proof (clock_text_ascii _ _ _ _ _ Hok) as Ha.
  assert (ascii_text (four y ++ clock_text m d h mi s)) as Haa.
  { apply Forall_app. split; [|done]. unfold four. apply Forall_app. split; apply two_ascii; Z.to_euclidean_division_equations; lia. }
  unfold parse_asn1_time. rewrite utf8_valid_ascii, strip_z by (done || by apply ascii_z).
  cbn [negb mbind option_bind]. change (24 =? 23) with false. change (24 =? 24) with true. cbn iota.
  rewrite str_get_ascii by (done || cbn; lia). change (slice 0 4 (four y ++ clock_text m d h mi s)) with (four y).
  cbn [mbind option_bind]. rewrite parse_four by done. cbn [mbind option_bind].
  change (drop 4 (four y ++ clock_text m d h mi s)) with (clock_text m d h mi s). by apply clock_read.
Qed.

Lemma utc_time y m d h mi s :
  1950 <= y < 2050 -> clock_ok m d h mi s ->
  parse_asn1_time 0x17 ((two (y mod 100) ++ clock_text m d h mi s) ++ [Zch]) = Some (unix_time y m d h mi s).
Proof.
  intros Hy Hok. pose proof (clock_text_ascii _ _ _ _ _ Hok) as Ha. pose proof (Z.mod_pos_bound y 100 ltac:(lia)) as Hp.
  assert (ascii_text (two (y mod 100) ++ clock_text m d h mi s)) as Haa.
  { apply Forall_app. split; [|done]. apply two_ascii. lia. }
  unfold parse_asn1_time. rewrite utf8_valid_ascii, strip_z by (done || by apply ascii_z).
  cbn [negb mbind option_bind]. change (23 =? 23) with true. cbn iota.
  rewrite str_get_ascii by (done || cbn; lia). change (slice 0 2 (two (y mod 100) ++ clock_text m d h mi s)) with (two (y mod 100)).
  cbn [mbind option_bind]. rewrite parse_two by lia. cbn [mbind option_bind].
  change (drop 2 (two (y mod 100) ++ clock_text m d h mi s)) with (clock_text m d h mi s).
  assert ((if y mod 100 <? 50 then 2000 + y mod 100 else 1900 + y mod 100) = y) as ->; [|by apply clock_read].
  destruct (Z.ltb_spec (y mod 100) 50); Z.to_euclidean_division_equations; lia.
Qed.

(** ** Certificates, encoded and read back *)
Record Elem := mkElem { e_tag : Z; e_len : bytes; e_content : bytes }.

(** A definite length, short or long; the long form need not be minimal. *)
Definition len_ok (h : bytes) (n : Z) : Prop :=
  (h = [n] /\ 0 <= n < 128) \/ exists k, (1 <= k <= 4)%nat /\ h = (128 + Z.of_nat k) :: to_be_bytes k n /\ 0 <= n < 256 ^ Z.of_nat k.

Definition elem_ok (e : Elem) : Prop := len_ok (e_len e) (Z.of_nat (length (e_content e))).

Definition enc (e : Elem) : bytes := e_tag e :: e_len e ++ e_content e.

Definition slice_fits (l : bytes) : Prop := Z.of_nat (length l) <= max_uint USIZE.

Lemma long_len_run l : forall pre post acc,
  long_len (length l) (length pre) (pre ++ l ++ post) acc = Some (foldl (fun a b => Z.lor (Z.shiftl a 8) b) acc l).
Proof.
  induction l as [|b l IH]; intros pre post acc; cbn [length long_len foldl]; [done|].
  rewrite lookup_app_r, Nat.sub_diag by lia. cbn [lookup list_lookup app mbind option_bind].
  replace (S (length pre)) with (length (pre ++ [b])) by (rewrite length_app; cbn; lia).
  replace (pre ++ b :: l ++ post) with ((pre ++ [b]) ++ l ++ post) by by rewrite <- app_assoc. apply IH.
Qed.

Lemma shifted_bytes l acc :
  bytes_ok l -> foldl (fun a b => Z.lor (Z.shiftl a 8) b) acc l = acc * 256 ^ Z.of_nat (length l) + from_be_bytes l.
Proof.
  induction l as [|b l IH] using rev_ind; intros Hl; [cbn; lia|]. apply Forall_app in Hl as [Hl Hb]. apply Forall_inv in Hb.
  rewrite foldl_snoc, IH, lor_shiftl by (done || unfold byte_ok in Hb; lia). unfold from_be_bytes. rewrite reverse_snoc. cbn [from_le_bytes].
  rewrite length_app. cbn [length]. rewrite Nat2Z.inj_add, Z.pow_add_r by lia. change (2 ^ 8) with 256. change (256 ^ Z.of_nat 1) with 256. lia.
Qed.

Lemma land_low k : (1 <= k <= 4)%nat -> Z.land (128 + Z.of_nat k) 127 = Z.of_nat k.
Proof. intros Hk. assert (k = 1 \/ k = 2 \/ k = 3 \/ k = 4)%nat as Hc by lia. by destruct_or! Hc; subst k. Qed.

(** An element is read where it stands, whatever is around it. *)
Lemma read_tlv_enc pre e post :
  elem_ok e -> slice_fits (pre ++ enc e ++ post) ->
  read_tlv (pre ++ enc e ++ post) (length pre) = Some (mkTlv (e_tag e) (e_content e) (length pre + length (enc e))).
Proof.
  intros Hok Hfit. unfold slice_fits in Hfit. destruct e as [t h c]. unfold elem_ok, enc in *. cbn [e_tag e_len e_content] in *.
  set (hdr := (1 + length h)%nat).
  assert (exists lb h', h = lb :: h' /\
    tlv_len (pre ++ (t :: h ++ c) ++ post) (length pre) lb = Some (Z.of_nat (length c), hdr)) as (lb & h' & -> & Hlen).
  { destruct Hok as [[-> Hn]|(k & Hk & -> & Hn)].
    - eexists _, _. split; [done|]. unfold tlv_len. by rewrite (proj2 (Z.ltb_lt _ 128)) by lia.
    - eexists _, _. split; [done|]. unfold tlv_len. rewrite (proj2 (Z.ltb_ge _ 128)) by lia. cbv zeta. rewrite land_low, Nat2Z.id by done.
      rewrite (proj2 (Nat.eqb_neq k 0)), (proj2 (Nat.ltb_ge 4 k)) by lia. cbn [orb].
      set (lb := 128 + Z.of_nat k). set (l := to_be_bytes k (Z.of_nat (length c))).
      replace (pre ++ (t :: (lb :: l) ++ c) ++ post) with ((pre ++ [t; lb]) ++ l ++ c ++ post)
        by (rewrite <- !app_assoc; cbn; by rewrite <- ?app_assoc).
      replace (length pre + 2)%nat with (length (pre ++ [t; lb])) by (rewrite length_app; done).
      assert (length l = k) as Hl by apply length_to_be_bytes. pose proof (long_len_run l (pre ++ [t; lb]) (c ++ post) 0) as Hr. rewrite Hl in Hr.
      rewrite Hr. rewrite shifted_bytes by apply to_be_bytes_ok. cbn [mbind option_bind]. subst l. rewrite from_to_be_bytes by done.
      subst hdr. cbn [length]. rewrite length_to_be_bytes. done. }
  assert ((pre ++ (t :: (lb :: h') ++ c) ++ post) !! length pre = Some t) as H0 by (rewrite lookup_app_r, Nat.sub_diag by lia; done).
  assert ((pre ++ (t :: (lb :: h') ++ c) ++ post) !! (length pre + 1)%nat = Some lb) as H1
    by (rewrite lookup_app_r by lia; replace (length pre + 1 - length pre)%nat with 1%nat by lia; done).
  unfold read_tlv. rewrite H0. cbn [mbind option_bind]. rewrite H1. cbn [mbind option_bind]. rewrite Hlen. cbn [mbind option_bind]. clear H0 H1 Hlen Hok.
  rewrite !length_app in Hfit. cbn [length app] in Hfit. rewrite !length_app in Hfit. subst hdr. cbn [length].
  unfold checked_add. rewrite (proj2 (Z.leb_le _ _)) by lia. cbn [mbind option_bind].
  rewrite (proj2 (Z.ltb_ge _ _)) by (repeat (rewrite length_app || cbn [length]); lia).
  f_equal. f_equal; [|repeat (rewrite length_app || cbn [length]); lia].
  replace (pre ++ (t :: (lb :: h') ++ c) ++ post) with ((pre ++ t :: lb :: h') ++ c ++ post) by (rewrite <- !app_assoc; cbn; by rewrite <- ?app_assoc).
  apply slice_at; rewrite length_app; cbn [length]; lia.
Qed.

(** A certificate around its validity: an optional version, three fields in
    front and anything after. *)
Record Cert := mkCert {
  c_outer : bytes;
  c_tbs : bytes;
  c_version : option Elem;
  c_serial : Elem;
  c_alg : Elem;
  c_issuer : Elem;
  c_validity : bytes;
  c_not_before : Elem;
  c_not_after : Elem;
  c_more : bytes;
  c_rest : bytes;
  c_signature : bytes;
  c_trailing : bytes
}.

Definition version_bytes (c : Cert) : bytes := match c_version c with Some v => enc v | None => [] end.
Definition validity_elem (c : Cert) : Elem := mkElem 0x30 (c_validity c) (enc (c_not_before c) ++ enc (c_not_after c) ++ c_more c).
Definition tbs_elem (c : Cert) : Elem :=
  mkElem 0x30 (c_tbs c) (version_bytes c ++ enc (c_serial c) ++ enc (c_alg c) ++ enc (c_issuer c) ++ enc (validity_elem c) ++ c_rest c).
Definition cert_elem (c : Cert) : Elem := mkElem 0x30 (c_outer c) (enc (tbs_elem c) ++ c_signature c).
Definition cert_bytes (c : Cert) : bytes := enc (cert_elem c) ++ c_trailing c.

Record cert_ok (c : Cert) : Prop := {
  k_elems : Forall elem_ok [cert_elem c; tbs_elem c; c_serial c; c_alg c; c_issuer c; validity_elem c; c_not_before c; c_not_after c];
  k_version : match c_version c with Some v => e_tag v = 0xA0 /\ elem_ok v | None => e_tag (c_serial c) <> 0xA0 end;
  k_fits : slice_fits (cert_bytes c)
}.

Lemma slice_fits_le (a b : bytes) : (length a <= length b)%nat -> slice_fits b -> slice_fits a.
Proof. unfold slice_fits. lia. Qed.

Lemma content_fits e pre post l : slice_fits l -> l = pre ++ enc e ++ post -> slice_fits (e_content e).
Proof.
  intros H ->. eapply slice_fits_le; [|done]. unfold enc. repeat (rewrite length_app || cbn [length]). lia.
Qed.

Lemma read_at l n pre e post :
  l = pre ++ enc e ++ post -> n = length pre -> elem_ok e -> slice_fits l ->
  read_tlv l n = Some (mkTlv (e_tag e) (e_content e) (length (pre ++ enc e))).
Proof. intros -> -> He Hf. rewrite length_app. by apply read_tlv_enc. Qed.

(** Reads the next field, which stands after [pre]. *)
Ltac next_field pre e :=
  erewrite (read_at _ _ pre e);
  [cbn [mbind option_bind tag content tlv_end e_tag e_content]|by rewrite <- ?app_assoc|try done|done|done].

(** The fields of the body, up to the validity. *)
Lemma read_body c :
  cert_ok c -> let body := e_content (tbs_elem c) in
  slice_fits body ->
  (first ← read_tlv body 0; serial ← read_tlv body (if tag first =? 0xA0 then tlv_end first else 0%nat);
   alg ← read_tlv body (tlv_end serial); issuer ← read_tlv body (tlv_end alg); read_tlv body (tlv_end issuer)) =
  Some (mkTlv 0x30 (e_content (validity_elem c)) (length (version_bytes c ++ enc (c_serial c) ++ enc (c_alg c) ++ enc (c_issuer c) ++ enc (validity_elem c)))).
Proof.
  intros [Hel Hv _] body Hf. repeat (apply Forall_cons in Hel as [? Hel]).
  assert (exists first, read_tlv body 0 = Some first /\ (if tag first =? 160 then tlv_end first else 0%nat) = length (version_bytes c)) as (first & -> & Hoff).
  { subst body. unfold tbs_elem, version_bytes in *. cbn [e_content] in *. destruct (c_version c) as [v|]; cbn [app] in *.
    - destruct Hv as [Ht Hv]. next_field (@nil Z) v. eexists. split; [done|]. cbn [tag tlv_end]. by rewrite Ht.
    - next_field (@nil Z) (c_serial c). eexists. split; [done|]. cbn [tag tlv_end]. by rewrite (proj2 (Z.eqb_neq _ _)). }
  cbn [mbind option_bind]. rewrite Hoff. subst body. unfold tbs_elem in *. cbn [e_content] in *.
  next_field (version_bytes c) (c_serial c).
  next_field (version_bytes c ++ enc (c_serial c)) (c_alg c).
  next_field ((version_bytes c ++ enc (c_serial c)) ++ enc (c_alg c)) (c_issuer c).
  next_field (((version_bytes c ++ enc (c_serial c)) ++ enc (c_alg c)) ++ enc (c_issuer c)) (validity_elem c).
  by rewrite <- !app_assoc.
Qed.

(** The validity of a certificate is read as its two times say, whatever the
    other fields hold. *)
Lemma parse_validity_cert c nb na :
  cert_ok c -> parse_asn1_time (e_tag (c_not_before c)) (e_content (c_not_before c)) = Some nb ->
  parse_asn1_time (e_tag (c_not_after c)) (e_content (c_not_after c)) = Some na ->
  parse_validity (cert_bytes c) = Some (nb, na).
Proof.
  intros Hok Hnb Hna. pose proof Hok as [Hel Hv Hf]. repeat (apply Forall_cons in Hel as [? Hel]).
  assert (slice_fits (e_content (cert_elem c))) as Hf1 by (eapply (content_fits _ []); [exact Hf|done]).
  assert (slice_fits (e_content (tbs_elem c))) as Hf2 by (eapply (content_fits (tbs_elem c) []); [exact Hf1|done]).
  assert (slice_fits (e_content (validity_elem c))) as Hf3.
  { eapply (content_fits (validity_elem c) (version_bytes c ++ enc (c_serial c) ++ enc (c_alg c) ++ enc (c_issuer c))); [exact Hf2|].
    cbn [tbs_elem e_content]. by rewrite <- !app_assoc. }
  unfold parse_validity, cert_bytes in *. next_field (@nil Z) (cert_elem c). cbn [cert_elem e_tag e_content] in *. change (negb (48 =? 48)) with false. cbn iota.
  next_field (@nil Z) (tbs_elem c). change (e_tag (tbs_elem c)) with 48. change (negb (48 =? 48)) with false. cbn iota.
  pose proof (read_body c Hok Hf2) as Hb. cbv zeta in Hb. set (body := e_content (tbs_elem c)) in *.
  destruct (read_tlv body 0) as [first|]; [|done]. cbn [mbind option_bind] in *. cbv zeta.
  destruct (read_tlv body (if tag first =? 160 then _ else _)) as [serial|]; [|done]. cbn [mbind option_bind] in *.
  destruct (read_tlv body (tlv_end serial)) as [alg|]; [|done]. cbn [mbind option_bind] in *.
  destruct (read_tlv body (tlv_end alg)) as [issuer|]; [|done]. cbn [mbind option_bind] in *. rewrite Hb. cbn [mbind option_bind tag content].
  change (negb (48 =? 48)) with false. cbn iota. cbn [e_content validity_elem] in *.
  next_field (@nil Z) (c_not_before c). rewrite Hnb. cbn [mbind option_bind].
  next_field (enc (c_not_before c)) (c_not_after c). by rewrite Hna.
Qed.

(** A point in time, and its element in either form. *)
Record Stamp := mkStamp { y_ : Z; m_ : Z; d_ : Z; h_ : Z; mi_ : Z; s_ : Z }.

Definition unix (t : Stamp) : Z := unix_time (y_ t) (m_ t) (d_ t) (h_ t) (mi_ t) (s_ t).

Definition time_elem (general : bool) (t : Stamp) : Elem :=
  let rest := clock_text (m_ t) (d_ t) (h_ t) (mi_ t) (s_ t) in
  if general then mkElem 0x18 [15] ((four (y_ t) ++ rest) ++ [Zch]) else mkElem 0x17 [13] ((two (y_ t mod 100) ++ rest) ++ [Zch]).

Definition stamp_ok (general : bool) (t : Stamp) : Prop :=
  (if general then 0 <= y_ t < 10000 else 1950 <= y_ t < 2050) /\ clock_ok (m_ t) (d_ t) (h_ t) (mi_ t) (s_ t).

Lemma time_elem_read g t : stamp_ok g t -> parse_asn1_time (e_tag (time_elem g t)) (e_content (time_elem g t)) = Some (unix t).
Proof. intros [Hy Hc]. destruct g; [by apply general_time|by apply utc_time]. Qed.

(** C25. A certificate that states two points in time, in either form, is read back
    to them, in seconds of the calendar: whatever its lengths, its version and
    its other fields. *)
Theorem validity_roundtrip c g1 t1 g2 t2 :
  cert_ok c -> stamp_ok g1 t1 -> stamp_ok g2 t2 -> c_not_before c = time_elem g1 t1 -> c_not_after c = time_elem g2 t2 ->
  parse_validity (cert_bytes c) = Some (unix t1, unix t2).
Proof. intros Hok H1 H2 E1 E2. apply parse_validity_cert; [done| |]; rewrite ?E1, ?E2; by apply time_elem_read. Qed.

Definition sample_cert : Cert :=
  mkCert (0x82 :: [0; 101]) [0x81; 95] (Some (mkElem 0xA0 [3] [2; 1; 2])) (mkElem 2 [1] [7]) (mkElem 0x30 [12] (replicate 12 6)) (mkElem 0x30 [0] [])
    [32] (time_elem false (mkStamp 2024 2 29 23 59 59)) (time_elem true (mkStamp 2050 1 1 0 0 0)) [] (replicate 37 3) [3; 1; 0] [].

Lemma validity_roundtrip_witness : parse_validity (cert_bytes sample_cert) = Some (1709251199, 2524608000).
Proof.
  rewrite (validity_roundtrip sample_cert false (mkStamp 2024 2 29 23 59 59) true (mkStamp 2050 1 1 0 0 0)).
  - vm_compute. reflexivity.
  - constructor.
    + repeat (apply Forall_cons_2; [first [left; split; [reflexivity|vm_compute; split; [discriminate|reflexivity]]
        | right; exists 2%nat; split; [lia|]; split; [reflexivity|vm_compute; split; [discriminate|reflexivity]]
        | right; exists 1%nat; split; [lia|]; split; [reflexivity|vm_compute; split; [discriminate|reflexivity]]]|]). apply Forall_nil_2.
    + split; [reflexivity|]. left. split; [reflexivity|]. vm_compute. split; [discriminate|reflexivity].
    + vm_compute. discriminate.
  - split; [cbn; lia|]. unfold clock_ok. cbn. lia.
  - split; [cbn; lia|]. unfold clock_ok. cbn. lia.
  - reflexivity.
  - reflexivity.
Defined.

(** ** Due *)
Definition nonneg (f : f64) : Prop := match f with S754_zero s | S754_infinity s | S754_finite s _ _ => s = false | S754_nan => True end.

Lemma round_nonneg m e l : nonneg (binary_round_aux 53 1024 false m e l).
Proof. unfold binary_round_aux. repeat case_match; done. Qed.

Lemma f64_of_nonneg z : 0 <= z -> nonneg (f64_of z).
Proof. intros Hz. unfold f64_of, binary_normalize. destruct z; [done| |lia]. unfold binary_round. case_match. apply round_nonneg. Qed.

Lemma f64_mul_nonneg a b : nonneg a -> nonneg b -> nonneg (f64_mul a b).
Proof. destruct a, b; cbn; intros; subst; try done. apply round_nonneg. Qed.

Lemma f64_as_i64_nonneg f : nonneg f -> 0 <= f64_as_i64 f.
Proof.
  destruct f as [s|s| |s m e]; cbn; intros; subst; try lia. cbn. case_match; zify_bool.
  - assert (0 <= Z.pos m * 2 ^ e) by (apply Z.mul_nonneg_nonneg; [lia|apply Z.pow_nonneg; lia]). lia.
  - assert (0 <= Z.pos m / 2 ^ (- e)) by (apply Z.div_pos; [lia|apply Z.pow_pos_nonneg; lia]). lia.
Qed.

(** A leaf that has expired is due, at any fraction; and one that is due stays
    due until it is replaced. *)
Lemma due_expired now nb na fr : nonneg fr -> na <= now -> due now nb na fr = true.
Proof.
  intros Hf Hn. unfold due. apply Z.leb_le. pose proof (f64_as_i64_nonneg _ (f64_mul_nonneg _ _ (f64_of_nonneg (Z.max (na - nb) 1) ltac:(lia)) Hf)). lia.
Qed.

Lemma due_stays now now' nb na fr : now <= now' -> due now nb na fr = true -> due now' nb na fr = true.
Proof. unfold due. rewrite !Z.leb_le. lia. Qed.

(** ** The scheduler is paced *)

(** Events of one name, a time apart. *)
Definition spaced (gap : Z) (evs : list (Z * bytes)) : Prop :=
  forall i j t1 t2 sni, (i < j)%nat -> evs !! i = Some (t1, sni) -> evs !! j = Some (t2, sni) -> gap <= t2 - t1.

Lemma spaced_snoc gap evs t sni : spaced gap evs -> (forall t', (t', sni) ∈ evs -> gap <= t - t') -> spaced gap (evs ++ [(t, sni)]).
Proof.
  intros Hs Hn i j t1 t2 x Hij Hi Hj. destruct (decide (j < length evs)%nat).
  - rewrite lookup_app_l in Hi, Hj by lia. exact (Hs i j t1 t2 x Hij Hi Hj).
  - rewrite lookup_app_r in Hj by lia. apply list_lookup_singleton_Some in Hj as [Hj [= <- <-]]. rewrite lookup_app_l in Hi by lia.
    apply Hn. by eapply list_elem_of_lookup_2.
Qed.

Section paced.
Context (cfg : SweepCfg) (remint : Z -> bytes -> bool).

Local Abbreviation gap := (as_i64 (min_reattempt cfg)).

(** What was attempted is remembered, at its latest time. *)
Record paced (last : gmap bytes Z) (evs : list (Z * bytes)) : Prop := {
  pa_spaced : spaced gap evs;
  pa_last : forall t sni, (t, sni) ∈ evs -> exists l, last !! sni = Some l /\ t <= l
}.

Definition events (now : Z) (l : list (bytes * bool)) : list (Z * bytes) := (fun '(sni, _) => (now, sni)) <$> l.

Lemma sweep_entry_paced now force s e evs :
  0 <= gap -> paced (last_attempt s) (evs ++ events now (attempts s)) ->
  paced (last_attempt (sweep_entry cfg remint now force s e)) (evs ++ events now (attempts (sweep_entry cfg remint now force s e))).
Proof.
  intros Hg [Hs Hl]. unfold sweep_entry.
  destruct (negb (is_dir e)); [by constructor|]. destruct (negb (plausible_sni _)); [by constructor|].
  destruct (leaf e) as [der|]; [|by constructor]. destruct (parse_validity der) as [[nb na]|]; [|by constructor].
  destruct (negb (due _ _ _ _ || force)); [by constructor|]. set (sni := from_utf8_lossy (file_name e)).
  destruct (rate_limited cfg now (last_attempt s) sni) eqn:E; [by constructor|]. cbn [last_attempt attempts].
  unfold events in *. rewrite fmap_app, app_assoc. cbn [fmap list_fmap].
  assert (forall t', (t', sni) ∈ evs ++ ((fun '(x, _) => (now, x)) <$> attempts s) -> gap <= now - t') as Hn.
  { intros t' Ht. destruct (Hl t' sni Ht) as (l & Hl1 & Hl2). unfold rate_limited in E. rewrite Hl1 in E. lia. }
  constructor; [by apply spaced_snoc|]. intros t x [Ht|Ht%list_elem_of_singleton]%elem_of_app.
  - destruct (decide (x = sni)) as [->|Hx]; [|rewrite lookup_insert_ne by done; by apply Hl].
    exists now. rewrite lookup_insert_eq. split; [done|]. specialize (Hn t Ht). lia.
  - simplify_eq. exists now. rewrite lookup_insert_eq. split; [done|lia].
Qed.

Lemma sweep_paced now force dir last evs :
  0 <= gap -> paced last evs ->
  paced (last_attempt (sweep cfg remint now force dir last)) (evs ++ events now (attempts (sweep cfg remint now force dir last))).
Proof.
  intros Hg Hp. unfold sweep. destruct dir as [l|]; [|by rewrite app_nil_r]. assert (paced (last_attempt (mkSweep last [])) (evs ++ events now (attempts (mkSweep last [])))) as H
    by by rewrite app_nil_r. revert H. generalize (mkSweep last []) as s. induction l as [|e l IH]; intros s H; cbn; [done|]. by apply IH, sweep_entry_paced.
Qed.

Definition all_events (rs : list Round) : list (Z * bytes) := concat ((fun r => events (r_now r) (r_attempts r)) <$> rs).

Lemma scheduler_paced leaf_cfg on ts : forall last evs,
  0 <= gap -> paced last evs -> forall lf sf, spaced gap (evs ++ all_events (scheduler cfg remint leaf_cfg on lf sf last ts)).
Proof.
  induction ts as [|t ts IH]; intros last evs Hg Hp lf sf; cbn [scheduler]; [rewrite app_nil_r; apply Hp|].
  unfold all_events. cbn [fmap list_fmap concat r_now r_attempts]. rewrite app_assoc. apply IH; [done|].
  destruct on; [by apply sweep_paced|]. by rewrite app_nil_r.
Qed.
End paced.

(** An entry whose leaf should be re-minted now. *)
Definition wanted (cfg : SweepCfg) (now : Z) (force : bool) (e : DirEntry) : bool :=
  is_dir e && plausible_sni (from_utf8_lossy (file_name e)) &&
  match leaf e ≫= parse_validity with Some (nb, na) => due now nb na (fraction cfg) || force | None => false end.

Definition sni_of (e : DirEntry) : bytes := from_utf8_lossy (file_name e).

Lemma sweep_entry_wanted cfg remint now force s e :
  sweep_entry cfg remint now force s e =
    if wanted cfg now force e && negb (rate_limited cfg now (last_attempt s) (sni_of e))
    then mkSweep (<[sni_of e := now]> (last_attempt s)) (attempts s ++ [(sni_of e, remint now (sni_of e))]) else s.
Proof.
  unfold sweep_entry, wanted, sni_of. destruct (is_dir e); [|done]. destruct (plausible_sni _); [|done]. cbn [negb andb].
  destruct (leaf e) as [der|]; [|done]. cbn [mbind option_bind]. destruct (parse_validity der) as [[nb na]|]; [|done].
  destruct (due _ _ _ _ || force); [|done]. cbn [negb andb]. by destruct (rate_limited _ _ _ _).
Qed.

(** The attempts of a sweep are wanted; and after it a wanted leaf was
    attempted within the gap. *)
Lemma sweep_timely cfg remint now force dir last :
  0 < as_i64 (min_reattempt cfg) ->
  let s := sweep cfg remint now force (Some dir) last in
  (forall sni ok, (sni, ok) ∈ attempts s -> exists e, e ∈ dir /\ sni = sni_of e /\ wanted cfg now force e = true) /\
  (forall e, e ∈ dir -> wanted cfg now force e = true -> exists l, last_attempt s !! sni_of e = Some l /\ now - l < as_i64 (min_reattempt cfg)).
Proof.
  intros Hg. cbn [sweep]. induction dir as [|e dir [IH1 IH2]] using rev_ind; cbn zeta in *; [split; set_solver|].
  rewrite foldl_snoc. set (s := foldl _ _ dir) in *. rewrite sweep_entry_wanted.
  destruct (wanted cfg now force e) eqn:Ew; cbn [andb].
  - destruct (rate_limited cfg now (last_attempt s) (sni_of e)) eqn:Er; cbn [negb last_attempt attempts].
    + split; [intros sni ok H; destruct (IH1 sni ok H) as (e' & ? & ?); exists e'; set_solver|].
      intros e' [He|He%list_elem_of_singleton]%elem_of_app Hw; [auto|]. subst e'. unfold rate_limited in Er.
      destruct (last_attempt s !! sni_of e) as [l|]; [|done]. exists l. split; [done|]. lia.
    + split.
      * intros sni ok [H|H%list_elem_of_singleton]%elem_of_app; [destruct (IH1 sni ok H) as (e' & ? & ?); exists e'; set_solver|].
        simplify_eq. exists e. set_solver.
      * intros e' He Hw. destruct (decide (sni_of e' = sni_of e)) as [->|Hne]; [exists now; rewrite lookup_insert_eq; split; [done|lia]|].
        rewrite lookup_insert_ne by done. apply elem_of_app in He as [He|He%list_elem_of_singleton]; [auto|congruence].
  - split; [intros sni ok H; destruct (IH1 sni ok H) as (e' & ? & ?); exists e'; set_solver|].
    intros e' [He|He%list_elem_of_singleton]%elem_of_app Hw; [auto|congruence].
Qed.

(** Whatever the clock, the cache and the issuer do: two attempts for the same
    name are a gap apart; only directories with a plausible name and a parsed
    leaf that is due (or forced) are attempted; and after a sweep every such
    leaf has been attempted within the gap. An expired leaf is due. *)
Theorem renewals_paced cfg remint leaf_cfg on lf sf ts :
  0 < min_reattempt cfg < 2 ^ 63 ->
  spaced (as_i64 (min_reattempt cfg)) (all_events (scheduler cfg remint leaf_cfg on lf sf ∅ ts)) /\
  (forall now force dir last,
    let s := sweep cfg remint now force (Some dir) last in
    (forall sni ok, (sni, ok) ∈ attempts s -> exists e, e ∈ dir /\ sni = sni_of e /\ wanted cfg now force e = true) /\
    (forall e, e ∈ dir -> wanted cfg now force e = true -> exists l, last_attempt s !! sni_of e = Some l /\ now - l < min_reattempt cfg)) /\
  (forall now nb na, nonneg (fraction cfg) -> na <= now -> due now nb na (fraction cfg) = true).
Proof.
  intros Hm. assert (as_i64 (min_reattempt cfg) = min_reattempt cfg) as Hg.
  { unfold as_i64. by rewrite (proj2 (Z.ltb_lt _ _)) by lia. }
  split_and!.
  - apply (scheduler_paced cfg remint leaf_cfg on ts ∅ []); [lia|]. constructor; [intros ? ? ? ? ? ? [=]|intros t sni H; by apply elem_of_nil in H].
  - intros now force dir last. rewrite <- Hg. apply sweep_timely. lia.
  - intros. by apply due_expired.
Qed.

Definition sample_sweep : SweepCfg := mkSweepCfg (bs "https://ca") (bs "cache") (bs "www") (bs "acme-issue") None None one_third 100.
Definition sample_dir : option (list DirEntry) := Some [mkEntry (bs "a.example") true (Some (cert_bytes sample_cert)); mkEntry (bs "notes") false None].

Lemma renewals_paced_witness :
  all_events (scheduler sample_sweep (fun _ _ => true) None true false false ∅
                [mkTick 2524608000 None sample_dir; mkTick 2524608099 None sample_dir; mkTick 2524608100 None sample_dir]) =
    [(2524608000, bs "a.example"); (2524608100, bs "a.example")] /\
  spaced (as_i64 (min_reattempt sample_sweep)) (all_events (scheduler sample_sweep (fun _ _ => true) None true false false ∅
                [mkTick 2524608000 None sample_dir; mkTick 2524608099 None sample_dir; mkTick 2524608100 None sample_dir])).
Proof.
  split; [vm_compute; reflexivity|]. apply (renewals_paced sample_sweep (fun _ _ => true) None true false false). vm_compute. split; reflexivity.
Defined.

(** ** Configuration *)
Definition dirname (path : bytes) : bytes :=
  match rposition (fun b => b =? 47) path with Some O => [47] | Some i => take i path | None => bs "." end.

Record RenewCfg := mkRenewCfg {
  rn_dir_url : bytes; rn_domain : bytes; rn_webroot : bytes; rn_outdir : bytes; rn_issue_bin : bytes; rn_contact : option bytes;
  rn_account_key : option bytes; rn_leaf_path : bytes; rn_fraction : f64; rn_check_secs : Z
}.

Section environment.
Context (getenv : string -> option bytes) (parse_f64 : bytes -> option f64).

Definition env_or (k : string) (d : bytes) : bytes := default d (getenv k).
Definition env_opt (k : string) : option bytes := v ← getenv k; if bool_decide (v = []) then None else Some v.

Definition env_fraction : f64 :=
  default one_third (f ← getenv "DRORB_ACME_RENEW_FRACTION" ≫= parse_f64; if SFltb (S754_zero false) f && SFltb f (f64_of 1) then Some f else None).

Definition env_check_secs : Z :=
  default 3600 (s ← getenv "DRORB_ACME_CHECK_SECS" ≫= parse_uint 64; if 0 <? s then Some s else None).

Definition env_force_now : bool := bool_decide (getenv "DRORB_ACME_RENEW_NOW" = Some (bs "1")).

Definition renew_cfg : option RenewCfg :=
  dir_url ← getenv "DRORB_ACME_RENEW";
  domain ← env_opt "DRORB_ACME_DOMAIN";
  let outdir := match env_opt "DRORB_ACME_OUTDIR" with Some d => d | None => dirname (env_or "DRORB_TLS_ECDSA_CERT" (bs "conformance/tls/ecdsa-cert.der")) end in
  let webroot := env_or "DRORB_ACME_WEBROOT" outdir in
  let leaf_path := match env_opt "DRORB_TLS_ECDSA_CERT" with Some p => p | None => outdir ++ bs "/ecdsa-cert.der" end in
  Some (mkRenewCfg dir_url domain webroot outdir (env_or "DRORB_ACME_ISSUE_BIN" (bs ".lake/build/bin/acme-issue")) (env_opt "DRORB_ACME_CONTACT")
          (env_opt "DRORB_ACME_ACCOUNT_KEY") leaf_path env_fraction env_check_secs).

Definition sweep_cfg : option SweepCfg :=
  dir_url ← env_opt "DRORB_TLS_ONDEMAND";
  let cache_dir := default (bs "ondemand-tls") (env_opt "DRORB_TLS_ONDEMAND_DIR") in
  let webroot := match env_opt "DRORB_TLS_ONDEMAND_WEBROOT" with Some w => w | None => default cache_dir (env_opt "DRORB_ACME_WEBROOT") end in
  let min_reattempt := default (6 * 3600) (s ← env_opt "DRORB_TLS_ONDEMAND_RENEW_COOLDOWN" ≫= parse_uint 64; if 0 <? s then Some s else None) in
  Some (mkSweepCfg dir_url cache_dir webroot (env_or "DRORB_ACME_ISSUE_BIN" (bs ".lake/build/bin/acme-issue")) (env_opt "DRORB_ACME_CONTACT")
          (env_opt "DRORB_ACME_ACCOUNT_KEY") env_fraction min_reattempt).

Lemma SFltb_nonneg f : SFltb (S754_zero false) f = true -> nonneg f.
Proof. by destruct f as [|[]| |[]]. Qed.

Lemma one_third_nonneg : nonneg one_third.
Proof. vm_compute. reflexivity. Qed.

(** What the scheduler thread is given, if it is started. *)
Definition install : option (option RenewCfg * option SweepCfg * Z * bool) :=
  match renew_cfg, sweep_cfg with
  | None, None => None
  | leaf, sw => Some (leaf, sw, match leaf with Some c => rn_check_secs c | None => env_check_secs end, env_force_now)
  end.

(** The issuer's arguments. *)
Definition issue (c : RenewCfg) : list bytes :=
  [rn_dir_url c; rn_domain c; rn_webroot c; rn_outdir c] ++ match rn_contact c with Some k => [k] | None => [] end.
Definition remint_args (c : SweepCfg) (sni : bytes) : list bytes :=
  [dir_url c; sni; webroot c; cache_dir c ++ 47 :: sni] ++ match contact c with Some k => [k] | None => [] end.

(** A name that passes names one directory of the cache. *)
Lemma plausible_component sni : plausible_sni sni = true -> (47 ∉ sni) /\ sni <> bs ".." /\ sni <> [].
Proof.
  unfold plausible_sni. rewrite !andb_true_iff. intros [[[Hne _] Hdd] Hall]. split_and!.
  - intros Hin%list_elem_of_In. rewrite forallb_forall in Hall. by specialize (Hall _ Hin).
  - intros ->. by vm_compute in Hdd.
  - intros ->. by vm_compute in Hne.
Qed.

(** The gap is positive, and so is the fraction. *)
Lemma sweep_cfg_ok c : sweep_cfg = Some c -> 0 < min_reattempt c < 2 ^ 64 /\ nonneg (fraction c).
Proof.
  unfold sweep_cfg. destruct (env_opt "DRORB_TLS_ONDEMAND"); [|done]. cbn [mbind option_bind]. intros [= <-]. cbn [min_reattempt fraction]. split.
  - destruct (env_opt "DRORB_TLS_ONDEMAND_RENEW_COOLDOWN") as [v|]; cbn; [|lia]. destruct (parse_uint 64 v) as [s|] eqn:E; cbn; [|lia].
    apply parse_uint_fits in E; [|lia]. unfold fits in E. case_match; cbn; lia.
  - unfold env_fraction. destruct (getenv _ ≫= parse_f64) as [f|]; cbn [mbind option_bind default]; [|apply one_third_nonneg].
    destruct (SFltb (S754_zero false) f) eqn:E; cbn [andb]; [|apply one_third_nonneg].
    case_match; [by apply SFltb_nonneg|apply one_third_nonneg].
Qed.
End environment.

(** A gap over half the range wraps when it is cast, and limits nothing. *)
Example huge_gap_limits_nothing : as_i64 (2 ^ 64 - 1) = -1.
Proof. reflexivity. Qed.

(** A time is read even when its day or its clock does not exist. *)
Example lenient_times :
  parse_asn1_time 0x18 (bs "20250231250099Z") = Some (days_from_civil 2025 3 3 * 86400 + 25 * 3600 + 99) /\
  is_Some (parse_asn1_time 0x17 (bs "-9+1+1-1+1Z")).
Proof. split; [vm_compute; reflexivity|vm_compute; eauto]. Qed.
