(* ===== verification/L4Uring.v ===== *)
(** * The layer-4 relay on io_uring

    [l4_uring.rs]: flows of two directions, each a pipe between two sockets that
    is filled and drained in turn by splices, one operation in flight per
    direction. The kernel ([complete]) executes an operation whenever it likes,
    moves as much as it likes and may fail; the peers ([LArrive], [LFin]) send
    whenever they like. The reactor handles one completion per step, which
    includes every batch of its loop. *)
From S2P Require Import Prelude Bytes.

Local Open Scope Z_scope.

Definition SPLICE_CHUNK : Z := 64 * 1024.
Definition ACCEPT_UD : Z := Z.shiftl 1 63.
Definition EAGAIN : Z := 11.

Inductive Phase := Fill | Drain.

Record Dir := mkDir { src : Z; dst : Z; pipe_r : Z; pipe_w : Z; phase : Phase; pending : Z; done : bool }.

(** [dirs[0]] is client to upstream, [dirs[1]] the other way. *)
Record Flow := mkFlow { client : Z; upstream : Z; dir0 : Dir; dir1 : Dir }.

Definition dir_at (f : Flow) (b : bool) : Dir := if b then dir1 f else dir0 f.
Definition set_dir (f : Flow) (b : bool) (d : Dir) : Flow :=
  if b then mkFlow (client f) (upstream f) (dir0 f) d else mkFlow (client f) (upstream f) d (dir1 f).

Inductive Op := OAccept | OFill (from pipe : Z) | ODrain (pipe to len : Z).
Record Sqe := mkSqe { op : Op; user_data : Z }.

#[export] Instance Op_eq_dec : EqDecision Op.
Proof. solve_decision. Defined.
#[export] Instance Sqe_eq_dec : EqDecision Sqe.
Proof. solve_decision. Defined.

Definition dir_ud (slot : nat) (dir : bool) : Z := Z.lor (wrap 64 (Z.shiftl (Z.of_nat slot) 1)) (Z.b2z dir).

Definition fill_sqe (d : Dir) (ud : Z) : Sqe := mkSqe (OFill (src d) (pipe_w d)) ud.
Definition drain_sqe (d : Dir) (ud len : Z) : Sqe := mkSqe (ODrain (pipe_r d) (dst d) len) ud.
Definition accept_sqe : Sqe := mkSqe OAccept ACCEPT_UD.

(** ** Descriptors

    A socket: what its peer has sent, how much of it was taken, whether the
    peer closed; what was sent to the peer, and whether that half was shut. A
    pipe is known by its read end; [wends] maps the write end to it. *)
Record Sock := mkSock { sent : bytes; taken : nat; fin : bool; out : bytes; shut : bool }.
Record World := mkWorld { socks : gmap Z Sock; pipes : gmap Z bytes; wends : gmap Z Z }.

Definition new_sock : Sock := mkSock [] 0 false [] false.

Definition is_open (w : World) (fd : Z) : Prop := is_Some (socks w !! fd) \/ is_Some (pipes w !! fd) \/ is_Some (wends w !! fd).

(** What the kernel may hand out. *)
Definition fresh_fd (w : World) (fd : Z) : bool :=
  (0 <=? fd) && (fd <? 2 ^ 31) && bool_decide (socks w !! fd = None) && bool_decide (pipes w !! fd = None) && bool_decide (wends w !! fd = None).

Definition close (fd : Z) (w : World) : World := mkWorld (delete fd (socks w)) (delete fd (pipes w)) (delete fd (wends w)).
Definition open_sock (fd : Z) (w : World) : World := mkWorld (<[fd := new_sock]> (socks w)) (pipes w) (wends w).
Definition open_pipe (r wr : Z) (w : World) : World := mkWorld (socks w) (<[r := []]> (pipes w)) (<[wr := r]> (wends w)).
Definition set_sock (fd : Z) (s : Sock) (w : World) : World := mkWorld (<[fd := s]> (socks w)) (pipes w) (wends w).
Definition set_pipe (fd : Z) (c : bytes) (w : World) : World := mkWorld (socks w) (<[fd := c]> (pipes w)) (wends w).

Definition shutdown_wr (fd : Z) (w : World) : World :=
  match socks w !! fd with Some s => set_sock fd (mkSock (sent s) (taken s) (fin s) (out s) true) w | None => w end.

(** [Flow::drop], with the drops of the two sockets. *)
Definition flow_fds (f : Flow) : list Z := [client f; upstream f; pipe_r (dir0 f); pipe_w (dir0 f); pipe_r (dir1 f); pipe_w (dir1 f)].
Definition drop_flow (f : Flow) (w : World) : World := foldl (fun w fd => close fd w) w (flow_fds f).

(** ** The reactor *)
Record Reactor := mkReactor {
  flows : list (option Flow);
  free : list nat;
  backlog : list Sqe;
  inflight : list Sqe;
  cqes : list (Z * Z);
  world : World
}.

Definition push (e : Sqe) (s : Reactor) : Reactor := mkReactor (flows s) (free s) (backlog s ++ [e]) (inflight s) (cqes s) (world s).
Definition set_world (w : World) (s : Reactor) : Reactor := mkReactor (flows s) (free s) (backlog s) (inflight s) (cqes s) w.
Definition set_flows (l : list (option Flow)) (fr : list nat) (s : Reactor) : Reactor := mkReactor l fr (backlog s) (inflight s) (cqes s) (world s).

(** [None]: a free slot out of range, a panic. *)
Definition insert_flow (f : Flow) (s : Reactor) : option (nat * Reactor) :=
  match vec_pop (free s) with
  | Some (fr, slot) => if (slot <? length (flows s))%nat then Some (slot, set_flows (<[slot := Some f]> (flows s)) fr s) else None
  | None => Some (length (flows s), set_flows (flows s ++ [Some f]) [] s)
  end.

Definition remove_flow (slot : nat) (s : Reactor) : Reactor :=
  match flows s !! slot with
  | Some (Some f) => set_world (drop_flow f (world s)) (set_flows (<[slot := None]> (flows s)) (vec_push (free s) slot) s)
  | _ => s
  end.

(** What the host answers for an accepted client: whether a backend was picked
    and has an address, the socket of the dial, the two pipes. *)
Record Env := mkEnv { e_pick : bool; e_addr : bool; e_dial : option Z; e_pipe1 : option (Z * Z); e_pipe2 : option (Z * Z) }.

Definition new_dir (s d r w : Z) : Dir := mkDir s d r w Fill 0 false.

(** The outer [None]: an answer the kernel cannot give. *)
Definition begin_flow (e : Env) (cfd : Z) (s : Reactor) : option Reactor :=
  let refuse w := Some (set_world (close cfd w) s) in
  if negb (e_pick e) then refuse (world s)
  else if negb (e_addr e) then refuse (world s)
  else match e_dial e with
       | None => refuse (world s)
       | Some ufd =>
           if negb (fresh_fd (world s) ufd) then None
           else
             let w1 := open_sock ufd (world s) in
             match e_pipe1 e with
             | None => refuse (close ufd w1)
             | Some (r1, p1) =>
                 if negb (fresh_fd w1 r1 && fresh_fd w1 p1 && negb (r1 =? p1)) then None
                 else
                   let w2 := open_pipe r1 p1 w1 in
                   match e_pipe2 e with
                   | None => refuse (close ufd (close p1 (close r1 w2)))
                   | Some (r2, p2) =>
                       if negb (fresh_fd w2 r2 && fresh_fd w2 p2 && negb (r2 =? p2)) then None
                       else
                         let f := mkFlow cfd ufd (new_dir cfd ufd r1 p1) (new_dir ufd cfd r2 p2) in
                         '(slot, s1) ← insert_flow f (set_world (open_pipe r2 p2 w2) s);
                         Some (push (fill_sqe (dir1 f) (dir_ud slot true)) (push (fill_sqe (dir0 f) (dir_ud slot false)) s1))
                   end
             end
       end.

Definition on_accept (e : Env) (res : Z) (s : Reactor) : option Reactor :=
  let s1 := push accept_sqe s in if res <? 0 then Some s1 else begin_flow e res s1.

(** The next operation of a direction, its state and the descriptors. *)
Definition advance (d : Dir) (ud res : Z) (w : World) : Dir * option Sqe * World :=
  let '(mkDir sr ds r wr ph pe dn) := d in
  if res =? - EAGAIN then (d, Some (match ph with Fill => fill_sqe d ud | Drain => drain_sqe d ud pe end), w)
  else match ph with
       | Fill =>
           if res =? 0 then (mkDir sr ds r wr ph pe true, None, shutdown_wr ds w)
           else if res <? 0 then (mkDir sr ds r wr ph pe true, None, w)
           else let d' := mkDir sr ds r wr Drain res dn in (d', Some (drain_sqe d' ud res), w)
       | Drain =>
           if res <=? 0 then (mkDir sr ds r wr ph pe true, None, w)
           else if pe <=? res then let d' := mkDir sr ds r wr Fill 0 dn in (d', Some (fill_sqe d' ud), w)
           else let d' := mkDir sr ds r wr Drain (pe - res) dn in (d', Some (drain_sqe d' ud (pe - res)), w)
       end.

Definition on_flow (slot : nat) (dir : bool) (res : Z) (s : Reactor) : Reactor :=
  let ud := dir_ud slot dir in
  match flows s !! slot with
  | Some (Some f) =>
      if done (dir_at f dir) then s
      else
        let '(d, next, w) := advance (dir_at f dir) ud res (world s) in
        let f' := set_dir f dir d in
        let s1 := set_world w (set_flows (<[slot := Some f']> (flows s)) (free s) s) in
        let s2 := match next with Some e => push e s1 | None => s1 end in
        if done (dir0 f') && done (dir1 f') then remove_flow slot s2 else s2
  | _ => s
  end.

(** One completion of the batch. *)
Definition reap (e : Env) (s : Reactor) : option Reactor :=
  match cqes s with
  | [] => None
  | (ud, res) :: rest =>
      let s1 := mkReactor (flows s) (free s) (backlog s) (inflight s) rest (world s) in
      if ud =? ACCEPT_UD then on_accept e res s1
      else Some (on_flow (Z.to_nat (Z.shiftr ud 1)) (Z.land ud 1 =? 1) res s1)
  end.

Definition flush (s : Reactor) : Reactor := mkReactor (flows s) (free s) [] (inflight s ++ backlog s) (cqes s) (world s).

(** ** The kernel *)
Inductive Outcome := KMove (n : nat) | KZero | KErr (e : Z) | KConn (fd : Z).

(** The result of an operation and the descriptors after it; [None]: not a
    possible outcome. *)
Definition exec (o : Op) (k : Outcome) (w : World) : option (Z * World) :=
  match o, k with
  | _, KErr e => if (0 <? e) && (e <? 4096) then Some (- e, w) else None
  | OAccept, KConn fd => if fresh_fd w fd then Some (fd, open_sock fd w) else None
  | OFill from p, KMove n =>
      s ← socks w !! from; r ← wends w !! p; c ← pipes w !! r;
      if (0 <? n)%nat && (Z.of_nat n <=? SPLICE_CHUNK) && (n <=? length (sent s) - taken s)%nat then
        Some (Z.of_nat n, set_pipe r (c ++ take n (drop (taken s) (sent s)))
                            (set_sock from (mkSock (sent s) (taken s + n) (fin s) (out s) (shut s)) w))
      else None
  | OFill from _, KZero => s ← socks w !! from; if fin s && (taken s =? length (sent s))%nat then Some (0, w) else None
  | ODrain p to len, KMove n =>
      c ← pipes w !! p; s ← socks w !! to;
      if (0 <? n)%nat && (Z.of_nat n <=? len) && (n <=? length c)%nat then
        Some (Z.of_nat n, set_pipe p (drop n c) (set_sock to (mkSock (sent s) (taken s) (fin s) (out s ++ take n c) (shut s)) w))
      else None
  | ODrain _ _ _, KZero => Some (0, w)
  | _, _ => None
  end.

Definition complete (i : nat) (k : Outcome) (s : Reactor) : option Reactor :=
  e ← inflight s !! i;
  '(res, w) ← exec (op e) k (world s);
  Some (mkReactor (flows s) (free s) (backlog s) (delete i (inflight s)) (cqes s ++ [(user_data e, res)]) w).

Inductive Label := LFlush | LComplete (i : nat) (k : Outcome) | LReap (e : Env) | LArrive (fd : Z) (b : bytes) | LFin (fd : Z).

Definition step (l : Label) (s : Reactor) : option Reactor :=
  match l with
  | LFlush => Some (flush s)
  | LComplete i k => complete i k s
  | LReap e => reap e s
  | LArrive fd b =>
      k ← socks (world s) !! fd;
      if fin k then None else Some (set_world (set_sock fd (mkSock (sent k ++ b) (taken k) (fin k) (out k) (shut k)) (world s)) s)
  | LFin fd => k ← socks (world s) !! fd; Some (set_world (set_sock fd (mkSock (sent k) (taken k) true (out k) (shut k)) (world s)) s)
  end.

(** [run], up to its first wait. *)
Definition init : Reactor := mkReactor [] [] [accept_sqe] [] [] (mkWorld ∅ ∅ ∅).

(** ** The discipline *)

(** What a direction sees: its source's stream, its destination's, its pipe. *)
Record View := mkView { v_sent : bytes; v_taken : nat; v_fin : bool; v_out : bytes; v_shut : bool; v_pipe : bytes }.

Definition dview (w : World) (d : Dir) : option View :=
  sk ← socks w !! src d; dk ← socks w !! dst d; r ← wends w !! pipe_w d; c ← pipes w !! pipe_r d;
  if r =? pipe_r d then Some (mkView (sent sk) (taken sk) (fin sk) (out dk) (shut dk) c) else None.

(** Everything taken was delivered or is in the pipe; and a destination is
    half-closed only when all of an ended stream was delivered. *)
Definition view_ok (v : View) (dn : bool) : Prop :=
  v_out v ++ v_pipe v = take (v_taken v) (v_sent v) /\ (v_taken v <= length (v_sent v))%nat /\
  (v_shut v = true -> dn = true /\ v_pipe v = [] /\ v_fin v = true /\ v_taken v = length (v_sent v)).

(** What is outstanding under the tag [u]. *)
Definition ops_at (s : Reactor) (u : Z) : list Sqe := filter (fun e => user_data e = u) (inflight s ++ backlog s).
Definition cqes_at (s : Reactor) (u : Z) : list (Z * Z) := filter (fun c => c.1 = u) (cqes s).

Definition out_ok (d : Dir) (u : Z) (ops : list Sqe) (cq : list (Z * Z)) (v : View) : Prop :=
  if done d then ops = [] /\ cq = []
  else match phase d with
       | Fill =>
           (ops = [fill_sqe d u] /\ cq = [] /\ v_pipe v = []) \/
           (ops = [] /\ exists r, cq = [(u, r)] /\ Z.of_nat (length (v_pipe v)) = Z.max 0 r /\
              (r = 0 -> v_fin v = true /\ v_taken v = length (v_sent v)))
       | Drain =>
           0 < pending d /\
           ((ops = [drain_sqe d u (pending d)] /\ cq = [] /\ Z.of_nat (length (v_pipe v)) = pending d) \/
            (ops = [] /\ exists r, cq = [(u, r)] /\ r <= pending d /\ Z.of_nat (length (v_pipe v)) = pending d - Z.max 0 r))
       end.

Definition dir_ok (s : Reactor) (u : Z) (d : Dir) : Prop :=
  exists v, dview (world s) d = Some v /\ view_ok v (done d) /\ out_ok d u (ops_at s u) (cqes_at s u) v.

Record flow_ok (s : Reactor) (i : nat) (f : Flow) : Prop := {
  fo_ends : src (dir0 f) = client f /\ dst (dir0 f) = upstream f /\ src (dir1 f) = upstream f /\ dst (dir1 f) = client f;
  fo_dirs : forall b, dir_ok s (dir_ud i b) (dir_at f b)
}.

Definition live (s : Reactor) (i : nat) (f : Flow) : Prop := flows s !! i = Some (Some f).

(** The client of an accept that was not handled yet. *)
Definition waiting (s : Reactor) : list Z := omap (fun c => if 0 <=? c.2 then Some c.2 else None) (cqes_at s ACCEPT_UD).

Definition slot_fds (o : option Flow) : list Z := match o with Some f => flow_fds f | None => [] end.
Definition all_fds (s : Reactor) : list Z := concat (slot_fds <$> flows s) ++ waiting s.

(** A socket nothing was taken from or sent to. *)
Definition unused (w : World) (fd : Z) : Prop := exists k, socks w !! fd = Some k /\ taken k = 0%nat /\ out k = [] /\ shut k = false.

Record disciplined (s : Reactor) : Prop := {
  ds_flows : forall i f, live s i f -> flow_ok s i f;
  ds_tags : forall u, u ∈ (user_data <$> (inflight s ++ backlog s)) ++ (fst <$> cqes s) -> u = ACCEPT_UD \/ exists i b f, live s i f /\ u = dir_ud i b;
  ds_accept : (ops_at s ACCEPT_UD = [accept_sqe] /\ cqes_at s ACCEPT_UD = []) \/
              (ops_at s ACCEPT_UD = [] /\ exists r, cqes_at s ACCEPT_UD = [(ACCEPT_UD, r)]);
  ds_free : NoDup (free s) /\ forall i, i ∈ free s <-> flows s !! i = Some None;
  ds_fds : NoDup (all_fds s);
  ds_range : forall fd, fd ∈ all_fds s -> 0 <= fd < 2 ^ 31 /\ is_open (world s) fd;
  ds_slots : Z.of_nat (length (flows s)) <= 2 ^ 31;
  ds_waiting : forall fd, fd ∈ waiting s -> unused (world s) fd
}.

(** Tags of slots in range are distinct, and none is the accept's. *)
Lemma dir_ud_eq i b : Z.of_nat i <= 2 ^ 31 -> dir_ud i b = 2 * Z.of_nat i + Z.b2z b.
Proof.
  intros Hi. unfold dir_ud. rewrite Z.shiftl_mul_pow2 by lia. rewrite wrap_small by (unfold fits; lia).
  rewrite <- Z.shiftl_mul_pow2 by lia. rewrite lor_shiftl by (destruct b; cbn; lia). lia.
Qed.

Lemma dir_ud_inj i b j c : Z.of_nat i <= 2 ^ 31 -> Z.of_nat j <= 2 ^ 31 -> dir_ud i b = dir_ud j c -> i = j /\ b = c.
Proof. intros Hi Hj. rewrite !dir_ud_eq by done. destruct b, c; cbn [Z.b2z]; intros; split; (lia || done). Qed.

Lemma dir_ud_accept i b : Z.of_nat i <= 2 ^ 31 -> dir_ud i b <> ACCEPT_UD.
Proof. intros Hi. rewrite dir_ud_eq by done. change ACCEPT_UD with (2 ^ 63). destruct b; cbn [Z.b2z]; lia. Qed.

Lemma dir_ud_decode i b : Z.of_nat i <= 2 ^ 31 -> Z.to_nat (Z.shiftr (dir_ud i b) 1) = i /\ (Z.land (dir_ud i b) 1 =? 1) = b.
Proof.
  intros Hi. rewrite dir_ud_eq by done. rewrite Z.shiftr_div_pow2 by lia. change 1 with (Z.ones 1) at 2. rewrite Z.land_ones by lia.
  change (2 ^ 1) with 2. split; [|destruct b; cbn [Z.b2z]; Z.to_euclidean_division_equations; lia].
  destruct b; cbn [Z.b2z]; Z.to_euclidean_division_equations; lia.
Qed.

Lemma live_slot s i f : disciplined s -> live s i f -> Z.of_nat i <= 2 ^ 31.
Proof. intros [] H%lookup_lt_Some. lia. Qed.

(** ** Lists of tags *)
Lemma filter_delete_hit {A} (P : A -> Prop) `{forall x, Decision (P x)} (l : list A) i x k :
  l !! i = Some x -> P x -> filter P (l ++ k) = [x] -> filter P (delete i l ++ k) = [].
Proof.
  intros Hi Hx Hf. rewrite filter_app in *. rewrite (delete_take_drop l i). rewrite <- (take_drop_middle l i x Hi) in Hf.
  rewrite !filter_app, filter_cons_True in Hf by done. rewrite filter_app.
  destruct (filter P (take i l)) as [|y ?]; cbn in Hf; simplify_eq.
  - destruct (filter P (drop (S i) l)), (filter P k); cbn in *; done.
  - destruct l0; done.
Qed.

Lemma filter_delete_miss {A} (P : A -> Prop) `{forall x, Decision (P x)} (l : list A) i x k :
  l !! i = Some x -> ~ P x -> filter P (delete i l ++ k) = filter P (l ++ k).
Proof.
  intros Hi Hx. rewrite (delete_take_drop l i). rewrite <- (take_drop_middle l i x Hi) at 3. by rewrite !filter_app, filter_cons_False.
Qed.

Lemma concat_lookup_perm {A} (L : list (list A)) i a : L !! i = Some a -> concat L ≡ₚ a ++ concat (<[i := []]> L).
Proof.
  revert i. induction L as [|b L IH]; intros [|i] H; cbn in *; simplify_eq; [done|]. rewrite (IH i H) at 1. apply Permutation_app_swap_app.
Qed.

Lemma elem_of_concat {A} (x : A) L : x ∈ concat L <-> exists l, x ∈ l /\ l ∈ L.
Proof. rewrite list_elem_of_In, in_concat. split; intros (l & H1 & H2); exists l; by rewrite ?list_elem_of_In, <- ?list_elem_of_In in *. Qed.

Lemma NoDup_concat_disjoint {A} (L : list (list A)) i j a b x :
  NoDup (concat L) -> L !! i = Some a -> L !! j = Some b -> i <> j -> x ∈ a -> x ∈ b -> False.
Proof.
  intros Hn Hi Hj Hij Ha Hb. rewrite (concat_lookup_perm L i a Hi) in Hn. apply NoDup_app in Hn as (_ & Hd & _).
  apply (Hd x Ha). apply elem_of_concat. exists b. split; [done|]. apply list_elem_of_lookup. exists j. by rewrite list_lookup_insert_ne.
Qed.

Definition ends_ok (f : Flow) : Prop :=
  src (dir0 f) = client f /\ dst (dir0 f) = upstream f /\ src (dir1 f) = upstream f /\ dst (dir1 f) = client f.

Lemma dir_fds f b x : ends_ok f -> x = src (dir_at f b) \/ x = dst (dir_at f b) \/ x = pipe_r (dir_at f b) \/ x = pipe_w (dir_at f b) -> x ∈ flow_fds f.
Proof.
  intros (E1 & E2 & E3 & E4) H. unfold flow_fds. destruct b; cbn in H; rewrite ?E1, ?E2, ?E3, ?E4 in H; destruct_or! H; subst x; set_solver.
Qed.

Section fds.
Context (s : Reactor) (Hd : disciplined s).

Lemma live_fds i f : live s i f -> NoDup (flow_fds f).
Proof.
  intros Hl. destruct Hd as [_ _ _ _ Hn _ _ _]. unfold all_fds in Hn. apply NoDup_app in Hn as (Hn & _ & _).
  assert ((slot_fds <$> flows s) !! i = Some (flow_fds f)) as Hi by (rewrite list_lookup_fmap; unfold live in Hl; by rewrite Hl).
  rewrite (concat_lookup_perm _ i _ Hi) in Hn. by apply NoDup_app in Hn as (? & _ & _).
Qed.

Lemma live_disjoint i f j g x : live s i f -> live s j g -> i <> j -> x ∈ flow_fds f -> x ∈ flow_fds g -> False.
Proof.
  intros Hi Hj Hij. destruct Hd as [_ _ _ _ Hn _ _ _]. unfold all_fds in Hn. apply NoDup_app in Hn as (Hn & _ & _).
  apply (NoDup_concat_disjoint _ i j _ _ x Hn); [..|done]; rewrite list_lookup_fmap; unfold live in *; by rewrite ?Hi, ?Hj.
Qed.

Lemma live_all_fds i f x : live s i f -> x ∈ flow_fds f -> x ∈ concat (slot_fds <$> flows s).
Proof.
  intros Hi Hx. apply elem_of_concat. exists (flow_fds f). split; [done|]. apply list_elem_of_fmap. exists (Some f). split; [done|].
  by eapply list_elem_of_lookup_2.
Qed.

(** Two directions share a source or a pipe only if they are the same. *)
Lemma dirs_apart i f b j g c :
  live s i f -> live s j g -> (i, b) <> (j, c) ->
  src (dir_at g c) <> src (dir_at f b) /\ dst (dir_at g c) <> dst (dir_at f b) /\ pipe_r (dir_at g c) <> pipe_r (dir_at f b) /\ pipe_w (dir_at g c) <> pipe_w (dir_at f b).
Proof.
  intros Hi Hj Hne. pose proof (ds_flows s Hd i f Hi) as [(E1 & E2 & E3 & E4) _]. pose proof (ds_flows s Hd j g Hj) as [(F1 & F2 & F3 & F4) _].
  assert (forall b x, x ∈ [src (dir_at f b); dst (dir_at f b); pipe_r (dir_at f b); pipe_w (dir_at f b)] -> x ∈ flow_fds f) as Hf
    by (intros [] x; unfold flow_fds; cbn; rewrite ?E1, ?E2, ?E3, ?E4; set_solver).
  assert (forall b x, x ∈ [src (dir_at g b); dst (dir_at g b); pipe_r (dir_at g b); pipe_w (dir_at g b)] -> x ∈ flow_fds g) as Hg
    by (intros [] x; unfold flow_fds; cbn; rewrite ?F1, ?F2, ?F3, ?F4; set_solver).
  destruct (decide (i = j)) as [->|Hij].
  - assert (f = g) as -> by (unfold live in *; congruence). pose proof (live_fds j g Hi) as Hn. unfold flow_fds in Hn.
    rewrite !NoDup_cons in Hn. destruct b, c; try congruence; cbn; rewrite ?F1, ?F2, ?F3, ?F4; set_solver.
  - split_and!.
    + intros E; eapply (live_disjoint i f j g (src (dir_at f b)) Hi Hj Hij); [apply (Hf b)|apply (Hg c); rewrite <- E]; set_solver.
    + intros E; eapply (live_disjoint i f j g (dst (dir_at f b)) Hi Hj Hij); [apply (Hf b)|apply (Hg c); rewrite <- E]; set_solver.
    + intros E; eapply (live_disjoint i f j g (pipe_r (dir_at f b)) Hi Hj Hij); [apply (Hf b)|apply (Hg c); rewrite <- E]; set_solver.
    + intros E; eapply (live_disjoint i f j g (pipe_w (dir_at f b)) Hi Hj Hij); [apply (Hf b)|apply (Hg c); rewrite <- E]; set_solver.
Qed.
End fds.

(** ** Views under the kernel's updates *)
Lemma dview_fill_frame w d fd k k' r c :
  socks w !! fd = Some k -> out k' = out k -> shut k' = shut k -> src d <> fd -> pipe_r d <> r ->
  dview (set_pipe r c (set_sock fd k' w)) d = dview w d.
Proof.
  intros Hk Ho Hs Hne Hr. unfold dview. cbn. rewrite (lookup_insert_ne _ fd (src d)), (lookup_insert_ne _ r) by congruence.
  destruct (socks w !! src d); [|done]. cbn. destruct (decide (dst d = fd)) as [->|]; [|by rewrite lookup_insert_ne by congruence].
  rewrite lookup_insert_eq, Hk. cbn. by rewrite Ho, Hs.
Qed.

Lemma dview_drain_frame w d fd k k' r c :
  socks w !! fd = Some k -> sent k' = sent k -> taken k' = taken k -> fin k' = fin k -> dst d <> fd -> pipe_r d <> r ->
  dview (set_pipe r c (set_sock fd k' w)) d = dview w d.
Proof.
  intros Hk H1 H2 H3 Hne Hr. unfold dview. cbn. rewrite (lookup_insert_ne _ r), (lookup_insert_ne _ fd (dst d)) by congruence.
  destruct (decide (src d = fd)) as [->|]; [|by rewrite lookup_insert_ne by congruence].
  rewrite lookup_insert_eq, Hk. cbn. by rewrite H1, H2, H3.
Qed.

Lemma dview_open_sock w d fd : src d <> fd -> dst d <> fd -> dview (open_sock fd w) d = dview w d.
Proof. intros H1 H2. unfold dview. cbn. by rewrite !lookup_insert_ne by congruence. Qed.

Lemma dview_Some w d v :
  dview w d = Some v -> exists sk dk c, socks w !! src d = Some sk /\ socks w !! dst d = Some dk /\ wends w !! pipe_w d = Some (pipe_r d) /\ pipes w !! pipe_r d = Some c /\
    v = mkView (sent sk) (taken sk) (fin sk) (out dk) (shut dk) c.
Proof.
  unfold dview. destruct (socks w !! src d) as [sk|], (socks w !! dst d) as [dk|], (wends w !! pipe_w d) as [r|], (pipes w !! pipe_r d) as [c|]; cbn; try done.
  case_match; [|done]. intros [= <-]. zify_bool. subst. by exists sk, dk, c.
Qed.

Lemma dview_fill w d sk dk c n k' :
  socks w !! src d = Some sk -> socks w !! dst d = Some dk -> wends w !! pipe_w d = Some (pipe_r d) -> src d <> dst d ->
  sent k' = sent sk -> taken k' = n -> fin k' = fin sk ->
  dview (set_pipe (pipe_r d) c (set_sock (src d) k' w)) d = Some (mkView (sent sk) n (fin sk) (out dk) (shut dk) c).
Proof.
  intros H1 H2 H3 Hne E1 E2 E3. unfold dview. cbn. rewrite !lookup_insert_eq, lookup_insert_ne, H2, H3 by congruence. cbn. by rewrite Z.eqb_refl, E1, E2, E3.
Qed.

Lemma dview_drain w d sk c o k' :
  socks w !! src d = Some sk -> wends w !! pipe_w d = Some (pipe_r d) -> src d <> dst d -> out k' = o ->
  dview (set_pipe (pipe_r d) c (set_sock (dst d) k' w)) d = Some (mkView (sent sk) (taken sk) (fin sk) o (shut k') c).
Proof.
  intros H1 H3 Hne E1. unfold dview. cbn. rewrite (lookup_insert_ne _ (dst d) (src d)), H1 by congruence. rewrite !lookup_insert_eq, H3. cbn. by rewrite Z.eqb_refl, E1.
Qed.

Lemma open_set_pipe w r c fd k k' x y : pipes w !! r = Some y -> socks w !! fd = Some k -> is_open w x -> is_open (set_pipe r c (set_sock fd k' w)) x.
Proof.
  intros Hp Hk H. unfold is_open in *. cbn. destruct (decide (x = fd)) as [->|]; [left; rewrite lookup_insert_eq; eauto|].
  destruct (decide (x = r)) as [->|]; [right; left; rewrite lookup_insert_eq; eauto|]. by rewrite !lookup_insert_ne by congruence.
Qed.

(** A flow that a step does not touch. *)
Lemma flow_ok_frame s s' i f :
  flow_ok s i f -> (forall b, dview (world s') (dir_at f b) = dview (world s) (dir_at f b)) ->
  (forall b, ops_at s' (dir_ud i b) = ops_at s (dir_ud i b)) -> (forall b, cqes_at s' (dir_ud i b) = cqes_at s (dir_ud i b)) -> flow_ok s' i f.
Proof.
  intros [] Hv Ho Hc. constructor; [done|]. intros b. destruct (fo_dirs0 b) as (v & H1 & H2 & H3). exists v. by rewrite Hv, Ho, Hc.
Qed.

Lemma src_dst_apart s i f b : disciplined s -> live s i f -> src (dir_at f b) <> dst (dir_at f b).
Proof.
  intros Hd Hl. pose proof (live_fds s Hd i f Hl) as Hn. pose proof (ds_flows s Hd i f Hl) as [(E1 & E2 & E3 & E4) _].
  unfold flow_fds in Hn. rewrite !NoDup_cons in Hn. destruct b; cbn; rewrite ?E1, ?E2, ?E3, ?E4; set_solver.
Qed.

(** ** A completion *)
Lemma op_cases s e :
  disciplined s -> e ∈ inflight s ++ backlog s ->
  (e = accept_sqe /\ ops_at s ACCEPT_UD = [accept_sqe] /\ cqes_at s ACCEPT_UD = []) \/
  exists j b f v, let d := dir_at f b in let u := dir_ud j b in
    live s j f /\ user_data e = u /\ dview (world s) d = Some v /\ view_ok v false /\ done d = false /\
    ops_at s u = [e] /\ cqes_at s u = [] /\
    ((phase d = Fill /\ e = fill_sqe d u /\ v_pipe v = []) \/
     (phase d = Drain /\ e = drain_sqe d u (pending d) /\ 0 < pending d /\ Z.of_nat (length (v_pipe v)) = pending d)).
Proof.
  intros Hd He. assert (e ∈ ops_at s (user_data e)) as Hin by (apply list_elem_of_filter; done).
  destruct (ds_tags s Hd (user_data e)) as [Hu|(j & b & f & Hl & Hu)].
  { apply elem_of_app. left. apply list_elem_of_fmap. eauto. }
  - left. rewrite Hu in Hin. destruct (ds_accept s Hd) as [[Ho Hc]|[Ho _]]; rewrite Ho in Hin; [|by apply elem_of_nil in Hin].
    apply list_elem_of_singleton in Hin. done.
  - right. destruct (fo_dirs _ _ _ (ds_flows s Hd j f Hl) b) as (v & Hv & Hvo & Ho). rewrite Hu in Hin. exists j, b, f, v. unfold out_ok in Ho. cbn zeta.
    destruct (done (dir_at f b)); [destruct Ho as [Ho _]; rewrite Ho in Hin; by apply elem_of_nil in Hin|].
    destruct (phase (dir_at f b)).
    + destruct Ho as [(Ho & Hc & Hp)|(Ho & _)]; rewrite Ho in Hin; [|by apply elem_of_nil in Hin].
      apply list_elem_of_singleton in Hin. subst e. rewrite Ho. split_and!; auto.
    + destruct Ho as [Hpe [(Ho & Hc & Hp)|(Ho & _)]]; rewrite Ho in Hin; [|by apply elem_of_nil in Hin].
      apply list_elem_of_singleton in Hin. subst e. rewrite Ho. split_and!; auto.
Qed.

Section completion.
Context (s : Reactor) (i : nat) (e : Sqe) (He : inflight s !! i = Some e) (res : Z) (w : World).

Local Abbreviation s' := (mkReactor (flows s) (free s) (backlog s) (delete i (inflight s)) (cqes s ++ [(user_data e, res)]) w).

Lemma done_ops_hit : ops_at s (user_data e) = [e] -> ops_at s' (user_data e) = [].
Proof using He. intros Ho. unfold ops_at in *. cbn [inflight backlog]. by eapply filter_delete_hit. Qed.

Lemma done_ops_miss u : user_data e <> u -> ops_at s' u = ops_at s u.
Proof using He. intros Hu. unfold ops_at. cbn [inflight backlog]. by eapply filter_delete_miss. Qed.

Lemma done_cqes u : cqes_at s' u = cqes_at s u ++ (if decide (user_data e = u) then [(u, res)] else []).
Proof.
  unfold cqes_at. cbn [cqes]. rewrite filter_app. f_equal. case_decide as Hu; [by rewrite filter_cons_True; [rewrite filter_nil; subst|]|].
  by rewrite filter_cons_False.
Qed.

Lemma done_tags u : u ∈ (user_data <$> (inflight s' ++ backlog s')) ++ (fst <$> cqes s') -> u ∈ (user_data <$> (inflight s ++ backlog s)) ++ (fst <$> cqes s).
Proof using He.
  cbn [inflight backlog cqes]. rewrite !fmap_app. cbn. pose proof (list_elem_of_lookup_2 _ _ _ He) as Hin.
  assert (user_data e ∈ user_data <$> inflight s) by (apply list_elem_of_fmap; eauto).
  assert (forall x, x ∈ user_data <$> delete i (inflight s) -> x ∈ user_data <$> inflight s) as Hdel.
  { intros x (y & -> & Hy)%list_elem_of_fmap. apply list_elem_of_fmap. exists y. split; [done|]. rewrite delete_take_drop in Hy. rewrite <- (take_drop_middle _ _ _ He). set_solver. }
  set_solver.
Qed.
End completion.

Lemma flow_done s i e res w j f b v :
  disciplined s -> inflight s !! i = Some e -> live s j f -> user_data e = dir_ud j b -> ops_at s (dir_ud j b) = [e] -> cqes_at s (dir_ud j b) = [] ->
  (forall j' f' b', live s j' f' -> (j', b') <> (j, b) -> dview w (dir_at f' b') = dview (world s) (dir_at f' b')) ->
  (forall fd, is_open (world s) fd -> is_open w fd) -> (forall fd, fd ∈ waiting s -> socks w !! fd = socks (world s) !! fd) ->
  let d := dir_at f b in let u := dir_ud j b in
  dview w d = Some v -> view_ok v (done d) -> out_ok d u [] [(u, res)] v ->
  disciplined (mkReactor (flows s) (free s) (backlog s) (delete i (inflight s)) (cqes s ++ [(user_data e, res)]) w).
Proof.
  intros Hd He Hl Hu Ho Hc Hframe Hopen Hsock d u Hv Hvo Hout. set (s' := mkReactor _ _ _ _ _ _). pose proof (live_slot s j f Hd Hl) as Hj.
  assert (forall u', u' <> u -> ops_at s' u' = ops_at s u' /\ cqes_at s' u' = cqes_at s u') as Hother.
  { intros u' Hne. assert (user_data e <> u') as Hne' by (rewrite Hu; intros E; by apply Hne).
    split; [by apply done_ops_miss|]. unfold s'. rewrite done_cqes, decide_False by done. by rewrite app_nil_r. }
  assert (ops_at s' u = [] /\ cqes_at s' u = [(u, res)]) as [Hou Hcu].
  { split; [unfold u; rewrite <- Hu; apply done_ops_hit; [done|by rewrite Hu]|]. unfold s'. rewrite done_cqes, decide_True by done. unfold u. by rewrite Hc. }
  assert (ACCEPT_UD <> u) as Hacc by (intros E; by apply (dir_ud_accept j b Hj)).
  assert (waiting s' = waiting s) as Hw by (unfold waiting; by rewrite (proj2 (Hother ACCEPT_UD Hacc))).
  pose proof Hd as []. constructor.
  - intros j' f' Hl'. destruct (decide (j' = j)) as [->|Hne].
    + assert (f' = f) as -> by (unfold live in *; cbn in *; congruence). destruct (ds_flows0 j f Hl) as [He1 He2]. constructor; [done|].
      intros b'. destruct (decide (b' = b)) as [->|Hb]; [exists v; unfold u in *; by rewrite Hou, Hcu|].
      destruct (He2 b') as (v' & H1 & H2 & H3). destruct (Hother (dir_ud j b')) as [E1 E2]; [intros []%dir_ud_inj; done|].
      exists v'. rewrite E1, E2. cbn [world s']. rewrite (Hframe j f b') by (done || congruence). done.
    + apply (flow_ok_frame s); [by apply ds_flows0|..]; intros b'.
      * cbn [world s']. apply (Hframe j' f' b'); [done|congruence].
      * apply Hother. pose proof (live_slot s j' f' Hd Hl'). intros []%dir_ud_inj; done.
      * apply Hother. pose proof (live_slot s j' f' Hd Hl'). intros []%dir_ud_inj; done.
  - intros u' Hin. apply done_tags in Hin; [|done]. by apply ds_tags0.
  - destruct (Hother ACCEPT_UD Hacc) as [-> ->]. done.
  - done.
  - unfold all_fds. rewrite Hw. done.
  - intros fd. unfold all_fds. rewrite Hw. intros Hfd. destruct (ds_range0 fd Hfd). auto.
  - done.
  - rewrite Hw. intros fd Hfd. destruct (ds_waiting0 fd Hfd) as (k & Hk & Hrest). exists k. cbn [world s']. by rewrite Hsock.
Qed.

Lemma accept_done s i res w :
  disciplined s -> inflight s !! i = Some accept_sqe -> ops_at s ACCEPT_UD = [accept_sqe] -> cqes_at s ACCEPT_UD = [] ->
  (res < 0 /\ w = world s) \/ (fresh_fd (world s) res = true /\ w = open_sock res (world s)) ->
  disciplined (mkReactor (flows s) (free s) (backlog s) (delete i (inflight s)) (cqes s ++ [(ACCEPT_UD, res)]) w).
Proof.
  intros Hd He Ho Hc Hres. change ACCEPT_UD with (user_data accept_sqe) at 1. set (s' := mkReactor _ _ _ _ _ _).
  assert (forall u, u <> ACCEPT_UD -> ops_at s' u = ops_at s u /\ cqes_at s' u = cqes_at s u) as Hother.
  { intros u Hne. split; [apply done_ops_miss; [done|by apply not_eq_sym]|]. unfold s'. rewrite done_cqes, decide_False by by apply not_eq_sym. by rewrite app_nil_r. }
  assert (ops_at s' ACCEPT_UD = []) as Hou by (by apply (done_ops_hit s i accept_sqe)).
  assert (cqes_at s' ACCEPT_UD = [(ACCEPT_UD, res)]) as Hcu by (unfold s'; rewrite done_cqes, decide_True, Hc by done; done).
  assert (waiting s' = if 0 <=? res then [res] else []) as Hw by (unfold waiting; rewrite Hcu; cbn; by destruct (0 <=? res)).
  assert (waiting s = []) as Hw0 by (unfold waiting; by rewrite Hc).
  pose proof Hd as [H1 H2 H3 H4 H5 H6 H7 H8]. unfold all_fds in H5, H6. rewrite Hw0, app_nil_r in H5, H6.
  assert (forall fd, fd ∈ concat (slot_fds <$> flows s) -> res < 0 \/ fd <> res) as Hnew.
  { intros fd Hfd. destruct Hres as [[? _]|[Hf _]]; [by left|right]. intros ->. destruct (H6 _ Hfd) as [_ Ho']. unfold fresh_fd, is_open in *.
    rewrite !andb_true_iff in Hf. destruct Hf as [[[_ E1%bool_decide_eq_true] E2%bool_decide_eq_true] E3%bool_decide_eq_true].
    rewrite E1, E2, E3 in Ho'. destruct Ho' as [[]|[[]|[]]]; done. }
  constructor.
  - intros j f Hl. pose proof (live_slot s j f Hd Hl) as Hj. apply (flow_ok_frame s); [by apply H1|..]; intros b; [|apply Hother, dir_ud_accept; done..].
    cbn [world s']. destruct Hres as [[_ ->]|[_ ->]]; [done|]. destruct (H1 j f Hl) as [(E1 & E2 & E3 & E4) _].
    assert (forall x, x ∈ flow_fds f -> x <> res) as Hx.
    { intros x Hx. destruct (Hnew x (live_all_fds s j f x Hl Hx)) as [Hlt|]; [|done]. intros ->. destruct (H6 res (live_all_fds s j f res Hl Hx)). lia. }
    unfold flow_fds in Hx. apply dview_open_sock; destruct b; cbn; rewrite ?E1, ?E2, ?E3, ?E4; apply Hx; set_solver.
  - intros u Hin. apply done_tags in Hin; [|done]. by apply H2.
  - right. eauto.
  - done.
  - unfold all_fds. rewrite Hw. cbn [flows s']. case_match; [|by rewrite app_nil_r]. zify_bool. apply NoDup_app. split_and!; [done| |apply NoDup_singleton].
    intros fd Hfd ->%list_elem_of_singleton. destruct (Hnew res Hfd); [lia|done].
  - intros fd. unfold all_fds. rewrite Hw. cbn [flows world s']. rewrite elem_of_app. intros [Hfd|Hfd].
    + destruct (H6 fd Hfd) as [? Hop]. split; [done|]. destruct Hres as [[_ ->]|[_ ->]]; [done|]. unfold is_open, open_sock in *. cbn.
      destruct (decide (fd = res)) as [->|]; [left; rewrite lookup_insert_eq; eauto|]. by rewrite !lookup_insert_ne by congruence.
    + case_match; [|by apply elem_of_nil in Hfd]. apply list_elem_of_singleton in Hfd as ->. zify_bool. destruct Hres as [[? _]|[Hf ->]]; [lia|].
      unfold fresh_fd in Hf. rewrite !andb_true_iff in Hf. split; [lia|]. left. cbn. rewrite lookup_insert_eq. eauto.
  - done.
  - intros fd. rewrite Hw. case_match; [|intros Hin; by apply elem_of_nil in Hin]. intros ->%list_elem_of_singleton. cbn [world s']. zify_bool.
    destruct Hres as [[? _]|[_ ->]]; [lia|]. exists new_sock. cbn. by rewrite lookup_insert_eq.
Qed.

Lemma take_snoc_run {A} (l : list A) t n : take t l ++ take n (drop t l) = take (t + n) l.
Proof. by rewrite take_take_drop. Qed.

Lemma waiting_apart s (Hd : disciplined s) i f b fd : live s i f -> fd ∈ waiting s -> fd <> src (dir_at f b) /\ fd <> dst (dir_at f b).
Proof.
  intros Hl Hw. pose proof (ds_fds s Hd) as Hn. apply NoDup_app in Hn as (_ & Hdis & _). pose proof (ds_flows s Hd i f Hl) as [(E1 & E2 & E3 & E4) _].
  split; intros ->; (eapply Hdis; [eapply (live_all_fds s i f); [done|]|exact Hw]); unfold flow_fds; destruct b; cbn; rewrite ?E1, ?E2, ?E3, ?E4; set_solver.
Qed.

Ltac nat_bool :=
  repeat match goal with
  | H : (_ <=? _)%nat = true |- _ => apply Nat.leb_le in H
  | H : (_ <? _)%nat = true |- _ => apply Nat.ltb_lt in H
  end.

Lemma complete_disciplined s i k s' : disciplined s -> complete i k s = Some s' -> disciplined s'.
Proof.
  intros Hd Hs. unfold complete in Hs. destruct (inflight s !! i) as [e|] eqn:He; [|done]. cbn [mbind option_bind] in Hs.
  destruct (exec (op e) k (world s)) as [[res w]|] eqn:Hx; [|done]. cbn [mbind option_bind] in Hs. simplify_eq.
  destruct (op_cases s e Hd) as [(-> & Ho & Hc)|(j & b & f & v & Hl & Hu & Hv & Hvo & Hdn & Ho & Hc & Hph)];
    [apply elem_of_app; left; by eapply list_elem_of_lookup_2| |].
  { apply accept_done; [done..|]. cbn in Hx. destruct k as [m| |er|fd]; try done; case_match; simplify_eq; [left; split; [lia|done]|by right]. }
  set (d := dir_at f b) in *. pose proof (src_dst_apart s j f b Hd Hl) as Hsd. fold d in Hsd.
  destruct (dview_Some _ _ _ Hv) as (sk & dk & c & E1 & E2 & E3 & E4 & ->). destruct Hvo as (Hpre & Hle & Hshut). cbn in Hpre, Hle, Hshut, Hph.
  destruct Hph as [(Hph & -> & ->)|(Hph & -> & Hpe & Hlen)]; cbn [op fill_sqe drain_sqe] in Hx.
  - destruct k as [m| |er|fd]; cbn [exec] in Hx; try done.
    + rewrite E1 in Hx. cbn [mbind option_bind] in Hx. rewrite E3 in Hx. cbn [mbind option_bind] in Hx. rewrite E4 in Hx. cbn [mbind option_bind] in Hx. case_match; [|done]. simplify_eq. rewrite !andb_true_iff in *.
      destruct_and! H. nat_bool. apply (flow_done s i (fill_sqe d (dir_ud j b)) _ _ j f b (mkView (sent sk) (taken sk + m) (fin sk) (out dk) (shut dk) (take m (drop (taken sk) (sent sk))))); try done.
      * intros j' f' b' Hl' Hne. destruct (dirs_apart s Hd j f b j' f' b' Hl Hl') as (? & ? & ? & ?); [congruence|]. by apply (dview_fill_frame _ _ _ sk).
      * intros fd. by eapply open_set_pipe.
      * intros fd Hfd. cbn. rewrite lookup_insert_ne; [done|]. intros <-. by apply (waiting_apart s Hd j f b) in Hfd as [].
      * apply (dview_fill _ _ sk dk); done.
      * unfold view_ok. cbn. rewrite app_nil_r in Hpre. rewrite Hpre, take_snoc_run. split_and!; [done|lia|]. fold d. rewrite Hdn. intros ?%Hshut. naive_solver.
      * unfold out_ok. fold d. rewrite Hdn, Hph. right. split; [done|]. eexists. split; [done|]. cbn. rewrite length_take, length_drop. lia.
    + rewrite E1 in Hx. cbn [mbind option_bind] in Hx. case_match; [|done]. simplify_eq. apply andb_true_iff in H as [Hfin Hall%Nat.eqb_eq].
      apply (flow_done s i (fill_sqe d (dir_ud j b)) 0 _ j f b _ Hd He Hl Hu Ho Hc ltac:(done) ltac:(done) ltac:(done) Hv).
      * fold d. rewrite Hdn. done.
      * unfold out_ok. fold d. rewrite Hdn, Hph. right. split; [done|]. exists 0. done.
    + case_match; [|done]. simplify_eq.
      apply (flow_done s i (fill_sqe d (dir_ud j b)) (- er) _ j f b _ Hd He Hl Hu Ho Hc ltac:(done) ltac:(done) ltac:(done) Hv).
      * fold d. rewrite Hdn. done.
      * unfold out_ok. fold d. rewrite Hdn, Hph. right. split; [done|]. exists (- er). split_and!; [done|cbn; lia|lia].
  - destruct k as [m| |er|fd]; cbn [exec] in Hx; try done.
    + rewrite E4 in Hx. cbn [mbind option_bind] in Hx. rewrite E2 in Hx. cbn [mbind option_bind] in Hx. case_match; [|done]. simplify_eq. rewrite !andb_true_iff in *. destruct_and! H. nat_bool.
      apply (flow_done s i (drain_sqe d (dir_ud j b) (pending d)) _ _ j f b (mkView (sent sk) (taken sk) (fin sk) (out dk ++ take m c) (shut dk) (drop m c))); try done.
      * intros j' f' b' Hl' Hne. destruct (dirs_apart s Hd j f b j' f' b' Hl Hl') as (? & ? & ? & ?); [congruence|]. by apply (dview_drain_frame _ _ _ dk).
      * intros fd. by eapply open_set_pipe.
      * intros fd Hfd. cbn. rewrite lookup_insert_ne; [done|]. intros <-. by apply (waiting_apart s Hd j f b) in Hfd as [].
      * fold d. by rewrite (dview_drain _ _ sk _ (out dk ++ take m c)) by done.
      * unfold view_ok. cbn. rewrite <- app_assoc, take_drop. split_and!; [done..|]. fold d. rewrite Hdn. intros ?%Hshut. naive_solver.
      * unfold out_ok. fold d. rewrite Hdn, Hph. split; [done|]. right. split; [done|]. eexists. split; [done|]. cbn. rewrite length_drop. lia.
    + simplify_eq. apply (flow_done s i (drain_sqe d (dir_ud j b) (pending d)) 0 _ j f b _ Hd He Hl Hu Ho Hc ltac:(done) ltac:(done) ltac:(done) Hv).
      * fold d. rewrite Hdn. done.
      * unfold out_ok. fold d. rewrite Hdn, Hph. split; [done|]. right. split; [done|]. exists 0. cbn. split_and!; [done|lia|lia].
    + case_match; [|done]. simplify_eq.
      apply (flow_done s i (drain_sqe d (dir_ud j b) (pending d)) (- er) _ j f b _ Hd He Hl Hu Ho Hc ltac:(done) ltac:(done) ltac:(done) Hv).
      * fold d. rewrite Hdn. done.
      * unfold out_ok. fold d. rewrite Hdn, Hph. split; [done|]. right. split; [done|]. exists (- er). cbn. split_and!; [done|lia|lia].
Qed.

(** ** The environment *)
Lemma flush_disciplined s : disciplined s -> disciplined (flush s).
Proof.
  intros Hd. assert (forall u, ops_at (flush s) u = ops_at s u) as Ho by (intros u; unfold ops_at, flush; cbn; by rewrite app_nil_r).
  destruct Hd as [H1 H2 H3 H4 H5 H6 H7 H8]. constructor; rewrite ?Ho; try done.
  - intros i f Hl. by apply (flow_ok_frame s); [apply H1|..].
  - intros u. cbn. rewrite app_nil_r. apply H2.
Qed.

(** A change of descriptors that nothing owns. *)
Lemma world_frame s w :
  disciplined s ->
  (forall fd, fd ∈ all_fds s -> socks w !! fd = socks (world s) !! fd /\ pipes w !! fd = pipes (world s) !! fd /\ wends w !! fd = wends (world s) !! fd) ->
  disciplined (set_world w s).
Proof.
  intros Hd Hw. pose proof Hd as [H1 H2 H3 H4 H5 H6 H7 H8]. constructor; try done.
  - intros i f Hl. apply (flow_ok_frame s); [by apply H1| |done..]. intros b. destruct (H1 i f Hl) as [He _].
    assert (forall x, x = src (dir_at f b) \/ x = dst (dir_at f b) \/ x = pipe_r (dir_at f b) \/ x = pipe_w (dir_at f b) -> x ∈ all_fds s) as Hin
      by (intros x Hx; apply elem_of_app; left; apply (live_all_fds s i f x Hl); by apply (dir_fds f b)).
    unfold dview. cbn [world set_world].
    rewrite (proj1 (Hw (src (dir_at f b)) (Hin (src (dir_at f b)) ltac:(tauto)))), (proj1 (Hw (dst (dir_at f b)) (Hin (dst (dir_at f b)) ltac:(tauto)))),
      (proj1 (proj2 (Hw (pipe_r (dir_at f b)) (Hin (pipe_r (dir_at f b)) ltac:(tauto))))), (proj2 (proj2 (Hw (pipe_w (dir_at f b)) (Hin (pipe_w (dir_at f b)) ltac:(tauto))))). done.
  - intros fd Hfd. destruct (H6 fd Hfd) as [? Ho]. split; [done|]. destruct (Hw fd Hfd) as (Ea & Eb & Ec). unfold is_open in *. cbn. by rewrite Ea, Eb, Ec.
  - intros fd Hfd. unfold unused. cbn. rewrite (proj1 (Hw fd ltac:(apply elem_of_app; by right))). by apply H8.
Qed.

Lemma close_frame s fd : disciplined s -> fd ∉ all_fds s -> disciplined (set_world (close fd (world s)) s).
Proof. intros Hd Hfd. apply world_frame; [done|]. intros x Hx. cbn. rewrite !lookup_delete_ne by congruence. done. Qed.

(** What a peer does: it sends more, or closes. *)
Lemma dview_peer w d fd k k' v :
  dview w d = Some v -> socks w !! fd = Some k -> out k' = out k -> shut k' = shut k ->
  dview (set_sock fd k' w) d = Some (if decide (src d = fd) then mkView (sent k') (taken k') (fin k') (v_out v) (v_shut v) (v_pipe v) else v).
Proof.
  intros (sk & dk & c & E1 & E2 & E3 & E4 & ->)%dview_Some Hk Ho Hs. unfold dview. cbn. rewrite E3, E4.
  assert (exists dk', <[fd := k']> (socks w) !! dst d = Some dk' /\ out dk' = out dk /\ shut dk' = shut dk) as (dk' & Hd' & Eo & Es).
  { destruct (decide (dst d = fd)) as [<-|]; [rewrite lookup_insert_eq; exists k'; simplify_eq; done|rewrite lookup_insert_ne by congruence; eauto]. }
  rewrite Hd'. case_decide as Hf; [subst fd; rewrite lookup_insert_eq|rewrite lookup_insert_ne, E1 by congruence]; cbn; by rewrite Z.eqb_refl, Eo, Es.
Qed.

Lemma peer_disciplined s fd k k' :
  disciplined s -> socks (world s) !! fd = Some k -> taken k' = taken k -> out k' = out k -> shut k' = shut k ->
  sent k `prefix_of` sent k' -> (fin k = true -> fin k' = true /\ sent k' = sent k) ->
  disciplined (set_world (set_sock fd k' (world s)) s).
Proof.
  intros Hd Hk Et Eo Es [more Hm] Hfin. pose proof Hd as [H1 H2 H3 H4 H5 H6 H7 H8]. constructor; try done.
  - intros i f Hl. destruct (H1 i f Hl) as [He1 He2]. constructor; [done|]. intros b. destruct (He2 b) as (v & Hv & Hvo & Hout).
    eexists. split; [by apply (dview_peer _ _ _ k)|]. case_decide as Hf; [|done].
    apply dview_Some in Hv as (sk & dk & c & E1 & E2 & E3 & E4 & ->). assert (sk = k) as -> by congruence.
    destruct Hvo as (Hp & Hle & Hsh). cbn in Hp, Hle, Hsh. cbn. split.
    + unfold view_ok. cbn. rewrite Et, Hm, take_app_le by done. split_and!; [done|rewrite length_app; lia|].
      intros Hs. destruct (Hsh Hs) as (? & ? & Hfk & ?). destruct (Hfin Hfk) as [? Hse]. rewrite <- Hm, Hse. done.
    + unfold out_ok in *. cbn [v_pipe v_fin v_taken v_sent] in *. destruct (done (dir_at f b)); [exact Hout|]. destruct (phase (dir_at f b)); [|exact Hout].
      destruct Hout as [Hout|(? & r & ? & ? & Hz)]; [left; exact Hout|right]. split; [done|]. exists r. split_and!; [done..|]. intros Hr. destruct (Hz Hr) as [Hfk ?].
      destruct (Hfin Hfk) as [? ->]. by rewrite Et.
  - intros x Hx. destruct (H6 x Hx) as [? Ho]. split; [done|]. unfold is_open in *. cbn.
    destruct (decide (x = fd)) as [->|]; [left; rewrite lookup_insert_eq; eauto|]. by rewrite !lookup_insert_ne by congruence.
  - intros x Hx. unfold unused. cbn. destruct (decide (x = fd)) as [->|]; [rewrite lookup_insert_eq|rewrite lookup_insert_ne by congruence; by apply H8].
    destruct (H8 fd Hx) as (k0 & Hk0 & ? & ? & ?). exists k'. simplify_eq. by rewrite Et, Eo, Es.
Qed.

(** ** The reactor's handlers *)
Lemma ops_push e s u : ops_at (push e s) u = ops_at s u ++ (if decide (user_data e = u) then [e] else []).
Proof.
  unfold ops_at, push. cbn. rewrite app_assoc, filter_app. f_equal.
Qed.

Lemma push_tags e s u : u ∈ (user_data <$> (inflight (push e s) ++ backlog (push e s))) -> u = user_data e \/ u ∈ (user_data <$> (inflight s ++ backlog s)).
Proof. unfold push. cbn. rewrite !fmap_app. set_solver. Qed.

(** The accept is taken and armed again; its client is nobody's yet. *)
Lemma pop_accept s res rest :
  disciplined s -> cqes s = (ACCEPT_UD, res) :: rest ->
  let s1 := push accept_sqe (mkReactor (flows s) (free s) (backlog s) (inflight s) rest (world s)) in
  disciplined s1 /\ waiting s1 = [] /\ (0 <= res -> (res ∉ all_fds s1) /\ 0 <= res < 2 ^ 31 /\ unused (world s) res).
Proof.
  intros Hd Hc s1. pose proof Hd as [H1 H2 H3 H4 H5 H6 H7 H8].
  assert (forall u, cqes_at s u = (if decide (ACCEPT_UD = u) then [(ACCEPT_UD, res)] else []) ++ cqes_at s1 u) as Hcq.
  { intros u. unfold cqes_at. rewrite Hc. case_decide; [by rewrite filter_cons_True|by rewrite filter_cons_False]. }
  assert (cqes_at s1 ACCEPT_UD = [] /\ ops_at s ACCEPT_UD = []) as [Hca Hoa].
  { pose proof (Hcq ACCEPT_UD) as Hq. rewrite decide_True in Hq by done. destruct H3 as [[_ H3]|[Ho [r Hr]]]; [by rewrite H3 in Hq|]. rewrite Hr in Hq. simplify_eq/=. done. }
  assert (forall u, ops_at s1 u = ops_at s u ++ (if decide (ACCEPT_UD = u) then [accept_sqe] else [])) as Hop by (intros u; etransitivity; [apply ops_push|reflexivity]).
  assert (waiting s1 = []) as Hw1 by (unfold waiting; by rewrite Hca).
  assert (waiting s = if 0 <=? res then [res] else []) as Hw.
  { unfold waiting. rewrite Hcq, decide_True, Hca by done. cbn. by destruct (0 <=? res). }
  split; [|split; [done|]].
  - constructor; try done.
    + intros i f Hl. pose proof (live_slot s i f Hd Hl). apply (flow_ok_frame s); [by apply H1|done|..]; intros b; pose proof (dir_ud_accept i b ltac:(done)).
      * rewrite Hop, decide_False by congruence. by rewrite app_nil_r.
      * by rewrite (Hcq (dir_ud i b)), decide_False by congruence.
    + intros u [Hu|Hu]%elem_of_app; [apply push_tags in Hu as [->|Hu]; [by left|]|].
      * apply H2. apply elem_of_app. by left.
      * apply H2. apply elem_of_app. right. rewrite Hc. cbn in *. set_solver.
    + left. rewrite Hop, Hoa, decide_True by done. done.
    + unfold all_fds in *. rewrite Hw1, app_nil_r. by apply NoDup_app in H5 as (? & _ & _).
    + intros fd. unfold all_fds. rewrite Hw1, app_nil_r. intros Hfd. apply H6. unfold all_fds. set_solver.
    + intros fd. rewrite Hw1. intros Hin. by apply elem_of_nil in Hin.
  - intros Hres. rewrite (proj2 (Z.leb_le 0 res)) in Hw by lia. assert (res ∈ waiting s) as Hin by (rewrite Hw; set_solver).
    assert (res ∈ all_fds s) as Hall by (apply elem_of_app; by right). split_and!; [|apply H6; done..|by apply H8].
    unfold all_fds in *. rewrite Hw1, app_nil_r. apply NoDup_app in H5 as (_ & Hdis & _). intros Hx. by apply (Hdis res Hx).
Qed.

Lemma bounded_NoDup n (l : list Z) : NoDup l -> (forall x, x ∈ l -> 0 <= x < n) -> Z.of_nat (length l) <= Z.max 0 n.
Proof.
  intros Hn Hl. assert (length l <= length (seqZ 0 n))%nat as H.
  { apply NoDup_incl_length; [by apply NoDup_ListNoDup|]. intros x Hx. apply list_elem_of_In, elem_of_seqZ. apply list_elem_of_In, Hl in Hx. lia. }
  rewrite length_seqZ in H. lia.
Qed.

Lemma full_slots (L : list (option Flow)) : (forall i, L !! i <> Some None) -> (length L <= length (concat (slot_fds <$> L)))%nat.
Proof.
  induction L as [|o L IH]; intros H; cbn; [done|]. rewrite length_app. specialize (IH (fun i => H (S i))). specialize (H 0%nat). destruct o; cbn in *; [lia|done].
Qed.

(** The slot a flow gets was free, and in range. *)
Lemma insert_slot s f slot s1 :
  disciplined s -> NoDup (flow_fds f ++ all_fds s) -> (forall x, x ∈ flow_fds f -> 0 <= x < 2 ^ 31) -> insert_flow f s = Some (slot, s1) ->
  Z.of_nat slot < 2 ^ 31 /\ (flows s !! slot = Some None \/ slot = length (flows s)) /\ Z.of_nat (length (flows s1)) <= 2 ^ 31 /\
  flows s1 = (if decide (slot = length (flows s)) then flows s ++ [Some f] else <[slot := Some f]> (flows s)) /\
  s1 = set_flows (flows s1) (free s1) s /\ NoDup (free s1) /\ (forall i, i ∈ free s1 <-> i ∈ free s /\ i <> slot).
Proof.
  intros Hd Hn Hr Hi. pose proof Hd as [H1 H2 H3 [H4 H4'] H5 H6 H7 H8]. unfold insert_flow in Hi. destruct (vec_pop (free s)) as [[fr sl]|] eqn:E.
  - apply vec_pop_Some in E. case_match eqn:Hlt; [|done]. simplify_eq. apply Nat.ltb_lt in Hlt. cbn.
    assert (flows s !! slot = Some None) as Hs by (apply H4'; rewrite E; set_solver).
    rewrite E in H4. apply NoDup_app in H4 as (Hfr & Hdis & _).
    split_and!; [lia|by left|by rewrite length_insert|by rewrite decide_False by lia|done|done|].
    intros i. rewrite E. rewrite elem_of_app, list_elem_of_singleton. split; [intros Hin; split; [by left|]; intros ->; apply (Hdis slot Hin); set_solver|].
    intros [[?|?] ?]; done.
  - apply vec_pop_None in E. simplify_eq. cbn. rewrite decide_True by done.
    assert (Z.of_nat (length (flow_fds f ++ all_fds s)) <= Z.max 0 (2 ^ 31)) as Hb.
    { apply bounded_NoDup; [done|]. intros x [Hx|Hx]%elem_of_app; [auto|]. by apply H6. }
    assert (length (flows s) <= length (concat (slot_fds <$> flows s)))%nat as Hfull.
    { apply full_slots. intros i Hi. apply H4' in Hi. rewrite E in Hi. by apply elem_of_nil in Hi. }
    rewrite length_app in Hb. unfold all_fds in Hb. rewrite length_app in Hb. cbn [length flow_fds] in Hb.
    split_and!; [lia|by right|rewrite length_app; cbn; lia|done|done|constructor|].
    intros i. rewrite E. split; [intros Hin; by apply elem_of_nil in Hin|intros [Hin _]; by apply elem_of_nil in Hin].
Qed.

Lemma idle_slot s slot b : disciplined s -> (forall f, ~ live s slot f) -> Z.of_nat slot <= 2 ^ 31 -> ops_at s (dir_ud slot b) = [] /\ cqes_at s (dir_ud slot b) = [].
Proof.
  intros Hd Hl Hs. assert (dir_ud slot b ∉ (user_data <$> (inflight s ++ backlog s)) ++ (fst <$> cqes s)) as Hno.
  { intros [Hu|(i & c & f & Hf & Hu)]%(ds_tags s Hd); [by apply (dir_ud_accept slot b Hs)|].
    pose proof (live_slot s i f Hd Hf). apply dir_ud_inj in Hu as [<- _]; [|done..]. by apply (Hl f). }
  rewrite not_elem_of_app in Hno. destruct Hno as [Ho Hc]. split.
  - unfold ops_at. apply elem_of_nil_inv. intros e [He Hin]%list_elem_of_filter. apply Ho, list_elem_of_fmap. eauto.
  - unfold cqes_at. apply elem_of_nil_inv. intros e [He Hin]%list_elem_of_filter. apply Hc, list_elem_of_fmap. eauto.
Qed.

Lemma insert_disciplined s f slot s1 :
  disciplined s -> insert_flow f s = Some (slot, s1) -> NoDup (flow_fds f ++ all_fds s) ->
  (forall x, x ∈ flow_fds f -> 0 <= x < 2 ^ 31 /\ is_open (world s) x) ->
  src (dir0 f) = client f /\ dst (dir0 f) = upstream f /\ src (dir1 f) = upstream f /\ dst (dir1 f) = client f ->
  (forall b, done (dir_at f b) = false /\ phase (dir_at f b) = Fill) ->
  (forall b, exists v, dview (world s) (dir_at f b) = Some v /\ view_ok v false /\ v_pipe v = []) ->
  disciplined (push (fill_sqe (dir1 f) (dir_ud slot true)) (push (fill_sqe (dir0 f) (dir_ud slot false)) s1)).
Proof.
  intros Hd Hi Hn Hr Hends Hnew Hv. destruct (insert_slot s f slot s1 Hd Hn (fun x Hx => proj1 (Hr x Hx)) Hi) as (Hs & Hslot & Hlen & Hfl & Hs1 & Hfr & Hfr').
  pose proof Hd as [H1 H2 H3 [H4 H4'] H5 H6 H7 H8].
  assert (forall g, ~ live s slot g) as Hnot by (intros g Hg; unfold live in Hg; destruct Hslot as [E| ->]; [congruence|apply lookup_lt_Some in Hg; lia]).
  set (s' := push _ _). assert (flows s' = flows s1) as Hf' by done. assert (world s' = world s) as Hw' by (unfold s'; rewrite Hs1; done).
  assert (forall i g, live s' i g <-> (i = slot /\ g = f) \/ (i <> slot /\ live s i g)) as Hlive.
  { intros i g. unfold live. rewrite Hf', Hfl. case_decide as Hdec.
    - subst slot. rewrite lookup_app_Some. split; [intros [?|[? Hx%list_lookup_singleton_Some]]; [right; split; [|done]; intros ->; by apply (Hnot g)|left; destruct Hx; simplify_eq; split; [lia|done]]|].
      intros [[-> ->]|[? ?]]; [right; split; [done|]; by rewrite Nat.sub_diag|by left].
    - rewrite list_lookup_insert_Some. destruct Hslot as [E| ->]; [|done]. apply lookup_lt_Some in E. naive_solver. }
  assert (forall u, ops_at s' u = ops_at s u ++ (if decide (dir_ud slot false = u) then [fill_sqe (dir0 f) u] else []) ++ (if decide (dir_ud slot true = u) then [fill_sqe (dir1 f) u] else [])) as Hops.
  { intros u. unfold s'. rewrite !ops_push. replace (ops_at s1 u) with (ops_at s u) by by rewrite Hs1. rewrite <- app_assoc. f_equal. cbn [user_data fill_sqe].
    repeat case_decide; congruence. }
  assert (forall u, cqes_at s' u = cqes_at s u) as Hcq by (intros u; unfold s'; rewrite Hs1; done).
  assert (waiting s' = waiting s) as Hwt by (unfold waiting; by rewrite Hcq).
  assert (forall u, (forall b, u <> dir_ud slot b) -> ops_at s' u = ops_at s u) as Hmiss.
  { intros u Hu. rewrite Hops, !decide_False by (intros E; by apply (Hu _ (eq_sym E))). by rewrite !app_nil_r. }
  assert (Z.of_nat slot <= 2 ^ 31) as Hsl by lia.
  assert (concat (slot_fds <$> flows s') ≡ₚ flow_fds f ++ concat (slot_fds <$> flows s)) as Hperm.
  { rewrite Hf', Hfl. case_decide; [rewrite fmap_app, concat_app; cbn [fmap list_fmap concat slot_fds]; rewrite ?app_nil_r; apply Permutation_app_comm|]. destruct Hslot as [E|]; [|done].
    assert ((slot_fds <$> flows s) !! slot = Some []) as E' by (rewrite list_lookup_fmap, E; done). rewrite (concat_lookup_perm _ _ _ E').
    rewrite list_fmap_insert. rewrite (concat_lookup_perm (<[slot := slot_fds (Some f)]> (slot_fds <$> flows s)) slot (flow_fds f)).
    - by rewrite list_insert_insert_eq.
    - rewrite list_lookup_insert_eq; [done|]. rewrite length_fmap. by eapply lookup_lt_Some. }
  assert (all_fds s' ≡ₚ flow_fds f ++ all_fds s) as Hall by (unfold all_fds; rewrite Hwt, Hperm; by rewrite app_assoc).
  constructor.
  - intros i g [[-> ->]|[Hne Hl]]%Hlive.
    + constructor; [done|]. intros b. destruct (Hv b) as (v & Hv1 & Hv2 & Hv3), (Hnew b) as [Hn1 Hn2]. exists v. rewrite Hw', Hcq, Hn1.
      destruct (idle_slot s slot b Hd Hnot Hsl) as [E1 E2]. split_and!; [done..|]. unfold out_ok. rewrite Hn1, Hn2, Hops, E1, E2. left. split_and!; [|done..].
      destruct b; cbn [app dir_at].
      * rewrite decide_False by (intros []%dir_ud_inj; done). by rewrite decide_True.
      * rewrite decide_True by done. rewrite decide_False by (intros []%dir_ud_inj; done). by rewrite app_nil_r.
    + apply (flow_ok_frame s); [by apply H1|by intros; rewrite Hw'| |by intros]. intros b. apply Hmiss. intros b'.
      pose proof (live_slot s i g Hd Hl). intros []%dir_ud_inj; done.
  - intros u [Hu|Hu]%elem_of_app.
    + apply push_tags in Hu as [->|Hu]; [right; exists slot, true, f; split; [apply Hlive; by left|done]|].
      apply push_tags in Hu as [->|Hu]; [right; exists slot, false, f; split; [apply Hlive; by left|done]|].
      rewrite Hs1 in Hu. cbn in Hu. destruct (H2 u) as [|(i & b & g & Hg & ->)]; [apply elem_of_app; by left|by left|].
      right. exists i, b, g. split; [apply Hlive; right; split; [intros ->; by apply (Hnot g)|done]|done].
    + unfold s' in Hu. rewrite Hs1 in Hu. cbn in Hu. destruct (H2 u) as [|(i & b & g & Hg & ->)]; [apply elem_of_app; by right|by left|].
      right. exists i, b, g. split; [apply Hlive; right; split; [intros ->; by apply (Hnot g)|done]|done].
  - rewrite Hcq, Hmiss; [done|]. intros b E. by apply (dir_ud_accept slot b Hsl).
  - split; [done|]. intros i. change (free s') with (free s1). rewrite Hfr', H4'. rewrite Hf', Hfl. case_decide as Hdec.
    + rewrite lookup_app_Some. split; [intros [? ?]; by left|]. intros [Hx|[? Hx%list_lookup_singleton_Some]]; [|destruct Hx; done].
      split; [done|]. intros ->. rewrite Hdec in Hx. apply lookup_lt_Some in Hx. lia.
    + rewrite list_lookup_insert_Some. naive_solver.
  - by rewrite Hall.
  - intros fd. rewrite Hall, Hw'. intros [Hfd|Hfd]%elem_of_app; auto.
  - done.
  - rewrite Hwt, Hw'. done.
Qed.

Definition busy (s : Reactor) : Prop := forall i f, live s i f -> done (dir0 f) = false \/ done (dir1 f) = false.

Lemma fresh_spec w fd : fresh_fd w fd = true -> 0 <= fd < 2 ^ 31 /\ socks w !! fd = None /\ pipes w !! fd = None /\ wends w !! fd = None.
Proof. unfold fresh_fd. rewrite !andb_true_iff, !bool_decide_eq_true. intros [[[[] ?] ?] ?]. split_and!; (lia || done). Qed.

Lemma fresh_apart w fd x : fresh_fd w fd = true -> is_open w x -> x <> fd.
Proof. intros (_ & E1 & E2 & E3)%fresh_spec Ho ->. unfold is_open in Ho. rewrite E1, E2, E3 in Ho. destruct Ho as [[]|[[]|[]]]; done. Qed.

Lemma open_sock_open w fd x : is_open w x \/ x = fd -> is_open (open_sock fd w) x.
Proof.
  unfold is_open. cbn. intros H. destruct (decide (x = fd)) as [->|]; [left; rewrite lookup_insert_eq; eauto|]. rewrite lookup_insert_ne by congruence. by destruct H.
Qed.

Lemma open_pipe_open w r p x : is_open w x \/ x = r \/ x = p -> is_open (open_pipe r p w) x.
Proof.
  unfold is_open. cbn. intros H. destruct (decide (x = r)) as [->|]; [right; left; rewrite lookup_insert_eq; eauto|].
  destruct (decide (x = p)) as [->|]; [right; right; rewrite lookup_insert_eq; eauto|]. rewrite !lookup_insert_ne by congruence. destruct H as [|[|]]; done.
Qed.

Section begin.
Context (s : Reactor) (Hd : disciplined s) (cfd : Z) (Hc : cfd ∉ all_fds s) (Hr : 0 <= cfd < 2 ^ 31) (Hu : unused (world s) cfd).

Lemma client_open : is_open (world s) cfd.
Proof using Hu. destruct Hu as (k & Hk & _). left. eauto. Qed.

(** Opened for the flow and not owned. *)
Lemma fresh_unowned w fd : (forall x, is_open (world s) x -> is_open w x) -> fresh_fd w fd = true -> fd ∉ all_fds s.
Proof using Hd. intros Hw Hf Hin. destruct (ds_range s Hd fd Hin) as [_ Ho]. by apply (fresh_apart w fd fd Hf (Hw _ Ho)). Qed.

Lemma flow_begun ufd r1 p1 r2 p2 slot s1 :
  let w1 := open_sock ufd (world s) in let w2 := open_pipe r1 p1 w1 in let w3 := open_pipe r2 p2 w2 in
  let f := mkFlow cfd ufd (new_dir cfd ufd r1 p1) (new_dir ufd cfd r2 p2) in
  fresh_fd (world s) ufd = true -> fresh_fd w1 r1 && fresh_fd w1 p1 && negb (r1 =? p1) = true -> fresh_fd w2 r2 && fresh_fd w2 p2 && negb (r2 =? p2) = true ->
  insert_flow f (set_world w3 s) = Some (slot, s1) ->
  disciplined (push (fill_sqe (dir1 f) (dir_ud slot true)) (push (fill_sqe (dir0 f) (dir_ud slot false)) s1)).
Proof using Hd Hc Hr Hu.
  intros w1 w2 w3 f Hfu H1 H2 Hi. apply andb_true_iff in H1 as [[Hf1 Hf2]%andb_true_iff Hn1], H2 as [[Hf3 Hf4]%andb_true_iff Hn2].
  assert (forall x, is_open (world s) x -> is_open w1 x) as M1 by (intros; apply open_sock_open; auto).
  assert (forall x, is_open w1 x -> is_open w2 x) as M2 by (intros; apply open_pipe_open; auto).
  assert (is_open w1 ufd) as Ou by (apply open_sock_open; auto). assert (is_open w2 r1 /\ is_open w2 p1) as [Or Op] by (split; apply open_pipe_open; auto).
  pose proof client_open as Oc.
  pose proof (fresh_unowned (world s) ufd (fun x H => H) Hfu) as Nu. pose proof (fresh_unowned w1 r1 M1 Hf1) as Nr1. pose proof (fresh_unowned w1 p1 M1 Hf2) as Np1.
  pose proof (fresh_unowned w2 r2 (fun x H => M2 x (M1 x H)) Hf3) as Nr2. pose proof (fresh_unowned w2 p2 (fun x H => M2 x (M1 x H)) Hf4) as Np2.
  pose proof (fresh_apart _ _ _ Hfu Oc) as A1. pose proof (fresh_apart _ _ _ Hf1 (M1 _ Oc)). pose proof (fresh_apart _ _ _ Hf2 (M1 _ Oc)).
  pose proof (fresh_apart _ _ _ Hf1 Ou). pose proof (fresh_apart _ _ _ Hf2 Ou).
  pose proof (fresh_apart _ _ _ Hf3 (M2 _ (M1 _ Oc))). pose proof (fresh_apart _ _ _ Hf4 (M2 _ (M1 _ Oc))).
  pose proof (fresh_apart _ _ _ Hf3 (M2 _ Ou)). pose proof (fresh_apart _ _ _ Hf4 (M2 _ Ou)).
  pose proof (fresh_apart _ _ _ Hf3 Or). pose proof (fresh_apart _ _ _ Hf3 Op). pose proof (fresh_apart _ _ _ Hf4 Or). pose proof (fresh_apart _ _ _ Hf4 Op).
  apply negb_true_iff, Z.eqb_neq in Hn1, Hn2.
  assert (disciplined (set_world w3 s)) as Hd3.
  { apply world_frame; [done|]. intros x Hx. unfold w3, w2, w1. cbn. rewrite !lookup_insert_ne by (intros ->; done). done. }
  apply (insert_disciplined (set_world w3 s) f slot s1); try done.
  - change (all_fds (set_world w3 s)) with (all_fds s). cbn [flow_fds f new_dir pipe_r pipe_w client upstream dir0 dir1 app].
    repeat (apply NoDup_cons; split; [set_solver|]). apply Hd.
  - intros x Hx. assert (is_open w3 x) as Ho.
    { unfold w3. apply open_pipe_open. cbn in Hx. set_unfold in Hx. naive_solver. }
    split; [|done]. apply fresh_spec in Hfu as [? _], Hf1 as [? _], Hf2 as [? _], Hf3 as [? _], Hf4 as [? _]. cbn in Hx. set_unfold in Hx. naive_solver.
  - intros b. by destruct b.
  - intros b. destruct Hu as (k & Hk & Ht & Hout & Hsh). destruct b; unfold f, dview; cbn.
    + rewrite !lookup_insert_eq, (lookup_insert_ne _ ufd cfd), Hk by done. cbn. rewrite Z.eqb_refl. eexists. split; [done|]. cbn. split; [|done].
      unfold view_ok. cbn. rewrite Hout, Hsh. done.
    + rewrite (lookup_insert_ne _ ufd cfd), Hk by done. cbn. rewrite lookup_insert_eq. cbn. rewrite (lookup_insert_ne _ p2 p1), (lookup_insert_ne _ r2 r1), !lookup_insert_eq by done.
      cbn. rewrite Z.eqb_refl. eexists. split; [done|]. cbn. split; [|done]. unfold view_ok. cbn. rewrite Ht. split_and!; [done|lia|done].
Qed.
End begin.

Lemma insert_busy s f slot s1 : busy s -> done (dir0 f) = false -> insert_flow f s = Some (slot, s1) -> busy s1.
Proof.
  intros Hb Hf Hi i g Hg. unfold insert_flow in Hi. unfold live in Hg. destruct (vec_pop (free s)) as [[fr sl]|].
  - case_match; [|done]. simplify_eq. cbn in Hg. apply list_lookup_insert_Some in Hg as [(_ & Hg & _)|[_ Hg]]; [simplify_eq; by left|by eapply Hb].
  - simplify_eq. cbn in Hg. apply lookup_app_Some in Hg as [Hg|[_ Hg%list_lookup_singleton_Some]]; [by eapply Hb|]. destruct Hg. simplify_eq. by left.
Qed.

Lemma begin_disciplined s cfd e s' :
  disciplined s -> busy s -> cfd ∉ all_fds s -> 0 <= cfd < 2 ^ 31 -> unused (world s) cfd ->
  begin_flow e cfd s = Some s' -> disciplined s' /\ busy s'.
Proof.
  intros Hd Hb Hc Hr Hu Hs. unfold begin_flow in Hs.
  assert (forall w, (forall x, x ∈ all_fds s -> socks w !! x = socks (world s) !! x /\ pipes w !! x = pipes (world s) !! x /\ wends w !! x = wends (world s) !! x) ->
    disciplined (set_world (close cfd w) s) /\ busy (set_world (close cfd w) s)) as Href.
  { intros w Hw. split; [|done]. apply world_frame; [done|]. intros x Hx. cbn. rewrite !lookup_delete_ne by congruence. auto. }
  destruct (negb (e_pick e)); [simplify_eq; auto|]. destruct (negb (e_addr e)); [simplify_eq; auto|].
  destruct (e_dial e) as [ufd|]; [|simplify_eq; auto]. destruct (fresh_fd (world s) ufd) eqn:Hfu; cbn [negb] in Hs; [|done].
  assert (forall x, is_open (world s) x -> is_open (open_sock ufd (world s)) x) as M1 by (intros; apply open_sock_open; auto).
  pose proof (fresh_unowned s Hd _ ufd (fun x H => H) Hfu) as Nu.
  destruct (e_pipe1 e) as [[r1 p1]|].
  2:{ simplify_eq. apply Href. intros x Hx. cbn. by rewrite !lookup_delete_ne, lookup_insert_ne by (intros ->; done). }
  destruct (fresh_fd (open_sock ufd (world s)) r1 && fresh_fd (open_sock ufd (world s)) p1 && negb (r1 =? p1)) eqn:H1; cbn [negb] in Hs; [|done].
  pose proof H1 as [[Hf1 Hf2]%andb_true_iff _]%andb_true_iff. pose proof (fresh_unowned s Hd _ r1 M1 Hf1) as Nr1. pose proof (fresh_unowned s Hd _ p1 M1 Hf2) as Np1.
  destruct (e_pipe2 e) as [[r2 p2]|].
  2:{ simplify_eq. apply Href. intros x Hx. cbn. by rewrite !lookup_delete_ne, !lookup_insert_ne by (intros ->; done). }
  case_match eqn:H2; [done|]. apply negb_false_iff in H2.
  destruct (insert_flow _ _) as [[slot s1]|] eqn:Hi; [|done]. cbn [mbind option_bind] in Hs. simplify_eq. split.
  - by apply (flow_begun s Hd cfd Hc Hr Hu ufd r1 p1 r2 p2 slot s1).
  - intros i g Hg. refine (insert_busy _ _ slot s1 _ _ Hi i g Hg); [exact Hb|reflexivity].
Qed.

(** A direction moves on, with the next operation armed or none. *)
Lemma redirect s i f b d' next rest res w :
  disciplined s -> live s i f -> cqes s = (dir_ud i b, res) :: rest ->
  let d := dir_at f b in let u := dir_ud i b in
  src d' = src d -> dst d' = dst d -> pipe_r d' = pipe_r d -> pipe_w d' = pipe_w d ->
  (forall x, is_open (world s) x -> is_open w x) -> (forall x, x ∈ waiting s -> socks w !! x = socks (world s) !! x) ->
  (forall j g c, live s j g -> (j, c) <> (i, b) -> dview w (dir_at g c) = dview (world s) (dir_at g c)) ->
  match next with Some e => user_data e = u | None => True end ->
  (exists v, dview w d' = Some v /\ view_ok v (done d') /\ out_ok d' u (match next with Some e => [e] | None => [] end) [] v) ->
  let s1 := set_world w (set_flows (<[i := Some (set_dir f b d')]> (flows s)) (free s) (mkReactor (flows s) (free s) (backlog s) (inflight s) rest (world s))) in
  disciplined (match next with Some e => push e s1 | None => s1 end).
Proof.
  intros Hd Hl Hc d u Es Ed Er Ew Hopen Hwait Hframe Hnext Hnew s1. pose proof Hd as [H1 H2 H3 H4 H5 H6 H7 H8]. pose proof (live_slot s i f Hd Hl) as Hi.
  set (s' := match next with Some e => push e s1 | None => s1 end).
  assert (flows s' = <[i := Some (set_dir f b d')]> (flows s) /\ free s' = free s /\ world s' = w /\ cqes s' = rest) as (F1 & F2 & F3 & F4) by by destruct next.
  assert (forall u', cqes_at s u' = (if decide (u = u') then [(u, res)] else []) ++ cqes_at s' u') as Hcq.
  { intros u'. unfold cqes_at. rewrite Hc, F4. case_decide; [by rewrite filter_cons_True|by rewrite filter_cons_False]. }
  assert (forall u', ops_at s' u' = ops_at s u' ++ (if decide (u = u') then match next with Some e => [e] | None => [] end else [])) as Hop.
  { intros u'. unfold s'. destruct next as [e|]; [etransitivity; [apply ops_push|]; rewrite Hnext; reflexivity|]. case_decide; by rewrite app_nil_r. }
  assert (ops_at s u = [] /\ cqes_at s' u = []) as [Hou Hcu].
  { pose proof (Hcq u) as Hq. rewrite decide_True in Hq by done. destruct (fo_dirs _ _ _ (H1 i f Hl) b) as (v & _ & _ & Ho). fold u d in Ho. unfold out_ok in Ho. rewrite Hq in Ho.
    destruct (done d); [naive_solver|]. destruct (phase d); naive_solver. }
  assert (ACCEPT_UD <> u) as Hacc by (intros E; by apply (dir_ud_accept i b Hi)).
  assert (waiting s' = waiting s) as Hw by (unfold waiting; rewrite (Hcq ACCEPT_UD), decide_False by congruence; done).
  assert (i < length (flows s))%nat as Hlt by by eapply lookup_lt_Some.
  assert (forall j g, live s' j g <-> (j = i /\ g = set_dir f b d') \/ (j <> i /\ live s j g)) as Hlive.
  { intros j g. unfold live. rewrite F1, list_lookup_insert_Some. naive_solver. }
  assert (flow_fds (set_dir f b d') = flow_fds f) as Hfds by (unfold flow_fds; destruct b; cbn in *; by rewrite Er, Ew).
  assert (slot_fds <$> flows s' = slot_fds <$> flows s) as Hsl.
  { rewrite F1, list_fmap_insert. apply list_insert_id. rewrite list_lookup_fmap. unfold live in Hl. rewrite Hl. cbn. by rewrite Hfds. }
  constructor.
  - intros j g [[-> ->]|[Hne Hg]]%Hlive.
    + destruct (H1 i f Hl) as [He1 He2]. constructor; [destruct b; cbn in *; rewrite ?Es, ?Ed; done|]. intros c. destruct (decide (c = b)) as [->|Hcb].
      * replace (dir_at (set_dir f b d') b) with d' by by destruct b. destruct Hnew as (v & Hv1 & Hv2 & Hv3). exists v. fold u.
        rewrite F3, Hop, Hou, Hcu, decide_True by done. done.
      * replace (dir_at (set_dir f b d') c) with (dir_at f c) by by destruct b, c. destruct (He2 c) as (v & Hv1 & Hv2 & Hv3). exists v.
        assert (u <> dir_ud i c) as Hne by (intros []%dir_ud_inj; done). rewrite F3, (Hframe i f c) by (done || congruence).
        rewrite Hop, decide_False, app_nil_r by done. rewrite (Hcq (dir_ud i c)), decide_False in Hv3 by done. done.
    + pose proof (live_slot s j g Hd Hg) as Hj. apply (flow_ok_frame s); [by apply H1|..]; intros c; assert (u <> dir_ud j c) as Hnu by (intros []%dir_ud_inj; done).
      * rewrite F3. apply (Hframe j g c); [done|congruence].
      * rewrite Hop, decide_False by done. by rewrite app_nil_r.
      * by rewrite (Hcq (dir_ud j c)), decide_False by done.
  - assert (u = ACCEPT_UD \/ exists j c g, live s' j g /\ u = dir_ud j c) as Hu' by (right; exists i, b, (set_dir f b d'); split; [apply Hlive; by left|done]).
    assert (forall u', u' ∈ (user_data <$> (inflight s ++ backlog s)) ++ (fst <$> cqes s) -> u' = ACCEPT_UD \/ exists j c g, live s' j g /\ u' = dir_ud j c) as Hold.
    { intros u' Hu. destruct (H2 u' Hu) as [|(j & c & g & Hg & ->)]; [by left|right]. destruct (decide (j = i)) as [->|Hne].
      - exists i, c, (set_dir f b d'). split; [apply Hlive; by left|done].
      - exists j, c, g. split; [apply Hlive; by right|done]. }
    intros u' [Hu|Hu]%elem_of_app.
    + unfold s' in Hu. destruct next as [e|]; [apply push_tags in Hu as [->|Hu]; [by rewrite Hnext|]|]; apply Hold, elem_of_app; by left.
    + apply Hold, elem_of_app. right. rewrite F4 in Hu. rewrite Hc. cbn. set_solver.
  - rewrite Hop, decide_False, app_nil_r by congruence. rewrite (Hcq ACCEPT_UD), decide_False in H3 by congruence. done.
  - rewrite F2. split; [apply H4|]. intros j. rewrite (proj2 H4), F1, list_lookup_insert_Some. unfold live in Hl. destruct (decide (j = i)); naive_solver.
  - unfold all_fds. by rewrite Hsl, Hw.
  - intros x. unfold all_fds. rewrite Hsl, Hw, F3. intros Hx. destruct (H6 x Hx). auto.
  - by rewrite F1, length_insert.
  - rewrite Hw, F3. intros x Hx. destruct (H8 x Hx) as (k & Hk & Hrest). exists k. by rewrite Hwait.
Qed.

Lemma drop_lookup f w x :
  x ∉ flow_fds f -> socks (drop_flow f w) !! x = socks w !! x /\ pipes (drop_flow f w) !! x = pipes w !! x /\ wends (drop_flow f w) !! x = wends w !! x.
Proof.
  unfold drop_flow. generalize (flow_fds f) as l. intros l. revert w. induction l as [|y l IH]; intros w Hx; cbn; [done|].
  apply not_elem_of_cons in Hx as [Hy Hx]. destruct (IH (close y w) Hx) as (-> & -> & ->). cbn. rewrite !lookup_delete_ne by congruence. done.
Qed.

Lemma remove_disciplined s i f :
  disciplined s -> live s i f -> done (dir0 f) = true -> done (dir1 f) = true ->
  disciplined (remove_flow i s).
Proof.
  intros Hd Hl Hd0 Hd1. pose proof Hd as [H1 H2 H3 [H4 H4'] H5 H6 H7 H8]. pose proof (live_slot s i f Hd Hl) as Hi. unfold remove_flow. unfold live in Hl. rewrite Hl. fold (live s i f) in Hl.
  set (s' := set_world _ _). assert (i < length (flows s))%nat as Hlt by by eapply lookup_lt_Some.
  assert (forall j g, live s' j g <-> j <> i /\ live s j g) as Hlive by (intros j g; unfold live, s'; cbn; rewrite list_lookup_insert_Some; naive_solver).
  assert ((slot_fds <$> flows s) !! i = Some (flow_fds f)) as Hsl by (rewrite list_lookup_fmap; unfold live in Hl; by rewrite Hl).
  assert (all_fds s ≡ₚ flow_fds f ++ all_fds s') as Hall.
  { unfold all_fds. rewrite (concat_lookup_perm _ _ _ Hsl) at 1. rewrite <- app_assoc. unfold s'. cbn [flows set_world set_flows]. by rewrite list_fmap_insert. }
  assert (forall x, x ∈ all_fds s' -> (x ∉ flow_fds f) /\ x ∈ all_fds s) as Hin.
  { intros x Hx. rewrite Hall in H5. apply NoDup_app in H5 as (_ & Hdis & _). split; [intros Hf; by apply (Hdis x Hf)|]. rewrite Hall. apply elem_of_app. by right. }
  assert (forall b, ops_at s (dir_ud i b) = [] /\ cqes_at s (dir_ud i b) = []) as Hno.
  { intros b. destruct (fo_dirs _ _ _ (H1 i f Hl) b) as (v & _ & _ & Ho). unfold out_ok in Ho. by destruct b; cbn in Ho; rewrite ?Hd0, ?Hd1 in Ho. }
  constructor; try done.
  - intros j g [Hne Hg]%Hlive. apply (flow_ok_frame s); [by apply H1| |done..]. intros b. destruct (H1 j g Hg) as [He _].
    assert (forall x, x ∈ flow_fds g -> x ∉ flow_fds f) as Hdis by (intros x Hx Hx'; by apply (live_disjoint s Hd i f j g x)).
    assert (forall x, x = src (dir_at g b) \/ x = dst (dir_at g b) \/ x = pipe_r (dir_at g b) \/ x = pipe_w (dir_at g b) -> x ∉ flow_fds f) as Hx
      by (intros x Hx; apply Hdis; by eapply dir_fds). unfold dview, s'. cbn [world set_world].
    rewrite (proj1 (drop_lookup f (world s) (src (dir_at g b)) (Hx (src (dir_at g b)) ltac:(tauto)))), (proj1 (drop_lookup f (world s) (dst (dir_at g b)) (Hx (dst (dir_at g b)) ltac:(tauto)))),
      (proj1 (proj2 (drop_lookup f (world s) (pipe_r (dir_at g b)) (Hx (pipe_r (dir_at g b)) ltac:(tauto))))), (proj2 (proj2 (drop_lookup f (world s) (pipe_w (dir_at g b)) (Hx (pipe_w (dir_at g b)) ltac:(tauto))))). done.
  - intros u Hu. destruct (H2 u Hu) as [|(j & b & g & Hg & ->)]; [by left|right]. exists j, b, g. split; [|done]. apply Hlive. split; [|done]. intros ->.
    destruct (Hno b) as [Ho Hc]. apply elem_of_app in Hu as [Hu|Hu]; apply list_elem_of_fmap in Hu as (e & He & Hin').
    + assert (e ∈ ops_at s (dir_ud i b)) as Hx by (apply list_elem_of_filter; done). rewrite Ho in Hx. by apply elem_of_nil in Hx.
    + assert (e ∈ cqes_at s (dir_ud i b)) as Hx by (apply list_elem_of_filter; done). rewrite Hc in Hx. by apply elem_of_nil in Hx.
  - unfold s', vec_push. cbn. split.
    + apply NoDup_app. split_and!; [done| |apply NoDup_singleton]. intros j Hj ->%list_elem_of_singleton. apply H4' in Hj. unfold live in Hl. congruence.
    + intros j. rewrite elem_of_app, list_elem_of_singleton, H4', list_lookup_insert_Some. unfold live in Hl. destruct (decide (j = i)); naive_solver.
  - rewrite Hall in H5. by apply NoDup_app in H5 as (_ & _ & ?).
  - intros x Hx. destruct (Hin x Hx) as [Hnf Ho]. destruct (H6 x Ho) as [? Hop]. split; [done|]. unfold is_open in *. unfold s'. cbn [world set_world].
    by destruct (drop_lookup f (world s) x Hnf) as (-> & -> & ->).
  - unfold s'. cbn. by rewrite length_insert.
  - intros x Hx. destruct (H8 x Hx) as (k & Hk & Hrest). exists k. unfold s'. cbn [world set_world].
    rewrite (proj1 (drop_lookup f (world s) x ltac:(apply Hin, elem_of_app; by right))). done.
Qed.

Lemma remove_busy s i : (forall j g, live s j g -> j <> i -> done (dir0 g) = false \/ done (dir1 g) = false) -> (exists f, live s i f) -> busy (remove_flow i s).
Proof.
  intros Hb [f Hl]. unfold remove_flow. unfold live in Hl. rewrite Hl. intros j g Hg. unfold live in Hg. cbn in Hg.
  apply list_lookup_insert_Some in Hg as [(_ & Hg & _)|[Hne Hg]]; [done|]. by apply (Hb j g).
Qed.

Lemma dview_shut_frame w d fd k k' :
  socks w !! fd = Some k -> sent k' = sent k -> taken k' = taken k -> fin k' = fin k -> dst d <> fd -> dview (set_sock fd k' w) d = dview w d.
Proof.
  intros Hk H1 H2 H3 Hne. unfold dview. cbn. rewrite (lookup_insert_ne _ fd (dst d)) by congruence.
  destruct (decide (src d = fd)) as [->|]; [|by rewrite lookup_insert_ne by congruence]. rewrite lookup_insert_eq, Hk. cbn. by rewrite H1, H2, H3.
Qed.

(** What a completion of the direction finds. *)
Lemma cqe_cases s i f b res rest :
  disciplined s -> live s i f -> cqes s = (dir_ud i b, res) :: rest ->
  let d := dir_at f b in
  exists v, dview (world s) d = Some v /\ view_ok v false /\ done d = false /\
    match phase d with
    | Fill => Z.of_nat (length (v_pipe v)) = Z.max 0 res /\ (res = 0 -> v_fin v = true /\ v_taken v = length (v_sent v))
    | Drain => 0 < pending d /\ res <= pending d /\ Z.of_nat (length (v_pipe v)) = pending d - Z.max 0 res
    end.
Proof.
  intros Hd Hl Hc d. destruct (fo_dirs _ _ _ (ds_flows s Hd i f Hl) b) as (v & Hv & Hvo & Ho). fold d in Hv, Hvo, Ho. exists v.
  assert (cqes_at s (dir_ud i b) = (dir_ud i b, res) :: filter (fun c => c.1 = dir_ud i b) rest) as Hq by (unfold cqes_at; by rewrite Hc, filter_cons_True).
  unfold out_ok in Ho. rewrite Hq in Ho. destruct (done d); [naive_solver|]. destruct (phase d); naive_solver.
Qed.

Lemma advance_disciplined s i f b res rest d' next w :
  disciplined s -> live s i f -> cqes s = (dir_ud i b, res) :: rest ->
  advance (dir_at f b) (dir_ud i b) res (world s) = (d', next, w) ->
  let s1 := set_world w (set_flows (<[i := Some (set_dir f b d')]> (flows s)) (free s) (mkReactor (flows s) (free s) (backlog s) (inflight s) rest (world s))) in
  disciplined (match next with Some e => push e s1 | None => s1 end).
Proof.
  intros Hd Hl Hc Ha. pose proof (dirs_apart s Hd i f b) as Hap. pose proof (cqe_cases s i f b res rest Hd Hl Hc) as (v & Hv & Hvo & Hdn & Hph). cbn zeta in *.
  pose proof (src_dst_apart s i f b Hd Hl) as Hsd. unfold advance in Ha. destruct (dir_at f b) as [sr ds r wr ph pe dn] eqn:Ed. cbn in Hdn, Hph. subst dn.
  assert (forall d'', src d'' = sr -> dst d'' = ds -> pipe_r d'' = r -> pipe_w d'' = wr -> dview (world s) d'' = Some v) as Hview
    by (intros d'' <- <- <- <-; exact Hv).
  assert (forall d'' n, src d'' = sr -> dst d'' = ds -> pipe_r d'' = r -> pipe_w d'' = wr ->
    match n with Some e => user_data e = dir_ud i b | None => True end -> view_ok v (done d'') ->
    out_ok d'' (dir_ud i b) (match n with Some e => [e] | None => [] end) [] v ->
    disciplined (let s1 := set_world (world s) (set_flows (<[i := Some (set_dir f b d'')]> (flows s)) (free s) (mkReactor (flows s) (free s) (backlog s) (inflight s) rest (world s))) in
      match n with Some e => push e s1 | None => s1 end)) as Hsame.
  { intros d'' n E1 E2 E3 E4 Hn Hok Hout. eapply (redirect s i f b d'' n rest res (world s)); eauto; rewrite ?Ed; cbn; eauto. }
  assert (view_ok v true) as Hvt by (destruct Hvo as (? & ? & Hs); split_and!; [done..|]; intros E; destruct (Hs E); done).
  destruct (res =? - EAGAIN) eqn:Eg; zify_bool.
  { simplify_eq. unfold EAGAIN in *. destruct ph; apply (Hsame _ (Some _)); try done; unfold out_ok; cbn; left || (split; [lia|left]); split_and!; try done.
    - destruct Hph as [Hp _]. destruct (v_pipe v); [done|cbn in Hp; lia].
    - destruct Hph as (? & ? & ?). lia. }
  destruct ph.
  - destruct Hph as [Hlen Hz]. destruct (res =? 0) eqn:E0; zify_bool.
    + simplify_eq. destruct (Hz eq_refl) as [Hfin Htk]. assert (v_pipe v = []) as Hp by (destruct (v_pipe v); [done|cbn in Hlen; lia]).
      apply dview_Some in Hv as (sk & dk & c & E1 & E2 & E3 & E4 & ->). cbn [src dst pipe_r pipe_w] in *. cbn in Hfin, Htk, Hp. subst c.
      unfold shutdown_wr. rewrite E2. set (k' := mkSock _ _ _ _ _).
      eapply (redirect s i f b (mkDir sr ds r wr Fill pe true) None rest 0); rewrite ?Ed; cbn; eauto.
      * intros x Hx. unfold is_open in *. cbn. destruct (decide (x = ds)) as [->|]; [left; rewrite lookup_insert_eq; eauto|]. by rewrite !lookup_insert_ne by congruence.
      * intros x Hx. rewrite lookup_insert_ne; [done|]. intros <-. apply (waiting_apart s Hd i f b) in Hx as [_ Hx]; [|done]. rewrite Ed in Hx. by apply Hx.
      * intros j g c Hg Hne. destruct (Hap j g c Hl Hg ltac:(congruence)) as (_ & Hds & _). cbn in Hds. by apply (dview_shut_frame _ _ _ dk).
      * exists (mkView (sent sk) (taken sk) (fin sk) (out dk) true []). split; [|split].
        -- unfold dview. cbn. rewrite (lookup_insert_ne _ ds sr), E1 by (cbn in Hsd; congruence). cbn. rewrite lookup_insert_eq, E3. cbn. rewrite E4. cbn. by rewrite Z.eqb_refl.
        -- unfold view_ok. cbn. destruct Hvo as (Hpre & Hle & _). cbn in Hpre, Hle. done.
        -- done.
    + destruct (res <? 0) eqn:En; zify_bool; simplify_eq.
      * by apply (Hsame _ None).
      * apply (Hsame _ (Some _)); try done. unfold out_ok. cbn. split; [lia|]. left. split_and!; [done|done|lia].
  - destruct Hph as (Hpe & Hle & Hlen). destruct (res <=? 0) eqn:En; zify_bool; simplify_eq.
    { by apply (Hsame _ None). }
    destruct (pe <=? res) eqn:Ep; zify_bool; simplify_eq.
    + apply (Hsame _ (Some _)); try done. unfold out_ok. cbn. left. split_and!; [done|done|]. destruct (v_pipe v); [done|cbn in Hlen; lia].
    + apply (Hsame _ (Some _)); try done. unfold out_ok. cbn. split; [lia|]. left. split_and!; [done|done|lia].
Qed.

Lemma busy_set s i f b d' w rest :
  busy s -> live s i f -> done (dir0 (set_dir f b d')) && done (dir1 (set_dir f b d')) = false ->
  busy (set_world w (set_flows (<[i := Some (set_dir f b d')]> (flows s)) (free s) (mkReactor (flows s) (free s) (backlog s) (inflight s) rest (world s)))).
Proof.
  intros Hb Hl Hn j g Hg. unfold live in Hg. cbn in Hg. apply list_lookup_insert_Some in Hg as [(_ & Hg & _)|[_ Hg]]; [|by eapply Hb].
  injection Hg as <-. apply andb_false_iff in Hn. done.
Qed.

Lemma flow_reaped s i f b res rest :
  disciplined s -> busy s -> live s i f -> cqes s = (dir_ud i b, res) :: rest ->
  let s' := on_flow i b res (mkReactor (flows s) (free s) (backlog s) (inflight s) rest (world s)) in disciplined s' /\ busy s'.
Proof.
  intros Hd Hb Hl Hc. destruct (cqe_cases s i f b res rest Hd Hl Hc) as (v & _ & _ & Hdn & _).
  unfold on_flow. cbn [flows world free]. unfold live in Hl. rewrite Hl. fold (live s i f) in Hl. rewrite Hdn.
  destruct (advance (dir_at f b) (dir_ud i b) res (world s)) as [[d' next] w] eqn:Ha. pose proof (advance_disciplined s i f b res rest d' next w Hd Hl Hc Ha) as Hd'. cbv zeta in Hd'.
  set (s1 := set_world w _) in *. assert (i < length (flows s))%nat as Hlt by by eapply lookup_lt_Some.
  assert (live (match next with Some e => push e s1 | None => s1 end) i (set_dir f b d')) as Hl'.
  { unfold live. destruct next; cbn; by rewrite list_lookup_insert_eq. }
  destruct (done (dir0 (set_dir f b d')) && done (dir1 (set_dir f b d'))) eqn:Edn.
  - apply andb_true_iff in Edn as [E0 E1]. split; [by eapply remove_disciplined|]. apply remove_busy; [|by eexists].
    intros j g Hg Hne. apply (Hb j g). unfold live in *. destruct next; cbn in Hg; by rewrite list_lookup_insert_ne in Hg.
  - split; [done|]. pose proof (busy_set s i f b d' w rest Hb Hl Edn) as Hb'. by destruct next.
Qed.

Lemma step_disciplined l s s' : disciplined s /\ busy s -> step l s = Some s' -> disciplined s' /\ busy s'.
Proof.
  intros [Hd Hb] Hs. destruct l as [|i k|e|fd b|fd]; cbn in Hs.
  - simplify_eq. split; [by apply flush_disciplined|done].
  - split; [by eapply complete_disciplined|]. unfold complete in Hs. destruct (inflight s !! i); [|done]. cbn in Hs. destruct (exec _ _ _) as [[]|]; [|done]. cbn in Hs. by simplify_eq.
  - unfold reap in Hs. destruct (cqes s) as [|[u res] rest] eqn:Hc; [done|]. cbv zeta in Hs.
    destruct (ds_tags s Hd u) as [->|(i & b & f & Hl & ->)]; [apply elem_of_app; right; rewrite Hc; cbn; set_solver| |].
    + rewrite Z.eqb_refl in Hs. unfold on_accept in Hs. destruct (pop_accept s res rest Hd Hc) as (Hd1 & _ & Hfd). set (s1 := push _ _) in *.
      destruct (res <? 0) eqn:E; [by simplify_eq|]. zify_bool. destruct (Hfd E) as (H1 & H2 & H3). by eapply begin_disciplined.
    + pose proof (live_slot s i f Hd Hl) as Hi. rewrite (proj2 (Z.eqb_neq _ _)) in Hs by by apply dir_ud_accept. destruct (dir_ud_decode i b Hi) as [E1 E2]. rewrite E1, E2 in Hs.
      simplify_eq. by eapply flow_reaped.
  - destruct (socks (world s) !! fd) as [k|] eqn:Hk; [|done]. cbn in Hs. destruct (fin k) eqn:Hf; [done|]. simplify_eq. split; [|done].
    eapply (peer_disciplined s fd k); eauto using prefix_app_r. cbn. congruence.
  - destruct (socks (world s) !! fd) as [k|] eqn:Hk; [|done]. cbn in Hs. simplify_eq. split; [|done]. by eapply (peer_disciplined s fd k).
Qed.

Lemma init_disciplined : disciplined init /\ busy init.
Proof.
  split; [|by intros i f Hl]. constructor.
  - by intros i f Hl.
  - intros u Hu. cbn in Hu. left. set_solver.
  - by left.
  - split; [constructor|]. intros i. cbn. split; [intros Hin; by apply elem_of_nil in Hin|done].
  - constructor.
  - intros fd Hfd. by apply elem_of_nil in Hfd.
  - cbn. lia.
  - intros fd Hfd. by apply elem_of_nil in Hfd.
Qed.

(** The descriptors an operation uses. *)
Definition op_fds (o : Op) : list Z := match o with OAccept => [] | OFill a b => [a; b] | ODrain a b _ => [a; b] end.

(** C39. Over every run of the relay: an operation in flight uses open descriptors
    of a live flow; a completion finds its direction live and unfinished, so
    nothing is done for a flow that was torn down; each direction has delivered
    a prefix of what its source sent, in order, and holds the rest of what it
    took in its pipe; a destination is half-closed only after all of an ended
    stream; and a flow is kept exactly while a direction is unfinished. *)
Theorem relay_disciplined s :
  reach step init s ->
  (forall e fd, e ∈ inflight s ++ backlog s -> fd ∈ op_fds (op e) -> is_open (world s) fd) /\
  (forall u res, (u, res) ∈ cqes s -> u <> ACCEPT_UD -> exists i b f, u = dir_ud i b /\ live s i f /\ done (dir_at f b) = false) /\
  (forall i f b, live s i f -> exists v, dview (world s) (dir_at f b) = Some v /\
     v_out v ++ v_pipe v = take (v_taken v) (v_sent v) /\ (v_shut v = true -> v_fin v = true /\ v_out v = v_sent v)) /\
  (forall i f, live s i f -> done (dir0 f) && done (dir1 f) = false).
Proof.
  intros Hr. assert (disciplined s /\ busy s) as [Hd Hb].
  { eapply (reach_invariant step (fun s => disciplined s /\ busy s)); [apply init_disciplined|intros; by eapply step_disciplined|done]. }
  split_and!.
  - intros e fd He Hfd. destruct (op_cases s e Hd He) as [(-> & _)|(j & b & f & v & Hl & _ & Hv & _ & _ & _ & _ & Hph)]; [by apply elem_of_nil in Hfd|].
    apply dview_Some in Hv as (sk & dk & c & E1 & E2 & E3 & E4 & _). unfold is_open.
    destruct Hph as [(_ & -> & _)|(_ & -> & _)]; cbn in Hfd; set_unfold in Hfd; destruct Hfd as [->|[->|[]]]; eauto.
  - intros u res Hin Hu. destruct (ds_tags s Hd u) as [|(i & b & f & Hl & ->)]; [apply elem_of_app; right; apply list_elem_of_fmap; by exists (u, res)|done|].
    exists i, b, f. split_and!; [done|done|]. destruct (fo_dirs _ _ _ (ds_flows s Hd i f Hl) b) as (v & _ & _ & Ho). unfold out_ok in Ho.
    destruct (done (dir_at f b)); [|done]. destruct Ho as [_ Ho]. assert ((dir_ud i b, res) ∈ cqes_at s (dir_ud i b)) as Hx by (apply list_elem_of_filter; done).
    rewrite Ho in Hx. by apply elem_of_nil in Hx.
  - intros i f b Hl. destruct (fo_dirs _ _ _ (ds_flows s Hd i f Hl) b) as (v & Hv & (Hp & Hle & Hs) & _). exists v. split_and!; [done..|].
    intros Hsh. destruct (Hs Hsh) as (_ & Hpp & Hf & Ht). split; [done|]. rewrite Hpp, app_nil_r in Hp. by rewrite Hp, Ht, firstn_all.
  - intros i f Hl. apply andb_false_iff. by eapply Hb.
Qed.

(** ** Runs *)
Definition sample_env : Env := mkEnv true true (Some 8) (Some (9, 10)) (Some (11, 12)).

(** A client connects and sends three bytes, which a fill takes. *)
Definition opening : list Label :=
  [LFlush; LComplete 0 (KConn 7); LReap sample_env; LFlush; LArrive 7 [1; 2; 3]; LComplete 1 (KMove 3); LReap sample_env; LFlush].

Lemma relay_disciplined_witness :
  exists s, run step (opening ++ [LComplete 2 (KMove 2); LReap sample_env]) init = Some s /\
    exists f v, live s 0 f /\ dview (world s) (dir_at f false) = Some v /\ v_out v = [1; 2] /\ v_pipe v = [3] /\ v_out v ++ v_pipe v = take (v_taken v) (v_sent v).
Proof.
  destruct (run step (opening ++ [LComplete 2 (KMove 2); LReap sample_env]) init) as [s|] eqn:E; [|vm_compute in E; discriminate E].
  exists s. split; [reflexivity|]. destruct (relay_disciplined s (run_reach _ _ _ _ E)) as (_ & _ & H & _). vm_compute in E. injection E as <-.
  destruct (H 0%nat _ false eq_refl) as (v & Hv & Hp & _). eexists _, v. split; [reflexivity|]. split; [exact Hv|].
  vm_compute in Hv. injection Hv as <-. split; [reflexivity|]. split; [reflexivity|]. exact Hp.
Defined.

(** A stream that ends is delivered and the upstream told: the half-close. *)
Example half_close_reaches_upstream :
  (s ← run step (opening ++ [LComplete 2 (KMove 3); LReap sample_env; LFlush; LFin 7; LComplete 2 KZero; LReap sample_env]) init;
   k ← socks (world s) !! 8; Some (out k, shut k)) = Some ([1; 2; 3], true).
Proof. vm_compute. reflexivity. Qed.

(** A client that resets is not: the direction ends without telling the
    upstream, nothing is in flight for it, and the flow stays for as long as the
    upstream says nothing. *)
Example reset_is_not_forwarded :
  (s ← run step (opening ++ [LComplete 2 (KMove 3); LReap sample_env; LFlush; LComplete 2 (KErr 104); LReap sample_env; LFlush]) init;
   k ← socks (world s) !! 8; f ← mjoin (flows s !! 0%nat);
   Some (shut k, done (dir0 f), done (dir1 f), user_data <$> inflight s)) = Some (false, true, false, [ACCEPT_UD; 1]).
Proof. vm_compute. reflexivity. Qed.
