(* ===== verification/Kqueue.v ===== *)
(** * The kqueue reactor ([kqueue.rs])

    One shard of the macOS and BSD backend: its connections, the changes it has
    queued for its kqueue, the handlers as they stand in the source and the
    loop around them. The kernel is part of the model: sockets with what the
    peer has sent, the room in their send buffers and what went out on them,
    and the registrations of this shard's kqueue, each with its edge. Handlers
    run in a small monad: they return ([Done]), unwind after a panic the loop
    catches ([Unwind]), or reach what a release build must never reach
    ([Stuck]: an [unwrap] of nothing, an index out of range, a system call on a
    descriptor the shard does not own, an exhausted loop bound). Access log,
    traces and metrics are left out. *)
From S2P Require Import Prelude Bytes Lines Standing Http Gzip Ws Fleet Blocking Lanes Interp.

Local Open Scope Z_scope.

Definition RECV_CHUNK : nat := Z.to_nat 16384.
Definition EVENT_CAP : nat := 1024.
Definition MAX_CONNS_PER_SHARD : Z := MAX_CONNS_CEILING.
Definition BACKOFF_MAX : Z := 6.
Definition ACCEPT_BATCH : Z := 32.
Definition UD_WAKE : Z := 2 ^ 64 - 1.
Definition UD_LISTENER : Z := 2 ^ 64 - 2.

Definition plain (status len body : string) : bytes :=
  bs "HTTP/1.1 " ++ bs status ++ CRLF ++ bs "Content-Type: text/plain" ++ CRLF ++
  bs "Content-Length: " ++ bs len ++ CRLFCRLF ++ bs body ++ [LF].

Definition CONN_LIMIT_503 : bytes := plain "503 Service Unavailable" "36" "per-source connection limit reached".
Definition RATE_LIMIT_429 : bytes := plain "429 Too Many Requests" "20" "rate limit exceeded".
Definition SLOWLORIS_408 : bytes := plain "408 Request Timeout" "23" "request header timeout".

(** ** State *)
Record Conn := mkConn {
  k_fd : Z;
  k_peer : IpAddr;
  k_seq : Z;    (* conn_seq *)
  k_acc : bytes;
  k_resp : option bytes;
  k_sent : nat;
  k_req_ka : bool;    (* req_keepalive *)
  k_ka : bool;    (* keepalive *)
  k_h2c : bool;
  k_serving : bool;
  k_rd_armed : bool;
  k_wr_armed : bool;
  k_rd_streak : Z;
  k_rd_skip : Z;
  k_wr_streak : Z;
  k_wr_skip : Z;
  k_hdr_start : Z;
  k_hdr_done : bool;    (* headers_done *)
  k_start : Z    (* conn_start *)
}.
Definition set_k_seq (v : Z) (x : Conn) : Conn := mkConn (k_fd x) (k_peer x) v (k_acc x) (k_resp x) (k_sent x)
    (k_req_ka x) (k_ka x) (k_h2c x) (k_serving x) (k_rd_armed x) (k_wr_armed x) (k_rd_streak x) (k_rd_skip x)
    (k_wr_streak x) (k_wr_skip x) (k_hdr_start x) (k_hdr_done x) (k_start x).
Definition set_k_acc (v : bytes) (x : Conn) : Conn := mkConn (k_fd x) (k_peer x) (k_seq x) v (k_resp x) (k_sent x)
    (k_req_ka x) (k_ka x) (k_h2c x) (k_serving x) (k_rd_armed x) (k_wr_armed x) (k_rd_streak x) (k_rd_skip x)
    (k_wr_streak x) (k_wr_skip x) (k_hdr_start x) (k_hdr_done x) (k_start x).
Definition set_k_resp (v : option bytes) (x : Conn) : Conn := mkConn (k_fd x) (k_peer x) (k_seq x) (k_acc x) v (k_sent
    x) (k_req_ka x) (k_ka x) (k_h2c x) (k_serving x) (k_rd_armed x) (k_wr_armed x) (k_rd_streak x) (k_rd_skip x)
    (k_wr_streak x) (k_wr_skip x) (k_hdr_start x) (k_hdr_done x) (k_start x).
Definition set_k_sent (v : nat) (x : Conn) : Conn := mkConn (k_fd x) (k_peer x) (k_seq x) (k_acc x) (k_resp x) v
    (k_req_ka x) (k_ka x) (k_h2c x) (k_serving x) (k_rd_armed x) (k_wr_armed x) (k_rd_streak x) (k_rd_skip x)
    (k_wr_streak x) (k_wr_skip x) (k_hdr_start x) (k_hdr_done x) (k_start x).
Definition set_k_req_ka (v : bool) (x : Conn) : Conn := mkConn (k_fd x) (k_peer x) (k_seq x) (k_acc x) (k_resp x)
    (k_sent x) v (k_ka x) (k_h2c x) (k_serving x) (k_rd_armed x) (k_wr_armed x) (k_rd_streak x) (k_rd_skip x)
    (k_wr_streak x) (k_wr_skip x) (k_hdr_start x) (k_hdr_done x) (k_start x).
Definition set_k_ka (v : bool) (x : Conn) : Conn := mkConn (k_fd x) (k_peer x) (k_seq x) (k_acc x) (k_resp x) (k_sent
    x) (k_req_ka x) v (k_h2c x) (k_serving x) (k_rd_armed x) (k_wr_armed x) (k_rd_streak x) (k_rd_skip x) (k_wr_streak
    x) (k_wr_skip x) (k_hdr_start x) (k_hdr_done x) (k_start x).
Definition set_k_serving (v : bool) (x : Conn) : Conn := mkConn (k_fd x) (k_peer x) (k_seq x) (k_acc x) (k_resp x)
    (k_sent x) (k_req_ka x) (k_ka x) (k_h2c x) v (k_rd_armed x) (k_wr_armed x) (k_rd_streak x) (k_rd_skip x)
    (k_wr_streak x) (k_wr_skip x) (k_hdr_start x) (k_hdr_done x) (k_start x).
Definition set_k_rd_armed (v : bool) (x : Conn) : Conn := mkConn (k_fd x) (k_peer x) (k_seq x) (k_acc x) (k_resp x)
    (k_sent x) (k_req_ka x) (k_ka x) (k_h2c x) (k_serving x) v (k_wr_armed x) (k_rd_streak x) (k_rd_skip x)
    (k_wr_streak x) (k_wr_skip x) (k_hdr_start x) (k_hdr_done x) (k_start x).
Definition set_k_wr_armed (v : bool) (x : Conn) : Conn := mkConn (k_fd x) (k_peer x) (k_seq x) (k_acc x) (k_resp x)
    (k_sent x) (k_req_ka x) (k_ka x) (k_h2c x) (k_serving x) (k_rd_armed x) v (k_rd_streak x) (k_rd_skip x)
    (k_wr_streak x) (k_wr_skip x) (k_hdr_start x) (k_hdr_done x) (k_start x).
Definition set_k_rd_streak (v : Z) (x : Conn) : Conn := mkConn (k_fd x) (k_peer x) (k_seq x) (k_acc x) (k_resp x)
    (k_sent x) (k_req_ka x) (k_ka x) (k_h2c x) (k_serving x) (k_rd_armed x) (k_wr_armed x) v (k_rd_skip x)
    (k_wr_streak x) (k_wr_skip x) (k_hdr_start x) (k_hdr_done x) (k_start x).
Definition set_k_rd_skip (v : Z) (x : Conn) : Conn := mkConn (k_fd x) (k_peer x) (k_seq x) (k_acc x) (k_resp x)
    (k_sent x) (k_req_ka x) (k_ka x) (k_h2c x) (k_serving x) (k_rd_armed x) (k_wr_armed x) (k_rd_streak x) v
    (k_wr_streak x) (k_wr_skip x) (k_hdr_start x) (k_hdr_done x) (k_start x).
Definition set_k_wr_streak (v : Z) (x : Conn) : Conn := mkConn (k_fd x) (k_peer x) (k_seq x) (k_acc x) (k_resp x)
    (k_sent x) (k_req_ka x) (k_ka x) (k_h2c x) (k_serving x) (k_rd_armed x) (k_wr_armed x) (k_rd_streak x) (k_rd_skip
    x) v (k_wr_skip x) (k_hdr_start x) (k_hdr_done x) (k_start x).
Definition set_k_wr_skip (v : Z) (x : Conn) : Conn := mkConn (k_fd x) (k_peer x) (k_seq x) (k_acc x) (k_resp x)
    (k_sent x) (k_req_ka x) (k_ka x) (k_h2c x) (k_serving x) (k_rd_armed x) (k_wr_armed x) (k_rd_streak x) (k_rd_skip
    x) (k_wr_streak x) v (k_hdr_start x) (k_hdr_done x) (k_start x).
Definition set_k_hdr_start (v : Z) (x : Conn) : Conn := mkConn (k_fd x) (k_peer x) (k_seq x) (k_acc x) (k_resp x)
    (k_sent x) (k_req_ka x) (k_ka x) (k_h2c x) (k_serving x) (k_rd_armed x) (k_wr_armed x) (k_rd_streak x) (k_rd_skip
    x) (k_wr_streak x) (k_wr_skip x) v (k_hdr_done x) (k_start x).
Definition set_k_hdr_done (v : bool) (x : Conn) : Conn := mkConn (k_fd x) (k_peer x) (k_seq x) (k_acc x) (k_resp x)
    (k_sent x) (k_req_ka x) (k_ka x) (k_h2c x) (k_serving x) (k_rd_armed x) (k_wr_armed x) (k_rd_streak x) (k_rd_skip
    x) (k_wr_streak x) (k_wr_skip x) (k_hdr_start x) v (k_start x).

(** [self.conns[i] = ...] panics out of range. *)
Record Slab := mkSlab { conns : list (option Conn); sl_free : list nat }.

Definition slab_new : Slab := mkSlab [] [].
Definition live (sl : Slab) : Z := Z.of_nat (length (conns sl)) - Z.of_nat (length (sl_free sl)).
Definition slab_insert (c : Conn) (sl : Slab) : option (Slab * nat) :=
  match vec_pop (sl_free sl) with
  | Some (fr, i) => if (i <? length (conns sl))%nat then Some (mkSlab (<[i := Some c]> (conns sl)) fr, i) else None
  | None => Some (mkSlab (conns sl ++ [Some c]) (sl_free sl), length (conns sl))
  end.
Definition slab_remove (i : nat) (sl : Slab) : Slab :=
  match conns sl !! i with
  | Some (Some _) => mkSlab (<[i := None]> (conns sl)) (vec_push (sl_free sl) i)
  | _ => sl
  end.

(** A change for the kqueue: the filter is [EVFILT_WRITE] or [EVFILT_READ]. *)
Inductive Flag := EvAdd | EvAddClear | EvDelete.
Record Kev := kev { ident : Z; wr : bool; flag : Flag; udata : Z }.
Record Event := mkEvent { ev_ident : Z; ev_wr : bool; ev_ud : Z }.
Record Knote := mkKnote { kn_ud : Z; kn_clear : bool; kn_active : bool }.

(** A socket: all the peer ever sent and how much of it was received, whether
    it closed or reset, the room in the send buffer and what was sent. *)
Record Sock := mkSock { rx : bytes; taken : nat; fin : bool; reset : bool; room : nat; tx : bytes }.

Definition readable (k : Sock) : bool := (taken k <? length (rx k))%nat || fin k || reset k.
Definition writable (k : Sock) : bool := (0 <? room k)%nat || reset k.

(** How a system call goes: interrupted, failing, or moving up to so many
    bytes; without an entry it moves all it can. An accept is interrupted, fails
    or returns a connection; without an entry there is none left. *)
Record Storage := mkStorage { ss_family : Z; ss_octets : bytes }.
Inductive Sys := SIntr | SFail | SMove (n : nat).
Inductive Arrival := AIntr | AFail | AConn (fd : Z) (ss : Storage) (k : Sock).

(** A request handed to the serve owner: the slot its answer goes to, and the
    socket it came from (which the source does not carry along). *)
Record Job := mkJob { j_slot : nat; j_fd : Z; j_seam : Seam; j_req : bytes; j_meter : Meter }.
Record KqDone := mkDone { d_conn : nat; d_fd : Z; d_resp : bytes }.

(** What the threads that take a connection over are given. *)
Inductive Lane := HandH2 (burst : bytes) | HandWs (head rest : bytes) | HandProxy (burst : bytes).
Record Handed := mkHanded { h_lane : Lane; h_fd : Z; h_ip : IpAddr }.

Record Reactor := mkReactor {
  slab : Slab;
  accepted : Z;
  changes : list Kev;    (* flushed by the next [kevent] *)
  tick : nat;    (* looks at the clock so far *)
  table : SharedStanding;    (* shared with the other threads *)
  gw_up : bool;    (* the serve owner takes jobs *)
  jobs : list Job;    (* taken, not answered *)
  mailbox : list KqDone;
  ringing : nat;    (* answers posted, the shard not yet woken for them *)
  bell : nat;    (* bytes in the self-pipe *)
  ready : list KqDone;    (* [on_wakeup]'s own vector *)
  dropped : list KqDone;    (* answers lost in an unwinding *)
  knotes : gmap (Z * bool) Knote;    (* of this shard's kqueue, by descriptor and filter *)
  batch : list Event;    (* what [kevent] returned, not yet handled *)
  socks : gmap Z Sock;    (* the sockets the shard owns *)
  script : list Sys;    (* how the coming system calls go *)
  arrivals : list Arrival;    (* and the coming accepts *)
  handed : list Handed;    (* threads that took a connection over *)
  due : gmap Z bytes;    (* what was staged for a socket *)
  asked : gmap Z (list bytes)    (* the requests cut from it *)
}.
Definition set_slab (v : Slab) (x : Reactor) : Reactor := mkReactor v (accepted x) (changes x) (tick x) (table x)
    (gw_up x) (jobs x) (mailbox x) (ringing x) (bell x) (ready x) (dropped x) (knotes x) (batch x) (socks x) (script
    x) (arrivals x) (handed x) (due x) (asked x).
Definition set_accepted (v : Z) (x : Reactor) : Reactor := mkReactor (slab x) v (changes x) (tick x) (table x) (gw_up
    x) (jobs x) (mailbox x) (ringing x) (bell x) (ready x) (dropped x) (knotes x) (batch x) (socks x) (script x)
    (arrivals x) (handed x) (due x) (asked x).
Definition set_changes (v : list Kev) (x : Reactor) : Reactor := mkReactor (slab x) (accepted x) v (tick x) (table x)
    (gw_up x) (jobs x) (mailbox x) (ringing x) (bell x) (ready x) (dropped x) (knotes x) (batch x) (socks x) (script
    x) (arrivals x) (handed x) (due x) (asked x).
Definition set_tick (v : nat) (x : Reactor) : Reactor := mkReactor (slab x) (accepted x) (changes x) v (table x)
    (gw_up x) (jobs x) (mailbox x) (ringing x) (bell x) (ready x) (dropped x) (knotes x) (batch x) (socks x) (script
    x) (arrivals x) (handed x) (due x) (asked x).
Definition set_table (v : SharedStanding) (x : Reactor) : Reactor := mkReactor (slab x) (accepted x) (changes x) (tick
    x) v (gw_up x) (jobs x) (mailbox x) (ringing x) (bell x) (ready x) (dropped x) (knotes x) (batch x) (socks x)
    (script x) (arrivals x) (handed x) (due x) (asked x).
Definition set_gw_up (v : bool) (x : Reactor) : Reactor := mkReactor (slab x) (accepted x) (changes x) (tick x) (table
    x) v (jobs x) (mailbox x) (ringing x) (bell x) (ready x) (dropped x) (knotes x) (batch x) (socks x) (script x)
    (arrivals x) (handed x) (due x) (asked x).
Definition set_jobs (v : list Job) (x : Reactor) : Reactor := mkReactor (slab x) (accepted x) (changes x) (tick x)
    (table x) (gw_up x) v (mailbox x) (ringing x) (bell x) (ready x) (dropped x) (knotes x) (batch x) (socks x)
    (script x) (arrivals x) (handed x) (due x) (asked x).
Definition set_mailbox (v : list KqDone) (x : Reactor) : Reactor := mkReactor (slab x) (accepted x) (changes x) (tick
    x) (table x) (gw_up x) (jobs x) v (ringing x) (bell x) (ready x) (dropped x) (knotes x) (batch x) (socks x)
    (script x) (arrivals x) (handed x) (due x) (asked x).
Definition set_ringing (v : nat) (x : Reactor) : Reactor := mkReactor (slab x) (accepted x) (changes x) (tick x)
    (table x) (gw_up x) (jobs x) (mailbox x) v (bell x) (ready x) (dropped x) (knotes x) (batch x) (socks x) (script
    x) (arrivals x) (handed x) (due x) (asked x).
Definition set_bell (v : nat) (x : Reactor) : Reactor := mkReactor (slab x) (accepted x) (changes x) (tick x) (table
    x) (gw_up x) (jobs x) (mailbox x) (ringing x) v (ready x) (dropped x) (knotes x) (batch x) (socks x) (script x)
    (arrivals x) (handed x) (due x) (asked x).
Definition set_ready (v : list KqDone) (x : Reactor) : Reactor := mkReactor (slab x) (accepted x) (changes x) (tick x)
    (table x) (gw_up x) (jobs x) (mailbox x) (ringing x) (bell x) v (dropped x) (knotes x) (batch x) (socks x) (script
    x) (arrivals x) (handed x) (due x) (asked x).
Definition set_dropped (v : list KqDone) (x : Reactor) : Reactor := mkReactor (slab x) (accepted x) (changes x) (tick
    x) (table x) (gw_up x) (jobs x) (mailbox x) (ringing x) (bell x) (ready x) v (knotes x) (batch x) (socks x)
    (script x) (arrivals x) (handed x) (due x) (asked x).
Definition set_knotes (v : gmap (Z * bool) Knote) (x : Reactor) : Reactor := mkReactor (slab x) (accepted x) (changes
    x) (tick x) (table x) (gw_up x) (jobs x) (mailbox x) (ringing x) (bell x) (ready x) (dropped x) v (batch x) (socks
    x) (script x) (arrivals x) (handed x) (due x) (asked x).
Definition set_batch (v : list Event) (x : Reactor) : Reactor := mkReactor (slab x) (accepted x) (changes x) (tick x)
    (table x) (gw_up x) (jobs x) (mailbox x) (ringing x) (bell x) (ready x) (dropped x) (knotes x) v (socks x) (script
    x) (arrivals x) (handed x) (due x) (asked x).
Definition set_socks (v : gmap Z Sock) (x : Reactor) : Reactor := mkReactor (slab x) (accepted x) (changes x) (tick x)
    (table x) (gw_up x) (jobs x) (mailbox x) (ringing x) (bell x) (ready x) (dropped x) (knotes x) (batch x) v (script
    x) (arrivals x) (handed x) (due x) (asked x).
Definition set_script (v : list Sys) (x : Reactor) : Reactor := mkReactor (slab x) (accepted x) (changes x) (tick x)
    (table x) (gw_up x) (jobs x) (mailbox x) (ringing x) (bell x) (ready x) (dropped x) (knotes x) (batch x) (socks x)
    v (arrivals x) (handed x) (due x) (asked x).
Definition set_arrivals (v : list Arrival) (x : Reactor) : Reactor := mkReactor (slab x) (accepted x) (changes x)
    (tick x) (table x) (gw_up x) (jobs x) (mailbox x) (ringing x) (bell x) (ready x) (dropped x) (knotes x) (batch x)
    (socks x) (script x) v (handed x) (due x) (asked x).
Definition set_handed (v : list Handed) (x : Reactor) : Reactor := mkReactor (slab x) (accepted x) (changes x) (tick
    x) (table x) (gw_up x) (jobs x) (mailbox x) (ringing x) (bell x) (ready x) (dropped x) (knotes x) (batch x) (socks
    x) (script x) (arrivals x) v (due x) (asked x).
Definition set_due (v : gmap Z bytes) (x : Reactor) : Reactor := mkReactor (slab x) (accepted x) (changes x) (tick x)
    (table x) (gw_up x) (jobs x) (mailbox x) (ringing x) (bell x) (ready x) (dropped x) (knotes x) (batch x) (socks x)
    (script x) (arrivals x) (handed x) v (asked x).
Definition set_asked (v : gmap Z (list bytes)) (x : Reactor) : Reactor := mkReactor (slab x) (accepted x) (changes x)
    (tick x) (table x) (gw_up x) (jobs x) (mailbox x) (ringing x) (bell x) (ready x) (dropped x) (knotes x) (batch x)
    (socks x) (script x) (arrivals x) (handed x) (due x) v.

(** What the serve owner does: it answers a job, and rings for an answer it
    posted. *)
Inductive Serve := Answer (k : nat) (resp : bytes) | Ring.

(** ** What a shard is given *)
Class KHost := mkKHost {
  amb : nat -> Ambient;
  others : nat -> SharedStanding -> SharedStanding;
  source_cap : nat -> Z;
  process_cap : Z;
  frame_verdict : bytes -> bytes;
  braid : bool;
  gateway_selector : option Z;
  fleet_at : nat -> option Fleet;
  effect_seam : bool;
  rust_gzip : bool;
  gz_crc : bytes -> Z;
  gz_gunzip : bytes -> option bytes;
  gz_gzip : bytes -> option bytes;
  spawn_ok : nat -> bool;
  meanwhile : nat -> list Serve;
  af_inet : Z;
  af_inet6 : Z;
  wake_rd : Z;
  listeners : list Z
}.

(** ** Handlers as computations *)
Inductive res (A : Type) := Done (a : A) (s : Reactor) | Unwind (s : Reactor) | Stuck.
Arguments Done {A} _ _.
Arguments Unwind {A} _.
Arguments Stuck {A}.

Definition M (A : Type) : Type := Reactor -> res A.

#[export] Instance M_ret : MRet M := fun _ a s => Done a s.
#[export] Instance M_bind : MBind M := fun _ _ k m s => match m s with Done a s' => k a s' | Unwind s' => Unwind s' | Stuck => Stuck end.

Definition stuck {A} : M A := fun _ => Stuck.
Definition unwind {A} : M A := fun s => Unwind s.
Definition gets {A} (f : Reactor -> A) : M A := fun s => Done (f s) s.
Definition modify (f : Reactor -> Reactor) : M unit := fun s => Done tt (f s).
Definition lift {A} (o : option A) : M A := match o with Some a => mret a | None => stuck end.

Definition get (i : nat) (s : Reactor) : option Conn := mjoin (conns (slab s) !! i).
Definition put (i : nat) (c : Conn) (s : Reactor) : Reactor := set_slab (mkSlab (<[i := Some c]> (conns (slab s))) (sl_free (slab s))) s.
Definition conn (i : nat) : M (option Conn) := gets (get i).
(** [if let Some(conn) = self.slab.get(slot)] and [self.slab.get(slot).unwrap()]. *)
Definition upd (i : nat) (f : Conn -> Conn) : M unit := fun s => Done tt (match get i s with Some c => put i (f c) s | None => s end).
Definition expect (i : nat) (f : Conn -> Conn) : M unit := fun s => match get i s with Some c => Done tt (put i (f c) s) | None => Stuck end.
Definition push (k : Kev) : M unit := modify (fun s => set_changes (changes s ++ [k]) s).

Section reactor.
Context {host : KHost}.

(** A look at the clock, the configuration or the table: time has passed and
    the other threads have run. *)
Definition look : M Ambient := fun s => Done (amb (tick s)) (set_tick (S (tick s)) (set_table (others (tick s) (table s)) s)).
Definition on_table {A} (f : SharedStanding -> option (SharedStanding * A)) : M A := fun s =>
  match f (table s) with Some (t, a) => Done a (set_table t s) | None => Stuck end.

(** ** The serve owner *)
Definition activate (key : Z * bool) (s : Reactor) : Reactor :=
  match knotes s !! key with
  | Some n => set_knotes (<[key := mkKnote (kn_ud n) (kn_clear n) true]> (knotes s)) s
  | None => s
  end.

Definition PIPE_CAP : nat := Z.to_nat 65536.

(** [wake]: a full pipe drops the byte. *)
Definition wake (s : Reactor) : Reactor := if (bell s <? PIPE_CAP)%nat then activate (wake_rd, false) (set_bell (S (bell s)) s) else s.

Definition serve_step (s : Reactor) (a : Serve) : Reactor :=
  match a with
  | Answer k resp =>
      match jobs s !! k with
      | Some j => set_ringing (S (ringing s)) (set_mailbox (mailbox s ++ [mkDone (j_slot j) (j_fd j) resp]) (set_jobs (delete k (jobs s)) s))
      | None => s
      end
  | Ring => match ringing s with S n => wake (set_ringing n s) | O => s end
  end.

(** ** System calls *)
Definition sys : M (option Sys) := fun s => match script s with c :: l => Done (Some c) (set_script l s) | [] => Done None s end.
Definition sock (f : Z) : M Sock := k ← gets (fun s => socks s !! f); lift k.
Definition set_sock (f : Z) (k : Sock) : M unit := modify (fun s => set_socks (<[f := k]> (socks s)) s).

(** How much of [len] bytes a call moves, given that it moves some. *)
Definition moved (c : option Sys) (len : nat) : nat := match c with Some (SMove n) => Nat.max 1 (Nat.min n len) | _ => len end.

Inductive Recv := RData (b : bytes) | REof | RAgain | RIntr | RErr.

Definition recv_now (c : option Sys) (f : Z) (k : Sock) : M Recv :=
  let avail := drop (taken k) (rx k) in
  if reset k then mret RErr
  else if (length avail =? 0)%nat then mret (if fin k then REof else RAgain)
  else
    let n := moved c (Nat.min RECV_CHUNK (length avail)) in
    _ ← set_sock f (mkSock (rx k) (taken k + n) (fin k) (reset k) (room k) (tx k));
    mret (RData (take n avail)).

Definition recv (f : Z) : M Recv :=
  c ← sys; k ← sock f;
  match c with
  | Some SIntr => mret RIntr
  | Some SFail => mret RErr
  | _ => recv_now c f k
  end.

Inductive Send := Sent (n : nat) | SAgain | SInterrupted | SErr.

Definition send_now (c : option Sys) (f : Z) (k : Sock) (data : bytes) : M Send :=
  if reset k then mret SErr
  else if (room k =? 0)%nat then mret (match c with Some (SMove 0) => Sent 0 | _ => SAgain end)
  else
    let n := moved c (Nat.min (room k) (length data)) in
    _ ← set_sock f (mkSock (rx k) (taken k) (fin k) (reset k) (room k - n) (tx k ++ take n data));
    mret (Sent n).

Definition send (f : Z) (data : bytes) : M Send :=
  c ← sys; k ← sock f;
  match c with
  | Some SIntr => mret SInterrupted
  | Some SFail => mret SErr
  | _ => send_now c f k data
  end.

(** A descriptor nobody this shard knows of has open. *)
Definition fresh (f : Z) (s : Reactor) : bool :=
  (0 <=? f) && (f <? 2 ^ 31) && negb (f =? wake_rd) && negb (bool_decide (f ∈ listeners)) && negb (bool_decide (f ∈ (h_fd <$> handed s))) &&
  negb (bool_decide (is_Some (socks s !! f))) && negb (bool_decide (is_Some (knotes s !! (f, false)))) &&
  negb (bool_decide (is_Some (knotes s !! (f, true)))).

(** The connection may already hold a first flight. *)
Definition open_conn (f : Z) (k : Sock) : M unit := modify (fun s =>
  set_asked (<[f := []]> (asked s)) (set_due (<[f := []]> (due s)) (set_socks (<[f := mkSock (rx k) 0 (fin k) (reset k) (room k) []]> (socks s)) s))).

(** Closing a descriptor removes its registrations. *)
Definition close_fd (f : Z) : M unit :=
  _ ← sock f; modify (fun s => set_knotes (delete (f, true) (delete (f, false) (knotes s))) (set_socks (delete f (socks s)) s)).

(** ** Registrations *)
Definition arm_read (i : nat) : M unit :=
  o ← conn i;
  match o with
  | None => mret tt
  | Some c =>
      _ ← upd i (set_k_rd_armed true);
      if k_rd_armed c then mret tt else push (kev (k_fd c) false EvAddClear (Z.of_nat i))
  end.

Definition arm_write (i : nat) : M unit :=
  o ← conn i;
  match o with
  | None => mret tt
  | Some c =>
      _ ← upd i (set_k_wr_armed true);
      if k_wr_armed c then mret tt else push (kev (k_fd c) true EvAddClear (Z.of_nat i))
  end.

Definition disarm_write (i : nat) : M unit :=
  o ← conn i;
  match o with
  | None => mret tt
  | Some c =>
      if k_wr_armed c then _ ← upd i (set_k_wr_armed false); push (kev (k_fd c) true EvDelete (Z.of_nat i)) else mret tt
  end.

(** ** Closing and handing over *)
Definition remove (i : nat) : M unit := modify (fun s => set_slab (slab_remove i (slab s)) s).
Definition uncount (ip : IpAddr) : M unit := _ ← look; on_table (fun t => t' ← on_close t ip; Some (t', tt)).

Definition close (i : nat) : M unit :=
  o ← conn i;
  match o with
  | None => mret tt
  | Some c => _ ← uncount (k_peer c); _ ← remove i; close_fd (k_fd c)
  end.

(** The shared part of the three handovers. The socket and the count move to
    the new thread; if it cannot be created they are dropped, and the spawn of
    the HTTP/2 host ([thread::spawn]) then panics. *)
Definition handoff (i : nat) (l : Lane) : M unit :=
  o ← conn i;
  match o with
  | None => mret tt
  | Some c =>
      _ ← (if k_rd_armed c then push (kev (k_fd c) false EvDelete (Z.of_nat i)) else mret tt);
      _ ← (if k_wr_armed c then push (kev (k_fd c) true EvDelete (Z.of_nat i)) else mret tt);
      _ ← remove i;
      ok ← gets (fun s => spawn_ok (tick s));
      _ ← look;
      if ok : bool then modify (fun s => set_handed (handed s ++ [mkHanded l (k_fd c) (k_peer c)]) (set_socks (delete (k_fd c) (socks s)) s))
      else
        _ ← uncount (k_peer c); _ ← close_fd (k_fd c);
        match l with HandH2 _ => unwind | _ => mret tt end
  end.

Definition h2c_handoff (i : nat) : M unit := o ← conn i; handoff i (HandH2 (from_option k_acc [] o)).
Definition ws_handoff (i : nat) (head rest : bytes) : M unit := handoff i (HandWs head rest).
Definition proxy_handoff (i : nat) (burst : bytes) : M unit := handoff i (HandProxy burst).

(** ** Handing a request to the core *)
Inductive Disp := Served | NeedsMore | Closed.

Definition owe (f : Z) (b : bytes) : M unit := modify (fun s => set_due (<[f := default [] (due s !! f) ++ b]> (due s)) s).

(** A response of the host's own, after which the connection is closed. *)
Definition stage (i : nat) (b : bytes) : M unit :=
  o ← conn i;
  match o with
  | None => mret tt
  | Some c => _ ← upd i (fun c => set_k_ka false (set_k_sent 0%nat (set_k_resp (Some b) c))); owe (k_fd c) b
  end.

Definition seam_of (a : Ambient) (req : bytes) : Seam * bytes :=
  if braid then (ServeBraided, req)
  else match gateway_selector with
       | Some sel => (ServeGatewaySeam, to_be_bytes 8 sel ++ req)
       | None => (ServeCfg, sized (match deployment a with Some d => config_text d | None => [] end) ++ req)
       end.

Definition submit (j : Job) : M bool := fun s => Done (gw_up s) (if gw_up s then set_jobs (jobs s ++ [j]) s else s).

Definition submit_metered (i : nat) (req : bytes) : M Disp :=
  o ← conn i;
  match o with
  | None => mret Closed
  | Some c =>
      a ← look;
      b ← look;
      h ← look;
      _ ← upd i (fun c => set_k_hdr_start (a_now h) (set_k_seq (wrapping_add 64 (k_seq c) 1) c));
      _ ← look;
      n ← on_table (fun t => n ← active t (k_peer c); Some (t, n));
      d ← look;
      prior ← on_table (fun t => req_note_prior t (k_peer c) (rate_limit d) (rate_window d) (a_now d));
      e ← look;
      let m := mkMeter (client_addr req (k_peer c)) (pack_rate_scalar (burst_cap a) (k_seq c) (secs (duration_since (a_now a) (k_start c))))
                 (saturating_sub n 1) (secs (duration_since (a_now b) (k_hdr_start c))) prior in
      let '(seam, payload) := seam_of e req in
      ok ← submit (mkJob i (k_fd c) seam payload m);
      if ok : bool then mret Served else _ ← close i; mret Closed
  end.

(** ** The fast paths

    A response that goes out whole calls [on_send_complete] on the same stack,
    which may dispatch the next request and so send again; [again] is that call,
    one level down. *)
Section levels.
Context (again : nat -> M unit).

Definition staged_done (r : option bytes) (sent : nat) : bool := (length (default [] r) <=? sent)%nat.

(** [resp.len() - conn.sent] is checked. *)
Fixpoint send_loop (fuel : nat) (i : nat) (from_event : bool) : M unit :=
  match fuel with
  | O => stuck
  | S fuel' =>
      o ← conn i;
      match o with
      | None => mret tt
      | Some c =>
          match k_resp c with
          | None => mret tt
          | Some r =>
              if (length r <? k_sent c)%nat then stuck
              else if (length r - k_sent c =? 0)%nat then again i
              else
                n ← send (k_fd c) (drop (k_sent c) r);
                match n with
                | Sent 0 => arm_write i
                | Sent n =>
                    _ ← expect i (fun c => set_k_wr_skip 0 (set_k_wr_streak 0 (set_k_sent (k_sent c + n)%nat c)));
                    if staged_done (k_resp c) (k_sent c + n) then again i else send_loop fuel' i from_event
                | SAgain =>
                    _ ← (if from_event then mret tt
                         else expect i (fun c => let k := Z.min (k_wr_streak c + 1) BACKOFF_MAX in set_k_wr_skip (Z.shiftl 1 k) (set_k_wr_streak k c)));
                    arm_write i
                | SInterrupted => send_loop fuel' i from_event
                | SErr => close i
                end
          end
      end
  end.

(** Enough rounds: each one uses up an entry of the script or sends a byte. *)
Definition send_drain (i : nat) (from_event : bool) : M unit := fun s =>
  send_loop (S (length (script s) + length (default [] (get i s ≫= k_resp)))) i from_event s.

Definition want_write (i : nat) : M unit :=
  o ← conn i;
  match o with
  | None => mret tt
  | Some c =>
      match k_resp c with
      | None => mret tt
      | Some _ =>
          if 0 <? k_wr_skip c then _ ← upd i (set_k_wr_skip (k_wr_skip c - 1)); arm_write i
          else send_drain i false
      end
  end.

Definition refuse (i : nat) (b : bytes) : M Disp := _ ← stage i b; _ ← want_write i; mret Served.

(** A complete request at the front of the buffer. *)
Definition dispatch_framed (i : nat) (c : Conn) (total : nat) : M Disp :=
  let req := take total (k_acc c) in
  if negb (k_hdr_done c) && opener_lacks_http_version req then _ ← close i; mret Closed
  else if is_ws_upgrade req then _ ← ws_handoff i req (drop total (k_acc c)); mret Closed
  else
    f ← gets (fun s => fleet_at (tick s));
    a ← look;
    if takes_over_connection f effect_seam (deployment a) req then _ ← proxy_handoff i (k_acc c); mret Closed
    else
      _ ← expect i (fun c => set_k_hdr_done true (set_k_serving true (set_k_req_ka (request_wants_keepalive req) (set_k_acc (drop total (k_acc c)) c))));
      _ ← modify (fun s => set_asked (<[k_fd c := default [] (asked s !! k_fd c) ++ [req]]> (asked s)) s);
      submit_metered i req.

(** Past the header clock. *)
Definition dispatch_gated (i : nat) (c : Conn) : M Disp :=
  if negb (k_h2c c) && (length (k_acc c) <? length H2_PREFACE)%nat && starts_with (k_acc c) H2_PREFACE then mret NeedsMore
  else if negb (k_h2c c) && starts_with H2_PREFACE (k_acc c) then _ ← h2c_handoff i; mret Closed
  else
    d ← look;
    if negb (max_body_size d =? 0) && body_over_limit (k_acc c) (max_body_size d) then refuse i BODY_413
    else
      match next_request frame_verdict (k_acc c) with
      | Http.Complete n => dispatch_framed i c (Z.to_nat n)
      | Http.NeedMore => mret NeedsMore
      | Http.Oversize => _ ← close i; mret Closed
      end.

Definition dispatch (i : nat) : M Disp :=
  a ← look;
  o ← conn i;
  match o with
  | None => mret Closed
  | Some c =>
      b ← look;
      if negb (slowloris_timeout a =? 0) && negb (k_hdr_done c) && header_expired (slowloris_timeout a) (k_hdr_start c) (a_now b)
      then refuse i SLOWLORIS_408
      else dispatch_gated i c
  end.

Fixpoint recv_loop (fuel : nat) (i : nat) (from_event : bool) : M unit :=
  match fuel with
  | O => stuck
  | S fuel' =>
      o ← conn i;
      match o with
      | None => mret tt
      | Some c =>
          if k_serving c || bool_decide (is_Some (k_resp c)) then mret tt
          else
            r ← recv (k_fd c);
            match r with
            | RData b =>
                _ ← expect i (fun c => set_k_rd_skip 0 (set_k_rd_streak 0 (set_k_acc (k_acc c ++ b) c)));
                d ← dispatch i;
                match d with NeedsMore => recv_loop fuel' i from_event | _ => mret tt end
            | REof => close i
            | RAgain =>
                _ ← (if from_event then mret tt
                     else expect i (fun c => let k := Z.min (k_rd_streak c + 1) BACKOFF_MAX in set_k_rd_skip (Z.shiftl 1 k) (set_k_rd_streak k c)));
                arm_read i
            | RIntr => recv_loop fuel' i from_event
            | RErr => close i
            end
      end
  end.

(** Each round uses up an entry of the script or receives a byte. *)
Definition unread (i : nat) (s : Reactor) : nat :=
  match get i s with
  | Some c => match socks s !! k_fd c with Some k => (length (rx k) - taken k)%nat | None => 0%nat end
  | None => 0%nat
  end.
Definition recv_drain (i : nat) (from_event : bool) : M unit := fun s =>
  recv_loop (S (length (script s) + unread i s)) i from_event s.

Definition want_read (i : nat) : M unit :=
  o ← conn i;
  match o with
  | None => mret tt
  | Some c =>
      if k_serving c || bool_decide (is_Some (k_resp c)) then mret tt
      else if 0 <? k_rd_skip c then _ ← upd i (set_k_rd_skip (k_rd_skip c - 1)); arm_read i
      else recv_drain i false
  end.

Definition send_complete (i : nat) : M unit :=
  o ← conn i;
  match o with
  | None => mret tt
  | Some c =>
      _ ← upd i (fun c => set_k_sent 0%nat (set_k_resp None c));
      _ ← disarm_write i;
      if k_ka c then
        d ← dispatch i;
        match d with NeedsMore => want_read i | _ => mret tt end
      else close i
  end.
End levels.

(** What the host itself refuses is not kept alive, so two levels are enough. *)
Fixpoint on_send_complete (level : nat) (i : nat) : M unit :=
  match level with O => stuck | S l => send_complete (on_send_complete l) i end.

Definition LEVELS : nat := 2.
Abbreviation finished := (on_send_complete LEVELS).

(** ** Readiness handlers *)
Definition on_readable (i : nat) : M unit :=
  _ ← upd i (fun c => set_k_rd_skip 0 (set_k_rd_streak 0 c)); recv_drain finished i true.
Definition on_writable (i : nat) : M unit :=
  _ ← upd i (fun c => set_k_wr_skip 0 (set_k_wr_streak 0 c)); send_drain finished i true.

Definition peer_ip_from_storage (ss : Storage) : IpAddr :=
  if ss_family ss =? af_inet then V4 (from_be_bytes (take 4 (ss_octets ss)))
  else if ss_family ss =? af_inet6 then V6 (from_be_bytes (take 16 (ss_octets ss)))
  else V4 0.

Definition fresh_conn (f : Z) (ip : IpAddr) (now : Z) : Conn :=
  mkConn f ip 0 [] None 0 false false false false false false 0 0 0 0 now false now.

Definition insert_conn (c : Conn) : M nat := fun s =>
  match slab_insert c (slab s) with Some (sl, i) => Done i (set_slab sl s) | None => Stuck end.

Definition accept_one (f : Z) (ss : Storage) : M unit :=
  full ← gets (fun s => MAX_CONNS_PER_SHARD <=? live (slab s));
  if full : bool then close_fd f
  else
    let ip := peer_ip_from_storage ss in
    a ← look;
    cap ← gets (fun s => source_cap (tick s));
    adm ← on_table (fun t => enter_counted t ip cap process_cap);
    if bool_decide (adm = AtProcessCap) then close_fd f
    else
      b ← look;
      over_rate ← on_table (fun t => rate_note t ip (rate_limit b) (rate_window b) (a_now a));
      i ← insert_conn (fresh_conn f ip (a_now a));
      if bool_decide (adm = OverSourceCap) then _ ← stage i CONN_LIMIT_503; want_write finished i
      else if over_rate : bool then _ ← stage i RATE_LIMIT_429; want_write finished i
      else _ ← modify (fun s => set_accepted (wrapping_add 64 (accepted s) 1) s); want_read finished i.

Fixpoint accept_loop (l : list Arrival) (n : Z) : M unit :=
  if ACCEPT_BATCH <=? n then mret tt
  else match l with
       | AIntr :: l' => accept_loop l' n
       | AConn f ss k :: l' =>
           ok ← gets (fresh f);
           if ok : bool then _ ← open_conn f k; _ ← accept_one f ss; accept_loop l' (n + 1) else mret tt
       | AFail :: _ | [] => mret tt
       end.

Definition on_accept_ready : M unit := fun s => accept_loop (arrivals s) 0 s.

(** The response as it is staged: recompressed, its disposition stated. *)
Definition prepared (c : Conn) (resp : bytes) : Conn * bytes :=
  let resp1 := if rust_gzip then recompress gz_crc gz_gunzip gz_gzip resp else resp in
  let ka := negb (k_h2c c) && k_req_ka c && response_is_self_delimited resp1 in
  let resp2 := if k_h2c c then resp1 else annotate_connection resp1 ka in
  (set_k_sent 0%nat (set_k_resp (Some resp2) (set_k_ka ka (set_k_serving false c))), resp2).

Definition deliver (d : KqDone) : M unit :=
  o ← conn (d_conn d);
  match o with
  | None => mret tt
  | Some c =>
      let '(c1, resp) := prepared c (d_resp d) in
      _ ← upd (d_conn d) (fun _ => c1); _ ← owe (k_fd c) resp; want_write finished (d_conn d)
  end.

Fixpoint deliver_all (l : list KqDone) : M unit :=
  match l with
  | [] => mret tt
  | d :: l' => _ ← modify (set_ready l'); _ ← deliver d; deliver_all l'
  end.

(** The pipe is drained before the mailbox is emptied; in between the serve
    owner may post and ring. *)
Definition on_wakeup : M unit :=
  _ ← modify (set_bell 0%nat);
  _ ← modify (fun s => foldl serve_step s (meanwhile (tick s)));
  l ← gets mailbox;
  _ ← modify (fun s => set_ready l (set_mailbox [] s));
  deliver_all l.

(** ** The loop *)
Definition slot_of (ud : Z) : nat := Z.to_nat (wrap 32 ud).

Definition handle (e : Event) : M unit :=
  if ev_ud e =? UD_WAKE then on_wakeup
  else if ev_ud e =? UD_LISTENER then on_accept_ready
  else if ev_wr e then on_writable (slot_of (ev_ud e)) else on_readable (slot_of (ev_ud e)).

(** [handle_isolated]: an unwinding drops what the handler held; the connection
    the event named is then closed, in isolation too. *)
Definition drop_ready (s : Reactor) : Reactor := set_ready [] (set_dropped (dropped s ++ ready s) s).
Definition isolated (m : M unit) (s : Reactor) : option (bool * Reactor) :=
  match m s with Done _ s' => Some (false, s') | Unwind s' => Some (true, drop_ready s') | Stuck => None end.

Definition handle_event (e : Event) (s : Reactor) : option Reactor :=
  '(panicked, s1) ← isolated (handle e) s;
  if panicked && negb (ev_ud e =? UD_WAKE) && negb (ev_ud e =? UD_LISTENER)
  then snd <$> isolated (close (slot_of (ev_ud e))) s1 else Some s1.

(** ** The kqueue

    [foreign f] says whether a descriptor that is not the shard's is open and
    has the condition. *)
Definition condition (foreign : Z -> option bool) (s : Reactor) (f : Z) (w : bool) : option bool :=
  match socks s !! f with
  | Some k => Some (if w then writable k else readable k)
  | None => if f =? wake_rd then Some (negb w && (0 <? bell s)%nat)
            else if bool_decide (f ∈ listeners ++ (h_fd <$> handed s)) then Some (default false (foreign f))
            else foreign f
  end.

(** An addition looks for the condition when it registers, and only moves the
    [udata] of what is registered; a change that fails is an event of its own. *)
Definition apply (foreign : Z -> option bool) (s : Reactor) (st : gmap (Z * bool) Knote * list Event) (k : Kev) :
    gmap (Z * bool) Knote * list Event :=
  let '(ns, errs) := st in
  let failed := (ns, errs ++ [mkEvent (ident k) (wr k) (udata k)]) in
  let add clear :=
    match condition foreign s (ident k) (wr k) with
    | None => failed
    | Some r => (<[(ident k, wr k) := mkKnote (udata k) clear (from_option kn_active r (ns !! (ident k, wr k)))]> ns, errs)
    end in
  match flag k with
  | EvAdd => add false
  | EvAddClear => add true
  | EvDelete => match ns !! (ident k, wr k) with Some _ => (delete (ident k, wr k) ns, errs) | None => failed end
  end.

(** Retrieving an edge clears it. *)
Definition retrieve (st : gmap (Z * bool) Knote * list Event) (key : Z * bool) : option (gmap (Z * bool) Knote * list Event) :=
  let '(ns, evs) := st in
  n ← ns !! key;
  if kn_active n then Some (<[key := mkKnote (kn_ud n) (kn_clear n) (negb (kn_clear n))]> ns, evs ++ [mkEvent key.1 key.2 (kn_ud n)]) else None.

Definition kevent (foreign : Z -> option bool) (sel : list (Z * bool)) (s : Reactor) : option Reactor :=
  '(ns, evs) ← foldl (fun st key => x ← st; retrieve x key) (Some (foldl (apply foreign s) (knotes s, []) (changes s))) sel;
  if (EVENT_CAP <? length evs)%nat then None else Some (set_batch evs (set_changes [] (set_knotes ns s))).

(** An interrupted call has applied the changes. *)
Definition kevent_intr (foreign : Z -> option bool) (s : Reactor) : Reactor :=
  set_changes [] (set_knotes (foldl (apply foreign s) (knotes s, []) (changes s)).1 s).

Inductive Label :=
  | LPoll (foreign : Z -> option bool) (sel : list (Z * bool))    (* [kevent] *)
  | LPollIntr (foreign : Z -> option bool)
  | LHandle (sc : list Sys) (ar : list Arrival)    (* the next event of the batch *)
  | LServe (a : Serve)
  | LOwnerGone
  | LData (f : Z) (b : bytes)                 (* the peer sends *)
  | LEnd (f : Z) (rst : bool)                 (* closes, or resets *)
  | LRoom (f : Z) (n : nat)                   (* takes what was sent *)
  | LSpurious (key : Z * bool)                (* an edge without a cause; a listener's level *)
  | LReturn (k : nat)                         (* a thread that took a connection over returns *)
  | LGone (f : Z)                             (* a descriptor that is not the shard's is closed *)
  | LPrune.                                   (* idle rate windows are reclaimed *)

Definition kstep (l : Label) (s : Reactor) : option Reactor :=
  match l with
  | LPoll foreign sel => match batch s with [] => kevent foreign sel s | _ => None end
  | LPollIntr foreign => match batch s with [] => Some (kevent_intr foreign s) | _ => None end
  | LHandle sc ar => match batch s with e :: rest => handle_event e (set_arrivals ar (set_script sc (set_batch rest s))) | [] => None end
  | LServe a => Some (serve_step s a)
  | LOwnerGone => Some (set_gw_up false s)
  | LData f b =>
      k ← socks s !! f;
      if fin k || reset k || bool_decide (b = []) then None
      else Some (activate (f, false) (set_socks (<[f := mkSock (rx k ++ b) (taken k) false false (room k) (tx k)]> (socks s)) s))
  | LEnd f rst =>
      k ← socks s !! f;
      Some ((if rst then activate (f, true) else id) (activate (f, false) (set_socks (<[f := mkSock (rx k) (taken k) true (reset k || rst) (room k) (tx k)]> (socks s)) s)))
  | LRoom f n =>
      k ← socks s !! f;
      Some (activate (f, true) (set_socks (<[f := mkSock (rx k) (taken k) (fin k) (reset k) (room k + n) (tx k)]> (socks s)) s))
  | LSpurious key => Some (activate key s)
  | LReturn k =>
      h ← handed s !! k;
      match uncount (h_ip h) s with
      | Done _ s1 => Some (set_knotes (delete (h_fd h, true) (delete (h_fd h, false) (knotes s1))) (set_handed (delete k (handed s1)) s1))
      | _ => None
      end
  | LGone f =>
      if bool_decide (is_Some (socks s !! f)) || (f =? wake_rd) || bool_decide (f ∈ listeners ++ (h_fd <$> handed s)) then None
      else Some (set_knotes (delete (f, true) (delete (f, false) (knotes s))) s)
  | LPrune =>
      match look s with
      | Done a s1 => if rate_limit a =? 0 then Some s1 else Some (set_table (rate_prune (table s1) (rate_window a) (a_now a)) s1)
      | _ => None
      end
  end.

(** A shard as [reactor_loop] starts it: every listener and the self-pipe are
    about to be registered. *)
Definition shard (t : SharedStanding) : Reactor :=
  mkReactor slab_new 0 (((fun f => kev f false EvAdd UD_LISTENER) <$> listeners) ++ [kev wake_rd false EvAddClear UD_WAKE])
    0 t true [] [] 0 0 [] [] ∅ [] ∅ [] [] [] ∅ ∅.
End reactor.
