(* ===== verification/KqInv.v ===== *)
(** * Who waits for what on a kqueue shard

    Edges are retrieved once, answers are routed by slot alone, and slots and
    descriptors are reused as soon as they are freed, while changes queued for
    the kqueue may still name them. What makes that sound is [conn_ok]: a
    connection is with the serve owner ([Serving]: one answer is on its way, to
    its slot and for its socket), or it waits for its peer ([Reading],
    [Writing]: it is registered under its slot, or the registration is queued
    behind every older change, and if its socket is ready the edge is still to
    be seen). [Hand i c left] is the invariant while slot [i] is in a handler's
    hands, with [left] of what was staged still to be sent. *)
From S2P Require Import Prelude Bytes Lines Standing Http Gzip Ws Fleet Blocking Lanes Interp Accept Counts Kqueue.

Local Open Scope Z_scope.

Ltac ksimpl := cbn [slab accepted changes tick table gw_up jobs mailbox ringing bell ready dropped knotes batch socks script arrivals handed due asked
  set_slab set_accepted set_changes set_tick set_table set_gw_up set_jobs set_mailbox set_ringing set_bell set_ready set_dropped set_knotes
  set_batch set_socks set_script set_arrivals set_handed set_due set_asked conns sl_free put
  k_fd k_peer k_seq k_acc k_resp k_sent k_req_ka k_ka k_h2c k_serving k_rd_armed k_wr_armed k_rd_streak k_rd_skip k_wr_streak k_wr_skip k_hdr_start k_hdr_done k_start
  set_k_seq set_k_acc set_k_resp set_k_sent set_k_req_ka set_k_ka set_k_serving set_k_rd_armed set_k_wr_armed set_k_rd_streak set_k_rd_skip
  set_k_wr_streak set_k_wr_skip set_k_hdr_start set_k_hdr_done].

(** ** Weakest preconditions *)
Definition wp {A} (m : M A) (Q : A -> Reactor -> Prop) (R : Reactor -> Prop) (s : Reactor) : Prop :=
  match m s with Done a s' => Q a s' | Unwind s' => R s' | Stuck => False end.

Lemma wp_bind {A B} (m : M A) (k : A -> M B) Q R s : wp m (fun a s' => wp (k a) Q R s') R s -> wp (mbind k m) Q R s.
Proof. unfold wp, mbind, M_bind. by destruct (m s). Qed.

Lemma wp_mono {A} (m : M A) (Q Q' : A -> Reactor -> Prop) (R R' : Reactor -> Prop) s :
  wp m Q R s -> (forall a s', Q a s' -> Q' a s') -> (forall s', R s' -> R' s') -> wp m Q' R' s.
Proof. unfold wp. intros H HQ HR. destruct (m s); eauto. Qed.

(** ** The invariant *)
Definition last_change (f : Z) (w : bool) (l : list Kev) : option Kev := last (filter (fun k => ident k = f /\ wr k = w) l).

Definition job_toks (i : nat) (l : list Job) : list Z := j_fd <$> filter (fun j => j_slot j = i) l.
Definition done_toks (i : nat) (l : list KqDone) : list Z := d_fd <$> filter (fun d => d_conn d = i) l.
(** The sockets the answers on their way to slot [i] are for. *)
Definition toks (i : nat) (s : Reactor) : list Z := job_toks i (jobs s) ++ done_toks i (mailbox s ++ ready s ++ dropped s).

Definition seen (ud : Z) (w : bool) (l : list Event) : Prop := exists e, e ∈ l /\ ev_ud e = ud /\ ev_wr e = w.

(** Registered, or about to be. *)
Definition reg (ud f : Z) (w : bool) (s : Reactor) : Prop :=
  match last_change f w (changes s) with
  | Some k => flag k = EvAddClear /\ udata k = ud
  | None => exists a, knotes s !! (f, w) = Some (mkKnote ud true a)
  end.

(** The edge is still to be retrieved or to be handled. *)
Definition edge (ud f : Z) (w : bool) (s : Reactor) : Prop :=
  match knotes s !! (f, w) with Some n => kn_active n = true \/ seen ud w (batch s) | None => True end.

(** Received in order: requests cut from the stream, then the buffer. *)
Definition content (c : Conn) (k : Sock) (cut : list bytes) : Prop :=
  concat cut ++ k_acc c = take (taken k) (rx k) /\ (taken k <= length (rx k))%nat.

Inductive phase (i : nat) (c : Conn) (k : Sock) (s : Reactor) : Prop :=
  | Serving : k_serving c = true -> k_resp c = None -> toks i s = [k_fd c] -> tx k = default [] (due s !! k_fd c) ->
      k_rd_skip c = 0 -> k_wr_skip c = 0 -> k_wr_armed c = false -> phase i c k s
  | Reading : k_serving c = false -> k_resp c = None -> toks i s = [] -> tx k = default [] (due s !! k_fd c) ->
      k_wr_skip c = 0 -> k_wr_armed c = false -> k_rd_armed c = true ->
      (readable k = true -> edge (Z.of_nat i) (k_fd c) false s) -> phase i c k s
  | Writing r : k_serving c = false -> k_resp c = Some r -> (k_sent c < length r)%nat -> toks i s = [] ->
      tx k ++ drop (k_sent c) r = default [] (due s !! k_fd c) -> k_rd_skip c = 0 -> k_wr_armed c = true ->
      (writable k = true -> edge (Z.of_nat i) (k_fd c) true s) -> phase i c k s.

Record conn_ok (i : nat) (c : Conn) (s : Reactor) : Prop := {
  co_sock : exists k, socks s !! k_fd c = Some k /\ content c k (default [] (asked s !! k_fd c)) /\ phase i c k s;
  co_rd : k_rd_armed c = true -> reg (Z.of_nat i) (k_fd c) false s;
  co_wr : k_wr_armed c = true -> reg (Z.of_nat i) (k_fd c) true s
}.

Definition slab_ok (sl : Slab) : Prop :=
  NoDup (sl_free sl) /\ (forall i, i ∈ sl_free sl <-> conns sl !! i = Some None) /\ Z.of_nat (length (conns sl)) <= MAX_CONNS_PER_SHARD.

Section inv.
Context {host : KHost}.

Definition own (s : Reactor) (ip : IpAddr) : Z := tot (from_option (fun c => at_source (k_peer c) ip) 0) (conns (slab s)).
Definition held (s : Reactor) (ip : IpAddr) : Z := own s ip + tot (fun h => at_source (h_ip h) ip) (handed s).

(** A descriptor a connection may have. *)
Definition conn_fd (f : Z) : Prop := 0 <= f < 2 ^ 31 /\ f <> wake_rd /\ f ∉ listeners.

(** What the other threads count at each look, and the answers [on_wakeup]
    still has to deliver. *)
Class KWorld := { theirs : nat -> IpAddr -> Z }.
Class Pending := pending : list KqDone.
Context {world : KWorld} {rest : Pending}.

Class KHostOk : Prop := {
  ko_theirs n ip : 0 <= theirs n ip;
  ko_others n t h : (forall ip, 0 <= h ip) -> counts t (fun ip => h ip + theirs n ip) ->
    counts (others n t) (fun ip => h ip + theirs (S n) ip);
  ko_cap : 0 < process_cap < TABLE_MAX;
  ko_wake : 0 <= wake_rd /\ wake_rd ∉ listeners
}.

(** Nobody's but the shard's: [x] is a socket just accepted, [h] the sources
    counted for it; [m] is unset while the mailbox is being emptied. *)
Record glob (m : bool) (x : list Z) (h : IpAddr -> Z) (s : Reactor) : Prop := {
  g_slab : slab_ok (slab s);
  g_fd i c : get i s = Some c -> conn_fd (k_fd c) /\ k_fd c ∉ (h_fd <$> handed s);
  g_apart i j c d : get i s = Some c -> get j s = Some d -> k_fd c = k_fd d -> i = j;
  g_handed : NoDup (h_fd <$> handed s) /\ forall f, f ∈ (h_fd <$> handed s) -> conn_fd f /\ socks s !! f = None;
  g_socks f : is_Some (socks s !! f) -> f ∈ x \/ exists i c, get i s = Some c /\ k_fd c = f;
  g_dead i : get i s = None -> toks i s = [];
  g_counts : counts (table s) (fun ip => held s ip + h ip + theirs (tick s) ip);
  g_wake : reg UD_WAKE wake_rd false s;
  g_bell : (0 < bell s)%nat ->
    match knotes s !! (wake_rd, false) with Some n => kn_active n = true \/ seen UD_WAKE false (batch s) | None => True end;
  g_mail : m = true -> mailbox s <> [] -> (0 < ringing s + bell s)%nat;
  g_ready : ready s = pending
}.

Definition nobody (_ : IpAddr) : Z := 0.

Record Inv (m : bool) (s : Reactor) : Prop := {
  i_glob : glob m [] nobody s;
  i_conns i c : get i s = Some c -> conn_ok i c s
}.

Record Hand (i : nat) (c : Conn) (left : bytes) (s : Reactor) : Prop := {
  h_glob : glob true [] nobody s;
  h_get : get i s = Some c;
  h_rest j d : j <> i -> get j s = Some d -> conn_ok j d s;
  h_sock : exists k, socks s !! k_fd c = Some k /\ content c k (default [] (asked s !! k_fd c)) /\
    tx k ++ left = default [] (due s !! k_fd c);
  h_toks : toks i s = [];
  h_rd : k_rd_armed c = true -> reg (Z.of_nat i) (k_fd c) false s;
  h_wr : k_wr_armed c = true -> reg (Z.of_nat i) (k_fd c) true s
}.

(** ** Lists *)
Lemma last_change_snoc f w l k : last_change f w (l ++ [k]) = if decide (ident k = f /\ wr k = w) then Some k else last_change f w l.
Proof. unfold last_change. rewrite filter_app, filter_cons, filter_nil. case_decide; [by rewrite last_snoc|by rewrite app_nil_r]. Qed.

Lemma get_slot i s c : get i s = Some c <-> conns (slab s) !! i = Some (Some c).
Proof. unfold get. destruct (conns (slab s) !! i) as [[d|]|]; cbn; naive_solver. Qed.

Lemma slot_lt i s c : get i s = Some c -> (i < length (conns (slab s)))%nat.
Proof. rewrite get_slot. apply lookup_lt_Some. Qed.

Lemma get_conns i s s' : conns (slab s') !! i = conns (slab s) !! i -> get i s' = get i s.
Proof. unfold get. by intros ->. Qed.


Lemma held_sources_nonneg s ip : 0 <= held s ip.
Proof.
  unfold held, own. assert (0 <= tot (from_option (fun c => at_source (k_peer c) ip) 0) (conns (slab s))).
  { apply tot_nonneg. intros [c|]; cbn; [apply at_source_nonneg|done]. }
  assert (0 <= tot (fun h => at_source (h_ip h) ip) (handed s)) by (apply tot_nonneg; intros; apply at_source_nonneg). lia.
Qed.

(** ** Frames *)
(** What [conn_ok j d] looks at. *)
Record same_at (j : nat) (f : Z) (s s' : Reactor) : Prop := {
  sa_sock : socks s' !! f = socks s !! f;
  sa_note w : knotes s' !! (f, w) = knotes s !! (f, w);
  sa_chg w : last_change f w (changes s') = last_change f w (changes s);
  sa_due : due s' !! f = due s !! f;
  sa_asked : asked s' !! f = asked s !! f;
  sa_toks : toks j s' ≡ₚ toks j s;
  sa_seen w : seen (Z.of_nat j) w (batch s) -> seen (Z.of_nat j) w (batch s')
}.

Lemma reg_frame ud f w s s' : last_change f w (changes s') = last_change f w (changes s) -> knotes s' !! (f, w) = knotes s !! (f, w) ->
  reg ud f w s -> reg ud f w s'.
Proof. unfold reg. by intros -> ->. Qed.

Lemma edge_frame ud f w s s' : knotes s' !! (f, w) = knotes s !! (f, w) -> (seen ud w (batch s) -> seen ud w (batch s')) -> edge ud f w s -> edge ud f w s'.
Proof. unfold edge. intros -> Hs. destruct (knotes s !! (f, w)); [intros [|]; auto|done]. Qed.

Lemma conn_ok_frame j d s s' : same_at j (k_fd d) s s' -> conn_ok j d s -> conn_ok j d s'.
Proof.
  intros [S1 S2 S3 S4 S5 S6 S7] [(k & Hk & Hc & Hp) Hr Hw]. constructor.
  - exists k. rewrite S1, S5. split_and!; [done..|].
    destruct Hp as [? ? Ht|? ? Ht|r ? ? ? Ht]; rewrite Ht in S6; [apply Permutation_singleton_r in S6|apply Permutation_nil_r in S6..];
      [eapply Serving|eapply Reading|eapply Writing]; rewrite ?S4; try done; intros Hx; eapply edge_frame; eauto.
  - intros H. eapply reg_frame; eauto.
  - intros H. eapply reg_frame; eauto.
Qed.

(** Nothing has changed but slot [i], which holds [c'], and descriptor [f]. *)
Record alike (i : nat) (c' : Conn) (f : Z) (s s' : Reactor) : Prop := {
  al_conns : conns (slab s') = <[i := Some c']> (conns (slab s));
  al_free : sl_free (slab s') = sl_free (slab s);
  al_socks g : g <> f -> socks s' !! g = socks s !! g;
  al_notes g w : g <> f -> knotes s' !! (g, w) = knotes s !! (g, w);
  al_chg g w : g <> f -> last_change g w (changes s') = last_change g w (changes s);
  al_due g : g <> f -> due s' !! g = due s !! g;
  al_asked g : g <> f -> asked s' !! g = asked s !! g;
  al_jobs : jobs s' = jobs s;
  al_mailbox : mailbox s' = mailbox s;
  al_ready : ready s' = ready s;
  al_dropped : dropped s' = dropped s;
  al_batch : batch s' = batch s;
  al_handed : handed s' = handed s;
  al_bell : bell s' = bell s;
  al_ringing : ringing s' = ringing s
}.

Lemma al_toks i c f s s' j : alike i c f s s' -> toks j s' = toks j s.
Proof. intros []. unfold toks. congruence. Qed.

Lemma al_get i c f s s' j : alike i c f s s' -> j <> i -> get j s' = get j s.
Proof. intros H Hj. apply get_conns. rewrite (al_conns _ _ _ _ _ H). by rewrite list_lookup_insert_ne. Qed.

Lemma al_get_self i c c' f s s' : alike i c' f s s' -> get i s = Some c -> get i s' = Some c'.
Proof. intros H Hi. apply get_slot. rewrite (al_conns _ _ _ _ _ H). apply list_lookup_insert_eq. by eapply slot_lt. Qed.

Lemma al_held i c c' f s s' ip : alike i c' f s s' -> get i s = Some c -> k_peer c' = k_peer c -> held s' ip = held s ip.
Proof.
  intros H Hi%get_slot Hp. unfold held, own. rewrite (al_handed _ _ _ _ _ H), (al_conns _ _ _ _ _ H).
  rewrite (tot_insert _ _ _ _ _ Hi). cbn. rewrite Hp. lia.
Qed.

Definition counted (s : Reactor) : Prop := counts (table s) (fun ip => held s ip + theirs (tick s) ip).

Lemma glob_counted m s : glob m [] nobody s -> counted s.
Proof. intros H. eapply counts_ext, (g_counts _ _ _ _ H). intros ip. unfold nobody. cbn. lia. Qed.

Lemma glob_keeps m i c c' s s' :
  glob m [] nobody s -> get i s = Some c -> alike i c' (k_fd c) s s' -> k_fd c' = k_fd c -> k_peer c' = k_peer c -> is_Some (socks s !! k_fd c) ->
  counts (table s') (fun ip => held s ip + theirs (tick s') ip) -> glob m [] nobody s'.
Proof.
  intros [G1 G2 G3 G4 G5 G6 G7 G8 G9 G10 G11] Hi H Hf Hp Hk Hc. pose proof (G2 i c Hi) as [(Hfd & Hfw & Hfl) Hfh].
  pose proof (al_get_self _ _ _ _ _ _ H Hi) as Hi'.
  assert (forall j d, get j s' = Some d -> exists d0, get j s = Some d0 /\ k_fd d0 = k_fd d) as Hback.
  { intros j d Hj. destruct (decide (j = i)) as [->|Hne]; [exists c; split; [done|congruence]|]. exists d. by rewrite <- (al_get _ _ _ _ _ _ H Hne). }
  constructor.
  - destruct G1 as (F1 & F2 & F3). unfold slab_ok. rewrite (al_conns _ _ _ _ _ H), (al_free _ _ _ _ _ H), length_insert. split_and!; [done| |done].
    intros j. rewrite F2. destruct (decide (j = i)) as [->|]; [|by rewrite list_lookup_insert_ne].
    rewrite list_lookup_insert_eq by (by eapply slot_lt). apply get_slot in Hi. rewrite Hi. naive_solver.
  - intros j d Hj. destruct (Hback j d Hj) as (d0 & Hd & <-). rewrite (al_handed _ _ _ _ _ H). by eapply G2.
  - intros j1 j2 d1 d2 E1 E2 E. destruct (Hback _ _ E1) as (e1 & F1 & Q1), (Hback _ _ E2) as (e2 & F2 & Q2). eapply G3; [done..|congruence].
  - rewrite (al_handed _ _ _ _ _ H). destruct G4 as [? G4]. split; [done|]. intros f Hin. destruct (G4 f Hin) as [? Hn]. split; [done|].
    rewrite (al_socks _ _ _ _ _ H); [done|]. intros ->. by rewrite Hn in Hk; destruct Hk.
  - intros f Hs. destruct (decide (f = k_fd c)) as [->|Hne]; [right; exists i, c'; by split|]. rewrite (al_socks _ _ _ _ _ H) in Hs by done.
    destruct (G5 f Hs) as [Hx|(j & d & Hj & Hd)]; [by left|right]. exists j, d. split; [|done]. rewrite (al_get _ _ _ _ _ _ H); [done|]. congruence.
  - intros j Hj. rewrite (al_toks _ _ _ _ _ _ H). apply G6. destruct (decide (j = i)) as [->|]; [congruence|]. by rewrite <- (al_get _ _ _ _ _ _ H).
  - eapply counts_ext, Hc. intros ip. unfold nobody. rewrite (al_held _ _ _ _ _ _ _ H Hi Hp). lia.
  - eapply reg_frame, G8; [apply (al_chg _ _ _ _ _ H); congruence|apply (al_notes _ _ _ _ _ H); congruence].
  - rewrite (al_bell _ _ _ _ _ H), (al_batch _ _ _ _ _ H), (al_notes _ _ _ _ _ H) by congruence. done.
  - by rewrite (al_mailbox _ _ _ _ _ H), (al_ringing _ _ _ _ _ H), (al_bell _ _ _ _ _ H).
  - by rewrite (al_ready _ _ _ _ _ H).
Qed.

Lemma rest_alike m i c c' s s' :
  glob m [] nobody s -> get i s = Some c -> alike i c' (k_fd c) s s' ->
  (forall j d, j <> i -> get j s = Some d -> conn_ok j d s) -> forall j d, j <> i -> get j s' = Some d -> conn_ok j d s'.
Proof.
  intros G Hi H Hr j d Hj Hd. rewrite (al_get _ _ _ _ _ _ H) in Hd by done. eapply conn_ok_frame, Hr; [|done..].
  assert (k_fd d <> k_fd c) as Hne by (intros E; by apply Hj; eapply (g_apart _ _ _ _ G)).
  pose proof H as []. constructor; eauto; [by rewrite (al_toks _ _ _ _ _ _ H)|]. intros w. by rewrite al_batch0.
Qed.

(** The general step on a connection in hand. *)
Lemma Hand_alike i c c' left left' s s' :
  Hand i c left s -> alike i c' (k_fd c) s s' -> k_fd c' = k_fd c -> k_peer c' = k_peer c -> counts (table s') (fun ip => held s ip + theirs (tick s') ip) ->
  (exists k, socks s' !! k_fd c = Some k /\ content c' k (default [] (asked s' !! k_fd c)) /\ tx k ++ left' = default [] (due s' !! k_fd c)) ->
  (k_rd_armed c' = true -> reg (Z.of_nat i) (k_fd c) false s') -> (k_wr_armed c' = true -> reg (Z.of_nat i) (k_fd c) true s') ->
  Hand i c' left' s'.
Proof.
  intros [G Hg Hr (k & Hk & _) Ht _ _] H Hf Hp Hc Hs Hrd Hwr.
  constructor; rewrite ?Hf; try done.
  - by eapply glob_keeps.
  - by eapply al_get_self.
  - by eapply rest_alike.
  - by rewrite (al_toks _ _ _ _ _ _ H).
Qed.

Context {ok : KHostOk}.

(** ** Steps on a connection in hand *)
Lemma alike_put i c' f s : alike i c' f s (put i c' s).
Proof. by constructor. Qed.

Lemma alike_self i c f s : get i s = Some c -> alike i c f s s.
Proof. intros H%get_slot. constructor; try done. by rewrite list_insert_id. Qed.

Lemma Hand_counted i c left s : Hand i c left s -> counted s.
Proof. intros H. by eapply glob_counted, h_glob. Qed.

Lemma Hand_put i c c' left s :
  Hand i c left s -> k_fd c' = k_fd c -> k_peer c' = k_peer c -> k_acc c' = k_acc c ->
  (k_rd_armed c' = true -> k_rd_armed c = true) -> (k_wr_armed c' = true -> k_wr_armed c = true) -> Hand i c' left (put i c' s).
Proof.
  intros H Hf Hp Ha Hr Hw. pose proof H as [_ _ _ (k & Hk & Hc & Ht) _ Hrd Hwr].
  eapply Hand_alike; [exact H|apply alike_put|done|done|exact (Hand_counted _ _ _ _ H)| |intros E; by apply Hrd, Hr|intros E; by apply Hwr, Hw].
  exists k. unfold content. rewrite Ha. done.
Qed.

Lemma Hand_same i c left s s' :
  Hand i c left s -> slab s' = slab s -> socks s' = socks s -> knotes s' = knotes s -> changes s' = changes s -> due s' = due s -> asked s' = asked s ->
  jobs s' = jobs s -> mailbox s' = mailbox s -> ready s' = ready s -> dropped s' = dropped s -> batch s' = batch s -> handed s' = handed s ->
  bell s' = bell s -> ringing s' = ringing s -> counts (table s') (fun ip => held s ip + theirs (tick s') ip) -> Hand i c left s'.
Proof.
  intros H E1 E2 E3 E4 E5 E6 E7 E8 E9 E10 E11 E12 E13 E14 Hc. pose proof H as [_ Hg _ (k & Hk & Hco & Ht) _ Hrd Hwr].
  eapply Hand_alike; [exact H| |done|done|done| |unfold reg; by rewrite E3, E4|unfold reg; by rewrite E3, E4].
  - apply get_slot in Hg. constructor; try congruence. rewrite E1. by rewrite list_insert_id.
  - exists k. by rewrite E2, E5, E6.
Qed.

Lemma look_counted s h : (forall ip, 0 <= h ip) -> counts (table s) (fun ip => h ip + theirs (tick s) ip) ->
  counts (others (tick s) (table s)) (fun ip => h ip + theirs (S (tick s)) ip).
Proof. intros Hh Hc. by apply ko_others. Qed.

Lemma Hand_look i c left s : Hand i c left s ->
  exists s', look s = Done (amb (tick s)) s' /\ Hand i c left s' /\ script s' = script s /\ socks s' = socks s /\ slab s' = slab s.
Proof.
  intros H. eexists. split; [reflexivity|]. split; [|done]. eapply Hand_same; [exact H|done..|]. ksimpl.
  apply look_counted; [intros; apply held_sources_nonneg|exact (Hand_counted _ _ _ _ H)].
Qed.

Lemma Hand_table i c left s {A} (f : SharedStanding -> option (SharedStanding * A)) :
  Hand i c left s -> (forall t h, counts t h -> exists t' a, f t = Some (t', a) /\ counts t' h) ->
  exists a s', on_table f s = Done a s' /\ Hand i c left s' /\ script s' = script s /\ socks s' = socks s /\ slab s' = slab s.
Proof.
  intros H Hf. unfold on_table. destruct (Hf _ _ (Hand_counted _ _ _ _ H)) as (t' & a & -> & Hc).
  eexists _, _. split; [reflexivity|]. split; [|done]. by eapply Hand_same; [exact H|..].
Qed.

Lemma Hand_sys i c left s : Hand i c left s ->
  exists o s', sys s = Done o s' /\ Hand i c left s' /\ slab s' = slab s /\ socks s' = socks s /\
    (script s' = tail (script s)) /\ (o <> None -> (length (script s') < length (script s))%nat).
Proof.
  intros H. unfold sys. destruct (script s) as [|o l] eqn:E.
  - eexists _, _. split; [reflexivity|]. by rewrite E.
  - eexists _, _. split; [reflexivity|]. split_and!; [|done..|intros _; cbn; lia].
    eapply Hand_same; [exact H|done..|]. exact (Hand_counted _ _ _ _ H).
Qed.

(** A change of the socket, the staged bytes, the cut requests. *)
Lemma Hand_wire i c c' left left' s s' k :
  Hand i c left s -> slab s' = slab (put i c' s) -> knotes s' = knotes s -> changes s' = changes s ->
  (forall g, g <> k_fd c -> socks s' !! g = socks s !! g) -> (forall g, g <> k_fd c -> due s' !! g = due s !! g) ->
  (forall g, g <> k_fd c -> asked s' !! g = asked s !! g) ->
  jobs s' = jobs s -> mailbox s' = mailbox s -> ready s' = ready s -> dropped s' = dropped s -> batch s' = batch s -> handed s' = handed s ->
  bell s' = bell s -> ringing s' = ringing s -> table s' = table s -> tick s' = tick s ->
  k_fd c' = k_fd c -> k_peer c' = k_peer c -> (k_rd_armed c' = true -> k_rd_armed c = true) -> (k_wr_armed c' = true -> k_wr_armed c = true) ->
  socks s' !! k_fd c = Some k -> content c' k (default [] (asked s' !! k_fd c)) -> tx k ++ left' = default [] (due s' !! k_fd c) ->
  Hand i c' left' s'.
Proof.
  intros H E1 E2 E3 E4 E5 E6 E7 E8 E9 E10 E11 E12 E13 E14 E15 E16 Hf Hp Hr Hw Hk Hc Ht. pose proof H as [_ _ _ _ _ Hrd Hwr].
  eapply Hand_alike; [exact H| |done|done| |eauto|intros E; unfold reg; rewrite E2, E3; by apply Hrd, Hr|intros E; unfold reg; rewrite E2, E3; by apply Hwr, Hw].
  - constructor; try congruence; [by rewrite E1|by rewrite E1|eauto..].
  - rewrite E15, E16. exact (Hand_counted _ _ _ _ H).
Qed.

(** ** Back to the invariant *)
Lemma Hand_done i c left s : Hand i c left s -> (forall k, socks s !! k_fd c = Some k -> phase i c k s) -> Inv true s.
Proof.
  intros [G Hg Hr (k & Hk & Hc & Ht) Htk Hrd Hwr] Hp. constructor; [done|]. intros j d Hj. destruct (decide (j = i)) as [->|]; [|by apply Hr].
  assert (d = c) as -> by congruence. constructor; [|done..]. exists k. auto.
Qed.

(** A connection with nothing staged, of which nothing is asked. *)
Definition idle (c : Conn) : Prop := k_serving c = false /\ k_resp c = None /\ k_rd_skip c = 0 /\ k_wr_skip c = 0 /\ k_wr_armed c = false.
(** A connection with [r] staged. *)
Definition loaded (c : Conn) (r : bytes) : Prop := k_serving c = false /\ k_resp c = Some r /\ (k_sent c <= length r)%nat /\ k_rd_skip c = 0.

Lemma Hand_tx i c left s k : Hand i c left s -> socks s !! k_fd c = Some k -> tx k ++ left = default [] (due s !! k_fd c).
Proof. intros [_ _ _ (k' & Hk' & _ & Ht) _ _ _] Hk. assert (k' = k) as <- by congruence. done. Qed.

Lemma Hand_upd i c left s (f : Conn -> Conn) : Hand i c left s -> upd i f s = Done tt (put i (f c) s).
Proof. intros H. unfold upd. by rewrite (h_get _ _ _ _ H). Qed.

Lemma Hand_expect i c left s (f : Conn -> Conn) : Hand i c left s -> expect i f s = Done tt (put i (f c) s).
Proof. intros H. unfold expect. by rewrite (h_get _ _ _ _ H). Qed.

Lemma put_get i c c' s : get i s = Some c -> get i (put i c' s) = Some c'.
Proof. intros H. apply get_slot. ksimpl. apply list_lookup_insert_eq. by eapply slot_lt. Qed.

(** Arming: registered under the slot, behind every older change. *)
Lemma Hand_push i c left s (w : bool) :
  Hand i c left s -> Hand i (if w then set_k_wr_armed true c else set_k_rd_armed true c) left
    (set_changes (changes s ++ [kev (k_fd c) w EvAddClear (Z.of_nat i)]) (put i (if w then set_k_wr_armed true c else set_k_rd_armed true c) s)).
Proof.
  intros H. pose proof H as [_ _ _ Hs _ Hrd Hwr].
  assert (forall v : bool, reg (Z.of_nat i) (k_fd c) v s \/ v = w ->
    reg (Z.of_nat i) (k_fd c) v (set_changes (changes s ++ [kev (k_fd c) w EvAddClear (Z.of_nat i)]) (put i (if w then set_k_wr_armed true c else set_k_rd_armed true c) s))) as Hreg.
  { intros v Hv. unfold reg. ksimpl. rewrite last_change_snoc. cbn [ident wr]. case_decide as E; [done|]. destruct Hv as [Hv| ->]; [exact Hv|naive_solver]. }
  eapply Hand_alike; [exact H| |by destruct w|by destruct w|exact (Hand_counted _ _ _ _ H)| | |].
  - constructor; try done. intros g v Hg. ksimpl. rewrite last_change_snoc. cbn [ident wr]. rewrite decide_False; [done|naive_solver].
  - destruct Hs as (k & Hk & Hc & Ht). exists k. split_and!; [done| |done]. by destruct w.
  - intros E. apply Hreg. destruct w; cbn in E; [left; by apply Hrd|by right].
  - intros E. apply Hreg. destruct w; cbn in E; [by right|left; by apply Hwr].
Qed.

Lemma arm_read_done i c s k R : Hand i c [] s -> k_serving c = false -> k_resp c = None -> k_wr_skip c = 0 -> k_wr_armed c = false ->
  socks s !! k_fd c = Some k -> readable k = false -> wp (arm_read i) (fun _ => Inv true) R s.
Proof.
  intros H I1 I2 I3 I4 Hk Hn. unfold wp, arm_read, mbind, M_bind, conn, gets. rewrite (h_get _ _ _ _ H).
  rewrite (Hand_upd _ _ _ _ _ H). pose proof (Hand_tx _ _ _ _ _ H Hk) as Ht. rewrite app_nil_r in Ht.
  destruct (k_rd_armed c) eqn:E.
  - eapply (Hand_done i (set_k_rd_armed true c) []); [by apply (Hand_put _ c); rewrite ?E|].
    intros k' Hk'. ksimpl. assert (k' = k) as -> by (ksimpl; cbn in Hk'; congruence). eapply Reading; try done; [by apply (h_toks _ _ _ _ H)|congruence].
  - eapply (Hand_done i (set_k_rd_armed true c) []); [exact (Hand_push i c [] s false H)|].
    intros k' Hk'. assert (k' = k) as -> by (cbn in Hk'; congruence). eapply Reading; try done; [by apply (h_toks _ _ _ _ H)|congruence].
Qed.

Lemma arm_write_done i c r s k R : Hand i c (drop (k_sent c) r) s -> k_serving c = false -> k_resp c = Some r -> (k_sent c < length r)%nat -> k_rd_skip c = 0 ->
  socks s !! k_fd c = Some k -> writable k = false -> wp (arm_write i) (fun _ => Inv true) R s.
Proof.
  intros H I1 I2 I3 I4 Hk Hn. unfold wp, arm_write, mbind, M_bind, conn, gets. rewrite (h_get _ _ _ _ H).
  rewrite (Hand_upd _ _ _ _ _ H). pose proof (Hand_tx _ _ _ _ _ H Hk) as Ht.
  destruct (k_wr_armed c) eqn:E.
  - eapply (Hand_done i (set_k_wr_armed true c)); [apply (Hand_put _ c); [exact H|..]; rewrite ?E; done|].
    intros k' Hk'. assert (k' = k) as -> by (cbn in Hk'; congruence). eapply Writing; try done; [by apply (h_toks _ _ _ _ H)|congruence].
  - eapply (Hand_done i (set_k_wr_armed true c)); [exact (Hand_push i c _ s true H)|].
    intros k' Hk'. assert (k' = k) as -> by (cbn in Hk'; congruence). eapply Writing; try done; [by apply (h_toks _ _ _ _ H)|congruence].
Qed.

Lemma disarm_write_hand i c left s : Hand i c left s ->
  exists s', disarm_write i s = Done tt s' /\ Hand i (set_k_wr_armed false c) left s' /\ script s' = script s /\ socks s' = socks s.
Proof.
  intros H. unfold disarm_write, mbind, M_bind, conn, gets. rewrite (h_get _ _ _ _ H). destruct (k_wr_armed c) eqn:E.
  - rewrite (Hand_upd _ _ _ _ _ H). eexists. split; [reflexivity|]. split; [|done]. pose proof H as [_ _ _ Hs _ Hrd Hwr].
    eapply Hand_alike; [exact H| |done|done|exact (Hand_counted _ _ _ _ H)|done| |done].
    + constructor; try done. intros g v Hg. ksimpl. rewrite last_change_snoc. cbn [ident wr]. rewrite decide_False; [done|naive_solver].
    + intros Er. unfold reg. ksimpl. rewrite last_change_snoc. cbn [ident wr]. rewrite decide_False by naive_solver. exact (Hrd Er).
  - eexists. split; [reflexivity|]. split; [|done]. assert (set_k_wr_armed false c = c) as ->; [|done]. destruct c. cbn in E. by subst.
Qed.

(** ** System calls *)
Lemma moved_range c n : (0 < n)%nat -> (0 < moved c n <= n)%nat.
Proof. intros H. unfold moved. destruct c as [[| |m]|]; lia. Qed.

Definition fed (b : bytes) (c : Conn) : Conn := set_k_rd_skip 0 (set_k_rd_streak 0 (set_k_acc (k_acc c ++ b) c)).
Definition effort (i : nat) (s : Reactor) : nat := length (script s) + unread i s.

Lemma recv_cases i c s : Hand i c [] s -> exists r s', recv (k_fd c) s = Done r s' /\
  match r with
  | RData b => Hand i (fed b c) [] (put i (fed b c) s') /\ get i s' = Some c /\ (effort i (put i (fed b c) s') < effort i s)%nat
  | RAgain => Hand i c [] s' /\ exists k, socks s' !! k_fd c = Some k /\ readable k = false
  | RIntr => Hand i c [] s' /\ (effort i s' < effort i s)%nat
  | REof | RErr => Hand i c [] s'
  end.
Proof.
  intros H. unfold recv, mbind, M_bind. destruct (Hand_sys _ _ _ _ H) as (o & s1 & -> & H1 & Hsl & Hso & Hsc & Hlt).
  pose proof H1 as [_ Hg _ (k & Hk & Hc & Ht) _ _ _]. unfold sock, mbind, M_bind, gets. rewrite Hk. cbn [lift mret M_ret].
  assert (unread i s1 = unread i s) as Hu by (unfold unread; rewrite (get_conns i s s1) by (by rewrite Hsl); by rewrite Hso).
  enough (exists r s', recv_now o (k_fd c) k s1 = Done r s' /\
    match r with
    | RData b => Hand i (fed b c) [] (put i (fed b c) s') /\ get i s' = Some c /\ (effort i (put i (fed b c) s') < effort i s)%nat
    | RAgain => Hand i c [] s' /\ exists k, socks s' !! k_fd c = Some k /\ readable k = false
    | RIntr => False
    | REof | RErr => Hand i c [] s'
    end) as Hnow.
  { assert (o = Some SIntr -> (effort i s1 < effort i s)%nat) as He by (intros ->; unfold effort; rewrite Hu; pose proof (Hlt ltac:(done)); lia).
    destruct o as [[| |m]|]; [exists RIntr, s1; by auto|exists RErr, s1; done|..];
      destruct Hnow as (r & s' & E & Hr); exists r, s'; (split; [exact E|]); by destruct r. }
  unfold recv_now, mbind, M_bind. cbn zeta. destruct (reset k) eqn:Er; [by eexists _, s1|]. destruct (length (drop (taken k) (rx k)) =? 0)%nat eqn:El.
  { apply Nat.eqb_eq in El. rewrite length_drop in El. destruct (fin k) eqn:Ef; [by eexists _, s1|]. eexists _, s1. split; [reflexivity|]. split; [done|].
    exists k. split; [done|]. unfold readable. rewrite Er, Ef. rewrite (proj2 (Nat.ltb_ge _ _)) by lia. done. }
  apply Nat.eqb_neq in El. rewrite length_drop in *. set (n := moved o (Nat.min RECV_CHUNK (length (rx k) - taken k))).
  assert (0 < n <= length (rx k) - taken k)%nat as Hn.
  { pose proof (moved_range o (Nat.min RECV_CHUNK (length (rx k) - taken k))). assert (0 < RECV_CHUNK)%nat by (unfold RECV_CHUNK; lia). lia. }
  eexists _, _. split; [reflexivity|]. split_and!; [|exact Hg|].
  - eapply (Hand_wire i c _ [] [] s1 _ (mkSock (rx k) (taken k + n) (fin k) false (room k) (tx k))); try done; ksimpl;
      [intros g Hne; by rewrite lookup_insert_ne by congruence|by rewrite lookup_insert_eq|].
    destruct Hc as [Hc Hle]. unfold content, fed. cbn [taken rx]. ksimpl. rewrite app_assoc, Hc, take_take_drop. split; [done|lia].
  - unfold effort, unread at 1. rewrite (put_get _ c) by done. ksimpl. rewrite lookup_insert_eq. cbn [rx taken].
    assert (length (script s1) <= length (script s))%nat by (rewrite Hsc; destruct (script s); cbn; lia).
    rewrite <- Hu. unfold unread. rewrite Hg, Hk. lia.
Qed.

Definition advanced (n : nat) (c : Conn) : Conn := set_k_wr_skip 0 (set_k_wr_streak 0 (set_k_sent (k_sent c + n)%nat c)).

Lemma send_cases i c r s : Hand i c (drop (k_sent c) r) s -> (k_sent c < length r)%nat -> exists n s', send (k_fd c) (drop (k_sent c) r) s = Done n s' /\
  match n with
  | Sent 0 | SAgain => Hand i c (drop (k_sent c) r) s' /\ exists k, socks s' !! k_fd c = Some k /\ writable k = false
  | Sent n => Hand i (advanced n c) (drop (k_sent c + n) r) (put i (advanced n c) s') /\ get i s' = Some c /\
      (k_sent c + n <= length r)%nat /\ (length (script s') <= length (script s))%nat
  | SInterrupted => Hand i c (drop (k_sent c) r) s' /\ (length (script s') < length (script s))%nat
  | SErr => Hand i c (drop (k_sent c) r) s'
  end.
Proof.
  intros H Hlen. unfold send, mbind, M_bind. destruct (Hand_sys _ _ _ _ H) as (o & s1 & -> & H1 & Hsl & Hso & Hsc & Hlt).
  pose proof H1 as [_ Hg _ (k & Hk & Hc & Ht) _ _ _]. unfold sock, mbind, M_bind, gets. rewrite Hk. cbn [lift mret M_ret].
  enough (exists n s', send_now o (k_fd c) k (drop (k_sent c) r) s1 = Done n s' /\
    match n with
    | Sent 0 | SAgain => Hand i c (drop (k_sent c) r) s' /\ exists k, socks s' !! k_fd c = Some k /\ writable k = false
    | Sent n => Hand i (advanced n c) (drop (k_sent c + n) r) (put i (advanced n c) s') /\ get i s' = Some c /\
        (k_sent c + n <= length r)%nat /\ (length (script s') <= length (script s))%nat
    | SInterrupted => False
    | SErr => Hand i c (drop (k_sent c) r) s'
    end) as Hnow.
  { destruct o as [[| |m]|]; [exists SInterrupted, s1; split_and!; [done..|by apply Hlt]|exists SErr, s1; done|..];
      destruct Hnow as (n & s' & E & Hr); exists n, s'; (split; [exact E|]); by destruct n. }
  unfold send_now, mbind, M_bind.
  destruct (reset k) eqn:Er; [by eexists _, s1|]. destruct (room k =? 0)%nat eqn:El.
  { apply Nat.eqb_eq in El. assert (exists k, socks s1 !! k_fd c = Some k /\ writable k = false) as Hw.
    { exists k. split; [done|]. unfold writable. by rewrite Er, El. }
    destruct o as [[| |[|m]]|]; by eexists _, s1. }
  apply Nat.eqb_neq in El. cbn zeta. rewrite length_drop. set (n := moved o _).
  assert (0 < n <= length r - k_sent c)%nat as Hn.
  { pose proof (moved_range o (Nat.min (room k) (length r - k_sent c))). lia. }
  eexists (Sent n), _. split; [reflexivity|]. destruct n as [|n'] eqn:En; [lia|]. rewrite <- En in *. split_and!; [|exact Hg|lia|].
  - eapply (Hand_wire i c _ _ _ s1 _ (mkSock (rx k) (taken k) (fin k) false (room k - n) (tx k ++ take n (drop (k_sent c) r)))); try done; ksimpl;
      [intros g Hne; by rewrite lookup_insert_ne by congruence|by rewrite lookup_insert_eq|].
    cbn [tx]. rewrite <- Ht, <- app_assoc. f_equal. rewrite <- drop_drop. by rewrite take_drop.
  - cbn. rewrite Hsc. destruct (script s); cbn; lia.
Qed.

(** ** Leaving *)
Lemma slab_removed i c s : get i s = Some c ->
  slab_remove i (slab s) = mkSlab (<[i := None]> (conns (slab s))) (sl_free (slab s) ++ [i]).
Proof. intros H%get_slot. unfold slab_remove. by rewrite H. Qed.

(** The connection is gone from the slab and its socket from the shard; its
    count has gone too, or is with the thread that took it over. *)
Lemma Hand_gone i c left s s' hs :
  Hand i c left s -> slab s' = slab_remove i (slab s) ->
  (forall g, g <> k_fd c -> socks s' !! g = socks s !! g) -> socks s' !! k_fd c = None ->
  (forall g w, g <> k_fd c -> knotes s' !! (g, w) = knotes s !! (g, w)) ->
  (forall g w, g <> k_fd c -> last_change g w (changes s') = last_change g w (changes s)) ->
  due s' = due s -> asked s' = asked s -> jobs s' = jobs s -> mailbox s' = mailbox s -> ready s' = ready s -> dropped s' = dropped s ->
  batch s' = batch s -> bell s' = bell s -> ringing s' = ringing s ->
  handed s' = handed s ++ hs -> (forall h, h ∈ hs -> h_fd h = k_fd c) -> (length hs <= 1)%nat ->
  counts (table s') (fun ip => held s ip - at_source (k_peer c) ip + tot (fun h => at_source (h_ip h) ip) hs + theirs (tick s') ip) ->
  Inv true s' /\ get i s' = None.
Proof.
  intros [G Hg Hr (k & Hk & _) Ht _ _] E1 E2 E2' E3 E4 E5 E6 E7 E8 E9 E10 E11 E12 E13 E14 Hhs Hlen Hc.
  rewrite (slab_removed i c s Hg) in E1. pose proof (slot_lt _ _ _ Hg) as Hlt. pose proof Hg as Hg'%get_slot.
  assert (get i s' = None) as Hi by (unfold get; rewrite E1; cbn; by rewrite list_lookup_insert_eq).
  assert (forall j, j <> i -> get j s' = get j s) as Hj by (intros j Hne; apply get_conns; rewrite E1; cbn; by rewrite list_lookup_insert_ne).
  assert (forall j, toks j s' = toks j s) as Htk by (intros j; unfold toks; congruence).
  split; [|done]. destruct G as [G1 G2 G3 G4 G5 G6 G7 G8 G9 G10 G11]. pose proof (G2 i c Hg) as [(Hfd & Hfw & Hfl) Hfh].
  assert (forall j d, get j s' = Some d -> j <> i /\ get j s = Some d /\ k_fd d <> k_fd c) as Hback.
  { intros j d Hd. assert (j <> i) as Hne by congruence. rewrite Hj in Hd by done. split_and!; [done..|]. intros E. by apply Hne, (G3 j i d c). }
  constructor; [constructor|].
  - destruct G1 as (F1 & F2 & F3). rewrite E1. unfold slab_ok. cbn. split_and!; [| |by rewrite length_insert].
    + apply NoDup_app. split_and!; [done| |apply NoDup_singleton]. intros x Hx ->%list_elem_of_singleton. apply F2 in Hx. congruence.
    + intros j. rewrite elem_of_app, F2, list_elem_of_singleton, list_lookup_insert_Some. naive_solver.
  - intros j d Hd. destruct (Hback j d Hd) as (Hne & Hd' & Hx). destruct (G2 j d Hd') as [? Hh]. split; [done|].
    rewrite E14, fmap_app, elem_of_app. intros [|Hin]; [done|]. apply list_elem_of_fmap in Hin as (h & Hh1 & Hh2). apply Hhs in Hh2. congruence.
  - intros j1 j2 d1 d2 A1 A2 A. apply (G3 j1 j2 d1 d2); [by apply Hback in A1 as (_ & ? & _)|by apply Hback in A2 as (_ & ? & _)|done].
  - destruct G4 as [N4 G4]. rewrite E14, fmap_app. split.
    + apply NoDup_app. split_and!; [done| |].
      * intros f Hf Hin. apply list_elem_of_fmap in Hin as (h & -> & Hin). rewrite (Hhs h Hin) in Hf. done.
      * destruct hs as [|h [|h' hs]]; cbn in *; [apply NoDup_nil_2|apply NoDup_singleton|lia].
    + intros f. rewrite elem_of_app. intros [Hin|Hin].
      * destruct (G4 f Hin) as [? Hn]. split; [done|]. rewrite E2; [done|]. intros ->. congruence.
      * apply list_elem_of_fmap in Hin as (h & -> & Hin). rewrite (Hhs h Hin). done.
  - intros f Hf. destruct (decide (f = k_fd c)) as [->|Hne]; [rewrite E2' in Hf; by destruct Hf|]. rewrite E2 in Hf by done.
    destruct (G5 f Hf) as [|(j & d & Hd & Hd')]; [by left|right]. exists j, d. split; [|done]. rewrite Hj; [done|]. intros ->. congruence.
  - intros j Hd. rewrite Htk. destruct (decide (j = i)) as [->|]; [done|]. apply G6. by rewrite <- Hj.
  - eapply counts_ext, Hc. intros ip. unfold held, own, nobody. rewrite E1, E14. cbn [conns]. rewrite tot_app, (tot_insert _ _ _ _ None Hg'). cbn. lia.
  - eapply reg_frame, G8; [apply E4|apply E3]; congruence.
  - rewrite E12, E11, E3 by congruence. done.
  - by rewrite E8, E12, E13.
  - by rewrite E9.
  - intros j d Hd. destruct (Hback j d Hd) as (Hne & Hd' & Hx). eapply conn_ok_frame, Hr; [|done..].
    constructor; eauto; [by rewrite E5|by rewrite E6|by rewrite Htk|]. intros w. by rewrite E11.
Qed.

Lemma held_at i c s : get i s = Some c -> forall ip, at_source (k_peer c) ip <= held s ip.
Proof.
  intros Hg%get_slot ip. unfold held, own. pose proof (tot_own (from_option (fun c => at_source (k_peer c) ip) 0) (conns (slab s)) i (Some c)) as H.
  specialize (H ltac:(intros [d|]; cbn; [apply at_source_nonneg|done]) Hg). cbn in H.
  assert (0 <= tot (fun h => at_source (h_ip h) ip) (handed s)) by (apply tot_nonneg; intros; apply at_source_nonneg). lia.
Qed.

Lemma at_source_self ip : at_source ip ip = 1.
Proof. unfold at_source. by rewrite bool_decide_true. Qed.

(** One connection less in the table. *)
Lemma uncount_ok ip s h : (forall j, 0 <= h j) -> 1 <= h ip -> counts (table s) (fun j => h j + theirs (tick s) j) ->
  exists t', uncount ip s = Done tt (set_table t' (set_tick (S (tick s)) s)) /\
    counts t' (fun j => h j - at_source ip j + theirs (S (tick s)) j).
Proof.
  intros Hh Hip Hc. pose proof (look_counted s h Hh Hc) as Hl. destruct (counts_close _ _ ip Hl) as (t' & E & Ht).
  { pose proof (ko_theirs (S (tick s)) ip). lia. }
  exists t'. unfold uncount, mbind, M_bind, look, on_table. ksimpl. rewrite E. cbn [mbind option_bind]. split; [done|].
  eapply counts_ext, Ht. intros j. cbn. lia.
Qed.

Lemma close_spec i c left s : Hand i c left s -> exists s', close i s = Done tt s' /\ Inv true s' /\ get i s' = None.
Proof.
  intros H. pose proof H as [_ Hg _ (k & Hk & _) _ _ _]. unfold close. unfold mbind at 1, M_bind at 1, conn, gets. rewrite Hg.
  destruct (uncount_ok (k_peer c) s (held s)) as (t' & E & Ht).
  { intros; apply held_sources_nonneg. } { pose proof (held_at _ _ _ Hg (k_peer c)) as Hp. rewrite at_source_self in Hp. lia. } { exact (Hand_counted _ _ _ _ H). }
  unfold mbind, M_bind. rewrite E. unfold remove, modify, close_fd, sock, mbind, M_bind, gets, modify. ksimpl. rewrite Hk. cbn [lift mret M_ret].
  eexists. split; [reflexivity|]. eapply (Hand_gone i c left s _ []); ksimpl; try done.
  - intros g Hne. by rewrite lookup_delete_ne by congruence.
  - by rewrite lookup_delete_eq.
  - intros g w Hne. by rewrite !lookup_delete_ne by congruence.
  - by rewrite app_nil_r.
  - by intros h Hh%elem_of_nil.
  - cbn; lia.
  - eapply counts_ext, Ht. intros ip. cbn. lia.
Qed.

Lemma last_change_app g w l dels : (forall k, k ∈ dels -> ident k <> g) -> last_change g w (l ++ dels) = last_change g w l.
Proof.
  revert l. induction dels as [|k dels IH]; intros l Hd; [by rewrite app_nil_r|]. rewrite cons_middle, app_assoc, IH.
  - rewrite last_change_snoc, decide_False; [done|]. intros [E _]. by apply (Hd k); [left|].
  - intros k' Hk'. apply Hd. by right.
Qed.

Definition gone (i : nat) (s : Reactor) : Prop := Inv true s /\ get i s = None.

Lemma handoff_spec i c left l s : Hand i c left s -> wp (handoff i l) (fun _ => gone i) (gone i) s.
Proof.
  intros H. pose proof H as [_ Hg _ (k & Hk & _) _ _ _]. unfold handoff. apply wp_bind. unfold wp at 1, conn, gets. rewrite Hg.
  set (dels := (if k_rd_armed c then [kev (k_fd c) false EvDelete (Z.of_nat i)] else []) ++ (if k_wr_armed c then [kev (k_fd c) true EvDelete (Z.of_nat i)] else [])).
  assert (forall k', k' ∈ dels -> ident k' = k_fd c) as Hd by (intros k'; unfold dels; destruct (k_rd_armed c), (k_wr_armed c); set_solver).
  match goal with |- wp (mbind ?K1 ?m1) _ _ _ => enough (wp (_ ← modify (fun s => set_changes (changes s ++ dels) s); _ ← remove i;
      ok ← gets (fun s => spawn_ok (tick s)); _ ← look;
      if ok : bool then modify (fun s => set_handed (handed s ++ [mkHanded l (k_fd c) (k_peer c)]) (set_socks (delete (k_fd c) (socks s)) s))
      else _ ← uncount (k_peer c); _ ← close_fd (k_fd c); match l with HandH2 _ => unwind | _ => mret tt end) (fun _ => gone i) (gone i) s) as Hw end.
  { revert Hw. unfold wp, mbind, M_bind, modify, push, mret, M_ret, dels. destruct (k_rd_armed c), (k_wr_armed c); unfold modify; ksimpl; cbn [app]; rewrite ?app_nil_r, <- ?app_assoc; done. }
  unfold wp, mbind, M_bind, modify, remove, modify, gets, look. ksimpl.
  assert (forall g w, g <> k_fd c -> last_change g w (changes s ++ dels) = last_change g w (changes s)) as Hch.
  { intros g w Hne. apply last_change_app. intros k' Hk'. rewrite (Hd k' Hk'). congruence. }
  pose proof (look_counted s (held s) ltac:(intros; apply held_sources_nonneg) (Hand_counted _ _ _ _ H)) as Hl.
  destruct (spawn_ok (tick s)).
  - eapply (Hand_gone i c left s _ [mkHanded l (k_fd c) (k_peer c)]); ksimpl; try done.
    + intros g Hne. by rewrite lookup_delete_ne by congruence.
    + by rewrite lookup_delete_eq.
    + intros h ->%list_elem_of_singleton. done.
    + eapply counts_ext, Hl. intros ip. cbn. lia.
  - match goal with |- context [uncount ?ip ?s1] => destruct (uncount_ok ip s1 (held s)) as (t' & E & Ht) end; ksimpl; [intros; apply held_sources_nonneg| |exact Hl|].
    { pose proof (held_at _ _ _ Hg (k_peer c)) as Hp. rewrite at_source_self in Hp. lia. }
    rewrite E. unfold close_fd, sock, mbind, M_bind, gets, modify. ksimpl. rewrite Hk. cbn [lift mret M_ret].
    match goal with |- context [set_knotes ?n (set_socks ?d ?s1)] => assert (gone i (set_knotes n (set_socks d s1))) as Hgone end; [|by destruct l].
    eapply (Hand_gone i c left s _ []); ksimpl; try done.
    + intros g Hne. by rewrite lookup_delete_ne by congruence.
    + by rewrite lookup_delete_eq.
    + intros g w Hne. by rewrite !lookup_delete_ne by congruence.
    + by rewrite app_nil_r.
    + by intros h Hh%elem_of_nil.
    + cbn; lia.
    + eapply counts_ext, Ht. intros ip. cbn. lia.
Qed.
End inv.
