(* ===== verification/KqServe.v ===== *)
(** * The fast paths of a kqueue shard keep the invariant

    Sending, finishing a response, framing and handing a request over, and
    receiving, each from [Hand] (the slot is in a handler's hands) back to
    [Inv], or, when a thread could not be created, to an unwinding that leaves
    the slot empty ([gone]). The loops return, and a response that goes out
    whole calls back at most [LEVELS] deep. *)
From S2P Require Import Prelude Bytes Lines Standing Http Gzip Ws Fleet Blocking Lanes Interp Accept Counts Kqueue KqInv.

Local Open Scope Z_scope.

Section serve.
Context {host : KHost} {world : KWorld} {rest : Pending} {ok : KHostOk}.

(** Runs a step that is known to return. *)
Lemma wp_step {A B} (m : M A) (k : A -> M B) a s s' Q R : m s = Done a s' -> wp (k a) Q R s' -> wp (mbind k m) Q R s.
Proof. intros E H. apply wp_bind. unfold wp at 1. by rewrite E. Qed.

Lemma wp_done {A} (m : M A) a s s' (Q : A -> Reactor -> Prop) R : m s = Done a s' -> Q a s' -> wp m Q R s.
Proof. unfold wp. by intros ->. Qed.

Lemma conn_step {B} i c left s (k : option Conn -> M B) Q R : Hand i c left s -> wp (k (Some c)) Q R s -> wp (mbind k (conn i)) Q R s.
Proof. intros H. apply wp_step. unfold conn, gets. by rewrite (h_get _ _ _ _ H). Qed.

Lemma close_wp i c left s R : Hand i c left s -> wp (close i) (fun _ => Inv true) R s.
Proof. intros H. destruct (close_spec _ _ _ _ H) as (s' & E & Hi & _). by eapply wp_done. Qed.

Lemma close_then {A} i c left s (a : A) (Q : A -> Reactor -> Prop) R : Hand i c left s -> (forall s', Inv true s' -> Q a s') -> wp (_ ← close i; mret a) Q R s.
Proof. intros H HQ. destruct (close_spec _ _ _ _ H) as (s' & E & Hi & _). eapply wp_step; [exact E|]. by apply HQ. Qed.

(** ** Sending *)

(** What finishing a response, one level down, must do; [ka] says whether the
    connection may be one that is kept. *)
Definition again_ok (ka : bool) (again : nat -> M unit) : Prop := forall i c r s,
  Hand i c [] s -> loaded c r -> k_sent c = length r -> k_wr_skip c = 0 -> (k_ka c = true -> ka = true) -> wp (again i) (fun _ => Inv true) (gone i) s.

Section levels.
Context (ka : bool) (again : nat -> M unit) (Hagain : again_ok ka again).

Lemma send_loop_spec fuel : forall i fe c r s,
  Hand i c (drop (k_sent c) r) s -> loaded c r -> k_wr_skip c = 0 -> (k_ka c = true -> ka = true) ->
  (length (script s) + (length r - k_sent c) < fuel)%nat -> wp (send_loop again fuel i fe) (fun _ => Inv true) (gone i) s.
Proof using ok Hagain.
  induction fuel as [|fuel IH]; intros i fe c r s H L Hskip Hka Hf; [lia|]. pose proof L as (L1 & L2 & L3 & L4). cbn [send_loop].
  eapply conn_step; [exact H|]. rewrite L2. rewrite (proj2 (Nat.ltb_ge _ _) L3). destruct (length r - k_sent c =? 0)%nat eqn:E0.
  { apply Nat.eqb_eq in E0. rewrite drop_ge in H by lia. apply (Hagain _ c r); try done. lia. }
  apply Nat.eqb_neq in E0. destruct (send_cases i c r s H ltac:(lia)) as (n & s' & Es & Hn). eapply wp_step; [exact Es|].
  destruct n as [[|n]| | |].
  - destruct Hn as (Hh & k & Hk & Hw). apply (arm_write_done _ c r _ k); try done. lia.
  - destruct Hn as (Hh & Hg & Hle & Hsc). eapply wp_step; [unfold expect; rewrite Hg; reflexivity|]. fold (advanced (S n) c).
    change (staged_done (Some r) (k_sent c + S n)) with (length r <=? k_sent c + S n)%nat. destruct (length r <=? k_sent c + S n)%nat eqn:Ed.
    + apply Nat.leb_le in Ed. rewrite drop_ge in Hh by lia. apply (Hagain _ (advanced (S n) c) r); try done. cbn. lia.
    + apply Nat.leb_gt in Ed. apply (IH _ _ (advanced (S n) c) r); try done. cbn. lia.
  - destruct Hn as (Hh & k & Hk & Hw). destruct fe.
    + eapply wp_step; [reflexivity|]. apply (arm_write_done _ c r _ k); try done. lia.
    + eapply wp_step; [apply (Hand_expect _ _ _ _ _ Hh)|]. eapply (arm_write_done i _ r); [by apply (Hand_put _ c)|done..|cbn; lia|done|done|done].
  - destruct Hn as [Hh Hsc]. apply (IH _ _ c r); try done. lia.
  - by apply (close_wp _ c _ _ _ Hn).
Qed.

Lemma send_drain_spec i fe c r s : Hand i c (drop (k_sent c) r) s -> loaded c r -> k_wr_skip c = 0 -> (k_ka c = true -> ka = true) ->
  wp (send_drain again i fe) (fun _ => Inv true) (gone i) s.
Proof using ok Hagain.
  intros H L Hs Hka. unfold send_drain, wp. rewrite (h_get _ _ _ _ H). cbn [mbind option_bind]. pose proof L as (_ & -> & _ & _).
  apply (send_loop_spec _ i fe c r s); try done. cbn. lia.
Qed.

Lemma want_write_spec i c r s : Hand i c (drop (k_sent c) r) s -> loaded c r -> k_wr_skip c = 0 -> (k_ka c = true -> ka = true) ->
  wp (want_write again i) (fun _ => Inv true) (gone i) s.
Proof using ok Hagain.
  intros H L Hs Hka. unfold want_write. eapply conn_step; [exact H|]. pose proof L as (_ & -> & _ & _). rewrite Hs. by apply (send_drain_spec i _ c r).
Qed.
End levels.

(** ** Dispatching *)
Lemma stage_hand i c b s : Hand i c [] s ->
  exists s', stage i b s = Done tt s' /\ Hand i (set_k_ka false (set_k_sent 0%nat (set_k_resp (Some b) c))) b s'.
Proof.
  intros H. unfold stage, mbind, M_bind, conn, gets. rewrite (h_get _ _ _ _ H), (Hand_upd _ _ _ _ _ H). eexists. split; [reflexivity|].
  pose proof H as [_ _ _ (k & Hk & Hc & Ht) _ _ _].
  eapply (Hand_wire i c _ [] b s _ k); try done; ksimpl; [intros g Hne; by rewrite lookup_insert_ne by congruence|].
  rewrite lookup_insert_eq. cbn. rewrite <- Ht. by rewrite app_nil_r.
Qed.

Definition settled (d : Disp) (s : Reactor) : Prop := d <> NeedsMore /\ Inv true s.

Lemma refuse_spec again i c b s : again_ok false again -> Hand i c [] s -> idle c -> wp (refuse again i b) settled (gone i) s.
Proof using ok.
  intros Ha H (I1 & I2 & I3 & I4 & I5). unfold refuse. destruct (stage_hand i c b s H) as (s1 & E & H1). eapply wp_step; [exact E|].
  apply wp_bind. eapply wp_mono; [eapply (want_write_spec false again Ha i _ b); [exact H1|by split_and!; cbn; [..|lia|]|done|done]| |done].
  intros ? s' Hi. by split.
Qed.

Lemma handoff_then i c left l s : Hand i c left s -> wp (_ ← handoff i l; mret Closed) settled (gone i) s.
Proof using ok. intros H. apply wp_bind. eapply wp_mono; [by apply (handoff_spec i c left)| |done]. intros ? s' [Hi _]. by split. Qed.

Lemma job_toks_snoc n l j : job_toks n (l ++ [j]) = job_toks n l ++ (if decide (j_slot j = n) then [j_fd j] else []).
Proof. unfold job_toks. rewrite filter_app, filter_cons, filter_nil, fmap_app. by case_decide. Qed.

(** The request is with the serve owner. *)
Lemma submitted i c j s : Hand i c [] s -> k_serving c = true -> k_resp c = None -> k_rd_skip c = 0 -> k_wr_skip c = 0 -> k_wr_armed c = false ->
  j_slot j = i -> j_fd j = k_fd c -> Inv true (set_jobs (jobs s ++ [j]) s).
Proof.
  intros [G Hg Hr (k & Hk & Hc & Ht) Htk Hrd Hwr] S1 S2 S3 S4 S5 Ej Ef. set (s' := set_jobs (jobs s ++ [j]) s).
  assert (forall n, toks n s' = if decide (n = i) then [k_fd c] else toks n s) as Htoks.
  { intros n. unfold toks, s'. ksimpl. rewrite job_toks_snoc, Ej, Ef. unfold toks in Htk. case_decide as E1; case_decide as E2; try congruence.
    - subst n. apply app_eq_nil in Htk as [-> ->]. done.
    - by rewrite app_nil_r. }
  assert (forall n d, n <> i -> get n s = Some d -> conn_ok n d s') as Hrest.
  { intros n d Hn Hd. eapply conn_ok_frame, Hr; [|done..]. constructor; try done. by rewrite Htoks, decide_False. }
  constructor.
  - destruct G. constructor; try done. intros n Hn. rewrite Htoks, decide_False; [by apply g_dead|]. intros ->. change (get i s = None) in Hn. congruence.
  - intros n d Hd. destruct (decide (n = i)) as [->|Hne]; [|by apply Hrest]. assert (d = c) as -> by (change (get i s = Some d) in Hd; congruence).
    constructor; [|exact Hrd|exact Hwr]. exists k. split_and!; [done..|]. rewrite app_nil_r in Ht. apply Serving; try done. by rewrite Htoks, decide_True.
Qed.

Ltac run_look H s1 H1 :=
  let E := fresh in
  destruct (Hand_look _ _ _ _ H) as (s1 & E & H1 & ?Esc & ?Eso & ?Esl); eapply wp_step; [exact E|]; clear E.

Lemma submit_metered_spec i c req s : Hand i c [] s -> k_serving c = true -> k_resp c = None -> k_rd_skip c = 0 -> k_wr_skip c = 0 -> k_wr_armed c = false ->
  wp (submit_metered i req) settled (gone i) s.
Proof using ok.
  intros H S1 S2 S3 S4 S5. unfold submit_metered. eapply conn_step; [exact H|].
  run_look H s1 H1. run_look H1 s2 H2. run_look H2 s3 H3. eapply wp_step; [apply (Hand_upd _ _ _ _ _ H3)|].
  match goal with |- wp _ _ _ (put i ?c' s3) => set (c1 := c'); assert (Hand i c1 [] (put i c1 s3)) as Hc1 by (by apply (Hand_put _ c)) end.
  run_look Hc1 s4 H4. edestruct (Hand_table i c1 [] s4 (fun t => n ← active t (k_peer c); Some (t, n)) H4) as (n & s5 & E & H5 & _).
  { intros t h Ht. destruct (counts_active t h (k_peer c) Ht) as [n E]. exists t, n. rewrite E. done. }
  eapply wp_step; [exact E|]. clear E. run_look H5 s6 H6.
  edestruct (Hand_table i c1 [] s6 (fun t => req_note_prior t (k_peer c) (rate_limit (amb (tick s5))) (rate_window (amb (tick s5))) (a_now (amb (tick s5)))) H6) as (pr & s7 & E & H7 & _).
  { intros t h Ht. by apply counts_prior. }
  eapply wp_step; [exact E|]. clear E. run_look H7 s8 H8. cbn zeta. destruct (seam_of _ req) as [seam payload].
  unfold submit. apply wp_bind. unfold wp at 1. destruct (gw_up s8).
  - split; [done|]. by eapply (submitted i c1).
  - apply (close_then i c1 []); [done|]. by split.
Qed.

Lemma dispatch_framed_spec i c total s : Hand i c [] s -> idle c -> wp (dispatch_framed i c total) settled (gone i) s.
Proof using ok.
  intros H (I1 & I2 & I3 & I4 & I5). unfold dispatch_framed. cbn zeta. destruct (_ && _); [by apply (close_then i c []); [|by split]|].
  destruct (is_ws_upgrade _); [by apply (handoff_then i c [])|]. eapply wp_step; [reflexivity|]. run_look H s1 H0.
  destruct (takes_over_connection _ _ _ _); [by apply (handoff_then i c [])|].
  eapply wp_step; [apply (Hand_expect _ _ _ _ _ H0)|]. eapply wp_step; [reflexivity|].
  match goal with |- wp (submit_metered i ?req) _ _ (set_asked ?a (put i ?c' s1)) =>
    assert (Hand i c' [] (set_asked a (put i c' s1))) as Hc1 end; [|by eapply submit_metered_spec].
  pose proof H0 as [_ _ _ (k & Hk & Hc & Ht) _ _ _].
  eapply (Hand_wire i c _ [] [] s1 _ k); try done; ksimpl; [intros g Hne; by rewrite lookup_insert_ne by congruence|].
  rewrite lookup_insert_eq. destruct Hc as [Hc Hle]. split; [|done]. cbn [from_option id]. ksimpl.
  rewrite concat_app, <- app_assoc. cbn [concat]. rewrite app_nil_r, take_drop. done.
Qed.

Definition dispatched (i : nat) (c : Conn) (s : Reactor) (d : Disp) (s' : Reactor) : Prop :=
  match d with
  | NeedsMore => Hand i c [] s' /\ script s' = script s /\ socks s' = socks s /\ slab s' = slab s
  | _ => Inv true s'
  end.

Lemma settled_dispatched i c s d s' : settled d s' -> dispatched i c s d s'.
Proof. intros [Hd Hi]. by destruct d. Qed.

Lemma dispatch_spec again i c s : again_ok false again -> Hand i c [] s -> idle c -> wp (dispatch again i) (dispatched i c s) (gone i) s.
Proof using ok.
  intros Ha H I. unfold dispatch. run_look H s1 H0. eapply conn_step; [exact H0|]. run_look H0 s2 H1.
  assert (script s2 = script s /\ socks s2 = socks s /\ slab s2 = slab s) as (Q1 & Q2 & Q3) by (split_and!; congruence).
  destruct (_ && _ && _); [eapply wp_mono; [by apply (refuse_spec again i c)| |done]; intros; by apply settled_dispatched|].
  unfold dispatch_gated. destruct (_ && _ && _); [by apply (wp_done _ NeedsMore s2 s2)|].
  destruct (_ && _).
  { unfold h2c_handoff. eapply wp_mono; [|intros; by apply settled_dispatched|done].
    apply wp_bind. unfold wp at 1. unfold mbind at 1, M_bind at 1, conn, gets. rewrite (h_get _ _ _ _ H1). change (wp (handoff i (HandH2 (k_acc c))) (fun _ s' => wp (mret Closed) settled (gone i) s') (gone i) s2).
    eapply wp_mono; [by apply (handoff_spec i c [])| |done]. intros ? s' [Hi _]. by split. }
  run_look H1 s3 H2. destruct (_ && _); [eapply wp_mono; [by apply (refuse_spec again i c)| |done]; intros; by apply settled_dispatched|].
  destruct (next_request _ _).
  - apply (wp_done _ NeedsMore s3 s3); [done|]. split_and!; [done|congruence..].
  - eapply wp_mono; [by apply (dispatch_framed_spec i c)| |done]; intros; by apply settled_dispatched.
  - by apply (close_then i c []).
Qed.

(** ** Receiving *)
Lemma recv_loop_spec again fuel : again_ok false again -> forall i fe c s,
  Hand i c [] s -> idle c -> (effort i s < fuel)%nat -> wp (recv_loop again fuel i fe) (fun _ => Inv true) (gone i) s.
Proof using ok.
  intros Ha. induction fuel as [|fuel IH]; intros i fe c s H I Hf; [lia|]. pose proof I as (I1 & I2 & I3 & I4 & I5). cbn [recv_loop].
  eapply conn_step; [exact H|]. rewrite I1, I2. cbn [orb]. rewrite bool_decide_false by (by intros []).
  destruct (recv_cases i c s H) as (r & s' & Er & Hr). eapply wp_step; [exact Er|]. destruct r as [b| | | |].
  - destruct Hr as (Hh & Hg & He). eapply wp_step; [unfold expect; rewrite Hg; reflexivity|]. fold (fed b c). apply wp_bind.
    eapply wp_mono; [by apply (dispatch_spec again i (fed b c) _ Ha Hh)| |done]. intros d s2 Hd. destruct d; [done| |done].
    destruct Hd as (Hh2 & E1 & E2 & E3). apply (IH i fe (fed b c)); [done|done|].
    enough (effort i s2 = effort i (put i (fed b c) s')) by lia. unfold effort, unread. rewrite E1, E2.
    by rewrite (get_conns i (put i (fed b c) s') s2) by (by rewrite E3).
  - by apply (close_wp _ c []).
  - destruct Hr as (Hh & k & Hk & Hn). destruct fe.
    + eapply wp_step; [reflexivity|]. by apply (arm_read_done _ c _ k).
    + eapply wp_step; [apply (Hand_expect _ _ _ _ _ Hh)|]. eapply (arm_read_done i); [by apply (Hand_put _ c)|done..].
  - destruct Hr as [Hh He]. apply (IH i fe c); [done|done|lia].
  - by apply (close_wp _ c []).
Qed.

Lemma recv_drain_spec again i fe c s : again_ok false again -> Hand i c [] s -> idle c -> wp (recv_drain again i fe) (fun _ => Inv true) (gone i) s.
Proof using ok. intros Ha H I. unfold recv_drain. apply (recv_loop_spec again _ Ha i fe c s H I). unfold effort. lia. Qed.

Lemma want_read_spec again i c s : again_ok false again -> Hand i c [] s -> idle c -> wp (want_read again i) (fun _ => Inv true) (gone i) s.
Proof using ok.
  intros Ha H I. pose proof I as (I1 & I2 & I3 & I4 & I5). unfold want_read. eapply conn_step; [exact H|]. rewrite I1, I2, I3. cbn [orb].
  rewrite bool_decide_false by (by intros []). by apply (recv_drain_spec again i false c).
Qed.

(** ** Finishing a response *)
Lemma send_complete_hand i c r s : Hand i c [] s -> loaded c r -> k_wr_skip c = 0 ->
  exists c' s', Hand i c' [] s' /\ idle c' /\ forall again, send_complete again i s =
    (if k_ka c then d ← dispatch again i; match d with NeedsMore => want_read again i | _ => mret tt end else close i) s'.
Proof using ok.
  intros H (L1 & L2 & L3 & L4) Hs. assert (Hand i (set_k_sent 0%nat (set_k_resp None c)) [] (put i (set_k_sent 0%nat (set_k_resp None c)) s)) as H1 by (by apply (Hand_put _ c)).
  destruct (disarm_write_hand _ _ _ _ H1) as (s2 & E & H2 & _). eexists _, s2. split; [exact H2|]. split; [done|]. intros again.
  unfold send_complete, mbind, M_bind, conn, gets. rewrite (h_get _ _ _ _ H), (Hand_upd _ _ _ _ _ H), E. by destruct (k_ka c).
Qed.

Lemma send_complete_last again : again_ok false (send_complete again).
Proof using ok.
  intros i c r s H L _ Hs Hka. destruct (send_complete_hand i c r s H L Hs) as (c' & s' & H' & _ & E). unfold wp. rewrite E.
  destruct (k_ka c); [by specialize (Hka eq_refl)|]. by apply (close_wp i c' []).
Qed.

Lemma send_complete_spec again : again_ok false again -> again_ok true (send_complete again).
Proof using ok.
  intros Ha i c r s H L _ Hs _. destruct (send_complete_hand i c r s H L Hs) as (c' & s' & H' & I & E). unfold wp. rewrite E.
  destruct (k_ka c); [|by apply (close_wp i c' [])].
  match goal with |- match ?m s' with _ => _ end => change (wp m (fun _ => Inv true) (gone i) s') end. apply wp_bind.
  eapply wp_mono; [by apply (dispatch_spec again i c')| |done]. intros d s2 Hd. destruct d; [done| |done]. destruct Hd as [Hh _]. by apply (want_read_spec again i c').
Qed.

Lemma again_weaken again : again_ok true again -> again_ok false again.
Proof. intros H i c r s ?????. by apply (H i c r s). Qed.

Lemma finished_ok : again_ok true (on_send_complete LEVELS).
Proof using ok. apply send_complete_spec, send_complete_last. Qed.
End serve.
