(* ===== verification/KqEvent.v ===== *)
(** * Every readiness handler of a kqueue shard keeps the invariant

    One event of the batch at a time: accepting, receiving, sending, and
    delivering the serve owner's answers, with what an unwinding leaves. An
    event that names a slot for which it means nothing (a stale edge, a failed
    change, a reused slot) changes nothing that matters. *)
From S2P Require Import Prelude Bytes Lines Standing Http Gzip Ws Fleet Blocking Lanes Interp Accept Counts Kqueue KqInv KqServe.

Local Open Scope Z_scope.

Section events.
Context {host : KHost} {world : KWorld} {ok : KHostOk}.

Section slots.
Context {rest : Pending}.

(** ** Events of a slot *)
Lemma Inv_put i c c' s : Inv true s -> get i s = Some c -> k_fd c' = k_fd c -> k_peer c' = k_peer c -> conn_ok i c' s -> Inv true (put i c' s).
Proof.
  intros [G Hc] Hg Hf Hp Hk. assert (exists k, socks s !! k_fd c = Some k) as (k & Hs) by (destruct (Hc i c Hg) as [(k & Hs & _) _ _]; eauto).
  constructor.
  - eapply (glob_keeps true i c c'); [done|done|apply alike_put|done|done|eauto|exact (glob_counted true s G)].
  - intros j d Hd. destruct (decide (j = i)) as [->|Hne].
    + rewrite (put_get _ c) in Hd by done. simplify_eq. by eapply conn_ok_frame, Hk.
    + eapply (rest_alike true i c c' s); [done|done|apply alike_put| |done|exact Hd]. auto.
Qed.

(** An event that is not for this connection's filter only resets its backoff. *)
Definition backoff (c c' : Conn) : Prop :=
  k_fd c' = k_fd c /\ k_peer c' = k_peer c /\ k_acc c' = k_acc c /\ k_resp c' = k_resp c /\ k_sent c' = k_sent c /\ k_serving c' = k_serving c /\
  k_rd_armed c' = k_rd_armed c /\ k_wr_armed c' = k_wr_armed c /\ (k_rd_skip c' = 0 \/ k_rd_skip c' = k_rd_skip c) /\ (k_wr_skip c' = 0 \/ k_wr_skip c' = k_wr_skip c).

Lemma conn_ok_backoff i c c' s : backoff c c' -> conn_ok i c s -> conn_ok i c' s.
Proof.
  intros (B1 & B2 & B3 & B4 & B5 & B6 & B7 & B8 & B9 & B10) [(k & Hk & Hc & Hp) Hr Hw]. constructor; rewrite ?B1, ?B7, ?B8; try done.
  exists k. split_and!; [done|unfold content; by rewrite B3|]. destruct Hp; [eapply Serving|eapply Reading|eapply Writing]; rewrite ?B1, ?B4, ?B5, ?B6, ?B7, ?B8; try done;
    destruct B9, B10; congruence.
Qed.

Lemma read_reset c : backoff c (set_k_rd_skip 0 (set_k_rd_streak 0 c)).
Proof. unfold backoff. ksimpl. naive_solver. Qed.
Lemma write_reset c : backoff c (set_k_wr_skip 0 (set_k_wr_streak 0 c)).
Proof. unfold backoff. ksimpl. naive_solver. Qed.

(** The slot of an event after the event was taken: at rest, or waiting for
    just this event. *)
Inductive taken_at (i : nat) (w : bool) (s : Reactor) : Prop :=
  | TNone : Inv true s -> get i s = None -> taken_at i w s
  | TRest c : Inv true s -> get i s = Some c -> (if w then k_resp c = None else k_serving c = true \/ k_resp c <> None) -> taken_at i w s
  | TRead c : w = false -> Hand i c [] s -> k_serving c = false -> k_resp c = None -> k_wr_skip c = 0 -> k_wr_armed c = false -> taken_at i w s
  | TWrite c r : w = true -> Hand i c (drop (k_sent c) r) s -> loaded c r -> taken_at i w s.

Lemma on_readable_spec i s : taken_at i false s -> wp (on_readable i) (fun _ => Inv true) (gone i) s.
Proof.
  intros [H Hg|c H Hg Hc|c _ H R1 R2 R3 R4|]; [| | |done]; unfold on_readable.
  - eapply wp_step; [unfold upd; rewrite Hg; reflexivity|]. apply (wp_done _ tt s s); [|done].
    unfold recv_drain. cbn [recv_loop]. unfold mbind, M_bind, conn, gets. by rewrite Hg.
  - eapply wp_step; [unfold upd; rewrite Hg; reflexivity|]. set (c' := set_k_rd_skip 0 (set_k_rd_streak 0 c)).
    apply (wp_done _ tt _ (put i c' s)).
    + unfold recv_drain. cbn [recv_loop]. unfold mbind, M_bind, conn, gets. rewrite (put_get _ c) by done.
      assert (k_serving c' || bool_decide (is_Some (k_resp c')) = true) as ->; [|done]. apply orb_true_iff.
      destruct Hc as [Hc|Hc]; [by left|right]. apply bool_decide_eq_true. by apply not_eq_None_Some.
    + apply (Inv_put i c); [done..|]. eapply conn_ok_backoff; [apply read_reset|]. by apply H.
  - eapply wp_step; [apply (Hand_upd _ _ _ _ _ H)|]. eapply (recv_drain_spec _ i true); [apply again_weaken, finished_ok|by apply (Hand_put _ c)|done].
Qed.

Lemma on_writable_spec i s : taken_at i true s -> wp (on_writable i) (fun _ => Inv true) (gone i) s.
Proof.
  intros [H Hg|c H Hg Hc| |c r _ H L]; [| |done|]; unfold on_writable.
  - eapply wp_step; [unfold upd; rewrite Hg; reflexivity|]. apply (wp_done _ tt s s); [|done].
    unfold send_drain. cbn [send_loop]. unfold mbind, M_bind, conn, gets. by rewrite Hg.
  - eapply wp_step; [unfold upd; rewrite Hg; reflexivity|]. set (c' := set_k_wr_skip 0 (set_k_wr_streak 0 c)).
    apply (wp_done _ tt _ (put i c' s)).
    + unfold send_drain. cbn [send_loop]. unfold mbind at 1, M_bind at 1, conn, gets. rewrite (put_get _ c) by done. change (k_resp c') with (k_resp c). by rewrite Hc.
    + apply (Inv_put i c); [done..|]. eapply conn_ok_backoff; [apply write_reset|]. by apply H.
  - eapply wp_step; [apply (Hand_upd _ _ _ _ _ H)|]. pose proof L as (L1 & L2 & L3 & L4).
    eapply (send_drain_spec true _ finished_ok i true _ r); [by apply (Hand_put _ c)|done..].
Qed.

(** ** Accepting *)

(** A socket just accepted, not yet in the slab; [h] counts it. *)
Record Adm (f : Z) (h : IpAddr -> Z) (s : Reactor) : Prop := {
  a_glob : glob true [f] h s;
  a_conns i c : get i s = Some c -> conn_ok i c s /\ k_fd c <> f;
  a_fd : conn_fd f /\ f ∉ (h_fd <$> handed s);
  a_sock : exists k, socks s !! f = Some k /\ taken k = 0%nat /\ tx k = [] /\ due s !! f = Some [] /\ asked s !! f = Some []
}.

Lemma fresh_conn_fd f s : fresh f s = true ->
  conn_fd f /\ (f ∉ (h_fd <$> handed s)) /\ socks s !! f = None /\ forall w, knotes s !! (f, w) = None.
Proof.
  unfold fresh. rewrite !andb_true_iff, !negb_true_iff. intros (((((((H1 & H2) & H3) & H4) & H5) & H6) & H7) & H8).
  apply bool_decide_eq_false in H4, H5, H6, H7, H8. unfold conn_fd. zify_bool. split_and!; try done; [by apply eq_None_not_Some|].
  intros []; by apply eq_None_not_Some.
Qed.

Lemma open_conn_spec f k s : Inv true s -> fresh f s = true -> exists s', open_conn f k s = Done tt s' /\ Adm f nobody s'.
Proof.
  intros [G Hc] (Hf & Hh & Hs & Hk)%fresh_conn_fd. eexists. split; [reflexivity|].
  assert (forall i c, get i s = Some c -> k_fd c <> f) as Hne.
  { intros i c Hg E. destruct (Hc i c Hg) as [(k0 & Hk0 & _) _ _]. congruence. }
  constructor.
  - destruct G as [G1 G2 G3 G4 G5 G6 G7 G8 G9 G10 G11]. constructor; try done; ksimpl.
    + destruct G4 as [N4 G4]. split; [done|]. intros g Hg. destruct (G4 g Hg) as [? ?]. split; [done|]. rewrite lookup_insert_ne; [done|]. congruence.
    + intros g Hg. destruct (decide (g = f)) as [->|]; [left; by left|]. rewrite lookup_insert_ne in Hg by congruence.
      destruct (G5 g Hg) as [Hx|]; [by apply elem_of_nil in Hx|by right].
  - intros i c Hg. pose proof (Hne i c Hg) as Hn. split; [|done]. eapply conn_ok_frame, Hc; [|exact Hg].
    constructor; try done; ksimpl; by rewrite lookup_insert_ne by congruence.
  - by split.
  - ksimpl. rewrite !lookup_insert_eq. eauto 10.
Qed.

Lemma Adm_same f h h' s s' :
  Adm f h s -> slab s' = slab s -> socks s' = socks s -> knotes s' = knotes s -> changes s' = changes s -> due s' = due s -> asked s' = asked s ->
  jobs s' = jobs s -> mailbox s' = mailbox s -> ready s' = ready s -> dropped s' = dropped s -> batch s' = batch s -> handed s' = handed s ->
  bell s' = bell s -> ringing s' = ringing s -> counts (table s') (fun ip => held s ip + h' ip + theirs (tick s') ip) -> Adm f h' s'.
Proof.
  intros [[G1 G2 G3 G4 G5 G6 G7 G8 G9 G10 G11] Hc Hf Hs] E1 E2 E3 E4 E5 E6 E7 E8 E9 E10 E11 E12 E13 E14 Hcnt.
  assert (forall i, get i s' = get i s) as Hg by (intros i; apply get_conns; by rewrite E1).
  assert (forall i, toks i s' = toks i s) as Ht by (intros i; unfold toks; congruence).
  constructor; rewrite ?E2, ?E5, ?E6, ?E12; [constructor; unfold reg; rewrite ?E1, ?E2, ?E3, ?E4, ?E8, ?E9, ?E11, ?E12, ?E13, ?E14; try done|..|done].
  - intros i c. rewrite Hg. apply G2.
  - intros i j c d. rewrite !Hg. apply G3.
  - intros g Hx. destruct (G5 g Hx) as [|(i & c & Hi)]; [by left|right]. exists i, c. by rewrite Hg.
  - intros i. rewrite Hg, Ht. apply G6.
  - eapply counts_ext, Hcnt. intros ip. unfold held, own. by rewrite E1, E12.
  - intros i c. rewrite Hg. intros Hi. destruct (Hc i c Hi) as [Hok ?]. split; [|done]. eapply conn_ok_frame, Hok.
    constructor; [by rewrite E2|by rewrite E3|by rewrite E4|by rewrite E5|by rewrite E6|by rewrite Ht|by rewrite E11].
  - done.
Qed.

Lemma adm_look f h s : Adm f h s -> (forall ip, 0 <= h ip) -> exists s', look s = Done (amb (tick s)) s' /\ Adm f h s' /\ slab s' = slab s.
Proof.
  intros H Hh. eexists. split; [reflexivity|]. split; [|done]. eapply Adm_same; [exact H|done..|]. ksimpl.
  apply (look_counted s (fun ip => held s ip + h ip)); [intros ip; pose proof (held_sources_nonneg s ip); specialize (Hh ip); lia|]. apply (a_glob _ _ _ H).
Qed.

Lemma adm_close_fd f s : Adm f nobody s -> exists s', close_fd f s = Done tt s' /\ Inv true s'.
Proof.
  intros [G Hc [[? [Hw ?]] ?] (k & Hk & _)]. unfold close_fd, sock, mbind, M_bind, gets, modify. rewrite Hk. cbn [lift mret M_ret]. eexists. split; [reflexivity|].
  constructor.
  - destruct G as [G1 G2 G3 G4 G5 G6 G7 G8 G9 G10 G11]. constructor; try done; ksimpl.
    + destruct G4 as [N4 G4]. split; [done|]. intros g Hg. destruct (G4 g Hg) as [? Hn]. split; [done|]. by apply lookup_delete_None; right.
    + intros g Hg. destruct (decide (g = f)) as [->|Hne]; [by rewrite lookup_delete_eq in Hg; destruct Hg|]. rewrite lookup_delete_ne in Hg by congruence.
      destruct (G5 g Hg) as [->%list_elem_of_singleton|]; [done|by right].
    + unfold reg in *. ksimpl. by rewrite !lookup_delete_ne by congruence.
    + by rewrite !lookup_delete_ne by congruence.
  - intros i c Hg. destruct (Hc i c Hg) as [Hok Hne]. eapply conn_ok_frame, Hok. constructor; try done; ksimpl; intros; by rewrite ?lookup_delete_ne by congruence.
Qed.

(** A slot is free, or the slab grows: never past its bound. *)
Lemma insert_conn_slab c sl : slab_ok sl -> live sl < MAX_CONNS_PER_SHARD ->
  exists sl' i, slab_insert c sl = Some (sl', i) /\ slab_ok sl' /\ mjoin (conns sl !! i) = None /\ conns sl' !! i = Some (Some c) /\
    (forall j, j <> i -> mjoin (conns sl' !! j) = mjoin (conns sl !! j)) /\
    forall g : option Conn -> Z, g None = 0 -> tot g (conns sl') = tot g (conns sl) + g (Some c).
Proof.
  intros (N & F & L) Hl. unfold slab_insert. destruct (vec_pop (sl_free sl)) as [[fr i]|] eqn:E.
  - apply vec_pop_Some in E. assert (conns sl !! i = Some None) as Hi by (apply F; rewrite E; apply elem_of_app; right; by left).
    pose proof (lookup_lt_Some _ _ _ Hi) as Hlt. rewrite (proj2 (Nat.ltb_lt _ _) Hlt). eexists _, i. split; [done|].
    rewrite E in N, F. apply NoDup_app in N as (N1 & N2 & _). split_and!.
    + split_and!; cbn; [done| |by rewrite length_insert]. intros j. rewrite list_lookup_insert_Some. specialize (F j). rewrite elem_of_app, list_elem_of_singleton in F.
      split; [intros Hj; right; split; [|apply F; by left]; intros <-; apply (N2 i Hj); by left|].
      intros [(_ & ? & _)|[Hne Hj]]; [done|]. apply F in Hj as [|]; [done|congruence].
    + by rewrite Hi.
    + cbn. by rewrite list_lookup_insert_eq.
    + intros j Hj. cbn. by rewrite list_lookup_insert_ne.
    + intros g Hg. cbn. rewrite (tot_insert g _ _ _ _ Hi). lia.
  - apply vec_pop_None in E. eexists _, _. split; [done|]. unfold live in Hl. rewrite E in *. cbn in Hl. split_and!.
    + split_and!; cbn; [apply NoDup_nil_2| |rewrite length_app; cbn; lia]. intros j. rewrite F. rewrite lookup_app_Some.
      split; [intros Hj; by left|]. intros [|[Hj Hx]]; [done|]. by apply list_lookup_singleton_Some in Hx as [_ ?].
    + by rewrite lookup_ge_None_2.
    + cbn. by rewrite lookup_app_r, Nat.sub_diag by lia.
    + intros j Hj. cbn. destruct (decide (j < length (conns sl))%nat); [by rewrite lookup_app_l|]. rewrite !lookup_ge_None_2; [done|lia|rewrite length_app; cbn; lia].
    + intros g Hg. cbn. rewrite tot_app. cbn. lia.
Qed.

Lemma insert_conn_spec f ip now s : Adm f (at_source ip) s -> live (slab s) < MAX_CONNS_PER_SHARD ->
  exists i s', insert_conn (fresh_conn f ip now) s = Done i s' /\ Hand i (fresh_conn f ip now) [] s'.
Proof.
  intros [G Hc [Hfd Hfh] (k & Hk & K1 & K2 & K3 & K4)] Hl. set (c := fresh_conn f ip now). pose proof G as [G1 G2 G3 G4 G5 G6 G7 G8 G9 G10 G11].
  destruct (insert_conn_slab c (slab s) G1 Hl) as (sl' & i & E & Hok & Hi & Hi' & Hj & Ht). unfold insert_conn. rewrite E. eexists i, _. split; [reflexivity|].
  set (s' := set_slab sl' s). assert (get i s' = Some c) as Hg by (by apply get_slot).
  assert (forall j d, get j s' = Some d -> (j = i /\ d = c) \/ (j <> i /\ get j s = Some d)) as Hback.
  { intros j d Hd. destruct (decide (j = i)) as [->|Hne]; [left; split; congruence|right]. split; [done|]. unfold get in *. cbn in Hd. by rewrite Hj in Hd. }
  constructor; try done.
  - constructor; try done.
    + intros j d [[-> ->]|[_ Hd]]%Hback; [done|by eapply G2].
    + intros j1 j2 d1 d2 [[-> ->]|[A1 B1]]%Hback [[-> ->]|[A2 B2]]%Hback Eq; [done| | |by eapply G3].
      * by destruct (Hc j2 d2 B2) as [_ []].
      * by destruct (Hc j1 d1 B1) as [_ []].
    + intros g Hx. right. destruct (G5 g Hx) as [->%list_elem_of_singleton|(j & d & Hd & Hd')]; [by exists i, c|]. exists j, d. split; [|done].
      unfold get in *. cbn. rewrite Hj; [done|]. intros ->. congruence.
    + intros j Hd. change (toks j s = []). apply G6. destruct (decide (j = i)) as [->|]; [congruence|]. unfold get in *. cbn in Hd. by rewrite Hj in Hd.
    + eapply counts_ext, G7. intros ip'. unfold held, own, nobody. cbn [slab s' set_slab]. rewrite Ht by done. cbn [from_option]. unfold c. cbn. lia.
  - intros j d Hne Hd. apply Hback in Hd as [[? _]|[_ Hd]]; [done|]. destruct (Hc j d Hd) as [Hcok _]. by eapply conn_ok_frame, Hcok.
  - exists k. split_and!; [done|split; [|by rewrite K1; lia]|]; cbn; rewrite ?K3, ?K4, ?K1, ?K2; done.
  - change (toks i s = []). by apply G6.
Qed.

Lemma accept_one_spec f ss s : Adm f nobody s -> wp (accept_one f ss) (fun _ => Inv true) (Inv true) s.
Proof.
  intros H. unfold accept_one. eapply wp_step; [reflexivity|]. cbn beta. destruct (MAX_CONNS_PER_SHARD <=? live (slab s)) eqn:El.
  { destruct (adm_close_fd f s H) as (s' & E & Hi). by eapply wp_done. }
  zify_bool. set (ip := peer_ip_from_storage ss). destruct (adm_look f nobody s H) as (s1 & E & H1 & S1); [done|]. eapply wp_step; [exact E|]. clear E.
  eapply wp_step; [reflexivity|]. cbn beta. assert (counts (table s1) (fun j => held s1 j + nobody j + theirs (tick s1) j)) as Hc1 by apply (a_glob _ _ _ H1).
  destruct (counts_enter _ _ ip (source_cap (tick s1)) process_cap ko_cap Hc1) as (t & adm & Ee & Ht).
  eapply wp_step; [unfold on_table; rewrite Ee; reflexivity|].
  case_bool_decide as Ha.
  { destruct (adm_close_fd f (set_table t s1)) as (s' & E & Hi); [|by eapply wp_done]. eapply Adm_same; [exact H1|done..|]. ksimpl.
    eapply counts_ext, Ht. intros j. cbn. lia. }
  assert (Adm f (at_source ip) (set_table t s1)) as H2.
  { eapply Adm_same; [exact H1|done..|]. ksimpl. eapply counts_ext, Ht. intros j. unfold nobody. cbn. lia. }
  destruct (adm_look _ _ _ H2) as (s3 & E & H3 & S3); [intros; apply at_source_nonneg|]. eapply wp_step; [exact E|]. clear E.
  assert (counts (table s3) (fun j => held s3 j + at_source ip j + theirs (tick s3) j)) as Hc3 by apply (a_glob _ _ _ H3).
  set (b := amb (tick (set_table t s1))). destruct (counts_rate _ _ ip (rate_limit b) (rate_window b) (a_now (amb (tick s))) Hc3) as (t' & over & Er & Ht').
  eapply wp_step; [unfold on_table; rewrite Er; reflexivity|].
  assert (Adm f (at_source ip) (set_table t' s3)) as H4 by (by eapply Adm_same; [exact H3|..]).
  destruct (insert_conn_spec f ip (a_now (amb (tick s))) _ H4) as (i & s5 & E & H5). { cbn. rewrite S3. cbn. rewrite S1. lia. }
  eapply wp_step; [exact E|]. clear E.
  assert (forall b, wp (_ ← stage i b; want_write (on_send_complete LEVELS) i) (fun _ => Inv true) (Inv true) s5) as Hstage.
  { intros b'. destruct (stage_hand i _ b' s5 H5) as (s6 & E & H6). eapply wp_step; [exact E|].
    eapply wp_mono; [eapply (want_write_spec true _ finished_ok i _ b'); [exact H6|by split_and!; cbn; [..|lia|]|done|done]|done|]. by intros s' [? _]. }
  case_bool_decide; [apply Hstage|]. destruct over; [apply Hstage|]. eapply wp_step; [reflexivity|].
  eapply wp_mono; [eapply (want_read_spec _ i (fresh_conn f ip (a_now (amb (tick s))))); [apply again_weaken, finished_ok| |done]|done|by intros s' [? _]].
  eapply Hand_same; [exact H5|done..|]. exact (Hand_counted _ _ _ _ H5).
Qed.

Lemma accept_loop_spec l : forall n s, Inv true s -> wp (accept_loop l n) (fun _ => Inv true) (Inv true) s.
Proof.
  induction l as [|[| |f ss k] l IH]; intros n s H; cbn [accept_loop]; destruct (ACCEPT_BATCH <=? n); try done; [by apply IH|].
  eapply wp_step; [reflexivity|]. destruct (fresh f s) eqn:Hf; [|done].
  destruct (open_conn_spec f k s H Hf) as (s1 & E & H1). eapply wp_step; [exact E|]. apply wp_bind.
  eapply wp_mono; [by apply accept_one_spec| |done]. intros ? s' Hi. by apply IH.
Qed.

(** ** Edges, and what the peers do *)
Definition noted (s s' : Reactor) : Prop := forall key, knotes s' !! key = knotes s !! key \/
  exists n, knotes s !! key = Some n /\ knotes s' !! key = Some (mkKnote (kn_ud n) (kn_clear n) true).

Lemma activate_noted key s : noted s (activate key s).
Proof.
  intros key'. unfold activate. destruct (knotes s !! key) as [n|] eqn:E; [|by left]. ksimpl.
  destruct (decide (key = key')) as [<-|]; [right; exists n; by rewrite lookup_insert_eq|left; by rewrite lookup_insert_ne].
Qed.

Lemma activate_active key s n : knotes (activate key s) !! key = Some n -> kn_active n = true.
Proof. unfold activate. destruct (knotes s !! key) as [n'|] eqn:E; [|congruence]. ksimpl. rewrite lookup_insert_eq. by intros [= <-]. Qed.

Lemma reg_noted ud f w s s' : changes s' = changes s -> noted s s' -> reg ud f w s -> reg ud f w s'.
Proof.
  unfold reg. intros -> Hn. destruct (last_change _ _ _); [done|]. intros (a & E). destruct (Hn (f, w)) as [->|(n & E' & ->)]; [eauto|].
  rewrite E in E'. injection E' as <-. eauto.
Qed.

Lemma edge_noted ud f w s s' : batch s' = batch s -> noted s s' -> edge ud f w s -> edge ud f w s'.
Proof.
  unfold edge. intros -> Hn. destruct (Hn (f, w)) as [->|(n & -> & ->)]; [done|]. by left.
Qed.

(** A change of the sockets and of the edges. *)
Lemma Inv_peer m s s' :
  Inv m s -> slab s' = slab s -> changes s' = changes s -> due s' = due s -> asked s' = asked s -> jobs s' = jobs s -> mailbox s' = mailbox s ->
  ready s' = ready s -> dropped s' = dropped s -> batch s' = batch s -> handed s' = handed s -> bell s' = bell s -> ringing s' = ringing s ->
  table s' = table s -> tick s' = tick s -> noted s s' ->
  (forall f, is_Some (socks s' !! f) -> is_Some (socks s !! f)) ->
  (forall f k, socks s !! f = Some k -> exists k', socks s' !! f = Some k' /\ rx k `prefix_of` rx k' /\ taken k' = taken k /\ tx k' = tx k /\
    forall w : bool, (if w then writable k' else readable k') = true -> (if w then writable k else readable k) = true \/
      match knotes s' !! (f, w) with Some n => kn_active n = true | None => True end) ->
  Inv m s'.
Proof.
  intros [G Hc] E1 E2 E3 E4 E5 E6 E7 E8 E9 E10 E11 E12 E13 E14 Hn Hback Hs.
  assert (forall i, get i s' = get i s) as Hg by (intros i; apply get_conns; by rewrite E1).
  assert (forall i, toks i s' = toks i s) as Ht by (intros i; unfold toks; congruence).
  constructor.
  - destruct G as [G1 G2 G3 G4 G5 G6 G7 G8 G9 G10 G11]. constructor; rewrite ?E1, ?E6, ?E7, ?E10, ?E11, ?E12, ?E13, ?E14; try done.
    + intros i c. rewrite Hg. apply G2.
    + intros i j c d. rewrite !Hg. apply G3.
    + destruct G4 as [N4 G4]. split; [done|]. intros f Hf. destruct (G4 f Hf) as [? Hnone]. split; [done|].
      apply eq_None_not_Some. intros Hx%Hback. rewrite Hnone in Hx. by destruct Hx.
    + intros f Hf%Hback. destruct (G5 f Hf) as [|(i & c & Hi)]; [by left|right]. exists i, c. by rewrite Hg.
    + intros i. rewrite Hg, Ht. apply G6.
    + eapply counts_ext, G7. intros ip. unfold held, own. by rewrite E1, E10.
    + by eapply reg_noted.
    + intros Hb. specialize (G9 Hb). rewrite E9. destruct (Hn (wake_rd, false)) as [->|(n & _ & ->)]; [done|by left].
  - intros i c. rewrite Hg. intros Hi. destruct (Hc i c Hi) as [(k & Hk & [Hco Hle] & Hp) Hr Hw].
    destruct (Hs _ _ Hk) as (k' & Hk' & [more Hm] & K1 & K2 & K3). constructor; [|intros H; by eapply reg_noted; eauto..].
    exists k'. rewrite E4. split_and!; [done|unfold content; rewrite K1, Hm, take_app_le by done; split; [done|rewrite length_app; lia]|].
    destruct Hp as [? ? Htk|? ? Htk ???? He|r ? ? ? Htk ??? He]; [apply Serving|apply Reading|eapply Writing]; rewrite ?E3, ?K2, ?Ht; try done.
    + intros Hx. destruct (K3 false Hx) as [Hy|Hy]; [eapply edge_noted; eauto|]. unfold edge. destruct (knotes s' !! _); [by left|done].
    + intros Hx. destruct (K3 true Hx) as [Hy|Hy]; [eapply edge_noted; eauto|]. unfold edge. destruct (knotes s' !! _); [by left|done].
Qed.

Lemma Inv_activate m key s : Inv m s -> Inv m (activate key s).
Proof.
  intros H. eapply Inv_peer; [exact H|..]; try (unfold activate; by destruct (knotes s !! key)); [apply activate_noted|].
  intros f k Hk. exists k. split_and!; [unfold activate; by destruct (knotes s !! key)|done..|]. intros w Hw. by left.
Qed.

(** ** The serve owner *)
Lemma done_toks_app i l1 l2 : done_toks i (l1 ++ l2) = done_toks i l1 ++ done_toks i l2.
Proof. unfold done_toks. by rewrite filter_app, fmap_app. Qed.

Lemma job_toks_delete i l k j : l !! k = Some j -> job_toks i l ≡ₚ (if decide (j_slot j = i) then [j_fd j] else []) ++ job_toks i (delete k l).
Proof.
  intros E. unfold job_toks. rewrite (delete_Permutation l k j E) at 1. rewrite filter_cons. by case_decide.
Qed.

Lemma perm_move {A} (x : A) l1 l2 l3 : l1 ++ (l2 ++ [x]) ++ l3 ≡ₚ x :: l1 ++ l2 ++ l3.
Proof. rewrite <- app_assoc. cbn. rewrite (app_assoc l1 l2 (x :: l3)), <- Permutation_middle. by rewrite app_assoc. Qed.

Lemma answer_toks i k j resp s : jobs s !! k = Some j ->
  toks i (set_mailbox (mailbox s ++ [mkDone (j_slot j) (j_fd j) resp]) (set_jobs (delete k (jobs s)) s)) ≡ₚ toks i s.
Proof.
  intros E. unfold toks. ksimpl. rewrite (job_toks_delete i _ _ _ E), !done_toks_app. unfold done_toks at 2. rewrite filter_cons, filter_nil. cbn [d_conn].
  case_decide; cbn; [|by rewrite app_nil_r]. apply perm_move.
Qed.

(** Only the answers on their way have moved. *)
Lemma Inv_toks (r' : Pending) m m' s s' :
  @Inv host world rest m s -> slab s' = slab s -> socks s' = socks s -> knotes s' = knotes s -> changes s' = changes s -> due s' = due s -> asked s' = asked s ->
  batch s' = batch s -> handed s' = handed s -> table s' = table s -> tick s' = tick s -> (forall i, toks i s' ≡ₚ toks i s) -> ready s' = r' ->
  ((0 < bell s')%nat -> (0 < bell s)%nat) -> (m' = true -> mailbox s' <> [] -> (0 < ringing s' + bell s')%nat) -> @Inv host world r' m' s'.
Proof.
  intros [G Hc] E1 E2 E3 E4 E5 E6 E7 E8 E9 E10 Ht Hr Hb Hm.
  assert (forall i, get i s' = get i s) as Hg by (intros i; apply get_conns; by rewrite E1).
  constructor.
  - destruct G as [G1 G2 G3 G4 G5 G6 G7 G8 G9 G10 G11]. constructor; unfold reg; rewrite ?E1, ?E2, ?E3, ?E4, ?E7, ?E8, ?E9, ?E10; try done.
    + intros i c. rewrite Hg. apply G2.
    + intros i j c d. rewrite !Hg. apply G3.
    + intros f Hf. destruct (G5 f Hf) as [|(i & c & Hi)]; [by left|right]. exists i, c. by rewrite Hg.
    + intros i. rewrite Hg. intros Hi. specialize (Ht i). rewrite (G6 i Hi) in Ht. by apply Permutation_nil_r in Ht.
    + eapply counts_ext, G7. intros ip. unfold held, own. by rewrite E1, E8.
    + intros Hx. by apply G9, Hb.
  - intros i c. rewrite Hg. intros Hi. eapply conn_ok_frame, Hc; [|done].
    constructor; [by rewrite E2|by rewrite E3|by rewrite E4|by rewrite E5|by rewrite E6|by rewrite Ht|by rewrite E7].
Qed.

Lemma Inv_bell m b n s : Inv m s -> match knotes s !! (wake_rd, false) with Some nt => kn_active nt = true | None => True end ->
  (m = true -> mailbox s <> [] -> (0 < n + b)%nat) -> Inv m (set_bell b (set_ringing n s)).
Proof.
  intros [G Hc] Hk Hm. constructor.
  - destruct G as [G1 G2 G3 G4 G5 G6 G7 G8 G9 G10 G11]. constructor; try done. intros _. ksimpl. destruct (knotes s !! _); [by left|done].
  - intros i c Hi. by eapply conn_ok_frame, Hc.
Qed.

Lemma serve_step_inv m s a : Inv m s -> Inv m (serve_step s a).
Proof.
  intros H. pose proof (i_glob _ _ H) as [_ _ _ _ _ _ _ _ Hb Hm Hrd]. destruct a as [k resp|]; cbn [serve_step].
  - destruct (jobs s !! k) as [j|] eqn:E; [|done]. eapply (Inv_toks rest); [exact H|done..| |done|done|].
    + intros i. by apply (answer_toks i k j resp s).
    + intros _ _. cbn. lia.
  - destruct (ringing s) as [|n] eqn:E; [done|]. unfold wake. ksimpl. destruct (bell s <? PIPE_CAP)%nat eqn:Eb.
    + assert (activate (wake_rd, false) (set_bell (S (bell s)) (set_ringing n s)) = set_bell (S (bell s)) (set_ringing n (activate (wake_rd, false) s))) as ->
        by (unfold activate; cbn; by destruct (knotes s !! _)).
      apply Inv_bell; [by apply Inv_activate| |intros; lia]. destruct (knotes (activate _ s) !! _) as [nt|] eqn:En; [by eapply activate_active|done].
    + apply Nat.ltb_ge in Eb. assert (0 < PIPE_CAP)%nat by (unfold PIPE_CAP; lia).
      eapply (Inv_toks rest); [exact H|done..|]. intros _ _. cbn. lia.
Qed.

(** ** Taking an event from the batch *)
Definition pop (l : list Event) (sc : list Sys) (ar : list Arrival) (s : Reactor) : Reactor := set_arrivals ar (set_script sc (set_batch l s)).

Lemma seen_pop ud w e l : seen ud w (e :: l) -> ev_ud e <> ud \/ ev_wr e <> w -> seen ud w l.
Proof. intros (x & Hx & E1 & E2) H. exists x. apply elem_of_cons in Hx as [->|Hx]; [by destruct H|done]. Qed.

Lemma slot_fits i c s : Inv true s -> get i s = Some c -> Z.of_nat i < 2 ^ 32.
Proof.
  intros [G _] Hg%slot_lt. destruct (g_slab _ _ _ _ G) as (_ & _ & L). unfold MAX_CONNS_PER_SHARD, MAX_CONNS_CEILING in L. lia.
Qed.

Lemma slot_of_nat i : Z.of_nat i < 2 ^ 32 -> slot_of (Z.of_nat i) = i.
Proof. intros H. unfold slot_of. rewrite wrap_small; [apply Nat2Z.id|unfold fits; lia]. Qed.

Lemma glob_pop s e l sc ar : glob true [] nobody s -> batch s = e :: l -> ev_ud e <> UD_WAKE -> glob true [] nobody (pop l sc ar s).
Proof.
  intros G E Hw. destruct G as [G1 G2 G3 G4 G5 G6 G7 G8 G9 G10 G11]. constructor; try done. intros Hb. specialize (G9 Hb). rewrite E in G9. cbn.
  destruct (knotes s !! _); [|done]. destruct G9 as [|Hs]; [by left|right]. eapply seen_pop; eauto.
Qed.

Lemma conn_ok_pop j d s e l sc ar : conn_ok j d s -> batch s = e :: l -> ev_ud e <> Z.of_nat j -> conn_ok j d (pop l sc ar s).
Proof. intros H E Hne. eapply conn_ok_frame, H. constructor; try done. intros w Hs. rewrite E in Hs. eapply seen_pop; eauto. Qed.

Lemma pop_taken s e l sc ar : Inv true s -> batch s = e :: l -> ev_ud e <> UD_WAKE -> taken_at (slot_of (ev_ud e)) (ev_wr e) (pop l sc ar s).
Proof.
  intros H E Hw. pose proof (i_glob _ _ H) as G. pose proof (glob_pop s e l sc ar G E Hw) as G'. set (i := slot_of (ev_ud e)). set (s' := pop l sc ar s).
  assert (forall j d, get j s = Some d -> j <> i -> conn_ok j d s') as Hrest.
  { intros j d Hj Hne. eapply conn_ok_pop; [by apply H|done|]. intros Eu. apply Hne. unfold i. rewrite Eu. symmetry. apply slot_of_nat. by eapply slot_fits. }
  assert (forall c, get i s = Some c -> conn_ok i c s' -> Inv true s') as Hall.
  { intros c Hg Hc. constructor; [done|]. intros j d Hj. destruct (decide (j = i)) as [->|]; [|by apply Hrest]. by assert (d = c) as -> by (change (get i s = Some d) in Hj; congruence). }
  destruct (get i s) as [c|] eqn:Hg; [|apply TNone; [constructor; [done|]; intros j d Hj; apply Hrest; [done|]; change (get j s = Some d) in Hj; congruence|done]].
  pose proof (i_conns _ _ H i c Hg) as Hok. pose proof Hok as [(k & Hk & Hco & Hp) Hr Hwr].
  assert (forall w, w <> ev_wr e -> seen (Z.of_nat i) w (batch s) -> seen (Z.of_nat i) w (batch s')) as Hseen.
  { intros w Hne Hs. rewrite E in Hs. eapply seen_pop; eauto. }
  destruct Hp as [S1 S2 S3 S4 S5 S6 S7|S1 S2 S3 S4 S5 S6 S7 He|r S1 S2 S3 S4 S5 S6 S7 He].
  - eapply (TRest _ _ _ c); [apply (Hall c eq_refl)|done|destruct (ev_wr e); [done|by left]].
    constructor; [|done..]. exists k. split_and!; [done..|]. by apply Serving.
  - destruct (ev_wr e) eqn:Ew.
    + eapply (TRest _ _ _ c); [apply (Hall c eq_refl)|done|done]. constructor; [|done..]. exists k. split_and!; [done..|]. apply Reading; try done.
      intros Hx. eapply edge_frame; [..|by apply He]; [done|]. by apply Hseen.
    + eapply (TRead _ _ _ c); [done| |done..]. constructor; try done; [intros; by apply Hrest|]. exists k. split_and!; [done..|]. rewrite S4. by rewrite app_nil_r.
  - destruct (ev_wr e) eqn:Ew.
    + eapply (TWrite _ _ _ c r); [done| |split_and!; [done..|lia|done]]. constructor; try done; [intros; by apply Hrest|]. by exists k.
    + eapply (TRest _ _ _ c); [apply (Hall c eq_refl)|done|right; by rewrite S2]. constructor; [|done..]. exists k. split_and!; [done..|]. eapply Writing; try done.
      intros Hx. eapply edge_frame; [..|by apply He]; [done|]. by apply Hseen.
Qed.
End slots.

(** ** Delivering answers *)
Lemma ready_toks i d l s : ready s = d :: l -> toks i s ≡ₚ (if decide (d_conn d = i) then [d_fd d] else []) ++ toks i (set_ready l s).
Proof.
  intros E. unfold toks. ksimpl. rewrite E. rewrite !done_toks_app. replace (done_toks i (d :: l)) with ((if decide (d_conn d = i) then [d_fd d] else []) ++ done_toks i l)
    by (unfold done_toks; rewrite filter_cons; by case_decide).
  case_decide; cbn; [|done]. by rewrite <- !Permutation_middle.
Qed.

Lemma deliver_spec d (l : Pending) s : @Inv host world (d :: l) true s ->
  wp (deliver d) (fun _ => @Inv host world l true) (@Inv host world l true) (set_ready l s).
Proof.
  intros H. set (s1 := set_ready l s). set (i := d_conn d). pose proof H as [G Hc]. pose proof (g_ready _ _ _ _ G) as Er.
  assert (toks i s ≡ₚ d_fd d :: toks i s1) as Ht by (rewrite (ready_toks i d l s Er); by rewrite decide_True).
  assert (forall j, j <> i -> toks j s ≡ₚ toks j s1) as Hj by (intros j Hne; rewrite (ready_toks j d l s Er); rewrite decide_False; [done|unfold i in Hne; congruence]).
  destruct (get i s) as [c|] eqn:Hg; [|rewrite (g_dead _ _ _ _ G i Hg) in Ht; by apply Permutation_nil_cons in Ht].
  destruct (Hc i c Hg) as [(k & Hk & Hco & Hp) Hr Hw]. destruct Hp as [S1 S2 S3 S4 S5 S6 S7|? ? S3|r ? ? ? S3];
    [|rewrite S3 in Ht; by apply Permutation_nil_cons in Ht..].
  rewrite S3 in Ht. apply Permutation_singleton_l in Ht. injection Ht as Hfd Ht1.
  assert (@Hand host world l i c [] s1) as Hh.
  { constructor; try done.
    - destruct G as [G1 G2 G3 G4 G5 G6 G7 G8 G9 G10 G11]. constructor; try done. intros j Hn. destruct (decide (j = i)) as [->|Hne]; [done|].
      specialize (Hj j Hne). rewrite (G6 j Hn) in Hj. by apply Permutation_nil_l in Hj.
    - intros j e Hne He. eapply conn_ok_frame, Hc; [|exact He]. constructor; try done. by rewrite <- Hj.
    - exists k. split_and!; [done..|]. rewrite S4. by rewrite app_nil_r. }
  unfold deliver. eapply (conn_step i c); [exact Hh|]. fold i. unfold prepared. cbn zeta.
  set (resp2 := if k_h2c c then _ else _). set (c1 := set_k_sent 0%nat _). eapply wp_step; [apply (Hand_upd _ _ _ _ _ Hh)|]. eapply wp_step; [reflexivity|].
  eapply wp_mono; [eapply (want_write_spec true _ finished_ok i c1 resp2)|done|by intros s' [? _]].
  - eapply (Hand_wire i c c1 [] resp2 s1 _ k); try done; ksimpl; [intros g Hne; by rewrite lookup_insert_ne by congruence|].
    rewrite lookup_insert_eq. cbn. by rewrite <- S4.
  - split_and!; cbn; [done|done|lia|done].
  - done.
  - done.
Qed.

Lemma deliver_all_spec l : forall s, @Inv host world l true s -> wp (deliver_all l) (fun _ => @Inv host world [] true) (fun s' => @Inv host world [] true (drop_ready s')) s.
Proof.
  induction l as [|d l IH]; intros s H; cbn [deliver_all].
  - done.
  - eapply wp_step; [reflexivity|]. apply wp_bind. eapply wp_mono; [by apply deliver_spec|intros ? s' Hi; by apply IH|].
    intros s' Hi. pose proof (i_glob _ _ Hi) as [_ _ _ _ _ _ _ _ _ Hm Hr]. eapply (Inv_toks (rest := l) []); [exact Hi|done..| |done|done|exact Hm].
    intros j. unfold toks, drop_ready. ksimpl. rewrite !done_toks_app. cbn. by rewrite (Permutation_app_comm (done_toks j (ready s'))).
Qed.

Abbreviation Rest := (@Inv host world [] true).

Lemma on_wakeup_spec s e l sc ar : Rest s -> batch s = e :: l -> ev_ud e = UD_WAKE ->
  wp on_wakeup (fun _ => Rest) (fun s' => Rest (drop_ready s')) (pop l sc ar s).
Proof.
  intros H E Hw. unfold on_wakeup. eapply wp_step; [reflexivity|]. eapply wp_step; [reflexivity|]. set (s1 := set_bell 0 (pop l sc ar s)).
  assert (@Inv host world [] false s1) as H1.
  { pose proof H as [G Hc]. constructor.
    - destruct G as [G1 G2 G3 G4 G5 G6 G7 G8 G9 G10 G11]. constructor; try done. cbn. lia.
    - intros j d Hj. assert (conn_ok j d (pop l sc ar s)) as Hok; [|by eapply conn_ok_frame, Hok].
      eapply conn_ok_pop; [by apply Hc|done|]. rewrite Hw. pose proof (slot_fits j d s H Hj). unfold UD_WAKE. lia. }
  assert (@Inv host world [] false (foldl serve_step s1 (meanwhile (tick s1)))) as H2.
  { clearbody s1. generalize (meanwhile (tick s1)) as la. intros la. revert s1 H1. induction la as [|a la IH]; intros s1 H1; [done|]. cbn. by apply IH, serve_step_inv. }
  set (s2 := foldl _ s1 _) in *. clearbody s2. eapply wp_step; [reflexivity|]. eapply wp_step; [reflexivity|].
  eapply (deliver_all_spec (mailbox s2)). pose proof (g_ready _ _ _ _ (i_glob _ _ H2)) as Hr. change (ready s2 = []) in Hr.
  eapply (Inv_toks (rest := []) (mailbox s2)); [exact H2|done..| |done|done|done].
  intros j. unfold toks. ksimpl. by rewrite Hr.
Qed.

(** ** One event *)
Lemma gone_close i s : get i s = None -> close i s = Done tt s.
Proof. intros Hg. unfold close, mbind, M_bind, conn, gets. by rewrite Hg. Qed.

Lemma handle_event_spec s e l sc ar : Rest s -> batch s = e :: l -> exists s', handle_event e (pop l sc ar s) = Some s' /\ Rest s'.
Proof.
  intros H E. unfold handle_event, isolated, handle. destruct (ev_ud e =? UD_WAKE) eqn:Ew.
  { apply Z.eqb_eq in Ew. pose proof (on_wakeup_spec s e l sc ar H E Ew) as Hs. unfold wp in Hs. destruct (on_wakeup _) as [[] s'|s'|]; [| |done];
      eexists; (split; [reflexivity|done]). }
  apply Z.eqb_neq in Ew. pose proof (pop_taken (rest := []) s e l sc ar H E Ew) as Ht. set (s0 := pop l sc ar s) in *. destruct (ev_ud e =? UD_LISTENER) eqn:El.
  { apply Z.eqb_eq in El. assert (Rest s0) as H0.
    { constructor; [by eapply glob_pop; [apply H|..]|]. intros j d Hj. eapply conn_ok_pop; [by apply H|done|]. rewrite El.
      pose proof (slot_fits j d s H Hj). unfold UD_LISTENER. lia. }
    pose proof (accept_loop_spec (arrivals s0) 0 s0 H0) as Hs. unfold wp in Hs. unfold on_accept_ready. destruct (accept_loop _ _ _) as [[] s'|s'|]; [eexists; (split; [reflexivity|done])| |done].
    eexists. split; [reflexivity|]. cbn. pose proof (g_ready _ _ _ _ (i_glob _ _ Hs)) as Hr. change (ready s' = []) in Hr.
    pose proof (i_glob _ _ Hs) as [_ _ _ _ _ _ _ _ _ Hm _]. eapply (Inv_toks (rest := []) []); [exact Hs|done..| |done|done|exact Hm].
    intros j. unfold toks, drop_ready. ksimpl. by rewrite Hr, app_nil_r. }
  set (i := slot_of (ev_ud e)) in *.
  assert (wp (if ev_wr e then on_writable i else on_readable i) (fun _ => Rest) (@gone host world [] i) s0) as Hs
    by (destruct (ev_wr e); [by apply on_writable_spec|by apply on_readable_spec]).
  unfold wp in Hs. destruct ((if ev_wr e then on_writable i else on_readable i) s0) as [[] s'|s'|]; [eexists; (split; [reflexivity|done])| |done].
  destruct Hs as [Hs Hg]. cbn [mbind option_bind andb negb]. rewrite gone_close by done. eexists. split; [reflexivity|].
  pose proof (g_ready _ _ _ _ (i_glob _ _ Hs)) as Hr. change (ready s' = []) in Hr.
  pose proof (i_glob _ _ Hs) as [_ _ _ _ _ _ _ _ _ Hm _]. cbn. eapply (Inv_toks (rest := []) []); [exact Hs|done..| |done|done|exact Hm].
  intros j. unfold toks, drop_ready. ksimpl. by rewrite Hr, app_nil_r.
Qed.
End events.
