(* ===== verification/KqMain.v ===== *)
(** * The kqueue shard, over every run

    The kqueue itself and the other labels keep the invariant, and so along
    every run no handler gets stuck, no connection is stranded, and what goes
    out is what was staged. The examples are the runs that show where the
    source does not do as it says. *)
From S2P Require Import Prelude Bytes Lines Standing Http Gzip Ws Fleet Blocking Lanes Interp Accept Counts Kqueue KqInv KqServe KqEvent.

Local Open Scope Z_scope.

Section main.
Context {host : KHost} {world : KWorld} {ok : KHostOk}.

Abbreviation Rest := (@Inv host world [] true).

(** ** [kevent] *)
Definition sharp (o : option Knote) : Prop := match o with Some n => kn_active n = true | None => True end.

(** What applying changes makes of one registration: the last change decides
    what it is, and no edge is lost. *)
Lemma apply_key foreign s f w r l ns errs : condition foreign s f w = Some r ->
  let ns' := (foldl (apply foreign s) (ns, errs) l).1 in
  ((r = true -> sharp (ns !! (f, w))) -> r = true -> sharp (ns' !! (f, w))) /\
  match last_change f w l with
  | None => ns' !! (f, w) = ns !! (f, w)
  | Some k => match flag k with
              | EvDelete => ns' !! (f, w) = None
              | EvAdd => exists a, ns' !! (f, w) = Some (mkKnote (udata k) false a)
              | EvAddClear => exists a, ns' !! (f, w) = Some (mkKnote (udata k) true a)
              end
  end.
Proof.
  intros Hr. induction l as [|k l IH] using rev_ind; [done|]. rewrite foldl_snoc, last_change_snoc. cbn zeta in *.
  destruct (foldl (apply foreign s) (ns, errs) l) as [ns1 errs1]. cbn [fst] in IH. destruct IH as [IH1 IH2]. unfold apply.
  case_decide as E; [destruct E as [-> ->]; rewrite Hr|].
  - destruct (flag k); cbn [fst].
    1,2: split; [intros H0 ->; rewrite lookup_insert_eq; specialize (IH1 H0 eq_refl); by destruct (ns1 !! (f, w))|rewrite lookup_insert_eq; eauto].
    destruct (ns1 !! (f, w)) eqn:E1; cbn [fst]; [rewrite lookup_delete_eq; done|by rewrite E1].
  - assert ((ident k, wr k) <> (f, w)) as Hne by naive_solver.
    destruct (flag k); [destruct (condition foreign s (ident k) (wr k))|destruct (condition foreign s (ident k) (wr k))|destruct (ns1 !! (ident k, wr k))];
      cbn [fst]; rewrite ?lookup_insert_ne, ?lookup_delete_ne by done; by split.
Qed.

(** Retrieving clears only what it reports. *)
Lemma retrieve_key sel ns errs ns' evs : foldl (fun st key => x ← st; retrieve x key) (Some (ns, errs)) sel = Some (ns', evs) ->
  forall key, match ns !! key with
    | None => ns' !! key = None
    | Some n => exists a, ns' !! key = Some (mkKnote (kn_ud n) (kn_clear n) a) /\ (kn_active n = true -> a = true \/ mkEvent key.1 key.2 (kn_ud n) ∈ evs)
    end.
Proof.
  revert ns' evs. induction sel as [|x sel IH] using rev_ind; intros ns' evs H key.
  - cbn in H. simplify_eq. destruct (ns' !! key) as [[ud cl a]|]; cbn; eauto.
  - rewrite foldl_snoc in H. destruct (foldl _ _ sel) as [[ns1 evs1]|] eqn:E; [|done]. cbn [mbind option_bind retrieve] in H.
    specialize (IH _ _ eq_refl key). destruct (ns1 !! x) as [n1|] eqn:E1; [|done]. cbn [mbind option_bind] in H. destruct (kn_active n1) eqn:Ea; [|done]. simplify_eq.
    destruct (decide (x = key)) as [->|Hne].
    + rewrite lookup_insert_eq. destruct (ns !! key) as [n|]; [|congruence]. destruct IH as (a & Ek & Ha). rewrite E1 in Ek. simplify_eq. cbn.
      eexists. split; [done|]. intros _. right. apply elem_of_app. right. by left.
    + rewrite lookup_insert_ne by done. destruct (ns !! key) as [n|]; [|done]. destruct IH as (a & Ek & Ha). exists a. split; [done|].
      intros Hx. destruct (Ha Hx); [by left|right]. apply elem_of_app. by left.
Qed.

Section poll.
Context (foreign : Z -> option bool) (sel : list (Z * bool)) (s s' : Reactor) (Hb : batch s = []).
Context (Hs : kevent foreign sel s = Some s' \/ s' = kevent_intr foreign s).

(** What [kevent] does to the registrations and to nothing else. *)
Lemma kevent_eq : exists ns evs, s' = set_batch evs (set_changes [] (set_knotes ns s)) /\
  forall key, match (foldl (apply foreign s) (knotes s, []) (changes s)).1 !! key with
    | None => ns !! key = None
    | Some n => exists a, ns !! key = Some (mkKnote (kn_ud n) (kn_clear n) a) /\ (kn_active n = true -> a = true \/ mkEvent key.1 key.2 (kn_ud n) ∈ evs)
    end.
Proof using Hs Hb.
  destruct Hs as [Hs'| ->].
  - unfold kevent in Hs'. destruct (foldl _ _ sel) as [[ns evs]|] eqn:E; [|done]. cbn [mbind option_bind] in Hs'. destruct (_ <? _)%nat; [done|]. simplify_eq.
    exists ns, evs. split; [done|]. destruct (foldl (apply foreign s) _ _) as [ns1 errs]. exact (retrieve_key _ _ _ _ _ E).
  - eexists _, []. split; [rewrite <- Hb; by destruct s|]. intros key. destruct (_ !! key) as [[ud cl a]|]; cbn; eauto.
Qed.

(** A registration survives, and so does its edge. *)
Lemma kevent_reg ud f w r : condition foreign s f w = Some r -> reg ud f w s ->
  reg ud f w s' /\ ((r = true -> edge ud f w s) -> r = true -> edge ud f w s').
Proof using Hs Hb.
  intros Hc Hr. destruct kevent_eq as (ns & evs & -> & Hf). specialize (Hf (f, w)). destruct (foldl (apply foreign s) _ _) as [ns1 errs] eqn:E1.
  assert ((r = true -> edge ud f w s) -> r = true -> sharp (knotes s !! (f, w))) as He'.
  { intros He Hx. specialize (He Hx). unfold edge in He. destruct (knotes s !! (f, w)); [|done]. cbn. destruct He as [|(e & Hin & _)]; [done|]. rewrite Hb in Hin. by apply elem_of_nil in Hin. }
  pose proof (apply_key foreign s f w r (changes s) (knotes s) [] Hc) as [Hsh Hk]. rewrite E1 in Hsh, Hk. cbn [fst] in Hsh, Hk, Hf.
  assert (exists a, ns1 !! (f, w) = Some (mkKnote ud true a)) as (a & Ea).
  { unfold reg in Hr. destruct (last_change f w (changes s)) as [k|]; [destruct Hr as [Hfl <-]; by rewrite Hfl in Hk|]. by rewrite Hk. }
  rewrite Ea in Hf, Hsh. destruct Hf as (a' & En & Ha'). cbn in En, Ha', Hsh. split.
  - unfold reg. ksimpl. rewrite (eq_refl : last_change f w [] = None). eauto.
  - intros He Hx. unfold edge. ksimpl. rewrite En. cbn. destruct (Ha' (Hsh (He' He) Hx)) as [|Hin]; [by left|right]. by eexists.
Qed.
End poll.

Lemma kevent_inv foreign sel s s' : Rest s -> batch s = [] -> kevent foreign sel s = Some s' \/ s' = kevent_intr foreign s -> Rest s'.
Proof.
  intros H Hb Hs. pose proof H as [G Hc]. destruct (kevent_eq foreign sel s s' Hb Hs) as (ns & evs & Es & _).
  pose proof G as [G1 G2 G3 G4 G5 G6 G7 G8 G9 G10 G11].
  assert (condition foreign s wake_rd false = Some (0 <? bell s)%nat) as Hw.
  { unfold condition. destruct (socks s !! wake_rd) eqn:E; [|by rewrite Z.eqb_refl].
    destruct (G5 wake_rd) as [Hx|(i & c & Hi & Hf)]; [by rewrite E|by apply elem_of_nil in Hx|]. by destruct (G2 i c Hi) as [(_ & Hne & _) _]. }
  destruct (kevent_reg foreign sel s s' Hb Hs UD_WAKE wake_rd false _ Hw G8) as [Wr We].
  assert ((0 <? bell s)%nat = true -> edge UD_WAKE wake_rd false s) as Wb by (intros Hx; apply Nat.ltb_lt in Hx; exact (G9 Hx)).
  constructor.
  - rewrite Es in *. constructor; try done. intros Hx. apply (We Wb (proj2 (Nat.ltb_lt _ _) Hx)).
  - intros i c Hi. assert (get i s = Some c) as Hi' by (by rewrite Es in Hi). destruct (Hc i c Hi') as [(k & Hk & Hco & Hp) Hr Hwr].
    assert (forall w, condition foreign s (k_fd c) w = Some (if w then writable k else readable k)) as Hcond by (intros w; unfold condition; by rewrite Hk).
    assert (toks i s' = toks i s /\ due s' = due s /\ asked s' = asked s /\ socks s' = socks s) as (T1 & T2 & T3 & T4) by (by rewrite Es).
    constructor.
    + exists k. rewrite T3, T4. split_and!; [done..|]. destruct Hp as [S1 S2 S3 S4 S5 S6 S7|S1 S2 S3 S4 S5 S6 S7 He|r S1 S2 S3 S4 S5 S6 S7 He]; [apply Serving|apply Reading|eapply Writing]; rewrite ?T1, ?T2; try done.
      * exact (proj2 (kevent_reg foreign sel s s' Hb Hs (Z.of_nat i) (k_fd c) false _ (Hcond false) (Hr S7)) He).
      * exact (proj2 (kevent_reg foreign sel s s' Hb Hs (Z.of_nat i) (k_fd c) true _ (Hcond true) (Hwr S7)) He).
    + intros Ha. by apply (kevent_reg foreign sel s s' Hb Hs (Z.of_nat i) (k_fd c) false _ (Hcond false)), Hr.
    + intros Ha. by apply (kevent_reg foreign sel s s' Hb Hs (Z.of_nat i) (k_fd c) true _ (Hcond true)), Hwr.
Qed.

(** ** The other labels *)

(** Registrations of a descriptor that is no connection's. *)
Lemma Inv_notes_off f s s' : Rest s -> f <> wake_rd -> socks s !! f = None ->
  slab s' = slab s -> socks s' = socks s -> changes s' = changes s -> due s' = due s -> asked s' = asked s -> jobs s' = jobs s -> mailbox s' = mailbox s ->
  ready s' = ready s -> dropped s' = dropped s -> batch s' = batch s -> bell s' = bell s -> ringing s' = ringing s ->
  (forall g w, g <> f -> knotes s' !! (g, w) = knotes s !! (g, w)) ->
  (exists hs, handed s ≡ₚ hs ++ handed s' /\ counts (table s') (fun ip => held s ip - tot (fun h => at_source (h_ip h) ip) hs + theirs (tick s') ip)) -> Rest s'.
Proof.
  intros [G Hc] Hw Hf E1 E2 E3 E4 E5 E6 E7 E8 E9 E10 E11 E12 Hn (hs & Hp & Hcnt).
  assert (forall i, get i s' = get i s) as Hg by (intros i; apply get_conns; by rewrite E1).
  assert (forall i, toks i s' = toks i s) as Ht by (intros i; unfold toks; congruence).
  assert (forall x, x ∈ (h_fd <$> handed s') -> x ∈ (h_fd <$> handed s)) as Hsub by (intros x Hx; rewrite Hp, fmap_app, elem_of_app; by right).
  constructor.
  - destruct G as [G1 G2 G3 G4 G5 G6 G7 G8 G9 G10 G11].
    constructor; rewrite ?E1, ?E2, ?E7, ?E8, ?E10, ?E11, ?E12; try done.
    + intros i c. rewrite Hg. intros Hi. destruct (G2 i c Hi) as [? Hh]. split; [done|]. intros Hx. by apply Hh, Hsub.
    + intros i j c d. rewrite !Hg. apply G3.
    + destruct G4 as [N4 G4]. split; [rewrite Hp, fmap_app in N4; by apply NoDup_app in N4 as (_ & _ & ?)|]. intros x Hx. by apply G4, Hsub.
    + intros x Hx. destruct (G5 x Hx) as [|(i & c & Hi)]; [by left|right]. exists i, c. by rewrite Hg.
    + intros i. rewrite Hg, Ht. apply G6.
    + eapply counts_ext, Hcnt. intros ip. unfold held, own, nobody. rewrite E1. rewrite (tot_perm _ _ _ Hp), tot_app. lia.
    + eapply reg_frame, G8; [by rewrite E3|by apply Hn].
    + rewrite Hn by done. done.
  - intros i c. rewrite Hg. intros Hi. pose proof (Hc i c Hi) as Hok. pose proof Hok as [(k & Hk & _) _ _]. eapply conn_ok_frame, Hok.
    constructor; [by rewrite E2| |by rewrite E3|by rewrite E4|by rewrite E5|by rewrite Ht|by rewrite E10]. intros w. apply Hn. congruence.
Qed.

Lemma look_rest s : Rest s -> Rest (set_tick (S (tick s)) (set_table (others (tick s) (table s)) s)).
Proof.
  intros [G Hc]. constructor.
  - pose proof (look_counted s (held s) ltac:(intros; apply held_sources_nonneg) (glob_counted true s G)) as Hl.
    destruct G as [G1 G2 G3 G4 G5 G6 G7 G8 G9 G10 G11]. constructor; try done. eapply counts_ext, Hl. intros ip. unfold nobody. cbn. unfold held, own. cbn. lia.
  - intros i c Hi. by eapply conn_ok_frame, Hc.
Qed.

Lemma table_rest t s : Rest s -> (forall h, counts (table s) h -> counts t h) -> Rest (set_table t s).
Proof.
  intros [G Hc] Ht. constructor; [|intros i c Hi; by eapply conn_ok_frame, Hc].
  destruct G as [G1 G2 G3 G4 G5 G6 G7 G8 G9 G10 G11]. constructor; try done. by apply Ht.
Qed.

(** The peer of one socket. *)
Lemma peer_rest f k k' s (wa : list bool) : Rest s -> socks s !! f = Some k -> rx k `prefix_of` rx k' -> taken k' = taken k -> tx k' = tx k ->
  (forall w : bool, (if w then writable k' else readable k') = true -> (if w then writable k else readable k) = true \/ w ∈ wa) ->
  Rest (foldl (fun x w => activate (f, w) x) (set_socks (<[f := k']> (socks s)) s) wa).
Proof.
  intros H Hk Hx Ht Htx Hw. set (s0 := set_socks _ s).
  assert (forall wa, let s' := foldl (fun x w => activate (f, w) x) s0 wa in
    set_knotes (knotes s) s' = s0 /\ noted s s' /\ forall w, w ∈ wa -> sharp (knotes s' !! (f, w))) as Hall.
  { clear. intros wa. induction wa as [|w wa IH] using rev_ind; cbn zeta in *; [split_and!; [by destruct s|intros key; by left|intros w Hw; by apply elem_of_nil in Hw]|].
    rewrite foldl_snoc. set (s1 := foldl _ s0 wa) in *. destruct IH as (I1 & I2 & I3). split_and!.
    - unfold activate. by destruct (knotes s1 !! _).
    - intros key. destruct (activate_noted (f, w) s1 key) as [->|(n & En & ->)]; [apply I2|]. right.
      destruct (I2 key) as [E|(n' & E & E')]; [exists n; by rewrite <- E|]. exists n'. split; [done|]. rewrite En in E'. by simplify_eq.
    - intros w' Hw'. destruct (decide (w' = w)) as [->|Hne].
      + destruct (knotes (activate (f, w) s1) !! (f, w)) as [n|] eqn:En; [by eapply activate_active|done].
      + apply elem_of_app in Hw' as [Hw'|Hw']; [|by apply list_elem_of_singleton in Hw']. specialize (I3 w' Hw').
        destruct (activate_noted (f, w) s1 (f, w')) as [->|(n & _ & ->)]; done. }
  destruct (Hall wa) as (E & Hn & Hsharp). set (s' := foldl _ s0 wa) in *.
  assert (s' = set_knotes (knotes s') s0) as Es by (rewrite <- E; by destruct s').
  assert (forall g, socks s' !! g = <[f := k']> (socks s) !! g) as Eso by (intros g; by rewrite Es).
  eapply (Inv_peer true s s' H); try (rewrite Es; done); try done.
  - intros g [x Hg]. rewrite Eso in Hg. destruct (decide (g = f)) as [->|]; [by rewrite Hk|]. rewrite lookup_insert_ne in Hg by congruence. by exists x.
  - intros g kg Hg. rewrite Eso. destruct (decide (g = f)) as [->|Hne].
    + assert (kg = k) as -> by congruence. exists k'. rewrite lookup_insert_eq. split_and!; [done..|]. intros w Hcw. destruct (Hw w Hcw) as [|Hin]; [by left|right]. exact (Hsharp w Hin).
    + exists kg. rewrite lookup_insert_ne by congruence. split_and!; [done..|]. intros w Hcw. by left.
Qed.

Lemma kstep_inv l s s' : Rest s -> kstep l s = Some s' -> Rest s'.
Proof.
  intros H Hs. destruct l as [foreign sel|foreign|sc ar|a| |f b|f rst|f n|key|k|f|]; cbn [kstep] in Hs.
  - destruct (batch s) eqn:E; [|done]. eapply (kevent_inv foreign sel s); auto.
  - destruct (batch s) eqn:E; [|done]. simplify_eq. eapply (kevent_inv foreign [] s); auto.
  - destruct (batch s) as [|e l] eqn:E; [done|]. destruct (handle_event_spec s e l sc ar H E) as (x & Ex & Hx). unfold pop in Ex. congruence.
  - simplify_eq. by apply (serve_step_inv (rest := [])).
  - simplify_eq. destruct H as [G Hc]. constructor; [by destruct G|]. intros i c Hi. by eapply conn_ok_frame, Hc.
  - destruct (socks s !! f) as [k|] eqn:E; [|done]. cbn [mbind option_bind] in Hs. destruct (fin k || reset k || bool_decide (b = [])) eqn:Eb; [done|]. simplify_eq.
    rewrite !orb_false_iff in Eb. destruct Eb as [[Ef Er] _].
    apply (peer_rest f k (mkSock (rx k ++ b) (taken k) false false (room k) (tx k)) s [false] H E); [by apply prefix_app_r|done..|].
    intros [] Hw; cbn in Hw; [left; unfold writable in *; by rewrite Er|right; by left].
  - destruct (socks s !! f) as [k|] eqn:E; [|done]. cbn [mbind option_bind] in Hs. simplify_eq. destruct rst.
    + apply (peer_rest f k (mkSock (rx k) (taken k) true (reset k || true) (room k) (tx k)) s [false; true] H E); [done..|]. intros []; set_solver.
    + apply (peer_rest f k (mkSock (rx k) (taken k) true (reset k || false) (room k) (tx k)) s [false] H E); [done..|].
      intros [] Hw; [left; unfold writable in *; cbn in *; by rewrite orb_false_r in Hw|right; by left].
  - destruct (socks s !! f) as [k|] eqn:E; [|done]. cbn [mbind option_bind] in Hs. simplify_eq.
    apply (peer_rest f k (mkSock (rx k) (taken k) (fin k) (reset k) (room k + n) (tx k)) s [true] H E); [done..|].
    intros [] Hw; [right; by left|by left].
  - simplify_eq. by apply (Inv_activate (rest := [])).
  - destruct (handed s !! k) as [h|] eqn:E; [|done]. cbn [mbind option_bind] in Hs. pose proof (i_glob _ _ H) as G.
    pose proof (delete_Permutation _ _ _ E) as Hp.
    assert (h_fd h ∈ (h_fd <$> handed s)) as Hin by (rewrite Hp; by left). destruct (proj2 (g_handed _ _ _ _ G) _ Hin) as [(_ & Hw & _) Hnone].
    destruct (uncount_ok (h_ip h) s (held s)) as (t' & Eu & Ht).
    { intros; apply held_sources_nonneg. }
    { unfold held. rewrite (tot_perm _ _ _ Hp). cbn [tot]. rewrite at_source_self. unfold own.
      assert (0 <= tot (from_option (fun c => at_source (k_peer c) (h_ip h)) 0) (conns (slab s))) by (apply tot_nonneg; intros [c|]; cbn; [apply at_source_nonneg|done]).
      assert (0 <= tot (fun x => at_source (h_ip x) (h_ip h)) (delete k (handed s))) by (apply tot_nonneg; intros; apply at_source_nonneg). lia. }
    { exact (glob_counted true s G). }
    rewrite Eu in Hs. simplify_eq. eapply (Inv_notes_off (h_fd h) s); ksimpl; try done.
    + intros g w Hne. by rewrite !lookup_delete_ne by congruence.
    + exists [h]. split; [done|]. eapply counts_ext, Ht. intros ip. cbn. lia.
  - destruct (_ || _) eqn:Eb; [done|]. simplify_eq. rewrite !orb_false_iff in Eb. destruct Eb as [[B1 B2] B3]. apply bool_decide_eq_false in B1. zify_bool.
    eapply (Inv_notes_off f s); ksimpl; try done; [by apply eq_None_not_Some|intros g w Hne; by rewrite !lookup_delete_ne by congruence|].
    exists []. split; [done|]. eapply counts_ext, (glob_counted true s (i_glob _ _ H)). intros ip. cbn. lia.
  - unfold look in Hs. cbn in Hs. pose proof (look_rest s H) as Hl. destruct (rate_limit _ =? 0); simplify_eq; [done|].
    apply (table_rest _ _ Hl). intros h. apply prune_counts.
Qed.

Lemma shard_inv t : counts t (theirs 0) -> Rest (shard t).
Proof.
  intros Ht. constructor.
  - constructor; try done.
    + split_and!; cbn; [apply NoDup_nil_2|intros i; split; [intros Hx; by apply elem_of_nil in Hx|done]|done].
    + split; [apply NoDup_nil_2|]. intros f Hf. by apply elem_of_nil in Hf.
    + intros f [k Hk]. cbn in Hk. by rewrite lookup_empty in Hk.
    + unfold reg. cbn [changes shard]. rewrite last_change_snoc. cbn [ident wr]. by rewrite decide_True.
  - intros i c Hi. unfold get in Hi. cbn in Hi. done.
Qed.

(** ** Without failing spawns nothing unwinds *)
Section calm.
Context (Hsp : forall n, spawn_ok n = true).

(** No unwinding, and no answer is dropped. *)
Definition calm {A} (m : M A) : Prop :=
  forall s, match m s with Done _ s' => dropped s' = dropped s | Unwind _ => False | Stuck => True end.

Lemma calm_bind {A B} (m : M A) (k : A -> M B) : calm m -> (forall a, calm (k a)) -> calm (mbind k m).
Proof using. intros Hm Hk s. specialize (Hm s). unfold mbind, M_bind. destruct (m s) as [a s1| |]; [|done..]. specialize (Hk a s1). destruct (k a s1); congruence. Qed.

Lemma calm_ret {A} (a : A) : calm (mret a).
Proof using. done. Qed.

Lemma calm_gets {A} (f : Reactor -> A) : calm (gets f).
Proof using. done. Qed.

Lemma calm_modify (f : Reactor -> Reactor) : (forall s, dropped (f s) = dropped s) -> calm (modify f).
Proof using. intros H s. apply H. Qed.

Lemma calm_upd i f : calm (upd i f).
Proof using. intros s. cbn. by destruct (get i s). Qed.

Lemma calm_expect i f : calm (expect i f).
Proof using. intros s. unfold expect. by destruct (get i s). Qed.

Lemma calm_table {A} (f : SharedStanding -> option (SharedStanding * A)) : calm (on_table f).
Proof using. intros s. unfold on_table. by destruct (f (table s)) as [[]|]. Qed.

Lemma calm_sys : calm sys.
Proof using. intros s. unfold sys. by destruct (script s). Qed.

Lemma calm_sock f : calm (sock f).
Proof using. intros s. unfold sock, mbind, M_bind, gets. by destruct (socks s !! f). Qed.

Lemma calm_submit j : calm (submit j).
Proof using. intros s. cbn. by destruct (gw_up s). Qed.

Lemma calm_insert c : calm (insert_conn c).
Proof using. intros s. unfold insert_conn. by destruct (slab_insert c (slab s)) as [[]|]. Qed.

Create HintDb calm.
Hint Resolve calm_ret calm_gets calm_upd calm_expect calm_table calm_sys calm_sock calm_submit calm_insert : calm.

Lemma calm_spawn {A} (k : bool -> M A) : calm (k true) -> calm (mbind k (gets (fun s => spawn_ok (tick s)))).
Proof using Hsp. intros H s. unfold mbind, M_bind, gets. rewrite Hsp. apply H. Qed.

Ltac calm := repeat first
  [ progress intros
  | done
  | solve [eauto with calm nocore]
  | apply calm_spawn
  | apply calm_bind
  | apply calm_modify
  | match goal with
    | |- calm (match ?x with _ => _ end) => destruct x
    | |- calm (if ?x then _ else _) => destruct x
    end ].

Lemma calm_close i : calm (close i).
Proof using. unfold close, uncount, remove, close_fd. calm. Qed.

Lemma calm_handoff i l : calm (handoff i l).
Proof using Hsp. unfold handoff, uncount, remove, close_fd, push. calm. Qed.

Lemma calm_arm_read i : calm (arm_read i).
Proof using. unfold arm_read, push. calm. Qed.

Lemma calm_arm_write i : calm (arm_write i).
Proof using. unfold arm_write, push. calm. Qed.

Lemma calm_disarm_write i : calm (disarm_write i).
Proof using. unfold disarm_write, push. calm. Qed.

Lemma calm_stage i b : calm (stage i b).
Proof using. unfold stage, owe. calm. Qed.

Lemma calm_recv f : calm (recv f).
Proof using. unfold recv, recv_now, set_sock. calm. Qed.

Lemma calm_send f b : calm (send f b).
Proof using. unfold send, send_now, set_sock. calm. Qed.

Hint Resolve calm_close calm_handoff calm_arm_read calm_arm_write calm_disarm_write calm_stage calm_recv calm_send : calm.

Lemma calm_submit_metered i req : calm (submit_metered i req).
Proof using. unfold submit_metered. calm. Qed.

Section again.
Context (again : nat -> M unit) (Ha : forall i, calm (again i)).
Hint Resolve calm_submit_metered Ha : calm.

Lemma calm_send_loop fuel : forall i ev, calm (send_loop again fuel i ev).
Proof using Ha. induction fuel as [|fuel IH]; cbn [send_loop]; calm. Qed.

Lemma calm_send_drain i ev : calm (send_drain again i ev).
Proof using Ha. intros s. apply calm_send_loop. Qed.
Hint Resolve calm_send_drain : calm.

Lemma calm_want_write i : calm (want_write again i).
Proof using Ha. unfold want_write. calm. Qed.
Hint Resolve calm_want_write : calm.

Lemma calm_dispatch i : calm (dispatch again i).
Proof using Ha Hsp. unfold dispatch, dispatch_gated, dispatch_framed, refuse, h2c_handoff, ws_handoff, proxy_handoff. calm. Qed.
Hint Resolve calm_dispatch : calm.

Lemma calm_recv_loop fuel : forall i ev, calm (recv_loop again fuel i ev).
Proof using Ha Hsp. induction fuel as [|fuel IH]; cbn [recv_loop]; calm. Qed.

Lemma calm_recv_drain i ev : calm (recv_drain again i ev).
Proof using Ha Hsp. intros s. apply calm_recv_loop. Qed.
Hint Resolve calm_recv_drain : calm.

Lemma calm_want_read i : calm (want_read again i).
Proof using Ha Hsp. unfold want_read. calm. Qed.
Hint Resolve calm_want_read : calm.

Lemma calm_send_complete i : calm (send_complete again i).
Proof using Ha Hsp. unfold send_complete. calm. Qed.
End again.

Lemma calm_finished i : calm (on_send_complete LEVELS i).
Proof using Hsp. unfold LEVELS. cbn [on_send_complete]. apply calm_send_complete. intros j. apply calm_send_complete. by intros k s. Qed.
Hint Resolve calm_finished calm_send_drain calm_recv_drain calm_want_write calm_want_read : calm.

Lemma calm_accept_loop l : forall n, calm (accept_loop l n).
Proof using Hsp. induction l as [|a l IH]; intros n; cbn [accept_loop]; unfold open_conn, accept_one, close_fd; calm. Qed.

Lemma calm_deliver_all l : calm (deliver_all l).
Proof using Hsp. induction l as [|d l IH]; cbn [deliver_all]; unfold deliver, owe; calm. Qed.

Lemma serve_dropped a s : dropped (serve_step s a) = dropped s.
Proof using. destruct a as [k r|]; cbn; [by destruct (jobs s !! k)|]. destruct (ringing s); [done|]. unfold wake, activate. cbn. repeat case_match; done. Qed.

Lemma serve_all_dropped l : forall s, dropped (foldl serve_step s l) = dropped s.
Proof using. induction l as [|a l IH]; intros s; cbn; [done|]. by rewrite IH, serve_dropped. Qed.

Lemma calm_handle e : calm (handle e).
Proof using Hsp.
  unfold handle, on_wakeup, on_writable, on_readable. pose proof calm_deliver_all. calm; [cbn; apply serve_all_dropped|].
  intros s. apply calm_accept_loop.
Qed.

Lemma calm_step l s s' : dropped s = [] -> kstep l s = Some s' -> dropped s' = [].
Proof using Hsp.
  intros H Hs. assert (forall key x, dropped (activate key x) = dropped x) as Ha by (intros; unfold activate; by destruct (knotes x !! key)).
  destruct l as [foreign sel|foreign|sc ar|a| |f b|f rst|f n|key|k|f|]; cbn [kstep] in Hs.
  - destruct (batch s); [|done]. unfold kevent in Hs. destruct (foldl _ _ sel) as [[ns evs]|]; [|done]. cbn in Hs. case_match; by simplify_eq.
  - destruct (batch s); [|done]. by simplify_eq.
  - destruct (batch s) as [|e l]; [done|]. unfold handle_event, isolated in Hs.
    pose proof (calm_handle e (set_arrivals ar (set_script sc (set_batch l s)))) as Hc. destruct (handle e _); [|done..]. cbn in Hs, Hc. simplify_eq. congruence.
  - simplify_eq. by rewrite serve_dropped.
  - by simplify_eq.
  - destruct (socks s !! f); [|done]. cbn in Hs. destruct (_ || _); simplify_eq. by rewrite Ha.
  - destruct (socks s !! f); [|done]. cbn in Hs. destruct rst; simplify_eq; cbn; by rewrite ?Ha.
  - destruct (socks s !! f); [|done]. cbn in Hs. simplify_eq. by rewrite Ha.
  - simplify_eq. by rewrite Ha.
  - destruct (handed s !! k); [|done]. cbn in Hs. assert (calm (uncount (h_ip h))) as Hu by (unfold uncount; calm). specialize (Hu s). destruct (uncount _ s); [|done..]. simplify_eq. cbn. congruence.
  - destruct (_ || _); by simplify_eq.
  - unfold look in Hs. cbn in Hs. destruct (_ =? 0); by simplify_eq.
Qed.
End calm.

(** ** Every run *)
Abbreviation reachable t := (reach kstep (shard t)).

Lemma reachable_rest t s : counts t (theirs 0) -> reachable t s -> Rest s.
Proof. intros Ht. apply reach_invariant; [by apply shard_inv|intros l x y; apply kstep_inv]. Qed.

Lemma reachable_kept t s : (forall n, spawn_ok n = true) -> reachable t s -> dropped s = [].
Proof. intros Hsp. apply (reach_invariant _ (fun s => dropped s = [])); [done|intros l x y; by apply calm_step]. Qed.

Lemma apply_errs foreign s l st : (length (foldl (apply foreign s) st l).2 <= length st.2 + length l)%nat.
Proof.
  revert st. induction l as [|k l IH]; intros [ns errs]; cbn [foldl length]; [lia|]. etransitivity; [apply IH|].
  unfold apply. destruct (flag k); [destruct (condition _ _ _ _)|destruct (condition _ _ _ _)|destruct (ns !! _)]; cbn; rewrite ?length_app; cbn; lia.
Qed.

(** A registration whose edge is still to be seen can be reported by the next
    [kevent], whatever changes are queued. *)
Lemma reported ud f w s foreign : reg ud f w s -> condition foreign s f w = Some true -> edge ud f w s -> batch s = [] -> (length (changes s) < EVENT_CAP)%nat ->
  exists s', kstep (LPoll foreign [(f, w)]) s = Some s' /\ mkEvent f w ud ∈ batch s'.
Proof.
  intros Hr Hc He Hb Hlen. cbn [kstep]. rewrite Hb. unfold kevent. cbn [foldl mbind option_bind].
  pose proof (apply_errs foreign s (changes s) (knotes s, [])) as Herr. pose proof (apply_key foreign s f w true (changes s) (knotes s) [] Hc) as [Hsh Hk].
  destruct (foldl (apply foreign s) _ _) as [ns errs]. cbn [fst snd length] in *.
  assert (exists a, ns !! (f, w) = Some (mkKnote ud true a)) as (a & Ea).
  { unfold reg in Hr. destruct (last_change f w (changes s)) as [k|]; [destruct Hr as [Hfl <-]; by rewrite Hfl in Hk|]. by rewrite Hk. }
  assert (sharp (knotes s !! (f, w))) as Hs0.
  { unfold edge in He. destruct (knotes s !! (f, w)); [|done]. cbn. destruct He as [|(e & Hin & _)]; [done|]. rewrite Hb in Hin. by apply elem_of_nil in Hin. }
  rewrite Ea in Hsh. specialize (Hsh ltac:(done) eq_refl). cbn in Hsh. subst a.
  unfold retrieve. rewrite Ea. cbn [mbind option_bind kn_active kn_ud kn_clear negb]. rewrite length_app. cbn [length].
  rewrite (proj2 (Nat.ltb_ge _ _)) by lia. eexists. split; [reflexivity|]. cbn. apply elem_of_app. right. by left.
Qed.

(** What a connection that is not with the serve owner waits for. *)
Definition awaits (c : Conn) : bool := bool_decide (is_Some (k_resp c)).
Definition awaited (c : Conn) (k : Sock) : bool := if awaits c then writable k else readable k.

Lemma waiting_reported i c k s foreign : Rest s -> get i s = Some c -> socks s !! k_fd c = Some k -> k_serving c = false -> awaited c k = true -> batch s = [] ->
  (length (changes s) < EVENT_CAP)%nat -> exists s', kstep (LPoll foreign [(k_fd c, awaits c)]) s = Some s' /\ mkEvent (k_fd c) (awaits c) (Z.of_nat i) ∈ batch s'.
Proof.
  intros H Hi Hk Hsv Ha. destruct (i_conns _ _ H i c Hi) as [(k' & Hk' & _ & Hp) Hr Hw]. assert (k' = k) as -> by congruence.
  unfold awaited, awaits in *. destruct Hp as [S1|S1 S2 S3 S4 S5 S6 S7 He|r S1 S2 S3 S4 S5 S6 S7 He]; [congruence|rewrite S2 in *; cbn in *..]; apply reported; auto;
    unfold condition; rewrite Hk; by f_equal.
Qed.

(** C4. Along every run of a kqueue shard, whatever the kernel, the peers, the
    serve owner and the other threads do: (1) every event that was retrieved can
    be handled, so no handler panics short of a failed spawn, spins, or touches
    a descriptor the shard does not own; (2) each live connection owns an open
    socket, has cut its requests in order from what its peer sent, and has sent
    a prefix of what was staged for it; while it is with the serve owner exactly
    one answer is on its way to its slot, for its own socket, and otherwise none
    is; and if it waits for its socket and the socket is ready, the next
    [kevent] can report that to its slot, although slots and descriptors are
    reused while older changes are still queued; (3) the sockets the shard owns
    are those of its connections; (4) the standing table counts the shard's
    connections, those it handed over and those of the other threads exactly;
    (5) an answer in the mailbox has its wake-up on the way, which [kevent] can
    report; (6) as long as threads can be created no answer is dropped. *)
Theorem kq_never_stranded (t : SharedStanding) (s : Reactor) : counts t (theirs 0) -> reach kstep (shard t) s ->
  (forall sc ar, batch s <> [] -> is_Some (kstep (LHandle sc ar) s)) /\
  (forall i c, get i s = Some c -> exists k, socks s !! k_fd c = Some k /\
    concat (default [] (asked s !! k_fd c)) ++ k_acc c = take (taken k) (rx k) /\
    tx k `prefix_of` default [] (due s !! k_fd c) /\
    toks i s = (if k_serving c then [k_fd c] else []) /\
    (k_serving c = false -> awaited c k = true -> batch s = [] -> (length (changes s) < EVENT_CAP)%nat ->
      forall foreign, exists s', kstep (LPoll foreign [(k_fd c, awaits c)]) s = Some s' /\ mkEvent (k_fd c) (awaits c) (Z.of_nat i) ∈ batch s')) /\
  (forall f, is_Some (socks s !! f) <-> exists i c, get i s = Some c /\ k_fd c = f) /\
  counts (table s) (fun ip => held s ip + theirs (tick s) ip) /\
  (mailbox s <> [] -> (0 < ringing s + bell s)%nat) /\
  ((0 < bell s)%nat -> batch s = [] -> (length (changes s) < EVENT_CAP)%nat ->
    forall foreign, exists s', kstep (LPoll foreign [(wake_rd, false)]) s = Some s' /\ mkEvent wake_rd false UD_WAKE ∈ batch s') /\
  ((forall n, spawn_ok n = true) -> dropped s = []).
Proof.
  intros Ht Hr. pose proof (reachable_rest t s Ht Hr) as H. pose proof H as [G Hc]. split_and!.
  - intros sc ar Hb. destruct (batch s) as [|e l] eqn:E; [done|]. destruct (handle_event_spec s e l sc ar H E) as (x & Ex & _).
    exists x. cbn [kstep]. by rewrite E.
  - intros i c Hi. destruct (Hc i c Hi) as [(k & Hk & [Hco _] & Hp) _ _]. exists k. split_and!; [done|done| | |intros; by eapply waiting_reported].
    + destruct Hp as [_ _ _ <-|_ _ _ <-|r _ _ _ _ <-]; [done|done|by apply prefix_app_r].
    + destruct Hp as [E _ ?|E _ ?|r E _ _ ?]; by rewrite E.
  - intros f. split; [intros Hf; by destruct (g_socks _ _ _ _ G f Hf) as [[]%elem_of_nil|]|]. intros (i & c & Hi & <-). by destruct (Hc i c Hi) as [(k & -> & _) _ _].
  - exact (glob_counted true s G).
  - by apply (g_mail _ _ _ _ G).
  - intros Hbell Hb Hlen foreign. apply reported; [apply G| |by apply (g_bell _ _ _ _ G)|done|done].
    unfold condition. destruct (socks s !! wake_rd) eqn:E; [|by rewrite Z.eqb_refl, (proj2 (Nat.ltb_lt _ _) Hbell)].
    destruct (g_socks _ _ _ _ G wake_rd) as [[]%elem_of_nil|(i & c & Hi & Hf)]; [by rewrite E|]. by destruct (g_fd _ _ _ _ G i c Hi) as [(_ & Hne & _) _].
  - intros Hsp. by apply (reachable_kept t).
Qed.
End main.

(** ** A concrete shard *)
Module DemoKq.

(** Descriptor 3 is the self-pipe, 4 the listener; the other threads count
    nothing, threads are created as [spawns] says, and a request head may take
    [slow] milliseconds, one of which passes at every look. *)
Definition machine_with (spawns : bool) (slow : Z) : KHost :=
  mkKHost (fun n => mkAmbient (Z.of_nat n) slow 0 8 0 0 None []) (fun _ t => t) (fun _ => 0) 1000 Demo.framer false None (fun _ => None) false
    false (fun _ => 0) (fun _ => None) (fun _ => None) (fun _ => spawns) (fun _ => []) 2 30 3 [4].

Definition machine (spawns : bool) : KHost := machine_with spawns 0.

#[export] Instance alone : KWorld := {| theirs := fun _ _ => 0 |}.

#[export] Instance machine_ok b : @KHostOk (machine b) alone.
Proof. split; [done|by intros n t h _|by cbn|]. cbn. split; [lia|]. by rewrite list_elem_of_singleton. Qed.

Lemma idle_counts : counts (SharedStanding_new 7) (@theirs alone 0).
Proof. split_and!; [done|done|]. exists ∅. split; [|by intros ip]. eapply (rep_tight 0); [apply st_new_rep|]. by unfold TABLE_MAX. Qed.

Definition from_peer (n : Z) : Storage := mkStorage 2 [10; 0; 0; n].
Definition ok_page : bytes := bs "HTTP/1.1 200 OK" ++ CRLF ++ bs "Content-Length: 2" ++ CRLFCRLF ++ bs "hi".
Definition sent_page : bytes := annotate_connection ok_page true.
Definition open_now (_ : Z) : option bool := Some true.

Definition krun (spawns : bool) (ls : list Label) : option Reactor := run (@kstep (machine spawns)) ls (@shard (machine spawns) (SharedStanding_new 7)).

(** A request that came with the connection is answered; ten bytes of the
    response fit, and the rest goes out when the peer has made room. *)
Definition answered_in_two : list Label :=
  [LPoll open_now [(4, false)]; LHandle [] [AIntr; AConn 7 (from_peer 1) (mkSock (Demo.page "a" "") 0 false false 10 [])];
   LServe (Answer 0 ok_page); LServe Ring; LPoll open_now [(3, false)]; LHandle [] [];
   LRoom 7 4096; LPoll open_now [(7, true)]; LHandle [SIntr] []; LData 7 (bs "GET")].

Definition wire (f : Z) (s : Reactor) : bytes := from_option tx [] (socks s !! f).
End DemoKq.
Import DemoKq.

Lemma kq_never_stranded_witness :
  exists s s', krun true answered_in_two = Some s /\ wire 7 s = sent_page /\
    @kstep (machine true) (LPoll open_now [(7, false)]) s = Some s' /\ mkEvent 7 false 0 ∈ batch s'.
Proof.
  destruct (krun true answered_in_two) as [s|] eqn:E; [|vm_compute in E; discriminate E].
  assert (exists c k, get 0 s = Some c /\ socks s !! 7 = Some k /\ k_fd c = 7 /\ k_serving c = false /\ awaits c = false /\ awaited c k = true /\ batch s = [] /\
    (length (changes s) <? EVENT_CAP)%nat = true /\ tx k = sent_page) as (c & k & Hg & Hk & Hf & Hs & Haw & Ha & Hb & Hl & Ht).
  { vm_compute in E. injection E as <-. eexists _, _. repeat (split; [vm_compute; reflexivity|]). vm_compute. reflexivity. }
  assert (reach (@kstep (machine true)) (@shard (machine true) (SharedStanding_new 7)) s) as Hr by exact (run_reach _ _ _ _ E).
  destruct (@kq_never_stranded (machine true) alone (machine_ok true) (SharedStanding_new 7) s idle_counts Hr) as (_ & Hc & _).
  destruct (Hc 0%nat c Hg) as (k' & Hk' & _ & _ & _ & Hp). rewrite Hf, Hk in Hk'. injection Hk' as <-.
  destruct (Hp Hs Ha Hb (proj1 (Nat.ltb_lt _ _) Hl) open_now) as (s' & Hst & Hin). rewrite Hf, Haw in Hst, Hin.
  exists s, s'. split; [reflexivity|]. split; [unfold wire; rewrite Hk; exact Ht|]. split; [exact Hst|exact Hin].
Defined.

(** ** A run behind a finding

    Two requests are being answered when the first connection turns out to go
    on in HTTP/2. The thread for it cannot be created, the panic unwinds out of
    [on_wakeup], and the second answer is lost with it: its connection is left
    in [serving] with no job, no answer and no event to come. *)
Definition h2_opening : bytes := Demo.page "a" "" ++ H2_PREFACE.

Definition answer_lost : list Label :=
  [LPoll open_now [(4, false)];
   LHandle [] [AConn 7 (from_peer 1) (mkSock h2_opening 0 false false 4096 []); AConn 8 (from_peer 2) (mkSock (Demo.page "b" "") 0 false false 4096 [])];
   LServe (Answer 0 ok_page); LServe (Answer 0 ok_page); LServe Ring; LServe Ring; LPoll open_now [(3, false)]; LHandle [] []].

Definition forsaken (s : Reactor) : bool :=
  match get 1 s with
  | Some c => k_serving c && (k_fd c =? 8) && (length (jobs s) =? 0)%nat && (length (mailbox s) =? 0)%nat && (length (dropped s) =? 1)%nat && bool_decide (wire 8 s = [])
  | None => false
  end.

Example unwinding_loses_answers : forsaken <$> krun false answer_lost = Some true.
Proof. vm_compute. reflexivity. Qed.

(** With a thread the second is answered. *)
Example spawning_keeps_answers : (fun s => bool_decide (wire 8 s = sent_page) && (length (handed s) =? 1)%nat) <$> krun true answer_lost = Some true.
Proof. vm_compute. reflexivity. Qed.

(** The header clock is looked at only when bytes arrive: a client that sends
    nothing keeps its slot long after the time-out, and is refused when it at
    last sends its request. *)
Definition silent (late : list Label) : option Reactor :=
  run (@kstep (machine_with true 5))
    ([LPoll open_now [(4, false)]; LHandle [] [AConn 7 (from_peer 1) (mkSock [] 0 false false 4096 [])]] ++ replicate 50 LPrune ++ late)
    (@shard (machine_with true 5) (SharedStanding_new 7)).

Example silent_client_is_kept :
  (fun s => bool_decide (is_Some (get 0 s)) && bool_decide (wire 7 s = []) && (50 <? tick s)%nat) <$> silent [] = Some true.
Proof. vm_compute. reflexivity. Qed.

Example late_client_is_refused :
  (fun s => bool_decide (get 0 s = None) && bool_decide (due s !! 7 = Some SLOWLORIS_408)) <$>
    silent [LData 7 (Demo.page "a" ""); LPoll open_now [(7, false)]; LHandle [] []] = Some true.
Proof. vm_compute. reflexivity. Qed.
