(* ===== verification/Control.v ===== *)
(** * The control-plane front door ([control.rs])

    The HTTP head of a mesh node's first contact: the server's key, and the
    upgrade to the encrypted control channel, whose first message the client
    carries in a header. The listener, TLS termination and the log are not
    modelled; a connection is its reads and its sink ([Connect.Socket]), and
    dialling the responder is a parameter. *)
From S2P Require Import Prelude Bytes Lines Io Text Ws Connect.

Local Open Scope Z_scope.

Definition UPGRADE_VALUE : bytes := bs "tailscale-control-protocol".
Definition HANDSHAKE_HEADER : bytes := bs "X-Tailscale-Handshake".
Definition MSG_TYPE_RECORD : Z := 4.
Definition RECORD_HEADER_LEN : nat := 3.
Definition MAX_MESSAGE_SIZE : nat := Z.to_nat 4096.
Definition DEFAULT_NOISE_PUB_HEX : bytes := bs "fa26f3e8a48dc027ef0df9fa80eb505244aaac90a6edb2dde0d5eaae533a9417".

(** ** base64 *)
Definition EQUALS : Z := 61.

Definition b64_val (b : Z) : option Z :=
  if between 65 90 b then Some (b - 65)
  else if between 97 122 b then Some (b - 97 + 26)
  else if between 48 57 b then Some (b - 48 + 52)
  else if b =? 43 then Some 62
  else if b =? 47 then Some 63
  else None.

(** One character of a group: the accumulator is 32 bits wide. *)
Definition sextet (is_last : bool) (i : nat) (b : Z) (st : Z * nat) : option (Z * nat) :=
  let '(acc, pad) := st in
  if b =? EQUALS then
    if negb is_last || (i <? 2)%nat || (2 <=? pad)%nat then None else Some (wrap 32 (Z.shiftl acc 6), S pad)
  else if negb (pad =? 0)%nat then None
  else v ← b64_val b; Some (Z.lor (wrap 32 (Z.shiftl acc 6)) v, pad).

Definition b64_group (is_last : bool) (b0 b1 b2 b3 : Z) : option bytes :=
  st0 ← sextet is_last 0 b0 (0, 0%nat);
  st1 ← sextet is_last 1 b1 st0;
  st2 ← sextet is_last 2 b2 st1;
  '(acc, pad) ← sextet is_last 3 b3 st2;
  Some ([wrap 8 (Z.shiftr acc 16)] ++ (if (pad <? 2)%nat then [wrap 8 (Z.shiftr acc 8)] else []) ++ (if (pad <? 1)%nat then [wrap 8 acc] else [])).

Fixpoint b64_groups (l : bytes) : option bytes :=
  match l with
  | b0 :: b1 :: b2 :: b3 :: rest =>
      out ← b64_group (bool_decide (rest = [])) b0 b1 b2 b3; tail ← b64_groups rest; Some (out ++ tail)
  | [] => Some []
  | _ => None
  end.

Definition b64_decode (s : bytes) : option bytes :=
  let s := str_trim s in
  if bool_decide (s = []) || negb (length s mod 4 =? 0)%nat then None else b64_groups s.

(** ** Records *)
Definition record_frame (sealed : bytes) : option bytes :=
  if (MAX_MESSAGE_SIZE <? length sealed + RECORD_HEADER_LEN)%nat || (65535 <? Z.of_nat (length sealed)) then None
  else Some (MSG_TYPE_RECORD :: to_be_bytes 2 (Z.of_nat (length sealed)) ++ sealed).

Definition record_deframe (prefix : bytes) : option (bytes * nat) :=
  match prefix with
  | t :: hi :: lo :: _ =>
      if negb (t =? MSG_TYPE_RECORD) then None
      else
        let len := Z.to_nat (from_be_bytes [hi; lo]) in
        let end_ := (RECORD_HEADER_LEN + len)%nat in
        if (MAX_MESSAGE_SIZE <? len + RECORD_HEADER_LEN)%nat || (length prefix <? end_)%nat then None
        else Some (slice RECORD_HEADER_LEN end_ prefix, end_)
  | _ => None
  end.

(** ** The request head *)
Record Head := mkHead { h_method : bytes; h_path : bytes; h_headers : list (bytes * bytes) }.

Definition header (name : bytes) (h : Head) : option bytes :=
  snd <$> List.find (fun kv => bytes_eqb kv.1 (to_ascii_lowercase <$> name)) (h_headers h).

Definition header_has_token (name token : bytes) (h : Head) : bool :=
  match header name h with
  | Some v => existsb (fun t => eq_ignore_ascii_case (str_trim t) token) (split_on (fun b => b =? 44) v)
  | None => false
  end.

Definition without_cr (l : bytes) : bytes := default l (strip_suffix [CR] l).

Definition header_line (line : bytes) : option (bytes * bytes) :=
  let line := without_cr line in
  colon ← position (fun b => b =? COLON) line;
  let name := to_ascii_lowercase <$> str_trim (from_utf8_lossy (take colon line)) in
  let value := str_trim (from_utf8_lossy (drop (S colon) line)) in
  if bool_decide (name = []) then None else Some (name, value).

Definition parse_head (buf : bytes) : option Head :=
  let head := take (match windows_position CRLFCRLF buf with Some p => p + 4 | None => length buf end)%nat buf in
  match split_on (fun b => b =? LF) head with
  | [] => None
  | request_line :: lines =>
      match split_on (fun b => b =? 32) (without_cr request_line) with
      | method :: raw_path :: _ =>
          Some (mkHead method (default raw_path (List.head (split_on (fun b => b =? 63) raw_path))) (omap header_line lines))
      | _ => None
      end
  end.

Definition HEAD_CHUNK : nat := Z.to_nat 1024.
Definition HEAD_CAP : nat := Z.to_nat 16384.

Fixpoint read_head_loop (fuel : nat) (buf : bytes) (rx : list read_ev) : option (result bytes io_error * list read_ev) :=
  match fuel with
  | O => None
  | S f =>
      match read HEAD_CHUNK rx with
      | (Err e, rx') => Some (Err e, rx')
      | (Ok [], rx') => Some (Ok buf, rx')
      | (Ok got, rx') =>
          let buf' := buf ++ got in
          if bool_decide (is_Some (windows_position CRLFCRLF buf')) || (HEAD_CAP <? length buf')%nat then Some (Ok buf', rx')
          else read_head_loop f buf' rx'
      end
  end.

Definition read_head (rx : list read_ev) : option (result bytes io_error * list read_ev) := read_head_loop (S (weight rx)) [] rx.

(** ** Responses *)
Definition simple_response (status : Z) (reason content_type : string) (body : bytes) : bytes :=
  bs "HTTP/1.1 " ++ to_dec status ++ bs " " ++ bs reason ++ CRLF ++ bs "Content-Type: " ++ bs content_type ++ CRLF ++
  bs "Content-Length: " ++ to_dec (Z.of_nat (length body)) ++ CRLF ++ bs "Connection: close" ++ CRLFCRLF ++ body.

Definition switching_protocols : bytes :=
  bs "HTTP/1.1 101 Switching Protocols" ++ CRLF ++ bs "Upgrade: " ++ UPGRADE_VALUE ++ CRLF ++ bs "Connection: Upgrade" ++ CRLFCRLF.

Definition REQUIRED_BODY : bytes := bs "ts2021 requires Upgrade: tailscale-control-protocol" ++ [LF].
Definition upgrade_required : bytes :=
  bs "HTTP/1.1 426 Upgrade Required" ++ CRLF ++ bs "Upgrade: " ++ UPGRADE_VALUE ++ CRLF ++ bs "Connection: close" ++ CRLF ++
  bs "Content-Type: text/plain; charset=utf-8" ++ CRLF ++ bs "Content-Length: " ++ to_dec (Z.of_nat (length REQUIRED_BODY)) ++ CRLFCRLF ++ REQUIRED_BODY.

Definition plain_text : string := "text/plain; charset=utf-8".
Definition BAD_REQUEST : bytes := simple_response 400 "Bad Request" plain_text (bs "bad request" ++ [LF]).
Definition METHOD_NOT_ALLOWED : bytes := simple_response 405 "Method Not Allowed" plain_text (bs "method not allowed" ++ [LF]).
Definition NOT_FOUND : bytes := simple_response 404 "Not Found" plain_text (bs "not found" ++ [LF]).

Definition is_ascii_hexdigit (b : Z) : bool := between 48 57 b || between 97 102 b || between 65 70 b.

Section front.
Context (env : string -> option bytes) (dial : bytes -> option Socket) (client_cloned upstream_cloned : bool).

Definition server_noise_pub_hex : bytes :=
  match env "DRORB_CONTROL_NOISE_PUB" with
  | Some s =>
      let s := to_ascii_lowercase <$> str_trim s in
      if (length s =? 64)%nat && forallb is_ascii_hexdigit s then s else DEFAULT_NOISE_PUB_HEX
  | None => DEFAULT_NOISE_PUB_HEX
  end.

Definition QUOTE : Z := 34.
Definition quoted (b : bytes) : bytes := [QUOTE] ++ b ++ [QUOTE].
Definition key_json : bytes :=
  bs "{" ++ quoted (bs "legacy") ++ bs ":" ++ quoted (bs "mkey:" ++ replicate 64 48) ++ bs "," ++
  quoted (bs "publicKey") ++ bs ":" ++ quoted (bs "mkey:" ++ server_noise_pub_hex) ++ bs "}".

(** ** The upgraded stream *)

(** Every complete record of the buffer, written back; [None] in the result is
    a return from the middle of the loop. *)
Fixpoint echo_records (fuel : nat) (acc : bytes) (c : sink) : option (option bytes * sink) :=
  match fuel with
  | O => None
  | S f =>
      match record_deframe acc with
      | None => Some (Some acc, c)
      | Some (payload, used) =>
          match record_frame payload with
          | None => Some (None, c)
          | Some reframed =>
              match write_all reframed c with
              | (Err _, c') => Some (None, c')
              | (Ok _, c') => echo_records f (drop used acc) c'
              end
          end
      end
  end.

Fixpoint echo_loop (fuel : nat) (acc : bytes) (s : Socket) : option Socket :=
  match fuel with
  | O => None
  | S f =>
      match read MAX_MESSAGE_SIZE (s_rx s) with
      | (Ok [], rx') | (Err _, rx') => Some (mkSocket rx' (s_tx s))
      | (Ok got, rx') =>
          let acc' := acc ++ got in
          if (MAX_MESSAGE_SIZE <? length acc')%nat then Some (mkSocket rx' (s_tx s))
          else
            '(rest, c) ← echo_records (S (length acc')) acc' (s_tx s);
            match rest with
            | None => Some (mkSocket rx' c)
            | Some acc2 => echo_loop f acc2 (mkSocket rx' c)
            end
      end
  end.

Definition record_echo (s : Socket) : option Socket := echo_loop (S (weight (s_rx s))) [] s.

(** The addresses that were dialled, in order. *)
Definition Dials : Type := list bytes.
Definition connect (addr : bytes) (tr : Dials) : option Socket * Dials := (dial addr, tr ++ [addr]).

(** The client, the responder when one was reached, and the dials. *)
Definition drive_controlbase (s : Socket) (init : bytes) (tr : Dials) : option (Socket * option Socket * Dials) :=
  let addr := from_option str_trim [] (env "DRORB_CONTROL_RESPONDER") in
  if bool_decide (addr = []) then s' ← record_echo s; Some (s', None, tr)
  else
    match connect addr tr with
    | (None, tr) => Some (s, None, tr)
    | (Some upstream, tr) =>
        match (if bool_decide (init = []) then (Ok (), s_tx upstream) else write_all init (s_tx upstream)) with
        | (Err _, c) => Some (s, Some (mkSocket (s_rx upstream) c), tr)
        | (Ok _, c) => '(cl, u) ← pump client_cloned upstream_cloned s (mkSocket (s_rx upstream) c); Some (cl, Some u, tr)
        end
    end.

Definition upgrade_asked (h : Head) : bool :=
  from_option (fun v => eq_ignore_ascii_case v UPGRADE_VALUE) false (header (bs "upgrade") h) && header_has_token (bs "connection") (bs "upgrade") h.

Definition initiation (h : Head) : bytes := default [] (header HANDSHAKE_HEADER h ≫= b64_decode).

Definition route (h : Head) (s : Socket) (tr : Dials) : option (Socket * option Socket * Dials) :=
  let asks m p := bytes_eqb (h_method h) (bs m) && bytes_eqb (h_path h) (bs p) in
  if asks "GET" "/key" then Some (reply (simple_response 200 "OK" "application/json" key_json) s, None, tr)
  else if asks "POST" "/ts2021" then
    if upgrade_asked h then
      match write_all switching_protocols (s_tx s) with
      | (Err _, c) => Some (mkSocket (s_rx s) c, None, tr)
      | (Ok _, c) => drive_controlbase (mkSocket (s_rx s) (snd (flush c))) (initiation h) tr
      end
    else Some (reply upgrade_required s, None, tr)
  else if bytes_eqb (h_path h) (bs "/key") || bytes_eqb (h_path h) (bs "/ts2021") then Some (reply METHOD_NOT_ALLOWED s, None, tr)
  else Some (reply NOT_FOUND s, None, tr).

Definition handle (s : Socket) (tr : Dials) : option (Socket * option Socket * Dials) :=
  '(r, rx) ← read_head (s_rx s);
  let s := mkSocket rx (s_tx s) in
  match r with
  | Err _ | Ok [] => Some (s, None, tr)
  | Ok buf =>
      match parse_head buf with
      | None => Some (reply BAD_REQUEST s, None, tr)
      | Some h => route h s tr
      end
  end.
End front.

(** ** The codecs *)
Lemma record_frame_Some p f : record_frame p = Some f ->
  f = MSG_TYPE_RECORD :: to_be_bytes 2 (Z.of_nat (length p)) ++ p /\ (length p + RECORD_HEADER_LEN <= MAX_MESSAGE_SIZE)%nat /\ length f = (RECORD_HEADER_LEN + length p)%nat.
Proof.
  unfold record_frame. destruct (_ || _) eqn:E; [done|]. rewrite orb_false_iff in E. destruct E as [E1%Nat.ltb_ge _]. intros [= <-].
  split_and!; [done|lia|]. cbn [length]. unfold RECORD_HEADER_LEN. lia.
Qed.

Lemma be2 n : 0 <= n < 65536 -> exists hi lo, to_be_bytes 2 n = [hi; lo] /\ from_be_bytes [hi; lo] = n.
Proof.
  intros Hn. pose proof (from_to_be_bytes 2 n ltac:(change (256 ^ Z.of_nat 2) with 65536; lia)) as H. pose proof (length_to_be_bytes 2 n) as Hl.
  destruct (to_be_bytes 2 n) as [|hi [|lo [|? ?]]]; cbn in Hl; try lia. eauto.
Qed.

(** A record is read back from the front of whatever follows it. *)
Lemma deframe_frame p f rest : record_frame p = Some f -> record_deframe (f ++ rest) = Some (p, length f).
Proof.
  intros (-> & Hlen & Hf)%record_frame_Some. unfold MAX_MESSAGE_SIZE, RECORD_HEADER_LEN in Hlen. rewrite Hf.
  destruct (be2 (Z.of_nat (length p))) as (hi & lo & -> & E); [lia|]. cbn [app record_deframe]. rewrite Z.eqb_refl, E, Nat2Z.id. cbn [negb].
  rewrite (proj2 (Nat.ltb_ge _ _)) by (unfold MAX_MESSAGE_SIZE, RECORD_HEADER_LEN; lia). cbn [length]. rewrite length_app.
  rewrite (proj2 (Nat.ltb_ge _ _)) by (unfold RECORD_HEADER_LEN; lia). cbn [orb].
  pose proof (slice_at [MSG_TYPE_RECORD; hi; lo] p rest RECORD_HEADER_LEN (RECORD_HEADER_LEN + length p) eq_refl eq_refl) as Hs. cbn [app] in Hs. by rewrite Hs.
Qed.

(** And nothing else is: what is taken off the front is a record. *)
Lemma deframe_is_frame w p n : bytes_ok w -> record_deframe w = Some (p, n) ->
  exists f rest, record_frame p = Some f /\ w = f ++ rest /\ n = length f.
Proof.
  intros Hok. unfold record_deframe. destruct w as [|t [|hi [|lo w]]]; try done. destruct (t =? MSG_TYPE_RECORD) eqn:Et; [|done]. cbn [negb].
  destruct (_ || _) eqn:E; [done|]. intros Hpn. rewrite orb_false_iff in E. destruct E as [E1%Nat.ltb_ge E2%Nat.ltb_ge].
  apply Z.eqb_eq in Et. subst t. set (len := Z.to_nat (from_be_bytes [hi; lo])) in *. unfold MAX_MESSAGE_SIZE, RECORD_HEADER_LEN in E1. unfold RECORD_HEADER_LEN in E2. cbn [length] in E2.
  assert (slice RECORD_HEADER_LEN (RECORD_HEADER_LEN + len) (MSG_TYPE_RECORD :: hi :: lo :: w) = take len w) as Hs by (unfold slice, RECORD_HEADER_LEN; cbn [drop]; f_equal; lia).
  rewrite Hs in Hpn. injection Hpn as <- <-.
  assert (length (take len w) = len) as Hl by (rewrite length_take; lia).
  assert (to_be_bytes 2 (Z.of_nat len) = [hi; lo]) as Hbe.
  { unfold bytes_ok in Hok. rewrite !Forall_cons in Hok. destruct Hok as (_ & Hhi & Hlo & _).
    assert (bytes_ok [lo; hi]) as Hll by (apply Forall_cons_2, Forall_cons_2, Forall_nil_2; done). pose proof (from_le_bytes_bound [lo; hi] Hll) as Hb. unfold len. rewrite Z2Nat.id.
    - unfold to_be_bytes, from_be_bytes. change (reverse [hi; lo]) with [lo; hi]. assert (to_le_bytes 2 (from_le_bytes [lo; hi]) = [lo; hi]) as -> by (by apply (to_from_le_bytes [lo; hi])). done.
    - unfold from_be_bytes. change (reverse [hi; lo]) with [lo; hi]. apply Hb. }
  unfold record_frame. rewrite Hl, Hbe. rewrite (proj2 (Nat.ltb_ge _ _)) by (unfold MAX_MESSAGE_SIZE, RECORD_HEADER_LEN; lia).
  rewrite (proj2 (Z.ltb_ge _ _)) by lia. cbn [orb]. eexists _, (drop len w). split_and!; [done| |].
  - cbn. by rewrite take_drop.
  - cbn [app length]. rewrite Hl. done.
Qed.

Lemma b64_char_val v : 0 <= v -> b64_val (b64_char v) = Some (v mod 64) /\ b64_char v <> EQUALS /\ graphic (b64_char v) = true.
Proof.
  intros Hv. unfold b64_char. change 63 with (Z.ones 6). rewrite Z.land_ones by lia. change (2 ^ 6) with 64.
  pose proof (Z.mod_pos_bound v 64 ltac:(lia)) as Hb. set (i := v mod 64) in *. clearbody i. clear Hv v.
  assert (forallb (fun n => let c := default 0 (base64_alphabet !! n) in bool_decide (b64_val c = Some (Z.of_nat n)) && negb (c =? EQUALS) && graphic c) (seq 0 64) = true) as H
    by (vm_compute; reflexivity).
  rewrite forallb_forall in H. specialize (H (Z.to_nat i) (proj2 (in_seq 64 0 (Z.to_nat i)) ltac:(lia))). cbn zeta in H. rewrite !andb_true_iff, bool_decide_eq_true, negb_true_iff, Z.eqb_neq in H.
  rewrite Z2Nat.id in H by lia. tauto.
Qed.

Lemma sextet_char is_last i acc v : 0 <= acc < 2 ^ 24 -> 0 <= v -> sextet is_last i (b64_char v) (acc, 0%nat) = Some (acc * 64 + v mod 64, 0%nat).
Proof.
  intros Ha Hv. destruct (b64_char_val v Hv) as (E & Hn & _). unfold sextet. rewrite (proj2 (Z.eqb_neq _ _) Hn), E. cbn [negb Nat.eqb mbind option_bind].
  pose proof (Z.mod_pos_bound v 64). rewrite wrap_small by (unfold fits; rewrite Z.shiftl_mul_pow2; lia). rewrite lor_shiftl by lia. done.
Qed.

Lemma sextet_pad i acc pad : 0 <= acc < 2 ^ 24 -> (2 <= i)%nat -> (pad < 2)%nat -> sextet true i EQUALS (acc, pad) = Some (acc * 64, S pad).
Proof.
  intros Ha Hi Hp. unfold sextet. rewrite Z.eqb_refl, (proj2 (Nat.ltb_ge i 2)), (proj2 (Nat.leb_gt 2 pad)) by lia. cbn [negb orb].
  rewrite wrap_small by (unfold fits; rewrite Z.shiftl_mul_pow2; lia). by rewrite Z.shiftl_mul_pow2 by lia.
Qed.

Lemma byte_of_word b0 b1 b2 : byte_ok b0 -> byte_ok b1 -> byte_ok b2 ->
  let v := b0 * 65536 + b1 * 256 + b2 in wrap 8 (Z.shiftr v 16) = b0 /\ wrap 8 (Z.shiftr v 8) = b1 /\ wrap 8 v = b2.
Proof.
  unfold byte_ok. intros H0 H1 H2. cbn zeta. unfold wrap. rewrite !Z.shiftr_div_pow2 by lia. change (2 ^ 16) with 65536. change (2 ^ 8) with 256.
  split_and!; Z.to_euclidean_division_equations; lia.
Qed.

Lemma b64_group_full is_last b0 b1 b2 : byte_ok b0 -> byte_ok b1 -> byte_ok b2 ->
  let v := b64_word b0 b1 b2 in
  b64_group is_last (b64_char (Z.shiftr v 18)) (b64_char (Z.shiftr v 12)) (b64_char (Z.shiftr v 6)) (b64_char v) = Some [b0; b1; b2].
Proof.
  intros H0 H1 H2. cbn zeta. rewrite b64_word_sum by done. set (v := b0 * 65536 + b1 * 256 + b2).
  assert (0 <= v < 2 ^ 24) as Hv by (unfold v, byte_ok in *; lia). destruct (b64_digits v Hv) as (Hs & P18 & P12 & P6).
  pose proof (Z.mod_pos_bound (Z.shiftr v 18) 64). pose proof (Z.mod_pos_bound (Z.shiftr v 12) 64). pose proof (Z.mod_pos_bound (Z.shiftr v 6) 64). pose proof (Z.mod_pos_bound v 64).
  unfold b64_group. do 4 (rewrite sextet_char by lia; cbn [mbind option_bind]). cbn [Nat.ltb Nat.leb].
  destruct (byte_of_word b0 b1 b2 H0 H1 H2) as (E0 & E1 & E2). fold v in E0, E1, E2.
  replace ((((0 * 64 + Z.shiftr v 18 mod 64) * 64 + Z.shiftr v 12 mod 64) * 64 + Z.shiftr v 6 mod 64) * 64 + v mod 64) with v by lia.
  by rewrite E0, E1, E2.
Qed.

Lemma b64_group_two b0 b1 : byte_ok b0 -> byte_ok b1 ->
  let v := b64_word b0 b1 0 in
  b64_group true (b64_char (Z.shiftr v 18)) (b64_char (Z.shiftr v 12)) (b64_char (Z.shiftr v 6)) EQUALS = Some [b0; b1].
Proof.
  intros H0 H1. cbn zeta. rewrite b64_word_sum by (done || (unfold byte_ok; lia)). set (v := b0 * 65536 + b1 * 256 + 0).
  assert (0 <= v < 2 ^ 24) as Hv by (unfold v, byte_ok in *; lia). destruct (b64_digits v Hv) as (Hs & P18 & P12 & P6).
  pose proof (Z.mod_pos_bound (Z.shiftr v 18) 64). pose proof (Z.mod_pos_bound (Z.shiftr v 12) 64). pose proof (Z.mod_pos_bound (Z.shiftr v 6) 64).
  unfold b64_group. do 3 (rewrite sextet_char by lia; cbn [mbind option_bind]). rewrite sextet_pad by lia. cbn [mbind option_bind Nat.ltb Nat.leb].
  assert (v mod 64 = 0) as Hm by (unfold v; Z.to_euclidean_division_equations; lia).
  destruct (byte_of_word b0 b1 0 H0 H1 ltac:(unfold byte_ok; lia)) as (E0 & E1 & _). fold v in E0, E1.
  replace ((((0 * 64 + Z.shiftr v 18 mod 64) * 64 + Z.shiftr v 12 mod 64) * 64 + Z.shiftr v 6 mod 64) * 64) with v by lia.
  by rewrite E0, E1.
Qed.

Lemma b64_group_one b0 : byte_ok b0 ->
  let v := b64_word b0 0 0 in b64_group true (b64_char (Z.shiftr v 18)) (b64_char (Z.shiftr v 12)) EQUALS EQUALS = Some [b0].
Proof.
  intros H0. cbn zeta. rewrite b64_word_sum by (done || (unfold byte_ok; lia)). set (v := b0 * 65536 + 0 * 256 + 0).
  assert (0 <= v < 2 ^ 24) as Hv by (unfold v, byte_ok in *; lia). destruct (b64_digits v Hv) as (Hs & P18 & P12 & P6).
  pose proof (Z.mod_pos_bound (Z.shiftr v 18) 64). pose proof (Z.mod_pos_bound (Z.shiftr v 12) 64).
  unfold b64_group. do 2 (rewrite sextet_char by lia; cbn [mbind option_bind]). do 2 (rewrite sextet_pad by lia; cbn [mbind option_bind]). cbn [Nat.ltb Nat.leb].
  assert (Z.shiftr v 6 mod 64 = 0 /\ v mod 64 = 0) as [Hm6 Hm].
  { rewrite Z.shiftr_div_pow2 by lia. change (2 ^ 6) with 64. unfold v. split; Z.to_euclidean_division_equations; lia. }
  destruct (byte_of_word b0 0 0 H0 ltac:(unfold byte_ok; lia) ltac:(unfold byte_ok; lia)) as (E0 & _). fold v in E0.
  replace ((((0 * 64 + Z.shiftr v 18 mod 64) * 64 + Z.shiftr v 12 mod 64) * 64) * 64) with v by lia. by rewrite E0.
Qed.

(** The bytes of a list three at a time, as [base64] takes them. *)
Lemma by_three (P : bytes -> Prop) : P [] -> (forall a, P [a]) -> (forall a b, P [a; b]) -> (forall a b c l, P l -> P (a :: b :: c :: l)) -> forall l, P l.
Proof.
  intros P0 P1 P2 P3. fix IH 1. intros [|a [|b [|c l]]]; [exact P0|apply P1|apply P2|apply P3, IH].
Qed.

Lemma b64_groups_base64 l : bytes_ok l -> b64_groups (base64 l) = Some l.
Proof.
  induction l as [|b0|b0 b1|b0 b1 b2 l IH] using by_three; intros Hok; unfold bytes_ok in Hok; rewrite ?Forall_cons in Hok.
  - done.
  - cbn [base64 b64_groups]. change (bool_decide (@nil Z = [])) with true. change 61 with EQUALS. by rewrite b64_group_one by tauto.
  - cbn [base64 b64_groups]. change (bool_decide (@nil Z = [])) with true. change 61 with EQUALS. by rewrite b64_group_two by tauto.
  - destruct Hok as (H0 & H1 & H2 & Hl). cbn [base64 b64_groups]. rewrite b64_group_full by done. cbn [mbind option_bind]. by rewrite (IH Hl).
Qed.

Lemma base64_shape l : bytes_ok l -> l <> [] ->
  (length (base64 l) mod 4)%nat = 0%nat /\ Forall (fun c => graphic c = true) (base64 l) /\ base64 l <> [].
Proof.
  intros Hok Hne. split_and!; [..|by destruct l as [|? [|? [|? ?]]]].
  - clear. induction l as [|b0|b0 b1|b0 b1 b2 l IH] using by_three; cbn [base64 length]; [done..|].
    by rewrite <- (Nat.Div0.mod_add _ 1 4), Nat.mul_1_l in IH; rewrite <- IH; f_equal; lia.
  - clear Hne. assert (forall b0 b1 b2 k, byte_ok b0 -> byte_ok b1 -> byte_ok b2 -> 0 <= k -> graphic (b64_char (Z.shiftr (b64_word b0 b1 b2) k)) = true) as Hg.
    { intros b0 b1 b2 k H0 H1 H2 Hk. apply b64_char_val. rewrite b64_word_sum by done. apply Z.shiftr_nonneg. unfold byte_ok in *. lia. }
    assert (byte_ok 0) as Hz by (unfold byte_ok; lia).
    induction l as [|b0|b0 b1|b0 b1 b2 l IH] using by_three; unfold bytes_ok in Hok; rewrite ?Forall_cons in Hok; cbn [base64]; rewrite ?Forall_cons, ?Forall_nil.
    + done.
    + split_and!; [apply Hg; tauto || lia..|done|done|done].
    + split_and!; [apply Hg; tauto || lia..|done|done].
    + destruct Hok as (H0 & H1 & H2 & Hl). split_and!; [apply Hg; done || lia..|rewrite <- (Z.shiftr_0_r (b64_word b0 b1 b2)); by apply Hg|by apply IH].
Qed.

(** What a client encodes is what is decoded. *)
Theorem handshake_roundtrip x : bytes_ok x -> x <> [] -> b64_decode (base64 x) = Some x.
Proof.
  intros Hok Hne. destruct (base64_shape x Hok Hne) as (Hm & Hg & Hn). unfold b64_decode.
  assert (str_trim (base64 x) = base64 x) as ->.
  { destruct (base64 x) as [|c l] eqn:E; [done|]. destruct (last (c :: l)) as [d|] eqn:El; [|by apply last_None in El].
    rewrite Forall_forall in Hg. eapply str_trim_graphic; [done|exact El|apply Hg; by left|apply Hg]. by apply last_Some_elem_of. }
  rewrite bool_decide_false by done. rewrite Hm. cbn [orb negb Nat.eqb]. by apply b64_groups_base64.
Qed.

(** ** Heads *)
Definition plain_line (l : bytes) : Prop := l <> [] /\ (CR ∉ l) /\ (LF ∉ l).

Definition printable (b : Z) : bool := negb (b =? CR) && negb (b =? LF).

Lemma printable_plain l : l <> [] -> forallb printable l = true -> plain_line l.
Proof.
  intros Hne H. rewrite forallb_forall in H. split_and!; [done|..]; intros Hin%list_elem_of_In; by specialize (H _ Hin).
Qed.

Lemma no_cr_no_crlf l : CR ∉ l -> windows_position CRLF (l ++ CRLF) = Some (length l).
Proof.
  induction l as [|x l IH]; [done|]. rewrite not_elem_of_cons. intros [Hx Hl]. cbn [app]. rewrite windows_position_cons.
  assert (starts_with CRLF (x :: l ++ CRLF) = false) as -> by (unfold CRLF; cbn [starts_with]; by rewrite (proj2 (Z.eqb_neq CR x)) by congruence).
  rewrite andb_false_r, IH by done. done.
Qed.

Lemma plain_line_ok l : plain_line l -> line_ok l.
Proof. intros (Hne & Hcr & _). split; [by apply no_cr_no_crlf|done]. Qed.

Lemma split_block ls y : Forall plain_line ls ->
  split_on (fun b => b =? LF) (block ls ++ y) = ((fun l => l ++ [CR]) <$> ls) ++ split_on (fun b => b =? LF) y.
Proof.
  intros Hls. induction Hls as [|l ls (_ & _ & Hlf) _ IH]; [done|]. rewrite block_cons. change (CRLF ++ block ls ++ y) with ([CR] ++ LF :: block ls ++ y).
  rewrite app_assoc, split_on_line with (b := LF), IH; [done| |done].
  apply Forall_forall. intros b [Hb| ->%list_elem_of_singleton]%elem_of_app; [|done]. apply Z.eqb_neq. congruence.
Qed.

Lemma without_cr_snoc l : without_cr (l ++ [CR]) = l.
Proof.
  unfold without_cr, strip_suffix, ends_with. rewrite length_app. cbn [length]. rewrite (proj2 (Nat.leb_le _ _)) by lia.
  replace (length l + 1 - 1)%nat with (length l) by lia. by rewrite drop_app_length, bytes_eqb_refl, take_app_length.
Qed.

Lemma without_cr_plain l : CR ∉ l -> without_cr l = l.
Proof.
  intros H. unfold without_cr, strip_suffix. destruct (ends_with [CR] l) eqn:E; [|done]. apply ends_with_app in E as (p & ->).
  exfalso. apply H, elem_of_app. right. by left.
Qed.

Lemma header_line_cr l : CR ∉ l -> header_line (l ++ [CR]) = header_line l.
Proof. intros H. unfold header_line. by rewrite without_cr_snoc, without_cr_plain. Qed.

(** A head of lines is read line by line, whatever follows it. *)
Lemma parse_head_lines rl ls more m path rest :
  plain_line rl -> Forall plain_line ls -> split_on (fun b => b =? 32) rl = m :: path :: rest -> Forall (fun b => (b =? 63) = false) path ->
  parse_head (block (rl :: ls) ++ CRLF ++ more) = Some (mkHead m path (omap header_line ls)).
Proof.
  intros Hrl Hls Hsp Hp. assert (Forall plain_line (rl :: ls)) as Hall by (by constructor).
  pose proof (block_head (rl :: ls) more) as He. unfold head_end in He. unfold parse_head.
  destruct (windows_position CRLFCRLF _) as [p|]; [|discriminate He; [eapply Forall_impl; [exact Hall|apply plain_line_ok]|done]].
  specialize (He ltac:(eapply Forall_impl; [exact Hall|apply plain_line_ok]) ltac:(done)). cbn [fmap option_fmap option_map] in He. injection He as ->.
  assert (take (length (block (rl :: ls)) + 2) (block (rl :: ls) ++ CRLF ++ more) = block (rl :: ls) ++ CRLF) as ->.
  { rewrite app_assoc. apply take_app_length'. rewrite length_app. done. }
  rewrite split_block by done. cbn [fmap list_fmap app]. rewrite without_cr_snoc, Hsp, (split_on_none _ path) by done. cbn [List.head default]. do 2 f_equal.
  assert (split_on (fun b => b =? LF) CRLF = [[CR]; []]) as -> by done.
  rewrite omap_app. cbn [omap list_omap]. change (header_line [CR]) with (@None (bytes * bytes)). change (header_line []) with (@None (bytes * bytes)). rewrite app_nil_r.
  clear -Hls. induction Hls as [|l ls (_ & Hcr & _) _ IH]; [done|]. cbn [fmap list_fmap omap list_omap]. rewrite header_line_cr by done. destruct (header_line l); by rewrite IH.
Qed.

(** ** Reading the head *)

(** A prefix of a head that is not all of it holds no blank line. *)
Definition head_at_end (req : bytes) : Prop := windows_position CRLFCRLF req = Some (length req - 4)%nat /\ (4 <= length req)%nat.

Lemma head_incomplete req a b : head_at_end req -> req = a ++ b -> b <> [] -> windows_position CRLFCRLF a = None.
Proof.
  intros [Hw Hl] -> Hb. destruct (windows_position CRLFCRLF a) as [p|] eqn:E; [|done]. exfalso.
  pose proof (windows_position_bound _ _ _ E) as Hp. cbn in Hp. pose proof (windows_position_app _ _ _ b E) as E2. rewrite Hw in E2. injection E2 as E2.
  rewrite length_app in E2, Hl. destruct b; [done|]. cbn in *. lia.
Qed.

Definition pieces (cuts : list bytes) : list read_ev := Data <$> cuts.

Lemma read_head_exact fuel : forall buf cuts more, (length (concat cuts) < fuel)%nat -> head_at_end (buf ++ concat cuts) -> (length (buf ++ concat cuts) <= HEAD_CAP)%nat ->
  Forall (fun c => c <> []) cuts -> cuts <> [] ->
  read_head_loop fuel buf (pieces cuts ++ more) = Some (Ok (buf ++ concat cuts), more).
Proof.
  induction fuel as [|f IH]; intros buf cuts more Hf Hh Hl Hne Hc; [lia|]. destruct cuts as [|c cuts]; [done|]. inversion_clear Hne as [|? ? Hcn Hne'].
  cbn [read_head_loop pieces fmap list_fmap app read]. cbn [concat] in *. rewrite length_app in Hf. destruct (length c <=? HEAD_CHUNK)%nat eqn:E.
  - destruct c as [|x c]; [done|]. set (d := x :: c) in *. destruct (decide (cuts = [])) as [->|Hcs].
    + cbn [concat] in *. rewrite app_nil_r in *. destruct Hh as [Hw _]. rewrite Hw. by rewrite bool_decide_true by done.
    + assert (concat cuts <> []) as Hcc by (destruct cuts as [|[|] ?]; [done|by inversion Hne'|done]).
      rewrite (head_incomplete _ (buf ++ d) (concat cuts) Hh) by (by rewrite ?app_assoc). rewrite bool_decide_false by (by intros [? ?]).
      rewrite (proj2 (Nat.ltb_ge _ _)) by (rewrite !length_app in Hl; rewrite length_app; lia). cbn [orb].
      rewrite app_assoc in *. apply IH; [cbn in Hf; lia|done..].
  - apply Nat.leb_gt in E. assert (0 < HEAD_CHUNK)%nat as Hpos by (unfold HEAD_CHUNK; lia).
    assert (take HEAD_CHUNK c <> []) as Ht by (intros Hx%(f_equal length); rewrite length_take in Hx; cbn in Hx; lia).
    assert (drop HEAD_CHUNK c <> []) as Hd by (intros Hx%(f_equal length); rewrite length_drop in Hx; cbn in Hx; lia).
    set (a := take HEAD_CHUNK c) in *. set (b := drop HEAD_CHUNK c) in *. assert (c = a ++ b) as Ecc by (unfold a, b; by rewrite take_drop).
    destruct a as [|y a'] eqn:Ea; [done|]. rewrite <- Ea in *. clearbody b a.
    assert (buf ++ c ++ concat cuts = (buf ++ a) ++ concat (b :: cuts)) as Ecat by (rewrite Ecc; cbn [concat]; by rewrite <- !app_assoc).
    assert (concat (b :: cuts) <> []) as Hcc by (by destruct b).
    rewrite Ecat in Hh, Hl. rewrite (head_incomplete _ (buf ++ a) _ Hh eq_refl Hcc). rewrite bool_decide_false by (by intros [? ?]).
    rewrite (proj2 (Nat.ltb_ge _ _)) by (rewrite length_app in Hl; lia). cbn [orb]. rewrite Ecat.
    apply (IH (buf ++ a) (b :: cuts)); [|done..|by constructor|done].
    rewrite Ecc, Ea, length_app in Hf. cbn [concat length] in *. rewrite length_app. cbn in Hf. lia.
Qed.

Lemma pieces_weight cuts more : (length (concat cuts) < S (weight (pieces cuts ++ more)))%nat.
Proof. induction cuts as [|c cuts IH]; cbn [concat pieces fmap list_fmap app weight length]; [lia|]. rewrite length_app. unfold pieces in IH. lia. Qed.

(** ** The upgrade, end to end *)
Lemma position_app (p : Z -> bool) (l y : bytes) b : Forall (fun b => p b = false) l -> p b = true -> position p (l ++ b :: y) = Some (length l).
Proof. intros Hl Hb. induction Hl as [|x l Hx _ IH]; cbn [app position]; [by rewrite Hb|]. by rewrite Hx, IH. Qed.

Lemma token_ascii l : Forall (fun c => graphic c = true) l -> ascii_text l.
Proof. intros H. eapply Forall_impl; [exact H|]. intros c Hc. unfold graphic in Hc. lia. Qed.

Lemma graphic_no_cr l : Forall (fun c => graphic c = true) l -> (CR ∉ l) /\ (LF ∉ l).
Proof. intros H. rewrite Forall_forall in H. split; intros Hin; by specialize (H _ Hin). Qed.

Definition token_text (l : bytes) : Prop := l <> [] /\ Forall (fun c => graphic c = true) l.

Lemma trim_token l : token_text l -> str_trim l = l /\ str_trim (32 :: l) = l.
Proof.
  intros [Hne Hg]. destruct l as [|b l]; [done|]. destruct (last (b :: l)) as [c|] eqn:El; [|by apply last_None in El]. rewrite Forall_forall in Hg.
  assert (graphic b = true) by (apply Hg; by left). assert (graphic c = true) by (by apply Hg, last_Some_elem_of).
  split; [by eapply str_trim_graphic|by eapply str_trim_space].
Qed.

(** [Name: value] is read as it is meant. *)
Lemma header_line_printed name value : token_text name -> COLON ∉ name -> token_text value ->
  header_line (name ++ COLON :: 32 :: value) = Some (to_ascii_lowercase <$> name, value).
Proof.
  intros Hn Hc Hv. unfold header_line. destruct (graphic_no_cr name) as [Hn1 _]; [apply Hn|]. destruct (graphic_no_cr value) as [Hv1 _]; [apply Hv|].
  rewrite without_cr_plain by (rewrite elem_of_app, !elem_of_cons; intros [|[|[|]]]; done).
  rewrite position_app by (done || apply Forall_forall; intros b Hb; apply Z.eqb_neq; congruence). cbn [mbind option_bind].
  rewrite take_app_length. replace (drop (S (length name)) (name ++ COLON :: 32 :: value)) with (32 :: value) by (by rewrite <- Nat.add_1_r, <- drop_drop, drop_app_length).
  rewrite (from_utf8_lossy_ascii name) by (apply token_ascii, Hn).
  rewrite (from_utf8_lossy_ascii (32 :: value)) by (apply Forall_cons_2; [lia|apply token_ascii, Hv]).
  destruct (trim_token name Hn) as [-> _]. destruct (trim_token value Hv) as [_ ->]. rewrite bool_decide_false; [done|]. by destruct Hn as [? _], name.
Qed.

Definition reserved : list bytes := [bs "upgrade"; bs "connection"; bs "x-tailscale-handshake"].
Definition other_line (l : bytes) : Prop := plain_line l /\ forall k v, header_line l = Some (k, v) -> k ∉ reserved.

Lemma header_skips m p pre tail name : Forall other_line pre -> to_ascii_lowercase <$> name ∈ reserved ->
  header name (mkHead m p (omap header_line (pre ++ tail))) = header name (mkHead m p (omap header_line tail)).
Proof.
  intros Hpre Hn. unfold header. cbn [h_headers]. f_equal. induction Hpre as [|l pre [_ Hl] _ IH]; [done|]. cbn [app omap list_omap].
  destruct (header_line l) as [[k v]|] eqn:E; [|done]. cbn [List.find fst]. specialize (Hl k v eq_refl).
  rewrite (proj2 (bytes_eqb_neq _ _)); [done|]. intros ->. done.
Qed.

(** The request of a client whose first message is [x]. *)
Definition upgrade_lines (x : bytes) : list bytes :=
  [bs "Upgrade: " ++ UPGRADE_VALUE; bs "Connection: Upgrade"; bs "X-Tailscale-Handshake: " ++ base64 x].
Definition upgrade_request (pre : list bytes) (x : bytes) : bytes :=
  block (bs "POST /ts2021 HTTP/1.1" :: pre ++ upgrade_lines x) ++ CRLF.

Section upgraded.
Context (x : bytes) (pre : list bytes) (Hx : bytes_ok x) (Hxn : x <> []) (Hpre : Forall other_line pre).

Lemma token_base64 : token_text (base64 x).
Proof using Hx Hxn. destruct (base64_shape x Hx Hxn) as (_ & Hg & Hn). done. Qed.

Lemma upgrade_lines_read : omap header_line (upgrade_lines x) =
  [(bs "upgrade", UPGRADE_VALUE); (bs "connection", bs "Upgrade"); (bs "x-tailscale-handshake", base64 x)].
Proof using Hx Hxn.
  unfold upgrade_lines. cbn [omap list_omap].
  change (header_line (bs "Upgrade: " ++ UPGRADE_VALUE)) with (Some (bs "upgrade", UPGRADE_VALUE)). change (header_line (bs "Connection: Upgrade")) with (Some (bs "connection", bs "Upgrade")).
  change (bs "X-Tailscale-Handshake: " ++ base64 x) with (bs "X-Tailscale-Handshake" ++ COLON :: 32 :: base64 x).
  rewrite header_line_printed; [done| | |apply token_base64].
  - split; [done|]. by repeat constructor.
  - intros H. apply list_elem_of_In in H. vm_compute in H. repeat (destruct H as [H|H]; [discriminate H|]). done.
Qed.

Lemma upgrade_lines_plain : Forall plain_line (upgrade_lines x).
Proof using Hx Hxn.
  assert (forallb printable (base64 x) = true) as Hb.
  { apply forallb_forall. intros c Hc%list_elem_of_In. destruct token_base64 as [_ Hg]. rewrite Forall_forall in Hg. specialize (Hg c Hc). unfold graphic, printable, CR, LF in *. lia. }
  apply Forall_cons_2, Forall_cons_2, Forall_cons_2, Forall_nil_2; apply printable_plain; [done..|done|]. rewrite forallb_app, Hb. done.
Qed.

Lemma upgrade_head extra : parse_head (upgrade_request pre x ++ extra) =
  Some (mkHead (bs "POST") (bs "/ts2021") (omap header_line (pre ++ upgrade_lines x))).
Proof using Hx Hxn Hpre.
  unfold upgrade_request. rewrite <- app_assoc. apply (parse_head_lines (bs "POST /ts2021 HTTP/1.1") (pre ++ upgrade_lines x) extra (bs "POST") (bs "/ts2021") [bs "HTTP/1.1"]); [by apply printable_plain| |done|by repeat constructor].
  apply Forall_app. split; [|apply upgrade_lines_plain]. eapply Forall_impl; [exact Hpre|]. by intros l [? _].
Qed.

Lemma upgrade_understood : let h := mkHead (bs "POST") (bs "/ts2021") (omap header_line (pre ++ upgrade_lines x)) in
  upgrade_asked h = true /\ initiation h = x.
Proof using Hx Hxn Hpre.
  cbn zeta. unfold upgrade_asked, initiation, header_has_token, HANDSHAKE_HEADER.
  rewrite !header_skips by (done || (unfold reserved; set_solver)). unfold header. cbn [h_headers]. rewrite upgrade_lines_read.
  split; [done|]. change (snd <$> List.find _ _) with (Some (base64 x)). cbn [mbind option_bind]. by rewrite handshake_roundtrip.
Qed.
End upgraded.

(** ** The echo *)
Lemma echo_records_spec fuel : forall acc c, bytes_ok acc -> (length acc < fuel)%nat ->
  exists rest c', echo_records fuel acc c = Some (rest, c') /\
    match rest with
    | Some acc' => exists out, acc = out ++ acc' /\ wire c' = wire c ++ out
    | None => exists p, p `prefix_of` acc /\ wire c' = wire c ++ p
    end.
Proof.
  induction fuel as [|f IH]; intros acc c Hok Hf; [lia|]. cbn [echo_records]. destruct (record_deframe acc) as [[payload used]|] eqn:E.
  2:{ eexists _, _. split; [done|]. exists []. by rewrite app_nil_r. }
  destruct (deframe_is_frame _ _ _ Hok E) as (fr & rest & Hfr & -> & ->). rewrite Hfr. destruct (write_all fr c) as [[u|e] c1] eqn:Ew.
  - apply write_all_Ok in Ew as [_ ->]. rewrite drop_app_length. apply Forall_app in Hok as [_ Hok].
    destruct (IH rest (Sink (wire c ++ fr) (room c - length fr) (flushes c)) Hok) as (r & c' & -> & H).
    { destruct (record_frame_Some _ _ Hfr) as (_ & _ & Hl). unfold RECORD_HEADER_LEN in Hl. rewrite length_app in Hf. lia. }
    eexists _, _. split; [done|]. destruct r as [acc'|].
    + destruct H as (out & -> & Hw). exists (fr ++ out). rewrite Hw. cbn. by rewrite <- !app_assoc.
    + destruct H as (p & Hp & Hw). exists (fr ++ p). rewrite Hw. cbn. rewrite <- app_assoc. split; [by apply prefix_app|done].
  - apply write_all_wire in Ew as (p & Hp & Hw). eexists _, _. split; [done|]. exists p. split; [by apply prefix_app_r|done].
Qed.

(** What is echoed is a prefix of what came, and the echo ends. *)
Lemma echo_loop_spec fuel : forall acc s, bytes_ok (acc ++ arrived (s_rx s)) -> (weight (s_rx s) < fuel)%nat ->
  exists s', echo_loop fuel acc s = Some s' /\ exists p, p `prefix_of` acc ++ arrived (s_rx s) /\ wire (s_tx s') = wire (s_tx s) ++ p.
Proof.
  induction fuel as [|f IH]; intros acc s Hok Hf; [lia|]. cbn [echo_loop].
  assert (forall rx, exists s', Some (mkSocket rx (s_tx s)) = Some s' /\ exists p, p `prefix_of` acc ++ arrived (s_rx s) /\ wire (s_tx s') = wire (s_tx s) ++ p) as Hstop.
  { intros rx. eexists. split; [done|]. exists []. split; [apply prefix_nil|by rewrite app_nil_r]. }
  destruct (read MAX_MESSAGE_SIZE (s_rx s)) as [[got|e] rx] eqn:E; [|apply Hstop]. destruct (decide (got = [])) as [->|Hg]; [apply Hstop|].
  destruct got as [|x got]; [done|]. apply read_spec in E as (Ha & _ & Hw & _); [|unfold MAX_MESSAGE_SIZE; lia]. set (g := x :: got) in *.
  destruct (MAX_MESSAGE_SIZE <? length (acc ++ g))%nat; [apply Hstop|]. rewrite Ha, app_assoc in Hok |- *. pose proof Hok as Hok'. apply Forall_app in Hok' as [Hag _].
  destruct (echo_records_spec (S (length (acc ++ g))) (acc ++ g) (s_tx s) Hag ltac:(lia)) as (rest & c' & -> & H). cbn [mbind option_bind]. destruct rest as [acc2|].
  - destruct H as (out & Eo & Hc). rewrite Eo, <- app_assoc in Hok |- *. apply Forall_app in Hok as [_ Hok].
    destruct (IH acc2 (mkSocket rx c')) as (s' & -> & p & Hp & Hs); [done|cbn [s_rx]; lia|]. eexists. split; [done|]. exists (out ++ p). cbn in Hs.
    rewrite Hs, Hc, <- app_assoc. split; [by apply prefix_app|done].
  - destruct H as (p & Hp & Hc). eexists. split; [done|]. exists p. split; [by apply prefix_app_r|done].
Qed.

Lemma record_echo_spec s : bytes_ok (arrived (s_rx s)) ->
  exists s', record_echo s = Some s' /\ exists p, p `prefix_of` arrived (s_rx s) /\ wire (s_tx s') = wire (s_tx s) ++ p.
Proof. intros H. apply (echo_loop_spec _ [] s); [done|lia]. Qed.

(** ** The front door *)
Definition rx_ok (rx : list read_ev) : Prop := Forall (fun e => match e with Data b => bytes_ok b | Fault _ => True end) rx.

Lemma read_ok n rx r rx' : read n rx = (r, rx') -> rx_ok rx -> rx_ok rx'.
Proof.
  unfold rx_ok. destruct rx as [|[b|e] rx]; cbn [read]; [by intros [= <- <-]| |intros [= <- <-]; by inversion 1].
  destruct (_ <=? _)%nat; intros [= <- <-]; rewrite !Forall_cons; [tauto|]. intros [Hb ?]. split; [by apply Forall_drop|done].
Qed.

Lemma arrived_ok rx : rx_ok rx -> bytes_ok (arrived rx).
Proof.
  unfold rx_ok. induction 1 as [|[b|e] rx Hb _ IH]; cbn [arrived]; [apply Forall_nil_2| |apply Forall_nil_2]. destruct b as [|x b]; [apply Forall_nil_2|]. by apply Forall_app_2.
Qed.

Lemma read_head_total fuel : forall buf rx, rx_ok rx -> (weight rx < fuel)%nat -> exists r rx', read_head_loop fuel buf rx = Some (r, rx') /\ rx_ok rx'.
Proof.
  induction fuel as [|f IH]; intros buf rx Hok Hf; [lia|]. cbn [read_head_loop]. destruct (read HEAD_CHUNK rx) as [r rx'] eqn:E. pose proof (read_ok _ _ _ _ E Hok) as Hok'.
  destruct r as [[|x got]|e]; [by eauto| |by eauto]. apply read_spec in E as (_ & _ & Hw & _); [|unfold HEAD_CHUNK; lia].
  destruct (_ || _); [by eauto|]. apply IH; [done|lia].
Qed.

Section front_door.
Context (env : string -> option bytes) (dial : bytes -> option Socket) (client_cloned upstream_cloned : bool).

Local Abbreviation handle_ := (handle env dial client_cloned upstream_cloned).

(** What a client that is not upgraded may be sent. *)
Definition answers : list bytes :=
  [BAD_REQUEST; METHOD_NOT_ALLOWED; NOT_FOUND; upgrade_required; simple_response 200 "OK" "application/json" (key_json env)].

Lemma reply_wire b s : exists p, p `prefix_of` b /\ wire (s_tx (reply b s)) = wire (s_tx s) ++ p.
Proof using. unfold reply. destruct (write_all b (s_tx s)) as [r c] eqn:E. by apply write_all_wire in E. Qed.

(** The configured responder. *)
Definition responder : option bytes := a ← env "DRORB_CONTROL_RESPONDER"; if bool_decide (str_trim a = []) then None else Some (str_trim a).

Lemma drive_total s init : rx_ok (s_rx s) -> exists s' up, drive_controlbase env dial client_cloned upstream_cloned s init [] = Some (s', up, option_list responder) /\
  exists p, wire (s_tx s') = wire (s_tx s) ++ p.
Proof using.
  intros Hok. unfold drive_controlbase. assert (option_list responder = let addr := from_option str_trim [] (env "DRORB_CONTROL_RESPONDER") in if bool_decide (addr = []) then [] else [addr]) as ->.
  { unfold responder. destruct (env _) as [a|]; cbn [mbind option_bind from_option]; [|done]. by case_bool_decide. }
  cbv zeta. case_bool_decide.
  { destruct (record_echo_spec s (arrived_ok _ Hok)) as (s' & -> & p & _ & Hw). eexists _, _. split; [done|by exists p]. }
  unfold connect. cbn [app]. destruct (dial _) as [u|]; [|eexists _, _; split; [done|]; exists []; by rewrite app_nil_r].
  destruct (if bool_decide (init = []) then _ else _) as [[[]|e] c]; [|eexists _, _; split; [done|]; exists []; by rewrite app_nil_r].
  unfold pump. destruct client_cloned; cbn [negb]; [|eexists _, _; split; [done|]; exists []; by rewrite app_nil_r].
  destruct upstream_cloned; cbn [negb]; [|eexists _, _; split; [done|]; exists []; by rewrite app_nil_r].
  cbn [s_rx s_tx]. destruct (copy_spec (s_rx s) c) as (crx & utx & -> & _). cbn [mbind option_bind].
  destruct (copy_spec (s_rx u) (s_tx s)) as (urx & ctx & -> & p & _ & Hw & _). cbn [mbind option_bind]. eexists _, _. split; [done|]. by exists p.
Qed.

Definition upgrade_in (rx : list read_ev) : Prop := exists buf rx' h, read_head rx = Some (Ok buf, rx') /\ parse_head buf = Some h /\
  h_method h = bs "POST" /\ h_path h = bs "/ts2021" /\ upgrade_asked h = true.

(** The connection ends, having been sent a part of one answer and nothing
    dialled; or it asked for the upgrade and was sent the 101 first, and the
    responder was dialled once the 101 was out. *)
Definition answered (s : Socket) (r : option (Socket * option Socket * Dials)) : Prop :=
  exists s' up dials out, r = Some (s', up, dials) /\ wire (s_tx s') = wire (s_tx s) ++ out /\
    ((up = None /\ dials = [] /\ exists a, a ∈ answers /\ out `prefix_of` a) \/
     (upgrade_in (s_rx s) /\ ((up = None /\ dials = [] /\ out `prefix_of` switching_protocols) \/ (dials = option_list responder /\ switching_protocols `prefix_of` out)))).

Lemma answered_reply s rx b : b ∈ answers -> answered s (Some (reply b (mkSocket rx (s_tx s)), None, [])).
Proof using.
  intros Hb. destruct (reply_wire b (mkSocket rx (s_tx s))) as (p & Hp & Hw). exists (reply b (mkSocket rx (s_tx s))), None, [], p. split_and!; [done|done|]. left. eauto.
Qed.

Lemma handle_total s : rx_ok (s_rx s) -> answered s (handle_ s []).
Proof using.
  intros Hok. unfold handle. destruct (read_head_total (S (weight (s_rx s))) [] (s_rx s) Hok ltac:(lia)) as (r & rx & E & Hrx). fold (read_head (s_rx s)) in E. rewrite E. cbn [mbind option_bind].
  assert (answered s (Some (mkSocket rx (s_tx s), None, []))) as Hnone.
  { exists (mkSocket rx (s_tx s)), None, [], []. split_and!; [done|by rewrite app_nil_r|]. left. split; [done|]. split; [done|]. exists BAD_REQUEST. split; [by left|apply prefix_nil]. }
  destruct r as [[|x buf]|e]; [exact Hnone| |exact Hnone]. set (b := x :: buf) in *. destruct (parse_head b) as [h|] eqn:Ep; [|by apply answered_reply; left].
  unfold route. destruct (bytes_eqb (h_method h) (bs "GET") && _); [apply answered_reply; unfold answers; set_solver|].
  destruct (bytes_eqb (h_method h) (bs "POST") && _) eqn:Er; [|destruct (_ || _); apply answered_reply; unfold answers; set_solver].
  rewrite andb_true_iff, !bytes_eqb_eq in Er. destruct Er as [Em Epath]. destruct (upgrade_asked h) eqn:Eu; [|apply answered_reply; unfold answers; set_solver].
  assert (upgrade_in (s_rx s)) as Hup by (by exists b, rx, h). cbn [s_tx s_rx]. destruct (write_all switching_protocols (s_tx s)) as [[u|e] c] eqn:Ew.
  - apply write_all_Ok in Ew as [_ ->]. destruct (flush _) as [fr c1] eqn:Ef. apply flush_wire in Ef as [Hw _]. cbn in Hw.
    destruct (drive_total (mkSocket rx c1) (initiation h) Hrx) as (s' & up & Ed & p & Hp). cbn [s_tx] in Hp.
    exists s', up, (option_list responder), (switching_protocols ++ p). cbn [snd]. rewrite Ed, Hp, Hw, <- app_assoc. split_and!; [done|done|]. right. split; [done|]. right. split; [done|]. by apply prefix_app_r.
  - apply write_all_wire in Ew as (p & Hp & Hw). exists (mkSocket rx c), None, [], p. split_and!; [done|done|]. right. auto.
Qed.

Lemma upgrade_request_head pre x : bytes_ok x -> x <> [] -> Forall other_line pre -> head_at_end (upgrade_request pre x).
Proof using.
  intros Hx Hn Hpre. unfold upgrade_request. set (ls := _ :: _). assert (Forall line_ok ls) as Hls.
  { eapply Forall_impl, plain_line_ok. apply Forall_cons_2; [by apply printable_plain|]. apply Forall_app_2; [|by apply upgrade_lines_plain].
    eapply Forall_impl; [exact Hpre|]. by intros l [? _]. }
  pose proof (block_head ls [] Hls ltac:(done)) as H. rewrite app_nil_r in H. unfold head_end in H. unfold head_at_end. rewrite length_app. change (length CRLF) with 2%nat.
  destruct (windows_position CRLFCRLF _) as [p|]; [|done]. change ((p + 4)%nat) with (p + 4)%nat in H. apply (inj Some) in H.
  assert (2 <= length (block ls))%nat by (unfold ls, block; cbn [fmap list_fmap concat]; rewrite !length_app; change (length CRLF) with 2%nat; lia).
  split; [f_equal; lia|lia].
Qed.

(** However the head is cut, as long as a cut falls behind it. *)
Lemma upgrade_read x pre cuts more : bytes_ok x -> x <> [] -> Forall other_line pre ->
  concat cuts = upgrade_request pre x -> Forall (fun b => b <> []) cuts -> (length (upgrade_request pre x) <= HEAD_CAP)%nat ->
  read_head (pieces cuts ++ more) = Some (Ok (upgrade_request pre x ++ []), more).
Proof using.
  intros Hx Hn Hpre Hcat Hcuts Hlen. pose proof (upgrade_request_head pre x Hx Hn Hpre) as Hh.
  assert (upgrade_request pre x <> []) as Hreq by (destruct Hh as [_ Hh]; intros Hx0; rewrite Hx0 in Hh; cbn in Hh; lia).
  assert (cuts <> []) as Hcn by (intros ->; by symmetry in Hcat).
  rewrite app_nil_r, <- Hcat in *. unfold read_head. by rewrite read_head_exact by (done || apply pieces_weight).
Qed.

Lemma copied_all up c c' : copied up c c' -> (length (readable up) <= room c)%nat -> wire c' = wire c ++ readable up.
Proof using. intros (p & _ & -> & Hp) Hl. by rewrite Hp. Qed.

Lemma upgrade_carries x pre rx extra more c addr u0 : bytes_ok x -> x <> [] -> Forall other_line pre ->
  read_head rx = Some (Ok (upgrade_request pre x ++ extra), more) ->
  responder = Some addr -> dial addr = Some u0 -> client_cloned = true -> upstream_cloned = true ->
  (length switching_protocols + length (readable (s_rx u0)) <= room c)%nat -> (length x + length (readable more) <= room (s_tx u0))%nat ->
  exists cl u, handle_ (mkSocket rx c) [] = Some (cl, Some u, [addr]) /\
    wire (s_tx u) = wire (s_tx u0) ++ x ++ readable more /\ wire (s_tx cl) = wire c ++ switching_protocols ++ readable (s_rx u0).
Proof using.
  intros Hx Hn Hpre Hread Haddr Hdial Hcc Huc Hroom Hroomu. unfold handle. cbn [s_rx]. rewrite Hread. cbn [mbind option_bind].
  pose proof (upgrade_head x pre Hx Hn Hpre extra) as Hp. destruct (upgrade_request pre x ++ extra) as [|y req]; [done|]. rewrite Hp. cbn [s_tx]. clear Hp Hread.
  destruct (upgrade_understood x pre Hx Hn Hpre) as [Hask Hinit]. set (h := mkHead _ _ _) in *.
  unfold route. change (bytes_eqb (h_method h) (bs "GET")) with false. change (bytes_eqb (h_method h) (bs "POST")) with true. change (bytes_eqb (h_path h) (bs "/ts2021")) with true.
  cbn [andb s_tx s_rx]. rewrite Hask, write_all_ok by lia. destruct (flush _) as [fr c1] eqn:Ef. apply flush_wire in Ef as [Hw Hr]. cbn [wire room] in Hw, Hr. cbn [snd].
  rewrite Hinit. unfold drive_controlbase. unfold responder in Haddr. destruct (env "DRORB_CONTROL_RESPONDER") as [a|]; [|done]. cbn [mbind option_bind from_option] in *.
  case_bool_decide; [done|]. injection Haddr as ->. unfold connect. cbn [app]. rewrite Hdial, bool_decide_false, write_all_ok by (done || lia).
  unfold pump. rewrite Hcc, Huc. cbn [negb s_rx s_tx]. destruct (copy_spec more (Sink (wire (s_tx u0) ++ x) (room (s_tx u0) - length x) (flushes (s_tx u0)))) as (crx & utx & -> & H1). cbn [mbind option_bind].
  destruct (copy_spec (s_rx u0) c1) as (urx & ctx & -> & H2). cbn [mbind option_bind]. eexists _, _. split; [done|]. cbn [s_tx].
  apply copied_all in H1; [|cbn [room]; lia]. apply copied_all in H2; [|lia]. rewrite H1, H2, Hw. cbn [wire]. by rewrite <- !app_assoc.
Qed.

(** C20. The control front door. Every connection is finished without a panic,
    whatever the client sends and however it is cut: a client is sent at most
    one of five answers with nothing dialled; only a request to [POST /ts2021]
    that asks for the upgrade is sent the 101, and only once that is out is the
    configured responder dialled, once. And an upgrade works: whatever other
    header fields it carries, the responder receives exactly the message the
    client encoded in the header, then what comes in the reads after those of
    the head, and the client receives the 101, then all the responder sends.
    What comes in the same read as the end of the head is dropped; the head
    may be cut into reads in any way, with nothing dropped when a cut falls
    behind it. *)
Theorem control_front_door :
  (forall s, rx_ok (s_rx s) -> answered s (handle_ s [])) /\
  (forall x pre rx extra more c addr u0, bytes_ok x -> x <> [] -> Forall other_line pre ->
    read_head rx = Some (Ok (upgrade_request pre x ++ extra), more) ->
    responder = Some addr -> dial addr = Some u0 -> client_cloned = true -> upstream_cloned = true ->
    (length switching_protocols + length (readable (s_rx u0)) <= room c)%nat -> (length x + length (readable more) <= room (s_tx u0))%nat ->
    exists cl u, handle_ (mkSocket rx c) [] = Some (cl, Some u, [addr]) /\
      wire (s_tx u) = wire (s_tx u0) ++ x ++ readable more /\
      wire (s_tx cl) = wire c ++ switching_protocols ++ readable (s_rx u0)) /\
  (forall x pre cuts more, bytes_ok x -> x <> [] -> Forall other_line pre ->
    concat cuts = upgrade_request pre x -> Forall (fun b => b <> []) cuts -> (length (upgrade_request pre x) <= HEAD_CAP)%nat ->
    read_head (pieces cuts ++ more) = Some (Ok (upgrade_request pre x ++ []), more)).
Proof using. split_and!; [apply handle_total|intros *; apply upgrade_carries|intros *; apply upgrade_read]. Qed.
End front_door.

(** ** Examples *)
Module DemoControl.
Definition initiation_frame : bytes := [0; 39; 1; 0; 96; 255; 254; 0; 17; 3].
Definition upgrade (token : bytes) : bytes :=
  bs "POST /ts2021?v=1 HTTP/1.1" ++ CRLF ++ bs "Host: h" ++ CRLF ++ bs "Upgrade: Tailscale-Control-Protocol" ++ CRLF ++
  bs "Connection: keep-alive, Upgrade" ++ CRLF ++ bs "x-tailscale-handshake:  " ++ token ++ CRLFCRLF.
Definition client (b : list bytes) : Socket := mkSocket (Data <$> b) (Sink [] 4096 []).
Definition no_env (_ : string) : option bytes := None.
Definition responder_env (k : string) : option bytes := if String.eqb k "DRORB_CONTROL_RESPONDER" then Some (bs " coord:1 ") else None.
Definition coord (a : bytes) : option Socket := if bytes_eqb a (bs "coord:1") then Some (mkSocket [Data (bs "resp")] (Sink [] 4096 [])) else None.
End DemoControl.
Import DemoControl.

Lemma control_front_door_witness :
  exists cl u, handle responder_env coord true true (mkSocket (pieces [upgrade_request [bs "Host: h"] initiation_frame] ++ [Data (bs "next")]) (Sink [] 4096 [])) [] = Some (cl, Some u, [bs "coord:1"]) /\
    wire (s_tx u) = initiation_frame ++ bs "next" /\ wire (s_tx cl) = switching_protocols ++ bs "resp".
Proof.
  assert (bytes_ok initiation_frame) as Hx by (unfold initiation_frame, bytes_ok, byte_ok; repeat (apply Forall_cons_2; [lia|]); apply Forall_nil_2).
  assert (Forall other_line [bs "Host: h"]) as Hpre.
  { apply Forall_cons_2; [|apply Forall_nil_2]. split; [apply printable_plain; [discriminate|vm_compute; reflexivity]|].
    intros k v E. vm_compute in E. injection E as <- <-. intros Hin%list_elem_of_In. vm_compute in Hin. repeat (destruct Hin as [Hin|Hin]; [discriminate Hin|]). destruct Hin. }
  destruct (control_front_door responder_env coord true true) as (_ & H & Hr).
  eapply (H initiation_frame [bs "Host: h"] _ [] [Data (bs "next")] (Sink [] 4096 []) (bs "coord:1") (mkSocket [Data (bs "resp")] (Sink [] 4096 [])));
    [exact Hx|discriminate|exact Hpre| |vm_compute; reflexivity|vm_compute; reflexivity|reflexivity|reflexivity|apply Nat.leb_le; vm_compute; reflexivity|apply Nat.leb_le; vm_compute; reflexivity].
  apply Hr; [exact Hx|discriminate|exact Hpre|apply app_nil_r|apply Forall_cons_2; [discriminate|apply Forall_nil_2]|apply Nat.leb_le; vm_compute; reflexivity].
Defined.

Example decode_examples :
  b64_decode (bs "aGVsbG8=") = Some (bs "hello") /\ b64_decode (bs "aGVsbG8") = None /\ b64_decode (bs "aG=sbG8=") = None /\ b64_decode (bs "====") = None.
Proof. vm_compute. done. Qed.

Example upgrade_reaches_responder :
  option_map (fun '(c, u, _) => (wire (s_tx c), option_map (fun u => wire (s_tx u)) u)) (handle responder_env coord true true (client [upgrade (base64 initiation_frame); bs "next"]) [])
  = Some (switching_protocols ++ bs "resp", Some (initiation_frame ++ bs "next")).
Proof. vm_compute. reflexivity. Qed.

Example key_route :
  option_map (fun '(c, _, _) => starts_with (bs "HTTP/1.1 200 OK") (wire (s_tx c))) (handle no_env (fun _ => None) true true (client [bs "GET /key?v=90 HTTP/1.1" ++ CRLFCRLF]) []) = Some true.
Proof. vm_compute. reflexivity. Qed.

(** What comes in one read with the end of the head does not reach the
    responder. *)
Example surplus_is_dropped :
  option_map (fun '(_, u, _) => option_map (fun u => wire (s_tx u)) u) (handle responder_env coord true true (client [upgrade (base64 initiation_frame) ++ bs "first"; bs "next"]) [])
  = Some (Some (initiation_frame ++ bs "next")).
Proof. vm_compute. reflexivity. Qed.

(** ** Runs behind the findings

    Two records of 3000 bytes are echoed when each arrives in a read of its own,
    and the connection is cut when the second read brings the end of the first
    and all of the second. *)
Definition sealed : bytes := replicate (Z.to_nat 3000) 7.
Definition two_records : bytes := match record_frame sealed with Some f => f ++ f | None => [] end.
Definition echoed (cuts : list bytes) : option nat :=
  option_map (fun s => length (wire (s_tx s))) (record_echo (mkSocket (Data <$> cuts) (Sink [] (Z.to_nat 10000) []))).

Example echo_depends_on_reads :
  option_map Z.of_nat (echoed [take (Z.to_nat 3003) two_records; drop (Z.to_nat 3003) two_records]) = Some 6006 /\
  option_map Z.of_nat (echoed [take (Z.to_nat 3000) two_records; drop (Z.to_nat 3000) two_records]) = Some 0.
Proof. vm_compute. done. Qed.
