(* ===== verification/AccessLog.v ===== *)
(** * The access log ([access_log.rs])

    One line per request: the request line as it is captured, the status of a
    response, the time, and the lines as they are written, for plain and for
    TLS connections ([tls.rs], [obs]). Where the lines go and the clock are not
    modelled; a line is a function of the time and of the elapsed
    microseconds. *)
From S2P Require Import Prelude Bytes Text Standing Renewal.

Local Open Scope Z_scope.

Definition SPACE : Z := 32.

(** ** Fields *)

(** [str::chars], each as its bytes. *)
Fixpoint chars_from (fuel : nat) (l : bytes) : list bytes :=
  match fuel, l with
  | S f, _ :: _ => let n := (utf8_head l).2 in take n l :: chars_from f (drop n l)
  | _, _ => []
  end.
Definition chars (l : bytes) : list bytes := chars_from (length l) l.

(** [char::is_control]: general category Cc. *)
Definition is_control (c : bytes) : bool :=
  match c with
  | [b] => (b <? 32) || (b =? 127)
  | [b; d] => (b =? 0xC2) && between 0x80 0x9F d
  | _ => false
  end.

Definition FIELD_MAX : nat := Z.to_nat 2048.
Definition ELLIPSIS : bytes := [0xE2; 0x80; 0xA6].
Definition UNDERSCORE : bytes := [95].
Definition DASH : bytes := [45].

Definition clean (c : bytes) : bytes := if is_control c || bytes_eqb c [SPACE] then UNDERSCORE else c.

Definition sanitize (s : bytes) : bytes :=
  concat (clean <$> take FIELD_MAX (chars s)) ++ (if (FIELD_MAX <? length (chars s))%nat then ELLIPSIS else []).

Record ReqLine := mkReqLine { rl_method : bytes; rl_path : bytes }.

Definition dec_field (o : option bytes) : bytes :=
  match o with Some s => if utf8_valid s then sanitize s else DASH | None => DASH end.

Definition ReqLine_parse (req : bytes) : ReqLine :=
  let line := default [] (head (split_on (fun b => b =? LF) req)) in
  let line := default line (strip_suffix [CR] line) in
  let it := List.filter (fun s => negb (bool_decide (s = []))) (split_on (fun b => b =? SPACE) line) in
  mkReqLine (dec_field (head it)) (dec_field (head (tail it))).

Definition status_of (resp : bytes) : bytes :=
  let h := default resp (head (split_on (fun b => b =? CR) resp)) in
  match position (fun b => b =? SPACE) h with
  | Some sp =>
      let after := drop (S sp) h in
      let code := default after (head (split_on (fun b => b =? SPACE) after)) in
      if (length code =? 3)%nat && forallb is_digit code then code else DASH
  | None => DASH
  end.

(** ** The clock *)

(** Hinnant's inverse; divisions truncate. *)
Definition civil_from_days (z : Z) : Z * Z * Z :=
  let z := z + 719468 in
  let era := Z.quot (if 0 <=? z then z else z - 146096) 146097 in
  let doe := z - era * 146097 in
  let yoe := Z.quot (doe - Z.quot doe 1460 + Z.quot doe 36524 - Z.quot doe 146096) 365 in
  let y := yoe + era * 400 in
  let doy := doe - (365 * yoe + Z.quot yoe 4 - Z.quot yoe 100) in
  let mp := Z.quot (5 * doy + 2) 153 in
  let d := doy - Z.quot (153 * mp + 2) 5 + 1 in
  let m := if mp <? 10 then mp + 3 else mp - 9 in
  (y + (if m <=? 2 then 1 else 0), m, d).

(** [{n:0w}]. *)
Definition padded (w : nat) (n : Z) : bytes := replicate (w - length (to_dec n)) 48 ++ to_dec n.

Definition iso8601 (secs micros : Z) : bytes :=
  let '(y, m, d) := civil_from_days (secs / 86400) in
  let sod := secs mod 86400 in
  padded 4 y ++ bs "-" ++ padded 2 m ++ bs "-" ++ padded 2 d ++ bs "T" ++ padded 2 (sod / 3600) ++ bs ":" ++ padded 2 (sod mod 3600 / 60) ++
  bs ":" ++ padded 2 (sod mod 60) ++ bs "." ++ padded 6 micros ++ bs "Z".

(** ** Addresses in text: [Display] of [IpAddr] *)
Definition hex_char (d : Z) : Z := if d <? 10 then 48 + d else 87 + d.

Fixpoint hex_digits (fuel : nat) (n : Z) : bytes :=
  match fuel with
  | O => []
  | S f => (if n <? 16 then [] else hex_digits f (n / 16)) ++ [hex_char (n mod 16)]
  end.
Definition to_hex (n : Z) : bytes := hex_digits (S (Z.to_nat (Z.log2 n))) n.

Fixpoint join (sep : bytes) (l : list bytes) : bytes :=
  match l with [] => [] | [x] => x | x :: l' => x ++ sep ++ join sep l' end.

Definition show_v4 (a : Z) : bytes := join (bs ".") (to_dec <$> to_be_bytes 4 a).

(** The eight groups of an address. *)
Definition segments (a : Z) : list Z := (fun k => Z.shiftr a (16 * k) mod 2 ^ 16) <$> [7; 6; 5; 4; 3; 2; 1; 0].

Record Span := mkSpan { sp_start : nat; sp_len : nat }.

(** The first of the longest runs of zero groups. *)
Fixpoint zero_span (i : nat) (cur longest : Span) (l : list Z) : Span :=
  match l with
  | [] => longest
  | g :: l' =>
      if g =? 0 then
        let cur := mkSpan (if (sp_len cur =? 0)%nat then i else sp_start cur) (S (sp_len cur)) in
        zero_span (S i) cur (if (sp_len longest <? sp_len cur)%nat then cur else longest) l'
      else zero_span (S i) (mkSpan 0 0) longest l'
  end.

Definition show_groups (l : list Z) : bytes := join (bs ":") (to_hex <$> l).

Definition show_v6 (a : Z) : bytes :=
  if Z.shiftr a 32 =? 0xFFFF then bs "::ffff:" ++ show_v4 (a mod 2 ^ 32)
  else
    let gs := segments a in
    let z := zero_span 0 (mkSpan 0 0) (mkSpan 0 0) gs in
    if (1 <? sp_len z)%nat then show_groups (take (sp_start z) gs) ++ bs "::" ++ show_groups (drop (sp_start z + sp_len z) gs)
    else show_groups gs.

Definition show_ip (ip : IpAddr) : bytes := match ip with V4 a => show_v4 a | V6 a => show_v6 a end.

(** ** Lines *)
Definition field (key : string) (value : bytes) : bytes := bs key ++ value.
Definition line_of (fields : list bytes) : bytes := join [SPACE] fields ++ [LF].

Definition log_fields (secs micros : Z) (client : IpAddr) (req : ReqLine) (status : bytes) (nbytes : Z) (backend : option bytes) (dur_us : Z) : list bytes :=
  [field "ts=" (iso8601 secs micros); field "client=" (show_ip client); field "method=" (rl_method req); field "path=" (rl_path req);
   field "status=" status; field "backend=" (default DASH backend); field "bytes=" (to_dec nbytes); field "dur_us=" (to_dec dur_us)].

Definition log_streamed (secs micros : Z) (client : IpAddr) (req : ReqLine) (head : bytes) (nbytes : Z) (backend : option bytes) (dur_us : Z) : bytes :=
  line_of (log_fields secs micros client req (status_of head) nbytes backend dur_us).

Definition log (secs micros : Z) (client : IpAddr) (req : ReqLine) (resp : bytes) (backend : option bytes) (dur_us : Z) : bytes :=
  log_streamed secs micros client req resp (Z.of_nat (length resp)) backend dur_us.

(** What the handshake settled on ([tls::obs::TlsInfo]). *)
Record TlsInfo := mkTlsInfo { t_sni : bytes; t_alpn : bytes; t_group : Z; t_suite : Z }.

Definition hex4 (n : Z) : bytes := bs "0x" ++ replicate (4 - length (to_hex n)) 48 ++ to_hex n.

Definition group_name (i : TlsInfo) : bytes :=
  if t_group i =? 0x11EC then bs "X25519MLKEM768"
  else if t_group i =? 0x001D then bs "x25519"
  else if t_group i =? 0x0017 then bs "secp256r1"
  else if t_group i =? 0 then DASH
  else hex4 (t_group i).

Definition pq_hybrid (i : TlsInfo) : bool := t_group i =? 0x11EC.

Definition suite_name (i : TlsInfo) : bytes :=
  if t_suite i =? 0x1301 then bs "TLS_AES_128_GCM_SHA256"
  else if t_suite i =? 0x1302 then bs "TLS_AES_256_GCM_SHA384"
  else if t_suite i =? 0x1303 then bs "TLS_CHACHA20_POLY1305_SHA256"
  else if t_suite i =? 0 then DASH
  else hex4 (t_suite i).

Definition dash (s : bytes) : bytes := if bool_decide (s = []) then DASH else sanitize s.
Definition show_bool (b : bool) : bytes := if b then bs "true" else bs "false".

Definition tls_fields (i : TlsInfo) : list bytes :=
  [bs "tls_version=TLSv1.3"; field "tls_cipher=" (suite_name i); field "tls_group=" (group_name i); field "tls_pq=" (show_bool (pq_hybrid i));
   field "tls_sni=" (dash (t_sni i)); field "tls_alpn=" (dash (t_alpn i))].

Definition log_tls_h2 (secs micros : Z) (client : IpAddr) (req : ReqLine) (status : bytes) (nbytes dur_us : Z) (i : TlsInfo) : bytes :=
  line_of (log_fields secs micros client req status nbytes None dur_us ++ tls_fields i).

Definition log_tls (secs micros : Z) (client : IpAddr) (req : ReqLine) (resp : bytes) (dur_us : Z) (i : TlsInfo) : bytes :=
  log_tls_h2 secs micros client req (status_of resp) (Z.of_nat (length resp)) dur_us i.

(** [drorb_h2_obs_req]: the method and the path as the engine reports them. *)
Definition h2_line (method path : bytes) : ReqLine := mkReqLine (from_utf8_lossy method) (from_utf8_lossy path).

Example log_example :
  log 1709294400 42 (V6 (0x20010db8 * 2 ^ 96 + 1)) (ReqLine_parse (bs "GET  /a" ++ [9] ++ bs "b HTTP/1.1" ++ CRLF)) (bs "HTTP/1.1 204 No Content" ++ CRLF) None 7 =
  bs "ts=2024-03-01T12:00:00.000042Z client=2001:db8::1 method=GET path=/a_b status=204 backend=- bytes=25 dur_us=7" ++ [LF].
Proof. vm_compute. reflexivity. Qed.

(** ** Words: what stays one field of one line *)
Definition word_byte (b : Z) : Prop := 33 <= b /\ b <> 127.
Definition word (l : bytes) : Prop := Forall word_byte l.

Definition wordb (l : bytes) : bool := forallb (fun b => (33 <=? b) && negb (b =? 127)) l.

Lemma wordb_word l : wordb l = true -> word l.
Proof. intros H. apply Forall_forall. intros b Hb%list_elem_of_In. unfold wordb in H. rewrite forallb_forall in H. specialize (H b Hb). unfold word_byte. lia. Qed.

Lemma word_app l1 l2 : word l1 -> word l2 -> word (l1 ++ l2).
Proof. apply Forall_app_2. Qed.

Lemma word_digits l : Forall (fun b => 48 <= b <= 57) l -> word l.
Proof. intros H. eapply Forall_impl; [exact H|]. unfold word_byte. lia. Qed.

Lemma word_dec n : word (to_dec n).
Proof. apply word_digits, to_dec_digits. Qed.

Lemma word_padded w n : word (padded w n).
Proof. apply word_app; [|apply word_dec]. apply Forall_replicate. unfold word_byte. lia. Qed.

Lemma word_hex n : word (to_hex n).
Proof.
  unfold to_hex. generalize (S (Z.to_nat (Z.log2 n))) as f. intros f. revert n. induction f as [|f IH]; intros n; [apply Forall_nil_2|]. cbn [hex_digits].
  apply word_app; [case_match; [apply Forall_nil_2|apply IH]|]. apply Forall_cons_2; [|apply Forall_nil_2]. unfold hex_char, word_byte.
  pose proof (Z.mod_pos_bound n 16). case_match; lia.
Qed.

Lemma word_join sep l : word sep -> Forall word l -> word (join sep l).
Proof. intros Hs Hl. induction Hl as [|x l Hx Hl IH]; [apply Forall_nil_2|]. destruct l as [|y l]; [done|]. cbn [join] in *. apply word_app; [done|by apply word_app]. Qed.

Create HintDb words.
Hint Resolve word_app word_dec word_padded word_hex : words.
Hint Extern 1 (word (bs _)) => apply wordb_word; reflexivity : words.
Hint Extern 1 (word DASH) => apply wordb_word; reflexivity : words.

Lemma word_map {A} (f : A -> bytes) l : (forall x, word (f x)) -> Forall word (f <$> l).
Proof. intros H. apply Forall_fmap, Forall_true. done. Qed.

Lemma word_v4 a : word (show_v4 a).
Proof. apply word_join; [auto with words|apply word_map, word_dec]. Qed.

Lemma word_groups l : word (show_groups l).
Proof. apply word_join; [auto with words|apply word_map, word_hex]. Qed.
Hint Resolve word_v4 word_groups : words.

Lemma word_ip ip : word (show_ip ip).
Proof. destruct ip as [a|a]; cbn [show_ip]; [auto with words|]. unfold show_v6. repeat case_match; auto with words. Qed.

Lemma word_iso secs micros : word (iso8601 secs micros).
Proof. unfold iso8601. destruct (civil_from_days _) as [[y m] d]. auto 20 with words. Qed.

Lemma char_shape x l : utf8_valid (x :: l) = true ->
  (exists b, take (utf8_head (x :: l)).2 (x :: l) = [b]) \/ Forall (fun b => 128 <= b) (take (utf8_head (x :: l)).2 (x :: l)).
Proof.
  intros H. unfold utf8_head, byte_at. cbn [utf8_valid] in H.
  destruct l as [|y [|z [|w l]]]; cbn -[Z.ltb Z.eqb between cont utf8_valid] in *; repeat case_match; try done; try (exfalso; unfold between, cont in *; lia); cbn [snd take];
    first [by left; eexists|right; repeat (apply Forall_cons_2; [unfold between, cont in *; lia|]); rewrite ?take_0; apply Forall_nil_2].
Qed.

Lemma chars_shape f : forall l, utf8_valid l = true -> Forall (fun c => (exists b, c = [b]) \/ Forall (fun b => 128 <= b) c) (chars_from f l).
Proof.
  induction f as [|f IH]; intros [|x l] H; cbn [chars_from]; try apply Forall_nil_2. apply Forall_cons_2; [by apply char_shape|].
  apply IH. apply utf8_valid_head in H as (n & -> & H). done.
Qed.

Lemma word_clean c : (exists b, c = [b]) \/ Forall (fun b => 128 <= b) c -> word (clean c).
Proof.
  intros H. unfold clean. destruct (_ || _) eqn:E; [by apply wordb_word|]. rewrite orb_false_iff in E. destruct E as [E1 E2]. apply bytes_eqb_neq in E2.
  destruct H as [[b ->]|H]; [|eapply Forall_impl; [exact H|]; unfold word_byte; lia].
  cbn in E1. apply Forall_cons_2; [|apply Forall_nil_2]. unfold word_byte. assert (b <> 32) by (intros ->; done). lia.
Qed.

(** Whatever text a client sends, the field stays in its place. *)
Lemma word_sanitize s : utf8_valid s = true -> word (sanitize s).
Proof.
  intros H. unfold sanitize. apply word_app; [|case_match; [by apply wordb_word|apply Forall_nil_2]].
  pose proof (chars_shape (length s) s H) as Hc. fold (chars s) in Hc. apply (Forall_take _ FIELD_MAX) in Hc.
  induction Hc as [|c l Hc _ IH]; cbn [fmap list_fmap concat]; [apply Forall_nil_2|]. apply word_app; [by apply word_clean|done].
Qed.

Lemma word_dec_field o : word (dec_field o).
Proof. destruct o as [s|]; cbn [dec_field]; [|by apply wordb_word]. destruct (utf8_valid s) eqn:E; [by apply word_sanitize|by apply wordb_word]. Qed.

Lemma word_status resp : word (status_of resp).
Proof.
  unfold status_of. destruct (position _ _); [|by apply wordb_word]. destruct (_ && _) eqn:E; [|by apply wordb_word]. rewrite andb_true_iff in E. destruct E as [_ E].
  apply word_digits, Forall_forall. intros b Hb%list_elem_of_In. rewrite forallb_forall in E. specialize (E b Hb). unfold is_digit in E. lia.
Qed.
Hint Resolve word_ip word_iso word_dec_field word_status : words.

(** ** Lines of fields *)
Definition separated (p : Z -> bool) (l : bytes) : Prop := Forall (fun b => p b = false) l.

Lemma split_join fields : fields <> [] -> Forall (separated (fun b => b =? SPACE)) fields -> split_on (fun b => b =? SPACE) (join [SPACE] fields) = fields.
Proof.
  intros Hne H. induction H as [|x l Hx Hl IH]; [done|]. destruct l as [|y l]; [by apply split_on_none|].
  change (join [SPACE] (x :: y :: l)) with (x ++ SPACE :: join [SPACE] (y :: l)). rewrite split_on_line by done. by rewrite IH.
Qed.

Lemma word_separated l : word l -> separated (fun b => b =? SPACE) l.
Proof. intros H. eapply Forall_impl; [exact H|]. unfold word_byte, SPACE. lia. Qed.

Lemma join_no_lf fields : Forall word fields -> LF ∉ join [SPACE] fields.
Proof.
  intros H Hin. induction H as [|x l Hx Hl IH]; [by apply elem_of_nil in Hin|]. unfold word in Hx. rewrite Forall_forall in Hx.
  assert (LF ∉ x) by (intros Hb; destruct (Hx _ Hb) as [? _]; unfold LF in *; lia).
  destruct l as [|y l]; [done|]. change (join [SPACE] (x :: y :: l)) with (x ++ SPACE :: join [SPACE] (y :: l)) in Hin.
  rewrite elem_of_app, elem_of_cons in Hin. destruct Hin as [|[|]]; [done|done|by apply IH].
Qed.

(** [line] is one line, and its words are the fields. *)
Definition one_record (line : bytes) (fields : list bytes) : Prop :=
  exists text, line = text ++ [LF] /\ (LF ∉ text) /\ split_on (fun b => b =? SPACE) text = fields.

Lemma line_of_fields fields : fields <> [] -> Forall word fields -> one_record (line_of fields) fields.
Proof.
  intros Hne H. exists (join [SPACE] fields). split_and!; [done|by apply join_no_lf|]. apply split_join; [done|]. eapply Forall_impl; [exact H|apply word_separated].
Qed.

(** ** The calendar *)

(** Days into an era of four hundred years, and the year of one. *)
Definition year_start (k : Z) : Z := 365 * k + k / 4 - k / 100.
Definition day_rank (doe : Z) : Z := doe - doe / 1460 + doe / 36524.
Definition era_year (doe : Z) : Z := (day_rank doe - doe / 146096) / 365.

Lemma day_rank_mono a b : 0 <= a <= b -> day_rank a <= day_rank b.
Proof. unfold day_rank. intros H. Z.to_euclidean_division_equations. lia. Qed.

(** The first and the last day of a year have its rank, and a year has one day
    more when it is a leap year. *)
Definition year_ok (k : Z) : bool :=
  let last := year_start (k + 1) - 1 in
  (day_rank (year_start k) / 365 =? k) && (day_rank last / 365 =? k) && (0 <=? year_start k) && (year_start k <=? last) && (last <? 146096) &&
  (last - year_start k <=? (if is_leap (k + 1) then 365 else 364)).

Lemma years_ok k : 0 <= k < 400 -> year_ok k = true.
Proof. apply below_forall. vm_compute. reflexivity. Qed.

Lemma year_found n : forall doe, 0 <= doe < year_start (Z.of_nat n) -> exists k, 0 <= k < Z.of_nat n /\ year_start k <= doe < year_start (k + 1).
Proof.
  induction n as [|n IH]; intros doe H; [change (year_start (Z.of_nat 0)) with 0 in H; lia|]. destruct (decide (doe < year_start (Z.of_nat n))) as [Hlt|Hge].
  - destruct (IH doe) as (k & Hk & Hd); [lia|]. exists k. split; [lia|done].
  - exists (Z.of_nat n). rewrite Nat2Z.inj_succ in H. unfold Z.succ in H. split; lia.
Qed.

Lemma era_year_spec doe : 0 <= doe < 146097 -> exists k, era_year doe = k /\ 0 <= k < 400 /\ 0 <= doe - year_start k <= (if is_leap (k + 1) then 365 else 364).
Proof.
  intros H. destruct (decide (doe = 146096)) as [->|Hne]; [by exists 399|].
  destruct (year_found 400 doe) as (k & Hk & Hd); [change (year_start (Z.of_nat 400)) with 146096; lia|]. exists k. pose proof (years_ok k ltac:(lia)) as Hy.
  unfold year_ok in Hy. cbn zeta in Hy. rewrite !andb_true_iff in Hy. destruct Hy as (((((H1 & H2) & H3) & H4) & H5) & H6). zify_bool.
  assert (era_year doe = k) as ->; [|split; [done|]; split; [lia|]; lia].
  unfold era_year. replace (doe / 146096) with 0 by (symmetry; apply Z.div_small; lia). rewrite Z.sub_0_r.
  pose proof (day_rank_mono (year_start k) doe ltac:(lia)) as M1. pose proof (day_rank_mono doe (year_start (k + 1) - 1) ltac:(lia)) as M2.
  pose proof (Z.div_le_mono _ _ 365 ltac:(lia) M1). pose proof (Z.div_le_mono _ _ 365 ltac:(lia) M2). lia.
Qed.

(** A day of the year that begins in March, as month and day. *)
Definition month_of (n : Z) : Z := let mp := (5 * n + 2) / 153 in if mp <? 10 then mp + 3 else mp - 9.
Definition day_of (n : Z) : Z := n - (153 * ((5 * n + 2) / 153) + 2) / 5 + 1.

Definition day_ok (n : Z) : bool :=
  let m := month_of n in let d := day_of n in
  (1 <=? m) && (m <=? 12) && (1 <=? d) && (d <=? (if (m =? 2) && (n <? 365) then 28 else month_days 2000 m)) && (doy m d =? n).

Lemma days_ok n : 0 <= n < 366 -> day_ok n = true.
Proof. apply below_forall. vm_compute. reflexivity. Qed.

Lemma month_days_any y y' m : m <> 2 -> month_days y m = month_days y' m.
Proof. intros H. unfold month_days. by rewrite (proj2 (Z.eqb_neq m 2) H). Qed.

Lemma civil_eq z : civil_from_days z =
  let era := (z + 719468) / 146097 in let doe := (z + 719468) mod 146097 in
  let k := era_year doe in let n := doe - year_start k in
  (k + era * 400 + (if month_of n <=? 2 then 1 else 0), month_of n, day_of n).
Proof.
  unfold civil_from_days. cbn zeta. set (w := z + 719468).
  assert (Z.quot (if 0 <=? w then w else w - 146096) 146097 = w / 146097) as ->.
  { case_match; zify_bool; [by rewrite Z.quot_div_nonneg by lia|]. Z.to_euclidean_division_equations. lia. }
  replace (w - w / 146097 * 146097) with (w mod 146097) by (rewrite Z.mod_eq; lia). pose proof (Z.mod_pos_bound w 146097 ltac:(lia)) as Hb. set (doe := w mod 146097) in *.
  destruct (era_year_spec doe Hb) as (k & Hk & Hk1 & Hk2). rewrite Hk. unfold era_year, day_rank in Hk.
  rewrite (Z.quot_div_nonneg doe 1460), (Z.quot_div_nonneg doe 36524), (Z.quot_div_nonneg doe 146096) by lia.
  assert (0 <= doe - doe / 1460 + doe / 36524 - doe / 146096) by (Z.to_euclidean_division_equations; lia). rewrite (Z.quot_div_nonneg _ 365) by lia.
  rewrite Hk. rewrite (Z.quot_div_nonneg k 4), (Z.quot_div_nonneg k 100) by lia. fold (year_start k).
  assert (doe - year_start k <= 365) as Hk3 by (destruct (is_leap (k + 1)); lia). set (n := doe - year_start k) in *.
  rewrite (Z.quot_div_nonneg (5 * n + 2) 153) by lia. pose proof (Z.div_pos (5 * n + 2) 153 ltac:(lia) ltac:(lia)). rewrite (Z.quot_div_nonneg (153 * ((5 * n + 2) / 153) + 2) 5) by lia. done.
Qed.

(** The date of a day is a date of the calendar, and counting to it gives the
    day back. *)
Theorem civil_roundtrip z : let '(y, m, d) := civil_from_days z in valid_date y m d /\ days_from_civil y m d = z.
Proof.
  rewrite civil_eq. cbn zeta. set (w := z + 719468). pose proof (Z.mod_pos_bound w 146097 ltac:(lia)) as Hb. set (doe := w mod 146097) in *. set (era := w / 146097).
  destruct (era_year_spec doe Hb) as (k & -> & Hk1 & Hk2). set (n := doe - year_start k) in *. assert (0 <= n < 366) as Hn by (destruct (is_leap (k + 1)); lia).
  pose proof (days_ok n Hn) as Hd. unfold day_ok in Hd. cbn zeta in Hd. rewrite !andb_true_iff in Hd. destruct Hd as ((((H1 & H2) & H3) & H4) & H5). zify_bool.
  set (m := month_of n) in *. set (d := day_of n) in *. clearbody m d. remember (k + era * 400 + (if m <=? 2 then 1 else 0)) as y eqn:Hy.
  assert (march_year y m = k + era * 400) as Hm by (unfold march_year; destruct (m <=? 2); lia). split.
  - split; [lia|]. split; [lia|]. destruct (decide (m = 2)) as [E|E]; [|rewrite (month_days_any y 2000) by done; by rewrite (proj2 (Z.eqb_neq m 2) E) in H4].
    subst m. change (if 2 <=? 2 then 1 else 0) with 1 in Hy. cbn [Z.eqb Pos.eqb andb] in H4. change (month_days 2000 2) with 29 in H4. unfold month_days. change (2 =? 2) with true.
    assert (is_leap y = is_leap (k + 1)) as ->.
    { assert (forall c q, c <> 0 -> (k + 1 + q * c) mod c = (k + 1) mod c) as Hmod by (intros; by apply Z.mod_add). unfold is_leap.
      replace y with (k + 1 + era * 100 * 4) at 1 by lia. replace y with (k + 1 + era * 4 * 100) at 1 by lia. replace y with (k + 1 + era * 400) by lia. by rewrite !Hmod. }
    destruct (is_leap (k + 1)); [|replace (n <? 365) with true in H4 by lia]; repeat case_match; lia.
  - rewrite days_from_civil_eq, Hm, H5 by lia. assert (year_days (k + era * 400) = year_start k + era * 146097) as ->.
    { unfold year_days, year_start. replace ((k + era * 400) / 400) with era by (rewrite Z.div_add, Z.div_small by lia; lia).
      replace (k + era * 400) with (k + era * 100 * 4) at 2 by lia. rewrite Z.div_add by lia. replace (k + era * 400) with (k + era * 4 * 100) at 2 by lia. rewrite Z.div_add by lia. lia. }
    pose proof (Z.div_mod w 146097 ltac:(lia)) as Hw. unfold n. fold era doe in Hw. unfold w in Hw. lia.
Qed.

(** ** What a line says *)
Lemma chars_ascii f : forall l, (length l <= f)%nat -> ascii_text l -> chars_from f l = (fun b => [b]) <$> l.
Proof.
  induction f as [|f IH]; intros [|b l] Hf H; cbn [length] in Hf; try done; [lia|]. unfold ascii_text in H. rewrite Forall_cons in H. destruct H as [Hb H].
  cbn [chars_from]. rewrite utf8_head_ascii by done. cbn [snd take drop]. rewrite take_0, drop_0, IH by (done || lia). done.
Qed.

(** A printable field of moderate length is logged as it is. *)
Lemma sanitize_graphic l : Forall (fun b => graphic b = true) l -> (length l <= FIELD_MAX)%nat -> sanitize l = l.
Proof.
  intros Hg Hl. unfold sanitize, chars. rewrite chars_ascii; [|lia|eapply Forall_impl; [exact Hg|]; unfold graphic; lia].
  rewrite length_fmap, (proj2 (Nat.ltb_ge _ _)), take_ge by (rewrite ?length_fmap; lia). rewrite app_nil_r. clear Hl. induction Hg as [|b l Hb _ IH]; [done|]. cbn [fmap list_fmap concat].
  rewrite IH. unfold clean. cbn [is_control]. assert (bytes_eqb [b] [SPACE] = false) as -> by (apply bytes_eqb_neq; intros [= ->]; done).
  unfold graphic in Hb. rewrite (proj2 (Z.ltb_ge b 32)), (proj2 (Z.eqb_neq b 127)) by lia. done.
Qed.

Definition token (l : bytes) : Prop := l <> [] /\ Forall (fun b => graphic b = true) l /\ (length l <= FIELD_MAX)%nat.

Lemma token_field l : token l -> dec_field (Some l) = l.
Proof.
  intros (_ & Hg & Hl). cbn [dec_field]. rewrite sanitize_graphic by done. assert (utf8_valid l = true) as ->; [|done].
  clear Hl. induction Hg as [|b l Hb _ IH]; [done|]. cbn [utf8_valid]. unfold graphic in Hb. by rewrite (proj2 (Z.ltb_lt b 128)) by lia.
Qed.

Lemma graphic_apart p l : Forall (fun b => graphic b = true) l -> graphic p = false -> separated (fun b => b =? p) l.
Proof. intros H Hp. eapply Forall_impl; [exact H|]. intros b Hb. apply Z.eqb_neq. congruence. Qed.

(** The request line is read as it is meant. *)
Lemma request_line_read m path v rest : token m -> token path -> token v ->
  ReqLine_parse (m ++ SPACE :: path ++ SPACE :: v ++ CR :: LF :: rest) = mkReqLine m path.
Proof.
  intros Hm Hp Hv. unfold ReqLine_parse. set (line := m ++ SPACE :: path ++ SPACE :: v).
  assert (m ++ SPACE :: path ++ SPACE :: v ++ CR :: LF :: rest = (line ++ [CR]) ++ LF :: rest) as -> by (unfold line; by rewrite <- !app_assoc, !app_comm_cons, <- !app_assoc).
  assert (separated (fun b => b =? LF) (line ++ [CR])) as Hline.
  { unfold line. apply Forall_app_2; [|by repeat constructor]. apply Forall_app_2; [by apply graphic_apart; [apply Hm|]|]. apply Forall_cons_2; [done|].
    apply Forall_app_2; [by apply graphic_apart; [apply Hp|]|]. apply Forall_cons_2; [done|]. by apply graphic_apart; [apply Hv|]. }
  rewrite split_on_line by done. cbn [head default id].
  assert (strip_suffix [CR] (line ++ [CR]) = Some line) as ->.
  { unfold strip_suffix, ends_with. rewrite length_app. cbn [length]. rewrite (proj2 (Nat.leb_le _ _)) by lia. replace (length line + 1 - 1)%nat with (length line) by lia.
    by rewrite drop_app_length, bytes_eqb_refl, take_app_length. }
  cbn [default id]. unfold line. rewrite split_on_line by (done || by apply graphic_apart; [apply Hm|]). rewrite split_on_line by (done || by apply graphic_apart; [apply Hp|]).
  rewrite split_on_none by (by apply graphic_apart; [apply Hv|]). cbn [List.filter]. rewrite !bool_decide_false by (apply Hm || apply Hp || apply Hv). cbn [negb head tail].
  by rewrite !token_field.
Qed.

Lemma log_fields_words secs micros client req status nbytes backend dur : word status -> (forall b, backend = Some b -> word b) -> word (rl_method req) -> word (rl_path req) ->
  Forall word (log_fields secs micros client req status nbytes backend dur).
Proof.
  intros Hs Hb Hm Hp. unfold log_fields, field. assert (word (default DASH backend)) by (destruct backend; [by apply Hb|by apply wordb_word]).
  rewrite !Forall_cons, Forall_nil. split_and!; auto with words.
Qed.

Lemma word_hex4 n : word (hex4 n).
Proof. unfold hex4. apply word_app; [auto with words|]. apply word_app; [|apply word_hex]. apply Forall_replicate. unfold word_byte. lia. Qed.
Hint Resolve word_hex4 : words.

Lemma word_dash s : utf8_valid s = true -> word (dash s).
Proof. intros H. unfold dash. case_match; [auto with words|by apply word_sanitize]. Qed.
Hint Resolve word_dash : words.

Lemma tls_fields_words i : utf8_valid (t_sni i) = true -> utf8_valid (t_alpn i) = true -> Forall word (tls_fields i).
Proof.
  intros Hs Ha. unfold tls_fields, field. assert (word (suite_name i)) by (unfold suite_name; repeat case_match; auto with words).
  assert (word (group_name i)) by (unfold group_name; repeat case_match; auto with words). assert (word (show_bool (pq_hybrid i))) by (unfold show_bool; case_match; auto with words).
  rewrite !Forall_cons, Forall_nil. split_and!; auto with words.
Qed.

(** The time a line states is the time it was written. *)
Lemma iso8601_states secs micros : 0 <= secs -> exists y m d h mi s, valid_date y m d /\ 0 <= h < 24 /\ 0 <= mi < 60 /\ 0 <= s < 60 /\ unix_time y m d h mi s = secs /\
  iso8601 secs micros = padded 4 y ++ bs "-" ++ padded 2 m ++ bs "-" ++ padded 2 d ++ bs "T" ++ padded 2 h ++ bs ":" ++ padded 2 mi ++ bs ":" ++ padded 2 s ++ bs "." ++ padded 6 micros ++ bs "Z".
Proof.
  intros Hs. unfold iso8601. pose proof (civil_roundtrip (secs / 86400)) as H. destruct (civil_from_days (secs / 86400)) as [[y m] d]. destruct H as [Hv Hd].
  exists y, m, d, (secs mod 86400 / 3600), (secs mod 86400 mod 3600 / 60), (secs mod 86400 mod 60). split_and!; try done; try (Z.to_euclidean_division_equations; lia).
  unfold unix_time. rewrite Hd. Z.to_euclidean_division_equations. lia.
Qed.

Lemma word_request req : word (rl_method (ReqLine_parse req)) /\ word (rl_path (ReqLine_parse req)).
Proof. split; unfold ReqLine_parse; cbn [rl_method rl_path]; apply word_dec_field. Qed.

Lemma token_word l : token l -> word l.
Proof. intros (_ & H & _). eapply Forall_impl; [exact H|]. intros b Hb. unfold graphic in Hb. unfold word_byte. cbn beta in Hb. lia. Qed.

(** The status is the code of the status line. *)
Lemma split_on_head p (l y : bytes) : separated p l -> exists y' rest, split_on p y = y' :: rest /\ split_on p (l ++ y) = (l ++ y') :: rest.
Proof.
  intros Hl. assert (exists y' rest, split_on p y = y' :: rest) as (y' & rest & E).
  { destruct y as [|b y]; cbn [split_on]; [by eexists _, _|]. destruct (p b); [by eexists _, _|]. by destruct (split_on p y); eexists _, _. }
  exists y', rest. split; [done|]. induction Hl as [|x l Hx _ IH]; [done|]. cbn [app split_on]. by rewrite Hx, IH.
Qed.

Lemma status_read v code rest : token v -> length code = 3%nat -> forallb is_digit code = true -> status_of (v ++ SPACE :: code ++ SPACE :: rest) = code.
Proof.
  intros Hv Hlen Hd. assert (Forall (fun b => graphic b = true) code) as Hc.
  { apply Forall_forall. intros b Hb. rewrite forallb_forall in Hd. specialize (Hd b (proj1 (list_elem_of_In _ _) Hb)). unfold is_digit in Hd. unfold graphic. lia. }
  unfold status_of. destruct (split_on_head (fun b => b =? CR) (v ++ SPACE :: code ++ [SPACE]) rest) as (y & l & _ & E).
  { apply Forall_app_2; [by apply graphic_apart; [apply Hv|]|]. apply Forall_cons_2; [done|]. apply Forall_app_2; [by apply graphic_apart|by repeat constructor]. }
  replace (v ++ SPACE :: code ++ SPACE :: rest) with ((v ++ SPACE :: code ++ [SPACE]) ++ rest) by (by rewrite <- app_assoc, <- app_comm_cons, <- app_assoc).
  rewrite E. cbn [head default id]. rewrite <- app_assoc, <- app_comm_cons, <- app_assoc. cbn [app].
  assert (position (fun b => b =? SPACE) (v ++ SPACE :: code ++ SPACE :: y) = Some (length v)) as ->.
  { destruct Hv as (_ & Hv & _). clear - Hv. induction Hv as [|b v Hb _ IH]; [done|]. cbn [app position]. rewrite (proj2 (Z.eqb_neq b SPACE)) by (intros ->; done). by rewrite IH. }
  replace (drop (S (length v)) (v ++ SPACE :: code ++ SPACE :: y)) with (code ++ SPACE :: y) by (rewrite drop_app_ge by lia; replace (S (length v) - length v)%nat with 1%nat by lia; done).
  rewrite split_on_line by (done || by apply graphic_apart). cbn [head default id]. by rewrite Hlen, Hd.
Qed.

Lemma graphic_text l : Forall (fun b => graphic b = true) l -> ascii_text l.
Proof. intros H. eapply Forall_impl; [exact H|]. unfold graphic. lia. Qed.



(** Over HTTP/2 a path with a space adds a field, one with a line feed a line. *)
Example h2_path_adds_a_line :
  let l := log_tls_h2 0 0 (V4 0) (h2_line (bs "GET") (bs "/a status=200" ++ [LF] ++ bs "ts=forged")) (bs "404") 0 1 (mkTlsInfo [] (bs "h2") 0x11EC 0x1301) in
  length (split_on (fun b => b =? LF) l) = 3%nat /\ take 9 (default [] (split_on (fun b => b =? LF) l !! 1%nat)) = bs "ts=forged".
Proof. vm_compute. done. Qed.
