(* ===== verification/Sni.v ===== *)
(** * The name a client asks for ([tls/ondemand.rs])

    The server name of a ClientHello, read from bytes that are only peeked; the
    test on the name; and the question put to the authorizer about it. A
    connection to the authorizer is its reads and its sink ([Connect.Socket]);
    setting the two socket timeouts does not fail. *)
From S2P Require Import Prelude Bytes Io Text Connect Renewal.

Local Open Scope Z_scope.

(** [&l[i..j]] through [get]. *)
Definition get_range (i j : nat) (l : bytes) : option bytes := if (i <=? j)%nat && (j <=? length l)%nat then Some (slice i j l) else None.

Definition be16 (a b : Z) : Z := Z.lor (wrap 16 (Z.shiftl a 8)) b.

(** The entries of a server name list. Each turn takes at least three bytes, so
    the length of the list is enough fuel, and without bytes the loop has
    ended. *)
Fixpoint host_name (fuel : nat) (l : bytes) : option bytes :=
  match fuel, l with
  | S f, name_type :: hi :: lo :: _ =>
      let name_len := Z.to_nat (be16 hi lo) in
      name ← get_range 3 (3 + name_len) l;
      if name_type =? 0 then (if utf8_valid name then Some (to_ascii_lowercase <$> name) else None)
      else host_name f (drop (3 + name_len) l)
  | _, _ => None
  end.

(** The extensions, at least four bytes each. *)
Fixpoint extensions (fuel : nat) (exts : bytes) : option bytes :=
  match fuel, exts with
  | S f, t1 :: t2 :: l1 :: l2 :: _ =>
      let elen := Z.to_nat (be16 l1 l2) in
      edata ← get_range 4 (4 + elen) exts;
      if be16 t1 t2 =? 0 then
        hi ← edata !! 0%nat;
        lo ← edata !! 1%nat;
        list ← get_range 2 (2 + Z.to_nat (be16 hi lo)) edata;
        host_name (length list) list
      else extensions f (drop (4 + elen) exts)
  | _, _ => None
  end.

Definition parse_extensions_sni (exts : bytes) : option bytes := extensions (length exts) exts.

(** From the body of the hello: version, random, session, suites, compression
    methods, extensions. *)
Definition hello_sni (body : bytes) : option bytes :=
  let p := 34%nat in
  sid_len ← body !! p;
  let p := (p + (1 + Z.to_nat sid_len))%nat in
  c1 ← body !! p;
  c2 ← body !! (p + 1)%nat;
  let p := (p + (2 + Z.to_nat (be16 c1 c2)))%nat in
  comp_len ← body !! p;
  let p := (p + (1 + Z.to_nat comp_len))%nat in
  e1 ← body !! p;
  e2 ← body !! (p + 1)%nat;
  let p := (p + 2)%nat in
  exts ← get_range p (p + Z.to_nat (be16 e1 e2)) body;
  parse_extensions_sni exts.

Definition parse_client_hello_sni (rec : bytes) : option bytes :=
  match rec with
  | [] => None
  | rtype :: rest =>
      if negb (rtype =? 22) then None
      else
        r2 ← rest !! 2%nat;
        r3 ← rest !! 3%nat;
        frag ← get_range 4 (4 + Nat.min (Z.to_nat (be16 r2 r3)) (length rest - 4)) rest;
        match frag with
        | [] => None
        | htype :: hrest =>
            if negb (htype =? 1) then None
            else body ← get_range 3 (length hrest) hrest; hello_sni body
        end
  end.

Definition PEEK : nat := Z.to_nat 4096.

(** What has arrived when the socket becomes readable; [None] when it does not
    within the two seconds. *)
Definition peek_sni (available : option bytes) : option bytes :=
  match available with
  | None | Some [] => None
  | Some l => parse_client_hello_sni (take PEEK l)
  end.

(** The test is the one the sweep makes of a directory's name. *)
Definition valid_host (h : bytes) : bool := plausible_sni h.

(** ** The question *)
Definition split_http_url (url : bytes) : option (bytes * Z * bytes) :=
  rest ← strip_prefix (bs "http://") url;
  let '(authority, path) :=
    match position (fun b => b =? 47) rest with Some i => (take i rest, drop i rest) | None => (rest, bs "/") end in
  '(host, port) ← match rposition (fun b => b =? 58) authority with
                  | Some i => p ← parse_uint 16 (drop (S i) authority); Some (take i authority, p)
                  | None => Some (authority, 80)
                  end;
  if bool_decide (host = []) then None else Some (host, port, path).

Definition ask_request (host path sni : bytes) : bytes :=
  let sep := if bool_decide (63 ∈ path) then bs "&" else bs "?" in
  bs "GET " ++ path ++ sep ++ bs "domain=" ++ sni ++ bs " HTTP/1.1" ++ CRLF ++ bs "Host: " ++ host ++ CRLF ++
  bs "Connection: close" ++ CRLF ++ bs "Accept: */*" ++ CRLF ++ CRLF.

Definition ASK_CHUNK : nat := Z.to_nat 512.
Definition ASK_CAP : nat := Z.to_nat 4096.

Fixpoint read_status (fuel : nat) (buf : bytes) (rx : list read_ev) : option bytes :=
  match fuel with
  | O => None
  | S f =>
      match read ASK_CHUNK rx with
      | (Ok [], _) | (Err _, _) => Some buf
      | (Ok got, rx') =>
          let buf' := buf ++ got in
          if bool_decide (LF ∈ buf') || (ASK_CAP <=? length buf')%nat then Some buf' else read_status f buf' rx'
      end
  end.

Definition status_in (buf : bytes) : option Z := split_whitespace (from_utf8_lossy buf) !! 1%nat ≫= parse_uint 16.

(** The answer of the authorizer at [ask] about [sni], over what dialling it
    gives; and the connection that was opened, if any: whom to, and its sink as
    it was left. *)
Definition ask_site_exists (dial : bytes -> Z -> option Socket) (ask sni : bytes) : option bool * option (bytes * Z * sink) :=
  match split_http_url ask with
  | None => (None, None)
  | Some (host, port, path) =>
      match dial host port with
      | None => (None, None)
      | Some s =>
          match write_all (ask_request host path sni) (s_tx s) with
          | (Err _, tx) => (None, Some (host, port, tx))
          | (Ok _, tx) =>
              (buf ← read_status (S (weight (s_rx s))) [] (s_rx s);
               status ← status_in buf;
               Some ((200 <=? status) && (status <? 300)),
               Some (host, port, tx))
          end
      end
  end.

Example urls_as_tested :
  (split_http_url (bs "http://gateway:8080/internal/site-exists"), split_http_url (bs "http://127.0.0.1/x"), split_http_url (bs "http://h:9"), split_http_url (bs "https://h/x")) =
  (Some (bs "gateway", 8080, bs "/internal/site-exists"), Some (bs "127.0.0.1", 80, bs "/x"), Some (bs "h", 9, bs "/"), None).
Proof. vm_compute. reflexivity. Qed.

Example hosts_as_tested :
  (valid_host <$> [bs "a.apps.example.test"; bs "*.apps.example.test"; []; bs "../etc/passwd"; bs "a/b"; bs "a b"]) = [true; true; false; false; false; false].
Proof. vm_compute. reflexivity. Qed.

(** ** Cut hellos *)
Lemma get_range_Some i j l r : get_range i j l = Some r <-> (i <= j <= length l)%nat /\ r = slice i j l.
Proof.
  unfold get_range. destruct (i <=? j)%nat eqn:Ei, (j <=? length l)%nat eqn:Ej; cbn [andb]; rewrite ?Nat.leb_le, ?Nat.leb_gt in *; split; intros H; try done; try lia.
  - injection H as <-. split; [lia|done].
  - destruct H as [_ ->]. done.
Qed.

Lemma get_range_app i j l k r : get_range i j l = Some r -> get_range i j (l ++ k) = Some r.
Proof.
  rewrite !get_range_Some, length_app. intros [H ->]. split; [lia|]. unfold slice. rewrite drop_app_le by lia. rewrite take_app_le; [done|]. rewrite length_drop. lia.
Qed.

Lemma hello_sni_app body k h : hello_sni body = Some h -> hello_sni (body ++ k) = Some h.
Proof.
  unfold hello_sni. intros H. repeat (apply bind_Some in H as (? & ?H & H)).
  repeat match goal with E : body !! _ = Some _ |- _ => rewrite (lookup_app_l_Some _ k _ _ E); cbn [mbind option_bind]; clear E end.
  match goal with E : get_range _ _ body = Some _ |- _ => rewrite (get_range_app _ _ _ k _ E) end. done.
Qed.

(** What is read from the beginning of a hello is what is read from all of it:
    a peek that saw too little sees no name, never another one. *)
Lemma sni_prefix a b h : parse_client_hello_sni a = Some h -> parse_client_hello_sni (a ++ b) = Some h.
Proof.
  unfold parse_client_hello_sni. destruct a as [|rtype rest]; [done|]. cbn [app]. destruct (rtype =? 22); [|done]. cbn [negb].
  intros H. apply bind_Some in H as (r2 & E2 & H). apply bind_Some in H as (r3 & E3 & H). apply bind_Some in H as (frag & Ef & H).
  rewrite (lookup_app_l_Some _ b _ _ E2), (lookup_app_l_Some _ b _ _ E3). cbn [mbind option_bind].
  pose proof (lookup_lt_Some _ _ _ E3) as Hl. set (rlen := Z.to_nat (be16 r2 r3)) in *.
  apply get_range_Some in Ef as [_ Ef].
  assert (exists k, get_range 4 (4 + Nat.min rlen (length (rest ++ b) - 4)) (rest ++ b) = Some (frag ++ k)) as (k & ->).
  { setoid_rewrite get_range_Some. rewrite length_app, Ef. enough (exists k, slice 4 (4 + Nat.min rlen (length rest + length b - 4)) (rest ++ b) = slice 4 (4 + Nat.min rlen (length rest - 4)) rest ++ k) as (k & Hk) by (exists k; split; [lia|done]).
    unfold slice. rewrite drop_app_le by lia. replace (4 + Nat.min rlen (length rest + length b - 4) - 4)%nat with (Nat.min rlen (length rest + length b - 4)) by lia.
    replace (4 + Nat.min rlen (length rest - 4) - 4)%nat with (Nat.min rlen (length rest - 4)) by lia.
    destruct (decide (rlen <= length rest - 4)%nat) as [Hc|Hc].
    - rewrite !Nat.min_l by lia. exists []. rewrite app_nil_r, take_app_le; [done|rewrite length_drop; lia].
    - rewrite (Nat.min_r _ (length rest - 4)) by lia. rewrite (take_ge (drop 4 rest)) by (rewrite length_drop; lia).
      eexists. rewrite take_app_ge; [done|]. rewrite length_drop. lia. }
  clear Ef. cbn [mbind option_bind]. destruct frag as [|htype hrest]; [done|]. cbn [app]. destruct (htype =? 1); [|done]. cbn [negb] in *.
  apply bind_Some in H as (body & Eb & H). apply get_range_Some in Eb as [Hb ->]. unfold slice in H. rewrite take_ge in H by (rewrite length_drop; lia).
  assert (get_range 3 (length (hrest ++ k)) (hrest ++ k) = Some (drop 3 hrest ++ k)) as ->; [|by apply hello_sni_app].
  apply get_range_Some. rewrite length_app. split; [lia|]. unfold slice. rewrite drop_app_le by lia. by rewrite take_ge by (rewrite length_app, length_drop; lia).
Qed.

(** ** Printed hellos *)
Definition vec8 (l : bytes) : bytes := Z.of_nat (length l) :: l.
Definition vec16 (l : bytes) : bytes := to_be_bytes 2 (Z.of_nat (length l)) ++ l.
Definition name_entry (e : Z * bytes) : bytes := e.1 :: vec16 e.2.
Definition extension (e : Z * bytes) : bytes := to_be_bytes 2 e.1 ++ vec16 e.2.

(** A hello with a server name: anything may come before it and after it, in
    the name list and among the extensions, except another of its kind before. *)
Record Hello := mkHello {
  record_version : bytes; hello_length : bytes; version : bytes; random : bytes; session : bytes; suites : bytes; methods : bytes;
  exts_before : list (Z * bytes); names_before : list (Z * bytes); host : bytes; names_after : bytes; exts_after : bytes
}.

Definition server_name (h : Hello) : bytes := vec16 (concat (name_entry <$> names_before h) ++ name_entry (0, host h) ++ names_after h).
Definition hello_exts (h : Hello) : bytes := concat (extension <$> exts_before h) ++ extension (0, server_name h) ++ exts_after h.
Definition hello_body (h : Hello) : bytes :=
  (version h ++ random h) ++ vec8 (session h) ++ vec16 (suites h) ++ vec8 (methods h) ++ vec16 (hello_exts h).
Definition hello_record (h : Hello) : bytes := 22 :: record_version h ++ vec16 (1 :: hello_length h ++ hello_body h).

Definition short16 (l : bytes) : Prop := Z.of_nat (length l) < 65536.

Record hello_ok (h : Hello) : Prop := {
  ok_rv : length (record_version h) = 2%nat;
  ok_hl : length (hello_length h) = 3%nat;
  ok_vr : length (version h ++ random h) = 34%nat;
  ok_session : Z.of_nat (length (session h)) < 256;
  ok_suites : short16 (suites h);
  ok_methods : Z.of_nat (length (methods h)) < 256;
  ok_exts : short16 (hello_exts h);
  ok_record : short16 (1 :: hello_length h ++ hello_body h);
  ok_before : Forall (fun e => 0 < e.1 < 65536) (exts_before h);
  ok_names : Forall (fun e => 0 < e.1 < 256) (names_before h);
  ok_host : utf8_valid (host h) = true
}.

Lemma be16_sum a b : byte_ok a -> byte_ok b -> be16 a b = from_be_bytes [a; b].
Proof.
  unfold byte_ok. intros Ha Hb. unfold be16. rewrite wrap_small by (unfold fits; rewrite Z.shiftl_mul_pow2; lia).
  rewrite lor_shiftl by lia. unfold from_be_bytes. change (reverse [a; b]) with [b; a]. cbn [from_le_bytes]. lia.
Qed.

Lemma to_be16 n : 0 <= n < 65536 -> exists hi lo, to_be_bytes 2 n = [hi; lo] /\ be16 hi lo = n.
Proof.
  intros Hn. pose proof (from_to_be_bytes 2 n ltac:(change (256 ^ Z.of_nat 2) with 65536; lia)) as H. pose proof (length_to_be_bytes 2 n) as Hl. pose proof (to_be_bytes_ok 2 n) as Hok.
  destruct (to_be_bytes 2 n) as [|hi [|lo [|? ?]]]; cbn in Hl; try lia. exists hi, lo. split; [done|]. unfold bytes_ok in Hok. rewrite !Forall_cons in Hok. destruct Hok as (Hhi & Hlo & _). by rewrite be16_sum.
Qed.

Lemma get_range_at a b c i j : i = length a -> j = (length a + length b)%nat -> get_range i j (a ++ b ++ c) = Some b.
Proof.
  intros -> ->. unfold get_range. rewrite !length_app, (proj2 (Nat.leb_le _ _)), (proj2 (Nat.leb_le _ _)) by lia. cbn [andb]. by rewrite slice_mid.
Qed.

(** A length-prefixed vector after [pre]. *)
Lemma vec16_at pre l suf : short16 l -> exists hi lo,
  (pre ++ vec16 l ++ suf) !! length pre = Some hi /\ (pre ++ vec16 l ++ suf) !! (length pre + 1)%nat = Some lo /\ Z.to_nat (be16 hi lo) = length l /\
  get_range (length pre + 2) (length pre + 2 + length l) (pre ++ vec16 l ++ suf) = Some l.
Proof.
  intros Hs. unfold vec16. destruct (to_be16 (Z.of_nat (length l))) as (hi & lo & -> & E); [unfold short16 in Hs; lia|]. exists hi, lo. rewrite E, Nat2Z.id. split_and!; [..|done|].
  - cbn [app]. by rewrite list_lookup_middle.
  - replace (length pre + 1)%nat with (length (pre ++ [hi])) by (rewrite length_app; done). change (pre ++ ([hi; lo] ++ l) ++ suf) with (pre ++ [hi] ++ lo :: l ++ suf). rewrite app_assoc. by rewrite list_lookup_middle.
  - rewrite <- app_assoc, (app_assoc pre [hi; lo]). apply get_range_at; rewrite length_app; cbn; lia.
Qed.

Lemma vec8_at pre l suf : (pre ++ vec8 l ++ suf) !! length pre = Some (Z.of_nat (length l)).
Proof. unfold vec8. cbn [app]. by rewrite list_lookup_middle. Qed.

Lemma short16_app l1 l2 : short16 (l1 ++ l2) -> short16 l1 /\ short16 l2.
Proof. unfold short16. rewrite length_app. lia. Qed.

Lemma length_vec16 l : length (vec16 l) = (2 + length l)%nat.
Proof. unfold vec16. by rewrite length_app, length_to_be_bytes. Qed.

(** One turn of each loop, on what was printed. *)
Lemma host_name_turn f t d tail : short16 d ->
  host_name (S f) (name_entry (t, d) ++ tail) =
    if t =? 0 then (if utf8_valid d then Some (to_ascii_lowercase <$> d) else None) else host_name f tail.
Proof.
  intros Hd. unfold name_entry. cbn [fst snd app]. pose proof (vec16_at [t] d tail Hd) as (hi & lo & E1 & E2 & E & G). revert E1 E2 G. unfold vec16.
  destruct (to_be16 (Z.of_nat (length d))) as (x & y & -> & _); [unfold short16 in Hd; lia|]. cbn [app length Nat.add lookup list_lookup]. intros [= ->] [= ->] G.
  cbn [host_name]. rewrite E. change (3 + length d)%nat with (S (S (S (length d)))). rewrite G. cbn [mbind option_bind drop]. by rewrite drop_app_length.
Qed.

Lemma extensions_turn f t d tail : 0 <= t < 65536 -> short16 d ->
  extensions (S f) (extension (t, d) ++ tail) =
    if t =? 0 then hi ← d !! 0%nat; lo ← d !! 1%nat; list ← get_range 2 (2 + Z.to_nat (be16 hi lo)) d; host_name (length list) list
    else extensions f tail.
Proof.
  intros Ht Hd. unfold extension. cbn [fst snd]. destruct (to_be16 t Ht) as (t1 & t2 & -> & Et).
  pose proof (vec16_at [t1; t2] d tail Hd) as (hi & lo & E1 & E2 & E & G). revert E1 E2 G. unfold vec16.
  destruct (to_be16 (Z.of_nat (length d))) as (x & y & -> & _); [unfold short16 in Hd; lia|]. cbn [app length Nat.add lookup list_lookup]. intros [= ->] [= ->] G.
  cbn [extensions]. rewrite E. change (4 + length d)%nat with (S (S (S (S (length d))))). rewrite G, Et. cbn [mbind option_bind drop]. by rewrite drop_app_length.
Qed.

Lemma short_entry t d tail : short16 (name_entry (t, d) ++ tail) -> short16 d /\ short16 tail.
Proof. intros [H Ht]%short16_app. split; [|done]. unfold short16, name_entry in *. cbn [fst snd length] in H. rewrite length_vec16 in H. lia. Qed.

Lemma short_extension t d tail : short16 (extension (t, d) ++ tail) -> short16 d /\ short16 tail.
Proof. intros [H Ht]%short16_app. split; [|done]. unfold short16, extension in *. cbn [fst snd] in H. rewrite length_app, length_to_be_bytes, length_vec16 in H. lia. Qed.

Lemma host_name_printed es name rest f (l := concat (name_entry <$> es) ++ name_entry (0, name) ++ rest) :
  Forall (fun e => 0 < e.1 < 256) es -> utf8_valid name = true -> short16 l -> (length l <= f)%nat -> host_name f l = Some (to_ascii_lowercase <$> name).
Proof.
  unfold l. clear l. intros Hes Hu. revert f. induction Hes as [|[t d] es Ht _ IH]; intros [|f] Hs Hf; cbn [fmap list_fmap concat app] in *;
    try (exfalso; unfold name_entry in Hf; cbn in Hf; lia).
  - apply short_entry in Hs as [Hn _]. by rewrite host_name_turn, Z.eqb_refl, Hu.
  - rewrite <- app_assoc in *. apply short_entry in Hs as [Hd Hs]. rewrite host_name_turn by done. cbn [fst] in Ht. rewrite (proj2 (Z.eqb_neq t 0)) by lia.
    apply IH; [done|]. rewrite length_app in Hf. change (length (name_entry (t, d))) with (S (length (vec16 d))) in Hf. lia.
Qed.

Lemma extensions_printed h f : Forall (fun e => 0 < e.1 < 256) (names_before h) -> utf8_valid (host h) = true ->
  Forall (fun e => 0 < e.1 < 65536) (exts_before h) -> short16 (hello_exts h) -> (length (hello_exts h) <= f)%nat ->
  extensions f (hello_exts h) = Some (to_ascii_lowercase <$> host h).
Proof.
  intros Hnames Hu. unfold hello_exts. generalize (exts_before h). intros es Hes. revert f.
  induction Hes as [|[t d] es Ht _ IH]; intros [|f] Hs Hf; cbn [fmap list_fmap concat app] in *;
    try (exfalso; unfold extension in Hf; rewrite <- ?app_assoc in Hf; rewrite !length_app, length_to_be_bytes in Hf; lia).
  - apply short_extension in Hs as [Hn _]. rewrite extensions_turn by (done || lia). rewrite Z.eqb_refl. unfold server_name in *.
    set (l := concat (name_entry <$> names_before h) ++ name_entry (0, host h) ++ names_after h) in *.
    assert (short16 l) as Hl by (unfold short16 in *; rewrite length_vec16 in Hn; lia).
    destruct (vec16_at [] l [] Hl) as (hi & lo & E1 & E2 & E & G). cbn [app length Nat.add] in *. rewrite app_nil_r in *.
    rewrite E1, E2. cbn [mbind option_bind]. rewrite E. cbn [Nat.add]. rewrite G. cbn [mbind option_bind]. by apply host_name_printed.
  - rewrite <- app_assoc in *. apply short_extension in Hs as [Hd Hs]. cbn [fst] in Ht. rewrite extensions_turn by (done || lia). rewrite (proj2 (Z.eqb_neq t 0)) by lia.
    apply IH; [done|]. rewrite length_app in Hf. unfold extension at 1 in Hf. rewrite length_app, length_to_be_bytes in Hf. lia.
Qed.

Lemma hello_sni_printed h : hello_ok h -> hello_sni (hello_body h) = Some (to_ascii_lowercase <$> host h).
Proof.
  intros [_ _ Hvr Hsid Hsu Hm He _ Hb Hn Hu]. unfold hello_body, hello_sni. set (vr := version h ++ random h) in *. cbn zeta.
  rewrite <- Hvr, vec8_at. cbn [mbind option_bind]. rewrite Nat2Z.id.
  set (a := vr ++ vec8 (session h)). assert (length vr + (1 + length (session h)) = length a)%nat as -> by (unfold a; rewrite length_app; done).
  replace (vr ++ vec8 (session h) ++ vec16 (suites h) ++ vec8 (methods h) ++ vec16 (hello_exts h)) with (a ++ vec16 (suites h) ++ vec8 (methods h) ++ vec16 (hello_exts h)) by (unfold a; by rewrite <- !app_assoc).
  destruct (vec16_at a (suites h) (vec8 (methods h) ++ vec16 (hello_exts h)) Hsu) as (? & ? & -> & -> & E & _). cbn [mbind option_bind]. rewrite E.
  set (b := a ++ vec16 (suites h)). assert (length a + (2 + length (suites h)) = length b)%nat as -> by (unfold b; rewrite length_app, length_vec16; done).
  rewrite app_assoc. fold b. rewrite vec8_at. cbn [mbind option_bind]. rewrite Nat2Z.id.
  set (c := b ++ vec8 (methods h)). assert (length b + (1 + length (methods h)) = length c)%nat as -> by (unfold c; rewrite length_app; done).
  rewrite app_assoc. fold c. destruct (vec16_at c (hello_exts h) [] He) as (? & ? & E1 & E2 & E3 & E4). rewrite app_nil_r in *.
  rewrite E1, E2. cbn [mbind option_bind]. rewrite E3, E4. cbn [mbind option_bind]. by apply extensions_printed.
Qed.

Lemma record_sni_printed h : hello_ok h -> parse_client_hello_sni (hello_record h) = Some (to_ascii_lowercase <$> host h).
Proof.
  intros Hok. pose proof Hok as [Hrv Hhl _ _ _ _ _ Hr _ _ _]. unfold hello_record, parse_client_hello_sni. rewrite Z.eqb_refl. cbn [negb].
  set (m := 1 :: hello_length h ++ hello_body h) in *. destruct (vec16_at (record_version h) m [] Hr) as (hi & lo & E1 & E2 & E3 & E4). rewrite app_nil_r, Hrv in *. cbn [Nat.add] in *.
  rewrite E1, E2. cbn [mbind option_bind]. rewrite E3, length_app, length_vec16, Hrv. replace (Nat.min (length m) (2 + (2 + length m) - 4)) with (length m) by lia. cbn [Nat.add]. rewrite E4. cbn [mbind option_bind].
  unfold m. rewrite Z.eqb_refl. cbn [negb]. pose proof (get_range_at (hello_length h) (hello_body h) [] 3 (length (hello_length h ++ hello_body h))) as Hg.
  rewrite !app_nil_r in Hg. rewrite Hg by (rewrite ?length_app, ?Hhl; lia). cbn [mbind option_bind]. by apply hello_sni_printed.
Qed.

(** ** The question, as it is sent *)
Lemma valid_host_byte h b : valid_host h = true -> b ∈ h -> between 48 57 b || between 65 90 b || between 97 122 b || bool_decide (b ∈ [45; 46; 42; 95]) = true.
Proof.
  unfold valid_host, plausible_sni. rewrite !andb_true_iff. intros [_ H] Hb%list_elem_of_In. rewrite forallb_forall in H. by apply H.
Qed.

Definition clear_of (seps l : bytes) : Prop := Forall (fun b => b ∉ seps) l.

Lemma clear_split sep seps l : clear_of seps l -> sep ∈ seps -> Forall (fun b => (b =? sep) = false) l.
Proof. intros H Hs. eapply Forall_impl; [exact H|]. intros b Hb. apply Z.eqb_neq. by intros ->. Qed.

(** What separates a request line, its target, and the parameters in it. *)
Definition separators : bytes := [32; CR; LF; 35; 37; 38; 43; 61; 63].

Lemma valid_host_clear h : valid_host h = true -> clear_of separators h.
Proof.
  intros H. apply Forall_forall. intros b Hb Hin. pose proof (valid_host_byte h b H Hb) as Hv. clear -Hin Hv.
  unfold separators, CR, LF in Hin. repeat (apply elem_of_cons in Hin as [->|Hin]; [by vm_compute in Hv|]). by apply elem_of_nil in Hin.
Qed.

Definition target (path sni : bytes) : bytes := path ++ (if bool_decide (63 ∈ path) then bs "&" else bs "?") ++ bs "domain=" ++ sni.

Lemma clear_target seps path sni : clear_of seps path -> clear_of seps sni -> clear_of seps (bs "&?domain=") -> clear_of seps (target path sni).
Proof.
  intros Hp Hs Hd. unfold clear_of, target in *. rewrite !Forall_app. change (bs "&?domain=") with (bs "&" ++ bs "?" ++ bs "domain=") in Hd. rewrite !Forall_app in Hd.
  destruct Hd as (? & ? & ?). by destruct (bool_decide _).
Qed.

(** One request, for one target, which ends with the name. *)
Lemma ask_request_lines host path sni : clear_of [32; LF] path -> clear_of [LF] host -> valid_host sni = true ->
  split_on (fun b => b =? LF) (ask_request host path sni) =
    [bs "GET " ++ target path sni ++ bs " HTTP/1.1" ++ [CR]; bs "Host: " ++ host ++ [CR]; bs "Connection: close" ++ [CR]; bs "Accept: */*" ++ [CR]; [CR]; []] /\
  split_on (fun b => b =? 32) (bs "GET " ++ target path sni ++ bs " HTTP/1.1" ++ [CR]) = [bs "GET"; target path sni; bs "HTTP/1.1" ++ [CR]].
Proof.
  intros Hp Hh Hs. apply valid_host_clear in Hs.
  assert (clear_of [32; LF] sni) as Hs2 by (eapply Forall_impl; [exact Hs|]; intros b Hb Hin; apply Hb; unfold separators; set_solver).
  assert (clear_of [32; LF] (target path sni)) as Ht by (apply clear_target; [done..|]; by apply (bool_decide_eq_true_1 (Forall _ _)); vm_compute).
  split.
  - unfold ask_request. cbn zeta.
    replace (bs "GET " ++ path ++ (if bool_decide (63 ∈ path) then bs "&" else bs "?") ++ bs "domain=" ++ sni ++ bs " HTTP/1.1" ++ CRLF ++ bs "Host: " ++ host ++ CRLF ++ bs "Connection: close" ++ CRLF ++ bs "Accept: */*" ++ CRLF ++ CRLF)
      with ((bs "GET " ++ target path sni ++ bs " HTTP/1.1" ++ [CR]) ++ LF :: (bs "Host: " ++ host ++ [CR]) ++ LF :: bs "Connection: close" ++ [CR] ++ LF :: bs "Accept: */*" ++ [CR] ++ LF :: [CR; LF])
      by (unfold target, CRLF; rewrite <- !app_assoc; cbn [app]; done).
    rewrite split_on_line with (b := LF); [|rewrite !Forall_app; split_and!; [by repeat constructor|by eapply clear_split; [exact Ht|set_solver]|by repeat constructor..]|done].
    rewrite split_on_line with (b := LF); [|rewrite !Forall_app; split_and!; [by repeat constructor|by eapply clear_split; [exact Hh|set_solver]|by repeat constructor..]|done].
    reflexivity.
  - change (bs "GET ") with (bs "GET" ++ [32]). rewrite <- app_assoc. change ([32] ++ ?x) with (32 :: x). rewrite split_on_line with (b := 32); [|by repeat constructor|done].
    change (bs " HTTP/1.1" ++ [CR]) with (32 :: bs "HTTP/1.1" ++ [CR]). rewrite split_on_line with (b := 32); [|by eapply clear_split; [exact Ht|set_solver]|done]. reflexivity.
Qed.

(** ** The answer *)
Lemma split_whitespace_second a b l : forallb graphic a = true -> forallb graphic b = true -> a <> [] -> b <> [] ->
  split_whitespace (a ++ 32 :: b ++ 32 :: l) !! 1%nat = Some b.
Proof.
  intros Ha Hb Hna Hnb. unfold split_whitespace. rewrite tokens_graphic by (done || rewrite length_app; cbn; lia).
  rewrite !length_app. cbn [length]. set (bl := b ++ 32 :: l). replace (length a + S (length bl) - length a)%nat with (S (length bl)) by lia. unfold bl.
  cbn [tokens_from]. change (ws_head (32 :: b ++ 32 :: l)) with (Some [32]). cbn [app drop length]. rewrite drop_0.
  rewrite tokens_graphic by (done || rewrite length_app; lia). rewrite length_app. cbn [length app].
  replace (length b + S (length l) - length b)%nat with (S (length l)) by lia. cbn [tokens_from]. change (ws_head (32 :: l)) with (Some [32]).
  destruct a as [|x a]; [done|]. destruct b as [|y b]; [done|]. done.
Qed.

(** What is looked at begins what arrived, and goes on to the end of a line. *)
Lemma read_status_spec fuel : forall buf rx, (weight rx < fuel)%nat ->
  exists b, read_status fuel buf rx = Some b /\ b `prefix_of` buf ++ arrived rx /\ (b = buf ++ arrived rx \/ LF ∈ b \/ (ASK_CAP <= length b)%nat).
Proof.
  induction fuel as [|f IH]; intros buf rx Hf; [lia|]. cbn [read_status].
  assert (forall got rx', read ASK_CHUNK rx = (Ok got, rx') -> got <> [] -> arrived rx = got ++ arrived rx' /\ (weight rx' < weight rx)%nat) as Hr.
  { intros got rx' Hr Hne. destruct rx as [|[d|e] rx]; cbn [read] in Hr; simplify_eq. destruct (_ <=? _)%nat eqn:E; simplify_eq.
    - destruct got; [done|]. cbn. split; [done|lia].
    - apply Nat.leb_gt in E. cbn [weight arrived]. destruct (drop ASK_CHUNK d) as [|y k] eqn:Ed; [apply (f_equal length) in Ed; rewrite length_drop in Ed; cbn in Ed; lia|].
      destruct d as [|x d]; [done|]. rewrite <- Ed. split; [by rewrite app_assoc, take_drop|]. rewrite length_drop. unfold ASK_CHUNK in *. cbn in *. lia. }
  destruct (read ASK_CHUNK rx) as [[got|e] rx'] eqn:E.
  - destruct got as [|x got].
    + exists buf. assert (arrived rx = []) as ->.
      { destruct rx as [|[[|y d]|e] rx]; cbn [read] in E; try done. destruct (_ <=? _)%nat; simplify_eq. }
      rewrite app_nil_r. eauto.
    + destruct (Hr _ _ eq_refl ltac:(done)) as [Ha Hw]. set (got' := x :: got) in *. rewrite Ha, app_assoc. destruct (bool_decide _ || _) eqn:Es.
      * exists (buf ++ got'). split_and!; [done|by apply prefix_app_r|]. right. apply orb_true_iff in Es as [Es%bool_decide_eq_true|Es%Nat.leb_le]; eauto.
      * apply IH. lia.
  - exists buf. assert (arrived rx = []) as ->; [|rewrite app_nil_r; eauto]. destruct rx as [|[d|e'] rx]; cbn [read] in E; [done| |done]. by destruct (_ <=? _)%nat.
Qed.

Lemma status_first v code n rest rx : forallb graphic v = true -> forallb graphic code = true -> v <> [] -> code <> [] ->
  parse_uint 16 code = Some n -> arrived rx = v ++ 32 :: code ++ 32 :: rest -> (length v + length code + 2 <= ASK_CAP)%nat ->
  (b ← read_status (S (weight rx)) [] rx; status_in b) = Some n.
Proof.
  intros Hv Hc Hnv Hnc Hn Ha Hl. destruct (read_status_spec (S (weight rx)) [] rx ltac:(lia)) as (b & -> & Hp & Hend). cbn [mbind option_bind app] in *. rewrite Ha in *.
  assert (exists tl, b = v ++ 32 :: code ++ 32 :: tl) as (tl & ->).
  { set (P := v ++ 32 :: code ++ [32]). assert (length P = length v + length code + 2)%nat as HP by (unfold P; rewrite length_app; cbn; rewrite length_app; cbn; lia).
    assert (v ++ 32 :: code ++ 32 :: rest = P ++ rest) as E by (unfold P; rewrite <- app_assoc; cbn; by rewrite <- app_assoc). rewrite E in *.
    enough (P `prefix_of` b) as [tl ->] by (exists tl; unfold P; rewrite <- app_assoc; cbn; by rewrite <- app_assoc).
    destruct (prefix_weak_total P b (P ++ rest)) as [|Hbp]; [by apply prefix_app_r|done|done|]. destruct Hend as [->|[Hlf|Hlen]]; [by apply prefix_app_r| |].
    - exfalso. assert (LF ∈ P) as Hin by (destruct Hbp as [k ->]; apply elem_of_app; by left). unfold P in Hin. rewrite forallb_forall in Hv, Hc.
      rewrite elem_of_app, elem_of_cons, elem_of_app, list_elem_of_singleton in Hin. destruct Hin as [Hi|[Hi|[Hi|Hi]]]; try done; apply list_elem_of_In in Hi; [by specialize (Hv _ Hi)|by specialize (Hc _ Hi)].
    - pose proof (prefix_length _ _ Hbp) as Hlb. assert (length b = length P) as Hll by lia. destruct Hbp as [k Hk]. rewrite Hk, length_app in Hll. destruct k; [|cbn in Hll; lia]. rewrite app_nil_r in Hk. by rewrite Hk. }
  assert (forall l, forallb graphic l = true -> ascii_text l) as Hg.
  { intros l H. apply Forall_forall. intros c Hin%list_elem_of_In. rewrite forallb_forall in H. specialize (H _ Hin). unfold graphic in H. lia. }
  unfold status_in. rewrite (from_utf8_lossy_split 32 _ (length v)), (from_utf8_lossy_split 32 _ (length code)), !from_utf8_lossy_ascii by (auto || lia).
  by rewrite split_whitespace_second.
Qed.

(** ** The peek *)
Lemma peek_parse a : peek_sni (Some a) = parse_client_hello_sni (take PEEK a).
Proof. by destruct a. Qed.

Lemma peek_prefix a b x : peek_sni (Some a) = Some x -> peek_sni (Some (a ++ b)) = Some x.
Proof. rewrite !peek_parse. intros H. rewrite take_app. by apply sni_prefix. Qed.

Lemma peek_whole h more : hello_ok h -> (length (hello_record h) <= PEEK)%nat -> peek_sni (Some (hello_record h ++ more)) = Some (to_ascii_lowercase <$> host h).
Proof. intros Hok Hl. apply peek_prefix. rewrite peek_parse, take_ge by done. by apply record_sni_printed. Qed.

Lemma peek_part h more a x : hello_ok h -> a `prefix_of` hello_record h ++ more -> peek_sni (Some a) = Some x -> x = (to_ascii_lowercase <$> host h).
Proof.
  intros Hok Ha Hx. rewrite peek_parse in Hx. assert (take PEEK a `prefix_of` hello_record h ++ more) as [k Hk] by (etrans; [apply prefix_take|done]).
  apply (sni_prefix _ k) in Hx. rewrite <- Hk, (sni_prefix _ _ _ (record_sni_printed h Hok)) in Hx. by injection Hx.
Qed.

(** ** What is asked

    The five lines of a question about [sni], the request line cut into its
    three words. *)
Definition question_for (hst path sni q : bytes) : Prop :=
  split_on (fun b => b =? LF) q =
    [bs "GET " ++ target path sni ++ bs " HTTP/1.1" ++ [CR]; bs "Host: " ++ hst ++ [CR]; bs "Connection: close" ++ [CR]; bs "Accept: */*" ++ [CR]; [CR]; []] /\
  split_on (fun b => b =? 32) (bs "GET " ++ target path sni ++ bs " HTTP/1.1" ++ [CR]) = [bs "GET"; target path sni; bs "HTTP/1.1" ++ [CR]].

(** Nothing is opened, or one connection to the host and port of the URL, on
    which a part of [q] is sent, and all of it before there is an answer. *)
Definition asks_only (dial : bytes -> Z -> option Socket) (ask : bytes) (q : bytes -> bytes -> bytes -> Prop) (r : option bool * option (bytes * Z * sink)) : Prop :=
  match r with
  | (a, None) => a = None
  | (a, Some (hst, port, tx)) =>
      exists path s question sent, split_http_url ask = Some (hst, port, path) /\ dial hst port = Some s /\ q hst path question /\
        wire tx = wire (s_tx s) ++ sent /\ sent `prefix_of` question /\ (a <> None -> sent = question)
  end.

Lemma split_http_url_clear seps url hst port path : clear_of seps url -> clear_of seps (bs "/") -> split_http_url url = Some (hst, port, path) -> clear_of seps hst /\ clear_of seps path.
Proof.
  intros Hc Hs H. unfold split_http_url in H. apply bind_Some in H as (rest & Hr & H). apply strip_prefix_Some in Hr as ->. apply Forall_app in Hc as [_ Hc].
  assert (exists authority, clear_of seps authority /\ clear_of seps path /\ (hst = authority \/ exists i, hst = take i authority)) as (au & Ha & Hp & Hh).
  { destruct (position (fun b => b =? 47) rest) as [i|];
      (destruct (rposition _ _) as [j|]; [apply bind_Some in H as ([h p] & Hb & H); apply bind_Some in Hb as (p' & _ & [= <- <-])|cbn [mbind option_bind] in H]);
      case_bool_decide; try done; injection H as <- <- <-;
      (eexists; split_and!; [|try done; by apply Forall_drop|]; [|eauto]); try (by apply Forall_take); done. }
  split; [|done]. destruct Hh as [->|[i ->]]; [done|by apply Forall_take].
Qed.

Lemma ask_asks_only dial ask sni : valid_host sni = true -> clear_of [32; LF] ask -> asks_only dial ask (fun hst path => question_for hst path sni) (ask_site_exists dial ask sni).
Proof.
  intros Hv Hc. unfold ask_site_exists. destruct (split_http_url ask) as [[[hst port] path]|] eqn:Hu; [|done]. destruct (dial hst port) as [s|] eqn:Hd; [|done].
  destruct (split_http_url_clear [32; LF] ask hst port path Hc) as [Hh Hp]; [by apply (bool_decide_eq_true_1 (Forall _ _)); vm_compute|done|].
  assert (question_for hst path sni (ask_request hst path sni)) as Hq.
  { apply ask_request_lines; [done| |done]. eapply Forall_impl; [exact Hh|]. set_solver. }
  destruct (write_all _ _) as [r tx] eqn:Hw. pose proof (write_all_wire _ _ _ _ Hw) as (sent & Hsent & Hwire).
  destruct r as [u|e]; cbn [asks_only]; exists path, s, (ask_request hst path sni).
  - apply write_all_Ok in Hw as [_ ->]. exists (ask_request hst path sni). cbn [wire]. by split_and!.
  - exists sent. by split_and!.
Qed.

Lemma ask_understood dial ask sni hst port path s v code n rest : split_http_url ask = Some (hst, port, path) -> dial hst port = Some s ->
  (length (ask_request hst path sni) <= room (s_tx s))%nat -> arrived (s_rx s) = v ++ 32 :: code ++ 32 :: rest ->
  forallb graphic v = true -> forallb graphic code = true -> v <> [] -> code <> [] -> (length v + length code + 2 <= ASK_CAP)%nat ->
  parse_uint 16 code = Some n -> fst (ask_site_exists dial ask sni) = Some ((200 <=? n) && (n <? 300)).
Proof.
  intros Hu Hd Hroom Ha Hv Hc Hnv Hnc Hl Hn. unfold ask_site_exists. rewrite Hu, Hd, write_all_ok by done. pose proof (status_first v code n rest _ Hv Hc Hnv Hnc Hn Ha Hl) as H.
  destruct (read_status _ _ _) as [b|]; [|done]. cbn [mbind option_bind fst] in *. by rewrite H.
Qed.


(** ** Examples *)
Definition sample_hello : Hello :=
  mkHello [3; 1] [0; 0; 0] [3; 3] (replicate 32 0) [] [0x13; 1] [0] [(43, [2; 3; 4])] [] (bs "A.apps.example.test") [] [].

Lemma sample_hello_ok : hello_ok sample_hello.
Proof. split; try (vm_compute; reflexivity); repeat constructor; cbn; lia. Qed.

Definition authorizer (reply : string) (host : bytes) (port : Z) : option Socket :=
  if bytes_eqb host (bs "gateway") && (port =? 8080) then Some (mkSocket [Data (bs "HTTP/"); Data (bs reply ++ CRLF)] (Sink [] 4096 [])) else None.


(** Something that is not a hello, a part of one, and a name that is the
    directory the leaves are kept in. *)
Example peeks :
  peek_sni (Some [23; 3; 3; 0; 0]) = None /\ peek_sni (Some (take 60 (hello_record sample_hello))) = None /\
  peek_sni (Some (hello_record sample_hello)) = Some (bs "a.apps.example.test") /\ valid_host (bs ".") = true.
Proof. vm_compute. auto. Qed.
