(* ===== verification/OnDemand.v ===== *)
(** * On-demand certificates ([tls/ondemand.rs])

    What is served to a name: the cache of decisions, the lock per name, the
    authorizer, the leaf on disk and the issuer. Handshakes and the renewal
    sweep are threads; each takes the cache, a lock, a file, the clock or the
    outside world in one step, and between any two steps the others move, the
    clock advances and the files change in any way (the issuer, another process,
    an operator). A file is read in one step. The lines of the log and the
    issuer's environment are not modelled; a poisoned mutex is entered as an
    unpoisoned one, as in the source.

    C30: orders for a name are spaced and authorized, leaves are usable, and
    nobody waits for ever for a lock except a thread that waits for its own. *)
From S2P Require Import Prelude Bytes Text Io Connect Renewal Sni.

Local Open Scope Z_scope.

Record SniCert := mkSniCert { cert_der : bytes; priv_scalar : bytes }.

Inductive Resolution := Serve (c : SniCert) | Refuse | Passthrough.

Record Cfg := mkCfg {
  od_dir_url : bytes; ask_url : option bytes; od_webroot : bytes; od_cache_dir : bytes; od_issue_bin : bytes;
  od_contact : option bytes; od_account_key : option bytes; cooldown : Z (* seconds *)
}.

(** An instant is a number of nanoseconds. *)
Inductive Entry := Ready (cert : SniCert) (mtime : option Z) | Denied (until : Z) | Failed (until : Z).

Definition SECOND : Z := 10 ^ 9.

(** ** Configuration *)
Definition cfg (getenv : string -> option bytes) : option Cfg :=
  dir_url ← env_opt getenv "DRORB_TLS_ONDEMAND";
  let cache_dir := default (bs "ondemand-tls") (env_opt getenv "DRORB_TLS_ONDEMAND_DIR") in
  let webroot := match env_opt getenv "DRORB_TLS_ONDEMAND_WEBROOT" with
                 | Some w => w
                 | None => default cache_dir (env_opt getenv "DRORB_ACME_WEBROOT")
                 end in
  let cooldown := default 300 (env_opt getenv "DRORB_TLS_ONDEMAND_COOLDOWN" ≫= parse_uint 64) in
  Some (mkCfg dir_url (env_opt getenv "DRORB_TLS_ONDEMAND_ASK") webroot cache_dir
          (default (bs ".lake/build/bin/acme-issue") (env_opt getenv "DRORB_ACME_ISSUE_BIN")) (env_opt getenv "DRORB_ACME_CONTACT")
          (env_opt getenv "DRORB_ACME_ACCOUNT_KEY") cooldown).

(** The issuer's arguments. *)
Definition mint_args (c : Cfg) (sni : bytes) : list bytes :=
  [od_dir_url c; sni; od_webroot c; od_cache_dir c ++ 47 :: sni] ++ match od_contact c with Some k => [k] | None => [] end.

(** ** Decisions *)
Inductive Snap := Hit (c : SniCert) (mtime : option Z) | Refused | Lapsed | Missing.

Definition snapshot (now : Z) (e : option Entry) : Snap :=
  match e with
  | Some (Ready c m) => Hit c m
  | Some (Denied until) | Some (Failed until) => if now <? until then Refused else Lapsed
  | None => Missing
  end.

Definition disk_is_newer (disk stored : option Z) : bool :=
  match disk, stored with
  | Some d, Some cur => cur <? d
  | Some _, None => true
  | None, _ => false
  end.

(** A leaf that may be loaded. *)
Definition usable (cert key : bytes) : bool := negb (bool_decide (cert = []) || negb (length key =? 32)%nat).

(** What an [Instant] can hold. *)
Definition instant_ok (t : Z) : bool := t <? 2 ^ 63 * SECOND.

(** ** Threads *)

(** Who reloads a leaf: a handshake with the leaf it found, before it holds the
    lock of the name or while it holds it; or the sweep. *)
Inductive Reload := RFast (old : SniCert) | RLocked (old : SniCert) | RSweep.

Inductive Load := Reloading (r : Reload) | Persisted | Minted.

Inductive Outcome := Resolved (r : Resolution) | Reloaded (fresh : bool) | Panicked.

(** The next thing a thread does; [locked] tells the second look at the cache
    from the first. *)
Inductive Pc :=
  | Start
  | SweepStart
  | Look (locked : bool)
  | Stat (locked : bool) (c : SniCert) (stored : option Z)
  | Enter
  | Take
  | Asking
  | ReadCert (l : Load)
  | ReadKey (l : Load) (cert : bytes)
  | ReadMtime (l : Load) (cert key : bytes)
  | Ordering
  | Running
  | Negative (denied : bool)
  | Storing (e : Entry) (o : Outcome)
  | Unlock (o : Outcome)
  | ReloadEnter (r : Reload)
  | ReloadTake (r : Reload)
  | ReloadStore (r : Reload) (c : SniCert) (mtime : option Z)
  | ReloadUnlock (r : Reload) (fresh : option SniCert)
  | Done (o : Outcome).

Record Thread := mkThread { sni : bytes; pc : Pc }.

Record Files := mkFiles { f_cert : option bytes; f_key : option bytes; f_mtime : option Z }.

(** [answers], [orders] and [swept] record what happened: the authorizer's
    answers, the starts of the issuer, the names the sweep reloaded. *)
Record System := mkSystem {
  clock : Z; cache : gmap bytes Entry; locks : gmap bytes (option nat); disk : gmap bytes Files; threads : list Thread;
  answers : list (bytes * option bool); orders : list (Z * bytes); swept : gset bytes
}.

Definition files (n : bytes) (s : System) : Files := default (mkFiles None None None) (disk s !! n).

Definition goto (i : nat) (n : bytes) (p : Pc) (s : System) : System :=
  mkSystem (clock s) (cache s) (locks s) (disk s) (<[i := mkThread n p]> (threads s)) (answers s) (orders s) (swept s).
Definition set_cache (c : gmap bytes Entry) (s : System) : System := mkSystem (clock s) c (locks s) (disk s) (threads s) (answers s) (orders s) (swept s).
Definition set_locks (l : gmap bytes (option nat)) (s : System) : System := mkSystem (clock s) (cache s) l (disk s) (threads s) (answers s) (orders s) (swept s).

Definition store (n : bytes) (e : Entry) (s : System) : System := set_cache (<[n := e]> (cache s)) s.

(** [sni_lock]: the lock of a name, created free on its first use. *)
Definition sni_lock (n : bytes) (s : System) : System := set_locks (<[n := default None (locks s !! n)]> (locks s)) s.
Definition acquire (i : nat) (n : bytes) (s : System) : option System :=
  match locks s !! n with Some None => Some (set_locks (<[n := Some i]> (locks s)) s) | _ => None end.
Definition release (n : bytes) (s : System) : System := set_locks (<[n := None]> (locks s)) s.

Definition finish (locked : bool) (o : Outcome) : Pc := if locked then Unlock o else Done o.

Definition not_loaded (l : Load) : Pc :=
  match l with Reloading r => ReloadUnlock r None | Persisted => Ordering | Minted => Negative false end.
Definition loaded (l : Load) (c : SniCert) (mtime : option Z) : Pc :=
  match l with Reloading r => ReloadStore r c mtime | Persisted | Minted => Storing (Ready c mtime) (Resolved (Serve c)) end.

(** After [reload_into_cache]: a handshake serves what it reloaded, or what it
    had. *)
Definition reloaded (r : Reload) (fresh : option SniCert) : Pc :=
  match r with
  | RFast old => Done (Resolved (Serve (default old fresh)))
  | RLocked old => Unlock (Resolved (Serve (default old fresh)))
  | RSweep => Done (Reloaded (bool_decide (is_Some fresh)))
  end.

Section ondemand.
Context (config : option Cfg).

(** The steps of [resolve] ([serve_cached], [load_from_disk], [store]) and of
    [reload_sni] ([reload_into_cache]) that need no answer from outside. *)
Definition thread_step (i : nat) (t : Thread) (s : System) : option System :=
  let n := sni t in
  let go p s := goto i n p s in
  match config with
  | None => match pc t with
            | Start => Some (go (Done (Resolved Passthrough)) s)
            | SweepStart => Some (go (Done (Reloaded false)) s)
            | _ => None
            end
  | Some c =>
      match pc t with
      | Start => Some (go (if valid_host n then Look false else Done (Resolved Passthrough)) s)
      | SweepStart => Some (go (if valid_host n then ReloadEnter RSweep else Done (Reloaded false)) s)
      | Look locked =>
          let miss := if locked then Asking else Enter in
          match snapshot (clock s) (cache s !! n) with
          | Hit leaf m => Some (go (Stat locked leaf m) s)
          | Refused => Some (go (finish locked (Resolved Refuse)) s)
          | Lapsed => Some (go miss (set_cache (delete n (cache s)) s))
          | Missing => Some (go miss s)
          end
      | Stat locked leaf stored =>
          if disk_is_newer (f_mtime (files n s)) stored
          then Some (go (ReloadEnter (if locked then RLocked leaf else RFast leaf)) s)
          else Some (go (finish locked (Resolved (Serve leaf))) s)
      | Enter => Some (go Take (sni_lock n s))
      | Take => go (Look true) <$> acquire i n s
      | Asking => match ask_url c with None => Some (go (ReadCert Persisted) s) | Some _ => None end
      | ReadCert l => Some (go (match f_cert (files n s) with Some cert => ReadKey l cert | None => not_loaded l end) s)
      | ReadKey l cert =>
          Some (go (match f_key (files n s) with
                    | Some key => if usable cert key then ReadMtime l cert key else not_loaded l
                    | None => not_loaded l
                    end) s)
      | ReadMtime l cert key => Some (go (loaded l (mkSniCert cert key) (f_mtime (files n s))) s)
      | Ordering | Running => None
      | Negative denied =>
          let until := clock s + cooldown c * SECOND in
          Some (go (if instant_ok until then Storing ((if denied then Denied else Failed) until) (Resolved Refuse) else Unlock Panicked) s)
      | Storing e o => Some (go (Unlock o) (store n e s))
      | Unlock o => Some (go (Done o) (release n s))
      | ReloadEnter r => Some (go (ReloadTake r) (sni_lock n s))
      | ReloadTake r => go (ReadCert (Reloading r)) <$> acquire i n s
      | ReloadStore r leaf m =>
          let s' := store n (Ready leaf m) s in
          Some (go (ReloadUnlock r (Some leaf))
                  (mkSystem (clock s') (cache s') (locks s') (disk s') (threads s') (answers s') (orders s')
                     (match r with RSweep => {[n]} ∪ swept s' | _ => swept s' end)))
      | ReloadUnlock r fresh => Some (go (reloaded r fresh) (release n s))
      | Done _ => None
      end
  end.

(** The authorizer's answer, over what dialling it gives. *)
Definition answer_step (i : nat) (t : Thread) (dial : bytes -> Z -> option Socket) (s : System) : option System :=
  match config, pc t with
  | Some c, Asking =>
      ask ← ask_url c;
      let a := fst (ask_site_exists dial ask (sni t)) in
      let p := match a with Some true => ReadCert Persisted | Some false => Negative true | None => Negative false end in
      Some (goto i (sni t) p (mkSystem (clock s) (cache s) (locks s) (disk s) (threads s) (answers s ++ [(sni t, a)]) (orders s) (swept s)))
  | _, _ => None
  end.

(** [mint]: the directories are made and the issuer is started, or not; then it
    exits. *)
Definition order_step (i : nat) (t : Thread) (started : bool) (s : System) : option System :=
  match config, pc t with
  | Some _, Ordering =>
      Some (if started
            then goto i (sni t) Running (mkSystem (clock s) (cache s) (locks s) (disk s) (threads s) (answers s) (orders s ++ [(clock s, sni t)]) (swept s))
            else goto i (sni t) (Negative false) s)
  | _, _ => None
  end.
Definition exit_step (i : nat) (t : Thread) (success : bool) (s : System) : option System :=
  match config, pc t with
  | Some _, Running => Some (goto i (sni t) (if success then ReadCert Minted else Negative false) s)
  | _, _ => None
  end.

Inductive Label :=
  | LTick (d : Z)
  | LDisk (n : bytes) (f : Files)
  | LHandshake (n : bytes)
  | LSweep (n : bytes)
  | LStep (i : nat)
  | LAnswer (i : nat) (dial : bytes -> Z -> option Socket)
  | LOrder (i : nat) (started : bool)
  | LExit (i : nat) (success : bool).

(** The clock of the machine stays below [2^62] seconds. *)
Definition CLOCK_MAX : Z := 2 ^ 62 * SECOND.

Definition spawn (t : Thread) (s : System) : System :=
  mkSystem (clock s) (cache s) (locks s) (disk s) (threads s ++ [t]) (answers s) (orders s) (swept s).

Definition step (l : Label) (s : System) : option System :=
  match l with
  | LTick d => if (0 <=? d) && (clock s + d <? CLOCK_MAX)
               then Some (mkSystem (clock s + d) (cache s) (locks s) (disk s) (threads s) (answers s) (orders s) (swept s)) else None
  | LDisk n f => Some (mkSystem (clock s) (cache s) (locks s) (<[n := f]> (disk s)) (threads s) (answers s) (orders s) (swept s))
  | LHandshake n => Some (spawn (mkThread n Start) s)
  | LSweep n => Some (spawn (mkThread n SweepStart) s)
  | LStep i => t ← threads s !! i; thread_step i t s
  | LAnswer i dial => t ← threads s !! i; answer_step i t dial s
  | LOrder i b => t ← threads s !! i; order_step i t b s
  | LExit i b => t ← threads s !! i; exit_step i t b s
  end.

Definition mover (l : Label) : option nat :=
  match l with LStep i | LAnswer i _ | LOrder i _ | LExit i _ => Some i | _ => None end.

Definition start (now : Z) (d : gmap bytes Files) : System := mkSystem now ∅ ∅ d [] [] [] ∅.
End ondemand.

(** ** The invariant *)
Definition held_by_reload (r : Reload) : bool := match r with RLocked _ => true | _ => false end.

(** The thread holds the lock of its name. *)
Definition holds (p : Pc) : bool :=
  match p with
  | Look b | Stat b _ _ => b
  | Asking | ReadCert _ | ReadKey _ _ | ReadMtime _ _ _ | Ordering | Running | Negative _ | Storing _ _ | Unlock _ | ReloadStore _ _ _ | ReloadUnlock _ _ => true
  | ReloadEnter r | ReloadTake r => held_by_reload r
  | Start | SweepStart | Enter | Take | Done _ => false
  end.

Definition issuing (l : Load) : bool := match l with Reloading _ => false | _ => true end.
Definition minted (l : Load) : bool := match l with Minted => true | _ => false end.

(** Under the lock, after the second look found nothing. *)
Definition critical (p : Pc) : bool :=
  match p with
  | Asking | Ordering | Running | Negative _ | Storing _ _ => true
  | ReadCert l | ReadKey l _ | ReadMtime l _ _ => issuing l
  | _ => false
  end.

(** What will settle an order is still to be stored. *)
Definition pending (p : Pc) : bool :=
  match p with
  | Running | Negative _ | Storing _ _ => true
  | ReadCert l | ReadKey l _ | ReadMtime l _ _ => minted l
  | _ => false
  end.

Section invariant.
Context (c : Cfg) (Hcd : 0 <= cooldown c <= 2 ^ 62).

Local Abbreviation gap := (cooldown c * SECOND).
Local Abbreviation step := (step (Some c)).

Definition good (l : SniCert) : Prop := usable (cert_der l) (priv_scalar l) = true.
Definition approved (s : System) (n : bytes) : Prop := ask_url c = None \/ (n, Some true) ∈ answers s.
Definition vouched (s : System) (n : bytes) : Prop := approved s n \/ n ∈ swept s.

Definition reload_ok (s : System) (n : bytes) (r : Reload) : Prop :=
  match r with RFast old | RLocked old => good old /\ vouched s n | RSweep => True end.
(** Past [ReloadTake], where a thread that holds the lock never gets. *)
Definition taken_ok (s : System) (n : bytes) (r : Reload) : Prop := reload_ok s n r /\ held_by_reload r = false.
Definition load_ok (s : System) (n : bytes) (l : Load) : Prop :=
  match l with Reloading r => taken_ok s n r | Persisted | Minted => approved s n end.
Definition outcome_ok (s : System) (n : bytes) (o : Outcome) : Prop :=
  match o with Resolved (Serve l) => valid_host n = true /\ good l /\ vouched s n | _ => True end.
Definition entry_ok (s : System) (n : bytes) (e : Entry) (o : Outcome) : Prop :=
  match e with
  | Ready l _ => good l /\ approved s n /\ o = Resolved (Serve l)
  | Denied u | Failed u => o = Resolved Refuse /\ forall t0, (t0, n) ∈ orders s -> t0 + gap <= u
  end.

Definition pc_ok (s : System) (n : bytes) (p : Pc) : Prop :=
  match p with
  | Start | SweepStart => True
  | Unlock o | Done o => outcome_ok s n o
  | _ => valid_host n = true /\
      match p with
      | Stat _ l _ => good l /\ vouched s n
      | ReadCert l | ReadKey l _ => load_ok s n l
      | ReadMtime l cert key => load_ok s n l /\ usable cert key = true
      | Ordering | Running => approved s n
      | Storing e o => entry_ok s n e o
      | ReloadEnter r | ReloadTake r => reload_ok s n r
      | ReloadStore r l _ => taken_ok s n r /\ good l
      | ReloadUnlock r fresh => taken_ok s n r /\ forall l, fresh = Some l -> good l /\ vouched s n
      | _ => True
      end
  end.

Record thread_ok (s : System) (i : nat) (t : Thread) : Prop := {
  t_holds : holds (pc t) = true -> locks s !! sni t = Some (Some i);
  t_critical : critical (pc t) = true -> cache s !! sni t = None;
  t_pc : pc_ok s (sni t) (pc t)
}.

Definition settled (s : System) (t0 : Z) (n : bytes) : Prop :=
  match cache s !! n with
  | Some (Ready _ _) => True
  | Some (Denied u) | Some (Failed u) => t0 + gap <= u
  | None => t0 + gap <= clock s \/ exists i t, threads s !! i = Some t /\ sni t = n /\ pending (pc t) = true
  end.

Record inv (s : System) : Prop := {
  i_clock : clock s < CLOCK_MAX;
  i_threads : forall i t, threads s !! i = Some t -> thread_ok s i t;
  i_locks : forall n i, locks s !! n = Some (Some i) -> exists t, threads s !! i = Some t /\ sni t = n /\ holds (pc t) = true;
  i_ready : forall n l m, cache s !! n = Some (Ready l m) -> good l /\ vouched s n;
  i_orders : forall t0 n, (t0, n) ∈ orders s -> valid_host n = true /\ approved s n /\ t0 <= clock s /\ settled s t0 n;
  i_spaced : spaced gap (orders s)
}.

Lemma critical_holds p : critical p = true -> holds p = true.
Proof. by destruct p as [| |[]|[]| | | | | | | | | | | |[]|[]| | |]. Qed.

Lemma pending_critical p : pending p = true -> critical p = true.
Proof. destruct p; try done; by destruct l. Qed.

Lemma thread_lock s i t : inv s -> threads s !! i = Some t -> holds (pc t) = true -> locks s !! sni t = Some (Some i).
Proof. intros H Ht. apply (i_threads _ H _ _ Ht). Qed.

(** What the ghost records only grows. *)
Definition grows (s s' : System) : Prop := (forall x, x ∈ answers s -> x ∈ answers s') /\ swept s ⊆ swept s'.

Lemma approved_grows s s' n : grows s s' -> approved s n -> approved s' n.
Proof. intros [H _] [Ha|Ha]; [by left|right; by apply H]. Qed.

Lemma vouched_grows s s' n : grows s s' -> vouched s n -> vouched s' n.
Proof. intros Hg [Ha|Ha]; [left; by eapply approved_grows|right; by apply Hg]. Qed.

Lemma reload_ok_grows s s' n r : grows s s' -> reload_ok s n r -> reload_ok s' n r.
Proof. intros Hg. destruct r; cbn; [intros []; eauto using vouched_grows..|done]. Qed.

Lemma load_ok_grows s s' n l : grows s s' -> load_ok s n l -> load_ok s' n l.
Proof. intros Hg. destruct l; cbn; [|by apply approved_grows..]. intros []. split; [by eapply reload_ok_grows|done]. Qed.

Lemma pc_ok_grows s s' n p : grows s s' -> (holds p = true -> forall t0, (t0, n) ∈ orders s' -> (t0, n) ∈ orders s) -> pc_ok s n p -> pc_ok s' n p.
Proof.
  intros Hg Ho. assert (forall o, outcome_ok s n o -> outcome_ok s' n o) as Hout.
  { intros [[l| |]| |]; cbn; try done. intros (? & ? & ?). eauto using vouched_grows. }
  destruct p; cbn [pc_ok]; try done; try (by apply Hout); intros [Hv H]; split; try done.
  - destruct H. eauto using vouched_grows.
  - by eapply load_ok_grows.
  - by eapply load_ok_grows.
  - destruct H. split; [by eapply load_ok_grows|done].
  - by eapply approved_grows.
  - by eapply approved_grows.
  - destruct e; cbn in *; [destruct H as (? & ? & ?); split_and!; [done|by eapply approved_grows|done]|..]; destruct H as [? H]; split; try done; intros; apply H; by apply Ho.
  - by eapply reload_ok_grows.
  - by eapply reload_ok_grows.
  - destruct H as [[? ?] ?]. split; [split|]; [by eapply reload_ok_grows|done..].
  - destruct H as [[? ?] H]. split; [split; [by eapply reload_ok_grows|done]|]. intros l Hl. destruct (H l Hl). eauto using vouched_grows.
Qed.

(** One thread moves: what it must leave as it was, and what it must restore. *)
Record Move (s : System) (i : nat) (t : Thread) (p : Pc) (s' : System) : Prop := {
  m_threads : threads s' = <[i := mkThread (sni t) p]> (threads s);
  m_clock : clock s' = clock s;
  m_grows : grows s s';
  m_locks : forall n, n <> sni t -> locks s' !! n = locks s !! n;
  m_others : forall j, j <> i -> locks s' !! sni t = Some (Some j) <-> locks s !! sni t = Some (Some j);
  m_holds : holds p = true <-> locks s' !! sni t = Some (Some i);
  m_cache : forall n, n <> sni t -> cache s' !! n = cache s !! n;
  m_own : cache s' !! sni t = cache s !! sni t \/ cache s' !! sni t = None \/ holds (pc t) = true;
  m_critical : critical p = true -> cache s' !! sni t = None;
  m_pc : pc_ok s' (sni t) p;
  m_ready : forall l m, cache s' !! sni t = Some (Ready l m) -> good l /\ vouched s' (sni t);
  m_orders : forall t0 n, n <> sni t -> (t0, n) ∈ orders s' <-> (t0, n) ∈ orders s;
  m_more : holds (pc t) = true \/ orders s' = orders s;
  m_settled : forall t0, (t0, sni t) ∈ orders s' -> valid_host (sni t) = true /\ approved s' (sni t) /\ t0 <= clock s' /\ settled s' t0 (sni t);
  m_spaced : spaced gap (orders s')
}.

Lemma od_move_inv s i t p s' : inv s -> threads s !! i = Some t -> Move s i t p s' -> inv s'.
Proof.
  intros Hi Ht [Mt Mc Mg Ml Mo Mh Mca Mown Mcr Mpc Mr Mord Mmore Mset Msp]. pose proof (lookup_lt_Some _ _ _ Ht) as Hlt.
  assert (forall j, j <> i -> threads s' !! j = threads s !! j) as Hj by (intros j Hj; rewrite Mt; by apply list_lookup_insert_ne).
  assert (threads s' !! i = Some (mkThread (sni t) p)) as Hi' by (rewrite Mt; by apply list_lookup_insert_eq).
  constructor.
  - rewrite Mc. apply Hi.
  - intros j u Hu. destruct (decide (j = i)) as [->|Hne].
    + rewrite Hi' in Hu. injection Hu as <-. constructor; cbn [sni pc]; [apply Mh|done|done].
    + rewrite Hj in Hu by done. pose proof (i_threads _ Hi _ _ Hu) as [Uh Uc Up].
      assert (holds (pc u) = true -> locks s' !! sni u = Some (Some j)) as Uh'.
      { intros H. destruct (decide (sni u = sni t)) as [E|E]; [|rewrite Ml by done; auto]. rewrite E. apply Mo; [done|]. rewrite <- E. auto. }
      assert (sni u = sni t -> holds (pc u) = true -> holds (pc t) = true -> False) as Hx.
      { intros E H1 H2. pose proof (thread_lock _ _ _ Hi Ht H2) as H3. rewrite <- E, (Uh H1) in H3. congruence. }
      constructor; [done| |].
      * intros Hc. pose proof (Uc Hc) as Hn. destruct (decide (sni u = sni t)) as [E|E]; [|rewrite Mca by done; done].
        rewrite E in *. destruct Mown as [H|[H|H]]; [by rewrite H|done|]. exfalso. apply Hx; [done|by apply critical_holds|done].
      * eapply pc_ok_grows; [done| |exact Up]. intros Hh t0 Ho. destruct (decide (sni u = sni t)) as [E|E]; [|by apply Mord].
        destruct Mmore as [H|H]; [exfalso; by apply Hx|]. by rewrite <- H.
  - intros n j Hl. destruct (decide (j = i)) as [->|Hne].
    + destruct (decide (n = sni t)) as [->|E]; [exists (mkThread (sni t) p); rewrite Mh; done|].
      rewrite Ml in Hl by done. apply (i_locks _ Hi) in Hl as (u & Hu & <- & _). congruence.
    + rewrite Hj by done. destruct (decide (n = sni t)) as [->|E]; [rewrite Mo in Hl by done|rewrite Ml in Hl by done]; by apply (i_locks _ Hi).
  - intros n l m Hl. destruct (decide (n = sni t)) as [->|E]; [by eapply Mr|]. rewrite Mca in Hl by done. destruct (i_ready _ Hi _ _ _ Hl). eauto using vouched_grows.
  - intros t0 n Ho. destruct (decide (n = sni t)) as [->|E]; [by apply Mset|]. rewrite Mord in Ho by done. destruct (i_orders _ Hi _ _ Ho) as (? & ? & ? & Hs).
    split_and!; [done|by eapply approved_grows|lia|]. unfold settled in *. rewrite Mca, Mc by done. destruct (cache s !! n) as [[]|]; try done.
    destruct Hs as [Hs|(j & u & Hu & En & Hp)]; [by left|right]. exists j, u. rewrite Hj; [done|]. intros ->. congruence.
  - done.
Qed.

Lemma holds_lock s i t : inv s -> threads s !! i = Some t -> holds (pc t) = true <-> locks s !! sni t = Some (Some i).
Proof.
  intros Hi Ht. split; [by apply thread_lock|]. intros Hl. apply (i_locks _ Hi) in Hl as (u & Hu & _ & Hh). congruence.
Qed.

(** The entry of the name and the orders stay. *)
Lemma move_keep s i t p s' : inv s -> threads s !! i = Some t ->
  threads s' = <[i := mkThread (sni t) p]> (threads s) -> clock s' = clock s -> cache s' = cache s -> orders s' = orders s -> grows s s' ->
  (forall n, n <> sni t -> locks s' !! n = locks s !! n) ->
  (forall j, j <> i -> locks s' !! sni t = Some (Some j) <-> locks s !! sni t = Some (Some j)) ->
  (holds p = true <-> locks s' !! sni t = Some (Some i)) ->
  (critical p = true -> cache s !! sni t = None) -> (pending (pc t) = true -> pending p = true) -> pc_ok s' (sni t) p ->
  inv s'.
Proof.
  intros Hi Ht Et Ec Eca Eo Hg Hl Ho Hh Hcr Hpe Hpc. pose proof (lookup_lt_Some _ _ _ Ht) as Hlt. eapply od_move_inv; [exact Hi|exact Ht|]. constructor; try done.
  - intros n _. by rewrite Eca.
  - left. by rewrite Eca.
  - by rewrite Eca.
  - intros l m H. rewrite Eca in H. destruct (i_ready _ Hi _ _ _ H). eauto using vouched_grows.
  - intros t0 n _. by rewrite Eo.
  - by right.
  - intros t0 H. rewrite Eo in H. destruct (i_orders _ Hi _ _ H) as (? & ? & ? & Hs). split_and!; [done|by eapply approved_grows|lia|].
    unfold settled in *. rewrite Eca, Ec. destruct (cache s !! sni t) as [[]|]; try done. destruct Hs as [Hs|(j & u & Hu & En & Hp)]; [by left|right].
    destruct (decide (j = i)) as [->|Hne].
    + exists i, (mkThread (sni t) p). rewrite Et, list_lookup_insert_eq by done. simplify_eq. auto.
    + exists j, u. rewrite Et, list_lookup_insert_ne by done. done.
  - rewrite Eo. apply Hi.
Qed.

(** Only the thread and the record change. *)
Lemma move_quiet s i t p s' : inv s -> threads s !! i = Some t ->
  threads s' = <[i := mkThread (sni t) p]> (threads s) -> clock s' = clock s -> cache s' = cache s -> orders s' = orders s -> grows s s' -> locks s' = locks s ->
  holds p = holds (pc t) -> (critical p = true -> cache s !! sni t = None) -> (pending (pc t) = true -> pending p = true) -> pc_ok s' (sni t) p -> inv s'.
Proof.
  intros Hi Ht Et Ec Eca Eo Hg El Eh Hcr Hpe Hpc. eapply move_keep; try done.
  - intros n _. by rewrite El.
  - intros j _. by rewrite El.
  - rewrite Eh, El. by apply holds_lock.
Qed.

Lemma move_goto s i t p : inv s -> threads s !! i = Some t -> holds p = holds (pc t) -> (critical p = true -> cache s !! sni t = None) ->
  (pending (pc t) = true -> pending p = true) -> pc_ok s (sni t) p -> inv (goto i (sni t) p s).
Proof.
  intros Hi Ht Eh Hcr Hpe Hpc. assert (grows s (goto i (sni t) p s)) as Hg by done.
  eapply move_quiet; try done.
Qed.

Lemma sni_lock_inv s i t p : inv s -> threads s !! i = Some t -> holds p = holds (pc t) -> critical p = false -> pending (pc t) = false -> pc_ok s (sni t) p ->
  inv (goto i (sni t) p (sni_lock (sni t) s)).
Proof.
  intros Hi Ht Eh Hcr Hpe Hpc. assert (forall x, locks (sni_lock (sni t) s) !! sni t = Some (Some x) <-> locks s !! sni t = Some (Some x)) as Hx.
  { intros x. unfold sni_lock. cbn [locks set_locks]. rewrite lookup_insert_eq. destruct (locks s !! sni t) as [[j|]|]; cbn; naive_solver. }
  eapply move_keep; try done; cbn [goto locks].
  - intros n Hn. unfold sni_lock. cbn [locks set_locks]. by rewrite lookup_insert_ne.
  - rewrite Eh, Hx. by apply holds_lock.
  - congruence.
  - congruence.
Qed.

Lemma acquire_inv s i t p s1 : inv s -> threads s !! i = Some t -> acquire i (sni t) s = Some s1 -> holds p = true -> critical p = false -> pending (pc t) = false ->
  pc_ok s (sni t) p -> inv (goto i (sni t) p s1).
Proof.
  intros Hi Ht Ha Eh Hcr Hpe Hpc. unfold acquire in Ha. destruct (locks s !! sni t) as [[|]|] eqn:El; simplify_eq.
  eapply move_keep; try done; cbn [goto locks set_locks].
  - intros n Hn. by rewrite lookup_insert_ne.
  - intros j Hj. rewrite lookup_insert_eq, El. naive_solver.
  - by rewrite lookup_insert_eq.
  - congruence.
  - congruence.
Qed.

Lemma od_release_inv s i t p : inv s -> threads s !! i = Some t -> holds (pc t) = true -> holds p = false -> critical p = false -> pending (pc t) = false ->
  pc_ok s (sni t) p -> inv (goto i (sni t) p (release (sni t) s)).
Proof.
  intros Hi Ht Hh Eh Hcr Hpe Hpc. pose proof (thread_lock _ _ _ Hi Ht Hh) as El. eapply move_keep; try done; cbn [goto locks release set_locks].
  - intros n Hn. by rewrite lookup_insert_ne.
  - intros j Hj. rewrite lookup_insert_eq, El. naive_solver.
  - rewrite lookup_insert_eq, Eh. naive_solver.
  - congruence.
  - congruence.
Qed.

(** The entry of the name changes. *)
Lemma entry_inv s i t p s' : inv s -> threads s !! i = Some t ->
  threads s' = <[i := mkThread (sni t) p]> (threads s) -> clock s' = clock s -> orders s' = orders s -> locks s' = locks s -> grows s s' ->
  (forall n, n <> sni t -> cache s' !! n = cache s !! n) -> (cache s' !! sni t = None \/ holds (pc t) = true) ->
  holds p = holds (pc t) -> (critical p = true -> cache s' !! sni t = None) -> pc_ok s' (sni t) p ->
  (forall l m, cache s' !! sni t = Some (Ready l m) -> good l /\ vouched s' (sni t)) ->
  (forall t0, (t0, sni t) ∈ orders s -> settled s' t0 (sni t)) -> inv s'.
Proof.
  intros Hi Ht Et Ec Eo El Hg Hca Hown Eh Hcr Hpc Hr Hs. eapply od_move_inv; [exact Hi|exact Ht|]. constructor; try done.
  - intros n _. by rewrite El.
  - intros j _. by rewrite El.
  - rewrite Eh, El. by apply holds_lock.
  - by right.
  - intros t0 n _. by rewrite Eo.
  - by right.
  - intros t0 H. rewrite Eo in H. destruct (i_orders _ Hi _ _ H) as (? & ? & ? & _). split_and!; [done|by eapply approved_grows|lia|by apply Hs].
  - rewrite Eo. apply Hi.
Qed.

Lemma od_look_inv s i n b s' : inv s -> threads s !! i = Some (mkThread n (Look b)) -> thread_step (Some c) i (mkThread n (Look b)) s = Some s' -> inv s'.
Proof.
  intros Hi Ht Hs. destruct (t_pc _ _ _ (i_threads _ Hi _ _ Ht)) as [Hv _]. cbn [thread_step sni pc] in Hs.
  set (miss := if b then Asking else Enter) in *.
  assert (holds miss = b /\ pending miss = false /\ pc_ok s' n miss) as (Hm & Hmp & Hmo) by (unfold miss; destruct b; cbn; done).
  destruct (snapshot (clock s) (cache s !! n)) as [l m| | |] eqn:E; injection Hs as <-.
  - apply move_goto with (t := mkThread n (Look b)); try done. cbn [pc_ok sni]. split; [done|].
    eapply (i_ready _ Hi). unfold snapshot in E. destruct (cache s !! n) as [[|u|u]|]; simplify_eq; try done; by destruct (_ <? _).
  - apply move_goto with (t := mkThread n (Look b)); destruct b; done.
  - eapply (entry_inv s i (mkThread n (Look b))); try done; cbn [goto set_cache cache sni pc].
    + intros x Hx. by rewrite lookup_delete_ne.
    + left. by rewrite lookup_delete_eq.
    + intros _. by rewrite lookup_delete_eq.
    + intros l m. by rewrite lookup_delete_eq.
    + intros t0 Ho. destruct (i_orders _ Hi _ _ Ho) as (_ & _ & _ & Hset). unfold settled in *. cbn [goto set_cache cache clock threads sni] in *. rewrite lookup_delete_eq. left.
      unfold snapshot in E. destruct (cache s !! n) as [[|u|u]|]; try done; destruct (clock s <? u) eqn:Eu; try done; lia.
  - apply move_goto with (t := mkThread n (Look b)); try done. intros _. unfold snapshot in E. cbn. destruct (cache s !! n) as [[|u|u]|]; try done; by destruct (_ <? _).
Qed.

Lemma not_loaded_facts s n l : valid_host n = true -> load_ok s n l ->
  holds (not_loaded l) = true /\ critical (not_loaded l) = issuing l /\ (minted l = true -> pending (not_loaded l) = true) /\ pc_ok s n (not_loaded l).
Proof. intros Hv Hl. destruct l; cbn in *; split_and!; try done. Qed.

Lemma read_inv s i n p s' : inv s -> threads s !! i = Some (mkThread n p) -> (exists l, p = ReadCert l \/ (exists a, p = ReadKey l a) \/ exists a b, p = ReadMtime l a b) ->
  thread_step (Some c) i (mkThread n p) s = Some s' -> inv s'.
Proof.
  intros Hi Ht (l & Hp) Hs. pose proof (i_threads _ Hi _ _ Ht) as [_ Tc Tp].
  assert (issuing l = true -> cache s !! n = None) as Hc by (intros H; apply Tc; destruct Hp as [->|[(a & ->)|(a & b & ->)]]; done).
  assert (valid_host n = true /\ load_ok s n l) as [Hv Hl] by (destruct Hp as [->|[(a & ->)|(a & b & ->)]]; cbn [pc_ok sni pc] in Tp; [tauto..|]; destruct Tp as (? & ? & _); done).
  pose proof (not_loaded_facts s n l Hv Hl) as (N1 & N2 & N3 & N4).
  assert (forall q, holds q = true -> critical q = issuing l -> (minted l = true -> pending q = true) -> pc_ok s n q -> inv (goto i n q s)) as Hgo.
  { intros q Q1 Q2 Q3 Q4. apply move_goto with (t := mkThread n p); try done; destruct Hp as [->|[(a & ->)|(a & b & ->)]]; cbn [sni pc] in *; try done; rewrite Q2; done. }
  destruct Hp as [->|[(a & ->)|(a & b & ->)]]; cbn [thread_step sni pc] in Hs; injection Hs as <-; apply Hgo.
  all: try (destruct (f_cert (files n s)) as [x|]; done). all: try (destruct (f_key (files n s)) as [x|]; [destruct (usable a x) eqn:Eu|]; done).
  all: cbn [pc_ok sni pc] in Tp; destruct Tp as (_ & _ & Hu); destruct l; try done; cbn in *; split_and!; try done; tauto.
Qed.

Lemma store_inv s i n e o s' : inv s -> threads s !! i = Some (mkThread n (Storing e o)) -> thread_step (Some c) i (mkThread n (Storing e o)) s = Some s' -> inv s'.
Proof.
  intros Hi Ht Hs. pose proof (i_threads _ Hi _ _ Ht) as [_ Tc [Hv He]]. cbn [thread_step sni pc] in Hs. injection Hs as <-. cbn [sni pc] in *.
  eapply (entry_inv s i (mkThread n (Storing e o))); try done; cbn [goto store set_cache cache sni pc].
  - intros x Hx. by rewrite lookup_insert_ne.
  - by right.
  - cbn [pc_ok]. destruct e; cbn in He; [destruct He as (? & ? & ->)|destruct He as [-> _]..]; cbn; [|done..]. split_and!; [done..|by left].
  - intros l m. rewrite lookup_insert_eq. intros [= ->]. cbn in He. destruct He as (? & ? & _). split; [done|by left].
  - intros t0 Ho. unfold settled. cbn [goto store set_cache cache clock]. rewrite lookup_insert_eq. destruct e as [l m|u|u]; [done|..]; cbn in He; by apply He.
Qed.

Lemma reload_store_inv s i n r l m s' : inv s -> threads s !! i = Some (mkThread n (ReloadStore r l m)) ->
  thread_step (Some c) i (mkThread n (ReloadStore r l m)) s = Some s' -> inv s'.
Proof.
  intros Hi Ht Hs. pose proof (i_threads _ Hi _ _ Ht) as [_ _ (Hv & [Hr Hb] & Hl)]. cbn [thread_step sni pc] in Hs. injection Hs as <-. cbn [sni pc] in *.
  set (s' := goto _ _ _ _). assert (grows s s') as Hg by (split; [done|]; unfold s'; cbn; destruct r; set_solver).
  assert (vouched s' n) as Hvo.
  { destruct r as [old|old|]; [destruct Hr; by eapply vouched_grows..|]. right. unfold s'. cbn. set_solver. }
  eapply (entry_inv s i (mkThread n (ReloadStore r l m))); try done; unfold s'; cbn [goto store set_cache cache sni pc].
  - intros x Hx. by rewrite lookup_insert_ne.
  - by right.
  - fold s'. split; [done|]. split; [split; [by eapply reload_ok_grows|done]|]. intros ? [= <-]. done.
  - intros l' m'. rewrite lookup_insert_eq. by intros [= -> ->].
  - intros t0 _. unfold settled. cbn. by rewrite lookup_insert_eq.
Qed.

Lemma negative_fits s : inv s -> instant_ok (clock s + cooldown c * SECOND) = true.
Proof. intros Hi. pose proof (i_clock _ Hi) as H. unfold instant_ok, CLOCK_MAX, SECOND in *. lia. Qed.

Lemma od_thread_step_inv s i t s' : inv s -> threads s !! i = Some t -> thread_step (Some c) i t s = Some s' -> inv s'.
Proof.
  intros Hi Ht Hs. pose proof (i_threads _ Hi _ _ Ht) as [_ Tc Tp]. destruct t as [n p]. cbn [sni pc] in *.
  destruct p; try done; try (by eapply od_look_inv); try (by eapply store_inv); try (by eapply reload_store_inv); try (by eapply read_inv; eauto 6);
    cbn [thread_step sni pc] in Hs; try done.
  - injection Hs as <-. apply move_goto with (t := mkThread n Start); by destruct (valid_host n) eqn:?.
  - injection Hs as <-. apply move_goto with (t := mkThread n SweepStart); by destruct (valid_host n) eqn:?.
  - cbn [pc_ok] in Tp. destruct Tp as (Hv & Hg & Hvo). destruct (disk_is_newer _ _); injection Hs as <-; apply move_goto with (t := mkThread n (Stat locked c0 stored)); destruct locked; cbn; auto; done.
  - injection Hs as <-. by apply (sni_lock_inv s i (mkThread n Enter)).
  - apply fmap_Some in Hs as (s1 & Ha & ->). by eapply (acquire_inv s i (mkThread n Take)).
  - destruct (ask_url c) eqn:E; [done|]. injection Hs as <-. apply move_goto with (t := mkThread n Asking); try done. cbn in *. destruct Tp. split; [done|by left].
  - injection Hs as <-. rewrite negative_fits by done. apply move_goto with (t := mkThread n (Negative denied)); try done. cbn in *. destruct Tp as [Hv _]. split; [done|].
    assert (forall t0, (t0, n) ∈ orders s -> t0 + gap <= clock s + gap) by (intros t0 H; apply (i_orders _ Hi) in H as (_ & _ & H & _); lia). by destruct denied.
  - injection Hs as <-. by apply (od_release_inv s i (mkThread n (Unlock o))).
  - injection Hs as <-. by apply (sni_lock_inv s i (mkThread n (ReloadEnter r))).
  - apply fmap_Some in Hs as (s1 & Ha & ->). destruct Tp as [Hv Hr]. destruct (held_by_reload r) eqn:Eb.
    + exfalso. pose proof (thread_lock _ _ _ Hi Ht Eb) as Hl. unfold acquire in Ha. cbn in Hl. by rewrite Hl in Ha.
    + by eapply (acquire_inv s i (mkThread n (ReloadTake r))).
  - injection Hs as <-. cbn [pc_ok] in Tp. destruct Tp as (Hv & [Hr Hb] & Hf). destruct r as [old|old|]; [|done|]; refine (od_release_inv s i _ _ Hi Ht _ _ _ _ _); try done.
    cbn in Hr |- *. destruct fresh as [l|]; cbn; [destruct (Hf l eq_refl)|destruct Hr]; done.
Qed.

Lemma od_answer_inv s i t dial s' : inv s -> threads s !! i = Some t -> answer_step (Some c) i t dial s = Some s' -> inv s'.
Proof.
  intros Hi Ht Hs. pose proof (i_threads _ Hi _ _ Ht) as [_ Tc Tp]. destruct t as [n p]. cbn [sni pc] in *. unfold answer_step in Hs. cbn [sni pc] in Hs. destruct p; try done.
  destruct (ask_url c) as [ask|] eqn:E; [|done]. cbn [mbind option_bind] in Hs. set (a := fst (ask_site_exists dial ask n)) in *. injection Hs as <-. destruct Tp as [Hv _].
  eapply (move_quiet s i (mkThread n Asking)); try done.
  - split; [|done]. cbn. intros x Hx. apply elem_of_app. by left.
  - destruct a as [[]|]; done.
  - intros _. by apply Tc.
  - destruct a as [[]|] eqn:Ea; cbn; split; try done. right. cbn. apply elem_of_app. right. by left.
Qed.

Lemma order_inv s i t b s' : inv s -> threads s !! i = Some t -> order_step (Some c) i t b s = Some s' -> inv s'.
Proof.
  intros Hi Ht Hs. pose proof (i_threads _ Hi _ _ Ht) as [Th Tc Tp]. destruct t as [n p]. cbn [sni pc] in *. unfold order_step in Hs. cbn [sni pc] in Hs. destruct p; try done.
  destruct Tp as [Hv Ha]. specialize (Tc eq_refl). destruct b; injection Hs as <-; [|by apply move_goto with (t := mkThread n Ordering)].
  pose proof (lookup_lt_Some _ _ _ Ht) as Hlt. eapply od_move_inv; [exact Hi|exact Ht|]. constructor; cbn [goto threads clock locks cache orders sni pc]; try done.
  - rewrite (holds_lock _ _ _ Hi Ht : holds Ordering = true <-> _). cbn. tauto.
  - intros l m Hr. rewrite Tc in Hr. done.
  - intros t0 m Hm. rewrite elem_of_app, list_elem_of_singleton. split; [|by left]. intros [?|[= ? ?]]; done.
  - by left.
  - intros t0 Ho. split_and!; [done|done| |].
    + apply elem_of_app in Ho as [Ho|Ho%list_elem_of_singleton]; [apply (i_orders _ Hi) in Ho as (_ & _ & ? & _); done|]. injection Ho as ->. lia.
    + unfold settled. cbn [goto cache clock threads]. rewrite Tc. right. exists i, (mkThread n Running). rewrite list_lookup_insert_eq by done. done.
  - apply spaced_snoc; [apply Hi|]. intros t' Ho. destruct (i_orders _ Hi _ _ Ho) as (_ & _ & _ & Hset). unfold settled in Hset. rewrite Tc in Hset.
    destruct Hset as [?|(j & u & Hu & Eu & Hp)]; [lia|]. exfalso. pose proof (thread_lock _ _ _ Hi Hu (critical_holds _ (pending_critical _ Hp))) as Hl.
    rewrite Eu, Th in Hl by done. injection Hl as ->. rewrite Hu in Ht. injection Ht as ->. done.
Qed.

Lemma exit_inv s i t b s' : inv s -> threads s !! i = Some t -> exit_step (Some c) i t b s = Some s' -> inv s'.
Proof.
  intros Hi Ht Hs. pose proof (i_threads _ Hi _ _ Ht) as [_ Tc Tp]. destruct t as [n p]. cbn [sni pc] in *. unfold exit_step in Hs. cbn [sni pc] in Hs. destruct p; try done.
  injection Hs as <-. destruct Tp. apply move_goto with (t := mkThread n Running); destruct b; cbn; auto; done.
Qed.

(** Nothing of the threads changes: the clock, the files, or one thread more. *)
Lemma world_inv s s' t : inv s -> (forall n, pc_ok s' n (pc t)) -> holds (pc t) = false -> critical (pc t) = false ->
  (threads s' = threads s \/ threads s' = threads s ++ [t]) -> clock s <= clock s' < CLOCK_MAX ->
  cache s' = cache s -> locks s' = locks s -> answers s' = answers s -> orders s' = orders s -> swept s' = swept s -> inv s'.
Proof.
  intros Hi Hpc Hh Hcr Ht Hc Eca El Ea Eo Es. assert (grows s s') as Hg by (split; [by rewrite Ea|by rewrite Es]).
  assert (forall j u, threads s !! j = Some u -> threads s' !! j = Some u) as Hold.
  { intros j u Hu. destruct Ht as [->| ->]; [done|]. by apply lookup_app_l_Some. }
  constructor.
  - lia.
  - intros j u Hu. assert (threads s !! j = Some u \/ u = t) as [Hu'| ->].
    { destruct Ht as [E|E]; rewrite E in Hu; [by left|]. apply lookup_app_Some in Hu as [?|[_ Hu]]; [by left|]. apply list_lookup_singleton_Some in Hu as [_ <-]. by right. }
    + destruct (i_threads _ Hi _ _ Hu') as [Uh Uc Up]. constructor; rewrite ?El, ?Eca; [done..|]. eapply pc_ok_grows; [done| |done]. by rewrite Eo.
    + constructor; [congruence..|done].
  - intros n j Hl. rewrite El in Hl. apply (i_locks _ Hi) in Hl as (u & Hu & ? & ?). eauto.
  - intros n l m Hl. rewrite Eca in Hl. destruct (i_ready _ Hi _ _ _ Hl). eauto using vouched_grows.
  - intros t0 n Ho. rewrite Eo in Ho. destruct (i_orders _ Hi _ _ Ho) as (? & ? & ? & Hset). split_and!; [done|by eapply approved_grows|lia|].
    unfold settled in *. rewrite Eca. destruct (cache s !! n) as [[]|]; try done. destruct Hset as [?|(j & u & Hu & ? & ?)]; [left; lia|right; exists j, u; auto].
  - rewrite Eo. apply Hi.
Qed.

Lemma od_step_inv l s s' : inv s -> step l s = Some s' -> inv s'.
Proof.
  intros Hi Hs. pose proof (i_clock _ Hi) as Hc. destruct l as [d|n f|n|n|i|i dial|i b|i b]; cbn [OnDemand.step] in Hs.
  - destruct ((0 <=? d) && (clock s + d <? CLOCK_MAX)) eqn:E; [|done]. injection Hs as <-. apply (world_inv s _ (mkThread [] Start)); cbn; auto; lia.
  - injection Hs as <-. apply (world_inv s _ (mkThread [] Start)); cbn; auto; lia.
  - injection Hs as <-. apply (world_inv s _ (mkThread n Start)); cbn; auto; lia.
  - injection Hs as <-. apply (world_inv s _ (mkThread n SweepStart)); cbn; auto; lia.
  - apply bind_Some in Hs as (t & Ht & Hs). by eapply od_thread_step_inv.
  - apply bind_Some in Hs as (t & Ht & Hs). by eapply od_answer_inv.
  - apply bind_Some in Hs as (t & Ht & Hs). by eapply order_inv.
  - apply bind_Some in Hs as (t & Ht & Hs). by eapply exit_inv.
Qed.

Lemma reach_inv now d s : now < CLOCK_MAX -> reach step (start now d) s -> inv s.
Proof.
  intros Hn. apply reach_invariant; [|intros l x y; apply od_step_inv]. constructor; cbn; try done; try (intros; by simplify_map_eq).
  intros t0 n H. by apply elem_of_nil in H.
Qed.

(** ** Progress *)

(** The steps a thread has left, at the most. *)
Definition rank (p : Pc) : nat :=
  match p with
  | Start => 20 | SweepStart => 15 | Look b => if b then 16 else 19 | Stat _ _ _ => 14 | Enter => 18 | Take => 17 | Asking => 15
  | ReadCert (Reloading _) => 11 | ReadKey (Reloading _) _ => 10 | ReadMtime (Reloading _) _ _ => 9
  | ReadCert Persisted => 14 | ReadKey Persisted _ => 13 | ReadMtime Persisted _ _ => 12
  | ReadCert Minted => 9 | ReadKey Minted _ => 8 | ReadMtime Minted _ _ => 7
  | Ordering => 11 | Running => 10 | Negative _ => 6 | Storing _ _ => 5 | Unlock _ => 2
  | ReloadEnter _ => 13 | ReloadTake _ => 12 | ReloadStore _ _ _ => 8 | ReloadUnlock _ _ => 7 | Done _ => 0
  end.

Lemma thread_moves s i t s' : threads s !! i = Some t -> thread_step (Some c) i t s = Some s' ->
  exists p, threads s' = <[i := mkThread (sni t) p]> (threads s) /\ (rank p < rank (pc t))%nat.
Proof.
  intros Ht Hs. destruct t as [n p]. assert (forall l, (rank (not_loaded l) < rank (ReadKey l []))%nat) as Hnl by (intros []; cbn; lia).
  assert (forall l x m, (rank (loaded l x m) < rank (ReadMtime l [] []))%nat) as Hld by (intros []; cbn; lia).
  destruct p as [| |b|b x m| | | |l|l a|l a b| | |b|e o|o|r|r|r x m|r f|o]; cbn [thread_step sni pc] in Hs; try done.
  - injection Hs as <-. eexists. split; [done|]. destruct (valid_host n); cbn; lia.
  - injection Hs as <-. eexists. split; [done|]. destruct (valid_host n); cbn; lia.
  - destruct (snapshot _ _); injection Hs as <-; eexists; (split; [done|]); destruct b; cbn; lia.
  - destruct (disk_is_newer _ _); injection Hs as <-; eexists; (split; [done|]); destruct b; cbn; lia.
  - injection Hs as <-. eexists. split; [done|]. cbn. lia.
  - apply fmap_Some in Hs as (s1 & Ha & ->). unfold acquire in Ha. destruct (locks s !! n) as [[]|]; simplify_eq. eexists. split; [done|]. cbn. lia.
  - destruct (ask_url c); [done|]. injection Hs as <-. eexists. split; [done|]. cbn. lia.
  - injection Hs as <-. eexists. split; [done|]. specialize (Hnl l). destruct (f_cert _); destruct l; cbn in *; lia.
  - injection Hs as <-. eexists. split; [done|]. specialize (Hnl l). destruct (f_key _) as [k|]; [destruct (usable a k)|]; destruct l; cbn in *; lia.
  - injection Hs as <-. eexists. split; [done|]. specialize (Hld l (mkSniCert a b) (f_mtime (files n s))). destruct l; cbn in *; lia.
  - injection Hs as <-. eexists. split; [done|]. destruct (instant_ok _); cbn; lia.
  - injection Hs as <-. eexists. split; [done|]. cbn. lia.
  - injection Hs as <-. eexists. split; [done|]. cbn. lia.
  - injection Hs as <-. eexists. split; [done|]. cbn. lia.
  - apply fmap_Some in Hs as (s1 & Ha & ->). unfold acquire in Ha. destruct (locks s !! n) as [[]|]; simplify_eq. eexists. split; [done|]. cbn. lia.
  - injection Hs as <-. eexists. split; [done|]. cbn. lia.
  - injection Hs as <-. eexists. split; [done|]. destruct r; cbn; lia.
Qed.

Lemma mover_descends l s s' i : step l s = Some s' -> mover l = Some i ->
  exists t p, threads s !! i = Some t /\ threads s' !! i = Some (mkThread (sni t) p) /\ (rank p < rank (pc t))%nat.
Proof.
  intros Hs Hm. destruct l as [d|n f|n|n|j|j dial|j b|j b]; cbn in Hm; simplify_eq; cbn [OnDemand.step] in Hs; apply bind_Some in Hs as (t & Ht & Hs);
    pose proof (lookup_lt_Some _ _ _ Ht) as Hlt.
  - destruct (thread_moves _ _ _ _ Ht Hs) as (p & E & Hr). exists t, p. rewrite E, list_lookup_insert_eq by done. done.
  - destruct t as [n p]. unfold answer_step in Hs. cbn [sni pc] in Hs. destruct p; try done. apply bind_Some in Hs as (ask & _ & [= <-]). eexists _, _. cbn [goto threads sni].
    rewrite list_lookup_insert_eq by done. split_and!; [done..|]. cbn. repeat case_match; cbn; lia.
  - destruct t as [n p]. unfold order_step in Hs. cbn [sni pc] in Hs. destruct p; try done. injection Hs as <-. destruct b; eexists _, _; cbn [goto threads sni]; (rewrite list_lookup_insert_eq by done); (split_and!; [done..|]); cbn; lia.
  - destruct t as [n p]. unfold exit_step in Hs. cbn [sni pc] in Hs. destruct p; try done. injection Hs as <-. eexists _, _. cbn [goto threads sni]. rewrite list_lookup_insert_eq by done.
    split_and!; [done..|]. cbn. destruct b; cbn; lia.
Qed.

Definition can_move (s : System) (i : nat) : Prop := exists l s', step l s = Some s' /\ mover l = Some i.

(** A thread that waits for the lock it holds. *)
Definition self_blocked (p : Pc) : Prop := exists old, p = ReloadTake (RLocked old).

Lemma holder_moves s i t : threads s !! i = Some t -> holds (pc t) = true -> can_move s i \/ self_blocked (pc t).
Proof.
  intros Ht Hh. assert (is_Some (thread_step (Some c) i t s) -> can_move s i) as Hgo.
  { intros [s' H]. exists (LStep i), s'. split; [|done]. cbn. by rewrite Ht. }
  destruct t as [n p]. cbn [pc] in *. destruct p as [| |b|b x m| | | |l|l a|l a b| | |b|e o|o|r|r|r x m|r f|o]; try done; try (left; apply Hgo; cbn [thread_step sni pc]; eauto; done).
  - left. apply Hgo. cbn [thread_step sni pc]. destruct (snapshot _ _); eauto.
  - left. apply Hgo. cbn [thread_step sni pc]. destruct (disk_is_newer _ _); eauto.
  - left. destruct (ask_url c) as [ask|] eqn:E; [|apply Hgo; cbn [thread_step sni pc]; rewrite E; eauto].
    eexists (LAnswer i (fun _ _ => None)), _. split; [|done]. cbn. rewrite Ht. cbn. rewrite E. done.
  - left. eexists (LOrder i false), _. split; [|done]. cbn. rewrite Ht. done.
  - left. eexists (LExit i false), _. split; [|done]. cbn. rewrite Ht. done.
  - destruct r; try done. right. by eexists.
Qed.

(** ** Decisions last *)

(** What a step of a thread does to the cache. *)
Lemma thread_step_cache s i k p s' : thread_step (Some c) i (mkThread k p) s = Some s' -> orders s' = orders s /\
  (cache s' = cache s \/ (snapshot (clock s) (cache s !! k) = Lapsed /\ cache s' = delete k (cache s)) \/
   (exists e, critical p = true /\ cache s' = <[k := e]> (cache s)) \/ (exists l m, cache s' = <[k := Ready l m]> (cache s))).
Proof.
  intros Hs. assert (forall s1 q, q <$> acquire i k s = Some s1 -> (forall x, cache (q x) = cache x /\ orders (q x) = orders x) -> cache s1 = cache s /\ orders s1 = orders s) as Ha.
  { intros s1 q (s2 & H & ->)%fmap_Some Hq. unfold acquire in H. destruct (locks s !! k) as [[]|]; simplify_eq. by destruct (Hq (set_locks (<[k := Some i]> (locks s)) s)). }
  destruct p as [| |b|b x m| | | |l|l a|l a b| | |b|e o|o|r|r|r x m|r f|o]; cbn [thread_step sni pc] in Hs; try done; try (injection Hs as <-; split; [done|by left]).
  - destruct (snapshot _ _) eqn:E; injection Hs as <-; (split; [done|]); auto.
  - destruct (disk_is_newer _ _); injection Hs as <-; (split; [done|]); by left.
  - apply Ha in Hs as [? ?]; [|done]. auto.
  - destruct (ask_url c); [done|]. injection Hs as <-. split; [done|by left].
  - injection Hs as <-. split; [done|]. right. right. left. by exists e.
  - apply Ha in Hs as [? ?]; [|done]. auto.
  - injection Hs as <-. split; [done|]. do 3 right. by exists x, m.
Qed.

Lemma ready_stays l s s' n x m : inv s -> step l s = Some s' -> cache s !! n = Some (Ready x m) ->
  (exists x' m', cache s' !! n = Some (Ready x' m')) /\ forall t0, (t0, n) ∈ orders s' -> (t0, n) ∈ orders s.
Proof.
  intros Hi Hs Hr. destruct l as [d|k f|k|k|i|i dial|i b|i b]; cbn [OnDemand.step] in Hs.
  - destruct (_ && _); [|done]. injection Hs as <-. eauto.
  - injection Hs as <-. eauto.
  - injection Hs as <-. eauto.
  - injection Hs as <-. eauto.
  - apply bind_Some in Hs as (t & Ht & Hs). pose proof (i_threads _ Hi _ _ Ht) as [_ Tc _]. destruct t as [k p]. cbn [sni pc] in *.
    apply thread_step_cache in Hs as [-> [->|[[E ->]|[(e & Hc & ->)|(y & z & ->)]]]]; (split; [|done]); [eauto|..]; destruct (decide (k = n)) as [->|];
      rewrite ?lookup_delete_ne, ?lookup_insert_ne, ?lookup_insert_eq by done; eauto.
    + by rewrite Hr in E.
    + by rewrite (Tc Hc) in Hr.
  - apply bind_Some in Hs as (t & Ht & Hs). unfold answer_step in Hs. destruct (pc t); try done. apply bind_Some in Hs as (ask & _ & [= <-]). eauto.
  - apply bind_Some in Hs as (t & Ht & Hs). pose proof (i_threads _ Hi _ _ Ht) as [_ Tc _]. unfold order_step in Hs. destruct t as [k p]. cbn [sni pc] in *. destruct p; try done.
    injection Hs as <-. destruct b; cbn; [|eauto]. split; [eauto|]. intros t0 [Ho|Ho%list_elem_of_singleton]%elem_of_app; [done|]. injection Ho as -> ->. rewrite Tc in Hr by done. done.
  - apply bind_Some in Hs as (t & Ht & Hs). unfold exit_step in Hs. destruct (pc t); try done. injection Hs as <-. eauto.
Qed.

(** ** Waiting *)
Definition waits (p : Pc) : bool := match p with Take | ReloadTake _ => true | _ => false end.

Definition made (s : System) : Prop := forall i t, threads s !! i = Some t -> waits (pc t) = true -> is_Some (locks s !! sni t).

Lemma thread_step_locks s i k p s' : thread_step (Some c) i (mkThread k p) s = Some s' ->
  (forall n, is_Some (locks s !! n) -> is_Some (locks s' !! n)) /\
  exists q, threads s' = <[i := mkThread k q]> (threads s) /\ (waits q = true -> is_Some (locks s' !! k)).
Proof.
  intros Hs. assert (forall (v : option nat) (l : gmap bytes (option nat)) n, is_Some (l !! n) -> is_Some (<[k := v]> l !! n)) as Hins by (intros v l n H; apply lookup_insert_is_Some; by destruct (decide (k = n)); [left|right]).
  assert (forall s1 q, goto i k q <$> acquire i k s = Some s1 -> (forall n, is_Some (locks s !! n) -> is_Some (locks s1 !! n)) /\ threads s1 = <[i := mkThread k q]> (threads s)) as Ha.
  { intros s1 q (s2 & H & ->)%fmap_Some. unfold acquire in H. destruct (locks s !! k) as [[]|]; simplify_eq. split; [intros n; apply Hins|done]. }
  destruct p as [| |b|b x m| | | |l|l a|l a b| | |b|e o|o|r|r|r x m|r f|o]; cbn [thread_step sni pc] in Hs; try done.
  - injection Hs as <-. split; [done|]. eexists. split; [done|]. by destruct (valid_host k).
  - injection Hs as <-. split; [done|]. eexists. split; [done|]. by destruct (valid_host k).
  - destruct (snapshot _ _); injection Hs as <-; (split; [done|]); eexists; (split; [done|]); by destruct b.
  - destruct (disk_is_newer _ _); injection Hs as <-; (split; [done|]); eexists; (split; [done|]); by destruct b.
  - injection Hs as <-. split; [intros n; apply Hins|]. eexists. split; [done|]. intros _. cbn. rewrite lookup_insert_eq. eauto.
  - apply Ha in Hs as [H1 H2]. split; [done|]. eexists. split; [exact H2|done].
  - destruct (ask_url c); [done|]. injection Hs as <-. split; [done|]. eexists. split; [done|]. done.
  - injection Hs as <-. split; [done|]. eexists. split; [done|]. destruct (f_cert _), l; done.
  - injection Hs as <-. split; [done|]. eexists. split; [done|]. destruct (f_key _) as [y|]; [destruct (usable a y)|]; destruct l; done.
  - injection Hs as <-. split; [done|]. eexists. split; [done|]. by destruct l.
  - injection Hs as <-. split; [done|]. eexists. split; [done|]. by destruct (instant_ok _).
  - injection Hs as <-. split; [done|]. eexists. done.
  - injection Hs as <-. split; [intros n; apply Hins|]. eexists. done.
  - injection Hs as <-. split; [intros n; apply Hins|]. eexists. split; [done|]. intros _. cbn. rewrite lookup_insert_eq. eauto.
  - apply Ha in Hs as [H1 H2]. split; [done|]. eexists. split; [exact H2|done].
  - injection Hs as <-. split; [done|]. eexists. done.
  - injection Hs as <-. split; [intros n; apply Hins|]. eexists. split; [done|]. by destruct r.
Qed.

Lemma made_step l s s' : made s -> step l s = Some s' -> made s'.
Proof.
  intros Hm Hs. assert (forall t s1, made s -> threads s1 = threads s \/ (threads s1 = threads s ++ [t] /\ waits (pc t) = false) -> locks s1 = locks s -> made s1) as Hw.
  { intros t s1 H [E|[E Hwt]] El j u Hu Hwu; rewrite E in Hu; rewrite El; [eauto|]. apply lookup_app_Some in Hu as [Hu|[_ Hu]]; [eauto|]. apply list_lookup_singleton_Some in Hu as [_ <-]. congruence. }
  assert (forall i t q s1, threads s !! i = Some t -> threads s1 = <[i := mkThread (sni t) q]> (threads s) -> (forall n, is_Some (locks s !! n) -> is_Some (locks s1 !! n)) ->
    (waits q = true -> is_Some (locks s1 !! sni t)) -> made s1) as Hmv.
  { intros i t q s1 Ht E Hl Hq j u Hu Hwu. pose proof (lookup_lt_Some _ _ _ Ht). rewrite E in Hu. destruct (decide (i = j)) as [<-|Hne].
    - rewrite list_lookup_insert_eq in Hu by done. injection Hu as <-. auto.
    - rewrite list_lookup_insert_ne in Hu by done. eauto. }
  destruct l as [d|n f|n|n|i|i dial|i b|i b]; cbn [OnDemand.step] in Hs.
  - destruct (_ && _); [|done]. injection Hs as <-. eapply (Hw (mkThread [] Start)); auto.
  - injection Hs as <-. eapply (Hw (mkThread [] Start)); auto.
  - injection Hs as <-. eapply (Hw (mkThread n Start)); auto.
  - injection Hs as <-. eapply (Hw (mkThread n SweepStart)); auto.
  - apply bind_Some in Hs as ([k p] & Ht & Hs). apply thread_step_locks in Hs as (Hl & q & E & Hq). by eapply Hmv.
  - apply bind_Some in Hs as ([k p] & Ht & Hs). unfold answer_step in Hs. cbn [sni pc] in Hs. destruct p; try done. apply bind_Some in Hs as (ask & _ & [= <-]).
    eapply (Hmv i _ _ _ Ht); [done..|]. by repeat case_match.
  - apply bind_Some in Hs as ([k p] & Ht & Hs). unfold order_step in Hs. cbn [sni pc] in Hs. destruct p; try done. injection Hs as <-. destruct b; by eapply (Hmv i _ _ _ Ht).
  - apply bind_Some in Hs as ([k p] & Ht & Hs). unfold exit_step in Hs. cbn [sni pc] in Hs. destruct p; try done. injection Hs as <-. eapply (Hmv i _ _ _ Ht); [done..|]. by destruct b.
Qed.

Lemma reach_made now d s : reach step (start now d) s -> made s.
Proof. apply reach_invariant; [|intros l x y; apply made_step]. intros i t H. done. Qed.

(** A thread that is not done moves, or waits for a lock that is held. *)
Lemma moves_or_waits s i t : made s -> threads s !! i = Some t ->
  (exists o, pc t = Done o) \/ can_move s i \/ (waits (pc t) = true /\ exists j, locks s !! sni t = Some (Some j)).
Proof.
  intros Hm Ht. destruct (holds (pc t)) eqn:Eh.
  { destruct (holder_moves s i t Ht Eh) as [|(old & E)]; [auto|]. destruct (locks s !! sni t) as [[j|]|] eqn:El.
    - right. right. rewrite E. eauto.
    - right. left. eexists (LStep i), _. split; [|done]. cbn. rewrite Ht. cbn. rewrite E. cbn. unfold acquire. rewrite El. done.
    - destruct (Hm _ _ Ht) as [? ?]; [by rewrite E|congruence]. }
  assert (is_Some (thread_step (Some c) i t s) -> can_move s i) as Hgo.
  { intros [s' H]. exists (LStep i), s'. split; [|done]. cbn. by rewrite Ht. }
  destruct (waits (pc t)) eqn:Ew.
  - destruct (Hm _ _ Ht Ew) as [[j|] El]; [right; right; eauto|]. right. left. apply Hgo. destruct t as [n p]. cbn [pc sni] in *. destruct p; try done; cbn [thread_step pc sni]; unfold acquire; rewrite El; eauto.
  - destruct t as [n p]. cbn [pc] in *. destruct p as [| |b|b x m| | | |l|l a|l a b| | |b|e o|o|r|r|r x m|r f|o]; try done; try (right; left; apply Hgo; cbn [thread_step sni pc]; eauto; done).
    + right. left. apply Hgo. cbn [thread_step sni pc]. destruct (snapshot _ _); eauto.
    + right. left. apply Hgo. cbn [thread_step sni pc]. destruct (disk_is_newer _ _); eauto.
    + eauto.
Qed.
End invariant.

(** C30. Certificates on demand, over every interleaving of handshakes, sweeps,
    changes of the files, answers of the authorizer and runs of the issuer:
    orders for one name are at least the cooldown apart, and each is for a name
    that passed the test and that the authorizer allowed; at most one handshake
    of a name is between its second look and its decision; a name that has a
    leaf keeps one, and is not ordered again; every leaf that is cached or
    served has a certificate and a key of 32 bytes, under a name the authorizer
    allowed or the sweep reloaded. A thread has at most twenty steps of its own,
    and one that is not done can move, or waits for a lock; and the holder of a
    lock can move, unless it waits for the lock it holds itself. *)
Theorem ondemand_sound c now d s :
  0 <= cooldown c <= 2 ^ 62 -> now < CLOCK_MAX -> reach (step (Some c)) (start now d) s ->
  spaced (cooldown c * SECOND) (orders s) /\
  (forall t0 n, (t0, n) ∈ orders s -> valid_host n = true /\ approved c s n) /\
  (forall i j t u, threads s !! i = Some t -> threads s !! j = Some u -> sni t = sni u -> critical (pc t) = true -> critical (pc u) = true -> i = j) /\
  (forall l s' n x m, step (Some c) l s = Some s' -> cache s !! n = Some (Ready x m) ->
     (exists x' m', cache s' !! n = Some (Ready x' m')) /\ forall t0, (t0, n) ∈ orders s' -> (t0, n) ∈ orders s) /\
  (forall n l m, cache s !! n = Some (Ready l m) -> good l /\ vouched c s n) /\
  (forall i t l, threads s !! i = Some t -> pc t = Done (Resolved (Serve l)) -> valid_host (sni t) = true /\ good l /\ vouched c s (sni t)) /\
  (forall l s' i, step (Some c) l s = Some s' -> mover l = Some i ->
     exists t p, threads s !! i = Some t /\ threads s' !! i = Some (mkThread (sni t) p) /\ (rank p < rank (pc t) <= 20)%nat) /\
  (forall i t, threads s !! i = Some t ->
     (exists o, pc t = Done o) \/ can_move c s i \/ (waits (pc t) = true /\ exists j, locks s !! sni t = Some (Some j))) /\
  (forall n i, locks s !! n = Some (Some i) -> exists t, threads s !! i = Some t /\ sni t = n /\ (can_move c s i \/ self_blocked (pc t))).
Proof.
  intros Hcd Hn Hr. pose proof (reach_inv c Hcd now d s Hn Hr) as Hi. split_and!.
  - apply Hi.
  - intros t0 n (? & ? & _)%(i_orders _ _ Hi). done.
  - intros i j t u Ht Hu E Hct Hcu. pose proof (thread_lock _ _ _ _ Hi Ht (critical_holds _ Hct)) as H1. pose proof (thread_lock _ _ _ _ Hi Hu (critical_holds _ Hcu)) as H2. congruence.
  - intros l s' n x m. by apply ready_stays.
  - apply Hi.
  - intros i t l Ht E. pose proof (t_pc _ _ _ _ (i_threads _ _ Hi _ _ Ht)) as H. rewrite E in H. done.
  - intros l s' i Hs Hm. destruct (mover_descends _ _ _ _ _ Hs Hm) as (t & p & ? & ? & ?). exists t, p. split_and!; [done..|]. destruct (pc t) as [| |[]| | | | |[]|[]|[]| | | | | | | | | |]; cbn; lia.
  - intros i t. apply moves_or_waits. by eapply reach_made.
  - intros n i (t & Ht & En & Hh)%(i_locks _ _ Hi). exists t. split_and!; [done..|]. by apply holder_moves.
Qed.

(** A thread that waits for its own lock waits for ever. *)
Theorem self_blocked_for_ever c s s' i t : 0 <= cooldown c <= 2 ^ 62 -> inv c s -> threads s !! i = Some t -> self_blocked (pc t) ->
  reach (step (Some c)) s s' -> threads s' !! i = Some t.
Proof.
  intros Hcd Hi Ht Hb Hr. enough (inv c s' /\ threads s' !! i = Some t) by tauto.
  refine (reach_invariant _ (fun z => inv c z /\ threads z !! i = Some t) s s' _ _ Hr); [done|]. clear Hr s'.
  intros l x y [Ix Hx] Hs. split; [by eapply od_step_inv|]. pose proof (lookup_lt_Some _ _ _ Hx) as Hlt. destruct Hb as (old & E). destruct t as [n p]. cbn [pc] in E. subst p.
  assert (forall j u q z, threads x !! j = Some u -> threads z = <[j := q]> (threads x) -> j <> i -> threads z !! i = Some (mkThread n (ReloadTake (RLocked old)))) as Hne
    by (intros j u q z _ -> Hj; by rewrite list_lookup_insert_ne).
  destruct (decide (mover l = Some i)) as [Hm|Hm].
  - exfalso. pose proof (thread_lock _ _ _ _ Ix Hx eq_refl) as Hl. destruct l as [| | | |j|j|j|j]; cbn in Hm; simplify_eq; cbn in Hs; rewrite Hx in Hs; try done.
    cbn in Hs. unfold acquire in Hs. cbn in Hl. by rewrite Hl in Hs.
  - destruct l as [d|m f|m|m|j|j dial|j b|j b]; cbn in Hm, Hs.
    + destruct (_ && _); [|done]. by injection Hs as <-.
    + by injection Hs as <-.
    + injection Hs as <-. by apply lookup_app_l_Some.
    + injection Hs as <-. by apply lookup_app_l_Some.
    + apply bind_Some in Hs as ([k p] & Hj & Hs). apply thread_step_locks in Hs as (_ & q & E & _). eapply Hne; [done|exact E|congruence].
    + apply bind_Some in Hs as (u & Hj & Hs). unfold answer_step in Hs. destruct (pc u); try done. apply bind_Some in Hs as (ask & _ & [= <-]). eapply (Hne j); [done..|congruence].
    + apply bind_Some in Hs as (u & Hj & Hs). unfold order_step in Hs. destruct (pc u); try done. injection Hs as <-. destruct b; (eapply (Hne j); [done..|congruence]).
    + apply bind_Some in Hs as (u & Hj & Hs). unfold exit_step in Hs. destruct (pc u); try done. injection Hs as <-. eapply (Hne j); [done..|congruence].
Qed.

(** ** Examples *)
Module DemoOnDemand.
Definition host : bytes := bs "a.test".
Definition open_cfg : Cfg := mkCfg (bs "ca") None (bs "www") (bs "cache") (bs "acme-issue") None None 300.
Definition gated_cfg (cd : Z) : Cfg := mkCfg (bs "ca") (Some (bs "http://gateway:8080/x")) (bs "www") (bs "cache") (bs "acme-issue") None None cd.
Definition key (b : Z) : bytes := replicate 32 b.
Definition leaf (b : Z) : Files := mkFiles (Some [b]) (Some (key b)) (Some b).
Definition steps (i n : nat) : list Label := replicate n (LStep i).

(** A first handshake, up to the issuer. *)
Definition first_hit : list Label := LHandshake host :: steps 0 7 ++ [LOrder 0 true].

(** Two first handshakes: one order, and both are served its leaf. *)
Definition together : list Label := first_hit ++ LHandshake host :: steps 1 3 ++ [LDisk host (leaf 1); LExit 0 true] ++ steps 0 5 ++ steps 1 4.
End DemoOnDemand.
Import DemoOnDemand.

Lemma ondemand_sound_witness :
  exists s, run (step (Some open_cfg)) together (start 0 ∅) = Some s /\ orders s = [(0, host)] /\
    (forall i t l, threads s !! i = Some t -> pc t = Done (Resolved (Serve l)) -> valid_host (sni t) = true /\ good l /\ vouched open_cfg s (sni t)) /\
    pc <$> threads s = [Done (Resolved (Serve (mkSniCert [1] (key 1)))); Done (Resolved (Serve (mkSniCert [1] (key 1))))].
Proof.
  destruct (run (step (Some open_cfg)) together (start 0 ∅)) as [s|] eqn:E; [|by vm_compute in E]. exists s. split; [done|].
  pose proof (ondemand_sound open_cfg 0 ∅ s ltac:(cbn; lia) ltac:(vm_compute; reflexivity) (run_reach _ _ _ _ E)) as (_ & _ & _ & _ & _ & H & _).
  split; [vm_compute in E; injection E as <-; reflexivity|]. split; [exact H|vm_compute in E; injection E as <-; reflexivity].
Defined.

(** The second handshake waits; the leaf is loaded; before it looks again the
    sweep has a newer one written. It then waits for the lock it holds, and so
    does the sweep's reload after it. *)
Definition reminted : list Label :=
  first_hit ++ LHandshake host :: steps 1 3 ++ [LDisk host (leaf 1); LExit 0 true] ++ steps 0 5 ++
  [LDisk host (leaf 2)] ++ steps 1 4 ++ LSweep host :: steps 2 2.

Example second_look_deadlocks :
  exists s, run (step (Some open_cfg)) reminted (start 0 ∅) = Some s /\
    pc <$> threads s = [Done (Resolved (Serve (mkSniCert [1] (key 1)))); ReloadTake (RLocked (mkSniCert [1] (key 1))); ReloadTake RSweep] /\
    step (Some open_cfg) (LStep 1) s = None /\ step (Some open_cfg) (LStep 2) s = None.
Proof.
  destruct (run (step (Some open_cfg)) reminted (start 0 ∅)) as [s|] eqn:E; [|by vm_compute in E]. exists s. split; [done|]. vm_compute in E. injection E as <-. split_and!; reflexivity.
Qed.

Definition refusing : bytes -> Z -> option Socket := authorizer "1.1 404 Not Found".

(** The authorizer refuses the name; the sweep renews the leaf that an earlier
    process left, and the name is served without another question. *)
Definition overridden : list Label :=
  [LDisk host (leaf 1); LHandshake host] ++ steps 0 5 ++ [LAnswer 0 refusing] ++ steps 0 3 ++ LSweep host :: steps 1 8 ++ LHandshake host :: steps 2 3.

Example sweep_overrides_refusal :
  (fun s => (pc <$> threads s, answers s)) <$> run (step (Some (gated_cfg 300))) overridden (start 0 ∅) =
  Some ([Done (Resolved Refuse); Done (Reloaded true); Done (Resolved (Serve (mkSniCert [1] (key 1))))], [(host, Some false)]).
Proof. vm_compute. reflexivity. Qed.

(** Certificate and key are read one after the other: written anew in between,
    they come from different leaves, under the time of the newer one. *)
Definition torn : list Label := [LDisk host (leaf 1); LHandshake host] ++ steps 0 7 ++ [LDisk host (leaf 2)] ++ steps 0 4.

Example torn_leaf :
  (fun s => (pc <$> threads s, cache s !! host)) <$> run (step (Some open_cfg)) torn (start 0 ∅) =
  Some ([Done (Resolved (Serve (mkSniCert [1] (key 2))))], Some (Ready (mkSniCert [1] (key 2)) (Some 2))).
Proof. vm_compute. reflexivity. Qed.

(** A cooldown past the range of an instant is none: the thread panics before
    the refusal is kept. *)
Example huge_cooldown_is_none :
  (fun s => (pc <$> threads s, cache s !! host)) <$>
    run (step (Some (gated_cfg (2 ^ 64 - 1)))) ([LHandshake host] ++ steps 0 5 ++ [LAnswer 0 refusing] ++ steps 0 2) (start 0 ∅) = Some ([Done Panicked], None).
Proof. vm_compute. reflexivity. Qed.
