(* ===== verification/TlsPool.v ===== *)
(** * The certificate pool ([tls.rs])

    What TLS connections are served from: the material on disk, its validation,
    the published pool, the watcher that reloads it when the files change, and
    the other callers of [reload] (the administrator, the reload signal, the
    renewal scheduler). Every thread reads one file, or the stamp of one file,
    in a step, and the files change between any two steps. The environment is
    fixed; [material_path] of a slot is a path. The accept loop, the log and
    shutdown are not modelled.

    C28: the pool stays complete and comes from the files; a failed reload
    changes nothing; and the watcher converges. *)
From S2P Require Import Prelude Bytes Serve DiskCache Renewal Sni OnDemand.

Local Open Scope Z_scope.

Definition ED25519_MATERIAL : list (string * string) :=
  [("DRORB_TLS_CERT", "conformance/tls/cert.der"); ("DRORB_TLS_SEED", "conformance/tls/seed.bin")]%string.
Definition ECDSA_MATERIAL : list (string * string) :=
  [("DRORB_TLS_ECDSA_CERT", "conformance/tls/ecdsa-cert.der"); ("DRORB_TLS_ECDSA_KEY", "conformance/tls/ecdsa-key.bin")]%string.
Definition RSA_MATERIAL : list (string * string) :=
  [("DRORB_TLS_RSA_CERT", "conformance/tls/rsa-cert.der"); ("DRORB_TLS_RSA_N", "conformance/tls/rsa-n.bin");
   ("DRORB_TLS_RSA_E", "conformance/tls/rsa-e.bin"); ("DRORB_TLS_RSA_D", "conformance/tls/rsa-d.bin")]%string.

Definition material_path (getenv : string -> option bytes) (slot : string * string) : bytes := default (bs slot.2) (getenv slot.1).
Definition cert_paths (getenv : string -> option bytes) : list bytes := material_path getenv <$> ED25519_MATERIAL ++ ECDSA_MATERIAL ++ RSA_MATERIAL.

(** ** Validation *)
Definition ecdsa_pair (c k : bytes) : bytes * bytes :=
  if bool_decide (c = []) || bool_decide (k = []) then ([], []) else if negb (length k =? 32)%nat then ([], []) else (c, k).

Definition rsa_group (c n e d : bytes) : bytes * bytes * bytes * bytes :=
  if bool_decide (c = []) || bool_decide (n = []) || bool_decide (e = []) || bool_decide (d = []) then ([], [], [], []) else (c, n, e, d).

(** The pool of what was read: nothing read of an optional member is an empty
    one. *)
Definition assemble (cert_der seed : bytes) (ec ek rc rn re rd : option bytes) : TlsCert :=
  let o := default [] in
  let '(ecdsa_cert, ecdsa_priv) := ecdsa_pair (o ec) (o ek) in
  let '(rsa_cert, rsa_n, rsa_e, rsa_d) := rsa_group (o rc) (o rn) (o re) (o rd) in
  mkTlsCert cert_der seed ecdsa_cert ecdsa_priv rsa_cert rsa_n rsa_e rsa_d.

Definition load_cert (getenv : string -> option bytes) (read : bytes -> option bytes) : option TlsCert :=
  match cert_paths getenv with
  | [p0; p1; p2; p3; p4; p5; p6; p7] =>
      cert_der ← read p0;
      seed ← read p1;
      if negb (length seed =? 32)%nat then None
      else Some (assemble cert_der seed (read p2) (read p3) (read p4) (read p5) (read p6) (read p7))
  | _ => None
  end.

Definition pool_tag (c : TlsCert) : bytes :=
  concat (hex_byte <$> to_be_bytes 8 (fnv1a (Serve.cert_der c ++ ecdsa_cert c ++ rsa_cert c) 0xcbf29ce484222325)).

(** ** A connection *)
Definition ondemand_pool (boot : TlsCert) (leaf : SniCert) : TlsCert :=
  mkTlsCert (Serve.cert_der boot) (tls_seed boot) (cert_der leaf) (priv_scalar leaf) [] [] [] [].

(** What a connection is served from; [None] closes it. [decision]: what is
    resolved for the name that was peeked. *)
Definition conn_pool (enabled : bool) (boot : TlsCert) (peeked : option bytes) (decision : bytes -> Resolution) : option TlsCert :=
  if enabled then
    match peeked with
    | Some sni => match decision sni with Serve leaf => Some (ondemand_pool boot leaf) | Refuse => None | Passthrough => Some boot end
    | None => Some boot
    end
  else Some boot.

(** ** Reloading *)
Record File := mkFile { content : bytes; mtime : Z }.
Abbreviation Stamp := (option (Z * Z)).

Definition stamp_of (f : option File) : Stamp := (fun f => (Z.of_nat (length (content f)), mtime f)) <$> f.

(** The watcher: taking the stamps of the files, one by one, asleep, or in
    [reload] with the new stamps. *)
Inductive Watcher :=
  | Stamping (seen : option (list Stamp)) (acc : list Stamp)
  | Asleep (seen : list Stamp)
  | WReloading (seen : list Stamp) (got : list (option bytes))
  | Installing (seen : list Stamp) (fresh : TlsCert).

(** Another caller of [reload]. *)
Inductive Caller := CReading (got : list (option bytes)) | CInstalling (fresh : TlsCert) | CDone (ok : bool).

Record Pool := mkPool {
  files : gmap bytes File; latest : Z; certs : TlsCert; watcher : Watcher; rounds : nat; callers : list Caller; held : list (bytes * option bytes)
}.

(** What the next read of [load_cert] makes of what was read before: an early
    return, a further read, or a pool. *)
Inductive Progress := Failing | More (got : list (option bytes)) | Fresh (c : TlsCert).

Definition read_next (got : list (option bytes)) (v : option bytes) : Progress :=
  match got ++ [v] with
  | [None] => Failing
  | [_; None] => Failing
  | [_; Some seed] => if negb (length seed =? 32)%nat then Failing else More (got ++ [v])
  | [Some cert; Some seed; ec; ek; rc; rn; re; rd] => Fresh (assemble cert seed ec ek rc rn re rd)
  | got' => More got'
  end.

Section pool.
Context (getenv : string -> option bytes).

Definition path (k : nat) : bytes := default [] (cert_paths getenv !! k).
Definition content_at (k : nat) (s : Pool) : option bytes := content <$> files s !! path k.
Definition stamp_at (k : nat) (s : Pool) : Stamp := stamp_of (files s !! path k).

Definition set_watcher (w : Watcher) (s : Pool) : Pool := mkPool (files s) (latest s) (certs s) w (rounds s) (callers s) (held s).
Definition set_caller (i : nat) (c : Caller) (s : Pool) : Pool := mkPool (files s) (latest s) (certs s) (watcher s) (rounds s) (<[i := c]> (callers s)) (held s).
Definition install (c : TlsCert) (s : Pool) : Pool := mkPool (files s) (latest s) c (watcher s) (rounds s) (callers s) (held s).
Definition round_done (s : Pool) : Pool := mkPool (files s) (latest s) (certs s) (watcher s) (S (rounds s)) (callers s) (held s).

Definition watch_step (s : Pool) : option Pool :=
  match watcher s with
  | Stamping seen acc =>
      let acc' := acc ++ [stamp_at (length acc) s] in
      Some (set_watcher
              (if (length acc' <? length (cert_paths getenv))%nat then Stamping seen acc'
               else match seen with
                    | None => Asleep acc'
                    | Some old => if bool_decide (acc' = old) then Asleep old else WReloading acc' []
                    end) s)
  | Asleep seen => Some (set_watcher (Stamping (Some seen) []) s)
  | WReloading seen got =>
      Some (match read_next got (content_at (length got) s) with
            | Failing => round_done (set_watcher (Asleep seen) s)
            | More got' => set_watcher (WReloading seen got') s
            | Fresh c => set_watcher (Installing seen c) s
            end)
  | Installing seen c => Some (round_done (set_watcher (Asleep seen) (install c s)))
  end.

Definition caller_step (i : nat) (c : Caller) (s : Pool) : option Pool :=
  match c with
  | CReading got =>
      Some (set_caller i (match read_next got (content_at (length got) s) with Failing => CDone false | More got' => CReading got' | Fresh c => CInstalling c end) s)
  | CInstalling c => Some (set_caller i (CDone true) (install c s))
  | CDone _ => None
  end.

Inductive Label :=
  | LWatch
  | LReload
  | LCaller (i : nat)
  | LWrite (p : bytes) (d : bytes) (m : Z)
  | LRemove (p : bytes).

Definition step (l : Label) (s : Pool) : option Pool :=
  match l with
  | LWatch => watch_step s
  | LReload => Some (mkPool (files s) (latest s) (certs s) (watcher s) (rounds s) (callers s ++ [CReading []]) (held s))
  | LCaller i => c ← callers s !! i; caller_step i c s
  | LWrite p d m => Some (mkPool (<[p := mkFile d m]> (files s)) (Z.max (latest s) m) (certs s) (watcher s) (rounds s) (callers s) ((p, Some d) :: held s))
  | LRemove p => Some (mkPool (delete p (files s)) (latest s) (certs s) (watcher s) (rounds s) (callers s) ((p, None) :: held s))
  end.

(** From the pool that was loaded before; [held] records what the files held. *)
Definition booted (fs : gmap bytes File) (t : Z) (c : TlsCert) : Pool :=
  mkPool fs t c (Stamping None []) 0 [] ((fun p => (p, content <$> fs !! p)) <$> cert_paths getenv).
End pool.

(** So many steps of the watcher. *)
Abbreviation watch n := (replicate n LWatch).

(** ** What [load_cert] reads *)

(** The reads so far did not end it. *)
Definition passed (got : list (option bytes)) : Prop :=
  (length got < 8)%nat /\ (forall v, got !! 0%nat = Some v -> is_Some v) /\ (forall v, got !! 1%nat = Some v -> exists seed, v = Some seed /\ length seed = 32%nat).

Lemma read_next_spec got v : passed got ->
  match read_next got v with
  | Failing => (length got = 0%nat /\ v = None) \/ (length got = 1%nat /\ forall seed, v = Some seed -> length seed <> 32%nat)
  | More got' => got' = got ++ [v] /\ passed got'
  | Fresh c => exists cert seed ec ek rc rn re rd, got ++ [v] = [Some cert; Some seed; ec; ek; rc; rn; re; rd] /\ length seed = 32%nat /\ c = assemble cert seed ec ek rc rn re rd
  end.
Proof.
  intros (Hl & H0 & H1). unfold read_next. destruct got as [|x0 got]; cbn [app].
  { destruct v; [|by left]. split; [done|]. split_and!; [cbn; lia|naive_solver|done]. }
  destruct (H0 x0 eq_refl) as [cert ->]. destruct got as [|x1 got]; cbn [app].
  { destruct v as [seed|]; [|right; by split]. destruct (length seed =? 32)%nat eqn:E; cbn [negb].
    - apply Nat.eqb_eq in E. split; [done|]. split_and!; [cbn; lia|cbn; naive_solver|cbn; naive_solver].
    - apply Nat.eqb_neq in E. right. split; [done|]. by intros ? [= <-]. }
  destruct (H1 x1 eq_refl) as (seed & -> & Hs).
  destruct got as [|x2 [|x3 [|x4 [|x5 [|x6 [|x7 got]]]]]]; cbn [app]; [..|exfalso; cbn in Hl; lia].
  all: try (split; [done|]; split_and!; [cbn; lia|cbn; naive_solver|cbn; naive_solver]).
  do 8 eexists. split_and!; [done..|]. done.
Qed.

Definition complete (c : TlsCert) : Prop :=
  length (tls_seed c) = 32%nat /\
  ((ecdsa_cert c = [] /\ ecdsa_priv c = []) \/ (ecdsa_cert c <> [] /\ length (ecdsa_priv c) = 32%nat)) /\
  ((rsa_cert c = [] /\ rsa_n c = [] /\ rsa_e c = [] /\ rsa_d c = []) \/ (rsa_cert c <> [] /\ rsa_n c <> [] /\ rsa_e c <> [] /\ rsa_d c <> [])).

Lemma assemble_complete cert seed ec ek rc rn re rd : length seed = 32%nat -> complete (assemble cert seed ec ek rc rn re rd).
Proof.
  intros Hs. unfold assemble, ecdsa_pair, rsa_group, complete.
  repeat (case_bool_decide; cbn [orb negb]); try destruct (_ =? 32)%nat eqn:E; cbn [negb tls_seed ecdsa_cert ecdsa_priv rsa_cert rsa_n rsa_e rsa_d];
    rewrite ?Nat.eqb_eq in *; split_and!; auto; tauto.
Qed.

Section invariants.
Context (getenv : string -> option bytes).

Local Abbreviation path := (path getenv).
Local Abbreviation content_at := (content_at getenv).
Local Abbreviation stamp_at := (stamp_at getenv).
Local Abbreviation step := (step getenv).

Lemma length_paths : length (cert_paths getenv) = 8%nat.
Proof. done. Qed.

Lemma load_cert_paths r : load_cert getenv r =
  (cert_der ← r (path 0); seed ← r (path 1);
   if negb (length seed =? 32)%nat then None
   else Some (assemble cert_der seed (r (path 2)) (r (path 3)) (r (path 4)) (r (path 5)) (r (path 6)) (r (path 7)))).
Proof. reflexivity. Qed.

(** Every member of a pool was in its file, or is absent. *)
Definition member (h : list (bytes * option bytes)) (k : nat) (x : bytes) : Prop := x = [] \/ (path k, Some x) ∈ h.
Definition from (h : list (bytes * option bytes)) (c : TlsCert) : Prop :=
  (path 0, Some (Serve.cert_der c)) ∈ h /\ (path 1, Some (tls_seed c)) ∈ h /\ member h 2 (ecdsa_cert c) /\ member h 3 (ecdsa_priv c) /\
  member h 4 (rsa_cert c) /\ member h 5 (rsa_n c) /\ member h 6 (rsa_e c) /\ member h 7 (rsa_d c).
Definition sound (h : list (bytes * option bytes)) (c : TlsCert) : Prop := complete c /\ from h c.

Lemma member_mono h h' k x : h ⊆ h' -> member h k x -> member h' k x.
Proof. intros Hh [->|H]; [by left|right; by apply Hh]. Qed.

Lemma sound_mono h h' c : h ⊆ h' -> sound h c -> sound h' c.
Proof.
  intros Hh [Hc (H0 & H1 & H2 & H3 & H4 & H5 & H6 & H7)]. split; [done|]. split_and!; try (by apply Hh); by eapply member_mono.
Qed.

Definition read_from (h : list (bytes * option bytes)) (got : list (option bytes)) : Prop := forall k v, got !! k = Some v -> (path k, v) ∈ h.

Lemma assemble_from h cert seed ec ek rc rn re rd : read_from h [Some cert; Some seed; ec; ek; rc; rn; re; rd] -> length seed = 32%nat ->
  sound h (assemble cert seed ec ek rc rn re rd).
Proof.
  intros Hr Hs. split; [by apply assemble_complete|]. assert (forall k (o : option bytes), [Some cert; Some seed; ec; ek; rc; rn; re; rd] !! k = Some o -> member h k (default [] o)) as Hm.
  { intros k [x|] Hk; [right; by apply Hr|by left]. }
  pose proof (Hm 2%nat ec eq_refl) as M2. pose proof (Hm 3%nat ek eq_refl) as M3. pose proof (Hm 4%nat rc eq_refl) as M4. pose proof (Hm 5%nat rn eq_refl) as M5. pose proof (Hm 6%nat re eq_refl) as M6. pose proof (Hm 7%nat rd eq_refl) as M7.
  unfold from, assemble. set (o := default []) in *.
  assert (ecdsa_pair (o ec) (o ek) = ([], []) \/ ecdsa_pair (o ec) (o ek) = (o ec, o ek)) as [-> | ->] by (unfold ecdsa_pair; repeat case_match; auto);
  (assert (rsa_group (o rc) (o rn) (o re) (o rd) = ([], [], [], []) \/ rsa_group (o rc) (o rn) (o re) (o rd) = (o rc, o rn, o re, o rd)) as [-> | ->] by (unfold rsa_group; repeat case_match; auto));
  cbn; split_and!; try (by apply (Hr 0%nat)); try (by apply (Hr 1%nat)); done || by left.
Qed.

Definition watcher_ok (s : Pool) : Prop :=
  match watcher s with
  | WReloading _ got => passed got /\ read_from (held s) got
  | Installing _ c => sound (held s) c
  | _ => True
  end.
Definition caller_ok (h : list (bytes * option bytes)) (c : Caller) : Prop :=
  match c with CReading got => passed got /\ read_from h got | CInstalling c => sound h c | CDone _ => True end.

Record inv (s : Pool) : Prop := {
  i_held : forall k, (k < 8)%nat -> (path k, content_at k s) ∈ held s;
  i_certs : sound (held s) (certs s);
  i_watcher : watcher_ok s;
  i_callers : forall i c, callers s !! i = Some c -> caller_ok (held s) c
}.

Lemma read_from_snoc h got v : read_from h got -> (path (length got), v) ∈ h -> read_from h (got ++ [v]).
Proof.
  intros Hg Hv k x Hk. destruct (decide (k < length got)%nat); [rewrite lookup_app_l in Hk by done; auto|]. rewrite lookup_app_r in Hk by lia. apply list_lookup_singleton_Some in Hk as [Hk <-].
  by replace k with (length got) by lia.
Qed.

Lemma read_step_ok s got : inv s -> passed got -> read_from (held s) got ->
  match read_next got (content_at (length got) s) with Failing => True | More got' => passed got' /\ read_from (held s) got' | Fresh c => sound (held s) c end.
Proof.
  intros Hi Hp Hr. pose proof (read_next_spec got (content_at (length got) s) Hp) as H. assert (read_from (held s) (got ++ [content_at (length got) s])) as Hr'.
  { apply read_from_snoc; [done|]. apply Hi, Hp. }
  destruct (read_next _ _); [done|by destruct H as [-> ?]|]. destruct H as (cert & seed & ec & ek & rc & rn & re & rd & E & Hs & ->). rewrite E in Hr'. by apply assemble_from.
Qed.

(** The files change: what was recorded stays recorded. *)
Lemma inv_files s s' : inv s -> held s ⊆ held s' -> (forall k, (k < 8)%nat -> (path k, content_at k s') ∈ held s') ->
  certs s' = certs s -> watcher s' = watcher s -> callers s' = callers s -> inv s'.
Proof.
  intros [Hh Hc Hw Hca] Hsub Hnew Ec Ew Eca. assert (forall got, read_from (held s) got -> read_from (held s') got) as Hg by (intros got H k v Hk; by apply Hsub, H).
  constructor; [done|rewrite Ec; by eapply sound_mono| |].
  - unfold watcher_ok in *. rewrite Ew. destruct (watcher s); try done; [destruct Hw; auto|by eapply sound_mono].
  - intros i c H. rewrite Eca in H. specialize (Hca _ _ H). destruct c; cbn in *; [destruct Hca; auto|by eapply sound_mono|done].
Qed.

Lemma watch_step_inv s s' : inv s -> watch_step getenv s = Some s' -> inv s'.
Proof.
  intros Hi Hs. pose proof Hi as [Hh Hc Hw Hca]. unfold watch_step in Hs. unfold watcher_ok in Hw. destruct (watcher s) as [seen acc|seen|seen got|seen c] eqn:E.
  - injection Hs as <-. constructor; try done. unfold watcher_ok. cbn [watcher set_watcher]. destruct (_ <? _)%nat; [done|]. destruct seen as [old|]; [|done]. destruct (bool_decide _); [done|].
    split; [|by intros k v Hk]. split_and!; [cbn; lia|done..].
  - injection Hs as <-. by constructor.
  - destruct Hw as [Hp Hr]. injection Hs as <-. pose proof (read_step_ok s got Hi Hp Hr) as H. destruct (read_next _ _); by constructor.
  - injection Hs as <-. by constructor.
Qed.

Lemma caller_step_inv s i c s' : inv s -> callers s !! i = Some c -> caller_step getenv i c s = Some s' -> inv s'.
Proof.
  intros Hi Hc Hs. pose proof Hi as [Hh Hce Hw Hca]. pose proof (Hca _ _ Hc) as Ho. pose proof (lookup_lt_Some _ _ _ Hc) as Hlt.
  assert (forall q t, (forall j x, <[i := q]> (callers s) !! j = Some x -> caller_ok (held s) x) -> sound (held s) t ->
    inv (mkPool (files s) (latest s) t (watcher s) (rounds s) (<[i := q]> (callers s)) (held s))) as Hset by (intros q t Hq Ht; by constructor).
  assert (forall q, caller_ok (held s) q -> forall j x, <[i := q]> (callers s) !! j = Some x -> caller_ok (held s) x) as Hins.
  { intros q Hq j x Hx. apply list_lookup_insert_Some in Hx as [(-> & <- & _)|[_ Hx]]; eauto. }
  destruct c as [got|fresh|ok]; cbn in Hs; [|injection Hs as <-; apply Hset; [by apply Hins|done]|done].
  destruct Ho as [Hp Hr]. injection Hs as <-. apply Hset; [|done]. apply Hins. pose proof (read_step_ok s got Hi Hp Hr) as H. by destruct (read_next _ _).
Qed.

Lemma path_write p d m s k : content_at k (mkPool (<[p := mkFile d m]> (files s)) (Z.max (latest s) m) (certs s) (watcher s) (rounds s) (callers s) ((p, Some d) :: held s)) =
  if bool_decide (path k = p) then Some d else content_at k s.
Proof. unfold TlsPool.content_at. cbn [files]. case_bool_decide as E; [by rewrite E, lookup_insert_eq|by rewrite lookup_insert_ne]. Qed.

Lemma tls_step_inv l s s' : inv s -> step l s = Some s' -> inv s'.
Proof.
  intros Hi Hs. destruct l as [| |i|p d m|p]; cbn [TlsPool.step] in Hs.
  - by eapply watch_step_inv.
  - injection Hs as <-. destruct Hi as [Hh Hc Hw Hca]. constructor; try done. intros i c H. cbn [callers held] in *. apply lookup_app_Some in H as [H|[_ H]]; [eauto|].
    apply list_lookup_singleton_Some in H as [_ <-]. split; [split_and!; [cbn; lia|done..]|by intros k v Hk].
  - apply bind_Some in Hs as (c & Hc & Hs). by eapply caller_step_inv.
  - injection Hs as <-. eapply inv_files; [exact Hi|cbn; set_solver| |done..]. intros k Hk. rewrite path_write. cbn [held]. case_bool_decide as E; [rewrite E; by left|right; by apply Hi].
  - injection Hs as <-. eapply inv_files; [exact Hi|cbn; set_solver| |done..]. intros k Hk. cbn [held]. unfold TlsPool.content_at. cbn [files].
    destruct (decide (path k = p)) as [E|E]; [rewrite E, lookup_delete_eq; by left|rewrite lookup_delete_ne by done; right; by apply Hi].
Qed.

Lemma booted_inv' fs t c : load_cert getenv (fun p => content <$> fs !! p) = Some c -> inv (booted getenv fs t c).
Proof.
  intros Hl. assert (forall k, (k < 8)%nat -> (path k, content_at k (booted getenv fs t c)) ∈ held (booted getenv fs t c)) as Hh.
  { intros k Hk. unfold booted. cbn [held]. apply list_elem_of_fmap. exists (path k). split; [done|]. unfold TlsPool.path.
    destruct (lookup_lt_is_Some_2 (cert_paths getenv) k) as [p Hp]; [by rewrite length_paths|]. rewrite Hp. by eapply list_elem_of_lookup_2. }
  constructor; [done| |done|done]. rewrite load_cert_paths in Hl.
  apply bind_Some in Hl as (cert & E0 & Hl). apply bind_Some in Hl as (seed & E1 & Hl). destruct (length seed =? 32)%nat eqn:E; [|done]. apply Nat.eqb_eq in E. cbn [negb] in Hl. injection Hl as Hl. cbn [certs booted]. rewrite <- Hl.
  apply assemble_from; [|done]. intros k v Hk. pose proof (lookup_lt_Some _ _ _ Hk : (k < 8)%nat) as Hlt.
  assert (v = content_at k (booted getenv fs t c)) as ->; [|by apply Hh].
  do 8 (destruct k as [|k]; [injection Hk as <-; (exact (eq_sym E0) || exact (eq_sym E1) || reflexivity)|]). lia.
Qed.
(** ** Convergence

    Runs in which the watcher alone reloads, and the files are written, never
    removed, each time with a later time of modification. *)
Definition tidy (l : Label) (s : Pool) : bool :=
  match l with LWatch => true | LWrite _ _ m => latest s <? m | _ => false end.
Definition tidy_step (l : Label) (s : Pool) : option Pool := if tidy l s then step l s else None.

Definition on_disk (s : Pool) (p : bytes) : option bytes := content <$> files s !! p.
Definition stamps (s : Pool) : list Stamp := (fun k => stamp_at k s) <$> seq 0 8.

Definition older (t : Z) (st : Stamp) : Prop := forall n m, st = Some (n, m) -> m <= t.

(** What was read is what is there, where the stamp is still the one seen. *)
Definition agrees (s : Pool) (seen : list Stamp) (got : list (option bytes)) : Prop :=
  forall k v, got !! k = Some v -> seen !! k = Some (stamp_at k s) -> v = content_at k s.

(** While the stamps are those seen, the pool is what the files give. *)
Definition in_step (s : Pool) (seen : list Stamp) : Prop := seen = stamps s -> forall c, load_cert getenv (on_disk s) = Some c -> certs s = c.

Definition seen_ok (s : Pool) (seen : list Stamp) : Prop := length seen = 8%nat /\ Forall (older (latest s)) seen.

Definition watch_ok (s : Pool) : Prop :=
  match watcher s with
  | Stamping o acc => (length acc < 8)%nat /\ Forall (older (latest s)) acc /\
      match o with None => rounds s = 0%nat | Some seen => seen_ok s seen /\ (rounds s <> 0%nat -> in_step s seen) end
  | Asleep seen => seen_ok s seen /\ (rounds s <> 0%nat -> in_step s seen)
  | WReloading seen got => seen_ok s seen /\ passed got /\ agrees s seen got
  | Installing seen c => seen_ok s seen /\ exists cert seed ec ek rc rn re rd,
      agrees s seen [Some cert; Some seed; ec; ek; rc; rn; re; rd] /\ length seed = 32%nat /\ c = assemble cert seed ec ek rc rn re rd
  end.

Record tidy_inv (s : Pool) : Prop := { ti_files : forall p f, files s !! p = Some f -> mtime f <= latest s; ti_watch : watch_ok s }.

Lemma stamps_lookup s seen k : seen = stamps s -> (k < 8)%nat -> seen !! k = Some (stamp_at k s).
Proof. intros -> Hk. unfold stamps. rewrite list_lookup_fmap, lookup_seq_lt by done. done. Qed.

Lemma load_cert_ext r1 r2 : (forall k, (k < 8)%nat -> r1 (path k) = r2 (path k)) -> load_cert getenv r1 = load_cert getenv r2.
Proof. intros H. rewrite !load_cert_paths. rewrite !H by lia. done. Qed.

(** A later write, seen at the path it changes and nowhere else. *)
Definition written (s : Pool) (p d : bytes) (m : Z) : Pool :=
  mkPool (<[p := mkFile d m]> (files s)) (Z.max (latest s) m) (certs s) (watcher s) (rounds s) (callers s) ((p, Some d) :: held s).

Section write.
Context (s : Pool) (p d : bytes) (m : Z) (Hm : latest s < m).
Local Abbreviation s' := (written s p d m).

Lemma written_path k : path k = p -> stamp_at k s' = Some (Z.of_nat (length d), m).
Proof. intros E. unfold TlsPool.stamp_at, written. cbn [files]. by rewrite E, lookup_insert_eq. Qed.

Lemma other_path k : path k <> p -> stamp_at k s' = stamp_at k s /\ content_at k s' = content_at k s.
Proof. intros E. unfold TlsPool.stamp_at, TlsPool.content_at, written. cbn [files]. by rewrite !lookup_insert_ne by congruence. Qed.

Lemma seen_other seen k : Forall (older (latest s)) seen -> seen !! k = Some (stamp_at k s') -> path k <> p.
Proof. intros Ho Hk E. rewrite (written_path _ E) in Hk. eapply Forall_lookup_1 in Ho; [|exact Hk]. specialize (Ho _ _ eq_refl). lia. Qed.

Lemma older_written st : older (latest s) st -> older (latest s') st.
Proof. intros H n k E. specialize (H _ _ E). unfold written. cbn [latest]. lia. Qed.

Lemma agrees_written seen got : Forall (older (latest s)) seen -> agrees s seen got -> agrees s' seen got.
Proof. intros Ho Ha k v Hv Hs. pose proof (seen_other _ _ Ho Hs) as Hp. destruct (other_path _ Hp) as [E1 E2]. rewrite E1 in Hs. rewrite E2. by apply Ha. Qed.

Lemma in_step_written seen : Forall (older (latest s)) seen -> in_step s seen -> in_step s' seen.
Proof.
  intros Ho Hi Hs c Hc. assert (forall k, (k < 8)%nat -> stamp_at k s' = stamp_at k s /\ content_at k s' = content_at k s) as Hk.
  { intros k Hk. apply other_path. eapply seen_other; [exact Ho|]. by apply stamps_lookup. }
  apply Hi.
  - rewrite Hs. unfold stamps. apply list_fmap_ext. intros i k Hin. apply lookup_seq in Hin as [-> Hlt]. by apply Hk.
  - rewrite <- Hc. symmetry. apply load_cert_ext. intros k Hlt. by apply Hk.
Qed.

Lemma written_inv : tidy_inv s -> tidy_inv s'.
Proof.
  intros [Hf Hw]. assert (forall l, Forall (older (latest s)) l -> Forall (older (latest s')) l) as Hold by (intros l H; eapply Forall_impl; [exact H|apply older_written]).
  assert (forall seen, seen_ok s seen -> seen_ok s' seen) as Hso by (intros seen [? ?]; split; auto).
  constructor.
  - intros q f Hq. unfold written in *. cbn [files latest] in *. apply lookup_insert_Some in Hq as [[-> <-]|[_ Hq]]; [cbn; lia|]. specialize (Hf _ _ Hq). lia.
  - unfold watch_ok in Hw |- *. change (watcher s') with (watcher s). change (rounds s') with (rounds s). destruct (watcher s) as [o acc|seen|seen got|seen c].
    + destruct Hw as (? & ? & Ho). split_and!; [done|auto|]. destruct o as [seen|]; [|done]. destruct Ho as [Ho Hin]. split; [auto|]. intros Hr. apply in_step_written; [apply Ho|auto].
    + destruct Hw as [Ho Hin]. split; [auto|]. intros Hr. apply in_step_written; [apply Ho|auto].
    + destruct Hw as (Ho & ? & ?). split_and!; [auto|done|]. apply agrees_written; [apply Ho|done].
    + destruct Hw as (Ho & cert & seed & ec & ek & rc & rn & re & rd & Ha & ? & ?). split; [auto|]. do 8 eexists. split_and!; [|done|done]. apply agrees_written; [apply Ho|done].
Qed.
End write.

Lemma in_step_loaded s seen cert seed ec ek rc rn re rd : length seed = 32%nat -> agrees s seen [Some cert; Some seed; ec; ek; rc; rn; re; rd] ->
  certs s = assemble cert seed ec ek rc rn re rd -> in_step s seen.
Proof.
  intros Hl Ha Hc Hs c Hload. assert (forall k v, [Some cert; Some seed; ec; ek; rc; rn; re; rd] !! k = Some v -> on_disk s (path k) = v) as Hk.
  { intros k v Hv. symmetry. apply Ha; [done|]. apply stamps_lookup; [done|]. apply lookup_lt_Some in Hv. exact Hv. }
  rewrite load_cert_paths, (Hk 0%nat _ eq_refl), (Hk 1%nat _ eq_refl), (Hk 2%nat _ eq_refl), (Hk 3%nat _ eq_refl), (Hk 4%nat _ eq_refl), (Hk 5%nat _ eq_refl), (Hk 6%nat _ eq_refl), (Hk 7%nat _ eq_refl) in Hload.
  cbn [mbind option_bind] in Hload. rewrite Hl in Hload. cbn [Nat.eqb negb] in Hload. congruence.
Qed.

Lemma load_fails s : content_at 0 s = None \/ (forall seed, content_at 1 s = Some seed -> length seed <> 32%nat) -> load_cert getenv (on_disk s) = None.
Proof.
  intros H. rewrite load_cert_paths. change (on_disk s (path 0)) with (content_at 0 s). change (on_disk s (path 1)) with (content_at 1 s).
  destruct H as [->|H]; [done|]. destruct (content_at 0 s); [|done]. cbn [mbind option_bind]. destruct (content_at 1 s) as [seed|]; [|done]. cbn [mbind option_bind].
  rewrite (proj2 (Nat.eqb_neq _ _)) by auto. done.
Qed.

Lemma older_stamp s k : (forall p f, files s !! p = Some f -> mtime f <= latest s) -> older (latest s) (stamp_at k s).
Proof.
  intros Hf n m E. unfold TlsPool.stamp_at, stamp_of in E. destruct (files s !! path k) as [f|] eqn:Ef; [|done]. injection E as <- <-. by apply (Hf (path k)).
Qed.

Lemma watch_tidy s s' : tidy_inv s -> watch_step getenv s = Some s' -> tidy_inv s'.
Proof.
  intros [Hf Hw] Hs. unfold watch_step in Hs. unfold watch_ok in Hw. destruct (watcher s) as [o acc|seen|seen got|seen c] eqn:E.
  - injection Hs as <-. constructor; [done|]. unfold watch_ok. cbn [watcher set_watcher rounds]. destruct Hw as (Hl & Ho & Hs).
    assert (Forall (older (latest s)) (acc ++ [stamp_at (length acc) s])) as Ho' by (apply Forall_app; split; [done|]; constructor; [by apply older_stamp|done]).
    rewrite ?length_paths, length_app. cbn [length]. destruct (length acc + 1 <? 8)%nat eqn:El.
    + apply Nat.ltb_lt in El. split_and!; [rewrite length_app; cbn; lia|done|done].
    + apply Nat.ltb_ge in El. assert (seen_ok s (acc ++ [stamp_at (length acc) s])) as Hok by (split; [rewrite length_app; cbn; lia|done]). destruct o as [old|]; [|split; [done|congruence]].
      case_bool_decide as Eq; [done|]. split; [done|]. split; [split_and!; [cbn; lia|done..]|done].
  - injection Hs as <-. constructor; [done|]. unfold watch_ok. cbn. split; [lia|]. done.
  - destruct Hw as (Ho & Hp & Ha). pose proof (read_next_spec got (content_at (length got) s) Hp) as Hn.
    assert (agrees s seen (got ++ [content_at (length got) s])) as Ha'.
    { intros k v Hk Hst. apply lookup_app_Some in Hk as [Hk|[Hge Hk]]; [by apply Ha|]. apply list_lookup_singleton_Some in Hk as [Hk <-]. by replace k with (length got) by lia. }
    injection Hs as <-. destruct (read_next _ _) as [|got'|c]; constructor; try done; unfold watch_ok; cbn [watcher set_watcher round_done rounds].
    + split; [done|]. intros _ Hst c Hc. exfalso. change (load_cert getenv (on_disk s) = Some c) in Hc. rewrite load_fails in Hc; [done|]. destruct Hn as [[E0 Hv]|[E1 Hv]]; [left; by rewrite E0 in Hv|right; rewrite E1 in Hv; done].
    + destruct Hn as [-> ?]. done.
    + destruct Hn as (cert & seed & ec & ek & rc & rn & re & rd & Eg & Hl & ->). rewrite Eg in Ha'. split; [done|]. by do 8 eexists.
  - destruct Hw as (Ho & cert & seed & ec & ek & rc & rn & re & rd & Ha & Hl & ->). injection Hs as <-. constructor; [done|]. unfold watch_ok. cbn [watcher set_watcher round_done install rounds].
    split; [done|]. intros _. by eapply in_step_loaded.
Qed.

Lemma tidy_step_inv l s s' : tidy_inv s -> tidy_step l s = Some s' -> tidy_inv s'.
Proof.
  intros Hi Hs. unfold tidy_step in Hs. destruct l as [| |i|p d m|p]; cbn [tidy] in Hs; try done; [by eapply watch_tidy|].
  destruct (latest s <? m) eqn:E; [|done]. apply Z.ltb_lt in E. injection Hs as <-. by apply written_inv.
Qed.

Lemma booted_tidy fs t c : (forall p f, fs !! p = Some f -> mtime f <= t) -> tidy_inv (booted getenv fs t c).
Proof. intros H. constructor; [done|]. cbn. split_and!; [lia|done|done]. Qed.
(** ** The watcher's rounds *)
Lemma watch_run s s' n : watch_step getenv s = Some s' -> run step (watch (S n)) s = run step (watch n) s'.
Proof. intros H. cbn [replicate run TlsPool.step]. by rewrite H. Qed.

Lemma stamping_runs n : forall o acc s, (length acc + S n = 8)%nat -> watcher s = Stamping o acc ->
  exists s', run step (watch (S n)) s = Some s' /\ files s' = files s /\ rounds s' = rounds s /\
    let full := acc ++ ((fun k => stamp_at k s) <$> seq (length acc) (S n)) in
    watcher s' = match o with None => Asleep full | Some old => if bool_decide (full = old) then Asleep old else WReloading full [] end.
Proof.
  induction n as [|n IH]; intros o acc s Hl Hw.
  - eexists. split; [erewrite (watch_run s _ 0); [reflexivity|unfold watch_step; rewrite Hw; reflexivity]|]. split_and!; [done..|]. cbn [watcher set_watcher].
    rewrite length_app. cbn [length]. replace (length acc + 1)%nat with 8%nat by lia. rewrite length_paths. done.
  - set (s1 := set_watcher (Stamping o (acc ++ [stamp_at (length acc) s])) s).
    destruct (IH o (acc ++ [stamp_at (length acc) s]) s1) as (s' & Hr & Hf & Hro & Hw'); [rewrite length_app; cbn; lia|done|].
    exists s'. split_and!; [|done|done|].
    + rewrite (watch_run s s1); [done|]. unfold watch_step. rewrite Hw, length_app, length_paths. cbn [length]. rewrite (proj2 (Nat.ltb_lt _ _)) by lia. done.
    + rewrite length_app, <- app_assoc in Hw'. cbn [length] in Hw'. rewrite Nat.add_1_r in Hw'. exact Hw'.
Qed.

Lemma reading_runs n : forall seen got s, (length got + S n = 8)%nat -> passed got -> watcher s = WReloading seen got ->
  exists j s', (j <= n + 2)%nat /\ run step (watch j) s = Some s' /\ files s' = files s /\ rounds s' <> 0%nat /\ watcher s' = Asleep seen.
Proof.
  induction n as [|n IH]; intros seen got s Hl Hp Hw; pose proof (read_next_spec got (content_at (length got) s) Hp) as Hn;
    (destruct (read_next got (content_at (length got) s)) as [|got'|c] eqn:E; [exists 1%nat; eexists; split; [lia|]; split; [erewrite (watch_run s _ 0); [reflexivity|unfold watch_step; rewrite Hw, E; reflexivity]|done]| |]).
  - destruct Hn as [-> [Hlt _]]. rewrite length_app in Hlt. cbn in Hlt. lia.
  - exists 2%nat. eexists. split; [lia|]. split; [rewrite (watch_run s (set_watcher (Installing seen c) s) 1); [reflexivity|unfold watch_step; rewrite Hw, E; reflexivity]|done].
  - destruct Hn as [-> Hp']. destruct (IH seen (got ++ [content_at (length got) s]) (set_watcher (WReloading seen (got ++ [content_at (length got) s])) s)) as (j & s' & Hj & Hr & Hf & Hro & Hw');
      [rewrite length_app; cbn; lia|done|done|]. exists (S j), s'. split_and!; [lia| |done|done|done]. rewrite (watch_run s (set_watcher (WReloading seen (got ++ [content_at (length got) s])) s)); [done|].
    unfold watch_step. by rewrite Hw, E.
  - exfalso. destruct Hn as (? & ? & ? & ? & ? & ? & ? & ? & Eg & _). apply (f_equal length) in Eg. rewrite length_app in Eg. cbn in Eg. lia.
Qed.

Lemma passed_nil : passed [].
Proof. split_and!; [cbn; lia|done..]. Qed.

(** From sleep to sleep: the files as they are have been seen, and read if they
    were others. *)
Lemma round s seen : watcher s = Asleep seen -> exists j s', (j <= 18)%nat /\ run step (watch j) s = Some s' /\ files s' = files s /\
  watcher s' = Asleep (stamps s') /\ (seen <> stamps s -> rounds s' <> 0%nat).
Proof.
  intros Hw. set (s1 := set_watcher (Stamping (Some seen) []) s). assert (watch_step getenv s = Some s1) as H1 by (unfold watch_step; by rewrite Hw).
  assert (forall s', files s' = files s -> stamps s' = stamps s) as Hst by (intros s' E; unfold stamps, TlsPool.stamp_at; by rewrite E).
  destruct (stamping_runs 7 (Some seen) [] s1 eq_refl eq_refl) as (s2 & Hr2 & Hf2 & Hro2 & Hw2). cbn zeta in Hw2. cbn [app length] in Hw2. change ((fun k => stamp_at k s1) <$> seq 0 8) with (stamps s) in Hw2.
  change (files s1) with (files s) in Hf2. case_bool_decide as Eq.
  - exists 9%nat, s2. split_and!; [lia|by rewrite (watch_run _ _ _ H1)|done| |congruence]. rewrite (Hst s2 Hf2). congruence.
  - destruct (reading_runs 7 (stamps s) [] s2 eq_refl passed_nil Hw2) as (j & s3 & Hj & Hr3 & Hf3 & Hro3 & Hw3). exists (S (8 + j))%nat, s3. split_and!; [lia| |congruence|rewrite (Hst s3); congruence|done].
    rewrite (watch_run _ _ _ H1), replicate_add, run_app, Hr2. done.
Qed.

Lemma falls_asleep s : tidy_inv s -> exists j s' seen, (j <= 17)%nat /\ run step (watch j) s = Some s' /\ files s' = files s /\ watcher s' = Asleep seen.
Proof.
  intros [_ Hw]. unfold watch_ok in Hw. destruct (watcher s) as [o acc|seen|seen got|seen c] eqn:E.
  - destruct Hw as (Hl & _). destruct (stamping_runs (7 - length acc) o acc s) as (s1 & Hr & Hf & _ & Hw1); [lia|done|]. cbn zeta in Hw1. set (full := acc ++ _) in Hw1. destruct o as [old|]; [|exists (S (7 - length acc)), s1, full; split_and!; [lia|done..]].
    case_bool_decide; [exists (S (7 - length acc)), s1, old; split_and!; [lia|done..]|]. destruct (reading_runs 7 full [] s1 eq_refl passed_nil Hw1) as (j & s2 & Hj & Hr2 & Hf2 & _ & Hw2).
    exists (S (7 - length acc) + j)%nat, s2, full. split_and!; [lia| |congruence|done]. rewrite replicate_add, run_app, Hr. done.
  - exists 0%nat, s, seen. split_and!; [lia|done..].
  - destruct Hw as (_ & Hp & _). pose proof Hp as [Hlt _]. destruct (reading_runs (7 - length got) seen got s) as (j & s2 & Hj & Hr2 & Hf2 & _ & Hw2); [lia|done|done|]. exists j, s2, seen. split_and!; [lia|done..].
  - exists 1%nat. do 2 eexists. split; [lia|]. split; [erewrite (watch_run s _ 0); [reflexivity|unfold watch_step; rewrite E; reflexivity]|done].
Qed.

Lemma watch_runs_tidy n s s' : tidy_inv s -> run step (watch n) s = Some s' -> tidy_inv s'.
Proof.
  revert s. induction n as [|n IH]; intros s Hi Hr; cbn [replicate run] in Hr; [by injection Hr as <-|]. destruct (step LWatch s) as [s1|] eqn:E; [|done].
  apply (IH s1); [|done]. by eapply watch_tidy.
Qed.

(** Left alone, the watcher comes to rest with the files as they are. *)
Lemma comes_to_rest s : tidy_inv s -> exists j s', (j <= 35)%nat /\ run step (watch j) s = Some s' /\ files s' = files s /\ watcher s' = Asleep (stamps s') /\
  (rounds s' <> 0%nat -> forall c, load_cert getenv (on_disk s') = Some c -> certs s' = c).
Proof.
  intros Hi. destruct (falls_asleep s Hi) as (j1 & s1 & seen & Hj1 & Hr1 & Hf1 & Hw1). destruct (round s1 seen Hw1) as (j2 & s2 & Hj2 & Hr2 & Hf2 & Hw2 & _).
  assert (run step (watch (j1 + j2)) s = Some s2) as Hr by (rewrite replicate_add, run_app, Hr1; done).
  exists (j1 + j2)%nat, s2. split_and!; [lia|done|congruence|done|]. intros Hro. pose proof (watch_runs_tidy _ _ _ Hi Hr) as [_ Hw]. unfold watch_ok in Hw. rewrite Hw2 in Hw. destruct Hw as [_ Hw]. by apply Hw.
Qed.
End invariants.

Lemma served_complete enabled boot peeked decision p : complete boot -> (forall sni leaf, decision sni = Serve leaf -> OnDemand.good leaf) ->
  conn_pool enabled boot peeked decision = Some p -> complete p.
Proof.
  intros Hb Hd Hp. unfold conn_pool in Hp. destruct enabled; [|by injection Hp as <-]. destruct peeked as [sni|]; [|by injection Hp as <-].
  destruct (decision sni) as [leaf| |] eqn:E; [|done|by injection Hp as <-]. injection Hp as <-. specialize (Hd _ _ E). unfold OnDemand.good, usable in Hd.
  destruct Hb as (Hs & _). unfold complete. cbn. split_and!; [done| |by left]. right. case_bool_decide; [done|]. cbn in Hd. destruct (length (priv_scalar leaf) =? 32)%nat eqn:El; [|done]. by apply Nat.eqb_eq in El.
Qed.

Lemma installs_only getenv l s s' : step getenv l s = Some s' -> certs s' <> certs s ->
  (exists seen, watcher s = Installing seen (certs s')) \/ exists i, callers s !! i = Some (CInstalling (certs s')).
Proof.
  intros Hs Hne. destruct l as [| |i|p d m|p]; cbn [step] in Hs; try (injection Hs as <-; done).
  - unfold watch_step in Hs. destruct (watcher s) as [o acc|seen|seen got|seen c] eqn:E; injection Hs as <-; try done; [by destruct (read_next _ _)|]. left. by exists seen.
  - apply bind_Some in Hs as (c & Hc & Hs). destruct c as [got|c|ok]; cbn in Hs; [|injection Hs as <-; right; by exists i|done]. injection Hs as <-. done.
Qed.

(** C28. The certificate pool. Whatever is written over or removed from its
    files, however reloads interleave with it and with each other: the pool new
    connections are served from is complete, each member of it was the content
    of its file, and it changes only when a reload has validated another; and a
    connection's own pool, with a leaf for its name or without, is complete. And
    while the watcher alone reloads and each write is stamped later than all
    before it: a watcher asleep on stamps that are not those of the files makes
    the pool what the files give within 18 of its steps, if the files stay as they
    are and can be loaded; one asleep on the files' own stamps after a reload has
    the pool they give; and left alone it comes to such a rest within 35. Files
    renewed between the load at boot and the first stamps are not covered: that
    renewal is missed ([renewed_at_boot_is_missed] below). *)
Theorem tls_pool_sound getenv fs t c0 :
  load_cert getenv (fun p => content <$> fs !! p) = Some c0 ->
  (forall s, reach (step getenv) (booted getenv fs t c0) s ->
     complete (certs s) /\ from getenv (held s) (certs s) /\
     (forall l s', step getenv l s = Some s' -> certs s' <> certs s ->
        (exists seen, watcher s = Installing seen (certs s')) \/ exists i, callers s !! i = Some (CInstalling (certs s'))) /\
     (forall enabled peeked decision p, (forall sni leaf, decision sni = Serve leaf -> OnDemand.good leaf) ->
        conn_pool enabled (certs s) peeked decision = Some p -> complete p)) /\
  ((forall p f, fs !! p = Some f -> mtime f <= t) -> forall s, reach (tidy_step getenv) (booted getenv fs t c0) s ->
     (forall seen c, watcher s = Asleep seen -> rounds s <> 0%nat -> seen = stamps getenv s -> load_cert getenv (on_disk s) = Some c -> certs s = c) /\
     (forall seen, watcher s = Asleep seen -> seen <> stamps getenv s -> exists j s', (j <= 18)%nat /\ run (step getenv) (watch j) s = Some s' /\ files s' = files s /\
        forall c, load_cert getenv (on_disk s) = Some c -> certs s' = c) /\
     (exists j s', (j <= 35)%nat /\ run (step getenv) (watch j) s = Some s' /\ files s' = files s /\ watcher s' = Asleep (stamps getenv s'))).
Proof.
  intros Hl. split.
  - intros s Hr. assert (inv getenv s) as Hi by (eapply reach_invariant; [by apply booted_inv'|intros l x y; apply tls_step_inv|done]).
    destruct (i_certs _ _ Hi) as [Hc Hf]. split_and!; [done..|intros l s'; apply installs_only|]. intros enabled peeked decision p Hd. by apply served_complete.
  - intros Hold s Hr. assert (tidy_inv getenv s) as Hi by (eapply reach_invariant; [by apply booted_tidy|intros l x y; apply tidy_step_inv|done]).
    assert (forall x seen, tidy_inv getenv x -> watcher x = Asleep seen -> rounds x <> 0%nat -> in_step getenv x seen) as Hin.
    { intros x seen [_ Hw] E Hro. unfold watch_ok in Hw. rewrite E in Hw. by apply Hw. }
    split_and!.
    + intros seen c Hw Hro Hs Hc. by apply (Hin s seen Hi Hw Hro Hs).
    + intros seen Hw Hne. destruct (round getenv s seen Hw) as (j & s' & Hj & Hrun & Hf & Hw' & Hro). exists j, s'. split_and!; [done..|]. intros c Hc.
      apply (Hin s' _ (watch_runs_tidy _ _ _ _ Hi Hrun) Hw' (Hro Hne) eq_refl). unfold on_disk in *. by rewrite Hf.
    + destruct (comes_to_rest getenv s Hi) as (j & s' & Hj & Hrun & Hf & Hw' & _). exists j, s'. done.
Qed.

(** ** Examples *)
Module DemoPool.
Definition no_env (_ : string) : option bytes := None.
Definition p0 : bytes := bs "conformance/tls/cert.der".
Definition p1 : bytes := bs "conformance/tls/seed.bin".
Definition seed (b : Z) : bytes := replicate 32 b.
Definition disk : gmap bytes File := {[p0 := mkFile [1] 1; p1 := mkFile (seed 1) 1]}.
Definition pool (c s : Z) : TlsCert := mkTlsCert [c] (seed s) [] [] [] [] [] [].
(** Asleep, with the files as they are. *)
Definition rested (s : Pool) : bool := match watcher s with Asleep seen => bool_decide (seen = stamps no_env s) | _ => false end.
Definition renewed : list Label := [LWrite p0 [2] 2; LWrite p1 (seed 2) 3].
End DemoPool.
Import DemoPool.

Lemma tls_pool_sound_witness :
  exists s s' j, run (tidy_step no_env) (watch 8 ++ renewed) (booted no_env disk 1 (pool 1 1)) = Some s /\ (j <= 18)%nat /\
    run (step no_env) (watch j) s = Some s' /\ certs s = pool 1 1 /\ certs s' = pool 2 2.
Proof.
  destruct (run (tidy_step no_env) (watch 8 ++ renewed) (booted no_env disk 1 (pool 1 1))) as [s|] eqn:E; [|by vm_compute in E].
  assert (forall p f, disk !! p = Some f -> mtime f <= 1) as Hd.
  { intros p f H. unfold disk in H. apply lookup_insert_Some in H as [[_ <-]|[_ H]]; [done|]. apply lookup_singleton_Some in H as [_ <-]. done. }
  pose proof (proj2 (tls_pool_sound no_env disk 1 (pool 1 1) ltac:(vm_compute; reflexivity)) Hd s (run_reach _ _ _ _ E)) as (_ & H & _). vm_compute in E. injection E as <-.
  destruct (H _ eq_refl) as (j & s' & Hj & Hr & _ & Hc); [vm_compute; congruence|]. eexists _, s', j. split_and!; [reflexivity|done|exact Hr|reflexivity|]. apply Hc. vm_compute. reflexivity.
Defined.

(** Two reloads: one read the old files before they were renewed and publishes
    them after the other. The watcher has seen the new files, and sleeps. *)
Example late_reload_wins :
  (fun s => (certs s, load_cert no_env (on_disk s), rested s)) <$>
    run (step no_env) (watch 8 ++ LReload :: replicate 8 (LCaller 0) ++ renewed ++ watch 18 ++ [LCaller 0]) (booted no_env disk 1 (pool 1 1)) =
  Some (pool 1 1, Some (pool 2 2), true).
Proof. vm_compute. reflexivity. Qed.

(** Renewed after the first load and before the first look: not noticed. *)
Example renewed_at_boot_is_missed :
  (fun s => (certs s, load_cert no_env (on_disk s), rested s)) <$>
    run (step no_env) (renewed ++ watch 8) (booted no_env disk 1 (pool 1 1)) = Some (pool 1 1, Some (pool 2 2), true).
Proof. vm_compute. reflexivity. Qed.

(** A half-written renewal is served until the next look. *)
Example half_renewed_pool :
  certs <$> run (step no_env) (watch 8 ++ [LWrite p0 [2] 2] ++ watch 18 ++ [LWrite p1 (seed 2) 3]) (booted no_env disk 1 (pool 1 1)) = Some (pool 2 1).
Proof. vm_compute. reflexivity. Qed.
