(* ===== verification/Metrics.v ===== *)
(** * Metrics ([metrics.rs])

    The counters, the operations that add to them, and the exposition. Every
    operation is a sequence of single additions, and those of different threads
    interleave; a counter is 64 bits wide and wraps. The two maps are ordered by
    their keys, as the source's are.

    [counters_exact]: over every interleaving a counter has what was added to
    it. [exposition_scrapes]: what is rendered is read back. *)
From S2P Require Import Prelude Bytes Text.

Local Open Scope Z_scope.

(** ** Counters *)
Inductive Cell :=
  | REQUESTS | R2XX | R3XX | R4XX | R5XX | ROTHER | BYTES_OUT
  | BACKENDS (backend : bytes)
  | REFUSED_CONN_LIMIT | REFUSED_RATE_LIMIT | REQUEST_TIMEOUTS | REFUSED_BODY_LIMIT
  | LATENCY_BUCKETS (i : nat)
  | LATENCY_SUM_US
  | TLS_REQUESTS | TLS_PQ_REQUESTS
  | TLS_CONNS (alpn : bytes).

#[export] Instance Cell_eq_dec : EqDecision Cell.
Proof. solve_decision. Defined.

(** The values, and the keys of the two maps. *)
Record Metrics := mkMetrics { value : Cell -> Z; backend_keys : list bytes; alpn_keys : list bytes }.

Definition metrics_new : Metrics := mkMetrics (fun _ => 0) [] [].

(** The order of strings is that of their bytes. *)
Fixpoint key_lt (a b : bytes) : bool :=
  match a, b with
  | [], [] => false
  | [], _ :: _ => true
  | _ :: _, [] => false
  | x :: a', y :: b' => if x =? y then key_lt a' b' else x <? y
  end.

Fixpoint insert_key (k : bytes) (l : list bytes) : list bytes :=
  match l with
  | [] => [k]
  | x :: l' => if bytes_eqb k x then l else if key_lt k x then k :: l else x :: insert_key k l'
  end.

(** [fetch_add], or [or_insert(0) += n] under the lock of a map. *)
Definition fetch_add (c : Cell) (n : Z) (m : Metrics) : Metrics :=
  mkMetrics (fun x => if decide (x = c) then wrapping_add 64 (value m x) n else value m x)
    (match c with BACKENDS b => insert_key b (backend_keys m) | _ => backend_keys m end)
    (match c with TLS_CONNS a => insert_key a (alpn_keys m) | _ => alpn_keys m end).

(** ** Operations *)
Definition status_class (resp : bytes) : option Z :=
  let head := default resp (List.head (split_on (fun b => b =? CR) resp)) in
  sp ← position (fun b => b =? 32) head;
  let after := drop (S sp) head in
  let code := default after (List.head (split_on (fun b => b =? 32) after)) in
  match code with
  | [a; b; c] => if is_digit a && is_digit b && is_digit c then Some (a - 48) else None
  | _ => None
  end.

Definition class_cell (c : option Z) : Cell :=
  match c with
  | Some 2 => R2XX
  | Some 3 => R3XX
  | Some 4 => R4XX
  | Some 5 => R5XX
  | _ => ROTHER
  end.

Abbreviation Adds := (list (Cell * Z)).

Definition record_streamed (head : bytes) (nbytes : Z) (backend : option bytes) : Adds :=
  [(REQUESTS, 1); (BYTES_OUT, nbytes); (class_cell (status_class head), 1)] ++ match backend with Some b => [(BACKENDS b, 1)] | None => [] end.

Definition record (resp : bytes) (backend : option bytes) : Adds := record_streamed resp (Z.of_nat (length resp)) backend.

Definition note_tls_connection (alpn : bytes) : Adds := [(TLS_CONNS (if bool_decide (alpn = []) then bs "none" else alpn), 1)].
Definition note_tls_request (pq_hybrid : bool) : Adds := (TLS_REQUESTS, 1) :: if pq_hybrid then [(TLS_PQ_REQUESTS, 1)] else [].
Definition note_conn_limit_refused : Adds := [(REFUSED_CONN_LIMIT, 1)].
Definition note_rate_limit_refused : Adds := [(REFUSED_RATE_LIMIT, 1)].
Definition note_request_timeout : Adds := [(REQUEST_TIMEOUTS, 1)].
Definition note_body_limit_refused : Adds := [(REFUSED_BODY_LIMIT, 1)].

Definition LATENCY_BOUNDS_US : list Z := [100; 250; 500; 1000; 2500; 5000; 10000; 25000; 50000; 100000; 500000; 1000000].

(** [take_while(..).count()]. *)
Fixpoint below (us : Z) (bounds : list Z) : nat :=
  match bounds with b :: l => if b <? us then S (below us l) else 0%nat | [] => 0%nat end.

Definition observe_latency (elapsed_us : Z) : Adds :=
  let us := Z.min elapsed_us (max_uint 64) in
  [(LATENCY_BUCKETS (below us LATENCY_BOUNDS_US), 1); (LATENCY_SUM_US, us)].

Definition requests_total (m : Metrics) : Z := value m REQUESTS.
Definition bytes_out_total (m : Metrics) : Z := value m BYTES_OUT.

(** What a thread of the host reports. *)
Inductive Op :=
  | Record_ (resp : bytes) (backend : option bytes)
  | RecordStreamed (head : bytes) (nbytes : Z) (backend : option bytes)
  | TlsConnection (alpn : bytes)
  | TlsRequest (pq : bool)
  | ConnLimit
  | RateLimit
  | Timeout
  | BodyLimit
  | Latency (us : Z).

Definition adds_of (o : Op) : Adds :=
  match o with
  | Record_ r b => record r b
  | RecordStreamed h n b => record_streamed h n b
  | TlsConnection a => note_tls_connection a
  | TlsRequest pq => note_tls_request pq
  | ConnLimit => note_conn_limit_refused
  | RateLimit => note_rate_limit_refused
  | Timeout => note_request_timeout
  | BodyLimit => note_body_limit_refused
  | Latency us => observe_latency us
  end.

(** ** Interleavings: the additions each thread has left, and the operations
    that were begun. *)
Record Sys := mkSys { metrics : Metrics; pending : list Adds; begun : list Op }.

Inductive Label := LBegin (o : Op) | LAdd (i : nat).

Definition step (l : Label) (s : Sys) : option Sys :=
  match l with
  | LBegin o => Some (mkSys (metrics s) (pending s ++ [adds_of o]) (begun s ++ [o]))
  | LAdd i => match pending s !! i with
              | Some ((c, n) :: rest) => Some (mkSys (fetch_add c n (metrics s)) (<[i := rest]> (pending s)) (begun s))
              | _ => None
              end
  end.

(** ** Rendering *)

(** The loads of one rendering need not be of one moment: [value] is what each
    of them gave. The gauges are read from the other components. *)
Record Gauges := mkGauges {
  active : Z; config_generation : Z; applied : Z; rejected : Z; is_draining : bool; pool_stats : option (Z * Z)
}.

Definition QUOTE : Z := 34.
Definition label (name : string) (v : bytes) : bytes := bs "{" ++ bs name ++ bs "=" ++ [QUOTE] ++ v ++ [QUOTE] ++ bs "}".

Inductive Line := Help (name help : string) | Kind (name kind : string) | Sample (series : bytes) (v : Z).

Definition show_line (l : Line) : bytes :=
  match l with
  | Help n h => bs "# HELP " ++ bs n ++ [32] ++ bs h
  | Kind n k => bs "# TYPE " ++ bs n ++ [32] ++ bs k
  | Sample s v => s ++ 32 :: to_dec v
  end.

Definition family (name help kind : string) (samples : list Line) : list Line := [Help name help; Kind name kind] ++ samples.
Definition single (name help kind : string) (v : Z) : list Line := family name help kind [Sample (bs name) v].

(** The running totals of the buckets. *)
Fixpoint cumulate (acc : Z) (l : list Z) : list Z :=
  match l with x :: l' => let acc' := wrapping_add 64 acc x in acc' :: cumulate acc' l' | [] => [] end.

Definition bucket_counts (v : Cell -> Z) : list Z := (fun i => v (LATENCY_BUCKETS i)) <$> seq 0 13.

Definition duration : string := "drorb_request_duration_microseconds".
Definition bucket_labels : list bytes := (to_dec <$> LATENCY_BOUNDS_US) ++ [bs "+Inf"].

Definition histogram (v : Cell -> Z) : list Line :=
  let cs := cumulate 0 (bucket_counts v) in
  zip_with (fun le c => Sample (bs duration ++ bs "_bucket" ++ label "le" le) c) bucket_labels cs ++
  [Sample (bs duration ++ bs "_sum") (v LATENCY_SUM_US); Sample (bs duration ++ bs "_count") (default 0 (last cs))].

Definition render_lines (m : Metrics) (g : Gauges) : list Line :=
  let v := value m in
  single "drorb_requests_total" "Requests served through the host loop." "counter" (v REQUESTS) ++
  single "drorb_tls_requests_total" "Requests served over the HTTPS front door (subset of drorb_requests_total)." "counter" (v TLS_REQUESTS) ++
  single "drorb_tls_pq_requests_total" "HTTPS requests whose connection negotiated the X25519MLKEM768 post-quantum hybrid key exchange." "counter" (v TLS_PQ_REQUESTS) ++
  (if bool_decide (alpn_keys m = []) then [] else
     family "drorb_tls_connections_total" "HTTPS connections by negotiated ALPN protocol. Requests on an h2 connection ARE now itemised (the proven H2 engine reports each via drorb_h2_obs_req)." "counter"
       ((fun a => Sample (bs "drorb_tls_connections_total" ++ label "alpn" a) (v (TLS_CONNS a))) <$> alpn_keys m)) ++
  family "drorb_responses_total" "Responses by status class." "counter"
    ((fun '(k, c) => Sample (bs "drorb_responses_total" ++ label "class" (bs k)) (v c)) <$> [("2xx", R2XX); ("3xx", R3XX); ("4xx", R4XX); ("5xx", R5XX); ("other", ROTHER)]%string) ++
  single "drorb_response_bytes_total" "Total response bytes written." "counter" (v BYTES_OUT) ++
  single "drorb_active_connections" "Connection handlers in flight." "gauge" (active g) ++
  family "drorb_backend_requests_total" "Proxied requests per backend." "counter"
    ((fun b => Sample (bs "drorb_backend_requests_total" ++ label "backend" b) (v (BACKENDS b))) <$> backend_keys m) ++
  family "drorb_requests_refused_total" "Requests refused at the reactor DoS gate, by reason." "counter"
    ((fun '(k, c) => Sample (bs "drorb_requests_refused_total" ++ label "reason" (bs k)) (v c)) <$>
       [("conn_limit", REFUSED_CONN_LIMIT); ("rate_limit", REFUSED_RATE_LIMIT); ("timeout", REQUEST_TIMEOUTS); ("body_limit", REFUSED_BODY_LIMIT)]%string) ++
  family duration "Request handling latency in microseconds." "histogram" (histogram v) ++
  single "drorb_config_generation" "Active operator-config generation." "gauge" (config_generation g) ++
  single "drorb_reloads_applied_total" "SIGHUP reconfigs applied." "counter" (applied g) ++
  single "drorb_reloads_rejected_total" "SIGHUP reconfigs rejected (fail-safe)." "counter" (rejected g) ++
  single "drorb_draining" "1 while a reconfig swap is in progress or an operator drain is active." "gauge" (if is_draining g then 1 else 0) ++
  match pool_stats g with
  | Some (reused, dialed) =>
      single "drorb_upstream_conn_reused_total" "Upstream forwards served on a pooled keep-alive socket (dial skipped)." "counter" reused ++
      single "drorb_upstream_conn_dialed_total" "Upstream forwards that opened a fresh connection (pool miss or stale entry)." "counter" dialed
  | None => []
  end.

Definition render (m : Metrics) (g : Gauges) : bytes := concat ((fun l => show_line l ++ [LF]) <$> render_lines m g).

(** ** What a scraper reads: the value of a series. *)
Definition scrape (series text : bytes) : option Z :=
  List.head (omap (fun line => strip_prefix (series ++ [32]) line ≫= parse_uint 64) (split_on (fun b => b =? LF) text)).

Definition metrics0 : Metrics := foldl (fun m '(c, n) => fetch_add c n m) metrics_new
  (concat (adds_of <$> [Record_ (bs "HTTP/1.1 200 OK" ++ CRLF) None; RecordStreamed (bs "HTTP/1.1 404 Not Found" ++ CRLF) 7 (Some (bs "b:1")); Latency 250; Latency 251; Latency 10000000; TlsConnection []])).

Example scrapes :
  (fun n => scrape (bs n) (render metrics0 (mkGauges 3 1 0 0 true None))) <$>
    ["drorb_requests_total"; "drorb_response_bytes_total"; "drorb_request_duration_microseconds_count"; "drorb_request_duration_microseconds_sum"; "drorb_draining"; "drorb_nothing"]%string =
  [Some 2; Some 24; Some 3; Some 10000501; Some 1; None].
Proof. vm_compute. reflexivity. Qed.

(** ** The counters *)
Fixpoint amount (c : Cell) (l : Adds) : Z :=
  match l with (x, n) :: l' => (if decide (x = c) then n else 0) + amount c l' | [] => 0 end.
Fixpoint sum_amounts (c : Cell) (ls : list Adds) : Z := match ls with l :: ls' => amount c l + sum_amounts c ls' | [] => 0 end.

Lemma sum_amounts_app c l1 l2 : sum_amounts c (l1 ++ l2) = sum_amounts c l1 + sum_amounts c l2.
Proof. induction l1; cbn; lia. Qed.

Lemma sum_amounts_insert c l i x y : l !! i = Some x -> sum_amounts c (<[i := y]> l) = sum_amounts c l - amount c x + amount c y.
Proof. revert i. induction l as [|z l IH]; intros [|i] H; simplify_eq/=; [lia|]. rewrite (IH _ H). lia. Qed.

(** What the operations that were begun add up to. *)
Definition total (c : Cell) (ops : list Op) : Z := sum_amounts c (adds_of <$> ops).

Record counted (s : Sys) : Prop := {
  c_exact : forall c, (value (metrics s) c + sum_amounts c (pending s)) mod 2 ^ 64 = total c (begun s) mod 2 ^ 64;
  c_width : forall c, fits 64 (value (metrics s) c)
}.

Lemma counted_step l s s' : counted s -> step l s = Some s' -> counted s'.
Proof.
  intros [He Hw] Hs. destruct l as [o|i]; cbn [step] in Hs.
  - injection Hs as <-. constructor; [|done]. intros c. cbn [metrics pending begun]. unfold total. rewrite fmap_app, !sum_amounts_app, Z.add_assoc, Z.add_mod, He, <- Z.add_mod by done. done.
  - destruct (pending s !! i) as [[|[x n] rest]|] eqn:E; simplify_eq. constructor; cbn [metrics pending begun].
    + intros c. rewrite (sum_amounts_insert _ _ _ _ _ E). cbn [amount fetch_add value]. rewrite <- He. repeat case_decide; subst; try congruence; [|f_equal; lia].
      unfold wrapping_add, wrap. rewrite Zplus_mod_idemp_l. f_equal. lia.
    + intros c. cbn [fetch_add value]. case_decide; [|done]. unfold wrapping_add, wrap, fits. apply Z.mod_pos_bound. lia.
Qed.

Lemma class_cell_cases c : class_cell c = R2XX \/ class_cell c = R3XX \/ class_cell c = R4XX \/ class_cell c = R5XX \/ class_cell c = ROTHER.
Proof. unfold class_cell. destruct c as [[|[[[]|[]|]|[[]|[]|]|]|]|]; auto 6. Qed.

Lemma ops_balance o : amount REQUESTS (adds_of o) = amount R2XX (adds_of o) + amount R3XX (adds_of o) + amount R4XX (adds_of o) + amount R5XX (adds_of o) + amount ROTHER (adds_of o).
Proof.
  assert (forall h n b, let l := record_streamed h n b in amount REQUESTS l = amount R2XX l + amount R3XX l + amount R4XX l + amount R5XX l + amount ROTHER l) as Hr.
  { intros h n b. unfold record_streamed. destruct (class_cell_cases (status_class h)) as [-> |[-> |[-> |[-> | ->]]]]; destruct b; reflexivity. }
  destruct o; try apply Hr; try reflexivity. by destruct pq.
Qed.

Lemma total_balance ops : total REQUESTS ops = total R2XX ops + total R3XX ops + total R4XX ops + total R5XX ops + total ROTHER ops.
Proof. unfold total. induction ops as [|o ops IH]; [done|]. cbn [fmap list_fmap sum_amounts]. pose proof (ops_balance o). lia. Qed.

Lemma mod_add_cong a a' b m : a mod m = a' mod m -> (a + b mod m) mod m = (a' + b) mod m.
Proof. intros E. by rewrite Zplus_mod_idemp_r, Zplus_mod, E, <- Zplus_mod. Qed.

(** Over every interleaving of the additions of any number of threads: a counter
    and what is still to be added make up what the operations add to it, modulo
    its width; so, with no addition outstanding, it is that number, and the
    requests are those of the classes together. *)
Theorem counters_exact s : reach step (mkSys metrics_new [] []) s ->
  (forall c, fits 64 (value (metrics s) c) /\ (value (metrics s) c + sum_amounts c (pending s)) mod 2 ^ 64 = total c (begun s) mod 2 ^ 64) /\
  (Forall (fun l => l = []) (pending s) ->
     (forall c, value (metrics s) c = wrap 64 (total c (begun s))) /\
     wrap 64 (value (metrics s) R2XX + value (metrics s) R3XX + value (metrics s) R4XX + value (metrics s) R5XX + value (metrics s) ROTHER) = value (metrics s) REQUESTS).
Proof.
  intros Hr. assert (counted s) as [He Hw].
  { eapply reach_invariant; [|apply counted_step|exact Hr]. constructor; [done|]. intros c. cbn. unfold fits. lia. }
  split; [auto|]. intros Hp. assert (forall c, value (metrics s) c = wrap 64 (total c (begun s))) as Hv.
  { intros c. assert (sum_amounts c (pending s) = 0) as E by (clear -Hp; induction Hp as [|l ls -> _ IH]; [done|]; cbn; lia).
    specialize (He c). rewrite E, Z.add_0_r in He. rewrite Z.mod_small in He by apply Hw. exact He. }
  split; [done|]. rewrite !Hv, total_balance. unfold wrap. do 4 apply mod_add_cong. by rewrite Z.mod_mod.
Qed.

(** ** The exposition *)
Definition no_lf (l : bytes) : bool := forallb (fun b => negb (b =? LF)) l.
Definition plain (l : bytes) : bool := forallb (fun b => negb (b =? LF) && negb (b =? 32)) l.

Definition line_ok (l : Line) : Prop :=
  match l with
  | Help n h => no_lf (bs n) && no_lf (bs h) = true
  | Kind n k => no_lf (bs n) && no_lf (bs k) = true
  | Sample s v => plain s = true /\ fits 64 v
  end.

Definition read_line (n : bytes) (l : Line) : option Z := match l with Sample s v => if bytes_eqb s n then Some v else None | _ => None end.

Lemma no_lf_Forall l : no_lf l = true -> Forall (fun b => (b =? LF) = false) l.
Proof. intros H. unfold no_lf in H. rewrite forallb_forall in H. apply Forall_forall. intros b Hb%list_elem_of_In. specialize (H _ Hb). by destruct (b =? LF). Qed.

Lemma plain_no_lf l : plain l = true -> no_lf l = true.
Proof. unfold plain, no_lf. rewrite !forallb_forall. intros H b Hb. specialize (H b Hb). by destruct (b =? LF). Qed.

Lemma dec_no_lf v : no_lf (to_dec v) = true.
Proof. unfold no_lf. apply forallb_forall. intros b Hb%list_elem_of_In. destruct (to_dec_digits v) as [H _]. rewrite Forall_forall in H. specialize (H _ Hb). unfold LF. lia. Qed.

Lemma show_line_no_lf l : line_ok l -> Forall (fun b => (b =? LF) = false) (show_line l).
Proof.
  intros H. apply no_lf_Forall. destruct l as [n h|n k|s v]; cbn [line_ok show_line] in *.
  - apply andb_true_iff in H as [Hn Hh]. unfold no_lf in *. by rewrite !forallb_app, Hn, Hh.
  - apply andb_true_iff in H as [Hn Hh]. unfold no_lf in *. by rewrite !forallb_app, Hn, Hh.
  - destruct H as [Hs _]. apply plain_no_lf in Hs. pose proof (dec_no_lf v) as Hd. unfold no_lf in *. rewrite forallb_app, Hs. cbn [forallb]. by rewrite Hd.
Qed.

Lemma split_lines ls : Forall line_ok ls -> split_on (fun b => b =? LF) (concat ((fun l => show_line l ++ [LF]) <$> ls)) = (show_line <$> ls) ++ [[]].
Proof.
  intros H. induction H as [|l ls Hl _ IH]; [done|]. cbn [fmap list_fmap concat]. rewrite <- app_assoc. change ([LF] ++ ?x) with (LF :: x).
  rewrite split_on_line with (b := LF); [by rewrite IH|by apply show_line_no_lf|done].
Qed.

Lemma strip_series n : forall s d, plain n = true -> plain s = true -> strip_prefix (n ++ [32]) (s ++ 32 :: d) = if bytes_eqb s n then Some d else None.
Proof.
  unfold strip_prefix. induction n as [|x n IH]; intros [|y s] d Hn Hs; cbn [app starts_with bytes_eqb length drop andb].
  - done.
  - cbn in Hs. destruct (32 =? y) eqn:E; [|done]. apply Z.eqb_eq in E. subst y. done.
  - cbn in Hn. destruct (x =? 32) eqn:E; [|done]. apply Z.eqb_eq in E. subst x. done.
  - cbn in Hn, Hs. apply andb_true_iff in Hn as [_ Hn], Hs as [_ Hs]. specialize (IH s d Hn Hs). rewrite (Z.eqb_sym y x). destruct (x =? y); [|done]. cbn [andb]. exact IH.
Qed.

Lemma shown_line_reads n l : plain n = true -> (forall t, n <> 35 :: t) -> line_ok l -> strip_prefix (n ++ [32]) (show_line l) ≫= parse_uint 64 = read_line n l.
Proof.
  intros Hn Hh Hl. assert (forall r, strip_prefix (n ++ [32]) (35 :: r) = None) as Hc.
  { intros r. unfold strip_prefix. destruct n as [|x n]; cbn [app starts_with]; [done|]. destruct (x =? 35) eqn:E; [|done]. apply Z.eqb_eq in E. subst x. by destruct (Hh n). }
  destruct l as [a b|a b|s v]; cbn [show_line read_line]; [by rewrite (Hc _ : strip_prefix _ (bs "# HELP " ++ _) = None)|by rewrite (Hc _ : strip_prefix _ (bs "# TYPE " ++ _) = None)|].
  destruct Hl as [Hs Hv]. rewrite strip_series by done. destruct (bytes_eqb s n); [|done]. cbn [mbind option_bind]. apply parse_to_dec. unfold fits, max_uint in *. lia.
Qed.

(** A series is read from its first sample. *)
Lemma scrape_lines n ls : plain n = true -> (forall t, n <> 35 :: t) -> Forall line_ok ls ->
  scrape n (concat ((fun l => show_line l ++ [LF]) <$> ls)) = List.head (omap (read_line n) ls).
Proof.
  intros Hn Hh Hls. unfold scrape. rewrite split_lines by done. f_equal. rewrite omap_app. replace (omap _ [[]]) with (@nil Z) by (by destruct n). rewrite app_nil_r.
  induction Hls as [|l ls Hl _ IH]; [done|]. cbn [fmap list_fmap omap list_omap]. rewrite (shown_line_reads n l Hn Hh Hl). destruct (read_line n l); by rewrite IH.
Qed.

Lemma read_keys n c l f keys : (forall k, bytes_eqb (c ++ label l k) n = false) -> omap (read_line n) ((fun k => Sample (c ++ label l k) (f k)) <$> keys) = [].
Proof. intros H. induction keys as [|k keys IH]; [done|]. cbn [fmap list_fmap omap list_omap read_line]. by rewrite H, IH. Qed.

Record gauges_ok (g : Gauges) : Prop := {
  g_active : fits 64 (active g); g_gen : fits 64 (config_generation g); g_applied : fits 64 (applied g); g_rejected : fits 64 (rejected g);
  g_pool : forall r d, pool_stats g = Some (r, d) -> fits 64 r /\ fits 64 d
}.
Record metrics_ok (m : Metrics) : Prop := {
  m_width : forall c, fits 64 (value m c);
  m_keys : forall k, k ∈ backend_keys m \/ k ∈ alpn_keys m -> plain k = true
}.

Lemma plain_label c l k : plain c = true -> plain (bs l) = true -> plain k = true -> plain (c ++ label l k) = true.
Proof. unfold plain, label. intros Hc Hl Hk. by rewrite !forallb_app, Hc, Hl, Hk. Qed.

Lemma cumulate_fits acc l : Forall (fits 64) (cumulate acc l).
Proof. revert acc. induction l as [|x l IH]; intros acc; cbn [cumulate]; constructor; [|apply IH]. unfold fits, wrapping_add, wrap. apply Z.mod_pos_bound. lia. Qed.

Lemma family_ok name help kind ls : no_lf (bs name) && no_lf (bs help) = true -> no_lf (bs kind) = true -> Forall line_ok ls -> Forall line_ok (family name help kind ls).
Proof. intros Hh Hk Hls. apply andb_true_iff in Hh as [Hn Hh]. constructor; [cbn; by rewrite Hn, Hh|]. constructor; [cbn; by rewrite Hn, Hk|done]. Qed.

Lemma single_ok name help kind v : no_lf (bs name) && no_lf (bs help) = true -> no_lf (bs kind) = true -> plain (bs name) = true -> fits 64 v -> Forall line_ok (single name help kind v).
Proof. intros Hh Hk Hp Hv. apply family_ok; [done..|]. constructor; [done|apply Forall_nil_2]. Qed.

Lemma keys_ok c l f keys : plain c = true -> plain (bs l) = true -> (forall k, k ∈ keys -> plain k = true) -> (forall k, fits 64 (f k)) -> Forall line_ok ((fun k => Sample (c ++ label l k) (f k)) <$> keys).
Proof. intros Hc Hl Hk Hf. apply Forall_fmap, Forall_forall. intros k Hin. split; [apply plain_label; auto|apply Hf]. Qed.

Lemma histogram_ok v : (forall c, fits 64 (v c)) -> Forall line_ok (histogram v).
Proof.
  intros Hv. unfold histogram. pose proof (cumulate_fits 0 (bucket_counts v)) as Hc. set (cs := cumulate 0 (bucket_counts v)) in *. clearbody cs. apply Forall_app_2.
  - assert (Forall (fun le => plain le = true) bucket_labels) as Hl by (vm_compute; by repeat constructor). revert cs Hc. induction Hl as [|le ls Hle _ IH]; intros cs Hc; [constructor|]. destruct Hc as [|x cs Hx Hc]; [constructor|].
    cbn [zip_with]. constructor; [|by apply IH]. split; [|done]. unfold plain in *. rewrite !forallb_app. unfold label. rewrite !forallb_app, Hle. done.
  - constructor; [split; [done|apply Hv]|]. constructor; [|constructor]. split; [done|]. destruct (last cs) as [x|] eqn:E; [|unfold fits; cbn; lia]. apply last_Some_elem_of in E. rewrite Forall_forall in Hc. by apply Hc.
Qed.

Lemma render_ok m g : metrics_ok m -> gauges_ok g -> Forall line_ok (render_lines m g).
Proof.
  intros [Hw Hk] [G1 G2 G3 G4 G5]. assert (fits 64 (if is_draining g then 1 else 0)) as Hd by (unfold fits; destruct (is_draining g); lia). unfold render_lines.
  rewrite !Forall_app. split_and!; try (apply single_ok; [reflexivity|reflexivity|reflexivity|auto]).
  - case_bool_decide; [constructor|]. apply family_ok; [reflexivity|reflexivity|]. apply keys_ok; auto.
  - apply family_ok; [reflexivity|reflexivity|]. cbn [fmap list_fmap]. by repeat (constructor; [split; [reflexivity|apply Hw]|]).
  - apply family_ok; [reflexivity|reflexivity|]. apply keys_ok; auto.
  - apply family_ok; [reflexivity|reflexivity|]. cbn [fmap list_fmap]. by repeat (constructor; [split; [reflexivity|apply Hw]|]).
  - apply family_ok; [reflexivity|reflexivity|]. by apply histogram_ok.
  - destruct (pool_stats g) as [[r d]|]; [|constructor]. destruct (G5 r d eq_refl). apply Forall_app_2; apply single_ok; (reflexivity || done).
Qed.

Definition series (name l v : string) : bytes := bs name ++ label l (bs v).

(** The series that are always there, and what they stand for. *)
Definition fixed (m : Metrics) (g : Gauges) : list (bytes * Z) :=
  let v := value m in
  [(bs "drorb_requests_total", v REQUESTS); (bs "drorb_tls_requests_total", v TLS_REQUESTS); (bs "drorb_tls_pq_requests_total", v TLS_PQ_REQUESTS);
   (series "drorb_responses_total" "class" "2xx", v R2XX); (series "drorb_responses_total" "class" "3xx", v R3XX); (series "drorb_responses_total" "class" "4xx", v R4XX);
   (series "drorb_responses_total" "class" "5xx", v R5XX); (series "drorb_responses_total" "class" "other", v ROTHER); (bs "drorb_response_bytes_total", v BYTES_OUT);
   (bs "drorb_active_connections", active g); (series "drorb_requests_refused_total" "reason" "conn_limit", v REFUSED_CONN_LIMIT);
   (series "drorb_requests_refused_total" "reason" "rate_limit", v REFUSED_RATE_LIMIT); (series "drorb_requests_refused_total" "reason" "timeout", v REQUEST_TIMEOUTS);
   (series "drorb_requests_refused_total" "reason" "body_limit", v REFUSED_BODY_LIMIT); (bs duration ++ bs "_sum", v LATENCY_SUM_US);
   (bs "drorb_config_generation", config_generation g); (bs "drorb_reloads_applied_total", applied g); (bs "drorb_reloads_rejected_total", rejected g);
   (bs "drorb_draining", if is_draining g then 1 else 0)].

Lemma omap_family n name help kind ls : omap (read_line n) (family name help kind ls) = omap (read_line n) ls.
Proof. done. Qed.

Lemma fixed_read m g n x : (n, x) ∈ fixed m g -> List.head (omap (read_line n) (render_lines m g)) = Some x.
Proof.
  intros Hin. assert (forall ls, (forall k, bytes_eqb (bs "drorb_tls_connections_total" ++ label "alpn" k) n = false) ->
    omap (read_line n) (if bool_decide (alpn_keys m = []) then [] else family "drorb_tls_connections_total" ls "counter" ((fun a => Sample (bs "drorb_tls_connections_total" ++ label "alpn" a) (value m (TLS_CONNS a))) <$> alpn_keys m)) = []) as Ha.
  { intros ls H. case_bool_decide; [done|]. rewrite omap_family. by apply read_keys. }
  unfold render_lines. rewrite !omap_app.
  unfold fixed in Hin. repeat (apply elem_of_cons in Hin as [Hin|Hin]; [injection Hin as -> ->; rewrite Ha by reflexivity; rewrite (omap_family _ "drorb_backend_requests_total"), read_keys by reflexivity; reflexivity|]). by apply elem_of_nil in Hin.
Qed.

Lemma fixed_names m g n x : (n, x) ∈ fixed m g -> plain n = true /\ forall t, n <> 35 :: t.
Proof. intros Hin. unfold fixed in Hin. repeat (apply elem_of_cons in Hin as [Hin|Hin]; [injection Hin as -> _; split; [reflexivity|done]|]). by apply elem_of_nil in Hin. Qed.

(** Every series that is always there is read back from the text as what its
    counter or gauge was. *)
Theorem exposition_scrapes m g n x : metrics_ok m -> gauges_ok g -> (n, x) ∈ fixed m g -> scrape n (render m g) = Some x.
Proof.
  intros Hm Hg Hin. destruct (fixed_names m g n x Hin) as [Hp Hh]. unfold render. rewrite scrape_lines; [by apply fixed_read|done|done|by apply render_ok].
Qed.

(** An observation is counted in the first bucket whose bound it does not pass. *)
Lemma below_spec us bounds : forall i, (i < below us bounds)%nat -> exists b, bounds !! i = Some b /\ b < us.
Proof. induction bounds as [|b l IH]; cbn; intros i Hi; [lia|]. destruct (b <? us) eqn:E; [|lia]. destruct i as [|i]; [exists b; split; [done|lia]|]. apply IH. lia. Qed.

Lemma below_stops us bounds b : bounds !! below us bounds = Some b -> us <= b.
Proof. induction bounds as [|x l IH]; cbn; [done|]. destruct (x <? us) eqn:E; [exact IH|]. intros [= <-]. lia. Qed.

Theorem latency_bucket us : 0 <= us -> exists i, observe_latency us = [(LATENCY_BUCKETS i, 1); (LATENCY_SUM_US, Z.min us (max_uint 64))] /\ (i <= 12)%nat /\
  (forall j, (j < i)%nat -> exists b, LATENCY_BOUNDS_US !! j = Some b /\ b < us) /\ (forall b, LATENCY_BOUNDS_US !! i = Some b -> us <= b).
Proof.
  intros Hu. exists (below (Z.min us (max_uint 64)) LATENCY_BOUNDS_US). split; [done|]. assert (forall l, (below (Z.min us (max_uint 64)) l <= length l)%nat) as Hl by (induction l as [|b l IH]; cbn; [lia|]; destruct (b <? _); lia).
  split_and!; [apply (Hl LATENCY_BOUNDS_US)| |].
  - intros j (b & Hb & Hlt)%below_spec. exists b. split; [done|]. lia.
  - intros b Hb. apply below_stops in Hb as Hle. assert (b <= 1000000) as Hb' by (apply list_elem_of_lookup_2 in Hb; revert Hb; unfold LATENCY_BOUNDS_US; rewrite !elem_of_cons, elem_of_nil; lia).
    change (max_uint 64) with 18446744073709551615 in Hle. lia.
Qed.

(** The totals of the buckets do not decrease, and the last is all of them, while
    they fit. *)
Fixpoint sum (l : list Z) : Z := match l with x :: l' => x + sum l' | [] => 0 end.

Lemma cumulate_exact l : forall acc, 0 <= acc -> Forall (fun x => 0 <= x) l -> acc + sum l < 2 ^ 64 ->
  (forall i x, cumulate acc l !! i = Some x -> x = acc + sum (take (S i) l)) /\ length (cumulate acc l) = length l.
Proof.
  induction l as [|y l IH]; intros acc Ha Hl Hs; [done|]. inversion_clear Hl as [|? ? Hy Hl']. cbn [cumulate sum] in *.
  assert (0 <= sum l) as Hp by (clear -Hl'; induction Hl'; cbn; lia). assert (wrapping_add 64 acc y = acc + y) as -> by (unfold wrapping_add; apply wrap_small; unfold fits; lia).
  destruct (IH (acc + y) ltac:(lia) Hl' ltac:(lia)) as [IH1 IH2]. split; [|cbn; by rewrite IH2]. intros [|i] x Hx; cbn in Hx.
  - injection Hx as <-. cbn [take sum]. rewrite take_0. cbn [sum]. lia.
  - apply IH1 in Hx. subst x. cbn [take sum]. lia.
Qed.

Theorem histogram_exact v : (forall c, 0 <= v c) -> sum (bucket_counts v) < 2 ^ 64 ->
  (forall i x y, cumulate 0 (bucket_counts v) !! i = Some x -> cumulate 0 (bucket_counts v) !! S i = Some y -> x <= y) /\ default 0 (last (cumulate 0 (bucket_counts v))) = sum (bucket_counts v).
Proof.
  intros Hv Hs. assert (Forall (fun x => 0 <= x) (bucket_counts v)) as Hn by (apply Forall_fmap, Forall_forall; intros; apply Hv).
  destruct (cumulate_exact (bucket_counts v) 0 ltac:(lia) Hn Hs) as [He Hl]. split.
  - intros i x y Hx%He Hy%He. subst x y. clear -Hn. generalize dependent (bucket_counts v). intros l Hn. revert i. induction Hn as [|z l Hz Hn' IH]; intros i; [by destruct i|].
    destruct i as [|i]; [|specialize (IH i); cbn [take sum] in *; lia]. destruct l as [|w l]; cbn [take sum]; rewrite ?take_0; cbn [sum]; [lia|]. inversion_clear Hn' as [|? ? Hw _]. lia.
  - rewrite last_lookup, Hl. destruct (cumulate 0 (bucket_counts v) !! pred (length (bucket_counts v))) as [x|] eqn:E; [|apply lookup_ge_None in E; rewrite Hl in E; cbn in E; lia].
    apply He in E. cbn [default]. subst x. rewrite take_ge; [done|]. cbn. lia.
Qed.
