(* ===== verification/Admin.v ===== *)
(** * The operator's listener ([admin.rs])

    One connection at a time: the head is read, the method and the path select
    a route, the route reads or steers the other components ([World]) and the
    answer is written. A route runs here without interruption; the reload of the
    configuration is shown to be a run of its thread in [Reload], where it is
    interleaved with the others, and that of the certificates is interleaved in
    [TlsPool]. The accept loop and the socket options are not modelled.

    C17: every connection is finished; what it may change and what its answer
    says. *)
From S2P Require Import Prelude Bytes Lines Text Io Standing Http Gzip Cache DiskCache Fleet Connect Serve Control Renewal Sni OnDemand TlsPool Metrics Config Reload.

Local Open Scope Z_scope.

(** ** JSON as the source writes it *)
Definition BACKSLASH : Z := 92.

Definition json_char (c : Z) : bytes :=
  if c =? 34 then [BACKSLASH; 34]
  else if c =? BACKSLASH then [BACKSLASH; BACKSLASH]
  else if c =? LF then [BACKSLASH; 110]
  else if c =? CR then [BACKSLASH; 114]
  else if c =? TAB then [BACKSLASH; 116]
  else if c <? 32 then [BACKSLASH; 117; 48; 48] ++ hex_byte c
  else [c].

Definition json_str (s : bytes) : bytes := [34] ++ concat (json_char <$> s) ++ [34].

(** The items, separated. *)
Fixpoint join (l : list bytes) : bytes :=
  match l with [] => [] | [x] => x | x :: l' => x ++ 44 :: join l' end.

Definition array (items : list bytes) : bytes := bs "[" ++ join items ++ bs "]".
Definition json_str_array (items : list bytes) : bytes := array (json_str <$> items).

(** A format string of the source: the literal names, each with its value. *)
Definition fields (l : list (string * bytes)) : bytes :=
  bs "{" ++ join ((fun '(k, v) => [34] ++ bs k ++ [34; COLON] ++ v) <$> l) ++ bs "}".

Definition literal (s : string) : bytes := [34] ++ bs s ++ [34].
Definition show_bool (b : bool) : bytes := if b then bs "true" else bs "false".

(** ** Responses *)
Definition reason_phrase (status : Z) : string :=
  if status =? 200 then "OK"
  else if status =? 404 then "Not Found"
  else if status =? 405 then "Method Not Allowed"
  else if status =? 503 then "Service Unavailable"
  else "OK".

Definition http_response (status : Z) (content_type : string) (body : bytes) : bytes :=
  bs "HTTP/1.1 " ++ to_dec status ++ [32] ++ bs (reason_phrase status) ++ CRLF ++ bs "Content-Type: " ++ bs content_type ++ CRLF ++
  bs "Content-Length: " ++ to_dec (Z.of_nat (length body)) ++ CRLF ++ bs "Connection: close" ++ CRLFCRLF ++ body.

Definition json_response (status : Z) (body : bytes) : bytes := http_response status "application/json; charset=utf-8" body.

Definition METRICS_TEXT : string := "text/plain; version=0.0.4; charset=utf-8".

(** ** What the listener reads and steers *)
Record World := mkWorld {
  proc : Process;
  mets : Metrics;
  table : SharedStanding;
  rcache : ResponseCache;
  fleet : option Fleet;
  pstats : option (Z * Z);
  tls_files : bytes -> option bytes;
  pool : TlsCert
}.

Definition set_proc (p : Process) (w : World) : World := mkWorld p (mets w) (table w) (rcache w) (fleet w) (pstats w) (tls_files w) (pool w).
Definition set_rcache (c : ResponseCache) (w : World) : World := mkWorld (proc w) (mets w) (table w) c (fleet w) (pstats w) (tls_files w) (pool w).
Definition set_pool (c : TlsCert) (w : World) : World := mkWorld (proc w) (mets w) (table w) (rcache w) (fleet w) (pstats w) (tls_files w) c.

Definition serving (p : Process) : bool := negb (SHUTDOWN p) && negb (drain_begun p).

Definition gauges (w : World) : Gauges :=
  mkGauges (total_active (table w)) (generation (cfg (proc w))) (reloads_applied (proc w)) (reloads_rejected (proc w)) (draining (proc w)) (pstats w).

Definition is_known_path (path : bytes) : bool :=
  existsb (fun p => bytes_eqb path (bs p))
    ["/metrics"; "/healthz"; "/admin/config"; "/admin/backends"; "/admin/connections"; "/admin/cache/purge"; "/admin/drain"; "/admin/reload"; "/admin/tls/reload"]%string.

Definition connections_json (w : World) : bytes :=
  fields [("active_connections", to_dec (total_active (table w))); ("requests_total", to_dec (requests_total (mets w)));
          ("bytes_out_total", to_dec (bytes_out_total (mets w))); ("draining", show_bool (draining (proc w)))]%string ++ [LF].

Definition cache_purge_json (w : World) : bytes * World :=
  let '(c, purged) := purge_all (rcache w) in
  (fields [("status", literal "purged"); ("entries_purged", to_dec (Z.of_nat purged)); ("note", literal "next request for each key misses")]%string ++ [LF], set_rcache c w).

Definition config_json (c : Config) : bytes :=
  match Config.get c with
  | Some dep =>
      fields [("active", bs "true"); ("generation", to_dec (generation c)); ("lb_policy", to_dec (lb_policy dep)); ("routes", to_dec (route_count dep));
              ("vhosts", json_str_array (vproxy_hosts dep))]%string ++ [LF]
  | None =>
      fields [("active", bs "false"); ("generation", to_dec (generation c)); ("lb_policy", bs "null"); ("routes", bs "0"); ("vhosts", bs "[]")]%string ++ [LF]
  end.

Definition backend_json (b : BackendHealth) : bytes :=
  fields [("id", to_dec (bh_id b)); ("address", json_str (bh_addr b)); ("up", show_bool (bh_up b)); ("inflight", to_dec (bh_inflight b));
          ("breaker_open", show_bool (bh_open b)); ("breaker_failures", to_dec (bh_failures b))]%string.

Section admin.
Context (getenv : string -> option bytes) (call_deployment : bytes -> option bytes) (var checks : bool) (os_error : bytes).

(** [None]: the shift of a backend's id panics. *)
Definition backends_json (w : World) : option bytes :=
  match fleet w with
  | Some f =>
      l ← Fleet.snapshot checks f;
      Some (fields [("configured", bs "true"); ("backends", array (backend_json <$> l))]%string ++ [LF])
  | None => Some (fields [("configured", bs "false"); ("backends", bs "[]")]%string ++ [LF])
  end.

(** [tls::reload]. *)
Definition tls_reload (w : World) : result bytes bytes * World :=
  match load_cert getenv (tls_files w) with
  | Some fresh => (Ok (pool_tag fresh), set_pool fresh w)
  | None => (Err (bs "certificate material did not load; keeping the previous pool"), w)
  end.

Definition tls_reload_json (w : World) : (Z * bytes) * World :=
  let '(r, w') := tls_reload w in
  (200, match r with
        | Ok tag => fields [("status", literal "reloaded"); ("pool", json_str tag)]%string ++ [LF]
        | Err reason => fields [("status", literal "kept_old"); ("reason", json_str reason)]%string ++ [LF]
        end, w').

(** The texts of [parse_from_path]; [os_error] is that of a failed read. *)
Definition reason_text (r : Reason) : bytes :=
  match r with
  | CannotRead => bs "cannot read (" ++ os_error ++ bs ")"
  | ServeThreadGone => bs "serve thread gone"
  | DidNotParse => bs "did not parse (proven parser returned none)"
  | NoLbPolicy => bs "parser returned no lb policy"
  end.

(** [reload_now]: the file is read twice. *)
Definition reload_now (p : Process) : ReloadOutcome * Process :=
  let p1 := set_draining true p in
  let file := file_at p1 (now p1) in
  let '(o, c) := Config.reload (call_now call_deployment p1) var file file (cfg p1) in
  (o, set_draining false (tally o (set_cfg c p1))).

Definition reload_json (w : World) : (Z * bytes) * World :=
  let '(o, p) := reload_now (proc w) in
  let g := to_dec (generation (cfg p)) in
  (200, match o with
        | Applied n => fields [("status", literal "applied"); ("generation", to_dec n)]%string ++ [LF]
        | KeptOld reason => fields [("status", literal "rejected"); ("reason", json_str (reason_text reason)); ("generation", g)]%string ++ [LF]
        | NoConfig => fields [("status", literal "no_config"); ("generation", g)]%string ++ [LF]
        end, set_proc p w).

(** ** One connection *)

(** The method and the path, without a query. *)
Definition request_line (buf : bytes) : bytes * bytes :=
  let head := default buf (List.head (split_on (fun b => b =? CR) buf)) in
  let parts := split_on (fun b => b =? 32) head in
  let path := default [] (parts !! 1%nat) in
  (default [] (parts !! 0%nat), default path (List.head (split_on (fun b => b =? 63) path))).

Definition route (method path : bytes) (w : World) : option (bytes * World) :=
  let asks m p := bytes_eqb method (bs m) && bytes_eqb path (bs p) in
  if asks "GET" "/metrics" then Some (http_response 200 METRICS_TEXT (render (mets w) (gauges w)), w)
  else if asks "GET" "/healthz" then
    Some (if serving (proc w) then http_response 200 plain_text (bs "ok" ++ [LF]) else http_response 503 plain_text (bs "draining" ++ [LF]), w)
  else if asks "GET" "/admin/config" then Some (json_response 200 (config_json (cfg (proc w))), w)
  else if asks "GET" "/admin/backends" then b ← backends_json w; Some (json_response 200 b, w)
  else if asks "GET" "/admin/connections" then Some (json_response 200 (connections_json w), w)
  else if asks "POST" "/admin/cache/purge" then let '(b, w') := cache_purge_json w in Some (json_response 200 b, w')
  else if asks "POST" "/admin/drain" then
    let '(started, p) := begin_drain (proc w) in
    Some (json_response 200 (fields [("status", literal "draining"); ("started_by_this_call", show_bool started); ("healthz", bs "503")]%string ++ [LF]), set_proc p w)
  else if asks "POST" "/admin/reload" then let '((st, b), w') := reload_json w in Some (json_response st b, w')
  else if asks "POST" "/admin/tls/reload" then let '((st, b), w') := tls_reload_json w in Some (json_response st b, w')
  else if is_known_path path then Some (http_response 405 plain_text (bs "method not allowed" ++ [LF]), w)
  else Some (http_response 404 plain_text (bs "not found" ++ [LF]), w).

Definition handle_admin (s : Socket) (w : World) : option (result () io_error * Socket * World) :=
  '(r, rx) ← read_head (s_rx s);
  match r with
  | Err e => Some (Err e, mkSocket rx (s_tx s), w)
  | Ok buf =>
      let '(method, path) := request_line buf in
      '(resp, w') ← route method path w;
      let '(res, tx) := write_all resp (s_tx s) in
      Some (res, mkSocket rx tx, w')
  end.
End admin.

(** ** JSON as it is read: compact texts, unsigned numbers of 64 bits *)
#[warnings="-register-all"]
Inductive Json :=
  | JNull
  | JBool (b : bool)
  | JNum (n : Z)
  | JStr (s : bytes)
  | JArr (l : list Json)
  | JObj (l : list (bytes * Json)).

Definition hex_digit (b : Z) : option Z :=
  if between 48 57 b then Some (b - 48) else if between 97 102 b then Some (b - 87) else if between 65 70 b then Some (b - 55) else None.

Definition escaped (c : Z) : option Z :=
  if (c =? 34) || (c =? BACKSLASH) || (c =? 47) then Some c
  else if c =? 110 then Some LF else if c =? 114 then Some CR else if c =? 116 then Some TAB else if c =? 98 then Some 8 else if c =? 102 then Some 12 else None.

(** A string after its opening quote; of the numeric escapes, those of one byte. *)
Fixpoint read_str (l : bytes) : option (bytes * bytes) :=
  match l with
  | [] => None
  | c :: r =>
      if c =? 34 then Some ([], r)
      else if c =? BACKSLASH then
        match r with
        | 117 :: a :: b :: x :: y :: r' =>
            a ← hex_digit a; b ← hex_digit b; x ← hex_digit x; y ← hex_digit y;
            let v := ((a * 16 + b) * 16 + x) * 16 + y in
            if v <? 128 then '(s, rest) ← read_str r'; Some (v :: s, rest) else None
        | e :: r' => e ← escaped e; '(s, rest) ← read_str r'; Some (e :: s, rest)
        | [] => None
        end
      else if c <? 32 then None
      else '(s, rest) ← read_str r; Some (c :: s, rest)
  end.

Fixpoint span_digits (l : bytes) : bytes * bytes :=
  match l with
  | c :: r => if is_digit c then let '(d, rest) := span_digits r in (c :: d, rest) else ([], l)
  | [] => ([], [])
  end.

Definition read_word (w : string) (v : Json) (l : bytes) : option (Json * bytes) := (fun r => (v, r)) <$> strip_prefix (bs w) l.

Definition read_num (l : bytes) : option (Json * bytes) := let '(d, r) := span_digits l in n ← parse_uint 64 d; Some (JNum n, r).

Fixpoint read_json (fuel : nat) (l : bytes) : option (Json * bytes) :=
  match fuel, l with
  | S f, c :: r =>
      if c =? 123 then
        match strip_prefix (bs "}") r with Some r' => Some (JObj [], r') | None => '(m, r') ← read_members f r; Some (JObj m, r') end
      else if c =? 91 then
        match strip_prefix (bs "]") r with Some r' => Some (JArr [], r') | None => '(m, r') ← read_items f r; Some (JArr m, r') end
      else if c =? 34 then '(s, r') ← read_str r; Some (JStr s, r')
      else if c =? 110 then read_word "null" JNull l
      else if c =? 116 then read_word "true" (JBool true) l
      else if c =? 102 then read_word "false" (JBool false) l
      else read_num l
  | _, _ => None
  end
with read_items (fuel : nat) (l : bytes) : option (list Json * bytes) :=
  match fuel with
  | O => None
  | S f =>
      '(v, r) ← read_json f l;
      match r with
      | c :: r' => if c =? 44 then '(m, r'') ← read_items f r'; Some (v :: m, r'') else if c =? 93 then Some ([v], r') else None
      | [] => None
      end
  end
with read_members (fuel : nat) (l : bytes) : option (list (bytes * Json) * bytes) :=
  match fuel with
  | O => None
  | S f =>
      l' ← strip_prefix [34] l;
      '(k, r) ← read_str l';
      r' ← strip_prefix [COLON] r;
      '(v, r'') ← read_json f r';
      match r'' with
      | c :: r3 => if c =? 44 then '(m, r4) ← read_members f r3; Some ((k, v) :: m, r4) else if c =? 125 then Some ([(k, v)], r3) else None
      | [] => None
      end
  end.

(** A text of one value and a line feed. *)
Definition json_of (text : bytes) : option Json :=
  match read_json (length text) text with Some (v, r) => if bytes_eqb r [LF] then Some v else None | None => None end.

(** ** As it is written *)
Fixpoint show (v : Json) : bytes :=
  match v with
  | JNull => bs "null"
  | JBool b => show_bool b
  | JNum n => to_dec n
  | JStr s => json_str s
  | JArr l => array (List.map show l)
  | JObj l => bs "{" ++ join (List.map (fun '(k, v) => json_str k ++ COLON :: show v) l) ++ bs "}"
  end.

Fixpoint size (v : Json) : nat :=
  match v with
  | JArr l => S (foldr (fun v n => S (size v + n)) 0 l)
  | JObj l => S (foldr (fun '(_, v) n => S (size v + n)) 0 l)
  | _ => 1
  end%nat.

Fixpoint json_ok (v : Json) : Prop :=
  match v with
  | JNum n => fits 64 n
  | JStr s => Forall byte_ok s
  | JArr l => foldr (fun v P => json_ok v /\ P) True l
  | JObj l => foldr (fun '(k, v) P => Forall byte_ok k /\ json_ok v /\ P) True l
  | _ => True
  end.

Lemma hex_byte_read c : 0 <= c < 32 -> exists x y a b, hex_byte c = [x; y] /\ hex_digit x = Some a /\ hex_digit y = Some b /\ a * 16 + b = c.
Proof.
  intros Hc. pose (good := fun c => match hex_byte c with [x; y] => match hex_digit x, hex_digit y with Some a, Some b => a * 16 + b =? c | _, _ => false end | _ => false end).
  assert (forallb good (seqZ 0 32) = true) as H by (vm_compute; reflexivity). rewrite forallb_forall in H.
  specialize (H c). rewrite <- list_elem_of_In, elem_of_seqZ in H. specialize (H ltac:(lia)). unfold good in H.
  repeat case_match; simplify_eq. apply Z.eqb_eq in H. eauto 10.
Qed.

Lemma json_char_read c r : byte_ok c -> read_str (json_char c ++ r) = '(s, rest) ← read_str r; Some (c :: s, rest).
Proof.
  intros Hc. unfold json_char. repeat (case_match; [match goal with H : (_ =? _) = true |- _ => apply Z.eqb_eq in H; subst; reflexivity end|]).
  unfold byte_ok in Hc. case_match.
  - destruct (hex_byte_read c) as (x & y & a & b & -> & Hx & Hy & Hv); [lia|]. cbn [app read_str]. change (BACKSLASH =? 34) with false. change (BACKSLASH =? BACKSLASH) with true. cbv iota.
    rewrite Hx, Hy. cbn [mbind option_bind]. change (hex_digit 48) with (Some 0). cbn [mbind option_bind]. cbv zeta. replace (((0 * 16 + 0) * 16 + a) * 16 + b) with c by lia.
    by rewrite (proj2 (Z.ltb_lt c 128)) by lia.
  - cbn [app read_str]. by rewrite H, H0, H4.
Qed.

Lemma json_str_read s r : Forall byte_ok s -> exists l, json_str s ++ r = 34 :: l /\ read_str l = Some (s, r).
Proof.
  intros Hs. unfold json_str. rewrite <- !app_assoc. eexists. split; [reflexivity|]. induction Hs as [|c s Hc Hs IH]; [done|].
  cbn [fmap list_fmap concat]. rewrite <- app_assoc, json_char_read by done. by rewrite IH.
Qed.

(** A number ends before what follows it. *)
Definition no_digit (r : bytes) : Prop := match r with c :: _ => is_digit c = false | [] => True end.

Lemma span_digits_spec d r : Forall (fun b => 48 <= b <= 57) d -> no_digit r -> span_digits (d ++ r) = (d, r).
Proof.
  intros Hd Hr. induction Hd as [|c d Hc Hd IH]; cbn [app span_digits].
  - destruct r as [|c r]; [done|]. cbn in *. by rewrite Hr.
  - unfold is_digit. rewrite (proj2 (Z.leb_le 48 c)), (proj2 (Z.leb_le c 57)) by lia. cbn [andb]. by rewrite IH.
Qed.

Lemma read_num_spec n r f : fits 64 n -> no_digit r -> read_json (S f) (to_dec n ++ r) = Some (JNum n, r).
Proof.
  intros Hn Hr. destruct (to_dec_digits n) as [Hd Hne]. assert (read_num (to_dec n ++ r) = Some (JNum n, r)) as E.
  { unfold read_num. rewrite span_digits_spec by done. rewrite parse_to_dec by (unfold fits, max_uint in *; lia). done. }
  destruct (to_dec n) as [|c d]; [done|]. apply Forall_cons in Hd as [Hc _]. cbn [app read_json] in *.
  assert (c = 48 \/ c = 49 \/ c = 50 \/ c = 51 \/ c = 52 \/ c = 53 \/ c = 54 \/ c = 55 \/ c = 56 \/ c = 57) as Hcs by lia.
  destruct_or! Hcs; subst c; exact E.
Qed.

Definition items_size (l : list Json) : nat := foldr (fun v n => S (size v + n)) 0%nat l.
Definition members_size (l : list (bytes * Json)) : nat := foldr (fun '(_, v) n => S (size v + n)) 0%nat l.
Definition items_ok (l : list Json) : Prop := foldr (fun v P => json_ok v /\ P) True l.
Definition members_ok (l : list (bytes * Json)) : Prop := foldr (fun '(k, v) P => Forall byte_ok k /\ json_ok v /\ P) True l.
Definition show_member (p : bytes * Json) : bytes := let '(k, v) := p in json_str k ++ COLON :: show v.

(** No value begins as an array ends. *)
Lemma show_head v : exists c t, show v = c :: t /\ c <> 93.
Proof.
  destruct v as [|[]|n|s|l|l]; try (eexists _, _; split; [reflexivity|discriminate]).
  destruct (to_dec_digits n) as [Hd Hne]. cbn [show]. destruct (to_dec n) as [|c d]; [done|]. apply Forall_cons in Hd as [Hc _]. eexists _, _. split; [done|]. lia.
Qed.

Lemma strip_first x c r : strip_prefix [x] (c :: r) = if bool_decide (x = c) then Some r else None.
Proof. unfold strip_prefix. cbn. case_bool_decide; destruct (x =? c) eqn:E; rewrite ?Z.eqb_eq, ?Z.eqb_neq in E; done. Qed.

Lemma join_cons x l r : join (x :: l) ++ r = x ++ match l with [] => r | _ => 44 :: join l ++ r end.
Proof. destruct l as [|y l]; [done|]. cbn [join]. by rewrite <- app_assoc. Qed.

Lemma read_show_items f l r :
  (forall v r, (size v <= f)%nat -> json_ok v -> no_digit r -> read_json f (show v ++ r) = Some (v, r)) ->
  (forall l r, l <> [] -> (items_size l <= f)%nat -> items_ok l -> read_items f (join (List.map show l) ++ 93 :: r) = Some (l, r)) ->
  l <> [] -> (items_size l <= S f)%nat -> items_ok l -> read_items (S f) (join (List.map show l) ++ 93 :: r) = Some (l, r).
Proof.
  intros Hv Hi Hne Hs Hok. destruct l as [|v l]; [done|]. cbn in Hs, Hok. destruct Hok as [Hok1 Hok2].
  cbn [List.map]. rewrite join_cons. cbn [read_items]. destruct l as [|v' l].
  - cbn [List.map]. rewrite Hv by (done || lia). done.
  - rewrite Hv by (done || (cbn; lia)). cbn [mbind option_bind List.map]. change (44 =? 44) with true. cbv iota.
    change (show v' :: List.map show l) with (List.map show (v' :: l)). rewrite Hi; [done|done| |done]. unfold items_size. lia.
Qed.

Lemma read_show_members f l r :
  (forall v r, (size v <= f)%nat -> json_ok v -> no_digit r -> read_json f (show v ++ r) = Some (v, r)) ->
  (forall l r, l <> [] -> (members_size l <= f)%nat -> members_ok l -> read_members f (join (List.map show_member l) ++ 125 :: r) = Some (l, r)) ->
  l <> [] -> (members_size l <= S f)%nat -> members_ok l -> read_members (S f) (join (List.map show_member l) ++ 125 :: r) = Some (l, r).
Proof.
  intros Hv Hi Hne Hs Hok. destruct l as [|[k v] l]; [done|]. cbn in Hs, Hok. destruct Hok as (Hk & Hok1 & Hok2).
  cbn [List.map show_member]. rewrite join_cons, <- app_assoc. destruct (json_str_read k ((COLON :: show v) ++ match List.map show_member l with [] => 125 :: r | _ => 44 :: join (List.map show_member l) ++ 125 :: r end) Hk) as (t & -> & Et).
  cbn [read_members]. rewrite strip_first, bool_decide_true by done. cbn [mbind option_bind]. rewrite Et. cbn [mbind option_bind app]. rewrite strip_first, bool_decide_true by done. cbn [mbind option_bind].
  destruct l as [|[k' v'] l].
  - cbn [List.map]. rewrite Hv by (done || lia). done.
  - rewrite Hv by (done || (cbn; lia)). cbn [mbind option_bind List.map]. change (44 =? 44) with true. cbv iota.
    change (show_member (k', v') :: List.map show_member l) with (List.map show_member ((k', v') :: l)). rewrite Hi; [done|done| |done]. unfold members_size. lia.
Qed.

Lemma show_reads_back f :
  (forall v r, (size v <= f)%nat -> json_ok v -> no_digit r -> read_json f (show v ++ r) = Some (v, r)) /\
  (forall l r, l <> [] -> (items_size l <= f)%nat -> items_ok l -> read_items f (join (List.map show l) ++ 93 :: r) = Some (l, r)) /\
  (forall l r, l <> [] -> (members_size l <= f)%nat -> members_ok l -> read_members f (join (List.map show_member l) ++ 125 :: r) = Some (l, r)).
Proof.
  induction f as [|f (IHv & IHi & IHm)].
  { split_and!; [intros []; cbn; lia|intros [|v l]; cbn; [done|lia]|intros [|[k v] l]; cbn; [done|lia]]. }
  split_and!; [|intros; by apply read_show_items|intros; by apply read_show_members].
  intros v r Hs Hok Hr. destruct v as [|[]|n|s|l|l]; try reflexivity.
  - by apply read_num_spec.
  - cbn [show]. destruct (json_str_read s r Hok) as (t & -> & Et). cbn [read_json]. change (34 =? 123) with false. change (34 =? 91) with false. change (34 =? 34) with true. cbv iota. by rewrite Et.
  - destruct l as [|v l]; [done|]. cbn [show]. unfold array. rewrite <- !app_assoc. change (bs "]" ++ r) with (93 :: r). change (bs "[") with [91]. cbn [app read_json].
    change (91 =? 123) with false. change (91 =? 91) with true. cbv iota.
    assert (strip_prefix (bs "]") (join (List.map show (v :: l)) ++ 93 :: r) = None) as ->.
    { cbn [List.map]. rewrite join_cons. destruct (show_head v) as (c & t & -> & Hc). cbn [app]. change (bs "]") with [93]. rewrite strip_first. by rewrite bool_decide_false by congruence. }
    rewrite IHi; [done|done| |done]. cbn [size] in Hs. unfold items_size. lia.
  - destruct l as [|[k v] l]; [done|]. cbn [show]. rewrite <- !app_assoc. change (bs "}" ++ r) with (125 :: r). change (bs "{") with [123]. cbn [app read_json].
    change (123 =? 123) with true. cbv iota. fold show_member.
    assert (strip_prefix (bs "}") (join (List.map show_member ((k, v) :: l)) ++ 125 :: r) = None) as Es by (cbn [List.map]; rewrite join_cons; reflexivity).
    change (List.map (fun '(k, v) => json_str k ++ COLON :: show v) ((k, v) :: l)) with (List.map show_member ((k, v) :: l)). rewrite Es.
    rewrite IHm; [done|done| |done]. cbn [size] in Hs. unfold members_size. lia.
Qed.

Lemma join_length l : (length (concat l) + length l <= length (join l) + 1)%nat.
Proof. induction l as [|x [|y l] IH]; cbn [join concat length] in *; rewrite ?length_app in *; cbn [length] in *; lia. Qed.

Lemma size_bound : forall v, (size v <= length (show v))%nat.
Proof.
  fix IH 1. intros [|[]|n|s|l|l]; cbn [show size]; try (cbn; lia).
  - destruct (to_dec_digits n) as [_ Hne]. destruct (to_dec n); [done|cbn; lia].
  - unfold array. rewrite !length_app. pose proof (join_length (List.map show l)) as Hj.
    assert (foldr (fun v n => S (size v + n)) 0 l <= length (concat (List.map show l)) + length (List.map show l))%nat.
    { clear Hj. induction l as [|v l IHl]; [done|]. cbn [List.map concat foldr length]. rewrite length_app. specialize (IH v). lia. }
    cbn. lia.
  - rewrite !length_app. fold show_member. pose proof (join_length (List.map show_member l)) as Hj.
    assert (foldr (fun '(_, v) n => S (size v + n)) 0 l <= length (concat (List.map show_member l)) + length (List.map show_member l))%nat.
    { clear Hj. induction l as [|[k v] l IHl]; [done|]. cbn [List.map concat foldr length show_member]. rewrite !length_app. cbn [length]. specialize (IH v). lia. }
    change (bs "{") with [123]. change (List.map (fun '(k, v) => json_str k ++ COLON :: show v) l) with (List.map show_member l). cbn. lia.
Qed.

Lemma json_roundtrip v : json_ok v -> json_of (show v ++ [LF]) = Some v.
Proof.
  intros Hv. unfold json_of. destruct (show_reads_back (length (show v ++ [LF]))) as [H _]. rewrite H; [done| |done|done].
  rewrite length_app. pose proof (size_bound v). lia.
Qed.

(** ** A reload is a run of its thread *)
Section solo.
Context (call : bytes -> option bytes) (var : bool) (i : nat).

Local Abbreviation t := (Admin i).
Local Abbreviation rstep := (Reload.step call var).

Lemma solo_step q s : is_Some (pc s t) ->
  reload_step call var t (set_pc t q s) =
    match q with
    | Begin => Some (set_pc t (if var then ReadRaw else Tally NoConfig) (set_draining true s))
    | ReadRaw => Some (set_pc t (match file_at s (now s) with Some text => Storing (raw_stores text) | None => ReadParse end) s)
    | Storing (st :: l) => Some (set_pc t (match l with [] => ReadParse | _ => Storing l end) (set_cfg (Config.store st (cfg s)) s))
    | ReadParse => Some (set_pc t (Parsing (now s)) s)
    | Parsing v => Some (set_pc t (match parse_from_path (call_now call s) (file_at s v) with Ok d => Swapping d | Err r => Tally (KeptOld r) end) s)
    | Swapping d => Some (set_pc t Counting (set_cfg (set_cell d (cfg s)) s))
    | Counting => let g := wrapping_add 64 (GENERATION (cfg s)) 1 in Some (set_pc t (Tally (Applied g)) (set_cfg (set_generation g (cfg s)) s))
    | Tally o => Some (set_pc t (Clearing o) (tally o s))
    | Clearing _ => Some (set_pc t Idle (set_draining false s))
    | _ => None
    end.
Proof.
  destruct s as [c f rp dr db ra rr sd up w ad sn]. intros [q0 Hq]. unfold reload_step. cbn [pc set_pc admins] in *.
  rewrite list_lookup_insert_eq by by eapply lookup_lt_Some. destruct q as [| | | | |[|st l]| |v|d| |o|o]; try done; cbn; rewrite ?list_insert_insert_eq; try done.
  destruct o; cbn; by rewrite ?list_insert_insert_eq.
Qed.

Lemma solo_reach q s q' s' : reload_step call var t (set_pc t q s) = Some (set_pc t q' s') -> reach rstep (set_pc t q s) (set_pc t q' s').
Proof. intros H. apply (reach_step _ _ (LStep t) (set_pc t q s)); [constructor|]. destruct s. exact H. Qed.
Lemma solo_next q s q' s' s'' : reload_step call var t (set_pc t q s) = Some (set_pc t q' s') -> reach rstep (set_pc t q' s') s'' -> reach rstep (set_pc t q s) s''.
Proof. intros H. apply reach_trans, solo_reach, H. Qed.

Lemma storing_reach l : forall s, is_Some (pc s t) -> l <> [] ->
  reach rstep (set_pc t (Storing l) s) (set_pc t ReadParse (set_cfg (foldl (fun c st => Config.store st c) (cfg s) l) s)).
Proof.
  induction l as [|st l IH]; intros s Hs Hne; [done|]. eapply solo_next; [by rewrite solo_step|]. destruct l as [|st' l]; [constructor|].
  specialize (IH (set_cfg (Config.store st (cfg s)) s)). destruct s. by apply IH.
Qed.

Lemma parsing_reach s : is_Some (pc s t) ->
  reach rstep (set_pc t ReadParse s)
    (match parse_from_path (call_now call s) (file_at s (now s)) with
     | Ok d => let c := set_cell d (cfg s) in let g := wrapping_add 64 (GENERATION c) 1 in set_pc t (Tally (Applied g)) (set_cfg (set_generation g c) s)
     | Err r => set_pc t (Tally (KeptOld r)) s
     end).
Proof.
  intros Hs. eapply solo_next; [by rewrite solo_step|]. eapply solo_next; [by rewrite solo_step|].
  destruct (parse_from_path (call_now call s) (file_at s (now s))) as [d|r]; [|constructor].
  eapply solo_next; [by rewrite solo_step|]. set (s1 := set_cfg (set_cell d (cfg s)) s). assert (is_Some (pc s1 t)) as Hs1 by (by destruct s).
  eapply solo_next; [by rewrite solo_step|]. subst s1. destruct s. constructor.
Qed.

Lemma tally_reach o s : pc s t = Some Idle -> reach rstep (set_pc t (Tally o) s) (set_draining false (tally o s)).
Proof.
  intros Hs. assert (is_Some (pc s t)) as Hs' by done. eapply solo_next; [by rewrite solo_step|]. assert (is_Some (pc (tally o s) t)) as Ht by (by destruct s, o).
  eapply solo_next; [by rewrite solo_step|]. assert (forall x, pc x t = Some Idle -> set_pc t Idle x = x) as E by (intros [] H; cbn in *; by rewrite list_insert_id).
  rewrite E; [constructor|]. by destruct s, o.
Qed.

End solo.

(** What [reload_now] does alone is what its steps do. *)
Lemma reload_now_reach call var i p : pc p (Admin i) = Some Idle -> reach (Reload.step call var) p (reload_now call var p).2.
Proof.
  intros Hp. apply (reach_trans _ _ (set_pc (Admin i) Begin p)).
  { apply (reach_step _ _ (LRequest i) p); [constructor|]. destruct p. cbn in *. by rewrite Hp. }
  assert (is_Some (pc p (Admin i))) as Hp' by done. eapply solo_next; [by rewrite solo_step|]. unfold reload_now. set (s := set_draining true p).
  assert (pc s (Admin i) = Some Idle) as Hs by (by destruct p). assert (is_Some (pc s (Admin i))) as Hs' by done. clearbody s. clear p Hp Hp'. unfold Config.reload. destruct var; cbn [negb].
  2:{ replace (set_cfg (cfg s) s) with s by (by destruct s). by apply tally_reach. }
  eapply solo_next; [by rewrite solo_step|]. set (c1 := set_raw_file (file_at s (now s)) (cfg s)).
  apply (reach_trans _ _ (set_pc (Admin i) ReadParse (set_cfg c1 s))).
  { subst c1. destruct (file_at s (now s)) as [text|]; cbn [set_raw_file]; [by apply storing_reach|]. replace (set_cfg (cfg s) s) with s by (by destruct s). constructor. }
  set (s1 := set_cfg c1 s). assert (pc s1 (Admin i) = Some Idle) as Hs1 by (by destruct s). apply (reach_trans _ _ _ _ (parsing_reach _ _ _ s1 ltac:(done))).
  replace (file_at s1 (now s1)) with (file_at s (now s)) by (by destruct s). replace (call_now call s1) with (call_now call s) by (by destruct s).
  replace (cfg s1) with c1 by (by destruct s).
  destruct (parse_from_path (call_now call s) (file_at s (now s))) as [d|r]; cbn zeta; [|by apply tally_reach].
  replace (set_cfg _ s1) with (set_cfg (set_generation (wrapping_add 64 (GENERATION (set_cell d c1)) 1) (set_cell d c1)) s) by (by destruct s).
  apply tally_reach. by destruct s.
Qed.

(** ** Responses as they are read: by the host's own readers of a head *)
Definition reply_of (resp : bytes) : option (Z * bytes) :=
  p ← head_end resp;
  n ← declared_length (take p resp);
  status ← parse_uint 16 (slice 9 12 resp);
  if Z.of_nat (length (drop p resp)) =? n then Some (status, drop p resp) else None.

Definition plain_line (s : string) : bool := bool_decide (Forall (fun b => b <> CR) (bs s)) && negb (bool_decide (bs s = [])).

Definition response_lines (status : Z) (content_type : string) (body : bytes) : list bytes :=
  [bs "HTTP/1.1 " ++ to_dec status ++ [32] ++ bs (reason_phrase status); bs "Content-Type: " ++ bs content_type;
   bs "Content-Length: " ++ to_dec (Z.of_nat (length body)); bs "Connection: close"].

Lemma response_block status ct body : http_response status ct body = block (response_lines status ct body) ++ CRLF ++ body.
Proof. unfold http_response, response_lines. rewrite !block_cons. change (block []) with (@nil Z). rewrite <- !app_assoc. reflexivity. Qed.

Definition statuses : list Z := [200; 404; 405; 503].

Lemma dec_no_cr n : Forall (fun b => b <> CR) (to_dec n).
Proof. eapply Forall_impl; [apply (proj1 (to_dec_digits n))|]. cbn. unfold CR. lia. Qed.

Lemma no_cr_line s l : plain_line s = true -> Forall (fun b => b <> CR) l -> Lines.line_ok (bs s ++ l).
Proof.
  intros Hp Hl. unfold plain_line in Hp. apply andb_true_iff in Hp as [Hp1 Hp2]. apply bool_decide_eq_true in Hp1. split; [by apply no_cr_first_line, Forall_app_2|].
  apply negb_true_iff, bool_decide_eq_false in Hp2. by destruct (bs s).
Qed.

Lemma response_lines_ok status ct body : status ∈ statuses -> Forall (fun b => b <> CR) (bs ct) -> Forall Lines.line_ok (response_lines status ct body).
Proof.
  intros Hs Hct. unfold response_lines. rewrite !Forall_cons. split_and!; [|by apply no_cr_line|apply no_cr_line; [done|apply dec_no_cr]| |apply Forall_nil_2].
  - apply no_cr_line; [done|]. apply Forall_app_2; [apply dec_no_cr|]. unfold statuses in Hs. set_unfold in Hs. destruct_or! Hs; subst; apply (bool_decide_unpack _); vm_compute; exact I.
  - rewrite <- (app_nil_r (bs "Connection: close")). by apply no_cr_line.
Qed.

Lemma status_digits status ct body : status ∈ statuses -> parse_uint 16 (slice 9 12 (http_response status ct body)) = Some status.
Proof. unfold statuses. intros Hs. set_unfold in Hs. destruct_or! Hs; subst; reflexivity. Qed.

Lemma number_reads d : Forall (fun b => 48 <= b <= 57) d -> d <> [] -> utf8_valid d = true /\ str_trim d = d.
Proof.
  intros H Hn. split; [apply utf8_valid_ascii; eapply Forall_impl; [exact H|]; cbn; lia|]. apply trim_token.
  split; [done|]. eapply Forall_impl; [exact H|]. cbn. intros b Hb. unfold graphic. lia.
Qed.

Lemma reply_of_response status ct body : status ∈ statuses -> Forall (fun b => b <> CR) (bs ct) -> Http.line_value (bs "Content-Type: " ++ bs ct) (bs "content-length") = None ->
  fits 64 (Z.of_nat (length body)) -> reply_of (http_response status ct body) = Some (status, body).
Proof.
  intros Hs Hct Hcl Hb. unfold reply_of. rewrite status_digits by done. pose proof (response_lines_ok status ct body Hs Hct) as Hl. rewrite response_block, block_head by done.
  cbn [mbind option_bind]. rewrite take_app_add, drop_app_add. change (take 2 (CRLF ++ body)) with CRLF. change (drop 2 (CRLF ++ body)) with body.
  assert (declared_length (block (response_lines status ct body) ++ CRLF) = Some (Z.of_nat (length body))) as ->.
  { unfold declared_length. unfold response_lines in *. rewrite !Forall_cons in Hl. destruct Hl as ([L1 _] & [L2 _] & [L3 _] & _).
    rewrite block_cons, header_value_line by done. rewrite block_cons, header_value_line by done. rewrite block_cons, header_value_line by done.
    assert (Http.line_value (bs "HTTP/1.1 " ++ to_dec status ++ [32] ++ bs (reason_phrase status)) (bs "content-length") = None) as ->
      by (unfold statuses in Hs; set_unfold in Hs; destruct_or! Hs; subst; reflexivity).
    rewrite Hcl. destruct (to_dec_digits (Z.of_nat (length body))) as [Hd Hn]. 
    change (Http.line_value (bs "Content-Length: " ++ to_dec (Z.of_nat (length body))) (bs "content-length")) with (Some (trimmed (32 :: to_dec (Z.of_nat (length body))))).
    rewrite trimmed_digits by done. cbn [mbind option_bind]. destruct (number_reads _ Hd Hn) as [-> ->]. apply parse_to_dec. unfold fits, max_uint in *. lia. }
  cbn [mbind option_bind]. by rewrite Z.eqb_refl.
Qed.

(** ** Bytes *)
Lemma lossy_bytes f : forall l, Forall byte_ok l -> Forall byte_ok (lossy f l).
Proof.
  induction f as [|f IH]; intros l Hl; [constructor|]. destruct l as [|x l]; [constructor|]. cbn [lossy]. destruct (utf8_head (x :: l)) as [ok n].
  apply Forall_app_2; [|by apply IH, Forall_drop]. destruct ok; [by apply Forall_take|]. unfold REPLACEMENT, byte_ok. repeat constructor; lia.
Qed.

Lemma strip_cr_bytes l : Forall byte_ok l -> Forall byte_ok (strip_cr l).
Proof. intros Hl. unfold strip_cr. repeat case_match; try done. rewrite removelast_firstn_len. by apply Forall_take. Qed.

Lemma lines_bytes l : forall cur, Forall byte_ok cur -> Forall byte_ok l -> Forall (Forall byte_ok) (lines_from cur l).
Proof.
  induction l as [|b l IH]; intros cur Hc Hl; cbn [lines_from]; [destruct cur; [constructor|]; by apply Forall_singleton|]. inversion_clear Hl.
  case_match; [constructor; [by apply strip_cr_bytes|]|]; apply IH; try done. apply Forall_app_2; [done|]. by constructor.
Qed.

Definition hosts_ok (c : Config) : Prop := forall d, CELL c = Some d -> Forall (Forall byte_ok) (vproxy_hosts d).

Lemma projection_hosts ls : Forall (Forall byte_ok) ls -> forall p, Forall (Forall byte_ok) (p_vproxy p) -> Forall (Forall byte_ok) (p_vproxy (foldl projection_line p ls)).
Proof.
  induction 1 as [|l ls Hl Hls IH]; intros p Hp; [done|]. cbn [foldl]. apply IH. destruct p as [lb r l4 v]. unfold projection_line, vec_push.
  cbn [p_vproxy] in *. destruct (strip_prefix (bs "lb" ++ [TAB]) l); [done|]. destruct (strip_prefix (bs "routes" ++ [TAB]) l); [done|].
  destruct (strip_prefix (bs "vproxy" ++ [TAB]) l) as [h|] eqn:E; [|by case_bool_decide]. cbn. apply Forall_app_2; [done|]. apply Forall_singleton.
  apply strip_prefix_Some in E as ->. by apply Forall_app in Hl as [_ ?].
Qed.

Lemma parse_hosts call file d : (forall text out, call text = Some out -> Forall byte_ok out) -> parse_from_path call file = Ok d -> Forall (Forall byte_ok) (vproxy_hosts d).
Proof.
  intros Hcall H. unfold parse_from_path, parse_text in H. destruct file as [text|]; [|done]. destruct (call text) as [out|] eqn:E; [|done].
  unfold deployment_of in H. case_bool_decide; [done|]. destruct (p_lb _) as [lb|]; [|done]. injection H as <-. apply projection_hosts; [|constructor].
  apply lines_bytes; [constructor|]. by apply lossy_bytes, (Hcall text).
Qed.

Lemma pool_tag_bytes c : Forall byte_ok (pool_tag c).
Proof.
  unfold pool_tag. eapply Forall_impl; [apply hex_bytes_ok, to_be_bytes_ok|]. intros b Hb. unfold is_hex in Hb.
  assert (forallb (fun b => (0 <=? b) && (b <? 256)) HEX = true) as H by reflexivity. rewrite forallb_forall in H. rewrite list_elem_of_In in Hb. specialize (H _ Hb). unfold byte_ok. lia.
Qed.

(** ** What holds of what is reported: the numbers have the widths of the
    source's, and the listener is idle between connections. *)
Definition health_ok (b : BackendHealth) : Prop := fits 64 (bh_id b) /\ Forall byte_ok (bh_addr b) /\ fits 64 (bh_inflight b) /\ fits 64 (bh_failures b).

Record world_ok (checks : bool) (w : World) : Prop := {
  w_cfg : config_ok (cfg (proc w));
  w_hosts : hosts_ok (cfg (proc w));
  w_idle : pc (proc w) (Admin 0) = Some Idle;
  w_active : fits 64 (total_active (table w));
  w_counters : forall c, fits 64 (value (mets w) c);
  w_cache : fits 64 (Z.of_nat (entry_count (rcache w)));
  w_fleet : forall f, fleet w = Some f -> exists l, Fleet.snapshot checks f = Some l /\ Forall health_ok l
}.

(** ** What the answers state *)
Definition key (s : string) (v : Json) : bytes * Json := (bs s, v).
Definition text (s : string) : Json := JStr (bs s).

Definition config_value (c : Config) : Json :=
  match Config.get c with
  | Some d => JObj [key "active" (JBool true); key "generation" (JNum (generation c)); key "lb_policy" (JNum (lb_policy d)); key "routes" (JNum (route_count d));
                    key "vhosts" (JArr (List.map JStr (vproxy_hosts d)))]
  | None => JObj [key "active" (JBool false); key "generation" (JNum (generation c)); key "lb_policy" JNull; key "routes" (JNum 0); key "vhosts" (JArr [])]
  end.

Definition backend_value (b : BackendHealth) : Json :=
  JObj [key "id" (JNum (bh_id b)); key "address" (JStr (bh_addr b)); key "up" (JBool (bh_up b)); key "inflight" (JNum (bh_inflight b));
        key "breaker_open" (JBool (bh_open b)); key "breaker_failures" (JNum (bh_failures b))].

Definition backends_value (o : option (list BackendHealth)) : Json :=
  match o with
  | Some l => JObj [key "configured" (JBool true); key "backends" (JArr (List.map backend_value l))]
  | None => JObj [key "configured" (JBool false); key "backends" (JArr [])]
  end.

Definition connections_value (w : World) : Json :=
  JObj [key "active_connections" (JNum (total_active (table w))); key "requests_total" (JNum (requests_total (mets w)));
        key "bytes_out_total" (JNum (bytes_out_total (mets w))); key "draining" (JBool (draining (proc w)))].

Definition purge_value (n : nat) : Json :=
  JObj [key "status" (text "purged"); key "entries_purged" (JNum (Z.of_nat n)); key "note" (text "next request for each key misses")].
Definition drain_value (started : bool) : Json :=
  JObj [key "status" (text "draining"); key "started_by_this_call" (JBool started); key "healthz" (JNum 503)].
Definition applied_value (g : Z) : Json := JObj [key "status" (text "applied"); key "generation" (JNum g)].
Definition rejected_value (reason : bytes) (g : Z) : Json := JObj [key "status" (text "rejected"); key "reason" (JStr reason); key "generation" (JNum g)].
Definition no_config_value (g : Z) : Json := JObj [key "status" (text "no_config"); key "generation" (JNum g)].
Definition reloaded_value (tag : bytes) : Json := JObj [key "status" (text "reloaded"); key "pool" (JStr tag)].
Definition kept_value : Json := JObj [key "status" (text "kept_old"); key "reason" (text "certificate material did not load; keeping the previous pool")].

Lemma str_array_show l : json_str_array l = show (JArr (List.map JStr l)).
Proof. unfold json_str_array. cbn [show]. by rewrite List.map_map. Qed.

Lemma config_shown c : config_json c = show (config_value c) ++ [LF].
Proof. unfold config_json, config_value. destruct (Config.get c); [rewrite str_array_show|]; reflexivity. Qed.

Lemma backend_array_shown l : array (backend_json <$> l) = show (JArr (List.map backend_value l)).
Proof. change (array (backend_json <$> l) = array (List.map show (List.map backend_value l))). by rewrite List.map_map. Qed.

Lemma backends_shown checks w : backends_json checks w = match fleet w with Some f => l ← Fleet.snapshot checks f; Some (show (backends_value (Some l)) ++ [LF]) | None => Some (show (backends_value None) ++ [LF]) end.
Proof.
  unfold backends_json. destruct (fleet w) as [f|]; [|reflexivity]. destruct (Fleet.snapshot checks f) as [l|]; [|done]. cbn [mbind option_bind]. rewrite backend_array_shown. reflexivity.
Qed.

Lemma items_ok_Forall l : Forall json_ok l -> items_ok l.
Proof. induction 1; cbn; auto. Qed.

Lemma bytes_text s : Forall byte_ok (bs s).
Proof. induction s as [|c s IH]; constructor; [|done]. pose proof (Ascii.N_ascii_bounded c). unfold byte_ok. lia. Qed.

Ltac json_fields := unfold key, text in *; cbn [json_ok foldr]; split_and!; try apply bytes_text; try done.

Lemma config_value_ok c : config_ok c -> hosts_ok c -> json_ok (config_value c).
Proof.
  intros Hc Hh. unfold config_value, Config.get. pose proof (co_generation _ Hc) as Hg. unfold generation. destruct (CELL c) as [d|] eqn:E.
  - destruct (co_cell _ Hc d E) as [Hl Hr _ _]. pose proof (Hh d E) as Hv. json_fields.
    + unfold fits in *. lia.
    + unfold fits in *. lia.
    + apply items_ok_Forall, Forall_map. eapply Forall_impl; [exact Hv|]. done.
  - json_fields.
Qed.

Lemma backend_value_ok b : health_ok b -> json_ok (backend_value b).
Proof. intros (H1 & H2 & H3 & H4). unfold backend_value. json_fields. Qed.

(** The fleet as it is reported. *)
Definition reported (checks : bool) (w : World) : option (list BackendHealth) := fleet w ≫= Fleet.snapshot checks.

Lemma backends_answer checks w : world_ok checks w -> exists b, backends_json checks w = Some b /\ json_of b = Some (backends_value (reported checks w)).
Proof.
  intros Hw. rewrite backends_shown. unfold reported. destruct (fleet w) as [f|] eqn:E; cbn [mbind option_bind].
  - destruct (w_fleet _ _ Hw f E) as (l & -> & Hl). cbn [mbind option_bind]. eexists. split; [done|]. apply json_roundtrip. unfold backends_value. json_fields.
    apply items_ok_Forall, Forall_map. eapply Forall_impl; [exact Hl|]. apply backend_value_ok.
  - eexists. split; [done|]. apply json_roundtrip. unfold backends_value. json_fields.
Qed.

(** ** The drain *)
Lemma set_pc_drain t q p : drain_begun (set_pc t q p) = drain_begun p.
Proof. by destruct p, t. Qed.

Lemma reload_step_drain call var t p p' : reload_step call var t p = Some p' -> drain_begun p' = drain_begun p.
Proof.
  unfold reload_step. intros H. destruct (pc p t) as [[| | | | |[|st l]| |v|d| |o|o]|]; simplify_eq; rewrite set_pc_drain; destruct p; try done. by destruct o.
Qed.

Lemma drain_kept call var l p p' : Reload.step call var l p = Some p' -> drain_begun p = true -> drain_begun p' = true.
Proof.
  intros H Hd. destruct p as [c f rp dr db ra rr sd up w ad sn]. cbn in Hd. subst db.
  destruct l as [t| | | | | |i|[|i]]; cbn [Reload.step] in H; simplify_eq; try done; [by repeat case_match; simplify_eq| |by rewrite (reload_step_drain _ _ _ _ _ H)].
  destruct w; try (by rewrite (reload_step_drain _ _ _ _ _ H)); cbn in H; simplify_eq; done.
Qed.

Lemma drained_stays call var p p' : reach (Reload.step call var) p p' -> drain_begun p = true -> serving p' = false.
Proof.
  intros Hr Hd. assert (drain_begun p' = true) as H by (refine (reach_invariant _ (fun p => drain_begun p = true) _ _ Hd _ Hr); intros l x y Hx Hs; by apply (drain_kept _ _ _ _ _ Hs)). unfold serving. rewrite H. apply andb_false_r.
Qed.

(** ** The answers: for a method and a path, the state before and after, the
    status and the body *)
Section says.
Context (getenv : string -> option bytes) (call : bytes -> option bytes) (var checks : bool) (os_error : bytes).

Definition GET : bytes := bs "GET".
Definition POST : bytes := bs "POST".

(** The method of a path that is served. *)
Definition method_for (p : bytes) : option bytes :=
  if existsb (fun q => bytes_eqb p (bs q)) ["/metrics"; "/healthz"; "/admin/config"; "/admin/backends"; "/admin/connections"]%string then Some GET
  else if existsb (fun q => bytes_eqb p (bs q)) ["/admin/cache/purge"; "/admin/drain"; "/admin/reload"; "/admin/tls/reload"]%string then Some POST
  else None.

Inductive says (w : World) : bytes -> bytes -> World -> Z -> bytes -> Prop :=
  | SMetrics : says w GET (bs "/metrics") w 200 (render (mets w) (gauges w))
  | SHealthy : serving (proc w) = true -> says w GET (bs "/healthz") w 200 (bs "ok" ++ [LF])
  | SDraining : serving (proc w) = false -> says w GET (bs "/healthz") w 503 (bs "draining" ++ [LF])
  | SConfig b : json_of b = Some (config_value (cfg (proc w))) -> says w GET (bs "/admin/config") w 200 b
  | SBackends b : json_of b = Some (backends_value (reported checks w)) -> says w GET (bs "/admin/backends") w 200 b
  | SConnections b : json_of b = Some (connections_value w) -> says w GET (bs "/admin/connections") w 200 b
  | SPurge b c : json_of b = Some (purge_value (entry_count (rcache w))) -> entry_count c = 0%nat -> Cache.inflight c = Cache.inflight (rcache w) -> flights c = flights (rcache w) ->
      says w POST (bs "/admin/cache/purge") (set_rcache c w) 200 b
  | SDrain b p : json_of b = Some (drain_value (negb (drain_begun (proc w)))) -> drain_begun p = true -> Reload.step call var LBeginDrain (proc w) = Some p ->
      says w POST (bs "/admin/drain") (set_proc p w) 200 b
  | SApplied b p d g : json_of b = Some (applied_value g) -> reach (Reload.step call var) (proc w) p -> g = wrapping_add 64 (generation (cfg (proc w))) 1 ->
      generation (cfg p) = g -> Config.get (cfg p) = Some d -> parse_from_path (call_now call (proc w)) (file_at (proc w) (now (proc w))) = Ok d ->
      says w POST (bs "/admin/reload") (set_proc p w) 200 b
  | SRejected b p r : json_of b = Some (rejected_value (reason_text os_error r) (generation (cfg p))) -> reach (Reload.step call var) (proc w) p ->
      generation (cfg p) = generation (cfg (proc w)) -> Config.get (cfg p) = Config.get (cfg (proc w)) ->
      parse_from_path (call_now call (proc w)) (file_at (proc w) (now (proc w))) = Err r ->
      says w POST (bs "/admin/reload") (set_proc p w) 200 b
  | SNoConfig b : var = false -> json_of b = Some (no_config_value (generation (cfg (proc w)))) -> says w POST (bs "/admin/reload") (set_proc (set_draining false (proc w)) w) 200 b
  | SReloaded b c : json_of b = Some (reloaded_value (pool_tag c)) -> load_cert getenv (tls_files w) = Some c -> says w POST (bs "/admin/tls/reload") (set_pool c w) 200 b
  | SKept b : json_of b = Some kept_value -> load_cert getenv (tls_files w) = None -> says w POST (bs "/admin/tls/reload") w 200 b
  | SWrongMethod m p k : method_for p = Some k -> m <> k -> says w m p w 405 (bs "method not allowed" ++ [LF])
  | SUnknown m p : method_for p = None -> says w m p w 404 (bs "not found" ++ [LF]).
End says.

Section answering.
Context (getenv : string -> option bytes) (call : bytes -> option bytes) (var checks : bool) (os_error : bytes).
Context (call_bytes : forall text out, call text = Some out -> Forall byte_ok out) (os_bytes : Forall byte_ok os_error).

Local Abbreviation route_ := (route getenv call var checks os_error).
Local Abbreviation says_ := (says getenv call var checks os_error).

(** What a route gives: a response of that status and body, as it says, in a
    state that is still in order. *)
Definition answered (w : World) (m p : bytes) (r : option (bytes * World)) : Prop :=
  exists st ct b w', r = Some (http_response st ct b, w') /\ st ∈ statuses /\ ct ∈ [METRICS_TEXT; plain_text; "application/json; charset=utf-8"%string] /\
    says_ w m p w' st b /\ world_ok checks w' /\ reach (Reload.step call var) (proc w) (proc w').

Lemma answer_same w m p st ct b : world_ok checks w -> st ∈ statuses -> ct ∈ [METRICS_TEXT; plain_text; "application/json; charset=utf-8"%string] -> says_ w m p w st b ->
  answered w m p (Some (http_response st ct b, w)).
Proof. intros. exists st, ct, b, w. split_and!; try done. constructor. Qed.

Lemma purge_answered w : world_ok checks w -> answered w POST (bs "/admin/cache/purge") (let '(b, w') := cache_purge_json w in Some (json_response 200 b, w')).
Proof.
  intros Hw. unfold cache_purge_json. eexists 200, _, _, _. split; [reflexivity|]. split; [set_solver|]. split; [set_solver|]. split_and!; [|by destruct Hw; constructor|constructor].
  apply SPurge; [|done..]. apply (json_roundtrip (purge_value _)). pose proof (w_cache _ _ Hw). unfold purge_value. json_fields.
Qed.
Lemma set_proc_ok p w : config_ok (cfg p) -> hosts_ok (cfg p) -> pc p (Admin 0) = Some Idle -> world_ok checks w -> world_ok checks (set_proc p w).
Proof. intros H1 H2 H3 []. by constructor. Qed.

Lemma drain_answered w : world_ok checks w ->
  answered w POST (bs "/admin/drain") (let '(started, p) := begin_drain (proc w) in
    Some (json_response 200 (fields [("status", literal "draining"); ("started_by_this_call", show_bool started); ("healthz", bs "503")]%string ++ [LF]), set_proc p w)).
Proof.
  intros Hw. assert (Reload.step call var LBeginDrain (proc w) = Some (begin_drain (proc w)).2) as Hs by (by destruct (proc w)).
  assert ((begin_drain (proc w)).1 = negb (drain_begun (proc w)) /\ drain_begun (begin_drain (proc w)).2 = true /\ cfg (begin_drain (proc w)).2 = cfg (proc w) /\
          pc (begin_drain (proc w)).2 (Admin 0) = pc (proc w) (Admin 0)) as (E1 & E2 & E3 & E4) by (by destruct (proc w)).
  destruct (begin_drain (proc w)) as [started p]. cbn [fst snd] in *. subst started. eexists 200, _, _, _. split; [reflexivity|]. split; [set_solver|]. split; [set_solver|]. split_and!.
  - apply SDrain; [|done..]. apply (json_roundtrip (drain_value _)). unfold drain_value. json_fields.
  - apply set_proc_ok; rewrite ?E3, ?E4; by apply Hw.
  - apply (reach_step _ _ LBeginDrain (proc w)); [constructor|done].
Qed.

Lemma tls_answered w : world_ok checks w -> answered w POST (bs "/admin/tls/reload") (let '((st, b), w') := tls_reload_json getenv w in Some (json_response st b, w')).
Proof.
  intros Hw. unfold tls_reload_json, tls_reload. destruct (load_cert getenv (tls_files w)) as [c|] eqn:E.
  - eexists 200, _, _, _. split; [reflexivity|]. split; [set_solver|]. split; [set_solver|]. split_and!; [|by destruct Hw; constructor|constructor].
    apply SReloaded; [|done]. apply (json_roundtrip (reloaded_value _)). unfold reloaded_value. json_fields. apply pool_tag_bytes.
  - apply answer_same; [done|set_solver..|]. apply SKept; [|done]. apply (json_roundtrip kept_value). unfold kept_value. json_fields.
Qed.

Lemma raw_file_keeps file c : CELL (set_raw_file file c) = CELL c /\ GENERATION (set_raw_file file c) = GENERATION c.
Proof using. by destruct file, c. Qed.

(** What a reload leaves. *)
Lemma reload_now_spec p : config_ok (cfg p) -> hosts_ok (cfg p) ->
  let '(o, p') := reload_now call var p in
  config_ok (cfg p') /\ hosts_ok (cfg p') /\ pc p' = pc p /\
  match o with
  | Applied g => g = wrapping_add 64 (generation (cfg p)) 1 /\ generation (cfg p') = g /\
      exists d, Config.get (cfg p') = Some d /\ parse_from_path (call_now call p) (file_at p (now p)) = Ok d
  | KeptOld r => generation (cfg p') = generation (cfg p) /\ Config.get (cfg p') = Config.get (cfg p) /\ parse_from_path (call_now call p) (file_at p (now p)) = Err r
  | NoConfig => var = false /\ p' = set_draining false p
  end.
Proof.
  intros Hc Hh. unfold reload_now.
  pose proof (reload_typed (call_now call (set_draining true p)) var (file_at (set_draining true p) (now (set_draining true p))) (file_at (set_draining true p) (now (set_draining true p))) (cfg (set_draining true p))) as Ht.
  replace (cfg (set_draining true p)) with (cfg p) in * by (by destruct p). replace (call_now call (set_draining true p)) with (call_now call p) in * by (by destruct p).
  replace (file_at (set_draining true p) (now (set_draining true p))) with (file_at p (now p)) in * by (by destruct p). specialize (Ht Hc).
  assert (forall o c, cfg (set_draining false (tally o (set_cfg c (set_draining true p)))) = c /\ pc (set_draining false (tally o (set_cfg c (set_draining true p)))) = pc p) as Hframe
    by (intros o c; by destruct p, o).
  pose proof (raw_file_keeps (file_at p (now p)) (cfg p)) as [Kc Kg]. unfold Config.reload in *. destruct var; cbn [negb] in *.
  2:{ destruct (Hframe NoConfig (cfg p)) as [-> ->]. split_and!; try done. by destruct p. }
  destruct (parse_from_path (call_now call p) (file_at p (now p))) as [d|r] eqn:E; cbn [snd] in Ht.
  - destruct (Hframe (Applied (wrapping_add 64 (GENERATION (set_cell d (set_raw_file (file_at p (now p)) (cfg p)))) 1))
      (set_generation (wrapping_add 64 (GENERATION (set_cell d (set_raw_file (file_at p (now p)) (cfg p)))) 1) (set_cell d (set_raw_file (file_at p (now p)) (cfg p))))) as [-> ->].
    split; [done|]. unfold generation, Config.get in *. rewrite <- Kg. destruct (set_raw_file (file_at p (now p)) (cfg p)). cbn in *. split_and!; try done; [|by exists d].
    intros d' [= <-]. refine (parse_hosts _ _ _ _ E). intros text out. unfold call_now. destruct (serve_up p); [apply call_bytes|done].
  - destruct (Hframe (KeptOld r) (set_raw_file (file_at p (now p)) (cfg p))) as [-> ->]. unfold generation, Config.get, hosts_ok in *. rewrite Kc, Kg. done.
Qed.

Lemma reason_bytes r : Forall byte_ok (reason_text os_error r).
Proof. destruct r; cbn [reason_text]; try apply bytes_text. apply Forall_app_2; [apply bytes_text|]. apply Forall_app_2; [done|apply bytes_text]. Qed.

Lemma reload_answered w : world_ok checks w -> answered w POST (bs "/admin/reload") (let '((st, b), w') := reload_json call var os_error w in Some (json_response st b, w')).
Proof.
  intros Hw. pose proof (reload_now_spec (proc w) (w_cfg _ _ Hw) (w_hosts _ _ Hw)) as Hs. pose proof (reload_now_reach call var 0 (proc w) (w_idle _ _ Hw)) as Hr.
  unfold reload_json. destruct (reload_now call var (proc w)) as [o p]. cbn [snd] in Hr. destruct Hs as (Hc & Hh & Hp & Ho).
  eexists 200, _, _, _. split; [reflexivity|]. split; [set_solver|]. split; [set_solver|]. split_and!; [|apply set_proc_ok; [done..|rewrite Hp; apply Hw|done]|done].
  pose proof (co_generation _ Hc) as Hg. destruct o as [g|r|].
  - destruct Ho as (-> & Hg' & d & Hd & Hp'). apply (SApplied _ _ _ _ _ _ _ p d (wrapping_add 64 (generation (cfg (proc w))) 1)); [|done..]. apply (json_roundtrip (applied_value _)). unfold applied_value. json_fields. by rewrite <- Hg'.
  - destruct Ho as (Hg' & Hd & Hp'). eapply SRejected; [|done..]. apply (json_roundtrip (rejected_value _ _)). unfold rejected_value. json_fields. apply reason_bytes.
  - destruct Ho as [Hv ->]. replace (cfg (set_draining false (proc w))) with (cfg (proc w)) in * by (by destruct (proc w)). apply SNoConfig; [done|].
    apply (json_roundtrip (no_config_value _)). unfold no_config_value. json_fields.
Qed.
Lemma fallback_answered w m p : world_ok checks w -> (forall k, method_for p = Some k -> m <> k) ->
  answered w m p (if is_known_path p then Some (http_response 405 plain_text (bs "method not allowed" ++ [LF]), w) else Some (http_response 404 plain_text (bs "not found" ++ [LF]), w)).
Proof.
  intros Hw Hm. assert (is_known_path p = bool_decide (is_Some (method_for p))) as ->.
  { unfold method_for. match goal with |- context [existsb ?f ?a] => match goal with |- context [existsb f ?b] => change (is_known_path p) with (existsb f (a ++ b)); rewrite existsb_app; by destruct (existsb f a), (existsb f b) end end. }
  case_bool_decide as Hk.
  - destruct Hk as [k Hk]. apply answer_same; [done|set_solver..|]. eapply SWrongMethod; [done|by apply Hm].
  - apply answer_same; [done|set_solver..|]. apply SUnknown. destruct (method_for p); [|done]. by destruct Hk.
Qed.

Lemma asks_or (m p : bytes) (a b : string) : (m = bs a /\ p = bs b) \/ bytes_eqb m (bs a) && bytes_eqb p (bs b) = false /\ (p = bs b -> m <> bs a).
Proof using.
  destruct (bytes_eqb m (bs a)) eqn:E1, (bytes_eqb p (bs b)) eqn:E2; rewrite ?bytes_eqb_eq, ?bytes_eqb_neq in *; auto.
Qed.

Lemma route_answered w m p : world_ok checks w -> answered w m p (route_ m p w).
Proof.
  intros Hw. unfold route. cbv zeta.
  repeat match goal with
  | |- answered _ _ _ (if bytes_eqb m (bs ?a) && bytes_eqb p (bs ?b) then _ else _) => destruct (asks_or m p a b) as [[-> ->]|[-> ?]]; [|cbv iota]
  end.
  - apply answer_same; [done|set_solver..|constructor].
  - destruct (serving (proc w)) eqn:E; (apply answer_same; [done|set_solver..|by constructor]).
  - apply answer_same; [done|set_solver..|]. constructor. rewrite config_shown. apply json_roundtrip, config_value_ok; apply Hw.
  - destruct (backends_answer checks w Hw) as (b & -> & Hb). cbn [mbind option_bind]. apply answer_same; [done|set_solver..|by constructor].
  - apply answer_same; [done|set_solver..|]. constructor. apply (json_roundtrip (connections_value w)). unfold connections_value. json_fields; apply Hw.
  - by apply purge_answered.
  - by apply drain_answered.
  - by apply reload_answered.
  - by apply tls_answered.
  - apply fallback_answered; [done|]. intros k Hk -> . unfold method_for in Hk. cbn [existsb] in Hk.
    repeat match type of Hk with context [bytes_eqb p (bs ?b)] => destruct (bytes_eqb p (bs b)) eqn:?; rewrite ?bytes_eqb_eq, ?bytes_eqb_neq in *; cbn [orb] in Hk; [simplify_eq; naive_solver|] end. done.
Qed.

(** ** One connection *)
Lemma content_types_ok ct : ct ∈ [METRICS_TEXT; plain_text; "application/json; charset=utf-8"%string] ->
  Forall (fun b => b <> CR) (bs ct) /\ Http.line_value (bs "Content-Type: " ++ bs ct) (bs "content-length") = None.
Proof using. intros H. set_unfold in H. destruct_or! H; subst; (split; [apply (bool_decide_unpack _); vm_compute; exact I|reflexivity]). Qed.
End answering.

(** A request for a path, with or without a query, whose bytes come in any
    pieces. *)
Definition word_of (l : bytes) : Prop := Forall (fun b => b <> CR /\ b <> 32) l.

Inductive asked (m p : bytes) : list read_ev -> Prop :=
  | Asked q tail cuts more :
      concat cuts = m ++ 32 :: (p ++ q) ++ 32 :: tail -> Forall (fun c => c <> []) cuts ->
      head_at_end (concat cuts) -> (length (concat cuts) <= HEAD_CAP)%nat ->
      word_of m -> word_of p -> Forall (fun b => b <> 63) p -> (q = [] \/ exists q', q = 63 :: q' /\ word_of q') ->
      asked m p (pieces cuts ++ more).

Lemma split_first (p : Z -> bool) l y : Forall (fun b => p b = false) l -> exists seg rest, split_on p (l ++ y) = (l ++ seg) :: rest /\ split_on p y = seg :: rest.
Proof.
  induction 1 as [|x l Hx _ (seg & rest & IH & E)]; [|by exists seg, rest; cbn [app split_on]; rewrite Hx, IH].
  destruct (split_on p y) as [|seg rest] eqn:E; [|by exists seg, rest]. destruct y as [|x y]; cbn [split_on] in E; [done|]. by repeat case_match.
Qed.

Lemma asked_line m p rx : asked m p rx -> exists buf more, read_head rx = Some (Ok buf, more) /\ request_line buf = (m, p).
Proof.
  intros [q tail cuts more Hreq Hp Hh Hs Hm Hpw Hpq Hq]. exists (concat cuts), more.
  assert (cuts <> []) as Hc by (intros ->; by destruct m).
  split; [by apply (read_head_exact _ []); [apply pieces_weight|..]|]. rewrite Hreq. unfold request_line.
  assert (word_of (p ++ q)) as Hpq'.
  { apply Forall_app_2; [done|]. destruct Hq as [-> |(q' & -> & Hq)]; [constructor|]. constructor; [by unfold CR|done]. }
  destruct (split_first (fun b => b =? CR) (m ++ 32 :: p ++ q) (32 :: tail)) as (seg & rest & E & E').
  { apply Forall_app_2; [eapply Forall_impl; [exact Hm|]; intros b [? _]; by apply Z.eqb_neq|]. constructor; [done|]. eapply Forall_impl; [exact Hpq'|]. intros b [? _]. by apply Z.eqb_neq. }
  assert (exists t, seg = 32 :: t) as [t ->]. { cbn [split_on] in E'. change (32 =? CR) with false in E'. cbv iota in E'. destruct (split_on _ tail); simplify_eq; eauto. }
  replace (m ++ 32 :: (p ++ q) ++ 32 :: tail) with ((m ++ 32 :: p ++ q) ++ 32 :: tail) by (by rewrite <- app_assoc). rewrite E. cbn [List.head default id].
  assert (forall l, word_of l -> Forall (fun b => (b =? 32) = false) l) as Hw by (intros l Hl; eapply Forall_impl; [exact Hl|]; intros b [_ ?]; by apply Z.eqb_neq).
  rewrite <- app_assoc. cbn [app]. rewrite split_on_line, split_on_line by (done || by apply Hw). cbn [lookup list_lookup default id]. f_equal.
  assert (Forall (fun b => (b =? 63) = false) p) as H63 by (eapply Forall_impl; [exact Hpq|]; intros b ?; by apply Z.eqb_neq).
  destruct Hq as [-> |(q' & -> & _)]; [by rewrite app_nil_r, split_on_none|by rewrite split_on_line].
Qed.

(** C17. The operator's listener. Whatever is sent to it, the connection is
    finished without a panic, the state stays in order and the process only takes
    steps of the reconfiguration: an error while the head is read changes and
    writes nothing; otherwise one response is written, or a prefix of it when
    the client is gone, that the host's own readers split into the status and
    the whole body, and these are as [says] has it for the method and the path:
    a 405 exactly for a known path with another method, a 404 for any other
    path, nothing changed but by the four that change something, and a JSON
    text that reads back as the values of the components, whatever bytes the
    names of hosts, the addresses and the reasons hold. A request that comes in
    any pieces is answered for its method and its path, without the query. Once
    a drain has begun, the health check fails after any steps of the process. *)
Theorem admin_sound getenv call var checks os_error s w :
  (forall text out, call text = Some out -> Forall byte_ok out) -> Forall byte_ok os_error -> world_ok checks w -> rx_ok (s_rx s) ->
  exists h rx r s' w',
    read_head (s_rx s) = Some (h, rx) /\ handle_admin getenv call var checks os_error s w = Some (r, s', w') /\
    world_ok checks w' /\ reach (Reload.step call var) (proc w) (proc w') /\
    (drain_begun (proc w') = true -> forall p, reach (Reload.step call var) (proc w') p -> serving p = false) /\
    match h with
    | Err e => r = Err e /\ w' = w /\ s_tx s' = s_tx s
    | Ok buf => exists st b resp sent,
        (let '(m, p) := request_line buf in says getenv call var checks os_error w m p w' st b) /\
        (forall m p, asked m p (s_rx s) -> says getenv call var checks os_error w m p w' st b) /\
        (fits 64 (Z.of_nat (length b)) -> reply_of resp = Some (st, b)) /\
        sent `prefix_of` resp /\ wire (s_tx s') = wire (s_tx s) ++ sent /\ (r = Ok () -> sent = resp)
    end.
Proof.
  intros Hcall Hos Hw Hrx. destruct (read_head_total (S (weight (s_rx s))) [] (s_rx s) Hrx ltac:(lia)) as (h & rx & Eh & _). fold (read_head (s_rx s)) in Eh.
  unfold handle_admin. rewrite Eh. cbn [mbind option_bind]. destruct h as [buf|e].
  2:{ eexists _, _, _, _, w. split; [done|]. split; [done|]. split; [done|]. split; [constructor|]. split; [by intros Hd p Hp; eapply drained_stays|done]. }
  destruct (request_line buf) as [m p] eqn:El. destruct (route_answered getenv call var checks os_error Hcall Hos w m p Hw) as (st & ct & b & w' & -> & Hst & Hct & Hsays & Hw' & Hreach).
  cbn [mbind option_bind]. destruct (write_all _ (s_tx s)) as [r tx] eqn:Ew. eexists _, _, _, _, w'. split; [done|]. split; [done|]. split; [done|]. split; [done|].
  split; [by intros Hd p' Hp; eapply drained_stays|]. destruct (write_all_wire _ _ _ _ Ew) as (sent & Hsent & Hwire).
  exists st, b, (http_response st ct b), sent. rewrite El. destruct (content_types_ok ct Hct) as [Hct1 Hct2]. split_and!; try done.
  - intros m' p' Ha. apply asked_line in Ha as (buf' & more & E1 & E2). rewrite Eh in E1. injection E1 as <- <-. rewrite El in E2. by injection E2 as <- <-.
  - by apply reply_of_response.
  - intros ->. apply write_all_Ok in Ew as [_ ->]. cbn in Hwire. by apply app_inv_head in Hwire.
Qed.

(** A deployment with a host that needs escaping, and a drain asked for in two
    pieces. *)
Definition demo_call (_ : bytes) : option bytes := Some (bs "lb" ++ [TAB] ++ bs "1" ++ [LF] ++ bs "vproxy" ++ [TAB; 97; 34; 92; 7; 98; LF]).
Definition demo_world : World :=
  mkWorld (booted demo_call true (Some (bs "x")) (Some (bs "x")) 1) metrics_new (SharedStanding_new 1) ResponseCache_new None None (fun _ => None) (mkTlsCert [] [] [] [] [] [] [] []).
Definition demo_socket (line : bytes) : Socket := mkSocket [Data (take 5 line); Data (drop 5 line ++ CRLFCRLF)] (Sink [] (Z.to_nat 1000) []).

Example demo_config :
  option_map (fun '(r, s, _) => option_map (fun '(st, b) => (st, json_of b)) (reply_of (wire (s_tx s)))) (handle_admin (fun _ => None) demo_call true true [] (demo_socket (bs "GET /admin/config?x HTTP/1.1")) demo_world) =
  Some (Some (200, Some (JObj [key "active" (JBool true); key "generation" (JNum 1); key "lb_policy" (JNum 1); key "routes" (JNum 0); key "vhosts" (JArr [JStr [97; 34; 92; 7; 98]])]))).
Proof. vm_compute. reflexivity. Qed.

Lemma admin_sound_witness :
  exists r s' w', handle_admin (fun _ => None) demo_call true true (bs "denied") (demo_socket (bs "POST /admin/drain HTTP/1.1")) demo_world = Some (r, s', w') /\
    forall p, reach (Reload.step demo_call true) (proc w') p -> serving p = false.
Proof.
  destruct (admin_sound (fun _ => None) demo_call true true (bs "denied") (demo_socket (bs "POST /admin/drain HTTP/1.1")) demo_world) as (h & rx & r & s' & w' & _ & E & _ & _ & Hd & _).
  - intros t out [= <-]. apply (bool_decide_unpack _). vm_compute. exact I.
  - apply bytes_text.
  - constructor; [apply load_typed, initial_typed| |reflexivity|split; reflexivity || discriminate|intros c; split; reflexivity || discriminate|split; reflexivity || discriminate|done].
    intros d Hc. vm_compute in Hc. injection Hc as <-. apply (bool_decide_unpack _). vm_compute. exact I.
  - unfold rx_ok. cbn [demo_socket s_rx]. rewrite !Forall_cons. split_and!; [apply (bool_decide_unpack _); vm_compute; exact I..|apply Forall_nil_2].
  - exists r, s', w'. split; [exact E|]. apply Hd.
    assert (option_map (fun x => drain_begun (proc x.2)) (handle_admin (fun _ => None) demo_call true true (bs "denied") (demo_socket (bs "POST /admin/drain HTTP/1.1")) demo_world) = Some true) as Ed by (vm_compute; reflexivity).
    rewrite E in Ed. by injection Ed.
Defined.
